(* ===== verification/_CoqProject ===== *)
-Q . S2P
Prelude.v
Status.v
Wire.v
Protocol.v
ProtocolCodec.v
Crc.v
Cobs.v
Frame.v
Packed.v
TypeGraph.v
Lifecycle.v
LifecycleEffects.v
LifecycleSafety.v
LifecycleProps.v
Metrics.v
MetricsSlots.v
MetricsProps.v
MetricsAtomic.v
MetricsSeqlock.v
MetricsAtomicProps.v
Interleave.v
Bus.v
BusQueue.v
BusBooks.v
BusPrograms.v
BusThreads.v
BusProps.v
BusLatest.v
BusEmit.v
BusExamples.v
Events.v
EventsHistory.v
EventsRings.v
EventsOrder.v
EventsProps.v
EventsExamples.v
ParametersRecord.v
Parameters.v
ParametersPrograms.v
ParametersBoot.v
ParametersSafe.v
ParametersProps.v
ParametersDurable.v
ParametersExamples.v
RemoteLink.v
RemoteService.v
RemoteReassembly.v
RemoteSend.v
RemoteDrive.v
RemoteDelivery.v
RemoteExamples.v
KernelWork.v
Execution.v
ExecutionProps.v
ExecutionOutcomes.v
ExecutionExamples.v
RemoteRuntime.v
RemotePublish.v
RemoteRing.v
RemotePublishProps.v
RemoteInterest.v
RemotePublishExamples.v
RemoteRequests.v
RemoteRequestsProps.v
RemoteRequestsExamples.v
RemoteInStreams.v
RemoteInStreamsProps.v
RemoteInStreamsExamples.v
Health.v
HealthProps.v
Supervisor.v
SupervisorCycle.v
SupervisorProps.v
SupervisorExamples.v
