(* ===== verification/Prelude.v ===== *)
(** * Solar: verification library

    Solar is a C++20 framework for firmware on Zephyr.  A system is a set of
    components (facilities and services) composed at compile time; a lifecycle
    engine initialises, starts and stops them in the order of their
    dependencies; the facilities offer metrics, an event log, a message bus and
    parameters to the application; executors run the work it registers; the
    health facility gathers evidence about the components and a supervisor
    responds to it and feeds the watchdog; and a Remote service makes all of it
    available to a host over framed byte links.  This library models these
    subsystems of [src/include/solar/] as executable definitions and proves
    what each promises.

    ** Conventions

    An integer of w bits is a [Z] with its wrap-around written out ([wrap],
    [u8] to [u64], [inc32], [inc64]); a byte is a [Z] below 256 and a
    [std::span] the list of its bytes; [std::size_t] has 64 bits.  A
    structure is a record, updated by [r <| f := v |>]; [result] is
    [solar::Result].  [None] is what C++ leaves undefined (an access outside
    an array, signed overflow) or the fuel of a loop used up; theorems about
    a component include that it is not reached.  Concurrent operations are
    programs of atomic steps (Interleave.v): a section under a lock or one
    atomic access is a step, a schedule interleaves the threads and gives each
    step its environment (clock, interrupt flag, answers of other code), and
    [safe] is the proof rule for invariants under every interleaving.  Code
    outside the repository is an interface: a class with its operations and a
    class with the laws the code relies on, discharged for the host build
    where the source contains it.

    ** The parts, and where they are

    - Status (core/status.hpp): statuses and errno values.
    - Wire, Protocol, ProtocolCodec (remote/types.hpp, remote/protocol.hpp):
      the messages of the Remote protocol; ProtocolCodec has the layouts.
    - Crc, Cobs, Frame (remote/frame.hpp): checksum, byte stuffing, frames and
      the stream decoder, over the interface [Platform].
    - Packed (remote/packed.hpp): payloads of fixed layout.
    - TypeGraph (core/type_list.hpp, system/graph.hpp): the compile-time check
      and sort of the component graph, which the lifecycle engine follows.
    - Lifecycle, then LifecycleEffects, LifecycleSafety, LifecycleProps
      (lifecycle/types.hpp, hooks.hpp, engine.hpp): boot, rollback, stop.
    - Metrics, MetricsSlots, MetricsProps (metrics/types.hpp, policy.hpp,
      reducer.hpp, storage.hpp): instruments and the locked slot; MetricsAtomic,
      MetricsSeqlock, MetricsAtomicProps: the lock-free slot.
    - Bus, then BusQueue, BusBooks, BusPrograms, BusThreads, BusProps,
      BusLatest, BusEmit, BusExamples (bus/facility.hpp, runtime.hpp, types.hpp,
      delivery.hpp, policy.hpp): routes, emission and draining.
    - Events, then EventsHistory, EventsRings, EventsOrder, EventsProps,
      EventsExamples (events/runtime.hpp, facility.hpp, types.hpp, policy.hpp):
      the byte history, the ingress rings, capture and processing.
    - ParametersRecord, Parameters, ParametersPrograms, ParametersBoot, then
      ParametersSafe, ParametersProps, ParametersDurable, ParametersExamples
      (parameters/codec.hpp, persistence.hpp, policy.hpp, types.hpp,
      facility.hpp, runtime.hpp): validation, transactions, persistence, boot.
    - RemoteLink, RemoteService, then RemoteReassembly, RemoteSend, RemoteDrive,
      RemoteDelivery, RemoteExamples (remote/service.hpp, link.hpp,
      facility.hpp): the lanes and fragments of a link, its responses, the
      sessions and the event loop.  What the service calls in the application
      above it is the interface [Application].
    - RemoteRuntime, RemotePublish, then RemoteRing, RemotePublishProps,
      RemoteInterest, RemotePublishExamples (remote/runtime.hpp): the rings and
      loans of published values, their delivery to the subscribed links, and
      the subscriptions; [Catalog] is what the declarations say.
      RemoteRequests, RemoteRequestsProps, RemoteRequestsExamples (the same
      file): actions, queries and updates, their workers and responders.
      RemoteInStreams, RemoteInStreamsProps, RemoteInStreamsExamples (the same
      file): the streams of values from the host, their windows and credits.
    - KernelWork (kernel/work.hpp, triggered_work.hpp): work items around the
      interface [Kernel]; Execution, then ExecutionProps, ExecutionOutcomes,
      ExecutionExamples (execution/runtime.hpp, types.hpp): registrations of
      work, their handler, and the executors that contain them.
    - Health, HealthProps (health/facility.hpp, runtime.hpp, types.hpp): the
      evidence, its aggregation, the records and their history; what other
      facilities say is part of the environment of a step.
    - Supervisor, then SupervisorCycle, SupervisorProps, SupervisorExamples
      (supervisor/service.hpp, types.hpp, policy.hpp, api.hpp), on the world of
      Health: rules, actions, the cycle, the gate of the watchdog, the service.

    In the files that model a component a definition has the name of the
    function it translates; where a function is cut into sections of a lock,
    the parts have names of their own and the function composes them.

    ** What is shown

    - A system: [graph_accepted] and [graph_order] (the graph is accepted
      exactly when it is acyclic and complete, and sorted after its
      dependencies); [lifecycle_safe] (a component is up as long as another
      needs it, whatever the hooks answer); [boot_outcome], [stop_outcome],
      [clean_run].
    - Bytes on a link: [messages_roundtrip]; [frame_roundtrip], [frame_decode_sound],
      [frame_burst_rejected]; [feed_refines],
      [stream_delivers] for the decoder.  Of the same kind, [packed_roundtrip],
      [messages_canonical], [envelope_roundtrip], [cobs_roundtrip],
      [envelope_decode_sound], [packed_decode_sound],
      [feed_chunks], [messages_total], [status_code_bijection],
      [status_errno_roundtrip].
    - Messages on a link: [message_delivered] composes lanes, fragments,
      frames, decoder and reassembly; [fragments_reassembled] is about
      fragments of several messages that arrive interleaved.
    - Publications: [publication_not_stranded] under every interleaving of
      writers and the service: a value in a ring is announced;
      [interest_is_subscribers], by which writers know whether to announce;
      [ring_refines_queue].
    - Requests: [request_handled_once] (no handler runs twice for a request)
      and, while the execution facility takes its work, [requests_accounted]
      (the budget is neither overdrawn nor lost), under every interleaving of
      sessions, workers and responders.
    - In-streams: [credits_within_window] under every interleaving of sessions
      and consumers, while the execution facility takes its work: a link never
      holds more credits than there are free slots.
    - Metrics: [counter_total], [reading_refines] (a reading of integer values is
      the summary of the accepted history), with [slot_accounting] and [slot_defined];
      [atomic_snapshot], [atomic_counter_total], [atomic_progress] for the
      lock-free slot.
    - Bus: [queued_delivery] and [latest_delivery] under every interleaving of
      emitters, one drain and readers, while the executor accepts every
      submission; [emit_outcome] for the own steps of an emission, whatever the
      others and the executor do.
    - Events: [events_in_order] under every interleaving; [history_refines].
    - Parameters: [parameters_well_typed] and [snapshots_consistent] under
      every interleaving; [saved_values_restored] across a reboot.
    - Execution: [admitted_work_runs] under every interleaving of clients and
      workers, for a registration that is not suspended; [submission_decided]
      and [executor_contained] on every branch, without interference.
      [auto_rearm_fails] is about a defect.
    - Health: [records_follow_evidence] under every interleaving: what the
      conditions say of the evidence, and the system of its components.
    - Supervisor: [stalled_component_starves_watchdog] under every interleaving:
      no progress, no feed; [cycle_outcome] for one cycle, which returns, its
      responses and its feed; [attempts_paced] for the attempts of a rule and
      what each does.

    Files that end in Examples, and examples elsewhere, run the definitions on
    concrete inputs; some show where the code departs from what its
    documentation says.

    ** Bounds and fuel

    The loops over lists are structural.  [decode_loop] of Cobs takes the
    length of its input as fuel, every round consuming a byte; the closure of
    [mark_dependency_closure] takes the number of components, since it goes
    down an acyclic graph; both are shown to be enough.  Loops that wait for others
    (the exchange of [add] and the retry of [get] in MetricsAtomic, a lock
    taken by another thread in ParametersPrograms) take fuel, and a theorem
    about them holds for every fuel; a thread whose fuel is used up stalls, and
    MetricsSeqlock shows that a schedule never uses more than its length.
    [RemoteServices.run] is bounded by the rounds of its loop.  In Execution,
    [skip_releases] has the fuel [skip_releases_enough] shows enough, the
    exchanges of the admission counter take any fuel, and the wait of a
    containment is bounded by its rounds: with one round it has an answer if
    its registrations are idle or the deadline has expired
    ([executor_contained]).  The drains of
    [run_pending_in_stream] and [drain_isr] take fuel, since others refill what
    they empty; [cycle_outcome] shows how much is enough without interference.
    The loop of [Supervisors.run] is bounded by its cycles.  Configuration
    constants are fields of a class with the ranges of zephyr/Kconfig as laws.

    ** Not modelled

    Weak memory orders (memory is sequentially consistent), compile-time
    validation of declarations and the templates that only forward to the
    modelled functions, Zephyr itself and its drivers.  The read-only records
    of the Remote service, the polling of links and the contents of the
    scratch buffer after an encoding are left out.  The manifest of
    the Remote service and its hash, the inspection facility, the log, the
    front ends that forward to a facility, the wrappers of kernel and hardware,
    and the composition of a system at compile time are not modelled. *)
From stdpp Require Import prelude.
From Stdlib Require Import Lia.


Declare Scope solar_scope.
Delimit Scope solar_scope with solar.

(** ** Results and checked access

    [result E A] is [solar::Result<A, E>] ([std::expected]).  The option type
    around it is used for code the C++ language leaves undefined: [None] is
    an access outside a span, a signed overflow, or a loop that has used up
    the fuel of its model.  Every component proves that its operations never
    evaluate to [None] where the code relies on it. *)
Inductive result (E A : Type) : Type :=
  | Ok (a : A)
  | Err (e : E).
Arguments Ok {E A} a.
Arguments Err {E A} e.

#[export] Instance result_eq_dec {E A} `{!EqDecision E, !EqDecision A} :
  EqDecision (result E A).
Proof. solve_decision. Defined.

Definition result_map {E A B} (f : A → B) (r : result E A) : result E B :=
  match r with Ok a => Ok (f a) | Err e => Err e end.

Definition is_ok {E A} (r : result E A) : bool :=
  match r with Ok _ => true | Err _ => false end.

(** Sequencing of a checked computation that may also fail with an error:
    undefined behaviour and errors both stop the sequence. *)
Definition cbind {E A B} (m : option (result E A)) (k : A → option (result E B)) :
  option (result E B) :=
  match m with
  | None => None
  | Some (Err e) => Some (Err e)
  | Some (Ok a) => k a
  end.

Notation "x ⇐ m ; k" := (cbind m (λ x, k))
  (at level 20, m at level 100, k at level 200, right associativity) : solar_scope.
Notation "' x ⇐ m ; k" := (cbind m (λ x, k))
  (at level 20, x pattern, m at level 100, k at level 200, right associativity) : solar_scope.

Lemma cbind_ok {E A B} (m : option (result E A)) (k : A → option (result E B)) b :
  cbind m k = Some (Ok b) ↔ ∃ a, m = Some (Ok a) ∧ k a = Some (Ok b).
Proof.
  split; [destruct m as [[a|e]|]; simpl; [by eauto|done..]|].
  by intros (a & -> & ?).
Qed.

Lemma cbind_defined {E A B} (m : option (result E A)) (k : A → option (result E B)) :
  m ≠ None → (∀ a, m = Some (Ok a) → k a ≠ None) → cbind m k ≠ None.
Proof. destruct m as [[a|e]|]; simpl; intros ? Hk; [by apply Hk|done..]. Qed.

(** ** Machine integers

    A [w]-bit unsigned integer is a [Z] in [0 .. 2^w); conversions and
    arithmetic wrap explicitly. *)
Definition wrap (w z : Z) : Z := z mod 2 ^ w.
Abbreviation u8 := (wrap 8).
Abbreviation u16 := (wrap 16).
Abbreviation u32 := (wrap 32).
Abbreviation u64 := (wrap 64).

Definition is_u (w z : Z) : Prop := (0 ≤ z < 2 ^ w)%Z.
Abbreviation is_byte := (is_u 8).
Abbreviation is_bytes := (Forall (is_u 8)).

#[export] Instance is_u_dec w z : Decision (is_u w z).
Proof. unfold is_u. apply _. Defined.

Create HintDb solar discriminated.

Lemma wrap_range w z : (0 ≤ w)%Z → is_u w (wrap w z).
Proof. intros. apply Z.mod_pos_bound, Z.pow_pos_nonneg; lia. Qed.
Lemma wrap_small w z : is_u w z → wrap w z = z.
Proof. intros. by apply Z.mod_small. Qed.
Lemma wrap_wrap w z : wrap w (wrap w z) = wrap w z.
Proof. apply Zmod_mod. Qed.
Lemma is_u_mono w w' z : (w ≤ w')%Z → is_u w z → is_u w' z.
Proof.
  intros ? [??]; split; [done|].
  eapply Z.lt_le_trans; [done|]. apply Z.pow_le_mono_r; lia.
Qed.
#[export] Hint Resolve wrap_range wrap_small : solar.

(** [lia] over the powers of two of the machine widths. *)
Ltac widths :=
  unfold is_u, wrap in *;
  change (2 ^ 8)%Z with 256%Z in *; change (2 ^ 16)%Z with 65536%Z in *;
  change (2 ^ 32)%Z with 4294967296%Z in *;
  change (2 ^ 64)%Z with 18446744073709551616%Z in *.
Ltac word_lia := widths; lia.

(** [lia] with quotients and remainders by constants. *)
Ltac div_lia := Z.to_euclidean_division_equations; lia.

(** [or]ing in a value above the bits of another one adds it. *)
Lemma lor_shiftl_add a b k :
  (0 ≤ k)%Z → (0 ≤ a < 2 ^ k)%Z → Z.lor a (Z.shiftl b k) = (a + 2 ^ k * b)%Z.
Proof.
  intros Hk Ha. rewrite Z.mul_comm, <-Z.shiftl_mul_pow2 by done.
  rewrite <-Z.add_nocarry_lor; [done|].
  apply Z.bits_inj'. intros i Hi. rewrite Z.land_spec, Z.bits_0.
  destruct (Z.lt_ge_cases i k).
  - by rewrite Z.shiftl_spec_low, andb_false_r.
  - assert (Z.testbit a i = false) as ->; [|done].
    destruct (decide (a = 0)%Z) as [->|]; [apply Z.bits_0|].
    apply Z.bits_above_log2; [lia|]. apply Z.log2_lt_pow2; [lia|].
    eapply Z.lt_le_trans; [apply Ha|]. apply Z.pow_le_mono_r; lia.
Qed.

(** ** Buffers

    A [std::span] is the list of its bytes.  [wr] writes one element and is
    [None] outside the span; reading is stdpp's [!!]. *)
Fixpoint wr {A} (l : list A) (i : nat) (v : A) : option (list A) :=
  match l, i with
  | [], _ => None
  | _ :: t, O => Some (v :: t)
  | x :: t, S j => t' ← wr t j v; Some (x :: t')
  end.

Lemma wr_insert {A} (l : list A) i v :
  i < length l → wr l i v = Some (<[i := v]> l).
Proof.
  revert i; induction l as [|x l IH]; intros [|i] Hi; simpl in *; try lia; [done|].
  by rewrite IH by lia.
Qed.

Lemma wr_none {A} (l : list A) i v : wr l i v = None ↔ length l ≤ i.
Proof.
  revert i; induction l as [|x l IH]; intros [|i]; simpl; [split; [lia|done]..| |].
  - split; [done|lia].
  - rewrite <-Nat.succ_le_mono, <-IH. by destruct (wr l i v).
Qed.

Lemma wr_length {A} (l l' : list A) i v : wr l i v = Some l' → length l' = length l.
Proof.
  intros H. destruct (decide (i < length l)) as [Hi|Hi].
  - rewrite wr_insert in H by done. simplify_eq. by rewrite length_insert.
  - by rewrite (proj2 (wr_none l i v)) in H by lia.
Qed.

(** Writing at the boundary between a prefix and the rest of a buffer. *)
Lemma wr_app {A} (l1 l2 : list A) x v :
  wr (l1 ++ x :: l2) (length l1) v = Some (l1 ++ v :: l2).
Proof. by induction l1 as [|y l1 IH]; simpl; [|rewrite IH]. Qed.

Lemma lookup_app_mid {A} (l1 l2 : list A) x : (l1 ++ x :: l2) !! length l1 = Some x.
Proof. by induction l1. Qed.

(** [std::copy] of a fixed array into a span. *)
Fixpoint copy_to (output : list Z) (offset : nat) (source : list Z) : option (list Z) :=
  match source with
  | [] => Some output
  | b :: rest => output ← wr output offset b; copy_to output (S offset) rest
  end.

(** [std::copy] out of a span: the [n] elements from [offset]. *)
Fixpoint copy_from (n : nat) (input : list Z) (offset : nat) : option (list Z) :=
  match n with
  | O => Some []
  | S n => b ← input !! offset; rest ← copy_from n input (S offset); Some (b :: rest)
  end.

Lemma copy_to_app pre old source post :
  length old = length source →
  copy_to (pre ++ old ++ post) (length pre) source = Some (pre ++ source ++ post).
Proof.
  revert pre old; induction source as [|b rest IH]; intros pre [|o old] Hlen; simpl in *;
    try done.
  rewrite wr_app. simpl.
  replace (pre ++ b :: old ++ post) with ((pre ++ [b]) ++ old ++ post) by by rewrite <-app_assoc.
  replace (S (length pre)) with (length (pre ++ [b])) by (rewrite length_app; simpl; lia).
  rewrite IH by lia. by rewrite <-app_assoc.
Qed.

Lemma copy_from_app pre source post :
  copy_from (length source) (pre ++ source ++ post) (length pre) = Some source.
Proof.
  revert pre; induction source as [|b rest IH]; intros pre; simpl; [done|].
  rewrite lookup_app_mid. simpl.
  replace (pre ++ b :: rest ++ post) with ((pre ++ [b]) ++ rest ++ post) by by rewrite <-app_assoc.
  replace (S (length pre)) with (length (pre ++ [b])) by (rewrite length_app; simpl; lia).
  by rewrite IH.
Qed.

(** ** Lists *)
Lemma take_app_exact {A} (l k : list A) n : n = length l → take n (l ++ k) = l.
Proof. intros ->. by rewrite take_app_length. Qed.
Lemma drop_app_exact {A} (l k : list A) n : n = length l → drop n (l ++ k) = k.
Proof. intros ->. by rewrite drop_app_length. Qed.

Lemma copy_to_prefix (bytes : list Z) n p :
  (n + length p ≤ length bytes)%nat →
  ∃ bytes', copy_to bytes n p = Some bytes' ∧ length bytes' = length bytes
    ∧ take (n + length p) bytes' = take n bytes ++ p.
Proof.
  intros Hn. exists (take n bytes ++ p ++ drop (n + length p) bytes).
  assert (Hlen : length (take n bytes) = n) by (rewrite length_take; lia). split; [|split].
  - pose proof (copy_to_app (take n bytes) (take (length p) (drop n bytes)) p (drop (n + length p) bytes)) as Hcopy.
    rewrite Hlen, <-drop_drop, !take_drop in Hcopy. rewrite <-drop_drop. apply Hcopy.
    rewrite length_take, length_drop. lia.
  - rewrite !length_app, Hlen, length_drop. lia.
  - rewrite app_assoc. apply take_app_exact. rewrite length_app. lia.
Qed.

Lemma split_length {A} (n m : nat) (l : list A) :
  length l = (n + m)%nat → ∃ l1 l2, l = l1 ++ l2 ∧ length l1 = n ∧ length l2 = m.
Proof.
  intros Hl. exists (take n l), (drop n l).
  rewrite take_drop, length_take, length_drop. repeat split; lia.
Qed.

(** A list of known length is the list of its elements. *)
Ltac explode l n :=
  lazymatch n with
  | O => destruct l; [|discriminate]
  | S ?m => destruct l as [|? l]; [discriminate|]; explode l m
  end.

(** [std::find_if] over an array: the index of the first element that
    satisfies the predicate. *)
Fixpoint find_if {A} (f : A → bool) (l : list A) : option nat :=
  match l with
  | [] => None
  | x :: l => if f x then Some 0 else S <$> find_if f l
  end.

Lemma find_if_some {A} (f : A → bool) l i :
  find_if f l = Some i →
  ∃ x, l !! i = Some x ∧ f x = true ∧ ∀ j y, j < i → l !! j = Some y → f y = false.
Proof.
  revert i. induction l as [|x l IH]; intros i Hi; simplify_eq/=.
  destruct (f x) eqn:Hx; [injection Hi as <-; exists x; repeat split; [done..|lia]|].
  destruct (find_if f l) as [k|]; simplify_eq/=. destruct (IH k) as (y & Hy & Hfy & Hmin); [done|].
  exists y. repeat split; [done..|]. intros [|j] z Hj Hz; simplify_eq/=; [done|]. eapply Hmin; [|done]. lia.
Qed.
Lemma find_if_none {A} (f : A → bool) l : find_if f l = None ↔ Forall (λ x, f x = false) l.
Proof.
  induction l as [|x l IH]; simpl; [by repeat constructor|].
  rewrite list.Forall_cons, <-IH. destruct (f x); [naive_solver|]. destruct (find_if f l); naive_solver.
Qed.

Lemma find_if_lookup {A} (f : A → bool) (xs : list A) i x :
  find_if f xs = Some i → xs !! i = Some x → f x = true.
Proof. intros (y & Hy & Hfy & _)%find_if_some Hx. by simplify_eq. Qed.
Lemma find_if_bound {A} (f : A → bool) (xs : list A) i : find_if f xs = Some i → (i < length xs)%nat.
Proof. intros (x & Hx & _)%find_if_some. by eapply lookup_lt_Some. Qed.
Lemma find_if_insert_other {A} (f : A → bool) (xs : list A) i j x :
  find_if f xs = Some i → j ≠ i → f x = false → find_if f (<[j := x]> xs) = Some i.
Proof.
  revert i j. induction xs as [|y xs IH]; intros i j Hi Hj Hx; simplify_eq/=.
  destruct j as [|j]; simpl.
  - destruct (f y) eqn:Hy; simplify_eq/=. by rewrite Hx.
  - destruct (f y) eqn:Hy; [done|]. destruct (find_if f xs) as [k|] eqn:Hk; simplify_eq/=.
    by rewrite (IH k) by (done || lia).
Qed.
Lemma find_if_insert_same {A} (f : A → bool) (xs : list A) i x :
  find_if f xs = Some i → f x = true → find_if f (<[i := x]> xs) = Some i.
Proof.
  revert i. induction xs as [|y xs IH]; intros i Hi Hx; simplify_eq/=.
  destruct (f y) eqn:Hy; simplify_eq/=; [by rewrite Hx|].
  destruct (find_if f xs) as [k|] eqn:Hk; simplify_eq/=. by rewrite Hy, (IH k).
Qed.
Lemma find_if_map {A} (f : A → bool) (g : A → A) (xs : list A) i :
  find_if f xs = Some i → (∀ x, f x = false → f (g x) = false) →
  (∀ x, xs !! i = Some x → f (g x) = true) → find_if f (map g xs) = Some i.
Proof.
  revert i. induction xs as [|y xs IH]; intros i Hi Hno Hyes; simplify_eq/=.
  destruct (f y) eqn:Hy; simplify_eq/=; [by rewrite (Hyes y)|].
  rewrite (Hno y Hy). destruct (find_if f xs) as [k|] eqn:Hk; simplify_eq/=.
  by rewrite (IH k).
Qed.

Lemma omap_ext {A B} (f g : A → option B) (l : list A) :
  (∀ x, x ∈ l → f x = g x) → omap f l = omap g l.
Proof. intros Hfg. by apply list_omap_ext, Forall_Forall2_diag, Forall_forall. Qed.
Lemma omap_fmap {A B C} (f : B → option C) (g : A → B) (l : list A) :
  omap f (g <$> l) = omap (λ x, f (g x)) l.
Proof. apply list_omap_ext, Forall2_fmap_l, Forall_Forall2_diag. by apply Forall_forall. Qed.

(** ** Assigning one field of a structure

    [r <| f := v |>] is [r] with the field [f] replaced.  A record type gives
    its expansion as an instance of [Fields]; the assignment abstracts the
    field out of the expansion. *)
Class Fields (R : Type) : Type := expand : R → R.
Class Assign {R A : Type} (field : R → A) : Type := assign : (A → A) → R → R.
Arguments assign {R A} field {_} f r.

Ltac make_assign :=
  lazymatch goal with
  | |- @Assign ?R ?A ?field =>
    let e := eval hnf in (@expand R _) in
    lazymatch (eval pattern field in e) with
    | ?put _ => exact (λ (f : A → A) (r : R), put (λ r', f (field r')) r)
    end
  end.
#[export] Hint Extern 1 (Assign _) => make_assign : typeclass_instances.

Notation "r <| f := v |>" := (assign f (λ _, v) r)
  (at level 12, f at next level, v at level 60, left associativity) : solar_scope.
Notation "r <| f ::= g |>" := (assign f g r)
  (at level 12, f at next level, g at level 60, left associativity) : solar_scope.

(** Counters of the code are 32- or 64-bit unsigned and wrap. *)
Definition inc64 (n : Z) : Z := u64 (n + 1).
Definition inc32 (n : Z) : Z := u32 (n + 1).
Lemma inc64_u64 (n : Z) : inc64 (u64 n) = u64 (n + 1)%Z.
Proof. unfold inc64, wrap. by rewrite Zplus_mod_idemp_l. Qed.
Lemma inc32_u32 (n : Z) : inc32 (u32 n) = u32 (n + 1)%Z.
Proof. unfold inc32, wrap. by rewrite Zplus_mod_idemp_l. Qed.

(** ** What several threads hold together *)
Lemma sum_insert {A} (f : A → nat) (l : list A) t a b :
  l !! t = Some a → sum_list_with f (<[t := b]> l) + f a = sum_list_with f l + f b.
Proof.
  revert t. induction l as [|x l IH]; intros [|t] Hl; simplify_eq/=; [lia|].
  specialize (IH _ Hl). lia.
Qed.
Lemma concat_insert {A} (ls : list (list A)) k l l' :
  ls !! k = Some l → concat (<[k := l']> ls) ++ l ≡ₚ concat ls ++ l'.
Proof.
  revert k. induction ls as [|x ls IH]; intros [|k] Hk; simplify_eq/=.
  - solve_Permutation.
  - by rewrite <-!app_assoc, (IH k Hk).
Qed.

Definition gather {G A} (f : G → list A) (gs : list G) : list A := concat (map f gs).
Lemma gather_insert {G A} (f : G → list A) (gs : list G) t g g' :
  gs !! t = Some g → gather f (<[t := g']> gs) ++ f g ≡ₚ gather f gs ++ f g'.
Proof.
  intros Hg. unfold gather. rewrite (list_fmap_insert f gs t g' : map f (<[t := g']> gs) = _). apply concat_insert.
  by rewrite list_lookup_fmap, Hg.
Qed.
Lemma gather_same {G A} (f : G → list A) (gs : list G) t g g' :
  gs !! t = Some g → f g' = f g → gather f (<[t := g']> gs) = gather f gs.
Proof.
  intros Hg Hf. unfold gather. rewrite (list_fmap_insert f gs t g' : map f (<[t := g']> gs) = _).
  f_equal. apply list_insert_id. rewrite list_lookup_fmap, Hg. simpl. by rewrite Hf.
Qed.
