(* ===== verification/Status.v ===== *)
(** * Status: the error classification shared by every subsystem

    Models [include/solar/core/status.hpp]: the [Status] enumeration, its
    errno values and the two conversions, and the default [Error].  The
    errno macros come from the C library and are the fields of the class
    [Errno]; the ones the code tests with [#ifdef] are options. *)
From stdpp Require Import prelude.
From S2P Require Import Prelude.

Open Scope Z_scope.

Inductive Status : Set :=
  | SOk | SError | SInvalid | SNotReady | SNotFound | SNotSupported | SBusy | SAlready
  | STimeout | SCancelled | SNoMemory | SNoSpace | SWouldBlock | SEmpty | SInterrupted
  | SDeadlock | SPermissionDenied | SNoBuffer | SMessageTooLarge | SProtocolError
  | SOverflow | SDependencyFailed | SUnexpectedExit.

#[export] Instance Status_eq_dec : EqDecision Status.
Proof. solve_decision. Defined.

(** [Status::Full = NoSpace]. *)
Definition SFull : Status := SNoSpace.

Definition all_statuses : list Status :=
  [SOk; SError; SInvalid; SNotReady; SNotFound; SNotSupported; SBusy; SAlready;
   STimeout; SCancelled; SNoMemory; SNoSpace; SWouldBlock; SEmpty; SInterrupted;
   SDeadlock; SPermissionDenied; SNoBuffer; SMessageTooLarge; SProtocolError;
   SOverflow; SDependencyFailed; SUnexpectedExit].

(** ** The errno macros of the platform's C library *)
Class Errno := {
  EIO : Z; EINVAL : Z; ENODEV : Z; ENOENT : Z; ENOTSUP : Z; ENOSYS : Z; EBUSY : Z;
  EALREADY : Z; ETIMEDOUT : Z; ECANCELED : Z; ENOMEM : Z; ENOSPC : Z; EAGAIN : Z;
  EINTR : Z; EDEADLK : Z; EACCES : Z; EPERM : Z; ENOMSG : Z; ERANGE : Z; EADDRINUSE : Z;
  ENODATA : option Z; ENOLINK : option Z; ENOBUFS : option Z; EMSGSIZE : option Z;
  EPROTO : option Z; EBADMSG : option Z; EOVERFLOW : option Z; EPIPE : option Z
}.

Section Errno.
Context `{Errno}.

Definition empty_errno : Z := default ENOMSG ENODATA.
Definition dependency_failed_errno : Z := default EIO ENOLINK.
Definition no_buffer_errno : Z := default ENOMEM ENOBUFS.
Definition message_too_large_errno : Z := default ENOSPC EMSGSIZE.
Definition protocol_errno : Z := default (default EIO EBADMSG) EPROTO.
Definition overflow_errno : Z := default ERANGE EOVERFLOW.
Definition unexpected_exit_errno : Z := default EIO EPIPE.

(** The enumerators' values, which [to_errno] returns by a cast. *)
Definition to_errno (status : Status) : Z :=
  match status with
  | SOk => 0
  | SError => EIO
  | SInvalid => EINVAL
  | SNotReady => ENODEV
  | SNotFound => ENOENT
  | SNotSupported => ENOTSUP
  | SBusy => EBUSY
  | SAlready => EALREADY
  | STimeout => ETIMEDOUT
  | SCancelled => ECANCELED
  | SNoMemory => ENOMEM
  | SNoSpace => ENOSPC
  | SWouldBlock => EAGAIN
  | SEmpty => empty_errno
  | SInterrupted => EINTR
  | SDeadlock => EDEADLK
  | SPermissionDenied => EACCES
  | SNoBuffer => no_buffer_errno
  | SMessageTooLarge => message_too_large_errno
  | SProtocolError => protocol_errno
  | SOverflow => overflow_errno
  | SDependencyFailed => dependency_failed_errno
  | SUnexpectedExit => unexpected_exit_errno
  end.

Definition ok (status : Status) : bool := bool_decide (status = SOk).

Definition to_native_errno (status : Status) : Z :=
  let error := to_errno status in
  if error =? 0 then 0 else - error.

(** Negating the least [int] overflows, which the language leaves undefined. *)
Definition status_from_errno (error : Z) : option Status :=
  code ← (if error <? 0 then (if error =? - 2 ^ 31 then None else Some (- error))
          else Some error);
  Some
    (if code =? 0 then SOk
     else if code =? EIO then SError
     else if code =? EINVAL then SInvalid
     else if code =? ENODEV then SNotReady
     else if code =? ENOENT then SNotFound
     else if (code =? ENOTSUP) || (code =? ENOSYS) then SNotSupported
     else if code =? EBUSY then SBusy
     else if code =? EALREADY then SAlready
     else if code =? ETIMEDOUT then STimeout
     else if code =? ECANCELED then SCancelled
     else if code =? ENOMEM then SNoMemory
     else if code =? ENOSPC then SNoSpace
     else if code =? EAGAIN then SWouldBlock
     else if code =? EINTR then SInterrupted
     else if code =? EDEADLK then SDeadlock
     else if (code =? EACCES) || (code =? EPERM) then SPermissionDenied
     else if code =? empty_errno then SEmpty
     else if code =? no_buffer_errno then SNoBuffer
     else if code =? message_too_large_errno then SMessageTooLarge
     else if code =? protocol_errno then SProtocolError
     else if code =? overflow_errno then SOverflow
     else if code =? dependency_failed_errno then SDependencyFailed
     else if code =? unexpected_exit_errno then SUnexpectedExit
     else SError).
End Errno.

(** The default bounded error, [solar::Error]. *)
Record Error : Set := mkError { error_status : Status; error_native : Z }.

#[export] Instance Error_eq_dec : EqDecision Error.
Proof. solve_decision. Defined.

Definition error_from_errno `{Errno} (error : Z) : option Error :=
  status ← status_from_errno error; Some (mkError status error).

(** ** Laws of the C library the round trip relies on: POSIX requires the
    error numbers to be positive and pairwise distinct. *)
Class ErrnoLaws `{Errno} : Prop := {
  errno_positive : Forall (λ s, s = SOk ∨ 0 < to_errno s) all_statuses;
  errno_int : Forall (λ s, to_errno s < 2 ^ 31) all_statuses;
  errno_nodup : NoDup (ENOSYS :: EPERM :: (to_errno <$> all_statuses))
}.

Section RoundTrip.
Context `{ErrnoLaws}.

Lemma all_statuses_complete s : s ∈ all_statuses.
Proof. apply (bool_decide_unpack _). by destruct s. Qed.

Lemma to_errno_inj s s' : to_errno s = to_errno s' → s = s'.
Proof.
  intros Heq. pose proof errno_nodup as Hnd.
  do 2 apply NoDup_cons_1_2 in Hnd.
  destruct (list_elem_of_lookup_1 _ _ (all_statuses_complete s)) as [i Hi].
  destruct (list_elem_of_lookup_1 _ _ (all_statuses_complete s')) as [j Hj].
  assert (i = j) as ->; [|congruence].
  eapply NoDup_lookup; [exact Hnd|..]; rewrite list_lookup_fmap.
  - by rewrite Hi.
  - by rewrite Hj, Heq.
Qed.

Lemma to_errno_eqb s s' : (to_errno s =? to_errno s') = bool_decide (s = s').
Proof.
  case_bool_decide as Hs; [by subst; apply Z.eqb_refl|].
  apply Z.eqb_neq. by intros ?%to_errno_inj.
Qed.

(** No status has one of the two alias numbers [ENOSYS] and [EPERM]. *)
Lemma to_errno_aliases s : (to_errno s =? ENOSYS) = false ∧ (to_errno s =? EPERM) = false.
Proof.
  pose proof errno_nodup as Hnd. pose proof (NoDup_cons_1_1 _ _ Hnd) as Hsys.
  apply NoDup_cons_1_2, NoDup_cons_1_1 in Hnd as Hperm.
  assert (to_errno s ∈ to_errno <$> all_statuses) as Hin.
  { apply list_elem_of_fmap. eauto using all_statuses_complete. }
  split; apply Z.eqb_neq; intros Heq; rewrite Heq in Hin; [|done].
  by apply Hsys; right.
Qed.

Lemma to_errno_range s : 0 ≤ to_errno s < 2 ^ 31.
Proof.
  pose proof errno_positive as Hpos. pose proof errno_int as Hint.
  rewrite Forall_forall in Hpos, Hint.
  specialize (Hpos s (all_statuses_complete s)).
  specialize (Hint s (all_statuses_complete s)).
  destruct Hpos as [->|]; [split; [done|]|]; lia.
Qed.

(** The conversion of a code and of its negation agree. *)
Lemma status_from_errno_neg c :
  0 ≤ c < 2 ^ 31 → status_from_errno (- c) = status_from_errno c.
Proof.
  intros Hc. unfold status_from_errno.
  rewrite (proj2 (Z.ltb_ge c 0)) by lia.
  destruct (Z.ltb_spec (- c) 0) as [|]; [|by replace (- c) with c by lia].
  rewrite (proj2 (Z.eqb_neq _ _)) by lia. by rewrite Z.opp_involutive.
Qed.

Lemma status_from_to_errno s : status_from_errno (to_errno s) = Some s.
Proof.
  pose proof (to_errno_range s) as Hr. pose proof (to_errno_aliases s) as [Hsys Hperm].
  unfold status_from_errno. rewrite (proj2 (Z.ltb_ge _ 0)) by lia. simpl.
  rewrite Hsys, Hperm, !orb_false_r.
  change (to_errno s =? 0) with (to_errno s =? to_errno SOk).
  change (to_errno s =? EIO) with (to_errno s =? to_errno SError).
  change (to_errno s =? EINVAL) with (to_errno s =? to_errno SInvalid).
  change (to_errno s =? ENODEV) with (to_errno s =? to_errno SNotReady).
  change (to_errno s =? ENOENT) with (to_errno s =? to_errno SNotFound).
  change (to_errno s =? ENOTSUP) with (to_errno s =? to_errno SNotSupported).
  change (to_errno s =? EBUSY) with (to_errno s =? to_errno SBusy).
  change (to_errno s =? EALREADY) with (to_errno s =? to_errno SAlready).
  change (to_errno s =? ETIMEDOUT) with (to_errno s =? to_errno STimeout).
  change (to_errno s =? ECANCELED) with (to_errno s =? to_errno SCancelled).
  change (to_errno s =? ENOMEM) with (to_errno s =? to_errno SNoMemory).
  change (to_errno s =? ENOSPC) with (to_errno s =? to_errno SNoSpace).
  change (to_errno s =? EAGAIN) with (to_errno s =? to_errno SWouldBlock).
  change (to_errno s =? EINTR) with (to_errno s =? to_errno SInterrupted).
  change (to_errno s =? EDEADLK) with (to_errno s =? to_errno SDeadlock).
  change (to_errno s =? EACCES) with (to_errno s =? to_errno SPermissionDenied).
  change (to_errno s =? empty_errno) with (to_errno s =? to_errno SEmpty).
  change (to_errno s =? no_buffer_errno) with (to_errno s =? to_errno SNoBuffer).
  change (to_errno s =? message_too_large_errno) with (to_errno s =? to_errno SMessageTooLarge).
  change (to_errno s =? protocol_errno) with (to_errno s =? to_errno SProtocolError).
  change (to_errno s =? overflow_errno) with (to_errno s =? to_errno SOverflow).
  change (to_errno s =? dependency_failed_errno) with (to_errno s =? to_errno SDependencyFailed).
  change (to_errno s =? unexpected_exit_errno) with (to_errno s =? to_errno SUnexpectedExit).
  rewrite !to_errno_eqb. by destruct s.
Qed.

(** Every status survives the conversion to an errno value and back,
    whether the number is reported positive or, as Zephyr drivers do,
    negated. *)
Theorem status_errno_roundtrip s :
  status_from_errno (to_errno s) = Some s ∧
  status_from_errno (to_native_errno s) = Some s.
Proof.
  split; [apply status_from_to_errno|]. unfold to_native_errno.
  destruct (Z.eqb_spec (to_errno s) 0) as [Hz|].
  - change 0 with (to_errno SOk) in Hz. by apply to_errno_inj in Hz as ->.
  - rewrite status_from_errno_neg by apply to_errno_range. apply status_from_to_errno.
Qed.
End RoundTrip.

(** The numbers of the Linux C library, which the [native_sim] build uses. *)
#[export] Instance linux_errno : Errno := {|
  EIO := 5; EINVAL := 22; ENODEV := 19; ENOENT := 2; ENOTSUP := 95; ENOSYS := 38;
  EBUSY := 16; EALREADY := 114; ETIMEDOUT := 110; ECANCELED := 125; ENOMEM := 12;
  ENOSPC := 28; EAGAIN := 11; EINTR := 4; EDEADLK := 35; EACCES := 13; EPERM := 1;
  ENOMSG := 42; ERANGE := 34; EADDRINUSE := 98; ENODATA := Some 61; ENOLINK := Some 67;
  ENOBUFS := Some 105; EMSGSIZE := Some 90; EPROTO := Some 71; EBADMSG := Some 74;
  EOVERFLOW := Some 75; EPIPE := Some 32
|}.

#[export] Instance linux_errno_laws : ErrnoLaws.
Proof.
  split.
  - repeat (apply Forall_cons_2; [solve [by left|by right]|]). by apply Forall_nil_2.
  - repeat (apply Forall_cons_2; [done|]). by apply Forall_nil_2.
  - change (NoDup [38; 1; 0; 5; 22; 19; 2; 95; 16; 114; 110; 125; 12; 28; 11; 61; 4; 35;
      13; 105; 90; 71; 75; 67; 32]).
    repeat (apply NoDup_cons_2; [rewrite ?not_elem_of_cons; repeat split;
      first [discriminate|apply not_elem_of_nil]|]). by apply NoDup_nil_2.
Qed.

Lemma status_errno_roundtrip_witness :
  status_from_errno 110 = Some STimeout ∧ status_from_errno (-110) = Some STimeout.
Proof. exact (status_errno_roundtrip STimeout). Defined.
