(* ===== verification/Wire.v ===== *)
(** * Wire: the vocabulary of the Remote wire format

    Models [include/solar/remote/types.hpp] (error domain and status codes)
    and the little-endian accessors of [include/solar/remote/protocol.hpp]
    ([protocol::detail]).  An enumeration that the code obtains by casting a
    received byte is a byte with named values, since the cast accepts every
    byte. *)
From stdpp Require Import prelude.
From S2P Require Import Prelude Status.

Open Scope Z_scope.

(** ** The Remote error domain *)
Module Remote.
Inductive Operation : Set :=
  | Encode | Decode | Pack | Unpack | FrameEncode | FrameDecode | Generate | Initialize
  | Start | Stop | OpenLink | CloseLink | AdmitEvent | Receive | Transmit | Handshake
  | Dispatch | Publish | Query.

Inductive Reason : Set :=
  | None_ | Disabled | NoSpace | Malformed | IntegrityFailure | UnsupportedVersion
  | UnsupportedKind | Oversized | MissingField | DuplicateField | InvalidValue
  | TrailingData | SchemaMismatch | NotReady | NotRegistered | InvalidContext | Busy
  | NoCapacity | LinkFailure | SessionClosed | Unauthorized | UnsupportedOperation
  | InternalInvariant.

#[export] Instance Operation_eq_dec : EqDecision Operation.
Proof. solve_decision. Defined.
#[export] Instance Reason_eq_dec : EqDecision Reason.
Proof. solve_decision. Defined.

Record Error : Set := mkError {
  status : Status; reason : Reason; operation : Operation; detail : Z }.

#[export] Instance Error_eq_dec : EqDecision Error.
Proof. solve_decision. Defined.

(** Aggregate initialisation [{status, reason, operation}]: detail is zero. *)
Definition error (s : Status) (r : Reason) (o : Operation) : Error := mkError s r o 0.

Definition status_of (e : Error) : Status := status e.
End Remote.
Abbreviation Result A := (result Remote.Error A).

(** Outcome of an operation over spans: undefined behaviour, error or value. *)
Abbreviation Checked A := (option (result Remote.Error A)).
Definition succeed {A} (a : A) : Checked A := Some (Ok a).
Definition fail {A} (e : Remote.Error) : Checked A := Some (Err e).
(** Reading or writing a span inside a fallible operation. *)
Definition access {A} (o : option A) : Checked A := Ok <$> o.

Lemma access_some {A} (o : option A) a : access o = Some (Ok a) ↔ o = Some a.
Proof. destruct o; unfold access; simpl; split; congruence. Qed.
Lemma access_defined {A} (o : option A) : o ≠ None → access o ≠ None.
Proof. by destruct o. Qed.

(** ** Status codes on the wire *)
Module StatusCode.
Definition encode_status (status : Status) : Z :=
  match status with
  | SOk => 0 | SError => 1 | SInvalid => 2 | SNotReady => 3 | SNotFound => 4
  | SNotSupported => 5 | SBusy => 6 | SAlready => 7 | STimeout => 8 | SCancelled => 9
  | SNoMemory => 10 | SNoSpace => 11 | SWouldBlock => 12 | SEmpty => 13
  | SInterrupted => 14 | SDeadlock => 15 | SPermissionDenied => 16 | SNoBuffer => 17
  | SMessageTooLarge => 18 | SProtocolError => 19 | SOverflow => 20
  | SDependencyFailed => 21 | SUnexpectedExit => 22
  end.

Definition decode_status (code : Z) : option Status :=
  match code with
  | 0 => Some SOk | 1 => Some SError | 2 => Some SInvalid | 3 => Some SNotReady
  | 4 => Some SNotFound | 5 => Some SNotSupported | 6 => Some SBusy | 7 => Some SAlready
  | 8 => Some STimeout | 9 => Some SCancelled | 10 => Some SNoMemory | 11 => Some SNoSpace
  | 12 => Some SWouldBlock | 13 => Some SEmpty | 14 => Some SInterrupted
  | 15 => Some SDeadlock | 16 => Some SPermissionDenied | 17 => Some SNoBuffer
  | 18 => Some SMessageTooLarge | 19 => Some SProtocolError | 20 => Some SOverflow
  | 21 => Some SDependencyFailed | 22 => Some SUnexpectedExit
  | _ => None
  end.

Lemma decode_encode s : decode_status (encode_status s) = Some s.
Proof. by destruct s. Qed.
Lemma encode_range s : 0 ≤ encode_status s ≤ 22.
Proof. destruct s; simpl; lia. Qed.
Lemma encode_inj s s' : encode_status s = encode_status s' → s = s'.
Proof. intros Heq. apply (f_equal decode_status) in Heq. rewrite !decode_encode in Heq. congruence. Qed.

Lemma decode_some_encode c s : decode_status c = Some s → encode_status s = c.
Proof.
  destruct c as [|p|p]; [by intros [= <-]| |done].
  do 5 (destruct p as [p|p|]; try done; try (by intros [= <-])).
Qed.

(** The status codes are a bijection between the statuses and the
    codes 0 to 22; every other byte is rejected, so a peer cannot make the
    decoder produce a status that was never sent. *)
Theorem status_code_bijection c s :
  decode_status c = Some s ↔ encode_status s = c ∧ 0 ≤ c ≤ 22.
Proof.
  split.
  - intros H. apply decode_some_encode in H as <-. split; [done|apply encode_range].
  - intros [<- _]. apply decode_encode.
Qed.
End StatusCode.

(** ** Codecs and close reasons: bytes with named values *)
Definition Codec_Cbor : Z := 1.
Definition Codec_Packed : Z := 2.
Definition CloseReason_Closed : Z := 0.
Definition CloseReason_ConfigurationFailed : Z := 5.

(** ** Little-endian accessors *)
Section LittleEndian.
Definition put_u16 (output : list Z) (offset : nat) (value : Z) : option (list Z) :=
  output ← wr output offset (Z.land value 255);
  wr output (offset + 1) (Z.land (Z.shiftr value 8) 255).

(** The loop [for (byte = 0; byte < n; ++byte)] of [put_u32]/[put_u64]. *)
Fixpoint put_loop (n byte : nat) (output : list Z) (offset : nat) (value : Z) :
    option (list Z) :=
  match n with
  | O => Some output
  | S n =>
    output ← wr output (offset + byte) (Z.land (Z.shiftr value (Z.of_nat byte * 8)) 255);
    put_loop n (S byte) output offset value
  end.
Definition put_u32 := put_loop 4 0.
Definition put_u64 := put_loop 8 0.

Definition get_u16 (input : list Z) (offset : nat) : option Z :=
  low ← input !! offset; high ← input !! (offset + 1)%nat;
  Some (Z.lor low (Z.shiftl high 8)).

Fixpoint get_loop (n byte : nat) (input : list Z) (offset : nat) (value : Z) : option Z :=
  match n with
  | O => Some value
  | S n =>
    b ← input !! (offset + byte)%nat;
    get_loop n (S byte) input offset (Z.lor value (Z.shiftl b (Z.of_nat byte * 8)))
  end.
Definition get_u32 (input : list Z) (offset : nat) : option Z := get_loop 4 0 input offset 0.
Definition get_u64 (input : list Z) (offset : nat) : option Z := get_loop 8 0 input offset 0.
End LittleEndian.

#[global] Arguments get_u16 : simpl never.
#[global] Arguments get_u32 : simpl never.
#[global] Arguments get_u64 : simpl never.

(** ** Reference encoding: the base-256 digits, least significant first *)
Fixpoint le_bytes (n : nat) (v : Z) : list Z :=
  match n with O => [] | S n => v mod 256 :: le_bytes n (v / 256) end.
Fixpoint le_value (bs : list Z) : Z :=
  match bs with [] => 0 | b :: bs => b + 256 * le_value bs end.

Lemma length_le_bytes n v : length (le_bytes n v) = n.
Proof. revert v; induction n; simpl; auto. Qed.
Lemma le_bytes_bytes n v : is_bytes (le_bytes n v).
Proof. revert v; induction n; intros; simpl; constructor; auto. widths; div_lia. Qed.

Lemma le_value_bytes n v : 0 ≤ v < 2 ^ (8 * Z.of_nat n) → le_value (le_bytes n v) = v.
Proof.
  revert v; induction n as [|n IH]; intros v Hv; simpl.
  - simpl in Hv. lia.
  - rewrite IH; [pose proof (Z.div_mod v 256); lia|].
    replace (8 * Z.of_nat (S n)) with (8 + 8 * Z.of_nat n) in Hv by lia.
    rewrite Z.pow_add_r in Hv by lia. change (2 ^ 8) with 256 in Hv.
    split; [apply Z.div_pos; lia|apply Z.div_lt_upper_bound; lia].
Qed.
Lemma le_value_range bs : is_bytes bs → 0 ≤ le_value bs < 2 ^ (8 * Z.of_nat (length bs)).
Proof.
  induction 1 as [|b bs Hb _ IH]; [simpl; lia|]. cbn [le_value length].
  replace (8 * Z.of_nat (S (length bs))) with (8 + 8 * Z.of_nat (length bs)) by lia.
  rewrite Z.pow_add_r by lia. word_lia.
Qed.
Lemma le_bytes_value bs : is_bytes bs → le_bytes (length bs) (le_value bs) = bs.
Proof.
  induction 1 as [|b bs Hb _ IH]; [done|]. cbn [le_bytes le_value length]. widths.
  replace ((b + 256 * le_value bs) mod 256) with b by div_lia.
  replace ((b + 256 * le_value bs) / 256) with (le_value bs) by div_lia. by rewrite IH.
Qed.

Lemma le_value_inj bs bs' :
  length bs = length bs' → is_bytes bs → is_bytes bs' → le_value bs = le_value bs' → bs = bs'.
Proof.
  intros Hlen Hb Hb' Heq. by rewrite <-(le_bytes_value bs), <-(le_bytes_value bs'), Hlen, Heq.
Qed.

(** The digits the code computes with shifts and masks are these digits. *)
Fixpoint digits (n byte : nat) (v : Z) : list Z :=
  match n with
  | O => []
  | S n => Z.land (Z.shiftr v (Z.of_nat byte * 8)) 255 :: digits n (S byte) v
  end.

Lemma digits_le_bytes n byte v : digits n byte v = le_bytes n (v / 2 ^ (8 * Z.of_nat byte)).
Proof.
  revert byte; induction n as [|n IH]; intros byte; [done|]. cbn [digits le_bytes]. f_equal.
  - change 255 with (Z.ones 8). rewrite Z.land_ones, Z.shiftr_div_pow2 by lia.
    by rewrite Z.mul_comm.
  - rewrite IH. f_equal. rewrite Z.div_div by lia. f_equal.
    replace (8 * Z.of_nat (S byte)) with (8 * Z.of_nat byte + 8) by lia.
    rewrite Z.pow_add_r by lia. done.
Qed.
Lemma le_bytes_digits n v : le_bytes n v = digits n 0 v.
Proof. by rewrite digits_le_bytes, Z.div_1_r. Qed.

(** Reading [n] digits of a value where they stand in a span. *)
Lemma get_loop_digits n byte l off v value :
  take n (drop (off + byte) l) = le_bytes n v →
  0 ≤ value < 2 ^ (8 * Z.of_nat byte) →
  get_loop n byte l off value
  = Some (value + 2 ^ (8 * Z.of_nat byte) * le_value (le_bytes n v)).
Proof.
  revert byte v value; induction n as [|n IH]; intros byte v value Htake Hval.
  { simpl. f_equal. lia. }
  cbn [get_loop le_bytes le_value]. cbn [le_bytes] in Htake.
  destruct (drop (off + byte) l) as [|b rest] eqn:Hdrop; [done|]. cbn in Htake.
  injection Htake as -> Htake.
  pose proof (lookup_drop l (off + byte) 0) as Hb. rewrite Hdrop, Nat.add_0_r in Hb.
  rewrite <-Hb. simpl.
  assert (2 ^ (8 * Z.of_nat (S byte)) = 2 ^ (8 * Z.of_nat byte) * 256) as Hpow.
  { replace (8 * Z.of_nat (S byte)) with (8 * Z.of_nat byte + 8) by lia.
    by rewrite Z.pow_add_r by lia. }
  rewrite (Z.mul_comm (Z.of_nat byte) 8), lor_shiftl_add by lia.
  rewrite IH with (v := v / 256).
  - f_equal. rewrite Hpow. ring.
  - replace (off + S byte)%nat with (off + byte + 1)%nat by lia.
    rewrite <-drop_drop, Hdrop. done.
  - rewrite Hpow. pose proof (Z.mod_pos_bound v 256). nia.
Qed.

Lemma get_u32_at l off v :
  take 4 (drop off l) = le_bytes 4 v → is_u 32 v → get_u32 l off = Some v.
Proof.
  intros Hl Hv. unfold get_u32.
  rewrite (get_loop_digits 4 0 l off v 0), le_value_bytes; [..|lia]; try done.
  - f_equal. simpl. lia.
  - by rewrite Nat.add_0_r.
Qed.
Lemma get_u64_at l off v :
  take 8 (drop off l) = le_bytes 8 v → is_u 64 v → get_u64 l off = Some v.
Proof.
  intros Hl Hv. unfold get_u64.
  rewrite (get_loop_digits 8 0 l off v 0), le_value_bytes; [..|lia]; try done.
  - f_equal. simpl. lia.
  - by rewrite Nat.add_0_r.
Qed.
Lemma get_u16_loop l off : get_u16 l off = get_loop 2 0 l off 0.
Proof.
  unfold get_u16. simpl. rewrite Nat.add_0_r.
  destruct (l !! off) as [low|]; simpl; [|done].
  by destruct (l !! (off + 1)%nat).
Qed.
Lemma get_u16_at l off v :
  take 2 (drop off l) = le_bytes 2 v → is_u 16 v → get_u16 l off = Some v.
Proof.
  intros Hl Hv. rewrite get_u16_loop.
  rewrite (get_loop_digits 2 0 l off v 0), le_value_bytes; [..|lia]; try done.
  - f_equal. simpl. lia.
  - by rewrite Nat.add_0_r.
Qed.

(** Reading inside the span is defined, whatever the bytes. *)
Lemma get_loop_defined n byte l off value :
  (off + byte + n ≤ length l)%nat → is_Some (get_loop n byte l off value).
Proof.
  revert byte value; induction n as [|n IH]; intros byte value Hl; simpl; [done|].
  destruct (lookup_lt_is_Some_2 l (off + byte)) as [b ->]; [lia|]. simpl. apply IH. lia.
Qed.

(** What the accessors return on a span of bytes. *)
Lemma get_loop_value n l off :
  is_bytes l → (off + n ≤ length l)%nat →
  get_loop n 0 l off 0 = Some (le_value (take n (drop off l))).
Proof.
  intros Hb Hl.
  assert (is_bytes (take n (drop off l))) as Hd by auto using Forall_take, Forall_drop.
  assert (length (take n (drop off l)) = n) as Hlen by (rewrite length_take, length_drop; lia).
  pose proof (le_bytes_value _ Hd) as Hv. rewrite Hlen in Hv.
  rewrite (get_loop_digits n 0 l off (le_value (take n (drop off l))) 0); [|by rewrite Nat.add_0_r|done].
  rewrite Hv. f_equal. rewrite Z.mul_0_r, Z.pow_0_r. lia.
Qed.

Lemma get_u16_value l off :
  is_bytes l → (off + 2 ≤ length l)%nat →
  get_u16 l off = Some (le_value (take 2 (drop off l))).
Proof. rewrite get_u16_loop. apply get_loop_value. Qed.
Lemma get_u32_value l off :
  is_bytes l → (off + 4 ≤ length l)%nat →
  get_u32 l off = Some (le_value (take 4 (drop off l))).
Proof. apply get_loop_value. Qed.
Lemma get_u64_value l off :
  is_bytes l → (off + 8 ≤ length l)%nat →
  get_u64 l off = Some (le_value (take 8 (drop off l))).
Proof. apply get_loop_value. Qed.

(** Writing the digits of a value is copying them. *)
Lemma put_loop_digits n byte output off v :
  put_loop n byte output off v = copy_to output (off + byte) (digits n byte v).
Proof.
  revert byte output; induction n as [|n IH]; intros byte output; [done|].
  cbn [put_loop digits copy_to]. destruct (wr _ _ _) as [o|]; [|done]. cbn [mbind option_bind].
  rewrite IH. f_equal. lia.
Qed.

Lemma put_u32_app pre old post v :
  length old = 4%nat →
  put_u32 (pre ++ old ++ post) (length pre) v = Some (pre ++ le_bytes 4 v ++ post).
Proof.
  intros Hl. unfold put_u32. rewrite put_loop_digits, Nat.add_0_r, <-le_bytes_digits.
  by apply copy_to_app.
Qed.
