(* ===== verification/Protocol.v ===== *)
(** * Protocol: the Remote messages and the frame envelope

    Models [include/solar/remote/protocol.hpp]: the constants and
    enumerations, every message structure with its encoder and decoder, and
    the frame envelope.  A [std::array] result is the list of its bytes,
    starting from zeros; a decoder reads the span it is given and never
    checks more than the code does. *)
From stdpp Require Import prelude.
From S2P Require Import Prelude Status Wire.

Open Scope Z_scope.
Open Scope solar_scope.

Definition major_version : Z := 1.
Definition minor_version : Z := 2.
Definition envelope_size : nat := 32.
Definition crc_size : nat := 4.
Definition subscription_policy_size : nat := 8.
Definition in_stream_open_response_size : nat := 12.
Definition in_stream_close_request_size : nat := 4.
Definition in_stream_closed_size : nat := 8.
Definition ping_request_size : nat := 16.
Definition ping_response_size : nat := 32.
Definition credit_grant_size : nat := 8.
Definition batch_header_size : nat := 4.
Definition introspection_summary_size : nat := 24.
Definition collection_request_size : nat := 4.
Definition collection_page_header_size : nat := 8.
Definition collection_query_request_size : nat := 14.
Definition server_information_size : nat := 56.
Definition manifest_request_size : nat := 8.
Definition batch_version : Z := 1.

(** [enum class Kind] and [enum class Flags]: bytes with named values. *)
Definition Kind_ClientHello : Z := 1.
Definition Kind_Pong : Z := 17.
Definition Kind_Keepalive : Z := 12.

Definition valid (kind : Z) : bool := (Kind_ClientHello <=? kind) && (kind <=? Kind_Pong).

(** ** Peer-visible error codes *)
Inductive ErrorCode : Set :=
  | UnsupportedVersion | UnsupportedCapability | SchemaMismatch | MalformedFrame
  | IntegrityFailure | OversizedFrame | OversizedMessage | FragmentRejected | UnknownTarget
  | UnsupportedOperation | DecodeFailure | Unauthorized | NotReady | Busy | NoCapacity
  | RateRejected | CreditViolation | RequestExpired | DuplicateResponseExpired | Cancelled
  | TimedOut | SessionClosing | InternalFailure.

Definition status_of (error : ErrorCode) : Status :=
  match error with
  | UnsupportedVersion | UnsupportedCapability | UnsupportedOperation => SNotSupported
  | SchemaMismatch | MalformedFrame | IntegrityFailure | FragmentRejected | DecodeFailure
  | CreditViolation => SProtocolError
  | OversizedFrame | OversizedMessage => SMessageTooLarge
  | UnknownTarget => SNotFound
  | Unauthorized => SPermissionDenied
  | NotReady | SessionClosing => SNotReady
  | Busy | RateRejected => SBusy
  | NoCapacity => SNoSpace
  | RequestExpired | DuplicateResponseExpired => SNotFound
  | Cancelled => SCancelled
  | TimedOut => STimeout
  | InternalFailure => SError
  end.

(** ** Message structures *)
Record Envelope : Set := mkEnvelope {
  major : Z; minor : Z; kind : Z; flags : Z; session_epoch : Z; frame_sequence : Z;
  target : Z; request_id : Z; payload_size : Z; fragment_id : Z; fragment_index : Z;
  fragment_count : Z; reserved : Z }.

Definition default_envelope : Envelope :=
  mkEnvelope major_version minor_version Kind_Keepalive 0 0 0 0 0 0 0 0 1 0.

Definition with_payload_size (e : Envelope) (size : Z) : Envelope :=
  mkEnvelope (major e) (minor e) (kind e) (flags e) (session_epoch e) (frame_sequence e)
    (target e) (request_id e) size (fragment_id e) (fragment_index e) (fragment_count e)
    (reserved e).
Definition with_reserved (e : Envelope) (r : Z) : Envelope :=
  mkEnvelope (major e) (minor e) (kind e) (flags e) (session_epoch e) (frame_sequence e)
    (target e) (request_id e) (payload_size e) (fragment_id e) (fragment_index e)
    (fragment_count e) r.

(** [Envelope::operation], [set_operation] (and the identical
    [subscription], [set_subscription]): the low byte of [reserved]. *)
Definition operation (e : Envelope) : Z := u8 (Z.land (reserved e) 255).
Definition set_operation (e : Envelope) (operation_kind : Z) : Envelope :=
  with_reserved e (Z.lor (Z.land (reserved e) 4294967040) operation_kind).

Record SubscriptionRequest : Set := mkSubscriptionRequest {
  sr_minimum_interval_us : Z; sr_batch_size : Z; sr_codec : Z; sr_flags : Z }.
Record SubscriptionPolicy : Set := mkSubscriptionPolicy {
  sp_minimum_interval_us : Z; sp_batch_size : Z; sp_codec : Z; sp_flags : Z }.
Record CreditGrant : Set := mkCreditGrant { cg_token : Z; cg_credits : Z; cg_window : Z }.
Record InStreamOpenResponse : Set := mkInStreamOpenResponse {
  or_policy : SubscriptionPolicy; or_token : Z }.
Record InStreamCloseRequest : Set := mkInStreamCloseRequest { cr_token : Z }.
Record InStreamClosed : Set := mkInStreamClosed { ic_token : Z; ic_reason : Z }.
Record PingRequest : Set := mkPingRequest { pq_nonce : Z; pq_host_monotonic_ns : Z }.
Record PingResponse : Set := mkPingResponse {
  pr_nonce : Z; pr_host_monotonic_ns : Z; pr_remote_receive_us : Z; pr_remote_send_us : Z }.
Record BatchHeader : Set := mkBatchHeader { bh_count : Z; bh_codec : Z; bh_version : Z }.
Record IntrospectionSummary : Set := mkIntrospectionSummary {
  is_schemas : Z; is_data : Z; is_actions : Z; is_topics : Z; is_streams : Z; is_links : Z;
  is_maximum_frame_bytes : Z; is_maximum_message_bytes : Z }.
Record CollectionRequest : Set := mkCollectionRequest { cq_offset : Z; cq_limit : Z }.
Record CollectionPageHeader : Set := mkCollectionPageHeader {
  ph_count : Z; ph_total : Z; ph_next : Z; ph_has_more : bool }.
Record CollectionQueryRequest : Set := mkCollectionQueryRequest {
  qr_stable_id : Z; qr_offset : Z; qr_revision : Z; qr_limit : Z }.
Record ServerInformation : Set := mkServerInformation {
  si_maximum_frame_bytes : Z; si_maximum_message_bytes : Z; si_build_id : Z;
  si_manifest_digest : list Z; si_manifest_size : Z; si_feature_flags : Z }.
Record ManifestRequest : Set := mkManifestRequest { mr_offset : Z; mr_limit : Z }.

(** ** Encoders and decoders *)
Definition zeros (n : nat) : list Z := replicate n 0.
Definition malformed : Remote.Error :=
  Remote.error SProtocolError Remote.Malformed Remote.Decode.
Definition invalid_value : Remote.Error :=
  Remote.error SProtocolError Remote.InvalidValue Remote.Decode.

(** [a || b] where evaluating [b] reads the span. *)
Definition orelse (a : bool) (b : option bool) : option bool :=
  if a then Some true else b.
Definition byte_is_not (input : list Z) (i : nat) (v : Z) : option bool :=
  b ← input !! i; Some (negb (b =? v)).
Definition size_is_not (input : list Z) (n : nat) : bool := negb (length input =? n)%nat.

Definition encode_server_information (information : ServerInformation) : option (list Z) :=
  o ← wr (zeros server_information_size) 0 1;
  o ← wr o 1 major_version;
  o ← wr o 2 minor_version;
  o ← wr o 3 (si_feature_flags information);
  o ← put_u32 o 4 (si_maximum_frame_bytes information);
  o ← put_u32 o 8 (si_maximum_message_bytes information);
  o ← put_u64 o 12 (si_build_id information);
  o ← copy_to o 20 (si_manifest_digest information);
  put_u32 o 52 (si_manifest_size information).

Definition decode_server_information (input : list Z) : Checked ServerInformation :=
  bad ⇐ access (orelse (size_is_not input server_information_size)
    (b0 ← byte_is_not input 0 1; orelse b0 (byte_is_not input 1 major_version)));
  if bad then fail malformed else
  frame ⇐ access (get_u32 input 4);
  message ⇐ access (get_u32 input 8);
  build ⇐ access (get_u64 input 12);
  size ⇐ access (get_u32 input 52);
  feature ⇐ access (input !! 3%nat);
  digest ⇐ access (copy_from 32 input 20);
  succeed (mkServerInformation frame message build digest size feature).

Definition encode_manifest_request (request : ManifestRequest) : option (list Z) :=
  o ← put_u32 (zeros manifest_request_size) 0 (mr_offset request);
  put_u16 o 4 (mr_limit request).

Definition decode_manifest_request (input : list Z) : Checked ManifestRequest :=
  bad ⇐ access (orelse (size_is_not input manifest_request_size)
    (v ← get_u16 input 6; Some (negb (v =? 0))));
  if bad then fail malformed else
  offset ⇐ access (get_u32 input 0);
  limit ⇐ access (get_u16 input 4);
  succeed (mkManifestRequest offset limit).

Definition encode_subscription_request (request : SubscriptionRequest) : option (list Z) :=
  o ← put_u32 (zeros subscription_policy_size) 0 (sr_minimum_interval_us request);
  o ← put_u16 o 4 (sr_batch_size request);
  o ← wr o 6 (sr_codec request);
  wr o 7 (sr_flags request).

Definition encode_subscription_policy (policy : SubscriptionPolicy) : option (list Z) :=
  o ← put_u32 (zeros subscription_policy_size) 0 (sp_minimum_interval_us policy);
  o ← put_u16 o 4 (sp_batch_size policy);
  o ← wr o 6 (sp_codec policy);
  wr o 7 (sp_flags policy).

Definition decode_subscription_request (input : list Z) : Checked SubscriptionRequest :=
  if size_is_not input subscription_policy_size then fail malformed else
  interval ⇐ access (get_u32 input 0);
  batch ⇐ access (get_u16 input 4);
  codec ⇐ access (input !! 6%nat);
  fl ⇐ access (input !! 7%nat);
  succeed (mkSubscriptionRequest interval batch codec fl).

Definition unknown_codec (codec : Z) : bool :=
  negb (codec =? Codec_Cbor) && negb (codec =? Codec_Packed).

#[global] Arguments unknown_codec : simpl never.

Definition decode_subscription_policy (input : list Z) : Checked SubscriptionPolicy :=
  if size_is_not input subscription_policy_size then fail malformed else
  codec ⇐ access (input !! 6%nat);
  if unknown_codec codec then fail invalid_value else
  interval ⇐ access (get_u32 input 0);
  batch ⇐ access (get_u16 input 4);
  fl ⇐ access (input !! 7%nat);
  succeed (mkSubscriptionPolicy interval batch codec fl).

Definition encode_credit_grant (grant : CreditGrant) : option (list Z) :=
  o ← put_u32 (zeros credit_grant_size) 0 (cg_token grant);
  o ← put_u16 o 4 (cg_credits grant);
  put_u16 o 6 (cg_window grant).

Definition decode_credit_grant (input : list Z) : Checked CreditGrant :=
  if size_is_not input credit_grant_size then fail malformed else
  token ⇐ access (get_u32 input 0);
  credits ⇐ access (get_u16 input 4);
  window ⇐ access (get_u16 input 6);
  succeed (mkCreditGrant token credits window).

Definition encode_in_stream_open_response (response : InStreamOpenResponse) :
    option (list Z) :=
  policy ← encode_subscription_policy (or_policy response);
  o ← copy_to (zeros in_stream_open_response_size) 0 policy;
  put_u32 o subscription_policy_size (or_token response).

(** The policy is decoded before its error is looked at, so an invalid policy
    and a zero token report the same error. *)
Definition decode_in_stream_open_response (input : list Z) : Checked InStreamOpenResponse :=
  if size_is_not input in_stream_open_response_size then fail malformed else
  policy ← decode_subscription_policy (take subscription_policy_size input);
  token ⇐ access (get_u32 input subscription_policy_size);
  match policy with
  | Err _ => fail invalid_value
  | Ok policy =>
    if token =? 0 then fail invalid_value else succeed (mkInStreamOpenResponse policy token)
  end.

Definition encode_in_stream_close_request (request : InStreamCloseRequest) : option (list Z) :=
  put_u32 (zeros in_stream_close_request_size) 0 (cr_token request).

Definition decode_in_stream_close_request (input : list Z) : Checked InStreamCloseRequest :=
  if size_is_not input in_stream_close_request_size then fail malformed else
  token ⇐ access (get_u32 input 0);
  if token =? 0 then fail invalid_value else succeed (mkInStreamCloseRequest token).

Definition encode_in_stream_closed (closed : InStreamClosed) : option (list Z) :=
  o ← put_u32 (zeros in_stream_closed_size) 0 (ic_token closed);
  wr o 4 (ic_reason closed).

Definition decode_in_stream_closed (input : list Z) : Checked InStreamClosed :=
  bad ⇐ access (orelse (size_is_not input in_stream_closed_size)
    (b5 ← byte_is_not input 5 0; orelse b5
      (b6 ← byte_is_not input 6 0; orelse b6 (byte_is_not input 7 0))));
  if bad then fail malformed else
  token ⇐ access (get_u32 input 0);
  reason ⇐ access (input !! 4%nat);
  if (token =? 0) || (CloseReason_ConfigurationFailed <? reason) then fail invalid_value else
  succeed (mkInStreamClosed token reason).

Definition encode_ping_request (request : PingRequest) : option (list Z) :=
  o ← put_u64 (zeros ping_request_size) 0 (pq_nonce request);
  put_u64 o 8 (pq_host_monotonic_ns request).

Definition decode_ping_request (input : list Z) : Checked PingRequest :=
  if size_is_not input ping_request_size then fail malformed else
  nonce ⇐ access (get_u64 input 0);
  host ⇐ access (get_u64 input 8);
  succeed (mkPingRequest nonce host).

Definition encode_ping_response (response : PingResponse) : option (list Z) :=
  o ← put_u64 (zeros ping_response_size) 0 (pr_nonce response);
  o ← put_u64 o 8 (pr_host_monotonic_ns response);
  o ← put_u64 o 16 (pr_remote_receive_us response);
  put_u64 o 24 (pr_remote_send_us response).

Definition decode_ping_response (input : list Z) : Checked PingResponse :=
  if size_is_not input ping_response_size then fail malformed else
  nonce ⇐ access (get_u64 input 0);
  host ⇐ access (get_u64 input 8);
  receive ⇐ access (get_u64 input 16);
  send ⇐ access (get_u64 input 24);
  succeed (mkPingResponse nonce host receive send).

Definition encode_introspection_summary (summary : IntrospectionSummary) : option (list Z) :=
  o ← wr (zeros introspection_summary_size) 0 1;
  o ← wr o 1 major_version;
  o ← wr o 2 minor_version;
  o ← wr o 3 1;
  o ← put_u16 o 4 (is_schemas summary);
  o ← put_u16 o 6 (is_data summary);
  o ← put_u16 o 8 (is_actions summary);
  o ← put_u16 o 10 (is_topics summary);
  o ← put_u16 o 12 (is_streams summary);
  o ← put_u16 o 14 (is_links summary);
  o ← put_u32 o 16 (is_maximum_frame_bytes summary);
  put_u32 o 20 (is_maximum_message_bytes summary).

Definition decode_introspection_summary (input : list Z) : Checked IntrospectionSummary :=
  bad ⇐ access (orelse (size_is_not input introspection_summary_size)
    (b0 ← byte_is_not input 0 1; orelse b0 (byte_is_not input 1 major_version)));
  if bad then fail malformed else
  schemas ⇐ access (get_u16 input 4);
  data ⇐ access (get_u16 input 6);
  actions ⇐ access (get_u16 input 8);
  topics ⇐ access (get_u16 input 10);
  streams ⇐ access (get_u16 input 12);
  links ⇐ access (get_u16 input 14);
  frame ⇐ access (get_u32 input 16);
  message ⇐ access (get_u32 input 20);
  succeed (mkIntrospectionSummary schemas data actions topics streams links frame message).

Definition encode_collection_request (request : CollectionRequest) : option (list Z) :=
  o ← put_u16 (zeros collection_request_size) 0 (cq_offset request);
  put_u16 o 2 (cq_limit request).

Definition decode_collection_request (input : list Z) : Checked CollectionRequest :=
  if size_is_not input collection_request_size then fail malformed else
  offset ⇐ access (get_u16 input 0);
  limit ⇐ access (get_u16 input 2);
  succeed (mkCollectionRequest offset limit).

Definition decode_collection_page_header (input : list Z) : Checked CollectionPageHeader :=
  bad ⇐ access (orelse (length input <? collection_page_header_size)%nat
    (byte_is_not input 0 1));
  if bad then fail malformed else
  count ⇐ access (input !! 1%nat);
  total ⇐ access (get_u16 input 2);
  next ⇐ access (get_u16 input 4);
  more ⇐ access (byte_is_not input 6 0);
  succeed (mkCollectionPageHeader count total next more).

Definition encode_collection_query_request (request : CollectionQueryRequest) :
    option (list Z) :=
  o ← put_u32 (zeros collection_query_request_size) 0 (qr_stable_id request);
  o ← put_u32 o 4 (qr_offset request);
  o ← put_u32 o 8 (qr_revision request);
  put_u16 o 12 (qr_limit request).

Definition decode_collection_query_request (input : list Z) : Checked CollectionQueryRequest :=
  if size_is_not input collection_query_request_size then fail malformed else
  stable ⇐ access (get_u32 input 0);
  offset ⇐ access (get_u32 input 4);
  revision ⇐ access (get_u32 input 8);
  limit ⇐ access (get_u16 input 12);
  succeed (mkCollectionQueryRequest stable offset revision limit).

Definition encode_batch_header (header : BatchHeader) : option (list Z) :=
  o ← put_u16 (zeros batch_header_size) 0 (bh_count header);
  o ← wr o 2 (bh_codec header);
  wr o 3 (bh_version header).

Definition decode_batch_header (input : list Z) : Checked BatchHeader :=
  if (length input <? batch_header_size)%nat then fail malformed else
  codec ⇐ access (input !! 2%nat);
  version ⇐ access (input !! 3%nat);
  if unknown_codec codec || negb (version =? batch_version)
  then fail (Remote.error SProtocolError Remote.UnsupportedVersion Remote.Decode) else
  count ⇐ access (get_u16 input 0);
  succeed (mkBatchHeader count codec version).

(** ** The envelope *)
Definition bad_flags_or_fragment (e : Envelope) : bool :=
  negb (Z.land (flags e) 240 =? 0) || (fragment_count e =? 0)
    || (fragment_count e <=? fragment_index e).

Definition encode (envelope : Envelope) : Checked (list Z) :=
  if negb (major envelope =? major_version) || negb (valid (kind envelope))
     || bad_flags_or_fragment envelope
  then fail (Remote.error SInvalid Remote.InvalidValue Remote.FrameEncode) else
  access
   (o ← wr (zeros envelope_size) 0 (major envelope);
    o ← wr o 1 (minor envelope);
    o ← wr o 2 (kind envelope);
    o ← wr o 3 (flags envelope);
    o ← put_u16 o 4 (Z.of_nat envelope_size);
    o ← put_u32 o 6 (session_epoch envelope);
    o ← put_u32 o 10 (frame_sequence envelope);
    o ← put_u32 o 14 (target envelope);
    o ← put_u32 o 18 (request_id envelope);
    o ← put_u16 o 22 (payload_size envelope);
    o ← put_u16 o 24 (fragment_id envelope);
    o ← wr o 26 (fragment_index envelope);
    o ← wr o 27 (fragment_count envelope);
    put_u32 o 28 (reserved envelope)).

Definition decode (input : list Z) : Checked Envelope :=
  if (length input <? envelope_size)%nat
  then fail (Remote.error SProtocolError Remote.Malformed Remote.FrameDecode) else
  bad ⇐ access (A:=bool) (b0 ← byte_is_not input 0 major_version; orelse b0
    (size ← get_u16 input 4; Some (negb (size =? Z.of_nat envelope_size))));
  if bad
  then fail (Remote.error SNotSupported Remote.UnsupportedVersion Remote.FrameDecode) else
  mj ⇐ access (input !! 0%nat);
  mn ⇐ access (input !! 1%nat);
  kd ⇐ access (input !! 2%nat);
  fl ⇐ access (input !! 3%nat);
  epoch ⇐ access (get_u32 input 6);
  sequence ⇐ access (get_u32 input 10);
  tgt ⇐ access (get_u32 input 14);
  request ⇐ access (get_u32 input 18);
  size ⇐ access (get_u16 input 22);
  fragment ⇐ access (get_u16 input 24);
  index ⇐ access (input !! 26%nat);
  count ⇐ access (input !! 27%nat);
  rsv ⇐ access (get_u32 input 28);
  let envelope :=
    mkEnvelope mj mn kd fl epoch sequence tgt request size fragment index count rsv in
  if negb (valid (kind envelope))
  then fail (Remote.error SNotSupported Remote.UnsupportedKind Remote.FrameDecode)
  else if bad_flags_or_fragment envelope
  then fail (Remote.error SProtocolError Remote.Malformed Remote.FrameDecode)
  else succeed envelope.
