(* ===== verification/ProtocolCodec.v ===== *)
(** * ProtocolCodec: the wire layouts and the codec theorems

    The layout of each message is written as the concatenation of its
    little-endian fields; the encoders of [Protocol] are shown to produce
    exactly that layout and the decoders to invert it. *)
From stdpp Require Import prelude.
From S2P Require Import Prelude Status Wire Protocol.

Open Scope Z_scope.

(** ** Layouts *)
Definition layout_server_information (x : ServerInformation) : list Z :=
  [1; 1; 2; si_feature_flags x] ++ le_bytes 4 (si_maximum_frame_bytes x)
  ++ le_bytes 4 (si_maximum_message_bytes x) ++ le_bytes 8 (si_build_id x)
  ++ si_manifest_digest x ++ le_bytes 4 (si_manifest_size x).
Definition layout_manifest_request (x : ManifestRequest) : list Z :=
  le_bytes 4 (mr_offset x) ++ le_bytes 2 (mr_limit x) ++ [0; 0].
Definition layout_subscription_request (x : SubscriptionRequest) : list Z :=
  le_bytes 4 (sr_minimum_interval_us x) ++ le_bytes 2 (sr_batch_size x)
  ++ [sr_codec x; sr_flags x].
Definition layout_subscription_policy (x : SubscriptionPolicy) : list Z :=
  le_bytes 4 (sp_minimum_interval_us x) ++ le_bytes 2 (sp_batch_size x)
  ++ [sp_codec x; sp_flags x].
Definition layout_credit_grant (x : CreditGrant) : list Z :=
  le_bytes 4 (cg_token x) ++ le_bytes 2 (cg_credits x) ++ le_bytes 2 (cg_window x).
Definition layout_in_stream_open_response (x : InStreamOpenResponse) : list Z :=
  layout_subscription_policy (or_policy x) ++ le_bytes 4 (or_token x).
Definition layout_in_stream_close_request (x : InStreamCloseRequest) : list Z :=
  le_bytes 4 (cr_token x).
Definition layout_in_stream_closed (x : InStreamClosed) : list Z :=
  le_bytes 4 (ic_token x) ++ [ic_reason x; 0; 0; 0].
Definition layout_ping_request (x : PingRequest) : list Z :=
  le_bytes 8 (pq_nonce x) ++ le_bytes 8 (pq_host_monotonic_ns x).
Definition layout_ping_response (x : PingResponse) : list Z :=
  le_bytes 8 (pr_nonce x) ++ le_bytes 8 (pr_host_monotonic_ns x)
  ++ le_bytes 8 (pr_remote_receive_us x) ++ le_bytes 8 (pr_remote_send_us x).
Definition layout_introspection_summary (x : IntrospectionSummary) : list Z :=
  [1; 1; 2; 1] ++ le_bytes 2 (is_schemas x) ++ le_bytes 2 (is_data x)
  ++ le_bytes 2 (is_actions x) ++ le_bytes 2 (is_topics x) ++ le_bytes 2 (is_streams x)
  ++ le_bytes 2 (is_links x) ++ le_bytes 4 (is_maximum_frame_bytes x)
  ++ le_bytes 4 (is_maximum_message_bytes x).
Definition layout_collection_request (x : CollectionRequest) : list Z :=
  le_bytes 2 (cq_offset x) ++ le_bytes 2 (cq_limit x).
Definition layout_collection_query_request (x : CollectionQueryRequest) : list Z :=
  le_bytes 4 (qr_stable_id x) ++ le_bytes 4 (qr_offset x) ++ le_bytes 4 (qr_revision x)
  ++ le_bytes 2 (qr_limit x).
Definition layout_batch_header (x : BatchHeader) : list Z :=
  le_bytes 2 (bh_count x) ++ [bh_codec x; bh_version x].
Definition layout_envelope (x : Envelope) : list Z :=
  [major x; minor x; kind x; flags x] ++ le_bytes 2 32 ++ le_bytes 4 (session_epoch x)
  ++ le_bytes 4 (frame_sequence x) ++ le_bytes 4 (target x) ++ le_bytes 4 (request_id x)
  ++ le_bytes 2 (payload_size x) ++ le_bytes 2 (fragment_id x)
  ++ [fragment_index x; fragment_count x] ++ le_bytes 4 (reserved x).

(** ** Well-formed messages: every field in the range of its C++ type, and
    the values the decoders accept. *)
Definition codec_ok (c : Z) : Prop := c = Codec_Cbor ∨ c = Codec_Packed.
Definition wf_server_information (x : ServerInformation) : Prop :=
  is_u 32 (si_maximum_frame_bytes x) ∧ is_u 32 (si_maximum_message_bytes x) ∧
  is_u 64 (si_build_id x) ∧ is_u 32 (si_manifest_size x) ∧ is_u 8 (si_feature_flags x) ∧
  is_bytes (si_manifest_digest x) ∧ length (si_manifest_digest x) = 32%nat.
Definition wf_manifest_request (x : ManifestRequest) : Prop :=
  is_u 32 (mr_offset x) ∧ is_u 16 (mr_limit x).
Definition wf_subscription_request (x : SubscriptionRequest) : Prop :=
  is_u 32 (sr_minimum_interval_us x) ∧ is_u 16 (sr_batch_size x) ∧ is_u 8 (sr_codec x) ∧
  is_u 8 (sr_flags x).
Definition wf_subscription_policy (x : SubscriptionPolicy) : Prop :=
  is_u 32 (sp_minimum_interval_us x) ∧ is_u 16 (sp_batch_size x) ∧ codec_ok (sp_codec x) ∧
  is_u 8 (sp_flags x).
Definition wf_credit_grant (x : CreditGrant) : Prop :=
  is_u 32 (cg_token x) ∧ is_u 16 (cg_credits x) ∧ is_u 16 (cg_window x).
Definition wf_in_stream_open_response (x : InStreamOpenResponse) : Prop :=
  wf_subscription_policy (or_policy x) ∧ is_u 32 (or_token x) ∧ or_token x ≠ 0.
Definition wf_in_stream_close_request (x : InStreamCloseRequest) : Prop :=
  is_u 32 (cr_token x) ∧ cr_token x ≠ 0.
Definition wf_in_stream_closed (x : InStreamClosed) : Prop :=
  is_u 32 (ic_token x) ∧ ic_token x ≠ 0 ∧
  0 ≤ ic_reason x ≤ CloseReason_ConfigurationFailed.
Definition wf_ping_request (x : PingRequest) : Prop :=
  is_u 64 (pq_nonce x) ∧ is_u 64 (pq_host_monotonic_ns x).
Definition wf_ping_response (x : PingResponse) : Prop :=
  is_u 64 (pr_nonce x) ∧ is_u 64 (pr_host_monotonic_ns x) ∧
  is_u 64 (pr_remote_receive_us x) ∧ is_u 64 (pr_remote_send_us x).
Definition wf_introspection_summary (x : IntrospectionSummary) : Prop :=
  is_u 16 (is_schemas x) ∧ is_u 16 (is_data x) ∧ is_u 16 (is_actions x) ∧
  is_u 16 (is_topics x) ∧ is_u 16 (is_streams x) ∧ is_u 16 (is_links x) ∧
  is_u 32 (is_maximum_frame_bytes x) ∧ is_u 32 (is_maximum_message_bytes x).
Definition wf_collection_request (x : CollectionRequest) : Prop :=
  is_u 16 (cq_offset x) ∧ is_u 16 (cq_limit x).
Definition wf_collection_query_request (x : CollectionQueryRequest) : Prop :=
  is_u 32 (qr_stable_id x) ∧ is_u 32 (qr_offset x) ∧ is_u 32 (qr_revision x) ∧
  is_u 16 (qr_limit x).
Definition wf_batch_header (x : BatchHeader) : Prop :=
  is_u 16 (bh_count x) ∧ codec_ok (bh_codec x) ∧ bh_version x = batch_version.

(** The field ranges of an envelope, and what its two ends check. *)
Definition envelope_ranges (x : Envelope) : Prop :=
  is_u 8 (major x) ∧ is_u 8 (minor x) ∧ is_u 8 (kind x) ∧ is_u 8 (flags x) ∧
  is_u 32 (session_epoch x) ∧ is_u 32 (frame_sequence x) ∧ is_u 32 (target x) ∧
  is_u 32 (request_id x) ∧ is_u 16 (payload_size x) ∧ is_u 16 (fragment_id x) ∧
  is_u 8 (fragment_index x) ∧ is_u 8 (fragment_count x) ∧ is_u 32 (reserved x).
Definition envelope_accepted (x : Envelope) : bool :=
  (major x =? major_version) && valid (kind x) && negb (bad_flags_or_fragment x).

(** ** A codec and its laws *)
Record Codec : Type := mkCodec {
  carrier : Type;
  width : nat;
  enc : carrier → option (list Z);
  dec : list Z → Checked carrier;
  layout : carrier → list Z;
  wf : carrier → Prop
}.

(** A well-formed message is encoded as its layout, [width] bytes long, and
    decoded back to itself. *)
Definition lawful (c : Codec) : Prop :=
  ∀ x : carrier c, wf c x →
    enc c x = Some (layout c x) ∧ length (layout c x) = width c ∧
    is_bytes (layout c x) ∧ dec c (layout c x) = succeed x.

(** The decoder is defined on every span. *)
Definition total (c : Codec) : Prop := ∀ input, dec c input ≠ None.

(** A span that is accepted is the encoding of what it is decoded to. *)
Definition canonical (c : Codec) : Prop :=
  ∀ input x, is_bytes input → dec c input = succeed x → enc c x = Some input ∧ wf c x.

Definition server_information_codec := mkCodec _ server_information_size
  encode_server_information decode_server_information layout_server_information
  wf_server_information.
Definition manifest_request_codec := mkCodec _ manifest_request_size
  encode_manifest_request decode_manifest_request layout_manifest_request wf_manifest_request.
Definition subscription_request_codec := mkCodec _ subscription_policy_size
  encode_subscription_request decode_subscription_request layout_subscription_request
  wf_subscription_request.
Definition subscription_policy_codec := mkCodec _ subscription_policy_size
  encode_subscription_policy decode_subscription_policy layout_subscription_policy
  wf_subscription_policy.
Definition credit_grant_codec := mkCodec _ credit_grant_size
  encode_credit_grant decode_credit_grant layout_credit_grant wf_credit_grant.
Definition in_stream_open_response_codec := mkCodec _ in_stream_open_response_size
  encode_in_stream_open_response decode_in_stream_open_response
  layout_in_stream_open_response wf_in_stream_open_response.
Definition in_stream_close_request_codec := mkCodec _ in_stream_close_request_size
  encode_in_stream_close_request decode_in_stream_close_request
  layout_in_stream_close_request wf_in_stream_close_request.
Definition in_stream_closed_codec := mkCodec _ in_stream_closed_size
  encode_in_stream_closed decode_in_stream_closed layout_in_stream_closed
  wf_in_stream_closed.
Definition ping_request_codec := mkCodec _ ping_request_size
  encode_ping_request decode_ping_request layout_ping_request wf_ping_request.
Definition ping_response_codec := mkCodec _ ping_response_size
  encode_ping_response decode_ping_response layout_ping_response wf_ping_response.
Definition introspection_summary_codec := mkCodec _ introspection_summary_size
  encode_introspection_summary decode_introspection_summary layout_introspection_summary
  wf_introspection_summary.
Definition collection_request_codec := mkCodec _ collection_request_size
  encode_collection_request decode_collection_request layout_collection_request
  wf_collection_request.
Definition collection_query_request_codec := mkCodec _ collection_query_request_size
  encode_collection_query_request decode_collection_query_request
  layout_collection_query_request wf_collection_query_request.
Definition batch_header_codec := mkCodec _ batch_header_size
  encode_batch_header decode_batch_header layout_batch_header wf_batch_header.

(** The messages whose every byte is significant to the decoder ... *)
Definition exact_codecs : list Codec :=
  [manifest_request_codec; subscription_request_codec; subscription_policy_codec;
   credit_grant_codec; in_stream_open_response_codec; in_stream_close_request_codec;
   in_stream_closed_codec; ping_request_codec; ping_response_codec;
   collection_request_codec; collection_query_request_codec].
(** ... and the ones with bytes it ignores or that open a longer payload. *)
Definition loose_codecs : list Codec :=
  [server_information_codec; introspection_summary_codec; batch_header_codec].

(** ** Proof automation *)

(** An encoder writes its layout: both sides compute to the same digits. *)
Ltac open_layout := cbv [layout_server_information layout_manifest_request
    layout_subscription_request layout_subscription_policy layout_credit_grant
    layout_in_stream_open_response layout_in_stream_close_request layout_in_stream_closed
    layout_ping_request layout_ping_response layout_introspection_summary
    layout_collection_request layout_collection_query_request layout_batch_header
    layout_envelope].
Ltac solve_layout := intros; open_layout; rewrite ?le_bytes_digits; reflexivity.

Ltac solve_bytes :=
  open_layout; simpl;
  repeat (apply Forall_cons_2;
    [first [assumption | exact (Z.mod_pos_bound _ 256 eq_refl) | word_lia | by split]|]);
  first [apply Forall_nil_2 | assumption].

(** Read every integer field of a span that starts with known digits. *)
Ltac read_fields :=
  repeat first
    [ erewrite get_u64_at by first [reflexivity | assumption]
    | erewrite get_u32_at by first [reflexivity | assumption]
    | erewrite get_u16_at by first [reflexivity | assumption | word_lia] ].

Ltac open_codec :=
  unfold lawful, total, canonical;
  cbv [carrier width enc dec layout wf server_information_codec manifest_request_codec
    subscription_request_codec subscription_policy_codec credit_grant_codec
    in_stream_open_response_codec in_stream_close_request_codec in_stream_closed_codec
    ping_request_codec ping_response_codec introspection_summary_codec
    collection_request_codec collection_query_request_codec batch_header_codec].

Ltac open_message x :=
  destruct x;
  cbv [wf_server_information wf_manifest_request wf_subscription_request
    wf_subscription_policy wf_credit_grant wf_in_stream_open_response
    wf_in_stream_close_request wf_in_stream_closed wf_ping_request wf_ping_response
    wf_introspection_summary wf_collection_request wf_collection_query_request
    wf_batch_header envelope_ranges codec_ok] in *; simpl in *; destruct_and?.

(** The four parts of [lawful] for a message whose decoder only reads. *)
Ltac solve_lawful :=
  open_codec; intros x Hx; split; [solve_layout|]; open_message x;
  split; [done|]; split; [solve_bytes|].

Lemma manifest_request_lawful : lawful manifest_request_codec.
Proof.
  solve_lawful. unfold decode_manifest_request.
  rewrite (get_u16_at _ 6 0) by (reflexivity || word_lia). by read_fields.
Qed.
Lemma subscription_request_lawful : lawful subscription_request_codec.
Proof. solve_lawful. unfold decode_subscription_request. by read_fields. Qed.
Lemma credit_grant_lawful : lawful credit_grant_codec.
Proof. solve_lawful. unfold decode_credit_grant. by read_fields. Qed.
Lemma ping_request_lawful : lawful ping_request_codec.
Proof. solve_lawful. unfold decode_ping_request. by read_fields. Qed.
Lemma ping_response_lawful : lawful ping_response_codec.
Proof. solve_lawful. unfold decode_ping_response. by read_fields. Qed.
Lemma introspection_summary_lawful : lawful introspection_summary_codec.
Proof. solve_lawful. unfold decode_introspection_summary. by read_fields. Qed.
Lemma collection_request_lawful : lawful collection_request_codec.
Proof. solve_lawful. unfold decode_collection_request. by read_fields. Qed.
Lemma collection_query_request_lawful : lawful collection_query_request_codec.
Proof. solve_lawful. unfold decode_collection_query_request. by read_fields. Qed.
Lemma in_stream_close_request_lawful : lawful in_stream_close_request_codec.
Proof.
  solve_lawful. unfold decode_in_stream_close_request. read_fields. simpl.
  by rewrite (proj2 (Z.eqb_neq _ _)).
Qed.

Lemma codec_ok_byte c : codec_ok c → is_u 8 c ∧ unknown_codec c = false.
Proof. by intros [->| ->]. Qed.

Lemma subscription_policy_lawful : lawful subscription_policy_codec.
Proof.
  open_codec. intros x (? & ? & [? Hc]%codec_ok_byte & ?). split; [solve_layout|]. destruct x; simpl in *.
  split; [done|]. split; [solve_bytes|]. unfold decode_subscription_policy. read_fields. simpl.
  by rewrite Hc.
Qed.

Lemma batch_header_lawful : lawful batch_header_codec.
Proof.
  open_codec. intros x (? & [? Hc]%codec_ok_byte & ?). split; [solve_layout|]. destruct x; simpl in *.
  subst. split; [done|]. split; [solve_bytes|]. unfold decode_batch_header. read_fields. simpl.
  by rewrite Hc.
Qed.

Lemma in_stream_open_response_lawful : lawful in_stream_open_response_codec.
Proof.
  open_codec. intros [policy token] (Hp & Ht & Hnz).
  destruct (subscription_policy_lawful policy Hp) as (_ & Hlen & Hbytes & Hdec).
  cbn [subscription_policy_codec enc dec layout width carrier or_policy or_token] in *.
  split; [solve_layout|]. split; [done|].
  split; [apply Forall_app_2; [done|apply le_bytes_bytes]|].
  unfold decode_in_stream_open_response, layout_in_stream_open_response, size_is_not.
  cbn [or_policy or_token].
  rewrite length_app, Hlen, length_le_bytes, take_app_exact by done.
  erewrite get_u32_at; [|by rewrite drop_app_exact|done]. simpl. rewrite Hdec. simpl.
  by rewrite (proj2 (Z.eqb_neq _ _)).
Qed.

Lemma in_stream_closed_lawful : lawful in_stream_closed_codec.
Proof.
  open_codec. intros x (? & ? & Hr). unfold CloseReason_ConfigurationFailed in *.
  split; [solve_layout|]. destruct x; simpl in *. split; [done|]. split; [solve_bytes|].
  unfold decode_in_stream_closed. read_fields. simpl.
  rewrite (proj2 (Z.eqb_neq _ _)), (proj2 (Z.ltb_ge _ _)) 
    by (done || unfold CloseReason_ConfigurationFailed; lia). done.
Qed.

Lemma server_information_lawful : lawful server_information_codec.
Proof.
  open_codec. intros x (? & ? & ? & ? & ? & Hd & Hlen). destruct x as [a b c d e f]; simpl in *.
  do 32 (destruct d as [|? d]; [discriminate|]; apply Forall_cons_1 in Hd as [? Hd]).
  destruct d; [|discriminate].
  split; [solve_layout|]. split; [done|]. split; [solve_bytes|].
  unfold decode_server_information. by read_fields.
Qed.

#[export] Hint Resolve manifest_request_lawful subscription_request_lawful
  subscription_policy_lawful credit_grant_lawful in_stream_open_response_lawful
  in_stream_close_request_lawful in_stream_closed_lawful ping_request_lawful
  ping_response_lawful collection_request_lawful collection_query_request_lawful
  server_information_lawful introspection_summary_lawful batch_header_lawful : solar.

(** C39: for every fixed-size message of the protocol, encoding a well-formed
    value writes exactly its little-endian layout inside the array, and
    decoding those bytes gives the value back. *)
Theorem messages_roundtrip : Forall lawful (exact_codecs ++ loose_codecs).
Proof. repeat (apply Forall_cons_2; [auto with solar|]). apply Forall_nil_2. Qed.

(** ** Totality *)
Lemma size_is_not_false l n : size_is_not l n = false → length l = n.
Proof. unfold size_is_not. destruct (Nat.eqb_spec (length l) n); done. Qed.

(** On a span of the right size every access the decoder makes computes. *)
Ltac case_size input size :=
  destruct (size_is_not input size) eqn:Hsize; [simpl; done|];
  apply size_is_not_false in Hsize;
  let n := eval compute in size in explode input n.
Ltac solve_total size :=
  open_codec; intros input;
  lazymatch goal with |- ?f _ ≠ _ => unfold f end;
  case_size input size; unfold orelse, byte_is_not; simpl; repeat (case_match; simplify_eq/=); done.

Lemma subscription_policy_total : total subscription_policy_codec.
Proof. solve_total subscription_policy_size. Qed.

Lemma exact_total : Forall total exact_codecs.
Proof.
  repeat apply Forall_cons_2; [..|apply Forall_nil_2].
  - solve_total manifest_request_size.
  - solve_total subscription_policy_size.
  - apply subscription_policy_total.
  - solve_total credit_grant_size.
  - open_codec. intros input. unfold decode_in_stream_open_response.
    case_size input in_stream_open_response_size.
    match goal with |- context [decode_subscription_policy ?i] =>
      pose proof (subscription_policy_total i) as Hp; change (decode_subscription_policy i ≠ None) in Hp;
      destruct (decode_subscription_policy i) as [[p|e]|]; [..|done] end;
    simpl; [by case_match|done].
  - solve_total in_stream_close_request_size.
  - solve_total in_stream_closed_size.
  - solve_total ping_request_size.
  - solve_total ping_response_size.
  - solve_total collection_request_size.
  - solve_total collection_query_request_size.
Qed.

Lemma loose_total : Forall total loose_codecs.
Proof.
  repeat apply Forall_cons_2; [..|apply Forall_nil_2].
  - solve_total server_information_size.
  - solve_total introspection_summary_size.
  - open_codec. intros input. unfold decode_batch_header.
    destruct (length input <? batch_header_size)%nat eqn:Hsize; [done|].
    apply Nat.ltb_ge in Hsize. unfold batch_header_size in Hsize.
    do 4 (destruct input as [|? input]; [simpl in Hsize; lia|]).
    simpl. by case_match.
Qed.

(** No decoder of the protocol ever reads outside the span it is given,
    whatever a peer sends: each returns a value or an error. *)
Theorem messages_total : Forall total (exact_codecs ++ loose_codecs).
Proof. apply Forall_app_2; [apply exact_total|apply loose_total]. Qed.

(** ** Canonicity *)
Ltac read_values Hdec :=
  repeat (first [rewrite get_u64_value in Hdec | rewrite get_u32_value in Hdec
                | rewrite get_u16_value in Hdec];
    [|assumption|simpl; lia]);
  simpl in Hdec.
Ltac bytes_of Hb := repeat (apply Forall_cons_1 in Hb as [? Hb]).
Ltac refold :=
  repeat match goal with
    | |- context [le_bytes ?n (le_value ?bs)] =>
      replace (le_bytes n (le_value bs)) with bs
        by (symmetry; apply (le_bytes_value bs); solve_bytes)
    end.
Ltac solve_ranges :=
  repeat split; simpl; first
    [ match goal with
      | |- context [le_value ?bs] => apply (le_value_range bs); solve_bytes
      end
    | assumption
    | match goal with H : is_u 8 ?z |- context [?z] => apply H end ].
(** Goals [enc x = Some input ∧ wf x] for a decoded [x]. *)
Ltac solve_reencode enc_layout :=
  split; [rewrite enc_layout; f_equal; open_layout; simpl; by refold|]; solve_ranges.

Section Canonical.
#[local] Opaque le_value le_bytes get_u16 get_u32 get_u64.

Lemma le_value_zero a b : is_u 8 a → is_u 8 b → le_value [a; b] = 0 → a = 0 ∧ b = 0.
Proof. #[local] Transparent le_value. simpl. word_lia. Qed.
#[local] Opaque le_value.

Ltac case_size_in Hdec input size :=
  destruct (size_is_not input size) eqn:Hsize; [done|]; apply size_is_not_false in Hsize;
  let n := eval compute in size in explode input n.
Ltac solve_canonical size layout_lemma :=
  open_codec; intros input x Hb Hdec;
  lazymatch type of Hdec with ?f _ = _ => unfold f in Hdec end;
  case_size_in Hdec input size; read_values Hdec; bytes_of Hb; simplify_eq; solve_reencode layout_lemma.

Lemma manifest_request_layout x : encode_manifest_request x = Some (layout_manifest_request x).
Proof. solve_layout. Qed.
Lemma subscription_request_layout x : encode_subscription_request x = Some (layout_subscription_request x).
Proof. solve_layout. Qed.
Lemma subscription_policy_layout x : encode_subscription_policy x = Some (layout_subscription_policy x).
Proof. solve_layout. Qed.
Lemma credit_grant_layout x : encode_credit_grant x = Some (layout_credit_grant x).
Proof. solve_layout. Qed.
Lemma in_stream_open_response_layout x : encode_in_stream_open_response x = Some (layout_in_stream_open_response x).
Proof. solve_layout. Qed.
Lemma in_stream_close_request_layout x : encode_in_stream_close_request x = Some (layout_in_stream_close_request x).
Proof. solve_layout. Qed.
Lemma in_stream_closed_layout x : encode_in_stream_closed x = Some (layout_in_stream_closed x).
Proof. solve_layout. Qed.
Lemma ping_request_layout x : encode_ping_request x = Some (layout_ping_request x).
Proof. solve_layout. Qed.
Lemma ping_response_layout x : encode_ping_response x = Some (layout_ping_response x).
Proof. solve_layout. Qed.
Lemma collection_request_layout x : encode_collection_request x = Some (layout_collection_request x).
Proof. solve_layout. Qed.
Lemma collection_query_request_layout x : encode_collection_query_request x = Some (layout_collection_query_request x).
Proof. solve_layout. Qed.

Lemma subscription_request_canonical : canonical subscription_request_codec.
Proof. solve_canonical subscription_policy_size subscription_request_layout. Qed.
Lemma credit_grant_canonical : canonical credit_grant_codec.
Proof. solve_canonical credit_grant_size credit_grant_layout. Qed.
Lemma ping_request_canonical : canonical ping_request_codec.
Proof. solve_canonical ping_request_size ping_request_layout. Qed.
Lemma ping_response_canonical : canonical ping_response_codec.
Proof. solve_canonical ping_response_size ping_response_layout. Qed.
Lemma collection_request_canonical : canonical collection_request_codec.
Proof. solve_canonical collection_request_size collection_request_layout. Qed.
Lemma collection_query_request_canonical : canonical collection_query_request_codec.
Proof. solve_canonical collection_query_request_size collection_query_request_layout. Qed.

Lemma unknown_codec_false c : unknown_codec c = false → codec_ok c.
Proof.
  unfold unknown_codec, codec_ok. rewrite andb_false_iff, !negb_false_iff, !Z.eqb_eq. done.
Qed.

Lemma manifest_request_canonical : canonical manifest_request_codec.
Proof.
  open_codec. intros input x Hb Hdec. unfold decode_manifest_request in Hdec.
  case_size_in Hdec input manifest_request_size. read_values Hdec. bytes_of Hb.
  destruct (Z.eqb_spec (le_value [z5; z6]) 0) as [[-> ->]%le_value_zero|]; [|done..].
  simplify_eq/=.
  solve_reencode manifest_request_layout.
Qed.

Lemma subscription_policy_canonical : canonical subscription_policy_codec.
Proof.
  open_codec. intros input x Hb Hdec. unfold decode_subscription_policy in Hdec.
  case_size_in Hdec input subscription_policy_size. read_values Hdec. bytes_of Hb.
  destruct (unknown_codec z5) eqn:Hc; simplify_eq/=. apply unknown_codec_false in Hc.
  solve_reencode subscription_policy_layout.
Qed.

Lemma in_stream_close_request_canonical : canonical in_stream_close_request_codec.
Proof.
  open_codec. intros input x Hb Hdec. unfold decode_in_stream_close_request in Hdec.
  case_size_in Hdec input in_stream_close_request_size. read_values Hdec. bytes_of Hb.
  case_match eqn:Hz; simplify_eq/=. apply Z.eqb_neq in Hz.
  split; [rewrite in_stream_close_request_layout; f_equal; open_layout; simpl; by refold|].
  split; [|done]. apply (le_value_range [z; z0; z1; z2]); solve_bytes.
Qed.

Lemma in_stream_closed_canonical : canonical in_stream_closed_codec.
Proof.
  open_codec. intros input x Hb Hdec. unfold decode_in_stream_closed in Hdec.
  case_size_in Hdec input in_stream_closed_size. unfold orelse, byte_is_not in Hdec.
  simpl in Hdec.
  destruct (Z.eqb_spec z4 0) as [->|]; [|done]. simpl in Hdec.
  destruct (Z.eqb_spec z5 0) as [->|]; [|done]. simpl in Hdec.
  destruct (Z.eqb_spec z6 0) as [->|]; [|done]. simpl in Hdec.
  read_values Hdec. bytes_of Hb.
  case_match eqn:Hz; simplify_eq/=. apply orb_false_iff in Hz as [Hz%Z.eqb_neq Hr%Z.ltb_ge].
  split; [rewrite in_stream_closed_layout; f_equal; open_layout; simpl; by refold|].
  split; [apply (le_value_range [z; z0; z1; z2]); solve_bytes|]. split; [done|]. simpl.
  word_lia.
Qed.

Lemma in_stream_open_response_canonical : canonical in_stream_open_response_codec.
Proof.
  open_codec. intros input x Hb Hdec. unfold decode_in_stream_open_response in Hdec.
  destruct (size_is_not input in_stream_open_response_size) eqn:Hsize; [done|].
  apply size_is_not_false in Hsize. unfold in_stream_open_response_size in Hsize.
  rewrite get_u32_value in Hdec; [|done|unfold subscription_policy_size; lia].
  destruct (decode_subscription_policy (take subscription_policy_size input))
    as [[policy|e]|] eqn:Hp; [|done..].
  apply subscription_policy_canonical in Hp as [Hp Hwf]; [|by apply Forall_take].
  simpl in Hdec. case_match eqn:Hz; simplify_eq/=. apply Z.eqb_neq in Hz.
  change (encode_subscription_policy policy = Some (take subscription_policy_size input))
    in Hp.
  rewrite subscription_policy_layout in Hp. injection Hp as Hp.
  assert (is_bytes (take 4 (drop subscription_policy_size input))) as Hb4
    by auto using Forall_take, Forall_drop.
  assert (length (take 4 (drop subscription_policy_size input)) = 4%nat) as Hl4.
  { rewrite length_take, length_drop. unfold subscription_policy_size. lia. }
  split.
  - rewrite in_stream_open_response_layout. f_equal. unfold layout_in_stream_open_response.
    simpl. rewrite Hp. rewrite <-Hl4 at 1. rewrite le_bytes_value by done.
    rewrite <-(take_drop subscription_policy_size input) at 3. f_equal.
    apply take_ge. rewrite length_drop. unfold subscription_policy_size. lia.
  - split; [done|]. split; [|done]. simpl.
    pose proof (le_value_range _ Hb4) as Hr. rewrite Hl4 in Hr. exact Hr.
Qed.
End Canonical.

#[export] Hint Resolve manifest_request_canonical subscription_request_canonical
  subscription_policy_canonical credit_grant_canonical in_stream_open_response_canonical
  in_stream_close_request_canonical in_stream_closed_canonical ping_request_canonical
  ping_response_canonical collection_request_canonical collection_query_request_canonical
  : solar.

(** The encodings are canonical: a span that one of these decoders
    accepts is exactly the encoding of the message it returns, and that
    message is well formed. *)
Theorem messages_canonical : Forall canonical exact_codecs.
Proof. repeat (apply Forall_cons_2; [auto with solar|]). apply Forall_nil_2. Qed.

(** ** The envelope *)
Lemma length_layout_envelope e : length (layout_envelope e) = envelope_size.
Proof. done. Qed.

Lemma encode_envelope_accepted e :
  envelope_accepted e = true → encode e = succeed (layout_envelope e).
Proof.
  unfold envelope_accepted, encode. rewrite !andb_true_iff, negb_true_iff.
  intros [[-> ->] ->]. simpl. solve_layout.
Qed.
Lemma encode_envelope_rejected e :
  envelope_accepted e = false →
  encode e = fail (Remote.error SInvalid Remote.InvalidValue Remote.FrameEncode).
Proof.
  unfold envelope_accepted, encode.
  destruct (major e =? major_version), (valid (kind e)), (bad_flags_or_fragment e); done.
Qed.

Lemma layout_envelope_bytes e : envelope_ranges e → is_bytes (layout_envelope e).
Proof. intros He. open_message e. solve_bytes. Qed.

Section Envelope.
#[local] Opaque valid bad_flags_or_fragment.

Lemma decode_envelope_layout e rest :
  envelope_ranges e → envelope_accepted e = true →
  decode (layout_envelope e ++ rest) = succeed e.
Proof.
  intros He Hacc. unfold envelope_accepted in Hacc.
  rewrite !andb_true_iff, negb_true_iff in Hacc. destruct Hacc as [[Hmajor Hvalid] Hbad].
  apply Z.eqb_eq in Hmajor.
  unfold decode. rewrite (proj2 (Nat.ltb_ge _ _)) by (simpl; unfold envelope_size; lia).
  unfold envelope_ranges in He. destruct_and!.
  rewrite (get_u16_at _ 4 32) by (reflexivity || word_lia). read_fields.
  destruct e; simpl in *. subst. simpl. by rewrite Hvalid, Hbad.
Qed.

Lemma decode_envelope_total input : decode input ≠ None.
Proof.
  unfold decode. destruct (length input <? envelope_size)%nat eqn:Hlen; [done|].
  apply Nat.ltb_ge in Hlen. unfold envelope_size in Hlen.
  do 32 (destruct input as [|? input]; [simpl in Hlen; lia|]).
  unfold orelse, byte_is_not. simpl. repeat (case_match; simplify_eq/=); done.
Qed.

#[local] Opaque le_value le_bytes get_u16 get_u32 get_u64.

Lemma decode_envelope_inv input e :
  is_bytes input → decode input = succeed e →
  envelope_accepted e = true ∧ envelope_ranges e ∧ ∃ rest, input = layout_envelope e ++ rest.
Proof.
  intros Hb Hdec. unfold decode in Hdec.
  destruct (length input <? envelope_size)%nat eqn:Hlen; [done|].
  apply Nat.ltb_ge in Hlen. unfold envelope_size in Hlen.
  do 32 (destruct input as [|? input]; [simpl in Hlen; lia|]).
  unfold orelse, byte_is_not in Hdec.
  repeat (first [rewrite get_u32_value in Hdec | rewrite get_u16_value in Hdec];
    [|assumption|simpl; lia]).
  change (Z.of_nat envelope_size) with 32 in Hdec.
  simpl in Hdec. rewrite ?take_0 in Hdec. repeat (apply Forall_cons_1 in Hb as [? Hb]).
  destruct (Z.eqb_spec z major_version) as [->|]; [|done]. simpl in Hdec.
  destruct (Z.eqb_spec (le_value [z3; z4]) 32) as [Hsize|]; [|done]. simpl in Hdec.
  destruct (valid z1) eqn:Hvalid; [|done]. simpl in Hdec.
  destruct (bad_flags_or_fragment _) eqn:Hbad; [done|]. injection Hdec as <-.
  split; [|split].
  - unfold envelope_accepted. cbn [major kind]. by rewrite Hvalid, Hbad.
  - solve_ranges.
  - exists input. open_layout. simpl. rewrite <-Hsize. by refold.
Qed.
End Envelope.

(** an envelope with fields in range is encoded exactly when it has the
    protocol version, a known kind, no unknown flag and a fragment index
    below its count; a frame that starts with those bytes decodes to it,
    whatever payload follows, and every other envelope is refused. *)
Theorem envelope_roundtrip e rest :
  envelope_ranges e →
  (envelope_accepted e = true →
     encode e = succeed (layout_envelope e) ∧ decode (layout_envelope e ++ rest) = succeed e) ∧
  (envelope_accepted e = false →
     encode e = fail (Remote.error SInvalid Remote.InvalidValue Remote.FrameEncode)).
Proof.
  intros He. split; [|apply encode_envelope_rejected].
  auto using encode_envelope_accepted, decode_envelope_layout.
Qed.

Definition sample_envelope : Envelope :=
  mkEnvelope 1 2 4 2 7 513 65536 9 300 0 0 1 1.

Lemma envelope_roundtrip_witness :
  encode sample_envelope = succeed (layout_envelope sample_envelope) ∧
  decode (layout_envelope sample_envelope ++ [171]) = succeed sample_envelope.
Proof.
  apply (envelope_roundtrip sample_envelope [171]); [|reflexivity].
  repeat split; discriminate.
Defined.

(** On any bytes at all the envelope decoder returns a value or an
    error; when it returns an envelope, every field is in the range of its
    type, the envelope is one the encoder accepts, and the input starts with
    its encoding. *)
Theorem envelope_decode_sound input :
  is_bytes input →
  decode input ≠ None ∧
  ∀ e, decode input = succeed e →
    envelope_ranges e ∧ encode e = succeed (layout_envelope e) ∧
    ∃ rest, input = layout_envelope e ++ rest.
Proof.
  intros Hb. split; [apply decode_envelope_total|]. intros e Hdec.
  destruct (decode_envelope_inv input e Hb Hdec) as (Hacc & Hr & Hin).
  auto using encode_envelope_accepted.
Qed.

Lemma envelope_decode_sound_witness :
  is_bytes (layout_envelope sample_envelope) ∧
  encode sample_envelope = succeed (layout_envelope sample_envelope).
Proof.
  assert (is_bytes (layout_envelope sample_envelope)) as Hb
    by (apply layout_envelope_bytes; repeat split; discriminate).
  split; [exact Hb|].
  destruct (envelope_decode_sound (layout_envelope sample_envelope) Hb) as [_ H].
  destruct (H sample_envelope) as (_ & He & _); [reflexivity|exact He].
Defined.

(** The low byte of [reserved] holds the operation kind; setting it keeps
    the other three bytes. *)
Lemma set_operation_spec e k :
  is_u 32 (reserved e) → is_u 8 k →
  operation (set_operation e k) = k ∧
  reserved (set_operation e k) / 256 = reserved e / 256.
Proof.
  intros Hr Hk. unfold operation, set_operation, with_reserved. simpl.
  assert (Z.land (reserved e) 4294967040 = Z.shiftl (reserved e / 256) 8) as ->.
  { apply Z.bits_inj'. intros i Hi. rewrite Z.land_spec, Z.shiftl_spec by done.
    change 4294967040 with (Z.shiftl (Z.ones 24) 8). rewrite Z.shiftl_spec by done.
    destruct (Z.lt_ge_cases i 8).
    - rewrite !(Z.testbit_neg_r _ (i - 8)) by lia. by rewrite andb_false_r.
    - change 256 with (2 ^ 8). rewrite Z.div_pow2_bits, Z.testbit_ones_nonneg by lia.
      replace (i - 8 + 8) with i by lia. destruct (Z.ltb_spec (i - 8) 24).
      + by rewrite andb_true_r.
      + rewrite andb_false_r. symmetry.
        destruct (decide (reserved e = 0)) as [->|]; [apply Z.bits_0|].
        apply Z.bits_above_log2; [apply Hr|]. apply Z.log2_lt_pow2; [unfold is_u in Hr; lia|].
        eapply Z.lt_le_trans; [apply Hr|]. apply Z.pow_le_mono_r; lia. }
  rewrite Z.lor_comm, lor_shiftl_add by (done || apply Hk). change (2 ^ 8) with 256.
  change 255 with (Z.ones 8). rewrite Z.land_ones by done. change (2 ^ 8) with 256.
  unfold wrap. change (2 ^ 8) with 256. widths. split; div_lia.
Qed.
