(* ===== verification/Crc.v ===== *)
(** * Crc: the frame checksum

    Models [frame::crc32c] of [include/solar/remote/frame.hpp] (the routine
    of the host build) on 32-bit words, and shows which corruptions it
    detects. *)
From stdpp Require Import prelude.
From S2P Require Import Prelude Wire.

Open Scope Z_scope.

(** [0x82F63B78U] *)
Definition polynomial : Z := 2197175160.

(** One turn of the inner loop. *)
Definition crc_bit (crc : Z) : Z :=
  Z.lxor (Z.shiftr crc 1) (Z.land polynomial (u32 (0 - Z.land crc 1))).

(** The body of the outer loop. *)
Definition crc_byte (crc value : Z) : Z := Nat.iter 8 crc_bit (Z.lxor crc value).

Definition crc32c (input : list Z) : Z :=
  u32 (Z.lnot (fold_left crc_byte input 4294967295)).

(** ** Words *)
Lemma lxor_range w a b : 0 ≤ w → is_u w a → is_u w b → is_u w (Z.lxor a b).
Proof.
  intros Hw Ha Hb.
  assert (Z.lxor a b = Z.lxor a b mod 2 ^ w) as ->; [|by apply wrap_range].
  rewrite <-Z.land_ones by done. apply Z.bits_inj'. intros i Hi.
  rewrite Z.land_spec, !Z.lxor_spec, Z.testbit_ones_nonneg by done.
  destruct (Z.ltb_spec i w); [by rewrite andb_true_r|].
  assert (∀ c, is_u w c → Z.testbit c i = false) as Hhigh.
  { intros c [??]. rewrite <-(Z.mod_small c (2 ^ w)) by done.
    by rewrite Z.mod_pow2_bits_high by lia. }
  by rewrite !Hhigh.
Qed.

Lemma lxor_cancel_l a b c : Z.lxor a b = Z.lxor a c → b = c.
Proof.
  intros H. apply (f_equal (Z.lxor a)) in H.
  by rewrite <-!Z.lxor_assoc, Z.lxor_nilpotent, !Z.lxor_0_l in H.
Qed.

(** ** One bit *)
Lemma crc_bit_spec c :
  crc_bit c = Z.lxor (c / 2) (if Z.odd c then polynomial else 0).
Proof.
  unfold crc_bit. rewrite Z.shiftr_div_pow2 by done. change (2 ^ 1) with 2. f_equal.
  change 1 with (Z.ones 1) at 1. rewrite Z.land_ones by done. change (2 ^ 1) with 2.
  rewrite Zmod_odd. by destruct (Z.odd c).
Qed.

Lemma crc_bit_range c : is_u 32 c → is_u 32 (crc_bit c).
Proof.
  intros Hc. rewrite crc_bit_spec. apply lxor_range; [done|..].
  - widths. div_lia.
  - destruct (Z.odd c); by split.
Qed.

(** Bit 31 of the result is the bit shifted out, because the polynomial has
    that bit: nothing is lost. *)
Lemma crc_bit_top c : is_u 32 c → Z.testbit (crc_bit c) 31 = Z.odd c.
Proof.
  intros Hc. rewrite crc_bit_spec, Z.lxor_spec.
  assert (Z.testbit (c / 2) 31 = false) as ->.
  { rewrite <-(Z.mod_small (c / 2) (2 ^ 31)) by (widths; div_lia).
    by rewrite Z.mod_pow2_bits_high. }
  by destruct (Z.odd c).
Qed.

Lemma crc_bit_inj c d : is_u 32 c → is_u 32 d → crc_bit c = crc_bit d → c = d.
Proof.
  intros Hc Hd Heq. pose proof (crc_bit_top c Hc) as Ho.
  rewrite Heq, (crc_bit_top d Hd) in Ho.
  rewrite !crc_bit_spec, Ho, !(Z.lxor_comm (_ / 2)) in Heq. apply lxor_cancel_l in Heq.
  rewrite (Z.div_mod c 2), (Z.div_mod d 2), !Zmod_odd, Ho, Heq by done. done.
Qed.

Lemma crc_bit_lxor c d : crc_bit (Z.lxor c d) = Z.lxor (crc_bit c) (crc_bit d).
Proof.
  rewrite !crc_bit_spec.
  assert (Z.lxor c d / 2 = Z.lxor (c / 2) (d / 2)) as ->.
  { change 2 with (2 ^ 1). rewrite <-!Z.shiftr_div_pow2 by done. apply Z.shiftr_lxor. }
  rewrite <-!Z.bit0_odd, Z.lxor_spec.
  destruct (Z.testbit c 0), (Z.testbit d 0); simpl;
    apply Z.bits_inj'; intros i _; rewrite ?Z.lxor_spec, ?Z.bits_0;
    repeat match goal with |- context [Z.testbit ?a i] => destruct (Z.testbit a i) end; done.
Qed.

#[local] Opaque crc_bit.

(** ** Several bits *)
Lemma iter_range n c : is_u 32 c → is_u 32 (Nat.iter n crc_bit c).
Proof. intros Hc. induction n; simpl; auto using crc_bit_range. Qed.
Lemma iter_inj n c d :
  is_u 32 c → is_u 32 d → Nat.iter n crc_bit c = Nat.iter n crc_bit d → c = d.
Proof.
  intros Hc Hd. induction n as [|n IH]; simpl; [done|].
  intros ?%crc_bit_inj; auto using iter_range.
Qed.
Lemma iter_lxor n c d :
  Nat.iter n crc_bit (Z.lxor c d) = Z.lxor (Nat.iter n crc_bit c) (Nat.iter n crc_bit d).
Proof. induction n as [|n IH]; simpl; [done|]. by rewrite IH, crc_bit_lxor. Qed.

(** Low zero bits are just shifted out. *)
Lemma iter_shiftl n v : Nat.iter n crc_bit (v * 2 ^ Z.of_nat n) = v.
Proof.
  revert v; induction n as [|n IH]; intros v; [simpl; lia|].
  rewrite Nat.iter_succ_r. rewrite <-(IH v) at 2. f_equal. rewrite crc_bit_spec.
  assert (v * 2 ^ Z.of_nat (S n) = (v * 2 ^ Z.of_nat n) * 2) as ->.
  { rewrite Nat2Z.inj_succ, Z.pow_succ_r by lia. ring. }
  rewrite Z.div_mul, Z.odd_mul, andb_false_r, Z.lxor_0_r by done. done.
Qed.

(** One byte: the state and the byte can both be recovered. *)
Lemma byte_u32 b : is_u 8 b → is_u 32 b.
Proof. by apply is_u_mono. Qed.
Lemma crc_byte_range c b : is_u 32 c → is_u 8 b → is_u 32 (crc_byte c b).
Proof. intros Hc Hb%byte_u32. by apply iter_range, lxor_range. Qed.
Lemma crc_byte_inj c d b :
  is_u 32 c → is_u 32 d → is_u 8 b → crc_byte c b = crc_byte d b → c = d.
Proof.
  intros Hc Hd Hb%byte_u32 Heq. unfold crc_byte in Heq.
  apply iter_inj in Heq; [|by apply lxor_range..].
  rewrite !(Z.lxor_comm _ b) in Heq. by apply lxor_cancel_l in Heq.
Qed.
Lemma crc_byte_shift c b v :
  is_u 8 b → Z.lxor (crc_byte c b) v = Nat.iter 8 crc_bit (Z.lxor c (b + 256 * v)).
Proof.
  intros Hb. unfold crc_byte. rewrite <-(iter_shiftl 8 v) at 1. rewrite <-iter_lxor. f_equal.
  rewrite Z.lxor_assoc. f_equal. change (2 ^ Z.of_nat 8) with (2 ^ 8).
  rewrite <-Z.add_nocarry_lxor; [change (2 ^ 8) with 256; ring|].
  apply Z.bits_inj'. intros i Hi. rewrite Z.land_spec, Z.bits_0.
  destruct (Z.lt_ge_cases i 8).
  - by rewrite (Z.mul_pow2_bits_low _ 8), andb_false_r.
  - rewrite <-(Z.mod_small b (2 ^ 8)) by apply Hb. by rewrite Z.mod_pow2_bits_high.
Qed.
#[local] Opaque crc_byte.

(** Stated for any step, so that the conversion never compares checksums. *)
Lemma fold_left_step {A B} (f : A → B → A) b l a :
  fold_left f (b :: l) a = fold_left f l (f a b).
Proof. done. Qed.

Lemma fold_range input c :
  is_bytes input → is_u 32 c → is_u 32 (fold_left crc_byte input c).
Proof.
  intros Hb. revert c; induction Hb as [|b input Hb _ IH]; intros c Hc; [done|].
  rewrite fold_left_step. by apply IH, crc_byte_range.
Qed.

(** Folding [n] bytes is [8 * n] bit steps of the state with the bytes'
    word added in. *)
Lemma fold_word w c :
  is_bytes w →
  fold_left crc_byte w c = Nat.iter (8 * length w) crc_bit (Z.lxor c (le_value w)).
Proof.
  intros Hw. revert c; induction Hw as [|b w Hb Hw IH]; intros c.
  { simpl. by rewrite Z.lxor_0_r. }
  rewrite fold_left_step, IH. cbn [length le_value].
  rewrite crc_byte_shift, <-Nat.iter_add by done.
  f_equal. lia.
Qed.

Lemma fold_inj input c d :
  is_bytes input → is_u 32 c → is_u 32 d →
  fold_left crc_byte input c = fold_left crc_byte input d → c = d.
Proof.
  intros Hb. revert c d; induction Hb as [|b input Hb _ IH]; intros c d Hc Hd Heq; [done|].
  rewrite !fold_left_step in Heq.
  apply IH in Heq; [|by apply crc_byte_range..]. by apply crc_byte_inj in Heq.
Qed.

Lemma crc32c_range input : is_u 32 (crc32c input).
Proof. by apply wrap_range. Qed.

Lemma lnot_inj c d : is_u 32 c → is_u 32 d → u32 (Z.lnot c) = u32 (Z.lnot d) → c = d.
Proof.
  intros Hc Hd. unfold Z.lnot. replace (Z.pred (- c)) with (- c - 1) by lia.
  replace (Z.pred (- d)) with (- d - 1) by lia. unfold wrap. intros Heq.
  assert ((2 ^ 32 - 1 - c) mod 2 ^ 32 = (2 ^ 32 - 1 - d) mod 2 ^ 32) as Heq'.
  { replace (2 ^ 32 - 1 - c) with (- c - 1 + 1 * 2 ^ 32) by lia.
    replace (2 ^ 32 - 1 - d) with (- d - 1 + 1 * 2 ^ 32) by lia.
    by rewrite !Z.mod_add. }
  rewrite !Z.mod_small in Heq' by word_lia. lia.
Qed.

(** Changing up to four consecutive bytes of a message in any way changes
    its checksum. *)
Lemma crc32c_burst pre w w' post :
  is_bytes pre → is_bytes w → is_bytes w' → is_bytes post →
  length w = length w' → (length w ≤ 4)%nat → w ≠ w' →
  crc32c (pre ++ w ++ post) ≠ crc32c (pre ++ w' ++ post).
Proof.
  intros Hpre Hw Hw' Hpost Hlen H4 Hne Heq. apply Hne. unfold crc32c in Heq.
  assert (is_u 32 4294967295) by by split.
  rewrite !fold_left_app in Heq.
  apply lnot_inj in Heq; [|by auto using fold_range..].
  apply fold_inj in Heq; [|by auto using fold_range..].
  rewrite (fold_word w), (fold_word w'), Hlen in Heq by done.
  assert (∀ v, is_bytes v → (length v ≤ 4)%nat → is_u 32 (le_value v)) as Hword.
  { intros v Hv Hl. pose proof (le_value_range v Hv) as [??]. split; [done|].
    eapply Z.lt_le_trans; [done|]. apply Z.pow_le_mono_r; lia. }
  apply iter_inj in Heq; [|apply lxor_range; auto using fold_range with lia..].
  apply lxor_cancel_l in Heq. by apply le_value_inj.
Qed.

(** The complement of a word is its exclusive or with ones. *)
Lemma lxor_complement c : is_u 32 c → Z.lxor c (u32 (Z.lnot c)) = 4294967295.
Proof.
  intros Hc. unfold wrap. rewrite <-Z.land_ones by done. change 4294967295 with (Z.ones 32).
  apply Z.bits_inj'. intros i Hi.
  rewrite Z.lxor_spec, Z.land_spec, Z.lnot_spec, Z.testbit_ones_nonneg by done.
  destruct (Z.ltb_spec i 32); [by destruct (Z.testbit c i)|].
  rewrite <-(Z.mod_small c (2 ^ 32)) by apply Hc.
  by rewrite Z.mod_pow2_bits_high by lia.
Qed.

(** A message followed by its own checksum has one and the same checksum,
    whatever the message. *)
Definition crc32c_residue : Z := u32 (Z.lnot (Nat.iter 32 crc_bit 4294967295)).
Lemma crc32c_appended input :
  is_bytes input → crc32c (input ++ le_bytes 4 (crc32c input)) = crc32c_residue.
Proof.
  intros Hb. assert (is_u 32 4294967295) by by split.
  unfold crc32c_residue. unfold crc32c at 1. rewrite fold_left_app.
  rewrite fold_word by apply le_bytes_bytes.
  rewrite length_le_bytes, le_value_bytes by apply crc32c_range.
  unfold crc32c. by rewrite lxor_complement by by apply fold_range.
Qed.

#[local] Transparent crc_bit crc_byte.
Example crc32c_check :
  crc32c [49; 50; 51; 52; 53; 54; 55; 56; 57] = 3808858755.
Proof. reflexivity. Qed.
