(* ===== verification/Cobs.v ===== *)
(** * Cobs: consistent overhead byte stuffing

    Models [frame::max_encoded_size], [frame::cobs_encode] and
    [frame::cobs_decode] of [include/solar/remote/frame.hpp], the branches of
    the host build (the Zephyr build calls Zephyr's library, which Frame
    takes as a parameter).  The loops are written with the code's read and
    write indices over the output span; a byte-wise reference encoding is
    given and the loops are shown to compute it. *)
From stdpp Require Import prelude.
From S2P Require Import Prelude Status Wire.

Open Scope Z_scope.
Open Scope solar_scope.

Definition max_encoded_size (decoded_size : nat) : nat :=
  (decoded_size + decoded_size `div` 254 + 2)%nat.

Definition encode_no_space : Remote.Error :=
  Remote.error SNoSpace Remote.NoSpace Remote.FrameEncode.
Definition decode_no_space : Remote.Error :=
  Remote.error SNoSpace Remote.NoSpace Remote.FrameDecode.
Definition decode_malformed : Remote.Error :=
  Remote.error SProtocolError Remote.Malformed Remote.FrameDecode.

(** ** The encoder *)
Record encoder : Type := mkEncoder {
  e_write : nat; e_code_index : nat; e_code : Z; e_output : list Z }.

(** The [while (read < input.size())] loop; the list is [input] from [read]. *)
Fixpoint encode_loop (input : list Z) (s : encoder) : option encoder :=
  match input with
  | [] => Some s
  | b :: rest =>
    if b =? 0 then
      output ← wr (e_output s) (e_code_index s) (e_code s);
      encode_loop rest (mkEncoder (S (e_write s)) (e_write s) 1 output)
    else
      output ← wr (e_output s) (e_write s) b;
      let write := S (e_write s) in
      let code := u8 (e_code s + 1) in
      if code =? 255 then
        output ← wr output (e_code_index s) code;
        encode_loop rest (mkEncoder (S write) write 1 output)
      else
        encode_loop rest (mkEncoder write (e_code_index s) code output)
  end.

(** The number of bytes written and the output span. *)
Definition cobs_encode (input output : list Z) : Checked (nat * list Z) :=
  if (length output <? max_encoded_size (length input))%nat then fail encode_no_space else
  access
   (s ← encode_loop input (mkEncoder 1 0 1 output);
    output ← wr (e_output s) (e_code_index s) (e_code s);
    output ← wr output (e_write s) 0;
    Some (S (e_write s), output)).

(** ** The decoder *)

(** [for (index = 1; index < code; ++index) output[write++] = input[read++]] *)
Fixpoint copy_loop (n : nat) (input : list Z) (read write : nat) (output : list Z) :
    option (nat * nat * list Z) :=
  match n with
  | O => Some (read, write, output)
  | S n =>
    b ← input !! read;
    output ← wr output write b;
    copy_loop n input (S read) (S write) output
  end.

Fixpoint decode_loop (fuel : nat) (input : list Z) (read write : nat) (output : list Z) :
    Checked (nat * list Z) :=
  if (read <? length input)%nat then
    match fuel with
    | O => None
    | S fuel =>
      code ⇐ access (input !! read);
      let read := S read in
      if (code =? 0) || (length input <? read + Z.to_nat (code - 1))%nat
      then fail decode_malformed
      else if (length output <? write + Z.to_nat code - 1)%nat then fail decode_no_space
      else
        '(read, write, output) ⇐
          access (copy_loop (Z.to_nat (code - 1)) input read write output);
        if negb (code =? 255) && (read <? length input)%nat then
          if (write =? length output)%nat then fail decode_no_space else
          output ⇐ access (wr output write 0);
          decode_loop fuel input read (S write) output
        else decode_loop fuel input read write output
    end
  else succeed (write, output).

(** One trailing delimiter is ignored.  Each turn of the loop reads a code
    byte, so [length input] turns are enough. *)
Definition strip_delimiter (input : list Z) : list Z :=
  match last input with
  | Some b => if b =? 0 then take (length input - 1) input else input
  | None => input
  end.

Definition cobs_decode (input output : list Z) : Checked (nat * list Z) :=
  let input := strip_delimiter input in
  decode_loop (length input) input 0 0 output.

(** ** Reference encoding

    [stuff pending data] encodes [pending ++ data], where [pending] holds the
    non-zero bytes of the block being filled. *)
Fixpoint stuff (pending data : list Z) : list Z :=
  match data with
  | [] => Z.of_nat (S (length pending)) :: pending
  | b :: rest =>
    if b =? 0 then Z.of_nat (S (length pending)) :: pending ++ stuff [] rest
    else if (length pending =? 253)%nat then 255 :: pending ++ b :: stuff [] rest
    else stuff (pending ++ [b]) rest
  end.

Definition nonzero_bytes : list Z → Prop := Forall (λ b, is_u 8 b ∧ b ≠ 0).
Definition pending_ok (pending : list Z) : Prop :=
  nonzero_bytes pending ∧ (length pending < 254)%nat.

Lemma pending_nil : pending_ok [].
Proof. split; [constructor|simpl; lia]. Qed.
Lemma pending_snoc pending b :
  pending_ok pending → is_u 8 b → b ≠ 0 → length pending ≠ 253%nat →
  pending_ok (pending ++ [b]).
Proof.
  intros [Hp Hl] Hb Hz Hne. split.
  - apply Forall_app_2; [done|]. by apply Forall_singleton.
  - rewrite length_app. simpl. lia.
Qed.
#[export] Hint Resolve pending_nil pending_snoc : solar.

Lemma stuff_length_gt pending data : (length pending < length (stuff pending data))%nat.
Proof.
  revert pending; induction data as [|b rest IH]; intros pending; simpl; [lia|].
  repeat case_match; simpl; rewrite ?length_app; [lia..|].
  eapply Nat.lt_trans; [|apply IH]. rewrite length_app. simpl. lia.
Qed.

(** The encoding has no zero byte, so the delimiter marks its end. *)
Lemma stuff_nonzero pending data :
  pending_ok pending → is_bytes data → nonzero_bytes (stuff pending data).
Proof.
  intros Hp Hd. revert pending Hp.
  induction Hd as [|b rest Hb _ IH]; intros pending [Hp Hl]; simpl.
  - constructor; [|done]. split; [word_lia|lia].
  - destruct (Z.eqb_spec b 0); [|case_match eqn:Hn].
    + constructor; [split; [word_lia|lia]|]. apply Forall_app_2; [done|]. apply IH, pending_nil.
    + constructor; [done|]. apply Forall_app_2; [done|]. constructor; [done|].
      apply IH, pending_nil.
    + apply Nat.eqb_neq in Hn. apply IH. by apply pending_snoc.
Qed.

Lemma stuff_length pending data :
  (length (stuff pending data)
   ≤ length pending + length data + (length pending + length data) `div` 254 + 1)%nat.
Proof.
  revert pending; induction data as [|b rest IH]; intros pending; cbn [stuff length].
  { rewrite Nat.add_0_r. lia. }
  pose proof (IH []) as IH0. cbn [length] in IH0. rewrite !Nat.add_0_l in IH0.
  destruct (b =? 0); [|case_match eqn:Hn].
  - cbn [length]. rewrite length_app.
    assert (length rest `div` 254 ≤ (length pending + S (length rest)) `div` 254)%nat
      by (apply Nat.Div0.div_le_mono; lia). lia.
  - apply Nat.eqb_eq in Hn. cbn [length]. rewrite length_app. cbn [length]. rewrite Hn.
    replace (253 + S (length rest))%nat with (length rest + 1 * 254)%nat by lia.
    rewrite Nat.div_add by lia. lia.
  - specialize (IH (pending ++ [b])). rewrite length_app in IH. cbn [length] in IH.
    replace (length pending + 1 + length rest)%nat with (length pending + S (length rest))%nat
      in IH by lia. lia.
Qed.

(** ** The encoder computes the reference encoding *)
Definition finish (s : encoder) : option (nat * list Z) :=
  output ← wr (e_output s) (e_code_index s) (e_code s);
  output ← wr output (e_write s) 0;
  Some (S (e_write s), output).

(** Writing just behind a prefix, whose length the code keeps as an index. *)
Lemma wr_at {A} (l1 l2 : list A) x v i :
  i = length l1 → wr (l1 ++ x :: l2) i v = Some (l1 ++ v :: l2).
Proof. intros ->. apply wr_app. Qed.

Ltac list_eq := rewrite <-?app_assoc; simpl; rewrite <-?app_assoc; simpl; done.
Ltac len := rewrite ?length_app in *; simpl in *; rewrite ?length_app in *; simpl in *; lia.

(** The state in the middle of the work: [pre] is finished, [slot] waits for
    the code of the block whose bytes so far are [pending]. *)
Definition at_block (pre : list Z) (slot : Z) (pending tail : list Z) : encoder :=
  mkEncoder (length pre + 1 + length pending) (length pre) (Z.of_nat (S (length pending)))
    (pre ++ slot :: pending ++ tail).

Lemma encode_loop_zero pre slot pending t tail rest :
  encode_loop (0 :: rest) (at_block pre slot pending (t :: tail))
  = encode_loop rest
      (at_block (pre ++ Z.of_nat (S (length pending)) :: pending) t [] tail).
Proof.
  unfold at_block. cbn [encode_loop e_write e_code_index e_code e_output Z.eqb].
  rewrite wr_app. simpl. f_equal. f_equal; [len|len|list_eq].
Qed.

Lemma encode_loop_full pre slot pending b u t tail rest :
  b ≠ 0 → length pending = 253%nat →
  encode_loop (b :: rest) (at_block pre slot pending (u :: t :: tail))
  = encode_loop rest (at_block (pre ++ 255 :: pending ++ [b]) t [] tail).
Proof.
  intros Hb Hlen. unfold at_block. cbn [encode_loop e_write e_code_index e_code e_output].
  rewrite (proj2 (Z.eqb_neq _ _)) by done. rewrite Hlen.
  replace (pre ++ slot :: pending ++ u :: t :: tail)
    with ((pre ++ slot :: pending) ++ u :: t :: tail) by list_eq.
  rewrite wr_at by len.
  change (u8 (Z.of_nat (S 253) + 1)) with 255. cbn [mbind option_bind Z.eqb Pos.eqb].
  replace ((pre ++ slot :: pending) ++ b :: t :: tail)
    with (pre ++ slot :: pending ++ b :: t :: tail) by list_eq.
  rewrite wr_app. simpl. f_equal. f_equal; [len|len|list_eq].
Qed.

Lemma encode_loop_byte pre slot pending b t tail rest :
  b ≠ 0 → (length pending < 253)%nat →
  encode_loop (b :: rest) (at_block pre slot pending (t :: tail))
  = encode_loop rest (at_block pre slot (pending ++ [b]) tail).
Proof.
  intros Hb Hlen. unfold at_block. cbn [encode_loop e_write e_code_index e_code e_output].
  rewrite (proj2 (Z.eqb_neq _ _)) by done.
  replace (pre ++ slot :: pending ++ t :: tail)
    with ((pre ++ slot :: pending) ++ t :: tail) by list_eq.
  rewrite wr_at by len. cbn [mbind option_bind].
  rewrite wrap_small by word_lia. rewrite (proj2 (Z.eqb_neq _ _)) by lia.
  f_equal. f_equal; [len|len|list_eq].
Qed.

Lemma encode_loop_spec data pending pre slot tail :
  is_bytes data → pending_ok pending →
  (length (stuff pending data) ≤ length pending + length tail)%nat →
  ∃ tail',
    (length (stuff pending data) + length tail' = length pending + length tail)%nat ∧
    (s ← encode_loop data (at_block pre slot pending tail); finish s)
    = Some ((length pre + length (stuff pending data) + 1)%nat,
            pre ++ stuff pending data ++ 0 :: tail').
Proof.
  intros Hd. revert pending pre slot tail.
  induction Hd as [|b rest Hb _ IH]; intros pending pre slot tail Hp Hcap.
  - destruct tail as [|t tail]; [len|]. exists tail. split; [len|].
    unfold finish, at_block. simpl. rewrite wr_app. simpl.
    replace (pre ++ Z.of_nat (S (length pending)) :: pending ++ t :: tail)
      with ((pre ++ Z.of_nat (S (length pending)) :: pending) ++ t :: tail) by list_eq.
    rewrite wr_at by len. simpl. f_equal. f_equal; [len|list_eq].
  - cbn [stuff] in *. pose proof (stuff_length_gt [] rest) as Hne.
    destruct (Z.eqb_spec b 0) as [->|Hb0]; [|case_match eqn:Hn].
    + destruct tail as [|t tail]; [len|]. rewrite encode_loop_zero.
      destruct (IH [] (pre ++ Z.of_nat (S (length pending)) :: pending) t tail)
        as (tail' & Hlen & ->); [apply pending_nil|len|].
      exists tail'. split; [len|]. f_equal. f_equal; [len|list_eq].
    + apply Nat.eqb_eq in Hn. destruct tail as [|u [|t tail]]; [len..|].
      rewrite encode_loop_full by done.
      destruct (IH [] (pre ++ 255 :: pending ++ [b]) t tail)
        as (tail' & Hlen & ->); [apply pending_nil|len|].
      exists tail'. split; [len|]. f_equal. f_equal; [len|list_eq].
    + apply Nat.eqb_neq in Hn. destruct Hp as [Hp Hl].
      pose proof (stuff_length_gt (pending ++ [b]) rest) as Hne'.
      destruct tail as [|t tail]; [len|]. rewrite encode_loop_byte by (done || lia).
      destruct (IH (pending ++ [b]) pre slot tail)
        as (tail' & Hlen & ->); [by apply pending_snoc|len|].
      exists tail'. split; [len|done].
Qed.

(** With the room the code asks for, the encoder writes the reference
    encoding and the delimiter, and nothing outside the span. *)
Lemma cobs_encode_spec input output :
  is_bytes input → (max_encoded_size (length input) ≤ length output)%nat →
  ∃ tail,
    cobs_encode input output
    = succeed (S (length (stuff [] input)), stuff [] input ++ 0 :: tail) ∧
    (S (length (stuff [] input)) + length tail = length output)%nat.
Proof.
  intros Hb Hcap. unfold cobs_encode. rewrite (proj2 (Nat.ltb_ge _ _)) by done.
  pose proof (stuff_length [] input) as Hlen. cbn [length] in Hlen.
  rewrite Nat.add_0_l in Hlen. unfold max_encoded_size in Hcap.
  destruct output as [|slot tail]; [simpl in Hcap; lia|].
  destruct (encode_loop_spec input [] [] slot tail) as (tail' & Hl & Heq);
    [done|apply pending_nil|simpl in *; lia|].
  exists tail'. split; [|len].
  change (mkEncoder 1 0 1 (slot :: tail)) with (at_block [] slot [] tail).
  unfold finish in Heq. rewrite Heq. unfold access, succeed. simpl. do 3 f_equal. lia.
Qed.

(** ** The decoder inverts the reference encoding *)
(** The encoder keeps the length of its output span. *)
Lemma encode_loop_keeps input s s' :
  encode_loop input s = Some s' → length (e_output s') = length (e_output s).
Proof.
  revert s. induction input as [|b rest IH]; intros s Hs; simpl in Hs; [by simplify_eq|].
  repeat first [ case_match | apply bind_Some in Hs as (? & ?%wr_length & Hs) ]; apply IH in Hs; simpl in Hs; congruence.
Qed.
Lemma cobs_encode_keeps input output n output' :
  cobs_encode input output = succeed (n, output') → length output' = length output.
Proof.
  unfold cobs_encode, access, succeed. case_match; [done|]. intros Henc.
  destruct (encode_loop input _) as [s|] eqn:Hs; [|done]. cbn [mbind option_bind] in Henc.
  apply encode_loop_keeps in Hs. simpl in Hs.
  destruct (wr (e_output s) _ _) as [o1|] eqn:H1; [|done]. cbn [mbind option_bind] in Henc.
  destruct (wr o1 _ _) as [o2|] eqn:H2; [|done]. cbn in Henc. injection Henc as <- <-.
  apply wr_length in H1, H2. congruence.
Qed.

Lemma copy_loop_spec block pre post out old room r w :
  r = length pre → w = length out → length old = length block →
  copy_loop (length block) (pre ++ block ++ post) r w (out ++ old ++ room)
  = Some ((r + length block)%nat, (w + length block)%nat, out ++ block ++ room).
Proof.
  revert pre out old r w.
  induction block as [|b block IH]; intros pre out [|o old] r w -> -> Hl; simplify_eq/=.
  - by rewrite !Nat.add_0_r.
  - rewrite lookup_app_mid. simpl. rewrite wr_app. simpl.
    specialize (IH (pre ++ [b]) (out ++ [b]) old (S (length pre)) (S (length out))).
    rewrite <-!app_assoc, !length_app in IH. simpl in IH.
    rewrite IH by lia. do 3 f_equal; lia.
Qed.

(** One turn of the loop on a whole block: the bytes are copied, and a block
    shorter than 254 that is not the last stands for a zero. *)
Lemma decode_loop_block fuel pre block post out old room r w :
  r = length pre → w = length out → length old = length block → (length block ≤ 254)%nat →
  let code := Z.of_nat (S (length block)) in
  decode_loop (S fuel) (pre ++ code :: block ++ post) r w (out ++ old ++ room)
  = let r' := (S r + length block)%nat in
    let w' := (w + length block)%nat in
    if negb (code =? 255) && negb (bool_decide (post = [])) then
      match room with
      | [] => fail decode_no_space
      | _ :: room =>
        decode_loop fuel (pre ++ code :: block ++ post) r' (S w') (out ++ block ++ 0 :: room)
      end
    else decode_loop fuel (pre ++ code :: block ++ post) r' w' (out ++ block ++ room).
Proof.
  intros -> -> Hold Hl. cbv zeta. remember (Z.of_nat (S (length block))) as code eqn:Hcode.
  assert (Hn : Z.to_nat (code - 1) = length block) by lia.
  cbn [decode_loop]. rewrite (proj2 (Nat.ltb_lt _ _)) by len.
  rewrite lookup_app_mid. unfold access at 1. cbn [fmap option_fmap option_map cbind].
  rewrite Hn, (proj2 (Nat.ltb_ge _ _)) by len.
  rewrite (proj2 (Z.eqb_neq _ _)) by lia. cbn [orb].
  rewrite (proj2 (Nat.ltb_ge _ _)) by len.
  pose proof (copy_loop_spec block (pre ++ [code]) post out old room
    (S (length pre)) (length out) ltac:(len) eq_refl Hold) as Hc.
  rewrite <-app_assoc in Hc. cbn [app] in Hc.
  rewrite Hc. unfold access at 1. cbn [fmap option_fmap option_map cbind].
  destruct (code =? 255); cbn [negb andb]; [done|].
  destruct post as [|p post].
  - rewrite (proj2 (Nat.ltb_ge _ _)) by len. done.
  - rewrite (proj2 (Nat.ltb_lt _ _)) by len. rewrite bool_decide_false by done. cbn [negb].
    destruct room as [|o' room].
    + rewrite (proj2 (Nat.eqb_eq _ _)) by len. done.
    + rewrite (proj2 (Nat.eqb_neq _ _)) by len.
      rewrite app_assoc, wr_at by len. unfold access. cbn [fmap option_fmap option_map cbind].
      by rewrite <-app_assoc.
Qed.

Lemma stuff_not_nil pending data : stuff pending data ≠ [].
Proof.
  intros H. pose proof (stuff_length_gt pending data) as Hl. rewrite H in Hl. simpl in Hl. lia.
Qed.

(** The loop has used up the input. *)
Lemma decode_loop_end fuel input r w output :
  (length input ≤ r)%nat → decode_loop fuel input r w output = succeed (w, output).
Proof. intros. destruct fuel; cbn [decode_loop]; by rewrite (proj2 (Nat.ltb_ge _ _)). Qed.

(** [old ++ room] is the part of the output span the data overwrites and the
    part behind it. *)
Lemma decode_loop_stuff data pending fuel pre out old room r w :
  is_bytes data → pending_ok pending →
  r = length pre → w = length out →
  length old = (length pending + length data)%nat →
  (length (stuff pending data) ≤ fuel)%nat →
  decode_loop fuel (pre ++ stuff pending data) r w (out ++ old ++ room)
  = succeed ((w + length old)%nat, out ++ pending ++ data ++ room).
Proof.
  intros Hd. revert pending fuel pre out old r w.
  induction Hd as [|b rest Hb _ IH]; intros pending fuel pre out old r w Hp -> -> Hold Hfuel;
    pose proof (stuff_length_gt pending []) as Hpos; cbn [stuff] in *.
  - destruct fuel as [|fuel]; [len|].
    pose proof (decode_loop_block fuel pre pending [] out old room _ _ eq_refl eq_refl) as Hblk.
    rewrite app_nil_r in Hblk. cbv zeta in Hblk. rewrite Hblk by (destruct Hp; len).
    rewrite bool_decide_true, andb_false_r by done.
    rewrite decode_loop_end by len. do 3 f_equal; len.
  - destruct (Z.eqb_spec b 0) as [->|Hb0]; [|case_match eqn:Hn].
    + destruct fuel as [|fuel]; [len|].
      destruct (split_length (length pending) (S (length rest)) old)
        as (o1 & [|o old'] & -> & Ho1 & Ho2); [len..|]. rewrite <-app_assoc.
      pose proof (decode_loop_block fuel pre pending (stuff [] rest) out o1
        ((o :: old') ++ room) _ _ eq_refl eq_refl) as Hblk.
      cbv zeta in Hblk. rewrite Hblk by (destruct Hp; len).
      rewrite (proj2 (Z.eqb_neq _ _)) by (destruct Hp; lia).
      rewrite bool_decide_false by apply stuff_not_nil. cbn [negb andb].
      cbn [app].
      specialize (IH [] fuel (pre ++ Z.of_nat (S (length pending)) :: pending)
        (out ++ pending ++ [0]) old' (S (length pre) + length pending)%nat
        (S (length out + length pending)) pending_nil).
      repeat (rewrite <-app_assoc in IH; cbn [app] in IH).
      rewrite IH by len. f_equal. f_equal. len.
    + apply Nat.eqb_eq in Hn. destruct fuel as [|fuel]; [len|].
      destruct (split_length 254 (length rest) old) as (o1 & o2 & -> & Ho1 & Ho2); [len|].
      rewrite <-app_assoc.
      pose proof (decode_loop_block fuel pre (pending ++ [b]) (stuff [] rest) out o1
        (o2 ++ room) _ _ eq_refl eq_refl) as Hblk.
      cbv zeta in Hblk. rewrite length_app, Hn in Hblk.
      change (Z.of_nat (S (253 + length [b]))) with 255 in Hblk.
      rewrite <-app_assoc in Hblk. cbn [app] in Hblk.
      rewrite Hblk by len. cbn [Z.eqb Pos.eqb negb andb].
      specialize (IH [] fuel (pre ++ 255 :: pending ++ [b]) (out ++ pending ++ [b])
        o2 (S (length pre) + (253 + length [b]))%nat
        (length out + (253 + length [b]))%nat pending_nil).
      repeat (rewrite <-app_assoc in IH; cbn [app] in IH).
      rewrite <-?app_assoc. cbn [app].
      rewrite IH by len. f_equal. f_equal. len.
    + apply Nat.eqb_neq in Hn.
      rewrite (IH (pending ++ [b]) fuel pre out old) by
        (first [done | apply pending_snoc; done | len]).
      f_equal. f_equal. by rewrite <-app_assoc.
Qed.

Lemma last_snoc_nonzero l : nonzero_bytes l → strip_delimiter l = l.
Proof.
  intros Hl. unfold strip_delimiter. destruct (last l) as [b|] eqn:Hlast; [|done].
  apply last_Some in Hlast as [l' ->]. apply Forall_app in Hl as [_ Hl].
  apply Forall_singleton in Hl as [_ Hb]. by rewrite (proj2 (Z.eqb_neq _ _)).
Qed.

Lemma strip_delimiter_snoc l : strip_delimiter (l ++ [0]) = l.
Proof.
  unfold strip_delimiter. rewrite last_snoc. cbn [Z.eqb].
  rewrite take_app_exact; [done|len].
Qed.

Lemma cobs_decode_stripped input data output :
  strip_delimiter input = stuff [] data → is_bytes data →
  (length data ≤ length output)%nat →
  cobs_decode input output
  = succeed (length data, data ++ drop (length data) output).
Proof.
  intros Hs Hd Hl. unfold cobs_decode. rewrite Hs.
  pose proof (decode_loop_stuff data [] (length (stuff [] data)) [] []
    (take (length data) output) (drop (length data) output) 0 0 Hd pending_nil eq_refl eq_refl)
    as H.
  cbn [app] in H. rewrite take_drop, length_take in H. rewrite H by (simpl length; lia).
  do 3 f_equal. lia.
Qed.

(** ** Every input is decoded or rejected *)
Lemma copy_loop_total n input r w output :
  (r + n ≤ length input)%nat → (w + n ≤ length output)%nat →
  ∃ output', copy_loop n input r w output = Some ((r + n)%nat, (w + n)%nat, output')
             ∧ length output' = length output.
Proof.
  revert r w output. induction n as [|n IH]; intros r w output Hr Hw; cbn [copy_loop].
  { exists output. rewrite !Nat.add_0_r. done. }
  destruct (lookup_lt_is_Some_2 input r) as [b ->]; [lia|]. cbn [mbind option_bind].
  rewrite wr_insert by lia. cbn [mbind option_bind].
  destruct (IH (S r) (S w) (<[w := b]> output)) as (o & -> & Ho);
    rewrite ?length_insert in *; [lia..|].
  exists o. split; [|done]. do 3 f_equal; lia.
Qed.

(** The outcomes a decoder may have with [room] bytes of output. *)
Definition decode_outcome (room : nat) (res : result Remote.Error (nat * list Z)) : Prop :=
  match res with
  | Ok (size, output) => (size ≤ room)%nat ∧ length output = room
  | Err e => e = decode_malformed ∨ e = decode_no_space
  end.

Lemma decode_loop_total fuel input r w output :
  (r ≤ length input)%nat → (length input - r ≤ fuel)%nat → (w ≤ length output)%nat →
  ∃ res, decode_loop fuel input r w output = Some res ∧ decode_outcome (length output) res.
Proof.
  revert r w output. induction fuel as [|fuel IH]; intros r w output Hr Hf Hw.
  { rewrite decode_loop_end by lia. eexists. split; [done|]. simpl. lia. }
  cbn [decode_loop]. destruct (Nat.ltb_spec r (length input)) as [Hlt|Hge]; cycle 1.
  { eexists. split; [done|]. simpl. lia. }
  destruct (lookup_lt_is_Some_2 input r) as [code ->]; [lia|].
  unfold access at 1. cbn [fmap option_fmap option_map cbind].
  destruct (Z.eqb_spec code 0); cbn [orb]; [eexists; split; [done|]; simpl; auto|].
  destruct (Nat.ltb_spec (length input) (S r + Z.to_nat (code - 1)));
    [eexists; split; [done|]; simpl; auto|].
  destruct (Nat.ltb_spec (length output) (w + Z.to_nat code - 1));
    [eexists; split; [done|]; simpl; auto|].
  destruct (copy_loop_total (Z.to_nat (code - 1)) input (S r) w output) as (o & -> & Ho);
    [lia..|].
  unfold access at 1. cbn [fmap option_fmap option_map cbind]. rewrite <-Ho.
  match goal with |- context [if ?b then _ else _] => destruct b end; [|apply IH; lia].
  destruct (Nat.eqb_spec (w + Z.to_nat (code - 1)) (length o));
    [eexists; split; [done|]; simpl; auto|].
  rewrite wr_insert by lia. unfold access. cbn [fmap option_fmap option_map cbind].
  match goal with |- context [decode_loop _ _ _ _ ?o'] =>
    replace (length o) with (length o') by apply length_insert end.
  apply IH; rewrite ?length_insert; lia.
Qed.

Lemma strip_delimiter_length input : (length (strip_delimiter input) ≤ length input)%nat.
Proof. unfold strip_delimiter. repeat case_match; rewrite ?length_take; lia. Qed.

Lemma cobs_decode_total input output :
  ∃ res, cobs_decode input output = Some res ∧ decode_outcome (length output) res.
Proof. unfold cobs_decode. apply decode_loop_total; lia. Qed.

(** ** The result does not depend on the old contents of the output span *)
Definition agree (w : nat) (o o' : list Z) : Prop :=
  length o = length o' ∧ take w o = take w o'.

Lemma agree_insert w o o' b :
  agree w o o' → agree (S w) (<[w := b]> o) (<[w := b]> o').
Proof.
  intros [Hl Ht]. split; [by rewrite !length_insert|].
  destruct (decide (w < length o)%nat) as [Hw|Hw].
  - rewrite !(take_S_r _ _ b) by (apply list_lookup_insert_eq; lia).
    by rewrite !take_insert_ge, Ht by lia.
  - rewrite !list_insert_ge by lia. rewrite !take_ge in * by lia. congruence.
Qed.

Lemma copy_loop_agree n input r w o o' :
  agree w o o' →
  match copy_loop n input r w o, copy_loop n input r w o' with
  | Some (r1, w1, o1), Some (r2, w2, o2) => r1 = r2 ∧ w1 = w2 ∧ agree w1 o1 o2
  | None, None => True
  | _, _ => False
  end.
Proof.
  revert r w o o'. induction n as [|n IH]; intros r w o o' Ha; cbn [copy_loop]; [done|].
  destruct (input !! r) as [b|]; [|done]. cbn [mbind option_bind]. pose proof Ha as [Hl _].
  destruct (decide (w < length o)%nat).
  - rewrite !wr_insert by lia. apply IH. by apply agree_insert.
  - by rewrite !(proj2 (wr_none _ _ _)) by lia.
Qed.

Definition same_content (r r' : Checked (nat * list Z)) : Prop :=
  match r, r' with
  | Some (Ok (n, o)), Some (Ok (n', o')) => n = n' ∧ take n o = take n' o'
  | Some (Err e), Some (Err e') => e = e'
  | None, None => True
  | _, _ => False
  end.

Lemma decode_loop_agree fuel input r w o o' :
  agree w o o' → same_content (decode_loop fuel input r w o) (decode_loop fuel input r w o').
Proof.
  revert r w o o'. induction fuel as [|fuel IH]; intros r w o o' Ha; pose proof Ha as [Hl Ht];
    cbn [decode_loop]; (case_match; [|by simpl]); [done|].
  destruct (input !! r) as [code|]; [|done].
  unfold access. cbn [fmap option_fmap option_map cbind]. rewrite <-Hl.
  case_match; [done|]. case_match; [done|].
  pose proof (copy_loop_agree (Z.to_nat (code - 1)) input (S r) w o o' Ha) as Hc.
  destruct (copy_loop _ _ _ _ o) as [[[r1 w1] o1]|], (copy_loop _ _ _ _ o') as [[[r2 w2] o2]|];
    try done.
  destruct Hc as (<- & <- & Ha1). cbn [fmap option_fmap option_map cbind].
  pose proof Ha1 as [Hl1 _]. rewrite <-Hl1.
  case_match; [|by apply IH]. case_match; [done|].
  destruct (decide (w1 < length o1)%nat).
  - rewrite !wr_insert by lia. cbn [fmap option_fmap option_map cbind].
    by apply IH, agree_insert.
  - by rewrite !(proj2 (wr_none _ _ _)) by lia.
Qed.

Lemma cobs_decode_agree input o o' :
  length o = length o' → same_content (cobs_decode input o) (cobs_decode input o').
Proof. intros Hl. by apply decode_loop_agree. Qed.

(** ** Decoded bytes are bytes *)
Lemma wr_bytes output w b output' :
  wr output w b = Some output' → is_u 8 b → is_bytes (take w output) →
  is_bytes (take (S w) output').
Proof.
  intros Hw Hb Ht. assert (w < length output)%nat as Hlt.
  { destruct (decide (w < length output)%nat); [done|].
    rewrite (proj2 (wr_none _ _ _)) in Hw by lia. done. }
  rewrite wr_insert in Hw by done. injection Hw as <-.
  rewrite (take_S_r _ _ b) by by apply list_lookup_insert_eq.
  rewrite take_insert_ge by done. apply Forall_app_2; [done|]. by apply Forall_singleton.
Qed.

Lemma copy_loop_bytes n input r w output r' w' output' :
  is_bytes input → is_bytes (take w output) →
  copy_loop n input r w output = Some (r', w', output') → is_bytes (take w' output').
Proof.
  intros Hi. revert r w output. induction n as [|n IH]; intros r w output Ht; cbn [copy_loop].
  { by intros [= _ <- <-]. }
  intros (b & Hb & (o & Ho & Hc)%bind_Some)%bind_Some. eapply IH, Hc.
  eapply wr_bytes; [done| |done]. exact (Forall_lookup_1 _ _ _ _ Hi Hb).
Qed.

Lemma decode_loop_bytes fuel input r w output n output' :
  is_bytes input → is_bytes (take w output) →
  decode_loop fuel input r w output = succeed (n, output') → is_bytes (take n output').
Proof.
  intros Hi. revert r w output. induction fuel as [|fuel IH]; intros r w output Ht;
    cbn [decode_loop]; (case_match; [|by intros [= <- <-]]); [done|].
  destruct (input !! r) as [code|]; [|done].
  unfold access. cbn [fmap option_fmap option_map cbind].
  case_match; [done|]. case_match; [done|].
  destruct (copy_loop _ _ _ _ _) as [[[r1 w1] o1]|] eqn:Hc; [|done].
  cbn [fmap option_fmap option_map cbind].
  apply copy_loop_bytes in Hc; [|done..].
  case_match; [|by apply IH]. case_match; [done|].
  destruct (wr o1 w1 0) as [o2|] eqn:Hw; [|done].
  cbn [fmap option_fmap option_map cbind]. apply IH. by eapply wr_bytes.
Qed.

Lemma cobs_decode_bytes input output n output' :
  is_bytes input → cobs_decode input output = succeed (n, output') → is_bytes (take n output').
Proof.
  intros Hi. apply decode_loop_bytes; [|by apply Forall_nil].
  unfold strip_delimiter. destruct (last input); [|done]. case_match; [by apply Forall_take|done].
Qed.

(** ** The properties of the codec *)

(** with the output the code asks for, [cobs_encode] writes, inside the
    span, an encoding without a zero byte followed by the zero delimiter, and
    no longer than [max_encoded_size]; [cobs_decode] recovers the input from
    it, with or without the delimiter, into any span that has room. *)
Theorem cobs_roundtrip (input output scratch : list Z)
    (Hbytes : is_bytes input)
    (Hroom : (max_encoded_size (length input) ≤ length output)%nat)
    (Hscratch : (length input ≤ length scratch)%nat) :
  ∃ encoded tail,
    cobs_encode input output
    = succeed (S (length encoded), encoded ++ 0 :: tail) ∧
    length (encoded ++ 0 :: tail) = length output ∧
    (S (length encoded) ≤ max_encoded_size (length input))%nat ∧
    nonzero_bytes encoded ∧
    cobs_decode (encoded ++ [0]) scratch
    = succeed (length input, input ++ drop (length input) scratch) ∧
    cobs_decode encoded scratch
    = succeed (length input, input ++ drop (length input) scratch).
Proof.
  destruct (cobs_encode_spec input output) as (tail & Henc & Hlen); [done..|].
  exists (stuff [] input), tail. split; [done|].
  pose proof (stuff_nonzero [] input pending_nil Hbytes) as Hnz.
  pose proof (stuff_length [] input) as Hmax. cbn [length] in Hmax. rewrite !Nat.add_0_l in Hmax.
  repeat split; [len|unfold max_encoded_size; lia|done|apply cobs_decode_stripped..];
    auto using strip_delimiter_snoc, last_snoc_nonzero.
Qed.

Lemma cobs_roundtrip_witness :
  ∃ encoded tail,
    cobs_encode [17; 0; 0; 34] (replicate 8 170)
    = succeed (S (length encoded), encoded ++ 0 :: tail) ∧
    length (encoded ++ 0 :: tail) = length (replicate 8 170) ∧
    (S (length encoded) ≤ max_encoded_size 4)%nat ∧
    nonzero_bytes encoded ∧
    cobs_decode (encoded ++ [0]) (replicate 5 0) = succeed (4%nat, [17; 0; 0; 34; 0]) ∧
    cobs_decode encoded (replicate 5 0) = succeed (4%nat, [17; 0; 0; 34; 0]).
Proof.
  apply (cobs_roundtrip [17; 0; 0; 34] (replicate 8 170) (replicate 5 0)).
  - repeat constructor; by vm_compute.
  - by apply Nat.leb_le.
  - by apply Nat.leb_le.
Defined.
