(* ===== verification/Frame.v ===== *)
(** * Frame: framed envelopes and the stream decoder

    Models [frame::encode], [frame::decode] and [frame::StreamDecoder] of
    [include/solar/remote/frame.hpp].  The checksum and the byte stuffing are
    selected by the build: Zephyr's [crc32_c] and [cobs_*] on a device, the
    functions of this file elsewhere.  [Platform] is their interface,
    [PlatformLaws] what the framing relies on, and [host_platform] the build
    whose code is in the source, for which the laws are proved.  The
    ceiling [CONFIG_SOLAR_REMOTE_MAX_FRAME_BYTES] is part of the platform. *)
From stdpp Require Import prelude.
From S2P Require Import Prelude Status Wire Protocol ProtocolCodec Crc Cobs.

Open Scope Z_scope.
Open Scope solar_scope.

(** ** The interface of the build *)
Class Platform := {
  integrity_crc32c : list Z → Z;
  platform_cobs_encode : list Z → list Z → Checked (nat * list Z);
  platform_cobs_decode : list Z → list Z → Checked (nat * list Z);
  max_frame_bytes : option nat }.

(** A decoder's result is defined, fits the output span, and does not depend
    on what the span held before. *)
Definition decoder_safe (dec : list Z → list Z → Checked (nat * list Z)) : Prop :=
  ∀ input output,
    match dec input output with
    | None => False
    | Some (Err _) => True
    | Some (Ok (size, output')) => (size ≤ length output)%nat ∧ length output' = length output
    end.

(** Encoded without a zero byte, and decoded back to the same bytes. *)
Definition cobs_codec
    (enc dec : list Z → list Z → Checked (nat * list Z)) : Prop :=
  ∀ input output, is_bytes input →
    (max_encoded_size (length input) ≤ length output)%nat →
    ∃ encoded tail,
      enc input output = succeed (S (length encoded), encoded ++ 0 :: tail) ∧
      nonzero_bytes encoded ∧ encoded ≠ [] ∧
      (S (length encoded) ≤ max_encoded_size (length input))%nat ∧
      ∀ scratch, (length input ≤ length scratch)%nat →
        dec encoded scratch
        = succeed (length input, input ++ drop (length input) scratch).

Class PlatformLaws (P : Platform) : Prop := {
  crc_range : ∀ l, is_u 32 (integrity_crc32c l);
  crc_burst : ∀ pre w w' post,
    is_bytes (pre ++ w ++ post) → is_bytes w' →
    length w = length w' → (length w ≤ 4)%nat → w ≠ w' →
    integrity_crc32c (pre ++ w ++ post) ≠ integrity_crc32c (pre ++ w' ++ post);
  crc_residue : ∃ residue, ∀ l,
    is_bytes l → integrity_crc32c (l ++ le_bytes 4 (integrity_crc32c l)) = residue;
  cobs_laws : cobs_codec platform_cobs_encode platform_cobs_decode;
  cobs_encode_length : ∀ input output n output',
    platform_cobs_encode input output = succeed (n, output') → length output' = length output;
  cobs_decode_safe : decoder_safe platform_cobs_decode;
  cobs_decode_content : ∀ input output output',
    length output = length output' →
    same_content (platform_cobs_decode input output) (platform_cobs_decode input output');
  cobs_decode_is_bytes : ∀ input output n output',
    is_bytes input → platform_cobs_decode input output = succeed (n, output') →
    is_bytes (take n output') }.

(** ** Encoding and decoding a frame *)
Definition UINT16_MAX : Z := 65535.

(** [span.first(count)] *)
Definition first {A} (l : list A) (count : nat) : option (list A) :=
  if (length l <? count)%nat then None else Some (take count l).

(** [Decoded::payload] is the part of the scratch span it denotes. *)
Record Decoded : Set := mkDecoded { envelope : Envelope; payload : list Z }.

Section Frame.
Context {P : Platform}.

Definition above_ceiling (size : nat) : bool :=
  match max_frame_bytes with Some ceiling => (ceiling <? size)%nat | None => false end.

Definition encode (authored : Envelope) (payload scratch output : list Z) :
    Checked (nat * list Z) :=
  if (UINT16_MAX <? Z.of_nat (length payload))
     || (length scratch <? envelope_size + length payload + crc_size)%nat
  then fail (Remote.error SMessageTooLarge Remote.Oversized Remote.FrameEncode) else
  if above_ceiling (envelope_size + length payload + crc_size)
  then fail (Remote.error SMessageTooLarge Remote.Oversized Remote.FrameEncode) else
  let envelope := with_payload_size authored (u16 (Z.of_nat (length payload))) in
  encoded_envelope ⇐ Protocol.encode envelope;
  scratch ⇐ access (copy_to scratch 0 encoded_envelope);
  scratch ⇐ access (copy_to scratch envelope_size payload);
  let content_size := (envelope_size + length payload)%nat in
  content ⇐ access (first scratch content_size);
  scratch ⇐ access (put_u32 scratch content_size (integrity_crc32c content));
  framed ⇐ access (first scratch (content_size + crc_size));
  platform_cobs_encode framed output.

(** The result and the scratch span it refers to. *)
Definition decode (encoded scratch : list Z) : Checked (Decoded * list Z) :=
  '(decoded_size, scratch) ⇐ platform_cobs_decode encoded scratch;
  if (decoded_size <? envelope_size + crc_size)%nat
  then fail (Remote.error SProtocolError Remote.Malformed Remote.FrameDecode) else
  if above_ceiling decoded_size
  then fail (Remote.error SMessageTooLarge Remote.Oversized Remote.FrameDecode) else
  let content_size := (decoded_size - crc_size)%nat in
  framed ⇐ access (first scratch decoded_size);
  expected ⇐ access (get_u32 framed content_size);
  content ⇐ access (first scratch content_size);
  if negb (integrity_crc32c content =? expected)
  then fail (Remote.error SProtocolError Remote.IntegrityFailure Remote.FrameDecode) else
  header ⇐ access (first scratch envelope_size);
  envelope ⇐ Protocol.decode header;
  if negb (payload_size envelope =? Z.of_nat (content_size - envelope_size))
  then fail (Remote.error SProtocolError Remote.Malformed Remote.FrameDecode) else
  payload ⇐ access (first (drop envelope_size scratch) (Z.to_nat (payload_size envelope)));
  succeed (mkDecoded envelope payload, scratch).
End Frame.

#[export] Instance host_platform (ceiling : option nat) : Platform := {
  integrity_crc32c := crc32c;
  platform_cobs_encode := cobs_encode;
  platform_cobs_decode := cobs_decode;
  max_frame_bytes := ceiling }.

(** ** The stream decoder *)
Record FeedRecord : Set := mkFeedRecord { accepted : Z; rejected : Z; overflowed : Z }.
Definition no_record : FeedRecord := mkFeedRecord 0 0 0.

(** [std::size_t] counters. *)
Definition add_record (r s : FeedRecord) : FeedRecord :=
  mkFeedRecord (u64 (accepted r + accepted s)) (u64 (rejected r + rejected s))
    (u64 (overflowed r + overflowed s)).
Definition one_accepted : FeedRecord := mkFeedRecord 1 0 0.
Definition one_rejected : FeedRecord := mkFeedRecord 0 1 0.
Definition one_overflowed : FeedRecord := mkFeedRecord 0 0 1.

Record StreamDecoder : Set := mkStreamDecoder {
  encoded_ : list Z; scratch_ : list Z; encoded_size_ : nat; dropping_ : bool;
  totals_ : FeedRecord }.

(** The decoder, the record of this call and the calls of the handler. *)
Definition feeding : Set := StreamDecoder * FeedRecord * list Decoded.

Definition with_size (d : StreamDecoder) (size : nat) : StreamDecoder :=
  mkStreamDecoder (encoded_ d) (scratch_ d) size (dropping_ d) (totals_ d).
Definition with_dropping (d : StreamDecoder) (dropping : bool) : StreamDecoder :=
  mkStreamDecoder (encoded_ d) (scratch_ d) 0 dropping (totals_ d).
Definition with_scratch (d : StreamDecoder) (scratch : list Z) : StreamDecoder :=
  mkStreamDecoder (encoded_ d) scratch (encoded_size_ d) (dropping_ d) (totals_ d).
Definition with_encoded (d : StreamDecoder) (encoded : list Z) : StreamDecoder :=
  mkStreamDecoder encoded (scratch_ d) (S (encoded_size_ d)) (dropping_ d) (totals_ d).
Definition with_totals (d : StreamDecoder) (totals : FeedRecord) : StreamDecoder :=
  mkStreamDecoder (encoded_ d) (scratch_ d) (encoded_size_ d) (dropping_ d) totals.

Section Stream.
Context {P : Platform}.

(** One turn of the loop of [feed].  What a failed decode leaves in
    [scratch_] is not tracked: no later decode depends on it. *)
Definition feed_byte (st : feeding) (byte : Z) : option feeding :=
  let '(d, record, handled) := st in
  if byte =? 0 then
    if dropping_ d then
      Some (with_dropping d false, add_record record one_overflowed, handled)
    else if (encoded_size_ d =? 0)%nat then Some st
    else
      encoded ← first (encoded_ d) (encoded_size_ d);
      match decode encoded (scratch_ d) with
      | None => None
      | Some (Ok (decoded, scratch)) =>
        Some (with_scratch (with_size d 0) scratch, add_record record one_accepted,
              handled ++ [decoded])
      | Some (Err _) => Some (with_size d 0, add_record record one_rejected, handled)
      end
  else if dropping_ d then Some st
  else if (encoded_size_ d =? length (encoded_ d))%nat then
    Some (with_dropping d true, record, handled)
  else
    encoded ← wr (encoded_ d) (encoded_size_ d) byte;
    Some (with_encoded d encoded, record, handled).

Fixpoint feed_loop (st : feeding) (input : list Z) : option feeding :=
  match input with
  | [] => Some st
  | byte :: rest => st ← feed_byte st byte; feed_loop st rest
  end.

Definition feed (d : StreamDecoder) (input : list Z) : option feeding :=
  '(d, record, handled) ← feed_loop (d, no_record, []) input;
  Some (with_totals d (add_record (totals_ d) record), record, handled).
End Stream.

Definition record (d : StreamDecoder) : FeedRecord := totals_ d.
Definition pending_bytes (d : StreamDecoder) : nat := encoded_size_ d.
Definition reset (d : StreamDecoder) : StreamDecoder :=
  mkStreamDecoder (encoded_ d) (scratch_ d) 0 false no_record.

(** [StreamDecoder<MaxEncodedBytes, MaxDecodedBytes>{}] *)
Definition new_stream_decoder (MaxEncodedBytes MaxDecodedBytes : nat) : StreamDecoder :=
  mkStreamDecoder (replicate MaxEncodedBytes 0) (replicate MaxDecodedBytes 0) 0 false no_record.

(** ** The host build keeps the laws *)
#[export] Instance host_laws ceiling : PlatformLaws (host_platform ceiling).
Proof.
  split; cbn [integrity_crc32c platform_cobs_encode platform_cobs_decode host_platform].
  - apply crc32c_range.
  - intros pre w w' post Hb Hw' Hl H4 Hne. apply Forall_app in Hb as [? Hb].
    apply Forall_app in Hb as [??]. by apply crc32c_burst.
  - exists crc32c_residue. apply crc32c_appended.
  - intros input output Hb Hroom.
    destruct (cobs_encode_spec input output) as (tail & Henc & _); [done..|].
    exists (stuff [] input), tail. pose proof (stuff_nonzero [] input pending_nil Hb) as Hnz.
    pose proof (stuff_length [] input) as Hmax. cbn [length] in Hmax. rewrite !Nat.add_0_l in Hmax.
    repeat split; [done|done|apply stuff_not_nil|unfold max_encoded_size; lia|].
    intros scratch Hs. apply cobs_decode_stripped; [by apply last_snoc_nonzero|done..].
  - apply cobs_encode_keeps.
  - intros input output. destruct (cobs_decode_total input output) as (res & -> & Hres).
    by destruct res as [[size o]|e].
  - apply cobs_decode_agree.
  - apply cobs_decode_bytes.
Qed.

(** ** What a frame contains *)
Section FrameSpec.
Context {P : Platform} {L : PlatformLaws P}.

Definition framed_envelope (e : Envelope) (payload : list Z) : Envelope :=
  with_payload_size e (u16 (Z.of_nat (length payload))).
Definition frame_content (e : Envelope) (payload : list Z) : list Z :=
  layout_envelope (framed_envelope e payload) ++ payload.
Definition frame_bytes (e : Envelope) (payload : list Z) : list Z :=
  frame_content e payload ++ le_bytes 4 (integrity_crc32c (frame_content e payload)).

(** What the encoder asks of its arguments. *)
Definition frame_ok (e : Envelope) (payload : list Z) : Prop :=
  envelope_ranges e ∧ envelope_accepted e = true ∧ is_bytes payload ∧
  Z.of_nat (length payload) ≤ UINT16_MAX ∧
  above_ceiling (envelope_size + length payload + crc_size) = false.

Definition frame_size (payload : list Z) : nat :=
  (envelope_size + length payload + crc_size)%nat.

Lemma length_frame_content e p :
  length (frame_content e p) = (envelope_size + length p)%nat.
Proof. unfold frame_content. by rewrite length_app, length_layout_envelope. Qed.

Lemma length_frame_bytes e p : length (frame_bytes e p) = frame_size p.
Proof.
  unfold frame_bytes, frame_size. by rewrite length_app, length_frame_content, length_le_bytes.
Qed.

Lemma framed_envelope_ok e p :
  frame_ok e p →
  envelope_ranges (framed_envelope e p) ∧ envelope_accepted (framed_envelope e p) = true ∧
  payload_size (framed_envelope e p) = Z.of_nat (length p).
Proof.
  intros (Hr & Ha & Hb & Hl & _). unfold UINT16_MAX in Hl.
  assert (is_u 16 (Z.of_nat (length p))) by word_lia.
  split; [|split; [exact Ha|by apply wrap_small]].
  unfold envelope_ranges in *. cbn. rewrite wrap_small by done. tauto.
Qed.

Lemma frame_bytes_bytes e p : frame_ok e p → is_bytes (frame_bytes e p).
Proof.
  intros Hok. destruct (framed_envelope_ok e p Hok) as (Hr & _).
  destruct Hok as (_ & _ & Hb & _).
  apply Forall_app_2; [apply Forall_app_2; [by apply layout_envelope_bytes|done]|].
  apply le_bytes_bytes.
Qed.

Lemma first_app {A} (l k : list A) n : length l = n → first (l ++ k) n = Some l.
Proof.
  intros <-. unfold first. rewrite length_app, (proj2 (Nat.ltb_ge _ _)) by lia.
  by rewrite take_app_length.
Qed.

Lemma encode_frame e p scratch output :
  frame_ok e p → (frame_size p ≤ length scratch)%nat →
  encode e p scratch output = platform_cobs_encode (frame_bytes e p) output.
Proof.
  intros Hok Hs. destruct (framed_envelope_ok e p Hok) as (Hr & Ha & Hp).
  destruct Hok as (_ & _ & Hb & Hl & Hc). unfold encode.
  rewrite (proj2 (Z.ltb_ge _ _)) by done. unfold frame_size in Hs.
  rewrite (proj2 (Nat.ltb_ge _ _)) by done. cbn [orb]. rewrite Hc.
  fold (framed_envelope e p). rewrite encode_envelope_accepted by done. cbn [cbind succeed].
  destruct (split_length envelope_size (length p + crc_size + (length scratch - frame_size p))
    scratch) as (o1 & o2 & -> & H1 & H2); [unfold frame_size; lia|].
  destruct (split_length (length p) (crc_size + (length (o1 ++ o2) - frame_size p)) o2)
    as (o3 & o4 & -> & H3 & H4); [lia|].
  destruct (split_length crc_size (length (o1 ++ o3 ++ o4) - frame_size p) o4)
    as (o5 & o6 & -> & H5 & _); [lia|].
  pose proof (copy_to_app [] o1 (layout_envelope (framed_envelope e p)) (o3 ++ o5 ++ o6))
    as Hc1. cbn [app length] in Hc1. unfold succeed, cbind.
  rewrite Hc1 by (by rewrite length_layout_envelope). unfold access; cbn [fmap option_fmap option_map].
  pose proof (length_layout_envelope (framed_envelope e p)) as Hle. rewrite <-Hle at 1.
  rewrite (copy_to_app _ o3) by done. cbn [fmap option_fmap option_map].
  rewrite app_assoc. fold (frame_content e p). rewrite <-length_frame_content with (e := e).
  rewrite first_app by done. cbn [fmap option_fmap option_map].
  rewrite put_u32_app by done. cbn [fmap option_fmap option_map].
  rewrite app_assoc. fold (frame_bytes e p).
  rewrite first_app; [done|]. by rewrite length_frame_bytes, length_frame_content.
Qed.

Lemma decode_frame e p encoded scratch :
  frame_ok e p →
  platform_cobs_decode encoded scratch
  = succeed (frame_size p, frame_bytes e p ++ drop (frame_size p) scratch) →
  decode encoded scratch
  = succeed (mkDecoded (framed_envelope e p) p,
             frame_bytes e p ++ drop (frame_size p) scratch).
Proof.
  intros Hok Hdec. destruct (framed_envelope_ok e p Hok) as (Hr & Ha & Hp).
  destruct Hok as (_ & _ & Hb & Hl & Hc). unfold decode. rewrite Hdec. cbn [cbind succeed].
  unfold succeed, cbind.
  rewrite (proj2 (Nat.ltb_ge _ _)) by (unfold frame_size; lia).
  unfold frame_size in Hc |- *. rewrite Hc. fold (frame_size p).
  rewrite first_app by apply length_frame_bytes. unfold access; cbn [fmap option_fmap option_map].
  replace (frame_size p - crc_size)%nat with (length (frame_content e p))
    by (rewrite length_frame_content; unfold frame_size; lia).
  rewrite (get_u32_at _ _ (integrity_crc32c (frame_content e p))); [|..|apply crc_range].
  2: { unfold frame_bytes. rewrite drop_app_exact by done.
       apply take_ge. by rewrite length_le_bytes. }
  cbn [fmap option_fmap option_map]. unfold frame_bytes at 1.
  rewrite <-app_assoc, first_app by done. cbn [fmap option_fmap option_map].
  rewrite Z.eqb_refl. cbn [negb].
  unfold frame_bytes, frame_content. rewrite <-!app_assoc.
  rewrite first_app by apply length_layout_envelope. cbn [fmap option_fmap option_map].
  rewrite <-(app_nil_r (layout_envelope _)) at 1.
  rewrite decode_envelope_layout by done. unfold succeed.
  rewrite Hp, length_app, length_layout_envelope.
  rewrite (proj2 (Z.eqb_eq _ _)) by lia. cbn [negb].
  rewrite drop_app_exact by (by rewrite length_layout_envelope).
  rewrite first_app by lia. done.
Qed.

Lemma encode_decode_frame e p scratch output :
  frame_ok e p → (frame_size p ≤ length scratch)%nat →
  (max_encoded_size (frame_size p) ≤ length output)%nat →
  ∃ encoded tail,
    encode e p scratch output = succeed (S (length encoded), encoded ++ 0 :: tail) ∧
    nonzero_bytes encoded ∧ encoded ≠ [] ∧
    (S (length encoded) ≤ max_encoded_size (frame_size p))%nat ∧
    ∀ scratch', (frame_size p ≤ length scratch')%nat →
      decode encoded scratch'
      = succeed (mkDecoded (framed_envelope e p) p,
                 frame_bytes e p ++ drop (frame_size p) scratch').
Proof.
  intros Hok Hs Ho. rewrite encode_frame by done. rewrite <-(length_frame_bytes e p) in Ho.
  destruct (cobs_laws (frame_bytes e p) output) as (encoded & tail & Henc & Hnz & Hne & Hsz & Hdec);
    [by apply frame_bytes_bytes|done|].
  exists encoded, tail. rewrite length_frame_bytes in *. repeat split; [done..|].
  intros scratch' Hs'. apply decode_frame; [done|]. by apply Hdec.
Qed.
End FrameSpec.

(** ** Decoding is total and independent of the scratch contents *)
Section DecodeTotal.
Context {P : Platform} {L : PlatformLaws P}.

Lemma first_some {A} (l : list A) n : (n ≤ length l)%nat → first l n = Some (take n l).
Proof. intros. unfold first. by rewrite (proj2 (Nat.ltb_ge _ _)). Qed.

Lemma first_take {A} (l : list A) k n :
  (k ≤ n)%nat → (n ≤ length l)%nat → first l k = Some (take k (take n l)).
Proof. intros. rewrite first_some by lia. by rewrite take_take, Nat.min_l by lia. Qed.

(** The checks of [decode] after the byte stuffing, on the decoded bytes. *)
Definition decode_content (bytes : list Z) : Checked Decoded :=
  if (length bytes <? envelope_size + crc_size)%nat
  then fail (Remote.error SProtocolError Remote.Malformed Remote.FrameDecode) else
  if above_ceiling (length bytes)
  then fail (Remote.error SMessageTooLarge Remote.Oversized Remote.FrameDecode) else
  let content_size := (length bytes - crc_size)%nat in
  expected ⇐ access (get_u32 bytes content_size);
  if negb (integrity_crc32c (take content_size bytes) =? expected)
  then fail (Remote.error SProtocolError Remote.IntegrityFailure Remote.FrameDecode) else
  envelope ⇐ Protocol.decode (take envelope_size bytes);
  if negb (payload_size envelope =? Z.of_nat (content_size - envelope_size))
  then fail (Remote.error SProtocolError Remote.Malformed Remote.FrameDecode) else
  succeed (mkDecoded envelope (take (content_size - envelope_size) (drop envelope_size bytes))).

Lemma decode_factors encoded scratch size scratch' :
  platform_cobs_decode encoded scratch = succeed (size, scratch') →
  (size ≤ length scratch')%nat →
  decode encoded scratch
  = cbind (decode_content (take size scratch')) (λ d, succeed (d, scratch')).
Proof.
  intros Hdec Hs. unfold decode, decode_content. rewrite Hdec. unfold succeed at 1.
  cbn [cbind]. rewrite length_take, Nat.min_l by done.
  case_match eqn:Hlen; [done|]. apply Nat.ltb_ge in Hlen. case_match; [done|].
  rewrite !(first_take scratch' _ size) by lia.
  rewrite (take_take scratch' size size), Nat.min_id. unfold access. cbn [fmap option_fmap option_map cbind].
  destruct (get_u32 (take size scratch') (size - crc_size)) as [expected|]; [|done].
  cbn [fmap option_fmap option_map cbind].
  case_match; [done|]. destruct (Protocol.decode _) as [[e|e]|]; [|done..]. cbn [cbind].
  destruct (Z.eqb_spec (payload_size e) (Z.of_nat (size - crc_size - envelope_size)))
    as [->|]; [|done]. cbn [negb].
  rewrite Nat2Z.id, first_some by (rewrite length_drop; lia).
  cbn [fmap option_fmap option_map]. unfold succeed. cbn [cbind].
  by rewrite skipn_firstn_comm, take_take, Nat.min_l by lia.
Qed.

Lemma decode_content_total bytes : decode_content bytes ≠ None.
Proof.
  unfold decode_content. case_match eqn:Hlen; [done|]. apply Nat.ltb_ge in Hlen.
  case_match; [done|].
  destruct (get_loop_defined 4 0 bytes (length bytes - crc_size) 0) as [v Hv];
    [unfold envelope_size, crc_size in *; lia|].
  unfold get_u32. rewrite Hv. unfold access. cbn [fmap option_fmap option_map cbind].
  case_match; [done|].
  pose proof (decode_envelope_total (take envelope_size bytes)).
  destruct (Protocol.decode _) as [[e|e]|]; [|done..]. cbn [cbind]. by case_match.
Qed.

(** The value of a decode without the scratch span. *)
Definition decoded_of (r : Checked (Decoded * list Z)) : Checked Decoded :=
  result_map fst <$> r.

Lemma decode_cases encoded scratch :
  ∃ r, decode encoded scratch = Some r ∧
    match r with
    | Ok (d, scratch') => length scratch' = length scratch
    | Err _ => True
    end.
Proof.
  pose proof (cobs_decode_safe encoded scratch) as Hs.
  destruct (platform_cobs_decode encoded scratch) as [[[size o]|e]|] eqn:Hdec; [|..|done].
  - destruct Hs as [Hs Hl]. rewrite (decode_factors _ _ size o) by (done || lia).
    pose proof (decode_content_total (take size o)).
    destruct (decode_content _) as [[d|e]|]; [|by eexists|done]. by eexists.
  - unfold decode. rewrite Hdec. by eexists.
Qed.

Lemma decode_scratch encoded scratch scratch' :
  length scratch = length scratch' →
  decoded_of (decode encoded scratch) = decoded_of (decode encoded scratch').
Proof.
  intros Hl. pose proof (cobs_decode_content encoded scratch scratch' Hl) as Hc.
  pose proof (cobs_decode_safe encoded scratch) as Hs.
  pose proof (cobs_decode_safe encoded scratch') as Hs'.
  destruct (platform_cobs_decode encoded scratch) as [[[n o]|e]|] eqn:Hdec,
    (platform_cobs_decode encoded scratch') as [[[n' o']|e']|] eqn:Hdec'; try done;
    simpl in Hc.
  - destruct Hc as [<- Ht]. destruct Hs, Hs'.
    rewrite (decode_factors _ _ n o), (decode_factors _ _ n o') by (done || lia).
    rewrite Ht. by destruct (decode_content _) as [[d|e]|].
  - unfold decode. by rewrite Hdec, Hdec', Hc.
Qed.
End DecodeTotal.

(** ** Specification of the stream decoder

    The delimiter cuts the stream into segments; an empty segment is
    ignored, one that does not fit the buffer is counted as an overflow, and
    any other is decoded on its own. *)
Inductive Outcome : Set :=
  | Ignored | Overflowed | Rejected | Accepted (d : Decoded).

Definition outcome_record (o : Outcome) : FeedRecord :=
  match o with
  | Ignored => no_record
  | Overflowed => one_overflowed
  | Rejected => one_rejected
  | Accepted _ => one_accepted
  end.
Definition outcome_handled (o : Outcome) : list Decoded :=
  match o with Accepted d => [d] | _ => [] end.

Definition record_ok (r : FeedRecord) : Prop :=
  is_u 64 (accepted r) ∧ is_u 64 (rejected r) ∧ is_u 64 (overflowed r).

Lemma add_record_ok r s : record_ok (add_record r s).
Proof. repeat split; by apply wrap_range. Qed.
Lemma add_record_no_record r : record_ok r → add_record r no_record = r.
Proof.
  destruct r as [a b c]. intros (Ha & Hb & Hc). unfold add_record. simpl in *.
  by rewrite !Z.add_0_r, !wrap_small.
Qed.
Lemma add_record_assoc r s t :
  add_record r (add_record s t) = add_record (add_record r s) t.
Proof.
  unfold add_record, wrap. simpl. f_equal;
    by rewrite Zplus_mod_idemp_r, Zplus_mod_idemp_l, Z.add_assoc.
Qed.

Definition outcomes_record (os : list Outcome) : FeedRecord :=
  fold_left (λ r o, add_record r (outcome_record o)) os no_record.

Lemma fold_record_ok os r :
  record_ok r → record_ok (fold_left (λ r o, add_record r (outcome_record o)) os r).
Proof.
  revert r; induction os as [|o os IH]; intros r Hr; [done|]. apply IH, add_record_ok.
Qed.

Section StreamSpec.
Context {P : Platform} {L : PlatformLaws P}.
(** [MaxEncodedBytes] and the scratch array. *)
Context (max : nat) (scratch : list Z).

Definition segment_outcome (segment : list Z) : Outcome :=
  match segment with
  | [] => Ignored
  | _ =>
    if (max <? length segment)%nat then Overflowed else
    match decode segment scratch with
    | Some (Ok (d, _)) => Accepted d
    | _ => Rejected
    end
  end.

(** The outcomes of the segments that end in [input], and the segment left
    open; [segment] is the one open before. *)
Fixpoint outcomes (segment input : list Z) : list Outcome * list Z :=
  match input with
  | [] => ([], segment)
  | byte :: rest =>
    if byte =? 0 then
      let '(os, open) := outcomes [] rest in (segment_outcome segment :: os, open)
    else outcomes (segment ++ [byte]) rest
  end.

(** [d] has received the open segment [segment]. *)
Definition holds (d : StreamDecoder) (segment : list Z) : Prop :=
  length (encoded_ d) = max ∧ length (scratch_ d) = length scratch ∧
  nonzero_bytes segment ∧
  if (max <? length segment)%nat
  then dropping_ d = true ∧ encoded_size_ d = 0%nat
  else dropping_ d = false ∧ encoded_size_ d = length segment ∧
       take (length segment) (encoded_ d) = segment.

Lemma feed_byte_nonzero d segment r h byte :
  holds d segment → is_u 8 byte → byte ≠ 0 →
  ∃ d', feed_byte (d, r, h) byte = Some (d', r, h) ∧
        holds d' (segment ++ [byte]) ∧ totals_ d' = totals_ d.
Proof.
  intros (He & Hs & Hnz & Hd) Hb H0. unfold feed_byte.
  assert (nonzero_bytes (segment ++ [byte])) as Hnz'
    by (apply Forall_app_2; [done|by apply Forall_singleton]).
  rewrite (proj2 (Z.eqb_neq _ _)) by done. unfold holds.
  assert (length (segment ++ [byte]) = S (length segment)) as -> by len.
  destruct (Nat.ltb_spec max (length segment)) as [Hlt|Hge].
  - destruct Hd as [Hdrop Hz]. rewrite Hdrop. exists d.
    rewrite (proj2 (Nat.ltb_lt _ _)) by lia. repeat split; done.
  - destruct Hd as (Hdrop & Hsz & Ht). rewrite Hdrop, Hsz, He.
    destruct (Nat.eqb_spec (length segment) max) as [Heq|Hne].
    + eexists. split; [done|]. rewrite (proj2 (Nat.ltb_lt _ _)) by lia.
      simpl. repeat split; done.
    + rewrite wr_insert by lia. eexists. split; [done|].
      rewrite (proj2 (Nat.ltb_ge _ _)) by lia. unfold with_encoded. cbn.
      rewrite length_insert. split; [|done]. split; [done|]. split; [done|]. split; [done|].
      split; [done|]. split; [lia|].
      rewrite (take_S_r _ _ byte) by (apply list_lookup_insert_eq; lia).
      by rewrite take_insert_ge, Ht by lia.
Qed.

Lemma holds_idle d :
  length (encoded_ d) = max → length (scratch_ d) = length scratch →
  dropping_ d = false → encoded_size_ d = 0%nat → holds d [].
Proof. intros. unfold holds. simpl. repeat split; try done; constructor. Qed.

Lemma feed_byte_delimiter d segment r h :
  holds d segment → record_ok r →
  ∃ d', feed_byte (d, r, h) 0
        = Some (d', add_record r (outcome_record (segment_outcome segment)),
                h ++ outcome_handled (segment_outcome segment)) ∧
        holds d' [] ∧ totals_ d' = totals_ d.
Proof.
  intros (He & Hs & Hnz & Hd) Hr. unfold feed_byte, segment_outcome. cbn [Z.eqb].
  destruct segment as [|b segment]; [|remember (b :: segment) as seg eqn:Hseg].
  - destruct Hd as (Hdrop & Hsz & _). rewrite Hdrop, Hsz. cbn.
    rewrite app_nil_r, add_record_no_record by done.
    exists d. repeat split; done.
  - destruct (max <? length seg)%nat eqn:Hlt.
    + destruct Hd as [-> Hsz]. eexists. rewrite app_nil_r. split; [done|].
      by split; [apply holds_idle|].
    + destruct Hd as (Hdrop & Hsz & Ht). apply Nat.ltb_ge in Hlt. rewrite Hdrop, Hsz.
      assert ((length seg =? 0)%nat = false) as -> by by rewrite Hseg.
      rewrite first_some, Ht by lia. cbn [mbind option_bind].
      pose proof (decode_scratch seg _ _ Hs) as Hsc.
      destruct (decode_cases seg (scratch_ d)) as (res & Hdec & Hres).
      destruct (decode_cases seg scratch) as (res' & Hdec' & _).
      rewrite Hdec, Hdec' in Hsc |- *.
      destruct res as [[v s]|e], res' as [[v' s']|e']; simplify_eq/=.
      * eexists. split; [done|]. split; [|done]. apply holds_idle; simpl; by try lia.
      * rewrite app_nil_r. eexists. split; [done|]. split; [|done]. by apply holds_idle.
Qed.

(** Processing a whole input from a running record. *)
Lemma feed_loop_outcomes d segment r h input :
  holds d segment → record_ok r → is_bytes input →
  let '(os, open) := outcomes segment input in
  ∃ d', feed_loop (d, r, h) input
        = Some (d', fold_left (λ r o, add_record r (outcome_record o)) os r,
                h ++ concat (map outcome_handled os)) ∧
        holds d' open ∧ totals_ d' = totals_ d.
Proof.
  intros Hh Hr Hb. revert d segment r h Hh Hr.
  induction Hb as [|byte rest Hbyte _ IH]; intros d segment r h Hh Hr; cbn [outcomes feed_loop].
  - exists d. by rewrite app_nil_r.
  - destruct (Z.eqb_spec byte 0) as [->|H0].
    + destruct (feed_byte_delimiter d segment r h Hh Hr) as (d1 & -> & Hd1 & Ht1).
      cbn [mbind option_bind].
      specialize (IH d1 [] (add_record r (outcome_record (segment_outcome segment)))
        (h ++ outcome_handled (segment_outcome segment)) Hd1 (add_record_ok _ _)).
      destruct (outcomes [] rest) as [os open].
      destruct IH as (d2 & -> & Hd2 & Ht2). exists d2. rewrite <-app_assoc, <-Ht1. done.
    + destruct (feed_byte_nonzero d segment r h byte Hh Hbyte H0) as (d1 & -> & Hd1 & Ht1).
      cbn [mbind option_bind]. specialize (IH d1 (segment ++ [byte]) r h Hd1 Hr).
      destruct (outcomes (segment ++ [byte]) rest) as [os open]. by rewrite <-Ht1.
Qed.

(** [feed] reports the outcomes of the segments its input completes. *)
Lemma feed_outcomes d segment input :
  holds d segment → is_bytes input →
  let '(os, open) := outcomes segment input in
  ∃ d', feed d input
        = Some (d', outcomes_record os, concat (map outcome_handled os)) ∧
        holds d' open ∧
        record d' = add_record (record d) (outcomes_record os).
Proof.
  intros Hh Hb.
  assert (record_ok no_record) as Hr by by repeat split.
  pose proof (feed_loop_outcomes d segment no_record [] input Hh Hr Hb) as H.
  destruct (outcomes segment input) as [os open].
  destruct H as (d1 & Heq & Hd1 & Ht1). unfold feed. rewrite Heq. cbn [mbind option_bind].
  eexists. split; [done|]. split; [exact Hd1|]. unfold record. simpl. by rewrite Ht1.
Qed.

Lemma outcomes_app segment a b :
  outcomes segment (a ++ b)
  = let '(os, open) := outcomes segment a in
    let '(os', open') := outcomes open b in (os ++ os', open').
Proof.
  revert segment; induction a as [|byte rest IH]; intros segment; simpl.
  - by destruct (outcomes segment b).
  - case_match; [|apply IH]. rewrite IH.
    destruct (outcomes [] rest) as [os open]. by destruct (outcomes open b).
Qed.

Lemma outcomes_segment prefix segment rest :
  nonzero_bytes segment →
  outcomes prefix (segment ++ 0 :: rest)
  = let '(os, open) := outcomes [] rest in (segment_outcome (prefix ++ segment) :: os, open).
Proof.
  intros Hs. revert prefix; induction Hs as [|b segment [_ Hb] _ IH]; intros prefix; simpl.
  - by rewrite app_nil_r.
  - rewrite (proj2 (Z.eqb_neq _ _)) by done. by rewrite IH, <-app_assoc.
Qed.
End StreamSpec.

(** ** Properties of frames *)
Section Properties.
Context {P : Platform} {L : PlatformLaws P}.

(** C4: an envelope and payload the encoder accepts become one run of
    non-zero bytes and the zero delimiter, no longer than
    [max_encoded_size]; decoding it into any scratch span that has room
    returns that envelope, with the payload size filled in, and that payload. *)
Theorem frame_roundtrip e p scratch output
    (Hok : frame_ok e p)
    (Hscratch : (frame_size p ≤ length scratch)%nat)
    (Houtput : (max_encoded_size (frame_size p) ≤ length output)%nat) :
  ∃ encoded tail,
    encode e p scratch output = succeed (S (length encoded), encoded ++ 0 :: tail) ∧
    nonzero_bytes encoded ∧
    (S (length encoded) ≤ max_encoded_size (frame_size p))%nat ∧
    ∀ scratch', (frame_size p ≤ length scratch')%nat →
      decoded_of (decode encoded scratch') = succeed (mkDecoded (framed_envelope e p) p).
Proof.
  destruct (encode_decode_frame e p scratch output) as (encoded & tail & H1 & H2 & _ & H3 & H4);
    [done..|].
  exists encoded, tail. repeat split; [done..|]. intros scratch' Hs. by rewrite H4.
Qed.

(** The bytes a decode finds in the scratch span. *)
Definition decodes_to (encoded scratch bytes : list Z) : Prop :=
  ∃ rest, platform_cobs_decode encoded scratch = succeed (length bytes, bytes ++ rest).

Lemma decode_decodes_to encoded scratch bytes :
  decodes_to encoded scratch bytes →
  decoded_of (decode encoded scratch) = decode_content bytes.
Proof.
  intros [rest Hdec]. rewrite (decode_factors _ _ _ _ Hdec) by len.
  rewrite take_app_length. by destruct (decode_content bytes) as [[d|e]|].
Qed.

Lemma decode_content_ok bytes d :
  is_bytes bytes → decode_content bytes = succeed d →
  ∃ content, bytes = content ++ le_bytes 4 (integrity_crc32c content) ∧
    content = layout_envelope (envelope d) ++ payload d ∧
    payload_size (envelope d) = Z.of_nat (length (payload d)) ∧
    envelope_accepted (envelope d) = true ∧ envelope_ranges (envelope d) ∧
    above_ceiling (length bytes) = false.
Proof.
  intros Hb. unfold decode_content. case_match eqn:Hlen; [done|]. apply Nat.ltb_ge in Hlen.
  unfold crc_size, envelope_size in Hlen.
  destruct (above_ceiling (length bytes)) eqn:Hc; [done|].
  set (n := (length bytes - crc_size)%nat).
  rewrite get_u32_value; [|done|unfold n, crc_size; lia].
  unfold access. cbn [fmap option_fmap option_map cbind].
  rewrite (take_ge (drop n bytes)) by (rewrite length_drop; unfold n, crc_size; lia).
  destruct (Z.eqb_spec (integrity_crc32c (take n bytes)) (le_value (drop n bytes)))
    as [Heq|]; [|done]. cbn [negb].
  destruct (Protocol.decode _) as [[e|e]|] eqn:Hdec; [|done..]. cbn [cbind].
  destruct (Z.eqb_spec (payload_size e) (Z.of_nat (n - envelope_size))) as [Hps|]; [|done].
  cbn [negb]. intros Hd. injection Hd as <-. cbn [envelope payload].
  destruct (decode_envelope_inv (take envelope_size bytes) e) as (Hacc & Hr & rest & Htake);
    [by apply Forall_take|done|].
  assert (rest = []) as ->.
  { apply (f_equal length) in Htake.
    rewrite length_app, length_layout_envelope, length_take in Htake.
    destruct rest; [done|]. cbn [length] in Htake. unfold envelope_size in Htake. lia. }
  rewrite app_nil_r in Htake. exists (take n bytes). rewrite Heq.
  assert (length (drop n bytes) = 4%nat) as Hcrc by (rewrite length_drop; unfold n, crc_size; lia).
  rewrite <-Hcrc, le_bytes_value by (by apply Forall_drop). rewrite take_drop.
  split; [done|]. split; [|split; [|by split]].
  - rewrite <-Htake.
    rewrite <-(take_drop envelope_size (take n bytes)).
    rewrite take_take, Nat.min_l by (unfold n, envelope_size, crc_size; lia). f_equal.
    by rewrite skipn_firstn_comm.
  - rewrite Hps, length_take, length_drop. unfold n, envelope_size, crc_size. lia.
Qed.

(** What an accepted content is. *)
Lemma decode_content_frame bytes d :
  is_bytes bytes → decode_content bytes = succeed d →
  bytes = frame_bytes (envelope d) (payload d) ∧
  framed_envelope (envelope d) (payload d) = envelope d ∧
  frame_ok (envelope d) (payload d).
Proof.
  intros Hbytes Hd.
  destruct (decode_content_ok bytes d Hbytes Hd)
    as (content & Hbs & Hcontent & Hps & Hacc & Hr & Hceil).
  assert (is_u 16 (payload_size (envelope d))) as Hu
    by (unfold envelope_ranges in Hr; tauto).
  assert (framed_envelope (envelope d) (payload d) = envelope d) as Hf.
  { unfold framed_envelope. rewrite <-Hps, wrap_small by done. by destruct (envelope d). }
  split; [|split; [done|]].
  - unfold frame_bytes, frame_content. by rewrite Hf, <-Hcontent.
  - subst content. split; [done|]. split; [done|]. split.
    + rewrite Hbs in Hbytes. apply Forall_app in Hbytes as [Hbytes _].
      by apply Forall_app in Hbytes as [_ ?].
    + split; [unfold UINT16_MAX; word_lia|]. rewrite Hbs in Hceil.
      rewrite !length_app, length_layout_envelope, length_le_bytes in Hceil. exact Hceil.
Qed.

(** What a decode that succeeds found in the scratch span. *)
Lemma decode_found encoded scratch d scratch' :
  decode encoded scratch = succeed (d, scratch') →
  ∃ bytes rest,
    platform_cobs_decode encoded scratch = succeed (length bytes, bytes ++ rest) ∧
    scratch' = bytes ++ rest ∧ length scratch' = length scratch ∧
    decode_content bytes = succeed d.
Proof.
  intros Hd. pose proof (cobs_decode_safe encoded scratch) as Hsafe.
  destruct (platform_cobs_decode encoded scratch) as [[[size found]|e]|] eqn:Hc; [|by
    unfold decode in Hd; rewrite Hc in Hd|done].
  destruct Hsafe as [Hsize Hlen].
  rewrite (decode_factors _ _ _ _ Hc) in Hd by lia.
  exists (take size found), (drop size found).
  rewrite length_take_le, take_drop by lia.
  destruct (decode_content (take size found)) as [[d'|]|]; [|done..].
  by simplify_eq/=.
Qed.

(** C38: whatever bytes arrive and whatever the scratch span holds, [decode]
    reads and writes inside its spans and returns a value or an error; when
    it returns a frame, the un-stuffed bytes, which are what the scratch span
    then starts with, are exactly the frame of an envelope and a payload
    that the encoder accepts: the envelope with the size of its payload, the
    payload and their checksum, within the configured ceiling. *)
Theorem frame_decode_sound encoded scratch (Hbytes : is_bytes encoded) :
  ∃ result, decode encoded scratch = Some result ∧
    match result with
    | Err _ => True
    | Ok (d, scratch') =>
      let bytes := frame_bytes (envelope d) (payload d) in
      length scratch' = length scratch ∧
      (∃ rest, scratch' = bytes ++ rest) ∧
      decodes_to encoded scratch bytes ∧
      framed_envelope (envelope d) (payload d) = envelope d ∧
      frame_ok (envelope d) (payload d)
    end.
Proof.
  destruct (decode_cases encoded scratch) as (r & Hdec & _). exists r. split; [done|].
  destruct r as [[d scratch']|]; [|done].
  destruct (decode_found _ _ _ _ Hdec) as (bytes & rest & Hcobs & -> & Hlen & Hcontent).
  assert (is_bytes bytes) as Hb.
  { pose proof (cobs_decode_is_bytes _ _ _ _ Hbytes Hcobs) as H. by rewrite take_app_length in H. }
  destruct (decode_content_frame bytes d Hb Hcontent) as (-> & Hf & Hok).
  split; [done|]. split; [by exists rest|]. split; [by exists rest|]. done.
Qed.

Lemma decode_content_mismatch content crc :
  is_bytes (content ++ crc) → length crc = crc_size → (envelope_size ≤ length content)%nat →
  above_ceiling (length (content ++ crc)) = false →
  integrity_crc32c content ≠ le_value crc →
  decode_content (content ++ crc)
  = fail (Remote.error SProtocolError Remote.IntegrityFailure Remote.FrameDecode).
Proof.
  intros Hb Hl Hc Hceil Hne. unfold decode_content. rewrite Hceil.
  rewrite length_app in *. rewrite (proj2 (Nat.ltb_ge _ _)) by lia.
  replace (length content + length crc - crc_size)%nat with (length content) by lia.
  rewrite get_u32_value by (done || rewrite length_app; unfold crc_size in *; lia).
  unfold access. cbn [fmap option_fmap option_map cbind].
  rewrite drop_app_length, take_app_length, take_ge by (unfold crc_size in *; lia).
  by rewrite (proj2 (Z.eqb_neq _ _)).
Qed.

(** Bytes that are not some content and its checksum. *)
Lemma decode_content_damaged bytes :
  is_bytes bytes → above_ceiling (length bytes) = false →
  (envelope_size + crc_size ≤ length bytes)%nat →
  (∀ content, bytes ≠ content ++ le_bytes 4 (integrity_crc32c content)) →
  decode_content bytes
  = fail (Remote.error SProtocolError Remote.IntegrityFailure Remote.FrameDecode).
Proof.
  intros Hb Hceil Hl Hne.
  destruct (split_length (length bytes - crc_size) crc_size bytes)
    as (content & crc & -> & H1 & H2); [lia|].
  apply decode_content_mismatch; [done..|lia|done|]. intros Hv. apply (Hne content).
  rewrite Hv. change 4%nat with crc_size. rewrite <-H2, le_bytes_value; [done|].
  by apply Forall_app in Hb as [_ ?].
Qed.

(** C5: damage to at most four consecutive bytes of what a frame carries,
    wherever in the header, the payload or the checksum it falls, is noticed:
    if the bytes un-stuffed from one segment are accepted and those un-stuffed
    from another differ from them only in such a run, [decode] of the other
    answers [IntegrityFailure].  (Damage to a code byte of the stuffing moves
    the bytes behind it and is not such a run.) *)
Theorem frame_burst_rejected encoded encoded' scratch scratch' pre w w' post d
    (Hgood : decodes_to encoded scratch (pre ++ w ++ post))
    (Hbad : decodes_to encoded' scratch' (pre ++ w' ++ post))
    (Hbytes : is_bytes (pre ++ w ++ post)) (Hbytes' : is_bytes w')
    (Hlen : length w = length w') (Hrun : (length w ≤ 4)%nat) (Hdiff : w ≠ w')
    (Haccepted : decoded_of (decode encoded scratch) = succeed d) :
  decoded_of (decode encoded' scratch')
  = fail (Remote.error SProtocolError Remote.IntegrityFailure Remote.FrameDecode).
Proof.
  rewrite (decode_decodes_to _ _ _ Hbad).
  rewrite (decode_decodes_to _ _ _ Hgood) in Haccepted.
  destruct (decode_content_ok _ _ Hbytes Haccepted) as (content & Heq & Hc & _ & _ & _ & Hceil).
  assert (length (pre ++ w' ++ post) = length (pre ++ w ++ post)) as Hl
    by (rewrite !length_app; lia).
  assert (is_bytes (pre ++ w' ++ post)) as Hb' by (rewrite !Forall_app in *; tauto).
  apply decode_content_damaged; [done|by rewrite Hl| |].
  { rewrite Hl, Heq, length_app, length_le_bytes, Hc, length_app, length_layout_envelope.
    unfold crc_size. lia. }
  intros content' Heq'. destruct crc_residue as [residue Hres].
  apply (crc_burst pre w w' post); [done..|].
  assert (∀ l bytes, is_bytes bytes → bytes = l ++ le_bytes 4 (integrity_crc32c l) →
    integrity_crc32c bytes = residue) as Hwhole.
  { intros l bytes Hb ->. apply Hres. by apply Forall_app in Hb as [? _]. }
  by rewrite (Hwhole content), (Hwhole content').
Qed.

(** C3: [feed] refines the specification of the stream: from any decoder
    that has received the open segment [segment], it terminates without
    touching memory outside its buffers, reports exactly the outcomes of the
    segments the input completes (ignored, overflowed, rejected, accepted),
    calls the handler once per accepted segment, in order, adds the call's
    record to the totals, and keeps the segment left open. *)
Theorem feed_refines max scratch d segment input
    (Hd : holds max scratch d segment) (Hinput : is_bytes input) :
  let '(os, open) := outcomes max scratch segment input in
  ∃ d', feed d input
        = Some (d', outcomes_record os, concat (map outcome_handled os)) ∧
        holds max scratch d' open ∧
        record d' = add_record (record d) (outcomes_record os).
Proof. by apply feed_outcomes. Qed.

(** What a peer sends for an envelope and a payload. *)
Definition transmits (f : Envelope * list Z) (bytes : list Z) : Prop :=
  ∃ scratch output n output',
    frame_ok f.1 f.2 ∧ (frame_size f.2 ≤ length scratch)%nat ∧
    (max_encoded_size (frame_size f.2) ≤ length output)%nat ∧
    encode f.1 f.2 scratch output = succeed (n, output') ∧ bytes = take n output'.

Definition delivered (f : Envelope * list Z) : Decoded :=
  mkDecoded (framed_envelope f.1 f.2) f.2.

Lemma transmits_segment max scratch f bytes :
  transmits f bytes → (max_encoded_size (frame_size f.2) ≤ S max)%nat →
  (frame_size f.2 ≤ length scratch)%nat →
  ∃ segment, bytes = segment ++ [0] ∧ nonzero_bytes segment ∧
    segment_outcome max scratch segment = Accepted (delivered f).
Proof.
  destruct f as [e p]. cbn [fst snd].
  intros (scr & output & n & output' & Hok & Hs & Ho & Henc & ->) Hmax Hscr.
  destruct (encode_decode_frame e p scr output Hok Hs Ho)
    as (encoded & tail & Henc' & Hnz & Hne & Hsz & Hdec).
  cbn [fst snd] in Henc. rewrite Henc' in Henc. injection Henc as <- <-.
  exists encoded. specialize (Hdec scratch Hscr).
  split; [|split; [done|]].
  - change (encoded ++ 0 :: tail) with (encoded ++ [0] ++ tail). rewrite app_assoc.
    rewrite take_app_exact; [done|len].
  - unfold segment_outcome. destruct encoded as [|b encoded]; [done|].
    rewrite (proj2 (Nat.ltb_ge _ _)) by lia. by rewrite Hdec.
Qed.

Lemma outcomes_transmitted max scratch fs streams :
  Forall2 transmits fs streams →
  Forall (λ f, (max_encoded_size (frame_size f.2) ≤ S max)%nat ∧
               (frame_size f.2 ≤ length scratch)%nat) fs →
  is_bytes (concat streams) ∧
  outcomes max scratch [] (concat streams) = (map (Accepted ∘ delivered) fs, []).
Proof.
  induction 1 as [|f bytes fs streams Hf _ IH]; intros Hsizes; [by split; [constructor|]|].
  apply Forall_cons_1 in Hsizes as [[Hmax Hs] Hsizes]. destruct (IH Hsizes) as [IHb IHo].
  destruct (transmits_segment max scratch f bytes Hf Hmax Hs) as (segment & -> & Hnz & Hout).
  cbn [concat map]. rewrite <-app_assoc. cbn [app]. split.
  - apply Forall_app_2; [|constructor; [done|exact IHb]].
    eapply Forall_impl; [exact Hnz|]. by intros b [??].
  - rewrite outcomes_segment, IHo by done. cbn [app]. by rewrite Hout.
Qed.

Lemma concat_accepted fs :
  concat (map outcome_handled (map (Accepted ∘ delivered) fs)) = map delivered fs.
Proof. induction fs as [|f fs IH]; simpl; [done|]. by rewrite IH. Qed.

(** C2: whatever bytes a decoder has seen, after the next delimiter it
    delivers every frame a peer transmits, each exactly once and in order,
    provided the decoder's buffers have room for them; the noise before them
    affects only its own outcomes, and nothing is left pending. *)
Theorem stream_delivers max scratch d segment noise fs streams
    (Hd : holds max scratch d segment) (Hnoise : is_bytes noise)
    (Hsent : Forall2 transmits fs streams)
    (Hroom : Forall (λ f, (max_encoded_size (frame_size f.2) ≤ S max)%nat ∧
                          (frame_size f.2 ≤ length scratch)%nat) fs) :
  let lost := (outcomes max scratch segment (noise ++ [0])).1 in
  ∃ d', feed d (noise ++ [0] ++ concat streams)
        = Some (d', outcomes_record (lost ++ map (Accepted ∘ delivered) fs),
                concat (map outcome_handled lost) ++ map delivered fs) ∧
        holds max scratch d' [] ∧ pending_bytes d' = 0%nat.
Proof.
  cbv zeta. destruct (outcomes_transmitted max scratch fs streams Hsent Hroom) as [Hb Ho].
  pose proof (feed_outcomes max scratch d segment (noise ++ [0] ++ concat streams) Hd) as Hf.
  rewrite app_assoc, outcomes_app in Hf.
  assert ((outcomes max scratch segment (noise ++ [0])).2 = []) as Hopen.
  { rewrite outcomes_app. destruct (outcomes max scratch segment noise). done. }
  destruct (outcomes max scratch segment (noise ++ [0])) as [lost open]. simpl in Hopen. subst open.
  rewrite Ho in Hf. destruct Hf as (d' & Hfeed & Hd' & _).
  { apply Forall_app_2; [|done]. apply Forall_app_2; [done|]. by repeat constructor. }
  exists d'. rewrite app_assoc, Hfeed, map_app, concat_app, concat_accepted.
  split; [done|]. split; [done|]. by destruct Hd' as (_ & _ & _ & _ & ? & _).
Qed.
End Properties.

(** ** Feeding in pieces *)
Section Chunks.
Context {P : Platform}.

Definition shift (t : FeedRecord) (r : FeedRecord) (h : list Decoded) (st : feeding) : feeding :=
  let '(d, s, k) := st in (with_totals d t, add_record r s, h ++ k).

Lemma feed_byte_shift t r h st byte :
  feed_byte (shift t r h st) byte = shift t r h <$> feed_byte st byte.
Proof.
  destruct st as [[d s] k]. unfold feed_byte, shift. simpl.
  destruct (byte =? 0); destruct (dropping_ d); simpl; [|..|done|].
  - by rewrite add_record_assoc.
  - destruct (encoded_size_ d =? 0)%nat; [done|].
    destruct (first _ _) as [encoded|]; [|done]. simpl.
    destruct (decode encoded (scratch_ d)) as [[[v s']|e]|]; simpl; [|..|done];
      by rewrite add_record_assoc, ?app_assoc.
  - destruct (_ =? _)%nat; [done|]. by destruct (wr _ _ _).
Qed.

Lemma feed_loop_shift t r h st input :
  feed_loop (shift t r h st) input = shift t r h <$> feed_loop st input.
Proof.
  revert st; induction input as [|b rest IH]; intros st; [done|]. cbn [feed_loop].
  rewrite feed_byte_shift. destruct (feed_byte st b) as [st'|]; [|done]. apply IH.
Qed.

Lemma feed_loop_app st a b :
  feed_loop st (a ++ b) = (st' ← feed_loop st a; feed_loop st' b).
Proof.
  revert st; induction a as [|x a IH]; intros st; [done|]. cbn [app feed_loop].
  destruct (feed_byte st x) as [st'|]; [|done]. apply IH.
Qed.

Lemma feed_byte_record_ok st byte st' :
  record_ok st.1.2 → feed_byte st byte = Some st' → record_ok st'.1.2.
Proof.
  destruct st as [[d s] k]. unfold feed_byte. intros Hr H. simpl in Hr.
  destruct (byte =? 0), (dropping_ d); simplify_eq/=; auto using add_record_ok.
  - destruct (encoded_size_ d =? 0)%nat; simplify_eq/=; [done|].
    destruct (first _ _) as [encoded|]; [|done]. simpl in H.
    destruct (decode encoded (scratch_ d)) as [[[v s']|e]|]; simplify_eq/=;
      apply add_record_ok.
  - destruct (_ =? _)%nat; [|destruct (wr _ _ _)]; by simplify_eq/=.
Qed.

Lemma feed_loop_record_ok st input st' :
  record_ok st.1.2 → feed_loop st input = Some st' → record_ok st'.1.2.
Proof.
  revert st; induction input as [|b rest IH]; intros st Hr H; simplify_eq/=; [done|].
  destruct (feed_byte st b) as [st1|] eqn:Hst; [|done].
  eapply IH, H. by eapply feed_byte_record_ok.
Qed.

(** The stream decoder does not see how the stream is cut: feeding two
    pieces one after the other leaves the decoder, its totals, the counts
    and the sequence of handler calls exactly as feeding them joined. *)
Theorem feed_chunks d a b :
  feed d (a ++ b)
  = '(d1, r1, h1) ← feed d a;
    '(d2, r2, h2) ← feed d1 b;
    Some (d2, add_record r1 r2, h1 ++ h2).
Proof.
  unfold feed. rewrite feed_loop_app.
  destruct (feed_loop (d, no_record, []) a) as [[[d1 r1] h1]|] eqn:Ha; [|done].
  cbn [mbind option_bind].
  assert (record_ok r1) as Hr.
  { eapply (feed_loop_record_ok _ _ (d1, r1, h1)), Ha. by repeat split. }
  set (t := add_record (totals_ d1) r1).
  assert (∀ t' r h, record_ok r →
    feed_loop (with_totals d1 t', r, h) b
    = shift t' r h <$> feed_loop (d1, no_record, []) b) as Hshift.
  { intros t' r h Hr'. rewrite <-feed_loop_shift. unfold shift.
    by rewrite add_record_no_record, app_nil_r. }
  rewrite (Hshift t) by by repeat split.
  replace (d1, r1, h1) with (with_totals d1 (totals_ d1), r1, h1) by by destruct d1.
  rewrite Hshift by done.
  destruct (feed_loop (d1, no_record, []) b) as [[[d2 r2] h2]|]; [|done]. simpl.
  assert (add_record r1 (add_record no_record r2) = add_record r1 r2) as ->
    by by rewrite add_record_assoc, add_record_no_record.
  assert (add_record t (add_record no_record r2) = add_record t r2) as ->
    by (rewrite add_record_assoc, add_record_no_record by apply add_record_ok; done).
  unfold t. by rewrite add_record_assoc.
Qed.
End Chunks.

(** ** The properties at concrete inputs *)
Section Witnesses.
#[local] Instance device : Platform := host_platform (Some 64%nat).

Definition sample_payload : list Z := [171; 0; 205].
Definition sample_output : list Z :=
  Eval vm_compute in
    match encode sample_envelope sample_payload (replicate 40 0) (replicate 48 0) with
    | Some (Ok (n, output)) => take n output
    | _ => []
    end.
Definition sample_segment : list Z := Eval vm_compute in take 40 sample_output.
(** The bytes of the frame, its first three and the rest. *)
Definition sample_bytes : list Z :=
  Eval vm_compute in frame_bytes sample_envelope sample_payload.
Definition sample_post : list Z := Eval vm_compute in drop 3 sample_bytes.
Definition damaged_segment : list Z :=
  Eval vm_compute in
    match cobs_encode ([1; 2; 5] ++ sample_post) (replicate 48 0) with
    | Some (Ok (n, output)) => take (n - 1) output
    | _ => []
    end.

Lemma sample_frame_ok : frame_ok sample_envelope sample_payload.
Proof. repeat split; try discriminate; repeat constructor; discriminate. Qed.

Lemma frame_roundtrip_witness :
  ∃ encoded tail,
    encode sample_envelope sample_payload (replicate 40 0) (replicate 48 0)
    = succeed (S (length encoded), encoded ++ 0 :: tail) ∧
    nonzero_bytes encoded ∧
    (S (length encoded) ≤ 41)%nat ∧
    ∀ scratch', (39 ≤ length scratch')%nat →
      decoded_of (decode encoded scratch')
      = succeed (mkDecoded (framed_envelope sample_envelope sample_payload) sample_payload).
Proof.
  apply (frame_roundtrip sample_envelope sample_payload (replicate 40 0) (replicate 48 0)
    sample_frame_ok); by apply Nat.leb_le.
Defined.

Lemma frame_decode_sound_witness :
  decoded_of (decode sample_segment (replicate 40 7))
  = succeed (mkDecoded (framed_envelope sample_envelope sample_payload) sample_payload) ∧
  frame_ok (framed_envelope sample_envelope sample_payload) sample_payload.
Proof.
  assert (decoded_of (decode sample_segment (replicate 40 7))
    = succeed (mkDecoded (framed_envelope sample_envelope sample_payload) sample_payload)) as H
    by (vm_compute; reflexivity).
  split; [exact H|].
  destruct (frame_decode_sound sample_segment (replicate 40 7)) as (result & Hdec & Hs);
    [repeat constructor; discriminate|].
  rewrite Hdec in H. destruct result as [[d scratch']|e]; [|discriminate H].
  assert (d = mkDecoded (framed_envelope sample_envelope sample_payload) sample_payload) as ->
    by (injection H as H; exact H).
  apply Hs.
Defined.

Lemma frame_burst_rejected_witness :
  decoded_of (decode damaged_segment (replicate 40 7))
  = fail (Remote.error SProtocolError Remote.IntegrityFailure Remote.FrameDecode).
Proof.
  apply (frame_burst_rejected sample_segment damaged_segment (replicate 40 7)
    (replicate 40 7) [] [1; 2; 4] [1; 2; 5] sample_post
    (mkDecoded (framed_envelope sample_envelope sample_payload) sample_payload)).
  - exists [7]. vm_compute. reflexivity.
  - exists [7]. vm_compute. reflexivity.
  - repeat constructor; discriminate.
  - repeat constructor; discriminate.
  - reflexivity.
  - by apply Nat.leb_le.
  - discriminate.
  - vm_compute. reflexivity.
Defined.

Lemma new_decoder_holds max size :
  (0 < max)%nat → holds max (replicate size 0) (new_stream_decoder max size) [].
Proof.
  intros. apply holds_idle; simpl; rewrite ?length_replicate; done.
Qed.

Lemma feed_refines_witness :
  ∃ d', feed (new_stream_decoder 40 40) ([9; 9; 0] ++ sample_output ++ [1; 2])
        = Some (d', mkFeedRecord 1 1 0, [delivered (sample_envelope, sample_payload)]) ∧
        pending_bytes d' = 2%nat.
Proof.
  pose proof (feed_refines 40 (replicate 40 0) (new_stream_decoder 40 40) []
    ([9; 9; 0] ++ sample_output ++ [1; 2])) as H.
  destruct H as (d' & Hf & Hd' & _).
  - apply new_decoder_holds. lia.
  - repeat constructor; discriminate.
  - exists d'. split; [rewrite Hf; vm_compute; reflexivity|].
    vm_compute in Hd'. by destruct Hd' as (_ & _ & _ & _ & ? & _).
Defined.

Lemma stream_delivers_witness :
  ∃ d', feed (new_stream_decoder 40 40) ([9; 0; 9] ++ [0] ++ concat [sample_output; sample_output])
        = Some (d', mkFeedRecord 2 2 0,
                [delivered (sample_envelope, sample_payload);
                 delivered (sample_envelope, sample_payload)]) ∧
        pending_bytes d' = 0%nat.
Proof.
  assert (transmits (sample_envelope, sample_payload) sample_output) as Ht.
  { exists (replicate 40 0), (replicate 48 0). eexists _, _. split; [apply sample_frame_ok|].
    split; [by apply Nat.leb_le|]. split; [by apply Nat.leb_le|].
    split; [vm_compute; reflexivity|]. vm_compute. reflexivity. }
  destruct (stream_delivers 40 (replicate 40 0) (new_stream_decoder 40 40) [] [9; 0; 9]
    [(sample_envelope, sample_payload); (sample_envelope, sample_payload)]
    [sample_output; sample_output]) as (d' & Hf & _ & Hp).
  - apply new_decoder_holds. lia.
  - repeat constructor; discriminate.
  - constructor; [exact Ht|constructor; [exact Ht|constructor]].
  - constructor; [|constructor; [|constructor]]; split; by apply Nat.leb_le.
  - exists d'. split; [rewrite Hf; vm_compute; reflexivity|exact Hp].
Defined.
End Witnesses.
