(* ===== verification/Packed.v ===== *)
(** * Packed: fixed-layout payloads

    Models [include/solar/remote/packed.hpp]: the little-endian layout of a
    structure whose fields are booleans, integers, enumerations and
    floating-point numbers.  The C++ templates are instantiated by a schema;
    here the schema is a list of members, and a structure is the list of its
    members' values.  An integer or enumeration value is its number, a
    boolean is 0 or 1, and a floating-point value is its IEEE bit pattern,
    so [std::bit_cast] is the identity. *)
From stdpp Require Import prelude.
From S2P Require Import Prelude Status Wire.

Open Scope Z_scope.
Open Scope solar_scope.

(** [wire_type_t<T>]: the width of an integer is its number of bytes. *)
Inductive Wire : Set :=
  | WBool | WUnsigned (size : nat) | WSigned (size : nat) | WFloat | WDouble.

(** A field's member: for a closed enumeration, the values its schema declares. *)
Record Member : Set := mkMember { wire : Wire; closed_values : option (list Z) }.

(** [sizeof(Bits)], which is also [sizeof(wire_type_t<T>)]. *)
Definition sizeof (w : Wire) : nat :=
  match w with
  | WBool => 1 | WUnsigned n => n | WSigned n => n | WFloat => 4 | WDouble => 8
  end.

Definition bits (w : Wire) (value : Z) : Z :=
  match w with
  | WFloat | WDouble => value
  | WBool => value
  | WUnsigned n => wrap (8 * Z.of_nat n) value
  | WSigned n => wrap (8 * Z.of_nat n) value
  end.

Definition from_bits (w : Wire) (value : Z) : Z :=
  match w with
  | WFloat | WDouble => value
  | WBool => if value =? 0 then 0 else 1
  | WUnsigned n => wrap (8 * Z.of_nat n) value
  | WSigned n =>
    let width := 8 * Z.of_nat n in
    let v := wrap width value in
    if v <? 2 ^ (width - 1) then v else v - 2 ^ width
  end.

Definition declared_enum_value (value : Z) (values : list Z) : bool :=
  existsb (Z.eqb value) values.

Definition admits (m : Member) (value : Z) : bool :=
  match closed_values m with
  | Some values => declared_enum_value value values
  | None => true
  end.

(** [write] and [read]: [Some (Some x)] is the result [true] with the new
    span, offset or value; [Some None] is the result [false]. *)
Definition write (m : Member) (value : Z) (output : list Z) (offset : nat) :
    option (option (list Z * nat)) :=
  if negb (admits m value) then Some None
  else if (length output <? offset + sizeof (wire m))%nat then Some None
  else
    output ← put_loop (sizeof (wire m)) 0 output offset (bits (wire m) value);
    Some (Some (output, (offset + sizeof (wire m))%nat)).

Definition read (m : Member) (input : list Z) (offset : nat) : option (option (Z * nat)) :=
  if (length input <? offset + sizeof (wire m))%nat then Some None
  else
    encoded ← get_loop (sizeof (wire m)) 0 input offset 0;
    let value := from_bits (wire m) encoded in
    if admits m value then Some (Some (value, (offset + sizeof (wire m))%nat)) else Some None.

(** The folds over the fields stop at the first [false]. *)
Fixpoint write_all (fields : list Member) (values : list Z) (output : list Z) (offset : nat) :
    option (option (list Z * nat)) :=
  match fields, values with
  | m :: fields, v :: values =>
    r ← write m v output offset;
    match r with
    | Some (output, offset) => write_all fields values output offset
    | None => Some None
    end
  | _, _ => Some (Some (output, offset))
  end.

Fixpoint read_all (fields : list Member) (input : list Z) (offset : nat) :
    option (option (list Z)) :=
  match fields with
  | [] => Some (Some [])
  | m :: fields =>
    r ← read m input offset;
    match r with
    | Some (v, offset) =>
      vs ← read_all fields input offset;
      Some (option_map (cons v) vs)
    | None => Some None
    end
  end.

Definition encoded_size (fields : list Member) : nat :=
  foldr (λ m n, (sizeof (wire m) + n)%nat) 0%nat fields.

Definition pack_no_space : Remote.Error := Remote.error SNoSpace Remote.NoSpace Remote.Pack.
Definition unpack_malformed : Remote.Error :=
  Remote.error SProtocolError Remote.Malformed Remote.Unpack.

Definition encode (fields : list Member) (value output : list Z) : Checked (nat * list Z) :=
  r ← write_all fields value output 0;
  match r with
  | Some (output, offset) => succeed (offset, output)
  | None => fail pack_no_space
  end.

Definition decode (fields : list Member) (input : list Z) : Checked (list Z) :=
  if negb (length input =? encoded_size fields)%nat then fail unpack_malformed else
  r ← read_all fields input 0;
  match r with
  | Some value => succeed value
  | None => fail unpack_malformed
  end.

(** ** The values a member can hold *)
Definition in_range (w : Wire) (v : Z) : Prop :=
  match w with
  | WBool => is_u 1 v
  | WUnsigned n => is_u (8 * Z.of_nat n) v
  | WSigned n =>
    (0 < n)%nat ∧ - 2 ^ (8 * Z.of_nat n - 1) ≤ v < 2 ^ (8 * Z.of_nat n - 1)
  | WFloat => is_u 32 v
  | WDouble => is_u 64 v
  end.
Definition member_ok (m : Member) (v : Z) : Prop := in_range (wire m) v ∧ admits m v = true.
Definition wire_ok (w : Wire) : Prop := match w with WSigned n => (0 < n)%nat | _ => True end.

Definition member_bytes (m : Member) (v : Z) : list Z :=
  le_bytes (sizeof (wire m)) (bits (wire m) v).

(** The layout of a structure. *)
Fixpoint layout (fields : list Member) (values : list Z) : list Z :=
  match fields, values with
  | m :: fields, v :: values => member_bytes m v ++ layout fields values
  | _, _ => []
  end.

Lemma signed_split n : (0 < n)%nat →
  2 ^ (8 * Z.of_nat n) = 2 * 2 ^ (8 * Z.of_nat n - 1) ∧ 0 < 2 ^ (8 * Z.of_nat n - 1).
Proof.
  intros. split; [|lia].
  replace (8 * Z.of_nat n) with (1 + (8 * Z.of_nat n - 1)) at 1 by lia.
  rewrite Z.pow_add_r by lia. done.
Qed.

Lemma bits_range w v : in_range w v → is_u (8 * Z.of_nat (sizeof w)) (bits w v).
Proof.
  destruct w as [|n|n| |]; cbn [bits in_range sizeof]; intros H.
  - unfold is_u in *. change (2 ^ (8 * Z.of_nat 1)) with 256. change (2 ^ 1) with 2 in H. lia.
  - apply wrap_range. lia.
  - apply wrap_range. lia.
  - exact H.
  - exact H.
Qed.

Lemma from_bits_bits w v : in_range w v → from_bits w (bits w v) = v.
Proof.
  destruct w as [|n|n| |]; cbn [bits in_range from_bits]; intros H; try done.
  - unfold is_u in H. change (2 ^ 1) with 2 in H. destruct (Z.eqb_spec v 0); lia.
  - by rewrite wrap_wrap, wrap_small.
  - destruct H as [Hn H]. destruct (signed_split n Hn) as [Hsplit Hpos].
    rewrite wrap_wrap. unfold wrap. destruct (Z.le_gt_cases 0 v).
    + rewrite Z.mod_small by lia. by rewrite (proj2 (Z.ltb_lt _ _)) by lia.
    + rewrite <-(Z_mod_plus_full v 1), Z.mod_small by lia.
      rewrite (proj2 (Z.ltb_ge _ _)) by lia. lia.
Qed.

Lemma from_bits_range w b :
  wire_ok w → is_u (8 * Z.of_nat (sizeof w)) b → in_range w (from_bits w b).
Proof.
  destruct w as [|n|n| |]; cbn [from_bits in_range sizeof wire_ok]; intros Hok H; try done.
  - by destruct (b =? 0).
  - apply wrap_range. lia.
  - destruct (signed_split n Hok) as [Hsplit Hpos]. rewrite wrap_small by done.
    unfold is_u in H. split; [done|]. destruct (Z.ltb_spec b (2 ^ (8 * Z.of_nat n - 1))); lia.
Qed.

Lemma bits_from_bits w b :
  w ≠ WBool → is_u (8 * Z.of_nat (sizeof w)) b → bits w (from_bits w b) = b.
Proof.
  destruct w as [|n|n| |]; cbn [bits from_bits sizeof]; intros Hw H; try done.
  - by rewrite wrap_wrap, wrap_small.
  - rewrite !(wrap_small _ b) by done. destruct (_ <? _); [by rewrite wrap_small|].
    unfold wrap. rewrite <-(Z_mod_plus_full _ 1), Z.mul_1_l.
    replace (b - 2 ^ (8 * Z.of_nat n) + 2 ^ (8 * Z.of_nat n)) with b by lia.
    by apply Z.mod_small.
Qed.

Lemma length_member_bytes m v : length (member_bytes m v) = sizeof (wire m).
Proof. apply length_le_bytes. Qed.

Lemma length_layout fields values :
  length fields = length values → length (layout fields values) = encoded_size fields.
Proof.
  revert values; induction fields as [|m fields IH]; intros [|v values] Hl; simplify_eq/=; [done|].
  rewrite length_app, length_member_bytes, IH; done.
Qed.

Lemma write_spec m v pre old post :
  admits m v = true → length old = sizeof (wire m) →
  write m v (pre ++ old ++ post) (length pre)
  = Some (Some (pre ++ member_bytes m v ++ post, (length pre + sizeof (wire m))%nat)).
Proof.
  intros Hadm Hl. unfold write. rewrite Hadm. cbn [negb].
  rewrite (proj2 (Nat.ltb_ge _ _)) by (rewrite !length_app; lia).
  rewrite put_loop_digits, Nat.add_0_r, <-le_bytes_digits.
  fold (member_bytes m v). by rewrite copy_to_app by (by rewrite length_member_bytes).
Qed.

Lemma read_spec m v pre post :
  member_ok m v →
  read m (pre ++ member_bytes m v ++ post) (length pre)
  = Some (Some (v, (length pre + sizeof (wire m))%nat)).
Proof.
  intros [Hr Hadm]. unfold read.
  rewrite (proj2 (Nat.ltb_ge _ _)) by (rewrite !length_app, length_member_bytes; lia).
  rewrite (get_loop_digits _ _ _ _ (bits (wire m) v)); [|..|done].
  - rewrite le_value_bytes by (by apply bits_range). cbn [mbind option_bind].
    rewrite Z.mul_0_r, Z.pow_0_r, Z.mul_1_l, Z.add_0_l, from_bits_bits by done.
    by rewrite Hadm.
  - rewrite Nat.add_0_r, drop_app_length.
    apply take_app_exact. symmetry. apply length_le_bytes.
Qed.

Lemma write_all_spec fields values pre old post :
  Forall2 (λ m v, admits m v = true) fields values → length old = encoded_size fields →
  write_all fields values (pre ++ old ++ post) (length pre)
  = Some (Some (pre ++ layout fields values ++ post,
                (length pre + encoded_size fields)%nat)).
Proof.
  intros Hall. revert pre old. induction Hall as [|m v fields values Hm _ IH];
    intros pre old Hl; cbn [write_all layout encoded_size foldr] in *.
  - destruct old; [|done]. by rewrite Nat.add_0_r.
  - fold (encoded_size fields) in *.
    destruct (split_length (sizeof (wire m)) (encoded_size fields) old)
      as (o1 & o2 & -> & H1 & H2); [done|].
    rewrite <-app_assoc, write_spec by done. cbn [mbind option_bind].
    rewrite app_assoc, <-(length_member_bytes m v), <-length_app, IH by done.
    rewrite length_app, length_member_bytes. by rewrite <-!app_assoc, Nat.add_assoc.
Qed.

Lemma read_all_spec fields values pre :
  Forall2 member_ok fields values →
  read_all fields (pre ++ layout fields values) (length pre) = Some (Some values).
Proof.
  intros Hall. revert pre. induction Hall as [|m v fields values Hm _ IH]; intros pre;
    cbn [read_all layout]; [done|].
  rewrite read_spec by done. cbn [mbind option_bind].
  by rewrite app_assoc, <-(length_member_bytes m v), <-length_app, IH.
Qed.

(** ** Failures *)
Lemma write_cases m v output offset :
  (admits m v = true ∧ (offset + sizeof (wire m) ≤ length output)%nat ∧
   ∃ output', write m v output offset
              = Some (Some (output', (offset + sizeof (wire m))%nat)) ∧
              length output' = length output) ∨
  ((admits m v = false ∨ (length output < offset + sizeof (wire m))%nat) ∧
   write m v output offset = Some None).
Proof.
  destruct (admits m v) eqn:Hadm; [|right; unfold write; rewrite Hadm; auto].
  destruct (decide (offset + sizeof (wire m) ≤ length output)%nat) as [Hle|Hgt]; cycle 1.
  { right. unfold write. rewrite Hadm, (proj2 (Nat.ltb_lt _ _)) by lia. split; [lia|done]. }
  left. split; [done|]. split; [done|].
  destruct (split_length offset (length output - offset) output)
    as (pre & o & -> & Hp & Ho); [lia|].
  destruct (split_length (sizeof (wire m)) (length o - sizeof (wire m)) o)
    as (old & post & -> & H1 & H2); [rewrite length_app in Hle; lia|].
  subst offset. rewrite write_spec by done. eexists. split; [done|].
  by rewrite !length_app, length_member_bytes, H1.
Qed.

(** The only reasons to refuse a structure. *)
Lemma write_all_refused fields values output offset :
  length fields = length values →
  ¬ (Forall2 (λ m v, admits m v = true) fields values ∧
     (offset + encoded_size fields ≤ length output)%nat) →
  (offset ≤ length output)%nat →
  write_all fields values output offset = Some None.
Proof.
  revert values output offset.
  induction fields as [|m fields IH]; intros [|v values] output offset Hl Hno Ho;
    simplify_eq/=.
  - destruct Hno. split; [constructor|lia].
  - fold (encoded_size fields) in Hno.
    destruct (write_cases m v output offset)
      as [(Hadm & Hle & output' & -> & Hlen)|[_ ->]]; [|done].
    cbn [mbind option_bind]. apply IH; [done| |lia].
    intros [Hall Hroom]. apply Hno. split; [by constructor|lia].
Qed.

Lemma read_cases m input offset :
  is_bytes input → wire_ok (wire m) → (offset + sizeof (wire m) ≤ length input)%nat →
  let encoded := le_value (take (sizeof (wire m)) (drop offset input)) in
  let v := from_bits (wire m) encoded in
  in_range (wire m) v ∧
  (wire m ≠ WBool → member_bytes m v = take (sizeof (wire m)) (drop offset input)) ∧
  read m input offset
  = Some (if admits m v then Some (v, (offset + sizeof (wire m))%nat) else None).
Proof.
  intros Hb Hw Hle encoded v.
  assert (length (take (sizeof (wire m)) (drop offset input)) = sizeof (wire m)) as Hl
    by (rewrite length_take, length_drop; lia).
  assert (is_bytes (take (sizeof (wire m)) (drop offset input))) as Hbs
    by auto using Forall_take, Forall_drop.
  pose proof (le_value_range _ Hbs) as Hr. rewrite Hl in Hr. fold encoded in Hr.
  split; [by apply from_bits_range|]. split.
  - intros Hnb. unfold member_bytes, v. rewrite bits_from_bits by done.
    rewrite <-Hl at 1. by apply le_bytes_value.
  - unfold read. rewrite (proj2 (Nat.ltb_ge _ _)) by lia.
    rewrite get_loop_value by done. cbn [mbind option_bind]. fold encoded. fold v.
    by destruct (admits m v).
Qed.

Lemma read_all_sound fields input offset :
  is_bytes input → Forall (λ m, wire_ok (wire m)) fields →
  (offset + encoded_size fields ≤ length input)%nat →
  ∃ r, read_all fields input offset = Some r ∧
    ∀ values, r = Some values →
      Forall2 member_ok fields values ∧
      (Forall (λ m, wire m ≠ WBool) fields →
       layout fields values = take (encoded_size fields) (drop offset input)).
Proof.
  intros Hb Hw. revert offset. induction Hw as [|m fields Hm _ IH]; intros offset Hle.
  { exists (Some []). split; [done|]. intros ? [= <-]. split; [constructor|].
    by rewrite take_0. }
  cbn [encoded_size foldr] in Hle |- *. fold (encoded_size fields) in *. cbn [read_all].
  destruct (read_cases m input offset Hb Hm ltac:(lia)) as (Hr & Hbytes & ->).
  cbn [mbind option_bind].
  set (v := from_bits (wire m) _) in *. destruct (admits m v) eqn:Hadm; [|by exists None].
  destruct (IH (offset + sizeof (wire m))%nat ltac:(lia)) as (r & -> & Hsound).
  eexists. split; [done|]. destruct r as [vs|]; [|done]. cbn [option_map].
  intros ? [= <-]. destruct (Hsound vs eq_refl) as [Hok Hlay]. split; [by constructor|].
  intros Hnb. apply Forall_cons_1 in Hnb as [Hn Hnb]. cbn [layout].
  rewrite Hlay, Hbytes by done. rewrite <-drop_drop.
  apply take_take_drop.
Qed.

(** ** Properties *)

(** A structure whose members hold values of their types, with every
    closed enumeration at a declared value, is packed into exactly
    [encoded_size] bytes, the rest of the output span untouched, and those
    bytes unpack to it; when the span is too small or a closed enumeration
    holds an undeclared value, packing answers [NoSpace]. *)
Theorem packed_roundtrip fields values output
    (Hfields : Forall2 (λ m v, in_range (wire m) v) fields values) :
  let admitted := Forall2 (λ m v, admits m v = true) fields values in
  let room := (encoded_size fields ≤ length output)%nat in
  (admitted ∧ room →
     encode fields values output
     = succeed (encoded_size fields,
                layout fields values ++ drop (encoded_size fields) output) ∧
     length (layout fields values) = encoded_size fields ∧
     decode fields (layout fields values) = succeed values) ∧
  (¬ (admitted ∧ room) → encode fields values output = fail pack_no_space).
Proof.
  cbv zeta. pose proof (Forall2_length _ _ _ Hfields) as Hl. split.
  - intros [Hadm Hroom].
    assert (Forall2 member_ok fields values) as Hok
      by (clear - Hfields Hadm; induction Hfields; inversion_clear Hadm;
          constructor; [split; done|auto]).
    pose proof (length_layout fields values Hl) as Hlay. split; [|split; [done|]].
    + destruct (split_length (encoded_size fields) (length output - encoded_size fields) output)
        as (old & post & -> & H1 & H2); [lia|].
      unfold encode. pose proof (write_all_spec fields values [] old post Hadm H1) as Hw.
      cbn [app length] in Hw. rewrite Hw. cbn [mbind option_bind]. unfold succeed.
      by rewrite drop_app_exact by done.
    + unfold decode. rewrite Hlay, Nat.eqb_refl. cbn [negb].
      pose proof (read_all_spec fields values [] Hok) as Hr. cbn [app length] in Hr.
      by rewrite Hr.
  - intros Hno. unfold encode. rewrite write_all_refused; [done|done| |lia]. exact Hno.
Qed.

(** Unpacking any bytes is defined; it succeeds only on exactly
    [encoded_size] bytes, then every member holds a value of its type and
    every closed enumeration a declared one; and when no member is a boolean
    (whose byte may be any non-zero one), packing the result gives back the
    input. *)
Theorem packed_decode_sound fields input
    (Hwires : Forall (λ m, wire_ok (wire m)) fields) (Hinput : is_bytes input) :
  decode fields input ≠ None ∧
  ∀ values, decode fields input = succeed values →
    length input = encoded_size fields ∧
    Forall2 member_ok fields values ∧
    (Forall (λ m, wire m ≠ WBool) fields → layout fields values = input).
Proof.
  unfold decode. destruct (Nat.eqb_spec (length input) (encoded_size fields)) as [Hl|];
    [|by split].
  cbn [negb]. destruct (read_all_sound fields input 0 Hinput Hwires) as (r & -> & Hr); [lia|].
  cbn [mbind option_bind]. destruct r as [vs|]; [|by split]. split; [done|].
  intros values [= <-]. destruct (Hr vs eq_refl) as [Hok Hlay]. split; [done|].
  split; [done|]. intros Hnb. rewrite Hlay by done. by rewrite drop_0, <-Hl, take_ge.
Qed.

Definition sample_fields : list Member :=
  [mkMember (WSigned 2) None; mkMember (WUnsigned 1) (Some [0; 3; 7]);
   mkMember WFloat None; mkMember (WUnsigned 8) None].
Definition sample_values : list Z := [-2; 7; 1069547520; 1000000].

Lemma packed_roundtrip_witness :
  encode sample_fields sample_values (replicate 16 0)
  = succeed (15%nat, layout sample_fields sample_values ++ [0]) ∧
  decode sample_fields (layout sample_fields sample_values) = succeed sample_values ∧
  encode sample_fields sample_values (replicate 14 0) = fail pack_no_space.
Proof.
  assert (Forall2 (λ m v, in_range (wire m) v) sample_fields sample_values) as H
    by (repeat constructor; simpl; (lia || discriminate)).
  assert (Forall2 (λ m v, admits m v = true) sample_fields sample_values) as Ha
    by (repeat constructor).
  destruct (packed_roundtrip sample_fields sample_values (replicate 16 0) H) as [Hyes _].
  destruct (packed_roundtrip sample_fields sample_values (replicate 14 0) H) as [_ Hno].
  destruct Hyes as (He & _ & Hd); [split; [exact Ha|by apply Nat.leb_le]|].
  split; [exact He|]. split; [exact Hd|]. apply Hno. intros [_ Hroom].
  apply Nat.leb_le in Hroom. discriminate Hroom.
Defined.

Lemma packed_decode_sound_witness :
  decode sample_fields (layout sample_fields sample_values) = succeed sample_values ∧
  Forall2 member_ok sample_fields sample_values.
Proof.
  assert (decode sample_fields (layout sample_fields sample_values) = succeed sample_values)
    as H by (vm_compute; reflexivity).
  split; [exact H|].
  apply (packed_decode_sound sample_fields (layout sample_fields sample_values));
    [repeat constructor| |exact H].
  vm_compute. repeat constructor; discriminate.
Defined.
