(* ===== verification/TypeGraph.v ===== *)
(** * TypeGraph: type lists and the component dependency graph

    Models the compile-time programs of [include/solar/core/type_list.hpp]
    and [include/solar/system/graph.hpp].  A [TypeList] is a list, a type is
    an element of a type with decidable equality ([std::is_same_v]), and a
    template without a matching specialisation or with a failed
    [static_assert] is [None] or [false].  The authored [Dependencies] of a
    component and the [generated_component_dependency] trait are arguments,
    because the templates are instantiated by the application. *)
From stdpp Require Import prelude.
From S2P Require Import Prelude.

(** ** Type lists *)
Section TypeList.
Context {T : Type} `{!EqDecision T}.

(** [Concat<Lists...>] joins the first two lists until one is left. *)
Fixpoint Concat_onto (types : list T) (rest : list (list T)) : list T :=
  match rest with
  | [] => types
  | next :: rest => Concat_onto (types ++ next) rest
  end.
Definition Concat (lists : list (list T)) : list T :=
  match lists with [] => [] | types :: rest => Concat_onto types rest end.

Definition count_v (needle : T) (types : list T) : nat :=
  foldr (λ t n, if decide (needle = t) then S n else n) 0 types.
Definition contains_v (needle : T) (types : list T) : bool := negb (count_v needle types =? 0).

Definition unique_types_v (types : list T) : bool :=
  forallb (λ t, count_v t types =? 1) types.

Fixpoint Unique (result remaining : list T) : list T :=
  match remaining with
  | [] => result
  | head :: tail =>
    if existsb (λ r, bool_decide (head = r)) result then Unique result tail
    else Unique (result ++ [head]) tail
  end.
Definition unique_t (types : list T) : list T := Unique [] types.

Fixpoint Filter (predicate : T → bool) (types : list T) : list T :=
  match types with
  | [] => []
  | head :: tail =>
    let filtered_tail := Filter predicate tail in
    if predicate head then Concat [[head]; filtered_tail] else filtered_tail
  end.

Fixpoint TypeAt (index : nat) (types : list T) : option T :=
  match index, types with
  | 0, head :: _ => Some head
  | S index, _ :: tail => TypeAt index tail
  | _, [] => None
  end.
End TypeList.

(** ** The component graph *)
Section Graph.
Context {T : Type} `{!EqDecision T}.
Context (Dependencies : T → list T).
Context (generated_component_dependency : T → T → list T → bool).

Fixpoint GeneratedDependencies (component : T) (candidates all : list T) : list T :=
  match candidates with
  | [] => []
  | head :: tail =>
    let remaining := GeneratedDependencies component tail all in
    if generated_component_dependency component head all
    then Concat [[head]; remaining] else remaining
  end.

Definition effective_dependencies_of (component : T) (all : list T) : list T :=
  unique_t (Concat [Dependencies component; GeneratedDependencies component all all]).

Definition ValidateComponentDependencies (component : T) (all : list T) : bool :=
  forallb (λ required, contains_v required all) (effective_dependencies_of component all).

(** [ValidateDependencyVisits], over the visit of one component. *)
Fixpoint ValidateDependencyVisits (visit : T → option bool) (dependencies : list T) :
    option bool :=
  match dependencies with
  | [] => Some true
  | head :: tail =>
    here ← visit head; there ← ValidateDependencyVisits visit tail; Some (here && there)
  end.

(** A path without repetition is no longer than the list of the components. *)
Fixpoint ValidateComponentVisit (fuel : nat) (all : list T) (component : T) (path : list T) :
    option bool :=
  match fuel with
  | 0 => None
  | S fuel =>
    if contains_v component path then Some false
    else ValidateDependencyVisits
           (λ head, ValidateComponentVisit fuel all head (Concat [path; [component]]))
           (effective_dependencies_of component all)
  end.

Definition ValidateComponentGraph (components : list T) : option bool :=
  if negb (unique_types_v components) then Some false
  else if negb (forallb (λ c, ValidateComponentDependencies c components) components)
  then Some false
  else ValidateDependencyVisits
         (λ c, ValidateComponentVisit (S (length components)) components c []) components.

Definition DependenciesSatisfied (dependencies sorted : list T) : bool :=
  forallb (λ d, contains_v d sorted) dependencies.

Fixpoint FirstReady (remaining sorted all : list T) : option T :=
  match remaining with
  | [] => None
  | head :: tail =>
    if DependenciesSatisfied (effective_dependencies_of head all) sorted then Some head
    else FirstReady tail sorted all
  end.

Fixpoint RemoveFirst (needle : T) (types : list T) : list T :=
  match types with
  | [] => []
  | head :: tail =>
    if decide (needle = head) then tail else Concat [[head]; RemoveFirst needle tail]
  end.

(** Each step removes one component, so the length is enough fuel. *)
Fixpoint TopologicalSort (fuel : nat) (remaining sorted all : list T) : option (list T) :=
  match remaining, fuel with
  | [], _ => Some sorted
  | _, 0 => None
  | _, S fuel =>
    ready ← FirstReady remaining sorted all;
    TopologicalSort fuel (RemoveFirst ready remaining) (Concat [sorted; [ready]]) all
  end.

Fixpoint ReverseList (types : list T) : list T :=
  match types with
  | [] => []
  | head :: tail => Concat [ReverseList tail; [head]]
  end.

(** [ComponentGraph<Components>]: the topological order and its reverse. *)
Definition ComponentGraph (components : list T) : option (list T * list T) :=
  valid ← ValidateComponentGraph components;
  if valid : bool then
    order ← TopologicalSort (length components) components [] components;
    Some (order, ReverseList order)
  else None.
End Graph.

(** ** The list programs compute the usual functions *)
Section ListSpec.
Context {T : Type} `{!EqDecision T}.
Implicit Types (l k : list T).

Lemma Concat_onto_concat l (ls : list (list T)) : Concat_onto l ls = l ++ concat ls.
Proof.
  revert l; induction ls as [|k ls IH]; intros l; simpl; [by rewrite app_nil_r|].
  by rewrite IH, app_assoc.
Qed.
Lemma Concat_concat (ls : list (list T)) : Concat ls = concat ls.
Proof. destruct ls; [done|]. apply Concat_onto_concat. Qed.
Lemma Concat_pair l k : Concat [l; k] = l ++ k.
Proof. done. Qed.

Lemma count_v_zero t l : count_v t l = 0 ↔ t ∉ l.
Proof.
  induction l as [|x l IH]; simpl; [by split; [intros _ ?%elem_of_nil|]|].
  rewrite not_elem_of_cons. destruct (decide (t = x)); [|by rewrite IH; split; [|tauto]].
  split; [done|]. by intros [? _].
Qed.

Lemma contains_v_elem t l : contains_v t l = true ↔ t ∈ l.
Proof.
  unfold contains_v. rewrite negb_true_iff, Nat.eqb_neq, count_v_zero.
  destruct (decide (t ∈ l)); tauto.
Qed.
Lemma contains_v_not_elem t l : contains_v t l = false ↔ t ∉ l.
Proof. by rewrite <-contains_v_elem, not_true_iff_false. Qed.

Lemma forallb_contains l k : forallb (λ t, contains_v t k) l = true ↔ ∀ t, t ∈ l → t ∈ k.
Proof.
  rewrite forallb_forall. setoid_rewrite contains_v_elem. by setoid_rewrite list_elem_of_In.
Qed.

Lemma count_v_one_nodup l : (∀ t, t ∈ l → count_v t l = 1) ↔ NoDup l.
Proof.
  induction l as [|x l IH]; simpl; [split; [constructor|by intros _ ? ?%elem_of_nil]|].
  rewrite NoDup_cons. split.
  - intros H. assert (x ∉ l) as Hx.
    { apply count_v_zero. specialize (H x). rewrite decide_True in H by done.
      assert (S (count_v x l) = 1) by (apply H, elem_of_cons; auto). lia. }
    split; [done|]. apply IH. intros t Ht. specialize (H t).
    rewrite decide_False in H by (intros ->; done). apply H, elem_of_cons. auto.
  - intros [Hx Hl] t Ht. destruct (decide (t = x)) as [->|Hne].
    + f_equal. by apply count_v_zero.
    + apply IH; [done|]. by apply elem_of_cons in Ht as [?|?].
Qed.
Lemma unique_types_v_nodup l : unique_types_v l = true ↔ NoDup l.
Proof.
  unfold unique_types_v. rewrite forallb_forall, <-count_v_one_nodup.
  setoid_rewrite Nat.eqb_eq. by setoid_rewrite list_elem_of_In.
Qed.

Lemma existsb_elem t l : existsb (λ r, bool_decide (t = r)) l = bool_decide (t ∈ l).
Proof.
  apply eq_true_iff_eq. rewrite existsb_exists, bool_decide_eq_true.
  setoid_rewrite bool_decide_eq_true. setoid_rewrite <-list_elem_of_In.
  split; [by intros (? & ? & ->)|by exists t].
Qed.

Lemma Unique_spec (result remaining : list T) :
  NoDup result →
  NoDup (Unique result remaining) ∧
  (∀ t, t ∈ Unique result remaining ↔ t ∈ result ∨ t ∈ remaining) ∧
  ∃ added, Unique result remaining = result ++ added ∧ sublist added remaining.
Proof.
  revert result; induction remaining as [|x l IH]; intros result Hr; simpl.
  - split; [done|]. split; [intros t; rewrite elem_of_nil; tauto|].
    exists []. by rewrite app_nil_r.
  - rewrite existsb_elem. case_bool_decide as Hx.
    + destruct (IH result Hr) as (? & Helem & added & ? & ?). split; [done|].
      split; [|exists added; split; [done|by constructor]].
      intros t. rewrite Helem, elem_of_cons. naive_solver.
    + destruct (IH (result ++ [x])) as (? & Helem & added & Heq & ?).
      { apply NoDup_app. split; [done|]. split; [|apply NoDup_singleton].
        by intros y Hy ->%list_elem_of_singleton. }
      split; [done|]. split; [|exists (x :: added); rewrite Heq, <-app_assoc; by split; [|constructor]].
      intros t. rewrite Helem, elem_of_app, list_elem_of_singleton, elem_of_cons. tauto.
Qed.
Lemma unique_t_nodup l : NoDup (unique_t l).
Proof. apply Unique_spec, NoDup_nil_2. Qed.
Lemma elem_of_unique_t t l : t ∈ unique_t l ↔ t ∈ l.
Proof.
  destruct (Unique_spec [] l) as (_ & H & _); [apply NoDup_nil_2|].
  unfold unique_t. rewrite H, elem_of_nil. tauto.
Qed.
End ListSpec.

(** ** Validation *)
Section GraphSpec.
Context {T : Type} `{!EqDecision T}.
Context (Dependencies : T → list T).
Context (generated : T → T → list T → bool).
Implicit Types (all path remaining sorted : list T).

Abbreviation deps c all := (effective_dependencies_of Dependencies generated c all).
(** [component] requires [required]. *)
Definition requires all (component required : T) : Prop := required ∈ deps component all.

Lemma elem_of_generated c candidates all t :
  t ∈ GeneratedDependencies generated c candidates all
  ↔ t ∈ candidates ∧ generated c t all = true.
Proof.
  induction candidates as [|x l IH]; simpl; [rewrite elem_of_nil; tauto|].
  rewrite elem_of_cons. destruct (generated c x all) eqn:Hg; cbn [Concat Concat_onto app];
    rewrite ?elem_of_cons, IH; [|].
  - split; [|tauto]. intros [->|?]; tauto.
  - split; [tauto|]. intros [[->|?] ?]; [congruence|done].
Qed.

(** What a component requires: what it declares and what is generated. *)
Lemma requires_spec all c d :
  requires all c d ↔ d ∈ Dependencies c ∨ (d ∈ all ∧ generated c d all = true).
Proof.
  unfold requires, effective_dependencies_of.
  by rewrite elem_of_unique_t, Concat_pair, elem_of_app, elem_of_generated.
Qed.

Definition registered all : Prop := ∀ c d, c ∈ all → requires all c d → d ∈ all.
Definition acyclic all : Prop := ∀ c, c ∈ all → ¬ tc (requires all) c c.

Lemma validate_dependencies_spec all :
  forallb (λ c, ValidateComponentDependencies Dependencies generated c all) all = true
  ↔ registered all.
Proof.
  rewrite forallb_forall. unfold registered, ValidateComponentDependencies.
  setoid_rewrite forallb_contains. setoid_rewrite <-list_elem_of_In.
  unfold requires. naive_solver.
Qed.

Abbreviation visit n all c path := (ValidateComponentVisit Dependencies generated n all c path).

Lemma visits_true f l :
  ValidateDependencyVisits f l = Some true ↔ ∀ t : T, t ∈ l → f t = Some true.
Proof.
  induction l as [|x l IH]; simpl; [split; [by intros _ ? ?%elem_of_nil|done]|].
  split.
  - destruct (f x) as [[]|] eqn:Hx; simpl; [|by destruct (ValidateDependencyVisits f l)|done].
    destruct (ValidateDependencyVisits f l) as [[]|]; [|done..]. simpl.
    intros _ t [->|Ht]%elem_of_cons; [done|]. by apply IH.
  - intros H. rewrite H by (apply elem_of_cons; auto). simpl.
    rewrite (proj2 IH); [done|]. intros t Ht. apply H, elem_of_cons. auto.
Qed.

Lemma visit_true n all c path :
  visit n all c path = Some true →
  ∃ m, n = S m ∧ c ∉ path ∧
    ∀ d, requires all c d → visit m all d (path ++ [c]) = Some true.
Proof.
  destruct n as [|m]; simpl; [done|]. intros H. exists m. split; [done|].
  destruct (contains_v c path) eqn:Hc; [done|]. split; [by apply contains_v_not_elem|].
  by apply visits_true.
Qed.

(** A visit that passes has followed every chain of requirements. *)
Lemma visit_walk all c d n path :
  tc (requires all) c d → visit n all c path = Some true →
  ∃ m path', visit m all d path' = Some true ∧ ∀ x, x ∈ path ++ [c] → x ∈ path'.
Proof.
  intros Hwalk. revert n path.
  induction Hwalk as [c d Hcd|c c' d Hcc' Hwalk IH]; intros n path Hv;
    destruct (visit_true n all c path Hv) as (m & -> & _ & Hd).
  - exists m, (path ++ [c]). split; [by apply Hd|done].
  - destruct (IH m (path ++ [c]) (Hd c' Hcc')) as (m' & path' & Hv' & Hin).
    exists m', path'. split; [done|]. intros x Hx. apply Hin, elem_of_app. auto.
Qed.

Lemma visit_acyclic all c n :
  visit n all c [] = Some true → ¬ tc (requires all) c c.
Proof.
  intros Hv Hwalk. destruct (visit_walk all c c n [] Hwalk Hv) as (m & path & Hv' & Hin).
  destruct (visit_true m all c path Hv') as (_ & _ & Hc & _).
  apply Hc, Hin. by apply list_elem_of_singleton.
Qed.

Lemma visits_defined f l (P : Prop) :
  (∀ t : T, t ∈ l → ∃ b, f t = Some b ∧ (b = false → P)) →
  ∃ b, ValidateDependencyVisits f l = Some b ∧ (b = false → P).
Proof.
  induction l as [|x l IH]; intros H; simpl; [by exists true|].
  destruct (H x) as (b & -> & Hb); [apply elem_of_cons; auto|].
  destruct IH as (b' & -> & Hb'); [intros t Ht; apply H, elem_of_cons; auto|].
  exists (b && b'). split; [done|]. destruct b, b'; auto.
Qed.

(** The fuel is enough, and a visit fails only at a cycle. *)
Lemma visit_defined all n c path :
  registered all → NoDup path → (∀ x, x ∈ path → x ∈ all ∧ tc (requires all) x c) →
  c ∈ all → S (length all) ≤ n + length path →
  ∃ b, visit n all c path = Some b ∧
       (b = false → ∃ y, y ∈ all ∧ tc (requires all) y y).
Proof.
  intros Hreg. revert c path. induction n as [|n IH]; intros c path Hnd Hpath Hc Hn.
  { assert (length path ≤ length all); [|simpl in Hn; lia].
    apply submseteq_length, NoDup_submseteq; [done|]. intros x Hx. by apply Hpath. }
  cbn [ValidateComponentVisit]. destruct (contains_v c path) eqn:Hin.
  { exists false. split; [done|]. intros _. exists c. split; [done|].
    by apply Hpath, contains_v_elem. }
  apply contains_v_not_elem in Hin. apply visits_defined. intros d Hd. apply IH.
  - apply NoDup_app. split; [done|]. split; [|apply NoDup_singleton].
    intros x Hx Hx'. apply list_elem_of_singleton in Hx'. by subst.
  - intros x Hx. apply elem_of_app in Hx as [Hx|Hx].
    + destruct (Hpath x Hx) as [? Hw]. split; [done|]. eapply tc_r; [exact Hw|exact Hd].
    + apply list_elem_of_singleton in Hx. subst. split; [done|]. by apply tc_once.
  - by eapply Hreg.
  - cbn [Concat Concat_onto]. rewrite length_app. simpl. lia.
Qed.

Lemma validate_graph_spec all :
  ∃ b, ValidateComponentGraph Dependencies generated all = Some b ∧
       (b = true ↔ NoDup all ∧ registered all ∧ acyclic all) ∧
       (b = true → ∀ c, c ∈ all → ∃ n, visit n all c [] = Some true).
Proof.
  unfold ValidateComponentGraph.
  destruct (unique_types_v all) eqn:Hu; simpl; cycle 1.
  { exists false. rewrite <-unique_types_v_nodup. split; [done|]. split; [|done].
    split; [done|]. intros [??]. congruence. }
  apply unique_types_v_nodup in Hu.
  destruct (forallb _ all) eqn:Hr; simpl; cycle 1.
  { exists false. rewrite <-validate_dependencies_spec. split; [done|]. split; [|done].
    split; [done|]. intros (_ & ? & _). congruence. }
  pose proof (proj1 (validate_dependencies_spec all) Hr) as Hreg.
  destruct (visits_defined (λ c, visit (S (length all)) all c []) all
    (∃ y, y ∈ all ∧ tc (requires all) y y)) as (b & Hb & Hcycle).
  { intros c Hc. apply visit_defined; [done|apply NoDup_nil_2| |done|simpl; lia].
    intros ? Hx. by apply elem_of_nil in Hx. }
  exists b. split; [done|]. split.
  - split.
    + intros ->. split; [done|]. split; [done|]. intros c Hc.
      eapply visit_acyclic. by apply (proj1 (visits_true _ _) Hb).
    + intros (_ & _ & Hac). destruct b; [done|].
      destruct Hcycle as (y & Hy & Hcyc); [done|]. by apply Hac in Hcyc.
  - intros -> c Hc. eexists. by apply (proj1 (visits_true _ _) Hb).
Qed.

(** ** The sort *)
Abbreviation ready c sorted all :=
  (DependenciesSatisfied (deps c all) sorted).

Lemma ready_spec all c sorted :
  ready c sorted all = true ↔ ∀ d, requires all c d → d ∈ sorted.
Proof. unfold DependenciesSatisfied. by rewrite forallb_contains. Qed.

(** Among components that are not sorted yet, one is ready: a visit that
    starts at any of them reaches it. *)
Lemma some_ready all remaining sorted n c path :
  (∀ x, x ∈ all ↔ x ∈ sorted ∨ x ∈ remaining) → registered all →
  visit n all c path = Some true → c ∈ remaining →
  ∃ r, r ∈ remaining ∧ ready r sorted all = true.
Proof.
  intros Hall Hreg. revert c path. induction n as [|n IH]; intros c path Hv Hc; [done|].
  destruct (visit_true _ _ _ _ Hv) as (m & [= <-] & _ & Hd).
  destruct (ready c sorted all) eqn:Hrdy; [by exists c|].
  destruct (decide (Exists (λ d, d ∉ sorted) (deps c all))) as [Hex|Hno].
  - apply Exists_exists in Hex as (d & Hdep & Hns). apply (IH d (path ++ [c])); [by apply Hd|].
    assert (d ∈ all) as Hda by (eapply Hreg, Hdep; apply Hall; auto).
    apply Hall in Hda. tauto.
  - rewrite (proj2 (ready_spec all c sorted)) in Hrdy; [done|].
    intros d Hdep. destruct (decide (d ∈ sorted)); [done|].
    destruct Hno. apply Exists_exists. eauto.
Qed.

Lemma FirstReady_some remaining sorted all r :
  FirstReady Dependencies generated remaining sorted all = Some r →
  r ∈ remaining ∧ ready r sorted all = true.
Proof.
  induction remaining as [|x l IH]; simpl; [done|].
  case_match eqn:Hx; [intros [= <-]|intros H; destruct (IH H)];
    split; try done; apply elem_of_cons; auto.
Qed.
Lemma FirstReady_defined remaining sorted all r :
  r ∈ remaining → ready r sorted all = true →
  is_Some (FirstReady Dependencies generated remaining sorted all).
Proof.
  intros Hr Hrdy. induction Hr as [r l|r x l _ IH]; simpl; [by rewrite Hrdy|].
  case_match; [done|]. by apply IH.
Qed.

Lemma RemoveFirst_perm (r : T) l : r ∈ l → l ≡ₚ r :: RemoveFirst r l.
Proof.
  induction 1 as [r l|r x l _ IH]; simpl; [by rewrite decide_True|].
  destruct (decide (r = x)) as [->|]; [done|]. cbn [Concat Concat_onto app].
  by rewrite Permutation_swap, <-IH.
Qed.

(** Every component is listed after what it requires. *)
Definition ordered all (order : list T) : Prop :=
  ∀ before c after, order = before ++ c :: after → ∀ d, requires all c d → d ∈ before.

Lemma ordered_snoc all sorted c :
  ordered all sorted → ready c sorted all = true → ordered all (sorted ++ [c]).
Proof.
  intros Hord Hrdy before x after Heq d Hd.
  destruct (decide (after = [])) as [->|Hne].
  - apply app_inj_2 in Heq as [<- [= <-]]; [|done]. by eapply ready_spec.
  - destruct (exists_last Hne) as (after' & y & ->).
    change (before ++ x :: after' ++ [y]) with (before ++ (x :: after') ++ [y]) in Heq.
    rewrite app_assoc in Heq. apply app_inj_2 in Heq as [Heq _]; [|done].
    by eapply (Hord before x after').
Qed.

Lemma TopologicalSort_spec n all remaining sorted :
  (∀ c, c ∈ all → ∃ n, visit n all c [] = Some true) → registered all →
  sorted ++ remaining ≡ₚ all → ordered all sorted → length remaining ≤ n →
  ∃ order, TopologicalSort Dependencies generated n remaining sorted all = Some order ∧
    order ≡ₚ all ∧ ordered all order.
Proof.
  intros Hvalid Hreg. revert remaining sorted.
  induction n as [|n IH]; intros remaining sorted Hperm Hord Hn;
    (destruct remaining as [|c l]; [exists sorted; rewrite app_nil_r in Hperm; done|]);
    [simpl in Hn; lia|].
  assert (∀ x, x ∈ all ↔ x ∈ sorted ∨ x ∈ c :: l) as Hall
    by (intros x; rewrite <-Hperm; apply elem_of_app).
  destruct (Hvalid c) as [m Hv]; [apply Hall; right; apply elem_of_cons; auto|].
  destruct (some_ready all (c :: l) sorted m c [] Hall Hreg Hv) as (r & Hr & Hrdy);
    [apply elem_of_cons; auto|].
  destruct (FirstReady_defined _ _ _ _ Hr Hrdy) as [r' Hr'].
  cbn [TopologicalSort]. rewrite Hr'. cbn [mbind option_bind].
  destruct (FirstReady_some _ _ _ _ Hr') as [Hin Hrdy'].
  pose proof (RemoveFirst_perm r' (c :: l) Hin) as Hrem.
  apply IH.
  - rewrite Concat_pair, <-app_assoc. cbn [app]. by rewrite <-Hrem.
  - by apply ordered_snoc.
  - apply Permutation_length in Hrem. simpl in Hrem, Hn |- *. lia.
Qed.

(** The first component of a list that is already in order is ready. *)
Lemma TopologicalSort_stable n all remaining sorted :
  ordered all (sorted ++ remaining) → length remaining ≤ n →
  TopologicalSort Dependencies generated n remaining sorted all = Some (sorted ++ remaining).
Proof.
  revert remaining sorted. induction n as [|n IH]; intros [|c l] sorted Hord Hn;
    rewrite ?app_nil_r; [done|simpl in Hn; lia|done|].
  cbn [TopologicalSort FirstReady].
  rewrite (proj2 (ready_spec all c sorted)) by (intros d Hd; by eapply (Hord sorted c l)).
  cbn [mbind option_bind RemoveFirst]. rewrite decide_True, Concat_pair by done.
  rewrite IH; rewrite <-?app_assoc; [done|done|simpl in Hn; lia].
Qed.

Lemma ReverseList_reverse (l : list T) : ReverseList l = reverse l.
Proof.
  induction l as [|x l IH]; [done|]. simpl. rewrite IH, reverse_cons. done.
Qed.

(** What a component graph that was built provides. *)
Lemma ComponentGraph_facts all order backwards :
  ComponentGraph Dependencies generated all = Some (order, backwards) →
  order ≡ₚ all ∧ NoDup order ∧ ordered all order ∧ backwards = reverse order ∧
  registered all ∧
  TopologicalSort Dependencies generated (length all) all [] all = Some order.
Proof.
  unfold ComponentGraph. intros Hgraph.
  destruct (validate_graph_spec all) as (b & Hb & Hspec & Hv).
  rewrite Hb in Hgraph. cbn [mbind option_bind] in Hgraph. destruct b; [|done].
  destruct (proj1 Hspec eq_refl) as (Hnd & Hreg & _).
  destruct (TopologicalSort_spec (length all) all all [])
    as (order' & Hsort & Hperm & Hord); [by auto|done|done|by intros [|]|done|].
  rewrite Hsort in Hgraph. cbn [mbind option_bind] in Hgraph. injection Hgraph as -> <-.
  split; [done|]. split; [by rewrite Hperm|]. split; [done|].
  by rewrite ReverseList_reverse.
Qed.
End GraphSpec.

(** ** Properties *)
Section Properties.
Context {T : Type} `{!EqDecision T}.
Context (Dependencies : T → list T).
Context (generated : T → T → list T → bool).

(** C8: building the component graph always terminates, and it succeeds
    exactly for a list of distinct components in which every required
    component is registered and no chain of requirements returns to its
    start. *)
Theorem graph_accepted all :
  ValidateComponentGraph Dependencies generated all ≠ None ∧
  (is_Some (ComponentGraph Dependencies generated all)
   ↔ NoDup all ∧ registered Dependencies generated all ∧ acyclic Dependencies generated all).
Proof.
  destruct (validate_graph_spec Dependencies generated all) as (b & Hb & Hspec & Hv).
  unfold ComponentGraph. rewrite Hb. split; [done|]. cbn [mbind option_bind].
  rewrite <-Hspec. destruct b; [|split; [by intros []|done]].
  split; [done|]. intros _. destruct (proj1 Hspec eq_refl) as (_ & Hreg & _).
  destruct (TopologicalSort_spec Dependencies generated (length all) all all [])
    as (order & -> & _); [by auto|done|done| |done|by eexists].
  by intros [|].
Qed.

(** C7: the topological order of a component graph lists each component once
    and after everything it requires; the reverse order lists each component
    before everything it requires; and components the application already
    lists in a valid order keep that order. *)
Theorem graph_order all order backwards
    (Hgraph : ComponentGraph Dependencies generated all = Some (order, backwards)) :
  order ≡ₚ all ∧ NoDup order ∧ ordered Dependencies generated all order ∧
  backwards = reverse order ∧
  (∀ before c after, backwards = before ++ c :: after →
     ∀ d, requires Dependencies generated all c d → d ∈ after) ∧
  (ordered Dependencies generated all all → order = all).
Proof.
  destruct (ComponentGraph_facts _ _ _ _ _ Hgraph)
    as (Hperm & Hnd & Hord & -> & _ & Hsort).
  split; [done|]. split; [done|]. split; [done|]. split; [done|]. split.
  - intros before c after Heq d Hd. apply elem_of_reverse.
    apply (Hord (reverse after) c (reverse before)); [|done].
    rewrite <-(reverse_involutive order), Heq, reverse_app, reverse_cons, <-app_assoc. done.
  - intros Hall. rewrite (TopologicalSort_stable _ _ _ all all []) in Hsort by done.
    by injection Hsort as <-.
Qed.
End Properties.

(** A graph with declared and generated dependencies, and one with a cycle. *)
Definition sample_dependencies (c : nat) : list nat :=
  match c with 0 => [2] | 1 => [0; 2] | _ => [] end.
Definition sample_generated (c d : nat) (all : list nat) : bool := (c =? 0) && (d =? 3).

Lemma graph_order_witness :
  ComponentGraph sample_dependencies sample_generated [1; 0; 2; 3]
  = Some ([2; 3; 0; 1], [1; 0; 3; 2]) ∧
  ordered sample_dependencies sample_generated [1; 0; 2; 3] [2; 3; 0; 1].
Proof.
  assert (ComponentGraph sample_dependencies sample_generated [1; 0; 2; 3]
    = Some ([2; 3; 0; 1], [1; 0; 3; 2])) as H by (vm_compute; reflexivity).
  split; [exact H|].
  apply (graph_order sample_dependencies sample_generated [1; 0; 2; 3] [2; 3; 0; 1] [1; 0; 3; 2] H).
Defined.

Example graph_cycle :
  ComponentGraph (λ c : nat, [(c + 1) `mod` 3]) (λ _ _ _, false) [0; 1; 2] = None.
Proof. reflexivity. Qed.
