(* ===== verification/Lifecycle.v ===== *)
(** * Lifecycle: booting and stopping a system of components

    Models [include/solar/lifecycle/types.hpp], [hooks.hpp], [protocol.hpp]
    and [engine.hpp].  A component is its index in the records; the graph's
    orders come from TypeGraph.  The application's hooks, the execution
    protocols, the catalogs and the records mutex are code the engine calls:
    [System] gives their answers as functions of the trace of calls made so
    far, so an answer may depend on everything the engine has done.  Between
    two calls other threads may deliver [report_execution_failure]. *)
From stdpp Require Import prelude.
From S2P Require Import Prelude Status TypeGraph.

Open Scope nat_scope.

(** ** Types *)
Inductive SystemState : Set :=
  | Dormant | Initializing | Starting | Running | Stopping | Deinitializing | RollingBack
  | Stopped | Failed.
#[export] Instance SystemState_eq_dec : EqDecision SystemState.
Proof. solve_decision. Defined.

Inductive ComponentState : Set :=
  | CRegistered | CInitializing | CInitialized | CStarting | CRunning | CStopping | CStopped
  | CDeinitializing | CDeinitialized | CFailed.

Inductive ComponentCategory : Set := Device | Facility | Service | Executor.

Inductive Operation : Set :=
  | ONone | OInit | OStart | OPrepareExecution | OValidateExecution | OActivateExecution
  | ORequestExecutionStop | OContainExecution | OStop | ODeinit.
#[export] Instance Operation_eq_dec : EqDecision Operation.
Proof. solve_decision. Defined.

Inductive HookOutcome : Set := NotPresent | NotAttempted | Succeeded | HookFailed.
Record HookRecord : Set := mkHook { outcome : HookOutcome; hook_status : Status; hook_attempts : Z }.

Record Failure : Set := mkFailure {
  failed_component : nat; failed_category : ComponentCategory; operation : Operation;
  status : Status; primary : bool }.
Definition not_primary (f : Failure) : Failure :=
  mkFailure (failed_component f) (failed_category f) (operation f) (status f) false.
Definition as_primary (f : Failure) : Failure :=
  mkFailure (failed_component f) (failed_category f) (operation f) (status f) true.

Record ComponentRecord : Set := mkRecord {
  local_id : nat;
  component_category : ComponentCategory;
  state : ComponentState;
  init : HookRecord;
  start : HookRecord;
  stop_hook : HookRecord;
  deinit : HookRecord;
  last_operation : Operation;
  last_status : Status;
  first_failure : option Failure;
  transitions : Z;
  attempts : Z;
  init_succeeded : bool;
  start_succeeded : bool;
  execution_prepared : bool;
  execution_contained : bool;
  cleanup_blocked : bool }.

Definition set_state (x : ComponentState) (r : ComponentRecord) : ComponentRecord :=
  mkRecord (local_id r) (component_category r) x (init r) (start r) (stop_hook r) (deinit r)
    (last_operation r) (last_status r) (first_failure r) (transitions r) (attempts r)
    (init_succeeded r) (start_succeeded r) (execution_prepared r) (execution_contained r)
    (cleanup_blocked r).
Definition set_init (x : HookRecord) (r : ComponentRecord) : ComponentRecord :=
  mkRecord (local_id r) (component_category r) (state r) x (start r) (stop_hook r)
    (deinit r) (last_operation r) (last_status r) (first_failure r) (transitions r)
    (attempts r) (init_succeeded r) (start_succeeded r) (execution_prepared r)
    (execution_contained r) (cleanup_blocked r).
Definition set_start (x : HookRecord) (r : ComponentRecord) : ComponentRecord :=
  mkRecord (local_id r) (component_category r) (state r) (init r) x (stop_hook r) (deinit r)
    (last_operation r) (last_status r) (first_failure r) (transitions r) (attempts r)
    (init_succeeded r) (start_succeeded r) (execution_prepared r) (execution_contained r)
    (cleanup_blocked r).
Definition set_stop (x : HookRecord) (r : ComponentRecord) : ComponentRecord :=
  mkRecord (local_id r) (component_category r) (state r) (init r) (start r) x (deinit r)
    (last_operation r) (last_status r) (first_failure r) (transitions r) (attempts r)
    (init_succeeded r) (start_succeeded r) (execution_prepared r) (execution_contained r)
    (cleanup_blocked r).
Definition set_deinit (x : HookRecord) (r : ComponentRecord) : ComponentRecord :=
  mkRecord (local_id r) (component_category r) (state r) (init r) (start r) (stop_hook r) x
    (last_operation r) (last_status r) (first_failure r) (transitions r) (attempts r)
    (init_succeeded r) (start_succeeded r) (execution_prepared r) (execution_contained r)
    (cleanup_blocked r).
Definition set_last_operation (x : Operation) (r : ComponentRecord) : ComponentRecord :=
  mkRecord (local_id r) (component_category r) (state r) (init r) (start r) (stop_hook r)
    (deinit r) x (last_status r) (first_failure r) (transitions r) (attempts r)
    (init_succeeded r) (start_succeeded r) (execution_prepared r) (execution_contained r)
    (cleanup_blocked r).
Definition set_last_status (x : Status) (r : ComponentRecord) : ComponentRecord :=
  mkRecord (local_id r) (component_category r) (state r) (init r) (start r) (stop_hook r)
    (deinit r) (last_operation r) x (first_failure r) (transitions r) (attempts r)
    (init_succeeded r) (start_succeeded r) (execution_prepared r) (execution_contained r)
    (cleanup_blocked r).
Definition set_first_failure (x : option Failure) (r : ComponentRecord) : ComponentRecord :=
  mkRecord (local_id r) (component_category r) (state r) (init r) (start r) (stop_hook r)
    (deinit r) (last_operation r) (last_status r) x (transitions r) (attempts r)
    (init_succeeded r) (start_succeeded r) (execution_prepared r) (execution_contained r)
    (cleanup_blocked r).
Definition set_transitions (x : Z) (r : ComponentRecord) : ComponentRecord :=
  mkRecord (local_id r) (component_category r) (state r) (init r) (start r) (stop_hook r)
    (deinit r) (last_operation r) (last_status r) (first_failure r) x (attempts r)
    (init_succeeded r) (start_succeeded r) (execution_prepared r) (execution_contained r)
    (cleanup_blocked r).
Definition set_attempts (x : Z) (r : ComponentRecord) : ComponentRecord :=
  mkRecord (local_id r) (component_category r) (state r) (init r) (start r) (stop_hook r)
    (deinit r) (last_operation r) (last_status r) (first_failure r) (transitions r) x
    (init_succeeded r) (start_succeeded r) (execution_prepared r) (execution_contained r)
    (cleanup_blocked r).
Definition set_init_succeeded (x : bool) (r : ComponentRecord) : ComponentRecord :=
  mkRecord (local_id r) (component_category r) (state r) (init r) (start r) (stop_hook r)
    (deinit r) (last_operation r) (last_status r) (first_failure r) (transitions r)
    (attempts r) x (start_succeeded r) (execution_prepared r) (execution_contained r)
    (cleanup_blocked r).
Definition set_start_succeeded (x : bool) (r : ComponentRecord) : ComponentRecord :=
  mkRecord (local_id r) (component_category r) (state r) (init r) (start r) (stop_hook r)
    (deinit r) (last_operation r) (last_status r) (first_failure r) (transitions r)
    (attempts r) (init_succeeded r) x (execution_prepared r) (execution_contained r)
    (cleanup_blocked r).
Definition set_execution_prepared (x : bool) (r : ComponentRecord) : ComponentRecord :=
  mkRecord (local_id r) (component_category r) (state r) (init r) (start r) (stop_hook r)
    (deinit r) (last_operation r) (last_status r) (first_failure r) (transitions r)
    (attempts r) (init_succeeded r) (start_succeeded r) x (execution_contained r)
    (cleanup_blocked r).
Definition set_execution_contained (x : bool) (r : ComponentRecord) : ComponentRecord :=
  mkRecord (local_id r) (component_category r) (state r) (init r) (start r) (stop_hook r)
    (deinit r) (last_operation r) (last_status r) (first_failure r) (transitions r)
    (attempts r) (init_succeeded r) (start_succeeded r) (execution_prepared r) x
    (cleanup_blocked r).
Definition set_cleanup_blocked (x : bool) (r : ComponentRecord) : ComponentRecord :=
  mkRecord (local_id r) (component_category r) (state r) (init r) (start r) (stop_hook r)
    (deinit r) (last_operation r) (last_status r) (first_failure r) (transitions r)
    (attempts r) (init_succeeded r) (start_succeeded r) (execution_prepared r)
    (execution_contained r) x.

(** [entries] are the retained failures: the array up to [retained]. *)
Record FailureDetails : Set := mkDetails { entries : list Failure; total : nat }.
Definition no_failures : FailureDetails := mkDetails [] 0.
Definition truncated (d : FailureDetails) : bool := length (entries d) <? total d.

(** The counters the execution part of a shutdown fills in: the fields
    [StopReport] and [RollbackReportAdapter] share. *)
Record ExecutionReport : Set := mkExecution {
  clean_exits : nat; forced_exits : nat; join_timeouts : nat; abort_attempts : nat;
  abort_failures : nat; uncontained_execution : nat; preserved_dependencies : nat;
  failures : FailureDetails }.

Record BootReport : Set := mkBootReport {
  boot_initial_state : SystemState; boot_final_state : SystemState;
  initialization_completed : bool; start_completed : bool;
  primary_failure : option Failure;
  initialized_components : nat; started_components : nat;
  rollback_attempted : bool; rollback_completed : bool;
  cleanup_failures : FailureDetails; boot_uncontained_execution : nat;
  boot_preserved_dependencies : nat }.

Inductive BootErrorReason : Set :=
  | BootBusy | AlreadyRunning | RebootUnsupported | ComponentFailure | ExecutionFailure
  | BootInternalInvariant.
Record BootError : Set := mkBootError {
  boot_reason : BootErrorReason; boot_status : Status; boot_failure : option Failure }.

Record StopReport : Set := mkStopReport {
  stop_initial_state : SystemState; stop_final_state : SystemState;
  stopped_components : nat; deinitialized_components : nat; execution : ExecutionReport }.

Inductive StopErrorReason : Set := StopBusy | InvalidState | ShutdownFailed | StopInternalInvariant.
Record StopError : Set := mkStopError {
  stop_reason : StopErrorReason; stop_status : Status; stop_failure : option Failure }.

Record Containment : Set := mkContainment {
  containment_status : Status; contained : bool; forced : bool; timed_out : bool;
  abort_attempted : bool; abort_failed : bool }.

(** ** Calls the engine makes

    A result is [None] for success and [Some status] for an error, as
    [normalize] reduces it.  The events of a component without the hook, or
    without execution, have the result of [invoke_*], success. *)
Inductive Event : Set :=
  | EInit (c : nat) (r : option Status) | EStart (c : nat) (r : option Status)
  | EStop (c : nat) (r : option Status) | EDeinit (c : nat) (r : option Status)
  | EPrepare (c : nat) (r : option Status) | EValidate (c : nat) (r : option Status)
  | EActivate (c : nat) | ERequestStop (c : nat) (r : option Status)
  | EContain (c : nat) (k : Containment)
  | ESystemPrepare (r : option Status) | ESystemValidate (r : option Status)
  | ESystemActivate | ESystemRequestStop (r : option Status) | ESystemContain (k : Containment)
  | ECommit (catalog : nat) (r : option Status) | EActivateCatalog (catalog : nat).

Class System := {
  component_count : nat;
  (** [System::Graph] *)
  topological_order : list nat;
  reverse_topological_order : list nat;
  dependencies_of : nat → list nat;
  category : nat → ComponentCategory;
  has_init : nat → bool; has_start : nat → bool; has_stop : nat → bool; has_deinit : nat → bool;
  (** [ExecutionProtocol<System, Component>::participates] *)
  participates : nat → bool;
  system_participates : bool;
  (** The catalogs whose activation protocol participates. *)
  catalogs : list nat;
  report_failure_capacity : nat;
  (** Answers of the code the engine calls, after a trace. *)
  init_hook : list Event → nat → option Status;
  start_hook : list Event → nat → option Status;
  stop_hook_result : list Event → nat → option Status;
  deinit_hook : list Event → nat → option Status;
  prepare : list Event → nat → option Status;
  validate_activation : list Event → nat → option Status;
  request_stop : list Event → nat → option Status;
  contain : list Event → nat → Containment;
  uncontained_dependencies : list Event → nat → list nat;
  system_prepare : list Event → option Status;
  system_validate : list Event → option Status;
  system_request_stop : list Event → option Status;
  system_contain : list Event → Containment;
  system_uncontained_count : list Event → nat;
  system_uncontained_dependencies : list Event → list nat;
  system_failure : Operation → Status → Failure;
  commit : list Event → nat → option Status;
  catalog_failure : nat → Operation → Status → Failure;
  (** The error of locking the records mutex, if any. *)
  records_lock : list Event → option Status;
  (** Failures other threads report while a call runs. *)
  reported : list Event → list (nat * Status) }.

(** [Storage], with the trace of the calls. *)
Record Storage : Set := mkStorage {
  system_state : SystemState; operation_active : bool; records : list ComponentRecord;
  last_boot : option BootReport; last_stop : option StopReport; trace : list Event }.

Definition store_state (x : SystemState) (s : Storage) : Storage :=
  mkStorage x (operation_active s) (records s) (last_boot s) (last_stop s) (trace s).
Definition set_active (x : bool) (s : Storage) : Storage :=
  mkStorage (system_state s) x (records s) (last_boot s) (last_stop s) (trace s).
Definition set_records (x : list ComponentRecord) (s : Storage) : Storage :=
  mkStorage (system_state s) (operation_active s) x (last_boot s) (last_stop s) (trace s).
Definition set_last_boot (x : BootReport) (s : Storage) : Storage :=
  mkStorage (system_state s) (operation_active s) (records s) (Some x) (last_stop s) (trace s).
Definition set_last_stop (x : StopReport) (s : Storage) : Storage :=
  mkStorage (system_state s) (operation_active s) (records s) (last_boot s) (Some x) (trace s).
Definition push (e : Event) (s : Storage) : Storage :=
  mkStorage (system_state s) (operation_active s) (records s) (last_boot s) (last_stop s)
    (trace s ++ [e]).

Section Engine.
Context {S : System}.

Definition add (failure : Failure) (d : FailureDetails) : FailureDetails :=
  mkDetails (if length (entries d) <? report_failure_capacity
             then entries d ++ [failure] else entries d) (Datatypes.S (total d)).

(** ** Records *)
Definition initial_hook (present : bool) : HookRecord :=
  mkHook (if present then NotAttempted else NotPresent) SOk 0.

Definition initial_record (c : nat) : ComponentRecord :=
  mkRecord c (category c) CRegistered (initial_hook (has_init c)) (initial_hook (has_start c))
    (initial_hook (has_stop c)) (initial_hook (has_deinit c)) ONone SOk None 0 0
    false false false true false.

(** [Storage::Storage()] *)
Definition new_storage : Storage :=
  mkStorage Dormant false (map initial_record (seq 0 component_count)) None None [].

Definition with_records (f : Storage → Storage) (s : Storage) : option Status * Storage :=
  match records_lock (trace s) with
  | Some e => (Some e, s)
  | None => (None, f s)
  end.

Definition mutate_record (c : nat) (f : ComponentRecord → ComponentRecord) (s : Storage) :
    Storage :=
  (with_records (λ s, set_records (alter f c (records s)) s) s).2.

(** [ComponentRecord{}], the copy when the lock fails. *)
Definition default_record : ComponentRecord :=
  mkRecord 0 Facility CRegistered (mkHook NotPresent SOk 0) (mkHook NotPresent SOk 0)
    (mkHook NotPresent SOk 0) (mkHook NotPresent SOk 0) ONone SOk None 0 0
    false false false true false.
Definition record_copy (c : nat) (s : Storage) : ComponentRecord :=
  match records_lock (trace s) with
  | Some _ => default_record
  | None => default default_record (records s !! c)
  end.

Definition make_failure (c : nat) (op : Operation) (st : Status) (prim : bool) : Failure :=
  mkFailure c (category c) op st prim.

Definition tick_transitions (r : ComponentRecord) : ComponentRecord :=
  set_transitions (u32 (transitions r + 1)%Z) r.
Definition tick_attempts (r : ComponentRecord) : ComponentRecord :=
  set_attempts (u32 (attempts r + 1)%Z) r.
Definition attempt_hook (h : HookRecord) : HookRecord :=
  mkHook (outcome h) (hook_status h) (u16 (hook_attempts h + 1)%Z).
Definition finish_hook (result : option Status) (st : Status) (h : HookRecord) : HookRecord :=
  mkHook (match result with None => Succeeded | Some _ => HookFailed end) st (hook_attempts h).

Definition record_failure (f : Failure) (s : Storage) : Storage :=
  mutate_record (failed_component f) (λ r,
    let r := set_last_status (status f)
               (set_last_operation (operation f) (set_state CFailed r)) in
    let r := match first_failure r with
             | Some _ => r
             | None => set_first_failure (Some f) r
             end in
    tick_transitions r) s.

Definition status_value (result : option Status) : Status := default SOk result.

(** ** [report_execution_failure], run by another thread *)
Definition report_execution_failure (s : Storage) (report : nat * Status) : Storage :=
  let '(c, st) := report in
  let s := record_failure (make_failure c OActivateExecution st false) s in
  let s := mutate_record c (λ r,
    tick_transitions (set_last_status st
      (set_last_operation OActivateExecution (set_state CFailed r)))) s in
  match system_state s with
  | Running | Starting => store_state Failed s
  | _ => s
  end.

(** A call of the engine: the event, and what is reported while it runs. *)
Definition call (e : Event) (s : Storage) : Storage :=
  let s := push e s in foldl report_execution_failure s (reported (trace s)).

(** ** Component operations *)
Definition on (b : bool) {A} (f : A → A) (x : A) : A := if b then f x else x.

(** *** Hooks

    [invoke_*] of [hooks.hpp]: a component without the hook succeeds;
    [normalize] keeps the status of an error. *)
Definition invoke_init (t : list Event) (c : nat) : option Status :=
  if has_init c then init_hook t c else None.
Definition invoke_start (t : list Event) (c : nat) : option Status :=
  if has_start c then start_hook t c else None.
Definition invoke_stop (t : list Event) (c : nat) : option Status :=
  if has_stop c then stop_hook_result t c else None.
Definition invoke_deinit (t : list Event) (c : nat) : option Status :=
  if has_deinit c then deinit_hook t c else None.

Definition initialize_component (c : nat) (s : Storage) : option Status * Storage :=
  let s := mutate_record c (λ r,
    let r := tick_attempts (tick_transitions (set_last_operation OInit
               (set_state CInitializing r))) in
    on (has_init c) (λ r, set_init (attempt_hook (init r)) r) r) s in
  let result := invoke_init (trace s) c in
  let s := call (EInit c result) s in
  let s := mutate_record c (λ r,
    let r := set_last_status (status_value result) r in
    let r := on (has_init c) (λ r, set_init (finish_hook result (last_status r) (init r)) r) r in
    let r := match result with
             | None => set_state CInitialized (set_init_succeeded true r)
             | Some _ => r
             end in
    tick_transitions r) s in
  (result, s).

Definition start_component (c : nat) (s : Storage) : option Status * Storage :=
  let s := mutate_record c (λ r,
    let r := tick_attempts (tick_transitions (set_last_operation OStart
               (set_state CStarting r))) in
    on (has_start c) (λ r, set_start (attempt_hook (start r)) r) r) s in
  let result := invoke_start (trace s) c in
  let s := call (EStart c result) s in
  let s := mutate_record c (λ r,
    let r := set_last_status (status_value result) r in
    on (has_start c) (λ r, set_start (finish_hook result (last_status r) (start r)) r) r) s in
  match result with
  | Some _ => (result, s)
  | None =>
    let '(prepared, s) :=
      if participates c then
        let s := mutate_record c (λ r,
          tick_attempts (set_last_operation OPrepareExecution r)) s in
        let result := prepare (trace s) c in
        let s := call (EPrepare c result) s in
        match result with
        | Some st => (result, mutate_record c (set_last_status st) s)
        | None =>
          (None, mutate_record c (λ r,
             set_last_status SOk (set_execution_contained false
               (set_execution_prepared true r))) s)
        end
      else (None, s) in
    match prepared with
    | Some _ => (prepared, s)
    | None =>
      (None, mutate_record c (λ r,
         tick_transitions (set_last_status SOk (set_start_succeeded true r))) s)
    end
  end.

Definition validate_execution (c : nat) (s : Storage) : option Status * Storage :=
  if negb (participates c) then (None, s)
  else if negb (execution_prepared (record_copy c s)) then (None, s)
  else
    let s := mutate_record c (λ r,
      tick_attempts (set_last_operation OValidateExecution r)) s in
    let result := validate_activation (trace s) c in
    let s := call (EValidate c result) s in
    match result with
    | Some st => (result, mutate_record c (set_last_status st) s)
    | None => (result, s)
    end.

Definition activate_execution (c : nat) (s : Storage) : Storage :=
  if participates c && execution_prepared (record_copy c s) then
    let s := mutate_record c (λ r,
      tick_attempts (set_last_status SOk (set_last_operation OActivateExecution r))) s in
    call (EActivate c) s
  else s.

(** The failures of a cleanup step are added to those of the report. *)
Definition stop_component (c : nat) (d : FailureDetails) (s : Storage) :
    FailureDetails * Storage :=
  let before := record_copy c s in
  if negb (start_succeeded before) || cleanup_blocked before then (d, s) else
  let s := mutate_record c (λ r,
    let r := tick_attempts (tick_transitions (set_last_operation OStop
               (set_state CStopping r))) in
    on (has_stop c) (λ r, set_stop (attempt_hook (stop_hook r)) r) r) s in
  let result := invoke_stop (trace s) c in
  let s := call (EStop c result) s in
  let s := mutate_record c (λ r,
    let r := set_last_status (status_value result) (set_start_succeeded false r) in
    let r := on (has_stop c)
               (λ r, set_stop (finish_hook result (last_status r) (stop_hook r)) r) r in
    let r := set_state (match result, first_failure r with
                        | None, None => CStopped | _, _ => CFailed end) r in
    tick_transitions r) s in
  match result with
  | Some st =>
    let failure := make_failure c OStop st false in
    (add failure d, record_failure failure s)
  | None => (d, s)
  end.

Definition deinitialize_component (c : nat) (d : FailureDetails) (s : Storage) :
    FailureDetails * Storage :=
  let before := record_copy c s in
  if negb (init_succeeded before) || cleanup_blocked before then (d, s) else
  let s := mutate_record c (λ r,
    let r := tick_attempts (tick_transitions (set_last_operation ODeinit
               (set_state CDeinitializing r))) in
    on (has_deinit c) (λ r, set_deinit (attempt_hook (deinit r)) r) r) s in
  let result := invoke_deinit (trace s) c in
  let s := call (EDeinit c result) s in
  let s := mutate_record c (λ r,
    let r := set_last_status (status_value result) (set_init_succeeded false r) in
    let r := on (has_deinit c)
               (λ r, set_deinit (finish_hook result (last_status r) (deinit r)) r) r in
    let r := set_state (match result, first_failure r with
                        | None, None => CDeinitialized | _, _ => CFailed end) r in
    tick_transitions r) s in
  match result with
  | Some st =>
    let failure := make_failure c ODeinit st false in
    (add failure d, record_failure failure s)
  | None => (d, s)
  end.

(** The recursion follows requirements, which have no cycle, so the number
    of components is enough fuel. *)
Fixpoint mark_dependency_closure (fuel : nat) (count_component : bool) (c : nat)
    (ps : nat * Storage) : nat * Storage :=
  match fuel with
  | O => ps
  | Datatypes.S fuel =>
    let '(preserved, s) := ps in
    let newly_blocked :=
      match records_lock (trace s) with
      | Some _ => false
      | None => negb (default false (cleanup_blocked <$> records s !! c))
      end in
    let s := mutate_record c (set_cleanup_blocked true) s in
    let preserved := if newly_blocked && count_component
                     then Datatypes.S preserved else preserved in
    foldl (λ ps d, mark_dependency_closure fuel true d ps) (preserved, s) (dependencies_of c)
  end.

Definition mark (count_component : bool) (c : nat) (ps : nat * Storage) : nat * Storage :=
  mark_dependency_closure component_count count_component c ps.

Definition add_failure (f : Failure) (x : ExecutionReport) : ExecutionReport :=
  mkExecution (clean_exits x) (forced_exits x) (join_timeouts x) (abort_attempts x)
    (abort_failures x) (uncontained_execution x) (preserved_dependencies x)
    (add f (failures x)).
Definition set_preserved (n : nat) (x : ExecutionReport) : ExecutionReport :=
  mkExecution (clean_exits x) (forced_exits x) (join_timeouts x) (abort_attempts x)
    (abort_failures x) (uncontained_execution x) n (failures x).
Definition add_uncontained (n : nat) (x : ExecutionReport) : ExecutionReport :=
  mkExecution (clean_exits x) (forced_exits x) (join_timeouts x) (abort_attempts x)
    (abort_failures x) (uncontained_execution x + n) (preserved_dependencies x) (failures x).
Definition set_failures (d : FailureDetails) (x : ExecutionReport) : ExecutionReport :=
  mkExecution (clean_exits x) (forced_exits x) (join_timeouts x) (abort_attempts x)
    (abort_failures x) (uncontained_execution x) (preserved_dependencies x) d.
Definition count (b : bool) (n : nat) : nat := if b then Datatypes.S n else n.
Definition is_SOk (s : Status) : bool := match s with SOk => true | _ => false end.
Definition count_containment (k : Containment) (x : ExecutionReport) : ExecutionReport :=
  mkExecution
    (count (negb (forced k) && (contained k && is_SOk (containment_status k))) (clean_exits x))
    (count (forced k) (forced_exits x)) (count (timed_out k) (join_timeouts x))
    (count (abort_attempted k) (abort_attempts x)) (count (abort_failed k) (abort_failures x))
    (uncontained_execution x) (preserved_dependencies x) (failures x).

Definition unclean (k : Containment) : bool :=
  negb (is_SOk (containment_status k)) || forced k || negb (contained k).
Definition containment_failure_status (k : Containment) : Status :=
  if is_SOk (containment_status k) then SUnexpectedExit else containment_status k.
Definition is_already (s : Status) : bool := match s with SAlready => true | _ => false end.

Definition request_execution_stop (c : nat) (xs : ExecutionReport * Storage) :
    ExecutionReport * Storage :=
  let '(x, s) := xs in
  if negb (participates c) then (x, s) else
  let record := record_copy c s in
  if negb (execution_prepared record) || execution_contained record then (x, s) else
  let s := mutate_record c (λ r,
    tick_attempts (set_last_operation ORequestExecutionStop r)) s in
  let result := request_stop (trace s) c in
  let s := call (ERequestStop c result) s in
  match result with
  | Some st =>
    if is_already st then (x, s) else
    let failure := make_failure c ORequestExecutionStop st false in
    (add_failure failure x, record_failure failure s)
  | None => (x, s)
  end.

Definition contain_execution (c : nat) (xs : ExecutionReport * Storage) :
    ExecutionReport * Storage :=
  let '(x, s) := xs in
  if negb (participates c) then (x, s) else
  let before := record_copy c s in
  if negb (execution_prepared before) || execution_contained before then (x, s) else
  let s := mutate_record c (λ r,
    tick_attempts (set_last_operation OContainExecution r)) s in
  let k := contain (trace s) c in
  let s := call (EContain c k) s in
  let x := count_containment k x in
  let s := mutate_record c (λ r,
    let r := set_execution_contained (contained k) r in
    let r := on (contained k) (set_execution_prepared false) r in
    set_last_status (containment_status k) r) s in
  let '(x, s) :=
    if contained k then (x, s) else
    let x := add_uncontained 1 x in
    let ps := mark false c (preserved_dependencies x, s) in
    let '(preserved, s) :=
      foldl (λ ps d, mark true d ps) ps (uncontained_dependencies (trace s) c) in
    (set_preserved preserved x, s) in
  if unclean k then
    let failure := make_failure c OContainExecution (containment_failure_status k) false in
    (add_failure failure x, record_failure failure s)
  else (x, s).

Definition request_system_execution_stop (xs : ExecutionReport * Storage) :
    ExecutionReport * Storage :=
  let '(x, s) := xs in
  if negb system_participates then (x, s) else
  let result := system_request_stop (trace s) in
  let s := call (ESystemRequestStop result) s in
  match result with
  | Some st =>
    if is_already st then (x, s)
    else (add_failure (not_primary (system_failure ORequestExecutionStop st)) x, s)
  | None => (x, s)
  end.

Definition contain_system_execution (xs : ExecutionReport * Storage) :
    ExecutionReport * Storage :=
  let '(x, s) := xs in
  if negb system_participates then (x, s) else
  let k := system_contain (trace s) in
  let s := call (ESystemContain k) s in
  let '(x, s) :=
    if contained k then (x, s) else
    let count := system_uncontained_count (trace s) in
    let x := add_uncontained (if count =? 0 then 1 else count) x in
    let '(preserved, s) :=
      foldl (λ ps d, mark true d ps) (preserved_dependencies x, s)
        (system_uncontained_dependencies (trace s)) in
    (set_preserved preserved x, s) in
  if unclean k then
    (add_failure (not_primary (system_failure OContainExecution
       (containment_failure_status k))) x, s)
  else (x, s).

Definition has_resources (s : Storage) : bool :=
  match records_lock (trace s) with
  | Some _ => false
  | None =>
    existsb (λ r, init_succeeded r || start_succeeded r ||
                  (execution_prepared r && negb (execution_contained r))) (records s)
  end.

Definition publish_boot (report : BootReport) (s : Storage) : Storage :=
  (with_records (set_last_boot report) s).2.
Definition publish_stop (report : StopReport) (s : Storage) : Storage :=
  (with_records (set_last_stop report) s).2.

(** [for_each_type] whose body returns at once when [primary] is set: the
    body's failure, and the number of completed turns. *)
Fixpoint each_until (body : nat → Storage → option Failure * Storage) (cs : list nat)
    (s : Storage) : option Failure * nat * Storage :=
  match cs with
  | [] => (None, 0, s)
  | c :: cs =>
    match body c s with
    | (Some f, s) => (Some f, 0, s)
    | (None, s) =>
      let '(f, n, s) := each_until body cs s in (f, Datatypes.S n, s)
    end
  end.

Definition commit_one (k : nat) (s : Storage) : option Failure * Storage :=
  let result := commit (trace s) k in
  let s := call (ECommit k result) s in
  match result with
  | Some st => (Some (as_primary (catalog_failure k OActivateExecution st)), s)
  | None => (None, s)
  end.
Definition commit_catalog_activation (s : Storage) : option Failure * Storage :=
  let '(f, _, s) := each_until commit_one catalogs s in (f, s).
Definition activate_catalog_runtime (s : Storage) : Storage :=
  foldl (λ s k, call (EActivateCatalog k) s) s catalogs.

(** ** Rollback, boot and stop *)

(** The execution part, in both shutdowns. *)
Definition stop_execution (xs : ExecutionReport * Storage) : ExecutionReport * Storage :=
  let xs := request_system_execution_stop xs in
  let xs := contain_system_execution xs in
  let xs := foldl (λ xs c, request_execution_stop c xs) xs reverse_topological_order in
  foldl (λ xs c, contain_execution c xs) xs reverse_topological_order.

Definition rollback_report (r : BootReport) : ExecutionReport :=
  mkExecution 0 0 0 0 0 (boot_uncontained_execution r) (boot_preserved_dependencies r)
    (cleanup_failures r).

Definition rollback (report : BootReport) (started_phase : bool) (s : Storage) :
    BootReport * Storage :=
  let s := store_state RollingBack s in
  let '(x, s) :=
    if started_phase then
      let '(x, s) := stop_execution (rollback_report report, s) in
      let '(d, s) := foldl (λ ds c, stop_component c ds.1 ds.2) (failures x, s)
                       reverse_topological_order in
      (set_failures d x, s)
    else (rollback_report report, s) in
  let '(d, s) := foldl (λ ds c, deinitialize_component c ds.1 ds.2) (failures x, s)
                   reverse_topological_order in
  (mkBootReport (boot_initial_state report) Failed
     (initialization_completed report) (start_completed report) (primary_failure report)
     (initialized_components report) (started_components report) true
     (uncontained_execution x =? 0) d (uncontained_execution x) (preserved_dependencies x),
   store_state Failed s).

Definition initial_boot_report (initial : SystemState) : BootReport :=
  mkBootReport initial Dormant false false None 0 0 false false no_failures 0 0.
Definition with_primary (f : Failure) (r : BootReport) : BootReport :=
  mkBootReport (boot_initial_state r) (boot_final_state r) (initialization_completed r)
    (start_completed r) (Some f) (initialized_components r) (started_components r)
    (rollback_attempted r) (rollback_completed r) (cleanup_failures r)
    (boot_uncontained_execution r) (boot_preserved_dependencies r).
Definition with_initialized (completed : bool) (n : nat) (r : BootReport) : BootReport :=
  mkBootReport (boot_initial_state r) (boot_final_state r) completed
    (start_completed r) (primary_failure r) n (started_components r)
    (rollback_attempted r) (rollback_completed r) (cleanup_failures r)
    (boot_uncontained_execution r) (boot_preserved_dependencies r).
Definition with_started (n : nat) (r : BootReport) : BootReport :=
  mkBootReport (boot_initial_state r) (boot_final_state r) (initialization_completed r)
    (start_completed r) (primary_failure r) (initialized_components r) n
    (rollback_attempted r) (rollback_completed r) (cleanup_failures r)
    (boot_uncontained_execution r) (boot_preserved_dependencies r).
Definition completed (r : BootReport) : BootReport :=
  mkBootReport (boot_initial_state r) Running (initialization_completed r)
    true (primary_failure r) (initialized_components r) (started_components r)
    (rollback_attempted r) (rollback_completed r) (cleanup_failures r)
    (boot_uncontained_execution r) (boot_preserved_dependencies r).

Definition boot_init_one (c : nat) (s : Storage) : option Failure * Storage :=
  let '(result, s) := initialize_component c s in
  match result with
  | Some st =>
    let f := make_failure c OInit st true in (Some f, record_failure f s)
  | None => (None, s)
  end.

Definition boot_start_one (c : nat) (s : Storage) : option Failure * Storage :=
  let '(result, s) := start_component c s in
  match result with
  | Some st =>
    let record := record_copy c s in
    let f := make_failure c (last_operation record) st true in (Some f, record_failure f s)
  | None => (None, s)
  end.

Definition boot_validate_one (c : nat) (s : Storage) : option Failure * Storage :=
  let '(result, s) := validate_execution c s in
  match result with
  | Some st =>
    let f := make_failure c OValidateExecution st true in (Some f, record_failure f s)
  | None => (None, s)
  end.

(** A call of the system's execution protocol; its failure is an execution
    failure. *)
Definition boot_system_step (op : Operation) (result : list Event → option Status)
    (event : option Status → Event) (s : Storage) : option Failure * Storage :=
  if system_participates then
    let r := result (trace s) in
    let s := call (event r) s in
    match r with
    | Some st => (Some (as_primary (system_failure op st)), s)
    | None => (None, s)
    end
  else (None, s).

(** [if (!primary) ...]: the steps after the start of the components, with
    the [execution_failure] flag. *)
Definition boot_commit (s : Storage) : option (Failure * bool) * Storage :=
  match boot_system_step OPrepareExecution system_prepare ESystemPrepare s with
  | (Some f, s) => (Some (f, true), s)
  | (None, s) =>
    match each_until boot_validate_one topological_order s with
    | (Some f, _, s) => (Some (f, true), s)
    | (None, _, s) =>
      match boot_system_step OValidateExecution system_validate ESystemValidate s with
      | (Some f, s) => (Some (f, true), s)
      | (None, s) =>
        match commit_catalog_activation s with
        | (Some f, s) => (Some (f, false), s)
        | (None, s) => (None, s)
        end
      end
    end
  end.

Definition is_prepare (op : Operation) : bool :=
  match op with OPrepareExecution => true | _ => false end.

Definition boot_start (s : Storage) : option (Failure * bool) * nat * Storage :=
  match each_until boot_start_one topological_order s with
  | (Some f, n, s) => (Some (f, is_prepare (operation f)), n, s)
  | (None, n, s) => let '(fe, s) := boot_commit s in (fe, n, s)
  end.

Definition boot_failed (f : Failure) (execution_failure started_phase : bool)
    (report : BootReport) (s : Storage) : result BootError BootReport * Storage :=
  let '(report, s) := rollback (with_primary f report) started_phase s in
  let s := publish_boot report s in
  (Err (mkBootError (if execution_failure then ExecutionFailure else ComponentFailure)
          (status f) (Some f)), s).

Definition boot_running (report : BootReport) (s : Storage) :
    result BootError BootReport * Storage :=
  let s := foldl (λ s c, mutate_record c (λ r,
             tick_transitions (set_state CRunning r)) s) s topological_order in
  let report := completed report in
  let s := store_state Running s in
  let s := publish_boot report s in
  let s := if system_participates then call ESystemActivate s else s in
  let s := foldl (λ s c, activate_execution c s) s topological_order in
  let s := activate_catalog_runtime s in
  (Ok report, s).

(** What [boot] does while it holds the operation flag. *)
Definition boot_owned (s : Storage) : result BootError BootReport * Storage :=
  let initial := system_state s in
  match initial with
  | Running => (Err (mkBootError AlreadyRunning SAlready None), s)
  | Dormant =>
    let report := initial_boot_report initial in
    let s := store_state Initializing s in
    match each_until boot_init_one topological_order s with
    | (Some f, n, s) => boot_failed f false false (with_initialized false n report) s
    | (None, n, s) =>
      let report := with_initialized true n report in
      let s := store_state Starting s in
      match boot_start s with
      | (Some (f, execution_failure), n, s) =>
        boot_failed f execution_failure true (with_started n report) s
      | (None, n, s) => boot_running (with_started n report) s
      end
    end
  | _ => (Err (mkBootError RebootUnsupported SNotSupported None), s)
  end.

Definition boot (s : Storage) : result BootError BootReport * Storage :=
  if operation_active s then (Err (mkBootError BootBusy SBusy None), s)
  else let '(r, s) := boot_owned (set_active true s) in (r, set_active false s).

Definition stop_one (c : nat) (nds : nat * FailureDetails * Storage) :
    nat * FailureDetails * Storage :=
  let '(n, d, s) := nds in
  let before := record_copy c s in
  if start_succeeded before && negb (cleanup_blocked before) then
    let '(d, s) := stop_component c d s in (Datatypes.S n, d, s)
  else (n, d, s).
Definition deinit_one (c : nat) (nds : nat * FailureDetails * Storage) :
    nat * FailureDetails * Storage :=
  let '(n, d, s) := nds in
  let before := record_copy c s in
  if init_succeeded before && negb (cleanup_blocked before) then
    let '(d, s) := deinitialize_component c d s in (Datatypes.S n, d, s)
  else (n, d, s).

Definition no_execution : ExecutionReport := mkExecution 0 0 0 0 0 0 0 no_failures.

Definition stop_owned (s : Storage) : result StopError StopReport * Storage :=
  let initial := system_state s in
  let allowed := match initial with
                 | Running => true | Failed => has_resources s | _ => false end in
  if negb allowed then (Err (mkStopError InvalidState SNotReady None), s) else
  let s := store_state Stopping s in
  let '(x, s) := stop_execution (no_execution, s) in
  let '(stopped, d, s) :=
    foldl (λ nds c, stop_one c nds) (0, failures x, s) reverse_topological_order in
  let s := store_state Deinitializing s in
  let '(deinitialized, d, s) :=
    foldl (λ nds c, deinit_one c nds) (0, d, s) reverse_topological_order in
  let clean := (total d =? 0) && (uncontained_execution x =? 0) in
  let final := if clean then Stopped else Failed in
  let s := store_state final s in
  let report := mkStopReport initial final stopped deinitialized (set_failures d x) in
  let s := publish_stop report s in
  if clean then (Ok report, s)
  else (Err (mkStopError ShutdownFailed SError (head (entries d))), s).

Definition stop (s : Storage) : result StopError StopReport * Storage :=
  if operation_active s then (Err (mkStopError StopBusy SBusy None), s)
  else let '(r, s) := stop_owned (set_active true s) in (r, set_active false s).

(** ** Queries *)
Record ComponentPage : Set := mkPage { offset : nat; page_count : nat; page_total : nat }.
Definition has_more (p : ComponentPage) : bool := offset p + page_count p <? page_total p.

(** The page and what the destination span holds after the call. *)
Definition component_page (destination : list ComponentRecord) (off : nat) (s : Storage) :
    result Status (ComponentPage * list ComponentRecord) :=
  if component_count <? off then Err SInvalid else
  let available := component_count - off in
  let n := if length destination <? available then length destination else available in
  match records_lock (trace s) with
  | Some st => Err st
  | None => Ok (mkPage off n component_count,
                take n (drop off (records s)) ++ drop n destination)
  end.

Definition components (s : Storage) : result Status (list ComponentRecord) :=
  match records_lock (trace s) with Some st => Err st | None => Ok (records s) end.
Definition boot_report (s : Storage) : result Status BootReport :=
  match records_lock (trace s) with
  | Some st => Err st
  | None => match last_boot s with Some r => Ok r | None => Err SNotReady end
  end.
Definition stop_report (s : Storage) : result Status StopReport :=
  match records_lock (trace s) with
  | Some st => Err st
  | None => match last_stop s with Some r => Ok r | None => Err SNotReady end
  end.
End Engine.
