(* ===== verification/LifecycleEffects.v ===== *)
(** * LifecycleEffects: what the engine's operations do to the flags

    Each operation of Lifecycle is reduced to its effect on the flags of the
    component records, which decide what is done next, and on the trace of
    calls.  The component graph's orders give the closure of
    [mark_dependency_closure] and show its fuel to be enough. *)
From stdpp Require Import prelude.
From S2P Require Import Prelude Status TypeGraph Lifecycle.

Open Scope nat_scope.

Lemma alter_compose_list {A} (f g : A → A) i (l : list A) :
  alter (f ∘ g) i l = alter f i (alter g i l).
Proof.
  apply list_eq. intros j. destruct (decide (j = i)) as [->|].
  - rewrite !list_lookup_alter_eq. by destruct (l !! i).
  - by rewrite !list_lookup_alter_ne.
Qed.

(** ** The part of a record that decides what is done *)
Record Flags : Set := mkFlags {
  f_init : bool; f_start : bool; f_prepared : bool; f_contained : bool; f_blocked : bool }.
Definition flags (r : ComponentRecord) : Flags :=
  mkFlags (init_succeeded r) (start_succeeded r) (execution_prepared r)
    (execution_contained r) (cleanup_blocked r).
Definition initial_flags : Flags := mkFlags false false false true false.
Definition view (s : Storage) : list Flags := map flags (records s).

Definition with_init (b : bool) (f : Flags) : Flags :=
  mkFlags b (f_start f) (f_prepared f) (f_contained f) (f_blocked f).
Definition with_start (b : bool) (f : Flags) : Flags :=
  mkFlags (f_init f) b (f_prepared f) (f_contained f) (f_blocked f).
Definition with_prepared (f : Flags) : Flags :=
  mkFlags (f_init f) (f_start f) true false (f_blocked f).
Definition with_contained (b : bool) (f : Flags) : Flags :=
  mkFlags (f_init f) (f_start f) (if b then false else f_prepared f) b (f_blocked f).
Definition with_blocked (f : Flags) : Flags :=
  mkFlags (f_init f) (f_start f) (f_prepared f) (f_contained f) true.

(** A system whose graph is a component graph and whose mutex can be locked. *)
Class WfSystem (S : System) : Prop := {
  wf_graph : ∃ Dependencies generated,
    ComponentGraph Dependencies generated (seq 0 component_count)
    = Some (topological_order, reverse_topological_order) ∧
    ∀ c, dependencies_of c
         = effective_dependencies_of Dependencies generated c (seq 0 component_count);
  wf_lock : ∀ t, records_lock t = None;
  wf_uncontained : ∀ t c d, d ∈ uncontained_dependencies t c → d < component_count;
  wf_system_uncontained : ∀ t d, d ∈ system_uncontained_dependencies t → d < component_count }.

(** ** Effect of the operations on the flags and the trace *)
Section Effects.
Context {S : System} {W : WfSystem S}.

Lemma view_mutate c f g s :
  (∀ r, flags (f r) = g (flags r)) → view (mutate_record c f s) = alter g c (view s).
Proof.
  intros Hfg. unfold view, mutate_record, with_records. rewrite wf_lock. simpl.
  apply list_eq. intros i. rewrite list_lookup_fmap.
  destruct (decide (i = c)) as [->|Hne].
  - rewrite !list_lookup_alter_eq, list_lookup_fmap. by destruct (records s !! c); simpl; rewrite ?Hfg.
  - by rewrite !list_lookup_alter_ne, list_lookup_fmap by done.
Qed.
Lemma view_mutate_id c f s :
  (∀ r, flags (f r) = flags r) → view (mutate_record c f s) = view s.
Proof.
  intros Hf. rewrite (view_mutate c f id) by done.
  apply list_eq. intros i. destruct (decide (i = c)) as [->|Hne].
  - rewrite list_lookup_alter_eq. by destruct (view s !! c).
  - by rewrite list_lookup_alter_ne.
Qed.
Lemma trace_mutate c f s : trace (mutate_record c f s) = trace s.
Proof. unfold mutate_record, with_records. by rewrite wf_lock. Qed.
Lemma state_mutate c f s : system_state (mutate_record c f s) = system_state s.
Proof. unfold mutate_record, with_records. by rewrite wf_lock. Qed.

Lemma flags_record_failure f r :
  flags (let r := set_last_status (status f)
               (set_last_operation (operation f) (set_state CFailed r)) in
         let r := match first_failure r with
                  | Some _ => r
                  | None => set_first_failure (Some f) r
                  end in
         tick_transitions r) = flags r.
Proof. cbv zeta. by destruct (first_failure _). Qed.

Lemma view_record_failure f s : view (record_failure f s) = view s.
Proof. apply view_mutate_id, flags_record_failure. Qed.
Lemma trace_record_failure f s : trace (record_failure f s) = trace s.
Proof. apply trace_mutate. Qed.

Lemma report_effect s rep :
  view (report_execution_failure s rep) = view s ∧
  trace (report_execution_failure s rep) = trace s.
Proof.
  destruct rep as [c st]. unfold report_execution_failure.
  set (s1 := mutate_record c _ _).
  assert (view s1 = view s ∧ trace s1 = trace s) as [Hv Ht].
  { unfold s1. by rewrite view_mutate_id, trace_mutate, view_record_failure, trace_record_failure. }
  by destruct (system_state s1).
Qed.

Lemma reports_effect s reps :
  view (foldl report_execution_failure s reps) = view s ∧
  trace (foldl report_execution_failure s reps) = trace s.
Proof.
  revert s; induction reps as [|rep reps IH]; intros s; [done|]. simpl.
  destruct (IH (report_execution_failure s rep)) as [-> ->]. apply report_effect.
Qed.

Lemma view_call e s : view (call e s) = view s.
Proof. unfold call. by rewrite (proj1 (reports_effect _ _)). Qed.
Lemma trace_call e s : trace (call e s) = trace s ++ [e].
Proof. unfold call. by rewrite (proj2 (reports_effect _ _)). Qed.

Lemma view_store x s : view (store_state x s) = view s.
Proof. done. Qed.
Lemma view_publish_boot r s : view (publish_boot r s) = view s.
Proof. unfold publish_boot, with_records. by rewrite wf_lock. Qed.
Lemma trace_publish_boot r s : trace (publish_boot r s) = trace s.
Proof. unfold publish_boot, with_records. by rewrite wf_lock. Qed.
Lemma view_publish_stop r s : view (publish_stop r s) = view s.
Proof. unfold publish_stop, with_records. by rewrite wf_lock. Qed.
Lemma trace_publish_stop r s : trace (publish_stop r s) = trace s.
Proof. unfold publish_stop, with_records. by rewrite wf_lock. Qed.

(** What [record_copy] reads. *)
Lemma flags_copy c s : flags (record_copy c s) = default initial_flags (view s !! c).
Proof.
  unfold record_copy, view. rewrite wf_lock, list_lookup_fmap. by destruct (records s !! c).
Qed.
End Effects.

(** Computes the flags and the trace of a storage built by the operations. *)
Ltac flags_tac := intros; unfold on; repeat case_match; reflexivity.
Ltac effect :=
  repeat first
    [ rewrite trace_mutate | rewrite trace_call | rewrite trace_record_failure
    | rewrite view_call | rewrite view_record_failure
    | rewrite view_mutate_id by flags_tac ].

Section Components.
Context {S : System} {W : WfSystem S}.

Lemma initialize_effect c s r s' :
  initialize_component c s = (r, s') →
  trace s' = trace s ++ [EInit c r] ∧
  view s' = (if r then view s else alter (with_init true) c (view s)).
Proof.
  unfold initialize_component. cbv zeta. set (s1 := mutate_record c _ s).
  assert (view s1 = view s ∧ trace s1 = trace s) as [Hv Ht] by (unfold s1; split; effect; done).
  set (res := invoke_init _ c). intros [= <- <-]. rewrite <-Hv, <-Ht. split.
  - by effect.
  - destruct res; [by effect|]. rewrite (view_mutate _ _ (with_init true)); [by effect|].
    flags_tac.
Qed.

Lemma start_effect c s r s' :
  start_component c s = (r, s') →
  (∃ st, r = Some st ∧ trace s' = trace s ++ [EStart c (Some st)] ∧ view s' = view s) ∨
  (participates c = false ∧ r = None ∧ trace s' = trace s ++ [EStart c None] ∧
   view s' = alter (with_start true) c (view s)) ∨
  (participates c = true ∧ trace s' = trace s ++ [EStart c None] ++ [EPrepare c r] ∧
   view s' = if r then view s else alter (with_start true ∘ with_prepared) c (view s)).
Proof.
  unfold start_component. cbv zeta. set (s1 := mutate_record c _ s).
  assert (view s1 = view s ∧ trace s1 = trace s) as [Hv Ht] by (unfold s1; split; effect; done).
  set (res := invoke_start _ c). rewrite <-Hv, <-Ht.
  destruct res as [st|].
  { intros [= <- <-]. left. exists st. split; [done|]. by split; effect. }
  set (s2 := mutate_record c _ (call _ s1)).
  assert (view s2 = view s1 ∧ trace s2 = trace s1 ++ [EStart c None]) as [Hv2 Ht2]
    by (unfold s2; split; effect; done).
  rewrite <-Hv2. right. destruct (participates c).
  - right. split; [done|]. rewrite app_assoc, <-Ht2. revert H.
    set (s3 := mutate_record c _ s2).
    assert (view s3 = view s2 ∧ trace s3 = trace s2) as [Hv3 Ht3]
      by (unfold s3; split; effect; done).
    rewrite <-Hv3, <-Ht3. set (res := prepare _ c). destruct res as [st|]; intros [= <- <-].
    + by split; effect.
    + split; [by effect|]. rewrite (view_mutate _ _ (with_start true)) by flags_tac.
      rewrite (view_mutate _ _ with_prepared) by flags_tac. rewrite view_call.
      symmetry. apply alter_compose_list.
  - left. revert H. intros [= <- <-]. split; [done|]. split; [done|]. split; [by effect|].
    by rewrite (view_mutate _ _ (with_start true)) by flags_tac.
Qed.

Lemma validate_effect c s r s' :
  validate_execution c s = (r, s') →
  let p := participates c && f_prepared (default initial_flags (view s !! c)) in
  (p = false ∧ r = None ∧ s' = s) ∨
  (p = true ∧ r = validate_activation (trace s) c ∧ view s' = view s ∧
   trace s' = trace s ++ [EValidate c r]).
Proof.
  unfold validate_execution. destruct (participates c); simpl; [|intros [= <- <-]; auto].
  pose proof (flags_copy c s) as Hf. destruct (execution_prepared (record_copy c s)) eqn:Hp;
    rewrite <-Hf; simpl; rewrite Hp; [|intros [= <- <-]; auto].
  cbv zeta. rewrite trace_mutate. intros H. right. split; [done|].
  destruct (validate_activation _ c) as [st|]; injection H as <- <-;
    (split; [done|split; by effect]).
Qed.

Lemma activate_effect c s :
  let s' := activate_execution c s in
  let p := participates c && f_prepared (default initial_flags (view s !! c)) in
  (p = false ∧ s' = s) ∨
  (p = true ∧ view s' = view s ∧ trace s' = trace s ++ [EActivate c]).
Proof.
  cbv zeta. unfold activate_execution. pose proof (flags_copy c s) as Hf.
  assert (execution_prepared (record_copy c s) = f_prepared (default initial_flags (view s !! c)))
    as -> by by rewrite <-Hf.
  destruct (participates c && _); [|by left]. right. split; [done|]. split; by effect.
Qed.

Lemma stop_effect c d s d' s' :
  stop_component c d s = (d', s') →
  let f := default initial_flags (view s !! c) in
  (negb (f_start f) || f_blocked f = true ∧ d' = d ∧ s' = s) ∨
  (f_start f = true ∧ f_blocked f = false ∧ ∃ r,
   r = invoke_stop (trace s) c ∧
   d' = (if r is Some st then add (make_failure c OStop st false) d else d) ∧
   trace s' = trace s ++ [EStop c r] ∧ view s' = alter (with_start false) c (view s)).
Proof.
  intros H f. unfold stop_component in H. pose proof (flags_copy c s) as Hf. fold f in Hf.
  assert (start_succeeded (record_copy c s) = f_start f) as Hs by by rewrite <-Hf.
  assert (cleanup_blocked (record_copy c s) = f_blocked f) as Hb by by rewrite <-Hf.
  rewrite Hs, Hb in H. destruct (negb (f_start f) || f_blocked f) eqn:Hc.
  { left. by injection H as <- <-. }
  right. apply orb_false_iff in Hc as [Hc ?]. apply negb_false_iff in Hc. split; [done|].
  split; [done|]. revert H. cbv zeta. set (s1 := mutate_record c _ s).
  assert (view s1 = view s ∧ trace s1 = trace s) as [Hv Ht] by (unfold s1; split; effect; done).
  set (res := invoke_stop _ c). rewrite <-Hv, <-Ht. intros H. exists res.
  split; [done|].
  destruct res as [st|]; injection H as <- <-; (split; [done|]); (split; [by effect|]);
    rewrite ?view_record_failure;
    (rewrite (view_mutate _ _ (with_start false)) by flags_tac); by rewrite view_call.
Qed.

Lemma deinitialize_effect c d s d' s' :
  deinitialize_component c d s = (d', s') →
  let f := default initial_flags (view s !! c) in
  (negb (f_init f) || f_blocked f = true ∧ d' = d ∧ s' = s) ∨
  (f_init f = true ∧ f_blocked f = false ∧ ∃ r,
   r = invoke_deinit (trace s) c ∧
   d' = (if r is Some st then add (make_failure c ODeinit st false) d else d) ∧
   trace s' = trace s ++ [EDeinit c r] ∧ view s' = alter (with_init false) c (view s)).
Proof.
  intros H f. unfold deinitialize_component in H. pose proof (flags_copy c s) as Hf. fold f in Hf.
  assert (init_succeeded (record_copy c s) = f_init f) as Hs by by rewrite <-Hf.
  assert (cleanup_blocked (record_copy c s) = f_blocked f) as Hb by by rewrite <-Hf.
  rewrite Hs, Hb in H. destruct (negb (f_init f) || f_blocked f) eqn:Hc.
  { left. by injection H as <- <-. }
  right. apply orb_false_iff in Hc as [Hc ?]. apply negb_false_iff in Hc. split; [done|].
  split; [done|]. revert H. cbv zeta. set (s1 := mutate_record c _ s).
  assert (view s1 = view s ∧ trace s1 = trace s) as [Hv Ht] by (unfold s1; split; effect; done).
  set (res := invoke_deinit _ c). rewrite <-Hv, <-Ht. intros H. exists res.
  split; [done|].
  destruct res as [st|]; injection H as <- <-; (split; [done|]); (split; [by effect|]);
    rewrite ?view_record_failure;
    (rewrite (view_mutate _ _ (with_init false)) by flags_tac); by rewrite view_call.
Qed.

(** Execution that [request_stop] and [contain] are called for. *)
Definition f_executing (f : Flags) : bool := f_prepared f && negb (f_contained f).

Lemma request_effect c x s x' s' :
  request_execution_stop c (x, s) = (x', s') →
  let p := participates c && f_executing (default initial_flags (view s !! c)) in
  uncontained_execution x' = uncontained_execution x ∧
  ((p = false ∧ x' = x ∧ s' = s) ∨
   (p = true ∧ ∃ r, r = request_stop (trace s) c ∧ (r = None → x' = x) ∧
    view s' = view s ∧ trace s' = trace s ++ [ERequestStop c r])).
Proof.
  unfold request_execution_stop. pose proof (flags_copy c s) as Hf.
  destruct (participates c); cbn [negb]; [|intros [= <- <-]; auto].
  rewrite <-Hf. unfold f_executing. cbn [flags f_prepared f_contained andb].
  destruct (execution_prepared (record_copy c s)), (execution_contained (record_copy c s));
    cbn [negb orb andb]; [intros [= <- <-]; auto| |intros [= <- <-]; auto..].
  cbv zeta. rewrite trace_mutate. intros H.
  assert (uncontained_execution x' = uncontained_execution x) as Hx.
  { by destruct (request_stop _ c) as [st|]; [destruct (is_already st)|]; injection H as <- <-. }
  split; [done|]. right. split; [done|]. eexists. split; [done|].
  destruct (request_stop _ c) as [st|];
    [destruct (is_already st)|]; injection H as <- <-;
    (split; [done|split; by effect]).
Qed.
End Components.

(** ** The component graph *)
Section Graph.
Context {S : System} {W : WfSystem S}.

(** [c] requires [d]. *)
Definition needs (c d : nat) : Prop := d ∈ dependencies_of c.

Lemma order_facts :
  topological_order ≡ₚ seq 0 component_count ∧ NoDup topological_order ∧
  reverse_topological_order = reverse topological_order ∧
  (∀ before c after, topological_order = before ++ c :: after →
     ∀ d, needs c d → d ∈ before).
Proof.
  destruct wf_graph as (D & g & Hg & Hd).
  destruct (ComponentGraph_facts _ _ _ _ _ Hg) as (Hperm & Hnd & Hord & -> & _).
  split; [done|]. split; [done|]. split; [done|].
  intros before c after Heq d Hn. eapply Hord; [exact Heq|]. unfold requires. by rewrite <-Hd.
Qed.

Lemma elem_of_order c : c ∈ topological_order ↔ c < component_count.
Proof. rewrite (proj1 order_facts), elem_of_seq. lia. Qed.
Lemma elem_of_reverse_order c : c ∈ reverse_topological_order ↔ c < component_count.
Proof.
  destruct order_facts as (_ & _ & -> & _). by rewrite elem_of_reverse, elem_of_order.
Qed.

(** In the reverse order, what requires a component comes before it. *)
Lemma reverse_order_before before c after b :
  reverse_topological_order = before ++ c :: after →
  b < component_count → needs b c → b ∈ before.
Proof.
  destruct order_facts as (_ & Hnd & Hrev & Hord). rewrite Hrev. intros Heq Hb Hn.
  assert (topological_order = reverse after ++ c :: reverse before) as Hto.
  { by rewrite <-(reverse_involutive topological_order), Heq, reverse_app, reverse_cons,
      <-app_assoc. }
  apply elem_of_order in Hb. apply list_elem_of_split in Hb as (l1 & l2 & Hl).
  pose proof (Hord l1 b l2 Hl c Hn) as Hc.
  apply list_elem_of_split in Hc as (l3 & l4 & ->).
  assert (c :: reverse before = c :: l4 ++ b :: l2) as Heq2.
  { rewrite Hl in Hto, Hnd. rewrite <-app_assoc in Hto, Hnd. simpl in Hto, Hnd.
    clear - Hto Hnd. revert Hto Hnd. generalize (reverse after) as l.
    induction l3 as [|x l3 IH]; intros [|y l] Hto Hnd; simplify_eq/=.
    - congruence.
    - exfalso. apply NoDup_cons in Hnd as [Hnd _]. apply Hnd. match goal with H : _ = l ++ _ |- _ => rewrite H end.
      rewrite elem_of_app, elem_of_cons. auto.
    - exfalso. apply NoDup_cons in Hnd as [Hnd _]. apply Hnd.
      rewrite elem_of_app, elem_of_cons. auto.
    - apply NoDup_cons in Hnd as [_ Hnd]. by eapply IH. }
  injection Heq2 as Heq2. apply elem_of_reverse. rewrite Heq2. apply elem_of_app. right.
  apply elem_of_cons. auto.
Qed.

Fixpoint index_of (c : nat) (l : list nat) : nat :=
  match l with [] => 0 | x :: l => if decide (x = c) then 0 else Datatypes.S (index_of c l) end.
Definition rank (c : nat) : nat := index_of c topological_order.

Lemma index_of_before d (before after : list nat) :
  d ∈ before → index_of d (before ++ after) < length before.
Proof. induction 1; simpl; case_decide; simplify_eq; lia. Qed.
Lemma index_of_here c (before after : list nat) :
  c ∉ before → index_of c (before ++ c :: after) = length before.
Proof.
  induction before as [|x l IH]; intros Hc; simpl; [by rewrite decide_True|].
  rewrite not_elem_of_cons in Hc. rewrite decide_False by naive_solver. f_equal. naive_solver.
Qed.

Lemma rank_needs c d :
  c < component_count → needs c d → d < component_count ∧ rank d < rank c.
Proof.
  intros Hc Hn. apply elem_of_order in Hc. apply list_elem_of_split in Hc as (l1 & l2 & Hl).
  destruct order_facts as (_ & Hnd & _ & Hord). pose proof (Hord l1 c l2 Hl d Hn) as Hd.
  split; [apply elem_of_order; rewrite Hl; apply elem_of_app; auto|].
  unfold rank. rewrite Hl in *. rewrite (index_of_here c) by
    (apply NoDup_app in Hnd as (_ & Hnd & _); intros Hin; apply (Hnd c Hin), elem_of_cons; auto).
  by apply index_of_before.
Qed.
Lemma rank_bound c : c < component_count → rank c < component_count.
Proof.
  intros Hc. apply elem_of_order in Hc. destruct order_facts as (Hperm & _).
  apply Permutation_length in Hperm. rewrite length_seq in Hperm. rewrite <-Hperm.
  unfold rank. rewrite <-(app_nil_r topological_order) at 1. by apply index_of_before.
Qed.
Lemma needs_bound c d : c < component_count → rtc needs c d → d < component_count.
Proof. intros Hc. induction 1; [done|]. apply IHrtc. by eapply rank_needs. Qed.
End Graph.

(** ** Blocking a dependency closure *)
Definition blocked (v : list Flags) (c : nat) : Prop :=
  f_blocked (default initial_flags (v !! c)) = true.

(** The same flags, but the components in [P] are blocked as well. *)
Definition marked (P : nat → Prop) (v v' : list Flags) : Prop :=
  length v' = length v ∧
  ∀ c, c < length v →
    (f_init (default initial_flags (v' !! c)) = f_init (default initial_flags (v !! c)) ∧
     f_start (default initial_flags (v' !! c)) = f_start (default initial_flags (v !! c)) ∧
     f_prepared (default initial_flags (v' !! c))
     = f_prepared (default initial_flags (v !! c)) ∧
     f_contained (default initial_flags (v' !! c))
     = f_contained (default initial_flags (v !! c))) ∧
    (blocked v' c ↔ blocked v c ∨ P c).

Lemma marked_refl v : marked (λ _, False) v v.
Proof. split; [done|]. intros c _. split; [done|]. tauto. Qed.
Lemma marked_trans P Q v v' v'' :
  marked P v v' → marked Q v' v'' → marked (λ c, P c ∨ Q c) v v''.
Proof.
  intros [Hl H] [Hl' H']. split; [congruence|]. intros c Hc.
  destruct (H c Hc) as [(H1 & H2 & H3 & H4) Hb].
  destruct (H' c) as [(H1' & H2' & H3' & H4') Hb']; [lia|].
  split; [|tauto]. repeat split; congruence.
Qed.
Lemma marked_ext P Q v v' :
  (∀ c, c < length v → P c ↔ Q c) → marked P v v' → marked Q v v'.
Proof.
  intros HPQ [Hl H]. split; [done|]. intros c Hc. destruct (H c Hc) as [? Hb].
  split; [done|]. by rewrite Hb, (HPQ c Hc).
Qed.
Lemma marked_one c v : marked (λ x, x = c) v (alter with_blocked c v).
Proof.
  split; [apply length_alter|]. intros x Hx. unfold blocked.
  destruct (lookup_lt_is_Some_2 v x Hx) as [f Hf].
  destruct (decide (x = c)) as [->|Hne].
  - rewrite list_lookup_alter_eq, Hf. simpl. split; [done|]. tauto.
  - rewrite list_lookup_alter_ne by done. split; [done|]. tauto.
Qed.

Section Mark.
Context {S : System} {W : WfSystem S}.

Lemma mark_fold fuel (reach : nat → nat → Prop) ds ps :
  length (view ps.2) = component_count →
  (∀ d ps, d ∈ ds → length (view ps.2) = component_count →
     let ps' := mark_dependency_closure fuel true d ps in
     marked (reach d) (view ps.2) (view ps'.2) ∧ trace ps'.2 = trace ps.2) →
  let ps' := foldl (λ ps d, mark_dependency_closure fuel true d ps) ps ds in
  marked (λ x, ∃ d, d ∈ ds ∧ reach d x) (view ps.2) (view ps'.2) ∧ trace ps'.2 = trace ps.2.
Proof.
  revert ps; induction ds as [|d ds IH]; intros ps Hl Hone; simpl.
  - split; [|done]. eapply marked_ext; [|apply marked_refl]. intros c _.
    split; [done|]. by intros (d & ?%elem_of_nil & _).
  - destruct (Hone d ps) as [Hm Ht]; [apply elem_of_cons; auto|done|].
    set (ps1 := mark_dependency_closure fuel true d ps) in *.
    destruct (IH ps1) as [Hm' Ht'];
      [destruct Hm; congruence|intros; apply Hone; [apply elem_of_cons; auto|done]|].
    split; [|congruence]. eapply marked_ext; [|eapply marked_trans; [exact Hm|exact Hm']].
    intros x _. simpl. setoid_rewrite elem_of_cons. naive_solver.
Qed.

(** With enough fuel, exactly what the component reaches is blocked. *)
Lemma mark_spec fuel b c ps :
  c < component_count → length (view ps.2) = component_count → rank c < fuel →
  let ps' := mark_dependency_closure fuel b c ps in
  marked (rtc needs c) (view ps.2) (view ps'.2) ∧ trace ps'.2 = trace ps.2.
Proof.
  revert b c ps. induction fuel as [|fuel IH]; intros b c [p s] Hc Hl Hrank; [lia|].
  cbn [mark_dependency_closure]. cbv zeta.
  set (p' := if (_ : bool) then Datatypes.S p else p). set (s1 := mutate_record c _ s).
  assert (view s1 = alter with_blocked c (view s)) as Hv
    by (unfold s1; by apply view_mutate).
  assert (trace s1 = trace s) as Ht by apply trace_mutate.
  assert (length (view s1) = component_count) as Hl1 by by rewrite Hv, length_alter.
  destruct (mark_fold fuel (rtc needs) (dependencies_of c) (p', s1)) as [Hm Htr]; [done| |].
  { intros d ps Hd Hlps. destruct (rank_needs c d Hc Hd). apply IH; [done|done|lia]. }
  split; [|by rewrite Htr]. cbn [snd] in *.
  eapply marked_ext; [|eapply marked_trans; [|exact Hm]];
    [|rewrite Hv; apply marked_one]. intros x _. cbn. split.
  - intros [->|(d & Hd & Hr)]; [done|]. by eapply rtc_l.
  - intros Hr. apply rtc_inv in Hr as [->|(d & Hd & Hr)]; [by left|right; eauto].
Qed.

Lemma mark_top b c ps :
  c < component_count → length (view ps.2) = component_count →
  let ps' := mark b c ps in
  marked (rtc needs c) (view ps.2) (view ps'.2) ∧ trace ps'.2 = trace ps.2.
Proof. intros Hc Hl. apply mark_spec; [done|done|]. by apply rank_bound. Qed.

Lemma marks_spec ds ps :
  (∀ d, d ∈ ds → d < component_count) → length (view ps.2) = component_count →
  let ps' := foldl (λ ps d, mark true d ps) ps ds in
  marked (λ x, ∃ d, d ∈ ds ∧ rtc needs d x) (view ps.2) (view ps'.2) ∧
  trace ps'.2 = trace ps.2.
Proof.
  intros Hds Hl. apply mark_fold; [done|]. intros d ps' Hd Hl'. apply mark_top; auto.
Qed.

(** [P] contains what its members require. *)
Definition downward (P : nat → Prop) : Prop := ∀ c d, P c → needs c d → P d.

Lemma downward_rtc c : downward (rtc needs c).
Proof. intros x d Hx Hd. by eapply rtc_r. Qed.
Lemma downward_some (ds : list nat) : downward (λ x, ∃ d, d ∈ ds ∧ rtc needs d x).
Proof. intros x y (d & Hd & Hr) Hn. exists d. split; [done|]. by eapply rtc_r. Qed.
Lemma downward_or P Q : downward P → downward Q → downward (λ c, P c ∨ Q c).
Proof. intros HP HQ c d [H|H] Hn; [left; by eapply HP|right; by eapply HQ]. Qed.

Lemma contain_effect c x s x' s' :
  c < component_count → length (view s) = component_count →
  contain_execution c (x, s) = (x', s') →
  (f_executing (default initial_flags (view s !! c)) && participates c = false ∧
   x' = x ∧ s' = s) ∨
  (f_executing (default initial_flags (view s !! c)) = true ∧ ∃ k,
   k = contain (trace s) c ∧ (unclean k = false → failures x' = failures x) ∧
   trace s' = trace s ++ [EContain c k] ∧
   if contained k then
     view s' = alter (with_contained true) c (view s) ∧
     uncontained_execution x' = uncontained_execution x
   else
     uncontained_execution x' = Datatypes.S (uncontained_execution x) ∧
     ∃ P : nat → Prop, P c ∧ downward P ∧ marked P (alter (with_contained false) c (view s)) (view s')).
Proof.
  intros Hc Hl. unfold contain_execution. pose proof (flags_copy c s) as Hf.
  set (f := default initial_flags (view s !! c)) in *.
  assert (execution_prepared (record_copy c s) = f_prepared f) as -> by by rewrite <-Hf.
  assert (execution_contained (record_copy c s) = f_contained f) as -> by by rewrite <-Hf.
  destruct (participates c); cbn [negb]; [|intros [= <- <-]; left; by rewrite andb_false_r].
  rewrite andb_true_r. unfold f_executing.
  destruct (f_prepared f) eqn:Hp, (f_contained f) eqn:Hk; cbn [negb orb andb];
    try (intros [= <- <-]; by left).
  intros H. right. split; [done|]. cbv zeta in H. rewrite trace_mutate in H.
  set (k := contain (trace s) c) in *. exists k. split; [done|].
  set (s2 := mutate_record c _ (call _ _)) in H.
  assert (view s2 = alter (with_contained (contained k)) c (view s)) as Hv2.
  { unfold s2. rewrite (view_mutate _ _ (with_contained (contained k))).
    - by effect.
    - intros r. unfold on. by destruct (contained k). }
  assert (trace s2 = trace s ++ [EContain c k]) as Ht2 by (unfold s2; by effect).
  destruct (contained k) eqn:Hck.
  - destruct (unclean k); injection H as <- <-;
      rewrite ?trace_record_failure, ?view_record_failure; done.
  - destruct (mark_top false c (preserved_dependencies (count_containment k x), s2))
      as [Hm Ht]; [done|simpl; by rewrite Hv2, length_alter|].
    cbn [preserved_dependencies add_uncontained] in H.
    change (preserved_dependencies (count_containment k x)) with (preserved_dependencies x) in *.
    set (ps := mark false c (preserved_dependencies x, s2)) in *.
    destruct (marks_spec (uncontained_dependencies (trace s2) c) ps) as [Hm' Ht'];
      [apply wf_uncontained|destruct Hm as [-> _]; simpl; by rewrite Hv2, length_alter|].
    set (ps' := foldl (λ ps d, mark true d ps) ps (uncontained_dependencies (trace s2) c)) in *.
    destruct ps' as [preserved s3]. cbn [snd] in *.
    assert (uncontained_execution x' = Datatypes.S (uncontained_execution x) ∧
            (unclean k = false → failures x' = failures x) ∧
            view s' = view s3 ∧ trace s' = trace s3) as (-> & Hfl & -> & ->).
    { destruct (unclean k); injection H as <- <-;
        rewrite ?trace_record_failure, ?view_record_failure; simpl; split; (lia || done). }
    split; [exact Hfl|]. split; [by rewrite Ht', Ht, Ht2|]. split; [done|].
    exists (λ y, rtc needs c y ∨ ∃ d, d ∈ uncontained_dependencies (trace s2) c ∧ rtc needs d y).
    split; [by left|]. split; [apply downward_or; [apply downward_rtc|apply downward_some]|].
    rewrite <-Hv2. by eapply marked_trans.
Qed.

Lemma contain_system_effect x s x' s' :
  length (view s) = component_count →
  contain_system_execution (x, s) = (x', s') →
  (trace s' = trace s ∨ ∃ k, trace s' = trace s ++ [ESystemContain k]) ∧
  uncontained_execution x ≤ uncontained_execution x' ∧
  ∃ P : nat → Prop, downward P ∧ marked P (view s) (view s') ∧
    (uncontained_execution x' = uncontained_execution x → ∀ c, ¬ P c).
Proof.
  intros Hl. unfold contain_system_execution. destruct system_participates; cbn [negb];
    [|intros [= <- <-]; split; [by left|]; split; [done|]; exists (λ _, False);
      split; [by intros ???|]; split; [apply marked_refl|tauto]].
  cbv zeta. set (k := system_contain (trace s)). set (s1 := call _ s).
  assert (view s1 = view s) as Hv by apply view_call.
  assert (trace s1 = trace s ++ [ESystemContain k]) as Ht by apply trace_call.
  destruct (contained k).
  - intros H. assert (uncontained_execution x' = uncontained_execution x ∧ s' = s1) as [-> ->]
      by (destruct (unclean k); by injection H as <- <-).
    split; [eauto|]. split; [done|]. exists (λ _, False). rewrite Hv.
    split; [by intros ???|]. split; [apply marked_refl|tauto].
  - destruct (marks_spec (system_uncontained_dependencies (trace s1))
      (preserved_dependencies x, s1)) as [Hm Ht'];
      [apply wf_system_uncontained|simpl; by rewrite Hv|].
    cbn [add_uncontained preserved_dependencies].
    set (ps := foldl _ (preserved_dependencies x, s1) _) in *. destruct ps as [p s2].
    cbn [snd] in *. intros H.
    set (n := if system_uncontained_count (trace s1) =? 0 then 1
              else system_uncontained_count (trace s1)) in *.
    assert (0 < n) by (unfold n; destruct (Nat.eqb_spec (system_uncontained_count (trace s1)) 0); lia).
    assert (uncontained_execution x' = uncontained_execution x + n ∧ s' = s2) as [-> ->]
      by (destruct (unclean k); by injection H as <- <-).
    split; [right; eexists; by rewrite Ht', Ht|]. split; [lia|]. eexists.
    split; [apply downward_some|]. rewrite <-Hv. split; [exact Hm|lia].
Qed.
End Mark.
