(* ===== verification/LifecycleSafety.v ===== *)
(** * LifecycleSafety: requirements are up as long as they are used

    A ledger read off the trace says which components are initialised,
    started and executing.  Every call the engine makes is permitted by the
    ledger: a component is touched only while everything it requires is up,
    and taken down only when nothing that requires it is left. *)
From stdpp Require Import prelude.
From S2P Require Import Prelude Status TypeGraph Lifecycle LifecycleEffects.

Open Scope nat_scope.

(** ** The ledger *)
Section Ledger.
Context {S : System}.

Definition live_step (c : nat) (b : bool) (e : Event) : bool :=
  match e with
  | EInit x None => bool_decide (x = c) || b
  | EDeinit x _ => negb (bool_decide (x = c)) && b
  | _ => b
  end.
(** A component with execution counts as started once its execution is
    prepared. *)
Definition started_step (c : nat) (b : bool) (e : Event) : bool :=
  match e with
  | EStart x None => (bool_decide (x = c) && negb (participates x)) || b
  | EPrepare x None => bool_decide (x = c) || b
  | EStop x _ => negb (bool_decide (x = c)) && b
  | _ => b
  end.
Definition executing_step (c : nat) (b : bool) (e : Event) : bool :=
  match e with
  | EPrepare x None => bool_decide (x = c) || b
  | EContain x k => negb (bool_decide (x = c) && contained k) && b
  | _ => b
  end.
Definition live (t : list Event) (c : nat) : bool := foldl (live_step c) false t.
Definition started (t : list Event) (c : nat) : bool := foldl (started_step c) false t.
Definition executing (t : list Event) (c : nat) : bool := foldl (executing_step c) false t.

Lemma live_snoc t e c : live (t ++ [e]) c = live_step c (live t c) e.
Proof. unfold live. by rewrite foldl_app. Qed.
Lemma started_snoc t e c : started (t ++ [e]) c = started_step c (started t c) e.
Proof. unfold started. by rewrite foldl_app. Qed.
Lemma executing_snoc t e c : executing (t ++ [e]) c = executing_step c (executing t c) e.
Proof. unfold executing. by rewrite foldl_app. Qed.

(** What may be called after the trace [t]. *)
Definition permitted (t : list Event) (e : Event) : Prop :=
  match e with
  | EInit c _ => live t c = false ∧ ∀ d, needs c d → live t d = true
  | EStart c _ | EPrepare c _ =>
    live t c = true ∧ started t c = false ∧ executing t c = false ∧
    ∀ d, needs c d → started t d = true
  | EValidate c _ | EActivate c | ERequestStop c _ | EContain c _ => executing t c = true
  | EStop c _ =>
    started t c = true ∧ executing t c = false ∧
    ∀ b, b < component_count → needs b c → started t b = false
  | EDeinit c _ =>
    live t c = true ∧ started t c = false ∧
    ∀ b, b < component_count → needs b c → live t b = false
  | _ => True
  end.

Inductive safe : list Event → Prop :=
  | safe_nil : safe []
  | safe_snoc t e : safe t → permitted t e → safe (t ++ [e]).

(** What is up rests on what is up. *)
Definition supported (t : list Event) : Prop :=
  ∀ c, c < component_count →
    (executing t c = true → started t c = true ∧ participates c = true) ∧
    (started t c = true → live t c = true ∧ ∀ d, needs c d → started t d = true) ∧
    (live t c = true → ∀ d, needs c d → live t d = true).

(** The flags say what the ledger says. *)
Definition agrees (v : list Flags) (t : list Event) : Prop :=
  length v = component_count ∧
  ∀ c, c < component_count →
    let f := default initial_flags (v !! c) in
    f_init f = live t c ∧ f_start f = started t c ∧ f_prepared f = executing t c ∧
    (f_prepared f = true → f_contained f = false).

Definition invariant (v : list Flags) (t : list Event) : Prop :=
  agrees v t ∧ safe t ∧ supported t ∧ downward (blocked v).
Definition Inv (s : Storage) : Prop := invariant (view s) (trace s).
End Ledger.

(** ** The invariant is kept by each permitted call *)
Section Steps.
Context {S : System} {W : WfSystem S}.

Lemma default_alter (g : Flags → Flags) c x (v : list Flags) :
  x < length v →
  default initial_flags (alter g c v !! x)
  = if decide (x = c) then g (default initial_flags (v !! x)) else default initial_flags (v !! x).
Proof.
  intros Hx. destruct (lookup_lt_is_Some_2 v x Hx) as [f Hf].
  case_decide; subst; [by rewrite list_lookup_alter_eq, Hf|by rewrite list_lookup_alter_ne].
Qed.

(** Calls that change nothing in the ledger. *)
Definition neutral (e : Event) : Prop :=
  ∀ t c, live (t ++ [e]) c = live t c ∧ started (t ++ [e]) c = started t c ∧
         executing (t ++ [e]) c = executing t c.

Lemma inv_neutral v t e :
  invariant v t → neutral e → permitted t e → invariant v (t ++ [e]).
Proof.
  intros ([Hl Ha] & Hs & Hup & Hd) Hn Hp. split; [|split; [by constructor|split; [|done]]].
  - split; [done|]. intros c Hc. destruct (Hn t c) as (-> & -> & ->). by apply Ha.
  - intros c Hc. destruct (Hn t c) as (-> & -> & ->).
    destruct (Hup c Hc) as (H1 & H2 & H3). split; [done|]. split.
    + intros H. destruct (H2 H) as [? H2']. split; [done|]. intros d Hcd.
      destruct (Hn t d) as (_ & -> & _). by apply H2'.
    + intros H d Hcd. destruct (Hn t d) as (-> & _ & _). by apply H3.
Qed.

Lemma blocked_alter g c v x :
  (∀ f, f_blocked (g f) = f_blocked f) → blocked (alter g c v) x ↔ blocked v x.
Proof.
  intros Hg. unfold blocked. destruct (decide (x = c)) as [->|Hne].
  - rewrite list_lookup_alter_eq. destruct (v !! c) as [f|]; simpl; [by rewrite Hg|done].
  - by rewrite list_lookup_alter_ne.
Qed.
Lemma downward_blocked_alter g c v :
  (∀ f, f_blocked (g f) = f_blocked f) → downward (blocked v) → downward (blocked (alter g c v)).
Proof. intros Hg Hd x y. rewrite !blocked_alter by done. apply Hd. Qed.

(** The ledger after one more call, as propositions. *)
Ltac ledger :=
  unfold supported, permitted in *;
  repeat setoid_rewrite live_snoc; repeat setoid_rewrite started_snoc;
  repeat setoid_rewrite executing_snoc; cbn [live_step started_step executing_step] in *;
  repeat setoid_rewrite orb_true_iff; repeat setoid_rewrite andb_true_iff;
  repeat setoid_rewrite negb_true_iff; repeat setoid_rewrite andb_false_iff;
  repeat setoid_rewrite bool_decide_eq_true; repeat setoid_rewrite bool_decide_eq_false.

(** A change of one component's flags and the call that goes with it. *)
Lemma inv_step g c v t e :
  invariant v t → c < component_count → permitted t e →
  (∀ f, f_blocked (g f) = f_blocked f) →
  (∀ x, x < component_count →
    let f := default initial_flags (v !! x) in
    let f' := if decide (x = c) then g f else f in
    f_init f = live t x → f_start f = started t x → f_prepared f = executing t x →
    (f_prepared f = true → f_contained f = false) →
    f_init f' = live (t ++ [e]) x ∧ f_start f' = started (t ++ [e]) x ∧
    f_prepared f' = executing (t ++ [e]) x ∧ (f_prepared f' = true → f_contained f' = false)) →
  supported (t ++ [e]) → invariant (alter g c v) (t ++ [e]).
Proof.
  intros ([Hl Ha] & Hs & Hup & Hd) Hc Hp Hb Hstep Hup'.
  split; [|split; [by constructor|split; [done|by apply downward_blocked_alter]]].
  split; [by rewrite length_alter|]. intros x Hx. rewrite default_alter by lia.
  destruct (Ha x Hx) as (H1 & H2 & H3 & H4). by apply Hstep.
Qed.

Ltac step :=
  rewrite ?live_snoc, ?started_snoc, ?executing_snoc;
  cbn [live_step started_step executing_step];
  repeat (case_decide || case_bool_decide); simplify_eq;
  cbn; rewrite ?andb_true_r, ?orb_false_r, ?orb_true_r, ?andb_false_r;
  auto.

Lemma inv_init v t c r :
  invariant v t → c < component_count → permitted t (EInit c r) →
  invariant (if r then v else alter (with_init true) c v) (t ++ [EInit c r]).
Proof.
  intros Hinv Hc Hp. destruct r as [st|]; [apply inv_neutral; [done| |done]|].
  { intros t' c'. by step. }
  apply inv_step; [done..| |].
  - intros x Hx f f' H1 H2 H3 H4. unfold f'. by step.
  - destruct Hinv as (_ & _ & Hup & _). ledger. naive_solver.
Qed.

Lemma inv_start v t c r :
  invariant v t → c < component_count → permitted t (EStart c r) → participates c = false →
  invariant (if r then v else alter (with_start true) c v) (t ++ [EStart c r]).
Proof.
  intros Hinv Hc Hp Hpart. destruct r as [st|]; [apply inv_neutral; [done| |done]|].
  { intros t' c'. by step. }
  apply inv_step; [done..| |].
  - intros x Hx f f' H1 H2 H3 H4. unfold f'. rewrite started_snoc. cbn [started_step].
    rewrite Hpart. by step.
  - destruct Hinv as (_ & _ & Hup & _). ledger. naive_solver.
Qed.

Lemma inv_start_participates v t c r :
  invariant v t → permitted t (EStart c r) → participates c = true →
  invariant v (t ++ [EStart c r]).
Proof.
  intros Hinv Hp Hpart. apply inv_neutral; [done| |done]. intros t' c'.
  rewrite live_snoc, started_snoc, executing_snoc. cbn [live_step started_step executing_step].
  destruct r; [done|]. by rewrite Hpart, andb_false_r.
Qed.

Lemma inv_prepare v t c r :
  invariant v t → c < component_count → permitted t (EPrepare c r) → participates c = true →
  invariant (if r then v else alter (with_start true ∘ with_prepared) c v) (t ++ [EPrepare c r]).
Proof.
  intros Hinv Hc Hp Hpart. destruct r as [st|]; [apply inv_neutral; [done| |done]|].
  { intros t' c'. by step. }
  apply inv_step; [done..| |].
  - intros x Hx f f' H1 H2 H3 H4. unfold f'. by step.
  - destruct Hinv as (_ & _ & Hup & _). ledger. naive_solver.
Qed.

Lemma inv_stop v t c r :
  invariant v t → c < component_count → permitted t (EStop c r) →
  invariant (alter (with_start false) c v) (t ++ [EStop c r]).
Proof.
  intros Hinv Hc Hp. apply inv_step; [done..| |].
  - intros x Hx f f' H1 H2 H3 H4. unfold f'. by step.
  - destruct Hinv as (_ & _ & Hup & _). ledger. destruct Hp as (Hp1 & Hp2 & Hp3).
    intros b Hb. destruct (Hup b Hb) as (H1 & H2 & H3). split; [|split; [|done]].
    + intros He. destruct (H1 He). split; [|done]. split; [|done]. congruence.
    + intros [Hne Hst]. destruct (H2 Hst) as [Hl Hneeds]. split; [done|].
      intros d Hd. split; [|by apply Hneeds]. intros ->. rewrite Hp3 in Hst; done.
Qed.

Lemma inv_deinit v t c r :
  invariant v t → c < component_count → permitted t (EDeinit c r) →
  invariant (alter (with_init false) c v) (t ++ [EDeinit c r]).
Proof.
  intros Hinv Hc Hp. apply inv_step; [done..| |].
  - intros x Hx f f' H1 H2 H3 H4. unfold f'. by step.
  - destruct Hinv as (_ & _ & Hup & _). ledger. destruct Hp as (Hp1 & Hp2 & Hp3).
    intros b Hb. destruct (Hup b Hb) as (H1 & H2 & H3). split; [done|]. split.
    + intros Hst. destruct (H2 Hst) as [Hl Hneeds]. split; [|done]. split; [congruence|done].
    + intros [Hne Hl] d Hd. split; [|by apply H3]. intros ->. rewrite Hp3 in Hl; done.
Qed.

Lemma inv_contained v t c k :
  invariant v t → c < component_count → permitted t (EContain c k) →
  invariant (alter (with_contained (contained k)) c v) (t ++ [EContain c k]).
Proof.
  intros Hinv Hc Hp. apply inv_step; [done..| |].
  - intros x Hx f f' H1 H2 H3 H4. unfold f'. destruct (contained k) eqn:Hk; rewrite executing_snoc;
      cbn [executing_step]; rewrite Hk; step.
  - destruct Hinv as (_ & _ & Hup & _). ledger. naive_solver.
Qed.

Lemma inv_marked P v v' t :
  invariant v t → marked P v v' → downward P → invariant v' t.
Proof.
  intros ([Hl Ha] & Hs & Hup & Hd) [Hl' Hm] HP. split; [|split; [done|split; [done|]]].
  - split; [lia|]. intros c Hc. destruct (Hm c) as [(H1 & H2 & H3 & H4) _]; [lia|].
    cbv zeta. rewrite H1, H2, H3, H4. by apply Ha.
  - intros c d Hc Hn. assert (c < component_count) as Hcn.
    { destruct (decide (c < component_count)); [done|]. unfold blocked in Hc.
      by rewrite (proj2 (lookup_ge_None _ _)) in Hc by lia. }
    destruct (rank_needs c d Hcn Hn) as [Hdn _].
    apply Hm in Hc; [|lia]. apply Hm; [lia|]. destruct Hc; [left; by eapply Hd|right; by eapply HP].
Qed.

Lemma inv_neutral_call v t e :
  invariant v t → permitted t e →
  match e with
  | EInit _ _ | EStart _ _ | EPrepare _ _ | EStop _ _ | EDeinit _ _ | EContain _ _ => False
  | _ => True
  end → invariant v (t ++ [e]).
Proof.
  intros Hinv Hp He. apply inv_neutral; [done| |done]. intros t' c'.
  rewrite live_snoc, started_snoc, executing_snoc. by destruct e.
Qed.
End Steps.

(** ** The operations keep the invariant *)
Section Operations.
Context {S : System} {W : WfSystem S}.

(** The flags of a component, by the ledger. *)
Lemma inv_flags s c :
  Inv s → c < component_count →
  let f := default initial_flags (view s !! c) in
  f_init f = live (trace s) c ∧ f_start f = started (trace s) c ∧
  f_prepared f = executing (trace s) c ∧ f_executing f = executing (trace s) c.
Proof.
  intros ([_ Ha] & _) Hc f. destruct (Ha c Hc) as (H1 & H2 & H3 & H4). fold f in H1, H2, H3, H4.
  repeat split; [done..|]. unfold f_executing. destruct (f_prepared f); [by rewrite H4|done].
Qed.
Lemma inv_length s : Inv s → length (view s) = component_count.
Proof. by intros ([? _] & _). Qed.

Definition unblocked (s : Storage) : Prop := ∀ c, ¬ blocked (view s) c.
Definition nothing (t : list Event) (f : list Event → nat → bool) : Prop :=
  ∀ c, c < component_count → f t c = false.

Lemma inv_same s s' : view s' = view s → trace s' = trace s → Inv s → Inv s'.
Proof. unfold Inv. by intros -> ->. Qed.
Lemma unblocked_same s s' : view s' = view s → unblocked s → unblocked s'.
Proof. unfold unblocked. by intros ->. Qed.
Lemma unblocked_alter g c s s' :
  (∀ f, f_blocked (g f) = f_blocked f) → view s' = alter g c (view s) →
  unblocked s → unblocked s'.
Proof.
  unfold unblocked. intros Hg -> Hu x Hb. apply (blocked_alter g) in Hb; [by eapply Hu|done].
Qed.

(** *** Boot: initialisation *)
Lemma init_pass before cs s f n s' :
  topological_order = before ++ cs →
  Inv s → unblocked s → nothing (trace s) started →
  (∀ c, c < component_count → live (trace s) c = bool_decide (c ∈ before)) →
  each_until boot_init_one cs s = (f, n, s') →
  Inv s' ∧ unblocked s' ∧ nothing (trace s') started ∧
  (f = None → n = length cs ∧ ∀ c, c < component_count → live (trace s') c = true).
Proof.
  revert before s f n s'. induction cs as [|c cs IH];
    intros before s f n s' Hord Hinv Hu Hst Hlive H; cbn [each_until] in H.
  { injection H as <- <- <-. split; [done|]. split; [done|]. split; [done|]. intros _.
    split; [done|]. intros c Hc. rewrite Hlive by done. apply bool_decide_eq_true.
    rewrite app_nil_r in Hord. rewrite <-Hord. by apply elem_of_order. }
  assert (c < component_count) as Hc
    by (apply elem_of_order; rewrite Hord; apply elem_of_app; right; apply elem_of_cons; auto).
  destruct order_facts as (_ & Hnd & _ & Hneeds).
  destruct (boot_init_one c s) as [fc sc] eqn:Hone. unfold boot_init_one in Hone.
  destruct (initialize_component c s) as [r s1] eqn:Hi.
  apply initialize_effect in Hi as [Ht Hv].
  assert (permitted (trace s) (EInit c r)) as Hp.
  { split.
    - rewrite Hlive by done. apply bool_decide_eq_false. intros Hin. rewrite Hord in Hnd.
      apply NoDup_app in Hnd as (_ & Hnd & _). apply (Hnd c Hin), elem_of_cons. auto.
    - intros d Hd. destruct (rank_needs c d Hc Hd) as [Hdn _]. rewrite Hlive by done.
      apply bool_decide_eq_true. by eapply Hneeds. }
  pose proof (inv_init _ _ c r Hinv Hc Hp) as Hinv1. rewrite <-Ht, <-Hv in Hinv1.
  assert (nothing (trace s1) started) as Hst1.
  { intros x Hx. rewrite Ht, started_snoc. by apply Hst. }
  destruct r as [st|].
  - injection Hone as <- <-. injection H as <- <- <-.
    split; [by eapply inv_same; [apply view_record_failure|apply trace_record_failure|]|].
    split; [eapply unblocked_same, Hu; by rewrite view_record_failure|].
    by rewrite trace_record_failure.
  - injection Hone as <- <-. destruct (each_until boot_init_one cs s1) as [[f' n'] s2] eqn:Hcs. injection H as <- <- <-.
    eapply (IH (before ++ [c])) in Hcs as (? & ? & ? & Hok); [|by rewrite <-app_assoc|done| |done|].
    + split; [done|]. split; [done|]. split; [done|]. intros Hf.
      destruct (Hok Hf) as [-> ?]. done.
    + eapply unblocked_alter, Hu; [|exact Hv]. done.
    + intros x Hx. rewrite Ht, live_snoc. cbn [live_step]. rewrite Hlive by done.
      apply eq_true_iff_eq. rewrite orb_true_iff, !bool_decide_eq_true, elem_of_app,
        list_elem_of_singleton. naive_solver.
Qed.

(** *** Boot: start *)
Lemma start_pass before cs s f n s' :
  topological_order = before ++ cs →
  Inv s → unblocked s → (∀ c, c < component_count → live (trace s) c = true) →
  (∀ c, c < component_count → started (trace s) c = bool_decide (c ∈ before)) →
  each_until boot_start_one cs s = (f, n, s') →
  Inv s' ∧ unblocked s' ∧
  (f = None → n = length cs ∧ ∀ c, c < component_count → started (trace s') c = true).
Proof.
  revert before s f n s'. induction cs as [|c cs IH];
    intros before s f n s' Hord Hinv Hu Hlive Hst H; cbn [each_until] in H.
  { injection H as <- <- <-. split; [done|]. split; [done|]. intros _.
    split; [done|]. intros c Hc. rewrite Hst by done. apply bool_decide_eq_true.
    rewrite app_nil_r in Hord. rewrite <-Hord. by apply elem_of_order. }
  assert (c < component_count) as Hc
    by (apply elem_of_order; rewrite Hord; apply elem_of_app; right; apply elem_of_cons; auto).
  destruct order_facts as (_ & Hnd & _ & Hneeds).
  assert (started (trace s) c = false) as Hns.
  { rewrite Hst by done. apply bool_decide_eq_false. intros Hin. rewrite Hord in Hnd.
    apply NoDup_app in Hnd as (_ & Hnd & _). apply (Hnd c Hin), elem_of_cons. auto. }
  assert (∀ r, permitted (trace s) (EStart c r)) as Hp.
  { intros r. split; [by apply Hlive|]. split; [done|]. split.
    - destruct (executing (trace s) c) eqn:Hex; [|done].
      destruct Hinv as (_ & _ & Hup & _). apply Hup in Hex as [? _]; [congruence|done].
    - intros d Hd. destruct (rank_needs c d Hc Hd) as [Hdn _]. rewrite Hst by done.
      apply bool_decide_eq_true. by eapply Hneeds. }
  destruct (boot_start_one c s) as [fc sc] eqn:Hone. unfold boot_start_one in Hone.
  destruct (start_component c s) as [r s1] eqn:Hi.
  assert (Inv s1 ∧ unblocked s1 ∧ (∀ x, live (trace s1) x = live (trace s) x) ∧
          (r = None → ∀ x, started (trace s1) x = bool_decide (c = x) || started (trace s) x))
    as (Hinv1 & Hu1 & Hl1 & Hs1).
  { apply start_effect in Hi as [(st & -> & Ht & Hv)|[(Hpart & -> & Ht & Hv)|(Hpart & Ht & Hv)]].
    - unfold Inv. rewrite Ht, Hv. split; [|split; [by eapply unblocked_same|split; [|done]]].
      + destruct (participates c) eqn:Hpart; [by apply inv_start_participates|].
        by apply (inv_start _ _ c (Some st)).
      + intros x. by rewrite live_snoc.
    - unfold Inv. rewrite Ht, Hv. split; [by apply (inv_start _ _ c None)|].
      split; [by eapply unblocked_alter, Hu; [|exact Hv]|]. split; intros; rewrite ?live_snoc; [done|].
      rewrite started_snoc. cbn [started_step]. by rewrite Hpart, andb_true_r.
    - rewrite app_assoc in Ht.
      pose proof (inv_start_participates _ _ c None Hinv (Hp None) Hpart) as Hinv0.
      assert (permitted (trace s ++ [EStart c None]) (EPrepare c r)) as Hp0.
      { cbn [permitted]. rewrite live_snoc, started_snoc, executing_snoc.
        cbn [live_step started_step executing_step]. rewrite Hpart, andb_false_r.
        destruct (Hp r) as (? & ? & ? & Hneed). split; [done|]. split; [done|]. split; [done|].
        intros d Hd. rewrite started_snoc. cbn [started_step].
        by rewrite Hpart, andb_false_r, Hneed. }
      pose proof (inv_prepare _ _ c r Hinv0 Hc Hp0 Hpart) as Hinv1.
      unfold Inv. rewrite Ht, Hv. split; [done|]. split.
      { destruct r; [by eapply unblocked_same|by eapply unblocked_alter, Hu; [|exact Hv]]. }
      split; intros; rewrite ?live_snoc; [by destruct r|]. subst r.
      rewrite !started_snoc. cbn [started_step]. by rewrite Hpart, andb_false_r. }
  destruct r as [st|].
  - injection Hone as <- <-. injection H as <- <- <-.
    split; [by eapply inv_same; [apply view_record_failure|apply trace_record_failure|]|].
    split; [|done]. eapply unblocked_same, Hu1. by rewrite view_record_failure.
  - injection Hone as <- <-. destruct (each_until boot_start_one cs s1) as [[f' n'] s2] eqn:Hcs. injection H as <- <- <-.
    eapply (IH (before ++ [c])) in Hcs as (? & ? & Hok); [|by rewrite <-app_assoc|done..| |].
    + split; [done|]. split; [done|]. intros Hf. destruct (Hok Hf) as [-> ?]. done.
    + intros x Hx. rewrite Hl1. by apply Hlive.
    + intros x Hx. rewrite Hs1, Hst by done.
      apply eq_true_iff_eq. rewrite orb_true_iff, !bool_decide_eq_true, elem_of_app,
        list_elem_of_singleton. naive_solver.
Qed.

(** *** Steps that leave the ledger and the flags alone *)
Definition same_ledger (t t' : list Event) : Prop :=
  ∀ c, live t' c = live t c ∧ started t' c = started t c ∧ executing t' c = executing t c.
Definition mild (s s' : Storage) : Prop :=
  Inv s' ∧ view s' = view s ∧ same_ledger (trace s) (trace s').

Lemma mild_refl s : Inv s → mild s s.
Proof. by intros. Qed.
Lemma mild_trans s s' s'' : mild s s' → mild s' s'' → mild s s''.
Proof.
  intros (_ & Hv & Hl) (Hi & Hv' & Hl'). split; [done|]. split; [congruence|].
  intros c. destruct (Hl c) as (<- & <- & <-). apply Hl'.
Qed.
Lemma mild_same s s' : view s' = view s → trace s' = trace s → Inv s → mild s s'.
Proof.
  intros Hv Ht Hi. split; [by eapply inv_same|]. split; [done|]. by rewrite Ht.
Qed.

(** Events that are not in the ledger. *)
Definition other (e : Event) : Prop :=
  match e with
  | EInit _ _ | EStart _ _ | EPrepare _ _ | EStop _ _ | EDeinit _ _ | EContain _ _ => False
  | _ => True
  end.

Lemma mild_event e s s' :
  view s' = view s → trace s' = trace s ++ [e] → other e → permitted (trace s) e → Inv s →
  mild s s'.
Proof.
  intros Hv Ht He Hp Hi. unfold mild, Inv. rewrite Hv, Ht.
  split; [apply inv_neutral_call; [done|done|by destruct e]|]. split; [done|].
  intros c. rewrite live_snoc, started_snoc, executing_snoc. by destruct e.
Qed.

Lemma mild_fold {A} (f : Storage → A → Storage) (l : list A) s :
  (∀ s x, x ∈ l → Inv s → mild s (f s x)) → Inv s → mild s (foldl f s l).
Proof.
  revert s; induction l as [|x l IH]; intros s Hf Hi; simpl; [by apply mild_refl|].
  pose proof (Hf s x ltac:(apply elem_of_cons; auto) Hi) as Hm.
  eapply mild_trans; [exact Hm|]. apply IH; [|apply Hm].
  intros s' y Hy. apply Hf, elem_of_cons. auto.
Qed.

Lemma mild_each body cs s f n s' :
  (∀ c s f s', c ∈ cs → Inv s → body c s = (f, s') → mild s s') →
  Inv s → each_until body cs s = (f, n, s') → mild s s' ∧ (f = None → n = length cs).
Proof.
  revert s f n s'; induction cs as [|c cs IH]; intros s f n s' Hb Hi H; cbn [each_until] in H.
  { injection H as <- <- <-. by split; [apply mild_refl|]. }
  destruct (body c s) as [fc s1] eqn:Hc.
  pose proof (Hb c s fc s1 ltac:(apply elem_of_cons; auto) Hi Hc) as Hm.
  destruct fc as [fc|].
  - injection H as <- <- <-. by split.
  - destruct (each_until body cs s1) as [[f' n'] s2] eqn:Hcs. injection H as <- <- <-.
    apply IH in Hcs as [Hm' Hn];
      [|intros c' t f t' Hc'; apply Hb, elem_of_cons; auto|apply Hm].
    split; [by eapply mild_trans|]. intros Hf. by rewrite Hn.
Qed.

Lemma mild_validate c s r s' :
  c < component_count → Inv s → validate_execution c s = (r, s') → mild s s'.
Proof.
  intros Hc Hi H. apply validate_effect in H as [(_ & _ & ->)|([_ Hp]%andb_true_iff & _ & Hv & Ht)];
    [by apply mild_same|].
  eapply mild_event; [done|exact Ht|done| |done].
  destruct (inv_flags s c Hi Hc) as (_ & _ & H3 & _). simpl. congruence.
Qed.

Lemma mild_validate_one c s f s' :
  c ∈ topological_order → Inv s → boot_validate_one c s = (f, s') → mild s s'.
Proof.
  intros Hc%elem_of_order Hi. unfold boot_validate_one.
  destruct (validate_execution c s) as [r s1] eqn:Hv. apply mild_validate in Hv; [|done..].
  destruct r as [st|]; intros [= <- <-]; [|done].
  eapply mild_trans; [exact Hv|]. apply mild_same; [apply view_record_failure| |apply Hv].
  apply trace_record_failure.
Qed.

Lemma mild_activate s c : c ∈ topological_order → Inv s → mild s (activate_execution c s).
Proof.
  intros Hc%elem_of_order Hi.
  destruct (activate_effect c s) as [[_ ->]|([_ Hp]%andb_true_iff & Hv & Ht)];
    [by apply mild_same|].
  eapply mild_event; [done|exact Ht|done| |done].
  destruct (inv_flags s c Hi Hc) as (_ & _ & H3 & _). simpl. congruence.
Qed.

Lemma mild_call e s :
  match e with
  | ESystemPrepare _ | ESystemValidate _ | ESystemActivate | ESystemRequestStop _
  | ESystemContain _ | ECommit _ _ | EActivateCatalog _ => True
  | _ => False
  end → Inv s → mild s (call e s).
Proof.
  intros He Hi. eapply mild_event; [apply view_call|apply trace_call|by destruct e| |done].
  by destruct e.
Qed.

Lemma mild_system_step op res ev s f s' :
  (∀ r, match ev r with ESystemPrepare _ | ESystemValidate _ => True | _ => False end) →
  Inv s → boot_system_step op res ev s = (f, s') → mild s s'.
Proof.
  intros He Hi. unfold boot_system_step. destruct system_participates;
    [|intros [= <- <-]; by apply mild_refl].
  assert (∀ r, mild s (call (ev r) s)) as Hm.
  { intros r. apply mild_call; [|done]. specialize (He r). by destruct (ev r). }
  cbv zeta. destruct (res (trace s)); intros [= <- <-]; apply Hm.
Qed.

Lemma mild_boot_commit s fe s' : Inv s → boot_commit s = (fe, s') → mild s s'.
Proof.
  intros Hi. unfold boot_commit.
  destruct (boot_system_step OPrepareExecution _ _ s) as [f1 s1] eqn:H1.
  apply mild_system_step in H1; [|done|done].
  destruct f1; [by intros [= <- <-]|].
  destruct (each_until boot_validate_one topological_order s1) as [[f2 n2] s2] eqn:H2.
  apply mild_each in H2 as [H2 _]; [|intros; by eapply mild_validate_one|apply H1].
  pose proof (mild_trans _ _ _ H1 H2) as H12. destruct f2; [by intros [= <- <-]|].
  destruct (boot_system_step OValidateExecution _ _ s2) as [f3 s3] eqn:H3.
  apply mild_system_step in H3; [|done|apply H2].
  pose proof (mild_trans _ _ _ H12 H3) as H13. destruct f3; [by intros [= <- <-]|].
  unfold commit_catalog_activation.
  destruct (each_until commit_one catalogs s3) as [[f4 n4] s4] eqn:H4.
  apply mild_each in H4 as [H4 _]; [| |apply H3].
  - pose proof (mild_trans _ _ _ H13 H4). by destruct f4; intros [= <- <-].
  - intros c s0 f s0' _ Hi0. unfold commit_one. cbv zeta.
    assert (∀ r, mild s0 (call (ECommit c r) s0)) by (intros; by apply mild_call).
    destruct (commit (trace s0) c); intros [= <- <-]; done.
Qed.

Lemma mild_boot_running report s r s' :
  Inv s → boot_running report s = (r, s') → mild s s'.
Proof.
  intros Hi H. unfold boot_running in H. injection H as <- <-.
  set (s1 := foldl _ s topological_order).
  assert (mild s s1) as H1.
  { apply mild_fold; [|done]. intros s0 c _ Hi0. apply mild_same; [|apply trace_mutate|done].
    by apply view_mutate_id. }
  set (s2 := publish_boot _ _).
  assert (mild s s2) as H2.
  { eapply mild_trans; [exact H1|]. apply mild_same; [|unfold s2; by rewrite trace_publish_boot
      |apply H1]. unfold s2. by rewrite view_publish_boot. }
  set (s3 := if system_participates then _ else _).
  assert (mild s s3) as H3.
  { eapply mild_trans; [exact H2|]. unfold s3. destruct system_participates.
    - apply mild_call; [done|apply H2].
    - apply mild_refl, H2. }
  set (s4 := foldl _ s3 topological_order).
  assert (mild s s4) as H4.
  { eapply mild_trans; [exact H3|]. apply mild_fold; [|apply H3].
    intros s0 c Hc Hi0. by apply mild_activate. }
  eapply mild_trans; [exact H4|]. apply mild_fold; [|apply H4].
  intros s0 k _ Hi0. by apply mild_call.
Qed.

(** *** Shutdown: execution *)
Lemma request_pass cs x s x' s' :
  (∀ c, c ∈ cs → c < component_count) → Inv s →
  foldl (λ xs c, request_execution_stop c xs) (x, s) cs = (x', s') →
  mild s s' ∧ uncontained_execution x' = uncontained_execution x.
Proof.
  revert x s; induction cs as [|c cs IH]; intros x s Hcs Hi; cbn [foldl].
  { intros [= <- <-]. by split; [apply mild_refl|]. }
  destruct (request_execution_stop c (x, s)) as [x1 s1] eqn:H1. intros H.
  apply request_effect in H1 as [Hx Ht].
  assert (mild s s1) as Hm.
  { destruct Ht as [(_ & _ & ->)|([_ Hex]%andb_true_iff & r & _ & _ & Hv & Ht)];
      [by apply mild_same|].
    eapply mild_event; [done|exact Ht|done| |done]. simpl.
    destruct (inv_flags s c Hi) as (_ & _ & _ & <-);
      [apply Hcs, elem_of_cons; auto|done]. }
  destruct (IH x1 s1) as [Hm' Hx']; [|apply Hm|done|].
  - intros c' Hc'. apply Hcs, elem_of_cons. auto.
  - split; [by eapply mild_trans|congruence].
Qed.

(** Execution may end and components may become blocked; nothing else. *)
Definition shrinks (s s' : Storage) : Prop :=
  Inv s' ∧
  (∀ c, live (trace s') c = live (trace s) c ∧ started (trace s') c = started (trace s) c ∧
        (executing (trace s') c = true → executing (trace s) c = true)) ∧
  (∀ c, blocked (view s) c → blocked (view s') c).
(** Nothing was left running: [x] and [x'] count what could not be contained. *)
Definition nothing_blocked (x x' : ExecutionReport) (s s' : Storage) : Prop :=
  uncontained_execution x ≤ uncontained_execution x' ∧
  (uncontained_execution x' = uncontained_execution x →
   ∀ c, blocked (view s') c → blocked (view s) c).

Lemma shrinks_trans s s' s'' : shrinks s s' → shrinks s' s'' → shrinks s s''.
Proof.
  intros (_ & Hl & Hb) (Hi & Hl' & Hb'). split; [done|]. split; [|auto].
  intros c. destruct (Hl c) as (<- & <- & ?), (Hl' c) as (-> & -> & ?). auto.
Qed.
Lemma shrinks_mild s s' : mild s s' → shrinks s s'.
Proof.
  intros (Hi & Hv & Hl). split; [done|]. rewrite Hv. split; [|done].
  intros c. by destruct (Hl c) as (-> & -> & ->).
Qed.
Lemma blocked_bound v c : blocked v c → c < length v.
Proof.
  intros Hb. destruct (decide (c < length v)); [done|]. unfold blocked in Hb.
  by rewrite (proj2 (lookup_ge_None _ _)) in Hb by lia.
Qed.
Lemma marked_blocked P v v' c : marked P v v' → blocked v c → blocked v' c.
Proof. intros [Hl Hm] Hb. pose proof (blocked_bound _ _ Hb). apply Hm; auto. Qed.
Lemma marked_none P v v' c : marked P v v' → (∀ c, ¬ P c) → blocked v' c → blocked v c.
Proof.
  intros [Hl Hm] HP Hb. pose proof (blocked_bound _ _ Hb). apply Hm in Hb as [?|?]; [done| |lia].
  by destruct (HP c).
Qed.

Lemma contain_step c x s x' s' :
  c < component_count → Inv s → contain_execution c (x, s) = (x', s') →
  shrinks s s' ∧ nothing_blocked x x' s s' ∧
  (executing (trace s') c = true → blocked (view s') c) ∧
  (uncontained_execution x' = uncontained_execution x → executing (trace s') c = false).
Proof.
  intros Hc Hi H. destruct (inv_flags s c Hi Hc) as (_ & _ & _ & Hex).
  apply contain_effect in H as [(Hno & -> & ->)|(Hyes & k & _ & _ & Ht & Hk)];
    [| |done|by apply inv_length].
  - rewrite Hex in Hno. assert (executing (trace s) c = false) as Hne.
    { destruct (executing (trace s) c) eqn:He; [|done].
      destruct Hi as (_ & _ & Hup & _). apply Hup in He as [_ He]; [|done].
      by rewrite He in Hno. }
    split; [by apply shrinks_mild, mild_refl|]. rewrite Hne.
    split; [by split|done].
  - rewrite Hex in Hyes.
    pose proof (inv_contained _ _ c k Hi Hc Hyes) as Hi1. rewrite <-Ht in Hi1.
    assert (∀ y, live (trace s') y = live (trace s) y ∧ started (trace s') y = started (trace s) y ∧
      (executing (trace s') y = true → executing (trace s) y = true)) as Hled.
    { intros y. rewrite Ht, live_snoc, started_snoc, executing_snoc. simpl.
      split; [done|]. split; [done|]. by intros [_ ?]%andb_true_iff. }
    assert (∀ b y, blocked (alter (with_contained b) c (view s)) y ↔ blocked (view s) y) as Hb
      by (intros; by apply blocked_alter).
    destruct (contained k) eqn:Hck.
    + destruct Hk as [Hv Hx]. rewrite <-Hv in Hi1. split; [split; [done|split; [done|]]|].
      { intros y Hy. rewrite Hv. by apply Hb. }
      assert (executing (trace s') c = false) as Hne.
      { rewrite Ht, executing_snoc. simpl. by rewrite bool_decide_true, Hck. }
      rewrite Hne. split; [|done]. split; [by rewrite Hx|]. intros _ y.
      rewrite Hv. apply Hb.
    + destruct Hk as (Hx & P & HP & Hdown & Hm). split; [split; [|split; [done|]]|].
      * by eapply inv_marked.
      * intros y Hy. eapply marked_blocked; [exact Hm|]. by apply Hb.
      * split; [split; [lia|intros; lia]|]. split; [|intros; lia]. intros _.
        destruct Hm as [Hl Hm]. apply Hm; [|by right].
        by rewrite length_alter, inv_length.
Qed.

Lemma contain_pass cs x s x' s' :
  (∀ c, c ∈ cs → c < component_count) → Inv s →
  foldl (λ xs c, contain_execution c xs) (x, s) cs = (x', s') →
  shrinks s s' ∧ nothing_blocked x x' s s' ∧
  (∀ c, c ∈ cs → executing (trace s') c = true → blocked (view s') c) ∧
  (uncontained_execution x' = uncontained_execution x →
   ∀ c, c ∈ cs → executing (trace s') c = false).
Proof.
  revert x s; induction cs as [|c cs IH]; intros x s Hcs Hi; cbn [foldl].
  { intros [= <- <-]. split; [by apply shrinks_mild, mild_refl|]. split; [by split|].
    split; [intros c Hc|intros _ c Hc]; by apply elem_of_nil in Hc. }
  destruct (contain_execution c (x, s)) as [x1 s1] eqn:H1. intros H.
  apply contain_step in H1 as (Hs1 & Hn1 & Hb1 & He1); [|apply Hcs, elem_of_cons; auto|done].
  destruct (IH x1 s1) as (Hs2 & Hn2 & Hb2 & He2); [|apply Hs1|done|].
  { intros c' Hc'. apply Hcs, elem_of_cons. auto. }
  destruct Hn1 as [Hle1 Hn1], Hn2 as [Hle2 Hn2].
  split; [by eapply shrinks_trans|]. split.
  { split; [lia|]. intros Hx y Hy. apply Hn1; [lia|]. apply Hn2; [lia|done]. }
  destruct Hs2 as (_ & Hl2 & Hbl2). split.
  - intros y [->|Hy]%elem_of_cons Hex; [|by apply Hb2]. apply Hbl2, Hb1. by apply Hl2.
  - intros Hx y [->|Hy]%elem_of_cons; [|apply He2; [lia|done]].
    destruct (executing (trace s') c) eqn:Hex; [|done]. apply Hl2 in Hex.
    rewrite He1 in Hex; [done|lia].
Qed.

(** What the execution part of a shutdown leaves. *)
Lemma stop_execution_spec x s x' s' :
  Inv s → stop_execution (x, s) = (x', s') →
  shrinks s s' ∧ nothing_blocked x x' s s' ∧
  (∀ c, c < component_count → executing (trace s') c = true → blocked (view s') c) ∧
  (uncontained_execution x' = uncontained_execution x → nothing (trace s') executing).
Proof.
  intros Hi H. unfold stop_execution in H. cbv zeta in H.
  destruct (request_system_execution_stop (x, s)) as [x1 s1] eqn:H1.
  destruct (contain_system_execution (x1, s1)) as [x2 s2] eqn:H2.
  destruct (foldl (λ xs c, request_execution_stop c xs) (x2, s2) reverse_topological_order)
    as [x3 s3] eqn:H3.
  assert (mild s s1 ∧ uncontained_execution x1 = uncontained_execution x) as [Hm1 Hx1].
  { unfold request_system_execution_stop in H1.
    destruct system_participates; cbn [negb] in H1;
      [|injection H1 as <- <-; by split; [apply mild_refl|]]. cbv zeta in H1.
    assert (∀ r, mild s (call (ESystemRequestStop r) s)) by (intros; by apply mild_call).
    destruct (system_request_stop (trace s)) as [st|];
      [destruct (is_already st)|]; injection H1 as <- <-; done. }
  pose proof (proj1 Hm1) as Hi1.
  apply contain_system_effect in H2 as (Ht2 & Hx2 & P & HP & Hm2 & HPn); [|by apply inv_length].
  assert (Inv s2 ∧ same_ledger (trace s1) (trace s2)) as [Hi2 Hl2].
  { assert (invariant (view s1) (trace s2) ∧ same_ledger (trace s1) (trace s2)) as [Hi2 Hl2].
    { destruct Ht2 as [->|[k ->]]; [done|]. split; [by apply inv_neutral_call|].
      intros c. rewrite live_snoc, started_snoc, executing_snoc. done. }
    split; [|done]. by eapply inv_marked. }
  assert (shrinks s1 s2) as Hs2.
  { split; [done|]. split; [intros c; by destruct (Hl2 c) as (-> & -> & ->)|].
    intros c. by eapply marked_blocked. }
  apply request_pass in H3 as [Hm3 Hx3]; [|intros c; by rewrite elem_of_reverse_order|done].
  apply contain_pass in H as (Hs4 & Hn4 & Hb4 & He4);
    [|intros c; by rewrite elem_of_reverse_order|apply Hm3].
  split.
  { eapply shrinks_trans; [by apply shrinks_mild|]. eapply shrinks_trans; [exact Hs2|].
    eapply shrinks_trans; [by apply shrinks_mild|done]. }
  destruct Hn4 as [Hx4 Hn4]. split; [split; [lia|]|split].
  - intros Hx c Hc. apply Hn4 in Hc; [|lia].
    destruct Hm3 as (_ & Hv3 & _), Hm1 as (_ & Hv1 & _).
    rewrite Hv3 in Hc. rewrite <-Hv1. eapply marked_none; [exact Hm2| |exact Hc].
    apply HPn. lia.
  - intros c Hc. apply Hb4. by apply elem_of_reverse_order.
  - intros Hx c Hc. apply He4; [lia|]. by apply elem_of_reverse_order.
Qed.

(** *** Shutdown: the hooks, in reverse order *)
Definition same_blocked (s s' : Storage) : Prop :=
  ∀ c, blocked (view s') c ↔ blocked (view s) c.

Lemma reverse_tail before c cs :
  reverse_topological_order = before ++ c :: cs → c < component_count.
Proof.
  intros H. apply elem_of_reverse_order. rewrite H. apply elem_of_app. right.
  apply elem_of_cons. auto.
Qed.

Lemma stop_pass before cs d s d' s' :
  reverse_topological_order = before ++ cs → Inv s →
  (∀ c, c < component_count → executing (trace s) c = true → blocked (view s) c) →
  (∀ b, b ∈ before → started (trace s) b = true → blocked (view s) b) →
  foldl (λ ds c, stop_component c ds.1 ds.2) (d, s) cs = (d', s') →
  Inv s' ∧ same_blocked s s' ∧
  (∀ c, live (trace s') c = live (trace s) c ∧
        executing (trace s') c = executing (trace s) c) ∧
  (∀ c, c < component_count → started (trace s') c = true → blocked (view s') c).
Proof.
  revert before d s. induction cs as [|c cs IH];
    intros before d s Hord Hinv Hpre Hbefore; cbn [foldl fst snd].
  { intros [= <- <-]. split; [done|]. split; [done|]. split; [done|].
    intros c Hc. apply Hbefore. rewrite app_nil_r in Hord. rewrite <-Hord.
    by apply elem_of_reverse_order. }
  pose proof (reverse_tail _ _ _ Hord) as Hc.
  destruct (stop_component c d s) as [d1 s1] eqn:H1. intros H.
  destruct (inv_flags s c Hinv Hc) as (Hf1 & Hf2 & _ & _).
  apply stop_effect in H1 as [(Hno & -> & ->)|(Hyes & Hnb & r & _ & _ & Ht & Hv)].
  - apply (IH (before ++ [c])) in H as (? & ? & ? & ?); [|by rewrite <-app_assoc|done..|].
    + split; [done|]. split; [done|]. by split.
    + intros b [Hb| ->%list_elem_of_singleton]%elem_of_app Hst; [by apply Hbefore|].
      rewrite Hf2, Hst in Hno. exact Hno.
  - rewrite Hf2 in Hyes.
    assert (¬ blocked (view s) c) as Hnblk by (unfold blocked; by rewrite Hnb).
    assert (permitted (trace s) (EStop c r)) as Hp.
    { split; [done|]. split.
      - destruct (executing (trace s) c) eqn:He; [|done]. destruct Hnblk. by apply Hpre.
      - intros b Hbn Hneed. destruct (started (trace s) b) eqn:Hb; [|done].
        destruct Hnblk. destruct Hinv as (_ & _ & _ & Hdown).
        apply (Hdown b); [|done]. apply Hbefore; [|done]. by eapply reverse_order_before. }
    pose proof (inv_stop _ _ c r Hinv Hc Hp) as Hinv1. rewrite <-Ht, <-Hv in Hinv1.
    assert (same_blocked s s1) as Hsb by (intros x; rewrite Hv; by apply blocked_alter).
    apply (IH (before ++ [c])) in H as (Hi & Hsb' & Hl & Hfin); [|by rewrite <-app_assoc|done| |].
    + split; [done|]. split; [intros x; by rewrite (Hsb' x), (Hsb x)|]. split; [|done].
      intros x. destruct (Hl x) as [-> ->]. rewrite Ht, live_snoc, executing_snoc. done.
    + intros x Hx. rewrite Ht, executing_snoc. intros He. apply Hsb. by apply Hpre.
    + intros b [Hb| ->%list_elem_of_singleton]%elem_of_app; rewrite Ht, started_snoc; simpl.
      * intros [_ Hst]%andb_true_iff. apply Hsb. by apply Hbefore.
      * by rewrite bool_decide_true.
Qed.

Lemma deinit_pass before cs d s d' s' :
  reverse_topological_order = before ++ cs → Inv s →
  (∀ c, c < component_count → started (trace s) c = true → blocked (view s) c) →
  (∀ b, b ∈ before → live (trace s) b = true → blocked (view s) b) →
  foldl (λ ds c, deinitialize_component c ds.1 ds.2) (d, s) cs = (d', s') →
  Inv s' ∧ same_blocked s s' ∧
  (∀ c, started (trace s') c = started (trace s) c ∧
        executing (trace s') c = executing (trace s) c) ∧
  (∀ c, c < component_count → live (trace s') c = true → blocked (view s') c).
Proof.
  revert before d s. induction cs as [|c cs IH];
    intros before d s Hord Hinv Hpre Hbefore; cbn [foldl fst snd].
  { intros [= <- <-]. split; [done|]. split; [done|]. split; [done|].
    intros c Hc. apply Hbefore. rewrite app_nil_r in Hord. rewrite <-Hord.
    by apply elem_of_reverse_order. }
  pose proof (reverse_tail _ _ _ Hord) as Hc.
  destruct (deinitialize_component c d s) as [d1 s1] eqn:H1. intros H.
  destruct (inv_flags s c Hinv Hc) as (Hf1 & Hf2 & _ & _).
  apply deinitialize_effect in H1 as [(Hno & -> & ->)|(Hyes & Hnb & r & _ & _ & Ht & Hv)].
  - apply (IH (before ++ [c])) in H as (? & ? & ? & ?); [|by rewrite <-app_assoc|done..|].
    + split; [done|]. split; [done|]. by split.
    + intros b [Hb| ->%list_elem_of_singleton]%elem_of_app Hst; [by apply Hbefore|].
      rewrite Hf1, Hst in Hno. exact Hno.
  - rewrite Hf1 in Hyes.
    assert (¬ blocked (view s) c) as Hnblk by (unfold blocked; by rewrite Hnb).
    assert (permitted (trace s) (EDeinit c r)) as Hp.
    { split; [done|]. split.
      - destruct (started (trace s) c) eqn:He; [|done]. destruct Hnblk. by apply Hpre.
      - intros b Hbn Hneed. destruct (live (trace s) b) eqn:Hb; [|done].
        destruct Hnblk. destruct Hinv as (_ & _ & _ & Hdown).
        apply (Hdown b); [|done]. apply Hbefore; [|done]. by eapply reverse_order_before. }
    pose proof (inv_deinit _ _ c r Hinv Hc Hp) as Hinv1. rewrite <-Ht, <-Hv in Hinv1.
    assert (same_blocked s s1) as Hsb by (intros x; rewrite Hv; by apply blocked_alter).
    apply (IH (before ++ [c])) in H as (Hi & Hsb' & Hl & Hfin); [|by rewrite <-app_assoc|done| |].
    + split; [done|]. split; [intros x; by rewrite (Hsb' x), (Hsb x)|]. split; [|done].
      intros x. destruct (Hl x) as [-> ->]. rewrite Ht, started_snoc, executing_snoc. done.
    + intros x Hx. rewrite Ht, started_snoc. intros He. apply Hsb. by apply Hpre.
    + intros b [Hb| ->%list_elem_of_singleton]%elem_of_app; rewrite Ht, live_snoc; simpl.
      * intros [_ Hst]%andb_true_iff. apply Hsb. by apply Hbefore.
      * by rewrite bool_decide_true.
Qed.

(** *** The whole operations *)
Definition all_down (t : list Event) : Prop :=
  nothing t live ∧ nothing t started ∧ nothing t executing.

Lemma unblocked_nothing s (f : list Event → nat → bool) t :
  (∀ c, c < component_count → f t c = true → blocked (view s) c) → unblocked s → nothing t f.
Proof. intros H Hu c Hc. destruct (f t c) eqn:Hf; [|done]. by destruct (Hu c (H c Hc Hf)). Qed.

Lemma rollback_spec report phase s report' s' :
  Inv s → (phase = false → nothing (trace s) started) →
  rollback report phase s = (report', s') →
  Inv s' ∧ system_state s' = Failed ∧
  (unblocked s → boot_uncontained_execution report = 0 →
   rollback_completed report' = true → all_down (trace s')).
Proof.
  intros Hi Hns H. unfold rollback in H. cbv zeta in H.
  set (s0 := store_state RollingBack s) in H.
  destruct (if phase then _ else _) as [x s1] eqn:H1.
  assert (Inv s1 ∧ (∀ c, c < component_count → started (trace s1) c = true → blocked (view s1) c) ∧
    (unblocked s → boot_uncontained_execution report = 0 → uncontained_execution x = 0 →
     unblocked s1 ∧ nothing (trace s1) executing)) as (Hi1 & Hst1 & Hdone1).
  { destruct phase.
    - destruct (stop_execution (rollback_report report, s0)) as [x2 s2] eqn:H2.
      apply stop_execution_spec in H2 as (Hs2 & Hn2 & Hb2 & He2); [|exact Hi].
      destruct (foldl _ (failures x2, s2) reverse_topological_order) as [d3 s3] eqn:H3.
      apply (stop_pass []) in H3 as (Hi3 & Hsb3 & Hl3 & Hfin3);
        [|done|apply Hs2|exact Hb2|by intros b Hb%elem_of_nil].
      injection H1 as <- <-. split; [done|]. split; [done|]. cbn [uncontained_execution set_failures].
      intros Hu Hz Hx. destruct Hn2 as [_ Hn2]. cbn [rollback_report uncontained_execution] in *.
      rewrite Hz in *. split.
      + intros c Hc. apply Hsb3 in Hc. apply Hn2 in Hc; [|done]. by apply Hu in Hc.
      + intros c Hc. destruct (Hl3 c) as [_ ->]. by apply He2.
    - injection H1 as <- <-. split; [exact Hi|]. specialize (Hns eq_refl). split.
      + intros c Hc Hst. change (trace s0) with (trace s) in Hst. by rewrite Hns in Hst.
      + intros Hu _ _. split; [exact Hu|]. intros c Hc.
        change (trace s0) with (trace s). destruct (executing (trace s) c) eqn:He; [|done].
        destruct Hi as (_ & _ & Hup & _). apply Hup in He as [He _]; [|done].
        by rewrite Hns in He. }
  destruct (foldl _ (failures x, s1) reverse_topological_order) as [d s2] eqn:H2.
  apply (deinit_pass []) in H2 as (Hi2 & Hsb2 & Hl2 & Hfin2);
    [|done|done|exact Hst1|by intros b Hb%elem_of_nil].
  injection H as <- <-. split; [exact Hi2|]. split; [done|]. cbn [rollback_completed].
  intros Hu Hz Hx%Nat.eqb_eq. destruct (Hdone1 Hu Hz Hx) as [Hu1 He1].
  assert (unblocked s2) as Hu2 by (intros c Hc; apply Hsb2 in Hc; by apply Hu1 in Hc).
  cbn [trace store_state]. split; [by eapply unblocked_nothing|]. split.
  - intros c Hc. destruct (Hl2 c) as [-> _]. revert c Hc. by eapply unblocked_nothing.
  - intros c Hc. destruct (Hl2 c) as [_ ->]. by apply He1.
Qed.

(** The storage before the first boot. *)
Definition fresh (s : Storage) : Prop :=
  trace s = [] ∧ view s = replicate component_count initial_flags.

Lemma fresh_lookup s c : fresh s → default initial_flags (view s !! c) = initial_flags.
Proof.
  intros [_ ->]. destruct (replicate component_count initial_flags !! c) as [f|] eqn:H; [|done].
  by apply lookup_replicate in H as [-> _].
Qed.
Lemma fresh_inv s : fresh s → Inv s.
Proof.
  intros Hf. pose proof (fresh_lookup s) as Hl. destruct Hf as [Ht Hv].
  unfold Inv. rewrite Ht. split; [|split; [constructor|split]].
  - split; [by rewrite Hv, length_replicate|]. intros c Hc. cbv zeta. by rewrite Hl.
  - intros c Hc. done.
  - intros c d Hb. unfold blocked in Hb. by rewrite Hl in Hb.
Qed.
Lemma fresh_unblocked s : fresh s → unblocked s.
Proof. intros Hf c. unfold blocked. by rewrite fresh_lookup. Qed.

Lemma boot_failed_spec f e phase report s r s' :
  Inv s → (phase = false → nothing (trace s) started) →
  boot_failed f e phase report s = (r, s') →
  Inv s' ∧ system_state s' = Failed ∧ ∃ error report',
    r = Err error ∧ last_boot s' = Some report' ∧ boot_failure error = Some f ∧
    primary_failure report' = Some f ∧ boot_final_state report' = Failed ∧
    (unblocked s → boot_uncontained_execution report = 0 →
     rollback_completed report' = true → all_down (trace s')).
Proof.
  intros Hi Hns. unfold boot_failed.
  destruct (rollback (with_primary f report) phase s) as [report1 s1] eqn:H1.
  assert (primary_failure report1 = Some f ∧ boot_final_state report1 = Failed) as [Hp Hfs].
  { unfold rollback in H1. cbv zeta in H1. destruct (if phase then _ else _) as [x s2].
    destruct (foldl _ (failures x, s2) _). by injection H1 as <- <-. }
  apply rollback_spec in H1 as (Hi1 & Hs1 & Hd1); [|done..].
  intros [= <- <-]. unfold Inv. rewrite view_publish_boot, trace_publish_boot.
  split; [done|]. unfold publish_boot, with_records. rewrite wf_lock.
  split; [done|]. eexists _, report1. by split_and!.
Qed.

(** The published report is not touched afterwards. *)
Lemma last_boot_mutate c f s : last_boot (mutate_record c f s) = last_boot s.
Proof. unfold mutate_record, with_records. by rewrite wf_lock. Qed.
Lemma last_boot_report s rep : last_boot (report_execution_failure s rep) = last_boot s.
Proof.
  destruct rep as [c st]. unfold report_execution_failure. set (s1 := mutate_record c _ _).
  assert (last_boot s1 = last_boot s) by (unfold s1, record_failure; by rewrite !last_boot_mutate).
  by destruct (system_state s1).
Qed.
Lemma last_boot_fold {A} (f : Storage → A → Storage) l s :
  (∀ s x, last_boot (f s x) = last_boot s) → last_boot (foldl f s l) = last_boot s.
Proof. intros Hf. revert s; induction l as [|x l IH]; intros s; [done|]. simpl. by rewrite IH. Qed.
Lemma last_boot_call s e : last_boot (call e s) = last_boot s.
Proof. unfold call. cbv zeta. by rewrite last_boot_fold by apply last_boot_report. Qed.
Lemma last_boot_activate s c : last_boot (activate_execution c s) = last_boot s.
Proof.
  unfold activate_execution. destruct (_ && _); [|done].
  by rewrite last_boot_call, last_boot_mutate.
Qed.

(** Once [Running] is stored, only a reported failure changes the state. *)
Definition up (s : Storage) : Prop := system_state s = Running ∨ system_state s = Failed.
Lemma up_mutate c f s : up s → up (mutate_record c f s).
Proof. unfold up. by rewrite state_mutate. Qed.
Lemma up_report s rep : up s → up (report_execution_failure s rep).
Proof.
  intros Hu. destruct rep as [c st]. unfold report_execution_failure.
  set (s1 := mutate_record c _ _).
  assert (up s1) as Hu1 by by apply up_mutate, up_mutate.
  destruct Hu1 as [H|H]; rewrite H; [by right|]. right. exact H.
Qed.
Lemma up_fold {A} (f : Storage → A → Storage) l s :
  (∀ s x, up s → up (f s x)) → up s → up (foldl f s l).
Proof. intros Hf. revert s; induction l as [|x l IH]; intros s Hs; simpl; auto. Qed.
Lemma up_call s e : up s → up (call e s).
Proof. intros Hu. unfold call. cbv zeta. apply up_fold; [intros; by apply up_report|exact Hu]. Qed.
Lemma up_activate s c : up s → up (activate_execution c s).
Proof.
  intros Hu. unfold activate_execution. destruct (_ && _); [|done].
  by apply up_call, up_mutate.
Qed.

(** What [boot] does from a fresh storage. *)
Lemma boot_owned_spec s r s' :
  fresh s → system_state s = Dormant → boot_owned s = (r, s') →
  Inv s' ∧
  match r with
  | Ok report =>
    unblocked s' ∧ up s' ∧ last_boot s' = Some report ∧ start_completed report = true ∧
    initialized_components report = component_count ∧
    started_components report = component_count ∧
    (∀ c, c < component_count → live (trace s') c = true ∧ started (trace s') c = true)
  | Err error =>
    system_state s' = Failed ∧ ∃ f report, boot_failure error = Some f ∧
    last_boot s' = Some report ∧ primary_failure report = Some f ∧
    (rollback_completed report = true → all_down (trace s'))
  end.
Proof.
  intros Hf Hd H. pose proof (fresh_inv s Hf) as Hi. pose proof (fresh_unblocked s Hf) as Hu.
  unfold boot_owned in H. cbv zeta in H. rewrite Hd in H.
  destruct (each_until boot_init_one topological_order (store_state Initializing s))
    as [[f1 n1] s1] eqn:H1.
  apply (init_pass []) in H1 as (Hi1 & Hu1 & Hst1 & Hok1); [|done|exact Hi|exact Hu| |].
  2,3: intros c Hc; cbn [trace store_state]; by rewrite (proj1 Hf).
  assert (length topological_order = component_count) as Hlen.
  { destruct order_facts as (Hperm & _). apply Permutation_length in Hperm.
    by rewrite length_seq in Hperm. }
  destruct f1 as [f1|].
  { apply boot_failed_spec in H as (Hi' & Hs' & error & report & -> & Hlb & Hbf & Hpf & _ & Hdown);
      [|done|done].
    split; [done|]. split; [done|]. exists f1, report. auto. }
  destruct (Hok1 eq_refl) as [-> Hlive1].
  destruct (boot_start (store_state Starting s1)) as [[fe n2] s2] eqn:H2.
  assert (Inv s2 ∧ unblocked s2 ∧ (fe = None → n2 = component_count ∧
    ∀ c, c < component_count → live (trace s2) c = true ∧ started (trace s2) c = true))
    as (Hi2 & Hu2 & Hok2).
  { unfold boot_start in H2.
    destruct (each_until boot_start_one topological_order (store_state Starting s1))
      as [[f3 n3] s3] eqn:H3.
    apply (start_pass []) in H3 as (Hi3 & Hu3 & Hok3); [|done|exact Hi1|exact Hu1|exact Hlive1|].
    2: { intros c Hc. cbn [trace store_state]. by apply Hst1. }
    destruct f3 as [f3|]; [by injection H2 as <- <- <-|].
    destruct (boot_commit s3) as [fe' s4] eqn:H4. injection H2 as <- <- <-.
    apply mild_boot_commit in H4 as (Hi4 & Hv4 & Hl4); [|done].
    split; [done|]. split; [by eapply unblocked_same|]. intros _.
    destruct (Hok3 eq_refl) as [-> Hst3]. split; [done|]. intros c Hc.
    assert (started (trace s4) c = true) as Hst
      by (destruct (Hl4 c) as (_ & -> & _); by apply Hst3).
    split; [|done]. destruct Hi4 as (_ & _ & Hup & _). by apply Hup. }
  destruct fe as [[f2 e2]|].
  { apply boot_failed_spec in H as (Hi' & Hs' & error & report & -> & Hlb & Hbf & Hpf & _ & Hdown);
      [|done|done].
    split; [done|]. split; [done|]. exists f2, report. auto. }
  destruct (Hok2 eq_refl) as [-> Hst2].
  pose proof (mild_boot_running _ _ _ _ Hi2 H) as (Hi' & Hv' & Hl').
  split; [done|]. unfold boot_running in H. cbv zeta in H.
  set (report := completed _) in H. injection H as <- <-.
  split; [by eapply unblocked_same|]. split; [|split; [|split_and!; [done..|]]].
  - apply up_fold; [intros; by apply up_call|]. apply up_fold; [intros; by apply up_activate|].
    assert (∀ s, up (publish_boot report (store_state Running s))) as Hpub
      by (intros; unfold up, publish_boot, with_records; rewrite wf_lock; by left).
    destruct system_participates; [by apply up_call|done].
  - unfold activate_catalog_runtime.
    rewrite last_boot_fold by (intros; apply last_boot_call).
    rewrite last_boot_fold by (intros; apply last_boot_activate).
    assert (∀ s, last_boot (publish_boot report s) = Some report) as Hpub
      by (intros; unfold publish_boot, with_records; by rewrite wf_lock).
    destruct system_participates; [by rewrite last_boot_call|done].
  - intros c Hc. destruct (Hl' c) as (-> & -> & _). by apply Hst2.
Qed.

(** The counting passes of [stop] do what the passes of [rollback] do. *)
Lemma stop_one_fold cs n d s :
  ∃ n', foldl (λ nds c, stop_one c nds) (n, d, s) cs
  = let '(d', s') := foldl (λ ds c, stop_component c ds.1 ds.2) (d, s) cs in (n', d', s').
Proof.
  revert n d s; induction cs as [|c cs IH]; intros n d s; cbn [foldl fst snd]; [by eexists|].
  assert (∃ n1, stop_one c (n, d, s) = (n1, (stop_component c d s).1, (stop_component c d s).2))
    as [n1 ->]; [|destruct (IH n1 (stop_component c d s).1 (stop_component c d s).2) as [n' ->];
                  exists n'; by destruct (stop_component c d s)].
  unfold stop_one. destruct (start_succeeded (record_copy c s) && _) eqn:Hg.
  - exists (Datatypes.S n). by destruct (stop_component c d s).
  - exists n. unfold stop_component.
    destruct (start_succeeded (record_copy c s)), (cleanup_blocked (record_copy c s)); done.
Qed.
Lemma deinit_one_fold cs n d s :
  ∃ n', foldl (λ nds c, deinit_one c nds) (n, d, s) cs
  = let '(d', s') := foldl (λ ds c, deinitialize_component c ds.1 ds.2) (d, s) cs in
    (n', d', s').
Proof.
  revert n d s; induction cs as [|c cs IH]; intros n d s; cbn [foldl fst snd]; [by eexists|].
  assert (∃ n1, deinit_one c (n, d, s)
    = (n1, (deinitialize_component c d s).1, (deinitialize_component c d s).2))
    as [n1 ->]; [|destruct (IH n1 (deinitialize_component c d s).1
                             (deinitialize_component c d s).2) as [n' ->];
                  exists n'; by destruct (deinitialize_component c d s)].
  unfold deinit_one. destruct (init_succeeded (record_copy c s) && _) eqn:Hg.
  - exists (Datatypes.S n). by destruct (deinitialize_component c d s).
  - exists n. unfold deinitialize_component.
    destruct (init_succeeded (record_copy c s)), (cleanup_blocked (record_copy c s)); done.
Qed.

Definition stop_allowed (s : Storage) : bool :=
  match system_state s with Running => true | Failed => has_resources s | _ => false end.

Lemma stop_owned_spec s r s' :
  Inv s → stop_owned s = (r, s') →
  Inv s' ∧
  (stop_allowed s = false → r = Err (mkStopError InvalidState SNotReady None) ∧ s' = s) ∧
  (stop_allowed s = true →
   match r with
   | Ok report => system_state s' = Stopped ∧ last_stop s' = Some report ∧
                  (unblocked s → all_down (trace s'))
   | Err error => system_state s' = Failed ∧ stop_reason error = ShutdownFailed
   end).
Proof.
  intros Hi H. unfold stop_owned in H. cbv zeta in H. fold (stop_allowed s) in H.
  destruct (stop_allowed s); cbn [negb] in H; [|by injection H as <- <-].
  destruct (stop_execution (no_execution, store_state Stopping s)) as [x s1] eqn:H1.
  apply stop_execution_spec in H1 as (Hs1 & Hn1 & Hb1 & He1); [|exact Hi].
  destruct (stop_one_fold reverse_topological_order 0 (failures x) s1) as [n2 Hf2].
  rewrite Hf2 in H. clear Hf2.
  destruct (foldl (λ ds c, stop_component c ds.1 ds.2) _ _) as [d2 s2] eqn:H2.
  apply (stop_pass []) in H2 as (Hi2 & Hsb2 & Hl2 & Hfin2);
    [|done|apply Hs1|exact Hb1|by intros b Hb%elem_of_nil].
  destruct (deinit_one_fold reverse_topological_order 0 d2 (store_state Deinitializing s2))
    as [n3 Hf3]. rewrite Hf3 in H. clear Hf3.
  destruct (foldl (λ ds c, deinitialize_component c ds.1 ds.2) _ _) as [d3 s3] eqn:H3.
  apply (deinit_pass []) in H3 as (Hi3 & Hsb3 & Hl3 & Hfin3);
    [|done|exact Hi2|exact Hfin2|by intros b Hb%elem_of_nil].
  set (s4 := publish_stop _ _) in H.
  assert (Inv s4) as Hi4 by (unfold s4, Inv; by rewrite view_publish_stop, trace_publish_stop).
  assert (∀ r x s, last_stop (publish_stop r (store_state x s)) = Some r ∧
    system_state (publish_stop r (store_state x s)) = x) as Hpub
    by (intros; unfold publish_stop, with_records; by rewrite wf_lock).
  destruct ((total d3 =? 0) && (uncontained_execution x =? 0)) eqn:Hclean;
    injection H as <- <-; (split; [done|]); (split; [done|]); intros _;
    destruct (Hpub (mkStopReport (system_state s) Stopped n2 n3 (set_failures d3 x)) Stopped s3)
      as [Hls Hss]; [|split; [apply Hpub|done]].
  split; [exact Hss|]. split; [exact Hls|]. intros Hu.
  apply andb_true_iff in Hclean as [_ Hx%Nat.eqb_eq]. destruct Hn1 as [_ Hn1].
  assert (unblocked s3) as Hu3.
  { intros c Hc. apply Hsb3, Hsb2, Hn1 in Hc; [by apply Hu in Hc|done]. }
  assert (trace s4 = trace s3) as -> by (unfold s4; by rewrite trace_publish_stop).
  split; [by eapply unblocked_nothing|]. split.
  - intros c Hc. destruct (Hl3 c) as [-> _]. revert c Hc. eapply unblocked_nothing; [exact Hfin2|].
    intros c Hc. apply Hsb2, Hn1 in Hc; [by apply Hu in Hc|done].
  - intros c Hc. destruct (Hl3 c) as [_ ->]. cbn [trace store_state].
    destruct (Hl2 c) as [_ ->]. by apply He1.
Qed.

(** ** Reachable storages *)

(** Boots and stops one after the other, and failures reported in between. *)
Inductive reachable : Storage → Prop :=
  | reachable_new : reachable new_storage
  | reachable_boot s : reachable s → reachable (boot s).2
  | reachable_stop s : reachable s → reachable (stop s).2
  | reachable_report s rep : reachable s → reachable (report_execution_failure s rep).

Lemma new_storage_fresh : fresh new_storage.
Proof.
  split; [done|]. unfold view, new_storage. cbn [records].
  rewrite <-(length_seq component_count 0) at 2. rewrite <-const_fmap with (f := λ _, initial_flags)
    by done. by rewrite map_map.
Qed.

Definition settled (s : Storage) : Prop :=
  Inv s ∧ operation_active s = false ∧ (system_state s = Dormant → fresh s) ∧
  (system_state s = Running → unblocked s).

Lemma boot_settled s : settled s → settled (boot s).2.
Proof.
  intros (Hi & Ha & Hf & Hru). unfold boot. rewrite Ha.
  destruct (boot_owned (set_active true s)) as [r s'] eqn:H. cbn [snd].
  destruct (system_state s) eqn:Hst.
  1: { assert (fresh (set_active true s)) as Hfr by by apply Hf.
       pose proof (boot_owned_spec _ _ _ Hfr Hst H) as [Hi' Hr].
       split; [exact Hi'|]. split; [done|]. cbn.
       destruct r as [report|e]; [|by destruct Hr as [-> _]].
       destruct Hr as (Hu' & Hup & _). split; [by destruct Hup as [-> | ->]|]. intros _. exact Hu'. }
  all: unfold boot_owned in H; cbn [system_state set_active] in H; rewrite Hst in H;
    injection H as <- <-;
    (split; [exact Hi|split; [done|cbn; rewrite Hst; split; [done|]]]); try done; by intros _; apply Hru.
Qed.

Lemma stop_settled s : settled s → settled (stop s).2.
Proof.
  intros (Hi & Ha & Hf & Hru). unfold stop. rewrite Ha.
  destruct (stop_owned (set_active true s)) as [r s'] eqn:H. cbn [snd].
  apply stop_owned_spec in H as (Hi' & Hno & Hyes); [|exact Hi].
  split; [exact Hi'|]. split; [done|]. cbn.
  destruct (stop_allowed (set_active true s)).
  - specialize (Hyes eq_refl). destruct r as [report|e]; destruct Hyes as [-> _]; done.
  - destruct (Hno eq_refl) as [_ ->]. by split.
Qed.

Lemma report_settled s rep : settled s → settled (report_execution_failure s rep).
Proof.
  intros (Hi & Ha & Hf & Hru). destruct (report_effect s rep) as [Hv Ht].
  split; [by eapply inv_same|]. destruct rep as [c st]. unfold report_execution_failure in *.
  set (s1 := mutate_record c _ _) in *.
  assert (operation_active s1 = operation_active s ∧ system_state s1 = system_state s)
    as [Ha1 Hs1].
  { unfold s1, record_failure, mutate_record, with_records. by rewrite !wf_lock. }
  split; [by destruct (system_state s1); cbn; rewrite Ha1|].
  unfold fresh, unblocked. rewrite Hv, Ht. rewrite Hs1 in *.
  by destruct (system_state s) eqn:Hss; cbn; rewrite ?Hs1.
Qed.

Lemma reachable_settled s : reachable s → settled s.
Proof.
  induction 1; [|by apply boot_settled|by apply stop_settled|by apply report_settled].
  split; [apply fresh_inv, new_storage_fresh|]. split; [done|]. split; [|done].
  intros _. apply new_storage_fresh.
Qed.
End Operations.
