(* ===== verification/LifecycleProps.v ===== *)
(** * LifecycleProps: the properties of the lifecycle engine

    The theorems about boot, stop and the queries, proved from the invariant
    of LifecycleSafety, the exact sequence of calls of a clean run, and two
    runs that show where the engine departs from its specification. *)
From stdpp Require Import prelude.
From S2P Require Import Prelude Status TypeGraph Lifecycle LifecycleEffects LifecycleSafety.

Open Scope nat_scope.

(** ** A clean run *)

(** Every call succeeds and all execution ends when it is asked to. *)
Definition clean_exit : Containment := mkContainment SOk true false false false false.
Class Clean (S : System) : Prop := {
  clean_init : ∀ t c, init_hook t c = None;
  clean_start : ∀ t c, start_hook t c = None;
  clean_stop : ∀ t c, stop_hook_result t c = None;
  clean_deinit : ∀ t c, deinit_hook t c = None;
  clean_prepare : ∀ t c, prepare t c = None;
  clean_validate : ∀ t c, validate_activation t c = None;
  clean_request : ∀ t c, request_stop t c = None;
  clean_contain : ∀ t c, contain t c = clean_exit;
  clean_system_prepare : ∀ t, system_prepare t = None;
  clean_system_validate : ∀ t, system_validate t = None;
  clean_system_request : ∀ t, system_request_stop t = None;
  clean_system_contain : ∀ t, system_contain t = clean_exit;
  clean_commit : ∀ t k, commit t k = None;
  clean_reported : ∀ t, reported t = [] }.

Section CleanRun.
Context {S : System} {W : WfSystem S} {K : Clean S}.

Definition sys (es : list Event) : list Event := if system_participates then es else [].
Definition start_events (c : nat) : list Event :=
  EStart c None :: if participates c then [EPrepare c None] else [].
Definition executors (cs : list nat) : list nat := filter (λ c, participates c = true) cs.

Definition boot_trace : list Event :=
  map (λ c, EInit c None) topological_order
  ++ concat (map start_events topological_order)
  ++ sys [ESystemPrepare None]
  ++ map (λ c, EValidate c None) (executors topological_order)
  ++ sys [ESystemValidate None]
  ++ map (λ k, ECommit k None) catalogs
  ++ sys [ESystemActivate]
  ++ map EActivate (executors topological_order)
  ++ map EActivateCatalog catalogs.

Lemma init_clean cs s :
  ∃ s', each_until boot_init_one cs s = (None, length cs, s') ∧
        trace s' = trace s ++ map (λ c, EInit c None) cs.
Proof.
  revert s; induction cs as [|c cs IH]; intros s; cbn [each_until map].
  { exists s. by rewrite app_nil_r. }
  destruct (boot_init_one c s) as [f s1] eqn:H1. unfold boot_init_one in H1.
  destruct (initialize_component c s) as [r s2] eqn:Hi.
  assert (r = None) as ->.
  { unfold initialize_component in Hi. cbv zeta in Hi. injection Hi as <- _.
    unfold invoke_init. rewrite clean_init. by destruct (has_init c). }
  injection H1 as <- <-. apply initialize_effect in Hi as [Ht _].
  destruct (IH s2) as (s' & -> & Ht'). exists s'. split; [done|].
  by rewrite Ht', Ht, <-app_assoc.
Qed.

Lemma start_clean cs s :
  ∃ s', each_until boot_start_one cs s = (None, length cs, s') ∧
        trace s' = trace s ++ concat (map start_events cs).
Proof.
  revert s; induction cs as [|c cs IH]; intros s; cbn [each_until map concat].
  { exists s. by rewrite app_nil_r. }
  destruct (boot_start_one c s) as [f s1] eqn:H1. unfold boot_start_one in H1.
  destruct (start_component c s) as [r s2] eqn:Hi.
  assert (r = None) as ->.
  { unfold start_component in Hi. cbv zeta in Hi. unfold invoke_start in Hi. rewrite clean_start, clean_prepare in Hi.
    destruct (has_start c), (participates c); by injection Hi as <- _. }
  injection H1 as <- <-. apply start_effect in Hi as [(st & ? & _)|[(Hp & _ & Ht & _)|(Hp & Ht & _)]];
    [done|..]; destruct (IH s2) as (s' & -> & Ht'); exists s'; (split; [done|]);
    unfold start_events; rewrite Ht', Ht, Hp, <-!app_assoc; done.
Qed.

(** The flags of a component in a storage. *)
Definition fl (s : Storage) (c : nat) : Flags := default initial_flags (view s !! c).

Lemma validate_clean cs s :
  (∀ c, c ∈ cs → f_prepared (fl s c) = participates c) →
  ∃ s', each_until boot_validate_one cs s = (None, length cs, s') ∧ view s' = view s ∧
        trace s' = trace s ++ map (λ c, EValidate c None) (executors cs).
Proof.
  revert s; induction cs as [|c cs IH]; intros s Hp; cbn [each_until].
  { exists s. by rewrite app_nil_r. }
  destruct (boot_validate_one c s) as [f s1] eqn:H1. unfold boot_validate_one in H1.
  destruct (validate_execution c s) as [r s2] eqn:Hv.
  pose proof (Hp c ltac:(apply elem_of_cons; auto)) as Hc. unfold fl in Hc.
  apply validate_effect in Hv as [(Hno & -> & ->)|(Hyes & -> & Hv & Ht)];
    rewrite ?clean_validate in *; injection H1 as <- <-;
    unfold executors; rewrite filter_cons.
  - rewrite Hc, andb_diag in Hno. rewrite decide_False by congruence.
    destruct (IH s) as (s' & -> & Hv' & Ht'); [intros; apply Hp, elem_of_cons; auto|].
    by exists s'.
  - rewrite Hc, andb_diag in Hyes. rewrite decide_True by done.
    destruct (IH s2) as (s' & -> & Hv' & Ht').
    { intros x Hx. unfold fl. rewrite Hv. apply Hp, elem_of_cons. auto. }
    exists s'. split; [done|]. split; [congruence|]. by rewrite Ht', Ht, <-app_assoc.
Qed.

Lemma activate_clean cs s :
  (∀ c, c ∈ cs → f_prepared (fl s c) = participates c) →
  let s' := foldl (λ s c, activate_execution c s) s cs in
  view s' = view s ∧ trace s' = trace s ++ map EActivate (executors cs).
Proof.
  revert s; induction cs as [|c cs IH]; intros s Hp; cbn [foldl].
  { by rewrite app_nil_r. }
  pose proof (Hp c ltac:(apply elem_of_cons; auto)) as Hc. unfold fl in Hc.
  destruct (activate_effect c s) as [[Hno ->]|(Hyes & Hv & Ht)];
    unfold executors; rewrite filter_cons.
  - rewrite Hc, andb_diag in Hno. rewrite decide_False by congruence.
    apply IH. intros; apply Hp, elem_of_cons; auto.
  - rewrite Hc, andb_diag in Hyes. rewrite decide_True by done.
    destruct (IH (activate_execution c s)) as [Hv' Ht'].
    { intros x Hx. unfold fl. rewrite Hv. apply Hp, elem_of_cons. auto. }
    cbv zeta. rewrite Hv', Ht', Hv, Ht, <-app_assoc. done.
Qed.

Lemma system_step_clean op res ev s :
  (∀ t, res t = None) →
  ∃ s', boot_system_step op res ev s = (None, s') ∧ view s' = view s ∧
        trace s' = trace s ++ sys [ev None].
Proof.
  intros Hr. unfold boot_system_step, sys. rewrite Hr.
  destruct system_participates; (eexists; split; [done|]);
    rewrite ?view_call, ?trace_call, ?app_nil_r; done.
Qed.

Lemma commit_clean ks s :
  ∃ s', each_until commit_one ks s = (None, length ks, s') ∧ view s' = view s ∧
        trace s' = trace s ++ map (λ k, ECommit k None) ks.
Proof.
  revert s; induction ks as [|k ks IH]; intros s; cbn [each_until map].
  { exists s. by rewrite app_nil_r. }
  destruct (commit_one k s) as [f s1] eqn:H1. unfold commit_one in H1. cbv zeta in H1.
  rewrite clean_commit in H1. injection H1 as <- <-.
  destruct (IH (call (ECommit k None) s)) as (s' & -> & Hv & Ht). exists s'. split; [done|].
  by rewrite Hv, Ht, view_call, trace_call, <-app_assoc.
Qed.

Lemma catalogs_clean ks s :
  let s' := foldl (λ s k, call (EActivateCatalog k) s) s ks in
  trace s' = trace s ++ map EActivateCatalog ks.
Proof.
  revert s; induction ks as [|k ks IH]; intros s; cbn [foldl map]; [by rewrite app_nil_r|].
  cbv zeta in IH |- *. by rewrite IH, trace_call, <-app_assoc.
Qed.

Lemma catalogs_view s : view (activate_catalog_runtime s) = view s.
Proof.
  unfold activate_catalog_runtime. revert s.
  induction catalogs as [|k ks IH]; intros s; cbn [foldl]; [done|]. by rewrite IH, view_call.
Qed.

Lemma running_clean cs s :
  let s' := foldl (λ s c, mutate_record c (λ r, tick_transitions (set_state CRunning r)) s) s cs in
  view s' = view s ∧ trace s' = trace s.
Proof.
  revert s; induction cs as [|c cs IH]; intros s; cbn [foldl]; [done|].
  destruct (IH (mutate_record c (λ r, tick_transitions (set_state CRunning r)) s)) as [-> ->].
  by rewrite view_mutate_id, trace_mutate.
Qed.

(** What executes after a clean start. *)
Lemma executing_start cs t c :
  executing (t ++ concat (map start_events cs)) c
  = (bool_decide (c ∈ cs) && participates c) || executing t c.
Proof.
  revert t; induction cs as [|x cs IH]; intros t; cbn [map concat].
  { rewrite app_nil_r, bool_decide_false; [done|apply not_elem_of_nil]. }
  rewrite app_assoc, IH. unfold start_events.
  rewrite (bool_decide_ext (c ∈ x :: cs) (c = x ∨ c ∈ cs)) by apply elem_of_cons.
  rewrite bool_decide_or. destruct (participates x) eqn:Hx.
  - change [EStart x None; EPrepare x None] with ([EStart x None] ++ [EPrepare x None]).
    rewrite app_assoc, !executing_snoc. cbn [executing_step].
    rewrite (bool_decide_ext (x = c) (c = x)) by done.
    destruct (bool_decide (c ∈ cs)), (participates c) eqn:Hc; cbn;
      repeat case_bool_decide; simplify_eq; cbn; rewrite ?orb_false_r; congruence || done.
  - rewrite executing_snoc. cbn [executing_step].
    destruct (bool_decide (c ∈ cs)); cbn; case_bool_decide; subst; rewrite ?Hx; done.
Qed.
Lemma executing_init cs t c : executing (t ++ map (λ c, EInit c None) cs) c = executing t c.
Proof.
  revert t; induction cs as [|x cs IH]; intros t; cbn [map]; [by rewrite app_nil_r|].
  change (EInit x None :: ?l) with ([EInit x None] ++ l). rewrite app_assoc, IH.
  by rewrite executing_snoc.
Qed.

Lemma request_clean cs x s :
  (∀ c, c ∈ cs → f_executing (fl s c) = participates c) →
  ∃ s', foldl (λ xs c, request_execution_stop c xs) (x, s) cs = (x, s') ∧ view s' = view s ∧
        trace s' = trace s ++ map (λ c, ERequestStop c None) (executors cs).
Proof.
  revert s; induction cs as [|c cs IH]; intros s Hp; cbn [foldl].
  { exists s. by rewrite app_nil_r. }
  destruct (request_execution_stop c (x, s)) as [x1 s1] eqn:H1.
  pose proof (Hp c ltac:(apply elem_of_cons; auto)) as Hc. unfold fl in Hc.
  apply request_effect in H1 as [_ [(Hno & -> & ->)|(Hyes & r & -> & Hx & Hv & Ht)]];
    unfold executors; rewrite filter_cons.
  - rewrite Hc, andb_diag in Hno. rewrite decide_False by congruence.
    destruct (IH s) as (s' & -> & Hv' & Ht'); [intros; apply Hp, elem_of_cons; auto|].
    by exists s'.
  - rewrite Hc, andb_diag in Hyes. rewrite decide_True by done.
    rewrite clean_request in *. rewrite Hx by done.
    destruct (IH s1) as (s' & -> & Hv' & Ht').
    { intros y Hy. unfold fl. rewrite Hv. apply Hp, elem_of_cons. auto. }
    exists s'. split; [done|]. split; [congruence|]. by rewrite Ht', Ht, <-app_assoc.
Qed.

Lemma fl_alter g c s s' x :
  view s' = alter g c (view s) → c < length (view s) →
  fl s' x = if decide (x = c) then g (fl s c) else fl s x.
Proof.
  intros Hv Hc. unfold fl. rewrite Hv. case_decide as Hx.
  - subst. destruct (lookup_lt_is_Some_2 _ _ Hc) as [f Hf]. by rewrite list_lookup_alter_eq, Hf.
  - by rewrite list_lookup_alter_ne.
Qed.

Lemma contain_clean cs x s :
  NoDup cs → length (view s) = component_count →
  (∀ c, c ∈ cs → c < component_count ∧ f_executing (fl s c) = participates c) →
  ∃ x' s', foldl (λ xs c, contain_execution c xs) (x, s) cs = (x', s') ∧
    failures x' = failures x ∧ uncontained_execution x' = uncontained_execution x ∧
    trace s' = trace s ++ map (λ c, EContain c clean_exit) (executors cs) ∧
    length (view s') = component_count ∧
    ∀ c, f_init (fl s' c) = f_init (fl s c) ∧ f_start (fl s' c) = f_start (fl s c) ∧
         f_blocked (fl s' c) = f_blocked (fl s c).
Proof.
  intros Hnd. revert x s; induction Hnd as [|c cs Hc Hnd IH]; intros x s Hl Hp; cbn [foldl].
  { exists x, s. by rewrite app_nil_r. }
  destruct (contain_execution c (x, s)) as [x1 s1] eqn:H1.
  destruct (Hp c ltac:(apply elem_of_cons; auto)) as [Hcn Hce]. unfold fl in Hce.
  apply contain_effect in H1 as [(Hno & -> & ->)|(Hyes & k & -> & Hfl & Ht & Hk)]; [..|done|done].
  - unfold executors. rewrite filter_cons. rewrite Hce, andb_diag in Hno.
    rewrite decide_False by congruence. apply IH; [done|]. intros; apply Hp, elem_of_cons; auto.
  - unfold executors. rewrite filter_cons. rewrite Hce in Hyes.
    rewrite decide_True by done. rewrite clean_contain in *. cbn [contained clean_exit] in Hk.
    destruct Hk as [Hv Hx].
    assert (length (view s1) = component_count) as Hl1 by by rewrite Hv, length_alter.
    destruct (IH x1 s1) as (x' & s' & -> & Hf' & Hx' & Ht' & Hl' & Hs'); [done| |].
    { intros y Hy. destruct (Hp y ltac:(apply elem_of_cons; auto)) as [Hyn Hye].
      split; [done|]. rewrite (fl_alter _ _ _ _ _ Hv) by lia.
      rewrite decide_False by (intros ->; done). done. }
    exists x', s'. split; [done|]. split; [by rewrite Hf', Hfl|]. split; [lia|].
    split; [by rewrite Ht', Ht, <-app_assoc|]. split; [done|]. intros y.
    destruct (Hs' y) as (-> & -> & ->). rewrite (fl_alter _ _ _ _ _ Hv) by lia.
    by case_decide; subst.
Qed.

Lemma stop_clean cs n d s :
  NoDup cs → length (view s) = component_count →
  (∀ c, c ∈ cs → c < component_count ∧ f_start (fl s c) = true ∧ f_blocked (fl s c) = false) →
  ∃ s', foldl (λ nds c, stop_one c nds) (n, d, s) cs = (n + length cs, d, s') ∧
    trace s' = trace s ++ map (λ c, EStop c None) cs ∧ length (view s') = component_count ∧
    ∀ c, f_init (fl s' c) = f_init (fl s c) ∧ f_blocked (fl s' c) = f_blocked (fl s c).
Proof.
  intros Hnd. revert n s; induction Hnd as [|c cs Hc Hnd IH]; intros n s Hl Hp; cbn [foldl map].
  { exists s. by rewrite app_nil_r, Nat.add_0_r. }
  destruct (Hp c ltac:(apply elem_of_cons; auto)) as (Hcn & Hs & Hb).
  pose proof (flags_copy c s) as Hf. fold (fl s c) in Hf.
  unfold stop_one at 2.
  assert (start_succeeded (record_copy c s) = true) as -> by (rewrite <-Hs, <-Hf; done).
  assert (cleanup_blocked (record_copy c s) = false) as -> by (rewrite <-Hb, <-Hf; done).
  cbn [negb andb]. destruct (stop_component c d s) as [d1 s1] eqn:H1.
  apply stop_effect in H1 as [(Hno & _)|(_ & _ & r & -> & -> & Ht & Hv)].
  { fold (fl s c) in Hno. by rewrite Hs, Hb in Hno. }
  assert (invoke_stop (trace s) c = None) as Hr
    by (unfold invoke_stop; rewrite clean_stop; by destruct (has_stop c)).
  rewrite Hr in *.
  assert (length (view s1) = component_count) as Hl1 by by rewrite Hv, length_alter.
  destruct (IH (Datatypes.S n) s1) as (s' & -> & Ht' & Hl' & Hs'); [done| |].
  { intros y Hy. destruct (Hp y ltac:(apply elem_of_cons; auto)) as (? & ? & ?).
    split; [done|]. rewrite (fl_alter _ _ _ _ _ Hv) by lia.
    by rewrite decide_False by (intros ->; done). }
  exists s'. split; [f_equal; f_equal; simpl; lia|]. split; [by rewrite Ht', Ht, <-app_assoc|].
  split; [done|]. intros y. destruct (Hs' y) as (-> & ->).
  rewrite (fl_alter _ _ _ _ _ Hv) by lia. by case_decide; subst.
Qed.

Lemma deinit_clean cs n d s :
  NoDup cs → length (view s) = component_count →
  (∀ c, c ∈ cs → c < component_count ∧ f_init (fl s c) = true ∧ f_blocked (fl s c) = false) →
  ∃ s', foldl (λ nds c, deinit_one c nds) (n, d, s) cs = (n + length cs, d, s') ∧
    trace s' = trace s ++ map (λ c, EDeinit c None) cs.
Proof.
  intros Hnd. revert n s; induction Hnd as [|c cs Hc Hnd IH]; intros n s Hl Hp; cbn [foldl map].
  { exists s. by rewrite app_nil_r, Nat.add_0_r. }
  destruct (Hp c ltac:(apply elem_of_cons; auto)) as (Hcn & Hs & Hb).
  pose proof (flags_copy c s) as Hf. fold (fl s c) in Hf.
  unfold deinit_one at 2.
  assert (init_succeeded (record_copy c s) = true) as -> by (rewrite <-Hs, <-Hf; done).
  assert (cleanup_blocked (record_copy c s) = false) as -> by (rewrite <-Hb, <-Hf; done).
  cbn [negb andb]. destruct (deinitialize_component c d s) as [d1 s1] eqn:H1.
  apply deinitialize_effect in H1 as [(Hno & _)|(_ & _ & r & -> & -> & Ht & Hv)].
  { fold (fl s c) in Hno. by rewrite Hs, Hb in Hno. }
  assert (invoke_deinit (trace s) c = None) as Hr
    by (unfold invoke_deinit; rewrite clean_deinit; by destruct (has_deinit c)).
  rewrite Hr in *.
  assert (length (view s1) = component_count) as Hl1 by by rewrite Hv, length_alter.
  destruct (IH (Datatypes.S n) s1) as (s' & -> & Ht'); [done| |].
  { intros y Hy. destruct (Hp y ltac:(apply elem_of_cons; auto)) as (? & ? & ?).
    split; [done|]. rewrite (fl_alter _ _ _ _ _ Hv) by lia.
    by rewrite decide_False by (intros ->; done). }
  exists s'. split; [f_equal; f_equal; simpl; lia|]. by rewrite Ht', Ht, <-app_assoc.
Qed.

Definition stop_trace : list Event :=
  sys [ESystemRequestStop None; ESystemContain clean_exit]
  ++ map (λ c, ERequestStop c None) (executors reverse_topological_order)
  ++ map (λ c, EContain c clean_exit) (executors reverse_topological_order)
  ++ map (λ c, EStop c None) reverse_topological_order
  ++ map (λ c, EDeinit c None) reverse_topological_order.

Lemma state_call e s : system_state (call e s) = system_state s.
Proof. unfold call. by rewrite clean_reported. Qed.
Lemma state_fold {A} (f : Storage → A → Storage) l s :
  (∀ s x, system_state (f s x) = system_state s) → system_state (foldl f s l) = system_state s.
Proof. intros Hf. revert s; induction l as [|x l IH]; intros s; [done|]. simpl. by rewrite IH. Qed.
Lemma state_activate c s : system_state (activate_execution c s) = system_state s.
Proof. unfold activate_execution. destruct (_ && _); [|done]. by rewrite state_call, state_mutate. Qed.

Lemma length_order : length topological_order = component_count.
Proof.
  destruct order_facts as (Hperm & _). apply Permutation_length in Hperm.
  by rewrite length_seq in Hperm.
Qed.

Lemma boot_owned_clean s :
  fresh s → system_state s = Dormant →
  ∃ report s', boot_owned s = (Ok report, s') ∧
    boot_final_state report = Running ∧ rollback_attempted report = false ∧
    initialized_components report = component_count ∧
    started_components report = component_count ∧
    system_state s' = Running ∧ trace s' = boot_trace ∧ Inv s' ∧ unblocked s' ∧
    (∀ c, c < component_count →
       f_init (fl s' c) = true ∧ f_start (fl s' c) = true ∧
       f_executing (fl s' c) = participates c).
Proof.
  intros Hf Hd. destruct (boot_owned s) as [r s'] eqn:H.
  pose proof (boot_owned_spec s r s' Hf Hd H) as [Hi' Hspec].
  unfold boot_owned in H. cbv zeta in H. rewrite Hd in H.
  destruct (init_clean topological_order (store_state Initializing s)) as (s1 & H1 & Ht1).
  rewrite H1 in H.
  apply (init_pass []) in H1 as (Hi1 & Hu1 & Hst1 & Hok1);
    [|done|by apply fresh_inv|by apply fresh_unblocked|..].
  2,3: intros c Hc; cbn [trace store_state]; by rewrite (proj1 Hf).
  unfold boot_start in H.
  destruct (start_clean topological_order (store_state Starting s1)) as (s2 & H2 & Ht2).
  rewrite H2 in H.
  apply (start_pass []) in H2 as (Hi2 & Hu2 & Hok2); [|done|exact Hi1|exact Hu1|by apply Hok1|].
  2: { intros c Hc. cbn [trace store_state]. by apply Hst1. }
  cbn [trace store_state] in Ht1, Ht2. rewrite (proj1 Hf), app_nil_l in Ht1.
  assert (∀ c, c < component_count → executing (trace s2) c = participates c) as Hex.
  { intros c Hc. rewrite Ht2, executing_start, Ht1, <-(app_nil_l (map _ _)), executing_init.
    rewrite bool_decide_true by (by apply elem_of_order). cbn. by rewrite orb_false_r. }
  assert (∀ c, c ∈ topological_order → f_prepared (fl s2 c) = participates c) as Hp2.
  { intros c Hc%elem_of_order. destruct (inv_flags s2 c Hi2 Hc) as (_ & _ & H3 & _).
    unfold fl. by rewrite H3, Hex. }
  unfold boot_commit in H.
  destruct (system_step_clean OPrepareExecution system_prepare ESystemPrepare s2)
    as (s3 & -> & Hv3 & Ht3) in H; [apply clean_system_prepare|].
  destruct (validate_clean topological_order s3) as (s4 & H4 & Hv4 & Ht4).
  { intros c Hc. unfold fl. rewrite Hv3. by apply Hp2. }
  rewrite H4 in H.
  destruct (system_step_clean OValidateExecution system_validate ESystemValidate s4)
    as (s5 & -> & Hv5 & Ht5) in H; [apply clean_system_validate|].
  unfold commit_catalog_activation in H.
  destruct (commit_clean catalogs s5) as (s6 & H6 & Hv6 & Ht6). rewrite H6 in H.
  unfold boot_running in H. cbv zeta in H.
  set (report := completed _) in H. injection H as <- Hs'.
  destruct Hspec as (Hu' & _ & _ & _ & Hn1 & Hn2 & Hup).
  destruct (running_clean topological_order s6) as [Hv7 Ht7].
  set (s7 := foldl _ s6 topological_order) in *.
  set (s8 := publish_boot report (store_state Running s7)) in Hs'.
  assert (view s8 = view s2 ∧ system_state s8 = Running ∧ trace s8 = trace s6) as (Hv8 & Hs8 & Ht8).
  { unfold s8. rewrite view_publish_boot, trace_publish_boot.
    split; [change (view (store_state Running s7)) with (view s7); congruence|].
    split; [|exact Ht7]. unfold publish_boot, with_records. by rewrite wf_lock. }
  set (s9 := if system_participates then call ESystemActivate s8 else s8) in Hs'.
  assert (view s9 = view s2 ∧ system_state s9 = Running ∧
          trace s9 = trace s6 ++ sys [ESystemActivate]) as (Hv9 & Hs9 & Ht9).
  { unfold s9, sys. destruct system_participates; [|by rewrite app_nil_r].
    by rewrite view_call, state_call, trace_call, Hv8, Hs8, Ht8. }
  destruct (activate_clean topological_order s9) as [Hv10 Ht10].
  { intros c Hc. unfold fl. rewrite Hv9. by apply Hp2. }
  set (s10 := foldl _ s9 topological_order) in *.
  exists report, s'. split; [done|]. split; [done|]. split; [done|]. split; [done|].
  split; [done|]. split; [|split; [|split; [done|split; [done|]]]].
  - rewrite <-Hs'. unfold activate_catalog_runtime.
    rewrite state_fold by (intros; apply state_call). unfold s10.
    by rewrite state_fold by (intros; apply state_activate).
  - rewrite <-Hs'. unfold activate_catalog_runtime. rewrite catalogs_clean, Ht10, Ht9, Ht6, Ht5,
      Ht4, Ht3, Ht2, Ht1. unfold boot_trace. by rewrite <-!app_assoc.
  - assert (view s' = view s2) as Hv'.
    { rewrite <-Hs', <-Hv9, <-Hv10. apply catalogs_view. }
    intros c Hc. destruct (inv_flags s' c Hi' Hc) as (H7 & H8 & _ & H9).
    destruct (inv_flags s2 c Hi2 Hc) as (_ & _ & H10 & H11).
    destruct (Hup c Hc) as [H12 H13]. unfold fl. rewrite H7, H8. split; [done|]. split; [done|].
    by rewrite Hv', H11, Hex.
Qed.

Lemma stop_owned_clean s :
  Inv s → unblocked s → system_state s = Running →
  (∀ c, c < component_count →
     f_init (fl s c) = true ∧ f_start (fl s c) = true ∧ f_executing (fl s c) = participates c) →
  ∃ report s', stop_owned s = (Ok report, s') ∧
    stop_final_state report = Stopped ∧ stopped_components report = component_count ∧
    deinitialized_components report = component_count ∧
    total (failures (execution report)) = 0 ∧
    system_state s' = Stopped ∧ trace s' = trace s ++ stop_trace.
Proof.
  intros Hi Hu Hst Hfl. unfold stop_owned. cbv zeta. rewrite Hst. cbn [negb].
  destruct order_facts as (_ & Hnd & Hrev & _).
  assert (NoDup reverse_topological_order) as Hndr by (rewrite Hrev, reverse_Permutation; done).
  assert (length reverse_topological_order = component_count) as Hlr
    by (rewrite Hrev, length_reverse; apply length_order).
  set (s0 := store_state Stopping s).
  assert (∃ x1 s1, stop_execution (no_execution, s0) = (x1, s1) ∧ failures x1 = no_failures ∧
    uncontained_execution x1 = 0 ∧ length (view s1) = component_count ∧
    trace s1 = trace s ++ sys [ESystemRequestStop None; ESystemContain clean_exit]
      ++ map (λ c, ERequestStop c None) (executors reverse_topological_order)
      ++ map (λ c, EContain c clean_exit) (executors reverse_topological_order) ∧
    ∀ c, f_init (fl s1 c) = f_init (fl s c) ∧ f_start (fl s1 c) = f_start (fl s c) ∧
         f_blocked (fl s1 c) = f_blocked (fl s c)) as (x1 & s1 & -> & Hf1 & Hx1 & Hl1 & Ht1 & Hk1).
  { unfold stop_execution. cbv zeta.
    assert (∃ x s1, contain_system_execution (request_system_execution_stop (no_execution, s0))
      = (x, s1) ∧ failures x = no_failures ∧ uncontained_execution x = 0 ∧ view s1 = view s ∧
      trace s1 = trace s ++ sys [ESystemRequestStop None; ESystemContain clean_exit])
      as (x & s1 & -> & Hf & Hx & Hv & Ht).
    { unfold request_system_execution_stop, contain_system_execution, sys.
      destruct system_participates; cbn [negb];
        [|exists no_execution, s0; by rewrite app_nil_r].
      rewrite clean_system_request. cbv zeta. rewrite clean_system_contain. cbn.
      eexists _, _. split; [done|]. split; [done|]. split; [done|].
      rewrite !view_call, !trace_call, <-app_assoc. done. }
    destruct (request_clean reverse_topological_order x s1) as (s2 & -> & Hv2 & Ht2).
    { intros c Hc%elem_of_reverse_order. unfold fl. rewrite Hv. by apply Hfl. }
    destruct (contain_clean reverse_topological_order x s2)
      as (x' & s3 & -> & Hf3 & Hx3 & Ht3 & Hl3 & Hk3); [done| | |].
    - rewrite Hv2, Hv. by apply inv_length.
    - intros c Hc%elem_of_reverse_order. split; [done|]. unfold fl. rewrite Hv2, Hv. by apply Hfl.
    - exists x', s3. split; [done|]. split; [congruence|]. split; [congruence|]. split; [done|].
      split; [by rewrite Ht3, Ht2, Ht, <-!app_assoc|]. intros c. destruct (Hk3 c) as (-> & -> & ->).
      unfold fl. by rewrite Hv2, Hv. }
  assert (∀ c, f_blocked (fl s c) = false) as Hnb.
  { intros c. specialize (Hu c). unfold blocked in Hu. unfold fl.
    by destruct (f_blocked (default initial_flags (view s !! c))). }
  destruct (stop_clean reverse_topological_order 0 (failures x1) s1)
    as (s2 & -> & Ht2 & Hl2 & Hk2); [done|done| |].
  { intros c Hc%elem_of_reverse_order. destruct (Hk1 c) as (_ & -> & ->). split; [done|].
    split; [by apply Hfl|apply Hnb]. }
  destruct (deinit_clean reverse_topological_order 0 (failures x1) (store_state Deinitializing s2))
    as (s3 & -> & Ht3); [done|done| |].
  { intros c Hc%elem_of_reverse_order. change (fl (store_state Deinitializing s2) c) with (fl s2 c).
    destruct (Hk2 c) as (-> & ->), (Hk1 c) as (-> & _ & ->). split; [done|].
    split; [by apply Hfl|apply Hnb]. }
  rewrite Hf1, Hx1. cbn [total no_failures Nat.eqb andb].
  eexists _, _. split; [done|]. cbn. rewrite Hlr. split; [done|]. split; [done|].
  split; [done|]. split; [done|]. unfold publish_stop, with_records. rewrite wf_lock.
  split; [done|]. cbn. rewrite Ht3. cbn [trace store_state]. rewrite Ht2, Ht1.
  unfold stop_trace. by rewrite <-!app_assoc.
Qed.
End CleanRun.

(** ** Properties *)
Section Properties.
Context {S : System} {W : WfSystem S}.

(** C1: whatever the hooks, the execution protocols and the other threads do,
    in any sequence of boots and stops every call the engine makes is
    permitted: a component is initialised (started) only while everything it
    requires is initialised (started); it is stopped only when it was
    started, its own execution has ended, and nothing that requires it is
    still started; it is deinitialised only when initialised, not started,
    and nothing that requires it is still initialised.  So whatever executes
    or is started, all it requires, directly or not, is started and
    initialised. *)
Theorem lifecycle_safe s (Hreach : reachable s) :
  safe (trace s) ∧
  ∀ c d, c < component_count → tc needs c d →
    (executing (trace s) c = true ∨ started (trace s) c = true →
     started (trace s) d = true ∧ live (trace s) d = true) ∧
    (live (trace s) c = true → live (trace s) d = true).
Proof.
  destruct (reachable_settled s Hreach) as [(_ & Hsafe & Hup & _) _]. split; [done|].
  assert (∀ c d, c < component_count → tc needs c d →
    (started (trace s) c = true → started (trace s) d = true) ∧
    (live (trace s) c = true → live (trace s) d = true) ∧ d < component_count) as Hchain.
  { intros c d Hc Hn. induction Hn as [c d Hn|c c' d Hn _ IH].
    - destruct (Hup c Hc) as (_ & H2 & H3). split; [by intros Hs; apply H2|].
      split; [by intros Hl; apply H3|]. by eapply rank_needs.
    - destruct (rank_needs c c' Hc Hn) as [Hc' _]. destruct (IH Hc') as (IH1 & IH2 & ?).
      destruct (Hup c Hc) as (_ & H2 & H3). split; [intros Hs; by apply IH1, H2|].
      split; [intros Hl; by apply IH2, H3|done]. }
  intros c d Hc Hn. destruct (Hchain c d Hc Hn) as (H1 & H2 & Hd). split; [|done].
  intros Hx. assert (started (trace s) c = true) as Hs
    by (destruct Hx as [Hx|Hx]; [by apply Hup in Hx as [? _]|done]).
  split; [by apply H1|]. by apply Hup, H1.
Qed.

(** C9: the outcome of [boot].  While an operation runs it answers [Busy];
    when the system runs, [AlreadyRunning]; after any earlier boot,
    [RebootUnsupported]; and in these cases nothing is called and nothing
    changes.  A first boot either starts every component and publishes the
    report it returns, or ends [Failed] with the primary failure in the
    error and the published report; and if the rollback completed, every
    component has been taken down again. *)
Theorem boot_outcome s (Hreach : reachable s) :
  (boot (set_active true s)) = (Err (mkBootError BootBusy SBusy None), set_active true s) ∧
  let '(r, s') := boot s in
  match system_state s with
  | Dormant =>
    match r with
    | Ok report =>
      last_boot s' = Some report ∧ start_completed report = true ∧
      initialized_components report = component_count ∧
      started_components report = component_count ∧
      ∀ c, c < component_count → live (trace s') c = true ∧ started (trace s') c = true
    | Err error =>
      system_state s' = Failed ∧ ∃ f report, boot_failure error = Some f ∧
      last_boot s' = Some report ∧ primary_failure report = Some f ∧
      (rollback_completed report = true → all_down (trace s'))
    end
  | Running => r = Err (mkBootError AlreadyRunning SAlready None) ∧ s' = s
  | _ => r = Err (mkBootError RebootUnsupported SNotSupported None) ∧ s' = s
  end.
Proof.
  destruct (reachable_settled s Hreach) as (Hi & Ha & Hf & _). split; [done|].
  assert (set_active false (set_active true s) = s) as Hsame by (destruct s; cbn in *; by subst).
  unfold boot. rewrite Ha. destruct (boot_owned (set_active true s)) as [r s1] eqn:H.
  destruct (system_state s) eqn:Hst.
  1: { pose proof (boot_owned_spec (set_active true s) r s1 (Hf eq_refl) Hst H) as [_ Hr].
       destruct r as [report|e]; cbn.
       - destruct Hr as (_ & _ & H1 & H2 & H3 & H4 & H5). auto.
       - exact Hr. }
  all: unfold boot_owned in H; cbn [system_state set_active] in H; rewrite Hst in H;
    injection H as <- <-; by split.
Qed.

(** C10: the outcome of [stop].  While an operation runs it answers [Busy]; it
    is refused, and changes nothing, unless the system is [Running], or
    [Failed] with resources left.  Otherwise it ends [Stopped] with the
    report it publishes, or [Failed]; and a running system that ends
    [Stopped] has every component stopped, deinitialised and no execution
    left. *)
Theorem stop_outcome s (Hreach : reachable s) :
  stop (set_active true s) = (Err (mkStopError StopBusy SBusy None), set_active true s) ∧
  let '(r, s') := stop s in
  if stop_allowed s then
    match r with
    | Ok report =>
      system_state s' = Stopped ∧ last_stop s' = Some report ∧
      (system_state s = Running → all_down (trace s'))
    | Err error => system_state s' = Failed ∧ stop_reason error = ShutdownFailed
    end
  else r = Err (mkStopError InvalidState SNotReady None) ∧ s' = s.
Proof.
  destruct (reachable_settled s Hreach) as (Hi & Ha & _ & Hru). split; [done|].
  unfold stop. rewrite Ha. destruct (stop_owned (set_active true s)) as [r s1] eqn:H.
  apply stop_owned_spec in H as (_ & Hno & Hyes); [|exact Hi].
  change (stop_allowed (set_active true s)) with (stop_allowed s) in *.
  destruct (stop_allowed s).
  - specialize (Hyes eq_refl). destruct r as [report|e]; [|done].
    destruct Hyes as (H1 & H2 & H3). split; [done|]. split; [done|].
    intros Hst. exact (H3 (Hru Hst)).
  - destruct (Hno eq_refl) as [-> ->]. split; [done|]. destruct s; cbn in *. by subst.
Qed.

(** C11: a clean run makes exactly the calls of the specification, in order:
    initialisation and start in topological order, with execution prepared
    per component, validated, committed and only then activated; then the
    stop request and containment of all execution before any component is
    stopped, and stop and deinitialisation in reverse order.  The reports
    count every component. *)
Theorem clean_run {K : Clean S} :
  let '(r, s1) := boot new_storage in
  let '(q, s2) := stop s1 in
  (∃ report, r = Ok report ∧ boot_final_state report = Running ∧
     rollback_attempted report = false ∧ initialized_components report = component_count ∧
     started_components report = component_count) ∧
  system_state s1 = Running ∧ trace s1 = boot_trace ∧
  (∃ report, q = Ok report ∧ stop_final_state report = Stopped ∧
     stopped_components report = component_count ∧
     deinitialized_components report = component_count ∧
     total (failures (execution report)) = 0) ∧
  system_state s2 = Stopped ∧ trace s2 = boot_trace ++ stop_trace.
Proof.
  unfold boot. cbn [operation_active new_storage].
  destruct (boot_owned_clean (set_active true new_storage))
    as (report & s1 & -> & H1 & H2 & H3 & H4 & H5 & H6 & H7 & H8 & H9);
    [apply new_storage_fresh|done|].
  unfold stop. cbn [operation_active set_active].
  destruct (stop_owned_clean (set_active true (set_active false s1)))
    as (report' & s2 & -> & G1 & G2 & G3 & G4 & G5 & G6); [exact H7|exact H8|exact H5|exact H9|].
  split; [by exists report|]. split; [exact H5|]. split; [exact H6|].
  split; [by exists report'|]. split; [exact G5|]. cbn. rewrite G6. cbn. by rewrite H6.
Qed.

(** A page request past the end is refused; otherwise the page holds
    exactly the records from its offset on, as many as fit, the rest of the
    destination is untouched, and [has_more] says whether any are left. *)
Theorem page_outcome destination off s (Hlen : length (records s) = component_count) :
  if component_count <? off then component_page destination off s = Err SInvalid
  else ∃ page,
    component_page destination off s
    = Ok (page, take (page_count page) (drop off (records s))
                ++ drop (page_count page) destination) ∧
    page_count page = Nat.min (length destination) (component_count - off) ∧
    (has_more page = true ↔ off + length destination < component_count) ∧
    length (take (page_count page) (drop off (records s))
            ++ drop (page_count page) destination) = length destination.
Proof.
  unfold component_page. destruct (Nat.ltb_spec component_count off) as [|Hle]; [done|].
  rewrite wf_lock.
  set (n := if length destination <? component_count - off then length destination else _).
  assert (n = Nat.min (length destination) (component_count - off)) as Hn
    by (unfold n; destruct (Nat.ltb_spec (length destination) (component_count - off)); lia).
  exists (mkPage off n component_count). split; [done|].
  unfold has_more. cbn [offset page_count page_total].
  rewrite Nat.ltb_lt, length_app, length_take, !length_drop, Hlen. lia.
Qed.
End Properties.

(** ** Example systems

    Component 1 requires component 0 and has execution. *)
Definition example (contain_ : list Event → nat → Containment)
    (reported_ : list Event → list (nat * Status)) : System := {|
  component_count := 2; topological_order := [0; 1]; reverse_topological_order := [1; 0];
  dependencies_of := λ c, if c =? 1 then [0] else []; category := λ _, Service;
  has_init := λ _, true; has_start := λ c, c =? 1; has_stop := λ _, true;
  has_deinit := λ _, true; participates := λ c, c =? 1; system_participates := true;
  catalogs := [7]; report_failure_capacity := 4;
  init_hook := λ _ _, None; start_hook := λ _ _, None; stop_hook_result := λ _ _, None;
  deinit_hook := λ _ _, None; prepare := λ _ _, None; validate_activation := λ _ _, None;
  request_stop := λ _ _, None; contain := contain_; uncontained_dependencies := λ _ _, [];
  system_prepare := λ _, None; system_validate := λ _, None; system_request_stop := λ _, None;
  system_contain := λ _, clean_exit; system_uncontained_count := λ _, 0;
  system_uncontained_dependencies := λ _, [];
  system_failure := λ op st, mkFailure 0 Facility op st true;
  commit := λ _ _, None; catalog_failure := λ _ op st, mkFailure 0 Facility op st true;
  records_lock := λ _, None; reported := reported_ |}.

Lemma example_wf contain_ reported_ : WfSystem (example contain_ reported_).
Proof.
  split; [|done|by intros ??? ?%elem_of_nil|by intros ?? ?%elem_of_nil].
  exists (λ c, if c =? 1 then [0] else []), (λ _ _ _, false). split; [by vm_compute|].
  intros c. unfold dependencies_of. simpl. unfold effective_dependencies_of. simpl.
  by destruct (c =? 1).
Qed.

#[local] Instance clean_example : System := example (λ _ _, clean_exit) (λ _, []).
#[local] Instance clean_example_wf : WfSystem clean_example := example_wf _ _.
#[local] Instance clean_example_clean : Clean clean_example.
Proof. by split. Qed.

Lemma lifecycle_safe_witness :
  safe (trace (stop (boot new_storage).2).2) ∧
  started (trace (boot new_storage).2) 1 = true ∧ needs 1 0 ∧
  started (trace (boot new_storage).2) 0 = true.
Proof.
  split; [apply (lifecycle_safe (stop (boot new_storage).2).2);
          repeat constructor|].
  assert (started (trace (boot new_storage).2) 1 = true) as Hs by (vm_compute; reflexivity).
  assert (needs 1 0) as Hn by (vm_compute; constructor).
  split; [exact Hs|]. split; [exact Hn|].
  apply (lifecycle_safe (boot new_storage).2 (reachable_boot _ reachable_new)) with (c := 1).
  - vm_compute. constructor.
  - by apply tc_once.
  - right. exact Hs.
Defined.

Lemma boot_outcome_witness :
  ∃ report, (boot new_storage).1 = Ok report ∧
    last_boot (boot new_storage).2 = Some report ∧ started_components report = 2.
Proof.
  destruct (boot_outcome new_storage reachable_new) as [_ H].
  destruct (boot new_storage) as [[report|e] s'] eqn:Hb; cbn [system_state new_storage] in H.
  - destruct H as (H1 & _ & _ & H2 & _). exists report. split; [reflexivity|]. split; [exact H1|].
    exact H2.
  - exfalso. vm_compute in Hb. discriminate.
Defined.

Lemma stop_outcome_witness :
  system_state (stop (boot new_storage).2).2 = Stopped ∧
  all_down (trace (stop (boot new_storage).2).2).
Proof.
  destruct (stop_outcome (boot new_storage).2 (reachable_boot _ reachable_new)) as [_ H].
  destruct (stop (boot new_storage).2) as [[report|e] s'] eqn:Hs.
  - assert (stop_allowed (boot new_storage).2 = true) as Ha by (vm_compute; reflexivity).
    rewrite Ha in H. destruct H as (H1 & _ & H2). split; [exact H1|]. apply H2.
    vm_compute. reflexivity.
  - exfalso. vm_compute in Hs. discriminate.
Defined.

Lemma clean_run_witness :
  trace (stop (boot new_storage).2).2 = boot_trace ++ stop_trace ∧
  boot_trace = [EInit 0 None; EInit 1 None; EStart 0 None; EStart 1 None; EPrepare 1 None;
                ESystemPrepare None; EValidate 1 None; ESystemValidate None; ECommit 7 None;
                ESystemActivate; EActivate 1; EActivateCatalog 7] ∧
  stop_trace = [ESystemRequestStop None; ESystemContain clean_exit; ERequestStop 1 None;
                EContain 1 clean_exit; EStop 1 None; EStop 0 None; EDeinit 1 None;
                EDeinit 0 None].
Proof.
  split; [|split; vm_compute; reflexivity].
  pose proof clean_run as H. destruct (boot new_storage) as [r s1]. cbn [snd] in *.
  destruct (stop s1) as [q s2]. cbn [snd]. apply H.
Defined.

Lemma page_outcome_witness :
  ∃ page, component_page [default_record; default_record; default_record] 1 new_storage
          = Ok (page, [initial_record 1; default_record; default_record]) ∧
          has_more page = false.
Proof.
  destruct (page_outcome [default_record; default_record; default_record] 1 new_storage)
    as (page & H1 & H2 & H3 & _); [reflexivity|].
  exists page. cbn in H2. rewrite H2 in H1. split; [exact H1|].
  destruct (has_more page); [|reflexivity].
  destruct H3 as [H3 _]. specialize (H3 eq_refl). cbn in H3. lia.
Defined.

(** ** Departures from the specification *)

(** The execution of component 1 outlives the first stop and ends before the
    second. *)
Definition late_contain (t : list Event) (c : nat) : Containment :=
  if existsb (λ e, match e with EContain _ _ => true | _ => false end) t then clean_exit
  else mkContainment STimeout false false true false false.

(** The second stop answers [Ok] and ends [Stopped], although the components
    the first stop preserved are still started and initialised: the blocks
    of the first stop stay, so nothing is taken down, and the report has no
    failure to show for it. *)
Example second_stop_incomplete :
  let S := example late_contain (λ _, []) in
  let s1 := (boot (S:=S) new_storage).2 in
  let '(q, s2) := stop (S:=S) s1 in
  let '(q', s3) := stop (S:=S) s2 in
  is_ok q = false ∧ is_ok q' = true ∧ system_state s3 = Stopped ∧
  started (S:=S) (trace s3) 1 = true ∧ live (trace s3) 0 = true ∧
  has_resources (S:=S) s3 = true.
Proof. vm_compute. done. Qed.

(** A failure reported while the system starts makes it [Failed], and then
    [boot] stores [Running] over it and marks the component as running. *)
Example failure_while_starting_lost :
  let reported t := match last t with Some (EPrepare 1 _) => [(1, SError)] | _ => [] end in
  let S := example (λ _ _, clean_exit) reported in
  let '(r, s) := boot (S:=S) new_storage in
  is_ok r = true ∧ system_state s = Running ∧
  (state <$> records s !! 1) = Some CRunning ∧
  (bool_decide (is_Some (first_failure (default default_record (records s !! 1)))) = true).
Proof. vm_compute. done. Qed.
