(* ===== verification/Metrics.v ===== *)
(** * Metrics: counters, gauges and bounded reducers

    Models [include/solar/metrics/types.hpp], [reducer.hpp] and the lock-based
    part of [storage.hpp]: the numeric policies, the update of each
    instrument, its record, and [LockedSlot].  The lock-free slot is in
    MetricsAtomic.  The value type of a metric is an instance of [Number]:
    an unsigned or signed integer of a width, with its 64-bit accumulator, or
    a floating type given by SpecFloat with [long double] as accumulator.
    The format of [long double] belongs to the platform.  A histogram's
    boundaries are taken to have the value type of its metric.  [None] is
    undefined behaviour of the code. *)
From stdpp Require Import prelude.
From Stdlib Require Import Floats.SpecFloat.
From S2P Require Import Prelude Status.

Open Scope Z_scope.
Open Scope solar_scope.

(** ** Types *)
Inductive InstrumentKind : Set := KCounter | KGauge | KDistribution | KTimer.
Inductive ConcurrencyKind : Set := Atomic | SpinLocked | MutexProtected.
Inductive OverflowKind : Set := Saturate | Reject | Wrap.
Inductive UpdateDisposition : Set := Updated | Unchanged | Saturated | Wrapped.
Inductive Operation : Set :=
  | OpIncrement | OpAdd | OpSet | OpObserve | OpRecordDuration | OpGet | OpTryGet | OpGetView
  | OpReset | OpQuery | OpInitialize | OpStop.
Inductive Reason : Set :=
  | RNone | RNotReady | RDisabled | RNotRegistered | RClosed | RWouldBlock | RInvalidContext
  | ROverflow | RInvalidNumeric | RConversionOverflow | RResetForbidden | RUnsupportedView
  | RReducerFailure | RClockFailure | RInternalInvariant.

#[export] Instance ConcurrencyKind_eq_dec : EqDecision ConcurrencyKind.
Proof. solve_decision. Defined.
#[export] Instance UpdateDisposition_eq_dec : EqDecision UpdateDisposition.
Proof. solve_decision. Defined.
#[export] Instance Operation_eq_dec : EqDecision Operation.
Proof. solve_decision. Defined.
#[export] Instance Reason_eq_dec : EqDecision Reason.
Proof. solve_decision. Defined.

Definition status_of (reason : Reason) : Status :=
  match reason with
  | RNone => SError
  | RNotReady | RClosed => SNotReady
  | RDisabled | RUnsupportedView | RResetForbidden => SNotSupported
  | RNotRegistered => SNotFound
  | RWouldBlock => SWouldBlock
  | RInvalidContext | RInvalidNumeric => SInvalid
  | ROverflow | RConversionOverflow => SOverflow
  | RReducerFailure | RClockFailure | RInternalInvariant => SError
  end.

Record Error : Set := mkError {
  status : Status; reason : Reason; operation : Operation; metric : Z; native_error : Z }.

Record Update : Set := mkUpdate {
  disposition : UpdateDisposition; update_revision : Z; update_epoch : Z;
  update_saturated : bool; update_wrapped : bool }.

Record ReadingMetadata : Set := mkMetadata {
  reading_epoch : Z; reading_revision : Z; reading_updates : Z; reading_updated_at : Z;
  reading_initialized : bool; reading_saturated : bool; reading_wrapped : bool;
  reading_degraded : bool }.

Record PointReading (V : Type) := mkPointReading { point_value : V; point_count : Z }.
Arguments mkPointReading {V} _ _.
Record SummaryReading (V Sum : Type) := mkSummaryReading {
  summary_count : Z; summary_sum : Sum; summary_minimum : V; summary_maximum : V;
  summary_mean : spec_float }.
Arguments mkSummaryReading {V Sum} _ _ _ _ _.
Record MeanReading (V : Type) := mkMeanReading {
  mean_count : Z; mean_latest : V; mean_mean : spec_float }.
Arguments mkMeanReading {V} _ _ _.
Record HistogramReading (Sum : Type) := mkHistogramReading {
  histogram_count : Z; histogram_sum : Sum; histogram_buckets : list Z }.
Arguments mkHistogramReading {Sum} _ _ _.

Record MetricRecord : Set := mkRecord {
  record_metric : Z; last_status : Status; last_failure : Reason;
  concurrency : ConcurrencyKind; epoch : Z; revision : Z; updates : Z; rejected : Z;
  contention : Z; overflows : Z; saturations : Z; invalid_numeric : Z; resets : Z;
  updated_at : Z; failure_at : Z; initialized : bool; saturated : bool; wrapped : bool;
  degraded : bool }.
#[export] Instance MetricRecord_fields : Fields MetricRecord := λ r,
  mkRecord (record_metric r) (last_status r) (last_failure r) (concurrency r) (epoch r)
    (revision r) (updates r) (rejected r) (contention r) (overflows r) (saturations r)
    (invalid_numeric r) (resets r) (updated_at r) (failure_at r) (initialized r) (saturated r)
    (wrapped r) (degraded r).

(** ** Policies *)
Inductive NumericPolicy : Set := RejectNonFinite | PreserveNonFinite.
Record Policies : Set := mkPolicies {
  overflow : OverflowKind; numeric : NumericPolicy; timestamps : bool }.

(** ** Sums

    [checked_add] for a [w]-bit unsigned type; on overflow it does what the
    policy says. *)
Definition checked_add (w : Z) (overflow : OverflowKind) (current amount : Z) :
  result Reason (Z * UpdateDisposition) :=
  let maximum := 2 ^ w - 1 in
  if amount <=? maximum - current then Ok (wrap w (current + amount), Updated)
  else match overflow with
       | Reject => Err ROverflow
       | Wrap => Ok (wrap w (current + amount), Wrapped)
       | Saturate => Ok (maximum, Saturated)
       end.

Definition int64_max : Z := 2 ^ 63 - 1.
Definition int64_min : Z := - 2 ^ 63.

(** Signed arithmetic whose overflow is undefined. *)
Definition int64 (z : Z) : option Z :=
  if (int64_min <=? z) && (z <=? int64_max) then Some z else None.

(** [std::bit_cast] of an unsigned 64-bit integer to a signed one. *)
Definition bit_cast_int64 (z : Z) : Z := if z <=? int64_max then z else z - 2 ^ 64.

Definition add_sum_unsigned (overflow : OverflowKind) (current value : Z) :
  option (result Reason (Z * UpdateDisposition)) :=
  Some (checked_add 64 overflow current value).

Definition add_sum_signed (overflow : OverflowKind) (current converted : Z) :
  option (result Reason (Z * UpdateDisposition)) :=
  let overflowed := ((0 <? converted) && (int64_max - converted <? current))
                    || ((converted <? 0) && (current <? int64_min - converted)) in
  if negb overflowed then next ← int64 (current + converted); Some (Ok (next, Updated))
  else match overflow with
       | Reject => Some (Err ROverflow)
       | Saturate =>
         Some (Ok (if converted <? 0 then int64_min else int64_max, Saturated))
       | Wrap =>
         Some (Ok (bit_cast_int64 (u64 (u64 current + u64 converted)), Wrapped))
       end.

(** ** Floating point *)
Definition convert (prec emax : Z) (f : spec_float) : spec_float :=
  match f with
  | S754_finite s m e => binary_normalize prec emax (cond_Zopp s (Zpos m)) e s
  | _ => f
  end.
Definition of_int (prec emax z : Z) : spec_float := binary_normalize prec emax z 0 false.
Abbreviation to_double := (convert 53 1024).
Abbreviation double_of_int := (of_int 53 1024).

Definition isfinite (f : spec_float) : bool :=
  match f with S754_finite _ _ _ | S754_zero _ => true | _ => false end.

(** The format of [long double] and the sign bit of the NaN its operations
    produce. *)
Class LongDouble := { ld_prec : Z; ld_emax : Z; nan_signbit : bool }.

Section Float.
Context `{LongDouble}.

Definition signbit (f : spec_float) : bool :=
  match f with
  | S754_finite s _ _ | S754_zero s | S754_infinity s => s
  | S754_nan => nan_signbit
  end.

Definition ld_max : spec_float := SFmax_float ld_prec ld_emax.

Definition add_sum_float (overflow : OverflowKind) (current value : spec_float) :
  option (result Reason (spec_float * UpdateDisposition)) :=
  let next := SFadd ld_prec ld_emax current (convert ld_prec ld_emax value) in
  if isfinite next then Some (Ok (next, Updated))
  else match overflow with
       | Saturate =>
         Some (Ok (if signbit next then SFopp ld_max else ld_max, Saturated))
       | _ => Some (Err ROverflow)
       end.
End Float.

(** ** Value types

    What the storage needs of a metric's [Value] and its [accumulator_t].
    [add_value] is [checked_add] on the value type; counters are refused at
    compile time unless their value is unsigned, so it is [None] for the
    other types. *)
Class Number (V Sum : Type) := {
  v_zero : V;
  s_zero : Sum;
  v_is_zero : V → bool;
  v_ltb : V → V → bool;
  v_finite : V → bool;
  add_value : OverflowKind → V → V → option (result Reason (V * UpdateDisposition));
  add_sum : OverflowKind → Sum → V → option (result Reason (Sum * UpdateDisposition));
  sub_sum : Sum → V → option Sum;
  sum_to_double : Sum → spec_float;
  to_long_double : V → spec_float
}.

(** What the theorems use of them. *)
Class NumberLaws (V Sum : Type) `{Number V Sum} : Prop := {
  add_sum_changed ov s v s' d : add_sum ov s v = Some (Ok (s', d)) → d ≠ Unchanged;
  add_value_changed ov v v' v'' d : add_value ov v v' = Some (Ok (v'', d)) → d ≠ Unchanged
}.

Definition uint `{LongDouble} (w : Z) : Number Z Z := {|
  v_zero := 0; s_zero := 0; v_is_zero := Z.eqb 0; v_ltb := Z.ltb; v_finite _ := true;
  add_value ov current amount := Some (checked_add w ov current amount);
  add_sum := add_sum_unsigned;
  sub_sum s v := Some (u64 (s - v));
  sum_to_double := double_of_int;
  to_long_double := of_int ld_prec ld_emax |}.

Definition sint `{LongDouble} : Number Z Z := {|
  v_zero := 0; s_zero := 0; v_is_zero := Z.eqb 0; v_ltb := Z.ltb; v_finite _ := true;
  add_value _ _ _ := None;
  add_sum := add_sum_signed;
  sub_sum s v := int64 (s - v);
  sum_to_double := double_of_int;
  to_long_double := of_int ld_prec ld_emax |}.

Definition float `{LongDouble} : Number spec_float spec_float := {|
  v_zero := S754_zero false; s_zero := S754_zero false; v_is_zero := SFeqb (S754_zero false);
  v_ltb := SFltb; v_finite := isfinite;
  add_value _ _ _ := None;
  add_sum := add_sum_float;
  sub_sum s v := Some (SFsub ld_prec ld_emax s (convert ld_prec ld_emax v));
  sum_to_double := to_double;
  to_long_double := convert ld_prec ld_emax |}.

Lemma checked_add_changed w ov a b c d :
  checked_add w ov a b = Ok (c, d) → d ≠ Unchanged.
Proof. unfold checked_add. by repeat case_match; intros; simplify_eq. Qed.

Lemma int64_some z z' : int64 z = Some z' ↔ z' = z ∧ int64_min ≤ z ≤ int64_max.
Proof.
  unfold int64. destruct (Z.leb_spec int64_min z), (Z.leb_spec z int64_max); simpl;
    naive_solver lia.
Qed.

(** The sum fits exactly when the guard says so: nothing is undefined. *)
Lemma add_sum_signed_spec ov a b :
  int64_min ≤ a ≤ int64_max → int64_min ≤ b ≤ int64_max →
  add_sum_signed ov a b =
    if decide (int64_min ≤ a + b ≤ int64_max) then Some (Ok (a + b, Updated))
    else match ov with
         | Reject => Some (Err ROverflow)
         | Saturate => Some (Ok (if b <? 0 then int64_min else int64_max, Saturated))
         | Wrap => Some (Ok (bit_cast_int64 (u64 (u64 a + u64 b)), Wrapped))
         end.
Proof.
  intros Ha Hb. unfold add_sum_signed.
  destruct (decide _) as [Hin|Hout].
  - destruct (Z.ltb_spec 0 b), (Z.ltb_spec (int64_max - b) a), (Z.ltb_spec b 0),
      (Z.ltb_spec a (int64_min - b)); simpl; try lia;
      by rewrite (proj2 (int64_some (a + b) (a + b))).
  - destruct (Z.ltb_spec 0 b), (Z.ltb_spec (int64_max - b) a), (Z.ltb_spec b 0),
      (Z.ltb_spec a (int64_min - b)); simpl; try lia; done.
Qed.

#[export] Instance uint_laws `{LongDouble} w : @NumberLaws Z Z (uint w).
Proof.
  split; simpl; unfold add_sum_unsigned; intros; simplify_eq; eauto using checked_add_changed.
Qed.
#[export] Instance sint_laws `{LongDouble} : @NumberLaws Z Z sint.
Proof.
  split; simpl; [|done]. unfold add_sum_signed, int64; intros ov s v s' d.
  by intros; repeat case_match; simplify_option_eq.
Qed.
#[export] Instance float_laws `{LongDouble} : @NumberLaws spec_float spec_float float.
Proof. split; simpl; unfold add_sum_float; intros; by repeat case_match; simplify_eq. Qed.

(** ** Instruments and their state *)
Inductive Reducer (V : Type) : Type :=
  | Last | Minimum | Maximum | Summary
  | WindowMean (size : nat)
  | Ema (numerator denominator : Z)
  | Histogram (boundaries : list V).
Arguments Last {V}. Arguments Minimum {V}. Arguments Maximum {V}. Arguments Summary {V}.
Arguments WindowMean {V} size. Arguments Ema {V} numerator denominator.
Arguments Histogram {V} boundaries.

Inductive Instrument (V : Type) : Type :=
  | Counter | Gauge
  | Distribution (reducer : Reducer V)
  | Timer (reducer : Reducer V).
Arguments Counter {V}. Arguments Gauge {V}. Arguments Distribution {V} reducer.
Arguments Timer {V} reducer.

Record CounterState (V : Type) := mkCounter { counter_value : V }.
Arguments mkCounter {V} _. Arguments counter_value {V} _.
Record GaugeState (V : Type) := mkGauge { gauge_value : V; gauge_initialized : bool }.
Arguments mkGauge {V} _ _. Arguments gauge_value {V} _. Arguments gauge_initialized {V} _.
Record PointState (V : Type) := mkPoint { value : V; count : Z; seen : bool }.
Arguments mkPoint {V} _ _ _. Arguments value {V} _. Arguments count {V} _. Arguments seen {V} _.
Record SummaryState (V Sum : Type) := mkSummary {
  s_count : Z; s_sum : Sum; s_minimum : V; s_maximum : V; s_seen : bool }.
Arguments mkSummary {V Sum} _ _ _ _ _. Arguments s_count {V Sum} _. Arguments s_sum {V Sum} _.
Arguments s_minimum {V Sum} _. Arguments s_maximum {V Sum} _. Arguments s_seen {V Sum} _.
Record WindowState (V Sum : Type) := mkWindow {
  w_values : list V; w_sum : Sum; w_latest : V; w_next : nat; w_count : nat }.
Arguments mkWindow {V Sum} _ _ _ _ _. Arguments w_values {V Sum} _. Arguments w_sum {V Sum} _.
Arguments w_latest {V Sum} _. Arguments w_next {V Sum} _. Arguments w_count {V Sum} _.
Record EmaState (V : Type) := mkEma {
  e_mean : spec_float; e_latest : V; e_count : Z; e_seen : bool }.
Arguments mkEma {V} _ _ _ _. Arguments e_mean {V} _. Arguments e_latest {V} _.
Arguments e_count {V} _. Arguments e_seen {V} _.
Record HistogramState (Sum : Type) := mkHistogram {
  buckets : list Z; h_count : Z; h_sum : Sum }.
Arguments mkHistogram {Sum} _ _ _. Arguments buckets {Sum} _. Arguments h_count {Sum} _.
Arguments h_sum {Sum} _.

Record SlotState (I : Type) := mkSlot { instrument : I; record : MetricRecord }.
Arguments mkSlot {I} _ _. Arguments instrument {I} _. Arguments record {I} _.
#[export] Instance SlotState_fields I : Fields (SlotState I) := λ s,
  mkSlot (instrument s) (record s).

(** [Result<Update, Error>] with the slot it leaves; [None] is undefined
    behaviour. *)
Abbreviation updating I A := (option (result Error A * SlotState I)).

Definition slot_error (id : Z) (op : Operation) (st : Status) (why : Reason) : Error :=
  mkError st why op id 0.

(** ** The platform's choice of a slot *)
Record Backends : Set := mkBackends {
  lock_free : bool;           (** the value and the metadata are lock free *)
  atomic_backend : bool; spinlock_backend : bool; mutex_backend : bool;
  small_state : bool }.       (** [sizeof(SlotState) <= 256] *)

Definition atomic_metric_valid {V} (i : Instrument V) (b : Backends) : bool :=
  match i with Counter | Gauge => lock_free b | _ => false end.

(** The requested policy, [None] for [Automatic].  The result is [None] when
    no backend is compiled in: the code does not compile then. *)
Definition effective_concurrency {V} (i : Instrument V) (b : Backends)
    (requested : option ConcurrencyKind) : option ConcurrencyKind :=
  match requested with
  | Some c => Some c
  | None =>
    let atomic_available := atomic_metric_valid i b && atomic_backend b in
    if atomic_available || spinlock_backend b || mutex_backend b then
      Some (if atomic_available then Atomic
            else if spinlock_backend b && (small_state b || negb (mutex_backend b))
            then SpinLocked else MutexProtected)
    else None
  end.

Definition bounded_isr {V} (r : Reducer V) : bool :=
  match r with
  | Last | Minimum | Maximum | Summary => true
  | WindowMean size => (size <=? 16)%nat
  | Ema _ _ => false
  | Histogram boundaries => (length boundaries <=? 8)%nat
  end.

Definition metric_isr_compatible {V} (i : Instrument V) (c : ConcurrencyKind) : bool :=
  match c with
  | MutexProtected => false
  | _ => match i with Distribution r | Timer r => bounded_isr r | _ => true end
  end.

Section Metric.
Context `{LongDouble} {V Sum : Type} `{Number V Sum}.

(** A reducer the code accepts: a positive window, a ratio in [0, 1],
    strictly increasing boundaries. *)
Fixpoint ordered (boundaries : list V) : bool :=
  match boundaries with
  | x :: (y :: _) as t => v_ltb x y && ordered t
  | _ => true
  end.
Definition reducer_valid (r : Reducer V) : bool :=
  match r with
  | WindowMean size => (0 <? size)%nat
  | Ema numerator denominator => (0 <? denominator) && (numerator <=? denominator)
  | Histogram boundaries => ordered boundaries
  | _ => true
  end.

Definition ReducerState (r : Reducer V) : Type :=
  match r with
  | Last | Minimum | Maximum => PointState V
  | Summary => SummaryState V Sum
  | WindowMean _ => WindowState V Sum
  | Ema _ _ => EmaState V
  | Histogram _ => HistogramState Sum
  end.

Definition InstrumentState (i : Instrument V) : Type :=
  match i with
  | Counter => CounterState V
  | Gauge => GaugeState V
  | Distribution r | Timer r => ReducerState r
  end.

(** Value-initialised states. *)
Definition empty_reducer (r : Reducer V) : ReducerState r :=
  match r with
  | Last | Minimum | Maximum => mkPoint v_zero 0 false
  | Summary => mkSummary 0 s_zero v_zero v_zero false
  | WindowMean size => mkWindow (replicate size v_zero) s_zero v_zero 0 0
  | Ema _ _ => mkEma (S754_zero false) v_zero 0 false
  | Histogram boundaries => mkHistogram (replicate (length boundaries + 1) 0) 0 s_zero
  end.

(** [initial] is the gauge's [initial_value], if it declares one. *)
Definition initialize_instrument (initial : option V) (i : Instrument V) : InstrumentState i :=
  match i with
  | Counter => mkCounter v_zero
  | Gauge => match initial with Some v => mkGauge v true | None => mkGauge v_zero false end
  | Distribution r | Timer r => empty_reducer r
  end.

Definition instrument_initialized (i : Instrument V) : InstrumentState i → bool :=
  match i with
  | Counter => λ _, true
  | Gauge => gauge_initialized
  | Distribution _ | Timer _ => λ _, false
  end.

Definition initialize_state (initial : option V) (i : Instrument V) (id : Z)
    (c : ConcurrencyKind) : SlotState (InstrumentState i) :=
  let state := initialize_instrument initial i in
  mkSlot state (mkRecord id SOk RNone c 0 0 0 0 0 0 0 0 0 0 0
                  (instrument_initialized i state) false false false).

(** ** Readings *)
Definition ReducerReading (r : Reducer V) : Type :=
  match r with
  | Last | Minimum | Maximum => PointReading V
  | Summary => SummaryReading V Sum
  | WindowMean _ | Ema _ _ => MeanReading V
  | Histogram _ => HistogramReading Sum
  end.
Definition ReadingValue (i : Instrument V) : Type :=
  match i with
  | Counter | Gauge => V
  | Distribution r | Timer r => ReducerReading r
  end.
Definition Reading (i : Instrument V) : Type := ReadingMetadata * ReadingValue i.

Definition fill_metadata (r : MetricRecord) : ReadingMetadata :=
  mkMetadata (epoch r) (revision r) (updates r) (updated_at r) (initialized r) (saturated r)
    (wrapped r) (degraded r).

Definition mean_of (sum : Sum) (count : Z) : spec_float :=
  if count =? 0 then S754_zero false
  else SFdiv 53 1024 (sum_to_double sum) (double_of_int count).

Definition read_reducer (r : Reducer V) : ReducerState r → ReducerReading r :=
  match r with
  | Last | Minimum | Maximum => λ s, mkPointReading (value s) (count s)
  | Summary => λ s,
    mkSummaryReading (s_count s) (s_sum s) (s_minimum s) (s_maximum s)
      (mean_of (s_sum s) (s_count s))
  | WindowMean _ => λ s,
    mkMeanReading (Z.of_nat (w_count s)) (w_latest s) (mean_of (w_sum s) (Z.of_nat (w_count s)))
  | Ema _ _ => λ s, mkMeanReading (e_count s) (e_latest s) (to_double (e_mean s))
  | Histogram _ => λ s, mkHistogramReading (h_count s) (h_sum s) (buckets s)
  end.

Definition read_instrument (i : Instrument V) : InstrumentState i → ReadingValue i :=
  match i with
  | Counter => counter_value
  | Gauge => gauge_value
  | Distribution r | Timer r => read_reducer r
  end.

Definition make_reading (i : Instrument V) (s : SlotState (InstrumentState i)) : Reading i :=
  (fill_metadata (record s), read_instrument i (instrument s)).

(** ** Updates under a policy

    [now] is what [kernel::now_ticks] answers; each operation asks at most
    once. *)
Context (pol : Policies).

Definition valid_numeric (v : V) : bool :=
  match numeric pol with RejectNonFinite => v_finite v | PreserveNonFinite => true end.

Definition stamp_failure (now : Z) (r : MetricRecord) : MetricRecord :=
  if timestamps pol then r <| failure_at := now |> else r.
Definition stamp_update (now : Z) (r : MetricRecord) : MetricRecord :=
  if timestamps pol then r <| updated_at := now |> else r.

Definition record_failure (now : Z) (st : Status) (why : Reason) (r : MetricRecord) :
  MetricRecord :=
  stamp_failure now (r <| rejected ::= inc64 |> <| last_status := st |> <| last_failure := why |>).

(** The failure branches: account it in the record, leave the instrument. *)
Definition fail_numeric {I} (now : Z) (op : Operation) (s : SlotState I) : updating I Update :=
  let r := record_failure now SInvalid RInvalidNumeric (record s) in
  Some (Err (slot_error (record_metric r) op SInvalid RInvalidNumeric),
        s <| record := r <| invalid_numeric ::= inc64 |> |>).
Definition fail_overflow {I} (now : Z) (op : Operation) (why : Reason) (s : SlotState I) :
  updating I Update :=
  let r := record_failure now SOverflow why (record s) in
  Some (Err (slot_error (record_metric r) op SOverflow why),
        s <| record := r <| overflows ::= inc64 |> |>).

Definition accept (r : MetricRecord) : MetricRecord :=
  r <| revision ::= inc64 |> <| updates ::= inc64 |> <| last_status := SOk |>
    <| initialized := true |>.

Definition add_counter (now : Z) (amount : V) (op : Operation) (s : SlotState (CounterState V)) :
  updating (CounterState V) Update :=
  if v_is_zero amount then
    Some (Ok (mkUpdate Unchanged (revision (record s)) (epoch (record s)) false false), s)
  else
  match add_value (overflow pol) (counter_value (instrument s)) amount with
  | None => None
  | Some (Err why) => fail_overflow now op why s
  | Some (Ok (next, d)) =>
    let r := accept (record s) in
    let r := match d with
             | Saturated => r <| saturated := true |> <| saturations ::= inc64 |>
             | Wrapped => r <| wrapped := true |> <| overflows ::= inc64 |>
             | _ => r
             end in
    let r := stamp_update now r in
    Some (Ok (mkUpdate d (revision r) (epoch r) (saturated r) (wrapped r)),
          mkSlot (mkCounter next) r)
  end.

Definition set_gauge (now : Z) (v : V) (op : Operation) (s : SlotState (GaugeState V)) :
  updating (GaugeState V) Update :=
  if negb (valid_numeric v) then fail_numeric now op s
  else
    let r := stamp_update now (accept (record s)) in
    Some (Ok (mkUpdate Updated (revision r) (epoch r) false false),
          mkSlot (mkGauge v true) r).

(** *** The reducers

    Each prepares the state after [v] and the disposition of its sum. *)
Abbreviation preparing st := (option (result Reason (st * UpdateDisposition))).

Definition observe_last (v : V) (p : PointState V) : preparing (PointState V) :=
  Some (Ok (mkPoint v (inc64 (count p)) true, Updated)).
Definition observe_minimum (v : V) (p : PointState V) : preparing (PointState V) :=
  Some (Ok (mkPoint (if negb (seen p) || v_ltb v (value p) then v else value p)
              (inc64 (count p)) true, Updated)).
Definition observe_maximum (v : V) (p : PointState V) : preparing (PointState V) :=
  Some (Ok (mkPoint (if negb (seen p) || v_ltb (value p) v then v else value p)
              (inc64 (count p)) true, Updated)).

(** [std::min] and [std::max] keep their first argument on a tie. *)
Definition std_min (a b : V) : V := if v_ltb b a then b else a.
Definition std_max (a b : V) : V := if v_ltb a b then b else a.

Definition observe_summary (v : V) (p : SummaryState V Sum) : preparing (SummaryState V Sum) :=
  '(sum, d) ⇐ add_sum (overflow pol) (s_sum p) v;
  Some (Ok (mkSummary (inc64 (s_count p)) sum
              (if s_seen p then std_min (s_minimum p) v else v)
              (if s_seen p then std_max (s_maximum p) v else v) true, d)).

(** An index outside the window is undefined. *)
Definition observe_window (size : nat) (v : V) (p : WindowState V Sum) :
  preparing (WindowState V Sum) :=
  next_sum ← (if (w_count p =? size)%nat then
                evicted ← w_values p !! w_next p; sub_sum (w_sum p) evicted
              else Some (w_sum p));
  '(sum, d) ⇐ add_sum (overflow pol) next_sum v;
  values ← wr (w_values p) (w_next p) v;
  Some (Ok (mkWindow values sum v ((w_next p + 1) mod size)%nat
              (if (w_count p =? size)%nat then w_count p else (w_count p + 1)%nat), d)).

Definition observe_ema (numerator denominator : Z) (v : V) (p : EmaState V) :
  preparing (EmaState V) :=
  let add := SFadd ld_prec ld_emax in
  let sub := SFsub ld_prec ld_emax in
  let mul := SFmul ld_prec ld_emax in
  let ld := of_int ld_prec ld_emax in
  let alpha := SFdiv ld_prec ld_emax (ld numerator) (ld denominator) in
  let mean :=
    if e_seen p then
      add (mul alpha (to_long_double v)) (mul (sub (ld 1) alpha) (e_mean p))
    else to_long_double v in
  Some (Ok (mkEma mean v (inc64 (e_count p)) true, Updated)).

(** The first bucket whose boundary is not below [v]. *)
Fixpoint bucket_of (boundaries : list V) (v : V) : nat :=
  match boundaries with
  | b :: t => if v_ltb b v then Datatypes.S (bucket_of t v) else O
  | [] => O
  end.

Definition observe_histogram (boundaries : list V) (v : V) (p : HistogramState Sum) :
  preparing (HistogramState Sum) :=
  '(sum, d) ⇐ add_sum (overflow pol) (h_sum p) v;
  let bucket := bucket_of boundaries v in
  n ← buckets p !! bucket;
  bs ← wr (buckets p) bucket (inc64 n);
  Some (Ok (mkHistogram bs (inc64 (h_count p)) sum, d)).

Definition observe_reducer (r : Reducer V) (v : V) : ReducerState r → preparing (ReducerState r) :=
  match r with
  | Last => observe_last v
  | Minimum => observe_minimum v
  | Maximum => observe_maximum v
  | Summary => observe_summary v
  | WindowMean size => observe_window size v
  | Ema numerator denominator => observe_ema numerator denominator v
  | Histogram boundaries => observe_histogram boundaries v
  end.

Definition observe_distribution (r : Reducer V) (now : Z) (v : V) (op : Operation)
    (s : SlotState (ReducerState r)) : updating (ReducerState r) Update :=
  if negb (valid_numeric v) then fail_numeric now op s
  else
  match observe_reducer r v (instrument s) with
  | None => None
  | Some (Err _) => fail_overflow now op ROverflow s
  | Some (Ok (prepared, d)) =>
    let rc := accept (record s) in
    let rc := match d with
              | Saturated =>
                rc <| saturated := true |> <| degraded := true |> <| saturations ::= inc64 |>
              | Wrapped =>
                rc <| wrapped := true |> <| degraded := true |> <| overflows ::= inc64 |>
              | _ => rc
              end in
    let rc := stamp_update now rc in
    Some (Ok (mkUpdate d (revision rc) (epoch rc) (saturated rc) (wrapped rc)),
          mkSlot prepared rc)
  end.

Definition reset_state (initial : option V) (i : Instrument V)
    (s : SlotState (InstrumentState i)) : updating (InstrumentState i) Update :=
  let state := initialize_instrument initial i in
  let r := record s <| epoch ::= inc32 |> <| revision := 0 |> <| updates := 0 |>
             <| updated_at := 0 |> <| saturated := false |> <| wrapped := false |>
             <| degraded := false |> <| initialized := instrument_initialized i state |>
             <| resets ::= inc64 |> <| last_status := SOk |> <| last_failure := RNone |>
             <| failure_at := 0 |> in
  Some (Ok (mkUpdate Updated 0 (epoch r) false false), mkSlot state r).

(** ** The locked slot

    The slot's lock makes each operation one step.  [answer] is the lock's:
    [None] when it is taken, the status of the failure otherwise; taking a
    spin lock without [no_wait] never fails. *)
Record LockedSlot (I : Type) := mkLocked {
  id : Z; state : SlotState I; contention_fallback : Z; contention_at_fallback : Z }.
Arguments mkLocked {I} _ _ _ _. Arguments id {I} _. Arguments state {I} _.
Arguments contention_fallback {I} _. Arguments contention_at_fallback {I} _.

Abbreviation locked I A := (option (result Error A * LockedSlot I)).

Definition merge_contention {I} (l : LockedSlot I) : LockedSlot I :=
  let n := contention_fallback l in
  let r := record (state l) <| contention ::= λ c, u64 (c + n) |> in
  let r := if n =? 0 then r else
             let r := r <| last_status := SWouldBlock |> <| last_failure := RWouldBlock |> in
             if timestamps pol then r <| failure_at := contention_at_fallback l |> else r in
  mkLocked (id l) (mkSlot (instrument (state l)) r) 0 (contention_at_fallback l).

Definition record_contention_fallback {I} (now : Z) (l : LockedSlot I) : LockedSlot I :=
  mkLocked (id l) (state l) (inc64 (contention_fallback l)) now.

(** Whether the lock is refused, and the status to report. *)
Definition refusal (c : ConcurrencyKind) (no_wait : bool) (answer : option Status) :
  option Status :=
  match c with
  | SpinLocked => if no_wait then (λ _, SWouldBlock) <$> answer else None
  | _ => answer
  end.

Definition access {I A} (c : ConcurrencyKind) (no_wait : bool) (answer : option Status) (now : Z)
    (op : Operation) (f : SlotState I → updating I A) (l : LockedSlot I) : locked I A :=
  match refusal c no_wait answer with
  | Some st =>
    Some (Err (slot_error (id l) op st RWouldBlock), record_contention_fallback now l)
  | None =>
    let l := merge_contention l in
    '(res, s) ← f (state l);
    Some (res, mkLocked (id l) s (contention_fallback l) (contention_at_fallback l))
  end.

(** The slot of a metric [i] whose policy selects the lock [c]. *)
Definition locked_initialize (initial : option V) (i : Instrument V) (c : ConcurrencyKind)
    (now slot_id : Z) (l : LockedSlot (InstrumentState i)) : locked (InstrumentState i) unit :=
  access c false None now OpInitialize
    (λ _, Some (Ok tt, initialize_state initial i slot_id c))
    (mkLocked slot_id (state l) (contention_fallback l) (contention_at_fallback l)).

(** An operation from an interrupt is refused when the slot cannot take it,
    and never waits. *)
Definition guarded {I A} (i : Instrument V) (c : ConcurrencyKind) (no_wait isr : bool)
    (answer : option Status) (now : Z) (op : Operation) (f : SlotState I → updating I A)
    (l : LockedSlot I) : locked I A :=
  if isr && negb (metric_isr_compatible i c) then
    Some (Err (slot_error (id l) op SNotSupported RInvalidContext), l)
  else access c (no_wait || isr) answer now op f l.

Definition locked_add (c : ConcurrencyKind) (amount : V) (no_wait isr : bool)
    (answer : option Status) (now : Z) (op : Operation) (l : LockedSlot (CounterState V)) :
  locked (CounterState V) Update :=
  guarded Counter c no_wait isr answer now op (add_counter now amount op) l.

Definition locked_set (c : ConcurrencyKind) (v : V) (no_wait isr : bool)
    (answer : option Status) (now : Z) (op : Operation) (l : LockedSlot (GaugeState V)) :
  locked (GaugeState V) Update :=
  guarded Gauge c no_wait isr answer now op (set_gauge now v op) l.

Definition locked_observe (r : Reducer V) (c : ConcurrencyKind) (v : V) (no_wait isr : bool)
    (answer : option Status) (now : Z) (op : Operation) (l : LockedSlot (ReducerState r)) :
  locked (ReducerState r) Update :=
  guarded (Distribution r) c no_wait isr answer now op (observe_distribution r now v op) l.

Definition locked_get (i : Instrument V) (c : ConcurrencyKind) (no_wait : bool)
    (answer : option Status) (now : Z) (l : LockedSlot (InstrumentState i)) :
  locked (InstrumentState i) (Reading i) :=
  access c no_wait answer now (if no_wait then OpTryGet else OpGet)
    (λ s, Some (Ok (make_reading i s), s)) l.

Definition locked_reset (initial : option V) (i : Instrument V) (c : ConcurrencyKind)
    (no_wait : bool) (answer : option Status) (now : Z) (l : LockedSlot (InstrumentState i)) :
  locked (InstrumentState i) Update :=
  access c no_wait answer now OpReset (reset_state initial i) l.

Definition locked_reject {I} (c : ConcurrencyKind) (op : Operation) (st : Status) (why : Reason)
    (no_wait : bool) (answer : option Status) (now : Z) (l : LockedSlot I) :
  option (Error * LockedSlot I) :=
  '(res, l') ← access c no_wait answer now op (λ s,
    let r := record_failure now st why (record s) in
    let r := match why with
             | ROverflow | RConversionOverflow => r <| overflows ::= inc64 |>
             | RInvalidNumeric => r <| invalid_numeric ::= inc64 |>
             | _ => r
             end in
    Some (Ok tt, mkSlot (instrument s) r)) l;
  Some (match res with Ok _ => slot_error (id l) op st why | Err e => e end, l').

(** The record of a slot whose lock refuses is a default one. *)
Definition locked_record {I} (c : ConcurrencyKind) (answer : option Status) (now : Z)
    (l : LockedSlot I) : option (MetricRecord * LockedSlot I) :=
  '(res, l') ← access c false answer now OpQuery (λ s, Some (Ok (record s), s)) l;
  Some (match res with
        | Ok r => r
        | Err e => mkRecord (id l) (status e) (reason e) MutexProtected 0 0 0 0 0 0 0 0 0 0 0
                     false false false false
        end, l').
End Metric.
Arguments ReducerState {V} Sum r. Arguments InstrumentState {V} Sum i.
Arguments ReducerReading {V} Sum r. Arguments ReadingValue {V} Sum i.
Arguments Reading {V} Sum i.
Arguments mkLocked {I} _ _ _ _. Arguments id {I} _. Arguments state {I} _.
Arguments contention_fallback {I} _. Arguments contention_at_fallback {I} _.
