(* ===== verification/MetricsSlots.v ===== *)
(** * MetricsSlots: what a slot computes over its life

    The calls made on a locked slot, in the order in which its lock lets them
    in, with the lock's answers; what the slot has accepted since its last
    reset; and the theorems on its record, on the readings of counters and
    reducers, and on the absence of undefined behaviour. *)
From stdpp Require Import prelude.
From Stdlib Require Import Floats.SpecFloat.
From S2P Require Import Prelude Status Metrics.

Open Scope Z_scope.
Open Scope solar_scope.

Section Slot.
Context `{LongDouble} {V Sum : Type} `{Number V Sum}.
Context (pol : Policies) (initial : option V) (i : Instrument V) (c : ConcurrencyKind).

(** ** Calls *)
Inductive Event : Type :=
  | Mutate (v : V) (no_wait isr : bool) (op : Operation)
  | Read (no_wait : bool)
  | Clear (no_wait : bool)
  | Refuse (op : Operation) (st : Status) (why : Reason) (no_wait : bool)
  | Query.
Record Call : Type := mkCall { event : Event; answer : option Status; now : Z }.

Inductive Outcome : Type :=
  | OUpdate (res : result Error Update)
  | OReading (res : result Error (Reading Sum i))
  | OReset (res : result Error Update)
  | ORefused (e : Error)
  | ORecord (r : MetricRecord).

Abbreviation slot := (LockedSlot (InstrumentState Sum i)).

(** The mutation the instrument has. *)
Definition locked_mutate (v : V) (no_wait isr : bool) (answer : option Status) (now : Z)
    (op : Operation) : slot → option (result Error Update * slot) :=
  match i with
  | Counter => locked_add pol c v no_wait isr answer now op
  | Gauge => locked_set pol c v no_wait isr answer now op
  | Distribution r | Timer r => locked_observe pol r c v no_wait isr answer now op
  end.

Definition serve (call : Call) (l : slot) : option (Outcome * slot) :=
  match event call with
  | Mutate v no_wait isr op =>
    '(res, l) ← locked_mutate v no_wait isr (answer call) (now call) op l; Some (OUpdate res, l)
  | Read no_wait =>
    '(res, l) ← locked_get pol i c no_wait (answer call) (now call) l; Some (OReading res, l)
  | Clear no_wait =>
    '(res, l) ← locked_reset pol initial i c no_wait (answer call) (now call) l;
    Some (OReset res, l)
  | Refuse op st why no_wait =>
    '(e, l) ← locked_reject pol c op st why no_wait (answer call) (now call) l;
    Some (ORefused e, l)
  | Query => '(r, l) ← locked_record pol c (answer call) (now call) l; Some (ORecord r, l)
  end.

Fixpoint serve_all (calls : list Call) (l : slot) : option (list Outcome * slot) :=
  match calls with
  | [] => Some ([], l)
  | call :: calls =>
    '(out, l) ← serve call l;
    '(outs, l) ← serve_all calls l;
    Some (out :: outs, l)
  end.

(** A slot's life: [initialize], then the calls. *)
Definition live (slot_id now : Z) (calls : list Call) (l : slot) : option (list Outcome * slot) :=
  '(_, l) ← locked_initialize pol initial i c now slot_id l; serve_all calls l.

(** ** The account of a life *)
Record Tally : Set := mkTally {
  t_updates : Z; t_resets : Z; t_rejected : Z; t_refused : Z }.

Definition no_waiting (e : Event) : bool :=
  match e with
  | Mutate _ no_wait isr _ => no_wait || isr
  | Read no_wait | Clear no_wait | Refuse _ _ _ no_wait => no_wait
  | Query => false
  end.
Definition barred (e : Event) : bool :=
  match e with Mutate _ _ isr _ => isr && negb (metric_isr_compatible i c) | _ => false end.
(** The call reaches the slot's state. *)
Definition admitted (call : Call) : bool :=
  negb (barred (event call))
  && negb (bool_decide (is_Some (refusal c (no_waiting (event call)) (answer call)))).

Definition tally_one (call : Call) (out : Outcome) (t : Tally) : Tally :=
  let '(mkTally u e r f) := t in
  if barred (event call) then t
  else if admitted call then
    match out with
    | OUpdate (Ok up) =>
      if bool_decide (disposition up = Unchanged) then t else mkTally (u + 1) e r f
    | OUpdate (Err _) | ORefused _ => mkTally u e (r + 1) f
    | OReset _ => mkTally 0 (e + 1) r f
    | _ => t
    end
  else mkTally u e r (f + 1).

(** The values accepted since the last reset, oldest first. *)
Definition history_one (call : Call) (out : Outcome) (h : list V) : list V :=
  match event call, out with
  | Mutate v _ _ _, OUpdate (Ok _) => h ++ [v]
  | _, OReset (Ok _) => []
  | _, _ => h
  end.

Fixpoint over_life {A} (f : Call → Outcome → A → A) (calls : list Call) (outs : list Outcome)
    (a : A) : A :=
  match calls, outs with
  | call :: calls, out :: outs => over_life f calls outs (f call out a)
  | _, _ => a
  end.
Definition tally (calls : list Call) (outs : list Outcome) : Tally :=
  over_life tally_one calls outs (mkTally 0 0 0 0).
Definition history (calls : list Call) (outs : list Outcome) : list V :=
  over_life history_one calls outs [].

(** ** One mutation

    [prepare] is the instrument's part of a mutation, without the record. *)
Definition prepare (v : V) : InstrumentState Sum i →
  option (result Reason (InstrumentState Sum i * UpdateDisposition)) :=
  match i with
  | Counter => λ s,
    if v_is_zero v then Some (Ok (s, Unchanged))
    else '(next, d) ⇐ add_value (overflow pol) (counter_value s) v; Some (Ok (mkCounter next, d))
  | Gauge => λ s, Some (Ok (mkGauge v true, Updated))
  | Distribution r | Timer r => observe_reducer pol r v
  end.

Definition flagged (d : UpdateDisposition) (flags : bool * bool) : bool * bool :=
  match d with
  | Saturated => (true, flags.2)
  | Wrapped => (flags.1, true)
  | _ => flags
  end.
Definition flags_of (r : MetricRecord) : bool * bool := (saturated r, wrapped r).

(** What a mutation that changes the state does to the record. *)
Record accepted (d : UpdateDisposition) (up : Update) (r r' : MetricRecord) : Prop := {
  acc_disposition : disposition up = d;
  acc_changed : d ≠ Unchanged;
  acc_revision : revision r' = inc64 (revision r);
  acc_updates : updates r' = inc64 (updates r);
  acc_epoch : epoch r' = epoch r;
  acc_resets : resets r' = resets r;
  acc_rejected : rejected r' = rejected r;
  acc_contention : contention r' = contention r;
  acc_flags : flags_of r' = flagged d (flags_of r);
  acc_reported : update_revision up = revision r' ∧ update_epoch up = epoch r'
}.
(** What a refused value does to it. *)
Record refused (r r' : MetricRecord) : Prop := {
  ref_revision : revision r' = revision r;
  ref_updates : updates r' = updates r;
  ref_epoch : epoch r' = epoch r;
  ref_resets : resets r' = resets r;
  ref_rejected : rejected r' = inc64 (rejected r);
  ref_contention : contention r' = contention r;
  ref_flags : flags_of r' = flags_of r
}.

(** The mutation of the slot's state. *)
Definition mutate (v : V) (now : Z) (op : Operation) :
  SlotState (InstrumentState Sum i) → updating (InstrumentState Sum i) Update :=
  match i with
  | Counter => add_counter pol now v op
  | Gauge => set_gauge pol now v op
  | Distribution r | Timer r => observe_distribution pol r now v op
  end.

Lemma locked_mutate_eq v no_wait isr answer now op l :
  locked_mutate v no_wait isr answer now op l
  = guarded pol i c no_wait isr answer now op (mutate v now op) l.
Proof. unfold locked_mutate, mutate, locked_add, locked_set, locked_observe. by destruct i. Qed.

Lemma fail_numeric_refused {I} now op (s : SlotState I) :
  ∃ e s', fail_numeric pol now op s = Some (Err e, s')
    ∧ instrument s' = instrument s ∧ refused (record s) (record s').
Proof.
  eexists _, _. split; [done|]. split; [done|]. unfold record_failure, stamp_failure.
  by destruct (timestamps pol).
Qed.
Lemma fail_overflow_refused {I} now op why (s : SlotState I) :
  ∃ e s', fail_overflow pol now op why s = Some (Err e, s')
    ∧ instrument s' = instrument s ∧ refused (record s) (record s').
Proof.
  eexists _, _. split; [done|]. split; [done|]. unfold record_failure, stamp_failure.
  by destruct (timestamps pol).
Qed.

Lemma stamp_update_fields now r :
  let r' := stamp_update pol now r in
  revision r' = revision r ∧ updates r' = updates r ∧ epoch r' = epoch r ∧ resets r' = resets r
  ∧ rejected r' = rejected r ∧ contention r' = contention r ∧ flags_of r' = flags_of r.
Proof. unfold stamp_update. by destruct (timestamps pol). Qed.

Context `{!NumberLaws V Sum}.

(** A mutation follows [prepare]: undefined with it, accounted as accepted
    when it succeeds, and without effect on the instrument otherwise. *)
Definition mutated (v : V) (s : SlotState (InstrumentState Sum i))
    (m : updating (InstrumentState Sum i) Update) : Prop :=
  match m with
  | None => prepare v (instrument s) = None
  | Some (Err e, s') => instrument s' = instrument s ∧ refused (record s) (record s')
  | Some (Ok up, s') =>
    ∃ d, prepare v (instrument s) = Some (Ok (instrument s', d)) ∧
      (if bool_decide (d = Unchanged) then disposition up = Unchanged ∧ record s' = record s
       else accepted d up (record s) (record s'))
  end.

Lemma accepted_counter now d up r next :
  d ≠ Unchanged →
  let r' := match d with
            | Saturated => accept r <| saturated := true |> <| saturations ::= inc64 |>
            | Wrapped => accept r <| wrapped := true |> <| overflows ::= inc64 |>
            | _ => accept r
            end in
  next = stamp_update pol now r' →
  up = mkUpdate d (revision next) (epoch next) (saturated next) (wrapped next) →
  accepted d up r next.
Proof.
  intros Hd r' -> ->. destruct (stamp_update_fields now r') as (?&?&?&?&?&?&Hf).
  subst r'; destruct d; split; try done; simpl in *; congruence.
Qed.

Lemma accepted_distribution now d up r next :
  d ≠ Unchanged →
  let r' := match d with
            | Saturated =>
              accept r <| saturated := true |> <| degraded := true |> <| saturations ::= inc64 |>
            | Wrapped =>
              accept r <| wrapped := true |> <| degraded := true |> <| overflows ::= inc64 |>
            | _ => accept r
            end in
  next = stamp_update pol now r' →
  up = mkUpdate d (revision next) (epoch next) (saturated next) (wrapped next) →
  accepted d up r next.
Proof.
  intros Hd r' -> ->. destruct (stamp_update_fields now r') as (?&?&?&?&?&?&Hf).
  subst r'; destruct d; split; try done; simpl in *; congruence.
Qed.

Lemma mutated_failed v s m :
  (∃ e s', m = Some (Err e, s') ∧ instrument s' = instrument s ∧ refused (record s) (record s')) →
  mutated v s m.
Proof. by intros (e & s' & -> & ?). Qed.

Lemma mutated_done v s d up s' :
  prepare v (instrument s) = Some (Ok (instrument s', d)) → d ≠ Unchanged →
  accepted d up (record s) (record s') → mutated v s (Some (Ok up, s')).
Proof. intros ???. exists d. by rewrite bool_decide_false. Qed.

End Slot.

Arguments Event V : clear implicits. Arguments Call V : clear implicits.
Arguments Outcome {V} Sum i. Arguments OUpdate {V Sum i} res. Arguments OReading {V Sum i} res.
Arguments OReset {V Sum i} res. Arguments ORefused {V Sum i} e. Arguments ORecord {V Sum i} r.

Section Mutate.
Context `{LongDouble} {V Sum : Type} `{Number V Sum} `{!NumberLaws V Sum}.
Context (pol : Policies).

Lemma observe_changed (r : Reducer V) v (s s' : ReducerState Sum r) d :
  observe_reducer pol r v s = Some (Ok (s', d)) → d ≠ Unchanged.
Proof.
  destruct r; simpl; unfold observe_last, observe_minimum, observe_maximum, observe_summary,
    observe_window, observe_ema, observe_histogram, cbind;
    intros; do 2 (repeat case_match; simplify_option_eq); try done; eauto using add_sum_changed.
Qed.

(** The reducers share one argument, whether sampled or timed. *)
Lemma observe_spec (r : Reducer V) v now op (s : SlotState (ReducerState Sum r)) :
  mutated pol (Distribution r) v s (observe_distribution pol r now v op s).
Proof.
  unfold observe_distribution. case_match.
  - apply mutated_failed, fail_numeric_refused.
  - destruct (observe_reducer pol r v (instrument s)) as [[[next d]|why]|] eqn:Hobs.
    + eapply mutated_done; [done|by eapply observe_changed|].
      by eapply accepted_distribution; [by eapply observe_changed|..].
    + apply mutated_failed, fail_overflow_refused.
    + done.
Qed.

Lemma mutate_spec (i : Instrument V) v now op s : mutated pol i v s (mutate pol i v now op s).
Proof.
  destruct i as [| |r|r]; simpl; [| |apply observe_spec|apply (observe_spec r)].
  - unfold add_counter. case_match eqn:Hz.
    + exists Unchanged. simpl. by rewrite Hz.
    + assert (Hp : prepare (Sum:=Sum) pol Counter v (instrument s)
        = ('(next, d) ⇐ add_value (overflow pol) (counter_value (instrument s)) v;
           Some (Ok (mkCounter next, d)))) by (simpl; by rewrite Hz).
      destruct (add_value _ _ _) as [[[next d]|why]|] eqn:Hadd.
      * eapply mutated_done; [exact Hp|by eapply add_value_changed|].
        by eapply accepted_counter; [by eapply add_value_changed|..].
      * apply mutated_failed, fail_overflow_refused.
      * exact Hp.
  - unfold set_gauge. case_match; [apply mutated_failed, fail_numeric_refused|].
    destruct (stamp_update_fields pol now (accept (record s))) as (?&?&?&?&?&?&?).
    eapply mutated_done; [done|done|]. split; try done; simpl; congruence.
Qed.
End Mutate.

(** ** One call *)
Section Serve.
Context `{LongDouble} {V Sum : Type} `{Number V Sum} `{!NumberLaws V Sum}.
Context (pol : Policies) (initial : option V) (i : Instrument V) (c : ConcurrencyKind).

Abbreviation slot := (LockedSlot (InstrumentState Sum i)).

Definition is_failure (call : Call V) (out : Outcome Sum i) : Prop :=
  match event call, out with
  | Mutate _ _ _ _, OUpdate (Err _) | Read _, OReading (Err _) | Clear _, OReset (Err _)
  | Refuse _ _ _ _, ORefused _ | Query, ORecord _ => True
  | _, _ => False
  end.

(** What a call that reaches the state does to it. *)
Definition reaches (call : Call V) (out : Outcome Sum i) (s s' : SlotState (InstrumentState Sum i)) :
  Prop :=
  match event call, out with
  | Mutate v _ _ _, OUpdate res => mutated pol i v s (Some (res, s'))
  | Read _, OReading (Ok rd) => s' = s ∧ rd = make_reading i s
  | Clear _, OReset (Ok up) => reset_state initial i s = Some (Ok up, s')
  | Refuse _ _ _ _, ORefused _ =>
    instrument s' = instrument s ∧ refused (record s) (record s')
  | Query, ORecord r => s' = s ∧ r = record s
  | _, _ => False
  end.

Inductive served (call : Call V) (l : slot) (out : Outcome Sum i) : slot → Prop :=
  | served_barred : barred i c (event call) = true → is_failure call out → served call l out l
  | served_refused : barred i c (event call) = false → admitted i c call = false →
    is_failure call out → served call l out (record_contention_fallback (now call) l)
  | served_admitted l' : barred i c (event call) = false → admitted i c call = true →
    reaches call out (state (merge_contention pol l)) (state l') → contention_fallback l' = 0 →
    served call l out l'.

Lemma access_cases {I A} no_wait answer now op (f : SlotState I → updating I A) l :
  (is_Some (refusal c no_wait answer) ∧
   ∃ e, access pol c no_wait answer now op f l = Some (Err e, record_contention_fallback now l))
  ∨ (¬ is_Some (refusal c no_wait answer) ∧
     access pol c no_wait answer now op f l
     = ('(res, s) ← f (state (merge_contention pol l));
        Some (res, mkLocked (id l) s 0 (contention_at_fallback l)))).
Proof.
  unfold access. destruct (refusal _ _ _) as [st|]; [left|right]; eauto.
Qed.

Lemma admitted_iff (call : Call V) :
  barred i c (event call) = false →
  admitted i c call = true ↔ ¬ is_Some (refusal c (no_waiting (event call)) (answer call)).
Proof. unfold admitted. intros ->. simpl. by rewrite negb_true_iff, bool_decide_eq_false. Qed.

(** Merging the contention changes nothing else that is accounted. *)
Lemma merge_contention_fields {I} (l : LockedSlot I) :
  let s := state (merge_contention pol l) in
  instrument s = instrument (state l)
  ∧ contention (record s) = u64 (contention (record (state l)) + contention_fallback l)
  ∧ revision (record s) = revision (record (state l))
  ∧ updates (record s) = updates (record (state l))
  ∧ epoch (record s) = epoch (record (state l))
  ∧ resets (record s) = resets (record (state l))
  ∧ rejected (record s) = rejected (record (state l))
  ∧ flags_of (record s) = flags_of (record (state l)).
Proof. unfold merge_contention. simpl. repeat case_match; done. Qed.

#[local] Opaque merge_contention.

Lemma record_failure_refused now st why r : refused r (record_failure pol now st why r).
Proof. unfold record_failure, stamp_failure. by destruct (timestamps pol). Qed.

Lemma refused_count now st why r :
  refused r (match why with
             | ROverflow | RConversionOverflow =>
               record_failure pol now st why r <| overflows ::= inc64 |>
             | RInvalidNumeric => record_failure pol now st why r <| invalid_numeric ::= inc64 |>
             | _ => record_failure pol now st why r
             end).
Proof. destruct (record_failure_refused now st why r). by destruct why. Qed.

(** A refused lock, in [serve_served] and [serve_undefined]. *)
Lemma not_admitted call :
  barred i c (event call) = false →
  is_Some (refusal c (no_waiting (event call)) (answer call)) → admitted i c call = false.
Proof. intros Hbar Href. apply not_true_is_false. rewrite admitted_iff by done. tauto. Qed.

Lemma serve_mutate v no_wait isr op answer now l :
  let call := mkCall (Mutate v no_wait isr op) answer now in
  barred i c (event call) = false → admitted i c call = true →
  serve pol initial i c call l
  = '(res, s) ← mutate pol i v now op (state (merge_contention pol l));
    Some (OUpdate res, mkLocked (id l) s 0 (contention_at_fallback l)).
Proof.
  intros call Hbar Hadm. apply admitted_iff in Hadm; [|done].
  unfold serve; simpl. rewrite locked_mutate_eq. unfold guarded. simpl in Hbar. rewrite Hbar.
  destruct (access_cases (no_wait || isr) answer now op (mutate pol i v now op) l)
    as [[? _]|[_ ->]]; [done|].
  by destruct (mutate _ _ _ _ _ _) as [[??]|].
Qed.

Lemma serve_served call l out l' :
  serve pol initial i c call l = Some (out, l') → served call l out l'.
Proof.
  destruct call as [e answer now].
  destruct (barred i c e) eqn:Hbar.
  { destruct e as [v nw isr op| | | |]; simpl in *; try done. unfold serve; simpl.
    rewrite locked_mutate_eq. unfold guarded. rewrite Hbar. simpl. intros [= <- <-].
    by apply served_barred. }
  destruct (admitted i c (mkCall e answer now)) eqn:Hadm.
  - destruct e as [v nw isr op|nw|nw|op st why nw|].
    { rewrite serve_mutate by done. pose proof (mutate_spec pol i v now op) as Hspec.
      specialize (Hspec (state (merge_contention pol l))).
      destruct (mutate _ _ _ _ _ _) as [[res s']|]; [|done].
      intros [= <- <-]. by apply served_admitted. }
    all: apply admitted_iff in Hadm as Href; [|done]; simpl in Href; unfold serve; simpl;
      unfold locked_get, locked_reset, locked_reject, locked_record;
      match goal with |- context [access _ _ ?nw ?an ?no ?op ?f ?l] =>
        destruct (access_cases nw an no op f l) as [[? _]|[_ ->]]; [done|] end;
      simpl; intros [= <- <-]; apply served_admitted; try done.
    split; [done|]. apply refused_count.
  - assert (Href : is_Some (refusal c (no_waiting e) answer)).
    { destruct (decide (is_Some (refusal c (no_waiting e) answer))) as [|Hn]; [done|].
      by rewrite (proj2 (admitted_iff (mkCall e answer now) Hbar) Hn) in Hadm. }
    destruct e as [v nw isr op|nw|nw|op st why nw|]; unfold serve; simpl in *;
      [rewrite locked_mutate_eq; unfold guarded; rewrite Hbar|..];
      unfold locked_get, locked_reset, locked_reject, locked_record;
      match goal with |- context [access _ _ ?nw ?an ?no ?op ?f ?l] =>
        destruct (access_cases nw an no op f l) as [(_ & err & ->)|[? _]]; [|done] end;
      simpl; intros [= <- <-]; by apply served_refused.
Qed.

Lemma serve_undefined call l :
  serve pol initial i c call l = None →
  ∃ v no_wait isr op, event call = Mutate v no_wait isr op
    ∧ prepare pol i v (instrument (state l)) = None.
Proof.
  destruct call as [e answer now].
  destruct e as [v nw isr op|nw|nw|op st why nw|];
    [|unfold serve; simpl; unfold locked_get, locked_reset, locked_reject, locked_record;
      match goal with |- context [access _ _ ?nw ?an ?no ?op ?f ?l] =>
        destruct (access_cases nw an no op f l) as [(_ & err & ->)|[_ ->]]; done end..].
  intros Hnone. exists v, nw, isr, op. split; [done|]. unfold serve in Hnone; simpl in Hnone.
  rewrite locked_mutate_eq in Hnone. unfold guarded in Hnone. case_match; [done|].
  match type of Hnone with context [access _ _ ?nw ?an ?no ?op ?f ?l] =>
    destruct (access_cases nw an no op f l) as [(_ & err & Heq)|[_ Heq]]; rewrite Heq in Hnone end;
    [done|].
  destruct (merge_contention_fields l) as [<- _].
  pose proof (mutate_spec pol i v now op (state (merge_contention pol l))) as Hspec.
  by destruct (mutate _ _ _ _ _ _) as [[??]|].
Qed.

(** ** Induction over a life

    An invariant of the history, the instrument and its latches that every
    mutation keeps holds all along. *)
Section Rule.
Context (admissible : V → Prop)
  (P : list V → InstrumentState Sum i → bool * bool → Prop).
Context (P_initial : P [] (initialize_instrument initial i) (false, false)).
Context (P_prepare : ∀ h s fl v s' d,
  admissible v → P h s fl → prepare pol i v s = Some (Ok (s', d)) → P (h ++ [v]) s' (flagged d fl)).

Definition admissible_call (call : Call V) : Prop :=
  match event call with Mutate v _ _ _ => admissible v | _ => True end.

Definition holds (h : list V) (l : slot) : Prop :=
  P h (instrument (state l)) (flags_of (record (state l))).

Lemma serve_holds call l out l' h :
  admissible_call call → holds h l → serve pol initial i c call l = Some (out, l') →
  holds (history_one i call out h) l'.
Proof.
  intros Had Hh Hs. apply serve_served in Hs.
  destruct call as [e answer now]. unfold history_one, holds in *. simpl in *.
  inversion Hs as [_ Hf|_ _ Hf|l'' _ _ Hr Hz]; subst.
  1,2: by destruct e, out as [[]|[]|[]| |].
  destruct (merge_contention_fields l) as (Hi & _ & _ & _ & _ & _ & _ & Hfl).
  unfold reaches in Hr; simpl in Hr.
  destruct e as [v nw isr op|nw|nw|op st why nw|], out as [[]|[]|[]| |]; try done.
  - destruct Hr as (d & Hp & Hd). rewrite Hi in Hp.
    assert (flags_of (record (state l')) = flagged d (flags_of (record (state l)))) as ->.
    { case_bool_decide as Hu; [destruct Hd as [_ ->]; by subst|]. by destruct Hd; congruence. }
    by eapply P_prepare.
  - by destruct Hr as [-> Hr]; rewrite (ref_flags _ _ Hr), Hfl, Hi.
  - destruct Hr as [-> _]. by rewrite Hi, Hfl.
  - unfold reset_state in Hr. injection Hr as <- <-. done.
  - destruct Hr as [-> Hr]. by rewrite (ref_flags _ _ Hr), Hfl, Hi.
  - destruct Hr as [-> _]. by rewrite Hi, Hfl.
Qed.

Lemma serve_all_holds calls l outs l' h :
  Forall admissible_call calls → holds h l →
  serve_all pol initial i c calls l = Some (outs, l') →
  holds (over_life i (history_one i) calls outs h) l'.
Proof.
  intros Had. revert l outs h. induction Had as [|call calls Hc _ IH]; intros l outs h Hh Hs; simpl in Hs.
  { by simplify_eq. }
  destruct (serve _ _ _ _ call l) as [[out l1]|] eqn:Hone; simpl in Hs; [|done].
  destruct (serve_all _ _ _ _ calls l1) as [[outs1 l2]|] eqn:Hall; simplify_eq/=.
  eapply IH; [|done]. by eapply serve_holds.
Qed.

Lemma serve_all_defined calls l h :
  (∀ h s fl v, admissible v → P h s fl → prepare pol i v s ≠ None) →
  Forall admissible_call calls → holds h l → is_Some (serve_all pol initial i c calls l).
Proof.
  intros Hdef Had. revert l h. induction Had as [|call calls Hc _ IH]; intros l h Hh; simpl; [by eexists|].
  destruct (serve _ _ _ _ call l) as [[out l1]|] eqn:Hone; simpl.
  - destruct (IH l1 (history_one i call out h)) as [[outs l2] ->]; [by eapply serve_holds|].
    by eexists.
  - apply serve_undefined in Hone as (v & nw & isr & op & He & Hp).
    unfold admissible_call in Hc. rewrite He in Hc. by eapply Hdef in Hp.
Qed.
End Rule.

(** [initialize] never fails, and forgets what was there. *)
Lemma initialize_fresh now slot_id l :
  ∃ l1, locked_initialize pol initial i c now slot_id l = Some (Ok tt, l1)
    ∧ state l1 = initialize_state initial i slot_id c ∧ contention_fallback l1 = 0.
Proof.
  unfold locked_initialize. destruct (access_cases false None now OpInitialize
    (λ _, Some (Ok tt, initialize_state initial i slot_id c))
    (mkLocked slot_id (state l) (contention_fallback l) (contention_at_fallback l)))
    as [[Hr _]|[_ ->]]; [|by eexists].
  by destruct c, Hr.
Qed.

Lemma live_serve_all slot_id now calls l :
  ∃ l1, live pol initial i c slot_id now calls l = serve_all pol initial i c calls l1
    ∧ state l1 = initialize_state initial i slot_id c ∧ contention_fallback l1 = 0.
Proof.
  unfold live. destruct (initialize_fresh now slot_id l) as (l1 & -> & Hs & Hf). by exists l1.
Qed.

(** ** The record accounts for the calls *)
Definition accounts (t : Tally) (l : slot) : Prop :=
  let r := record (state l) in
  revision r = u64 (t_updates t) ∧ updates r = u64 (t_updates t)
  ∧ epoch r = u32 (t_resets t) ∧ resets r = u64 (t_resets t)
  ∧ rejected r = u64 (t_rejected t) ∧ u64 (contention r + contention_fallback l) = u64 (t_refused t).

Ltac account :=
  unfold accounts; simpl; repeat split; rewrite <-?inc64_u64, <-?inc32_u32; try done;
  try congruence.

Lemma serve_accounts call l out l' t :
  accounts t l → serve pol initial i c call l = Some (out, l') →
  accounts (tally_one i c call out t) l'.
Proof.
  destruct t as [u e rj rf]. intros Ht Hs. apply serve_served in Hs. unfold tally_one.
  destruct Ht as (Hrev & Hupd & Hep & Hres & Hrej & Hcon); simpl in *.
  inversion Hs as [Hb Hf|Hb Ha Hf|l'' Hb Ha Hr Hz]; subst; rewrite Hb.
  { done. }
  { rewrite Ha. repeat split; try done; simpl.
    rewrite <-inc64_u64, <-Hcon. unfold inc64, wrap. rewrite Zplus_mod_idemp_l, Zplus_mod_idemp_r.
    f_equal. lia. }
  rewrite Ha. destruct (merge_contention_fields l) as (Hi & Mc & Mr & Mu & Me & Ms & Mj & _).
  rewrite Hcon in Mc.
  assert (Hz' : ∀ r, contention r = u64 rf → u64 (contention r + contention_fallback l') = u64 rf).
  { intros r ->. rewrite Hz, Z.add_0_r. apply wrap_wrap. }
  unfold reaches in Hr. destruct (event call), out as [[up|]|[]|[]| |]; try done.
  - destruct Hr as (d & _ & Hd). case_bool_decide as Hun.
    + destruct Hd as [Hu Hrec]. rewrite bool_decide_true by done.
      account; apply Hz'; congruence.
    + destruct Hd. rewrite bool_decide_false by congruence.
      account; apply Hz'; congruence.
  - destruct Hr as [_ []]. account; apply Hz'; congruence.
  - unfold accounts; simpl. destruct Hr as [-> _]. account; apply Hz'; congruence.
  - unfold reset_state in Hr. unfold accounts; simpl. injection Hr as <- <-.
    account; apply Hz'; congruence.
  - destruct Hr as [_ []]. account; apply Hz'; congruence.
  - unfold accounts; simpl. destruct Hr as [-> _]. account; apply Hz'; congruence.
Qed.

Lemma serve_all_accounts calls l outs l' t :
  accounts t l → serve_all pol initial i c calls l = Some (outs, l') →
  accounts (over_life i (tally_one i c) calls outs t) l'.
Proof.
  revert l outs t. induction calls as [|call calls IH]; intros l outs t Ht Hs; simpl in Hs.
  { by simplify_eq. }
  destruct (serve _ _ _ _ call l) as [[out l1]|] eqn:Hone; simpl in Hs; [|done].
  destruct (serve_all _ _ _ _ calls l1) as [[outs1 l2]|] eqn:Hall; simplify_eq/=.
  eapply IH; [|done]. by eapply serve_accounts.
Qed.
End Serve.
