(* ===== verification/MetricsProps.v ===== *)
(** * MetricsProps: the theorems on metric slots

    Over any sequence of calls on a slot: the record accounts for them, a
    counter holds the total of what it accepted, a distribution reads as the
    summary of its history, and nothing is undefined, with the one exception
    of a signed window whose sums can leave 64 bits. *)
From stdpp Require Import prelude.
From Stdlib Require Import Floats.SpecFloat.
From S2P Require Import Prelude Status Metrics MetricsSlots.

Open Scope Z_scope.
Open Scope solar_scope.

Lemma Forall_singleton_1 {A} (P : A → Prop) x : Forall P [x] → P x.
Proof. by inversion 1. Qed.

(** ** Sums, extrema and suffixes of a history *)
Definition total (h : list Z) : Z := foldr Z.add 0 h.
Definition least (h : list Z) : Z :=
  match h with [] => 0 | x :: t => foldl Z.min x t end.
Definition greatest (h : list Z) : Z :=
  match h with [] => 0 | x :: t => foldl Z.max x t end.
Definition newest (h : list Z) : Z := default 0 (last h).
Definition lastn {A} (n : nat) (h : list A) : list A := drop (length h - n) h.

Lemma total_app h k : total (h ++ k) = total h + total k.
Proof. unfold total. induction h; simpl; lia. Qed.
Lemma total_snoc h v : total (h ++ [v]) = total h + v.
Proof. rewrite total_app. simpl. lia. Qed.
Lemma total_nonneg h : Forall (λ v, 0 ≤ v) h → 0 ≤ total h.
Proof. unfold total. induction 1; simpl; lia. Qed.
Lemma total_bounded b h : Forall (λ v, Z.abs v ≤ b) h → Z.abs (total h) ≤ Z.of_nat (length h) * b.
Proof. unfold total. induction 1; simpl; lia. Qed.

Lemma least_snoc h v : least (h ++ [v]) = if decide (h = []) then v else Z.min (least h) v.
Proof. destruct h; [done|]. simpl. by rewrite foldl_app. Qed.
Lemma greatest_snoc h v :
  greatest (h ++ [v]) = if decide (h = []) then v else Z.max (greatest h) v.
Proof. destruct h; [done|]. simpl. by rewrite foldl_app. Qed.
Lemma newest_snoc h v : newest (h ++ [v]) = v.
Proof. unfold newest. by rewrite last_snoc. Qed.

Lemma lastn_short {A} n (h : list A) : (length h ≤ n)%nat → lastn n h = h.
Proof. intros. unfold lastn. by replace (length h - n)%nat with 0%nat by lia. Qed.
Lemma lastn_snoc {A} n (h : list A) v :
  (0 < n)%nat → (n ≤ length h)%nat →
  ∃ x t, h !! (length h - n)%nat = Some x ∧ lastn n h = x :: t ∧ lastn n (h ++ [v]) = t ++ [v].
Proof.
  intros Hn Hlen. destruct (lookup_lt_is_Some_2 h (length h - n)) as [x Hx]; [lia|].
  exists x, (drop (S (length h - n)) h). split; [done|]. unfold lastn. split.
  - by apply drop_S.
  - rewrite length_app; simpl. replace (length h + 1 - n)%nat with (S (length h - n)) by lia.
    by rewrite drop_app_le by lia.
Qed.
Lemma length_lastn {A} n (h : list A) : length (lastn n h) = Nat.min n (length h).
Proof. unfold lastn. rewrite length_drop. lia. Qed.

Lemma mod_apart a b n : (a mod n = b mod n → b < a → a < b + n → False)%nat.
Proof.
  intros Heq Hlt Hlt'. pose proof (Nat.div_mod_eq a n). pose proof (Nat.div_mod_eq b n).
  rewrite Heq in *. destruct (Nat.le_gt_cases (a / n) (b / n)); nia.
Qed.

(** ** The histogram's buckets *)
Definition in_bucket (boundaries : list Z) (k : nat) (v : Z) : bool :=
  match k with O => true | S j => default 0 (boundaries !! j) <? v end
  && match boundaries !! k with Some b => v <=? b | None => true end.
Definition tally_bucket (boundaries : list Z) (h : list Z) (k : nat) : Z :=
  Z.of_nat (length (filter (λ v, in_bucket boundaries k v = true) h)).

(** ** What a distribution's reading says of its history *)
Section Spec.
Context `{LongDouble} `{Number Z Z}.

Definition ema_step (numerator denominator : Z) (mean : spec_float) (v : Z) : spec_float :=
  let ld := of_int ld_prec ld_emax in
  let alpha := SFdiv ld_prec ld_emax (ld numerator) (ld denominator) in
  SFadd ld_prec ld_emax (SFmul ld_prec ld_emax alpha (to_long_double v))
    (SFmul ld_prec ld_emax (SFsub ld_prec ld_emax (ld 1) alpha) mean).
Definition ema (numerator denominator : Z) (h : list Z) : spec_float :=
  match h with
  | [] => S754_zero false
  | x :: t => foldl (ema_step numerator denominator) (to_long_double x) t
  end.

Definition summarise (r : Reducer Z) (h : list Z) : ReducerReading Z r :=
  let n := u64 (Z.of_nat (length h)) in
  match r with
  | Last => mkPointReading (newest h) n
  | Minimum => mkPointReading (least h) n
  | Maximum => mkPointReading (greatest h) n
  | Summary => mkSummaryReading n (total h) (least h) (greatest h) (mean_of (total h) n)
  | WindowMean size =>
    let w := lastn size h in
    mkMeanReading (Z.of_nat (length w)) (newest h) (mean_of (total w) (Z.of_nat (length w)))
  | Ema numerator denominator =>
    mkMeanReading n (newest h) (to_double (ema numerator denominator h))
  | Histogram boundaries =>
    mkHistogramReading n (total h)
      (map (λ k, u64 (tally_bucket boundaries h k)) (seq 0 (length boundaries + 1)))
  end.
End Spec.

(** ** Integer metrics

    What the exactness of a reading needs of the value type: [adm] are the
    values of the type, [inr] the sums of the accumulator. *)
Class Integral `(N : Number Z Z) (adm inr : Z → Prop) : Prop := {
  it_zero : v_zero = 0;
  it_sum_zero : s_zero = 0;
  it_zero_in : inr 0;
  it_ltb a b : v_ltb a b = (a <? b);
  it_add ov s v s' : inr s → adm v → add_sum ov s v = Some (Ok (s', Updated)) →
    s' = s + v ∧ inr s';
  it_is_zero v : v_is_zero v = (v =? 0);
  it_value ov a v a' : 0 ≤ a → adm v → add_value ov a v = Some (Ok (a', Updated)) →
    a' = a + v ∧ 0 ≤ a';
  it_sub v t s' : inr (v + total t) → Forall adm (v :: t) →
    sub_sum (v + total t) v = Some s' → s' = total t ∧ inr s'
}.

Definition uint_value (w v : Z) : Prop := 0 ≤ v < 2 ^ w.
Definition int64_value (v : Z) : Prop := int64_min ≤ v ≤ int64_max.

Lemma checked_add_spec w ov a b :
  0 ≤ w → 0 ≤ a < 2 ^ w → 0 ≤ b →
  checked_add w ov a b =
    if decide (a + b < 2 ^ w) then Ok (a + b, Updated)
    else match ov with
         | Reject => Err ROverflow
         | Wrap => Ok (wrap w (a + b), Wrapped)
         | Saturate => Ok (2 ^ w - 1, Saturated)
         end.
Proof.
  intros. unfold checked_add.
  destruct (decide _) as [Hlt|Hge], (Z.leb_spec b (2 ^ w - 1 - a)); try lia; [|done].
  by rewrite wrap_small by (unfold is_u; lia).
Qed.

#[export] Instance uint_integral `{LongDouble} w :
  Integral (uint w) (λ v, 0 ≤ v) (λ s, 0 ≤ s < 2 ^ 64).
Proof.
  split; simpl; try done.
  - intros ov s v s' Hs Hv. unfold add_sum_unsigned. rewrite checked_add_spec by (done || lia).
    destruct (decide _); [|by destruct ov]. intros [= <-]. lia.
  - intros ov a v a' Ha Hv. unfold checked_add. destruct (Z.leb_spec v (2 ^ w - 1 - a)) as [Hle|].
    + intros [= <-]. rewrite wrap_small by (unfold is_u; lia). lia.
    + by destruct ov.
  - intros v t s' Hs [Hv Ht]%Forall_cons [= <-]. apply total_nonneg in Ht.
    rewrite wrap_small by (unfold is_u; lia). lia.
Qed.

#[export] Instance sint_integral `{LongDouble} : Integral sint (λ _, True) int64_value.
Proof.
  split; simpl; try done.
  - intros ov s v s' _ _. unfold add_sum_signed. destruct (negb _).
    + destruct (int64 (s + v)) as [z|] eqn:Hz; [|done]. intros [= <-].
      apply int64_some in Hz as [-> ?]. done.
    + by destruct ov.
  - intros v t s' _ _ Hs. apply int64_some in Hs as [-> ?].
    replace (v + total t - v) with (total t) in * by lia. done.
Qed.

Section Exact.
Context `{LongDouble} `{N : Number Z Z} {adm inr : Z → Prop} `{!Integral N adm inr}.
Context (pol : Policies).

(** The ring of the last [size] values, and its sum. *)
Definition ring (size : nat) (h : list Z) (s : WindowState Z Z) : Prop :=
  length (w_values s) = size ∧ w_next s = (length h mod size)%nat
  ∧ w_count s = Nat.min size (length h) ∧ w_latest s = newest h
  ∧ (∀ k, (length h ≤ k + size)%nat → (k < length h)%nat →
       w_values s !! (k mod size)%nat = h !! k)
  ∧ w_sum s = total (lastn size h) ∧ inr (w_sum s).

Definition represents (r : Reducer Z) (h : list Z) : ReducerState Z r → Prop :=
  let n := u64 (Z.of_nat (length h)) in
  let any := bool_decide (h ≠ []) in
  match r with
  | Last => λ s, value s = newest h ∧ count s = n
  | Minimum => λ s, value s = least h ∧ count s = n ∧ seen s = any
  | Maximum => λ s, value s = greatest h ∧ count s = n ∧ seen s = any
  | Summary => λ s,
    s_count s = n ∧ s_sum s = total h ∧ s_minimum s = least h ∧ s_maximum s = greatest h
    ∧ s_seen s = any ∧ inr (s_sum s)
  | WindowMean size => ring size h
  | Ema numerator denominator => λ s,
    e_mean s = ema numerator denominator h ∧ e_latest s = newest h ∧ e_count s = n ∧ e_seen s = any
  | Histogram boundaries => λ s,
    h_count s = n ∧ h_sum s = total h ∧ inr (h_sum s)
    ∧ buckets s = map (λ k, u64 (tally_bucket boundaries h k)) (seq 0 (length boundaries + 1))
  end.

(** The constants of the type, in the context. *)
Ltac integral :=
  pose proof (it_zero (N:=N) (adm:=adm) (inr:=inr)) as Hv0;
  pose proof (it_sum_zero (N:=N) (adm:=adm) (inr:=inr)) as Hs0;
  pose proof (it_zero_in (N:=N) (adm:=adm) (inr:=inr)) as Hin0;
  pose proof (it_ltb (N:=N) (adm:=adm) (inr:=inr)) as Hltb.

Lemma represents_empty r : reducer_valid r = true → represents r [] (empty_reducer r).
Proof.
  intros Hr. integral.
  destruct r as [| | | |size| |boundaries]; simpl in *; rewrite ?Hv0, ?Hs0; eauto 10.
  - apply Nat.ltb_lt in Hr. unfold ring; simpl.
    rewrite length_replicate, Nat.Div0.mod_0_l, Nat.min_0_r. split_and!; eauto. lia.
  - split_and!; eauto.
    clear. generalize (length boundaries + 1)%nat as n. intros n. generalize 0%nat as k.
    induction n as [|n IH]; intros k; simpl; [done|]. by rewrite <-IH.
Qed.

Lemma represents_reads r h s : represents r h s → read_reducer r s = summarise r h.
Proof.
  destruct r as [| | | |size| |]; simpl; unfold ring; intros Hr; destruct_and!;
    try by f_equal; congruence.
  rewrite length_lastn. f_equal; congruence.
Qed.

Lemma count_snoc (h : list Z) (v : Z) :
  inc64 (u64 (Z.of_nat (length h))) = u64 (Z.of_nat (length (h ++ [v]))).
Proof. rewrite inc64_u64, length_app. f_equal. simpl. lia. Qed.
Lemma snoc_any (h : list Z) (v : Z) : bool_decide (h ++ [v] ≠ []) = true.
Proof. apply bool_decide_eq_true. by destruct h. Qed.

(** Keeping the least or the greatest of the values seen. *)
Lemma keep_least (h : list Z) v old :
  old = least h →
  (if negb (bool_decide (h ≠ [])) || v_ltb v old then v else old) = least (h ++ [v]).
Proof.
  intros ->. integral. rewrite least_snoc, Hltb.
  destruct (decide (h = [])) as [->|Hn]; [done|].
  rewrite bool_decide_true by done. simpl. destruct (Z.ltb_spec v (least h)); lia.
Qed.
Lemma keep_greatest (h : list Z) v old :
  old = greatest h →
  (if negb (bool_decide (h ≠ [])) || v_ltb old v then v else old) = greatest (h ++ [v]).
Proof.
  intros ->. integral. rewrite greatest_snoc, Hltb.
  destruct (decide (h = [])) as [->|Hn]; [done|].
  rewrite bool_decide_true by done. simpl. destruct (Z.ltb_spec (greatest h) v); lia.
Qed.

(** A sum that is reported as [Updated] is exact. *)
Lemma cbind_sum {B} ov s v (k : Z * UpdateDisposition → option (result Reason (B * UpdateDisposition))) b :
  inr s → adm v →
  (∀ s' d b', k (s', d) = Some (Ok (b', Updated)) → d = Updated) →
  cbind (add_sum ov s v) k = Some (Ok (b, Updated)) →
  inr (s + v) ∧ k (s + v, Updated) = Some (Ok (b, Updated)).
Proof.
  intros Hs Hv Hd ([s' d] & Hadd & Hk)%cbind_ok. pose proof (Hd _ _ _ Hk) as ->.
  apply (it_add (N:=N) (adm:=adm) (inr:=inr)) in Hadd as [-> ?]; done.
Qed.

Definition step_exact (r : Reducer Z) (h : list Z) (v : Z) : Prop :=
  ∀ s s', represents r h s → Forall adm (h ++ [v]) →
    observe_reducer pol r v s = Some (Ok (s', Updated)) → represents r (h ++ [v]) s'.

Lemma step_summary h v : step_exact Summary h v.
Proof.
  intros s s' (Hc & Hsum & Hmin & Hmax & Hany & Hin) Hadm Hobs. simpl in Hobs.
  unfold observe_summary in Hobs.
  apply Forall_app in Hadm as [_ Hadm]. apply Forall_singleton_1 in Hadm as Hv.
  apply cbind_sum in Hobs as [Hin' Hobs]; [|done|done|by intros; simplify_eq].
  injection Hobs as <-. simpl. rewrite Hsum in *. rewrite Hc, Hany, snoc_any, total_snoc, (count_snoc h v).
  split_and!; try done.
  - rewrite <-(keep_least h v (s_minimum s)) by done. unfold std_min.
    by case_bool_decide.
  - rewrite <-(keep_greatest h v (s_maximum s)) by done. unfold std_max.
    by case_bool_decide.
Qed.

Lemma step_last h v : step_exact Last h v.
Proof.
  intros s s' (Hv & Hc) _ [= <-]. simpl. by rewrite newest_snoc, Hc, (count_snoc h v).
Qed.
Lemma step_minimum h v : step_exact Minimum h v.
Proof.
  intros s s' (Hv & Hc & Hany) _ [= <-]. simpl.
  by rewrite Hc, (count_snoc h v), snoc_any, Hany, keep_least.
Qed.
Lemma step_maximum h v : step_exact Maximum h v.
Proof.
  intros s s' (Hv & Hc & Hany) _ [= <-]. simpl.
  by rewrite Hc, (count_snoc h v), snoc_any, Hany, keep_greatest.
Qed.

Lemma ema_snoc num den h v :
  ema num den (h ++ [v])
  = if decide (h = []) then to_long_double v else ema_step num den (ema num den h) v.
Proof. destruct h; [done|]. simpl. by rewrite foldl_app. Qed.
Lemma step_ema num den h v : step_exact (Ema num den) h v.
Proof.
  intros s s' (Hm & Hl & Hc & Hany) _ [= <-]. simpl.
  rewrite newest_snoc, Hc, (count_snoc h v), snoc_any, Hany, Hm, ema_snoc.
  split_and!; try done. by destruct (decide (h = [])) as [->|]; [|rewrite bool_decide_true].
Qed.

(** The ring: the oldest value of a full window sits where the next goes. *)
Lemma ring_oldest size h (s : WindowState Z Z) :
  (0 < size)%nat → (size ≤ length h)%nat → ring size h s →
  w_values s !! w_next s = h !! (length h - size)%nat.
Proof.
  intros Hsize Hlen (_ & -> & _ & _ & Hring & _).
  rewrite <-Hring by lia. f_equal.
  rewrite <-(Nat.Div0.mod_add (length h - size) 1). f_equal. lia.
Qed.

Lemma ring_write size h v (s : WindowState Z Z) values :
  (0 < size)%nat → ring size h s → wr (w_values s) (w_next s) v = Some values →
  length values = size ∧
  ∀ k, (length (h ++ [v]) ≤ k + size)%nat → (k < length (h ++ [v]))%nat →
    values !! (k mod size)%nat = (h ++ [v]) !! k.
Proof.
  intros Hsize (Hl & Hn & _ & _ & Hring & _) Hw.
  assert (Hlt : (w_next s < length (w_values s))%nat)
    by (rewrite Hn, Hl; by apply Nat.mod_upper_bound; lia).
  rewrite wr_insert in Hw by done. simplify_eq. rewrite length_insert. split; [done|].
  rewrite length_app. simpl. intros k Hk Hk'.
  destruct (decide (k = length h)) as [->|Hne].
  - rewrite <-Hn, list_lookup_insert_eq by done. by rewrite lookup_app_mid.
  - rewrite list_lookup_insert_ne; [rewrite lookup_app_l by lia; apply Hring; lia|].
    rewrite Hn. intros Heq.
    eapply (mod_apart (length h) k (length (w_values s))); lia.
Qed.

(** The sum without the evicted value is the sum of what stays. *)
Lemma window_evict size h v (s : WindowState Z Z) next_sum :
  (0 < size)%nat → ring size h s → Forall adm h →
  (if (w_count s =? size)%nat
   then evicted ← w_values s !! w_next s; sub_sum (w_sum s) evicted
   else Some (w_sum s)) = Some next_sum →
  ∃ t, lastn size (h ++ [v]) = t ++ [v] ∧ next_sum = total t ∧ inr next_sum.
Proof.
  intros Hsize Hr Hadm. destruct (Hr) as (_ & _ & Hc & _ & _ & Hsum & Hin).
  destruct (Nat.eqb_spec (w_count s) size) as [Hfull|Hfree].
  - destruct (lastn_snoc size h v) as (x & t & Hx & Hlast & Hlast'); [lia..|].
    rewrite (ring_oldest size h s), Hx by (done || lia). simpl. rewrite Hsum, Hlast in *.
    intros Hsub. apply (it_sub (N:=N) (adm:=adm) (inr:=inr)) in Hsub as [-> ?]; [by exists t|done|].
    rewrite <-Hlast. by apply Forall_drop.
  - intros [= <-]. exists h. rewrite Hsum in *. rewrite !lastn_short in * by (rewrite ?length_app; simpl; lia).
    done.
Qed.

Lemma step_window size h v : (0 < size)%nat → step_exact (WindowMean size) h v.
Proof.
  intros Hsize s s' Hr Hadm Hobs. simpl in Hr, Hobs.
  destruct (Hr) as (Hl & Hn & Hc & _). apply Forall_app in Hadm as [Hadm Hv].
  apply Forall_singleton_1 in Hv. unfold observe_window in Hobs.
  apply bind_Some in Hobs as (next_sum & Hnext & Hobs).
  eapply (window_evict size h v s) in Hnext as (t & Hlast & -> & Hin); [|done..].
  apply cbind_sum in Hobs as [Hin' Hobs]; [|done|done|].
  2: { intros ??? Hk. by apply bind_Some in Hk as (? & _ & [= _ ->]). }
  apply bind_Some in Hobs as (values & Hw & [= <-]).
  destruct (ring_write size h v s values) as [Hl' Hring']; [done..|].
  split_and!; simpl; try done.
  - rewrite Hn, length_app. simpl. by rewrite Nat.Div0.add_mod_idemp_l.
  - rewrite Hc, length_app. simpl. destruct (Nat.eqb_spec (Nat.min size (length h)) size); lia.
  - by rewrite newest_snoc.
  - by rewrite Hlast, total_snoc.
Qed.

Lemma ordered_above b t j y : ordered (b :: t) = true → t !! j = Some y → b < y.
Proof.
  integral. revert b j. induction t as [|x t IH]; intros b j Hord Hj; [done|].
  apply andb_true_iff in Hord as [Hlt Hord]. rewrite Hltb in Hlt. apply Z.ltb_lt in Hlt.
  destruct j as [|j]; simpl in Hj; [by simplify_eq|]. pose proof (IH _ _ Hord Hj). lia.
Qed.
Lemma ordered_tail b t : ordered (b :: t) = true → ordered t = true.
Proof. destruct t; [done|]. by intros [_ ?]%andb_true_iff. Qed.

(** The loop finds the one bucket the value belongs to. *)
Lemma bucket_spec boundaries v k :
  ordered boundaries = true → (k ≤ length boundaries)%nat →
  in_bucket boundaries k v = (k =? bucket_of boundaries v)%nat.
Proof.
  integral. revert k. induction boundaries as [|b t IH]; intros k Hord Hk; simpl in Hk.
  { by replace k with 0%nat by lia. }
  simpl bucket_of. rewrite Hltb. destruct k as [|k].
  - unfold in_bucket. simpl. destruct (Z.ltb_spec b v), (Z.leb_spec v b); try lia; done.
  - destruct (Z.ltb_spec b v) as [Hb|Hb].
    + rewrite Nat.eqb_sym. simpl. rewrite Nat.eqb_sym, <-IH by (by eapply ordered_tail || lia).
      unfold in_bucket. destruct k; simpl; [|done]. by rewrite (proj2 (Z.ltb_lt b v) Hb).
    + unfold in_bucket. simpl. destruct k as [|k]; simpl; [by rewrite (proj2 (Z.ltb_ge b v) Hb)|].
      destruct (lookup_lt_is_Some_2 t k) as [y Hy]; [lia|]. rewrite Hy. simpl.
      pose proof (ordered_above b t k y Hord Hy). by rewrite (proj2 (Z.ltb_ge y v)) by lia.
Qed.
Lemma bucket_bound boundaries v : (bucket_of boundaries v ≤ length boundaries)%nat.
Proof. induction boundaries; simpl; [lia|]. case_match; lia. Qed.

Lemma tally_bucket_snoc boundaries h v k :
  tally_bucket boundaries (h ++ [v]) k
  = tally_bucket boundaries h k + if in_bucket boundaries k v then 1 else 0.
Proof.
  unfold tally_bucket. rewrite filter_app, length_app, filter_cons. simpl.
  destruct (in_bucket boundaries k v); simpl; lia.
Qed.

Lemma step_histogram boundaries h v :
  ordered boundaries = true → step_exact (Histogram boundaries) h v.
Proof.
  intros Hord s s' (Hc & Hsum & Hin & Hbs) Hadm Hobs. simpl in Hobs.
  apply Forall_app in Hadm as [_ Hv%Forall_singleton_1]. unfold observe_histogram in Hobs.
  apply cbind_sum in Hobs as [Hin' Hobs]; [|done|done|].
  2: { intros ??? Hk. by apply bind_Some in Hk as (? & _ & (? & _ & [= _ ->])%bind_Some). }
  apply bind_Some in Hobs as (n & Hn & (bs & Hw & [= <-])%bind_Some). simpl.
  rewrite Hsum in *. rewrite Hc, (count_snoc h v), total_snoc. split_and!; try done.
  pose proof (bucket_bound boundaries v) as Hlt. rewrite Hbs in *.
  rewrite list_lookup_fmap, lookup_seq_lt in Hn by lia. injection Hn as <-.
  rewrite wr_insert in Hw by (rewrite length_map, length_seq; lia). injection Hw as <-.
  apply list_eq. intros k. rewrite !list_lookup_fmap.
  destruct (decide (k < length boundaries + 1)%nat) as [Hk|Hk].
  - rewrite lookup_seq_lt by done. simpl. rewrite tally_bucket_snoc, bucket_spec by (done || lia).
    destruct (Nat.eqb_spec k (bucket_of boundaries v)) as [->|Hne].
    + rewrite list_lookup_insert_eq by (rewrite length_map, length_seq; lia). by rewrite inc64_u64.
    + rewrite list_lookup_insert_ne, list_lookup_fmap, lookup_seq_lt by done. simpl. by rewrite Z.add_0_r.
  - rewrite !lookup_ge_None_2 by (rewrite ?length_insert, ?length_map, length_seq; lia). done.
Qed.

Lemma represents_step r h v : reducer_valid r = true → step_exact r h v.
Proof.
  destruct r as [| | | |size|num den|boundaries]; simpl; intros Hr;
    eauto using step_last, step_minimum, step_maximum, step_summary, step_ema, step_histogram.
  apply step_window. by apply Nat.ltb_lt.
Qed.

(** ** All instruments *)
Context `{!NumberLaws Z Z} (initial : option Z).

(** What a reading that is not flagged says. *)
Definition faithful (i : Instrument Z) (h : list Z) : ReadingValue Z i → Prop :=
  match i with
  | Counter => λ v, v = total h
  | Gauge => λ v, v = default (default 0 initial) (last h)
  | Distribution r | Timer r => λ v, v = summarise r h
  end.

Definition instrument_valid (i : Instrument Z) : bool :=
  match i with Distribution r | Timer r => reducer_valid r | _ => true end.

Definition exact (i : Instrument Z) (h : list Z) : InstrumentState Z i → Prop :=
  match i with
  | Counter => λ s, counter_value s = total h ∧ 0 ≤ total h
  | Gauge => λ s, gauge_value s = default (default 0 initial) (last h)
  | Distribution r | Timer r => represents r h
  end.

Lemma exact_initial i : instrument_valid i = true → exact i [] (initialize_instrument initial i).
Proof.
  integral. destruct i; simpl; try apply represents_empty; intros _; [by rewrite Hv0|].
  by destruct initial.
Qed.

Lemma exact_reads i h s : exact i h s → faithful i h (read_instrument i s).
Proof.
  destruct i; simpl; try apply represents_reads; [by intros []|done].
Qed.

Lemma exact_step i h s v s' d :
  instrument_valid i = true → exact i h s → Forall adm (h ++ [v]) →
  prepare pol i v s = Some (Ok (s', d)) → d = Updated ∨ d = Unchanged → exact i (h ++ [v]) s'.
Proof.
  intros Hi Hex Hadm Hp Hd.
  assert (Hobs : ∀ r (s s' : ReducerState Z r), reducer_valid r = true → represents r h s →
    observe_reducer pol r v s = Some (Ok (s', d)) → represents r (h ++ [v]) s').
  { intros r s1 s2 Hr Hrep Ho. pose proof (observe_changed pol r v s1 s2 d Ho).
    destruct Hd as [->| ->]; [|done]. by eapply represents_step. }
  destruct i as [| |r|r]; simpl in *; [| |by eapply Hobs..].
  - rewrite total_snoc, (it_is_zero (N:=N) (adm:=adm) (inr:=inr)) in *.
    apply Forall_app in Hadm as [_ Hv%Forall_singleton_1]. destruct Hex as [Hval Hpos].
    destruct (Z.eqb_spec v 0) as [->|_]; [by simplify_eq; rewrite !Z.add_0_r|].
    apply cbind_ok in Hp as ([next d'] & Hadd & [= <- <-]). simpl.
    pose proof (add_value_changed _ _ _ _ _ Hadd). destruct Hd as [->| ->]; [|done].
    apply (it_value (N:=N) (adm:=adm) (inr:=inr)) in Hadd as [-> ?]; [|lia|done]. lia.
  - rewrite last_snoc. by simplify_eq.
Qed.

(** The invariant of a life, for [serve_all_holds]. *)
Definition faithful_state (i : Instrument Z) (h : list Z) (s : InstrumentState Z i)
    (fl : bool * bool) : Prop :=
  Forall adm h ∧ (fl = (false, false) → exact i h s).

Lemma faithful_step i h s fl v s' d :
  instrument_valid i = true → adm v → faithful_state i h s fl →
  prepare pol i v s = Some (Ok (s', d)) → faithful_state i (h ++ [v]) s' (flagged d fl).
Proof.
  intros Hi Hv [Hadm Hex] Hp.
  assert (Hadm' : Forall adm (h ++ [v])) by (apply Forall_app; split; [done|by constructor]).
  split; [done|]. intros Hfl.
  assert (fl = (false, false) ∧ (d = Updated ∨ d = Unchanged)) as [? ?].
  { destruct fl as [[] []], d; simpl in Hfl; simplify_eq; auto. }
  eapply exact_step; eauto.
Qed.
End Exact.

(** ** The theorems on readings *)
Section Life.
Context `{LongDouble} (N : Number Z Z) `{!NumberLaws Z Z}.
Context (pol : Policies) (initial : option Z) (i : Instrument Z) (c : ConcurrencyKind).

(** The values the calls bring. *)
Definition brings (adm : Z → Prop) (calls : list (Call Z)) : Prop :=
  Forall (admissible_call adm) calls.

Lemma live_faithful {adm inr} `{!Integral N adm inr} slot_id now calls l outs l' :
  instrument_valid i = true → brings adm calls →
  live pol initial i c slot_id now calls l = Some (outs, l') →
  faithful_state (N:=N) (adm:=adm) (inr:=inr) initial i (history i calls outs)
    (instrument (state l')) (flags_of (record (state l'))).
Proof.
  intros Hi Had. destruct (live_serve_all pol initial i c slot_id now calls l)
    as (l1 & -> & Hs1 & _).
  apply (serve_all_holds pol initial i c adm
    (faithful_state (N:=N) (adm:=adm) (inr:=inr) initial i)); [|by eauto using faithful_step|done|].
  - split; [constructor|]. intros _. by apply exact_initial.
  - unfold holds. rewrite Hs1. split; [constructor|]. intros _. by apply exact_initial.
Qed.
End Life.

(** ** Nothing is undefined

    The shape of a reducer's arrays, which every observation keeps. *)
Section Shape.
Context `{LongDouble} {V Sum : Type} `{Number V Sum} (pol : Policies).

Definition shaped_reducer (r : Reducer V) : ReducerState Sum r → Prop :=
  match r with
  | WindowMean size => λ s, length (w_values s) = size ∧ (w_next s < size)%nat
  | Histogram boundaries => λ s, length (buckets s) = (length boundaries + 1)%nat
  | _ => λ _, True
  end.
Definition shaped (i : Instrument V) : InstrumentState Sum i → Prop :=
  match i with
  | Distribution r | Timer r => shaped_reducer r
  | _ => λ _, True
  end.

Definition positive_window (i : Instrument V) : Prop :=
  match i with
  | Distribution (WindowMean size) | Timer (WindowMean size) => (0 < size)%nat
  | _ => True
  end.

Lemma bucket_of_le boundaries v : (bucket_of boundaries v ≤ length boundaries)%nat.
Proof. induction boundaries; simpl; [lia|]. case_match; lia. Qed.

Lemma shaped_initial initial i :
  positive_window i → shaped i (initialize_instrument initial i).
Proof.
  intros Hw. destruct i as [| |r|r]; try done;
    destruct r; simpl in *; rewrite ?length_replicate; auto.
Qed.

Lemma shaped_observe r v s s' d :
  positive_window (Distribution r) → shaped_reducer r s →
  observe_reducer pol r v s = Some (Ok (s', d)) → shaped_reducer r s'.
Proof.
  intros Hw Hs Ho. destruct r as [| | | |size| |boundaries]; try done; simpl in *.
  - unfold observe_window in Ho. apply bind_Some in Ho as (ns & _ & Ho).
    apply cbind_ok in Ho as ([sum d'] & _ & (vs & Hwr & [= <- _])%bind_Some). simpl.
    apply wr_length in Hwr. split; [by rewrite Hwr; apply Hs|]. apply Nat.mod_upper_bound. lia.
  - unfold observe_histogram in Ho. apply cbind_ok in Ho as ([sum d'] & _ & Ho).
    apply bind_Some in Ho as (n & _ & (bs & Hwr & [= <- _])%bind_Some). simpl.
    apply wr_length in Hwr. congruence.
Qed.

Lemma shaped_prepare i v s s' d :
  positive_window i → shaped i s → prepare pol i v s = Some (Ok (s', d)) → shaped i s'.
Proof. intros Hw Hs Hp. destruct i; try done; by eapply shaped_observe. Qed.

(** An observation is undefined only where its sum is. *)
Lemma observe_window_defined size v s :
  shaped_reducer (WindowMean size) s →
  (∀ x, w_count s = size → w_values s !! w_next s = Some x → sub_sum (w_sum s) x ≠ None) →
  (∀ ns, add_sum (overflow pol) ns v ≠ None) → observe_window pol size v s ≠ None.
Proof.
  intros [Hl Hn] Hsub Hadd. unfold observe_window.
  destruct (lookup_lt_is_Some_2 (w_values s) (w_next s)) as [x Hx]; [lia|]. rewrite Hx. simpl.
  assert (Hwr : wr (w_values s) (w_next s) v = Some (<[w_next s:=v]> (w_values s)))
    by (apply wr_insert; lia).
  assert (is_Some (if (w_count s =? size)%nat then sub_sum (w_sum s) x else Some (w_sum s)))
    as [ns ->].
  { destruct (Nat.eqb_spec (w_count s) size) as [Hc|]; [|by eexists].
    apply not_eq_None_Some. by apply Hsub. }
  simpl. pose proof (Hadd ns).
  destruct (add_sum (overflow pol) ns v) as [[[sum d]|]|]; simpl; [|done|done]. by rewrite Hwr.
Qed.

Lemma observe_histogram_defined boundaries v s :
  shaped_reducer (Histogram boundaries) s → add_sum (overflow pol) (h_sum s) v ≠ None →
  observe_histogram pol boundaries v s ≠ None.
Proof.
  simpl. intros Hl Hadd. unfold observe_histogram. pose proof (bucket_of_le boundaries v).
  destruct (add_sum _ _ _) as [[[sum d]|]|]; simpl; [|done|done].
  destruct (lookup_lt_is_Some_2 (buckets s) (bucket_of boundaries v)) as [x ->]; [lia|]. simpl.
  by rewrite wr_insert by lia.
Qed.
End Shape.

Section Defined.
Context `{LongDouble} {V Sum : Type} `{Number V Sum} `{!NumberLaws V Sum}.
Context (pol : Policies) (initial : option V) (i : Instrument V) (c : ConcurrencyKind).

(** A life is defined when an invariant makes every mutation so. *)
Lemma live_defined adm (P : list V → InstrumentState Sum i → Prop) slot_id now calls l :
  P [] (initialize_instrument initial i) →
  (∀ h s v, adm v → P h s → prepare pol i v s ≠ None) →
  (∀ h s v s' d, adm v → P h s → prepare pol i v s = Some (Ok (s', d)) → P (h ++ [v]) s') →
  Forall (admissible_call adm) calls → is_Some (live pol initial i c slot_id now calls l).
Proof.
  intros HP Hdef Hstep Had. destruct (live_serve_all pol initial i c slot_id now calls l)
    as (l1 & -> & Hs1 & _).
  eapply (serve_all_defined pol initial i c adm (λ h s _, P h s)); [done| | |done|].
  - intros; by eapply Hstep.
  - intros h s _ v. apply Hdef.
  - unfold holds. by rewrite Hs1.
Qed.

(** Value types whose sums are always defined. *)
Lemma total_sums_defined slot_id now calls l :
  (∀ ov s v, add_sum ov s v ≠ None) → (∀ s v, sub_sum s v ≠ None) →
  (i = Counter → ∀ ov a v, add_value ov a v ≠ None) →
  positive_window i → is_Some (live pol initial i c slot_id now calls l).
Proof.
  intros Hadd Hsub Hval Hw.
  apply (live_defined (λ _, True) (λ _ s, shaped i s)).
  - by apply shaped_initial.
  - intros _ s v _ Hs.
    assert (∀ r s, shaped_reducer r s → observe_reducer pol r v s ≠ None).
    { intros r s1 Hs1. destruct r; simpl; try done.
      - unfold observe_summary. pose proof (Hadd (overflow pol) (s_sum s1) v).
        by destruct (add_sum _ _ _) as [[[]|]|].
      - apply observe_window_defined; auto.
      - apply observe_histogram_defined; auto. }
    destruct i; simpl in *; auto. case_match; [done|].
    specialize (Hval eq_refl (overflow pol) (counter_value s) v).
    by destruct (add_value _ _ _) as [[[]|]|].
  - intros _ s v s' d _. by apply shaped_prepare.
  - apply Forall_forall. intros [[] ??] _; done.
Qed.
End Defined.

(** *** Signed metrics

    A signed window is defined when the sum of a full window of the greatest
    values of the type fits the accumulator. *)
Section Signed.
Context `{LongDouble} (pol : Policies) (initial : option Z) (i : Instrument Z) (c : ConcurrencyKind).
#[local] Existing Instance sint.

Lemma add_sum_signed_range ov a b s d :
  int64_value a → int64_value b → add_sum_signed ov a b = Some (Ok (s, d)) → int64_value s.
Proof.
  intros Ha Hb. rewrite add_sum_signed_spec by done. destruct (decide _) as [|Hout].
  - intros [= <- _]. done.
  - destruct ov; [|done|].
    + intros [= <- _]. unfold int64_value, int64_min, int64_max. destruct (b <? 0); lia.
    + intros [= <- _]. unfold int64_value, bit_cast_int64.
      pose proof (wrap_range 64 (u64 a + u64 b) ltac:(lia)) as [? ?].
      unfold int64_min, int64_max in *. destruct (Z.leb_spec (u64 (u64 a + u64 b)) (2 ^ 63 - 1)); lia.
Qed.
Lemma add_sum_signed_defined ov a b :
  int64_value a → int64_value b → add_sum_signed ov a b ≠ None.
Proof.
  intros Ha Hb. rewrite add_sum_signed_spec by done. destruct (decide _); [done|]. by destruct ov.
Qed.

(** [bound] is the greatest magnitude of the values. *)
Context (bound : Z).
Definition small_value (v : Z) : Prop := int64_value v ∧ Z.abs v ≤ bound.
Definition window_fits : Prop :=
  match i with
  | Distribution (WindowMean size) | Timer (WindowMean size) =>
    (0 < size)%nat ∧ Z.of_nat size * bound ≤ int64_max
  | _ => True
  end.

Definition signed_reducer (r : Reducer Z) (h : list Z) : ReducerState Z r → Prop :=
  match r with
  | Summary => λ s, int64_value (s_sum s)
  | WindowMean size => λ s, ring (inr:=int64_value) size h s
  | Histogram boundaries => λ s,
    length (buckets s) = (length boundaries + 1)%nat ∧ int64_value (h_sum s)
  | _ => λ _, True
  end.

Lemma window_total size h :
  0 ≤ bound → Z.of_nat size * bound ≤ int64_max → Forall small_value h →
  (length h ≤ size)%nat → int64_value (total h).
Proof.
  intros Hb Hfit Hh Hlen.
  assert (Habs : Z.abs (total h) ≤ Z.of_nat (length h) * bound).
  { apply total_bounded. eapply Forall_impl; [done|]. by intros v []. }
  assert (Z.of_nat (length h) * bound ≤ Z.of_nat size * bound) by nia.
  unfold int64_value, int64_min, int64_max in *. lia.
Qed.

(** A window that fits observes without overflow, whatever the policy. *)
Lemma window_observe size h v s :
  (0 < size)%nat → 0 ≤ bound → Z.of_nat size * bound ≤ int64_max →
  Forall small_value (h ++ [v]) → ring (inr:=int64_value) size h s →
  ∃ s', observe_window pol size v s = Some (Ok (s', Updated)) ∧
    ring (inr:=int64_value) size (h ++ [v]) s'.
Proof.
  intros Hsize Hb Hfit Hadm Hr.
  assert (Hnext : ∃ t, lastn size (h ++ [v]) = t ++ [v] ∧
    (if (w_count s =? size)%nat
     then evicted ← w_values s !! w_next s; sub_sum (w_sum s) evicted
     else Some (w_sum s)) = Some (total t)).
  { destruct (Hr) as (_ & _ & Hc & _ & _ & Hsum & Hin).
    apply Forall_app in Hadm as [Hadm _].
    destruct (Nat.eqb_spec (w_count s) size) as [Hfull|Hfree].
    - destruct (lastn_snoc size h v) as (x & t & Hx & Hlast & Hlast'); [lia..|].
      exists t. split; [done|]. rewrite (ring_oldest size h s), Hx by (done || lia). simpl.
      rewrite Hsum, Hlast. simpl. replace (x + total t - x) with (total t) by lia.
      apply int64_some. split; [done|].
      apply (window_total size); [done|done| |].
      + assert (Hsuf : Forall small_value (x :: t)) by (rewrite <-Hlast; by apply Forall_drop).
        by inversion Hsuf.
      + pose proof (length_lastn size h). rewrite Hlast in *. simpl in *. lia.
    - exists h. rewrite Hsum, !lastn_short by (rewrite ?length_app; simpl; lia). done. }
  destruct Hnext as (t & Hlast & Hnext).
  assert (Hsuf : Forall small_value (t ++ [v])) by (rewrite <-Hlast; by apply Forall_drop).
  assert (Hlen : (length (t ++ [v]) ≤ size)%nat)
    by (rewrite <-Hlast, length_lastn; lia).
  assert (Htv : int64_value (total (t ++ [v]))) by by apply (window_total size).
  assert (Ht : int64_value (total t)).
  { apply (window_total size); [done|done| |].
    - by apply Forall_app in Hsuf as [? _].
    - rewrite length_app in Hlen. lia. }
  assert (Hv : int64_value v) by (apply Forall_app in Hsuf as [_ [? _]%Forall_singleton_1]; done).
  destruct (Hr) as (Hl & Hn & _).
  assert (∃ s', observe_window pol size v s = Some (Ok (s', Updated))) as [s' Hs'].
  { unfold observe_window. rewrite Hnext. simpl. rewrite add_sum_signed_spec by done.
    rewrite total_snoc in Htv. rewrite decide_True by done. simpl.
    rewrite wr_insert; [by eexists|]. rewrite Hl, Hn. apply Nat.mod_upper_bound. lia. }
  exists s'. split; [done|].
  eapply (step_window (N:=sint) (adm:=λ _, True) (inr:=int64_value) pol size h v Hsize); [done| |done].
  by apply Forall_forall.
Qed.

Definition signed_state (h : list Z) : InstrumentState Z i → Prop :=
  match i with
  | Distribution r | Timer r => λ s, Forall small_value h ∧ signed_reducer r h s
  | _ => λ _, True
  end.

(** Summaries and histograms: their sum stays in range. *)
Lemma signed_reducer_step r h v s :
  (∀ size, r = WindowMean size → (0 < size)%nat ∧ Z.of_nat size * bound ≤ int64_max) →
  Forall small_value (h ++ [v]) → signed_reducer r h s →
  observe_reducer pol r v s ≠ None ∧
  ∀ s' d, observe_reducer pol r v s = Some (Ok (s', d)) → signed_reducer r (h ++ [v]) s'.
Proof.
  intros Hfit Hadm Hs.
  assert (Hv : small_value v) by by apply Forall_app in Hadm as [_ ?%Forall_singleton_1].
  destruct r as [| | | |size| |boundaries]; simpl in *; try by split.
  - unfold observe_summary.
    pose proof (add_sum_signed_defined (overflow pol) (s_sum s) v Hs (proj1 Hv)) as Hdef.
    pose proof (λ x d, add_sum_signed_range (overflow pol) (s_sum s) v x d Hs (proj1 Hv)) as Hrange.
    simpl. destruct (add_sum_signed _ _ _) as [[[x d]|]|]; simpl; [|done|done].
    split; [done|]. intros s' d' [= <- _]. simpl. by eapply Hrange.
  - destruct (Hfit size eq_refl). destruct Hv.
    destruct (window_observe size h v s) as (s' & -> & ?); [done|lia|done..|].
    split; [done|]. by intros ?? [= <- _].
  - destruct Hs as [Hlen Hsum]. split.
    + apply observe_histogram_defined; [done|]. by apply add_sum_signed_defined, Hv.
    + intros s' d Ho.
      pose proof (shaped_observe pol (Histogram boundaries) v s s' d I Hlen Ho) as Hsh.
      split; [done|]. unfold observe_histogram in Ho.
      apply cbind_ok in Ho as ([x d'] & Hadd & Ho).
      apply bind_Some in Ho as (n & _ & (bs & _ & [= <- _])%bind_Some). simpl.
      eapply add_sum_signed_range; [done|apply Hv|done].
Qed.

Lemma signed_defined slot_id now calls l :
  i ≠ Counter → window_fits → Forall (admissible_call small_value) calls →
  is_Some (live pol initial i c slot_id now calls l).
Proof.
  intros Hcounter Hfit Had.
  assert (H0 : int64_value 0) by done.
  apply (live_defined pol initial i c small_value (λ h s, Forall small_value h ∧ signed_state h s));
    [| | |done].
  - split; [done|]. unfold signed_state, window_fits in *.
    assert (∀ r, match r with WindowMean size => (0 < size)%nat | _ => True end →
      signed_reducer r [] (empty_reducer (V:=Z) r)).
    { intros r Hw. destruct r as [| | | |size| |boundaries]; try done; simpl.
      - apply (represents_empty (N:=sint) (adm:=λ _, True) (inr:=int64_value) (WindowMean size)).
        simpl. by apply Nat.ltb_lt.
      - by rewrite length_replicate. }
    destruct i as [| |r|r]; try done; (split; [done|]); apply H1; destruct r; try done; apply Hfit.
  - intros h s v Hv [Hh Hs]. unfold signed_state, window_fits in *.
    destruct i as [| |r|r]; try done; destruct Hs as [_ Hs]; simpl;
      eapply (signed_reducer_step r h v s); eauto; try (by intros size ->);
      apply Forall_app; eauto.
  - intros h s v s' d Hv [Hh Hs] Hp.
    assert (Hh' : Forall small_value (h ++ [v])) by (apply Forall_app; eauto).
    split; [done|]. unfold signed_state, window_fits in *.
    destruct i as [| |r|r]; try done; destruct Hs as [_ Hs]; (split; [done|]);
      eapply (signed_reducer_step r h v s); eauto; by intros size ->.
Qed.
End Signed.

(** ** Theorems *)

(** In every sequence of calls on a slot, whatever its lock answers, the record accounts for
    them: revision and update count since the last reset, resets, refused values, and refusals of
    the lock, which sit in the record or in the fallback until the next admitted call. *)
Theorem slot_accounting `{LongDouble} {V Sum} `{Number V Sum} `{!NumberLaws V Sum}
    pol initial (i : Instrument V) c slot_id now calls l outs l' :
  live pol initial i c slot_id now calls l = Some (outs, l') →
  let t := tally i c calls outs in
  let r := record (state l') in
  revision r = u64 (t_updates t) ∧ updates r = u64 (t_updates t)
  ∧ epoch r = u32 (t_resets t) ∧ resets r = u64 (t_resets t)
  ∧ rejected r = u64 (t_rejected t)
  ∧ u64 (contention r + contention_fallback l') = u64 (t_refused t).
Proof.
  destruct (live_serve_all pol initial i c slot_id now calls l) as (l1 & -> & Hs & Hf).
  apply serve_all_accounts. unfold accounts. by rewrite Hs, Hf.
Qed.

(** C12: For a metric of integer values, a reading that is not flagged as saturated or wrapped is exactly what the values accepted
    since the last reset say: a counter's total, a gauge's last value, a distribution's count, sum,
    least and greatest value, mean, window mean, moving average or bucket counts. *)
Theorem reading_refines `{LongDouble} (N : Number Z Z) adm inr `{!NumberLaws Z Z}
    `{!Integral N adm inr} pol initial (i : Instrument Z) c slot_id now calls l outs l'
    no_wait answer now' rd l'' :
  instrument_valid i = true → brings adm calls →
  live pol initial i c slot_id now calls l = Some (outs, l') →
  locked_get pol i c no_wait answer now' l' = Some (Ok rd, l'') →
  reading_saturated rd.1 = false → reading_wrapped rd.1 = false →
  faithful initial i (history i calls outs) rd.2.
Proof.
  intros Hi Had Hlive Hget Hsat Hwrap.
  apply (live_faithful N pol initial i c (adm:=adm) (inr:=inr)) in Hlive as [_ Hex]; [|done..].
  assert (Hs : serve pol initial i c (mkCall (Read no_wait) answer now') l'
               = Some (OReading (Ok rd), l'')) by (unfold serve; simpl; by rewrite Hget).
  apply serve_served in Hs. inversion Hs as [? []|? ? []|l1 _ _ [_ ->] _]; subst.
  destruct (merge_contention_fields pol l') as (Hin & _ & _ & _ & _ & _ & _ & Hfl).
  unfold make_reading in *. cbn [fst snd] in *. rewrite Hin.
  apply (exact_reads (N:=N) (inr:=inr)), Hex. rewrite <-Hfl. unfold flags_of. by f_equal.
Qed.

(** *** Counters under each overflow policy *)
Section Counter.
Context `{LongDouble} (w : Z) (pol : Policies).
#[local] Instance counted : Number Z Z := uint w.

Definition counter_holds (h : list Z) (s : CounterState Z) (fl : bool * bool) : Prop :=
  let v := counter_value s in
  let most := 2 ^ w - 1 in
  Forall (uint_value w) h ∧
  match overflow pol with
  | Saturate => v = Z.min (total h) most ∧ fl = (most <? total h, false)
  | Reject => v = total h ∧ total h ≤ most ∧ fl = (false, false)
  | Wrap => v = wrap w (total h) ∧ fl = (false, most <? total h)
  end.

Lemma uint_total_nonneg h : Forall (uint_value w) h → 0 ≤ total h.
Proof. intros Hh. apply total_nonneg. eapply Forall_impl; [done|]. by intros v []. Qed.

Lemma counter_range h s fl : 0 ≤ w → counter_holds h s fl → 0 ≤ counter_value s < 2 ^ w.
Proof.
  intros Hw [Hh%uint_total_nonneg Hs]. assert (0 < 2 ^ w) by (apply Z.pow_pos_nonneg; lia).
  destruct (overflow pol); destruct Hs as [-> Hs]; try lia. by apply wrap_range.
Qed.

Lemma counter_prepare v s :
  prepare pol Counter v s
  = if decide (v = 0) then Some (Ok (s, Unchanged))
    else '(next, d) ⇐ Some (checked_add w (overflow pol) (counter_value s) v);
         Some (Ok (mkCounter next, d)).
Proof. by destruct v. Qed.

(** The sum beyond a wrap, seen from the wrapped value. *)
Lemma wrap_again t v :
  0 ≤ w → 0 ≤ t → 0 ≤ v < 2 ^ w →
  wrap w (wrap w t + v) = wrap w (t + v)
  ∧ (2 ^ w - 1 <? t + v) = (2 ^ w - 1 <? t) || (2 ^ w - 1 <? wrap w t + v).
Proof.
  intros Hw Ht Hv. assert (0 < 2 ^ w) by (apply Z.pow_pos_nonneg; lia). unfold wrap.
  split; [by rewrite Zplus_mod_idemp_l|].
  destruct (Z.ltb_spec (2 ^ w - 1) t) as [Hge|Hlt]; simpl; [apply Z.ltb_lt; lia|].
  by rewrite Z.mod_small by lia.
Qed.

Lemma counter_step h s fl v s' d :
  0 ≤ w → uint_value w v → counter_holds h s fl →
  prepare pol Counter v s = Some (Ok (s', d)) → counter_holds (h ++ [v]) s' (flagged d fl).
Proof.
  intros Hw Hv Hs Hp. pose proof (counter_range h s fl Hw Hs) as Hr.
  destruct Hs as [Hh Hs]. pose proof (uint_total_nonneg h Hh).
  split; [apply Forall_app; auto|]. rewrite total_snoc. rewrite counter_prepare in Hp.
  destruct (decide (v = 0)) as [->|Hne]; [simplify_eq/=; by rewrite !Z.add_0_r|].
  unfold uint_value in Hv. rewrite checked_add_spec in Hp by lia.
  destruct (overflow pol).
  - destruct Hs as [Hval ->]. destruct (decide _) as [Hlt|Hge]; injection Hp as <- <-; simpl.
    + split; [lia|]. f_equal. destruct (Z.ltb_spec (2 ^ w - 1) (total h)); [lia|].
      symmetry. apply Z.ltb_ge. lia.
    + split; [lia|]. f_equal. symmetry. apply Z.ltb_lt. lia.
  - destruct Hs as (Hval & Hle & ->). destruct (decide _) as [Hlt|Hge]; [|done].
    injection Hp as <- <-. simpl. split_and!; [lia|lia|done].
  - destruct Hs as [Hval ->]. destruct (wrap_again (total h) v) as [Hw1 Hw2]; [lia..|].
    rewrite Hval in *. destruct (decide _) as [Hlt|Hge]; injection Hp as <- <-; simpl;
      rewrite <-Hw1, Hw2.
    + rewrite (wrap_small w (wrap w (total h) + v)) by (unfold is_u; lia). split; [done|].
      by rewrite (proj2 (Z.ltb_ge _ (wrap w (total h) + v))), orb_false_r by lia.
    + split; [done|]. by rewrite (proj2 (Z.ltb_lt _ (wrap w (total h) + v))), orb_true_r by lia.
Qed.

Lemma counter_fits h s fl amount :
  0 ≤ w → uint_value w amount → counter_holds h s fl →
  (if decide (amount = 0) then true
   else is_ok (checked_add w (overflow pol) (counter_value s) amount)) = false
  ↔ overflow pol = Reject ∧ 2 ^ w - 1 < total h + amount.
Proof.
  intros Hw Hv Hs. pose proof (counter_range h s fl Hw Hs) as Hr. unfold uint_value in Hv.
  rewrite checked_add_spec by lia. destruct Hs as [_ Hs].
  destruct (decide (amount = 0)) as [->|_].
  - split; [done|]. intros [Hp Hlt]. rewrite Hp in Hs. lia.
  - destruct (decide _), (overflow pol); simpl; split; try done; try (by intros [? _]);
      destruct Hs as (Hval & _ & _); intuition lia.
Qed.

Lemma counter_initial initial :
  0 ≤ w → counter_holds [] (initialize_instrument initial Counter) (false, false).
Proof.
  intros. assert (0 < 2 ^ w) by (apply Z.pow_pos_nonneg; lia). split; [done|]. simpl.
  destruct (overflow pol); split_and?; try done; try lia; f_equal; symmetry; apply Z.ltb_ge; lia.
Qed.

(** The outcome of an add that takes the lock. *)
Lemma counter_adds c amount now op l :
  ∃ res l', locked_add pol c amount false false None now op l = Some (res, l') ∧
    is_ok res = if decide (amount = 0) then true
                else is_ok (checked_add w (overflow pol) (counter_value (instrument (state l))) amount).
Proof.
  unfold locked_add, guarded. simpl.
  destruct (access_cases pol c false None now op
    (add_counter pol now amount op) l) as [[Hr _]|[_ ->]]; [by destruct c, Hr|].
  destruct (merge_contention_fields pol l) as [Hin _].
  unfold add_counter. rewrite Hin.
  replace (v_is_zero amount) with (bool_decide (amount = 0)) by by destruct amount.
  case_bool_decide as Hz; [rewrite decide_True by done|rewrite decide_False by done]; simpl; [by eauto|].
  destruct (checked_add _ _ _ _) as [[]|]; simpl; eauto.
Qed.

(** C13: A counter holds the total of the amounts it accepted since the last reset: cut off at the
    greatest value of its type, with the latch set exactly when that was exceeded, under Saturate;
    exactly, under Reject; modulo the width, with the latch set exactly when it was exceeded, under
    Wrap.  The next amount is refused exactly when the policy is Reject and it does not fit. *)
Theorem counter_total initial c slot_id now calls l outs l' :
  0 ≤ w → brings (uint_value w) calls →
  live pol initial Counter c slot_id now calls l = Some (outs, l') →
  let t := total (history Counter calls outs) in
  let most := 2 ^ w - 1 in
  let v := counter_value (instrument (state l')) in
  let r := record (state l') in
  match overflow pol with
  | Saturate => v = Z.min t most ∧ saturated r = (most <? t)
  | Reject => v = t ∧ t ≤ most
  | Wrap => v = wrap w t ∧ wrapped r = (most <? t)
  end ∧
  ∀ amount op now', uint_value w amount →
    ∃ res l'', locked_add pol c amount false false None now' op l' = Some (res, l'')
      ∧ (is_ok res = false ↔ overflow pol = Reject ∧ most < t + amount).
Proof.
  intros Hw Had Hlive t most v r.
  destruct (live_serve_all pol initial Counter c slot_id now calls l)
    as (l1 & Heq & Hs1 & _). rewrite Heq in Hlive.
  apply (serve_all_holds pol initial Counter c (uint_value w) counter_holds)
    with (h:=[]) in Hlive as [Hh Hs].
  - split.
    + destruct (overflow pol); destruct_and!; unfold flags_of in *; simplify_eq; auto.
    + intros amount op now' Ham.
      destruct (counter_adds c amount now' op l') as (res & l'' & -> & Hres). exists res, l''.
      split; [done|]. rewrite Hres. by eapply counter_fits.
  - by apply counter_initial.
  - intros. by eapply counter_step.
  - done.
  - unfold holds. rewrite Hs1. by apply counter_initial.
Qed.
End Counter.

(** No operation on a slot is undefined, in any sequence of calls: for unsigned metrics, for
    floating-point ones, and for signed ones unless a window of its greatest values can overflow
    the accumulator. *)
Theorem slot_defined `{LongDouble} w pol c slot_id now :
  (∀ initial (i : Instrument Z) calls l, positive_window i →
     is_Some (live (H0:=uint w) pol initial i c slot_id now calls l))
  ∧ (∀ initial (i : Instrument spec_float) calls l, positive_window i → i ≠ Counter →
     is_Some (live (H0:=float) pol initial i c slot_id now calls l))
  ∧ (∀ bound initial (i : Instrument Z) calls l, window_fits i bound → i ≠ Counter →
     brings (small_value bound) calls →
     is_Some (live (H0:=sint) pol initial i c slot_id now calls l)).
Proof.
  split_and!; intros.
  - apply (total_sums_defined (H0:=uint w)); simpl; try done.
  - apply (total_sums_defined (H0:=float)); simpl; try done.
    unfold add_sum_float. intros ???. by repeat case_match.
  - by eapply signed_defined.
Qed.

(** ** Examples

    The theorems at concrete slots, on a platform whose [long double] is the
    extended format, and what the excluded cases do. *)
#[local] Instance extended : LongDouble := {| ld_prec := 64; ld_emax := 16384; nan_signbit := true |}.
Definition saturating : Policies := mkPolicies Saturate RejectNonFinite true.
Definition fresh_slot {I} (s : I) : LockedSlot I :=
  mkLocked 0 (mkSlot s (mkRecord 0 SNotReady RNone MutexProtected 0 0 0 0 0 0 0 0 0 0 0
                          false false false false)) 0 0.
Definition observes (vs : list Z) : list (Call Z) :=
  map (λ v, mkCall (Mutate v false false OpObserve) None 7) vs.


Definition histogram_calls : list (Call Z) :=
  observes [5; 15; 25]
  ++ [mkCall (Clear true) (Some SWouldBlock) 8; mkCall (Mutate 12 true false OpObserve) None 9].

Lemma slot_accounting_witness :
  let i := Distribution (Histogram [10; 20]) in
  match live (H0:=uint 32) saturating None i MutexProtected 3 1 histogram_calls
          (fresh_slot (initialize_instrument (H0:=uint 32) None i)) with
  | Some (outs, l') =>
    let r := record (state l') in
    revision r = u64 (t_updates (tally i MutexProtected histogram_calls outs))
    ∧ revision r = 4 ∧ contention r = 1
  | None => False
  end.
Proof.
  intros i. destruct (live _ _ _ _ _ _ _ _) as [[outs l']|] eqn:Hlive;
    [|by vm_compute in Hlive].
  split; [eapply (slot_accounting (H0:=uint 32)); exact Hlive|].
  vm_compute in Hlive. by injection Hlive as <- <-.
Defined.

Lemma reading_refines_witness :
  let i := Distribution (WindowMean 2) in
  let calls := observes [5; 15; 25] in
  match live (H0:=sint) saturating None i SpinLocked 3 1 calls
          (fresh_slot (initialize_instrument (H0:=sint) None i)) with
  | Some (outs, l') =>
    match locked_get (H0:=sint) saturating i SpinLocked true None 9 l' with
    | Some (Ok rd, _) =>
      rd.2 = summarise (H0:=sint) (WindowMean 2) (history i calls outs)
      ∧ mean_mean _ rd.2 = double_of_int 20
    | _ => False
    end
  | None => False
  end.
Proof.
  intros i calls. destruct (live _ _ _ _ _ _ _ _) as [[outs l']|] eqn:Hlive;
    [|by vm_compute in Hlive].
  destruct (locked_get _ _ _ _ _ _ _) as [[[rd|e] l'']|] eqn:Hget.
  - split.
    + eapply (reading_refines sint (λ _, True) int64_value saturating None i SpinLocked 3 1 calls
        _ outs l' true None 9 rd l''); [done| |exact Hlive|exact Hget|..].
      * repeat constructor.
      * vm_compute in Hlive. injection Hlive as <- <-. vm_compute in Hget. by injection Hget as <- <-.
      * vm_compute in Hlive. injection Hlive as <- <-. vm_compute in Hget. by injection Hget as <- <-.
    + vm_compute in Hlive. injection Hlive as <- <-. vm_compute in Hget. injection Hget as <- <-.
      by vm_compute.
  - vm_compute in Hlive. injection Hlive as <- <-. by vm_compute in Hget.
  - vm_compute in Hlive. injection Hlive as <- <-. by vm_compute in Hget.
Defined.

Definition add_calls (vs : list Z) : list (Call Z) :=
  map (λ v, mkCall (Mutate v false false OpAdd) None 7) vs.

Lemma slot_defined_witness :
  is_Some (live (H0:=sint) saturating None (Distribution (WindowMean 4)) SpinLocked 3 1
    (observes [1000; -1000; 7]) (fresh_slot (empty_reducer (H0:=sint) (WindowMean 4)))).
Proof.
  apply (slot_defined 32 saturating SpinLocked 3 1) with (bound := 1000); [|done|].
  - split; [lia|by vm_compute].
  - repeat constructor; simpl; unfold int64_value, int64_min, int64_max; lia.
Defined.

Lemma counter_total_witness :
  let calls := add_calls [200; 100; 50] in
  match live (H0:=uint 8) saturating None Counter SpinLocked 3 1 calls
          (fresh_slot (initialize_instrument (H0:=uint 8) None Counter)) with
  | Some (outs, l') =>
    (counter_value (instrument (state l')) = Z.min (total (history Counter calls outs)) (2 ^ 8 - 1)
     ∧ saturated (record (state l')) = (2 ^ 8 - 1 <? total (history Counter calls outs)))
    ∧ total (history Counter calls outs) = 350
  | None => False
  end.
Proof.
  intros calls. destruct (live _ _ _ _ _ _ _ _) as [[outs l']|] eqn:Hlive;
    [|by vm_compute in Hlive].
  split.
  - apply (counter_total 8 saturating None SpinLocked 3 1 calls
      (fresh_slot (initialize_instrument (H0:=uint 8) None Counter)) outs l'); [done| |exact Hlive].
    repeat constructor; simpl; lia.
  - vm_compute in Hlive. by injection Hlive as <- <-.
Defined.

(** *** What [slot_defined] excludes

    A saturated signed window subtracts evicted values from the cut-off sum
    until the subtraction overflows, which is undefined. *)
Example signed_window_overflows :
  live (H0:=sint) saturating None (Distribution (WindowMean 2)) SpinLocked 3 1
    (observes [int64_max; int64_max; -5; -5])
    (fresh_slot (empty_reducer (H0:=sint) (WindowMean 2))) = None.
Proof. by vm_compute. Qed.

(** Rejecting overflow does not help: the partial sum without the evicted
    value may leave the accumulator although both windows fit. *)
Example rejecting_window_overflows :
  live (H0:=sint) (mkPolicies Reject RejectNonFinite true) None (Distribution (WindowMean 3))
    SpinLocked 3 1 (observes [int64_min; int64_max; int64_max; int64_min])
    (fresh_slot (empty_reducer (H0:=sint) (WindowMean 3))) = None.
Proof. by vm_compute. Qed.

(** An unsigned window that saturated keeps a wrong sum when every value in
    it fits again: the window holds 1 and 1, its sum is the greatest value. *)
Example saturated_window_stays_wrong :
  let i := Distribution (WindowMean 2) in
  match live (H0:=uint 64) saturating None i SpinLocked 3 1 (observes [2 ^ 64 - 1; 2; 1; 1])
          (fresh_slot (initialize_instrument (H0:=uint 64) None i)) with
  | Some (_, l') =>
    w_values (instrument (state l')) = [1; 1] ∧ w_sum (instrument (state l')) = 2 ^ 64 - 1
  | None => False
  end.
Proof. by vm_compute. Qed.
