(* ===== verification/MetricsAtomic.v ===== *)
(** * MetricsAtomic: the lock-free metric slot

    Models [AtomicSlot] of [include/solar/metrics/storage.hpp].  Its
    operations are programs of atomic accesses, interleaved by a schedule
    that names the thread of each access; memory is sequentially consistent,
    so the orders the code passes are not modelled.  A schedule also gives
    the clock and says when a weak exchange fails without cause.  The two
    unbounded loops, the exchange of [add] and the retry of [get], take fuel;
    MetricsSeqlock shows that a schedule never uses more than its length. *)
From stdpp Require Import prelude.
From Stdlib Require Import Floats.SpecFloat.
From S2P Require Import Prelude Status Metrics.

Open Scope Z_scope.
Open Scope solar_scope.

(** ** Atomic accesses *)
Record Env : Set := mkEnv { env_now : Z; env_spurious : bool }.

(** The atomics other than [writers_] and [generation_]. *)
Record Atomics (V : Type) := mkAtomics {
  value_ : V; initialized_ : bool; epoch_ : Z; revision_ : Z; updates_ : Z; rejected_ : Z;
  contention_ : Z; overflows_ : Z; saturations_ : Z; resets_ : Z; invalid_numeric_ : Z;
  updated_at_ : Z; failure_at_ : Z; last_status_ : Status; last_reason_ : Reason;
  saturated_ : bool; wrapped_ : bool; degraded_ : bool }.
Arguments mkAtomics {V} _ _ _ _ _ _ _ _ _ _ _ _ _ _ _ _ _ _.
Arguments value_ {V} _. Arguments initialized_ {V} _. Arguments epoch_ {V} _.
Arguments revision_ {V} _. Arguments updates_ {V} _. Arguments rejected_ {V} _.
Arguments contention_ {V} _. Arguments overflows_ {V} _. Arguments saturations_ {V} _.
Arguments resets_ {V} _. Arguments invalid_numeric_ {V} _. Arguments updated_at_ {V} _.
Arguments failure_at_ {V} _. Arguments last_status_ {V} _. Arguments last_reason_ {V} _.
Arguments saturated_ {V} _. Arguments wrapped_ {V} _. Arguments degraded_ {V} _.
#[export] Instance Atomics_fields V : Fields (Atomics V) := λ a,
  mkAtomics (value_ a) (initialized_ a) (epoch_ a) (revision_ a) (updates_ a) (rejected_ a)
    (contention_ a) (overflows_ a) (saturations_ a) (resets_ a) (invalid_numeric_ a)
    (updated_at_ a) (failure_at_ a) (last_status_ a) (last_reason_ a) (saturated_ a)
    (wrapped_ a) (degraded_ a).

Record Memory (V : Type) := mkMemory { atomics : Atomics V; writers_ : Z; generation_ : Z }.
Arguments mkMemory {V} _ _ _. Arguments atomics {V} _. Arguments writers_ {V} _.
Arguments generation_ {V} _.

(** One access, and programs of accesses.  [Stalled] is a loop out of fuel:
    its thread takes no further step. *)
Inductive Access (V : Type) : Type → Type :=
  | OnAtomics (B : Type) (f : Env → Atomics V → B * Atomics V) : Access V B
  | LoadWriters : Access V Z
  | BeginWrite : Access V unit
  | LoadGeneration : Access V Z
  | BumpGeneration : Access V unit
  | EndWrite : Access V unit.
Arguments OnAtomics {V B} f. Arguments LoadWriters {V}. Arguments BeginWrite {V}.
Arguments LoadGeneration {V}. Arguments BumpGeneration {V}. Arguments EndWrite {V}.

Inductive Prog (V A : Type) : Type :=
  | Done (a : A)
  | Stalled
  | Then (B : Type) (access : Access V B) (k : B → Prog V A).
Arguments Done {V A} a. Arguments Stalled {V A}. Arguments Then {V A B} access k.

Definition perform {V B} (e : Env) (access : Access V B) (m : Memory V) : B * Memory V :=
  match access with
  | OnAtomics f => let '(b, a) := f e (atomics m) in (b, mkMemory a (writers_ m) (generation_ m))
  | LoadWriters => (writers_ m, m)
  | BeginWrite => (tt, mkMemory (atomics m) (inc32 (writers_ m)) (generation_ m))
  | LoadGeneration => (generation_ m, m)
  | BumpGeneration => (tt, mkMemory (atomics m) (writers_ m) (inc64 (generation_ m)))
  | EndWrite => (tt, mkMemory (atomics m) (u32 (writers_ m - 1)) (generation_ m))
  end.

Fixpoint bind_prog {V A B} (p : Prog V A) (k : A → Prog V B) : Prog V B :=
  match p with
  | Done a => k a
  | Stalled => Stalled
  | Then access k' => Then access (λ b, bind_prog (k' b) k)
  end.
Notation "x ↞ access ; k" := (Then access (λ x, k))
  (at level 20, access at level 100, k at level 200, right associativity) : solar_scope.

Section Slot.
Context {V Sum : Type} `{Number V Sum} `{!EqDecision V} (pol : Policies) (slot_id : Z).
Abbreviation prog := (Prog V).

Definition load {A} (field : Atomics V → A) : Access V A := OnAtomics (λ _ a, (field a, a)).
Definition change (f : Env → Atomics V → Atomics V) : Access V unit :=
  OnAtomics (λ e a, (tt, f e a)).

(** ** Failure accounting *)
Definition record_atomic_failure {A} (st : Status) (why : Reason) (k : prog A) : prog A :=
  _ ↞ change (λ _ a, a <| rejected_ ::= inc64 |>);
  _ ↞ change (λ _ a, a <| last_status_ := st |>);
  _ ↞ change (λ _ a, a <| last_reason_ := why |>);
  if timestamps pol then _ ↞ change (λ e a, a <| failure_at_ := env_now e |>); k else k.

Definition count_overflow {A} (k : prog A) : prog A :=
  _ ↞ change (λ _ a, a <| overflows_ ::= inc64 |>); k.

(** [end_write]. *)
Definition end_write {A} (k : prog A) : prog A := _ ↞ BumpGeneration; _ ↞ EndWrite; k.

(** ** Updates *)
Definition finish (d : UpdateDisposition) : prog (result Error Update) :=
  revision ↞ OnAtomics (λ _ a, (inc64 (revision_ a), a <| revision_ ::= inc64 |>));
  _ ↞ change (λ _ a, a <| updates_ ::= inc64 |>);
  let latches k :=
    match d with
    | Saturated =>
      _ ↞ change (λ _ a, a <| saturated_ := true |>);
      _ ↞ change (λ _ a, a <| degraded_ := true |>);
      _ ↞ change (λ _ a, a <| saturations_ ::= inc64 |>); k
    | Wrapped =>
      _ ↞ change (λ _ a, a <| wrapped_ := true |>);
      _ ↞ change (λ _ a, a <| degraded_ := true |>);
      count_overflow k
    | _ => k
    end in
  let stamp k :=
    if timestamps pol then _ ↞ change (λ e a, a <| updated_at_ := env_now e |>); k else k in
  stamp (latches (
    _ ↞ change (λ _ a, a <| last_status_ := SOk |>);
    epoch ↞ load epoch_;
    saturated ↞ load saturated_;
    wrapped ↞ load wrapped_;
    end_write (Done (Ok (mkUpdate d revision epoch saturated wrapped))))).

Definition current_update (d : UpdateDisposition) : prog (result Error Update) :=
  revision ↞ load revision_;
  epoch ↞ load epoch_;
  saturated ↞ load saturated_;
  wrapped ↞ load wrapped_;
  Done (Ok (mkUpdate d revision epoch saturated wrapped)).

(** [compare_exchange_weak]: whether it succeeded, and the value found. *)
Definition compare_exchange_weak (expected desired : V) :
  Access V (bool * V) :=
  OnAtomics (λ e a,
    if bool_decide (value_ a = expected) && negb (env_spurious e)
    then ((true, expected), a <| value_ := desired |>)
    else ((false, value_ a), a)).

(** The loop of [add], from the value last seen. *)
Fixpoint add_loop (fuel : nat) (current amount : V) (op : Operation) :
  prog (result Error Update) :=
  match fuel with
  | O => Stalled
  | Datatypes.S fuel =>
    match add_value (overflow pol) current amount with
    | None => Stalled
    | Some (Err _) =>
      record_atomic_failure SOverflow ROverflow (count_overflow (end_write (
        Done (Err (slot_error slot_id op SOverflow ROverflow)))))
    | Some (Ok (next, d)) =>
      swap ↞ compare_exchange_weak current next;
      if swap.1 then finish d
      else add_loop fuel swap.2 amount op
    end
  end.

Definition atomic_add (fuel : nat) (amount : V) (op : Operation) :
  prog (result Error Update) :=
  if v_is_zero amount then current_update Unchanged
  else
    _ ↞ BeginWrite;
    current ↞ load value_;
    add_loop fuel current amount op.

Definition atomic_set (v : V) (op : Operation) : prog (result Error Update) :=
  if negb (valid_numeric pol v) then
    record_atomic_failure SInvalid RInvalidNumeric (
      _ ↞ change (λ _ a, a <| invalid_numeric_ ::= inc64 |>);
      Done (Err (slot_error slot_id op SInvalid RInvalidNumeric)))
  else
    _ ↞ BeginWrite;
    _ ↞ change (λ _ a, a <| value_ := v |>);
    _ ↞ change (λ _ a, a <| initialized_ := true |>);
    finish Updated.

(** An atomic slot is never given a distribution; it refuses one. *)
Definition atomic_observe (op : Operation) : prog (result Error Update) :=
  Done (Err (slot_error slot_id op SNotSupported RReducerFailure)).

(** ** Reading *)
Abbreviation reading := (ReadingMetadata * V)%type.

Definition would_block {A} (k : prog A) : prog A :=
  record_atomic_failure SWouldBlock RWouldBlock (
    _ ↞ change (λ _ a, a <| contention_ ::= inc64 |>); k).

Fixpoint atomic_get (fuel : nat) (no_wait : bool) : prog (result Error reading) :=
  match fuel with
  | O => Stalled
  | Datatypes.S fuel =>
    let blocked := would_block
      (Done (Err (slot_error slot_id OpTryGet SWouldBlock RWouldBlock))) in
    writers ↞ LoadWriters;
    if negb (writers =? 0) then if no_wait then blocked else atomic_get fuel no_wait
    else
      generation ↞ LoadGeneration;
      v ↞ load value_;
      epoch ↞ load epoch_;
      revision ↞ load revision_;
      updates ↞ load updates_;
      updated_at ↞ load updated_at_;
      initialized ↞ load initialized_;
      saturated ↞ load saturated_;
      wrapped ↞ load wrapped_;
      degraded ↞ load degraded_;
      let retry := if no_wait then blocked else atomic_get fuel no_wait in
      writers ↞ LoadWriters;
      if writers =? 0 then
        again ↞ LoadGeneration;
        if again =? generation then
          Done (Ok (mkMetadata epoch revision updates updated_at initialized saturated
                      wrapped degraded, v))
        else retry
      else retry
  end.

(** ** Reset, rejection, record *)
Definition initial_value (initial : option V) (i : Instrument V) : V :=
  match i with Gauge => default v_zero initial | _ => v_zero end.
Definition initialized_value (initial : option V) (i : Instrument V) : bool :=
  match i with Counter => true | _ => bool_decide (is_Some initial) end.

Definition atomic_reset (initial : option V) (i : Instrument V) : prog (result Error Update) :=
  _ ↞ BeginWrite;
  _ ↞ change (λ _ a, a <| value_ := initial_value initial i |>);
  _ ↞ change (λ _ a, a <| initialized_ := initialized_value initial i |>);
  epoch ↞ OnAtomics (λ _ a, (inc32 (epoch_ a), a <| epoch_ ::= inc32 |>));
  _ ↞ change (λ _ a, a <| revision_ := 0 |>);
  _ ↞ change (λ _ a, a <| updates_ := 0 |>);
  _ ↞ change (λ _ a, a <| updated_at_ := 0 |>);
  _ ↞ change (λ _ a, a <| saturated_ := false |>);
  _ ↞ change (λ _ a, a <| wrapped_ := false |>);
  _ ↞ change (λ _ a, a <| degraded_ := false |>);
  _ ↞ change (λ _ a, a <| failure_at_ := 0 |>);
  _ ↞ change (λ _ a, a <| resets_ ::= inc64 |>);
  _ ↞ change (λ _ a, a <| last_status_ := SOk |>);
  _ ↞ change (λ _ a, a <| last_reason_ := RNone |>);
  end_write (Done (Ok (mkUpdate Updated 0 epoch false false))).

Definition atomic_reject (op : Operation) (st : Status) (why : Reason) : prog Error :=
  record_atomic_failure st why (
    let answer := Done (slot_error slot_id op st why) in
    match why with
    | ROverflow | RConversionOverflow => count_overflow answer
    | RInvalidNumeric => _ ↞ change (λ _ a, a <| invalid_numeric_ ::= inc64 |>); answer
    | _ => answer
    end).

(** [record] reads first; the read waits, so it is never refused, and its
    value is used without a check. *)
Definition atomic_record (fuel : nat) : prog MetricRecord :=
  bind_prog (atomic_get fuel false) (λ got,
    match got with
    | Ok (m, _) =>
      last_status ↞ load last_status_;
      last_failure ↞ load last_reason_;
      rejected ↞ load rejected_;
      contention ↞ load contention_;
      overflows ↞ load overflows_;
      saturations ↞ load saturations_;
      invalid_numeric ↞ load invalid_numeric_;
      resets ↞ load resets_;
      failure_at ↞ load failure_at_;
      Done (mkRecord slot_id last_status last_failure Atomic (reading_epoch m)
              (reading_revision m) (reading_updates m) rejected contention overflows
              saturations invalid_numeric resets (reading_updated_at m) failure_at
              (reading_initialized m) (reading_saturated m) (reading_wrapped m)
              (reading_degraded m))
    | Err _ => Stalled
    end).

(** [initialize], before any thread uses the slot. *)
Definition atomic_initialize (initial : option V) (i : Instrument V) : Memory V :=
  mkMemory (mkAtomics (initial_value initial i) (initialized_value initial i)
    0 0 0 0 0 0 0 0 0 0 0 SOk RNone false false false) 0 0.
End Slot.

(** ** Threads

    A thread makes a list of calls; the answers are kept in order. *)
Section Threads.
Context {V Sum : Type} `{Number V Sum} `{!EqDecision V}.
Context (pol : Policies) (slot_id : Z) (initial : option V) (i : Instrument V).

Inductive AtomicCall : Type :=
  | CallAdd (amount : V) (op : Operation)
  | CallSet (v : V) (op : Operation)
  | CallObserve (op : Operation)
  | CallGet (no_wait : bool)
  | CallReset
  | CallReject (op : Operation) (st : Status) (why : Reason)
  | CallRecord.

Inductive Answer : Type :=
  | AnsweredUpdate (r : result Error Update)
  | AnsweredReading (r : result Error (ReadingMetadata * V))
  | AnsweredError (e : Error)
  | AnsweredRecord (r : MetricRecord).

Definition call_program (fuel : nat) (c : AtomicCall) : Prog V Answer :=
  match c with
  | CallAdd amount op =>
    bind_prog (atomic_add pol slot_id fuel amount op) (λ r, Done (AnsweredUpdate r))
  | CallSet v op => bind_prog (atomic_set pol slot_id v op) (λ r, Done (AnsweredUpdate r))
  | CallObserve op => bind_prog (atomic_observe slot_id op) (λ r, Done (AnsweredUpdate r))
  | CallGet no_wait => bind_prog (atomic_get pol slot_id fuel no_wait) (λ r, Done (AnsweredReading r))
  | CallReset => bind_prog (atomic_reset initial i) (λ r, Done (AnsweredUpdate r))
  | CallReject op st why =>
    bind_prog (atomic_reject pol slot_id op st why) (λ e, Done (AnsweredError e))
  | CallRecord => bind_prog (atomic_record pol slot_id fuel) (λ r, Done (AnsweredRecord r))
  end.

Fixpoint thread_program (fuel : nat) (calls : list AtomicCall) : Prog V (list Answer) :=
  match calls with
  | [] => Done []
  | c :: calls =>
    bind_prog (call_program fuel c) (λ answer,
      bind_prog (thread_program fuel calls) (λ answers, Done (answer :: answers)))
  end.
End Threads.
Arguments AtomicCall V : clear implicits. Arguments Answer V : clear implicits.

(** ** Interleaving

    Where a thread stands in its write: the data of the slot may change only
    inside, before the generation is bumped. *)
Inductive Phase : Set := Outside | Inside | Closing.
#[export] Instance Phase_eq_dec : EqDecision Phase.
Proof. solve_decision. Defined.

Definition phase_after {V B} (access : Access V B) (ph : Phase) : Phase :=
  match access with
  | BeginWrite => Inside
  | BumpGeneration => Closing
  | EndWrite => Outside
  | _ => ph
  end.

(** The slot's memory and its threads. *)
Definition System (V A : Type) : Type := Memory V * list (Phase * Prog V A).

Definition step {V A} (t : nat) (e : Env) (s : System V A) : System V A :=
  match s.2 !! t with
  | Some (ph, Then access k) =>
    let '(b, m) := perform e access s.1 in (m, <[t := (phase_after access ph, k b)]> s.2)
  | _ => s
  end.

Definition Schedule : Set := list (nat * Env).
Definition run {V A} (sch : Schedule) (s : System V A) : System V A :=
  foldl (λ s te, step te.1 te.2 s) s sch.

Definition start {V A} (p : Prog V A) : Phase * Prog V A := (Outside, p).
Definition quiet {V A} (ts : list (Phase * Prog V A)) : Prop :=
  Forall (λ t, t.1 ≠ Inside) ts.

(** What a reading shows of the atomics. *)
Definition visible {V} (a : Atomics V) : ReadingMetadata * V :=
  (mkMetadata (epoch_ a) (revision_ a) (updates_ a) (updated_at_ a) (initialized_ a)
     (saturated_ a) (wrapped_ a) (degraded_ a), value_ a).
