(* ===== verification/MetricsSeqlock.v ===== *)
(** * MetricsSeqlock: what the atomic slot guarantees under interleaving

    Two disciplines, each a predicate on programs that every operation of the
    slot meets: [disciplined], under which the visible fields change only
    between [begin_write] and the bump of the generation; and [follows],
    under which a reading is only returned when both checks of [get] pass.
    Together they make every reading a snapshot taken while no write was in
    progress. *)
From stdpp Require Import prelude.
From Stdlib Require Import Floats.SpecFloat.
From S2P Require Import Prelude Status Metrics MetricsAtomic.

Open Scope Z_scope.
Open Scope solar_scope.

(** ** The writers' discipline *)
Fixpoint disciplined {V A} (ph : Phase) (p : Prog V A) : Prop :=
  match p with
  | Done _ => ph = Outside
  | Stalled => True
  | Then access k =>
    match access in Access _ B return (Phase → B → Prop) → Prop with
    | OnAtomics f => λ rec,
      (ph ≠ Inside → ∀ e a, visible (f e a).2 = visible a) ∧ ∀ b, rec ph b
    | LoadWriters | LoadGeneration => λ rec, ∀ b, rec ph b
    | BeginWrite => λ rec, ph = Outside ∧ rec Inside tt
    | BumpGeneration => λ rec, ph = Inside ∧ rec Closing tt
    | EndWrite => λ rec, ph = Closing ∧ rec Outside tt
    end (λ ph b, disciplined ph (k b))
  end.

Lemma disciplined_bind {V A B} (p : Prog V A) (k : A → Prog V B) ph :
  disciplined ph p → (∀ a, disciplined Outside (k a)) → disciplined ph (bind_prog p k).
Proof.
  intros Hp Hk. revert ph Hp. induction p as [a| |C access k' IH]; intros ph Hp; simpl in *.
  - subst. apply Hk.
  - done.
  - destruct access; intuition eauto.
Qed.

Section Discipline.
Context {V Sum : Type} `{Number V Sum} `{!EqDecision V}.
Context (pol : Policies) (slot_id : Z) (initial : option V) (i : Instrument V).

Lemma disciplined_failure {A} st why (k : Prog V A) ph :
  disciplined ph k → disciplined ph (record_atomic_failure pol st why k).
Proof. intros Hk. unfold record_atomic_failure. simpl. by destruct (timestamps pol). Qed.

Lemma disciplined_finish d : disciplined (V:=V) Inside (finish pol d).
Proof. unfold finish. by destruct (timestamps pol), d. Qed.

Lemma disciplined_add_loop fuel current amount op :
  disciplined Inside (add_loop pol slot_id fuel current amount op).
Proof.
  revert current. induction fuel as [|fuel IH]; intros current; simpl; [done|].
  destruct (add_value _ _ _) as [[[next d]|why]|]; simpl; [| |done].
  - split; [done|]. intros [[] found]; [apply disciplined_finish|apply IH].
  - by apply disciplined_failure.
Qed.

Lemma disciplined_get fuel no_wait : disciplined Outside (atomic_get (V:=V) pol slot_id fuel no_wait).
Proof.
  assert (Hblock : disciplined (V:=V) Outside (would_block pol
    (Done (Err (A:=ReadingMetadata * V) (slot_error slot_id OpTryGet SWouldBlock RWouldBlock))))).
  { by apply disciplined_failure. }
  induction fuel as [|fuel IH]; simpl; [done|]. intros writers.
  assert (Hretry : disciplined Outside (if no_wait
    then would_block pol
      (Done (Err (A:=ReadingMetadata * V) (slot_error slot_id OpTryGet SWouldBlock RWouldBlock)))
    else atomic_get (V:=V) pol slot_id fuel no_wait)) by by destruct no_wait.
  destruct (negb _); [exact Hretry|]. simpl. intros generation.
  do 9 (split; [done|intros ?]). intros writers'. destruct (writers' =? 0); [|exact Hretry].
  simpl. intros again. destruct (again =? generation); [done|exact Hretry].
Qed.

(** Every call of the slot keeps the discipline. *)
Lemma disciplined_call fuel c : disciplined Outside (call_program pol slot_id initial i fuel c).
Proof.
  destruct c; unfold call_program; (apply disciplined_bind; [|done]).
  - unfold atomic_add. destruct (v_is_zero amount); [done|]. simpl. split; [done|].
    split; [done|]. intros current. apply disciplined_add_loop.
  - unfold atomic_set. destruct (negb _); [by apply disciplined_failure|].
    split; [done|]. do 2 (split; [done|intros _]). apply (disciplined_finish Updated).
  - done.
  - apply disciplined_get.
  - unfold atomic_reset. simpl. by repeat (split || intros).
  - unfold atomic_reject. apply disciplined_failure. by destruct why.
  - unfold atomic_record. apply disciplined_bind; [apply disciplined_get|].
    intros [[m v]|]; [|done]. by repeat (split || intros).
Qed.

Lemma disciplined_thread fuel calls :
  disciplined Outside (thread_program pol slot_id initial i fuel calls).
Proof.
  induction calls as [|c calls IH]; simpl; [done|].
  apply disciplined_bind; [apply disciplined_call|]. intros answer. by apply disciplined_bind.
Qed.
End Discipline.

(** ** The readers' discipline

    A thread is searching for a snapshot, or reads one: [Clean r g] when the
    visible fields have been [r] and the generation [g] since it loaded the
    generation, [Dirty g] when a write may have got between.  The [Last]
    modes are after the second check of the writers. *)
Inductive Mode (V : Type) : Type :=
  | Searching
  | Clean (r : ReadingMetadata * V) (g : Z)
  | CleanLast (r : ReadingMetadata * V) (g : Z)
  | Dirty (g : Z)
  | DirtyLast (g : Z).
Arguments Searching {V}. Arguments Clean {V} r g. Arguments CleanLast {V} r g.
Arguments Dirty {V} g. Arguments DirtyLast {V} g.

Section Follows.
Context {V : Type} (snapshot : ReadingMetadata * V → Prop).

(** [Q] is what is known of the answers, given that the readings returned
    are snapshots. *)
Fixpoint follows {A} (Q : A → Prop) (mode : Mode V) (p : Prog V A) : Prop :=
  match p with
  | Done a => match mode with Searching => Q a | _ => False end
  | Stalled => True
  | Then access k =>
    match access in Access _ B return (Mode V → B → Prop) → Prop with
    | OnAtomics f => λ rec,
      match mode with
      | Searching => ∀ b, rec Searching b
      | Clean r g =>
        (∀ e a, visible a = r → rec (Clean r g) (f e a).1) ∧ ∀ b, rec (Dirty g) b
      | Dirty g => ∀ b, rec (Dirty g) b
      | _ => False
      end
    | LoadWriters => λ rec,
      match mode with
      | Searching => ∀ w, rec Searching w
      | Clean r g =>
        rec (CleanLast r g) 0 ∧ rec (DirtyLast g) 0 ∧ ∀ w, w ≠ 0 → rec Searching w
      | Dirty g => rec (DirtyLast g) 0 ∧ ∀ w, w ≠ 0 → rec Searching w
      | _ => False
      end
    | LoadGeneration => λ rec,
      match mode with
      | Searching => ∀ g, (∀ r, rec (Clean r g) g) ∧ rec (Dirty g) g
      | CleanLast r g => (snapshot r → rec Searching g) ∧ ∀ g', g' ≠ g → rec Searching g'
      | DirtyLast g => ∀ g', g' ≠ g → rec Searching g'
      | _ => False
      end
    | _ => λ rec, match mode with Searching => rec Searching tt | _ => False end
    end (λ mode b, follows Q mode (k b))
  end.

Lemma follows_bind {A B} (Q : A → Prop) (Q' : B → Prop) (p : Prog V A) k mode :
  follows Q mode p → (∀ a, Q a → follows Q' Searching (k a)) → follows Q' mode (bind_prog p k).
Proof.
  intros Hp Hk. revert mode Hp. induction p as [a| |C access k' IH]; intros mode Hp; simpl in *.
  - destruct mode; try done. by apply Hk.
  - done.
  - destruct access, mode; naive_solver.
Qed.

Lemma follows_dirty {A} (Q : A → Prop) r g (p : Prog V A) :
  follows Q (Clean r g) p → follows Q (Dirty g) p.
Proof. destruct p as [| |C access k]; simpl; [done|done|]. destruct access; naive_solver. Qed.
End Follows.

Section Reading.
Context {V Sum : Type} `{Number V Sum} `{!EqDecision V}.
Context (pol : Policies) (slot_id : Z) (initial : option V) (i : Instrument V).
Context (snapshot : ReadingMetadata * V → Prop).

(** An answer that shows the slot shows a snapshot. *)
Definition sound (a : Answer V) : Prop :=
  match a with
  | AnsweredReading (Ok rd) => snapshot rd
  | AnsweredRecord r => ∃ rd, snapshot rd ∧
    (epoch r, revision r, updates r, updated_at r)
    = (reading_epoch rd.1, reading_revision rd.1, reading_updates rd.1, reading_updated_at rd.1)
    ∧ (initialized r, saturated r, wrapped r, degraded r)
    = (reading_initialized rd.1, reading_saturated rd.1, reading_wrapped rd.1,
       reading_degraded rd.1)
  | _ => True
  end.

Abbreviation searches Q := (follows snapshot Q Searching).

Lemma follows_failure {A} (Q : A → Prop) st why (k : Prog V A) :
  searches Q k → searches Q (record_atomic_failure pol st why k).
Proof. intros Hk. unfold record_atomic_failure. destruct (timestamps pol); simpl; auto. Qed.

Lemma follows_add_loop fuel current amount op :
  searches (λ _, True) (add_loop pol slot_id fuel current amount op).
Proof.
  revert current. induction fuel as [|fuel IH]; intros current; simpl; [done|].
  destruct (add_value _ _ _) as [[[next d]|why]|]; simpl; [| |done].
  - intros [[] found]; [|apply IH]. unfold finish. by destruct (timestamps pol), d.
  - apply (follows_failure _ SOverflow ROverflow). simpl. auto.
Qed.

(** A load while the fields stay, and while they may not. *)
Lemma follows_load {A B} (Q : B → Prop) r g (field : Atomics V → A) x (k : A → Prog V B) :
  (∀ a, visible a = r → field a = x) →
  follows snapshot Q (Clean r g) (k x) → (∀ b, follows snapshot Q (Dirty g) (k b)) →
  follows snapshot Q (Clean r g) (Then (load field) k).
Proof. intros Hx Hk Hd. split; [|done]. intros e a Ha. simpl. by rewrite (Hx a Ha). Qed.

(** The last check of [get]. *)
Lemma follows_check {B} (Q : B → Prop) g (answer : B) retry :
  searches Q retry →
  let check := Then LoadWriters (λ w,
    if w =? 0 then Then LoadGeneration (λ again, if again =? g then Done answer else retry)
    else retry) in
  follows snapshot Q (Dirty g) check ∧ ∀ r, (snapshot r → Q answer) →
    follows snapshot Q (Clean r g) check.
Proof.
  intros Hretry check.
  assert (Hd : ∀ g', g' ≠ g → searches Q (if g' =? g then Done answer else retry))
    by (intros g' Hne; by rewrite (proj2 (Z.eqb_neq g' g) Hne)).
  assert (Hw : ∀ w, w ≠ 0 → searches Q (if w =? 0 then Then LoadGeneration (λ again,
    if again =? g then Done answer else retry) else retry))
    by (intros w Hne; by rewrite (proj2 (Z.eqb_neq w 0) Hne)).
  split; [by split|]. intros r Hr. split_and!; [|done|done]. split; [|done].
  intros Hs. simpl. rewrite Z.eqb_refl. by apply Hr.
Qed.

Lemma follows_get fuel no_wait :
  searches (λ r, match r with Ok rd => snapshot rd | Err _ => no_wait = true end)
    (atomic_get pol slot_id fuel no_wait).
Proof.
  induction fuel as [|fuel IH]; simpl; [done|]. intros writers.
  set (Q := λ r : result Error (ReadingMetadata * V),
         match r with Ok rd => snapshot rd | Err _ => no_wait = true end) in *.
  set (retry := if no_wait then _ else _).
  assert (Hretry : searches Q retry).
  { subst retry. destruct no_wait; [apply (follows_failure _ SWouldBlock RWouldBlock); simpl; auto|exact IH]. }
  clearbody retry. destruct (negb _); [exact Hretry|].
  intros g. split.
  - intros r. destruct r as [[r1 r2 r3 r4 r5 r6 r7 r8] v].
    do 9 (eapply follows_load; [by intros a [= ????????]; eauto| |
      intros; repeat (intros ?); by apply follows_check]).
    by apply follows_check.
  - repeat (intros ?). by apply follows_check.
Qed.

(** Every call answers soundly. *)
Lemma follows_call fuel c : searches sound (call_program pol slot_id initial i fuel c).
Proof.
  destruct c; unfold call_program.
  - eapply (follows_bind _ (λ _, True)); [|done].
    unfold atomic_add. destruct (v_is_zero amount); [simpl; auto|].
    intros current. apply follows_add_loop.
  - eapply (follows_bind _ (λ _, True)); [|done].
    unfold atomic_set. destruct (negb _); [apply follows_failure; simpl; auto|].
    do 2 (intros ?). unfold finish. by destruct (timestamps pol).
  - done.
  - eapply follows_bind; [apply follows_get|]. by intros [rd|].
  - eapply (follows_bind _ (λ _, True)); [|done]. unfold atomic_reset, end_write. simpl. auto.
  - eapply (follows_bind _ (λ _, True)); [|done]. apply follows_failure. by destruct why; simpl; auto.
  - eapply (follows_bind _ (λ r, sound (AnsweredRecord r))); [|done].
    eapply follows_bind; [apply follows_get|]. intros [[m v]|]; [|done]. intros Hs.
    repeat (intros ?). by exists (m, v).
Qed.

Lemma follows_thread fuel calls :
  searches (Forall sound) (thread_program pol slot_id initial i fuel calls).
Proof.
  induction calls as [|c calls IH]; simpl; [done|].
  eapply follows_bind; [apply follows_call|]. intros answer Ha.
  eapply follows_bind; [apply IH|]. intros answers Hs. by constructor.
Qed.
End Reading.

(** ** The system *)
Section System.
Context {V A : Type}.
Abbreviation threads := (list (Phase * Prog V A)).

Definition active (ts : threads) : nat := length (filter (λ t, t.1 ≠ Outside) ts).

Record sys_ok (m : Memory V) (ts : threads) : Prop := {
  ok_writers : writers_ m = u32 (Z.of_nat (active ts));
  ok_generation : is_u 64 (generation_ m);
  ok_threads : ∀ t ph p, ts !! t = Some (ph, p) → disciplined ph p
}.

Lemma active_insert ts t ph p ph' p' :
  ts !! t = Some (ph, p) →
  (active (<[t := (ph', p')]> ts) + (if decide (ph ≠ Outside) then 1 else 0)
   = active ts + (if decide (ph' ≠ Outside) then 1 else 0))%nat.
Proof.
  intros Ht. rewrite (insert_take_drop ts t) by (by eapply lookup_lt_Some).
  rewrite <-(take_drop_middle ts t (ph, p)) at 3 by done. unfold active.
  rewrite !filter_app, !length_app, !filter_cons. simpl.
  repeat case_decide; simpl; lia.
Qed.

(** What one step of a disciplined thread can do. *)
Inductive effect (ph ph' : Phase) (m m' : Memory V) : Prop :=
  | effect_same : (ph = Inside ↔ ph' = Inside) →
    visible (atomics m') = visible (atomics m) → generation_ m' = generation_ m →
    effect ph ph' m m'
  | effect_write : ph = Inside → ph' = Inside → generation_ m' = generation_ m →
    effect ph ph' m m'
  | effect_begin : ph' = Inside → generation_ m' = generation_ m → effect ph ph' m m'
  | effect_bump : ph = Inside → ph' = Closing → visible (atomics m') = visible (atomics m) →
    generation_ m' = inc64 (generation_ m) → effect ph ph' m m'.

Lemma inc32_sub n : 0 ≤ n → u32 (u32 (n + 1) - 1) = u32 n.
Proof. intros. unfold wrap. rewrite Zminus_mod_idemp_l. f_equal. lia. Qed.

Lemma step_effect t e ts m ph B (access : Access V B) k b m' :
  sys_ok m ts → ts !! t = Some (ph, Then access k) → perform e access m = (b, m') →
  let ts' := <[t := (phase_after access ph, k b)]> ts in
  sys_ok m' ts' ∧ effect ph (phase_after access ph) m m'.
Proof.
  intros [Hw Hg Hts] Ht Hp ts'. pose proof (Hts _ _ _ Ht) as Hd.
  pose proof (active_insert ts t ph (Then access k) (phase_after access ph) (k b) Ht) as Hact.
  assert (Hts' : disciplined (phase_after access ph) (k b) →
    ∀ t ph p, ts' !! t = Some (ph, p) → disciplined ph p).
  { intros Hk t' ph' p' [(<- & [= <- <-] & _)|[_ ?]]%list_lookup_insert_Some; [done|by eapply Hts]. }
  assert (Hok : ∀ a w g, w = u32 (Z.of_nat (active ts')) → is_u 64 g →
    disciplined (phase_after access ph) (k b) → sys_ok (mkMemory a w g) ts')
    by (intros; split; simpl; [done|done|by apply Hts']).
  assert (Hsame : phase_after access ph = ph → writers_ m = u32 (Z.of_nat (active ts')))
    by (intros Hph; rewrite Hph in Hact; rewrite Hw; subst ts'; rewrite Hph; do 2 f_equal; lia).
  destruct m as [a w g], access; simpl in *.
  - destruct (f e a) as [b1 a1] eqn:Hf. injection Hp as <- <-. destruct Hd as [Hvis Hk].
    split; [by apply Hok; [apply Hsame|..]|].
    destruct (decide (ph = Inside)) as [->|Hne]; [by apply effect_write|].
    apply effect_same; simpl; [done| |done]. specialize (Hvis Hne e a). by rewrite Hf in Hvis.
  - injection Hp as <- <-. split; [by apply Hok; [apply Hsame|..]|by apply effect_same].
  - injection Hp as <- <-. destruct Hd as [-> Hk]. split; [|by apply effect_begin].
    apply Hok; [|done|done]. rewrite Hw, inc32_u32. f_equal. subst ts'. simpl in Hact. lia.
  - injection Hp as <- <-. split; [by apply Hok; [apply Hsame|..]|by apply effect_same].
  - injection Hp as <- <-. destruct Hd as [-> Hk]. split; [|by apply effect_bump].
    apply Hok; [|by apply wrap_range|done]. rewrite Hw. do 2 f_equal. subst ts'. simpl in Hact. lia.
  - injection Hp as <- <-. destruct Hd as [-> Hk]. split; [|by apply effect_same].
    apply Hok; [|done|done]. rewrite Hw. simpl in Hact.
    replace (active ts) with (active ts' + 1)%nat by (subst ts'; lia).
    rewrite Nat2Z.inj_add. apply inc32_sub. lia.
Qed.
End System.

(** ** Readings are snapshots *)
Section Run.
Context {V A : Type} (snapshot : ReadingMetadata * V → Prop) (Q : A → Prop).
Abbreviation threads := (list (Phase * Prog V A)).

(** What a reader knows in each mode, [n] steps into the run. *)
Definition knows (n : Z) (mode : Mode V) (m : Memory V) (ts : threads) : Prop :=
  match mode with
  | Searching => True
  | Clean r g =>
    generation_ m = g ∧ visible (atomics m) = r ∧ quiet ts ∧ snapshot r ∧ is_u 64 g
  | CleanLast r _ => snapshot r
  | Dirty g => ∃ j, 0 ≤ j ≤ n ∧ generation_ m = u64 (g + j) ∧ (quiet ts → 0 < j) ∧ is_u 64 g
  | DirtyLast g => ∃ j, 0 < j ≤ n ∧ generation_ m = u64 (g + j) ∧ is_u 64 g
  end.

Lemma quiet_lookup (ts : threads) t ph p : quiet ts → ts !! t = Some (ph, p) → ph ≠ Inside.
Proof. intros Hq Ht. apply (Forall_lookup_1 _ _ _ _ Hq Ht). Qed.
Lemma quiet_insert (ts : threads) t ph p ph' p' :
  ts !! t = Some (ph, p) → (ph = Inside ↔ ph' = Inside) →
  quiet (<[t := (ph', p')]> ts) ↔ quiet ts.
Proof.
  intros Ht Hph. unfold quiet. rewrite !Forall_lookup. split; intros Hq u x Hu.
  - destruct (decide (u = t)) as [->|Hne].
    + rewrite Ht in Hu. injection Hu as <-. simpl. rewrite Hph.
      apply (Hq t (ph', p')). rewrite list_lookup_insert_eq; [done|by eapply lookup_lt_Some].
    + apply (Hq u x). by rewrite list_lookup_insert_ne.
  - apply list_lookup_insert_Some in Hu as [(<- & <- & _)|[_ Hu]]; [|by eapply Hq].
    simpl. rewrite <-Hph. apply (Hq t (ph, p) Ht).
Qed.
Lemma not_quiet_insert (ts : threads) t p : (t < length ts)%nat → ¬ quiet (<[t := (Inside, p)]> ts).
Proof.
  intros Hlt Hq. eapply quiet_lookup; [exact Hq| |done].
  by rewrite list_lookup_insert_eq.
Qed.
Lemma idle_quiet (ts : threads) : active ts = 0%nat → quiet ts.
Proof.
  intros Ha. apply Forall_forall. intros x Hx Hin. apply nil_length_inv in Ha.
  assert (x ∈ filter (λ t : Phase * Prog V A, t.1 ≠ Outside) ts)
    by (apply list_elem_of_filter; split; [congruence|done]).
  rewrite Ha in *. by apply not_elem_of_nil in H.
Qed.
Lemma active_le (ts : threads) : (active ts ≤ length ts)%nat.
Proof. apply length_filter. Qed.

(** A step of a thread, seen by the readers that do not make it. *)
Lemma knows_step n mode m m' ts t ph p ph' p' q :
  0 ≤ n → ts !! t = Some (ph, p) → effect ph ph' m m' →
  knows n mode m ts → follows snapshot Q mode q →
  ∃ mode', knows (n + 1) mode' m' (<[t := (ph', p')]> ts) ∧ follows snapshot Q mode' q.
Proof.
  intros Hn Ht Heff Hk Hf. pose proof (lookup_lt_Some _ _ _ Ht) as Hlt.
  destruct mode as [|r g|r g|g|g]; simpl in Hk.
  - by exists Searching.
  - destruct Hk as (Hg & Hv & Hq & Hs & Hu). pose proof (quiet_lookup ts t ph p Hq Ht).
    destruct Heff as [Hph Hvis Hgen|Hi Hi' Hgen|Hi' Hgen|Hi _ _ _]; try done.
    + exists (Clean r g). split; [|done]. split_and!; try congruence.
      by rewrite quiet_insert.
    + exists (Dirty g). split; [|by eapply follows_dirty]. subst ph'. exists 0.
      rewrite Z.add_0_r. split_and!; [lia|lia| | |done].
      * rewrite wrap_small by done. congruence.
      * intros Hq'. by apply not_quiet_insert in Hq'.
  - by exists (CleanLast r g).
  - destruct Hk as (j & Hj & Hg & Hq & Hu). exists (Dirty g). split; [|done].
    destruct Heff as [Hph Hvis Hgen|Hi Hi' Hgen|Hi' Hgen|Hi Hi' _ Hgen].
    + exists j. split_and!; [lia|lia|congruence| |done]. intros Hq'. apply Hq.
      by rewrite quiet_insert in Hq'.
    + exists j. split_and!; [lia|lia|congruence| |done]. intros Hq'. subst. by apply not_quiet_insert in Hq'.
    + exists j. split_and!; [lia|lia|congruence| |done]. intros Hq'. subst. by apply not_quiet_insert in Hq'.
    + exists (j + 1). split_and!; [lia|lia| |lia|done]. rewrite Hgen, Hg, inc64_u64. f_equal. lia.
  - destruct Hk as (j & Hj & Hg & Hu). exists (DirtyLast g). split; [|done].
    destruct Heff as [? ? Hgen|? ? Hgen|? Hgen|? ? _ Hgen].
    1-3: exists j; split_and!; [lia|lia|congruence|done].
    exists (j + 1). split_and!; [lia|lia| |done]. rewrite Hgen, Hg, inc64_u64. f_equal. lia.
Qed.

(** The generation a dirty reader finds is not the one it started with. *)
Lemma generation_moved g j n :
  0 < j ≤ n → n < 2 ^ 64 → is_u 64 g → u64 (g + j) ≠ g.
Proof.
  intros Hj Hn Hg Heq. unfold wrap, is_u in *.
  pose proof (Z.div_mod (g + j) (2 ^ 64) ltac:(lia)) as Hd. rewrite Heq in Hd.
  assert (j = 2 ^ 64 * ((g + j) / 2 ^ 64)) as Hjq by lia.
  destruct (Z.le_gt_cases ((g + j) / 2 ^ 64) 0); nia.
Qed.

(** What a reader learns from the access it makes. *)
Lemma knows_learns n mode m m' (ts : threads) e B (access : Access V B) (k : B → Prog V A) b :
  0 ≤ n < 2 ^ 64 → Z.of_nat (length ts) < 2 ^ 32 → sys_ok m ts →
  perform e access m = (b, m') → (quiet ts → snapshot (visible (atomics m))) →
  knows n mode m ts → follows snapshot Q mode (Then access k) →
  ∃ mode', knows n mode' m ts ∧ follows snapshot Q mode' (k b).
Proof.
  intros Hn Hlen [Hw Hgen Hts] Hp Hsnap Hk Hf.
  destruct access as [B f| | | | |]; simpl in Hp, Hf.
  - destruct (f e (atomics m)) as [b1 a1] eqn:Hfe. injection Hp as <- <-.
    destruct mode as [|r g|r g|g|g]; try done.
    + by exists Searching.
    + exists (Clean r g). split; [done|]. destruct Hf as [Hf _], Hk as (_ & Hv & _).
      specialize (Hf e (atomics m) Hv). by rewrite Hfe in Hf.
    + by exists (Dirty g).
  - injection Hp as <- <-.
    assert (Hidle : writers_ m = 0 → quiet ts).
    { intros Hz. apply idle_quiet. pose proof (active_le ts). rewrite Hw in Hz.
      rewrite wrap_small in Hz by (unfold is_u; lia). lia. }
    destruct mode as [|r g|r g|g|g]; try done; [by exists Searching|..];
      destruct (decide (writers_ m = 0)) as [Hz|Hz].
    + rewrite Hz. exists (CleanLast r g). split; [apply Hk|apply Hf].
    + exists Searching. split; [done|]. by apply Hf.
    + rewrite Hz. exists (DirtyLast g). split; [|apply Hf].
      destruct Hk as (j & Hj & Hg & Hq & Hu). exists j. specialize (Hq (Hidle Hz)).
      split_and!; [lia|lia|done|done].
    + exists Searching. split; [done|]. by apply Hf.
  - destruct mode; try done. exists Searching. injection Hp as <- <-. done.
  - injection Hp as <- <-. destruct mode as [|r g|r g|g|g]; try done.
    + destruct (Hf (generation_ m)) as [Hclean Hdirty].
      destruct (decide (quiet ts)) as [Hq|Hq].
      * exists (Clean (visible (atomics m)) (generation_ m)). split; [|done].
        split_and!; try done. by apply Hsnap.
      * exists (Dirty (generation_ m)). split; [|done]. exists 0. rewrite Z.add_0_r.
        split_and!; [lia|lia|by rewrite wrap_small|done|done].
    + exists Searching. split; [done|]. destruct Hf as [Hsame Hother], (decide (generation_ m = g)) as [->|];
        [by apply Hsame|by apply Hother].
    + exists Searching. split; [done|]. destruct Hk as (j & Hj & Hg & Hu). apply Hf.
      rewrite Hg. apply (generation_moved g j n); [done|lia|done].
  - destruct mode; try done. exists Searching. injection Hp as <- <-. done.
  - destruct mode; try done. exists Searching. injection Hp as <- <-. done.
Qed.

(** The invariant of a run of [n] steps. *)
Record run_ok (n : Z) (s : System V A) : Prop := {
  run_sys : sys_ok s.1 s.2;
  run_threads : Z.of_nat (length s.2) < 2 ^ 32;
  run_reads : ∀ t ph p, s.2 !! t = Some (ph, p) →
    ∃ mode, knows n mode s.1 s.2 ∧ follows snapshot Q mode p
}.

Lemma run_ok_step n t e s :
  0 ≤ n < 2 ^ 64 → (quiet s.2 → snapshot (visible (atomics s.1))) →
  run_ok n s → run_ok (n + 1) (step t e s).
Proof.
  intros Hn Hsnap [Hsys Hlen Hreads]. destruct s as [m ts]. unfold step. simpl in *.
  assert (Hidle : run_ok (n + 1) (m, ts)).
  { split; [done|done|]. intros u ph p Hu. destruct (Hreads u ph p Hu) as (mode & Hk & Hf).
    exists mode. split; [|done]. destruct mode; simpl in *; try done;
      destruct Hk as (j & Hj & Hk); exists j; (split; [lia|done]). }
  destruct (ts !! t) as [[ph [a| |B access k]]|] eqn:Ht; try done.
  destruct (perform e access m) as [b m'] eqn:Hp.
  destruct (step_effect t e ts m ph B access k b m' Hsys Ht Hp) as [Hsys' Heff].
  split; simpl; [done|by rewrite length_insert|].
  intros u ph' p Hu. apply list_lookup_insert_Some in Hu as [(<- & [= <- <-] & _)|[_ Hu]].
  - destruct (Hreads t ph _ Ht) as (mode & Hk & Hf).
    eapply knows_learns in Hf as (mode1 & Hk1 & Hf1); [|done..].
    eapply knows_step; [lia|done|done|done|done].
  - destruct (Hreads u ph' p Hu) as (mode & Hk & Hf). eapply knows_step; [lia|done|done|done|done].
Qed.

Lemma run_ok_run sch n s :
  0 ≤ n → n + Z.of_nat (length sch) ≤ 2 ^ 64 →
  (∀ s1 s2, sch = s1 ++ s2 → let s' := run s1 s in quiet s'.2 → snapshot (visible (atomics s'.1))) →
  run_ok n s → run_ok (n + Z.of_nat (length sch)) (run sch s).
Proof.
  revert n s. induction sch as [|[t e] sch IH]; intros n s Hn Hlen Hsnap Hok; simpl in *.
  - by rewrite Z.add_0_r.
  - replace (n + Z.of_nat (Datatypes.S (length sch))) with (n + 1 + Z.of_nat (length sch)) by lia.
    apply IH; [lia|lia| |].
    + intros s1 s2 ->. apply (Hsnap ((t, e) :: s1) s2 eq_refl).
    + apply run_ok_step; [lia| |done]. apply (Hsnap [] ((t, e) :: sch) eq_refl).
Qed.
End Run.

(** ** Fuel

    [lasts n Q p]: [p] does not stall within [n] accesses, and what it
    answers satisfies [Q]. *)
Fixpoint lasts {V A} (n : nat) (Q : A → Prop) (p : Prog V A) {struct p} : Prop :=
  match p with
  | Done a => Q a
  | Stalled => False
  | Then access k => match n with O => True | Datatypes.S n => ∀ b, lasts n Q (k b) end
  end.

Lemma lasts_pred {V A} n (Q : A → Prop) (p : Prog V A) : lasts (S n) Q p → lasts n Q p.
Proof.
  revert n. induction p as [a| |B access k IH]; intros n Hp; [done|done|].
  destruct n as [|n]; [done|]. intros b. apply IH, Hp.
Qed.

Lemma lasts_bind {V A B} n (Q : A → Prop) (Q' : B → Prop) (p : Prog V A) k :
  lasts n Q p → (∀ a, Q a → lasts n Q' (k a)) → lasts n Q' (bind_prog p k).
Proof.
  revert n. induction p as [a| |C access k' IH]; intros n Hp Hk; simpl in *; [by apply Hk|done|].
  destruct n as [|n]; [done|]. intros b. apply IH; [apply Hp|]. intros a Ha. by apply lasts_pred, Hk.
Qed.

(** Programs without loops. *)
Fixpoint straight {V A} (Q : A → Prop) (p : Prog V A) : Prop :=
  match p with
  | Done a => Q a
  | Stalled => False
  | Then access k => ∀ b, straight Q (k b)
  end.
Lemma straight_lasts {V A} n (Q : A → Prop) (p : Prog V A) : straight Q p → lasts n Q p.
Proof.
  revert n. induction p as [a| |B access k IH]; intros n Hp; [done|done|].
  destruct n; [done|]. intros b. apply IH, Hp.
Qed.

Section Fuel.
Context {V Sum : Type} `{Number V Sum} `{!EqDecision V}.
Context (pol : Policies) (slot_id : Z) (initial : option V) (i : Instrument V).
Context (add_defined : ∀ ov a v, add_value ov a v ≠ None).

Lemma straight_failure {A} (Q : A → Prop) st why (k : Prog V A) :
  straight Q k → straight Q (record_atomic_failure pol st why k).
Proof. intros Hk. unfold record_atomic_failure. simpl. destruct (timestamps pol); simpl; auto. Qed.

Lemma straight_finish d : straight (V:=V) (λ _, True) (finish pol d).
Proof. unfold finish. destruct (timestamps pol), d; simpl; auto 20. Qed.

Lemma lasts_add_loop fuel current amount op :
  lasts fuel (λ _, True) (add_loop pol slot_id (S fuel) current amount op).
Proof.
  revert current. induction fuel as [|fuel IH]; intros current; cbn [add_loop];
    pose proof (add_defined (overflow pol) current amount);
    destruct (add_value _ _ _) as [[[next d]|why]|]; try done;
    try (apply straight_lasts, (straight_failure _ SOverflow ROverflow); simpl; auto).
  intros [[] found]; [apply straight_lasts, straight_finish|apply IH].
Qed.

Lemma lasts_get fuel no_wait :
  lasts fuel (λ r, match r with Ok _ => True | Err _ => no_wait = true end)
    (atomic_get (V:=V) pol slot_id (S fuel) no_wait).
Proof.
  set (Q := λ r : result Error (ReadingMetadata * V),
         match r with Ok rd => True | Err _ => no_wait = true end).
  induction fuel as [|fuel IH]; [done|].
  assert (Hretry : lasts fuel Q (if no_wait
    then would_block pol (Done (Err (slot_error slot_id OpTryGet SWouldBlock RWouldBlock)))
    else atomic_get pol slot_id (S fuel) no_wait)).
  { destruct no_wait; [|exact IH].
    apply straight_lasts, (straight_failure _ SWouldBlock RWouldBlock). simpl. auto. }
  intros w. destruct (negb (w =? 0)); [exact Hretry|].
  assert (Hload : ∀ n B (field : Atomics V → B) (k : B → Prog V (result Error (ReadingMetadata * V))),
    (∀ b, lasts n Q (k b)) → lasts n Q (Then (load field) k)).
  { intros n B field k Hk. destruct n; [done|]. intros b. apply lasts_pred, Hk. }
  destruct fuel as [|fuel]; [done|]. intros g. apply lasts_pred in Hretry.
  do 9 (apply Hload; intros ?). destruct fuel as [|fuel]; [done|]. intros w'. apply lasts_pred in Hretry.
  destruct (w' =? 0); [|exact Hretry].
  destruct fuel as [|fuel]; [done|]. intros again. apply lasts_pred in Hretry.
  destruct (again =? g); [done|exact Hretry].
Qed.

Lemma lasts_call fuel c :
  lasts fuel (λ _, True) (call_program pol slot_id initial i (S fuel) c).
Proof.
  destruct c; unfold call_program.
  - eapply (lasts_bind _ (λ _, True)); [|done]. unfold atomic_add.
    destruct (v_is_zero amount); [apply straight_lasts; simpl; auto|].
    destruct fuel as [|[|fuel]]; [done|by intros ?|]. intros _ current.
    do 2 apply lasts_pred. apply lasts_add_loop.
  - eapply (lasts_bind _ (λ _, True)); [|done]. apply straight_lasts. unfold atomic_set.
    destruct (negb _); [apply straight_failure; simpl; auto|]. intros _ _ _. apply (straight_finish Updated).
  - done.
  - eapply lasts_bind; [apply lasts_get|done].
  - eapply (lasts_bind _ (λ _, True)); [|done]. apply straight_lasts.
    unfold atomic_reset, end_write. simpl. auto 20.
  - eapply (lasts_bind _ (λ _, True)); [|done]. apply straight_lasts, straight_failure.
    by destruct why; simpl; auto.
  - eapply (lasts_bind _ (λ _, True)); [|done]. eapply lasts_bind; [apply lasts_get|].
    intros [[m v]|]; [|done]. intros _. apply straight_lasts. simpl. auto 20.
Qed.

Lemma lasts_thread fuel calls :
  lasts fuel (λ _, True) (thread_program pol slot_id initial i (S fuel) calls).
Proof.
  induction calls as [|c calls IH]; simpl; [done|].
  eapply lasts_bind; [apply lasts_call|]. intros answer _. by eapply lasts_bind.
Qed.

(** No thread stalls in a run shorter than the fuel. *)
Lemma lasts_step {A} n t e (s : System V A) Q :
  Forall (λ th, lasts (S n) Q th.2) s.2 → Forall (λ th, lasts n Q th.2) (step t e s).2.
Proof.
  destruct s as [m ts]. unfold step. simpl. intros Hts.
  assert (Hts' : Forall (λ th : Phase * Prog V A, lasts n Q th.2) ts)
    by (eapply Forall_impl; [done|]; intros; by apply lasts_pred).
  destruct (ts !! t) as [[ph [a| |B access k]]|] eqn:Ht; try done.
  destruct (perform e access m) as [b m'] eqn:Hp. apply Forall_insert; [done|].
  apply (Forall_lookup_1 _ _ _ _ Hts Ht).
Qed.
Lemma lasts_run {A} sch (s : System V A) n Q :
  Forall (λ th, lasts (length sch + n) Q th.2) s.2 → Forall (λ th, lasts n Q th.2) (run sch s).2.
Proof.
  revert s. induction sch as [|[t e] sch IH]; intros s Hs; simpl; [done|].
  apply IH. by apply lasts_step.
Qed.
End Fuel.
