(* ===== verification/MetricsAtomicProps.v ===== *)
(** * MetricsAtomicProps: the theorems on the atomic slot *)
From stdpp Require Import prelude.
From Stdlib Require Import Floats.SpecFloat.
From S2P Require Import Prelude Status Metrics MetricsSlots MetricsProps MetricsAtomic MetricsSeqlock.

Open Scope Z_scope.
Open Scope solar_scope.

Section Start.
Context {V Sum : Type} `{Number V Sum} `{!EqDecision V}.
Context (pol : Policies) (slot_id : Z) (initial : option V) (i : Instrument V).

(** An initialised slot and the threads that will use it. *)
Definition begin_threads (fuel : nat) (calls : list (list (AtomicCall V))) :
  System V (list (Answer V)) :=
  (atomic_initialize initial i,
   map (λ cs, start (thread_program pol slot_id initial i fuel cs)) calls).

(** A state the run has been through with no write in progress. *)
Definition was_visible {A} (sch : Schedule) (s : System V A) (rd : ReadingMetadata * V) : Prop :=
  ∃ s1 s2, sch = s1 ++ s2 ∧ quiet (run s1 s).2 ∧ rd = visible (atomics (run s1 s).1).

Lemma begin_lookup fuel calls t ph p :
  (begin_threads fuel calls).2 !! t = Some (ph, p) →
  ∃ cs, calls !! t = Some cs ∧ ph = Outside ∧ p = thread_program pol slot_id initial i fuel cs.
Proof.
  unfold begin_threads. simpl. rewrite list_lookup_fmap.
  destruct (calls !! t) as [cs|]; [|done]. intros [= <- <-]. by exists cs.
Qed.

Lemma begin_ok fuel calls : sys_ok (begin_threads fuel calls).1 (begin_threads fuel calls).2.
Proof.
  split.
  - simpl. unfold active. by induction calls.
  - done.
  - intros t ph p (cs & _ & -> & ->)%begin_lookup. apply disciplined_thread.
Qed.
End Start.

(** C14: Under every interleaving of calls by any number of threads, every reading that is returned
    (by [get] or in a [record]) is the state of the slot at a moment of the run when no write was
    in progress; and no loop goes round more often than the run has steps. *)
Theorem atomic_snapshot `{Number V Sum} `{!EqDecision V} pol slot_id initial (i : Instrument V)
    fuel calls sch :
  Z.of_nat (length calls) < 2 ^ 32 → Z.of_nat (length sch) ≤ 2 ^ 64 →
  let s := begin_threads pol slot_id initial i fuel calls in
  (∀ t ph answers, (run sch s).2 !! t = Some (ph, Done answers) →
     Forall (sound (was_visible sch s)) answers)
  ∧ ((∀ ov a v, add_value ov a v ≠ None) → (length sch < fuel)%nat →
     ∀ t ph, (run sch s).2 !! t ≠ Some (ph, Stalled)).
Proof.
  intros Hcalls Hsch s. split.
  - intros t ph answers Ht.
    assert (Hok : run_ok (was_visible sch s) (Forall (sound (was_visible sch s)))
      (0 + Z.of_nat (length sch)) (run sch s)).
    { apply run_ok_run; [lia|lia| |].
      - intros s1 s2 ->. intros Hq. by exists s1, s2.
      - split; [apply begin_ok|unfold s, begin_threads; simpl; by rewrite length_map|].
        intros u ph' p (cs & _ & -> & ->)%begin_lookup. exists Searching. split; [done|].
        apply follows_thread. }
    destruct (run_reads _ _ _ _ Hok t ph _ Ht) as (mode & _ & Hf). by destruct mode.
  - intros Hadd Hfuel t ph Ht. destruct fuel as [|fuel]; [lia|].
    assert (Hlast : Forall (λ th, lasts 0 (λ _, True) th.2) (run sch s).2).
    { apply lasts_run. rewrite Nat.add_0_r. apply Forall_lookup.
      intros u [ph' p] (cs & _ & -> & ->)%begin_lookup. simpl.
      assert (Hle : ∀ n m Q (q : Prog V (list (Answer V))), (m ≤ n)%nat → lasts n Q q → lasts m Q q).
      { intros n m Q q Hle Hq. induction Hle; [done|]. by apply IHHle, lasts_pred. }
      apply (Hle fuel); [lia|]. by apply lasts_thread. }
    by apply (Forall_lookup_1 _ _ _ _ Hlast) in Ht.
Qed.

(** ** Concurrent adds

    The books of a thread: the amounts it has added to the value, and whether
    the revision and the update count still owe the last of them. *)
Record Ledger : Set := mkLedger { committed : list Z; owes_revision : bool; owes_update : bool }.
Definition settled (c : list Z) : Ledger := mkLedger c false false.

Section Ledger.
Context `{LongDouble} (w : Z) (pol : Policies) (slot_id : Z).
#[local] Instance counted_value : Number Z Z := uint w.

Inductive books (a a' : Atomics Z) : Ledger → Ledger → Prop :=
  | books_same l : value_ a' = value_ a → revision_ a' = revision_ a → updates_ a' = updates_ a →
    books a a' l l
  | books_commit c x d : x ≠ 0 → uint_value w x →
    checked_add w (overflow pol) (value_ a) x = Ok (value_ a', d) →
    revision_ a' = revision_ a → updates_ a' = updates_ a →
    books a a' (settled c) (mkLedger (c ++ [x]) true true)
  | books_revision c u : value_ a' = value_ a → revision_ a' = inc64 (revision_ a) →
    updates_ a' = updates_ a → books a a' (mkLedger c true u) (mkLedger c false u)
  | books_update c r : value_ a' = value_ a → revision_ a' = revision_ a →
    updates_ a' = inc64 (updates_ a) → books a a' (mkLedger c r true) (mkLedger c r false).

(** [p] keeps its books, and settles them before it answers. *)
Fixpoint settles {A} (Q : A → list Z → Prop) (l : Ledger) (p : Prog Z A) {struct p} : Prop :=
  match p with
  | Done a => ∃ c, l = settled c ∧ Q a c
  | Stalled => True
  | Then access k =>
    match access in Access _ B return (Ledger → B → Prop) → Prop with
    | OnAtomics f => λ rec, ∀ e a, ∃ l', books a (f e a).2 l l' ∧ rec l' (f e a).1
    | LoadWriters | LoadGeneration => λ rec, ∀ b, rec l b
    | BeginWrite | BumpGeneration | EndWrite => λ rec, rec l tt
    end (λ l b, settles Q l (k b))
  end.

Lemma settles_bind {A B} (Q : A → list Z → Prop) (Q' : B → list Z → Prop) l p k :
  settles Q l p → (∀ a c, Q a c → settles Q' (settled c) (k a)) →
  settles Q' l (bind_prog p k).
Proof.
  intros Hp Hk. revert l Hp. induction p as [a| |C access k' IH]; intros l Hp; simpl in *.
  - destruct Hp as (c & -> & HQ). by apply Hk.
  - done.
  - destruct access; try (intros; by apply IH, Hp).
    intros e a. destruct (Hp e a) as (l' & Hb & Hs). exists l'. split; [done|]. by apply IH.
Qed.

Lemma settles_mono {A} (Q Q' : A → list Z → Prop) l p :
  settles Q l p → (∀ a c, Q a c → Q' a c) → settles Q' l p.
Proof.
  intros Hp HQ. revert l Hp. induction p as [a| |C access k IH]; intros l Hp; simpl in *.
  - destruct Hp as (c & -> & ?). eauto.
  - done.
  - destruct access; try (intros; by apply IH, Hp).
    intros e a. destruct (Hp e a) as (l' & Hb & Hs). exists l'. split; [done|]. by apply IH.
Qed.

(** An access that leaves the value and its counts alone. *)
Lemma settles_other {A B} (Q : A → list Z → Prop) l (f : Env → Atomics Z → B * Atomics Z) k :
  (∀ e a, value_ (f e a).2 = value_ a ∧ revision_ (f e a).2 = revision_ a
          ∧ updates_ (f e a).2 = updates_ a) →
  (∀ b, settles Q l (k b)) → settles Q l (Then (OnAtomics f) k).
Proof.
  intros Hf Hk e a. exists l. destruct (Hf e a) as (?&?&?). split; [by constructor|]. apply Hk.
Qed.
Ltac other := apply settles_other; [done|intros ?].

Lemma settles_failure {A} Q l st why (k : Prog Z A) :
  settles Q l k → settles Q l (record_atomic_failure pol st why k).
Proof.
  intros Hk. unfold record_atomic_failure. do 3 other. destruct (timestamps pol); [by other|done].
Qed.

Lemma settles_finish c d :
  settles (λ r c', is_ok r = true ∧ c' = c) (mkLedger c true true) (finish pol d).
Proof.
  unfold finish. intros e a. exists (mkLedger c false true). split; [by constructor|].
  intros e' a'. exists (settled c). split; [by constructor|].
  assert (Hend : ∀ r, settles (λ r c', is_ok r = true ∧ c' = c) (settled c)
    (Then (change (λ _ a, a <| last_status_ := SOk |>)) (λ _,
       epoch ↞ load epoch_; saturated ↞ load saturated_; wrapped ↞ load wrapped_;
       end_write (Done (Ok (E:=Error) (mkUpdate d r epoch saturated wrapped)))))).
  { intros r. do 4 other. simpl. by exists c. }
  destruct (timestamps pol), d; repeat (apply Hend || other).
Qed.

Lemma settles_add_loop fuel c current amount op :
  amount ≠ 0 → uint_value w amount →
  settles (λ r c', c' = c ++ (if is_ok r then [amount] else [])) (settled c)
    (add_loop pol slot_id fuel current amount op).
Proof.
  intros Hnz Hu. revert current. induction fuel as [|fuel IH]; intros current; [done|].
  simpl. destruct (checked_add w (overflow pol) current amount) as [[next d]|why] eqn:Hadd.
  - intros e a. simpl. destruct (bool_decide (value_ a = current) && negb (env_spurious e)) eqn:Hcas.
    + exists (mkLedger (c ++ [amount]) true true). simpl. split.
      * eapply (books_commit _ _ c amount d); try done. simpl.
        by apply andb_true_iff in Hcas as [->%bool_decide_eq_true _].
      * exact (settles_mono _ _ _ _ (settles_finish _ d) (λ r c' '(conj Hr Hc),
          eq_trans Hc (f_equal (λ b : bool, c ++ (if b then [amount] else [])) (eq_sym Hr)))).
    + exists (settled c). split; [by constructor|]. apply IH.
  - apply (settles_failure _ _ SOverflow ROverflow). other. simpl. exists c.
    by rewrite app_nil_r.
Qed.

(** What a call adds when it answers [a]. *)
Definition adds (call : AtomicCall Z) (a : Answer Z) : list Z :=
  match call, a with
  | CallAdd amount _, AnsweredUpdate (Ok _) => if decide (amount = 0) then [] else [amount]
  | _, _ => []
  end.
(** Calls that may run together with adds: all but [set] and [reset]. *)
Definition additive (call : AtomicCall Z) : Prop :=
  match call with
  | CallAdd amount _ => uint_value w amount
  | CallSet _ _ | CallReset => False
  | _ => True
  end.

Lemma settles_get fuel no_wait c :
  settles (λ _ c', c' = c) (settled c) (atomic_get (V:=Z) pol slot_id fuel no_wait).
Proof.
  induction fuel as [|fuel IH]; [done|]. intros writers.
  assert (Hretry : settles (λ _ c', c' = c) (settled c) (if no_wait
    then would_block pol
      (Done (Err (A:=ReadingMetadata * Z) (slot_error slot_id OpTryGet SWouldBlock RWouldBlock)))
    else atomic_get (V:=Z) pol slot_id fuel no_wait)).
  { destruct no_wait; [|done]. apply settles_failure. other. by exists c. }
  destruct (negb _); [exact Hretry|]. intros generation. do 9 other. intros writers'.
  destruct (writers' =? 0); [|exact Hretry]. intros again.
  destruct (again =? generation); [by exists c|exact Hretry].
Qed.

Lemma settles_call fuel initial i call c :
  additive call →
  settles (λ a c', c' = c ++ adds call a) (settled c)
    (call_program pol slot_id initial i fuel call).
Proof.
  intros Hadd. destruct call; try done; unfold call_program.
  - unfold atomic_add. simpl in Hadd. destruct (decide (amount = 0)) as [->|Hnz].
    + do 4 other. exists c. simpl. by rewrite app_nil_r.
    + destruct (v_is_zero amount) eqn:Hz; [by destruct amount|].
      eapply settles_bind; [intros e a; exists (settled c); split; [by constructor|];
        by apply settles_add_loop|].
      intros r c' ->. exists (c ++ (if is_ok r then [amount] else [])). split; [done|].
      simpl. by destruct r; rewrite ?decide_False by done.
  - exists c. simpl. by rewrite app_nil_r.
  - eapply settles_bind; [apply settles_get|]. intros r c' ->. exists c. simpl. by rewrite app_nil_r.
  - eapply settles_bind with (Q := λ _ c', c' = c).
    + unfold atomic_reject. apply settles_failure. destruct why; repeat other; by exists c.
    + intros r c' ->. exists c. simpl. by rewrite app_nil_r.
  - eapply settles_bind with (Q := λ _ c', c' = c).
    + unfold atomic_record. eapply settles_bind; [apply settles_get|].
      intros [[m v]|] c' ->; [|done]. repeat other. by exists c.
    + intros r c' ->. exists c. simpl. by rewrite app_nil_r.
Qed.

(** The amounts a thread has added when it answers. *)
Definition all_adds (calls : list (AtomicCall Z)) (answers : list (Answer Z)) : list Z :=
  concat (zip_with adds calls answers).

Lemma settles_thread fuel initial i calls c :
  Forall additive calls →
  settles (λ answers c', c' = c ++ all_adds calls answers) (settled c)
    (thread_program pol slot_id initial i fuel calls).
Proof.
  intros Hall. revert c. induction Hall as [|call calls Hc _ IH]; intros c; simpl.
  - exists c. by rewrite app_nil_r.
  - eapply settles_bind; [by apply settles_call|]. intros a c1 ->.
    eapply settles_bind; [apply IH|]. intros answers c2 ->. simpl.
    exists ((c ++ adds call a) ++ all_adds calls answers). split; [done|].
    unfold all_adds. simpl. by rewrite app_assoc.
Qed.

(** *** All threads together *)
Definition summed (f : Ledger → Z) (ls : list Ledger) : Z := foldr (λ l n, f l + n) 0 ls.
Lemma summed_insert f ls t l l' :
  ls !! t = Some l → summed f (<[t := l']> ls) = summed f ls - f l + f l'.
Proof.
  revert t. induction ls as [|l0 ls IH]; intros [|t] Ht; simplify_eq/=; [lia|]. rewrite IH; [lia|done].
Qed.

(** The value after adding [t] altogether. *)
Definition value_for (t v : Z) : Prop :=
  match overflow pol with
  | Saturate => v = Z.min t (2 ^ w - 1)
  | Reject => v = t ∧ t ≤ 2 ^ w - 1
  | Wrap => v = wrap w t
  end.
Lemma value_for_add t v x v' d :
  0 ≤ w → 0 ≤ t → uint_value w x → value_for t v →
  checked_add w (overflow pol) v x = Ok (v', d) → value_for (t + x) v'.
Proof.
  intros Hw Ht [Hx Hx'] Hv Hadd. unfold value_for in *.
  assert (0 < 2 ^ w) by (apply Z.pow_pos_nonneg; lia).
  assert (0 ≤ v < 2 ^ w).
  { destruct (overflow pol); [lia|lia|]. subst v. by apply wrap_range. }
  rewrite checked_add_spec in Hadd by lia.
  destruct (overflow pol), (decide _); simplify_eq; try lia.
  - destruct (wrap_again w t x) as [Heq _]; [lia..|].
    by rewrite <-Heq, (wrap_small w (wrap w t + x)) by (unfold is_u; lia).
  - by destruct (wrap_again w t x) as [Heq _]; [lia..|].
Qed.

Context (calls : list (list (AtomicCall Z))).

(** The slot's value and counts, from the ledgers of the threads. *)
Record booked (s : System Z (list (Answer Z))) (ls : list Ledger) : Prop := {
  booked_value : value_for (summed (λ l, total (committed l)) ls) (value_ (atomics s.1));
  booked_revision : revision_ (atomics s.1)
    = u64 (summed (λ l, Z.of_nat (length (committed l)) - Z.b2z (owes_revision l)) ls);
  booked_updates : updates_ (atomics s.1)
    = u64 (summed (λ l, Z.of_nat (length (committed l)) - Z.b2z (owes_update l)) ls);
  booked_amounts : Forall (λ l, Forall (uint_value w) (committed l)) ls;
  booked_length : length ls = length s.2;
  booked_threads t ph p : s.2 !! t = Some (ph, p) →
    ∃ cs l, calls !! t = Some cs ∧ ls !! t = Some l ∧
      settles (λ answers c, c = all_adds cs answers) l p
}.

Lemma booked_total_nonneg ls :
  Forall (λ l, Forall (uint_value w) (committed l)) ls →
  0 ≤ summed (λ l, total (committed l)) ls.
Proof.
  induction 1 as [|l ls Hl _ IH]; simpl; [lia|].
  pose proof (uint_total_nonneg w (committed l) Hl). lia.
Qed.

(** One thread's books, when it makes an access. *)
Lemma booked_books s ls t l l' a' :
  0 ≤ w → booked s ls → ls !! t = Some l → books (atomics s.1) a' l l' →
  let ls' := <[t := l']> ls in
  value_for (summed (λ l, total (committed l)) ls') (value_ a')
  ∧ revision_ a' = u64 (summed (λ l, Z.of_nat (length (committed l)) - Z.b2z (owes_revision l)) ls')
  ∧ updates_ a' = u64 (summed (λ l, Z.of_nat (length (committed l)) - Z.b2z (owes_update l)) ls')
  ∧ Forall (λ l, Forall (uint_value w) (committed l)) ls'.
Proof.
  intros Hw [Hv Hr Hu Ha _ _] Hl Hb ls'. subst ls'. rewrite !(summed_insert _ ls t l l' Hl).
  pose proof (Forall_lookup_1 _ _ _ _ Ha Hl) as Hal. simpl in Hal.
  assert (Hins : Forall (uint_value w) (committed l') →
    Forall (λ l, Forall (uint_value w) (committed l)) (<[t := l']> ls))
    by (intros; by apply Forall_insert).
  destruct Hb as [l Hv' Hr' Hu'|c x d Hx Hux Hadd Hr' Hu'|c u Hv' Hr' Hu'|c r Hv' Hr' Hu']; simpl in *.
  - rewrite Hv', Hr', Hu', !Z.sub_add. auto.
  - split_and!; [| | |apply Hins; apply Forall_app; auto].
    + rewrite total_snoc. eapply value_for_add in Hadd; [|done| |done|exact Hv].
      * replace (_ - _ + _) with (summed (λ l, total (committed l)) ls + x) by lia. exact Hadd.
      * by apply booked_total_nonneg.
    + rewrite Hr', Hr, length_app. f_equal. simpl. lia.
    + rewrite Hu', Hu, length_app. f_equal. simpl. lia.
  - split_and!; [|rewrite Hr', Hr, inc64_u64; f_equal; lia|rewrite Hu', Hu; f_equal; lia|auto].
    by rewrite Hv', Z.sub_add.
  - split_and!; [|rewrite Hr', Hr; f_equal; lia|rewrite Hu', Hu, inc64_u64; f_equal; lia|auto].
    by rewrite Hv', Z.sub_add.
Qed.

Lemma booked_step t e s ls :
  0 ≤ w → booked s ls → ∃ ls', booked (step t e s) ls'.
Proof.
  intros Hw Hb. destruct s as [m ts]. unfold step. simpl.
  destruct (ts !! t) as [[ph [a| |B access k]]|] eqn:Ht; [by exists ls..| |by exists ls].
  destruct (booked_threads _ _ Hb t ph _ Ht) as (cs & l & Hcs & Hl & Hs).
  destruct (perform e access m) as [b m'] eqn:Hp.
  assert (Hnext : ∃ l', books (atomics m) (atomics m') l l' ∧
    settles (λ answers c, c = all_adds cs answers) l' (k b)).
  { destruct access; simpl in Hp, Hs.
    - destruct (f e (atomics m)) as [b1 a1] eqn:Hf. injection Hp as <- <-. simpl.
      destruct (Hs e (atomics m)) as (l' & Hbk & Hk). rewrite Hf in *. by exists l'.
    - injection Hp as <- <-. exists l. by split; [constructor|].
    - injection Hp as <- <-. exists l. by split; [constructor|].
    - injection Hp as <- <-. exists l. by split; [constructor|].
    - injection Hp as <- <-. exists l. by split; [constructor|].
    - injection Hp as <- <-. exists l. by split; [constructor|]. }
  destruct Hnext as (l' & Hbk & Hk).
  destruct (booked_books (m, ts) ls t l l' (atomics m') Hw Hb Hl Hbk) as (H1 & H2 & H3 & H4).
  exists (<[t := l']> ls). split; simpl; try done.
  - rewrite !length_insert. apply (booked_length _ _ Hb).
  - intros u ph' p' Hu. apply list_lookup_insert_Some in Hu as [(<- & [= <- <-] & _)|[Hne Hu]].
    + exists cs, l'. split_and!; [done| |done]. apply list_lookup_insert_eq. by eapply lookup_lt_Some.
    + destruct (booked_threads _ _ Hb u ph' p' Hu) as (cs' & l1 & ? & ? & ?).
      exists cs', l1. by rewrite list_lookup_insert_ne.
Qed.

Lemma booked_run sch s ls : 0 ≤ w → booked s ls → ∃ ls', booked (run sch s) ls'.
Proof.
  intros Hw. revert s ls. induction sch as [|[t e] sch IH]; intros s ls Hb; simpl; [by exists ls|].
  destruct (booked_step t e s ls Hw Hb) as [ls1 Hb1]. by eapply IH.
Qed.

Lemma summed_settled f n : f (settled []) = 0 → summed f (replicate n (settled [])) = 0.
Proof. intros Hf. induction n; simpl; lia. Qed.

Lemma booked_begin fuel initial :
  0 ≤ w → Forall (Forall additive) calls →
  booked (begin_threads pol slot_id initial Counter fuel calls)
    (replicate (length calls) (settled [])).
Proof.
  intros Hw Hadd. assert (0 < 2 ^ w) by (apply Z.pow_pos_nonneg; lia).
  split; rewrite ?(summed_settled _ _ eq_refl); simpl; try done.
  - unfold value_for. destruct (overflow pol); [lia|lia|done].
  - apply Forall_replicate. by constructor.
  - by rewrite length_replicate, length_map.
  - intros t ph p (cs & Hcs & -> & ->)%begin_lookup. exists cs, (settled []).
    split_and!; [done|by apply lookup_replicate_2, (lookup_lt_Some _ _ _ Hcs)|].
    apply (settles_thread fuel initial Counter cs []). by apply (Forall_lookup_1 _ _ _ _ Hadd Hcs).
Qed.

(** What the threads' ledgers sum to when all have answered. *)
Lemma booked_end s ls answers :
  booked s ls → s.2 = map (λ a, (Outside, Done a)) answers → length answers = length calls →
  let added := concat (zip_with all_adds calls answers) in
  summed (λ l, total (committed l)) ls = total added
  ∧ summed (λ l, Z.of_nat (length (committed l)) - Z.b2z (owes_revision l)) ls
    = Z.of_nat (length added)
  ∧ summed (λ l, Z.of_nat (length (committed l)) - Z.b2z (owes_update l)) ls
    = Z.of_nat (length added).
Proof.
  intros [_ _ _ _ Hlen Hts] Hs2 Hans. rewrite Hs2 in *. rewrite length_map in Hlen.
  assert (Hls : ls = map settled (zip_with all_adds calls answers)).
  { apply list_eq. intros t. destruct (answers !! t) as [a|] eqn:Ha.
    - destruct (Hts t Outside (Done a)) as (cs & l & Hcs & Hl & c & -> & ->).
      { by rewrite list_lookup_fmap, Ha. }
      rewrite Hl, list_lookup_fmap, lookup_zip_with, Hcs. simpl. by rewrite Ha.
    - apply lookup_ge_None in Ha as Hge. rewrite (lookup_ge_None_2 ls) by lia.
      rewrite list_lookup_fmap, lookup_zip_with, Ha. by destruct (calls !! t). }
  subst ls. clear. induction (zip_with all_adds calls answers) as [|c cs IH]; [done|].
  simpl in *. destruct IH as (IH1 & IH2 & IH3). rewrite IH1, IH2, IH3, total_app, length_app.
  simpl. lia.
Qed.
End Ledger.

(** C15: Any number of threads may add to a counter at once, with readings, rejections and records
    between.  When all have returned, the value is what the policy makes of the total of the
    accepted amounts, none lost and none counted twice, and the revision and update count are the
    number of accepted amounts (an addition of zero changes neither). *)
Theorem atomic_counter_total `{LongDouble} w pol slot_id initial fuel calls sch answers :
  0 ≤ w → Forall (Forall (additive w)) calls →
  let s := run sch (begin_threads (H:=uint w) pol slot_id initial Counter fuel calls) in
  length answers = length calls → s.2 = map (λ a, (Outside, Done a)) answers →
  let added := concat (zip_with all_adds calls answers) in
  value_for w pol (total added) (value_ (atomics s.1))
  ∧ revision_ (atomics s.1) = u64 (Z.of_nat (length added))
  ∧ updates_ (atomics s.1) = u64 (Z.of_nat (length added)).
Proof.
  intros Hw Hadd s Hlen Hend added.
  destruct (booked_run w pol calls sch _ _ Hw (booked_begin w pol slot_id calls fuel initial Hw Hadd))
    as [ls Hb].
  destruct (booked_end w pol calls s ls answers Hb Hend Hlen) as (Ht & Hr & Hu).
  destruct Hb as [Hv Hrev Hupd _ _ _]. rewrite Ht in Hv. rewrite Hr in Hrev. rewrite Hu in Hupd. done.
Qed.

(** ** Progress

    A thread that runs alone. *)
Fixpoint solo {V A} (es : list Env) (m : Memory V) (ph : Phase) (p : Prog V A) :
  Memory V * (Phase * Prog V A) :=
  match es, p with
  | e :: es, Then access k =>
    let '(b, m') := perform e access m in solo es m' (phase_after access ph) (k b)
  | _, _ => (m, (ph, p))
  end.

Lemma run_solo {V A} t es m (ts : list (Phase * Prog V A)) ph p :
  ts !! t = Some (ph, p) →
  run (map (pair t) es) (m, ts) = let '(m', x) := solo es m ph p in (m', <[t := x]> ts).
Proof.
  revert m ts ph p. induction es as [|e es IH]; intros m ts ph p Ht; simpl.
  { destruct p; by rewrite list_insert_id. }
  unfold step. simpl. rewrite Ht. destruct p as [a| |B access k].
  1,2: rewrite (IH _ _ _ _ Ht); by destruct es; simpl.
  destruct (perform e access m) as [b m'].
  rewrite (IH m' _ (phase_after access ph) (k b)).
  - destruct (solo es m' (phase_after access ph) (k b)) as [m2 x].
    by rewrite list_insert_insert_eq.
  - apply list_lookup_insert_eq. by eapply lookup_lt_Some.
Qed.

(** [p] answers within [n] accesses of its own, none of which fails without
    cause, and [Q] holds of the answer and the memory it leaves. *)
Fixpoint ends {V A} (n : nat) (Q : A → Memory V → Prop) (ph : Phase) (p : Prog V A) (m : Memory V)
    {struct p} : Prop :=
  match p with
  | Done a => ph = Outside ∧ Q a m
  | Stalled => False
  | Then access k =>
    match n with
    | O => False
    | Datatypes.S n => ∀ e, env_spurious e = false →
      ends n Q (phase_after access ph) (k (perform e access m).1) (perform e access m).2
    end
  end.

Lemma ends_solo {V A} n Q ph (p : Prog V A) m es :
  ends n Q ph p m → (n ≤ length es)%nat → Forall (λ e, env_spurious e = false) es →
  ∃ a m', solo es m ph p = (m', (Outside, Done a)) ∧ Q a m'.
Proof.
  revert n ph m es. induction p as [a| |B access k IH]; intros n ph m es Hp Hn Hes; simpl in Hp.
  - destruct Hp as [-> HQ]. exists a, m. by destruct es.
  - done.
  - destruct n as [|n]; [done|]. destruct Hes as [|e es He Hes]; simpl in Hn; [lia|].
    specialize (Hp e He). simpl. destruct (perform e access m) as [b m']. simpl in Hp.
    eapply IH; [exact Hp|lia|done].
Qed.

Section Ends.
Context {A B : Type} (Q : A → Memory Z → Prop).

(** The atomics do not matter to how long a straight program takes. *)
Lemma ends_atomics n ph (f : Env → Atomics Z → B * Atomics Z) (k : B → Prog Z A) a w g :
  (∀ b a', ends n Q ph (k b) (mkMemory a' w g)) →
  ends (S n) Q ph (Then (OnAtomics f) k) (mkMemory a w g).
Proof. intros Hk e He. simpl. destruct (f e a) as [b a']. apply Hk. Qed.
Lemma ends_more n n' ph (p : Prog Z A) m : ends n Q ph p m → (n ≤ n')%nat → ends n' Q ph p m.
Proof.
  revert n n' ph m. induction p as [a| |C access k IH]; intros n n' ph m Hp Hn; try done.
  destruct n as [|n]; [done|]. destruct n' as [|n']; [lia|]. intros e He.
  eapply IH; [by apply Hp|lia].
Qed.
End Ends.

Lemma ends_end {A} (Q : A → Memory Z → Prop) (p : Prog Z A) a w g :
  (∀ g', ends 0 Q Outside p (mkMemory a (u32 (w - 1)) g')) →
  ends 2 Q Inside (end_write p) (mkMemory a w g).
Proof. intros Hp e _ e' _. apply Hp. Qed.

Lemma ends_finish pol d a w g {A} (Q : A → Memory Z → Prop) k :
  (∀ up a' g', ends 0 Q Outside (k (Ok up)) (mkMemory a' (u32 (w - 1)) g')) →
  ends 12 Q Inside (bind_prog (finish pol d) k) (mkMemory a w g).
Proof.
  intros Hk.
  assert (Hlast : ∀ revision a, ends 6 Q Inside (bind_prog
    (Then (change (λ _ a, a <| last_status_ := SOk |>)) (λ _,
       epoch ↞ load epoch_; saturated ↞ load saturated_; wrapped ↞ load wrapped_;
       end_write (Done (Ok (E:=Error) (mkUpdate d revision epoch saturated wrapped))))) k)
    (mkMemory a w g)).
  { intros revision a0. do 4 (apply ends_atomics; intros ??). apply (ends_end Q (k _)). intros g'. apply Hk. }
  unfold finish. do 2 (apply ends_atomics; intros ??).
  destruct (timestamps pol), d;
    repeat (eapply ends_more; [apply Hlast|lia] || (apply ends_atomics; intros ??)).
Qed.
(** C16: A reader is only held up by writers: from any state in which no write is in progress, a
    thread about to read returns the state of the slot after thirteen of its own steps, if it runs
    alone that long; and an adder whose exchange does not fail without cause is done after at most
    fifteen, having added or been refused by the policy. *)
Theorem atomic_progress `{LongDouble} w pol slot_id t m ts fuel op :
  (∀ ph k no_wait es, writers_ m = 0 → length es = 13%nat →
     ts !! t = Some (ph, bind_prog (atomic_get (V:=Z) pol slot_id (S fuel) no_wait) k) →
     run (map (pair t) es) (m, ts)
     = (m, <[t := (ph, k (Ok (visible (atomics m))))]> ts : list (Phase * Prog Z (list (Answer Z)))))
  ∧ (∀ k amount es, amount ≠ 0 → length es = 15%nat → Forall (λ e, env_spurious e = false) es →
     ts !! t = Some (Outside, bind_prog (atomic_add (H:=uint w) pol slot_id (S fuel) amount op) k) →
     (∀ r, ∃ a, k r = Done a) →
     ∃ r, (run (map (pair t) es) (m, ts)).2 !! t = Some (Outside, k r)
       ∧ (is_ok r = is_ok (checked_add w (overflow pol) (value_ (atomics m)) amount))
       ∧ writers_ (run (map (pair t) es) (m, ts)).1 = u32 (inc32 (writers_ m) - 1)).
Proof.
  split.
  - intros ph k no_wait es Hw Hes Ht. rewrite (run_solo t es m ts ph _ Ht).
    destruct m as [a wr g]. simpl in Hw. subst wr. do 13 (destruct es as [|? es]; [done|]).
    destruct es; [|done]. simpl. rewrite Z.eqb_refl. simpl. done.
  - intros k amount es Hnz Hes Hsp Ht Hk. rewrite (run_solo t es m ts Outside _ Ht).
    pose proof (lookup_lt_Some _ _ _ Ht) as Hlt.
    destruct m as [a wr g].
    set (Q := λ (ans : list (Answer Z)) (m' : Memory Z), ∃ r, k r = Done ans
      ∧ is_ok r = is_ok (checked_add w (overflow pol) (value_ a) amount)
      ∧ writers_ m' = u32 (inc32 wr - 1)).
    destruct (ends_solo 15 Q Outside (bind_prog (atomic_add (H:=uint w) pol slot_id (S fuel) amount op) k)
      (mkMemory a wr g) es) as (ans & m' & -> & r & Hr & Hok & Hwr); [|lia|done|].
    + assert (Hends : ∀ r a' g', is_ok r = is_ok (checked_add w (overflow pol) (value_ a) amount) →
        ends 0 Q Outside (k r) (mkMemory a' (u32 (inc32 wr - 1)) g')).
      { intros r a' g' Hr. destruct (Hk r) as [ans Hans]. rewrite Hans. split; [done|]. by exists r. }
      unfold atomic_add. destruct (v_is_zero amount) eqn:Hz; [by destruct amount|].
      intros e1 _ e2 _. simpl perform. cbn [fst snd phase_after bind_prog add_loop].
      change (add_value (overflow pol) (value_ a) amount)
        with (Some (checked_add w (overflow pol) (value_ a) amount)).
      destruct (checked_add w (overflow pol) (value_ a) amount) as [[next d]|why] eqn:Hadd.
      * intros e3 He3. simpl perform. rewrite bool_decide_true, He3 by done.
        apply ends_finish. intros. by apply Hends.
      * unfold record_atomic_failure. do 3 (apply ends_atomics; intros ??).
        destruct (timestamps pol); [apply ends_atomics; intros ??|];
          apply ends_atomics; intros ??; (eapply ends_more; [apply (ends_end Q (k _))|lia]);
          intros g'; by apply Hends.
    + exists r. simpl. rewrite list_lookup_insert_eq by done. by rewrite Hr.
Qed.

(** ** Examples *)
#[local] Instance extended : LongDouble := {| ld_prec := 64; ld_emax := 16384; nan_signbit := true |}.
Definition busy_env : Env := mkEnv 42 false.
Definition turns (t n : nat) : Schedule := replicate n (t, busy_env).
Definition adding : list (AtomicCall Z) := [CallAdd 200 OpAdd; CallAdd 100 OpAdd].
(** The reader waits while the first add is in progress. *)
Definition waiting_reader : Schedule := turns 0 3 ++ turns 1 20 ++ turns 0 40 ++ turns 1 20.
(** Two adders whose exchanges collide. *)
Definition colliding : Schedule := turns 0 2 ++ turns 1 2 ++ turns 0 40 ++ turns 1 40.

Lemma atomic_snapshot_witness :
  let s := begin_threads (H:=uint 8) saturating 3 None Counter 100 [adding; [CallGet false]] in
  match (run waiting_reader s).2 !! 1%nat with
  | Some (_, Done answers) =>
    Forall (sound (was_visible waiting_reader s)) answers
    ∧ match answers with
      | [AnsweredReading (Ok rd)] => rd.2 = 255 ∧ reading_revision rd.1 = 2
      | _ => False
      end
  | _ => False
  end.
Proof.
  intros s. destruct ((run waiting_reader s).2 !! 1%nat) as [[ph [answers| |B access k]]|] eqn:Ht.
  - split.
    + destruct (atomic_snapshot (H:=uint 8) saturating 3 None Counter 100 [adding; [CallGet false]]
        waiting_reader) as [Hsound _]; [simpl; lia|simpl; lia|]. exact (Hsound 1%nat ph answers Ht).
    + vm_compute in Ht. by injection Ht as _ <-.
  - by vm_compute in Ht.
  - by vm_compute in Ht.
  - by vm_compute in Ht.
Defined.

Lemma atomic_counter_total_witness :
  let calls := [adding; adding] in
  let s := run colliding (begin_threads (H:=uint 8) saturating 3 None Counter 100 calls) in
  value_for 8 saturating 600 (value_ (atomics s.1)) ∧ revision_ (atomics s.1) = 4
  ∧ updates_ (atomics s.1) = 4.
Proof.
  intros calls s.
  destruct (atomic_counter_total 8 saturating 3 None 100 calls colliding
    (let answer r := AnsweredUpdate (Ok (mkUpdate r.1.1 r.1.2 0 r.2 false)) in
     [[answer (Updated, 1, false); answer (Saturated, 2, true)];
      [answer (Saturated, 3, true); answer (Saturated, 4, true)]])) as (Hv & Hr & Hu).
  - done.
  - repeat (apply Forall_cons; split); try done.
  - done.
  - by vm_compute.
  - split; [exact Hv|]. split; [exact Hr|exact Hu].
Defined.

Lemma atomic_progress_witness :
  let m := atomic_initialize (H:=uint 8) None Counter in
  let k : result Error Update → Prog Z (list (Answer Z)) := λ r, Done [AnsweredUpdate r] in
  let ts := [(Outside, bind_prog (atomic_add (H:=uint 8) saturating 3 2 77 OpAdd) k)] in
  ∃ r, (run (map (pair 0%nat) (replicate 15 busy_env)) (m, ts)).2 !! 0%nat = Some (Outside, k r)
    ∧ is_ok r = is_ok (checked_add 8 Saturate 0 77)
    ∧ writers_ (run (map (pair 0%nat) (replicate 15 busy_env)) (m, ts)).1 = u32 (inc32 0 - 1).
Proof.
  intros m k ts. apply (proj2 (atomic_progress 8 saturating 3 0 m ts 1 OpAdd) k 77); [done|done| |done|].
  - by apply Forall_replicate.
  - intros r. by eexists.
Defined.
