(* ===== verification/Interleave.v ===== *)
(** * Interleave: programs of atomic steps and their interleavings

    A concurrent operation of the code is a program: a tree of steps, each an
    atomic change of the shared state that may look at its environment (the
    clock, an interrupt flag, what another component answers).  A schedule
    names the thread of each step and gives its environment.  [safe] is the
    proof rule the components use: every thread owns a piece of auxiliary
    state, an invariant ties all the pieces to the shared state, and a step
    of a thread may change its own piece only. *)
From stdpp Require Import prelude.
From S2P Require Import Prelude.

Open Scope solar_scope.

Section Programs.
Context {E S : Type}.

(** [Stalled] is a loop that has used up the fuel of its model; its thread
    takes no further step. *)
Inductive Prog (A : Type) : Type :=
  | Done (a : A)
  | Stalled
  | Then (B : Type) (f : E → S → B * S) (k : B → Prog A).
Arguments Done {A} a. Arguments Stalled {A}. Arguments Then {A B} f k.

Fixpoint bind {A B} (p : Prog A) (k : A → Prog B) : Prog B :=
  match p with
  | Done a => k a
  | Stalled => Stalled
  | Then f k' => Then f (λ b, bind (k' b) k)
  end.

(** One step of a thread, and a run of the whole system. *)
Definition step {A} (t : nat) (e : E) (s : S * list (Prog A)) : S * list (Prog A) :=
  match s.2 !! t with
  | Some (Then f k) => let '(b, s') := f e s.1 in (s', <[t := k b]> s.2)
  | _ => s
  end.

Definition run {A} (sch : list (nat * E)) (s : S * list (Prog A)) : S * list (Prog A) :=
  foldl (λ s te, step te.1 te.2 s) s sch.

(** A program that runs without interference, in an environment that does
    not change. *)
Fixpoint alone {A} (e : E) (p : Prog A) (s : S) : option (A * S) :=
  match p with
  | Done a => Some (a, s)
  | Stalled => None
  | Then f k => let '(b, s') := f e s in alone e (k b) s'
  end.

Lemma alone_bind {A B} e (p : Prog A) (k : A → Prog B) s :
  alone e (bind p k) s = (alone e p s) ≫= λ '(a, s'), alone e (k a) s'.
Proof. revert s. induction p as [a| |C f k' IH]; intros s; simpl; [done..|]. by destruct (f e s). Qed.

(** A program without a loop that can use up its fuel. *)
Fixpoint finishes {A} (p : Prog A) : Prop :=
  match p with Done _ => True | Stalled => False | Then f k => ∀ b, finishes (k b) end.
Lemma finishes_bind {A B} (p : Prog A) (k : A → Prog B) : finishes p → (∀ a, finishes (k a)) → finishes (bind p k).
Proof. intros Hp Hk. induction p as [a| |C f k' IH]; simpl in *; auto. Qed.
Lemma finishes_alone {A} e (p : Prog A) s : finishes p → is_Some (alone e p s).
Proof. revert s. induction p as [a| |C f k IH]; intros s Hp; simpl in *; [done..|]. destruct (f e s). by apply IH. Qed.

(** ** Safety of a thread *)
Section Logic.
Context {G : Type} (I : list G → S → Prop) (assumed : E → Prop).

Fixpoint safe {A} (t : nat) (Q : G → A → Prop) (g : G) (p : Prog A) : Prop :=
  match p with
  | Done a => Q g a
  | Stalled => True
  | Then f k => ∀ e s gs, assumed e → gs !! t = Some g → I gs s →
      ∃ g', I (<[t := g']> gs) (f e s).2 ∧ safe t Q g' (k (f e s).1)
  end.

Lemma safe_mono {A} t (Q R : G → A → Prop) g (p : Prog A) :
  (∀ g a, Q g a → R g a) → safe t Q g p → safe t R g p.
Proof.
  intros HQR. revert g. induction p as [a| |B f k IH]; intros g Hp; simpl in *; [by apply HQR|done|].
  intros e s gs He Hg HI. destruct (Hp e s gs He Hg HI) as (g' & ? & ?). exists g'. auto.
Qed.

Lemma safe_bind {A B} t Q g (p : Prog A) (k : A → Prog B) :
  safe t (λ g a, safe t Q g (k a)) g p → safe t Q g (bind p k).
Proof.
  revert g. induction p as [a| |C f k' IH]; intros g Hp; simpl in *; [done..|].
  intros e s gs He Hg HI. destruct (Hp e s gs He Hg HI) as (g' & ? & ?). exists g'. auto.
Qed.

(** All threads are safe, each for its own conclusion. *)
Definition all_safe {A} (Q : nat → G → A → Prop) (s : S * list (Prog A)) : Prop :=
  ∃ gs, I gs s.1 ∧ length gs = length s.2
    ∧ ∀ t p, s.2 !! t = Some p → ∃ g, gs !! t = Some g ∧ safe t (Q t) g p.

Lemma all_safe_step {A} (Q : nat → G → A → Prop) t e s :
  assumed e → all_safe Q s → all_safe Q (step t e s).
Proof.
  intros He (gs & HI & Hlen & Hall). unfold step.
  destruct (s.2 !! t) as [[a| |B f k]|] eqn:Ht; try by exists gs.
  destruct (Hall _ _ Ht) as (g & Hg & Hsafe). simpl in Hsafe.
  destruct (Hsafe e s.1 gs He Hg HI) as (g' & HI' & Hk).
  destruct (f e s.1) as [b s'] eqn:Hf. exists (<[t := g']> gs). simpl in *.
  split; [done|]. split; [by rewrite !length_insert|].
  intros u p Hu. destruct (decide (u = t)) as [->|Hne].
  - rewrite list_lookup_insert_eq in Hu by (by eapply lookup_lt_Some). simplify_eq.
    exists g'. split; [|done]. apply list_lookup_insert_eq. by eapply lookup_lt_Some.
  - rewrite list_lookup_insert_ne in Hu by done. rewrite list_lookup_insert_ne by done. by apply Hall.
Qed.

Lemma all_safe_run {A} (Q : nat → G → A → Prop) sch s :
  Forall (λ te, assumed te.2) sch → all_safe Q s → all_safe Q (run sch s).
Proof.
  intros Hsch. revert s. induction Hsch as [|[t e] sch He Hsch IH]; intros s Hs; [done|].
  simpl. apply IH. by apply all_safe_step.
Qed.

(** A program all of whose steps are changes [R] that the invariant does not
    notice. *)
Fixpoint frames (R : S → S → Prop) {A} (p : Prog A) : Prop :=
  match p with
  | Then f k => (∀ e s, R s (f e s).2) ∧ ∀ b, frames R (k b)
  | _ => True
  end.

Lemma frames_bind (R : S → S → Prop) {A B} (p : Prog A) (k : A → Prog B) :
  frames R p → (∀ a, frames R (k a)) → frames R (bind p k).
Proof. intros Hp Hk. induction p as [a| |C f k' IH]; simpl in *; [done..|]. naive_solver. Qed.

Lemma frames_mono (R R' : S → S → Prop) {A} (p : Prog A) : (∀ s s', R s s' → R' s s') → frames R p → frames R' p.
Proof.
  intros HR Hp. induction p as [a| |C f k IH]; simpl in *; [done..|]. destruct Hp as [Hf Hk].
  split; [intros e s; apply HR, Hf|intros b; apply IH, Hk].
Qed.

Lemma safe_frames (R : S → S → Prop) {A} t g (p : Prog A) :
  (∀ gs s s', I gs s → R s s' → I gs s') → frames R p → safe t (λ g' _, g' = g) g p.
Proof.
  intros HR. induction p as [a| |B f k IH]; simpl; [done..|]. intros [Hf Hk] e s gs _ Hg HI.
  exists g. rewrite list_insert_id by done. split; [by eapply HR|]. by apply IH.
Qed.

Lemma safe_frames_bind (R : S → S → Prop) {A B} t Q g (p : Prog A) (k : A → Prog B) :
  (∀ gs s s', I gs s → R s s' → I gs s') → frames R p → (∀ a, safe t Q g (k a)) →
  safe t Q g (bind p k).
Proof.
  intros HR Hp Hk. apply safe_bind. eapply safe_mono; [|by eapply safe_frames]. by intros g' a ->.
Qed.
End Logic.

(** Without interference, a run composes the changes of its steps. *)
Lemma alone_frames (R : S → S → Prop) `{!PreOrder R} {A} e (p : Prog A) s a s' :
  frames R p → alone e p s = Some (a, s') → R s s'.
Proof.
  revert s. induction p as [b| |B f k IH]; intros s Hp Hrun; simpl in *.
  - by injection Hrun as _ <-.
  - done.
  - destruct Hp as [Hf Hk]. specialize (Hf e s). destruct (f e s) as [b s1]. simpl in *.
    etrans; [done|]. by eapply IH.
Qed.

(** What every step of every thread keeps holds in every run. *)
Lemma run_keeps {A} (J : S → Prop) sch s (progs : list (Prog A)) :
  Forall (frames (λ s s', J s → J s')) progs → J s → J (run sch (s, progs)).1.
Proof.
  intros Hall. revert s progs Hall. induction sch as [|[t e] sch IH]; intros s progs Hall Hs; [done|]. simpl.
  destruct (step t e (s, progs)) as [s' progs'] eqn:Hstep. apply IH; unfold step in Hstep; simpl in Hstep.
  - destruct (progs !! t) as [[a| |B f k]|] eqn:Ht; try by simplify_eq. destruct (f e s) as [b s1]. simplify_eq.
    apply Forall_insert; [done|]. eapply Forall_lookup_1 in Ht; [|done]. by apply Ht.
  - destruct (progs !! t) as [[a| |B f k]|] eqn:Ht; try by simplify_eq. eapply Forall_lookup_1 in Ht; [|done].
    pose proof (proj1 Ht e s Hs) as Hf. destruct (f e s) as [b s1]. by simplify_eq.
Qed.
End Programs.
Arguments Prog E S A : clear implicits.
Arguments Done {E S A} a. Arguments Stalled {E S A}. Arguments Then {E S A B} f k.

(** A program of a part, run in the whole: [get] and [set] find the part and
    put it back. *)
Fixpoint focus {E E' S T A} (env : E → E') (get : S → T) (set : T → S → S) (p : Prog E' T A) : Prog E S A :=
  match p with
  | Done a => Done a
  | Stalled => Stalled
  | Then f k =>
    Then (λ e s, let '(b, t) := f (env e) (get s) in (b, set t s)) (λ b, focus env get set (k b))
  end.

Declare Scope prog_scope.
Delimit Scope prog_scope with prog.
Notation "x ← f ; k" := (Then f (λ x, k))
  (at level 20, f at level 100, k at level 200, right associativity) : prog_scope.
Notation "x ⇇ p ; k" := (bind p (λ x, k))
  (at level 20, p at level 100, k at level 200, right associativity) : prog_scope.
