(* ===== verification/Bus.v ===== *)
(** * Bus: routes, emission and the bus facility

    Models [include/solar/bus/facility.hpp] and [runtime.hpp], with their data
    of [types.hpp] and [delivery.hpp]: the record of a route, its queued,
    latest and coalesced storage, the emission of a message over all its
    routes, and the facility's init, start, stop and drain.  Emitters, the
    drains an executor runs and the facility's stop are concurrent programs
    (Interleave.v); a section under a lock, or one atomic access, is a step.
    The kernel's semaphore is the interface [Semaphores]; the clock, the
    interrupt flag, the system state, the executor's answer to a submission
    and the handler's result come from the environment of the step. *)
From stdpp Require Import prelude functions.
From S2P Require Import Prelude Status Lifecycle Interleave.

Open Scope Z_scope.
Open Scope solar_scope.
Open Scope prog_scope.

(** ** The kernel's counting semaphore, as documented *)
Class SemaphoreOps (Sem : Type) := {
  sem_count : Sem → nat;
  sem_limit : Sem → nat;
  sem_take : Sem → option Sem;
  sem_give : Sem → Sem;
  sem_reset : Sem → Sem }.

Class Semaphores (Sem : Type) `{SemaphoreOps Sem} : Prop := {
  take_some s s' : sem_take s = Some s' → sem_count s = S (sem_count s');
  take_none s : sem_take s = None → sem_count s = O;
  take_limit s s' : sem_take s = Some s' → sem_limit s' = sem_limit s;
  give_count s : sem_count (sem_give s) = Nat.min (S (sem_count s)) (sem_limit s);
  give_limit s : sem_limit (sem_give s) = sem_limit s;
  reset_count s : sem_count (sem_reset s) = O;
  reset_limit s : sem_limit (sem_reset s) = sem_limit s }.

Module TypedBus.

(** ** Data *)
Inductive DeliveryKind : Set := KInline | KInlineIsr | KQueued | KLatest | KCoalesced.
Inductive Overflow : Set := Reject | DropNewest | DropOldest | WaitFor.
Inductive Stop : Set := Drain | CancelPending.
Inductive Operation : Set := Emit | TryEmit | TryEmitIsr | Query | Initialize | OpStop.
Inductive Reason : Set :=
  | NotReady | Disabled | NotRegistered | InvalidContext | RouteRejected | RouteTimedOut
  | ExecutorUnavailable | InlineHandlerFailed | InternalInvariant.
Inductive EmitMode : Set := Normal | Try | Isr.

#[export] Instance Stop_eq_dec : EqDecision Stop. Proof. solve_decision. Defined.
#[export] Instance Overflow_eq_dec : EqDecision Overflow. Proof. solve_decision. Defined.
#[export] Instance EmitMode_eq_dec : EqDecision EmitMode. Proof. solve_decision. Defined.
#[export] Instance DeliveryKind_eq_dec : EqDecision DeliveryKind. Proof. solve_decision. Defined.

(** The effective delivery of a subscription, its policies resolved. *)
Inductive Delivery : Set :=
  | Inline
  | InlineIsr
  | Queued (capacity : nat) (overflow : Overflow) (stop : Stop)
  | Latest (stop : Stop)
  | Coalesced (stop : Stop).
#[export] Instance Delivery_eq_dec : EqDecision Delivery. Proof. solve_decision. Defined.

Definition kind_of (d : Delivery) : DeliveryKind :=
  match d with
  | Inline => KInline | InlineIsr => KInlineIsr | Queued _ _ _ => KQueued
  | Latest _ => KLatest | Coalesced _ => KCoalesced
  end.
Definition asynchronous (d : Delivery) : bool :=
  match d with Inline | InlineIsr => false | _ => true end.
Definition stop_policy (d : Delivery) : Stop :=
  match d with Queued _ _ stop | Latest stop | Coalesced stop => stop | _ => Drain end.

(** A default-constructed [LocalId]. *)
Definition invalid_id : Z := 65535.

Record Error : Set := mkError {
  err_status : Status; err_reason : Reason; err_operation : Operation; err_message : Z;
  err_subscription : Z; attempted_routes : Z; accepted_routes : Z; rejected_routes : Z;
  dropped_routes : Z; err_native : Z }.
#[export] Instance Error_fields : Fields Error := λ e,
  mkError (err_status e) (err_reason e) (err_operation e) (err_message e) (err_subscription e)
    (attempted_routes e) (accepted_routes e) (rejected_routes e) (dropped_routes e) (err_native e).

Record RouteRecord : Set := mkRecord {
  r_subscription : Z; r_message : Z; r_subscriber : Z; r_delivery : DeliveryKind;
  r_last_status : Status; r_considered : Z; r_accepted : Z; r_delivered : Z;
  r_replacements : Z; r_coalesced : Z; r_dropped_newest : Z; r_dropped_oldest : Z;
  r_rejected : Z; r_timed_out : Z; r_handler_failed : Z; r_executor_unavailable : Z;
  r_cancelled : Z; r_pending : Z; r_pending_high_water : Z; r_in_flight : Z;
  r_last_accept_tick : Z; r_last_delivery_tick : Z; r_first_handler_failure : Status;
  r_last_handler_failure : Status; r_has_handler_failure : bool; r_accepting : bool;
  r_draining : bool; r_quiescent : bool }.
#[export] Instance RouteRecord_fields : Fields RouteRecord := λ r,
  mkRecord (r_subscription r) (r_message r) (r_subscriber r) (r_delivery r)
    (r_last_status r) (r_considered r) (r_accepted r) (r_delivered r)
    (r_replacements r) (r_coalesced r) (r_dropped_newest r) (r_dropped_oldest r)
    (r_rejected r) (r_timed_out r) (r_handler_failed r) (r_executor_unavailable r)
    (r_cancelled r) (r_pending r) (r_pending_high_water r) (r_in_flight r)
    (r_last_accept_tick r) (r_last_delivery_tick r) (r_first_handler_failure r)
    (r_last_handler_failure r) (r_has_handler_failure r) (r_accepting r)
    (r_draining r) (r_quiescent r).
Definition default_record : RouteRecord :=
  mkRecord invalid_id invalid_id invalid_id KInline SNotReady 0 0 0 0 0 0 0 0 0 0 0 0 0 0 0 0 0
    SOk SOk false false false true.

(** What a step sees of its surroundings. *)
Record Env : Set := mkEnv {
  now : Z;                          (* kernel::now_ticks *)
  in_isr : bool;                    (* kernel::in_isr *)
  system : SystemState;             (* the state of the lifecycle engine *)
  wait_over : bool;                 (* a bounded wait runs out *)
  expired : bool;                   (* the stop deadline has passed *)
  submission : option (Status * Z); (* the executor's answer: [None] accepts *)
  handled_with : option Status }.   (* the handler's answer: [None] succeeds *)

(** One route: the members common to all kinds, and the storage of the
    asynchronous kinds, each of which uses its own members.  [handled_] lists
    the calls made to the handler. *)
Record Route (Sem Msg : Type) := mkRoute {
  record_ : RouteRecord; accepting_ : bool; in_flight_ : Z; handled_ : list Msg;
  slots_ : Sem; storage_ : list Msg; head_ : nat; tail_ : nat; count_ : Z;
  payload_ : Msg; pending_ : bool }.
Arguments mkRoute {Sem Msg} _ _ _ _ _ _ _ _ _ _ _.
Arguments record_ {Sem Msg} _. Arguments accepting_ {Sem Msg} _. Arguments in_flight_ {Sem Msg} _.
Arguments handled_ {Sem Msg} _. Arguments slots_ {Sem Msg} _. Arguments storage_ {Sem Msg} _.
Arguments head_ {Sem Msg} _. Arguments tail_ {Sem Msg} _. Arguments count_ {Sem Msg} _.
Arguments payload_ {Sem Msg} _. Arguments pending_ {Sem Msg} _.
#[export] Instance Route_fields Sem Msg : Fields (Route Sem Msg) := λ r,
  mkRoute (record_ r) (accepting_ r) (in_flight_ r) (handled_ r) (slots_ r) (storage_ r)
    (head_ r) (tail_ r) (count_ r) (payload_ r) (pending_ r).

Record RouteAcceptance : Set := mkAcceptance {
  acc_status : Status; acc_accepted : bool; acc_dropped : bool; acc_needs_submit : bool;
  acc_timed_out : bool }.
Definition accept_ok : RouteAcceptance := mkAcceptance SOk true false false false.
#[export] Instance RouteAcceptance_fields : Fields RouteAcceptance := λ a,
  mkAcceptance (acc_status a) (acc_accepted a) (acc_dropped a) (acc_needs_submit a)
    (acc_timed_out a).

Section Routes.
Context {Sem Msg : Type} `{SemaphoreOps Sem} (default_message : Msg).

(** The routes are the variable template [route_state<Subscription>]. *)
Abbreviation Routes := (nat → Route Sem Msg).
Abbreviation prog := (Prog Env Routes).

(** ** Steps on one route *)
Definition on {B} (i : nat) (f : Env → Route Sem Msg → B * Route Sem Msg) :
  Env → Routes → B * Routes :=
  λ e rs, let '(b, r) := f e (rs i) in (b, <[i := r]> rs).
Definition change (i : nat) (f : Env → Route Sem Msg → Route Sem Msg) : Env → Routes → unit * Routes :=
  on i (λ e r, (tt, f e r)).
Definition look {B} (i : nat) (f : Route Sem Msg → B) : Env → Routes → B * Routes :=
  on i (λ _ r, (f r, r)).
Definition ask {B} (f : Env → B) : Env → Routes → B * Routes := λ e rs, (f e, rs).

(** [mutate]: the record under its lock. *)
Definition mutate (i : nat) (f : Env → RouteRecord → RouteRecord) : Env → Routes → unit * Routes :=
  change i (λ e r, r <| record_ ::= f e |>).

Definition initialize (i : nat) (subscription message : Z) (delivery : DeliveryKind) : prog unit :=
  _ ← change i (λ _ r, r <| accepting_ := false |>);
  _ ← change i (λ _ r, r <| in_flight_ := 0 |>);
  _ ← mutate i (λ _ _, default_record <| r_subscription := subscription |> <| r_message := message |>
                         <| r_delivery := delivery |> <| r_last_status := SNotReady |>
                         <| r_quiescent := true |>);
  Done tt.

Definition set_accepting (i : nat) (accepting : bool) : prog unit :=
  _ ← change i (λ _ r, r <| accepting_ := accepting |>);
  _ ← mutate i (λ _ r,
    let r := r <| r_accepting := accepting |> <| r_draining := negb accepting |> in
    if accepting then r <| r_last_status := SOk |> else r);
  Done tt.

Definition considered (r : RouteRecord) : RouteRecord := r <| r_considered ::= inc64 |>.
Definition accepted (pending : Z) (e : Env) (r : RouteRecord) : RouteRecord :=
  let r := r <| r_accepted ::= inc64 |> <| r_pending := pending |>
             <| r_last_accept_tick := now e |> <| r_last_status := SOk |>
             <| r_quiescent := false |> in
  if r_pending_high_water r <? pending then r <| r_pending_high_water := pending |> else r.
Definition rejected (st : Status) (timed_out : bool) (r : RouteRecord) : RouteRecord :=
  let r := r <| r_rejected ::= inc64 |> in
  let r := if timed_out then r <| r_timed_out ::= inc64 |> else r in
  r <| r_last_status := st |>.
Definition dropped_newest (r : RouteRecord) : RouteRecord := r <| r_dropped_newest ::= inc64 |>.
Definition dropped_oldest (r : RouteRecord) : RouteRecord := r <| r_dropped_oldest ::= inc64 |>.
Definition replaced (r : RouteRecord) : RouteRecord := r <| r_replacements ::= inc64 |>.
Definition coalesced (r : RouteRecord) : RouteRecord := r <| r_coalesced ::= inc64 |>.
Definition submission_failed (st : Status) (r : RouteRecord) : RouteRecord :=
  r <| r_executor_unavailable ::= inc64 |> <| r_last_status := st |>.
Definition finish_stop (r : RouteRecord) : RouteRecord :=
  r <| r_draining := false |> <| r_quiescent := (r_pending r =? 0) && (r_in_flight r =? 0) |>.
(** [cancelled] reads the atomic count of handlers under the record's lock. *)
Definition cancelled (i : nat) (n : Z) : Env → Routes → unit * Routes :=
  change i (λ _ r, r <| record_ ::= λ c, c <| r_cancelled ::= λ k, u64 (k + n) |>
                          <| r_pending := 0 |> <| r_quiescent := in_flight_ r =? 0 |> |>).

Definition copy (i : nat) : prog RouteRecord :=
  record ← on i (λ _ r,
    let c := record_ r <| r_accepting := accepting_ r |> <| r_in_flight := in_flight_ r |> in
    let c := c <| r_quiescent := (r_pending c =? 0) && (r_in_flight c =? 0) |> in
    (c, r <| record_ := c |>));
  Done record.

(** The handler runs outside every lock. *)
Definition invoke_handler (i : nat) (m : Msg) : Env → Routes → result Status unit * Routes :=
  on i (λ e r, (match handled_with e with None => Ok tt | Some st => Err st end,
                r <| handled_ ::= λ l, l ++ [m] |>)).

Definition delivered (answer : result Status unit) (e : Env) (r : RouteRecord) : RouteRecord :=
  let r := r <| r_delivered ::= inc64 |> in
  let r := match answer with
           | Ok _ => r
           | Err st =>
             let r := r <| r_handler_failed ::= inc64 |> in
             let r := if r_has_handler_failure r then r
                      else r <| r_first_handler_failure := st |> <| r_has_handler_failure := true |> in
             r <| r_last_handler_failure := st |>
           end in
  let r := r <| r_last_status := match answer with Ok _ => SOk | Err st => st end |>
             <| r_last_delivery_tick := now e |> <| r_in_flight ::= λ n, u32 (n - 1) |> in
  r <| r_quiescent := (r_pending r =? 0) && (r_in_flight r =? 0) |>.

Definition deliver (i : nat) (m : Msg) : prog (result Status unit) :=
  _ ← change i (λ _ r, r <| in_flight_ ::= inc32 |>);
  _ ← mutate i (λ _ r, r <| r_in_flight ::= inc32 |> <| r_quiescent := false |>);
  answer ← invoke_handler i m;
  _ ← change i (λ _ r, r <| in_flight_ ::= λ n, u32 (n - 1) |>);
  _ ← mutate i (delivered answer);
  Done answer.

(** ** Queued storage *)
Definition give (i : nat) : Env → Routes → unit * Routes :=
  change i (λ _ r, r <| slots_ ::= sem_give |>).
Definition try_take (i : nat) : Env → Routes → bool * Routes :=
  on i (λ _ r, match sem_take (slots_ r) with
               | Some s => (true, r <| slots_ := s |>)
               | None => (false, r)
               end).

(** A bounded wait: it takes a permit when there is one, and gives up when
    the kernel says so. *)
Fixpoint wait_take (fuel : nat) (i : nat) : prog bool :=
  match fuel with
  | O => Stalled
  | S fuel =>
    taken ← try_take i;
    if (taken : bool) then Done true
    else over ← ask wait_over; if (over : bool) then Done false else wait_take fuel i
  end.

Definition take_slot (fuel : nat) (i : nat) (ov : Overflow) (mode : EmitMode) : prog bool :=
  if bool_decide (ov = WaitFor) && bool_decide (mode = Normal) then wait_take fuel i
  else taken ← try_take i; Done taken.

(** The permits of the semaphore, given back one by one. *)
Fixpoint give_all (n : nat) (i : nat) : prog unit :=
  match n with
  | O => Done tt
  | S n => _ ← give i; give_all n i
  end.

(** [reset] and [clear_pending] hold the storage lock to the end; emitters
    take from the semaphore without it, so its calls are steps of their own. *)
Definition empty_queue (r : Route Sem Msg) : Route Sem Msg :=
  r <| head_ := O |> <| tail_ := O |> <| count_ := 0 |>.
Definition queued_reset (i : nat) (capacity : nat) : prog unit :=
  _ ← change i (λ _ r, empty_queue r);
  _ ← change i (λ _ r, r <| slots_ ::= sem_reset |>);
  give_all capacity i.

Definition queued_clear (i : nat) (capacity : nat) : prog Z :=
  removed ← on i (λ _ r, (u32 (count_ r), empty_queue r));
  _ ← change i (λ _ r, r <| slots_ ::= sem_reset |>);
  _ ⇇ give_all capacity i;
  _ ← cancelled i removed;
  Done removed.

(** The section of [accept] under the storage lock; [size_t] arithmetic
    wraps. *)
Definition store (capacity : nat) (drop_oldest : bool) (m : Msg) (r : Route Sem Msg) :
  Z * Route Sem Msg :=
  let r := if drop_oldest
           then r <| head_ := ((head_ r + 1) mod capacity)%nat |>
                  <| count_ := u64 (count_ r - 1) |> <| record_ ::= dropped_oldest |>
           else r in
  let r := r <| storage_ := <[tail_ r := m]> (storage_ r) |> in
  let r := r <| tail_ := ((tail_ r + 1) mod capacity)%nat |> in
  let r := r <| count_ := inc64 (count_ r) |> in
  (u32 (count_ r), r).

Definition queued_accept (fuel : nat) (i : nat) (capacity : nat) (ov : Overflow) (m : Msg)
    (mode : EmitMode) : prog RouteAcceptance :=
  taken ⇇ take_slot fuel i ov mode;
  let enqueue drop_oldest :=
    pending ← on i (λ _ r, store capacity drop_oldest m r);
    _ ← mutate i (accepted pending);
    Done (accept_ok <| acc_dropped := drop_oldest |> <| acc_needs_submit := true |>) in
  if taken then enqueue false
  else match ov with
       | DropNewest =>
         _ ← mutate i (λ _, dropped_newest);
         Done (accept_ok <| acc_accepted := false |> <| acc_dropped := true |>)
       | DropOldest => enqueue true
       | _ =>
         let timed_out := bool_decide (ov = WaitFor) && bool_decide (mode = Normal) in
         let st := if timed_out then STimeout else SFull in
         _ ← mutate i (λ _, rejected st timed_out);
         Done (mkAcceptance st false false false timed_out)
       end.

(** [head_] stays below the capacity, so the default is never taken. *)
Definition pop (capacity : nat) (r : Route Sem Msg) : option (Msg * Z) * Route Sem Msg :=
  if count_ r =? 0 then (None, r)
  else
    let m := default default_message (storage_ r !! head_ r) in
    let r := r <| head_ := ((head_ r + 1) mod capacity)%nat |> <| count_ := u64 (count_ r - 1) |> in
    (Some (m, u32 (count_ r)), r).

Definition queued_drain_one (i : nat) (capacity : nat) : prog bool :=
  popped ← on i (λ _ r, pop capacity r);
  match popped with
  | None => Done false
  | Some (m, pending) =>
    _ ← give i;
    _ ← mutate i (λ _ r, r <| r_pending := pending |>);
    _ ⇇ deliver i m;
    Done true
  end.

(** ** Latest storage *)
Definition latest_reset (i : nat) : prog unit :=
  _ ← change i (λ _ r, r <| pending_ := false |>);
  Done tt.

Definition latest_accept (i : nat) (m : Msg) : prog RouteAcceptance :=
  was ← on i (λ _ r, (pending_ r || negb (in_flight_ r =? 0),
                      r <| payload_ := m |> <| pending_ := true |>));
  let rest :=
    _ ← mutate i (accepted 1);
    Done (accept_ok <| acc_needs_submit := true |>) in
  if (was : bool) then _ ← mutate i (λ _, replaced); rest else rest.

Definition latest_drain_one (i : nat) : prog bool :=
  taken ← on i (λ _ r, if pending_ r then (Some (payload_ r), r <| pending_ := false |>) else (None, r));
  match taken with
  | None => Done false
  | Some m =>
    _ ← mutate i (λ _ r, r <| r_pending := 0 |>);
    _ ⇇ deliver i m;
    Done true
  end.

(** [pending_] is read and cleared in one step in both kinds: under the
    storage lock, or by an atomic exchange. *)
Definition flag_clear (i : nat) : prog Z :=
  removed ← on i (λ _ r, (pending_ r, r <| pending_ := false |>));
  let n := if (removed : bool) then 1 else 0 in
  _ ← cancelled i n;
  Done n.

(** ** Coalesced signals *)
Definition coalesced_accept (i : nat) : prog RouteAcceptance :=
  already ← on i (λ _ r, (pending_ r, r <| pending_ := true |>));
  let rest :=
    _ ← mutate i (accepted 1);
    Done (accept_ok <| acc_needs_submit := negb already |>) in
  if (already : bool) then _ ← mutate i (λ _, coalesced); rest else rest.

Definition coalesced_drain_one (i : nat) : prog bool :=
  was ← on i (λ _ r, (pending_ r, r <| pending_ := false |>));
  if (was : bool) then
    _ ← mutate i (λ _ r, r <| r_pending := 0 |>);
    _ ⇇ deliver i default_message;
    Done true
  else Done false.

(** ** By kind *)
Definition reset (i : nat) (d : Delivery) : prog unit :=
  match d with
  | Queued capacity _ _ => queued_reset i capacity
  | Latest _ | Coalesced _ => latest_reset i
  | _ => Done tt
  end.
Definition accept (fuel : nat) (i : nat) (d : Delivery) (m : Msg) (mode : EmitMode) :
  prog RouteAcceptance :=
  match d with
  | Queued capacity ov _ => queued_accept fuel i capacity ov m mode
  | Latest _ => latest_accept i m
  | Coalesced _ => coalesced_accept i
  | _ => Done accept_ok
  end.
Definition clear_pending (i : nat) (d : Delivery) : prog Z :=
  match d with
  | Queued capacity _ _ => queued_clear i capacity
  | Latest _ | Coalesced _ => flag_clear i
  | _ => Done 0
  end.

Fixpoint drain_queue (fuel : nat) (i : nat) (capacity : nat) : prog unit :=
  match fuel with
  | O => Stalled
  | S fuel =>
    more ⇇ queued_drain_one i capacity;
    if (more : bool) then drain_queue fuel i capacity else Done tt
  end.
(** [Facility::drain], which the route's work item runs. *)
Definition drain (fuel : nat) (i : nat) (d : Delivery) : prog unit :=
  match d with
  | Queued capacity _ _ => drain_queue fuel i capacity
  | Latest _ => _ ⇇ latest_drain_one i; Done tt
  | Coalesced _ => _ ⇇ coalesced_drain_one i; Done tt
  | _ => Done tt
  end.

(** ** Emission

    The message types and the subscriptions are numbered; the catalogs give
    them their local ids. *)
Record Subscription : Set := mkSubscription { sub_message : nat; sub_delivery : Delivery }.
Context (message_id : nat → Z) (subscription_id : nat → Z) (subscriptions : list Subscription).

Record RouteAttempt : Set := mkAttempt {
  failed : bool; attempt_accepted : bool; attempt_dropped : bool; attempt_error : Error }.
Definition no_error : Error :=
  mkError SError InternalInvariant Emit invalid_id invalid_id 0 0 0 0 0.

Definition emit_operation (mode : EmitMode) : Operation :=
  match mode with Isr => TryEmitIsr | Try => TryEmit | Normal => Emit end.
Definition make_error (message : nat) (op : Operation) (st : Status) (why : Reason) : Error :=
  no_error <| err_status := st |> <| err_reason := why |> <| err_operation := op |>
           <| err_message := message_id message |>.

Definition emit_route (fuel : nat) (i : nat) (sub : Subscription) (m : Msg) (mode : EmitMode) :
  prog RouteAttempt :=
  let d := sub_delivery sub in
  let error st why :=
    make_error (sub_message sub) (emit_operation mode) st why
      <| err_subscription := subscription_id i |> in
  _ ← mutate i (λ _, considered);
  accepting ← look i accepting_;
  if negb accepting then Done (mkAttempt true false false (error SNotReady NotReady))
  else if negb (asynchronous d) then
    _ ← mutate i (accepted 0);
    handled ⇇ deliver i m;
    match handled with
    | Err st => Done (mkAttempt true true false (error st InlineHandlerFailed))
    | Ok _ => Done (mkAttempt false true false no_error)
    end
  else
    acc ⇇ accept fuel i d m mode;
    let done := mkAttempt false (acc_accepted acc) (acc_dropped acc) no_error in
    if negb (bool_decide (acc_status acc = SOk)) then
      Done (mkAttempt true false false
              (error (acc_status acc) (if acc_timed_out acc then RouteTimedOut else RouteRejected)))
    else if acc_needs_submit acc then
      answer ← ask submission;
      match answer with
      | Some (st, native) =>
        _ ⇇ clear_pending i d;
        _ ← mutate i (λ _, submission_failed st);
        Done (mkAttempt true false false (error st ExecutorUnavailable <| err_native := native |>))
      | None => Done done
      end
    else Done done.

Definition inc16 (n : Z) : Z := u16 (n + 1).

(** The body of the loop of [emit_message]: the aggregate keeps its counts
    and takes the rest from the first failed attempt. *)
Definition count_attempt (agg : Error * bool) (a : RouteAttempt) : Error * bool :=
  let e := agg.1 <| attempted_routes ::= inc16 |> in
  let e := if attempt_accepted a then e <| accepted_routes ::= inc16 |> else e in
  let e := if attempt_dropped a then e <| dropped_routes ::= inc16 |> else e in
  if failed a then
    let e := e <| rejected_routes ::= inc16 |> in
    if agg.2 then (e, true)
    else (attempt_error a <| attempted_routes := attempted_routes e |>
            <| accepted_routes := accepted_routes e |> <| rejected_routes := rejected_routes e |>
            <| dropped_routes := dropped_routes e |>, true)
  else (e, agg.2).

Fixpoint emit_routes (fuel : nat) (routes : list (nat * Subscription)) (message : nat) (m : Msg)
    (mode : EmitMode) (agg : Error * bool) : prog (Error * bool) :=
  match routes with
  | [] => Done agg
  | (i, sub) :: routes =>
    if bool_decide (sub_message sub = message) then
      attempt ⇇ emit_route fuel i sub m mode;
      emit_routes fuel routes message m mode (count_attempt agg attempt)
    else emit_routes fuel routes message m mode agg
  end.

Definition indexed : list (nat * Subscription) := imap pair subscriptions.

Definition emit_message (fuel : nat) (message : nat) (m : Msg) (mode : EmitMode) :
  prog (result Error unit) :=
  let op := emit_operation mode in
  let emit :=
    state ← ask system;
    if negb (bool_decide (state = Running)) then
      Done (Err (make_error message op SNotReady NotReady))
    else
      agg ⇇ emit_routes fuel indexed message m mode
              (make_error message op SOk InternalInvariant, false);
      Done (if (agg.2 : bool) then Err agg.1 else Ok tt) in
  if bool_decide (mode = Isr) then emit
  else
    isr ← ask in_isr;
    if (isr : bool) then Done (Err (make_error message op SInvalid InvalidContext)) else emit.

(** [route_record]: the copy, with the subscriber's id from the catalog. *)
Definition route_record (subscriber : nat → Z) (i : nat) : prog RouteRecord :=
  record ⇇ copy i;
  Done (record <| r_subscriber := subscriber i |>).

(** ** The facility *)
Fixpoint for_each {A B} (l : list A) (f : A → B → prog B) (b : B) : prog B :=
  match l with
  | [] => Done b
  | x :: l => b ⇇ f x b; for_each l f b
  end.

(** [init] numbers routes and messages by their place in the type lists. *)
Definition init_route (i : nat) (sub : Subscription) : prog unit :=
  _ ⇇ initialize i (u16 (Z.of_nat i)) (u16 (Z.of_nat (sub_message sub))) (kind_of (sub_delivery sub));
  if asynchronous (sub_delivery sub) then reset i (sub_delivery sub) else Done tt.

Definition init : prog (result Status unit) :=
  _ ⇇ for_each indexed (λ x _, init_route x.1 x.2) tt;
  Done (Ok tt).

Definition start : prog (result Status unit) :=
  _ ⇇ for_each indexed (λ x _, set_accepting x.1 true) tt;
  Done (Ok tt).

Definition stop_route (i : nat) (d : Delivery) (st : Status) : prog Status :=
  _ ⇇ set_accepting i false;
  if asynchronous d then
    match stop_policy d with
    | CancelPending => _ ⇇ clear_pending i d; Done st
    | Drain => record ⇇ copy i; Done (if r_pending record =? 0 then st else STimeout)
    end
  else Done st.

Definition any_in_flight : prog bool :=
  for_each indexed (λ x waiting,
    if (waiting : bool) then Done true else n ← look x.1 in_flight_; Done (negb (n =? 0))) false.

(** The wait of [stop], up to its deadline. *)
Fixpoint wait_quiet (fuel : nat) : prog bool :=
  match fuel with
  | O => Stalled
  | S fuel =>
    over ← ask expired;
    if (over : bool) then Done true
    else waiting ⇇ any_in_flight;
         if (waiting : bool) then wait_quiet fuel else Done false
  end.

Definition stop (fuel : nat) : prog (result Status unit) :=
  st ⇇ for_each indexed (λ x st, stop_route x.1 (sub_delivery x.2) st) SOk;
  waiting ⇇ wait_quiet fuel;
  _ ⇇ for_each indexed (λ x _, _ ← mutate x.1 (λ _, finish_stop); Done tt) tt;
  Done (if bool_decide (st = SOk) && negb waiting then Ok tt else Err STimeout).
End Routes.
Arguments RouteAttempt : clear implicits.
End TypedBus.
