(* ===== verification/BusQueue.v ===== *)
(** * BusQueue: the ring of a queued route and its books

    The ring buffer of a queued route as the list of its contents, and the
    invariant of a route under concurrent emitters and one drain: the permits
    of the semaphore, the messages in the ring and the permits in the hands of
    threads add up to the capacity, and every stored message is in the ring,
    has been handed over, or was dropped as the oldest. *)
From stdpp Require Import prelude functions.
From S2P Require Import Prelude Status Lifecycle Interleave Bus.
Import TypedBus.

Open Scope nat_scope.
Open Scope solar_scope.

Section Ring.
Context {Sem Msg : Type} `{Semaphores Sem} (default_message : Msg) (capacity : nat).
Context (Hcap : 0 < capacity) (Hwidth : (Z.of_nat capacity < 2 ^ 32)%Z).
Abbreviation Route := (Route Sem Msg).

Definition slot (r : Route) (k : nat) : Msg :=
  default default_message (storage_ r !! ((head_ r + k) mod capacity)).
Definition contents (r : Route) : list Msg := map (slot r) (seq 0 (Z.to_nat (count_ r))).

Record ring (r : Route) : Prop := {
  ring_storage : length (storage_ r) = capacity;
  ring_head : head_ r < capacity;
  ring_count : (0 ≤ count_ r ≤ Z.of_nat capacity)%Z;
  ring_tail : tail_ r = (head_ r + Z.to_nat (count_ r)) mod capacity;
  ring_limit : sem_limit (slots_ r) = capacity }.

Lemma contents_length r : length (contents r) = Z.to_nat (count_ r).
Proof. unfold contents. by rewrite length_map, length_seq. Qed.

(** The ring of a route depends on its storage and indices alone. *)
Definition same_ring (r r' : Route) : Prop :=
  storage_ r' = storage_ r ∧ head_ r' = head_ r ∧ tail_ r' = tail_ r ∧ count_ r' = count_ r
  ∧ sem_limit (slots_ r') = sem_limit (slots_ r).
Lemma same_ring_ring r r' : same_ring r r' → ring r → ring r'.
Proof. intros (Hs & Hh & Ht & Hc & Hl) []. split; congruence. Qed.
Lemma same_ring_contents r r' : same_ring r r' → contents r' = contents r.
Proof. intros (Hs & Hh & Ht & Hc & Hl). unfold contents, slot. by rewrite Hs, Hh, Hc. Qed.

Lemma mod_step a b : ((a + 1) mod capacity + b) mod capacity = (a + (1 + b)) mod capacity.
Proof. rewrite Nat.Div0.add_mod_idemp_l. f_equal. lia. Qed.

(** What [store] does to the ring when a message need not be dropped. *)
Lemma store_contents r m :
  ring r → (count_ r < Z.of_nat capacity)%Z →
  let '(pending, r') := store capacity false m r in
  ring r' ∧ contents r' = contents r ++ [m] ∧ slots_ r' = slots_ r ∧ handled_ r' = handled_ r
  ∧ record_ r' = record_ r ∧ accepting_ r' = accepting_ r ∧ in_flight_ r' = in_flight_ r.
Proof.
  intros [Hs Hh Hc Ht Hl] Hroom. simpl.
  assert (Hn : inc64 (count_ r) = (count_ r + 1)%Z) by (unfold inc64; apply wrap_small; word_lia).
  split; [|split; [|done]].
  - split; simpl; rewrite ?Hn; [by rewrite length_insert|done|lia| |done].
    rewrite Ht, Nat.Div0.add_mod_idemp_l. f_equal. lia.
  - unfold contents, slot. simpl. rewrite Hn.
    replace (Z.to_nat (count_ r + 1)) with (Z.to_nat (count_ r) + 1) by lia.
    rewrite seq_app, map_app. simpl. f_equal.
    + apply map_ext_in. intros k Hk%in_seq. f_equal.
      rewrite list_lookup_insert_ne; [done|]. rewrite Ht. intros Heq.
      assert (Hk2 : k < capacity) by lia.
      pose proof (Nat.div_mod_eq (head_ r + Z.to_nat (count_ r)) capacity).
      pose proof (Nat.div_mod_eq (head_ r + k) capacity).
      rewrite Heq in *.
      assert (Hd : Z.to_nat (count_ r) - k
        = capacity * ((head_ r + Z.to_nat (count_ r)) / capacity - (head_ r + k) / capacity)) by nia.
      destruct ((head_ r + Z.to_nat (count_ r)) / capacity - (head_ r + k) / capacity); nia.
    + f_equal. rewrite <-Ht, list_lookup_insert_eq; [done|].
      rewrite Hs, Ht. apply Nat.mod_upper_bound. lia.
Qed.

(** [pop] takes the first message of a ring that has one. *)
Lemma pop_contents r :
  ring r →
  match pop default_message capacity r with
  | (None, r') => r' = r ∧ contents r = []
  | (Some (m, pending), r') =>
    ring r' ∧ contents r = m :: contents r' ∧ slots_ r' = slots_ r ∧ handled_ r' = handled_ r
    ∧ record_ r' = record_ r ∧ accepting_ r' = accepting_ r ∧ in_flight_ r' = in_flight_ r
  end.
Proof.
  intros [Hs Hh Hc Ht Hl]. unfold pop. destruct (Z.eqb_spec (count_ r) 0) as [Hz|Hnz].
  { split; [done|]. unfold contents. by rewrite Hz. }
  assert (Hn : u64 (count_ r - 1) = (count_ r - 1)%Z) by (apply wrap_small; word_lia).
  simpl. split; [|split; [|done]].
  - split; simpl; rewrite ?Hn; [done|apply Nat.mod_upper_bound; lia|lia| |done].
    rewrite Ht, mod_step. f_equal. lia.
  - unfold contents. simpl. rewrite Hn.
    replace (Z.to_nat (count_ r)) with (S (Z.to_nat (count_ r - 1))) by lia.
    rewrite <-cons_seq. simpl. f_equal.
    + unfold slot. by rewrite Nat.add_0_r, Nat.mod_small by lia.
    + rewrite <-seq_shift, map_map. apply map_ext_in. intros k _. unfold slot. simpl.
      by rewrite mod_step.
Qed.

(** Dropping the oldest first: an empty ring stays empty. *)
Lemma store_drop_contents r m :
  ring r →
  let '(pending, r') := store capacity true m r in
  ring r' ∧ contents r' = tail (contents r ++ [m]) ∧ slots_ r' = slots_ r
  ∧ handled_ r' = handled_ r ∧ record_ r' = dropped_oldest (record_ r)
  ∧ accepting_ r' = accepting_ r ∧ in_flight_ r' = in_flight_ r.
Proof.
  intros Hr. pose proof Hr as [Hs Hh Hc Ht Hl].
  destruct (Z.eqb_spec (count_ r) 0) as [Hz|Hnz].
  - simpl. split; [|split; [|done]].
    + split; simpl; rewrite ?Hz; [by rewrite length_insert|apply Nat.mod_upper_bound; lia
        |change (inc64 (u64 (0 - 1))) with 0%Z; lia| |done].
      change (inc64 (u64 (0 - 1))) with 0%Z. rewrite Ht, Hz. simpl.
      rewrite !Nat.add_0_r, (Nat.mod_small (head_ r)) by lia. by rewrite Nat.Div0.mod_mod.
    + unfold contents. simpl. rewrite Hz. done.
  - pose proof (pop_contents r Hr) as Hp. unfold pop in Hp.
    rewrite (proj2 (Z.eqb_neq _ _) Hnz) in Hp. destruct Hp as (Hr' & Hcs & _).
    set (r1 := (r <| head_ := ((head_ r + 1) mod capacity) |>)
                  <| count_ := u64 (count_ r - 1) |>) in *.
    assert (Hr2 : ring (r1 <| record_ ::= dropped_oldest |>)) by (eapply same_ring_ring; [|exact Hr']; done).
    assert (Hroom : (count_ (r1 <| record_ ::= dropped_oldest |>) < Z.of_nat capacity)%Z).
    { simpl. rewrite wrap_small; [lia|]. word_lia. }
    pose proof (store_contents _ m Hr2 Hroom) as Hst. simpl in Hst.
    destruct Hst as (Hr3 & Hcs3 & _). split; [exact Hr3|]. split; [|done].
    etransitivity; [exact Hcs3|].
    rewrite (same_ring_contents r1) by done. by rewrite Hcs.
Qed.
End Ring.
