(* ===== verification/BusBooks.v ===== *)
(** * BusBooks: the invariant of a queued route under interleaving

    Every thread keeps books of what it holds of the route: permits taken and
    not used, messages stored, the message popped and not yet handled, and
    what the record does not count yet.  [booked] ties the books to the route;
    one lemma per kind of step keeps it. *)
From stdpp Require Import prelude functions.
From S2P Require Import Prelude Status Lifecycle Interleave Bus BusQueue.
Import TypedBus.

Open Scope nat_scope.
Open Scope solar_scope.

Record Books (Msg : Type) := mkBooks {
  b_held : nat; b_stored : list Msg; b_carry : list Msg; b_due : nat; b_owing : nat }.
Arguments mkBooks {Msg} _ _ _ _ _. Arguments b_held {Msg} _. Arguments b_stored {Msg} _.
Arguments b_carry {Msg} _. Arguments b_due {Msg} _. Arguments b_owing {Msg} _.
#[export] Instance Books_fields Msg : Fields (Books Msg) := λ b,
  mkBooks (b_held b) (b_stored b) (b_carry b) (b_due b) (b_owing b).
Definition no_books {Msg} : Books Msg := mkBooks 0 [] [] 0 0.

(** The messages of thread [t], of a list of messages and their threads. *)
Definition sent_by {Msg} (t : nat) (order : list (nat * Msg)) : list Msg :=
  (filter (λ x, x.1 = t) order).*2.
Lemma sent_by_snoc {Msg} t u (m : Msg) order :
  sent_by u (order ++ [(t, m)]) = sent_by u order ++ (if decide (t = u) then [m] else []).
Proof.
  unfold sent_by. rewrite list.filter_app, fmap_app. f_equal. unfold filter. simpl. by case_decide.
Qed.

Section Books.
Context {Sem Msg : Type} `{Semaphores Sem} {default_message : Msg} {capacity : nat}.
Context (Hcap : 0 < capacity) (Hwidth : (Z.of_nat capacity < 2 ^ 32)%Z).
Context {ov : Overflow} {d : nat}.
Abbreviation Route := (Route Sem Msg).
Abbreviation contents := (contents default_message capacity).

Definition carried (gs : list (Books Msg)) : list Msg := default [] (b_carry <$> gs !! d).

Record booked (order : list (nat * Msg)) (left : list Msg) (gs : list (Books Msg)) (r : Route) :
    Prop := {
  bk_ring : ring capacity r;
  bk_permits : sem_count (slots_ r) + length (contents r) + sum_list_with b_held gs = capacity;
  bk_sent : ∀ t b, gs !! t = Some b → sent_by t order = b_stored b;
  bk_order : order.*2 = left ++ contents r;
  bk_passed : handled_ r ++ carried gs `sublist_of` left;
  bk_exact : ov ≠ DropOldest → left = handled_ r ++ carried gs;
  bk_idle : ∀ t b, gs !! t = Some b → t ≠ d → b_carry b = [];
  bk_accepted : r_accepted (record_ r)
    = u64 (Z.of_nat (length order) - Z.of_nat (sum_list_with b_due gs));
  bk_delivered : r_delivered (record_ r)
    = u64 (Z.of_nat (length (handled_ r)) - Z.of_nat (sum_list_with b_owing gs));
  bk_dropped : r_dropped_oldest (record_ r)
    = u64 (Z.of_nat (length left) - Z.of_nat (length (handled_ r ++ carried gs))) }.

Lemma carried_ne gs t b' : t ≠ d → carried (<[t := b']> gs) = carried gs.
Proof. intros Hne. unfold carried. by rewrite list_lookup_insert_ne. Qed.
Lemma carried_eq gs b b' : gs !! d = Some b → carried (<[d := b']> gs) = b_carry b'.
Proof.
  intros Hb. unfold carried. rewrite list_lookup_insert_eq; [done|]. by eapply lookup_lt_Some.
Qed.
Lemma carried_same gs t b b' :
  gs !! t = Some b → b_carry b' = b_carry b → carried (<[t := b']> gs) = carried gs.
Proof.
  intros Hb Hc. destruct (decide (t = d)) as [->|Hne]; [|by apply carried_ne].
  rewrite (carried_eq gs b) by done. unfold carried. by rewrite Hb, Hc.
Qed.

Lemma u64_shift (a b c : Z) : (a = u64 b → c = u64 (a + 0) → c = u64 b)%Z.
Proof. intros -> ->. by rewrite Z.add_0_r, wrap_wrap. Qed.
Lemma u64_add (a b : Z) : u64 (u64 a + b) = u64 (a + b).
Proof. unfold wrap. by rewrite Zplus_mod_idemp_l. Qed.

(** What a step of thread [t] must keep in balance. *)
Lemma booked_update order left gs r order' left' r' t b b' :
  booked order left gs r → gs !! t = Some b → ring capacity r' →
  sem_count (slots_ r') + length (contents r') + b_held b'
    = sem_count (slots_ r) + length (contents r) + b_held b →
  (∀ u, sent_by u order' = if decide (u = t) then b_stored b' else sent_by u order) →
  order'.*2 = left' ++ contents r' →
  (t ≠ d → b_carry b' = []) →
  handled_ r' ++ carried (<[t := b']> gs) `sublist_of` left' →
  (ov ≠ DropOldest → left' = handled_ r' ++ carried (<[t := b']> gs)) →
  r_accepted (record_ r') = u64 (r_accepted (record_ r)
    + (Z.of_nat (length order' + b_due b) - Z.of_nat (length order + b_due b'))) →
  r_delivered (record_ r') = u64 (r_delivered (record_ r)
    + (Z.of_nat (length (handled_ r') + b_owing b) - Z.of_nat (length (handled_ r) + b_owing b'))) →
  r_dropped_oldest (record_ r') = u64 (r_dropped_oldest (record_ r)
    + (Z.of_nat (length left' + length (handled_ r ++ carried gs))
       - Z.of_nat (length left + length (handled_ r' ++ carried (<[t := b']> gs))))) →
  booked order' left' (<[t := b']> gs) r'.
Proof.
  intros [] Hb Hring Hpermits Hsent Horder Hcarry Hpassed Hexact Hacc Hdel Hdrop.
  pose proof (sum_insert b_held gs t b b' Hb). pose proof (sum_insert b_due gs t b b' Hb).
  pose proof (sum_insert b_owing gs t b b' Hb). split; try done.
  - lia.
  - intros u c Hu. rewrite Hsent. destruct (decide (u = t)) as [->|Hne].
    + rewrite list_lookup_insert_eq in Hu by (by eapply lookup_lt_Some). by simplify_eq.
    + rewrite list_lookup_insert_ne in Hu by done. eauto.
  - intros u c Hu Hne. destruct (decide (u = t)) as [->|Hnt].
    + rewrite list_lookup_insert_eq in Hu by (by eapply lookup_lt_Some). simplify_eq. auto.
    + rewrite list_lookup_insert_ne in Hu by done. eauto.
  - rewrite Hacc, bk_accepted0, u64_add. f_equal. lia.
  - rewrite Hdel, bk_delivered0, u64_add. f_equal. lia.
  - rewrite Hdrop, bk_dropped0, u64_add. f_equal. lia.
Qed.

(** A step that touches neither ring nor handler. *)
Lemma booked_keep order left gs r r' t b b' :
  booked order left gs r → gs !! t = Some b → same_ring r r' → handled_ r' = handled_ r →
  sem_count (slots_ r') + b_held b' = sem_count (slots_ r) + b_held b →
  b_stored b' = b_stored b → b_carry b' = b_carry b →
  r_accepted (record_ r') = u64 (r_accepted (record_ r) + (Z.of_nat (b_due b) - Z.of_nat (b_due b'))) →
  r_delivered (record_ r')
    = u64 (r_delivered (record_ r) + (Z.of_nat (b_owing b) - Z.of_nat (b_owing b'))) →
  r_dropped_oldest (record_ r') = r_dropped_oldest (record_ r) →
  booked order left (<[t := b']> gs) r'.
Proof.
  intros Hbk Hb Hring Hh Hp Hst Hc Ha Hdel Hdrop. pose proof Hbk as [].
  eapply (booked_update order left gs r _ _ _ t b); rewrite ?Hh, ?(carried_same gs t b b' Hb Hc); try done.
  - by eapply same_ring_ring.
  - rewrite (same_ring_contents _ _ _ _ Hring). lia.
  - intros u. case_decide; [subst|done]. rewrite Hst. eauto.
  - by rewrite (same_ring_contents _ _ _ _ Hring).
  - intros Hne. rewrite Hc. eauto.
  - rewrite Ha. f_equal. lia.
  - rewrite Hdel. f_equal. lia.
  - rewrite Hdrop, bk_dropped0, u64_add. f_equal. lia.
Qed.

(** A route the records count the same for. *)
Definition queued_calm (r r' : Route) : Prop :=
  same_ring r r' ∧ handled_ r' = handled_ r ∧ slots_ r' = slots_ r
  ∧ r_accepted (record_ r') = r_accepted (record_ r)
  ∧ r_delivered (record_ r') = r_delivered (record_ r)
  ∧ r_dropped_oldest (record_ r') = r_dropped_oldest (record_ r).

Lemma booked_u64 order left gs r :
  booked order left gs r →
  u64 (r_accepted (record_ r)) = r_accepted (record_ r)
  ∧ u64 (r_delivered (record_ r)) = r_delivered (record_ r).
Proof. intros []. rewrite bk_accepted0, bk_delivered0. by rewrite !wrap_wrap. Qed.

Lemma booked_calm order left gs r r' t b :
  booked order left gs r → gs !! t = Some b → queued_calm r r' → booked order left (<[t := b]> gs) r'.
Proof.
  intros Hbk Hb (Hring & Hh & Hs & Ha & Hdel & Hdrop). destruct (booked_u64 _ _ _ _ Hbk) as [Hua Hud].
  eapply (booked_keep _ _ gs r _ t b); rewrite ?Hs, ?Ha, ?Hdel; try done.
  - by rewrite Z.sub_diag, Z.add_0_r.
  - by rewrite Z.sub_diag, Z.add_0_r.
Qed.

(** ** The steps *)
Lemma held_le (gs : list (Books Msg)) t b : gs !! t = Some b → b_held b ≤ sum_list_with b_held gs.
Proof.
  intros Hb. pose proof (sum_insert b_held gs t b (b <| b_held := 0 |>) Hb). simpl in *. lia.
Qed.

Lemma booked_take order left gs r t b s :
  booked order left gs r → gs !! t = Some b → sem_take (slots_ r) = Some s →
  booked order left (<[t := b <| b_held ::= S |>]> gs) (r <| slots_ := s |>).
Proof.
  intros Hbk Hb Hs. destruct (booked_u64 _ _ _ _ Hbk) as [Hua Hud].
  eapply (booked_keep _ _ gs r _ t b); simpl; try done.
  - repeat split; simpl. by apply take_limit.
  - rewrite (take_some _ _ Hs). lia.
  - by rewrite Z.sub_diag, Z.add_0_r.
  - by rewrite Z.sub_diag, Z.add_0_r.
Qed.

Lemma booked_give order left gs r t b h :
  booked order left gs r → gs !! t = Some b → b_held b = S h →
  booked order left (<[t := b <| b_held := h |>]> gs) (r <| slots_ ::= sem_give |>).
Proof.
  intros Hbk Hb Hh. destruct (booked_u64 _ _ _ _ Hbk) as [Hua Hud].
  pose proof (held_le _ _ _ Hb). pose proof Hbk as [].
  eapply (booked_keep _ _ gs r _ t b); simpl; try done.
  - repeat split; simpl. by apply give_limit.
  - rewrite give_count, (ring_limit _ _ bk_ring0). lia.
  - by rewrite Z.sub_diag, Z.add_0_r.
  - by rewrite Z.sub_diag, Z.add_0_r.
Qed.

Lemma sent_snoc order (gs : list (Books Msg)) t b (m : Msg) u :
  (∀ t b, gs !! t = Some b → sent_by t order = b_stored b) → gs !! t = Some b →
  sent_by u (order ++ [(t, m)]) = if decide (u = t) then b_stored b ++ [m] else sent_by u order.
Proof.
  intros Hsent Hb. rewrite sent_by_snoc. destruct (decide (u = t)) as [->|Hne].
  - rewrite decide_True by done. by rewrite (Hsent _ _ Hb).
  - rewrite decide_False by done. by rewrite app_nil_r.
Qed.

Lemma u64_same (a x y : Z) : u64 a = a → x = y → a = u64 (a + (x - y)).
Proof. intros Ha ->. by rewrite Z.sub_diag, Z.add_0_r. Qed.

Lemma booked_store order left gs r t b h m :
  booked order left gs r → gs !! t = Some b → b_held b = S h →
  booked (order ++ [(t, m)]) left
    (<[t := b <| b_held := h |> <| b_stored ::= λ l, l ++ [m] |> <| b_due ::= S |>]> gs)
    (store capacity false m r).2.
Proof.
  intros Hbk Hb Hh. destruct (booked_u64 _ _ _ _ Hbk) as [Hua Hud].
  pose proof (held_le _ _ _ Hb). pose proof Hbk as [].
  pose proof (contents_length default_message capacity r) as Hlen.
  pose proof (store_contents default_message capacity Hcap Hwidth r m bk_ring0) as Hst.
  destruct (store capacity false m r) as [p r']. simpl.
  destruct Hst as (Hr' & Hc & Hs & Hhd & Hrec & _).
  { destruct bk_ring0. lia. }
  eapply (booked_update order left gs r _ _ _ t b); try done;
    rewrite ?Hs, ?Hc, ?Hhd, ?Hrec, ?length_app; simpl.
  - lia.
  - intros u. by apply (sent_snoc _ gs).
  - rewrite fmap_app. simpl. by rewrite bk_order0, app_assoc.
  - intros Hne. eauto.
  - by rewrite (carried_same _ _ b).
  - rewrite (carried_same _ _ b) by done. auto.
  - apply u64_same; [done|lia].
  - apply u64_same; [done|lia].
  - rewrite (carried_same _ _ b) by done. apply u64_same; [by rewrite bk_dropped0, wrap_wrap|done].
Qed.

Lemma booked_store_drop order left gs r t b m :
  ov = DropOldest → booked order left gs r → gs !! t = Some b →
  ∃ left', booked (order ++ [(t, m)]) left'
    (<[t := b <| b_stored ::= λ l, l ++ [m] |> <| b_due ::= S |>]> gs)
    (store capacity true m r).2.
Proof.
  intros Hov Hbk Hb. destruct (booked_u64 _ _ _ _ Hbk) as [Hua Hud].
  pose proof Hbk as [].
  pose proof (store_drop_contents default_message capacity Hcap Hwidth r m bk_ring0) as Hst.
  destruct (store capacity true m r) as [p r']. simpl.
  destruct Hst as (Hr' & Hc & Hs & Hhd & Hrec & _).
  assert (∃ x rest, contents r ++ [m] = x :: rest) as (x & rest & Hx).
  { destruct (contents r) as [|y l]; [by exists m, []|by exists y, (l ++ [m])]. }
  assert (length (contents r) = length rest) as Hlen.
  { apply (f_equal length) in Hx. rewrite length_app in Hx. simpl in Hx. lia. }
  exists (left ++ [x]).
  eapply (booked_update order left gs r _ _ _ t b); try done;
    rewrite ?Hs, ?Hc, ?Hhd, ?Hrec, ?length_app; simpl.
  - rewrite Hx. simpl. lia.
  - intros u. by apply (sent_snoc _ gs).
  - rewrite fmap_app. simpl. rewrite bk_order0, <-!app_assoc. by rewrite Hx.
  - intros Hne. eauto.
  - rewrite (carried_same _ _ b) by done. by apply sublist_inserts_r.
  - apply u64_same; [done|lia].
  - apply u64_same; [done|lia].
  - rewrite (carried_same _ _ b) by done. unfold inc64. f_equal. lia.
Qed.

Lemma booked_pop order left gs r b :
  booked order left gs r → gs !! d = Some b → b_carry b = [] →
  match pop default_message capacity r with
  | (None, r') => booked order left (<[d := b]> gs) r'
  | (Some (m, p), r') =>
    booked order (left ++ [m]) (<[d := b <| b_held ::= S |> <| b_carry := [m] |>]> gs) r'
  end.
Proof.
  intros Hbk Hb Hcar. destruct (booked_u64 _ _ _ _ Hbk) as [Hua Hud]. pose proof Hbk as [].
  pose proof (pop_contents default_message capacity Hcap Hwidth r bk_ring0) as Hp.
  destruct (pop default_message capacity r) as [[[m p]|] r'].
  - destruct Hp as (Hr' & Hc & Hs & Hhd & Hrec & _). rewrite Hc in *. simpl in *.
    assert (Hold : carried gs = []) by (unfold carried; by rewrite Hb).
    rewrite Hold, app_nil_r in *.
    eapply (booked_update order left gs r _ _ _ d b); try done;
      rewrite ?Hs, ?Hhd, ?Hrec, ?(carried_eq _ b _ Hb), ?Hold, ?app_nil_r, ?length_app; simpl.
    + rewrite Hc. simpl. lia.
    + intros u. case_decide; [subst|done]. by rewrite (bk_sent0 _ _ Hb).
    + by rewrite bk_order0, <-app_assoc.
    + by apply sublist_app.
    + intros Hov. by rewrite bk_exact0.
    + by apply u64_same.
    + by apply u64_same.
    + apply u64_same; [by rewrite bk_dropped0, wrap_wrap|lia].
  - destruct Hp as [-> _]. by eapply booked_calm.
Qed.

Lemma booked_handle order left gs r b m :
  booked order left gs r → gs !! d = Some b → b_carry b = [m] →
  booked order left (<[d := b <| b_carry := [] |> <| b_owing ::= S |>]> gs)
    (r <| handled_ ::= λ l, l ++ [m] |>).
Proof.
  intros Hbk Hb Hcar. destruct (booked_u64 _ _ _ _ Hbk) as [Hua Hud]. pose proof Hbk as [].
  assert (Hold : carried gs = [m]) by (unfold carried; by rewrite Hb).
  eapply (booked_update order left gs r _ _ _ d b); try done; simpl;
    rewrite ?(carried_eq _ b _ Hb); simpl; rewrite ?app_nil_r, ?Hold, ?length_app.
  - by apply (same_ring_ring _ r).
  - intros u. case_decide; [subst|done]. by rewrite (bk_sent0 _ _ Hb).
  - by rewrite <-Hold.
  - by rewrite <-Hold.
  - by apply u64_same.
  - apply u64_same; [done|simpl; lia].
  - apply u64_same; [by rewrite bk_dropped0, wrap_wrap|lia].
Qed.

(** The record of what was stored, and of what was handled. *)
Lemma booked_accepted order left gs r t b n p e :
  booked order left gs r → gs !! t = Some b → b_due b = S n →
  booked order left (<[t := b <| b_due := n |>]> gs) (r <| record_ ::= accepted p e |>).
Proof.
  intros Hbk Hb Hn. destruct (booked_u64 _ _ _ _ Hbk) as [Hua Hud].
  eapply (booked_keep _ _ gs r _ t b); try done; simpl; unfold accepted;
    (case_match; simpl; [|]); try done; try (by apply u64_same);
    unfold inc64; f_equal; lia.
Qed.

Lemma booked_delivered order left gs r t b n answer e :
  booked order left gs r → gs !! t = Some b → b_owing b = S n →
  booked order left (<[t := b <| b_owing := n |>]> gs) (r <| record_ ::= delivered answer e |>).
Proof.
  intros Hbk Hb Hn. destruct (booked_u64 _ _ _ _ Hbk) as [Hua Hud].
  eapply (booked_keep _ _ gs r _ t b); try done; simpl; unfold delivered;
    destruct answer; simpl; try destruct (r_has_handler_failure _); simpl;
    try done; try (by apply u64_same); unfold inc64; f_equal; lia.
Qed.
End Books.
Arguments booked {Sem Msg _} default_message capacity ov d order left gs r.
Arguments carried {Msg} d gs.
