(* ===== verification/BusPrograms.v ===== *)
(** * BusPrograms: the programs of a bus with one queued route in view

    [only] says that a program touches one route; [calm] that it leaves the
    books of the route in view alone.  On the route itself, each program is
    [safe] for the invariant of BusBooks: an accepted emission adds its
    message to the books of its thread, a drain leaves no book open. *)
From stdpp Require Import prelude functions.
From S2P Require Import Prelude Status Lifecycle Interleave Bus BusQueue BusBooks.
Import TypedBus.

Open Scope nat_scope.
Open Scope solar_scope.
Open Scope prog_scope.

Section Only.
Context {Sem Msg : Type} `{SemaphoreOps Sem} (default_message : Msg).
Abbreviation Routes := (nat → Route Sem Msg).

Fixpoint only {A} (j : nat) (p : Prog Env Routes A) : Prop :=
  match p with
  | Then f k => (∀ e rs i, i ≠ j → (f e rs).2 i = rs i) ∧ ∀ b, only j (k b)
  | _ => True
  end.

Lemma only_bind {A B} j (p : Prog Env Routes A) (k : A → Prog Env Routes B) :
  only j p → (∀ a, only j (k a)) → only j (bind p k).
Proof. intros Hp Hk. induction p as [a| |C f k' IH]; simpl in *; [done..|]. naive_solver. Qed.

Lemma on_other {B} j (f : Env → Route Sem Msg → B * Route Sem Msg) e rs i :
  i ≠ j → (on j f e rs).2 i = rs i.
Proof. intros Hne. unfold on. destruct (f e (rs j)) as [b r]. by apply fn_lookup_insert_ne. Qed.
Lemma on_self {B} j (f : Env → Route Sem Msg → B * Route Sem Msg) e rs :
  (on j f e rs).1 = (f e (rs j)).1 ∧ (on j f e rs).2 j = (f e (rs j)).2.
Proof. unfold on. destruct (f e (rs j)) as [b r]. split; [done|apply fn_lookup_insert]. Qed.

Lemma only_on {A B} j f (k : B → Prog Env Routes A) : (∀ b, only j (k b)) → only j (Then (on j f) k).
Proof. intros Hk. split; [intros; by apply on_other|done]. Qed.
Lemma only_ask {A B} j f (k : B → Prog Env Routes A) : (∀ b, only j (k b)) → only j (Then (ask f) k).
Proof. done. Qed.

Ltac only_steps :=
  repeat lazymatch goal with
    | |- only _ (Then (on _ _) _) => apply only_on; intros ?
    | |- only _ (Then (ask _) _) => apply only_ask; intros ?
    | |- only _ (Then ?f _) =>
      progress unfold mutate, change, look, give, try_take, cancelled, invoke_handler
    | |- only _ (bind _ _) => apply only_bind; [|intros ?]
    | |- only _ (Done _) => exact I
    | |- only _ Stalled => exact I
    | |- only _ (match _ with _ => _ end) => case_match
    | |- _ => assumption
    end.

Lemma only_deliver j m : only j (deliver (Sem:=Sem) j m).
Proof. unfold deliver. only_steps. Qed.
Lemma only_give_all n j : only j (give_all (Msg:=Msg) n j).
Proof. induction n; cbn [give_all]; only_steps. Qed.
Lemma only_wait fuel j : only j (wait_take (Msg:=Msg) fuel j).
Proof. induction fuel; cbn [wait_take]; only_steps. Qed.
Lemma only_accept fuel j dl m mode : only j (accept fuel j dl m mode).
Proof.
  destruct dl; cbn [accept clear_pending reset drain]; [exact I|exact I| | |].
  - unfold queued_accept. apply only_bind; [|intros taken; simpl; only_steps].
    unfold take_slot. case_match; [apply only_wait|]. only_steps.
  - unfold latest_accept. only_steps.
  - unfold coalesced_accept. only_steps.
Qed.
Lemma only_clear j dl : only j (clear_pending j dl).
Proof.
  destruct dl; cbn [accept clear_pending reset drain]; [exact I|exact I| | |].
  - unfold queued_clear, change. do 2 (apply only_on; intros ?).
    apply only_bind; [apply only_give_all|]. intros ?. only_steps.
  - unfold flag_clear. only_steps.
  - unfold flag_clear. only_steps.
Qed.
Lemma only_reset j dl : only j (reset j dl).
Proof.
  destruct dl; cbn [accept clear_pending reset drain]; [exact I|exact I| | |].
  - unfold queued_reset, change. do 2 (apply only_on; intros ?). apply only_give_all.
  - unfold latest_reset. only_steps.
  - unfold latest_reset. only_steps.
Qed.
Lemma only_drain fuel j dl : only j (drain default_message fuel j dl).
Proof.
  destruct dl; cbn [accept clear_pending reset drain]; [exact I|exact I| | |].
  - induction fuel; cbn [drain_queue]; [exact I|]. unfold queued_drain_one, give, mutate, change.
    apply only_bind; [apply only_on; intros [[? ?]|]; [|done]|by intros []].
    do 2 (apply only_on; intros ?). apply only_bind; [apply only_deliver|done].
  - unfold latest_drain_one, mutate, change. apply only_bind; [|done].
    apply only_on. intros [?|]; [|done]. apply only_on. intros ?.
    apply only_bind; [apply only_deliver|done].
  - unfold coalesced_drain_one, mutate, change. apply only_bind; [|done].
    apply only_on. intros []; [|done]. apply only_on. intros ?.
    apply only_bind; [apply only_deliver|done].
Qed.
Lemma only_copy j : only j (copy (Sem:=Sem) (Msg:=Msg) j).
Proof. unfold copy. only_steps. Qed.

Lemma only_emit_route message_id subscription_id fuel j sub m mode :
  only j (emit_route message_id subscription_id fuel j sub m mode).
Proof.
  unfold emit_route, look, mutate, change. do 2 (apply only_on; intros ?).
  case_match; [done|]. case_match.
  - apply only_on. intros ?. apply only_bind; [apply only_deliver|by intros []].
  - apply only_bind; [apply only_accept|]. intros acc. case_match; [done|]. case_match; [|done].
    apply only_ask. intros [[? ?]|]; [|done].
    apply only_bind; [apply only_clear|]. intros ?. only_steps.
Qed.
End Only.

(** ** One route in view

    [J] is an invariant of the route [i], with a piece of books per thread;
    [calm_step] are the changes of the route it does not notice. *)
Section View.
Context {Sem Msg G : Type} `{SemaphoreOps Sem}.
Context (J : list G → Route Sem Msg → Prop) (calm_step : Route Sem Msg → Route Sem Msg → Prop).
Context (i : nat) (calm_refl : ∀ r, calm_step r r).
Context (J_calm : ∀ gs r r' t g, J gs r → gs !! t = Some g → calm_step r r' → J (<[t := g]> gs) r').
Abbreviation Routes := (nat → Route Sem Msg).

Definition kept (gs : list G) (rs : Routes) : Prop := J gs (rs i).
(** The executor takes the work it is given. *)
Definition accepting_executor (e : Env) : Prop := submission e = None.
Abbreviation safe := (safe kept accepting_executor).

Fixpoint calm {A} (p : Prog Env Routes A) : Prop :=
  match p with
  | Then f k => (∀ e rs, calm_step (rs i) ((f e rs).2 i)) ∧ ∀ b, calm (k b)
  | _ => True
  end.

Lemma only_calm {A} j (p : Prog Env Routes A) : i ≠ j → only j p → calm p.
Proof.
  intros Hne. induction p as [a| |B f k IH]; simpl; [done..|]. intros [Hf Hk]. split; [|auto].
  intros e rs. rewrite Hf by done. apply calm_refl.
Qed.

Lemma safe_calm {A} t g (p : Prog Env Routes A) : calm p → safe t (λ g' _, g' = g) g p.
Proof.
  induction p as [a| |B f k IH]; simpl; [done..|]. intros [Hf Hk] e rs gs _ Hg HJ.
  exists g. split; [|auto]. by eapply J_calm.
Qed.

(** A calm program, then the rest. *)
Lemma safe_calm_bind {A B} t Q g (p : Prog Env Routes A) (k : A → Prog Env Routes B) :
  calm p → (∀ a, safe t Q g (k a)) → safe t Q g (bind p k).
Proof.
  intros Hp Hk. apply safe_bind. eapply safe_mono; [|by apply safe_calm]. by intros g' a ->.
Qed.

(** One step on the route. *)
Lemma safe_on {A B} t Q g f (k : B → Prog Env Routes A) :
  (∀ e r gs, gs !! t = Some g → J gs r →
     ∃ g', J (<[t := g']> gs) (f e r).2 ∧ safe t Q g' (k (f e r).1)) →
  safe t Q g (Then (on i f) k).
Proof.
  intros Hf e rs gs _ Hg HJ. destruct (on_self i f e rs) as [H1 H2].
  destruct (Hf e (rs i) gs Hg HJ) as (g' & HJ' & Hk).
  exists g'. rewrite H1. split; [|done]. unfold kept. by rewrite H2.
Qed.

Lemma safe_calm_on {A B} t Q g f (k : B → Prog Env Routes A) :
  (∀ e r, calm_step r (f e r).2) → (∀ b, safe t Q g (k b)) → safe t Q g (Then (on i f) k).
Proof.
  intros Hf Hk. apply safe_on. intros e r gs Hg HJ. exists g. split; [|done]. by eapply J_calm.
Qed.

Lemma safe_ask {A B} t Q g f (k : B → Prog Env Routes A) :
  (∀ e, accepting_executor e → safe t Q g (k (f e))) → safe t Q g (Then (ask f) k).
Proof.
  intros Hk e rs gs He Hg HI. exists g. rewrite list_insert_id by done. split; [done|]. by apply Hk.
Qed.
End View.

(** ** A queued route *)
Section Safe.
Context {Sem Msg : Type} `{Semaphores Sem} (default_message : Msg) (capacity : nat).
Context (Hcap : 0 < capacity) (Hwidth : (Z.of_nat capacity < 2 ^ 32)%Z).
Context (ov : Overflow) (d i : nat).
Abbreviation Routes := (nat → Route Sem Msg).

Definition in_books (gs : list (Books Msg)) (r : Route Sem Msg) : Prop :=
  ∃ order left, booked default_message capacity ov d order left gs r.
Abbreviation safe := (safe (kept in_books i) accepting_executor).

Lemma queued_calm_refl (r : Route Sem Msg) : queued_calm r r.
Proof. repeat split; done. Qed.
Lemma in_books_calm gs r r' t g :
  in_books gs r → gs !! t = Some g → queued_calm r r' → in_books (<[t := g]> gs) r'.
Proof. intros (order & left & Hbk) Hg Hr. exists order, left. by eapply booked_calm. Qed.

(** [safe_on] with the books open, and the calm steps of a queued route. *)
Lemma safe_booked {A B} t Q g f (k : B → Prog Env Routes A) :
  (∀ e r gs order left, gs !! t = Some g → booked default_message capacity ov d order left gs r →
     ∃ g', in_books (<[t := g']> gs) (f e r).2 ∧ safe t Q g' (k (f e r).1)) →
  safe t Q g (Then (on i f) k).
Proof. intros Hf. apply safe_on. intros e r gs Hg (order & left & Hbk). by eapply Hf. Qed.
Lemma safe_quiet {A B} t Q g f (k : B → Prog Env Routes A) :
  (∀ e r, queued_calm r (f e r).2) → (∀ b, safe t Q g (k b)) → safe t Q g (Then (on i f) k).
Proof. apply safe_calm_on, in_books_calm. Qed.

(** ** Emission *)
Lemma safe_try_take {A} t Q g (k : bool → Prog Env Routes A) :
  safe t Q (g <| b_held ::= S |>) (k true) → safe t Q g (k false) →
  safe t Q g (Then (try_take i) k).
Proof.
  intros Hyes Hno. apply safe_booked. intros e r gs order left Hg Hbk.
  destruct (sem_take (slots_ r)) as [s|] eqn:Hs; simpl.
  - exists (g <| b_held ::= S |>). split; [|done]. exists order, left. by apply booked_take.
  - exists g. split; [|done]. exists order, left. by rewrite list_insert_id.
Qed.

Lemma safe_take_slot {A} t Q g fuel mode (k : bool → Prog Env Routes A) :
  safe t Q (g <| b_held ::= S |>) (k true) → safe t Q g (k false) →
  safe t Q g (bind (take_slot fuel i ov mode) k).
Proof.
  intros Hyes Hno. unfold take_slot. case_match; [|by apply safe_try_take].
  induction fuel as [|fuel IH]; [exact I|]. cbn [wait_take bind]. apply safe_try_take; [done|].
  apply safe_ask. intros e _. by destruct (wait_over e).
Qed.

Lemma safe_accepted {A} t Q g n pending (k : unit → Prog Env Routes A) :
  b_due g = S n → safe t Q (g <| b_due := n |>) (k tt) →
  safe t Q g (Then (mutate i (accepted pending)) k).
Proof.
  intros Hn Hk. apply safe_booked. intros e r gs order left Hg Hbk.
  exists (g <| b_due := n |>). split; [|done]. exists order, left. by eapply booked_accepted.
Qed.

(** An accepted message is in the books of its thread; without [DropNewest]
    a message is accepted or reported. *)
Lemma safe_queued_accept t g fuel m mode :
  safe t (λ g' a, g' = (if acc_accepted a then g <| b_stored ::= λ l, l ++ [m] |> else g)
                  ∧ (acc_status a = SOk → ov ≠ DropNewest → acc_accepted a = true)
                  ∧ (acc_status a ≠ SOk → acc_accepted a = false)) g
    (queued_accept fuel i capacity ov m mode).
Proof.
  unfold queued_accept. apply safe_take_slot.
  - apply safe_booked. intros e r gs order left Hg Hbk.
    destruct g as [h stored c due owing].
    exists (mkBooks h (stored ++ [m]) c (S due) owing). split.
    + exists (order ++ [(t, m)]), left. exact (booked_store Hcap Hwidth _ _ _ _ _ _ h m Hbk Hg eq_refl).
    + by apply (safe_accepted _ _ _ due).
  - assert (Hrefuse : ∀ st w, safe t (λ g' a, g' = (if acc_accepted a then g <| b_stored ::= λ l, l ++ [m] |> else g)
                  ∧ (acc_status a = SOk → ov ≠ DropNewest → acc_accepted a = true)
                  ∧ (acc_status a ≠ SOk → acc_accepted a = false)) g
      (Then (mutate i (λ _, rejected st w)) (λ _, Done (mkAcceptance st false false false w))) ∨ st = SOk).
    { intros st w. destruct (decide (st = SOk)) as [->|Hst]; [by right|left].
      apply safe_quiet; [|intros; split; done].
      intros e r. unfold rejected. destruct w; done. }
    simpl. destruct (ov) eqn:Hov.
    + by destruct (Hrefuse SFull false).
    + apply safe_quiet; [done|]. intros ?. split; done.
    + apply safe_booked. intros e r gs order left Hg Hbk.
      destruct (booked_store_drop Hcap Hwidth order left gs r t g m Hov Hbk Hg) as (left' & Hst).
      destruct g as [h stored c due owing].
      exists (mkBooks h (stored ++ [m]) c (S due) owing). split; [exists (order ++ [(t, m)]), left'; exact Hst|].
      by apply (safe_accepted _ _ _ due).
    + destruct (_ && _); [by destruct (Hrefuse STimeout true)|by destruct (Hrefuse SFull false)].
Qed.

(** ** The drain *)
Lemma safe_deliver {A} h stored due owing m (k : result Status unit → Prog Env Routes A) Q :
  (∀ a, safe d Q (mkBooks h stored [] due owing) (k a)) →
  safe d Q (mkBooks h stored [m] due owing) (bind (deliver i m) k).
Proof.
  intros Hk. unfold deliver. cbn [bind].
  apply safe_quiet; [done|]. intros _. apply safe_quiet; [done|]. intros _.
  apply safe_booked. intros e r gs order left Hg Hbk.
  exists (mkBooks h stored [] due (S owing)). split.
  { exists order, left. exact (booked_handle Hcap _ _ _ _ _ m Hbk Hg eq_refl). }
  cbn [fst]. apply safe_quiet; [done|]. intros _.
  apply safe_booked. intros e' r' gs' order' left' Hg' Hbk'.
  exists (mkBooks h stored [] due owing). split; [|apply Hk]. exists order', left'.
  exact (booked_delivered Hcap _ _ _ _ _ _ owing _ e' Hbk' Hg' eq_refl).
Qed.

Lemma safe_drain_one {A} h stored due owing (k : bool → Prog Env Routes A) Q :
  (∀ more, safe d Q (mkBooks h stored [] due owing) (k more)) →
  safe d Q (mkBooks h stored [] due owing) (bind (queued_drain_one default_message i capacity) k).
Proof.
  intros Hk. unfold queued_drain_one. cbn [bind]. apply safe_booked.
  intros e r gs order left Hg Hbk.
  pose proof (booked_pop Hcap Hwidth order left gs r _ Hbk Hg eq_refl) as Hp.
  destruct (pop default_message capacity r) as [[[m p]|] r']; cbn [fst snd].
  - exists (mkBooks (S h) stored [m] due owing). split; [by exists order, (left ++ [m])|]. cbn [bind].
    apply safe_booked. intros e2 r2 gs2 order2 left2 Hg2 Hbk2.
    exists (mkBooks h stored [m] due owing). split.
    { exists order2, left2. exact (booked_give Hcap _ _ _ _ _ _ h Hbk2 Hg2 eq_refl). }
    apply safe_quiet; [done|]. intros _.
    apply safe_bind, safe_deliver. intros a. apply Hk.
  - exists (mkBooks h stored [] due owing). split; [by exists order, left|]. apply Hk.
Qed.

Lemma safe_drain_queue g fuel :
  b_carry g = [] → safe d (λ g' _, g' = g) g (drain_queue default_message fuel i capacity).
Proof.
  destruct g as [h stored c due owing]. simpl. intros ->. induction fuel as [|fuel IH]; [exact I|]. cbn [drain_queue].
  apply safe_drain_one. by intros [].
Qed.
End Safe.
