(* ===== verification/BusThreads.v ===== *)
(** * BusThreads: emitters, drains and readers around one route in view

    The threads of a bus, and what an emission and a thread leave in the books
    of a route, given how the route itself takes a message and is drained. *)
From stdpp Require Import prelude functions.
From S2P Require Import Prelude Status Lifecycle Interleave Bus BusQueue BusBooks BusPrograms.
Import TypedBus.

Open Scope nat_scope.
Open Scope solar_scope.
Open Scope prog_scope.

(** ** Threads of the bus

    Emitters, the work items that drain routes, and readers of records, in
    any number; each makes a list of calls. *)
Inductive BusCall (Msg : Type) : Type :=
  | CallEmit (message : nat) (m : Msg) (mode : EmitMode)
  | CallDrain (j : nat)
  | CallRecord (j : nat).
Arguments CallEmit {Msg} message m mode. Arguments CallDrain {Msg} j. Arguments CallRecord {Msg} j.
Inductive BusAnswer : Type :=
  | AnsEmit (r : result TypedBus.Error unit)
  | AnsDrain
  | AnsRecord (r : RouteRecord).

(** The payloads a list of calls emits of one message type, and those whose
    emission succeeded. *)
Definition payload_of {Msg} (message : nat) (c : BusCall Msg) : option Msg :=
  match c with
  | CallEmit message' m _ => if decide (message' = message) then Some m else None
  | _ => None
  end.
Definition emitted {Msg} (message : nat) (calls : list (BusCall Msg)) : list Msg :=
  omap (payload_of message) calls.
Definition taken {Msg} (message : nat) (calls : list (BusCall Msg)) (answers : list BusAnswer) : list Msg :=
  omap (λ ca, match ca.2 with AnsEmit (Ok _) => payload_of message ca.1 | _ => None end)
    (zip calls answers).

Section Threads.
Context {Sem Msg : Type} `{SemaphoreOps Sem} (default_message : Msg).
Context (message_id subscription_id subscriber : nat → Z) (subscriptions : list Subscription).
Abbreviation Routes := (nat → Route Sem Msg).

Definition bus_call (fuel : nat) (c : BusCall Msg) : Prog Env Routes BusAnswer :=
  match c with
  | CallEmit message m mode =>
    r ⇇ emit_message message_id subscription_id subscriptions fuel message m mode; Done (AnsEmit r)
  | CallDrain j =>
    match subscriptions !! j with
    | Some sub => _ ⇇ drain default_message fuel j (sub_delivery sub); Done AnsDrain
    | None => Done AnsDrain
    end
  | CallRecord j => r ⇇ route_record subscriber j; Done (AnsRecord r)
  end.
Fixpoint bus_thread (fuel : nat) (calls : list (BusCall Msg)) : Prog Env Routes (list BusAnswer) :=
  match calls with
  | [] => Done []
  | c :: calls => a ⇇ bus_call fuel c; l ⇇ bus_thread fuel calls; Done (a :: l)
  end.

(** The facility brought up by the lifecycle engine. *)
Definition bring_up : Prog Env Routes (result Status unit) :=
  _ ⇇ init subscriptions; start subscriptions.
End Threads.

(** ** The routes and their numbers *)
Lemma indexed_nodup (subscriptions : list Subscription) : NoDup (indexed subscriptions).*1.
Proof.
  unfold indexed. enough (∀ n, NoDup (imap (λ k (x : Subscription), (n + k, x)) subscriptions).*1
    ∧ ∀ k, k ∈ (imap (λ k (x : Subscription), (n + k, x)) subscriptions).*1 → n ≤ k) as Hn
    by apply (Hn 0).
  induction subscriptions as [|x l IH]; intros n; [split; [constructor|by intros k ?%not_elem_of_nil]|].
  assert (Hext : imap ((λ k (x : Subscription), (n + k, x)) ∘ S) l = imap (λ k (x : Subscription), (S n + k, x)) l).
  { apply imap_ext. intros k y _. simpl. f_equal. lia. }
  rewrite imap_cons, Hext. destruct (IH (S n)) as [Hnd Hle]. simpl. split.
  - apply list.NoDup_cons. split; [|done]. intros Hin. apply Hle in Hin. lia.
  - intros k Hk%elem_of_cons. destruct Hk as [->|Hk]; [lia|]. apply Hle in Hk. lia.
Qed.
Lemma indexed_elem (subscriptions : list Subscription) j sub :
  subscriptions !! j = Some sub → (j, sub) ∈ indexed subscriptions.
Proof.
  intros Hj. apply (list_elem_of_lookup_2 _ j). unfold indexed.
  rewrite list_lookup_imap. by rewrite Hj.
Qed.

(** ** One route among all the routes

    [settled] is the books of a thread between its calls, by the messages it
    has stored; [sure] holds if the route stores every message it does not
    report. *)
Section InView.
Context {Sem Msg G : Type} `{SemaphoreOps Sem} (default_message : Msg).
Context (message_id subscription_id subscriber : nat → Z) (subscriptions : list Subscription).
Context (J : list G → Route Sem Msg → Prop) (calm_step : Route Sem Msg → Route Sem Msg → Prop).
Context (view : Subscription) (i d : nat) (sure : Prop) (settled : list Msg → G).
Context (calm_refl : ∀ r, calm_step r r).
Context (J_calm : ∀ gs r r' t g, J gs r → gs !! t = Some g → calm_step r r' → J (<[t := g]> gs) r').
Context (calm_copy : ∀ r r', handled_ r' = handled_ r → slots_ r' = slots_ r → storage_ r' = storage_ r →
  head_ r' = head_ r → tail_ r' = tail_ r → count_ r' = count_ r → payload_ r' = payload_ r →
  pending_ r' = pending_ r → r_accepted (record_ r') = r_accepted (record_ r) →
  r_delivered (record_ r') = r_delivered (record_ r) →
  r_dropped_oldest (record_ r') = r_dropped_oldest (record_ r) → calm_step r r').
Context (settled_inj : ∀ l l', settled l = settled l' → l = l').
Context (Hview : subscriptions !! i = Some view).
Abbreviation Routes := (nat → Route Sem Msg).
Abbreviation safe := (Interleave.safe (kept J i) accepting_executor).
Abbreviation calm := (calm (Sem:=Sem) (Msg:=Msg) calm_step i).
Abbreviation message := (sub_message view).
Abbreviation emit_route := (emit_route message_id subscription_id).
Abbreviation emit_routes := (emit_routes message_id subscription_id).

Context (safe_emit_route : ∀ t fuel stored m mode,
  safe t (λ g a, (g = settled stored ∨ g = settled (stored ++ [m]))
            ∧ (failed a = false → sure → g = settled (stored ++ [m]))) (settled stored)
    (emit_route fuel i view m mode)).
Context (safe_drain : ∀ fuel stored,
  safe d (λ g _, g = settled stored) (settled stored) (drain default_message fuel i (sub_delivery view))).

Lemma count_attempt_failed agg a : (count_attempt agg a).2 = failed a || agg.2.
Proof. unfold count_attempt. destruct (failed a), agg as [e []]; done. Qed.

Lemma safe_emit_elsewhere t fuel routes message' m mode stored agg :
  i ∉ routes.*1 →
  safe t (λ g agg', g = settled stored ∧ (agg'.2 = false → agg.2 = false)) (settled stored)
    (emit_routes fuel routes message' m mode agg).
Proof.
  revert agg. induction routes as [|[j sub] routes IH]; intros agg Hi; [done|].
  simpl in Hi. apply not_elem_of_cons in Hi as [Hne Hi]. cbn [TypedBus.emit_routes].
  case_bool_decide; [|by apply IH].
  apply (safe_calm_bind _ _ _ J_calm); [by apply (only_calm _ i calm_refl j), only_emit_route|].
  intros a. eapply safe_mono; [|by apply IH].
  intros g agg' (Hg & Ha). split; [done|]. intros Hf. specialize (Ha Hf).
  rewrite count_attempt_failed in Ha. by destruct (failed a).
Qed.

(** What one emission leaves in the books of its thread. *)
Definition stored_by (message' : nat) (m : Msg) (failed : bool) (l : list Msg) : Prop :=
  l `sublist_of` (if decide (message' = message) then [m] else [])
  ∧ (failed = false → sure → l = if decide (message' = message) then [m] else []).

Lemma safe_emit_routes t fuel routes message' m mode stored agg :
  NoDup routes.*1 → (i, view) ∈ routes →
  safe t (λ g agg', ∃ l, g = settled (stored ++ l) ∧ stored_by message' m agg'.2 l
            ∧ (agg'.2 = false → agg.2 = false)) (settled stored)
    (emit_routes fuel routes message' m mode agg).
Proof.
  revert agg. induction routes as [|[j sub] routes IH]; intros agg Hnd Hin;
    [by apply not_elem_of_nil in Hin|].
  simpl in Hnd. apply list.NoDup_cons in Hnd as [Hj Hnd]. cbn [TypedBus.emit_routes].
  apply elem_of_cons in Hin as [[= <- <-]|Hin].
  - case_bool_decide as Hm.
    + apply safe_bind. eapply safe_mono; [|apply safe_emit_route].
      intros g a (Hg & Hok).
      assert (∃ l, g = settled (stored ++ l) ∧ stored_by message' m (failed a) l) as (l & -> & Hl).
      { destruct Hg as [->| ->]; [exists []; rewrite app_nil_r|exists [m]]; (split; [done|]);
          unfold stored_by; rewrite decide_True by done; (split; [|]).
        - apply sublist_nil_l.
        - intros Hf Hov. specialize (Hok Hf Hov). apply settled_inj in Hok.
          apply (f_equal length) in Hok. rewrite length_app in Hok. simpl in Hok. lia.
        - done.
        - done. }
      eapply safe_mono; [|by apply safe_emit_elsewhere].
      intros g agg' (-> & Ha). exists l. split; [done|].
      rewrite count_attempt_failed in Ha. destruct Hl as [Hl1 Hl2]. split; [split; [done|]|].
      * intros Hf. specialize (Ha Hf). apply orb_false_iff in Ha as [Hfa _]. auto.
      * intros Hf. specialize (Ha Hf). by apply orb_false_iff in Ha as [_ ?].
    + eapply safe_mono; [|by apply safe_emit_elsewhere].
      intros g agg' (-> & Ha). exists []. rewrite app_nil_r. split; [done|].
      unfold stored_by. rewrite decide_False by done. done.
  - assert (Hne : i ≠ j). { intros ->. apply Hj. apply list_elem_of_fmap. by exists (j, view). }
    case_bool_decide; [|by apply IH].
    apply (safe_calm_bind _ _ _ J_calm); [by apply (only_calm _ i calm_refl j), only_emit_route|].
    intros a. eapply safe_mono; [|by apply IH].
    intros g agg' (l & Hg & Hl & Ha). exists l. split; [done|]. split; [done|].
    intros Hf. specialize (Ha Hf). rewrite count_attempt_failed in Ha. by destruct (failed a).
Qed.

Lemma safe_emit_message t fuel message' m mode stored :
  safe t (λ g r, ∃ l, g = settled (stored ++ l) ∧ stored_by message' m (negb (is_ok r)) l)
    (settled stored) (emit_message message_id subscription_id subscriptions fuel message' m mode).
Proof.
  assert (Hrefuse : ∀ err : TypedBus.Error, ∃ l, settled stored = settled (stored ++ l)
    ∧ stored_by message' m (negb (is_ok (Err (A:=unit) err))) l).
  { intros err. exists []. rewrite app_nil_r. split; [done|]. split; [apply sublist_nil_l|done]. }
  unfold emit_message.
  assert (Hemit : safe t (λ g r, ∃ l, g = settled (stored ++ l) ∧ stored_by message' m (negb (is_ok r)) l)
    (settled stored)
    (state ← ask system;
     if negb (bool_decide (state = Running)) then
       Done (Err (make_error message_id message' (emit_operation mode) SNotReady NotReady))
     else
       agg ⇇ emit_routes fuel (indexed subscriptions) message' m mode
              (make_error message_id message' (emit_operation mode) SOk InternalInvariant, false);
       Done (if (agg.2 : bool) then Err agg.1 else Ok tt))).
  { apply safe_ask. intros e _. case_bool_decide; [|apply Hrefuse]. simpl.
    apply safe_bind. eapply safe_mono; [|apply safe_emit_routes; [apply indexed_nodup|by apply indexed_elem]].
    intros g agg (l & -> & Hl & _). exists l. split; [done|]. by destruct agg as [err []]. }
  case_bool_decide; [exact Hemit|].
  apply safe_ask. intros e _. destruct (in_isr e); [apply Hrefuse|exact Hemit].
Qed.

(** A thread: what it stored is made of what it emitted, and contains what it
    was told succeeded. *)
Definition accounted (calls : list (BusCall Msg)) (answers : list BusAnswer) (l : list Msg) : Prop :=
  l `sublist_of` emitted message calls
  ∧ (sure → taken message calls answers `sublist_of` l).

Lemma safe_thread t fuel calls stored :
  (CallDrain i ∈ calls → t = d) →
  safe t (λ g answers, ∃ l, g = settled (stored ++ l) ∧ accounted calls answers l) (settled stored)
    (bus_thread default_message message_id subscription_id subscriber subscriptions fuel calls).
Proof.
  revert stored. induction calls as [|c calls IH]; intros stored Hd; cbn [bus_thread].
  { exists []. by rewrite app_nil_r. }
  assert (Hd' : CallDrain i ∈ calls → t = d).
  { intros Hin. apply Hd. by apply elem_of_cons; right. }
  apply safe_bind.
  enough (Hc : safe t (λ g a, ∃ l, g = settled (stored ++ l)
    ∧ l `sublist_of` option_list (payload_of message c)
    ∧ (sure → option_list (match a with AnsEmit (Ok _) => payload_of message c | _ => None end) `sublist_of` l))
    (settled stored) (bus_call default_message message_id subscription_id subscriber subscriptions fuel c)).
  { eapply safe_mono; [|exact Hc]. intros g a (l & -> & Hl1 & Hl2).
    apply safe_bind. eapply safe_mono; [|by apply IH].
    intros g answers (l' & -> & H1 & H2). exists (l ++ l'). rewrite app_assoc. split; [done|].
    unfold accounted, emitted, taken in *. cbn [omap list_omap zip zip_with fst snd]. split.
    - destruct (payload_of message c); simpl in *; [|by apply sublist_nil_r in Hl1; subst].
      by apply (sublist_app _ [_]).
    - intros Hov. specialize (Hl2 Hov). specialize (H2 Hov).
      destruct (match a with AnsEmit (Ok _) => _ | _ => _ end); simpl in *.
      + by apply (sublist_app [_]).
      + by apply sublist_inserts_l. }
  assert (Hnone : ∀ p : Prog Env Routes BusAnswer, calm p →
    payload_of message c = None →
    safe t (λ g a, ∃ l, g = settled (stored ++ l)
    ∧ l `sublist_of` option_list (payload_of message c)
    ∧ (sure → option_list (match a with AnsEmit (Ok _) => payload_of message c | _ => None end) `sublist_of` l))
    (settled stored) p).
  { intros p Hp Hno. eapply safe_mono; [|by apply (safe_calm _ _ _ J_calm)]. intros g a ->. exists [].
    rewrite app_nil_r, Hno. split; [done|]. split; [done|]. intros _. by destruct a as [[]| |]. }
  destruct c as [message' m mode|j|j]; cbn [bus_call].
  - apply safe_bind. eapply safe_mono; [|by apply safe_emit_message].
    intros g r (l & -> & Hl1 & Hl2). exists l. split; [done|]. cbn [payload_of].
    destruct (decide (message' = message)); (split; [done|]); intros Hov;
      destruct r; simpl; try apply sublist_nil_l; by rewrite Hl2.
  - destruct (decide (j = i)) as [->|Hne].
    + rewrite Hview. apply safe_bind.
      assert (t = d) as -> by (apply Hd, elem_of_cons; by left).
      eapply safe_mono; [|by apply safe_drain]. intros g a ->. exists []. rewrite app_nil_r.
      split; [done|]. split; [done|]. intros _. apply sublist_nil_l.
    + apply Hnone; [|done..]. destruct (subscriptions !! j); [|done].
      apply (only_calm _ i calm_refl j); [done|]. apply only_bind; [apply only_drain|done].
  - apply Hnone; [|done..]. unfold route_record, copy. cbn [bind]. split; [|done].
    intros e rs. unfold on. simpl. destruct (decide (i = j)) as [->|Hne].
    + rewrite fn_lookup_insert. by apply calm_copy.
    + rewrite fn_lookup_insert_ne by done. apply calm_refl.
Qed.

(** ** The system of threads *)
Definition bus_start (fuel : nat) (calls : list (list (BusCall Msg))) (rs : Routes) :
  Routes * list (Prog Env Routes (list BusAnswer)) :=
  (rs, map (bus_thread default_message message_id subscription_id subscriber subscriptions fuel) calls).

Lemma start_safe fuel calls rs :
  J (map (λ _, settled []) calls) (rs i) →
  (∀ t cs, calls !! t = Some cs → CallDrain i ∈ cs → t = d) →
  all_safe (kept J i) accepting_executor
    (λ t g answers, ∃ l, g = settled l ∧ accounted (default [] (calls !! t)) answers l)
    (bus_start fuel calls rs).
Proof.
  intros HJ Hdrain. exists (map (λ _, settled []) calls). split; [done|]. split.
  - simpl. by rewrite !length_map.
  - intros t p Ht. simpl in Ht. rewrite list_lookup_fmap in Ht.
    destruct (calls !! t) as [cs|] eqn:Hcs; [|done]. injection Ht as <-.
    exists (settled []). split; [by rewrite list_lookup_fmap, Hcs|].
    apply (safe_thread t fuel cs []). eauto.
Qed.

(** When every thread has returned, the books are settled. *)
Lemma threads_settled fuel calls rs sch :
  J (map (λ _, settled []) calls) (rs i) →
  (∀ t cs, calls !! t = Some cs → CallDrain i ∈ cs → t = d) →
  Forall (λ te, submission te.2 = None) sch →
  let s := run sch (bus_start fuel calls rs) in
  ∃ gs, J gs (s.1 i) ∧ ∀ answers, s.2 = map Done answers →
    (∀ t g, gs !! t = Some g → ∃ l, g = settled l)
    ∧ ∀ t cs ans, calls !! t = Some cs → answers !! t = Some ans →
        ∃ l, gs !! t = Some (settled l) ∧ accounted cs ans l.
Proof.
  intros HJ Hdrain Hsch s.
  pose proof (start_safe fuel calls rs HJ Hdrain) as Hsafe.
  eapply all_safe_run in Hsafe as (gs & Hgs & Hlen & Hall); [|exact Hsch].
  fold s in Hgs, Hlen, Hall. exists gs. split; [exact Hgs|]. intros answers Hans.
  assert (Hend : ∀ t ans, answers !! t = Some ans → ∃ l, gs !! t = Some (settled l)
    ∧ accounted (default [] (calls !! t)) ans l).
  { intros t ans Ha. destruct (Hall t (Done ans)) as (g & Hg & l & -> & Hacc).
    { by rewrite Hans, list_lookup_fmap, Ha. }
    by exists l. }
  split.
  - intros t g Hg. assert (is_Some (answers !! t)) as [ans Ha].
    { apply lookup_lt_is_Some. apply lookup_lt_Some in Hg. by rewrite Hlen, Hans, length_map in Hg. }
    destruct (Hend _ _ Ha) as (l & Hl & _). exists l. congruence.
  - intros t cs ans Hcs Ha. destruct (Hend _ _ Ha) as (l & Hl & Hacc).
    exists l. by rewrite Hcs in Hacc.
Qed.
End InView.

(** ** A concrete bus

    A counter with a limit is a semaphore; a route with storage for its
    capacity; an environment in which nothing goes wrong. *)
#[export] Instance counter_ops : SemaphoreOps (nat * nat) := {
  sem_count := fst; sem_limit := snd;
  sem_take s := match s with (S n, l) => Some (n, l) | (O, _) => None end;
  sem_give s := (Nat.min (S s.1) s.2, s.2);
  sem_reset s := (O, s.2) }.
#[export] Instance counter_semaphore : Semaphores (nat * nat).
Proof. split; by intros [[|n] l]; intros; simplify_eq/=. Qed.

Definition fair : Env := mkEnv 0 false Running false false None None.
Definition blank (capacity : nat) : nat → Route (nat * nat) nat :=
  λ _, mkRoute default_record false 0 [] (0, capacity) (replicate capacity 0) 0 0 0 0 false.
Definition brought_up (subscriptions : list Subscription) (capacity : nat) : nat → Route (nat * nat) nat :=
  match alone fair (bring_up subscriptions) (blank capacity) with
  | Some (_, rs) => rs
  | None => blank capacity
  end.
Definition plain_start (subscriptions : list Subscription) (capacity : nat) (calls : list (list (BusCall nat))) :=
  bus_start 0 Z.of_nat Z.of_nat Z.of_nat subscriptions 9 calls (brought_up subscriptions capacity).
(** [n] steps of each thread named, in turn. *)
Definition turns (e : Env) (l : list (nat * nat)) : list (nat * Env) :=
  flat_map (λ tn, replicate tn.2 (tn.1, e)) l.
