(* ===== verification/BusProps.v ===== *)
(** * BusProps: delivery by a queued route *)
From stdpp Require Import prelude functions.
From S2P Require Import Prelude Status Lifecycle Interleave Bus BusQueue BusBooks BusPrograms BusThreads.
Import TypedBus.

Open Scope nat_scope.
Open Scope solar_scope.
Open Scope prog_scope.

(** ** Bringing a queued route up *)
Section Ready.
Context {Sem Msg : Type} `{Semaphores Sem} (default_message : Msg).
Context (capacity : nat) (i : nat) (e : Env).
Abbreviation Routes := (nat → Route Sem Msg).

Record ready (r : Route Sem Msg) : Prop := {
  ready_ring : ring capacity r;
  ready_empty : count_ r = 0%Z;
  ready_permits : sem_count (slots_ r) = capacity;
  ready_handled : handled_ r = [];
  ready_accepted : r_accepted (record_ r) = 0%Z;
  ready_delivered : r_delivered (record_ r) = 0%Z;
  ready_dropped : r_dropped_oldest (record_ r) = 0%Z }.
Record unused (r : Route Sem Msg) : Prop := {
  unused_storage : length (storage_ r) = capacity;
  unused_limit : sem_limit (slots_ r) = capacity;
  unused_handled : handled_ r = [] }.

Lemma alone_only {A} j (p : Prog Env Routes A) s a s' :
  only j p → i ≠ j → alone e p s = Some (a, s') → s' i = s i.
Proof.
  intros Hp Hne. revert s. induction p as [a'| |B f k IH]; simpl in *; intros s Hs; simplify_eq; [done|].
  destruct Hp as [Hf Hk]. specialize (Hf e s i Hne). destruct (f e s) as [b s1]. simpl in Hf.
  by rewrite (IH b (Hk b) s1 Hs).
Qed.

Lemma alone_for_each {B} (f : nat * Subscription → B → Prog Env Routes B) l sub (P P' : Route Sem Msg → Prop) b b' s s' :
  (∀ x b, only x.1 (f x b)) → NoDup l.*1 → (i, sub) ∈ l →
  (∀ b b' s s', P (s i) → alone e (f (i, sub) b) s = Some (b', s') → P' (s' i)) →
  P (s i) → alone e (for_each l f b) s = Some (b', s') → P' (s' i).
Proof.
  intros Hf Hnd Hin HP. revert b s. induction l as [|x l IH]; [by apply not_elem_of_nil in Hin|].
  intros b s Hs. simpl. rewrite alone_bind.
  destruct (alone e (f x b) s) as [[b1 s1]|] eqn:H1; [|done]. simpl.
  apply list.NoDup_cons in Hnd as [Hx Hnd]. apply elem_of_cons in Hin as [<-|Hin].
  - intros Hrest. specialize (HP _ _ _ _ Hs H1).
    enough (s' i = s1 i) as -> by done. clear -Hx Hrest Hf. simpl in Hx.
    revert b1 s1 Hrest. induction l as [|y l IH]; simpl; intros b1 s1 Hrest; [by simplify_eq|].
    rewrite alone_bind in Hrest. destruct (alone e (f y b1) s1) as [[b2 s2]|] eqn:H2; [|done].
    simpl in Hrest. simpl in Hx. apply not_elem_of_cons in Hx as [Hne Hx].
    rewrite (IH Hx _ _ Hrest). by eapply alone_only.
  - intros Hrest. eapply IH; [done..| |exact Hrest].
    rewrite (alone_only x.1 (f x b) s b1 s1); [done..| |done].
    intros ->. apply Hx. apply list_elem_of_fmap. by exists (x.1, sub).
Qed.

Lemma alone_change {A} f (k : unit → Prog Env Routes A) s :
  alone e (Then (change i f) k) s = alone e (k tt) (<[i := f e (s i)]> s).
Proof. done. Qed.

Lemma alone_give_all n (s : Routes) :
  ∃ s', alone e (give_all n i) s = Some (tt, s')
    ∧ s' i = (s i <| slots_ := Nat.iter n sem_give (slots_ (s i)) |>).
Proof.
  revert s. induction n as [|n IH]; intros s; cbn [give_all].
  { exists s. split; [done|]. by destruct (s i). }
  destruct (IH (<[i := s i <| slots_ ::= sem_give |>]> s)) as (s' & Hs & Hi).
  exists s'. split; [done|]. rewrite Hi, fn_lookup_insert. simpl.
  by rewrite <-Nat.iter_succ_r.
Qed.

Lemma iter_give n s :
  sem_limit (Nat.iter n sem_give s) = sem_limit s
  ∧ sem_count (Nat.iter n sem_give s) = if decide (n = 0) then sem_count s
      else Nat.min (n + sem_count s) (sem_limit s).
Proof.
  induction n as [|n [IHl IHc]]; [done|]. rewrite !Nat.iter_succ, give_limit, give_count, IHl, IHc. split; [done|]. rewrite (decide_False (P := S n = 0)) by lia. destruct (decide (n = 0)); subst; lia.
Qed.

Lemma only_init_route j sub : only j (init_route (Sem:=Sem) (Msg:=Msg) j sub).
Proof.
  unfold init_route. apply only_bind.
  - unfold initialize, mutate, change. do 3 (apply only_on; intros ?). exact I.
  - intros _. case_match; [apply only_reset|exact I].
Qed.

Lemma bring_up_ready (subscriptions : list Subscription) message ov stop s s' r :
  0 < capacity →
  subscriptions !! i = Some (mkSubscription message (Queued capacity ov stop)) →
  unused (s i) → alone e (bring_up subscriptions) s = Some (r, s') → ready (s' i).
Proof.
  intros Hcap Hi Hun. unfold bring_up, init, start. rewrite !alone_bind.
  destruct (alone e (for_each _ _ tt) s) as [[[] s1]|] eqn:H1; [|done]. simpl.
  rewrite alone_bind. simpl.
  destruct (alone e (for_each _ _ tt) s1) as [[[] s2]|] eqn:H2; [|done]. simpl.
  intros [= <- <-].
  eapply (alone_for_each _ _ _ ready ready); [| |by apply indexed_elem| | |exact H2].
  - intros x b. unfold set_accepting, mutate, change. do 2 (apply only_on; intros ?). exact I.
  - apply indexed_nodup.
  - intros b b' t t' [] Ht. simpl in Ht. injection Ht as <- <-.
    rewrite !fn_lookup_insert. split; try done.
    by eapply same_ring_ring; [|exact ready_ring0].
  - eapply (alone_for_each _ _ _ unused ready); [| |by apply indexed_elem| |exact Hun|exact H1].
    + intros x b. apply only_init_route.
    + apply indexed_nodup.
    + intros b b' t t' [] Ht. unfold init_route in Ht. cbn [fst snd sub_message sub_delivery asynchronous reset kind_of] in Ht.
      rewrite alone_bind in Ht. unfold initialize, mutate in Ht. rewrite !alone_change in Ht.
      cbn [alone mbind option_bind] in Ht. unfold queued_reset in Ht. rewrite !alone_change in Ht.
      rewrite !fn_lookup_insert in Ht.
      lazymatch type of Ht with alone _ _ ?x = _ => destruct (alone_give_all capacity x) as (t2 & Ht2 & Hr) end.
      rewrite Ht2 in Ht. injection Ht as <- <-. rewrite Hr, fn_lookup_insert.
      destruct (iter_give capacity (sem_reset (slots_ (t i)))) as [Hl Hc].
      rewrite decide_False in Hc by lia. rewrite reset_limit in Hl, Hc. rewrite reset_count in Hc.
      split; simpl; try done; [|rewrite Hc; lia].
      split; simpl; try done; [lia|rewrite Nat.mod_small; lia|congruence].
Qed.
End Ready.

(** ** The queued route in view *)
Section Queue.
Context {Sem Msg : Type} `{Semaphores Sem} (default_message : Msg).
Context (message_id subscription_id : nat → Z).
Context (message : nat) (capacity : nat) (ov : Overflow) (stop : Stop) (i d : nat).
Context (Hcap : 0 < capacity) (Hwidth : (Z.of_nat capacity < 2 ^ 32)%Z).
Abbreviation view := (mkSubscription message (Queued capacity ov stop)).
Abbreviation Routes := (nat → Route Sem Msg).
Abbreviation J := (in_books default_message capacity ov d).
Abbreviation safe := (Interleave.safe (kept J i) accepting_executor).
Abbreviation emit_route := (emit_route message_id subscription_id).

(** The books of a thread between its calls. *)
Definition settled (stored : list Msg) : Books Msg := mkBooks 0 stored [] 0 0.

Lemma safe_emit_route t fuel stored m mode :
  safe t (λ g a, (g = settled stored ∨ g = settled (stored ++ [m]))
            ∧ (failed a = false → ov ≠ DropNewest → g = settled (stored ++ [m]))) (settled stored)
    (emit_route fuel i view m mode).
Proof.
  unfold TypedBus.emit_route. cbn [sub_delivery sub_message asynchronous negb].
  apply safe_quiet; [done|done|]. intros _. apply safe_quiet; [done|intros; apply queued_calm_refl|].
  intros accepting. destruct (negb accepting); [split; [by left|done]|].
  apply safe_bind. eapply safe_mono; [|by apply safe_queued_accept].
  intros g a (Hg & Hok & Hbad). case_bool_decide as Hst; simpl.
  - assert (Hdone : (g = settled stored ∨ g = settled (stored ++ [m]))
      ∧ (ov ≠ DropNewest → g = settled (stored ++ [m]))).
    { split; [subst g; destruct (acc_accepted a); [by right|by left]|].
      intros Hov. by rewrite Hg, Hok. }
    destruct (acc_needs_submit a); [|by simpl; naive_solver].
    apply safe_ask. intros e He. rewrite He. simpl. naive_solver.
  - rewrite Hbad in Hg by done. subst g. split; [by left|done].
Qed.

(** ** From the books to the threads *)
Lemma carried_settled (gs : list (Books Msg)) :
  (∀ t g, gs !! t = Some g → ∃ l, g = settled l) → carried d gs = [].
Proof.
  intros Hgs. unfold carried. destruct (gs !! d) as [g|] eqn:Hg; [|done].
  by destruct (Hgs _ _ Hg) as (l & ->).
Qed.
Lemma sum_settled (f : Books Msg → nat) (gs : list (Books Msg)) :
  (∀ l, f (settled l) = 0) → (∀ t g, gs !! t = Some g → ∃ l, g = settled l) → sum_list_with f gs = 0.
Proof.
  intros Hf. induction gs as [|g gs IH]; intros Hgs; [done|]. simpl.
  destruct (Hgs 0 g eq_refl) as (l & ->). rewrite Hf, IH; [done|]. intros t. apply (Hgs (S t)).
Qed.

(** The route as it is, against the sequence [order] in which it took
    messages: who sent each, and what has been handed to the handler. *)
Definition delivered_in_order (order : list (nat * Msg)) (r : Route Sem Msg) : Prop :=
  ∃ gone, order.*2 = gone ++ contents default_message capacity r
    ∧ handled_ r `sublist_of` gone ∧ (ov ≠ DropOldest → handled_ r = gone)
    ∧ r_accepted (record_ r) = u64 (Z.of_nat (length order))
    ∧ r_delivered (record_ r) = u64 (Z.of_nat (length (handled_ r)))
    ∧ r_dropped_oldest (record_ r) = u64 (Z.of_nat (length gone) - Z.of_nat (length (handled_ r))).

Lemma booked_settled order gone gs r :
  booked default_message capacity ov d order gone gs r →
  (∀ t g, gs !! t = Some g → ∃ l, g = settled l) → delivered_in_order order r.
Proof.
  intros [] Hgs. exists gone. pose proof (carried_settled _ Hgs) as Hc.
  rewrite Hc, app_nil_r in *.
  rewrite (sum_settled b_due gs), Z.sub_0_r in bk_accepted by done.
  rewrite (sum_settled b_owing gs), Z.sub_0_r in bk_delivered by done.
  repeat split; try done. intros Hov. by rewrite bk_exact.
Qed.

Lemma settled_inj (l l' : list Msg) : settled l = settled l' → l = l'.
Proof. by intros [= ->]. Qed.
Lemma queued_copy (r r' : Route Sem Msg) : handled_ r' = handled_ r → slots_ r' = slots_ r →
  storage_ r' = storage_ r → head_ r' = head_ r → tail_ r' = tail_ r → count_ r' = count_ r →
  payload_ r' = payload_ r → pending_ r' = pending_ r →
  r_accepted (record_ r') = r_accepted (record_ r) → r_delivered (record_ r') = r_delivered (record_ r) →
  r_dropped_oldest (record_ r') = r_dropped_oldest (record_ r) → queued_calm r r'.
Proof. intros. repeat split; congruence. Qed.

Lemma ready_books r (calls : list (list (BusCall Msg))) :
  ready capacity r → J (map (λ _, settled []) calls) r.
Proof.
  intros [].
  assert (Hgs : ∀ t g, map (λ _, settled []) calls !! t = Some g → g = settled []).
  { intros t g Hg. rewrite list_lookup_fmap in Hg. destruct (calls !! t); by simplify_eq/=. }
  assert (Hempty : contents default_message capacity r = []).
  { apply length_zero_iff_nil. rewrite contents_length, ready_empty0. done. }
  exists [], [].
  split; rewrite ?sum_settled, ?carried_settled, ?Hempty, ?ready_handled0 by
    (done || (intros t g Hg; exists []; eauto)); try done.
  - simpl. lia.
  - intros t g Hg. by rewrite (Hgs _ _ Hg).
  - intros t g Hg _. by rewrite (Hgs _ _ Hg).
Qed.
End Queue.

(** C6: Queued delivery under concurrency, as long as the executor accepts every submission: a
    submission it refuses empties the ring under the emitters, and nothing of this is claimed then.
    Any number of threads emit, in any interleaving, while one work item drains the route and other
    routes come and go.  Then the ring never holds more than its capacity; and when the threads have returned
    there is one order of the messages the route took, in which each thread's messages are in the
    order it emitted them, with all those it was told succeeded among them, such that the handler
    was called once for each, in that order, up to those still in the ring (with [DropOldest], up to
    those the record counts as dropped). *)
Theorem queued_delivery {Sem Msg} `{Semaphores Sem} (default_message : Msg)
    message_id subscription_id subscriber subscriptions message capacity ov stop i d
    fuel calls sch e (rs0 rs : nat → Route Sem Msg) r0 :
  0 < capacity → (Z.of_nat capacity < 2 ^ 32)%Z →
  subscriptions !! i = Some (mkSubscription message (Queued capacity ov stop)) →
  unused capacity (rs0 i) → alone e (bring_up subscriptions) rs0 = Some (r0, rs) →
  (∀ t cs, calls !! t = Some cs → CallDrain i ∈ cs → t = d) →
  Forall (λ te, submission te.2 = None) sch →
  let s := run sch (bus_start default_message message_id subscription_id subscriber subscriptions
                      fuel calls rs) in
  length (contents default_message capacity (s.1 i)) ≤ capacity
  ∧ ∀ answers, s.2 = map Done answers →
    ∃ order, delivered_in_order default_message capacity ov order (s.1 i)
      ∧ ∀ t cs ans, calls !! t = Some cs → answers !! t = Some ans →
          sent_by t order `sublist_of` emitted message cs
          ∧ (ov ≠ DropNewest → taken message cs ans `sublist_of` sent_by t order).
Proof.
  intros Hcap Hwidth Hview Hun Hup Hdrain Hsch s.
  pose proof (bring_up_ready _ _ _ _ _ _ _ _ _ _ Hcap Hview Hun Hup) as Hready.
  destruct (threads_settled default_message message_id subscription_id subscriber subscriptions
    (in_books default_message capacity ov d) queued_calm
    (mkSubscription message (Queued capacity ov stop)) i d (ov ≠ DropNewest) settled
    queued_calm_refl (in_books_calm default_message capacity Hcap ov d) queued_copy settled_inj Hview
    (safe_emit_route default_message message_id subscription_id message capacity ov stop i d Hcap Hwidth)
    (λ fuel stored, safe_drain_queue default_message capacity Hcap Hwidth ov d i (settled stored) fuel eq_refl)
    fuel calls rs sch (ready_books _ _ _ _ Hcap Hwidth _ _ Hready) Hdrain Hsch)
    as (gs & (order & gone & Hbk) & Hend). fold s in Hbk, Hend. split.
  { destruct Hbk as [[] Hp]. rewrite contents_length. lia. }
  intros answers Hans. destruct (Hend answers Hans) as [Hgs Hthreads]. exists order.
  split; [by eapply booked_settled|].
  intros t cs ans Hcs Ha. destruct (Hthreads t cs ans Hcs Ha) as (l & Hl & Hacc).
  rewrite (bk_sent _ _ _ _ Hbk _ _ Hl). exact Hacc.
Qed.

Lemma queued_delivery_witness :
  let subs := [mkSubscription 0 (Queued 2 Reject Drain)] in
  let calls := [[CallDrain 0]; [CallEmit 0 7 Normal; CallEmit 0 8 Try]; [CallEmit 0 9 Normal]] in
  let s := run (turns fair [(1, 6); (2, 8); (1, 9); (0, 30)]) (plain_start subs 2 calls) in
  handled_ (s.1 0) = [7; 9]
  ∧ s.2 = map Done [[AnsDrain]; [AnsEmit (Ok tt); AnsEmit (Err
      (mkError SFull RouteRejected TryEmit 0 0 1 0 1 0 0))]; [AnsEmit (Ok tt)]]
  ∧ ∃ order, delivered_in_order 0 2 Reject order (s.1 0)
      ∧ taken 0 [CallEmit 0 7 Normal; CallEmit 0 8 Try]
          [AnsEmit (Ok tt); AnsEmit (Err (mkError SFull RouteRejected TryEmit 0 0 1 0 1 0 0))]
        `sublist_of` sent_by 1 order.
Proof.
  intros subs calls s. split; [reflexivity|]. split; [reflexivity|].
  destruct (queued_delivery 0 Z.of_nat Z.of_nat Z.of_nat subs 0 2 Reject Drain 0 0 9 calls
    (turns fair [(1, 6); (2, 8); (1, 9); (0, 30)]) fair (blank 2) (brought_up subs 2) (Ok tt))
    as [_ Hend]; [lia|lia|reflexivity|split; reflexivity|reflexivity| | |].
  - intros [|[|[|t]]] cs Hcs Hin; [done|..]; simplify_eq/=; exfalso;
      repeat (apply elem_of_cons in Hin as [Hin|Hin]; [discriminate|]); by apply not_elem_of_nil in Hin.
  - by repeat constructor.
  - destruct (Hend [[AnsDrain]; [AnsEmit (Ok tt); AnsEmit (Err
      (mkError SFull RouteRejected TryEmit 0 0 1 0 1 0 0))]; [AnsEmit (Ok tt)]]) as (order & Hord & Hall);
      [reflexivity|]. exists order. split; [exact Hord|].
    destruct (Hall 1 [CallEmit 0 7 Normal; CallEmit 0 8 Try]
      [AnsEmit (Ok tt); AnsEmit (Err (mkError SFull RouteRejected TryEmit 0 0 1 0 1 0 0))]) as [_ Ht];
      [reflexivity..|]. by apply Ht.
Defined.
