(* ===== verification/BusLatest.v ===== *)
(** * BusLatest: delivery by a latest route *)
From stdpp Require Import prelude functions.
From S2P Require Import Prelude Status Lifecycle Interleave Bus BusQueue BusBooks BusPrograms BusThreads BusProps.
Import TypedBus.

Open Scope nat_scope.
Open Scope solar_scope.
Open Scope prog_scope.

(** What a thread has stored, and what it has taken and not yet handled. *)
Record LatestBooks (Msg : Type) := mkLatest { l_stored : list Msg; l_carry : list Msg }.
Arguments mkLatest {Msg} _ _. Arguments l_stored {Msg} _. Arguments l_carry {Msg} _.

Section Latest.
Context {Sem Msg : Type} `{SemaphoreOps Sem} (default_message : Msg).
Context (message_id subscription_id : nat → Z) (message : nat) (stop : Stop) (i d : nat).
Abbreviation view := (mkSubscription message (Latest stop)).
Abbreviation Routes := (nat → Route Sem Msg).

Definition l_carried (gs : list (LatestBooks Msg)) : list Msg := default [] (l_carry <$> gs !! d).
Definition waiting (r : Route Sem Msg) : list Msg := if pending_ r then [payload_ r] else [].

(** What has been handed over, is being handed over or waits is some of the
    messages the route took, in their order, and ends with the newest. *)
Record latest_books (order : list (nat * Msg)) (gs : list (LatestBooks Msg)) (r : Route Sem Msg) : Prop := {
  lb_sent : ∀ t g, gs !! t = Some g → sent_by t order = l_stored g;
  lb_some : handled_ r ++ l_carried gs ++ waiting r `sublist_of` order.*2;
  lb_newest : list.last (handled_ r ++ l_carried gs ++ waiting r) = list.last order.*2;
  lb_idle : ∀ t g, gs !! t = Some g → t ≠ d → l_carry g = [] }.
Definition in_latest (gs : list (LatestBooks Msg)) (r : Route Sem Msg) : Prop :=
  ∃ order, latest_books order gs r.
Abbreviation safe := (Interleave.safe (kept in_latest i) accepting_executor).

Definition latest_calm (r r' : Route Sem Msg) : Prop :=
  handled_ r' = handled_ r ∧ payload_ r' = payload_ r ∧ pending_ r' = pending_ r.
Lemma latest_calm_refl r : latest_calm r r.
Proof. done. Qed.

Lemma l_carried_insert gs t g' :
  is_Some (gs !! t) → l_carried (<[t := g']> gs) = if decide (t = d) then l_carry g' else l_carried gs.
Proof.
  intros Hlt%lookup_lt_is_Some. unfold l_carried. case_decide as Ht; [subst|].
  - by rewrite list_lookup_insert_eq.
  - by rewrite list_lookup_insert_ne.
Qed.

(** A step of thread [t]. *)
Lemma latest_update order gs r order' r' t g g' :
  latest_books order gs r → gs !! t = Some g →
  (∀ u, sent_by u order' = if decide (u = t) then l_stored g' else sent_by u order) →
  (t ≠ d → l_carry g' = []) →
  (let c := if decide (t = d) then l_carry g' else l_carried gs in
   handled_ r' ++ c ++ waiting r' `sublist_of` order'.*2
   ∧ list.last (handled_ r' ++ c ++ waiting r') = list.last order'.*2) →
  latest_books order' (<[t := g']> gs) r'.
Proof.
  intros [Hsent Hsome Hnew Hidle] Hg Hs Hc Hrest.
  split; rewrite ?l_carried_insert by (by eexists); [|apply Hrest..|].
  - intros u h Hu. rewrite Hs. destruct (decide (u = t)) as [->|Hne].
    + rewrite list_lookup_insert_eq in Hu by (by eapply lookup_lt_Some). by simplify_eq.
    + rewrite list_lookup_insert_ne in Hu by done. by apply Hsent.
  - intros u h Hu Hne. destruct (decide (u = t)) as [->|Hnt].
    + rewrite list_lookup_insert_eq in Hu by (by eapply lookup_lt_Some). simplify_eq. auto.
    + rewrite list_lookup_insert_ne in Hu by done. eauto.
Qed.

Lemma in_latest_calm gs r r' t g :
  in_latest gs r → gs !! t = Some g → latest_calm r r' → in_latest (<[t := g]> gs) r'.
Proof.
  intros (order & Hb) Hg (Hh & Hp & Hw). exists order. pose proof Hb as [Hsent Hsome Hnew Hidle].
  eapply latest_update; [done..| |by eauto|].
  - intros u. case_decide; [subst|done]. by apply Hsent.
  - simpl. assert ((if decide (t = d) then l_carry g else l_carried gs) = l_carried gs) as ->.
    { case_decide; [subst|done]. unfold l_carried. by rewrite Hg. }
    unfold waiting in *. by rewrite Hh, Hp, Hw.
Qed.

Definition latest_settled (stored : list Msg) : LatestBooks Msg := mkLatest stored [].

Lemma safe_latest_calm {A B} t Q g f (k : B → Prog Env Routes A) :
  (∀ e r, latest_calm r (f e r).2) → (∀ b, safe t Q g (k b)) → safe t Q g (Then (on i f) k).
Proof. apply safe_calm_on, in_latest_calm. Qed.

Lemma safe_latest_route t fuel stored m mode :
  safe t (λ g a, (g = latest_settled stored ∨ g = latest_settled (stored ++ [m]))
            ∧ (failed a = false → True → g = latest_settled (stored ++ [m]))) (latest_settled stored)
    (emit_route message_id subscription_id fuel i view m mode).
Proof.
  unfold emit_route. cbn [sub_delivery sub_message asynchronous negb accept].
  apply safe_latest_calm; [done|]. intros _. apply safe_latest_calm; [done|].
  intros accepting. destruct (negb accepting); [split; [by left|done]|].
  unfold latest_accept. cbn [bind]. apply safe_on. intros e r gs Hg (order & Hb).
  exists (latest_settled (stored ++ [m])). split.
  - exists (order ++ [(t, m)]). pose proof Hb as [Hsent Hsome Hnew Hidle].
    eapply latest_update; [done..| | |].
    + intros u. rewrite sent_by_snoc. destruct (decide (t = u)) as [->|Hne].
      * rewrite decide_True by done. by rewrite (Hsent _ _ Hg).
      * rewrite decide_False by done. by rewrite app_nil_r.
    + done.
    + cbn zeta. assert ((if decide (t = d) then [] else l_carried gs) = l_carried gs) as Hc.
      { case_decide; [subst|done]. unfold l_carried. by rewrite Hg. }
      simpl. rewrite Hc, fmap_app. split; unfold waiting; simpl.
      * rewrite app_assoc. apply sublist_app; [|done]. etransitivity; [|exact Hsome].
        rewrite app_assoc. by apply sublist_inserts_r.
      * by rewrite app_assoc, !last_snoc.
  - assert (Hrest : safe t (λ g a, (g = latest_settled stored ∨ g = latest_settled (stored ++ [m]))
            ∧ (failed a = false → True → g = latest_settled (stored ++ [m]))) (latest_settled (stored ++ [m]))
      (Then (mutate i (accepted 1)) (λ _, bind (Done (accept_ok <| acc_needs_submit := true |>)) (λ acc,
        let done := mkAttempt false (acc_accepted acc) (acc_dropped acc) no_error in
        let error st why := make_error message_id message (emit_operation mode) st why
          <| err_subscription := subscription_id i |> in
        if negb (bool_decide (acc_status acc = SOk)) then
          Done (mkAttempt true false false
              (error (acc_status acc) (if acc_timed_out acc then RouteTimedOut else RouteRejected)))
        else if acc_needs_submit acc then
          Then (ask submission) (λ answer,
          match answer with
          | Some (st, native) =>
            bind (clear_pending i (Latest stop)) (λ _,
            Then (mutate i (λ _, submission_failed st)) (λ _,
            Done (mkAttempt true false false (error st ExecutorUnavailable <| err_native := native |>))))
          | None => Done done
          end)
        else Done done)))).
    { apply safe_latest_calm; [done|]. intros _. cbn.
      apply safe_ask. intros e' He'. rewrite He'. split; [by right|done]. }
    destruct (pending_ r || negb (in_flight_ r =? 0)%Z); [|exact Hrest].
    apply safe_latest_calm; [done|]. intros _. exact Hrest.
Qed.

Lemma safe_latest_drain fuel stored :
  safe d (λ g _, g = latest_settled stored) (latest_settled stored)
    (drain default_message fuel i (Latest stop)).
Proof.
  cbn [drain]. unfold latest_drain_one. cbn [bind]. apply safe_on.
  intros e r gs Hg (order & Hb). pose proof Hb as [Hsent Hsome Hnew Hidle].
  assert (Hc : l_carried gs = []) by (unfold l_carried; by rewrite Hg).
  unfold waiting in *. destruct (pending_ r) eqn:Hp; cbn [fst snd].
  - exists (mkLatest stored [payload_ r]). split.
    + exists order. eapply latest_update; [done..| |done|].
      * intros u. case_decide; [subst|done]. by rewrite (Hsent _ _ Hg).
      * simpl. rewrite decide_True by done. rewrite Hc in *. simpl in *. done.
    + cbn [bind]. apply safe_latest_calm; [done|]. intros _. unfold deliver. cbn [bind].
      apply safe_latest_calm; [done|]. intros _. apply safe_latest_calm; [done|]. intros _.
      apply safe_on. intros e2 r2 gs2 Hg2 (order2 & Hb2). exists (latest_settled stored). split.
      * exists order2. pose proof Hb2 as [Hsent2 Hsome2 Hnew2 Hidle2].
        eapply latest_update; [done..| |done|].
        -- intros u. case_decide; [subst|done]. by rewrite (Hsent2 _ _ Hg2).
        -- assert (Hc2 : l_carried gs2 = [payload_ r]) by (unfold l_carried; by rewrite Hg2).
           simpl. rewrite decide_True by done. rewrite Hc2 in *. unfold waiting in *. simpl in *.
           by rewrite <-app_assoc.
      * cbn [fst]. do 2 (apply safe_latest_calm; [intros; done|]; intros _). done.
  - exists (latest_settled stored). split; [|done]. rewrite list_insert_id by done. by exists order.
Qed.

(** ** Bringing the route up *)
Lemma latest_up e subscriptions s s' r :
  subscriptions !! i = Some view → handled_ (s i) = [] →
  alone e (bring_up (Sem:=Sem) (Msg:=Msg) subscriptions) s = Some (r, s') →
  handled_ (s' i) = [] ∧ pending_ (s' i) = false.
Proof.
  intros Hi Hh. unfold bring_up, init, start. rewrite !alone_bind.
  destruct (alone e (for_each _ _ tt) s) as [[[] s1]|] eqn:H1; [|done]. simpl.
  rewrite alone_bind. simpl.
  destruct (alone e (for_each _ _ tt) s1) as [[[] s2]|] eqn:H2; [|done]. simpl.
  intros [= <- <-].
  set (up := λ r : Route Sem Msg, handled_ r = [] ∧ pending_ r = false).
  eapply (alone_for_each i e _ _ _ up up); [| |by apply indexed_elem| | |exact H2].
  - intros x b. unfold set_accepting, mutate, change. do 2 (apply only_on; intros ?). exact I.
  - apply indexed_nodup.
  - intros b b' t t' Hup Ht. simpl in Ht. injection Ht as <- <-. by rewrite !fn_lookup_insert.
  - eapply (alone_for_each i e _ _ _ (λ r, handled_ r = []) up); [| |by apply indexed_elem| |exact Hh|exact H1].
    + intros x b. apply only_init_route.
    + apply indexed_nodup.
    + intros b b' t t' Hup Ht. simpl in Ht. injection Ht as <- <-. by rewrite !fn_lookup_insert.
Qed.

Lemma latest_copy (r r' : Route Sem Msg) : handled_ r' = handled_ r → slots_ r' = slots_ r →
  storage_ r' = storage_ r → head_ r' = head_ r → tail_ r' = tail_ r → count_ r' = count_ r →
  payload_ r' = payload_ r → pending_ r' = pending_ r →
  r_accepted (record_ r') = r_accepted (record_ r) → r_delivered (record_ r') = r_delivered (record_ r) →
  r_dropped_oldest (record_ r') = r_dropped_oldest (record_ r) → latest_calm r r'.
Proof. done. Qed.

Lemma latest_settled_inj (l l' : list Msg) : latest_settled l = latest_settled l' → l = l'.
Proof. by intros [= ->]. Qed.

Lemma in_latest_start r (calls : list (list (BusCall Msg))) :
  handled_ r = [] → pending_ r = false → in_latest (map (λ _, latest_settled []) calls) r.
Proof.
  intros Hh Hp.
  assert (Hgs : ∀ t g, map (λ _, latest_settled []) calls !! t = Some g → g = latest_settled []).
  { intros t g Hg. rewrite list_lookup_fmap in Hg. destruct (calls !! t); by simplify_eq/=. }
  assert (Hc : l_carried (map (λ _, latest_settled []) calls) = []).
  { unfold l_carried. destruct (_ !! d) as [g|] eqn:Hg; [|done]. by rewrite (Hgs _ _ Hg). }
  exists []. split; unfold waiting; rewrite ?Hh, ?Hc, ?Hp; simpl; try done.
  - intros t g Hg. by rewrite (Hgs _ _ Hg).
  - intros t g Hg _. by rewrite (Hgs _ _ Hg).
Qed.
End Latest.

(** C17: Latest delivery under concurrency, as long as the executor accepts every submission: one it
    refuses throws away the message that waits, and nothing of this is claimed then.  Any number of
    threads emit, in any interleaving, while one work item drains the route.  When they have
    returned there is one order of the messages the route took, in which each thread's messages are
    in the order it emitted them, with all those it was told succeeded among them, such that what
    was handed to the handler, and then what still waits, is some of them in their order and ends
    with the newest: if nothing waits, the last call of the handler had the newest message. *)
Theorem latest_delivery {Sem Msg} `{SemaphoreOps Sem} (default_message : Msg)
    message_id subscription_id subscriber subscriptions message stop i d
    fuel calls sch e (rs0 rs : nat → Route Sem Msg) r0 answers :
  subscriptions !! i = Some (mkSubscription message (Latest stop)) →
  handled_ (rs0 i) = [] → alone e (bring_up subscriptions) rs0 = Some (r0, rs) →
  (∀ t cs, calls !! t = Some cs → CallDrain i ∈ cs → t = d) →
  Forall (λ te, submission te.2 = None) sch →
  let s := run sch (bus_start default_message message_id subscription_id subscriber subscriptions
                      fuel calls rs) in
  s.2 = map Done answers →
  ∃ order : list (nat * Msg),
    handled_ (s.1 i) ++ waiting (s.1 i) `sublist_of` order.*2
    ∧ list.last (handled_ (s.1 i) ++ waiting (s.1 i)) = list.last order.*2
    ∧ ∀ t cs ans, calls !! t = Some cs → answers !! t = Some ans →
        sent_by t order `sublist_of` emitted message cs
        ∧ taken message cs ans `sublist_of` sent_by t order.
Proof.
  intros Hview Hh Hup Hdrain Hsch s Hans.
  destruct (latest_up _ _ _ _ _ _ _ _ Hview Hh Hup) as [Hh' Hp].
  destruct (threads_settled default_message message_id subscription_id subscriber subscriptions
    (in_latest d) latest_calm (mkSubscription message (Latest stop)) i d True latest_settled
    latest_calm_refl (in_latest_calm d) latest_copy latest_settled_inj Hview
    (safe_latest_route message_id subscription_id message stop i d)
    (safe_latest_drain default_message stop i d)
    fuel calls rs sch (in_latest_start _ _ _ Hh' Hp) Hdrain Hsch)
    as (gs & (order & [Hsent Hsome Hnew _]) & Hend).
  destruct (Hend answers Hans) as [Hgs Hthreads]. exists order.
  assert (Hc : l_carried d gs = []).
  { unfold l_carried. destruct (gs !! d) as [g|] eqn:Hg; [|done]. by destruct (Hgs _ _ Hg) as (l & ->). }
  rewrite Hc in *. split; [done|]. split; [done|].
  intros t cs ans Hcs Ha. destruct (Hthreads t cs ans Hcs Ha) as (l & Hl & Hacc1 & Hacc2).
  rewrite (Hsent _ _ Hl). split; [done|]. by apply Hacc2.
Qed.

Lemma latest_delivery_witness :
  let subs := [mkSubscription 0 (Latest Drain)] in
  let calls := [[CallDrain 0; CallDrain 0]; [CallEmit 0 7 Normal; CallEmit 0 8 Try; CallEmit 0 9 Normal]] in
  let s := run (turns fair [(1, 8); (0, 3); (1, 20); (0, 20)]) (plain_start subs 1 calls) in
  handled_ (s.1 0) = [7; 9]
  ∧ ∃ order : list (nat * nat), list.last (handled_ (s.1 0) ++ waiting (s.1 0)) = list.last order.*2
      ∧ [7; 8; 9] `sublist_of` sent_by 1 order.
Proof.
  intros subs calls s. split; [reflexivity|].
  set (ok := [AnsEmit (Ok tt); AnsEmit (Ok tt); AnsEmit (Ok tt)]).
  destruct (latest_delivery 0 Z.of_nat Z.of_nat Z.of_nat subs 0 Drain 0 0 9 calls
    (turns fair [(1, 8); (0, 3); (1, 20); (0, 20)]) fair (blank 1) (brought_up subs 1) (Ok tt)
    [[AnsDrain; AnsDrain]; ok]) as (order & _ & Hlast & Hall);
    [reflexivity|reflexivity|reflexivity| | |reflexivity|].
  - intros [|[|t]] cs Hcs Hin; [done|..]; simplify_eq/=; exfalso;
      repeat (apply elem_of_cons in Hin as [Hin|Hin]; [discriminate|]); by apply not_elem_of_nil in Hin.
  - by repeat constructor.
  - exists order. split; [exact Hlast|].
    destruct (Hall 1 [CallEmit 0 7 Normal; CallEmit 0 8 Try; CallEmit 0 9 Normal] ok) as [_ Ht];
      [reflexivity..|exact Ht].
Defined.
