(* ===== verification/BusEmit.v ===== *)
(** * BusEmit: the outcome of an emission

    What [emit_message] does by its own steps, and answers, under any
    interleaving. *)
From stdpp Require Import prelude functions.
From S2P Require Import Prelude Status Lifecycle Interleave Bus BusQueue BusBooks BusPrograms BusThreads.
Import TypedBus.

Open Scope nat_scope.
Open Scope solar_scope.
Open Scope prog_scope.

(** ** What a thread has done

    The steps a thread takes in a run, each with what it saw of its
    surroundings and the state before and after. *)
Section Traces.
Context {E S : Type}.
Record OwnStep : Type := mkOwnStep { at_env : E; before : S; after : S }.
Implicit Types (tr : list OwnStep) (x : OwnStep).

Fixpoint own_steps {A} (t : nat) (sch : list (nat * E)) (s : S * list (Prog E S A)) : list OwnStep :=
  match sch with
  | [] => []
  | (u, e) :: sch =>
    let s' := step u e s in
    match s.2 !! u with
    | Some (Then _ _) => if decide (u = t) then mkOwnStep e s.1 s'.1 :: own_steps t sch s' else own_steps t sch s'
    | _ => own_steps t sch s'
    end
  end.

(** The steps [tr] take program [p] to its end, and it returns [a]. *)
Fixpoint gives {A} (p : Prog E S A) tr (a : A) : Prop :=
  match p with
  | Done b => tr = [] ∧ b = a
  | Stalled => False
  | Then f k =>
    match tr with
    | [] => False
    | x :: tr => after x = (f (at_env x) (before x)).2 ∧ gives (k (f (at_env x) (before x)).1) tr a
    end
  end.

Lemma gives_run {A} (p : Prog E S A) t a sch s :
  s.2 !! t = Some p → (run sch s).2 !! t = Some (Done a) → gives p (own_steps t sch s) a.
Proof.
  revert s p. induction sch as [|[u e] sch IH]; intros s p Ht Ha.
  { simpl in Ha. rewrite Ht in Ha. by injection Ha as ->. }
  cbn [run foldl fst snd] in Ha. cbn [own_steps]. cbv zeta.
  destruct (decide (u = t)) as [->|Hne].
  - rewrite Ht. destruct p as [b| |B f k].
    + apply IH; [|done]. unfold step. by rewrite Ht.
    + apply (IH _ Stalled); [|done]. unfold step. by rewrite Ht.
    + cbn [gives at_env before after]. unfold step at 1. rewrite Ht.
      destruct (f e s.1) as [b s'] eqn:Hf. split; [done|].
      apply (IH _ (k b)); [|done]. unfold step. rewrite Ht, Hf. simpl. apply list_lookup_insert_eq. by eapply lookup_lt_Some.
  - assert (Hstep : (step u e s).2 !! t = Some p).
    { unfold step. destruct (s.2 !! u) as [[b| |B f k]|]; try done. destruct (f e s.1). simpl.
      by rewrite list_lookup_insert_ne. }
    destruct (s.2 !! u) as [[b| |B f k]|]; by apply IH.
Qed.

(** Whatever its steps, what [p] did and returned satisfies [Q]. *)
Definition traced {A} (p : Prog E S A) (Q : list OwnStep → A → Prop) : Prop := ∀ tr a, gives p tr a → Q tr a.
Lemma traced_done {A} (a : A) (Q : list OwnStep → A → Prop) : Q [] a → traced (Done a) Q.
Proof. intros Hq tr b [-> <-]. done. Qed.
Lemma traced_then {A B} (f : E → S → B * S) (k : B → Prog E S A) Q :
  (∀ e s, traced (k (f e s).1) (λ tr a, Q (mkOwnStep e s (f e s).2 :: tr) a)) → traced (Then f k) Q.
Proof. intros Hk [|[e s s'] tr] a Hg; [done|]. destruct Hg as [Hs Hg]. simpl in *. subst s'. by apply (Hk e s). Qed.
Lemma traced_mono {A} (p : Prog E S A) (Q R : list OwnStep → A → Prop) :
  traced p Q → (∀ tr a, Q tr a → R tr a) → traced p R.
Proof. intros Hp HR tr a Hg. auto. Qed.
Lemma gives_bind {A B} (p : Prog E S A) (k : A → Prog E S B) tr b :
  gives (bind p k) tr b → ∃ tr1 tr2 a, tr = tr1 ++ tr2 ∧ gives p tr1 a ∧ gives (k a) tr2 b.
Proof.
  revert tr. induction p as [a| |C f k' IH]; intros tr Hg; simpl in Hg; [by exists [], tr, a|done|].
  destruct tr as [|x tr]; [done|]. destruct Hg as [Hx Hg]. apply IH in Hg as (tr1 & tr2 & a & -> & H1 & H2).
  by exists (x :: tr1), tr2, a.
Qed.
Lemma traced_bind {A B} (p : Prog E S A) (k : A → Prog E S B) Q :
  traced p (λ tr a, traced (k a) (λ tr' b, Q (tr ++ tr') b)) → traced (bind p k) Q.
Proof. intros Hp tr b (tr1 & tr2 & a & -> & H1 & H2)%gives_bind. by apply (Hp tr1 a). Qed.
Lemma traced_and {A} (p : Prog E S A) Q R : traced p Q → traced p R → traced p (λ tr a, Q tr a ∧ R tr a).
Proof. intros HQ HR tr a Hg. auto. Qed.
Lemma traced_frames (R : S → S → Prop) {A} (p : Prog E S A) :
  frames R p → traced p (λ tr _, Forall (λ x, R (before x) (after x)) tr).
Proof.
  induction p as [a| |B f k IH]; [by intros _; apply traced_done| |].
  - intros _ tr a [].
  - intros [Hf Hk]. apply traced_then. intros e s. eapply traced_mono; [apply IH, Hk|].
    intros tr a Htr. constructor; [apply Hf|done].
Qed.

(** One step does [P], and the others keep [K]. *)
Definition once (K P : OwnStep → Prop) tr : Prop := ∃ tr1 x tr2, tr = tr1 ++ x :: tr2 ∧ Forall K tr1 ∧ P x ∧ Forall K tr2.
Lemma once_around K P l tr r : Forall K l → Forall K r → once K P tr → once K P (l ++ tr ++ r).
Proof.
  intros Hl Hr (tr1 & x & tr2 & -> & H1 & Hx & H2). exists (l ++ tr1), x, (tr2 ++ r).
  rewrite <-!app_assoc. split; [done|]. split; [by apply Forall_app_2|]. split; [done|by apply Forall_app_2].
Qed.
Lemma once_before K P l tr : Forall K l → once K P tr → once K P (l ++ tr).
Proof. intros Hl Htr. rewrite <-(app_nil_r tr). by apply once_around. Qed.
End Traces.
Arguments OwnStep E S : clear implicits.

(** ** The aggregate of the attempts *)
Section Outcome.
Context {Sem Msg : Type} `{SemaphoreOps Sem}.
Context (message_id subscription_id : nat → Z) (subscriptions : list Subscription).
Abbreviation Routes := (nat → Route Sem Msg).
Abbreviation Own := (OwnStep Env Routes).
Abbreviation emit_route := (emit_route (Sem:=Sem) (Msg:=Msg) message_id subscription_id).

(** The error a route reports. *)
Definition route_error (i : nat) (message : nat) (mode : EmitMode) (st : Status) (why : Reason)
    (native : Z) : TypedBus.Error :=
  make_error message_id message (emit_operation mode) st why
    <| err_subscription := subscription_id i |> <| err_native := native |>.

(** What becomes of the message: the handler is called with it, or it is
    stored for a drain (in a queue, at its tail); [kept] is a step that does
    neither. *)
Definition kept (i : nat) (x : Own) : Prop :=
  let r := before x i in let r' := after x i in
  handled_ r' = handled_ r ∧ storage_ r' = storage_ r ∧ payload_ r' = payload_ r.
Definition takes (i : nat) (dl : Delivery) (m : Msg) (x : Own) : Prop :=
  let r := before x i in let r' := after x i in
  match dl with
  | Inline | InlineIsr => handled_ r' = handled_ r ++ [m] ∧ storage_ r' = storage_ r ∧ payload_ r' = payload_ r
  | Queued capacity _ _ =>
    handled_ r' = handled_ r ∧ storage_ r' = <[tail_ r := m]> (storage_ r) ∧ tail_ r' = (tail_ r + 1) mod capacity
    ∧ payload_ r' = payload_ r
  | Latest _ => handled_ r' = handled_ r ∧ storage_ r' = storage_ r ∧ payload_ r' = m ∧ pending_ r' = true
  | Coalesced _ => kept i x ∧ pending_ r' = true
  end.
Definition no_permit (i : nat) (tr : list Own) : Prop := ∃ x, x ∈ tr ∧ sem_take (slots_ (before x i)) = None.
Definition refused_by (i : nat) (sub : Subscription) (mode : EmitMode) (st : Status) (why : Reason) (native : Z) : RouteAttempt :=
  mkAttempt true false false (route_error i (sub_message sub) mode st why native).

(** What an attempt does to its route once the route was seen to accept. *)
Inductive attempt_taken (i : nat) (sub : Subscription) (m : Msg) (mode : EmitMode) (tr : list Own) : RouteAttempt → Prop :=
  | TakenInline x :
      asynchronous (sub_delivery sub) = false →
      once (kept i) (λ y, y = x ∧ takes i (sub_delivery sub) m y) tr →
      attempt_taken i sub m mode tr
        (match handled_with (at_env x) with
         | None => mkAttempt false true false no_error
         | Some st => mkAttempt true true false (route_error i (sub_message sub) mode st InlineHandlerFailed 0)
         end)
  | TakenFull capacity ov stop :
      sub_delivery sub = Queued capacity ov stop → ov = Reject ∨ (ov = WaitFor ∧ mode ≠ Normal) →
      no_permit i tr → Forall (kept i) tr →
      attempt_taken i sub m mode tr (refused_by i sub mode SFull RouteRejected 0)
  | TakenLate capacity stop :
      sub_delivery sub = Queued capacity WaitFor stop → mode = Normal →
      no_permit i tr → (∃ x, x ∈ tr ∧ wait_over (at_env x) = true) → Forall (kept i) tr →
      attempt_taken i sub m mode tr (refused_by i sub mode STimeout RouteTimedOut 0)
  | TakenNot capacity stop :
      sub_delivery sub = Queued capacity DropNewest stop → no_permit i tr → Forall (kept i) tr →
      attempt_taken i sub m mode tr (mkAttempt false false true no_error)
  | TakenMerged stop :
      sub_delivery sub = Coalesced stop →
      once (kept i) (λ y, pending_ (before y i) = true ∧ takes i (sub_delivery sub) m y) tr →
      attempt_taken i sub m mode tr (mkAttempt false true false no_error)
  | TakenSubmitted tr1 x dropped :
      asynchronous (sub_delivery sub) = true → tr = tr1 ++ [x] → submission (at_env x) = None →
      once (kept i) (takes i (sub_delivery sub) m) tr1 →
      (dropped = true → no_permit i tr1 ∧ ∃ capacity stop, sub_delivery sub = Queued capacity DropOldest stop) →
      attempt_taken i sub m mode tr (mkAttempt false true dropped no_error)
  | TakenBack tr1 x tr2 st native :
      asynchronous (sub_delivery sub) = true → tr = tr1 ++ x :: tr2 → submission (at_env x) = Some (st, native) →
      once (kept i) (takes i (sub_delivery sub) m) tr1 →
      attempt_taken i sub m mode tr (refused_by i sub mode st ExecutorUnavailable native).

(** An attempt: the route counts it, is seen closed or accepting, and takes
    the message or says why not; no other route is touched. *)
Definition attempt_made (i : nat) (sub : Subscription) (m : Msg) (mode : EmitMode) (tr : list Own) (a : RouteAttempt) : Prop :=
  Forall (λ x : Own, ∀ j, j ≠ i → after x j = before x j) tr
  ∧ ∃ x y rest, tr = x :: y :: rest
    ∧ r_considered (record_ (after x i)) = inc64 (r_considered (record_ (before x i)))
    ∧ if accepting_ (before y i) then attempt_taken i sub m mode tr a
      else rest = [] ∧ a = refused_by i sub mode SNotReady NotReady 0.

(** ** The steps of an attempt *)
Local Abbreviation traced := (traced (E:=Env) (S:=Routes)).
Ltac keeps := (unfold takes, kept, mutate, change, look, ask, on, try_take, give; cbn; rewrite ?fn_lookup_insert; cbn).
Ltac kept_all := repeat (apply Forall_cons_2; [by keeps|]); apply Forall_nil_2.

Lemma kept_deliver i m :
  traced (deliver (Sem:=Sem) i m) (λ tr answer, ∃ x,
    once (kept i) (λ y, y = x ∧ handled_ (after y i) = handled_ (before y i) ++ [m] ∧ storage_ (after y i) = storage_ (before y i)
                        ∧ payload_ (after y i) = payload_ (before y i)) tr
    ∧ answer = match handled_with (at_env x) with None => Ok tt | Some st => Err st end).
Proof.
  unfold deliver. apply traced_then. intros e1 s1. apply traced_then. intros e2 s2. apply traced_then. intros e s.
  apply traced_then. intros e3 s3. apply traced_then. intros e4 s4. apply traced_done.
  exists (mkOwnStep e s (invoke_handler i m e s).2). split; [|reflexivity].
  eexists [_; _], _, [_; _]. split; [reflexivity|]. split; [|split; [split; [reflexivity|]|]].
  - kept_all.
  - keeps. done.
  - kept_all.
Qed.
Lemma frames_kept i {A} (p : Prog Env Routes A) :
  frames (λ s s' : Routes, handled_ (s' i) = handled_ (s i) ∧ storage_ (s' i) = storage_ (s i) ∧ payload_ (s' i) = payload_ (s i)) p →
  traced p (λ tr _, Forall (kept i) tr).
Proof. intros Hp. exact (traced_frames _ _ Hp). Qed.
Lemma only_traced j {A} (p : Prog Env Routes A) :
  only j p → traced p (λ tr _, Forall (λ x : Own, ∀ i, i ≠ j → after x i = before x i) tr).
Proof.
  intros Hp. apply (traced_frames (λ s s' : Routes, ∀ i, i ≠ j → s' i = s i)). induction p as [a| |B f k IH]; [done..|].
  destruct Hp as [Hf Hk]. split; [auto|]. intros b. apply IH, Hk.
Qed.

(** A wait that has no permit has run out; a slot that is not taken was not
    there. *)
Lemma traced_wait fuel i :
  traced (wait_take fuel i) (λ tr taken, Forall (kept i) tr
    ∧ (taken = false → no_permit i tr ∧ ∃ x, x ∈ tr ∧ wait_over (at_env x) = true)).
Proof.
  induction fuel as [|fuel IH]; cbn [wait_take]; [intros tr a []|]. apply traced_then. intros e s.
  assert (Hkept : kept i (mkOwnStep e s (try_take i e s).2)).
  { unfold kept, try_take, on. cbn. destruct (sem_take _); cbn; by rewrite fn_lookup_insert. }
  destruct (sem_take (slots_ (s i))) as [permit|] eqn:Htake.
  - unfold try_take, on. rewrite Htake. cbn. apply traced_done. split; [|done]. constructor; [|done].
    revert Hkept. unfold try_take, on. by rewrite Htake.
  - assert (Hstep : try_take i e s = (false, (try_take i e s).2)) by (unfold try_take, on; by rewrite Htake).
    assert (Hno : ∀ tr, no_permit i (mkOwnStep e s (try_take i e s).2 :: tr)).
    { intros tr. eexists. split; [by apply list_elem_of_here|done]. }
    set (s' := (try_take i e s).2) in *. rewrite Hstep. cbn [fst]. apply traced_then. intros e' s1. cbn [ask fst snd].
    destruct (wait_over e') eqn:Hover.
    + apply traced_done. split; [apply Forall_cons_2; [done|apply Forall_singleton; by keeps]|]. intros _. split; [apply Hno|].
      exists (mkOwnStep e' s1 s1). split; [|done]. apply list_elem_of_further, list_elem_of_here.
    + eapply traced_mono; [exact IH|]. intros tr taken [Hk Ht]. split; [do 2 (constructor; [done|]); done|].
      intros Hf. destruct (Ht Hf) as [_ (x & Hx & Hw)]. split; [apply Hno|]. exists x. split; [|done].
      by do 2 apply list_elem_of_further.
Qed.
Lemma traced_slot fuel i ov mode :
  traced (take_slot fuel i ov mode) (λ tr taken, Forall (kept i) tr
    ∧ (taken = false → no_permit i tr ∧ (ov = WaitFor → mode = Normal → ∃ x, x ∈ tr ∧ wait_over (at_env x) = true))).
Proof.
  unfold take_slot. destruct (decide (ov = WaitFor)) as [->|Hov].
  - rewrite bool_decide_eq_true_2 by done. destruct (decide (mode = Normal)) as [->|Hm].
    + rewrite bool_decide_eq_true_2 by done. cbn [andb]. eapply traced_mono; [apply traced_wait|].
      intros tr taken [Hk Ht]. split; [done|]. intros Hf. destruct (Ht Hf) as [Hno Hover]. auto.
    + rewrite (bool_decide_eq_false_2 (mode = Normal)) by done. cbn [andb]. apply traced_then. intros e s. apply traced_done.
      split; [constructor; [|done]; unfold kept, try_take, on; cbn; destruct (sem_take _); cbn; by rewrite fn_lookup_insert|].
      unfold try_take, on. destruct (sem_take _) eqn:Ht; [done|]. intros _. split; [|done]. eexists. split; [by apply list_elem_of_here|done].
  - rewrite (bool_decide_eq_false_2 (ov = WaitFor)) by done. cbn [andb]. apply traced_then. intros e s. apply traced_done.
    split; [constructor; [|done]; unfold kept, try_take, on; cbn; destruct (sem_take _); cbn; by rewrite fn_lookup_insert|].
    unfold try_take, on. destruct (sem_take _) eqn:Ht; [done|]. intros _. split; [|done]. eexists. split; [by apply list_elem_of_here|done].
Qed.

(** What accepting a message comes to. *)
Definition acceptance (i : nat) (dl : Delivery) (m : Msg) (mode : EmitMode) (tr : list Own) (acc : RouteAcceptance) : Prop :=
  (acc_status acc = SOk ∧ acc_accepted acc = true ∧ once (kept i) (takes i dl m) tr
   ∧ (acc_dropped acc = true → no_permit i tr ∧ ∃ capacity stop, dl = Queued capacity DropOldest stop)
   ∧ (acc_needs_submit acc = false → acc_dropped acc = false ∧ (∃ stop, dl = Coalesced stop)
        ∧ once (kept i) (λ y, pending_ (before y i) = true ∧ takes i dl m y) tr))
  ∨ (Forall (kept i) tr ∧ no_permit i tr ∧ acc_needs_submit acc = false ∧ ∃ capacity stop,
       (acc_status acc = SOk ∧ acc_accepted acc = false ∧ acc_dropped acc = true ∧ dl = Queued capacity DropNewest stop)
       ∨ (acc_status acc = SFull ∧ acc_timed_out acc = false
          ∧ ∃ ov, dl = Queued capacity ov stop ∧ (ov = Reject ∨ (ov = WaitFor ∧ mode ≠ Normal)))
       ∨ (acc_status acc = STimeout ∧ acc_timed_out acc = true ∧ dl = Queued capacity WaitFor stop ∧ mode = Normal
          ∧ ∃ x, x ∈ tr ∧ wait_over (at_env x) = true)).
Lemma traced_accept fuel i dl m mode :
  asynchronous dl = true → traced (accept fuel i dl m mode) (acceptance i dl m mode).
Proof.
  destruct dl as [| |capacity ov stop|stop|stop]; intros Has; try done; cbn [accept].
  - unfold queued_accept. apply traced_bind. eapply traced_mono; [apply traced_slot|]. intros tr taken [Hk Hno].
    assert (Hstore : ∀ drop_oldest, (drop_oldest = true → taken = false ∧ ov = DropOldest) →
      traced (pending ← on i (λ _ r, store capacity drop_oldest m r); _ ← mutate i (accepted pending);
              Done (accept_ok <| acc_dropped := drop_oldest |> <| acc_needs_submit := true |>))
        (λ tr' acc, acceptance i (Queued capacity ov stop) m mode (tr ++ tr') acc)).
    { intros drop Hdrop. apply traced_then. intros e s. apply traced_then. intros e' s'. apply traced_done.
      left. split; [done|]. split; [done|]. split; [|split; [|done]].
      - exists tr. eexists _, [_]. split; [reflexivity|]. split; [done|]. split.
        + unfold takes, on, store. cbn. destruct drop; cbn; by rewrite fn_lookup_insert.
        + kept_all.
      - cbn. intros Hd. destruct (Hdrop Hd) as [Ht ->]. destruct (Hno Ht) as [(x & Hx & Hs) _].
        split; [|eauto]. exists x. split; [apply elem_of_app; by left|done]. }
    destruct taken; [by apply Hstore|]. destruct (Hno eq_refl) as [(x & Hx & Hs) Hover].
    assert (Hpermit : ∀ tr', no_permit i (tr ++ tr')) by (intros tr'; exists x; split; [apply elem_of_app; by left|done]).
    assert (Hkeep : ∀ e s f, Forall (kept i) (tr ++ [mkOwnStep e s (mutate i f e s).2])).
    { intros e s f. apply Forall_app_2; [done|]. kept_all. }
    destruct ov; [| |by apply Hstore|].
    + apply traced_then. intros e s. apply traced_done. right. split; [by apply Hkeep|]. split; [apply Hpermit|]. split; [done|].
      exists capacity, stop. right. left. cbn. eauto 6.
    + apply traced_then. intros e s. apply traced_done. right. split; [by apply Hkeep|]. split; [apply Hpermit|]. split; [done|].
      exists capacity, stop. left. done.
    + apply traced_then. intros e s. apply traced_done. right. split; [by apply Hkeep|]. split; [apply Hpermit|]. split; [done|].
      exists capacity, stop. right. rewrite (bool_decide_eq_true_2 (WaitFor = WaitFor)) by done. cbn [andb].
      destruct (decide (mode = Normal)) as [Hm|Hm].
      * right. rewrite bool_decide_eq_true_2 by done. cbn. split_and!; [done..|]. destruct (Hover eq_refl Hm) as (y & Hy & Hw).
        exists y. split; [apply elem_of_app; by left|done].
      * left. rewrite bool_decide_eq_false_2 by done. cbn. split; [done|]. split; [done|]. exists WaitFor. auto.
  - unfold latest_accept. apply traced_then. intros e s.
    assert (Hrest : ∀ l, Forall (kept i) l → once (kept i) (takes i (Latest stop) m)
      (mkOwnStep e s (on i (λ _ r, (pending_ r || negb (in_flight_ r =? 0)%Z, r <| payload_ := m |> <| pending_ := true |>)) e s).2 :: l)).
    { intros l Hl. eexists [], _, l. split; [done|]. split; [done|]. split; [|done]. by keeps. }
    match goal with |- context [if ?b then _ else _] => destruct b end; (apply traced_then; intros e1 s1); [apply traced_then; intros e2 s2|]; apply traced_done;
      (left; split; [done|]; split; [done|]; split; [|done]); apply Hrest; kept_all.
  - unfold coalesced_accept. apply traced_then. intros e s. set (x := mkOwnStep e s _).
    assert (Hx : takes i (Coalesced stop) m x) by (subst x; by keeps).
    assert (Hrest : ∀ l P, Forall (kept i) l → P x → once (kept i) P (x :: l)).
    { intros l P Hl HP. by exists [], x, l. }
    destruct (pending_ (s i)) eqn:Hp; unfold on; rewrite Hp; cbn [fst negb].
    + apply traced_then. intros e1 s1. apply traced_then. intros e2 s2. apply traced_done. left. split; [done|]. split; [done|].
      assert (Hl : ∀ f g, Forall (kept i) [mkOwnStep e1 s1 (mutate i f e1 s1).2; mkOwnStep e2 s2 (mutate i g e2 s2).2])
        by (intros f g; repeat constructor; by keeps).
      split; [by apply Hrest|]. split; [done|]. intros _. split; [done|]. split; [eauto|]. by apply Hrest.
    + apply traced_then. intros e1 s1. apply traced_done. left. split; [done|]. split; [done|]. split; [|done].
      apply Hrest; [|done]. kept_all.
Qed.
Ltac kept_known := repeat (apply Forall_cons_2; [assumption|]); first [assumption | apply Forall_nil_2].
Lemma traced_emit_route fuel i sub m mode : traced (emit_route fuel i sub m mode) (attempt_made i sub m mode).
Proof.
  apply traced_and; [apply only_traced, only_emit_route|]. unfold TypedBus.emit_route.
  apply traced_then. intros e s. apply traced_then. intros e1 s1.
  set (x := mkOwnStep e s _). set (y := mkOwnStep e1 s1 _).
  assert (Hx : kept i x) by (subst x; by keeps). assert (Hy : kept i y) by (subst y; by keeps).
  assert (Hopen : ∀ p : Prog Env Routes RouteAttempt,
    traced p (λ tr a, if accepting_ (before y i) then attempt_taken i sub m mode (x :: y :: tr) a
                      else tr = [] ∧ a = refused_by i sub mode SNotReady NotReady 0) →
    traced p (λ tr a, ∃ x' y' rest, x :: y :: tr = x' :: y' :: rest
      ∧ r_considered (record_ (after x' i)) = inc64 (r_considered (record_ (before x' i)))
      ∧ if accepting_ (before y' i) then attempt_taken i sub m mode (x :: y :: tr) a
        else rest = [] ∧ a = refused_by i sub mode SNotReady NotReady 0)).
  { intros p Hp. eapply traced_mono; [exact Hp|]. intros tr a Ha. exists x, y, tr. split; [done|]. split; [|exact Ha].
    subst x. by keeps. }
  apply Hopen. clear Hopen. cbn [look on fst before y]. destruct (accepting_ (s1 i)); cbn [negb]; [|by apply traced_done].
  destruct (asynchronous (sub_delivery sub)) eqn:Has; cbn [negb].
  - apply traced_bind. eapply traced_mono; [by apply traced_accept|].
    intros tr acc [(Hok & Hacc & Honce & Hdrop & Hmerge)|(Hk & Hno & Hsub & capacity & stop & Hcase)].
    + rewrite bool_decide_eq_true_2 by done. cbn [negb].
      assert (Honce' : once (kept i) (takes i (sub_delivery sub) m) (x :: y :: tr))
        by (apply (once_before _ _ [x; y]); [kept_known|done]).
      assert (Hdrop' : acc_dropped acc = true → no_permit i (x :: y :: tr) ∧ ∃ capacity stop, sub_delivery sub = Queued capacity DropOldest stop).
      { intros Hd. destruct (Hdrop Hd) as [(z & Hz & Hs) Hq]. split; [|done]. exists z. split; [by do 2 apply list_elem_of_further|done]. }
      rewrite Hacc. destruct (acc_needs_submit acc).
      * apply traced_then. intros e2 s2. cbn [ask fst snd]. destruct (submission e2) as [[st native]|] eqn:Hs.
        -- apply traced_bind. intros tr2 n _ tr3 a Hg.
           cbn [gives] in Hg. destruct tr3 as [|z tr3]; [done|]. destruct Hg as (_ & -> & <-).
           eapply (TakenBack i sub m mode _ (x :: y :: tr) (mkOwnStep e2 s2 s2)); done.
        -- apply traced_done. by eapply (TakenSubmitted i sub m mode _ (x :: y :: tr) (mkOwnStep e2 s2 s2)).
      * destruct (Hmerge eq_refl) as (Hd & [stop Hdl] & Hm). rewrite Hd. apply traced_done. rewrite app_nil_r.
        apply (TakenMerged i sub m mode _ stop); [done|]. apply (once_before _ _ [x; y]); [kept_known|done].
    + assert (Hk' : Forall (kept i) (x :: y :: tr)) by kept_known.
      assert (Hno' : no_permit i (x :: y :: tr)).
      { destruct Hno as (z & Hz & Hs). exists z. split; [by do 2 apply list_elem_of_further|done]. }
      destruct Hcase as [(Hst & Hacc & Hd & Hdl)|[(Hst & Ht & ov & Hdl & Hov)|(Hst & Ht & Hdl & Hm & z & Hz & Hover)]]; rewrite Hst.
      * rewrite bool_decide_eq_true_2 by done. cbn [negb]. rewrite Hsub, Hacc, Hd. apply traced_done. rewrite app_nil_r.
        by eapply TakenNot.
      * rewrite (bool_decide_eq_false_2 (SFull = SOk)) by done. cbn [negb]. rewrite Ht. apply traced_done. rewrite app_nil_r.
        by eapply (TakenFull i sub m mode).
      * rewrite (bool_decide_eq_false_2 (STimeout = SOk)) by done. cbn [negb]. rewrite Ht. apply traced_done. rewrite app_nil_r.
        eapply (TakenLate i sub m mode); [done..| |done]. exists z. split; [by do 2 apply list_elem_of_further|done].
  - apply traced_then. intros e2 s2. set (z := mkOwnStep e2 s2 _). assert (Hz : kept i z) by (subst z; by keeps).
    apply traced_bind. eapply traced_mono; [apply kept_deliver|]. intros tr answer (u & Honce & ->).
    assert (Honce' : once (kept i) (λ v, v = u ∧ takes i (sub_delivery sub) m v) (x :: y :: z :: tr ++ [])).
    { rewrite app_nil_r. apply (once_before _ _ [x; y; z]); [kept_known|].
      destruct Honce as (t1 & v & t2 & -> & H1 & [-> Hv] & H2). exists t1, u, t2. split; [done|]. split; [done|]. split; [|done].
      split; [done|]. unfold takes. by destruct (sub_delivery sub). }
    pose proof (TakenInline i sub m mode _ u Has Honce') as Ht.
    destruct (handled_with (at_env u)); by apply traced_done.
Qed.

(** The specification of the aggregate. *)
Definition count (f : RouteAttempt → bool) (attempts : list RouteAttempt) : Z :=
  u16 (Z.of_nat (length (filter (λ a, f a = true) attempts))).
Definition failures (attempts : list RouteAttempt) : list RouteAttempt :=
  filter (λ a, failed a = true) attempts.
Definition aggregate (start : TypedBus.Error) (attempts : list RouteAttempt) : TypedBus.Error * bool :=
  let '(e, bad) := match failures attempts with
                   | [] => (start, false)
                   | a :: _ => (attempt_error a, true)
                   end in
  (e <| attempted_routes := u16 (Z.of_nat (length attempts)) |>
     <| accepted_routes := count attempt_accepted attempts |>
     <| rejected_routes := count failed attempts |>
     <| dropped_routes := count attempt_dropped attempts |>, bad).

Lemma inc16_u16 n : inc16 (u16 n) = u16 (n + 1).
Proof. unfold inc16, wrap. by rewrite Zplus_mod_idemp_l. Qed.

Lemma route_count_snoc f attempts a :
  count f (attempts ++ [a]) = if f a then inc16 (count f attempts) else count f attempts.
Proof.
  unfold count. rewrite list.filter_app, length_app, list.filter_cons, list.filter_nil.
  destruct (f a); simpl.
  - rewrite inc16_u16. f_equal. lia.
  - by rewrite Nat.add_0_r.
Qed.

Lemma count_attempt_aggregate start attempts a :
  count_attempt (aggregate start attempts) a = aggregate start (attempts ++ [a]).
Proof.
  unfold count_attempt, aggregate. rewrite !route_count_snoc.
  assert (Hlen : u16 (Z.of_nat (length (attempts ++ [a]))) = inc16 (u16 (Z.of_nat (length attempts)))).
  { rewrite inc16_u16, length_app. simpl. f_equal. lia. }
  assert (Hf : failures (attempts ++ [a]) = failures attempts ++ (if failed a then [a] else [])).
  { unfold failures. rewrite list.filter_app, list.filter_cons, list.filter_nil. by destruct (failed a). }
  rewrite Hlen, Hf.
  destruct (failures attempts), (failed a), (attempt_accepted a), (attempt_dropped a); reflexivity.
Qed.

(** The routes of a message, in catalog order. *)
Definition routes_of (message : nat) (routes : list (nat * Subscription)) : list (nat * Subscription) :=
  filter (λ x, sub_message x.2 = message) routes.

Lemma emit_routes_traced fuel routes message m mode start attempts :
  traced (emit_routes (Sem:=Sem) (Msg:=Msg) message_id subscription_id fuel routes message m mode (aggregate start attempts))
    (λ tr agg, ∃ trs more, tr = concat trs
      ∧ Forall3 (λ x l a, attempt_made x.1 x.2 m mode l a) (routes_of message routes) trs more
      ∧ agg = aggregate start (attempts ++ more)).
Proof.
  revert attempts. induction routes as [|[i sub] routes IH]; intros attempts; cbn [emit_routes].
  { apply traced_done. exists [], []. rewrite app_nil_r. split; [done|]. split; [constructor|done]. }
  unfold routes_of. rewrite list.filter_cons. cbn [snd]. destruct (decide (sub_message sub = message)) as [Hm|Hm].
  - rewrite bool_decide_eq_true_2 by done. apply traced_bind.
    eapply traced_mono; [apply traced_emit_route|]. intros l a Ha. rewrite count_attempt_aggregate.
    eapply traced_mono; [apply IH|]. intros tr agg (trs & more & -> & Hall & ->). exists (l :: trs), (a :: more).
    rewrite <-app_assoc. split; [done|]. split; [by constructor|done].
  - rewrite bool_decide_eq_false_2 by done. apply IH.
Qed.

(** The calling context is looked at first, except by the call made for
    interrupts. *)
Definition context_seen (mode : EmitMode) (isr : bool) (tr : list Own) : Prop :=
  if bool_decide (mode = Isr) then tr = [] ∧ isr = false else ∃ e s, tr = [mkOwnStep e s s] ∧ in_isr e = isr.
(** The outcome of an emission that did the steps [tr]: refused from an
    interrupt, or because the system was seen not to run, or one attempt per
    route of the message, in order, each of which did its part of the steps,
    and a failure if one of them failed. *)
Definition emission_outcome (message : nat) (m : Msg) (mode : EmitMode) (tr : list Own) (r : result TypedBus.Error unit) : Prop :=
  let refusal := make_error message_id message (emit_operation mode) in
  (context_seen mode true tr ∧ r = Err (refusal SInvalid InvalidContext))
  ∨ ∃ seen e s work, tr = seen ++ mkOwnStep e s s :: work ∧ context_seen mode false seen
    ∧ if bool_decide (system e = Running) then
        ∃ trs attempts, work = concat trs
          ∧ Forall3 (λ x l a, attempt_made x.1 x.2 m mode l a) (routes_of message (indexed subscriptions)) trs attempts
          ∧ match failures attempts with
            | [] => r = Ok tt
            | first :: _ => r = Err (attempt_error first
                        <| attempted_routes := u16 (Z.of_nat (length (routes_of message (indexed subscriptions)))) |>
                        <| accepted_routes := count attempt_accepted attempts |>
                        <| rejected_routes := count failed attempts |>
                        <| dropped_routes := count attempt_dropped attempts |>)
            end
      else work = [] ∧ r = Err (refusal SNotReady NotReady).

Lemma emit_message_traced fuel message m mode :
  traced (emit_message (Sem:=Sem) (Msg:=Msg) message_id subscription_id subscriptions fuel message m mode)
    (emission_outcome message m mode).
Proof.
  unfold emit_message.
  set (emit := Then (ask system) _).
  assert (Hemit : ∀ seen, context_seen mode false seen → traced emit (λ tr, emission_outcome message m mode (seen ++ tr))).
  { intros seen Hseen. subst emit. apply traced_then. intros e s. cbn [ask fst snd].
    case_bool_decide as Hrun; cbn [negb].
    - apply traced_bind.
      eapply traced_mono;
        [exact (emit_routes_traced fuel (indexed subscriptions) message m mode
                  (make_error message_id message (emit_operation mode) SOk InternalInvariant) [])|].
      intros tr agg (trs & attempts & -> & Hall & ->). apply traced_done. right. exists seen, e, s, (concat trs).
      rewrite app_nil_r. split; [done|]. split; [done|]. rewrite bool_decide_eq_true_2 by done. exists trs, attempts.
      split; [done|]. split; [done|]. pose proof (Forall3_length_lm _ _ _ _ Hall) as Hlen.
      pose proof (Forall3_length_lr _ _ _ _ Hall) as Hlen'. rewrite Hlen'. simpl. unfold aggregate.
      by destruct (failures attempts) as [|first rest].
    - apply traced_done. right. exists seen, e, s, []. split; [done|]. split; [done|]. by rewrite bool_decide_eq_false_2. }
  case_bool_decide as Hm; [apply (Hemit []); unfold context_seen; by rewrite bool_decide_eq_true_2|].
  assert (Hseen : ∀ isr e s, in_isr e = isr → context_seen mode isr [mkOwnStep e s s]).
  { intros isr e s He. unfold context_seen. rewrite bool_decide_eq_false_2 by done. by exists e, s. }
  apply traced_then. intros e s. cbn [ask fst snd]. destruct (in_isr e) eqn:Hisr.
  - apply traced_done. left. split; [by apply Hseen|done].
  - apply (Hemit [mkOwnStep e s s]). by apply Hseen.
Qed.

(** ** Emissions end *)
Definition waits (sub : Subscription) : bool :=
  match sub_delivery sub with Queued _ WaitFor _ => true | _ => false end.
Lemma emit_route_finishes fuel i sub m mode :
  mode ≠ Normal ∨ waits sub = false → finishes (emit_route fuel i sub m mode).
Proof.
  intros Hwait. unfold TypedBus.emit_route. intros _ accepting. destruct (negb accepting); [done|].
  assert (Hgive : ∀ n, finishes (give_all (Sem:=Sem) (Msg:=Msg) n i)) by (intros n; induction n; [done|by intros _]).
  assert (Hclear : ∀ dl, finishes (clear_pending (Sem:=Sem) (Msg:=Msg) i dl)).
  { intros []; try done; [|by intros removed _..]. intros removed _. by apply finishes_bind; [apply Hgive|]. }
  destruct (negb (asynchronous _)); [intros _; apply finishes_bind; [by intros ? ? answer ? ?|by intros [|]]|].
  apply finishes_bind.
  - unfold waits in Hwait. destruct (sub_delivery sub) as [| |capacity ov stop|stop|stop]; cbn [accept]; try done; [|intros was; by destruct was..].
    apply finishes_bind.
    + unfold take_slot. assert (bool_decide (ov = WaitFor) && bool_decide (mode = Normal) = false) as ->; [|done].
      do 2 case_bool_decide; try done. subst. by destruct Hwait.
    + intros taken. destruct taken, ov; by intros.
  - intros acc. destruct (negb _); [done|]. destruct (acc_needs_submit acc); [|done]. intros [[st native]|]; [|done].
    by apply finishes_bind; [apply Hclear|].
Qed.
Lemma emit_message_finishes fuel message m mode :
  mode ≠ Normal ∨ Forall (λ sub, waits sub = false) subscriptions →
  finishes (emit_message (Sem:=Sem) (Msg:=Msg) message_id subscription_id subscriptions fuel message m mode).
Proof.
  intros Hwait.
  assert (Hroutes : ∀ routes agg, (mode ≠ Normal ∨ Forall (λ x, waits x.2 = false) routes) →
    finishes (emit_routes (Sem:=Sem) (Msg:=Msg) message_id subscription_id fuel routes message m mode agg)).
  { clear Hwait. induction routes as [|[i sub] routes IH]; intros agg Hr; [done|]. cbn [emit_routes].
    assert (Htail : mode ≠ Normal ∨ Forall (λ x, waits x.2 = false) routes) by (destruct Hr as [|Hr]; [by left|right; by inversion Hr]).
    case_bool_decide; [|by apply IH]. apply finishes_bind; [|intros a; by apply IH]. apply emit_route_finishes.
    destruct Hr as [|Hr]; [by left|right; by inversion Hr]. }
  assert (Hemit : finishes (E := Env) (S := Routes) (state ← ask system;
     if negb (bool_decide (state = Running)) then
       Done (Err (make_error message_id message (emit_operation mode) SNotReady NotReady))
     else
       agg ⇇ emit_routes (Sem:=Sem) (Msg:=Msg) message_id subscription_id fuel (indexed subscriptions) message m mode
              (make_error message_id message (emit_operation mode) SOk InternalInvariant, false);
       Done (if (agg.2 : bool) then Err agg.1 else Ok tt))).
  { intros st. destruct (negb _); [done|]. apply finishes_bind; [|done]. apply Hroutes.
    destruct Hwait as [|Hall]; [by left|right]. unfold indexed. clear -Hall.
    assert (Himap : ∀ (f : nat → nat), Forall (λ x : nat * Subscription, waits x.2 = false) (imap (λ k sub, (f k, sub)) subscriptions)).
    { induction Hall as [|sub l Hsub _ IH]; intros f; [done|]. rewrite imap_cons. constructor; [done|]. apply (IH (f ∘ S)). }
    apply (Himap id). }
  unfold emit_message. case_bool_decide; [exact Hemit|]. by intros [].
Qed.
End Outcome.

(** C18: whatever the interleaving, an emission that returns has, by the steps
    it took itself, been refused from an interrupt, or seen a system that
    does not run and touched no route, or made one attempt per route of the
    message, in catalog order.  An attempt touches its own route only and is
    counted there; it is refused if the route was seen closed, and otherwise
    calls the handler once, or stores the message once and submits the work
    that drains it (or finds that pending), or stores nothing because there
    was no room; what it reports is what happened.  The emission succeeds
    exactly if no attempt failed, and otherwise reports the first failure with
    the counts of all attempts.  It ends after a bounded number of its own
    steps unless it may wait for room. *)
Theorem emit_outcome {Sem Msg} `{SemaphoreOps Sem} message_id subscription_id subscriptions
    fuel message (m : Msg) mode sch t (s : (nat → Route Sem Msg) * list (Prog Env _ (result TypedBus.Error unit))) :
  s.2 !! t = Some (emit_message message_id subscription_id subscriptions fuel message m mode) →
  (mode ≠ Normal ∨ Forall (λ sub, waits sub = false) subscriptions →
     finishes (E := Env) (S := nat → Route Sem Msg) (emit_message message_id subscription_id subscriptions fuel message m mode))
  ∧ ∀ r, (run sch s).2 !! t = Some (Done r) →
    emission_outcome message_id subscription_id subscriptions message m mode (own_steps t sch s) r.
Proof.
  intros Ht. split; [apply emit_message_finishes|]. intros r Hr.
  by apply (emit_message_traced message_id subscription_id subscriptions fuel message m mode), gives_run.
Qed.

(** An inline handler fails, a full queue drops the message. *)
Definition two_routes : list Subscription :=
  [mkSubscription 0 Inline; mkSubscription 1 Inline; mkSubscription 0 (Queued 1 DropNewest Drain)].
Definition failing : Env := mkEnv 0 false Running false false None (Some SBusy).
Lemma emit_outcome_witness :
  let open := (mkRoute default_record true 0 [] (0, 1) [0] 0 0 1 0 false : Route (nat * nat) nat) in
  let s := (λ _, open, [emit_message Z.of_nat Z.of_nat two_routes 1 0 5 Normal]) in
  let r := Err (mkError SBusy InlineHandlerFailed Emit 0 0 2 1 1 1 0) in
  (run (replicate 20 (0, failing)) s).2 !! 0 = Some (Done r)
  ∧ length (own_steps 0 (replicate 20 (0, failing)) s) = 14
  ∧ emission_outcome Z.of_nat Z.of_nat two_routes 0 5 Normal (own_steps 0 (replicate 20 (0, failing)) s) r.
Proof.
  intros open s r. split; [reflexivity|]. split; [vm_compute; reflexivity|].
  apply (emit_outcome Z.of_nat Z.of_nat two_routes 1 0 5 Normal (replicate 20 (0, failing)) 0 s); reflexivity.
Defined.
