(* ===== verification/BusExamples.v ===== *)
(** * BusExamples: what the bus does outside the theorems

    Concrete interleavings in which a route behaves differently from what its
    specification says. *)
From stdpp Require Import prelude functions.
From S2P Require Import Prelude Status Lifecycle Interleave Bus BusQueue BusThreads.
Import TypedBus.

Open Scope nat_scope.
Open Scope solar_scope.

Definition queue (capacity : nat) (ov : Overflow) : list Subscription :=
  [mkSubscription 0 (Queued capacity ov Drain)].

(** The count of pending messages is recorded after the storage lock is
    released: a drain between the two leaves a record that says messages
    are pending for ever, and the facility's stop reports a timeout although
    the queue is empty and no handler runs. *)
Definition stale_run :=
  run (turns fair [(1, 14); (0, 17); (1, 2)])
    (plain_start (queue 2 Reject) 2 [[CallDrain 0]; [CallEmit 0 1 Normal; CallEmit 0 2 Normal]]).
Example pending_stays_recorded :
  handled_ (stale_run.1 0) = [1; 2] ∧ count_ (stale_run.1 0) = 0%Z
  ∧ r_pending (record_ (stale_run.1 0)) = 2%Z
  ∧ (alone fair (stop (queue 2 Reject) 9) (stale_run.1)) ≫= (λ x, Some x.1) = Some (Err STimeout).
Proof. vm_compute. done. Qed.

(** [DropOldest] decides to drop before it takes the storage lock: if the
    queue is drained in between, the message drops itself.  It is reported as
    accepted and is never handled. *)
Definition drop_run :=
  run (turns fair [(1, 8); (1, 5); (0, 20); (1, 20)])
    (plain_start (queue 1 DropOldest) 1 [[CallDrain 0]; [CallEmit 0 1 Normal; CallEmit 0 2 Normal]]).
Example newest_drops_itself :
  drop_run.2 = map Interleave.Done [[AnsDrain]; [AnsEmit (Ok tt); AnsEmit (Ok tt)]]
  ∧ handled_ (drop_run.1 0) = [1] ∧ count_ (drop_run.1 0) = 0%Z.
Proof. vm_compute. done. Qed.

(** A rejected submission clears the whole queue and restores all permits,
    those in the hands of other emitters included: the ring then takes more
    messages than it holds, and one handler call sees a message twice while
    another message is lost. *)
Definition no_executor : Env := mkEnv 0 false Running false false (Some (SBusy, 0%Z)) None.
Definition overfull_run :=
  run (turns fair [(1, 5); (2, 7)] ++ turns no_executor [(2, 20)] ++ turns fair [(3, 16); (1, 10)])
    (plain_start (queue 2 Reject) 2
       [[CallDrain 0]; [CallEmit 0 1 Normal]; [CallEmit 0 2 Normal];
        [CallEmit 0 3 Normal; CallEmit 0 4 Normal]]).
Example queue_overfills :
  count_ (overfull_run.1 0) = 3%Z ∧ storage_ (overfull_run.1 0) = [1; 4]
  ∧ handled_ ((run (turns fair [(0, 40)]) overfull_run).1 0) = [1; 4; 1].
Proof. vm_compute. done. Qed.
