(* ===== verification/Events.v ===== *)
(** * Events: the event facility

    Models [include/solar/events/runtime.hpp] and [facility.hpp], with their
    data of [types.hpp] and [policy.hpp]: the byte history, the ingress rings,
    capture with its sampling, rate limit and aggregation, the processor that
    drains the rings in sequence order, retention, condition tables, history
    queries, and the facility's lifecycle hooks.  A section under the
    facility's lock is one step (Interleave.v); the clock, the interrupt flag,
    a lock that [try_acquire] finds taken, and the answers of the executor,
    the processors and the stores come from the environment of the step. *)
From stdpp Require Import prelude functions.
From S2P Require Import Prelude Status Interleave.

Open Scope Z_scope.
Open Scope solar_scope.

Module TypedEvents.

(** ** Data *)
Inductive SourceKind : Set := Application | Component | Builtin.
Record SourceId : Set := mkSource { source_kind : SourceKind; source_component : Z }.
Inductive Severity : Set := Trace | Informational | Warning | SevError | SevCritical.
Inductive ContextKind : Set := Thread | Isr | Infrastructure.
Inductive TimestampQuality : Set := Monotonic | CycleDomain | Degraded.
Inductive CaptureDisposition : Set := Captured | SampledOut | RateLimitedOut | Aggregated.
Inductive LogIntent : Set := LogDefault | LogSuppress | LogForce.
Inductive Operation : Set := Observe | TryObserve | ObserveIsr | Query | Process | OpStop.
Inductive Reason : Set :=
  | NoReason | NotReady | Disabled | NotRegistered | CaptureClosed | CaptureFull | WouldBlock
  | RTimeout | InvalidContext | IsrUnsupported | RequiredCaptureExhausted | AggregationKeysFull
  | ExecutorUnavailable | HistoryEmpty | HistoryStale | DecodeMismatch | ProcessorFailed
  | InternalInvariant.

#[export] Instance SourceKind_eq_dec : EqDecision SourceKind. Proof. solve_decision. Defined.
#[export] Instance SourceId_eq_dec : EqDecision SourceId. Proof. solve_decision. Defined.
#[export] Instance Operation_eq_dec : EqDecision Operation. Proof. solve_decision. Defined.

(** A default-constructed [LocalId]. *)
Definition invalid_id : Z := 65535.
Definition no_source : SourceId := mkSource Application invalid_id.

Record Error : Set := mkError {
  err_status : Status; err_reason : Reason; err_operation : Operation; err_event : Z;
  err_processor : Z; err_source : SourceId; err_rejected : Z; err_native : Z }.

(** [RecordFlag], a set of bits. *)
Definition FNone : Z := 0.
Definition FAggregated : Z := 1.
Definition FLostBefore : Z := 2.
Definition FCritical : Z := 4.
Definition FRecovery : Z := 8.

Record RecordHeader : Set := mkHeader {
  h_event : Z; h_source : SourceId; h_sequence : Z; h_timestamp : Z; h_context : ContextKind;
  h_quality : TimestampQuality; h_severity : Severity; h_correlation : Z; h_log_intent : LogIntent;
  h_occurrence_count : Z; h_lost_before : Z; h_payload_size : Z; h_schema_version : Z; h_flags : Z }.
#[export] Instance RecordHeader_fields : Fields RecordHeader := λ h,
  mkHeader (h_event h) (h_source h) (h_sequence h) (h_timestamp h) (h_context h) (h_quality h)
    (h_severity h) (h_correlation h) (h_log_intent h) (h_occurrence_count h) (h_lost_before h)
    (h_payload_size h) (h_schema_version h) (h_flags h).
Definition default_header : RecordHeader :=
  mkHeader invalid_id no_source 0 0 Thread Monotonic Informational 0 LogDefault 1 0 0 1 FNone.

(** [Record] and [StoredRecord], which have the same members. *)
Record StoredRecord : Set := mkStored { header : RecordHeader; payload : list Z }.
#[export] Instance StoredRecord_fields : Fields StoredRecord := λ r, mkStored (header r) (payload r).

Record Receipt : Set := mkReceipt {
  disposition : CaptureDisposition; rc_sequence : Z; rc_timestamp : Z; rc_occurrence_count : Z;
  materialized : bool }.

Record HistoryPage : Set := mkPage {
  next_cursor : Z; written : nat; available : nat; evicted_before : Z; stale : bool }.
#[export] Instance HistoryPage_fields : Fields HistoryPage := λ p,
  mkPage (next_cursor p) (written p) (available p) (evicted_before p) (stale p).
Definition empty_page (cursor : Z) : HistoryPage := mkPage cursor 0 0 0 false.

Record EventRecord : Set := mkEventRecord {
  e_event : Z; e_last_status : Status; e_last_failure : Reason; e_last_sequence : Z;
  e_last_timestamp : Z; e_attempts : Z; e_captured : Z; e_sampled : Z; e_rate_limited : Z;
  e_aggregated : Z; e_aggregation_rejected : Z; e_ingress_rejected : Z; e_retained : Z;
  e_history_evicted : Z; e_known_lost : Z; e_processor_failures : Z; e_consecutive : Z;
  e_overflow_latched : bool; e_condition_active : bool }.
#[export] Instance EventRecord_fields : Fields EventRecord := λ r,
  mkEventRecord (e_event r) (e_last_status r) (e_last_failure r) (e_last_sequence r)
    (e_last_timestamp r) (e_attempts r) (e_captured r) (e_sampled r) (e_rate_limited r)
    (e_aggregated r) (e_aggregation_rejected r) (e_ingress_rejected r) (e_retained r)
    (e_history_evicted r) (e_known_lost r) (e_processor_failures r) (e_consecutive r)
    (e_overflow_latched r) (e_condition_active r).
Definition default_event_record : EventRecord :=
  mkEventRecord invalid_id SNotReady NoReason 0 0 0 0 0 0 0 0 0 0 0 0 0 0 false false.

Record ProcessorRecord : Set := mkProcessorRecord {
  p_processor : Z; p_event : Z; p_last_status : Status; p_offered : Z; p_accepted : Z;
  p_rejected : Z; p_failed : Z }.
#[export] Instance ProcessorRecord_fields : Fields ProcessorRecord := λ r,
  mkProcessorRecord (p_processor r) (p_event r) (p_last_status r) (p_offered r) (p_accepted r)
    (p_rejected r) (p_failed r).

Record ConditionRecord : Set := mkCondition {
  c_event : Z; c_source : SourceId; c_consecutive : Z; c_last_sequence : Z; c_last_timestamp : Z;
  c_active : bool }.
#[export] Instance ConditionRecord_fields : Fields ConditionRecord := λ r,
  mkCondition (c_event r) (c_source r) (c_consecutive r) (c_last_sequence r) (c_last_timestamp r)
    (c_active r).
Definition default_condition : ConditionRecord := mkCondition invalid_id no_source 0 0 0 false.

Record FacilityRecord : Set := mkFacilityRecord {
  f_last_status : Status; f_next_sequence : Z; f_accepted : Z; f_processed : Z;
  f_ingress_rejected : Z; f_history_evicted : Z; f_processor_failures : Z; f_thread_pending : Z;
  f_isr_pending : Z; f_critical_pending : Z; f_history_used : Z; f_history_capacity : Z;
  f_ready : bool; f_accepting : bool; f_processor_pending : bool; f_overflow_latched : bool }.
#[export] Instance FacilityRecord_fields : Fields FacilityRecord := λ r,
  mkFacilityRecord (f_last_status r) (f_next_sequence r) (f_accepted r) (f_processed r)
    (f_ingress_rejected r) (f_history_evicted r) (f_processor_failures r) (f_thread_pending r)
    (f_isr_pending r) (f_critical_pending r) (f_history_used r) (f_history_capacity r)
    (f_ready r) (f_accepting r) (f_processor_pending r) (f_overflow_latched r).
Definition default_facility_record : FacilityRecord :=
  mkFacilityRecord SNotReady 1 0 0 0 0 0 0 0 0 0 0 false false false false.

(** ** Policies, as [CaptureTraits] and [RetentionTraits] resolve them *)
Inductive Capture : Set :=
  | EveryOccurrence
  | SampleEvery (period : Z)
  | RateLimited (interval_ticks : Z)
  | AggregateCount (window_ticks : Z) (keyed : bool).
Inductive Retention : Set :=
  | Transient
  | Buffered
  | Critical (reserved_slots : nat) (panic_on_exhaustion : bool)
  | Persistent.

Definition critical (r : Retention) : bool := match r with Critical _ _ => true | _ => false end.
Definition reserved_slots (r : Retention) : nat := match r with Critical n _ => n | _ => O end.
Definition panic_on_exhaustion (r : Retention) : bool :=
  match r with Critical _ p => p | _ => false end.

(** ** The bytes of an object

    Records are copied into the history with [memcpy]; the object
    representation of a header and of a 16-bit size is the compiler's. *)
Class ObjectBytes := {
  header_size : nat;
  header_bytes : RecordHeader → list Z;
  header_of : list Z → RecordHeader;
  size_bytes : Z → list Z;
  size_of : list Z → Z }.

(** A trivially copyable object is restored from its bytes. *)
Class ObjectLaws `{ObjectBytes} : Prop := {
  header_bytes_length h : length (header_bytes h) = header_size;
  header_of_bytes h : header_of (header_bytes h) = h;
  size_bytes_length n : length (size_bytes n) = 2%nat;
  size_of_bytes n : is_u 16 n → size_of (size_bytes n) = n }.

(** ** The compact history *)
Record CompactHistory : Set := mkHistory { bytes_ : list Z; used_ : nat; evicted_ : Z }.
#[export] Instance CompactHistory_fields : Fields CompactHistory := λ h,
  mkHistory (bytes_ h) (used_ h) (evicted_ h).
Record AppendResult : Set := mkAppend { ap_evicted : Z; ap_stored : bool }.

Section History.
Context `{ObjectBytes} (max_payload : nat).

Definition prefix_size : nat := 2.
Definition history_clear (h : CompactHistory) : CompactHistory :=
  h <| used_ := O |> <| evicted_ := 0 |>.

Definition history_entry_size (r : StoredRecord) : Z :=
  u16 (Z.of_nat header_size + h_payload_size (header r)).
Definition read_history_size (bytes : list Z) (offset : nat) : option Z :=
  size_of <$> copy_from prefix_size bytes offset.

(** The record of [size] bytes at [offset]; a payload longer than the
    record's array would be written past its end. *)
Definition read_history_record (bytes : list Z) (offset : nat) (size : Z) : option StoredRecord :=
  h ← copy_from header_size bytes (offset + prefix_size);
  let payload_size := (Z.to_nat size - header_size)%nat in
  p ← copy_from payload_size bytes (offset + prefix_size + header_size);
  stored ← copy_to (replicate max_payload 0) 0 p;
  Some (mkStored (header_of h) stored).

(** [memmove] of the tail of the used bytes to the front. *)
Definition drop_front (n used : nat) (bytes : list Z) : option (list Z) :=
  tail ← copy_from (used - n) bytes n; copy_to bytes 0 tail.

Fixpoint evict (fuel : nat) (total : nat) (h : CompactHistory) (count : Z) :
  option (CompactHistory * Z) :=
  match fuel with
  | O => None
  | S fuel =>
    if (used_ h + total <=? length (bytes_ h))%nat then Some (h, count)
    else if (used_ h <? prefix_size)%nat then Some (h <| used_ := O |>, count)
    else
      oldest_size ← read_history_size (bytes_ h) 0;
      let oldest_total := (prefix_size + Z.to_nat oldest_size)%nat in
      if (used_ h <? oldest_total)%nat then Some (h <| used_ := O |>, count)
      else
        bytes ← drop_front oldest_total (used_ h) (bytes_ h);
        evict fuel total
          (h <| bytes_ := bytes |> <| used_ := (used_ h - oldest_total)%nat |> <| evicted_ ::= inc64 |>)
          (inc64 count)
  end.

Definition append (h : CompactHistory) (r : StoredRecord) : option (AppendResult * CompactHistory) :=
  let entry_size := history_entry_size r in
  let total := (prefix_size + Z.to_nat entry_size)%nat in
  if (length (bytes_ h) <? total)%nat then Some (mkAppend 0 false, h)
  else
    '(h, count) ← evict (S (used_ h)) total h 0;
    let used := used_ h in
    bytes ← copy_to (bytes_ h) used (size_bytes entry_size);
    bytes ← copy_to bytes (used + prefix_size) (header_bytes (header r));
    p ← copy_from (Z.to_nat (h_payload_size (header r))) (payload r) 0;
    bytes ← copy_to bytes (used + prefix_size + header_size) p;
    Some (mkAppend count true, h <| bytes_ := bytes |> <| used_ := (used + total)%nat |>).

(** The loop over the entries that [read], [latest] and [next] share: [f]
    says whether to go on. *)
Fixpoint scan {A} (fuel : nat) (h : CompactHistory) (offset : nat)
    (f : A → StoredRecord → A * bool) (a : A) : option A :=
  match fuel with
  | O => None
  | S fuel =>
    if (used_ h <? offset + prefix_size)%nat then Some a
    else
      entry_size ← read_history_size (bytes_ h) offset;
      let total := (prefix_size + Z.to_nat entry_size)%nat in
      if (Z.to_nat entry_size <? header_size)%nat || (used_ h <? offset + total)%nat then Some a
      else
        r ← read_history_record (bytes_ h) offset entry_size;
        let '(a, more) := f a r in
        if more then scan fuel h (offset + total) f a else Some a
  end.

Definition selects (filter : option Z) (r : StoredRecord) : bool :=
  match filter with None => true | Some event => h_event (header r) =? event end.

(** A record copied into a caller's record: the payload beyond its size stays. *)
Definition copy_record (old r : StoredRecord) : option StoredRecord :=
  p ← copy_from (Z.to_nat (h_payload_size (header r))) (payload r) 0;
  stored ← copy_to (payload old) 0 p;
  Some (mkStored (header r) stored).
Definition blank_record : StoredRecord := mkStored default_header (replicate max_payload 0).

Definition next (h : CompactHistory) (sequence : Z) (filter : option Z) : option (option StoredRecord) :=
  scan (S (used_ h)) h 0
    (λ found r, if (sequence <=? h_sequence (header r)) && selects filter r then (Some r, false)
                else (found, true)) None.

Definition latest (h : CompactHistory) (filter : option Z) : option (result Error StoredRecord) :=
  found ← scan (S (used_ h)) h 0
    (λ found r, (if selects filter r then Some r else found, true)) None;
  match found with
  | Some r => r ← copy_record blank_record r; Some (Ok r)
  | None => Some (Err (mkError SNotFound HistoryEmpty Query invalid_id invalid_id no_source 0 0))
  end.

Record Reader : Set := mkReader {
  rd_page : HistoryPage; rd_output : option (list StoredRecord); rd_oldest : Z; rd_latest : Z }.

(** One record of [read]. *)
Definition read_entry (cursor : Z) (filter : option Z) (s : Reader) (r : StoredRecord) : Reader :=
  let sequence := h_sequence (header r) in
  let oldest := if rd_oldest s =? 0 then sequence else rd_oldest s in
  let page := rd_page s in
  if (cursor <=? sequence) && selects filter r then
    let page := page <| available ::= S |> in
    match rd_output s with
    | Some output =>
      if (written page <? length output)%nat then
        mkReader (page <| written ::= S |> <| next_cursor := inc64 sequence |>)
          (old ← output !! written page; new ← copy_record old r; Some (<[written page := new]> output))
          oldest sequence
      else mkReader page (Some output) oldest sequence
    | None => mkReader page None oldest sequence
    end
  else mkReader page (rd_output s) oldest sequence.

Definition read (h : CompactHistory) (cursor : Z) (output : list StoredRecord) (filter : option Z) :
  option (HistoryPage * list StoredRecord) :=
  s ← scan (S (used_ h)) h 0 (λ s r, (read_entry cursor filter s r, true))
        (mkReader (empty_page cursor) (Some output) 0 0);
  output ← rd_output s;
  let page := rd_page s in
  let page :=
    if negb (rd_oldest s =? 0) && (cursor <? rd_oldest s) then
      let page := page <| stale := true |> <| evicted_before := u64 (rd_oldest s - cursor) |> in
      if (written page =? 0)%nat then page <| next_cursor := rd_oldest s |> else page
    else page in
  let page :=
    if (written page =? 0)%nat && negb (rd_latest s =? 0) && (rd_latest s <? cursor)
    then page <| next_cursor := cursor |> else page in
  Some (page, output).
End History.

(** ** The ingress rings *)
Record FixedRing : Set := mkRing { records_ : list StoredRecord; head_ : nat; tail_ : nat; size_ : nat }.
#[export] Instance FixedRing_fields : Fields FixedRing := λ r,
  mkRing (records_ r) (head_ r) (tail_ r) (size_ r).

(** The template parameter [Capacity] is the length of the array. *)
Definition push (rec : StoredRecord) (r : FixedRing) : option FixedRing :=
  let capacity := length (records_ r) in
  if (size_ r =? capacity)%nat then None
  else Some (r <| records_ ::= <[tail_ r := rec]> |> <| tail_ := ((tail_ r + 1) mod capacity)%nat |>
               <| size_ ::= S |>).
Definition front (r : FixedRing) : option StoredRecord :=
  if (size_ r =? 0)%nat then None else records_ r !! head_ r.
Definition pop (r : FixedRing) : option (StoredRecord * FixedRing) :=
  if (size_ r =? 0)%nat then None
  else rec ← records_ r !! head_ r;
       Some (rec, r <| head_ := ((head_ r + 1) mod length (records_ r))%nat |> <| size_ ::= pred |>).
(** What [for_each] visits. *)
Definition ring_list (r : FixedRing) : list StoredRecord :=
  omap (λ k, records_ r !! ((head_ r + k) mod length (records_ r))%nat) (seq 0 (size_ r)).
Definition ring_clear (r : FixedRing) : FixedRing :=
  r <| head_ := O |> <| tail_ := O |> <| size_ := O |>.

(** ** The state of the facility *)
Record Aggregate : Set := mkAggregate {
  a_key : Z; a_window_start : Z; a_count : Z; a_representative : StoredRecord; a_occupied : bool }.
#[export] Instance Aggregate_fields : Fields Aggregate := λ a,
  mkAggregate (a_key a) (a_window_start a) (a_count a) (a_representative a) (a_occupied a).
Record ConditionEntry : Set := mkConditionEntry { condition : ConditionRecord; occupied : bool }.
#[export] Instance ConditionEntry_fields : Fields ConditionEntry := λ c,
  mkConditionEntry (condition c) (occupied c).

(** The aggregation of an event without keys is its first entry. *)
Record EventState : Set := mkEventState {
  critical_ingress : FixedRing; critical_history : FixedRing; critical_inflight : nat;
  record : EventRecord; policy_window_start : Z; policy_counter : Z;
  aggregation : list Aggregate; conditions : list ConditionEntry }.
#[export] Instance EventState_fields : Fields EventState := λ s,
  mkEventState (critical_ingress s) (critical_history s) (critical_inflight s) (record s)
    (policy_window_start s) (policy_counter s) (aggregation s) (conditions s).

(** [attached] says that [activate_runtime] has set the two function
    pointers.  The last three members are not state of the code: the records
    given to [process_record], to the observers of processors and to stores. *)
Record Facility : Type := mkFacility {
  thread_ingress : FixedRing; isr_ingress : FixedRing; history : CompactHistory;
  facility_record : FacilityRecord; next_sequence : Z; ready : bool; accepting : bool;
  processor_pending : bool; attached : bool; event_state : nat → EventState;
  processor_state : nat → ProcessorRecord;
  processed_ : list StoredRecord; observed_ : list (nat * StoredRecord);
  persisted_ : list (nat * StoredRecord) }.
#[export] Instance Facility_fields : Fields Facility := λ s,
  mkFacility (thread_ingress s) (isr_ingress s) (history s) (facility_record s) (next_sequence s)
    (ready s) (accepting s) (processor_pending s) (attached s) (event_state s) (processor_state s)
    (processed_ s) (observed_ s) (persisted_ s).

(** An event type: its descriptor, policies, the event it resolves, and the
    key of a payload. *)
Record Event : Set := mkEvent {
  ev_severity : Severity; ev_version : Z; ev_payload_size : nat; ev_capture : Capture;
  ev_retention : Retention; ev_resolves : option nat; ev_key : list Z → Z }.

Record Env : Set := mkEnv {
  now : Z;                          (* kernel::now_ticks *)
  in_isr : bool;                    (* kernel::in_isr *)
  contended : bool;                 (* the lock is taken when [try_acquire] looks *)
  expired : bool;                   (* the deadline has passed *)
  submission : option Status;       (* the executor's answer: [None] accepts *)
  observer : option Status;         (* a processor's observer, [None] succeeds *)
  store : option Status }.          (* a persistent store, [None] succeeds *)

Open Scope prog_scope.

Section Facility.
Context `{ObjectBytes} (max_payload : nat) (events : list Event) (processors : list nat).
Context (event_id : nat → Z).
Abbreviation prog := (Prog Env Facility).

(** ** Steps *)
Definition locked {B} (f : Env → Facility → B * Facility) : Env → Facility → B * Facility := f.
Definition change (f : Facility → Facility) : Env → Facility → unit * Facility := λ _ s, (tt, f s).
Definition look {B} (f : Facility → B) : Env → Facility → B * Facility := λ _ s, (f s, s).
Definition ask {B} (f : Env → B) : Env → Facility → B * Facility := λ e s, (f e, s).
Definition on_event (i : nat) (f : EventState → EventState) (s : Facility) : Facility :=
  s <| event_state ::= λ g, <[i := f (g i)]> g |>.
Definition on_record (i : nat) (f : EventRecord → EventRecord) : Facility → Facility :=
  on_event i (λ st, st <| record ::= f |>).

Definition make_error (i : nat) (op : Operation) (st : Status) (why : Reason) (source : SourceId) : Error :=
  mkError st why op (event_id i) invalid_id source 0 0.

Definition critical_pending (s : Facility) : nat :=
  foldl (λ n i, (n + size_ (critical_ingress (event_state s i)))%nat) O (seq 0 (length events)).
Definition ingress_empty (s : Facility) : bool :=
  (size_ (thread_ingress s) =? 0)%nat && (size_ (isr_ingress s) =? 0)%nat && (critical_pending s =? 0)%nat.
Definition update_facility_pending (s : Facility) : Facility :=
  s <| facility_record ::= λ r,
         r <| f_thread_pending := u32 (Z.of_nat (size_ (thread_ingress s))) |>
           <| f_isr_pending := u32 (Z.of_nat (size_ (isr_ingress s))) |>
           <| f_critical_pending := u32 (Z.of_nat (critical_pending s)) |>
           <| f_processor_pending := processor_pending s |> |>.

(** [processor_pending] keeps one work item in flight. *)
Definition request_processing : prog (result Status unit) :=
  was ← (λ _ s, (processor_pending s, s <| processor_pending := true |>));
  if (was : bool) then Done (Ok tt)
  else
    ready ← look attached;
    if negb ready then
      _ ← change (λ s, s <| processor_pending := false |>); Done (Err SNotReady)
    else
      answer ← ask submission;
      match answer with
      | None => Done (Ok tt)
      | Some st =>
        _ ← change (λ s, s <| processor_pending := false |>);
        _ ← change (λ s, s <| facility_record ::= λ r,
                                r <| f_last_status := st |> <| f_processor_pending := false |> |>);
        Done (Err st)
      end.

(** ** Capture *)
Definition should_materialize (c : Capture) (attempts : Z) (t : Z) (window_start : Z) : bool * Z :=
  match c with
  | EveryOccurrence => (true, window_start)
  | SampleEvery period => (u64 (attempts - 1) mod period =? 0, window_start)
  | RateLimited interval_ticks =>
    if (attempts =? 1) || (interval_ticks <=? t - window_start) then (true, t) else (false, window_start)
  | AggregateCount _ _ => (false, window_start)
  end.

Definition padded (bytes : list Z) : list Z := take max_payload (bytes ++ replicate max_payload 0).

Definition make_header (i : nat) (ev : Event) (source : SourceId) (correlation : Z) (log : LogIntent)
    (isr : bool) (t : Z) (counter : Z) : RecordHeader :=
  let lost := Z.min counter (2 ^ 32 - 1) in
  let flags := if critical (ev_retention ev) then FCritical else FNone in
  let flags := if negb (lost =? 0) then Z.lor flags FLostBefore else flags in
  let flags := if bool_decide (is_Some (ev_resolves ev)) then Z.lor flags FRecovery else flags in
  mkHeader (event_id i) source 0 t (if isr then Isr else Thread) Monotonic (ev_severity ev)
    correlation log 1 lost (u16 (Z.of_nat (ev_payload_size ev))) (ev_version ev) flags.

Definition empty_aggregate : Aggregate := mkAggregate 0 0 0 (blank_record max_payload) false.

(** One occurrence into an aggregate: it opens or extends the window, or
    closes it and yields the record of all its occurrences. *)
Definition accumulate (window_ticks t : Z) (stored : StoredRecord) (a : Aggregate) :
  Aggregate * option StoredRecord :=
  if a_count a =? 0 then
    (a <| a_window_start := t |> <| a_count := 1 |> <| a_representative := stored |>, None)
  else if t - a_window_start a <? window_ticks then
    (a <| a_count ::= inc32 |> <| a_representative := stored |>, None)
  else
    (empty_aggregate,
     Some (stored <| header ::= λ h, h <| h_occurrence_count := inc32 (a_count a) |> |>)).

(** The entry of a key: the one that has it, or else the first free one. *)
Fixpoint find_entry (key : Z) (entries : list Aggregate) (k : nat) (free : option nat) : option nat :=
  match entries with
  | [] => free
  | a :: entries =>
    if a_occupied a && (a_key a =? key) then Some k
    else find_entry key entries (S k)
           (match free with None => if negb (a_occupied a) then Some k else None | _ => free end)
  end.

Inductive Outcome : Type :=
  | Returned (r : result Error Receipt)
  | Queued (r : Receipt)
  | Panicked.

Definition update_record (i : nat) (f : EventRecord → EventRecord) (o : Outcome) (s : Facility) :
  Outcome * Facility := (o, on_record i f s).

(** Into a ring, or rejected and counted. *)
Definition enqueue (i : nat) (ev : Event) (isr : bool) (op : Operation) (source : SourceId) (t : Z)
    (stored : StoredRecord) (s : Facility) : Outcome * Facility :=
  let stored := stored <| header ::= λ h, h <| h_sequence := next_sequence s |> |> in
  let stored := if 1 <? h_occurrence_count (header stored)
                then stored <| header ::= λ h, h <| h_flags ::= λ f, Z.lor f FAggregated |> |> else stored in
  let st := event_state s i in
  let pushed :=
    if critical (ev_retention ev) then
      let held := (size_ (critical_ingress st) + size_ (critical_history st) + critical_inflight st)%nat in
      if (held <? reserved_slots (ev_retention ev))%nat then
        (λ r, on_event i (λ st, st <| critical_ingress := r |>) s) <$> push stored (critical_ingress st)
      else None
    else if isr then (λ r, s <| isr_ingress := r |>) <$> push stored (isr_ingress s)
    else (λ r, s <| thread_ingress := r |>) <$> push stored (thread_ingress s) in
  let why := if critical (ev_retention ev) then RequiredCaptureExhausted else CaptureFull in
  match pushed with
  | None =>
    let s := on_event i (λ st,
      st <| record ::= λ r, r <| e_ingress_rejected ::= inc64 |> <| e_known_lost ::= inc64 |>
                              <| e_overflow_latched := true |> <| e_last_status := SNoBuffer |>
                              <| e_last_failure := why |> |>
         <| policy_counter ::= inc64 |>) s in
    let s := s <| facility_record ::= λ r,
                    r <| f_ingress_rejected ::= inc64 |> <| f_overflow_latched := true |> |> in
    let s := update_facility_pending s in
    (if panic_on_exhaustion (ev_retention ev) then Panicked
     else Returned (Err (make_error i op SNoBuffer why source)), s)
  | Some s =>
    let s := s <| next_sequence ::= inc64 |> <| facility_record ::= λ r, r <| f_accepted ::= inc64 |> |> in
    let s := on_event i (λ st,
      st <| record ::= λ r, r <| e_captured ::= inc64 |> <| e_last_sequence := h_sequence (header stored) |>
                              <| e_last_timestamp := t |> <| e_last_status := SOk |>
                              <| e_last_failure := NoReason |> |>
         <| policy_counter := 0 |>) s in
    (Queued (mkReceipt Captured (h_sequence (header stored)) t (h_occurrence_count (header stored)) true),
     update_facility_pending s)
  end.

(** The section of [capture_event] under the lock. *)
Definition capture_locked (i : nat) (ev : Event) (isr : bool) (op : Operation) (bytes : list Z)
    (source : SourceId) (correlation : Z) (log : LogIntent) (e : Env) (s : Facility) : Outcome * Facility :=
  let t := now e in
  let s := on_record i (λ r, r <| e_attempts ::= inc64 |>) s in
  let st := event_state s i in
  let declined d := Returned (Ok (mkReceipt d 0 t 1 false)) in
  let '(wanted, window_start) :=
    should_materialize (ev_capture ev) (e_attempts (record st)) t (policy_window_start st) in
  let stored := mkStored (make_header i ev source correlation log isr t (policy_counter st)) (padded bytes) in
  match ev_capture ev with
  | EveryOccurrence => enqueue i ev isr op source t stored s
  | SampleEvery _ =>
    if wanted then enqueue i ev isr op source t stored s
    else update_record i (λ r, r <| e_sampled ::= inc64 |>) (declined SampledOut) s
  | RateLimited _ =>
    let s := on_event i (λ st, st <| policy_window_start := window_start |>) s in
    if wanted then enqueue i ev isr op source t stored s
    else update_record i (λ r, r <| e_rate_limited ::= inc64 |>) (declined RateLimitedOut) s
  | AggregateCount window_ticks keyed =>
    let key := ev_key ev bytes in
    match (if keyed then find_entry key (aggregation st) 0 None else Some O) with
    | None =>
      (Returned (Err (make_error i op SNoSpace AggregationKeysFull source)),
       on_event i (λ st,
         st <| record ::= λ r, r <| e_aggregation_rejected ::= inc64 |> <| e_known_lost ::= inc64 |>
                                 <| e_last_status := SNoSpace |> <| e_last_failure := AggregationKeysFull |> |>
            <| policy_counter ::= inc64 |>) s)
    | Some k =>
      let a := default empty_aggregate (aggregation st !! k) in
      let a := if keyed && negb (a_occupied a) then a <| a_key := key |> <| a_occupied := true |> else a in
      let '(a, full) := accumulate window_ticks t stored a in
      let s := on_event i (λ st, st <| aggregation ::= <[k := a]> |>) s in
      match full with
      | None =>
        update_record i (λ r, r <| e_aggregated ::= inc64 |>)
          (Returned (Ok (mkReceipt Aggregated 0 t (a_count a) false))) s
      | Some stored => enqueue i ev isr op source t stored s
      end
    end
  end.

Definition capture_event (i : nat) (ev : Event) (op : Operation) (bytes : list Z) (source : SourceId)
    (correlation : Z) (log : LogIntent) : prog (result Error Receipt) :=
  let isr := bool_decide (op = ObserveIsr) in
  let refuse st why := Done (Err (make_error i op st why source)) in
  inside ← ask in_isr;
  if negb (Bool.eqb isr inside) then refuse SInvalid InvalidContext
  else
    up ← look ready;
    if negb up then refuse SNotReady NotReady
    else
      taking ← look accepting;
      if negb taking then refuse SNotReady CaptureClosed
      else
        outcome ← locked (λ e s,
          if negb (bool_decide (op = Observe)) && contended e then (None, s)
          else let '(o, s) := capture_locked i ev isr op bytes source correlation log e s in (Some o, s));
        match outcome with
        | None => refuse SWouldBlock WouldBlock
        | Some (Returned r) => Done r
        | Some (Queued receipt) => _ ⇇ request_processing; Done (Ok receipt)
        | Some Panicked => Stalled
        end.

(** ** The processor *)
Inductive RingKind : Set := NoRing | ThreadRing | IsrRing | CriticalRing.

(** [consider]: the older of the candidate and the choice so far. *)
Definition consider (candidate : option StoredRecord) (kind : RingKind) (event : Z)
    (choice : RingKind * Z * Z) : RingKind * Z * Z :=
  let '(_, sequence, _) := choice in
  match candidate with
  | Some r => if h_sequence (header r) <? sequence then (kind, h_sequence (header r), event) else choice
  | None => choice
  end.

Fixpoint pop_critical (event : Z) (indices : list nat) (s : Facility) : option (StoredRecord * Facility) :=
  match indices with
  | [] => None
  | i :: indices =>
    if e_event (record (event_state s i)) =? event then
      match pop (critical_ingress (event_state s i)) with
      | Some (r, ring) =>
        Some (r, on_event i (λ st, st <| critical_ingress := ring |> <| critical_inflight ::= S |>) s)
      | None => pop_critical event indices s
      end
    else pop_critical event indices s
  end.

Definition pop_next (s : Facility) : option StoredRecord * Facility :=
  let choice := (NoRing, 2 ^ 64 - 1, invalid_id) in
  let choice := consider (front (thread_ingress s)) ThreadRing invalid_id choice in
  let choice := consider (front (isr_ingress s)) IsrRing invalid_id choice in
  let choice := foldl (λ c i, consider (front (critical_ingress (event_state s i))) CriticalRing
                               (e_event (record (event_state s i))) c) choice (seq 0 (length events)) in
  let popped :=
    match choice with
    | (ThreadRing, _, _) => (λ p, (p.1, s <| thread_ingress := p.2 |>)) <$> pop (thread_ingress s)
    | (IsrRing, _, _) => (λ p, (p.1, s <| isr_ingress := p.2 |>)) <$> pop (isr_ingress s)
    | (CriticalRing, _, event) => pop_critical event (seq 0 (length events)) s
    | (NoRing, _, _) => None
    end in
  match popped with
  | Some (r, s) => (Some r, update_facility_pending s)
  | None => (None, update_facility_pending s)
  end.

(** ** Retention *)
Definition retain_buffered (i : nat) (stored : StoredRecord) (s : Facility) :
  option (result Status unit) * Facility :=
  match append (history s) stored with
  | None => (None, s)
  | Some (appended, h) =>
    let s := s <| history := h |> in
    if ap_stored appended then
      let s := on_record i (λ r,
        r <| e_retained ::= inc64 |> <| e_history_evicted ::= λ n, u64 (n + ap_evicted appended) |>) s in
      (Some (Ok tt), s <| facility_record ::= λ r,
        r <| f_history_evicted ::= λ n, u64 (n + ap_evicted appended) |>
          <| f_history_used := Z.of_nat (used_ h) |> |>)
    else (Some (Err SNoBuffer),
          on_record i (λ r, r <| e_known_lost ::= inc64 |> <| e_overflow_latched := true |>) s)
  end.

Definition retain_critical (i : nat) (stored : StoredRecord) (s : Facility) : result Status unit * Facility :=
  let kept := push stored (critical_history (event_state s i)) in
  let s := on_event i (λ st,
    st <| critical_history := default (critical_history st) kept |> <| critical_inflight ::= pred |>) s in
  match kept with
  | None => (Err SNoBuffer,
             on_record i (λ r, r <| e_known_lost ::= inc64 |> <| e_overflow_latched := true |>) s)
  | Some _ => (Ok tt, on_record i (λ r, r <| e_retained ::= inc64 |>) s)
  end.

Definition retain_record (i : nat) (ev : Event) (stored : StoredRecord) : prog (result Status unit) :=
  match ev_retention ev with
  | Transient => Done (Ok tt)
  | Buffered =>
    kept ← locked (λ _ s, retain_buffered i stored s);
    match kept with Some r => Done r | None => Stalled end
  | Critical _ _ => kept ← locked (λ _ s, retain_critical i stored s); Done kept
  | Persistent =>
    answer ← (λ e s, (store e, s <| persisted_ ::= λ l, l ++ [(i, stored)] |>));
    match answer with
    | Some st => Done (Err st)
    | None => _ ← change (on_record i (λ r, r <| e_retained ::= inc64 |>)); Done (Ok tt)
    end
  end.

(** ** Processors and conditions *)
Definition offer (k : nat) (s : Facility) : Facility :=
  s <| processor_state ::= λ g, <[k := (g k) <| p_offered ::= inc64 |>]> g |>.
Definition observe_record (k : nat) (stored : StoredRecord) : Env → Facility → option Status * Facility :=
  λ e s, (observer e, s <| observed_ ::= λ l, l ++ [(k, stored)] |>).
Definition observed (i k : nat) (answer : option Status) (s : Facility) : Facility :=
  match answer with
  | None => s <| processor_state ::= λ g,
                   <[k := (g k) <| p_accepted ::= inc64 |> <| p_last_status := SOk |>]> g |>
  | Some st =>
    let s := s <| processor_state ::= λ g,
                    <[k := (g k) <| p_failed ::= inc64 |> <| p_last_status := st |>]> g |> in
    let s := s <| facility_record ::= λ r, r <| f_processor_failures ::= inc64 |> |> in
    on_record i (λ r, r <| e_processor_failures ::= inc64 |>) s
  end.

Fixpoint run_processors (i : nat) (stored : StoredRecord) (ks : list nat) (first_error : Status) : prog Status :=
  match ks with
  | [] => Done first_error
  | k :: ks =>
    _ ← change (offer k);
    answer ← observe_record k stored;
    _ ← change (observed i k answer);
    run_processors i stored ks
      (match answer with
       | Some st => if bool_decide (first_error = SOk) then st else first_error
       | None => first_error
       end)
  end.

Definition processors_of (i : nat) : list nat :=
  filter (λ k, processors !! k = Some i) (seq 0 (length processors)).

Fixpoint find_condition (source : SourceId) (entries : list ConditionEntry) (k : nat) (free : option nat) :
  option nat :=
  match entries with
  | [] => free
  | c :: entries =>
    if occupied c && bool_decide (c_source (condition c) = source) then Some k
    else find_condition source entries (S k)
           (match free with None => if negb (occupied c) then Some k else None | _ => free end)
  end.

Definition raise_condition (i : nat) (h : RecordHeader) (s : Facility) : Facility :=
  on_event i (λ st,
    match find_condition (h_source h) (conditions st) 0 None with
    | None => st
    | Some k =>
      match conditions st !! k with
      | None => st
      | Some c =>
        let c := c <| occupied := true |> <| condition ::= λ c,
                   c <| c_event := h_event h |> <| c_source := h_source h |> <| c_consecutive ::= inc32 |>
                     <| c_last_sequence := h_sequence h |> <| c_last_timestamp := h_timestamp h |>
                     <| c_active := true |> |> in
        st <| conditions ::= <[k := c]> |>
           <| record ::= λ r, r <| e_consecutive := c_consecutive (condition c) |>
                                <| e_condition_active := true |> |>
      end
    end) s.

Definition resolve_conditions (source : SourceId) (st : EventState) : EventState :=
  let entries := map (λ c,
    if occupied c && bool_decide (c_source (condition c) = source)
    then c <| condition ::= λ c, c <| c_active := false |> <| c_consecutive := 0 |> |> else c) (conditions st) in
  let any_active := existsb (λ c, occupied c && c_active (condition c)) entries in
  st <| conditions := entries |>
     <| record ::= λ r,
          let r := r <| e_condition_active := any_active |> in
          if any_active then r else r <| e_consecutive := 0 |> |>.

(** The last section of [process_record_for]. *)
Definition conclude (i : nat) (ev : Event) (stored : StoredRecord) (first_error : Status) (s : Facility) :
  Facility :=
  let s := raise_condition i (header stored) s in
  let s := match ev_resolves ev with
           | Some j => on_event j (resolve_conditions (h_source (header stored))) s
           | None => s
           end in
  s <| facility_record ::= λ r, r <| f_processed ::= inc64 |> <| f_last_status := first_error |> |>.

Definition process_record_for (i : nat) (ev : Event) (stored : StoredRecord) : prog (result Status unit) :=
  retained ⇇ retain_record i ev stored;
  first_error ⇇ run_processors i stored (processors_of i)
                  (match retained with Ok _ => SOk | Err st => st end);
  _ ← change (conclude i ev stored first_error);
  Done (if bool_decide (first_error = SOk) then Ok tt else Err first_error).

Fixpoint process_events (indexed : list (nat * Event)) (stored : StoredRecord) (r : result Status unit) :
  prog (result Status unit) :=
  match indexed with
  | [] => Done r
  | (i, ev) :: indexed =>
    if h_event (header stored) =? event_id i then
      r ⇇ process_record_for i ev stored; process_events indexed stored r
    else process_events indexed stored r
  end.
Definition process_one (stored : StoredRecord) : prog (result Status unit) :=
  process_events (imap pair events) stored (Err SNotFound).

(** The call through the pointer [process_record]. *)
Definition process_record (stored : StoredRecord) : prog (result Status unit) :=
  up ← look attached;
  if negb up then Done (Err SNotReady)
  else _ ← change (λ s, s <| processed_ ::= λ l, l ++ [stored] |>); process_one stored.

Definition first_of (first r : result Status unit) : result Status unit :=
  match first with Ok _ => r | Err _ => first end.

Inductive Next : Type := NoMore | TimedOut | Popped (r : StoredRecord).

Fixpoint drain_loop (fuel : nat) (deadline : bool) (first_error : result Status unit) :
  prog (result Status unit) :=
  match fuel with
  | O => Stalled
  | S fuel =>
    next ← locked (λ e s,
      if ingress_empty s then (NoMore, s)
      else if deadline && expired e then (TimedOut, s)
      else match pop_next s with
           | (Some r, s) => (Popped r, s)
           | (None, s) => (NoMore, s)
           end);
    match next with
    | NoMore => Done first_error
    | TimedOut => Done (Err STimeout)
    | Popped r => answer ⇇ process_record r; drain_loop fuel deadline (first_of first_error answer)
    end
  end.
Definition drain_processor (fuel : nat) (deadline : bool) : prog (result Status unit) :=
  _ ← change (λ s, s <| processor_pending := false |>);
  drain_loop fuel deadline (Ok tt).

(** ** Aggregates at stop *)
Fixpoint find_aggregate (keyed : bool) (entries : list Aggregate) (k : nat) : option (nat * Aggregate) :=
  match entries with
  | [] => None
  | a :: entries =>
    if (negb keyed || a_occupied a) && negb (a_count a =? 0) then Some (k, a)
    else find_aggregate keyed entries (S k)
  end.

Definition take_pending_aggregate (i : nat) (ev : Event) (s : Facility) : option StoredRecord * Facility :=
  match ev_capture ev with
  | AggregateCount _ keyed =>
    let entries := if keyed then aggregation (event_state s i) else take 1 (aggregation (event_state s i)) in
    match find_aggregate keyed entries 0 with
    | None => (None, s)
    | Some (k, a) =>
      let stored := a_representative a <| header ::= λ h,
        h <| h_sequence := next_sequence s |> <| h_occurrence_count := a_count a |>
          <| h_flags ::= λ f, Z.lor f FAggregated |> |> in
      let s := s <| next_sequence ::= inc64 |> in
      let s := on_event i (λ st, st <| aggregation ::= <[k := empty_aggregate]> |>) s in
      let s := s <| facility_record ::= λ r, r <| f_accepted ::= inc64 |> |> in
      (Some stored, on_event i (λ st,
        st <| record ::= λ r,
                r <| e_captured ::= inc64 |> <| e_last_sequence := h_sequence (header stored) |>
                  <| e_last_timestamp := h_timestamp (header stored) |> <| e_last_status := SOk |>
                  <| e_last_failure := NoReason |> |>
           <| policy_counter := 0 |>) s)
    end
  | _ => (None, s)
  end.

Fixpoint flush_event (fuel : nat) (i : nat) (ev : Event) (deadline : bool) (first_error : result Status unit) :
  prog (result Status unit) :=
  match fuel with
  | O => Stalled
  | S fuel =>
    over ← ask expired;
    if deadline && over then Done (first_of first_error (Err STimeout))
    else
      taken ← locked (λ _ s, take_pending_aggregate i ev s);
      match taken with
      | None => Done first_error
      | Some stored =>
        answer ⇇ process_record stored;
        flush_event fuel i ev deadline (first_of first_error answer)
      end
  end.
Fixpoint flush_events (fuel : nat) (indexed : list (nat * Event)) (deadline : bool)
    (first_error : result Status unit) : prog (result Status unit) :=
  match indexed with
  | [] => Done first_error
  | (i, ev) :: indexed =>
    first_error ⇇ flush_event fuel i ev deadline first_error;
    flush_events fuel indexed deadline first_error
  end.
Definition flush_aggregates (fuel : nat) (deadline : bool) : prog (result Status unit) :=
  flush_events fuel (imap pair events) deadline (Ok tt).

Definition cancel_aggregates (s : Facility) : Facility :=
  foldl (λ s x,
    match ev_capture x.2 with
    | AggregateCount _ _ =>
      on_event x.1 (λ st,
        let discarded := foldl (λ n a, u64 (n + a_count a)) 0 (aggregation st) in
        st <| aggregation ::= map (λ _, empty_aggregate) |>
           <| record ::= λ r, r <| e_known_lost ::= λ n, u64 (n + discarded) |> |>) s
    | _ => s
    end) s (imap pair events).

(** ** Queries *)
Definition event_record (i : nat) : prog EventRecord := r ← look (λ s, record (event_state s i)); Done r.
Definition condition_record (i : nat) (source : SourceId) : prog (result Error ConditionRecord) :=
  r ← look (λ s,
    match filter (λ c, occupied c && bool_decide (c_source (condition c) = source))
            (conditions (event_state s i)) with
    | c :: _ => Ok (condition c)
    | [] => Err (make_error i Query SNotFound NotRegistered source)
    end);
  Done r.
Definition processor_record (k : nat) : prog ProcessorRecord := r ← look (λ s, processor_state s k); Done r.
Definition read_facility_record : prog FacilityRecord :=
  r ← look (λ s, facility_record s <| f_next_sequence := next_sequence s |> <| f_ready := ready s |>
                   <| f_accepting := accepting s |> <| f_processor_pending := processor_pending s |>);
  Done r.

(** The critical histories, in event order. *)
Definition critical_records (s : Facility) : list StoredRecord :=
  concat (map (λ i, ring_list (critical_history (event_state s i))) (seq 0 (length events))).

(** The record a page takes next: from the history, or an older one of the
    critical histories. *)
Definition select_next (s : Facility) (search : Z) (filter : option Z) : option (option StoredRecord) :=
  (λ first, foldl (λ selected r,
     if (search <=? h_sequence (header r)) && selects filter r
        && match selected with
           | None => true
           | Some q => h_sequence (header r) <? h_sequence (header q)
           end
     then Some r else selected) first (critical_records s))
  <$> next max_payload (history s) search filter.

Fixpoint read_pages (fuel : nat) (s : Facility) (search : Z) (filter : option Z) (page : HistoryPage)
    (output : list StoredRecord) : option (HistoryPage * list StoredRecord) :=
  match fuel with
  | O => None
  | S fuel =>
    match select_next s search filter with
    | None => None
    | Some None => Some (page, output)
    | Some (Some r) =>
      let page := page <| available ::= S |> in
      let search := inc64 (h_sequence (header r)) in
      if (written page <? length output)%nat then
        match output !! written page ≫= (λ old, copy_record old r) with
        | None => None
        | Some new =>
          read_pages fuel s search filter (page <| written ::= S |> <| next_cursor := search |>)
            (<[written page := new]> output)
        end
      else read_pages fuel s search filter page output
    end
  end.

Definition oldest_record (s : Facility) (filter : option Z) : option Z :=
  (λ first, foldl (λ oldest r,
     if selects filter r && (h_sequence (header r) <? oldest) then h_sequence (header r) else oldest)
     (match first with Some r => h_sequence (header r) | None => 2 ^ 64 - 1 end) (critical_records s))
  <$> next max_payload (history s) 1 filter.

Definition read_history (s : Facility) (cursor : Z) (output : list StoredRecord) (filter : option Z) :
  option (HistoryPage * list StoredRecord) :=
  match oldest_record s filter,
        read_pages (S (used_ (history s) + length (critical_records s))) s cursor filter
          (empty_page cursor) output with
  | Some oldest, Some (page, output) =>
    let page :=
      if negb (oldest =? 2 ^ 64 - 1) && (cursor <? oldest) && negb (evicted_ (history s) =? 0) then
        let page := page <| stale := true |> <| evicted_before := u64 (oldest - cursor) |> in
        if (written page =? 0)%nat then page <| next_cursor := oldest |> else page
      else page in
    Some (page, output)
  | _, _ => None
  end.

Definition latest_history (s : Facility) (filter : option Z) : option (result Error StoredRecord) :=
  match latest max_payload (history s) filter with
  | None => None
  | Some ordinary =>
    let selected := foldl (λ selected r,
      match selected with
      | None => None
      | Some current =>
        if selects filter r
           && match current with Some q => h_sequence (header q) <? h_sequence (header r) | None => true end
        then Some <$> copy_record (blank_record max_payload) r else Some current
      end) (Some (match ordinary with Ok r => Some r | Err _ => None end)) (critical_records s) in
    match selected with
    | None => None
    | Some (Some r) => Some (Ok r)
    | Some None => Some (Err (mkError SNotFound HistoryEmpty Query invalid_id invalid_id no_source 0 0))
    end
  end.

(** ** The facility's hooks *)
Definition ring_new (r : FixedRing) : FixedRing :=
  mkRing (map (λ _, blank_record max_payload) (records_ r)) 0 0 0.
Definition fresh_event (i : nat) (st : EventState) : EventState :=
  mkEventState (ring_new (critical_ingress st)) (ring_new (critical_history st)) 0
    (default_event_record <| e_event := u16 (Z.of_nat i) |> <| e_last_status := SOk |>) 0 0
    (map (λ _, empty_aggregate) (aggregation st))
    (map (λ _, mkConditionEntry default_condition false) (conditions st)).
Definition fresh_processor (k : nat) : ProcessorRecord :=
  mkProcessorRecord (u16 (Z.of_nat k)) (u16 (Z.of_nat (default O (processors !! k)))) SOk 0 0 0 0.

Definition init_locked (history_capacity : Z) (s : Facility) : Facility :=
  s <| thread_ingress ::= ring_clear |> <| isr_ingress ::= ring_clear |> <| history ::= history_clear |>
    <| next_sequence := 1 |>
    <| facility_record := default_facility_record <| f_last_status := SOk |> <| f_next_sequence := 1 |>
         <| f_history_capacity := history_capacity |> <| f_ready := true |> <| f_accepting := true |> |>
    <| event_state ::= λ g, foldl (λ g i, <[i := fresh_event i (g i)]> g) g (seq 0 (length events)) |>
    <| processor_state ::= λ g, foldl (λ g k, <[k := fresh_processor k]> g) g (seq 0 (length processors)) |>.

(** The stores are initialised until one fails. *)
Fixpoint initialize_stores (n : nat) : prog (result Status unit) :=
  match n with
  | O => Done (Ok tt)
  | S n =>
    answer ← ask store;
    match answer with Some st => Done (Err st) | None => initialize_stores n end
  end.

Definition init (history_capacity : Z) (stores : nat) : prog (result Status unit) :=
  _ ← change (init_locked history_capacity);
  _ ← change (λ s, s <| ready := true |>);
  _ ← change (λ s, s <| accepting := true |>);
  _ ← change (λ s, s <| processor_pending := false |>);
  initialize_stores stores.

Definition activate_runtime : prog unit := _ ← change (λ s, s <| attached := true |>); Done tt.

Definition start : prog (result Status unit) :=
  _ ← change (λ s, s <| accepting := true |>);
  pending ← locked (λ _ s,
    (negb (ingress_empty s), s <| facility_record ::= λ r, r <| f_accepting := true |> <| f_last_status := SOk |> |>));
  if (pending : bool) then
    _ ← change (λ s, s <| processor_pending := false |>); request_processing
  else Done (Ok tt).

Definition cancel_locked (s : Facility) : Facility :=
  let s := s <| thread_ingress ::= ring_clear |> <| isr_ingress ::= ring_clear |> in
  let s := foldl (λ s i, on_event i (λ st, st <| critical_ingress ::= ring_clear |>) s) s
             (seq 0 (length events)) in
  update_facility_pending (cancel_aggregates s).

Definition stop (fuel : nat) (cancel_pending : bool) : prog (result Status unit) :=
  _ ← change (λ s, s <| accepting := false |>);
  _ ← change (λ s, s <| facility_record ::= λ r, r <| f_accepting := false |> |>);
  if cancel_pending then _ ← change cancel_locked; Done (Ok tt)
  else
    drained ⇇ drain_processor fuel true;
    aggregates ⇇ flush_aggregates fuel true;
    Done (first_of drained aggregates).

Definition deinit : prog (result Status unit) :=
  _ ← change (λ s, s <| ready := false |>);
  _ ← change (λ s, s <| attached := false |>);
  _ ← change (λ s, s <| facility_record ::= λ r, r <| f_ready := false |> |>);
  Done (Ok tt).
End Facility.
End TypedEvents.
