(* ===== verification/EventsHistory.v ===== *)
(** * EventsHistory: the compact history is a list of records

    The bytes of the history are the records it keeps, each behind its size;
    appending drops the oldest records that stand in the way, and the queries
    are those of the list. *)
From stdpp Require Import prelude sorting.
From S2P Require Import Prelude Status Events.
Import TypedEvents.

Open Scope nat_scope.
Open Scope solar_scope.

Lemma copy_to_over (output source : list Z) offset :
  offset + length source ≤ length output →
  copy_to output offset source
  = Some (take offset output ++ source ++ drop (offset + length source) output).
Proof.
  intros Hlen.
  pose proof (copy_to_app (take offset output) (take (length source) (drop offset output)) source
    (drop (offset + length source) output)) as Hcopy.
  rewrite <-drop_drop, take_drop, take_drop, drop_drop in Hcopy.
  rewrite !length_take, length_drop, !Nat.min_l in Hcopy by lia. by apply Hcopy.
Qed.

Lemma copy_from_mid (pre source post : list Z) n k :
  n = length source → k = length pre → copy_from n (pre ++ source ++ post) k = Some source.
Proof. intros -> ->. apply copy_from_app. Qed.

Section History.
Context `{ObjectLaws} (max_payload : nat).

(** A record as [make_stored_record] builds it. *)
Record storable (r : StoredRecord) : Prop := {
  st_size : (0 ≤ h_payload_size (header r))%Z;
  st_fits : Z.to_nat (h_payload_size (header r)) ≤ max_payload;
  st_entry : (Z.of_nat header_size + h_payload_size (header r) < 2 ^ 16)%Z;
  st_length : length (payload r) = max_payload;
  st_rest : drop (Z.to_nat (h_payload_size (header r))) (payload r)
            = replicate (max_payload - Z.to_nat (h_payload_size (header r))) 0%Z }.

Definition payload_length (r : StoredRecord) : nat := Z.to_nat (h_payload_size (header r)).
Definition shown (r : StoredRecord) : list Z := take (payload_length r) (payload r).
Definition entry_bytes (r : StoredRecord) : list Z :=
  size_bytes (history_entry_size r) ++ header_bytes (header r) ++ shown r.
Definition entry_length (r : StoredRecord) : nat := prefix_size + header_size + payload_length r.
Definition space (log : list StoredRecord) : nat := sum_list_with entry_length log.

(** The history [h] keeps the records [log], the oldest first. *)
Record keeps (h : CompactHistory) (log : list StoredRecord) : Prop := {
  kp_bytes : ∃ rest, bytes_ h = concat (map entry_bytes log) ++ rest;
  kp_used : used_ h = space log;
  kp_storable : Forall storable log }.

Lemma shown_length r : storable r → length (shown r) = payload_length r.
Proof. intros []. unfold shown, payload_length. rewrite length_take. lia. Qed.
Lemma entry_size_value r : storable r →
  Z.to_nat (history_entry_size r) = header_size + payload_length r.
Proof.
  intros []. unfold history_entry_size, payload_length. rewrite wrap_small; [lia|]. word_lia.
Qed.
Lemma entry_bytes_length r : storable r → length (entry_bytes r) = entry_length r.
Proof.
  intros Hr. unfold entry_bytes, entry_length, prefix_size.
  rewrite !length_app, size_bytes_length, header_bytes_length, shown_length by done. lia.
Qed.
Lemma concat_length log : Forall storable log → length (concat (map entry_bytes log)) = space log.
Proof.
  induction 1 as [|r log Hr Hlog IH]; [done|]. simpl. unfold space in *. simpl.
  by rewrite length_app, IH, entry_bytes_length.
Qed.
Lemma space_app log log' : space (log ++ log') = space log + space log'.
Proof. unfold space. induction log as [|r log IH]; simpl; [done|]. lia. Qed.
Lemma space_snoc log r : space (log ++ [r]) = space log + entry_length r.
Proof. rewrite space_app. by rewrite (Nat.add_0_r (entry_length r) : space [r] = _). Qed.

(** ** Reading one entry *)
Lemma read_size_at pre r post :
  storable r →
  read_history_size (pre ++ entry_bytes r ++ post) (length pre) = Some (history_entry_size r).
Proof.
  intros Hr. unfold read_history_size, entry_bytes. rewrite <-app_assoc.
  rewrite copy_from_mid by (rewrite ?size_bytes_length; done). simpl.
  rewrite size_of_bytes; [done|]. unfold history_entry_size. by apply wrap_range.
Qed.

Lemma read_record_at pre r post :
  storable r →
  read_history_record max_payload (pre ++ entry_bytes r ++ post) (length pre) (history_entry_size r)
  = Some r.
Proof.
  intros Hr. unfold read_history_record, entry_bytes.
  rewrite (entry_size_value r Hr).
  replace (pre ++ (size_bytes (history_entry_size r) ++ header_bytes (header r) ++ shown r) ++ post)
    with ((pre ++ size_bytes (history_entry_size r)) ++ header_bytes (header r) ++ shown r ++ post)
    by by rewrite <-!app_assoc.
  rewrite (copy_from_mid (pre ++ size_bytes (history_entry_size r)) (header_bytes (header r))
    (shown r ++ post) header_size (length pre + prefix_size))
    by (rewrite ?length_app, ?size_bytes_length, ?header_bytes_length; done). simpl.
  replace ((pre ++ size_bytes (history_entry_size r)) ++ header_bytes (header r) ++ shown r ++ post)
    with ((pre ++ size_bytes (history_entry_size r) ++ header_bytes (header r)) ++ shown r ++ post)
    by by rewrite <-!app_assoc.
  rewrite (copy_from_mid (pre ++ size_bytes (history_entry_size r) ++ header_bytes (header r)) (shown r) post
    (header_size + payload_length r - header_size))
    by (rewrite ?shown_length, ?length_app, ?size_bytes_length, ?header_bytes_length
    by done; unfold prefix_size; lia). simpl.
  destruct Hr as [Hs Hf He Hl Hrest].
  rewrite copy_to_over by (rewrite length_replicate; unfold shown; rewrite length_take; lia). simpl.
  rewrite header_of_bytes. f_equal. destruct r as [h p]. simpl in *. f_equal.
  unfold shown, payload_length. simpl. rewrite length_take, drop_replicate.
  rewrite Nat.min_l by lia. rewrite <-Hrest. apply take_drop.
Qed.

(** ** The loop over the entries *)
Fixpoint walk {A} (f : A → StoredRecord → A * bool) (a : A) (log : list StoredRecord) : A :=
  match log with
  | [] => a
  | r :: log => let '(a, more) := f a r in if more then walk f a log else a
  end.

Lemma scan_walk {A} (f : A → StoredRecord → A * bool) fuel h before log a :
  keeps h (before ++ log) → space log < fuel →
  scan max_payload fuel h (space before) f a = Some (walk f a log).
Proof.
  intros [[rest Hb] Hu Hst]. revert before log a Hb Hu Hst.
  induction fuel as [|fuel IH]; intros before log a Hb Hu Hst Hfuel; [lia|].
  cbn [scan]. rewrite Hu, space_app. destruct log as [|r log].
  - unfold prefix_size. simpl. by rewrite (proj2 (Nat.ltb_lt _ _)) by (unfold space; simpl; lia).
  - apply Forall_app in Hst as Hst2. destruct Hst2 as [Hbefore [Hr Hlog]%Forall_cons].
    assert (Hsp : space (r :: log) = entry_length r + space log) by done.
    rewrite Hsp, (proj2 (Nat.ltb_ge _ _)) by (unfold entry_length; lia).
    assert (Hbytes : bytes_ h = concat (map entry_bytes before) ++ entry_bytes r
      ++ concat (map entry_bytes log) ++ rest).
    { by rewrite Hb, map_app, concat_app; simpl; rewrite <-!app_assoc. }
    rewrite Hbytes, <-(concat_length before Hbefore), read_size_at by done. simpl.
    rewrite (entry_size_value r Hr), (proj2 (Nat.ltb_ge (_ + _) header_size)) by lia. simpl.
    rewrite (concat_length before Hbefore), (proj2 (Nat.ltb_ge _ _))
      by (unfold entry_length; lia).
    rewrite <-(concat_length before Hbefore) at 1. rewrite read_record_at by done. simpl.
    destruct (f a r) as [a' more]. destruct more; [|done].
    replace (space before + _) with (space (before ++ [r])).
    2: { rewrite space_app. unfold space at 2. simpl. unfold entry_length, prefix_size. lia. }
    assert (Hlen : space log < fuel).
    { rewrite Hsp in Hfuel. unfold entry_length, prefix_size in Hfuel. lia. }
    apply IH; rewrite <-?app_assoc; simpl; done.
Qed.

Lemma scan_all {A} (f : A → StoredRecord → A * bool) h log a :
  keeps h log → scan max_payload (S (used_ h)) h 0 f a = Some (walk f a log).
Proof.
  intros Hk. apply (scan_walk f _ h [] log a Hk). rewrite (kp_used _ _ Hk). lia.
Qed.

(** ** Appending *)
Lemma drop_front_spec log r rest :
  storable r → Forall storable log →
  ∃ rest', drop_front (entry_length r) (space (r :: log)) (concat (map entry_bytes (r :: log)) ++ rest)
    = Some (concat (map entry_bytes log) ++ rest')
    ∧ length (concat (map entry_bytes log) ++ rest') = length (concat (map entry_bytes (r :: log)) ++ rest).
Proof.
  intros Hr Hlog. unfold drop_front. cbn [map concat]. rewrite <-app_assoc.
  replace (space (r :: log) - entry_length r) with (space log) by (unfold space; simpl; lia).
  rewrite (copy_from_mid (entry_bytes r) (concat (map entry_bytes log)) rest)
    by (rewrite ?concat_length, ?entry_bytes_length by done; done). cbn [mbind option_bind].
  rewrite copy_to_over by (rewrite !length_app; lia). simpl.
  eexists. split; [done|]. rewrite !length_app, length_drop, !length_app. lia.
Qed.

Lemma evict_spec fuel total h log count :
  keeps h log → total ≤ length (bytes_ h) → length log < fuel →
  ∃ k h', evict fuel total h count = Some (h', Nat.iter k inc64 count)
    ∧ k ≤ length log ∧ keeps h' (drop k log) ∧ length (bytes_ h') = length (bytes_ h)
    ∧ space (drop k log) + total ≤ length (bytes_ h)
    ∧ evicted_ h' = Nat.iter k inc64 (evicted_ h)
    ∧ ∀ j, j < k → length (bytes_ h) < space (drop j log) + total.
Proof.
  intros Hk Htotal. revert fuel h count Hk Htotal.
  induction log as [|r log IH]; intros [|fuel] h count Hk Htotal Hfuel; simpl in Hfuel; try lia;
    pose proof Hk as [[rest Hb] Hu Hst]; cbn [evict]; destruct (Nat.leb_spec (used_ h + total) (length (bytes_ h))).
  - exists 0, h. rewrite Hu in *. repeat split; try done; [by exists rest|lia].
  - rewrite Hu in *. unfold space in *. simpl in *. lia.
  - exists 0, h. rewrite Hu in *. repeat split; try done; [lia|by exists rest|lia].
  - apply Forall_cons in Hst as [Hr Hlog].
    assert (Hsp : space (r :: log) = entry_length r + space log) by done.
    rewrite (proj2 (Nat.ltb_ge _ _)) by (rewrite Hu, Hsp; unfold entry_length; lia).
    assert (Hsize : read_history_size (bytes_ h) 0 = Some (history_entry_size r)).
    { rewrite Hb. simpl. rewrite <-app_assoc. by apply (read_size_at []). }
    rewrite Hsize. cbn [mbind option_bind]. rewrite (entry_size_value r Hr).
    replace (prefix_size + (header_size + payload_length r)) with (entry_length r)
      by (unfold entry_length; lia).
    rewrite (proj2 (Nat.ltb_ge _ _)) by (rewrite Hu, Hsp; lia).
    destruct (drop_front_spec log r rest Hr Hlog) as (rest' & Hdf & Hlen).
    rewrite Hu, Hb, Hdf. cbn [mbind option_bind]. rewrite <-Hb.
    set (h1 := (h <| bytes_ := _ |> <| used_ := _ |>) <| evicted_ ::= inc64 |>).
    assert (Hk1 : keeps h1 log).
    { split; [by exists rest'|unfold h1; simpl; lia|done]. }
    assert (Hlen1 : length (bytes_ h1) = length (bytes_ h)) by (rewrite Hb; exact Hlen).
    destruct (IH fuel h1 (inc64 count) Hk1) as (k & h' & He & Hkl & Hk' & Hl' & Hfit & Hev & Hmin);
      [lia|lia|].
    exists (S k), h'. rewrite He, !Nat.iter_succ_r. simpl. rewrite Hlen1 in *.
    split; [done|]. split; [lia|]. split; [done|]. split; [done|]. split; [done|]. split; [done|].
    intros [|j] Hj; [change (drop 0 (r :: log)) with (r :: log); lia|]. apply Hmin. lia.
Qed.

(** What [append] does to the list: a record that can never fit is refused;
    otherwise the fewest oldest records are dropped that make room. *)
Definition appended (capacity : nat) (log : list StoredRecord) (r : StoredRecord) (k : nat)
    (stored : bool) (log' : list StoredRecord) : Prop :=
  if stored
  then log' = drop k log ++ [r] ∧ k ≤ length log ∧ space log' ≤ capacity
    ∧ ∀ j, j < k → capacity < space (drop j log ++ [r])
  else log' = log ∧ k = 0 ∧ capacity < entry_length r.

Lemma space_le_length h log : keeps h log → space log ≤ length (bytes_ h) ∧ length log ≤ space log.
Proof.
  intros [[rest Hb] _ Hst]. split.
  - rewrite Hb, length_app, concat_length by done. lia.
  - clear. induction log as [|r log IH]; [done|]. unfold space in *.
    assert (0 < entry_length r) by (unfold entry_length, prefix_size; lia). simpl in *. lia.
Qed.

Lemma append_spec h log r :
  keeps h log → storable r →
  ∃ k stored h' log', append h r = Some (mkAppend (Nat.iter k inc64 0%Z) stored, h')
    ∧ appended (length (bytes_ h)) log r k stored log' ∧ keeps h' log'
    ∧ length (bytes_ h') = length (bytes_ h) ∧ evicted_ h' = Nat.iter k inc64 (evicted_ h).
Proof.
  intros Hk Hr. unfold append. rewrite (entry_size_value r Hr).
  replace (prefix_size + (header_size + payload_length r)) with (entry_length r)
    by (unfold entry_length; lia).
  destruct (Nat.ltb_spec (length (bytes_ h)) (entry_length r)) as [Hbig|Hfit].
  { exists 0, false, h, log. done. }
  destruct (space_le_length h log Hk) as [Hsp Hll].
  destruct (evict_spec (S (used_ h)) (entry_length r) h log 0%Z Hk Hfit) as
    (k & h1 & He & Hkl & Hk1 & Hl1 & Hroom & Hev & Hmin); [rewrite (kp_used _ _ Hk); lia|].
  rewrite He. cbn [mbind option_bind]. pose proof Hk1 as [[rest Hb] Hu Hst].
  assert (Hrest : entry_length r ≤ length rest).
  { apply (f_equal length) in Hb. rewrite length_app, concat_length in Hb by done. lia. }
  destruct (split_length (entry_length r) (length rest - entry_length r) rest) as
    (old & post & -> & Hold & Hpost); [lia|].
  destruct (split_length prefix_size (header_size + payload_length r) old) as (o1 & o23 & -> & H1 & H23);
    [unfold entry_length in Hold; lia|].
  destruct (split_length header_size (payload_length r) o23) as (o2 & o3 & -> & H2 & H3); [lia|].
  set (pre := concat (map entry_bytes (drop k log))) in *.
  assert (Hpre : length pre = used_ h1) by (unfold pre; rewrite concat_length; done).
  rewrite Hb, <-Hpre, <-!app_assoc.
  rewrite (copy_to_app pre o1) by (rewrite size_bytes_length; done). cbn [mbind option_bind].
  pose proof (copy_to_app (pre ++ size_bytes (history_entry_size r)) o2 (header_bytes (header r)) (o3 ++ post)) as Hc2.
  rewrite length_app, size_bytes_length, <-!app_assoc in Hc2.
  unfold prefix_size. rewrite Hc2 by (rewrite header_bytes_length; done). cbn [mbind option_bind].
  assert (Hshown : copy_from (payload_length r) (payload r) 0 = Some (shown r)).
  { unfold shown. rewrite <-(take_drop (payload_length r) (payload r)) at 1.
    apply (copy_from_mid [] _ _); [|done]. destruct Hr. unfold payload_length in *. rewrite length_take. lia. }
  change (Z.to_nat (h_payload_size (header r))) with (payload_length r).
  rewrite Hshown. cbn [mbind option_bind].
  pose proof (copy_to_app (pre ++ size_bytes (history_entry_size r) ++ header_bytes (header r)) o3 (shown r) post) as Hc3.
  rewrite !length_app, size_bytes_length, header_bytes_length, <-!app_assoc in Hc3.
  replace (length pre + (2 + header_size)) with (length pre + 2 + header_size) in Hc3 by lia.
  rewrite Hc3 by (rewrite shown_length by done; done). cbn [mbind option_bind].
  eexists k, true, _, (drop k log ++ [r]). split; [done|].
  assert (Hspace : space (drop k log ++ [r]) = space (drop k log) + entry_length r).
  { apply space_snoc. }
  split; [|split; [|split]].
  - split; [done|]. split; [done|]. split; [lia|]. intros j Hj. specialize (Hmin j Hj).
    rewrite space_snoc. lia.
  - split; simpl.
    + exists post. rewrite map_app, concat_app. fold pre. simpl. unfold entry_bytes.
      by rewrite app_nil_r, <-!app_assoc.
    + rewrite Hspace. lia.
    + apply Forall_app. by split; [|constructor].
  - simpl. rewrite <-Hl1, Hb, !length_app, header_bytes_length, size_bytes_length, shown_length by done.
    unfold prefix_size in *. lia.
  - done.
Qed.

(** ** Queries *)
Abbreviation sequence := (λ r, h_sequence (header r)).

Lemma walk_find (p : StoredRecord → bool) log :
  walk (λ found r, if p r then (Some r, false) else (found, true)) None log
  = hd_error (List.filter p log).
Proof. induction log as [|r log IH]; simpl; [done|]. by destruct (p r). Qed.

Lemma walk_fold {A} (g : A → StoredRecord → A) a log :
  walk (λ s r, (g s r, true)) a log = foldl g a log.
Proof. revert a. induction log as [|r log IH]; intros a; simpl; [done|]. apply IH. Qed.

Lemma fold_last (p : StoredRecord → bool) log found :
  foldl (λ found r, if p r then Some r else found) found log
  = match list.last (List.filter p log) with Some r => Some r | None => found end.
Proof.
  induction log as [|r log IH] using rev_ind; simpl; [done|].
  rewrite foldl_app, List.filter_app. simpl. destruct (p r); [by rewrite last_snoc|].
  by rewrite app_nil_r.
Qed.

(** A record copied over a caller's record. *)
Definition copied (old r : StoredRecord) : StoredRecord :=
  mkStored (header r) (shown r ++ drop (payload_length r) (payload old)).
Lemma copy_record_spec old r :
  storable r → length (payload old) = max_payload → copy_record old r = Some (copied old r).
Proof.
  intros Hr Ho. pose proof (shown_length r Hr) as Hs. destruct Hr. unfold copy_record, copied.
  change (Z.to_nat (h_payload_size (header r))) with (payload_length r) in *.
  assert (copy_from (payload_length r) (payload r) 0 = Some (shown r)) as ->.
  { unfold shown in *. rewrite <-(take_drop (payload_length r) (payload r)) at 1.
    by apply (copy_from_mid [] _ _). }
  cbn [mbind option_bind]. rewrite copy_to_over by lia. simpl. by rewrite Hs.
Qed.
Lemma copied_blank r : storable r → copied (blank_record max_payload) r = r.
Proof.
  intros []. unfold copied, shown, payload_length. destruct r as [h p]. simpl in *.
  rewrite drop_replicate, <-st_rest0. by rewrite take_drop.
Qed.

Lemma next_spec h log seq filter :
  keeps h log →
  next max_payload h seq filter
  = Some (hd_error (List.filter (λ r, (seq <=? sequence r)%Z && selects filter r) log)).
Proof. intros Hk. unfold next. rewrite (scan_all _ h log) by done. by rewrite walk_find. Qed.

Lemma latest_spec h log filter :
  keeps h log →
  latest max_payload h filter
  = Some match list.last (List.filter (selects filter) log) with
         | Some r => Ok r
         | None => Err (mkError SNotFound HistoryEmpty Query invalid_id invalid_id no_source 0 0)
         end.
Proof.
  intros Hk. unfold latest. rewrite (scan_all _ h log) by done. cbn [mbind option_bind].
  rewrite walk_fold, (fold_last (selects filter)).
  destruct (list.last _) as [r|] eqn:Hr; [|done].
  assert (Hst : storable r).
  { apply last_Some_elem_of, list_elem_of_In, filter_In in Hr as [Hin _].
    eapply Forall_forall; [apply (kp_storable _ _ Hk)|]. by apply list_elem_of_In. }
  rewrite copy_record_spec by (simpl; rewrite ?length_replicate; done). simpl. by rewrite copied_blank.
Qed.

(** Reading a page: the records from the cursor on, as many as fit. *)
Definition matching (cursor : Z) (filter : option Z) (log : list StoredRecord) : list StoredRecord :=
  List.filter (λ r, (cursor <=? sequence r)%Z && selects filter r) log.
Definition filled (output found : list StoredRecord) : list StoredRecord :=
  zip_with copied output found ++ drop (length found) output.

Lemma filled_snoc output found r :
  filled output (found ++ [r])
  = match output !! length found with
    | Some old => <[length found := copied old r]> (filled output found)
    | None => filled output found
    end.
Proof.
  unfold filled. revert output. induction found as [|x found IH]; intros [|o output]; simpl; try done.
  - by destruct output.
  - rewrite IH. by destruct (output !! length found).
Qed.
Lemma filled_length output found : length (filled output found) = length output.
Proof. unfold filled. rewrite length_app, length_zip_with, length_drop. lia. Qed.
Lemma filled_lookup output found k : length found ≤ k → filled output found !! k = output !! k.
Proof.
  intros Hk. unfold filled. destruct (decide (length output ≤ k)) as [Hlt|Hlt].
  - rewrite !lookup_ge_None_2; [done|lia|]. rewrite length_app, length_zip_with, length_drop. lia.
  - rewrite lookup_app_r by (rewrite length_zip_with; lia).
    rewrite length_zip_with, lookup_drop. f_equal. lia.
Qed.

Definition last_read (cursor : Z) (n : nat) (found : list StoredRecord) : Z :=
  match list.last (take n found) with Some r => inc64 (sequence r) | None => cursor end.

Lemma read_fold cursor filter output log :
  Forall (λ o, length (payload o) = max_payload) output → Forall storable log →
  (∀ r, r ∈ log → (0 < sequence r)%Z) →
  let s := foldl (read_entry cursor filter) (mkReader (empty_page cursor) (Some output) 0 0) log in
  let found := matching cursor filter log in
  rd_output s = Some (filled output found)
  ∧ rd_page s = mkPage (last_read cursor (length output) found) (Nat.min (length output) (length found))
                  (length found) 0 false
  ∧ rd_oldest s = match log with [] => 0%Z | r :: _ => sequence r end
  ∧ rd_latest s = match list.last log with Some r => sequence r | None => 0%Z end.
Proof.
  intros Hout. induction log as [|r log IH] using rev_ind; intros Hst Hpos s found.
  { subst s found. unfold filled, last_read. simpl. rewrite Nat.min_0_r, take_nil. by destruct output. }
  apply Forall_app in Hst as [Hst [Hr _]%Forall_cons].
  destruct IH as (Ho & Hp & Hold & Hlat); [done| |].
  { intros q Hq. apply Hpos. apply elem_of_app. by left. }
  subst s found. unfold matching. rewrite foldl_snoc, List.filter_app.
  fold (matching cursor filter log).
  set (s0 := foldl _ _ log) in *. simpl. unfold read_entry. rewrite Hp, Ho, Hold. cbn [written available next_cursor].
  assert (Holdest : (if (match log with [] => 0 | r :: _ => sequence r end =? 0)%Z then sequence r
    else match log with [] => 0 | r :: _ => sequence r end)%Z
    = match log ++ [r] with [] => 0%Z | r :: _ => sequence r end).
  { destruct log as [|q log]; [done|]. simpl.
    rewrite (proj2 (Z.eqb_neq _ _)); [done|].
    assert (0 < sequence q)%Z; [|lia]. apply Hpos. apply elem_of_app. left. by apply elem_of_cons; left. }
  rewrite Holdest, last_snoc.
  destruct ((cursor <=? sequence r)%Z && selects filter r); simpl.
  2: { rewrite app_nil_r. done. }
  rewrite length_app. simpl. rewrite Nat.add_1_r.
  rewrite filled_length.
  destruct (Nat.ltb_spec (Nat.min (length output) (length (matching cursor filter log))) (length output)) as [Hlt|Hge].
  - rewrite Nat.min_r by lia. simpl. rewrite filled_lookup by lia.
    destruct (lookup_lt_is_Some_2 output (length (matching cursor filter log))) as [old Hold2]; [lia|].
    rewrite Hold2. simpl. rewrite copy_record_spec; [|done|by eapply (Forall_lookup_1 _ _ _ _ Hout)]. simpl.
    rewrite filled_snoc, Hold2. split; [done|]. split; [|done].
    unfold last_read.
    rewrite (take_ge (matching cursor filter log ++ [r])) by (rewrite length_app; simpl; lia).
    rewrite last_snoc.
    transitivity (mkPage (inc64 (sequence r)) (S (length (matching cursor filter log)))
      (S (length (matching cursor filter log))) 0 false); [done|f_equal; lia].
  - simpl. rewrite filled_snoc, (lookup_ge_None_2 output) by lia. split; [done|]. split; [|done].
    unfold last_read. rewrite take_app_le by lia.
    transitivity (mkPage (last_read cursor (length output) (matching cursor filter log))
      (Nat.min (length output) (length (matching cursor filter log)))
      (S (length (matching cursor filter log))) 0 false); [done|unfold last_read; f_equal; lia].
Qed.

(** Records in the order of their sequence numbers. *)
Record ordered (log : list StoredRecord) : Prop := {
  od_sorted : StronglySorted (λ a b, sequence a < sequence b)%Z log;
  od_range : ∀ r, r ∈ log → (0 < sequence r < 2 ^ 64 - 1)%Z }.

Lemma matching_later c c' filter log :
  (c ≤ c')%Z → matching c' filter log = List.filter (λ r, (c' <=? sequence r)%Z) (matching c filter log).
Proof.
  intros Hc. unfold matching. induction log as [|r log IH]; simpl; [done|].
  destruct (Z.leb_spec c' (sequence r)), (Z.leb_spec c (sequence r)); try lia; simpl;
    destruct (selects filter r); simpl; rewrite ?IH; try done.
  - by rewrite (proj2 (Z.leb_le _ _)).
  - by rewrite (proj2 (Z.leb_gt _ _)).
Qed.

Lemma sorted_filter {A} (R : A → A → Prop) (p : A → bool) log :
  StronglySorted R log → StronglySorted R (List.filter p log).
Proof.
  induction 1 as [|r log Hs IH Hr]; simpl; [constructor|]. destruct (p r); [|done].
  constructor; [done|]. apply Forall_forall. intros q [Hq _]%list_elem_of_In%filter_In.
  eapply Forall_forall; [exact Hr|]. by apply list_elem_of_In.
Qed.

Lemma filter_none {A} (p : A → bool) l : Forall (λ x, p x = false) l → List.filter p l = [].
Proof. induction 1 as [|x l Hx Hl IH]; simpl; [done|]. by rewrite Hx. Qed.
Lemma filter_every {A} (p : A → bool) l : Forall (λ x, p x = true) l → List.filter p l = l.
Proof. induction 1 as [|x l Hx Hl IH]; simpl; [done|]. by rewrite Hx, IH. Qed.

(** After a page of [n] records, its cursor selects exactly the rest. *)
Lemma last_read_rest cursor n filter log :
  ordered log → let found := matching cursor filter log in
  matching (last_read cursor n found) filter log = drop n found.
Proof.
  intros [Hs Hr] found. unfold last_read.
  destruct (list.last (take n found)) as [r|] eqn:Hlast.
  - apply last_Some in Hlast as [front Htake].
    assert (Hfound : found = front ++ r :: drop n found).
    { rewrite <-(take_drop n found) at 1. by rewrite Htake, <-app_assoc. }
    assert (Hin : r ∈ found) by (rewrite Hfound; set_solver).
    assert (Hmem : r ∈ log ∧ (cursor ≤ sequence r)%Z).
    { apply list_elem_of_In, filter_In in Hin as [Hin Hp].
      apply andb_true_iff in Hp as [Hp _]. apply Z.leb_le in Hp. split; [by apply list_elem_of_In|done]. }
    destruct Hmem as [Hmem Hc]. specialize (Hr r Hmem).
    assert (Hinc : inc64 (sequence r) = (sequence r + 1)%Z) by (apply wrap_small; word_lia).
    rewrite Hinc, (matching_later cursor) by lia. fold found.
    assert (Hsf : StronglySorted (λ a b, sequence a < sequence b)%Z found) by by apply sorted_filter.
    rewrite Hfound in Hsf |- * at 1. apply StronglySorted_app in Hsf as (Hcross & _ & Hsd).
    apply StronglySorted_inv in Hsd as [_ Hlater].
    rewrite List.filter_app. simpl. rewrite (proj2 (Z.leb_gt _ _)) by lia.
    rewrite filter_none, filter_every; [done| |].
    + eapply Forall_impl; [exact Hlater|]. intros q Hq. simpl in Hq. apply Z.leb_le. lia.
    + apply Forall_forall. intros q Hq. apply Z.leb_gt.
      specialize (Hcross q r Hq ltac:(set_solver)). simpl in Hcross. lia.
  - apply last_None in Hlast. fold found.
    by rewrite <-(take_drop n found) at 1; rewrite Hlast.
Qed.

(** What a page says of the records that are older than the cursor. *)
Definition behind (cursor : Z) (log : list StoredRecord) : option Z :=
  match log with
  | r :: _ => if (cursor <? sequence r)%Z then Some (sequence r - cursor)%Z else None
  | [] => None
  end.

Record page_spec (cursor : Z) (filter : option Z) (log output : list StoredRecord) (page : HistoryPage)
    (output' : list StoredRecord) : Prop := {
  pg_output : output' = filled output (matching cursor filter log);
  pg_written : written page = Nat.min (length output) (length (matching cursor filter log));
  pg_available : available page = length (matching cursor filter log);
  pg_stale : stale page = bool_decide (is_Some (behind cursor log));
  pg_evicted : evicted_before page = default 0%Z (behind cursor log);
  pg_rest : matching (next_cursor page) filter log = drop (written page) (matching cursor filter log) }.

Lemma drop_written {A} n (found : list A) : drop (Nat.min n (length found)) found = drop n found.
Proof.
  destruct (Nat.le_ge_cases n (length found)); [by rewrite Nat.min_l|].
  rewrite Nat.min_r by done. by rewrite !drop_ge.
Qed.

Lemma ordered_head r log :
  ordered (r :: log) → Forall (λ q, sequence r ≤ sequence q)%Z (r :: log).
Proof.
  intros [[_ Hr]%StronglySorted_inv _]. constructor; [lia|].
  eapply Forall_impl; [exact Hr|]. intros q Hq. simpl in Hq. lia.
Qed.

(** A cursor older than everything may move up to the oldest record. *)
Lemma matching_oldest cursor filter r log :
  ordered (r :: log) → (cursor < sequence r)%Z →
  matching (sequence r) filter (r :: log) = matching cursor filter (r :: log).
Proof.
  intros Hord Hc. rewrite (matching_later cursor) by (simpl in *; lia). apply filter_every, Forall_forall.
  intros q [Hq _]%list_elem_of_In%filter_In. apply Z.leb_le.
  eapply (Forall_forall (λ q, sequence r ≤ sequence q)%Z); [by apply ordered_head|].
  by apply list_elem_of_In.
Qed.

Lemma page_read h cursor output filter log :
  keeps h log → ordered log → (0 ≤ cursor)%Z →
  Forall (λ o, length (payload o) = max_payload) output →
  ∃ page output', read max_payload h cursor output filter = Some (page, output')
    ∧ page_spec cursor filter log output page output'.
Proof.
  intros Hk Hord Hcur Hout. unfold read. rewrite (scan_all _ h log) by done. cbn [mbind option_bind].
  rewrite walk_fold.
  destruct (read_fold cursor filter output log Hout (kp_storable _ _ Hk)) as (Ho & Hp & Hold & Hlat).
  { intros r Hr. by apply (od_range _ Hord). }
  rewrite Ho, Hp, Hold, Hlat. cbn [mbind option_bind].
  pose proof (last_read_rest cursor (length output) filter log Hord) as Hrest. simpl in Hrest.
  destruct log as [|r0 log].
  { eexists _, _. split; [done|]. split; simpl; rewrite ?Nat.min_0_r; done. }
  pose proof (ordered_head r0 log Hord) as Hhead.
  pose proof (matching_oldest cursor filter r0 log Hord) as Holdest.
  pose proof (od_range _ Hord r0 ltac:(set_solver)) as Hr0.
  destruct (list.last (r0 :: log)) as [rl|] eqn:Hlast; [|by apply last_None in Hlast].
  apply last_Some_elem_of in Hlast. rewrite Forall_forall in Hhead. pose proof (Hhead rl Hlast) as Hle.
  pose proof (od_range _ Hord rl Hlast) as Hrl. simpl in Hle.
  assert (Hbehind : behind cursor (r0 :: log)
    = if (cursor <? sequence r0)%Z then Some (sequence r0 - cursor)%Z else None) by done.
  remember (r0 :: log) as all eqn:Hall. clear Hall. remember (matching cursor filter all) as found eqn:Hfound.
  rewrite !(proj2 (Z.eqb_neq _ 0)) by lia. cbn [negb andb written].
  rewrite andb_true_r.
  eexists _, _. split; [done|].
  assert (Hw : ∀ c e st, written (mkPage c (Nat.min (length output) (length found)) (length found) e st)
    = Nat.min (length output) (length found)) by done.
  revert Hbehind. cbn beta. destruct (Z.ltb_spec cursor (h_sequence (header r0))) as [Hlt|Hge]; intros Hbehind.
  - rewrite (wrap_small 64 (sequence r0 - cursor)) by word_lia.
    rewrite (proj2 (Z.ltb_ge (sequence rl) cursor)) by lia. rewrite andb_false_r.
    change (mkPage _ _ _ _ _ <| stale := true |> <| evicted_before := _ |>)
      with (mkPage (last_read cursor (length output) found) (Nat.min (length output) (length found))
              (length found) (sequence r0 - cursor) true).
    rewrite Hw. destruct (Nat.eqb_spec (Nat.min (length output) (length found)) 0) as [Hz|Hz];
      split; rewrite <-?Hfound, ?Hbehind; cbn -[Nat.min]; try done;
      rewrite ?Hz, ?Holdest, ?Hrest, ?drop_written by done; done.
  - rewrite Hw. cbn beta.
    destruct (Nat.eqb_spec (Nat.min (length output) (length found)) 0) as [Hz|Hz];
      destruct (Z.ltb_spec (h_sequence (header rl)) cursor); split;
      rewrite <-?Hfound, ?Hbehind; cbn -[Nat.min]; try done;
      rewrite ?Hrest, <-?Hfound, <-?(drop_written (length output)), ?Hz; done.
Qed.

(** ** The contract *)

(** C37: While the bytes of the history keep the records [log]: [clear] empties
    the list; [append] refuses a record that could never fit, and otherwise
    puts it last after dropping the oldest records, no more of them than
    needed, and reports how many; [next] is the first record from a sequence
    number on, [latest] the last one, with [NotFound] when there is none; and
    [read] fills the caller's records with the first of the records from the
    cursor on, counts them all, says how far the cursor lies behind what is
    kept, and returns a cursor that selects exactly the records left over, so
    that paging loses and repeats none. *)
Theorem history_refines h log :
  keeps h log →
  keeps (history_clear h) []
  ∧ (∀ r, storable r → ∃ k stored h' log',
       append h r = Some (mkAppend (Nat.iter k inc64 0%Z) stored, h')
       ∧ appended (length (bytes_ h)) log r k stored log' ∧ keeps h' log'
       ∧ length (bytes_ h') = length (bytes_ h) ∧ evicted_ h' = Nat.iter k inc64 (evicted_ h))
  ∧ (∀ from filter,
       next max_payload h from filter
       = Some (hd_error (List.filter (λ r, (from <=? sequence r)%Z && selects filter r) log)))
  ∧ (∀ filter,
       latest max_payload h filter
       = Some match list.last (List.filter (selects filter) log) with
              | Some r => Ok r
              | None => Err (mkError SNotFound HistoryEmpty Query invalid_id invalid_id no_source 0 0)
              end)
  ∧ (∀ cursor output filter,
       ordered log → (0 ≤ cursor)%Z → Forall (λ o, length (payload o) = max_payload) output →
       ∃ page output', read max_payload h cursor output filter = Some (page, output')
         ∧ page_spec cursor filter log output page output').
Proof.
  intros Hk. split; [|split; [|split; [|split]]].
  - split; [by exists (bytes_ h)|done|constructor].
  - intros r Hr. by apply append_spec.
  - intros from filter. by apply next_spec.
  - intros filter. by apply latest_spec.
  - intros cursor output filter Ho Hc Hout. by apply page_read.
Qed.
End History.

(** ** A history of forty cells with two records *)
Definition context_code (c : ContextKind) : Z :=
  match c with Thread => 0 | Isr => 1 | Infrastructure => 2 end.
Definition context_of (z : Z) : ContextKind :=
  match z with 0%Z => Thread | 1%Z => Isr | _ => Infrastructure end.
Definition quality_code (q : TimestampQuality) : Z :=
  match q with Monotonic => 0 | CycleDomain => 1 | Degraded => 2 end.
Definition quality_of (z : Z) : TimestampQuality :=
  match z with 0%Z => Monotonic | 1%Z => CycleDomain | _ => Degraded end.
Definition severity_code (s : Severity) : Z :=
  match s with Trace => 0 | Informational => 1 | Warning => 2 | SevError => 3 | SevCritical => 4 end.
Definition severity_of (z : Z) : Severity :=
  match z with
  | 0%Z => Trace | 1%Z => Informational | 2%Z => Warning | 3%Z => SevError | _ => SevCritical
  end.
Definition intent_code (l : LogIntent) : Z :=
  match l with LogDefault => 0 | LogSuppress => 1 | LogForce => 2 end.
Definition intent_of (z : Z) : LogIntent :=
  match z with 0%Z => LogDefault | 1%Z => LogSuppress | _ => LogForce end.
Definition kind_code (k : SourceKind) : Z :=
  match k with Application => 0 | Component => 1 | Builtin => 2 end.
Definition kind_of (z : Z) : SourceKind :=
  match z with 0%Z => Application | 1%Z => Component | _ => Builtin end.

(** One cell per member. *)
#[export] Instance cells : ObjectBytes := {
  header_size := 15;
  header_bytes h :=
    [h_event h; kind_code (source_kind (h_source h)); source_component (h_source h); h_sequence h;
     h_timestamp h; context_code (h_context h); quality_code (h_quality h); severity_code (h_severity h);
     h_correlation h; intent_code (h_log_intent h); h_occurrence_count h; h_lost_before h;
     h_payload_size h; h_schema_version h; h_flags h];
  header_of b :=
    let at_ k := default 0%Z (b !! k) in
    mkHeader (at_ 0) (mkSource (kind_of (at_ 1)) (at_ 2)) (at_ 3) (at_ 4) (context_of (at_ 5))
      (quality_of (at_ 6)) (severity_of (at_ 7)) (at_ 8) (intent_of (at_ 9)) (at_ 10) (at_ 11)
      (at_ 12) (at_ 13) (at_ 14);
  size_bytes n := [(n mod 256)%Z; (n / 256)%Z];
  size_of b := match b with [lo; hi] => (lo + 256 * hi)%Z | _ => 0%Z end }.
#[export] Instance cells_laws : ObjectLaws.
Proof.
  split; [done| |done|].
  - intros [e [k c] s t [] [] [] co [] o l p v f]; destruct k; done.
  - intros n _. simpl. pose proof (Z.div_mod n 256 ltac:(done)). lia.
Qed.

Definition sample_record (sequence value : Z) : StoredRecord :=
  mkStored (default_header <| h_event := 3%Z |> <| h_sequence := sequence |> <| h_payload_size := 1%Z |>)
    [value; 0; 0; 0]%Z.
Definition sample_history : CompactHistory :=
  mkHistory (concat (map entry_bytes [sample_record 5 50; sample_record 6 60]) ++ replicate 4 0%Z) 36 0.
Lemma sample_storable sequence value : storable 4 (sample_record sequence value).
Proof. split; simpl; lia || done. Qed.
Lemma sample_keeps : keeps 4 sample_history [sample_record 5 50; sample_record 6 60].
Proof. split; [by eexists|done|]. by repeat constructor; apply sample_storable. Qed.

Lemma history_refines_witness :
  (∃ k stored h' log', append sample_history (sample_record 9 90)
       = Some (mkAppend (Nat.iter k inc64 0%Z) stored, h')
     ∧ appended 40 [sample_record 5 50; sample_record 6 60] (sample_record 9 90) k stored log'
     ∧ keeps 4 h' log')
  ∧ next 4 sample_history 6 None = Some (Some (sample_record 6 60))
  ∧ ∃ page output, read 4 sample_history 2 [blank_record 4] None = Some (page, output)
     ∧ next_cursor page = 6%Z ∧ page_spec 2 None [sample_record 5 50; sample_record 6 60]
         [blank_record 4] page output.
Proof.
  destruct (history_refines 4 sample_history _ sample_keeps) as (_ & Happend & Hnext & _ & Hread).
  split; [|split].
  - destruct (Happend (sample_record 9 90)) as (k & stored & h' & log' & Ha & Hl & Hk & _).
    { apply sample_storable. }
    by exists k, stored, h', log'.
  - apply Hnext.
  - destruct (Hread 2%Z [blank_record 4] None) as (page & output & Hr & Hspec); [|done|by repeat constructor|].
    { split; [repeat constructor; done|]. intros r Hr. repeat (apply elem_of_cons in Hr as [->|Hr]; [done|]).
      by apply not_elem_of_nil in Hr. }
    exists page, output. split; [exact Hr|]. split; [|done]. vm_compute in Hr. by injection Hr as <- _.
Defined.
