(* ===== verification/EventsRings.v ===== *)
(** * EventsRings: the ingress of the event facility as lanes

    A ring holds a list; the rings of the facility are its lanes.  Capturing
    a record puts it at the end of one lane, and the processor takes the
    oldest record of all lanes. *)
From stdpp Require Import prelude functions sorting.
From S2P Require Import Prelude Status Interleave Events.
Import TypedEvents.

Open Scope nat_scope.
Open Scope solar_scope.

Definition sequence (r : StoredRecord) : Z := h_sequence (header r).

(** ** One ring *)
Record ring_wf (r : FixedRing) : Prop := {
  rw_size : size_ r ≤ length (records_ r);
  rw_head : head_ r mod length (records_ r) = head_ r;
  rw_tail : tail_ r = (head_ r + size_ r) mod length (records_ r) }.

Lemma ring_lookup r k :
  ring_wf r → k < size_ r →
  ∃ x, records_ r !! ((head_ r + k) mod length (records_ r)) = Some x.
Proof.
  intros [Hs _ _] Hk. apply lookup_lt_is_Some_2, Nat.mod_upper_bound. lia.
Qed.

Lemma ring_list_length r : ring_wf r → length (ring_list r) = size_ r.
Proof.
  intros Hr. unfold ring_list. assert (∀ n k, n + k ≤ size_ r →
    length (omap (λ k, records_ r !! ((head_ r + k) mod length (records_ r))) (seq k n)) = n) as Hn.
  { induction n as [|n IH]; intros k Hk; [done|]. simpl.
    destruct (ring_lookup r k Hr) as [x ->]; [lia|]. simpl. by rewrite IH by lia. }
  apply Hn. lia.
Qed.

Lemma ring_clear_wf r : ring_wf (ring_clear r) ∧ ring_list (ring_clear r) = [].
Proof. split; [|done]. split; simpl; [lia| |]; by rewrite ?Nat.Div0.mod_0_l. Qed.

Lemma push_spec rec r :
  ring_wf r →
  match push rec r with
  | None => size_ r = length (records_ r)
  | Some r' => ring_wf r' ∧ ring_list r' = ring_list r ++ [rec]
      ∧ length (records_ r') = length (records_ r) ∧ size_ r < length (records_ r)
  end.
Proof.
  intros Hr. pose proof Hr as [Hs Hh Ht]. unfold push.
  destruct (Nat.eqb_spec (size_ r) (length (records_ r))) as [|Hne]; [done|].
  set (r' := _ <| size_ ::= S |>). set (cap := length (records_ r)) in *.
  assert (Hcap : length (records_ r') = cap) by (unfold r'; simpl; apply length_insert).
  split; [|split; [|split; [done|lia]]].
  - split; rewrite ?Hcap; simpl; [lia|done|]. rewrite Ht, Nat.Div0.add_mod_idemp_l. f_equal. lia.
  - unfold ring_list. rewrite Hcap. change (size_ r') with (S (size_ r)).
    rewrite seq_S, omap_app. f_equal.
    + apply omap_ext. intros k Hk%elem_of_seq. change (records_ r') with (<[tail_ r := rec]> (records_ r)).
      change (head_ r') with (head_ r). apply list_lookup_insert_ne. rewrite Ht. intros Heq. fold cap in Heq.
      assert (Hlt : head_ r < cap) by (rewrite <-Hh; apply Nat.mod_upper_bound; lia).
      pose proof (Nat.div_mod_eq (head_ r + size_ r) cap).
      pose proof (Nat.div_mod_eq (head_ r + k) cap).
      assert (Hd : (head_ r + size_ r) / cap = (head_ r + k) / cap
        ∨ (head_ r + size_ r) / cap = S ((head_ r + k) / cap)).
      { assert ((head_ r + k) / cap ≤ (head_ r + size_ r) / cap) by (apply Nat.Div0.div_le_mono; lia).
        assert ((head_ r + size_ r) / cap ≤ (head_ r + k + 1 * cap) / cap)
          by (apply Nat.Div0.div_le_mono; lia).
        rewrite Nat.div_add in * by lia. lia. }
      destruct Hd as [Hd|Hd]; rewrite Hd in *; nia.
    + simpl. change (records_ r') with (<[tail_ r := rec]> (records_ r)). change (head_ r') with (head_ r).
      rewrite <-Ht, list_lookup_insert_eq; [done|]. fold cap. rewrite Ht. apply Nat.mod_upper_bound. lia.
Qed.

Lemma ring_list_cons r :
  ring_wf r → size_ r ≠ 0 →
  ∃ x, records_ r !! head_ r = Some x
    ∧ ring_list r = x :: ring_list (r <| head_ := (head_ r + 1) mod length (records_ r) |> <| size_ ::= pred |>).
Proof.
  intros Hr Hs. destruct (ring_lookup r 0 Hr) as [x Hx]; [lia|].
  rewrite Nat.add_0_r, (rw_head r Hr) in Hx. exists x. split; [done|].
  unfold ring_list. simpl. destruct (size_ r) as [|n] eqn:Hn; [done|]. simpl.
  rewrite Nat.add_0_r, (rw_head r Hr), Hx. f_equal.
  rewrite <-fmap_S_seq, omap_fmap. apply omap_ext. intros k _. simpl.
  rewrite Nat.Div0.add_mod_idemp_l. do 2 f_equal. lia.
Qed.

Lemma front_spec r : ring_wf r → front r = head (ring_list r).
Proof.
  intros Hr. unfold front. destruct (Nat.eqb_spec (size_ r) 0) as [Hs|Hs].
  - unfold ring_list. by rewrite Hs.
  - by destruct (ring_list_cons r Hr Hs) as (x & -> & ->).
Qed.

Lemma pop_spec r :
  ring_wf r →
  match pop r with
  | None => ring_list r = []
  | Some (x, r') => ring_list r = x :: ring_list r' ∧ ring_wf r'
      ∧ length (records_ r') = length (records_ r)
  end.
Proof.
  intros Hr. unfold pop. destruct (Nat.eqb_spec (size_ r) 0) as [Hs|Hs].
  - unfold ring_list. by rewrite Hs.
  - destruct (ring_list_cons r Hr Hs) as (x & -> & ->). simpl. split; [done|]. split; [|done].
    destruct Hr as [Hsz Hh Ht]. split; simpl; [lia|by rewrite Nat.Div0.mod_mod|].
    rewrite Ht, Nat.Div0.add_mod_idemp_l. f_equal. lia.
Qed.

(** ** The lanes of a facility *)
Lemma elem_of_concat {A} (x : A) (ls : list (list A)) : x ∈ concat ls ↔ ∃ l, l ∈ ls ∧ x ∈ l.
Proof. setoid_rewrite list_elem_of_In. apply in_concat. Qed.

Section Lanes.
Context (max_payload : nat) (events : list Event) (event_id : nat → Z).
Abbreviation n := (length events).

Definition critical_lane (s : Facility) (i : nat) : list StoredRecord :=
  ring_list (critical_ingress (event_state s i)).
Definition lanes (s : Facility) : list (list StoredRecord) :=
  ring_list (thread_ingress s) :: ring_list (isr_ingress s) :: map (critical_lane s) (seq 0 n).
Definition pending (s : Facility) : list StoredRecord := concat (lanes s).

Record rings_wf (s : Facility) : Prop := {
  rs_thread : ring_wf (thread_ingress s);
  rs_isr : ring_wf (isr_ingress s);
  rs_critical i : i < n → ring_wf (critical_ingress (event_state s i));
  rs_history i : i < n → ring_wf (critical_history (event_state s i)) }.

(** What a change of an event that is about its counters leaves alone. *)
Definition same_event (st st' : EventState) : Prop :=
  critical_ingress st' = critical_ingress st ∧ critical_history st' = critical_history st
  ∧ critical_inflight st' = critical_inflight st ∧ e_event (record st') = e_event (record st).
(** A change of the facility that is about counters, policies, conditions and
    stored history. *)
Record calm (s s' : Facility) : Prop := {
  cm_thread : thread_ingress s' = thread_ingress s;
  cm_isr : isr_ingress s' = isr_ingress s;
  cm_next : next_sequence s' = next_sequence s;
  cm_attached : attached s' = attached s;
  cm_processed : processed_ s' = processed_ s;
  cm_event i : same_event (event_state s i) (event_state s' i) }.

Lemma calm_refl s : calm s s.
Proof. by split. Qed.
Lemma calm_trans s1 s2 s3 : calm s1 s2 → calm s2 s3 → calm s1 s3.
Proof.
  intros [] []. split; try congruence. intros i.
  destruct (cm_event0 i) as (?&?&?&?), (cm_event1 i) as (?&?&?&?). repeat split; congruence.
Qed.
Lemma calm_on_event i f s : same_event (event_state s i) (f (event_state s i)) → calm s (on_event i f s).
Proof.
  intros Hf. split; try done. intros j. simpl. destruct (decide (j = i)) as [->|Hne].
  - by rewrite fn_lookup_insert.
  - by rewrite fn_lookup_insert_ne.
Qed.
Lemma calm_on_record i f s :
  e_event (f (record (event_state s i))) = e_event (record (event_state s i)) → calm s (on_record i f s).
Proof. intros Hf. apply calm_on_event. by repeat split. Qed.

Lemma calm_lanes s s' : calm s s' → lanes s' = lanes s.
Proof.
  intros [? ? _ _ _ Hev]. unfold lanes. f_equal; [congruence|]. f_equal; [congruence|].
  apply map_ext. intros i. unfold critical_lane. by destruct (Hev i) as (-> & _).
Qed.
Lemma calm_rings s s' : calm s s' → rings_wf s → rings_wf s'.
Proof.
  intros [Ht Hi _ _ _ Hev] []. split; rewrite ?Ht, ?Hi; try done; intros i Hlt;
    destruct (Hev i) as (Hc & Hh & _); rewrite ?Hc, ?Hh; auto.
Qed.

Lemma map_insert {A B} (h : A → B) (g : nat → A) i x :
  i < n → map (λ j, h (<[i := x]> g j)) (seq 0 n) = <[i := h x]> (map (λ j, h (g j)) (seq 0 n)).
Proof.
  intros Hi. apply list_eq. intros j. rewrite list_lookup_fmap.
  destruct (decide (j < n)) as [Hj|Hj].
  - rewrite lookup_seq_lt by done. simpl. destruct (decide (j = i)) as [->|Hne].
    + rewrite fn_lookup_insert, list_lookup_insert_eq; [done|]. by rewrite length_map, length_seq.
    + rewrite fn_lookup_insert_ne, list_lookup_insert_ne by done.
      by rewrite list_lookup_fmap, lookup_seq_lt.
  - rewrite lookup_seq_ge by lia. symmetry. apply lookup_ge_None_2.
    rewrite length_insert, length_map, length_seq. lia.
Qed.

Lemma lanes_critical s i : i < n → lanes s !! S (S i) = Some (critical_lane s i).
Proof. intros Hi. simpl. by rewrite list_lookup_fmap, lookup_seq_lt. Qed.
Lemma lanes_length s : length (lanes s) = S (S n).
Proof. simpl. by rewrite length_map, length_seq. Qed.

(** A change of one event that moves its ring. *)
Lemma lanes_on_event s i f :
  i < n → lanes (on_event i f s)
          = <[S (S i) := ring_list (critical_ingress (f (event_state s i)))]> (lanes s).
Proof.
  intros Hi. unfold lanes, critical_lane. simpl. do 2 f_equal.
  by apply (map_insert (λ st, ring_list (critical_ingress st)) (event_state s)).
Qed.

Lemma critical_pending_sum s :
  rings_wf s → critical_pending events s = length (concat (map (critical_lane s) (seq 0 n))).
Proof.
  intros Hr. unfold critical_pending.
  assert (∀ k m z, k + m ≤ n → foldl (λ z i, z + size_ (critical_ingress (event_state s i))) z (seq k m)
    = z + length (concat (map (critical_lane s) (seq k m)))) as Hs.
  { intros k m. revert k. induction m as [|m IH]; intros k z Hk; simpl; [lia|].
    rewrite IH by lia. rewrite length_app. unfold critical_lane at 2.
    rewrite ring_list_length by (apply (rs_critical s Hr); lia). lia. }
  rewrite Hs; lia.
Qed.

Lemma ingress_empty_pending s : rings_wf s → ingress_empty events s = bool_decide (pending s = []).
Proof.
  intros Hr. unfold ingress_empty. rewrite critical_pending_sum by done.
  rewrite <-!ring_list_length by apply Hr.
  unfold pending, lanes. simpl. destruct (ring_list (thread_ingress s)); [|done].
  destruct (ring_list (isr_ingress s)); [|done]. simpl.
  by destruct (concat (map (critical_lane s) (seq 0 n))).
Qed.

(** ** The oldest record *)
Lemma choose_spec (cs : list (option StoredRecord * RingKind * Z)) k0 q0 e0 :
  let c := foldl (λ c x, consider x.1.1 x.1.2 x.2 c) (k0, q0, e0) cs in
  (c = (k0, q0, e0) ∧ ∀ x r, x ∈ cs → x.1.1 = Some r → (q0 ≤ sequence r)%Z)
  ∨ ∃ x r, x ∈ cs ∧ x.1.1 = Some r ∧ c = (x.1.2, sequence r, x.2) ∧ (sequence r < q0)%Z
      ∧ ∀ y q, y ∈ cs → y.1.1 = Some q → (sequence r ≤ sequence q)%Z.
Proof.
  revert k0 q0 e0. induction cs as [|x cs IH]; intros k0 q0 e0; simpl.
  { left. split; [done|]. by intros x r ?%not_elem_of_nil. }
  destruct x as [[[r|] k] e]; simpl; [change (h_sequence (header r)) with (sequence r); destruct (Z.ltb_spec (sequence r) q0) as [Hlt|Hge]|].
  - right. destruct (IH k (sequence r) e) as [[-> Hall]|(x & r' & Hx & Hr' & -> & Hlt' & Hall)].
    + exists (Some r, k, e), r. split; [by apply elem_of_cons; left|]. do 3 (split; [done|]).
      intros y q [->|Hy]%elem_of_cons Hq; simplify_eq/=; [lia|by eapply Hall].
    + exists x, r'. split; [by apply elem_of_cons; right|]. do 2 (split; [done|]). simpl in *.
      split; [lia|]. intros y q [->|Hy]%elem_of_cons Hq; simplify_eq/=; [lia|by eapply Hall].
  - destruct (IH k0 q0 e0) as [[-> Hall]|(x & r' & Hx & Hr' & -> & Hlt' & Hall)]; [left|right].
    + split; [done|]. intros y q [->|Hy]%elem_of_cons Hq; simplify_eq/=; [lia|by eapply Hall].
    + exists x, r'. split; [by apply elem_of_cons; right|]. do 2 (split; [done|]). simpl in *.
      split; [lia|]. intros y q [->|Hy]%elem_of_cons Hq; simplify_eq/=; [lia|by eapply Hall].
  - destruct (IH k0 q0 e0) as [[-> Hall]|(x & r' & Hx & Hr' & -> & Hlt' & Hall)]; [left|right].
    + split; [done|]. intros y q [->|Hy]%elem_of_cons Hq; simplify_eq/=; by eapply Hall.
    + exists x, r'. split; [by apply elem_of_cons; right|]. do 3 (split; [done|]).
      intros y q [->|Hy]%elem_of_cons Hq; simplify_eq/=; by eapply Hall.
Qed.

(** The candidates of [pop_next]: each lane with its head. *)
Definition candidates (s : Facility) : list (option StoredRecord * RingKind * Z) :=
  (front (thread_ingress s), ThreadRing, invalid_id) :: (front (isr_ingress s), IsrRing, invalid_id)
  :: map (λ i, (front (critical_ingress (event_state s i)), CriticalRing,
                e_event (record (event_state s i)))) (seq 0 n).

(** The record [r] is taken from the lane [k], the oldest of all. *)
Record took (k : nat) (r : StoredRecord) (s s' : Facility) : Prop := {
  tk_lane : ∃ l, lanes s !! k = Some (r :: l) ∧ lanes s' = <[k := l]> (lanes s);
  tk_oldest j q l : lanes s !! j = Some (q :: l) → (sequence r ≤ sequence q)%Z;
  tk_rings : rings_wf s';
  tk_next : next_sequence s' = next_sequence s;
  tk_attached : attached s' = attached s;
  tk_processed : processed_ s' = processed_ s;
  tk_event i : critical_history (event_state s' i) = critical_history (event_state s i)
    ∧ e_event (record (event_state s' i)) = e_event (record (event_state s i))
    ∧ length (records_ (critical_ingress (event_state s' i)))
      = length (records_ (critical_ingress (event_state s i)))
    ∧ critical_inflight (event_state s' i)
      = critical_inflight (event_state s i) + (if decide (k = S (S i)) then 1 else 0) }.

Definition ids_own (s : Facility) : Prop :=
  ∀ i, i < n → e_event (record (event_state s i)) = Z.of_nat i.

Lemma pop_critical_spec s i :
  rings_wf s → ids_own s → i < n → critical_lane s i ≠ [] →
  ∀ m k, k ≤ i → k + m = n →
  ∃ r ring, pop (critical_ingress (event_state s i)) = Some (r, ring)
    ∧ pop_critical (Z.of_nat i) (seq k m) s
      = Some (r, on_event i (λ st, st <| critical_ingress := ring |> <| critical_inflight ::= S |>) s).
Proof.
  intros Hr Hids Hi Hne. pose proof (pop_spec _ (rs_critical s Hr i Hi)) as Hpop.
  destruct (pop (critical_ingress (event_state s i))) as [[r ring]|] eqn:Hp; [|done].
  induction m as [|m IH]; intros k Hk Hm; [lia|].
  exists r, ring. split; [done|]. cbn [seq pop_critical]. rewrite Hids by lia.
  destruct (Z.eqb_spec (Z.of_nat k) (Z.of_nat i)) as [Heq|Hneq].
  - assert (k = i) as -> by lia. by rewrite Hp.
  - destruct (IH (S k)) as (r' & ring' & Heq & Hc); [lia|lia|]. by simplify_eq.
Qed.

Lemma calm_pending s : calm s (update_facility_pending events s).
Proof. by split. Qed.

Lemma took_calm k r s s1 s2 : took k r s s1 → calm s1 s2 → took k r s s2.
Proof.
  intros [[l [Hl Hl1]] Ho Hr Hn Ha Hp He] Hc. pose proof (calm_lanes _ _ Hc) as Hlanes.
  pose proof (calm_rings _ _ Hc Hr). destruct Hc as [_ _ Hn2 Ha2 Hp2 He2]. split; try done; try congruence.
  - exists l. by rewrite Hlanes.
  - intros i. destruct (He i) as (?&?&?&?), (He2 i) as (Hci&?&?&?). rewrite Hci. repeat split; congruence.
Qed.

(** A head of a lane is a candidate, and the other way round. *)
Lemma candidate_lane s j q l :
  rings_wf s → lanes s !! j = Some (q :: l) → ∃ x, x ∈ candidates s ∧ x.1.1 = Some q.
Proof.
  intros Hr Hj. unfold candidates. destruct j as [|[|i]]; simpl in Hj.
  - eexists. split; [by apply elem_of_cons; left|]. simpl. rewrite front_spec by apply Hr. by simplify_eq; rewrite Hj.
  - eexists. split; [by apply elem_of_cons; right; apply elem_of_cons; left|]. simpl.
    rewrite front_spec by apply Hr. by simplify_eq; rewrite Hj.
  - rewrite list_lookup_fmap in Hj. apply fmap_Some in Hj as (i' & Hi & Hj).
    apply lookup_seq in Hi as [-> Hi]. simpl in Hj.
    eexists. split; [do 2 (apply elem_of_cons; right); apply list_elem_of_fmap;
      exists i; split; [done|]; apply elem_of_seq; lia|].
    simpl. rewrite front_spec by by apply Hr. unfold critical_lane in Hj. by rewrite <-Hj.
Qed.

(** What a choice says of the state. *)
Inductive chosen (s : Facility) : RingKind → Z → StoredRecord → nat → Prop :=
  | ChooseThread r l : ring_list (thread_ingress s) = r :: l → chosen s ThreadRing invalid_id r 0
  | ChooseIsr r l : ring_list (isr_ingress s) = r :: l → chosen s IsrRing invalid_id r 1
  | ChooseCritical i r l : i < n → critical_lane s i = r :: l → chosen s CriticalRing (Z.of_nat i) r (S (S i)).

Lemma candidate_chosen s x r :
  rings_wf s → ids_own s → x ∈ candidates s → x.1.1 = Some r → ∃ k, chosen s x.1.2 x.2 r k.
Proof.
  intros Hr Hids Hx Hf. unfold candidates in Hx.
  assert (Hhead : ∀ l, head l = Some r → ∃ l', l = r :: l')
    by (intros [|? l'] ?; [done|]; simplify_eq/=; by exists l').
  repeat apply elem_of_cons in Hx as [->|Hx]; simpl in Hf.
  - rewrite front_spec in Hf by apply Hr. apply Hhead in Hf as [l Hl]. eexists. by eapply ChooseThread.
  - rewrite front_spec in Hf by apply Hr. apply Hhead in Hf as [l Hl]. eexists. by eapply ChooseIsr.
  - apply list_elem_of_fmap in Hx as (i & -> & [_ Hi]%elem_of_seq). simpl in *.
    rewrite front_spec in Hf by by apply Hr. apply Hhead in Hf as [l Hl].
    rewrite Hids by done. eexists. by eapply ChooseCritical.
Qed.

Lemma rings_wf_on s i f :
  rings_wf s → (i < n → ring_wf (critical_ingress (f (event_state s i)))
                        ∧ ring_wf (critical_history (f (event_state s i)))) →
  rings_wf (on_event i f s).
Proof.
  intros [] Hf. split; try done; intros j Hj; simpl; (destruct (decide (j = i)) as [->|Hne];
    [rewrite fn_lookup_insert; by apply Hf|rewrite fn_lookup_insert_ne by done; auto]).
Qed.

Lemma pop_next_spec s :
  rings_wf s → ids_own s → (∀ r, r ∈ pending s → (sequence r < 2 ^ 64 - 1)%Z) →
  match pop_next events s with
  | (None, s') => pending s = [] ∧ calm s s'
  | (Some r, s') => ∃ k, took k r s s'
  end.
Proof.
  intros Hr Hids Hsmall. unfold pop_next.
  set (choice := foldl _ _ (seq 0 n)).
  assert (Hch : choice = foldl (λ c x, consider x.1.1 x.1.2 x.2 c) (NoRing, 2 ^ 64 - 1, invalid_id)%Z (candidates s)).
  { unfold choice, candidates. simpl. by rewrite foldl_fmap. }
  destruct (choose_spec (candidates s) NoRing (2 ^ 64 - 1)%Z invalid_id)
    as [[Hc Hall]|(x & r & Hx & Hf & Hc & _ & Hmin)]; rewrite <-Hch in Hc; rewrite Hc.
  { split; [|apply calm_pending]. unfold pending. apply concat_nil_Forall, Forall_lookup_2.
    intros j [|q l] Hj; [done|]. exfalso. destruct (candidate_lane s j q l Hr Hj) as (x & Hx & Hq).
    specialize (Hall x q Hx Hq). assert (q ∈ pending s) as Hin%Hsmall; [|simpl in *; lia].
    apply elem_of_concat. exists (q :: l). split; [by eapply list_elem_of_lookup_2|by apply elem_of_cons; left]. }
  assert (Hold : ∀ j q l, lanes s !! j = Some (q :: l) → (sequence r ≤ sequence q)%Z).
  { intros j q l Hj. destruct (candidate_lane s j q l Hr Hj) as (y & Hy & Hq). by eapply Hmin. }
  destruct (candidate_chosen s x r Hr Hids Hx Hf) as [k Hk]. destruct x as [[f kind] ev]. simpl in *.
  destruct Hk as [r l Hl|r l Hl|i r l Hi Hl].
  - pose proof (pop_spec _ (rs_thread s Hr)) as Hp. destruct (pop (thread_ingress s)) as [[q ring]|]; [|congruence].
    destruct Hp as (Hq & Hw & _). rewrite Hq in Hl. simplify_eq. simpl. exists 0.
    eapply took_calm; [|apply calm_pending]. split; try done.
    + exists (ring_list ring). split; [simpl; by rewrite Hq|done].
    + split; try apply Hr; done.
  - pose proof (pop_spec _ (rs_isr s Hr)) as Hp. destruct (pop (isr_ingress s)) as [[q ring]|]; [|congruence].
    destruct Hp as (Hq & Hw & _). rewrite Hq in Hl. simplify_eq. simpl. exists 1.
    eapply took_calm; [|apply calm_pending]. split; try done.
    + exists (ring_list ring). split; [simpl; by rewrite Hq|done].
    + split; try apply Hr; done.
  - destruct (pop_critical_spec s i Hr Hids Hi ltac:(by rewrite Hl) n 0) as (q & ring & Hp & ->); [lia|lia|].
    pose proof (pop_spec _ (rs_critical s Hr i Hi)) as Hps. rewrite Hp in Hps. destruct Hps as (Hq & Hw & Hcap).
    unfold critical_lane in Hl. rewrite Hq in Hl. simplify_eq. exists (S (S i)).
    eapply took_calm; [|apply calm_pending]. split; try done.
    + exists (ring_list ring). rewrite lanes_on_event by done. rewrite lanes_critical by done.
      unfold critical_lane. rewrite Hq. done.
    + apply rings_wf_on; [done|]. intros _. split; [done|]. simpl. by apply (rs_history s Hr).
    + intros j. simpl. destruct (decide (j = i)) as [->|Hne].
      * rewrite fn_lookup_insert, decide_True by done. simpl. repeat split; lia || done.
      * rewrite fn_lookup_insert_ne, decide_False by congruence. by repeat split; rewrite ?Nat.add_0_r.
Qed.

(** ** Capturing *)

(** The record [r], with the next sequence number, is put in the lane [k]. *)
Record put (k : nat) (r : StoredRecord) (s s' : Facility) : Prop := {
  pt_lane : ∃ l, lanes s !! k = Some l ∧ lanes s' = <[k := l ++ [r]]> (lanes s);
  pt_rings : rings_wf s';
  pt_sequence : sequence r = next_sequence s;
  pt_next : next_sequence s' = inc64 (next_sequence s);
  pt_attached : attached s' = attached s;
  pt_processed : processed_ s' = processed_ s;
  pt_event i : critical_history (event_state s' i) = critical_history (event_state s i)
    ∧ e_event (record (event_state s' i)) = e_event (record (event_state s i))
    ∧ critical_inflight (event_state s' i) = critical_inflight (event_state s i) }.

Lemma put_calm k r s s1 s2 s3 : calm s s1 → put k r s1 s2 → calm s2 s3 → put k r s s3.
Proof.
  intros H1 [Hl Hr Hs Hn Ha Hp He] H3. pose proof (calm_lanes _ _ H1) as L1. pose proof (calm_lanes _ _ H3) as L3.
  pose proof (calm_rings _ _ H3 Hr). destruct H1 as [_ _ N1 A1 P1 E1], H3 as [_ _ N3 A3 P3 E3].
  split; try congruence; [by rewrite L3, <-L1|].
  intros i. destruct (E1 i) as (?&?&?&?), (He i) as (?&?&?), (E3 i) as (?&?&?&?). repeat split; congruence.
Qed.

Definition held (s : Facility) (i : nat) : nat :=
  size_ (critical_ingress (event_state s i)) + size_ (critical_history (event_state s i))
  + critical_inflight (event_state s i).
Lemma calm_held s s' i : calm s s' → held s' i = held s i.
Proof. intros Hc. unfold held. destruct (cm_event _ _ Hc i) as (-> & -> & -> & _). done. Qed.

Definition own_lane (i : nat) (ev : Event) (s : Facility) (k : nat) : Prop :=
  if critical (ev_retention ev) then k = S (S i) ∧ held s i < reserved_slots (ev_retention ev) else k < 2.

Definition captured (i : nat) (ev : Event) (s : Facility) (o : Outcome) (s' : Facility) : Prop :=
  match o with
  | Queued receipt => ∃ k r, put k r s s' ∧ own_lane i ev s k ∧ h_event (header r) = event_id i
      ∧ rc_sequence receipt = sequence r ∧ materialized receipt = true
  | Returned (Ok receipt) => calm s s' ∧ materialized receipt = false
  | _ => calm s s'
  end.

Lemma captured_calm i ev s s1 o s2 : calm s s1 → captured i ev s1 o s2 → captured i ev s o s2.
Proof.
  intros Hc. destruct o as [[receipt|err]|receipt|]; simpl.
  - intros [? ?]. split; [|done]. by eapply calm_trans.
  - intros ?. by eapply calm_trans.
  - intros (k & r & Hp & Ho & Hrest). exists k, r. split; [by eapply put_calm; [| |apply calm_refl]|].
    split; [|done]. unfold own_lane in *. by rewrite <-(calm_held _ _ _ Hc).
  - intros ?. by eapply calm_trans.
Qed.

Lemma push_lane r ring ring' : ring_wf ring → push r ring = Some ring' →
  ring_wf ring' ∧ ring_list ring' = ring_list ring ++ [r].
Proof. intros Hw Hp. pose proof (push_spec r ring Hw) as Hs. rewrite Hp in Hs. naive_solver. Qed.

(** The ring [enqueue] pushes into. *)
Lemma pushed_put i ev (isr : bool) (s : Facility) r s' :
  events !! i = Some ev → rings_wf s → sequence r = next_sequence s →
  (if critical (ev_retention ev) then
     if held s i <? reserved_slots (ev_retention ev)
     then (λ ring : FixedRing, on_event i (λ st, st <| critical_ingress := ring |>) s) <$> push r (critical_ingress (event_state s i))
     else None
   else if isr then (λ ring : FixedRing, s <| isr_ingress := ring |>) <$> push r (isr_ingress s)
   else (λ ring : FixedRing, s <| thread_ingress := ring |>) <$> push r (thread_ingress s)) = Some s' →
  ∃ k, put k r s (s' <| next_sequence ::= inc64 |>) ∧ own_lane i ev s k.
Proof.
  intros Hev Hr Hseq Hpush. apply lookup_lt_Some in Hev as Hi. unfold own_lane.
  destruct (critical (ev_retention ev)); [|destruct isr].
  - destruct (Nat.ltb_spec (held s i) (reserved_slots (ev_retention ev))) as [Hheld|]; [|done].
    apply fmap_Some in Hpush as (ring & Hp & ->).
    destruct (push_lane _ _ _ (rs_critical s Hr i Hi) Hp) as [Hw Hl]. exists (S (S i)). split; [|done].
    split; try done.
    + exists (critical_lane s i). split; [by apply lanes_critical|].
      unfold critical_lane. rewrite <-Hl.
      etransitivity; [|exact (lanes_on_event s i (λ st, st <| critical_ingress := ring |>) Hi)]. done.
    + destruct (rings_wf_on s i (λ st, st <| critical_ingress := ring |>) Hr); [|by split].
      intros _. split; [done|]. simpl. by apply (rs_history s Hr).
    + intros j. simpl. destruct (decide (j = i)) as [->|Hne].
      * by rewrite fn_lookup_insert.
      * by rewrite fn_lookup_insert_ne.
  - apply fmap_Some in Hpush as (ring & Hp & ->).
    destruct (push_lane _ _ _ (rs_isr s Hr) Hp) as [Hw Hl]. exists 1. split; [|lia]. split; try done.
    + exists (ring_list (isr_ingress s)). split; [done|]. unfold lanes. simpl. by rewrite Hl.
    + by split; try apply Hr.
  - apply fmap_Some in Hpush as (ring & Hp & ->).
    destruct (push_lane _ _ _ (rs_thread s Hr) Hp) as [Hw Hl]. exists 0. split; [|lia]. split; try done.
    + exists (ring_list (thread_ingress s)). split; [done|]. unfold lanes. simpl. by rewrite Hl.
    + by split; try apply Hr.
Qed.

Lemma enqueue_spec i ev isr op source t stored s :
  events !! i = Some ev → rings_wf s → h_event (header stored) = event_id i →
  let '(o, s') := enqueue events event_id i ev isr op source t stored s in captured i ev s o s'.
Proof.
  intros Hev Hr Hid. unfold enqueue.
  set (s1 := stored <| header ::= λ h : RecordHeader, h <| h_sequence := next_sequence s |> |>).
  match goal with |- context [if ?c then ?a else s1] => set (r := if c then a else s1) end.
  assert (Hseq : sequence r = next_sequence s) by (unfold r; by case_match).
  assert (Hev' : h_event (header r) = event_id i) by (unfold r; by case_match).
  clearbody r. clear s1.
  match goal with |- context [match ?pushed with Some s0 => _ | None => _ end] => destruct pushed as [s2|] eqn:Hp end.
  - destruct (pushed_put i ev isr s r s2 Hev Hr Hseq Hp) as (k & Hput & Hown). simpl.
    exists k, r. split; [|done].
    eapply put_calm; [apply calm_refl|exact Hput|]. eapply calm_trans; [|apply calm_pending].
    eapply calm_trans; [|by apply calm_on_event]. by split.
  - assert (Hcalm : ∀ f g, (∀ st, same_event st (f st)) →
      calm s (update_facility_pending events (on_event i f s <| facility_record ::= g |>))).
    { intros f g Hf. eapply calm_trans; [by apply (calm_on_event i f)|]. by split. }
    destruct (panic_on_exhaustion (ev_retention ev)); simpl; by apply Hcalm.
Qed.

Lemma capture_locked_spec i ev isr op bytes source correlation log e s :
  events !! i = Some ev → rings_wf s →
  let '(o, s') := capture_locked max_payload events event_id i ev isr op bytes source correlation log e s in
  captured i ev s o s'.
Proof.
  intros Hev Hr. unfold capture_locked.
  set (s1 := on_record i _ s). assert (H1 : calm s s1) by by apply calm_on_record.
  destruct (should_materialize _ _ _ _) as [wanted window].
  set (stored := mkStored _ _).
  assert (Henq : ∀ s2 stored, calm s s2 → h_event (header stored) = event_id i →
    let '(o, s') := enqueue events event_id i ev isr op source (now e) stored s2 in captured i ev s o s').
  { intros s2 stored' H2 Hid.
    pose proof (enqueue_spec i ev isr op source (now e) stored' s2 Hev (calm_rings _ _ H2 Hr) Hid) as He.
    destruct (enqueue _ _ _ _ _ _ _ _ _ s2). by eapply captured_calm. }
  assert (Hrec : ∀ s2 f, calm s s2 → (∀ r, e_event (f r) = e_event r) → calm s (on_record i f s2)).
  { intros s2 f H2 Hf. eapply calm_trans; [done|]. by apply calm_on_record. }
  assert (Hon : ∀ s2 f, calm s s2 → (∀ st, same_event st (f st)) → calm s (on_event i f s2)).
  { intros s2 f H2 Hf. eapply calm_trans; [done|]. by apply calm_on_event. }
  destruct (ev_capture ev) as [|period|interval|window_ticks keyed].
  - by apply Henq.
  - destruct wanted; [by apply Henq|]. split; [by apply Hrec|done].
  - destruct wanted; [apply Henq; [by apply Hon|done]|]. split; [by apply Hrec; [apply Hon|]|done].
  - destruct (if keyed then _ else _) as [k|]; [|by apply Hon].
    set (a := if _ && _ then _ else _). unfold accumulate.
    destruct (a_count a =? 0)%Z; [split; [by apply Hrec; [apply Hon|]|done]|].
    destruct (now e - a_window_start a <? window_ticks)%Z; [split; [by apply Hrec; [apply Hon|]|done]|].
    apply Henq; [by apply Hon|done].
Qed.
End Lanes.
