(* ===== verification/EventsOrder.v ===== *)
(** * EventsOrder: captured events are processed once and in order

    The books of the event facility: what each thread has queued, the record
    it has taken out of the rings, and the critical record it still has to
    put into its history.  Every section of the code keeps them. *)
From stdpp Require Import prelude functions sorting.
From S2P Require Import Prelude Status Interleave Events EventsRings.
Import TypedEvents.

Open Scope nat_scope.
Open Scope solar_scope.

(** ** The books of a thread *)
Inductive Phase : Type :=
  | Idle
  | Taken (r : StoredRecord)
  | Keeping (i : nat) (r : StoredRecord).
(** [budget] bounds the captures the thread may still make. *)
Record Books : Type := mkBooks { queued : list StoredRecord; phase : Phase; budget : nat }.

Section Order.
Context (events : list Event) (event_id : nat → Z).
Context (sole : bool) (d : nat).
Abbreviation n := (length events).
Abbreviation lanes := (lanes events).
Abbreviation pending := (pending events).
Abbreviation earlier := (λ a b, sequence a < sequence b)%Z.

Context (Hdistinct : ∀ i j, i < n → j < n → event_id i = event_id j → i = j).

Definition taken (g : Books) : list StoredRecord := match phase g with Taken r => [r] | _ => [] end.
Definition keeping (i : nat) (g : Books) : list StoredRecord :=
  match phase g with Keeping j r => if decide (j = i) then [r] else [] | _ => [] end.
Definition of_event (i : nat) (r : StoredRecord) : bool := (h_event (header r) =? event_id i)%Z.
Definition flight (i : nat) (g : Books) : list StoredRecord :=
  match phase g with
  | Idle => []
  | Taken r => if of_event i r then [r] else []
  | Keeping j r => if decide (j = i) then [r] else []
  end.

(** The lane of an event. *)
Definition in_lane (i : nat) (ev : Event) (k : nat) : Prop :=
  if critical (ev_retention ev) then k = S (S i) else k < 2.
Definition registered (r : StoredRecord) (i : nat) (ev : Event) : Prop :=
  events !! i = Some ev ∧ h_event (header r) = event_id i.

(** Nobody but the drainer has a record in its hands. *)
Definition alone_taking (gs : list Books) : Prop := ∀ t g, t ≠ d → gs !! t = Some g → taken g = [].
Lemma alone_taking_insert gs t g g' :
  gs !! t = Some g → alone_taking gs → (t ≠ d → taken g' = []) → alone_taking (<[t := g']> gs).
Proof.
  intros Hg Ha Hg' u gu Hu Hgu. destruct (decide (u = t)) as [->|Hne].
  - rewrite list_lookup_insert_eq in Hgu by (by eapply lookup_lt_Some). simplify_eq. auto.
  - rewrite list_lookup_insert_ne in Hgu by done. by eapply Ha.
Qed.
(** So what is in hand is what the drainer has. *)
Lemma alone_taking_gather gs g : gs !! d = Some g → alone_taking gs → gather taken gs = taken g.
Proof.
  intros Hg Ha. unfold gather, alone_taking in *. clear -Hg Ha. revert d Hg Ha.
  induction gs as [|x gs IH]; intros [|k] Hg Ha; simplify_eq/=.
  - assert (concat (map taken gs) = []) as ->; [|by rewrite app_nil_r].
    apply concat_nil_Forall, Forall_map, Forall_lookup_2. intros t y Hy. by apply (Ha (S t)).
  - rewrite (Ha 0 x) by done. simpl. apply (IH k); [done|]. intros t y Ht Hy. apply (Ha (S t)); [lia|done].
Qed.

(** The slots of a critical event, and what its history holds. *)
Record critical_books (gs : list Books) (s : Facility) (i : nat) (slots : nat) : Prop := {
  cb_room : slots ≤ length (records_ (critical_history (event_state s i)));
  cb_held : held s i ≤ slots;
  cb_flight : critical_inflight (event_state s i) = length (gather (flight i) gs);
  cb_history : List.filter (of_event i) (processed_ s)
               ≡ₚ ring_list (critical_history (event_state s i)) ++ gather (keeping i) gs }.

Record in_books (gs : list Books) (s : Facility) : Prop := {
  ib_rings : rings_wf events s;
  ib_attached : attached s = true;
  ib_ids : ids_own events s;
  ib_lane k l r : lanes s !! k = Some l → r ∈ l → ∃ i ev, registered r i ev ∧ in_lane i ev k;
  ib_taken r : r ∈ gather taken gs → ∃ i ev, registered r i ev;
  ib_sorted k l : lanes s !! k = Some l → StronglySorted earlier l;
  ib_next : (0 < next_sequence s)%Z
            ∧ (next_sequence s + Z.of_nat (sum_list_with budget gs) < 2 ^ 64 - 1)%Z;
  ib_pending r : r ∈ pending s → (0 < sequence r < next_sequence s)%Z;
  ib_past r : r ∈ processed_ s ++ gather taken gs →
    (0 < sequence r < next_sequence s)%Z ∧ ∀ q, q ∈ pending s → (sequence r < sequence q)%Z;
  ib_books : processed_ s ++ gather taken gs ++ pending s ≡ₚ gather queued gs;
  ib_distinct : NoDup (map sequence (gather queued gs));
  ib_order : sole = true → StronglySorted earlier (processed_ s ++ gather taken gs)
    ∧ alone_taking gs;
  ib_critical i ev : events !! i = Some ev → critical (ev_retention ev) = true →
    critical_books gs s i (reserved_slots (ev_retention ev)) }.

(** ** Changes that are not about records *)
Lemma in_books_frame gs s s' : in_books gs s → calm s s' → in_books gs s'.
Proof.
  intros [Hri Hat Hid Hla Hta Hso Hne Hpe Hpa Hbo Hdi Hor Hcr] Hc.
  pose proof (calm_lanes events _ _ Hc) as Hl. pose proof (calm_rings events _ _ Hc Hri).
  assert (Hp : pending s' = pending s) by (unfold EventsRings.pending; congruence).
  pose proof (λ i, calm_held _ _ i Hc) as Hh.
  destruct Hc as [_ _ Hn Ha Hpr Hev]. split; rewrite ?Hl, ?Hp, ?Hn, ?Hpr; try done; [congruence| |].
  - intros i Hi. destruct (Hev i) as (_ & _ & _ & ->). by apply Hid.
  - intros i ev Hi Hcrit. destruct (Hcr i ev Hi Hcrit) as [H1 H2 H3 H4]. specialize (Hh i).
    destruct (Hev i) as (E1 & E2 & E3 & E4). split; rewrite ?E2, ?E3, ?Hh, ?Hpr; done.
Qed.

(** A thread with fewer captures budget. *)
Lemma in_books_less gs s t g m :
  in_books gs s → gs !! t = Some g → m ≤ budget g →
  in_books (<[t := mkBooks (queued g) (phase g) m]> gs) s.
Proof.
  intros [Hri Hat Hid Hla Hta Hso Hne Hpe Hpa Hbo Hdi Hor Hcr] Hg Hm.
  set (g' := mkBooks _ _ _). set (gs' := <[t := g']> gs).
  assert (Hmap : ∀ {A} (f : Books → list A), f g' = f g → gather f gs' = gather f gs)
    by (intros A f Hf; by apply (gather_same f gs t g)).
  split; rewrite ?(Hmap _ taken), ?(Hmap _ queued) by done; try done.
  - pose proof (sum_insert budget gs t g g' Hg) as Hs. fold gs' in Hs. simpl in Hs. lia.
  - intros Hsole. destruct (Hor Hsole) as [Hs Ho]. split; [done|].
    apply (alone_taking_insert gs t g); [done..|]. intros Ht. by apply (Ho t g).
  - intros i ev Hi Hcrit. destruct (Hcr i ev Hi Hcrit) as [H1 H2 H3 H4].
    split; rewrite ?(Hmap _ (flight i)), ?(Hmap _ (keeping i)) by done; done.
Qed.

(** ** A captured record *)
Lemma lane_lookup s s' k l l' j :
  lanes s !! k = Some l → lanes s' = <[k := l']> (lanes s) →
  lanes s' !! j = if decide (j = k) then Some l' else lanes s !! j.
Proof.
  intros Hk ->. destruct (decide (j = k)) as [->|Hne].
  - apply list_lookup_insert_eq. by eapply lookup_lt_Some.
  - by apply list_lookup_insert_ne.
Qed.

Lemma ingress_size s i :
  rings_wf events s → i < n →
  ∃ l, lanes s !! S (S i) = Some l ∧ size_ (critical_ingress (event_state s i)) = length l.
Proof.
  intros Hr Hi. exists (critical_lane s i). split; [by apply lanes_critical|].
  symmetry. apply ring_list_length. by apply (rs_critical _ s Hr).
Qed.

Lemma held_put k r s s' i :
  rings_wf events s → put events k r s s' → i < n →
  held s' i = held s i + (if decide (S (S i) = k) then 1 else 0).
Proof.
  intros Hr [(l & Hk & Hl) Hr' _ _ _ _ He] Hi. unfold held. destruct (He i) as (-> & _ & ->).
  destruct (ingress_size s i Hr Hi) as (a & Ha & ->), (ingress_size s' i Hr' Hi) as (b & Hb & ->).
  rewrite (lane_lookup _ _ _ _ _ _ Hk Hl) in Hb. destruct (decide (S (S i) = k)) as [Heq|Hne]; simplify_eq.
  - rewrite length_app. simpl. lia.
  - lia.
Qed.

Lemma put_pending k r s s' : put events k r s s' → pending s' ≡ₚ pending s ++ [r].
Proof.
  intros [(l & Hk & Hl) _ _ _ _ _ _]. unfold EventsRings.pending. rewrite Hl.
  pose proof (concat_insert (lanes s) k l (l ++ [r]) Hk) as Hp.
  apply (Permutation_app_inv_r l). rewrite Hp. solve_Permutation.
Qed.

Lemma in_books_put gs s s' t g k r i ev m :
  in_books gs s → gs !! t = Some g → budget g = S m →
  put events k r s s' → own_lane i ev s k → registered r i ev →
  in_books (<[t := mkBooks (queued g ++ [r]) (phase g) m]> gs) s'.
Proof.
  intros Hbooks Hg Hleft Hput Hown Hreg. pose proof (put_pending _ _ _ _ Hput) as Hpend.
  pose proof (λ i, held_put k r s s' i (ib_rings _ _ Hbooks) Hput) as Hheld.
  destruct Hbooks as [Hri Hat Hid Hla Hta Hso Hne Hpe Hpa Hbo Hdi Hor Hcr].
  destruct Hput as [(l & Hk & Hl) Hr' Hseq Hnext Ha Hp He].
  set (g' := mkBooks _ _ _). set (gs' := <[t := g']> gs).
  assert (Hsum : sum_list_with budget gs' + 1 = sum_list_with budget gs).
  { pose proof (sum_insert budget gs t g g' Hg). fold gs' in H. simpl in H. lia. }
  assert (Hinc : next_sequence s' = (next_sequence s + 1)%Z).
  { rewrite Hnext. apply wrap_small. word_lia. }
  assert (Hqueued : gather queued gs' ≡ₚ gather queued gs ++ [r]).
  { apply (Permutation_app_inv_r (queued g)). unfold gs'. rewrite (gather_insert queued gs t g g' Hg).
    simpl. solve_Permutation. }
  assert (Hmap : ∀ {A} (f : Books → list A), f g' = f g → gather f gs' = gather f gs)
    by (intros A f Hf; by apply (gather_same f gs t g)).
  pose proof (λ j, lane_lookup s s' k l _ j Hk Hl) as Hlane.
  assert (Hl_pending : ∀ q, q ∈ l → q ∈ pending s).
  { intros q Hq. apply elem_of_concat. exists l. split; [by eapply list_elem_of_lookup_2|done]. }
  split; rewrite ?Hp, ?(Hmap _ taken) by done; try done.
  - congruence.
  - intros j Hj. destruct (He j) as (_ & -> & _). by apply Hid.
  - intros j a q Ha' Hq. rewrite Hlane in Ha'. destruct (decide (j = k)) as [->|]; [|by eapply Hla].
    simplify_eq. apply elem_of_app in Hq as [Hq|Hq%list_elem_of_singleton]; [by eapply Hla|]. subst q.
    exists i, ev. split; [done|]. unfold own_lane, in_lane in *. destruct (critical _); naive_solver.
  - intros j a Ha'. rewrite Hlane in Ha'. destruct (decide (j = k)) as [->|]; [|by eapply Hso].
    simplify_eq. apply StronglySorted_app_2; [|by eapply Hso|by repeat constructor].
    intros x y Hx ->%list_elem_of_singleton. rewrite Hseq. by apply Hpe, Hl_pending.
  - lia.
  - intros q Hq. rewrite Hpend in Hq. apply elem_of_app in Hq as [Hq%Hpe| ->%list_elem_of_singleton]; lia.
  - intros q Hq. destruct (Hpa q Hq) as [Hlt Hall]. split; [lia|]. intros x Hx. rewrite Hpend in Hx.
    apply elem_of_app in Hx as [Hx| ->%list_elem_of_singleton]; [by apply Hall|lia].
  - rewrite Hpend, Hqueued, <-Hbo. solve_Permutation.
  - rewrite Hqueued, map_app. apply list.NoDup_app. split; [done|]. split; [|apply list.NoDup_singleton].
    intros z Hz ->%list_elem_of_singleton. apply list_elem_of_fmap in Hz as (q & Hq & Hin).
    rewrite <-Hbo, app_assoc in Hin. apply elem_of_app in Hin as [Hin|Hin]; [apply Hpa in Hin|apply Hpe in Hin]; lia.
  - intros Hsole. destruct (Hor Hsole) as [Hs Ho]. split; [done|].
    apply (alone_taking_insert gs t g); [done..|]. intros Ht. by apply (Ho t g).
  - intros j evj Hj Hcrit. destruct (Hcr j evj Hj Hcrit) as [H1 H2 H3 H4].
    destruct (He j) as (E1 & _ & E3).
    split; rewrite ?E1, ?E3, ?Hp, ?(Hmap _ (flight j)), ?(Hmap _ (keeping j)) by done; try done.
    rewrite Hheld by (by eapply lookup_lt_Some). destruct (decide (S (S j) = k)) as [Hjk|]; [|lia].
    unfold own_lane in Hown. destruct Hreg as [Hi _].
    destruct (critical (ev_retention ev)); [|lia].
    destruct Hown as [-> Hlt]. assert (j = i) as -> by lia. rewrite Hi in Hj. simplify_eq. lia.
Qed.

(** ** A record taken by a processor *)
Lemma took_pending k r s s' : took events k r s s' → pending s ≡ₚ r :: pending s'.
Proof.
  intros [(l & Hk & Hl) _ _ _ _ _ _]. unfold EventsRings.pending. rewrite Hl.
  pose proof (concat_insert (lanes s) k (r :: l) l Hk) as Hp.
  apply (Permutation_app_inv_r l). rewrite <-Hp. solve_Permutation.
Qed.

Lemma held_took k r s s' i :
  rings_wf events s → took events k r s s' → i < n → held s' i = held s i.
Proof.
  intros Hr [(l & Hk & Hl) _ Hr' _ _ _ He] Hi. unfold held. destruct (He i) as (-> & _ & _ & ->).
  destruct (ingress_size s i Hr Hi) as (a & Ha & ->), (ingress_size s' i Hr' Hi) as (b & Hb & ->).
  rewrite (lane_lookup _ _ _ _ _ _ Hk Hl) in Hb.
  destruct (decide (S (S i) = k)) as [Heq|Hne], (decide (k = S (S i))); simplify_eq/=; lia.
Qed.

Lemma took_earliest gs k r s s' q :
  in_books gs s → took events k r s s' → q ∈ pending s' → (sequence r < sequence q)%Z.
Proof.
  intros Hb Ht Hq. pose proof (took_pending _ _ _ _ Ht) as Hp. destruct Ht as [_ Hold _ _ _ _ _].
  assert (Hin : q ∈ pending s) by (rewrite Hp; by apply elem_of_cons; right).
  assert (Hle : (sequence r ≤ sequence q)%Z).
  { apply elem_of_concat in Hin as (a & Ha & Hin). apply list_elem_of_lookup in Ha as [j Ha].
    pose proof (ib_sorted _ _ Hb j a Ha) as Hs. destruct a as [|x a]; [by apply not_elem_of_nil in Hin|].
    specialize (Hold j x a Ha). apply elem_of_cons in Hin as [->|Hin]; [done|].
    apply StronglySorted_inv in Hs as [_ Hs]. rewrite Forall_forall in Hs. specialize (Hs q Hin). simpl in Hs. lia. }
  assert (Hnd : NoDup (map sequence (r :: pending s'))).
  { pose proof (ib_distinct _ _ Hb) as Hnd. rewrite <-(ib_books _ _ Hb), Hp, app_assoc, map_app in Hnd.
    apply list.NoDup_app in Hnd. apply Hnd. }
  simpl in Hnd. apply list.NoDup_cons in Hnd as [Hnot _].
  assert (sequence r ≠ sequence q); [|lia]. intros Heq. apply Hnot. rewrite Heq. by apply list_elem_of_fmap_2.
Qed.

Lemma in_books_took gs s s' t g k r :
  in_books gs s → gs !! t = Some g → phase g = Idle → (sole = true → t = d) →
  took events k r s s' →
  in_books (<[t := mkBooks (queued g) (Taken r) (budget g)]> gs) s' ∧ ∃ i ev, registered r i ev.
Proof.
  intros Hbooks Hg Hidle Hsole Htook. pose proof (took_pending _ _ _ _ Htook) as Hpend.
  pose proof (λ q, took_earliest gs k r s s' q Hbooks Htook) as Hearliest.
  pose proof (λ i, held_took k r s s' i (ib_rings _ _ Hbooks) Htook) as Hheld.
  assert (Hr : r ∈ pending s) by (rewrite Hpend; by apply elem_of_cons; left).
  destruct Hbooks as [Hri Hat Hid Hla Hta Hso Hne Hpe Hpa Hbo Hdi Hor Hcr].
  destruct Htook as [(l & Hk & Hl) _ Hr' Hnext Ha Hp He].
  destruct (Hla k _ r Hk) as (i & ev & Hreg & Hin); [by apply elem_of_cons; left|].
  split; [|by exists i, ev].
  set (g' := mkBooks _ _ _). set (gs' := <[t := g']> gs).
  assert (Hsum : sum_list_with budget gs' = sum_list_with budget gs).
  { pose proof (sum_insert budget gs t g g' Hg) as Hs. fold gs' in Hs. simpl in Hs. lia. }
  assert (Hmap : ∀ {A} (f : Books → list A), f g' = f g → gather f gs' = gather f gs)
    by (intros A f Hf; by apply (gather_same f gs t g)).
  assert (Hnone : taken g = []) by (unfold taken; by rewrite Hidle).
  assert (Htaken : gather taken gs' ≡ₚ gather taken gs ++ [r]).
  { pose proof (gather_insert taken gs t g g' Hg) as Hi. by rewrite Hnone, app_nil_r in Hi. }
  pose proof (λ j, lane_lookup s s' k _ l j Hk Hl) as Hlane.
  assert (Hpend' : ∀ q, q ∈ pending s' → q ∈ pending s)
    by (intros q Hq; rewrite Hpend; by apply elem_of_cons; right).
  split; rewrite ?Hp, ?Hnext, ?Hsum, ?(Hmap _ queued) by done; try done.
  - congruence.
  - intros j Hj. destruct (He j) as (_ & -> & _). by apply Hid.
  - intros j a q Ha' Hq. rewrite Hlane in Ha'. destruct (decide (j = k)) as [->|]; [|by eapply Hla].
    simplify_eq. eapply Hla; [exact Hk|]. by apply elem_of_cons; right.
  - intros q Hq. rewrite Htaken in Hq. apply elem_of_app in Hq as [Hq| ->%list_elem_of_singleton]; [auto|].
    by exists i, ev.
  - intros j a Ha'. rewrite Hlane in Ha'. destruct (decide (j = k)) as [->|]; [|by eapply Hso].
    simplify_eq. apply Hso in Hk. by apply StronglySorted_inv in Hk as [? _].
  - auto.
  - intros q Hq. rewrite Htaken, app_assoc in Hq. apply elem_of_app in Hq as [Hq| ->%list_elem_of_singleton].
    + destruct (Hpa q Hq) as [? Hall]. split; [done|]. auto.
    + split; [by apply Hpe|done].
  - rewrite <-Hbo, Hpend, Htaken. solve_Permutation.
  - intros Hs. destruct (Hor Hs) as [Hsort Halone]. specialize (Hsole Hs). subst t.
    assert (Halone' : alone_taking gs') by by apply (alone_taking_insert gs d g).
    split; [|done]. rewrite (alone_taking_gather gs' g') by
      (done || apply list_lookup_insert_eq; by eapply lookup_lt_Some).
    rewrite (alone_taking_gather gs g), Hnone, app_nil_r in Hsort by done.
    apply StronglySorted_app_2; [|done|by repeat constructor].
    intros x y Hx ->%list_elem_of_singleton. destruct (Hpa x) as [_ Hall]; [by apply elem_of_app; left|].
    by apply Hall.
  - intros j evj Hj Hcrit. destruct (Hcr j evj Hj Hcrit) as [H1 H2 H3 H4].
    apply lookup_lt_Some in Hj as Hjn. destruct (He j) as (E1 & _ & _ & E3).
    assert (Hkeep : gather (keeping j) gs' = gather (keeping j) gs)
      by (apply Hmap; unfold keeping; by rewrite Hidle).
    split; rewrite ?E1, ?Hp, ?Hkeep, ?Hheld by done; try done.
    pose proof (gather_insert (flight j) gs t g g' Hg) as Hfl. apply Permutation_length in Hfl.
    rewrite !length_app in Hfl. unfold flight in Hfl at 2 4. rewrite Hidle in Hfl. simpl in Hfl. fold gs' in Hfl.
    assert (Hof : of_event j r = bool_decide (k = S (S j))).
    { destruct Hreg as [Hi Hidr]. apply lookup_lt_Some in Hi as Hin'.
      unfold of_event. rewrite Hidr. unfold in_lane in Hin.
      case_bool_decide as Hkj.
      - destruct (critical (ev_retention ev)); [|lia]. assert (i = j) as -> by lia. apply Z.eqb_refl.
      - apply Z.eqb_neq. intros Heq%Hdistinct; [|done..]. subst j. simplify_eq. by rewrite Hcrit in Hin. }
    rewrite E3, Hof in *. case_bool_decide as Hkj; simpl in Hfl;
      destruct (decide (k = S (S j))); try done; lia.
Qed.

(** ** A record given to the event it belongs to *)
Lemma of_event_registered r i ev j evj :
  registered r i ev → events !! j = Some evj → of_event j r = bool_decide (i = j).
Proof.
  intros [Hi Hid] Hj. apply lookup_lt_Some in Hi, Hj. unfold of_event. rewrite Hid.
  case_bool_decide as Heq; [subst; apply Z.eqb_refl|]. apply Z.eqb_neq. intros ?%Hdistinct; done.
Qed.

Lemma in_books_process gs s t g r i ev :
  in_books gs s → gs !! t = Some g → phase g = Taken r → registered r i ev →
  in_books (<[t := mkBooks (queued g) (if critical (ev_retention ev) then Keeping i r else Idle) (budget g)]> gs)
    (s <| processed_ ::= λ l, l ++ [r] |>).
Proof.
  intros [Hri Hat Hid Hla Hta Hso Hne Hpe Hpa Hbo Hdi Hor Hcr] Hg Hphase Hreg.
  set (g' := mkBooks _ _ _). set (gs' := <[t := g']> gs). set (s' := s <| processed_ ::= _ |>).
  assert (Hsum : sum_list_with budget gs' = sum_list_with budget gs).
  { pose proof (sum_insert budget gs t g g' Hg) as Hs. fold gs' in Hs. simpl in Hs. lia. }
  assert (Hmap : ∀ {A} (f : Books → list A), f g' = f g → gather f gs' = gather f gs)
    by (intros A f Hf; by apply (gather_same f gs t g)).
  assert (Hg1 : taken g = [r]) by (unfold taken; by rewrite Hphase).
  assert (Hg2 : taken g' = []) by (unfold taken, g'; simpl; by destruct (critical _)).
  assert (Htaken : gather taken gs ≡ₚ r :: gather taken gs').
  { pose proof (gather_insert taken gs t g g' Hg) as Hi. rewrite Hg1, Hg2, app_nil_r in Hi.
    rewrite <-Hi. fold gs'. by rewrite Permutation_app_comm. }
  change (pending s') with (pending s). 
  split; rewrite ?Hsum, ?(Hmap _ queued) by done; try done.
  - by split; try apply Hri.
  - intros q Hq. apply Hta. rewrite Htaken. by apply elem_of_cons; right.
  - intros q Hq. apply Hpa. rewrite Htaken. change (processed_ s') with (processed_ s ++ [r]) in Hq.
    by rewrite <-app_assoc in Hq.
  - rewrite <-Hbo, Htaken. change (processed_ s') with (processed_ s ++ [r]).
    change (pending s') with (pending s). solve_Permutation.
  - intros Hs. destruct (Hor Hs) as [Hsort Halone].
    assert (t = d) as ->. { destruct (decide (t = d)); [done|]. by rewrite (Halone t g) in Hg1. }
    assert (Halone' : alone_taking gs') by by apply (alone_taking_insert gs d g).
    split; [|done]. rewrite (alone_taking_gather gs' g'), Hg2, app_nil_r by
      (done || apply list_lookup_insert_eq; by eapply lookup_lt_Some).
    by rewrite (alone_taking_gather gs g), Hg1 in Hsort by done.
  - intros j evj Hj Hcrit. destruct (Hcr j evj Hj Hcrit) as [H1 H2 H3 H4].
    pose proof (of_event_registered r i ev j evj Hreg Hj) as Hof. destruct Hreg as [Hi _].
    assert (Hown : i = j → critical (ev_retention ev) = true) by (intros ->; congruence).
    assert (Hflight : flight j g' = flight j g).
    { unfold flight, g'. simpl. rewrite Hphase, Hof. case_bool_decide as Heq.
      - by rewrite Hown, decide_True.
      - destruct (critical _); [by rewrite decide_False|done]. }
    split; rewrite ?(Hmap _ _ Hflight); try done. change (processed_ s') with (processed_ s ++ [r]).
    rewrite List.filter_app, H4. simpl. rewrite Hof.
    assert (Hk : gather (keeping j) gs' ≡ₚ gather (keeping j) gs ++ (if bool_decide (i = j) then [r] else [])).
    { pose proof (gather_insert (keeping j) gs t g g' Hg) as Hk. unfold keeping in Hk at 2 4.
      rewrite Hphase, app_nil_r in Hk. unfold gs'. rewrite Hk. f_equiv. unfold g'. simpl.
      case_bool_decide as Heq; [by rewrite Hown, decide_True|].
      destruct (critical _); [by rewrite decide_False|done]. }
    rewrite Hk. change (event_state s' j) with (event_state s j). case_bool_decide; solve_Permutation.
Qed.

(** ** A critical record put into its history *)
Lemma in_books_retain gs s t g r i ev :
  in_books gs s → gs !! t = Some g → phase g = Keeping i r → registered r i ev →
  critical (ev_retention ev) = true →
  let '(answer, s') := retain_critical i r s in
  answer = Ok tt ∧ in_books (<[t := mkBooks (queued g) Idle (budget g)]> gs) s'.
Proof.
  intros Hbooks Hg Hphase Hreg Hcrit. unfold retain_critical.
  pose proof Hreg as [Hi _]. apply lookup_lt_Some in Hi as Hin.
  destruct Hbooks as [Hri Hat Hid Hla Hta Hso Hne Hpe Hpa Hbo Hdi Hor Hcr].
  destruct (Hcr i ev Hi Hcrit) as [H1 H2 H3 H4].
  assert (Hflight : flight i g = [r]) by (unfold flight; by rewrite Hphase, decide_True).
  assert (Hin_flight : 0 < critical_inflight (event_state s i)).
  { rewrite H3. set (g' := mkBooks [] Idle 0).
    pose proof (gather_insert (flight i) gs t g g' Hg) as Hl. apply Permutation_length in Hl.
    rewrite !length_app, Hflight in Hl. simpl in Hl. lia. }
  pose proof (push_spec r _ (rs_history _ s Hri i Hin)) as Hpush.
  destruct (push r (critical_history (event_state s i))) as [ring|] eqn:Hp; [|unfold held in H2; lia].
  destruct Hpush as (Hw & Hlist & Hcap & Hlt). split; [done|].
  set (f := λ st : EventState, _). set (s1 := on_event i f s).
  apply (in_books_frame _ s1); [|by apply calm_on_record].
  set (g' := mkBooks _ _ _). set (gs' := <[t := g']> gs).
  assert (Hsum : sum_list_with budget gs' = sum_list_with budget gs).
  { pose proof (sum_insert budget gs t g g' Hg) as Hs. fold gs' in Hs. simpl in Hs. lia. }
  assert (Hmap : ∀ {A} (f : Books → list A), f g' = f g → gather f gs' = gather f gs)
    by (intros A h Hf; by apply (gather_same h gs t g)).
  assert (Hlanes : lanes s1 = lanes s).
  { unfold s1. rewrite lanes_on_event by done. apply list_insert_id. by rewrite lanes_critical. }
  assert (Hpend : pending s1 = pending s) by (unfold EventsRings.pending; congruence).
  assert (Htaken : taken g' = taken g) by (unfold taken; by rewrite Hphase).
  split; rewrite ?Hlanes, ?Hpend, ?Hsum, ?(Hmap _ queued), ?(Hmap _ taken) by done; try done.
  - apply rings_wf_on; [done|]. intros _. split; [by apply (rs_critical _ s Hri)|done].
  - intros j Hj. simpl. destruct (decide (j = i)) as [->|Hne'].
    + rewrite fn_lookup_insert. by apply Hid.
    + rewrite fn_lookup_insert_ne by done. by apply Hid.
  - intros Hs. destruct (Hor Hs) as [Hsort Halone]. split; [done|].
    apply (alone_taking_insert gs t g); [done..|]. intros Ht. rewrite Htaken. by apply (Halone t g).
  - intros j evj Hj Hcritj. destruct (Hcr j evj Hj Hcritj) as [J1 J2 J3 J4].
    destruct (decide (j = i)) as [->|Hne'].
    + assert (evj = ev) as -> by congruence.
      assert (Hself : event_state s1 i = f (event_state s i)) by apply fn_lookup_insert.
      assert (Hless : ∀ h : Books → list StoredRecord, h g = [r] → h g' = [] →
        gather h gs ≡ₚ r :: gather h gs').
      { intros h E1 E2. pose proof (gather_insert h gs t g g' Hg) as Hl. rewrite E1, E2, app_nil_r in Hl.
        rewrite <-Hl. fold gs'. by rewrite Permutation_app_comm. }
      pose proof (Hless (flight i) Hflight eq_refl) as Hfl. apply Permutation_length in Hfl.
      assert (Hkp : gather (keeping i) gs ≡ₚ r :: gather (keeping i) gs').
      { apply Hless; [|done]. unfold keeping. by rewrite Hphase, decide_True. }
      pose proof (ring_list_length ring Hw) as Hr1.
      pose proof (ring_list_length _ (rs_history _ s Hri i Hin)) as Hr2.
      rewrite Hlist, length_app in Hr1. simpl in Hr1.
      split; unfold held in *; rewrite ?Hself; unfold f; simpl; rewrite ?Hcap; try done; try lia.
      * rewrite Hfl in J3. simpl in J3. lia.
      * rewrite J4, Hlist, Hkp. solve_Permutation.
    + assert (Hother : event_state s1 j = event_state s j) by by apply fn_lookup_insert_ne.
      assert (Hsame : ∀ h : Books → list StoredRecord, h g = [] → h g' = [] → gather h gs' = gather h gs)
        by (intros h E1 E2; apply Hmap; congruence).
      split; unfold held in *; rewrite ?Hother, ?(Hsame (flight j)), ?(Hsame (keeping j)); try done;
        unfold flight, keeping; rewrite Hphase; by rewrite decide_False.
Qed.

(** ** The programs *)
Context `{ObjectBytes} (max_payload : nat) (processors : list nat).
Abbreviation safe := (Interleave.safe in_books (λ _, True)).

(** A step the books do not notice. *)
Lemma safe_calm_step {A B} t Q g (f : Env → Facility → B * Facility) (k : B → Prog Env Facility A) :
  (∀ e s, calm s (f e s).2) → (∀ b, safe t Q g (k b)) → safe t Q g (Then f k).
Proof.
  intros Hf Hk e s gs _ Hg HI. exists g. rewrite list_insert_id by done.
  split; [by eapply in_books_frame|done].
Qed.
Lemma safe_calm_program {A B} t Q g (p : Prog Env Facility A) (k : A → Prog Env Facility B) :
  frames calm p → (∀ a, safe t Q g (k a)) → safe t Q g (bind p k).
Proof. apply safe_frames_bind. apply in_books_frame. Qed.

Ltac calm_steps :=
  repeat lazymatch goal with
    | |- frames _ (Then _ _) => split; [intros ? ?; try by split|intros ?]
    | |- frames _ (bind _ _) => apply frames_bind; [|intros ?]
    | |- frames _ (Done _) => exact I
    | |- frames _ Stalled => exact I
    | |- frames _ (match _ with _ => _ end) => case_match
    | |- _ => assumption
    end.

Lemma frames_request : frames calm request_processing.
Proof. unfold request_processing. calm_steps. Qed.

Lemma calm_offer k s : calm s (offer k s).
Proof. by split. Qed.
Lemma calm_observed i k answer s : calm s (observed i k answer s).
Proof.
  unfold observed. destruct answer; [|by split].
  eapply calm_trans; [|by apply calm_on_record]. by split.
Qed.
Lemma frames_processors i r ks first : frames calm (run_processors i r ks first).
Proof.
  revert first. induction ks as [|k ks IH]; intros first; cbn [run_processors]; [exact I|].
  split; [intros e s; apply calm_offer|]. intros _. split; [by split|]. intros answer.
  split; [intros e s; apply calm_observed|]. intros _. apply IH.
Qed.

Lemma calm_conclude i ev r first s : calm s (conclude i ev r first s).
Proof.
  unfold conclude. set (s2 := match ev_resolves ev with Some _ => _ | None => _ end).
  apply (calm_trans _ s2); [|by split]. unfold s2.
  assert (calm s (raise_condition i (header r) s)) as Hraise.
  { apply calm_on_event. destruct (find_condition _ _ _ _); [|by repeat split]. by case_match. }
  destruct (ev_resolves ev); [|done]. eapply calm_trans; [exact Hraise|].
  apply calm_on_event. unfold same_event, resolve_conditions. simpl. by destruct (existsb _ _).
Qed.

Lemma frames_retain i ev r :
  critical (ev_retention ev) = false → frames calm (retain_record i ev r).
Proof.
  intros Hc. unfold retain_record. destruct (ev_retention ev); simpl in Hc; [exact I| |done|].
  - split; [|intros [a|]; exact I]. intros e s. unfold locked, retain_buffered.
    destruct (append (history s) r) as [[a h]|]; [|apply calm_refl].
    destruct (ap_stored a); simpl.
    + apply (calm_trans _ (s <| history := h |>)); [by split|].
      match goal with |- calm _ (?s2 <| facility_record ::= _ |>) => apply (calm_trans _ s2) end; [|by split].
      by apply calm_on_record.
    + eapply calm_trans; [|by apply calm_on_record]. by split.
  - split; [by split|]. intros [a|]; [exact I|]. split; [|intros _; exact I].
    intros e s. by apply calm_on_record.
Qed.

(** The sequence number of the record a capture has made. *)
Definition receipt_sequence (a : result Error Receipt) : list Z :=
  match a with Ok rc => if materialized rc then [rc_sequence rc] else [] | Err _ => [] end.

Definition capture_done (g : Books) (g' : Books) (a : result Error Receipt) : Prop :=
  phase g' = Idle ∧ budget g ≤ S (budget g')
  ∧ map sequence (queued g') = map sequence (queued g) ++ receipt_sequence a.

Lemma safe_capture t g i ev op bytes source correlation log :
  events !! i = Some ev → phase g = Idle → 0 < budget g →
  safe t (capture_done g) g
    (capture_event max_payload events event_id i ev op bytes source correlation log).
Proof.
  intros Hi Hidle Hbudget. unfold capture_event.
  assert (Hrefuse : ∀ err, capture_done g g (Err err)).
  { intros err. split; [done|]. split; [lia|]. simpl. by rewrite app_nil_r. }
  apply safe_calm_step; [by split|]. intros inside. case_match; [apply Hrefuse|].
  apply safe_calm_step; [by split|]. intros up. case_match; [apply Hrefuse|].
  apply safe_calm_step; [by split|]. intros taking. case_match; [apply Hrefuse|].
  intros e s gs _ Hg HI. unfold locked.
  destruct (negb (bool_decide (op = Observe)) && contended e).
  { exists g. rewrite list_insert_id by done. split; [done|apply Hrefuse]. }
  pose proof (capture_locked_spec max_payload events event_id i ev (bool_decide (op = ObserveIsr)) op
    bytes source correlation log e s Hi (ib_rings _ _ HI)) as Hspec.
  destruct (capture_locked _ _ _ _ _ _ _ _ _ _ _ _ _) as [o s'].
  destruct o as [[rc|err]|rc|]; simpl in Hspec.
  - destruct Hspec as [Hc Hm]. exists g. rewrite list_insert_id by done.
    split; [by eapply in_books_frame|]. split; [done|]. split; [lia|]. simpl. by rewrite Hm, app_nil_r.
  - exists g. rewrite list_insert_id by done. split; [by eapply in_books_frame|apply Hrefuse].
  - destruct Hspec as (k & r & Hput & Hown & Hev & Hseq & Hm).
    destruct (budget g) as [|m] eqn:Hb; [lia|].
    exists (mkBooks (queued g ++ [r]) (phase g) m). split; [by eapply in_books_put|].
    apply safe_calm_program; [apply frames_request|]. intros _. split; [done|]. simpl. split; [lia|].
    by rewrite map_app, Hm, Hseq.
  - exists g. rewrite list_insert_id by done. by split; [eapply in_books_frame|].
Qed.

(** ** Processing *)
Abbreviation idle_again g := (mkBooks (queued g) Idle (budget g)).

Lemma idle_again_same g : phase g = Idle → g = idle_again g.
Proof. destruct g as [q p b]. simpl. by intros ->. Qed.

Definition awaiting (g : Books) (r : StoredRecord) (i : nat) (ev : Event) : Prop :=
  phase g = if critical (ev_retention ev) then Keeping i r else Idle.

Lemma safe_process_record_for t g r i ev :
  registered r i ev → awaiting g r i ev →
  safe t (λ g' _, g' = idle_again g) g (process_record_for processors i ev r).
Proof.
  intros Hreg Hphase. unfold process_record_for. unfold awaiting in Hphase.
  assert (Hafter : ∀ (a : result Status unit) g1, g1 = idle_again g → safe t (λ g' _, g' = idle_again g) g1
    (first_error ⇇ run_processors i r (processors_of processors i) (match a with Ok _ => SOk | Err st => st end);
     _ ← change (conclude i ev r first_error);
     Done (if bool_decide (first_error = SOk) then Ok tt else Err first_error))%prog).
  { intros a g1 ->. apply safe_calm_program; [apply frames_processors|]. intros first.
    apply safe_calm_step; [intros e s; apply calm_conclude|]. done. }
  destruct (critical (ev_retention ev)) eqn:Hcrit.
  - unfold retain_record. destruct (ev_retention ev) eqn:Hret; try done.
    intros e s gs _ Hg HI. unfold locked.
    pose proof (in_books_retain gs s t g r i ev HI Hg Hphase Hreg) as Hkept. rewrite Hret in Hkept.
    specialize (Hkept eq_refl). destruct (retain_critical i r s) as [answer s']. destruct Hkept as [-> HI'].
    exists (idle_again g). split; [done|]. by apply (Hafter (Ok tt)).
  - apply safe_calm_program; [by apply frames_retain|]. intros a.
    by apply Hafter, idle_again_same.
Qed.

Lemma safe_process_events t g r i ev indexed answer :
  registered r i ev → NoDup indexed.*1 → (∀ j evj, (j, evj) ∈ indexed → events !! j = Some evj) →
  (awaiting g r i ev ∧ (i, ev) ∈ indexed) ∨ (phase g = Idle ∧ i ∉ indexed.*1) →
  safe t (λ g' _, g' = idle_again g) g (process_events processors event_id indexed r answer).
Proof.
  intros Hreg. revert g answer. induction indexed as [|[j evj] indexed IH]; intros g answer Hnd Hall Hcase.
  { destruct Hcase as [[_ Hin]|[Hidle _]]; [by apply not_elem_of_nil in Hin|]. by apply idle_again_same. }
  apply list.NoDup_cons in Hnd as [Hj Hnd]. simpl in Hj.
  assert (Hjev : events !! j = Some evj) by (apply Hall; by apply elem_of_cons; left).
  assert (Hall' : ∀ k evk, (k, evk) ∈ indexed → events !! k = Some evk)
    by (intros k evk Hk; apply Hall; by apply elem_of_cons; right).
  cbn [process_events]. pose proof (of_event_registered r i ev j evj Hreg Hjev) as Hof. unfold of_event in Hof.
  rewrite Hof. case_bool_decide as Heq.
  - subst j. destruct Hcase as [[Hphase _]|[_ Hin]]; [|exfalso; apply Hin; by apply elem_of_cons; left].
    assert (evj = ev) as -> by (destruct Hreg; congruence).
    apply safe_bind. eapply safe_mono; [|by apply safe_process_record_for].
    intros g' a ->. apply (IH (idle_again g)); [done|done|by right].
  - apply IH; [done..|]. destruct Hcase as [[Hphase Hin]|[Hidle Hin]].
    + left. split; [done|]. apply elem_of_cons in Hin as [Hin|]; [congruence|done].
    + right. split; [done|]. intros Hk. apply Hin. by apply elem_of_cons; right.
Qed.

Lemma indexed_spec : NoDup (imap pair events).*1
  ∧ ∀ j evj, (j, evj) ∈ imap pair events ↔ events !! j = Some evj.
Proof.
  assert (Hfst : (imap pair events).*1 = seq 0 n).
  { apply list_eq. intros j. rewrite list_lookup_fmap, list_lookup_imap.
    destruct (events !! j) eqn:Hj; simpl.
    - apply lookup_lt_Some in Hj. by rewrite lookup_seq_lt.
    - apply lookup_ge_None_1 in Hj. by rewrite lookup_seq_ge. }
  split; [rewrite Hfst; apply NoDup_seq|].
  intros j evj. rewrite list_elem_of_lookup. setoid_rewrite list_lookup_imap. split.
  - intros [k Hk]. apply fmap_Some in Hk as (x & Hx & [= -> ->]). done.
  - intros Hj. exists j. by rewrite Hj.
Qed.

Lemma safe_process_record t g r i ev :
  registered r i ev → phase g = Taken r →
  safe t (λ g' _, g' = idle_again g) g (process_record events processors event_id r).
Proof.
  intros Hreg Hphase. unfold process_record. intros e s gs _ Hg HI. exists g. rewrite list_insert_id by done.
  simpl. split; [done|]. rewrite (ib_attached _ _ HI). simpl.
  intros e' s2 gs2 _ Hg2 HI2. eexists. split; [by eapply in_books_process|].
  destruct indexed_spec as [Hnd Hall]. unfold process_one.
  eapply safe_mono; [|eapply safe_process_events; [exact Hreg|exact Hnd|by apply Hall|]].
  - intros g' a ->. done.
  - left. split; [done|]. apply Hall, Hreg.
Qed.

Lemma safe_drain_loop t g fuel deadline first :
  phase g = Idle → (sole = true → t = d) →
  safe t (λ g' _, g' = g) g (drain_loop events processors event_id fuel deadline first).
Proof.
  intros Hidle Hsole. revert first. induction fuel as [|fuel IH]; intros first; [exact I|].
  cbn [drain_loop]. intros e s gs _ Hg HI. unfold locked.
  destruct (ingress_empty events s).
  { exists g. by rewrite list_insert_id. }
  destruct (deadline && expired e).
  { exists g. by rewrite list_insert_id. }
  pose proof (pop_next_spec events s (ib_rings _ _ HI) (ib_ids _ _ HI)) as Hpop.
  destruct (pop_next events s) as [[r|] s'].
  - destruct Hpop as [k Htook].
    { intros r' Hr'. pose proof (ib_pending _ _ HI r' Hr'). pose proof (ib_next _ _ HI). lia. }
    destruct (in_books_took gs s s' t g k r HI Hg Hidle Hsole Htook) as [HI' (i & ev & Hreg)].
    eexists. split; [exact HI'|]. cbn [fst].
    apply safe_bind. eapply safe_mono; [|by eapply safe_process_record].
    intros g' a ->. simpl. rewrite <-idle_again_same by done. apply IH.
  - exists g. rewrite list_insert_id by done. split; [|done]. eapply in_books_frame; [exact HI|].
    apply Hpop. intros r' Hr'. pose proof (ib_pending _ _ HI r' Hr'). pose proof (ib_next _ _ HI). lia.
Qed.
Lemma safe_drain t g fuel deadline :
  phase g = Idle → (sole = true → t = d) →
  safe t (λ g' _, g' = g) g (drain_processor events processors event_id fuel deadline).
Proof.
  intros Hidle Hsole. unfold drain_processor. apply safe_calm_step; [by split|]. intros _.
  by apply safe_drain_loop.
Qed.
End Order.
