(* ===== verification/EventsProps.v ===== *)
(** * EventsProps: threads that capture events while others process them

    The promise of the event facility, from its initialisation on, whatever
    the interleaving of captures and processors. *)
From stdpp Require Import prelude functions sorting.
From S2P Require Import Prelude Status Interleave Events EventsHistory EventsRings EventsOrder.
Import TypedEvents.

Open Scope nat_scope.
Open Scope solar_scope.
Open Scope prog_scope.

(** ** Threads *)
Inductive EventCall : Type :=
  | CallCapture (i : nat) (op : Operation) (bytes : list Z) (source : SourceId) (correlation : Z) (log : LogIntent)
  | CallProcess (deadline : bool).
Inductive EventAnswer : Type :=
  | AnsCapture (r : result Error Receipt)
  | AnsProcess (r : result Status unit).

Definition captures (calls : list EventCall) : nat :=
  sum_list_with (λ c, match c with CallCapture _ _ _ _ _ _ => 1 | CallProcess _ => 0 end) calls.
(** The sequence numbers in the receipts of the records made. *)
Definition receipts (answers : list EventAnswer) : list Z :=
  concat (map (λ a, match a with AnsCapture r => receipt_sequence r | AnsProcess _ => [] end) answers).

Section Threads.
Context `{ObjectBytes} (max_payload : nat) (events : list Event) (processors : list nat).
Context (event_id : nat → Z).

Definition event_call (fuel : nat) (c : EventCall) : Prog Env Facility EventAnswer :=
  match c with
  | CallCapture i op bytes source correlation log =>
    match events !! i with
    | Some ev => r ⇇ capture_event max_payload events event_id i ev op bytes source correlation log;
                 Done (AnsCapture r)
    | None => Stalled
    end
  | CallProcess deadline =>
    r ⇇ drain_processor events processors event_id fuel deadline; Done (AnsProcess r)
  end.
Fixpoint event_thread (fuel : nat) (calls : list EventCall) : Prog Env Facility (list EventAnswer) :=
  match calls with
  | [] => Done []
  | c :: calls => a ⇇ event_call fuel c; l ⇇ event_thread fuel calls; Done (a :: l)
  end.

(** The facility as the lifecycle engine brings it up: initialised, started,
    and activated when every component has started. *)
Definition bring_up (capacity : Z) (stores : nat) : Prog Env Facility (result Status unit) :=
  r ⇇ init max_payload events processors capacity stores;
  match r with
  | Err st => Done (Err st)
  | Ok _ =>
    r ⇇ start events;
    match r with
    | Err st => Done (Err st)
    | Ok _ => _ ⇇ activate_runtime; Done (Ok tt)
    end
  end.

(** The arrays of an event have the size its policy reserves. *)
Definition shaped (s : Facility) : Prop :=
  ∀ i ev, events !! i = Some ev → critical (ev_retention ev) = true →
    length (records_ (critical_history (event_state s i))) = reserved_slots (ev_retention ev).

Section Run.
Context (sole : bool) (d : nat).
Context (Hdistinct : ∀ i j, i < length events → j < length events → event_id i = event_id j → i = j).
Abbreviation in_books := (in_books events event_id sole d).
Abbreviation safe := (Interleave.safe in_books (λ _, True)).

Lemma safe_event_thread t fuel calls g :
  phase g = Idle → captures calls ≤ budget g →
  (sole = true → t ≠ d → ∀ deadline, CallProcess deadline ∉ calls) →
  safe t (λ g' answers, phase g' = Idle
            ∧ map sequence (queued g') = map sequence (queued g) ++ receipts answers) g
    (event_thread fuel calls).
Proof.
  revert g. induction calls as [|c calls IH]; intros g Hidle Hbudget Hsole.
  { split; [done|]. by rewrite app_nil_r. }
  assert (Hrest : ∀ g1 a, phase g1 = Idle → captures calls ≤ budget g1 →
    map sequence (queued g1) = map sequence (queued g) ++ receipts [a] →
    safe t (λ g' answers, phase g' = Idle
            ∧ map sequence (queued g') = map sequence (queued g) ++ receipts answers) g1
      (l ⇇ event_thread fuel calls; Done (a :: l))).
  { intros g1 a Hidle1 Hb1 Hq1. apply safe_bind. eapply safe_mono; [|apply IH; [done|done|]].
    - intros g' answers [Hi Hq]. split; [done|]. rewrite Hq, Hq1. unfold receipts. simpl.
      by rewrite app_nil_r, app_assoc.
    - intros Hs Ht dl Hin. apply (Hsole Hs Ht dl). by apply elem_of_cons; right. }
  cbn [event_thread]. apply safe_bind. destruct c as [i op bytes source correlation log|deadline]; cbn [event_call].
  - destruct (events !! i) as [ev|] eqn:Hi; [|exact I]. apply safe_bind. simpl in Hbudget.
    eapply safe_mono; [|apply safe_capture; [done|done|lia]].
    intros g1 r (Hi1 & Hb1 & Hq1). apply Hrest; [done|lia|]. unfold receipts. simpl. by rewrite app_nil_r.
  - apply safe_bind. eapply safe_mono; [|apply safe_drain; [done|done|]].
    + intros g1 r ->. apply Hrest; [done..|]. by rewrite app_nil_r.
    + intros Hs. destruct (decide (t = d)); [done|]. exfalso. apply (Hsole Hs n deadline).
      by apply elem_of_cons; left.
Qed.

(** ** A facility just brought up *)
Lemma alone_stores e m s r s' :
  alone e (initialize_stores m) s = Some (r, s') → s' = s.
Proof.
  induction m as [|m IH]; simpl; [by intros [= _ <-]|].
  destruct (store e); [by intros [= _ <-]|]. done.
Qed.

Lemma foldl_fresh (g : nat → EventState) m k i :
  foldl (λ g i, <[i := fresh_event max_payload i (g i)]> g) g (seq k m) i
  = if decide (k ≤ i < k + m) then fresh_event max_payload i (g i) else g i.
Proof.
  revert k g. induction m as [|m IH]; intros k g; simpl; [by rewrite decide_False by lia|].
  rewrite IH. destruct (decide (i = k)) as [->|Hne].
  - rewrite decide_False by lia. rewrite decide_True by lia. by rewrite fn_lookup_insert.
  - rewrite fn_lookup_insert_ne by done.
    destruct (decide (S k ≤ i < S k + m)), (decide (k ≤ i < k + S m)); done || lia.
Qed.

Record fresh (s : Facility) : Prop := {
  fr_thread : size_ (thread_ingress s) = 0 ∧ ring_wf (thread_ingress s);
  fr_isr : size_ (isr_ingress s) = 0 ∧ ring_wf (isr_ingress s);
  fr_next : next_sequence s = 1%Z;
  fr_processed : processed_ s = [];
  fr_event i : i < length events → ∃ st, event_state s i = fresh_event max_payload i st
    ∧ ∀ ev, events !! i = Some ev → critical (ev_retention ev) = true →
        length (records_ (critical_history st)) = reserved_slots (ev_retention ev) }.

Lemma ring_new_wf r : ring_wf (ring_new max_payload r) ∧ ring_list (ring_new max_payload r) = [].
Proof. split; [|done]. split; simpl; [lia| |]; by rewrite ?Nat.Div0.mod_0_l. Qed.
Lemma fresh_rings s : fresh s → rings_wf events s.
Proof.
  intros [[_ Ht] [_ Hi] _ _ Hev]. split; [done|done| |]; intros i Hi';
    destruct (Hev i Hi') as (st & -> & _); apply ring_new_wf.
Qed.
Lemma fresh_lanes s k l : fresh s → lanes events s !! k = Some l → l = [].
Proof.
  intros [[Ht _] [Hi _] _ _ Hev] Hl. destruct k as [|[|k]]; simpl in Hl.
  - simplify_eq. unfold ring_list. by rewrite Ht.
  - simplify_eq. unfold ring_list. by rewrite Hi.
  - rewrite list_lookup_fmap in Hl. apply fmap_Some in Hl as (j & [-> Hj]%lookup_seq & ->).
    unfold critical_lane. simpl. by destruct (Hev k Hj) as (st & -> & _).
Qed.
Lemma fresh_pending s : fresh s → pending events s = [].
Proof.
  intros Hf. apply concat_nil_Forall, Forall_lookup_2. intros k l. by apply fresh_lanes.
Qed.

Lemma init_fresh capacity s :
  shaped s → processed_ s = [] → fresh (init_locked max_payload events processors capacity s).
Proof.
  intros Hshape Hproc. split; try done.
  - split; [done|]. apply ring_clear_wf.
  - split; [done|]. apply ring_clear_wf.
  - intros i Hi. exists (event_state s i). split; [|intros ev Hev; by apply Hshape].
    simpl. rewrite foldl_fresh. by rewrite decide_True by lia.
Qed.
(** Changes of flags and of the facility's record. *)
Lemma fresh_flags s s' :
  fresh s → thread_ingress s' = thread_ingress s → isr_ingress s' = isr_ingress s →
  next_sequence s' = next_sequence s → processed_ s' = processed_ s → event_state s' = event_state s →
  fresh s'.
Proof. intros [] Ht Hi Hn Hp He. split; rewrite ?Ht, ?Hi, ?Hn, ?Hp, ?He; done. Qed.

Definition raised (s : Facility) : Facility :=
  s <| ready := true |> <| accepting := true |> <| processor_pending := false |>.
Lemma fresh_raised s : fresh s → fresh (raised s).
Proof. intros Hf. by apply (fresh_flags s). Qed.
Lemma alone_init e capacity stores s :
  alone e (init max_payload events processors capacity stores) s
  = alone e (initialize_stores stores) (raised (init_locked max_payload events processors capacity s)).
Proof. done. Qed.

Definition started (s : Facility) : Facility :=
  s <| accepting := true |>
    <| facility_record ::= λ r, r <| f_accepting := true |> <| f_last_status := SOk |> |>.
Lemma fresh_started s : fresh s → fresh (started s).
Proof. intros Hf. by apply (fresh_flags s). Qed.
Lemma alone_start e s : fresh s → alone e (start events) s = Some (Ok tt, started s).
Proof.
  intros Hf. unfold start. cbn [alone]. unfold change, locked.
  rewrite (ingress_empty_pending events (s <| accepting := true |>)); [|by apply fresh_rings, (fresh_flags s)].
  rewrite fresh_pending by (by apply (fresh_flags s)). by rewrite bool_decide_eq_true_2.
Qed.

Lemma bring_up_fresh e capacity stores s00 s0 :
  shaped s00 → processed_ s00 = [] →
  alone e (bring_up capacity stores) s00 = Some (Ok tt, s0) →
  fresh s0 ∧ attached s0 = true.
Proof.
  intros Hshape Hproc. unfold bring_up. rewrite alone_bind, alone_init.
  pose proof (fresh_raised _ (init_fresh capacity s00 Hshape Hproc)) as H1.
  generalize dependent (raised (init_locked max_payload events processors capacity s00)). intros s1 H1.
  destruct (alone e (initialize_stores stores) s1) as [[r s2]|] eqn:Hst; [|done].
  apply alone_stores in Hst as ->. cbn [mbind option_bind]. destruct r as [[]|st]; [|done].
  rewrite alone_bind, alone_start by done. apply fresh_started in H1.
  generalize dependent (started s1). intros s2 H2. simpl. intros [= <-].
  split; [|done]. by apply (fresh_flags s2).
Qed.

(** Without stores nothing can fail. *)
Lemma alone_bring_up e capacity s :
  shaped s → processed_ s = [] →
  alone e (bring_up capacity 0) s
  = Some (Ok tt, started (raised (init_locked max_payload events processors capacity s)) <| attached := true |>).
Proof.
  intros Hshape Hproc. unfold bring_up. rewrite alone_bind, alone_init.
  pose proof (fresh_raised _ (init_fresh capacity s Hshape Hproc)) as H1.
  generalize dependent (raised (init_locked max_payload events processors capacity s)). intros s1 H1.
  cbn [initialize_stores alone mbind option_bind]. by rewrite alone_bind, alone_start by done.
Qed.

(** The books open. *)
Lemma fresh_books s calls :
  (Z.of_nat (length events) ≤ 2 ^ 16)%Z → fresh s → attached s = true →
  (Z.of_nat (sum_list_with captures calls) < 2 ^ 64 - 2)%Z →
  in_books (map (λ cs, mkBooks [] Idle (captures cs)) calls) s.
Proof.
  intros Hn Hf Hat Hcount. pose proof (fresh_pending s Hf) as Hpend.
  pose proof (λ k l, fresh_lanes s k l Hf) as Hlanes.
  set (gs := map _ calls).
  assert (Hnone : ∀ {A} (f : Books → list A), (∀ b, f (mkBooks [] Idle b) = []) → gather f gs = []).
  { intros A f Hf0. unfold gather, gs. apply concat_nil_Forall. rewrite map_map. apply Forall_map.
    apply Forall_forall. intros cs _. simpl. apply Hf0. }
  pose proof (fr_next s Hf) as Hnext. pose proof (fr_processed s Hf) as Hproc.
  split; rewrite ?Hpend, ?Hnext, ?Hproc, ?(Hnone _ taken), ?(Hnone _ queued) by done; try done.
  - by apply fresh_rings.
  - intros i Hi. destruct (fr_event s Hf i Hi) as (st & -> & _). simpl. apply wrap_small. word_lia.
  - intros k l r Hk Hr. apply Hlanes in Hk as ->. by apply not_elem_of_nil in Hr.
  - intros r Hr. by apply not_elem_of_nil in Hr.
  - intros k l Hk. apply Hlanes in Hk as ->. constructor.
  - split; [done|]. unfold gs.
    assert (sum_list_with budget (map (λ cs, mkBooks [] Idle (captures cs)) calls) = sum_list_with captures calls) as ->
      by (clear; induction calls as [|cs calls IH]; simpl; [done|by rewrite IH]).
    lia.
  - intros r Hr. by apply not_elem_of_nil in Hr.
  - intros r Hr. by apply not_elem_of_nil in Hr.
  - constructor.
  - intros _. split; [constructor|]. intros t g _ Hg. unfold gs in Hg.
    rewrite list_lookup_fmap in Hg. by apply fmap_Some in Hg as (cs & _ & ->).
  - intros i ev Hi Hcrit. apply lookup_lt_Some in Hi as Hin.
    destruct (fr_event s Hf i Hin) as (st & Hst & Hslots). specialize (Hslots ev Hi Hcrit).
    split; unfold held; rewrite ?Hst, ?Hproc, ?(Hnone _ (flight event_id i)), ?(Hnone _ (keeping i)) by done;
      simpl; rewrite ?length_map; try done; lia.
Qed.

Lemma run_books fuel calls s sch :
  in_books (map (λ cs, mkBooks [] Idle (captures cs)) calls) s →
  (sole = true → ∀ t cs dl, calls !! t = Some cs → CallProcess dl ∈ cs → t = d) →
  let s' := run sch (s, map (event_thread fuel) calls) in
  ∃ gs, in_books gs s'.1
    ∧ ∀ answers, s'.2 = map Done answers →
        gather taken gs = [] ∧ (∀ i, gather (keeping i) gs = [])
        ∧ map sequence (gather queued gs) = concat (map receipts answers).
Proof.
  intros Hbooks Hsole s'.
  set (Q := λ (_ : nat) (g : Books) (answers : list EventAnswer),
    phase g = Idle ∧ map sequence (queued g) = receipts answers).
  destruct (all_safe_run in_books (λ _, True) Q sch (s, map (event_thread fuel) calls))
    as (gs & HI & Hlen & Hall).
  - by apply Forall_forall.
  - exists (map (λ cs, mkBooks [] Idle (captures cs)) calls). split; [done|]. split; [simpl; by rewrite !length_map|].
    intros t p Hp. simpl in Hp. rewrite list_lookup_fmap in Hp. apply fmap_Some in Hp as (cs & Hcs & ->).
    exists (mkBooks [] Idle (captures cs)). split; [by rewrite list_lookup_fmap, Hcs|].
    eapply safe_mono; [|apply (safe_event_thread t fuel cs); [done|simpl; lia|]].
    + intros g answers [? ?]. done.
    + intros Hs Ht dl Hin. apply Ht. by eapply Hsole.
  - fold s' in HI, Hlen, Hall. exists gs. split; [done|]. intros answers Hans.
    assert (Hdone : Forall2 (λ g a, phase g = Idle ∧ map sequence (queued g) = receipts a) gs answers).
    { apply Forall2_same_length_lookup_2; [by rewrite Hlen, Hans, length_map|].
      intros t g a Hg Ha. destruct (Hall t (Done a)) as (g' & Hg' & HQ).
      { by rewrite Hans, list_lookup_fmap, Ha. }
      simplify_eq. exact HQ. }
    clear -Hdone. induction Hdone as [|g a gs answers [Hi Hq] Hdone (IHt & IHk & IHq)]; [done|].
    unfold gather in *. simpl. split; [|split].
    + rewrite IHt. unfold taken. by rewrite Hi.
    + intros i. rewrite (IHk i). unfold keeping. by rewrite Hi.
    + by rewrite map_app, Hq, IHq.
Qed.
End Run.
End Threads.

(** ** The promise *)

(** C19: From a facility just brought up, whatever the interleaving of threads
    that capture events (and are told whether they succeeded) with threads
    that process them, the clock, the contention of the lock and the answers
    of executor, processors and stores: a critical event never holds more
    than the slots reserved for it; if one thread processes, the records are
    processed in the order of their sequence numbers; and when all threads
    have returned, the records processed and those still in the rings are
    together exactly the records of the receipts, each once, and the history
    of a critical event holds all of its processed records. *)
Theorem events_in_order `{ObjectBytes} max_payload events processors event_id capacity stores e s00 s0
    fuel calls sch :
  (Z.of_nat (length events) ≤ 2 ^ 16)%Z →
  (∀ i j, i < length events → j < length events → event_id i = event_id j → i = j) →
  shaped events s00 → processed_ s00 = [] →
  alone e (bring_up max_payload events processors capacity stores) s00 = Some (Ok tt, s0) →
  (Z.of_nat (sum_list_with captures calls) < 2 ^ 64 - 2)%Z →
  let s := run sch (s0, map (event_thread max_payload events processors event_id fuel) calls) in
  (∀ i ev, events !! i = Some ev → critical (ev_retention ev) = true →
     held s.1 i ≤ reserved_slots (ev_retention ev))
  ∧ (∀ d, (∀ t cs dl, calls !! t = Some cs → CallProcess dl ∈ cs → t = d) →
     StronglySorted (λ a b, sequence a < sequence b)%Z (processed_ s.1))
  ∧ ∀ answers, s.2 = map Done answers →
      map sequence (processed_ s.1 ++ pending events s.1) ≡ₚ concat (map receipts answers)
      ∧ NoDup (concat (map receipts answers))
      ∧ ∀ i ev, events !! i = Some ev → critical (ev_retention ev) = true →
          List.filter (of_event event_id i) (processed_ s.1)
          ≡ₚ ring_list (critical_history (event_state s.1 i)).
Proof.
  intros Hn Hdistinct Hshape Hproc Hup Hcount s.
  destruct (bring_up_fresh _ _ _ _ _ _ _ _ Hshape Hproc Hup) as [Hfresh Hat].
  pose proof (λ sole d, fresh_books max_payload events event_id sole d s0 calls Hn Hfresh Hat Hcount) as Hopen.
  destruct (run_books max_payload events processors event_id false 0 Hdistinct fuel calls s0 sch
    (Hopen false 0)) as (gs & HI & Hend); [done|]. fold s in HI, Hend. split; [|split].
  - intros i ev Hi Hc. by destruct (ib_critical _ _ _ _ _ _ HI i ev Hi Hc).
  - intros d Hd.
    destruct (run_books max_payload events processors event_id true d Hdistinct fuel calls s0 sch
      (Hopen true d)) as (gs' & HI' & _); [done|]. fold s in HI'.
    destruct (ib_order _ _ _ _ _ _ HI' eq_refl) as [Hs _]. by apply StronglySorted_app_1_l in Hs.
  - intros answers Hans. destruct (Hend answers Hans) as (Ht & Hk & Hq).
    pose proof (ib_books _ _ _ _ _ _ HI) as Hb. rewrite Ht in Hb. simpl in Hb. split; [|split].
    + by rewrite Hb, Hq.
    + rewrite <-Hq. apply (ib_distinct _ _ _ _ _ _ HI).
    + intros i ev Hi Hc. destruct (ib_critical _ _ _ _ _ _ HI i ev Hi Hc) as [_ _ _ Hh].
      by rewrite Hh, Hk, app_nil_r.
Qed.

(** ** Two events, one of them critical with a single slot *)
Definition calm_env : Env := mkEnv 100 false false false None None None.
Definition two_events : list Event :=
  [mkEvent Informational 1 1 EveryOccurrence Buffered None (λ _, 0%Z);
   mkEvent SevCritical 1 2 EveryOccurrence (Critical 1 false) None (λ _, 0%Z)].
Definition empty_ring (capacity : nat) : FixedRing := mkRing (replicate capacity (blank_record 4)) 0 0 0.
Definition blank_facility : Facility :=
  mkFacility (empty_ring 4) (empty_ring 1) (mkHistory (replicate 80 0%Z) 0 0) default_facility_record 1
    false false false false
    (λ i, mkEventState (empty_ring i) (empty_ring i) 0 default_event_record 0 0 [empty_aggregate 4] [])
    (λ k, fresh_processor [0] k) [] [] [].
Definition brought_up : Facility :=
  started (raised (init_locked 4 two_events [0] 80 blank_facility)) <| attached := true |>.
Definition some_calls : list (list EventCall) :=
  [[CallProcess false]; [CallCapture 0 Observe [7%Z] no_source 0 LogDefault; CallCapture 1 Observe [8%Z; 9%Z] no_source 0 LogDefault];
   [CallCapture 1 TryObserve [5%Z; 6%Z] no_source 0 LogDefault]].
Definition some_schedule : list (nat * Env) :=
  map (λ t, (t, calm_env)) (replicate 14 1 ++ replicate 5 2 ++ replicate 40 0).
Definition some_answers : list (list EventAnswer) :=
  [[AnsProcess (Ok tt)];
   [AnsCapture (Ok (mkReceipt Captured 1 100 1 true)); AnsCapture (Ok (mkReceipt Captured 2 100 1 true))];
   [AnsCapture (Err (make_error Z.of_nat 1 TryObserve SNoBuffer RequiredCaptureExhausted no_source))]].

Lemma blank_shaped : shaped two_events blank_facility.
Proof. intros [|[|i]] ev Hi Hc; [injection Hi as <-; discriminate Hc|injection Hi as <-; reflexivity|discriminate Hi]. Qed.

Lemma events_in_order_witness :
  let s := run some_schedule (brought_up, map (event_thread 4 two_events [0] Z.of_nat 5) some_calls) in
  map sequence (processed_ s.1) = [1%Z; 2%Z]
  ∧ StronglySorted (λ a b, sequence a < sequence b)%Z (processed_ s.1)
  ∧ s.2 = map Done some_answers
  ∧ map sequence (processed_ s.1 ++ pending two_events s.1) ≡ₚ concat (map receipts some_answers)
  ∧ List.filter (of_event Z.of_nat 1) (processed_ s.1)
    ≡ₚ ring_list (critical_history (event_state s.1 1)).
Proof.
  intros s. split; [vm_compute; reflexivity|].
  assert (Hend : s.2 = map Done some_answers) by (vm_compute; reflexivity).
  destruct (events_in_order 4 two_events [0] Z.of_nat 80 0 calm_env blank_facility brought_up 5 some_calls
    some_schedule) as (_ & Hsorted & Hall).
  - vm_compute. discriminate.
  - intros i j _ _ Hij. lia.
  - exact blank_shaped.
  - reflexivity.
  - exact (alone_bring_up 4 two_events [0] calm_env 80 blank_facility blank_shaped eq_refl).
  - vm_compute. reflexivity.
  - fold s in Hsorted, Hall.
    destruct (Hall some_answers Hend) as (Hperm & _ & Hcritical).
    split; [|split; [exact Hend|split; [exact Hperm|]]].
    + apply (Hsorted 0). intros [|[|[|t]]] cs dl Hcs Hin; [reflexivity|..]; exfalso;
        [injection Hcs as <-|injection Hcs as <-|discriminate Hcs];
        repeat (apply elem_of_cons in Hin as [Hin|Hin]; [discriminate Hin|]); by apply not_elem_of_nil in Hin.
    + apply (Hcritical 1 (mkEvent SevCritical 1 2 EveryOccurrence (Critical 1 false) None (λ _, 0%Z))); reflexivity.
Defined.
