(* ===== verification/EventsExamples.v ===== *)
(** * EventsExamples: three runs of the event facility

    Runs of the model that show where the code and its specification part:
    events captured while components initialise, and two losses that the
    accounting of known losses leaves out. *)
From stdpp Require Import prelude.
From S2P Require Import Prelude Status Interleave Events EventsHistory EventsRings EventsOrder EventsProps.
Import TypedEvents.

Open Scope nat_scope.
Open Scope solar_scope.
Open Scope prog_scope.

Definition capture_now (events : list Event) (i : nat) : Prog Env Facility (result Error Receipt) :=
  match events !! i with
  | Some ev => capture_event 4 events Z.of_nat i ev Observe [7%Z] no_source 0 LogDefault
  | None => Stalled
  end.

(** An event captured between the facility's initialisation and its start: the
    start asks for processing before [activate_runtime] has set the pointer,
    and fails. *)
Example early_capture_fails_start :
  (fst <$> alone calm_env
     (_ ⇇ init 4 two_events [0] 80 0;
      captured ⇇ capture_now two_events 0;
      answer ⇇ start two_events;
      Done (captured, answer)) blank_facility)
  = Some (Ok (mkReceipt Captured 1 100 1 true), Err SNotReady).
Proof. vm_compute. reflexivity. Qed.

(** ** Aggregates *)
Definition counted_events (window : Z) : list Event :=
  [mkEvent Informational 1 1 (AggregateCount window false) Buffered None (λ _, 0%Z)].
Definition at_time (t : Z) : Env := mkEnv t false false false None None None.
(** A facility whose thread ring has no room. *)
Definition full_facility : Facility := blank_facility <| thread_ingress := empty_ring 0 |>.

Definition capture_at (events : list Event) (t : Z) (s : Facility) : option (result Error Receipt * Facility) :=
  alone (at_time t) (capture_now events 0) s.
(** What the record of an event counts: attempts, aggregated, captured,
    rejected at ingress, and lost. *)
Definition counts (s : Facility) : Z * Z * Z * Z * Z :=
  let r := record (event_state s 0) in
  (e_attempts r, e_aggregated r, e_captured r, e_ingress_rejected r, e_known_lost r).

(** Three occurrences, the third closes the window: the record of all three
    finds no room, and a single loss is counted. *)
Example aggregate_loss_counts_once :
  let events := counted_events 10 in
  (x ← alone calm_env (init 4 events [] 80 0) full_facility;
   x ← capture_at events 100 x.2;
   x ← capture_at events 105 x.2;
   x ← capture_at events 120 x.2;
   Some (x.1, counts x.2))%stdpp
  = Some (Err (make_error Z.of_nat 0 Observe SNoBuffer CaptureFull no_source), (3, 2, 0, 1, 1)%Z).
Proof. vm_compute. reflexivity. Qed.

(** Stopping with [CancelPending] discards two records and counts none of
    them as lost. *)
Example cancelled_records_not_counted :
  (x ← alone calm_env (init 4 two_events [] 80 0) blank_facility;
   x ← capture_at two_events 100 x.2;
   x ← capture_at two_events 105 x.2;
   y ← alone calm_env (stop 4 two_events [] Z.of_nat 5 true) x.2;
   Some (length (pending two_events x.2), length (pending two_events y.2), counts y.2))%stdpp
  = Some (2, 0, (2, 0, 2, 0, 0)%Z).
Proof. vm_compute. reflexivity. Qed.
