(* ===== verification/ParametersRecord.v ===== *)
(** * ParametersRecord: the durable form of a parameter

    Models [include/solar/parameters/codec.hpp] (the default codec of scalar
    values), [persistence.hpp] (the record envelope and its checksum) and the
    key names of [settings.hpp].  A scalar value is the integer it denotes, a
    floating-point value its bit pattern, which is what [std::bit_cast]
    copies.  [Codec] is the interface a parameter's codec offers the facility
    and [CodecLaws] what the facility relies on; the default codec is proved
    to satisfy it. *)
From stdpp Require Import prelude.
From S2P Require Import Prelude Status Wire Crc.

Open Scope Z_scope.
Open Scope solar_scope.

Module Records.

(** Outcome of an operation that may fail with the default [solar::Error]. *)
Definition Result (A : Type) : Type := result Status.Error A.
Definition Checked (A : Type) : Type := option (Result A).
Definition succeed {A} (a : A) : Checked A := Some (Ok a).
Definition fail {A} (s : Status) : Checked A := Some (Err (Status.mkError s 0)).
Definition access {A} (o : option A) : Checked A := Ok <$> o.

(** ** Scalar values *)
Inductive ScalarType : Set :=
  | Boolean
  | Integral (signed : bool) (bytes : nat)
  | Enumeration (signed : bool) (bytes : nat)
  | Floating (bytes : nat).

(** [sizeof(scalar_representation_t<T>)] *)
Definition scalar_size (t : ScalarType) : nat :=
  match t with Boolean => 1 | Integral _ n => n | Enumeration _ n => n | Floating n => n end.
Definition scalar_width (t : ScalarType) : Z := 8 * Z.of_nat (scalar_size t).

(** The values of a type. *)
Definition scalar_ok (t : ScalarType) (v : Z) : Prop :=
  match t with
  | Boolean => v = 0 ∨ v = 1
  | Integral true n | Enumeration true n =>
      (0 < n)%nat ∧ - 2 ^ (8 * Z.of_nat n - 1) ≤ v < 2 ^ (8 * Z.of_nat n - 1)
  | _ => is_u (scalar_width t) v
  end.

Definition scalar_bits (t : ScalarType) (value : Z) : Z :=
  match t with Floating _ => value | _ => wrap (scalar_width t) value end.

Definition scalar_value (t : ScalarType) (bits : Z) : Z :=
  match t with
  | Boolean => if bits =? 0 then 0 else 1
  | Integral true _ | Enumeration true _ =>
      if bits <? 2 ^ (scalar_width t - 1) then bits else bits - 2 ^ scalar_width t
  | _ => bits
  end.

(** The default codec, over the span of the encoded bytes. *)
Definition scalar_encode (t : ScalarType) (value : Z) (output : list Z) : Checked (nat * list Z) :=
  if (length output <? scalar_size t)%nat then fail SNoBuffer else
  let bits := scalar_bits t value in
  output ⇐ access (put_loop (scalar_size t) 0 output 0 bits);
  succeed (scalar_size t, output).

Definition scalar_decode (t : ScalarType) (input : list Z) : Checked Z :=
  if negb (length input =? scalar_size t)%nat then fail SMessageTooLarge else
  bits ⇐ access (get_loop (scalar_size t) 0 input 0 0);
  succeed (scalar_value t bits).

(** ** Codecs *)
Record Codec (V : Type) : Type := mkCodec {
  encoded_size : nat;
  codec_encode : V → list Z → Checked (nat * list Z);
  codec_decode : list Z → Checked V }.
Arguments mkCodec {V}. Arguments encoded_size {V}. Arguments codec_encode {V}.
Arguments codec_decode {V}.

Definition ScalarCodec (t : ScalarType) : Codec Z :=
  mkCodec (scalar_size t) (scalar_encode t) (scalar_decode t).

(** A codec of the values [ok]: it fills a span of its size, and decodes what
    it wrote to the same value. *)
Class CodecLaws {V} (ok : V → Prop) (c : Codec V) : Prop := codec_laws : ∀ v output,
  ok v → length output = encoded_size c →
  ∃ bytes, codec_encode c v output = succeed (encoded_size c, bytes)
    ∧ length bytes = encoded_size c ∧ is_bytes bytes ∧ codec_decode c bytes = succeed v.

(** ** The record envelope *)
Definition RecordKind_Parameter : Z := 1.
Definition RecordKind_Group : Z := 2.
Record Key : Set := mkKey { kind : Z; stable_id : Z }.
#[export] Instance Key_eq_dec : EqDecision Key. Proof. solve_decision. Defined.

Definition record_magic : Z := 1397705808.
Definition envelope_size : nat := 24.

(** [write_little<Value>] and [read_little<Value>] of an [n]-byte value. *)
Definition write_little (n : nat) (output : list Z) (offset : nat) (value : Z) : option (list Z) :=
  put_loop n 0 output offset value.
Definition read_little (n : nat) (input : list Z) (offset : nat) : option Z :=
  get_loop n 0 input offset 0.

Definition checksum_step (hash byte : Z) : Z := u32 (Z.lxor hash byte * 16777619).
Definition checksum (input : list Z) : Z := fold_left checksum_step input 2166136261.

(** [payload] is the part of the input span the record refers to. *)
Record DecodedRecord : Set := mkDecoded { key : Key; version : Z; payload : list Z }.

Definition encode_record (k : Key) (ver : Z) (payload output : list Z) : Checked (nat * list Z) :=
  let total := (envelope_size + length payload)%nat in
  if (length output <? total)%nat then fail SNoBuffer else
  output ⇐ access (write_little 4 output 0 record_magic);
  output ⇐ access (wr output 4 (kind k));
  output ⇐ access (wr output 5 0);
  output ⇐ access (write_little 2 output 6 ver);
  output ⇐ access (write_little 8 output 8 (stable_id k));
  output ⇐ access (write_little 4 output 16 (u32 (Z.of_nat (length payload))));
  output ⇐ access (write_little 4 output 20 (checksum payload));
  output ⇐ access (copy_to output envelope_size payload);
  succeed (total, output).

Definition decode_record (input : list Z) : Checked DecodedRecord :=
  if (length input <? envelope_size)%nat then fail SProtocolError else
  magic ⇐ access (read_little 4 input 0);
  if negb (magic =? record_magic) then fail SProtocolError else
  payload_size ⇐ access (read_little 4 input 16);
  if (Z.of_nat (length input - envelope_size) <? payload_size)
     || negb (Z.of_nat envelope_size + payload_size =? Z.of_nat (length input))
  then fail SMessageTooLarge else
  let payload := take (Z.to_nat payload_size) (drop envelope_size input) in
  expected ⇐ access (read_little 4 input 20);
  if negb (checksum payload =? expected) then fail SProtocolError else
  kind ⇐ access (input !! 4%nat);
  stable_id ⇐ access (read_little 8 input 8);
  ver ⇐ access (read_little 2 input 6);
  succeed (mkDecoded (mkKey kind stable_id) ver payload).

(** ** The names of [settings::Store] *)
Definition hexadecimal (d : Z) : Z := if d <? 10 then 48 + d else 87 + d.

(** The loop over [shift = 60, 56, .., 0]. *)
Definition hex_digits (id : Z) : list Z :=
  map (λ i, hexadecimal (Z.land (Z.shiftr id (60 - 4 * Z.of_nat i)) 15)) (seq 0 16).

(** The name, without the terminating zero. *)
Definition key_name (namespace : list Z) (k : Key) : list Z :=
  namespace ++ [47; if kind k =? RecordKind_Group then 103 else 112; 47] ++ hex_digits (stable_id k).

(** ** The default codec *)
Lemma put_loop_whole n output v :
  length output = n → put_loop n 0 output 0 v = Some (le_bytes n v).
Proof.
  intros Hlen. rewrite put_loop_digits, <-le_bytes_digits.
  pose proof (copy_to_app [] output (le_bytes n v) []) as H. rewrite !app_nil_r in H.
  apply H. by rewrite length_le_bytes.
Qed.

Lemma get_loop_whole n v :
  is_u (8 * Z.of_nat n) v → get_loop n 0 (le_bytes n v) 0 0 = Some v.
Proof.
  intros Hv. rewrite get_loop_value by (rewrite ?length_le_bytes; auto using le_bytes_bytes).
  by rewrite drop_0, firstn_all2, le_value_bytes by (rewrite ?length_le_bytes; done).
Qed.

Lemma scalar_bits_range t v : scalar_ok t v → is_u (scalar_width t) (scalar_bits t v).
Proof. destruct t as [|[] n|[] n|n]; simpl; intros; try done; apply wrap_range; unfold scalar_width; lia. Qed.

Lemma signed_bits w v :
  0 < w → - 2 ^ (w - 1) ≤ v < 2 ^ (w - 1) →
  (if wrap w v <? 2 ^ (w - 1) then wrap w v else wrap w v - 2 ^ w) = v.
Proof.
  intros Hw Hv. assert (2 ^ w = 2 * 2 ^ (w - 1)) as Hpow.
  { rewrite <-Z.pow_succ_r by lia. f_equal. lia. }
  unfold wrap. destruct (Z.ltb_spec v 0).
  - replace (v mod 2 ^ w) with (v + 2 ^ w); [case_match eqn:E; lia|].
    apply (Z.mod_unique _ _ (-1)); lia.
  - rewrite Z.mod_small by lia. case_match eqn:E; lia.
Qed.

Lemma scalar_value_bits t v : scalar_ok t v → scalar_value t (scalar_bits t v) = v.
Proof.
  destruct t as [|[] n|[] n|n]; simpl; intros Hv; try by rewrite wrap_small.
  - by destruct Hv as [-> | ->].
  - apply signed_bits; unfold scalar_width; simpl; lia.
  - apply signed_bits; unfold scalar_width; simpl; lia.
  - done.
Qed.

#[export] Instance scalar_codec_laws t : CodecLaws (scalar_ok t) (ScalarCodec t).
Proof.
  intros v output Hv Hlen. simpl in *. exists (le_bytes (scalar_size t) (scalar_bits t v)).
  unfold scalar_encode, scalar_decode.
  rewrite length_le_bytes, Hlen, Nat.ltb_irrefl, Nat.eqb_refl, put_loop_whole by done. simpl.
  rewrite get_loop_whole by (by apply scalar_bits_range). simpl.
  split_and!; [done..|apply le_bytes_bytes|]. by rewrite scalar_value_bits.
Qed.

(** ** The envelope *)
Definition envelope (k : Key) (ver size sum : Z) : list Z :=
  le_bytes 4 record_magic ++ [kind k] ++ [0] ++ le_bytes 2 ver ++ le_bytes 8 (stable_id k)
  ++ le_bytes 4 size ++ le_bytes 4 sum.
Definition record_bytes (k : Key) (ver : Z) (payload : list Z) : list Z :=
  envelope k ver (u32 (Z.of_nat (length payload))) (checksum payload) ++ payload.

Lemma record_bytes_length k ver payload :
  length (record_bytes k ver payload) = (envelope_size + length payload)%nat.
Proof. by unfold record_bytes. Qed.

(** Writing the next field of a buffer that already holds [pre]. *)
Lemma fill pre new output :
  (length pre + length new ≤ length output)%nat →
  copy_to (pre ++ drop (length pre) output) (length pre) new
  = Some ((pre ++ new) ++ drop (length (pre ++ new)) output).
Proof.
  intros Hlen. rewrite <-(take_drop (length new) (drop (length pre) output)) at 1.
  rewrite copy_to_app by (rewrite length_take, length_drop; lia).
  by rewrite drop_drop, length_app, <-app_assoc.
Qed.
Lemma fill_little n pre v output :
  (length pre + n ≤ length output)%nat →
  write_little n (pre ++ drop (length pre) output) (length pre) v
  = Some ((pre ++ le_bytes n v) ++ drop (length (pre ++ le_bytes n v)) output).
Proof.
  intros Hlen. unfold write_little. rewrite put_loop_digits, Nat.add_0_r, <-le_bytes_digits.
  apply fill. by rewrite length_le_bytes.
Qed.
Lemma fill_byte (pre output : list Z) b :
  (length pre + 1 ≤ length output)%nat →
  wr (pre ++ drop (length pre) output) (length pre) b
  = Some ((pre ++ [b]) ++ drop (length (pre ++ [b])) output).
Proof.
  intros Hlen. rewrite <-(fill pre [b]) by done. simpl. by destruct (wr _ _ _).
Qed.

Ltac write_field lemma :=
  rewrite lemma by (rewrite ?length_app, ?length_le_bytes; simpl; lia);
  cbn [access fmap option_fmap option_map cbind].

Lemma encode_record_spec k ver payload output :
  (envelope_size + length payload ≤ length output)%nat →
  encode_record k ver payload output
  = succeed ((envelope_size + length payload)%nat,
             record_bytes k ver payload ++ drop (envelope_size + length payload) output).
Proof.
  intros Hlen. unfold encode_record, envelope_size in *.
  destruct (Nat.ltb_spec (length output) (24 + length payload)); [lia|].
  change output with ([] ++ drop (length (@nil Z)) output) at 1.
  repeat lazymatch goal with
  | |- context [wr (?l ++ _) ?n _] => change n with (length l) at 1; write_field fill_byte
  | |- context [write_little _ (?l ++ _) ?n _] => change n with (length l) at 1; write_field fill_little
  | |- context [copy_to (?l ++ _) ?n _] => change n with (length l) at 1; write_field fill
  end.
  unfold succeed, record_bytes, envelope. by rewrite <-!app_assoc.
Qed.

Lemma read_little_at n pre v post off :
  length pre = off → is_u (8 * Z.of_nat n) v →
  read_little n (pre ++ le_bytes n v ++ post) off = Some v.
Proof.
  intros <- Hv. unfold read_little.
  rewrite (get_loop_digits n 0 _ _ v 0).
  - rewrite le_value_bytes by done. f_equal. rewrite Z.mul_0_r, Z.pow_0_r. lia.
  - rewrite Nat.add_0_r, drop_app_length, take_app_exact; [done|]. by rewrite length_le_bytes.
  - done.
Qed.

Lemma checksum_fold_range input h : is_u 32 h → is_u 32 (fold_left checksum_step input h).
Proof. revert h. induction input as [|b input IH]; intros h Hh; [done|]. apply IH. by apply wrap_range. Qed.
Lemma checksum_range input : is_u 32 (checksum input).
Proof. by apply checksum_fold_range. Qed.

(** Decoding an envelope in front of a payload of the size it announces. *)
Lemma decode_envelope k ver sum payload :
  is_byte (kind k) → is_u 64 (stable_id k) → is_u 16 ver → is_u 32 sum →
  Z.of_nat (length payload) < 2 ^ 32 →
  decode_record (envelope k ver (u32 (Z.of_nat (length payload))) sum ++ payload)
  = if checksum payload =? sum then succeed (mkDecoded k ver payload) else fail SProtocolError.
Proof.
  intros Hkind Hid Hver Hsum Hlen. unfold decode_record.
  assert (is_u 32 (Z.of_nat (length payload))) as Hsize by word_lia.
  rewrite wrap_small by done. set (size := Z.of_nat (length payload)) in *.
  set (bytes := envelope k ver size sum ++ payload).
  assert (length bytes = envelope_size + length payload)%nat as -> by done.
  assert (∀ n pre v post off, bytes = pre ++ le_bytes n v ++ post → length pre = off →
    is_u (8 * Z.of_nat n) v → access (read_little n bytes off) = succeed v) as Hread.
  { intros ? ? ? ? ? ->. intros. by rewrite read_little_at. }
  replace (envelope_size + length payload <? envelope_size)%nat with false
    by (symmetry; apply Nat.ltb_ge; lia).
  pose (head := le_bytes 4 record_magic ++ [kind k] ++ [0]).
  rewrite (Hread 4%nat [] record_magic (drop 4 bytes) 0%nat) by done. cbn [cbind succeed].
  rewrite Z.eqb_refl. cbn [negb].
  rewrite (Hread 4%nat (take 16 bytes) size (drop 20 bytes) 16%nat) by done. cbn [cbind succeed].
  destruct (Z.ltb_spec (Z.of_nat (envelope_size + length payload - envelope_size)) size); [lia|].
  destruct (Z.eqb_spec (Z.of_nat envelope_size + size) (Z.of_nat (envelope_size + length payload)));
    [|lia]. cbn [negb orb].
  rewrite (Hread 4%nat (take 20 bytes) sum (drop 24 bytes) 20%nat) by done. cbn [cbind succeed].
  replace (take (Z.to_nat size) (drop envelope_size bytes)) with payload
    by (unfold size; by rewrite Nat2Z.id, firstn_all).
  destruct (checksum payload =? sum); cbn [negb]; [|done].
  replace (bytes !! 4%nat) with (Some (kind k)) by done.
  cbn [access fmap option_fmap option_map cbind].
  rewrite (Hread 8%nat (take 8 bytes) (stable_id k) (drop 16 bytes) 8%nat) by done.
  cbn [cbind succeed].
  rewrite (Hread 2%nat (take 6 bytes) ver (drop 8 bytes) 6%nat) by done. by destruct k.
Qed.

Lemma decode_record_bytes k ver payload :
  is_byte (kind k) → is_u 64 (stable_id k) → is_u 16 ver → Z.of_nat (length payload) < 2 ^ 32 →
  decode_record (record_bytes k ver payload) = succeed (mkDecoded k ver payload).
Proof.
  intros. unfold record_bytes. rewrite decode_envelope by (done || apply checksum_range).
  by rewrite Z.eqb_refl.
Qed.

(** ** What the checksum detects *)
Lemma fnv_prime_inj x y : is_u 32 x → is_u 32 y → u32 (x * 16777619) = u32 (y * 16777619) → x = y.
Proof.
  intros Hx Hy Heq. apply (f_equal (λ z, u32 (z * 899433627))) in Heq. unfold wrap in Heq.
  rewrite !Zmult_mod_idemp_l, <-!Z.mul_assoc in Heq. revert Heq.
  change (16777619 * 899433627) with (1 + (16777619 * 899433627 / 2 ^ 32) * 2 ^ 32).
  rewrite !Z.mul_add_distr_l, !Z.mul_1_r, !Z.mul_assoc, !Z_mod_plus_full.
  by rewrite !Z.mod_small.
Qed.

Lemma checksum_step_inj h h' b :
  is_u 32 h → is_u 32 h' → is_byte b → checksum_step h b = checksum_step h' b → h = h'.
Proof.
  intros Hh Hh' Hb Heq. assert (is_u 32 b) by (eapply is_u_mono; [|done]; lia).
  apply fnv_prime_inj in Heq; [|by apply lxor_range..].
  rewrite !(Z.lxor_comm _ b) in Heq. by apply lxor_cancel_l in Heq.
Qed.

Lemma checksum_fold_inj input h h' :
  is_bytes input → is_u 32 h → is_u 32 h' →
  fold_left checksum_step input h = fold_left checksum_step input h' → h = h'.
Proof.
  intros Hin. revert h h'. induction Hin as [|b input Hb _ IH]; intros h h' Hh Hh' Heq; [done|].
  apply IH in Heq; [|by apply wrap_range..]. by eapply checksum_step_inj.
Qed.

Lemma checksum_one_byte pre b b' post :
  is_byte b → is_byte b' → is_bytes post → b ≠ b' →
  checksum (pre ++ b :: post) ≠ checksum (pre ++ b' :: post).
Proof.
  intros Hb Hb' Hpost Hne Heq. unfold checksum in Heq. rewrite !fold_left_app in Heq.
  cbn [fold_left] in Heq. assert (is_u 32 b ∧ is_u 32 b') as [Hb32 Hb32'].
  { split; (eapply is_u_mono; [|done]; lia). }
  pose proof (checksum_range pre) as Hr. unfold checksum in Hr.
  apply checksum_fold_inj in Heq; [|done|by apply wrap_range..].
  apply fnv_prime_inj in Heq; [|by apply lxor_range..].
  by apply lxor_cancel_l in Heq.
Qed.

(** A record whose payload differs in one byte from the one that was saved is
    rejected. *)
Lemma altered_payload_rejected k ver pre b b' post :
  is_byte (kind k) → is_u 64 (stable_id k) → is_u 16 ver →
  is_byte b → is_byte b' → is_bytes post → b ≠ b' →
  Z.of_nat (length (pre ++ b :: post)) < 2 ^ 32 →
  decode_record (<[(envelope_size + length pre)%nat := b']> (record_bytes k ver (pre ++ b :: post)))
  = fail SProtocolError.
Proof.
  intros. unfold record_bytes. set (env := envelope _ _ _ _).
  assert (length env = envelope_size) as Henv by done.
  rewrite insert_app_r_alt by lia. rewrite Henv, Nat.add_sub', insert_app_r_alt, Nat.sub_diag by done.
  assert (length (pre ++ b :: post) = length (pre ++ b' :: post)) as Hl by by rewrite !length_app.
  unfold env. rewrite Hl at 1. change (<[0%nat:=b']> (b :: post)) with (b' :: post).
  rewrite decode_envelope by (done || apply checksum_range || by rewrite <-Hl).
  destruct (Z.eqb_spec (checksum (pre ++ b' :: post)) (checksum (pre ++ b :: post))) as [Heq|]; [|done].
  by eapply checksum_one_byte in Heq.
Qed.

(** ** Distinct records have distinct names *)
Lemma land_15 z : 0 ≤ Z.land z 15 < 16.
Proof. change 15 with (Z.ones 4). rewrite Z.land_ones by done. by apply Z.mod_pos_bound. Qed.

Lemma hexadecimal_inj a b : 0 ≤ a < 16 → 0 ≤ b < 16 → hexadecimal a = hexadecimal b → a = b.
Proof. unfold hexadecimal. intros. case_match; case_match; lia. Qed.

Lemma hex_digits_inj a b : is_u 64 a → is_u 64 b → hex_digits a = hex_digits b → a = b.
Proof.
  intros Ha Hb Heq. apply Z.bits_inj'. intros n Hn.
  destruct (Z.lt_ge_cases n 64) as [Hlt|Hge].
  - pose (i := Z.to_nat (15 - n / 4)). unfold hex_digits in Heq.
    pose proof (Z.mul_div_le n 4) as ?. assert (0 ≤ n / 4 < 16) by div_lia.
    assert (0 ≤ n mod 4 < 4) by div_lia. assert (n = 4 * (n / 4) + n mod 4) by (by apply Z.div_mod).
    apply (f_equal (lookup i)) in Heq. rewrite !list_lookup_fmap in Heq.
    rewrite lookup_seq_lt in Heq by lia. simpl in Heq. injection Heq as Heq.
    apply hexadecimal_inj in Heq; [|apply land_15..].
    apply (f_equal (λ z, Z.testbit z (n mod 4))) in Heq. rewrite !Z.land_spec in Heq.
    replace (Z.testbit 15 (n mod 4)) with true in Heq.
    + rewrite !andb_true_r, !Z.shiftr_spec in Heq by lia.
      by replace (n mod 4 + (60 - 4 * Z.of_nat i)) with n in Heq by lia.
    + change 15 with (Z.ones 4). by rewrite Z.ones_spec_low by lia.
  - rewrite <-(wrap_small 64 a), <-(wrap_small 64 b) by done. unfold wrap.
    by rewrite !Z.mod_pow2_bits_high by lia.
Qed.

Lemma key_name_inj namespace k k' :
  is_u 64 (stable_id k) → is_u 64 (stable_id k') →
  key_name namespace k = key_name namespace k' →
  stable_id k = stable_id k' ∧ (kind k = RecordKind_Group ↔ kind k' = RecordKind_Group).
Proof.
  intros Hk Hk' Heq. apply (inj (app namespace)) in Heq.
  split.
  - apply hex_digits_inj; [done..|]. exact (f_equal (drop 3) Heq).
  - apply (f_equal (lookup 1%nat)) in Heq. cbn in Heq. destruct (Z.eqb_spec (kind k) RecordKind_Group), (Z.eqb_spec (kind k') RecordKind_Group);
      naive_solver.
Qed.
End Records.
