(* ===== verification/Parameters.v ===== *)
(** * Parameters: policies, slots and the state of the parameter facility

    Models [include/solar/parameters/types.hpp], [policy.hpp] and the classes
    of [facility.hpp]: validation, [ParameterSlot], [GroupState] and
    [ChangeState].  A method that takes a spin lock is one function on the
    object it locks.  The types a parameter declaration selects are the fields
    of [ParameterT]; values of all parameters live in one type [V], of which
    the code uses assignment, [operator==], [operator<] and [std::isfinite]. *)
From stdpp Require Import prelude functions.
From S2P Require Import Prelude Status ParametersRecord.

Open Scope Z_scope.
Open Scope solar_scope.

Module TypedParameters.
Import Records.

(** ** Data *)
Inductive StorageKind : Set := MutexStorage | AtomicStorage | ImmutableStorage.
Inductive AccessKind : Set := ReadWrite | ReadOnly | Privileged.
Inductive PersistenceState : Set :=
  | Volatile | Clean | Dirty | Scheduled | Writing | Failed | ResetPending | MigrationPending.
Inductive LoadSource : Set := FromDefault | FromStore | FromMigration.
Inductive LoadOutcome : Set :=
  | NotAttempted | VolatileDefault | MissingDefault | Loaded | Migrated | DefaultAfterFailure
  | LoadFailed.
Inductive UpdateOrigin : Set :=
  | LocalSet | LocalTransaction | OReset | PrivilegedProvisioning | External | BootLoad
  | OMigration.
Inductive Operation : Set :=
  | Get | TryGet | GetIsr | OpSet | TrySet | OpReset | OpSnapshot | Transaction | Save | SaveAll
  | Flush | Query | Initialize | ActivateChanges | OpStop.
Inductive Reason : Set :=
  | NoReason | NotReady | Disabled | NotRegistered | RReadOnly | PrivilegeRequired
  | ValidationRejected | WouldBlock | InvalidContext | PersistenceUnavailable | PersistenceFailed
  | CodecFailed | VersionMismatch | CorruptRecord | TransactionConflict | ChangeHandlerFailed
  | InternalInvariant.

#[export] Instance PersistenceState_eq_dec : EqDecision PersistenceState. Proof. solve_decision. Defined.
#[export] Instance LoadSource_eq_dec : EqDecision LoadSource. Proof. solve_decision. Defined.

(** A default-constructed [LocalId]. *)
Definition invalid_id : Z := 65535.

Record Error : Set := mkError {
  err_status : Status; err_reason : Reason; err_operation : Operation; err_parameter : Z;
  err_change : Z; err_stable_id : option Z; err_group_id : option Z;
  err_expected_version : Z; err_observed_version : Z; err_native : Z }.
#[export] Instance Error_fields : Fields Error := λ r,
  mkError (err_status r) (err_reason r) (err_operation r) (err_parameter r) (err_change r)
    (err_stable_id r) (err_group_id r) (err_expected_version r) (err_observed_version r)
    (err_native r).
(** Aggregate initialisation of the first members. *)
Definition error (s : Status) (r : Reason) (op : Operation) : Error :=
  mkError s r op invalid_id invalid_id None None 0 0 0.
Definition status_of (e : Status.Error) : Status := Status.error_status e.

(** ** Values and validation *)
Class ValueType (V : Type) := {
  equal : V → V → bool;      (* operator== *)
  less : V → V → bool;       (* operator< *)
  finite : V → bool          (* std::isfinite of a floating value, true of the others *) }.

Inductive Validation (V : Type) : Type :=
  | AcceptAny
  | Range (minimum maximum : V) (clamp : bool)
  | OneOf (values : list V)
  | Custom (validator : V → result Status V).
Arguments AcceptAny {V}. Arguments Range {V}. Arguments OneOf {V}. Arguments Custom {V}.

Record Normalized (V : Type) : Type := mkNormalized { value : V; adjusted : bool }.
Arguments mkNormalized {V}. Arguments value {V}. Arguments adjusted {V}.

(** A rejection carries the status of [ValidationError]. *)
Definition normalize `{ValueType V} (p : Validation V) (candidate : V) :
    result Status (Normalized V) :=
  match p with
  | AcceptAny => Ok (mkNormalized candidate false)
  | Range minimum maximum clamp =>
    if negb (finite candidate) then Err SInvalid
    else if less candidate minimum then
      if clamp then Ok (mkNormalized minimum true) else Err SInvalid
    else if less maximum candidate then
      if clamp then Ok (mkNormalized maximum true) else Err SInvalid
    else Ok (mkNormalized candidate false)
  | OneOf values =>
    if existsb (equal candidate) values then Ok (mkNormalized candidate false) else Err SInvalid
  | Custom validator =>
    match validator candidate with
    | Err status => Err status
    | Ok v => Ok (mkNormalized v (negb (equal v candidate)))
    end
  end.

(** ** Persistence policies and declarations

    A [Store] is a number, a quiet period a number of ticks. *)
Inductive Persistence : Set :=
  | PVolatile
  | Immediate (store : nat)
  | Deferred (store : nat) (delay : Z)
  | Manual (store : nat)
  | Transactional (group : nat).

(** [PersistenceTraits] *)
Definition persistent (p : Persistence) : bool :=
  match p with PVolatile => false | _ => true end.
Definition deferred (p : Persistence) : bool :=
  match p with Deferred _ _ => true | _ => false end.
Definition transactional (p : Persistence) : bool :=
  match p with Transactional _ => true | _ => false end.
Definition immediate (p : Persistence) : bool :=
  match p with Immediate _ => true | _ => false end.
Definition store_of (p : Persistence) : option nat :=
  match p with Immediate s | Deferred s _ | Manual s => Some s | _ => None end.

(** A parameter declaration with the policies [ParameterPolicies] resolves. *)
Record ParameterT (V : Type) : Type := mkParameter {
  default_value : V; validation : Validation V; access : AccessKind; storage : StorageKind;
  persistence : Persistence; fail_boot : bool; descriptor_id : option Z; descriptor_version : Z;
  codec : Codec V; migration : option (Z → list Z → Records.Checked V) }.
Arguments mkParameter {V}. Arguments default_value {V}. Arguments validation {V}.
Arguments access {V}. Arguments storage {V}. Arguments persistence {V}. Arguments fail_boot {V}.
Arguments descriptor_id {V}. Arguments descriptor_version {V}. Arguments codec {V}.
Arguments migration {V}.

Definition writable (a : AccessKind) : bool := match a with ReadOnly => false | _ => true end.

(** A persistence group; its migration returns the values of its members. *)
Record Group (V : Type) : Type := mkGroup {
  members : list nat; group_store : nat; group_id : Z; group_version : Z; commit : Persistence;
  group_migration : option (Z → list Z → Records.Checked (list V)) }.
Arguments mkGroup {V}. Arguments members {V}. Arguments group_store {V}. Arguments group_id {V}.
Arguments group_version {V}. Arguments commit {V}. Arguments group_migration {V}.

(** ** Records *)
Record ParameterRecord (V : Type) : Type := mkParameterRecord {
  r_parameter : Z; r_value : V; r_last_error : Error; r_revision : Z; r_pending_revision : Z;
  r_persisted_revision : Z; r_reads : Z; r_updates : Z; r_unchanged : Z; r_rejected : Z;
  r_saves : Z; r_save_failures : Z; r_validation_adjustments : Z; r_change_failures : Z;
  r_current_version : Z; r_stored_version : Z; r_persistence : PersistenceState;
  r_load_source : LoadSource; r_load_outcome : LoadOutcome; r_last_origin : UpdateOrigin;
  r_ready : bool; r_writable : bool; r_dirty : bool; r_pending : bool }.
Arguments mkParameterRecord {V}. Arguments r_parameter {V}. Arguments r_value {V}.
Arguments r_last_error {V}. Arguments r_revision {V}. Arguments r_pending_revision {V}.
Arguments r_persisted_revision {V}. Arguments r_reads {V}. Arguments r_updates {V}.
Arguments r_unchanged {V}. Arguments r_rejected {V}. Arguments r_saves {V}.
Arguments r_save_failures {V}. Arguments r_validation_adjustments {V}.
Arguments r_change_failures {V}. Arguments r_current_version {V}. Arguments r_stored_version {V}.
Arguments r_persistence {V}. Arguments r_load_source {V}. Arguments r_load_outcome {V}.
Arguments r_last_origin {V}. Arguments r_ready {V}. Arguments r_writable {V}.
Arguments r_dirty {V}. Arguments r_pending {V}.
#[export] Instance ParameterRecord_fields {V} : Fields (ParameterRecord V) := λ r,
  mkParameterRecord (r_parameter r) (r_value r) (r_last_error r) (r_revision r)
    (r_pending_revision r) (r_persisted_revision r) (r_reads r) (r_updates r) (r_unchanged r)
    (r_rejected r) (r_saves r) (r_save_failures r) (r_validation_adjustments r)
    (r_change_failures r) (r_current_version r) (r_stored_version r) (r_persistence r)
    (r_load_source r) (r_load_outcome r) (r_last_origin r) (r_ready r) (r_writable r) (r_dirty r)
    (r_pending r).

Record Change (V : Type) : Type := mkChange {
  old_value : V; new_value : V; ch_revision : Z; ch_origin : UpdateOrigin; ch_adjusted : bool;
  ch_transaction : bool; ch_reset : bool }.
Arguments mkChange {V}. Arguments old_value {V}. Arguments new_value {V}. Arguments ch_revision {V}.
Arguments ch_origin {V}. Arguments ch_adjusted {V}. Arguments ch_transaction {V}.
Arguments ch_reset {V}.

Record ChangeRecord : Set := mkChangeRecord {
  cr_change : Z; cr_parameter : Z; cr_observer : Z; cr_last_status : Status; cr_invocations : Z;
  cr_succeeded : Z; cr_failed : Z; cr_deferred : Z; cr_coalesced : Z; cr_last_revision : Z;
  cr_pending : bool; cr_invoking : bool }.
#[export] Instance ChangeRecord_fields : Fields ChangeRecord := λ r,
  mkChangeRecord (cr_change r) (cr_parameter r) (cr_observer r) (cr_last_status r)
    (cr_invocations r) (cr_succeeded r) (cr_failed r) (cr_deferred r) (cr_coalesced r)
    (cr_last_revision r) (cr_pending r) (cr_invoking r).

Record Update (V : Type) : Type := mkUpdate {
  effective_value : V; u_revision : Z; u_persistence : PersistenceState; u_change_failures : nat;
  u_changed : bool; u_adjusted : bool; u_changes_deferred : bool }.
Arguments mkUpdate {V}. Arguments effective_value {V}. Arguments u_revision {V}.
Arguments u_persistence {V}. Arguments u_change_failures {V}. Arguments u_changed {V}.
Arguments u_adjusted {V}. Arguments u_changes_deferred {V}.

Record TransactionUpdate : Set := mkTransactionUpdate {
  t_changed : nat; t_adjusted : nat; t_change_failures : nat; t_changes_deferred : bool }.
#[export] Instance TransactionUpdate_fields : Fields TransactionUpdate := λ r,
  mkTransactionUpdate (t_changed r) (t_adjusted r) (t_change_failures r) (t_changes_deferred r).

Record PersistenceReport : Set := mkReport {
  p_visited : nat; p_saved : nat; p_clean : nat; p_failed : nat }.
#[export] Instance PersistenceReport_fields : Fields PersistenceReport := λ r,
  mkReport (p_visited r) (p_saved r) (p_clean r) (p_failed r).
Definition empty_report : PersistenceReport := mkReport 0 0 0 0.

(** ** The slot of a parameter *)
Record Slot (V : Type) : Type := mkSlot {
  value_ : V; record_ : ParameterRecord V; due_ : option Z; erase_pending_ : bool }.
Arguments mkSlot {V}. Arguments value_ {V}. Arguments record_ {V}. Arguments due_ {V}.
Arguments erase_pending_ {V}.
#[export] Instance Slot_fields {V} : Fields (Slot V) := λ s,
  mkSlot (value_ s) (record_ s) (due_ s) (erase_pending_ s).

Record PersistenceWork (V : Type) : Type := mkWork {
  work_value : V; work_revision : Z; work_due : option Z; work_dirty : bool; work_erase : bool }.
Arguments mkWork {V}. Arguments work_value {V}. Arguments work_revision {V}.
Arguments work_due {V}. Arguments work_dirty {V}. Arguments work_erase {V}.

Section Slots.
Context {V : Type}.
Implicit Types (s : Slot V) (v : V) (r : ParameterRecord V).

(** The record [initialize] assigns; the members it does not name are zero. *)
Definition initial_record (p : ParameterT V) (id : Z) : ParameterRecord V :=
  mkParameterRecord id (default_value p) (error SOk NoReason Query <| err_parameter := id |>)
    0 0 0 0 0 0 0 0 0 0 0 (descriptor_version p) 0
    (if persistent (persistence p) then Clean else Volatile) FromDefault
    (if persistent (persistence p) then NotAttempted else VolatileDefault)
    BootLoad false (writable (access p)) false false.
Definition slot_initialize (p : ParameterT V) (id : Z) (s : Slot V) : Slot V :=
  s <| value_ := default_value p |> <| record_ := initial_record p id |>.

Definition mutate_record (f : ParameterRecord V → ParameterRecord V) (s : Slot V) : Slot V :=
  s <| record_ ::= f |>.
Definition copy_record v s : ParameterRecord V := record_ s <| r_value := v |>.

Definition mark_dirty (revision : Z) (reset : bool) (due : option Z) (s : Slot V) : Slot V :=
  mutate_record (λ r, r <| r_dirty := true |> <| r_pending := true |>
      <| r_pending_revision := revision |>
      <| r_persistence := if reset then ResetPending
                          else match due with Some _ => Scheduled | None => Dirty end |>) s
    <| due_ := due |> <| erase_pending_ := reset |>.

Definition persistence_work v s : PersistenceWork V :=
  mkWork v (r_pending_revision (record_ s)) (due_ s) (r_dirty (record_ s)) (erase_pending_ s).

Definition finish_persistence (revision : Z) (status : Status) (s : Slot V) : Slot V :=
  if ok status then
    let s := mutate_record (λ r, r <| r_saves ::= inc64 |> <| r_persisted_revision := revision |>) s in
    if r_pending_revision (record_ s) =? revision then
      mutate_record (λ r, r <| r_dirty := false |> <| r_pending := false |>
        <| r_persistence := Clean |>) s <| due_ := None |> <| erase_pending_ := false |>
    else s
  else
    mutate_record (λ r, r <| r_save_failures ::= inc64 |> <| r_persistence := Failed |>) s
      <| due_ := None |>.

Definition mark_schedule_failure (status : Status) (s : Slot V) : Slot V :=
  mutate_record (λ r, r <| r_persistence := Failed |>
    <| r_last_error := error status PersistenceFailed Save <| err_parameter := r_parameter r |> |>) s
    <| due_ := None |>.

Definition mark_persisted (revision : Z) (s : Slot V) : Slot V :=
  mutate_record (λ r, r <| r_saves ::= inc64 |> <| r_persisted_revision := revision |>
    <| r_pending_revision := revision |> <| r_persistence := Clean |> <| r_dirty := false |>
    <| r_pending := false |>) s <| due_ := None |> <| erase_pending_ := false |>.

Definition mark_persistence_failure (status : Status) (op : Operation) (s : Slot V) : Slot V :=
  mutate_record (λ r, r <| r_save_failures ::= inc64 |> <| r_persistence := Failed |>
    <| r_last_error := error status PersistenceFailed op <| err_parameter := r_parameter r |> |>) s.

Definition next_due (s : Slot V) : option Z := if r_dirty (record_ s) then due_ s else None.

Definition mark_loaded v (source : LoadSource) (outcome : LoadOutcome) (stored_version : Z) s :
    Slot V :=
  mutate_record (λ r, r <| r_value := v |> <| r_stored_version := stored_version |>
    <| r_load_source := source |> <| r_load_outcome := outcome |> <| r_persistence := Clean |>
    <| r_dirty := false |> <| r_pending := false |>) (s <| value_ := v |>)
    <| due_ := None |> <| erase_pending_ := false |>.
End Slots.

(** ** The state of a persistence group *)
Record GroupState : Set := mkGroupState {
  g_revision : Z; g_due : option Z; g_dirty : bool }.
#[export] Instance GroupState_fields : Fields GroupState := λ g,
  mkGroupState (g_revision g) (g_due g) (g_dirty g).

Definition group_initialize : GroupState := mkGroupState 0 None false.
Definition group_mark_dirty (due : option Z) (g : GroupState) : GroupState :=
  mkGroupState (inc64 (g_revision g)) due true.
(** [work()] copies the members; [finish] also tells whether it cleared them. *)
Definition group_finish (revision : Z) (success : bool) (g : GroupState) : bool * GroupState :=
  if success && (g_revision g =? revision)
  then (true, g <| g_dirty := false |> <| g_due := None |>)
  else if negb success then (false, g <| g_due := None |>) else (false, g).

(** ** The state of a change hook *)
Record ChangeState (V : Type) : Type := mkChangeState {
  pending_ : option (Change V); change_record_ : ChangeRecord }.
Arguments mkChangeState {V}. Arguments pending_ {V}. Arguments change_record_ {V}.
#[export] Instance ChangeState_fields {V} : Fields (ChangeState V) := λ c,
  mkChangeState (pending_ c) (change_record_ c).

Section Changes.
Context {V : Type}.

Definition change_initialize (change parameter observer : Z) : ChangeState V :=
  mkChangeState None (mkChangeRecord change parameter observer SNotReady 0 0 0 0 0 0 false false).

Definition change_defer (c : Change V) (s : ChangeState V) : ChangeState V :=
  match pending_ s with
  | Some p =>
    s <| pending_ := Some (mkChange (old_value p) (new_value c) (ch_revision c) (ch_origin c)
                             (ch_adjusted p || ch_adjusted c)
                             (ch_transaction p || ch_transaction c) (ch_reset p || ch_reset c)) |>
      <| change_record_ ::= λ r, r <| cr_coalesced ::= inc64 |> <| cr_pending := true |> |>
  | None =>
    s <| pending_ := Some c |>
      <| change_record_ ::= λ r, r <| cr_deferred ::= inc64 |> <| cr_pending := true |> |>
  end.

Definition take_pending (s : ChangeState V) : option (Change V) * ChangeState V :=
  (pending_ s, s <| pending_ := None |> <| change_record_ ::= λ r, r <| cr_pending := false |> |>).

Definition begin_invoke (s : ChangeState V) : ChangeState V :=
  s <| change_record_ ::= λ r, r <| cr_invoking := true |> |>.

Definition finish_invoke (revision : Z) (status : Status) (s : ChangeState V) : ChangeState V :=
  s <| change_record_ ::= λ r,
    (if ok status then r <| cr_succeeded ::= inc64 |> else r <| cr_failed ::= inc64 |>)
      <| cr_invocations ::= inc64 |> <| cr_last_revision := revision |>
      <| cr_last_status := status |> <| cr_invoking := false |> |>.
End Changes.

(** ** The state of the facility *)
Record ChangeDeclaration : Set := mkChangeDeclaration {
  changed_parameter : nat; change_observer : Z }.

Record State (V St : Type) : Type := mkState {
  slot : nat → Slot V;
  group_state : nat → GroupState;
  change_state : nat → ChangeState V;
  write_gate : bool;              (* held *)
  persistence_gate : bool;        (* held *)
  ready : bool;
  mutation_open : bool;
  activating_changes : bool;
  persistence_active : bool;
  schedule_set : bool;            (* [schedule_persistence != nullptr] *)
  stores : St }.
Arguments mkState {V St}. Arguments slot {V St}. Arguments group_state {V St}.
Arguments change_state {V St}. Arguments write_gate {V St}. Arguments persistence_gate {V St}.
Arguments ready {V St}. Arguments mutation_open {V St}. Arguments activating_changes {V St}.
Arguments persistence_active {V St}. Arguments schedule_set {V St}. Arguments stores {V St}.
#[export] Instance State_fields {V St} : Fields (State V St) := λ s,
  mkState (slot s) (group_state s) (change_state s) (write_gate s) (persistence_gate s) (ready s)
    (mutation_open s) (activating_changes s) (persistence_active s) (schedule_set s) (stores s).
End TypedParameters.
