(* ===== verification/ParametersPrograms.v ===== *)
(** * ParametersPrograms: the operations of the parameter facility

    Models [include/solar/parameters/runtime.hpp] but for loading at boot: the
    reads, updates, snapshots and transactions of a running system and the
    operations that persist values.  Each is a program of atomic steps
    (Interleave.v): a section under a record's spin lock, an access to a
    value cell, an atomic flag, a call of the store, an attempt to lock one of
    the two gates.  A lock attempt that must wait is repeated; [fuel] bounds
    the repetitions.  The lifecycle state, the clock, contention, the executor
    and the change handlers answer through the environment of the step;
    [isr] tells whether the caller is an interrupt handler. *)
From stdpp Require Import prelude functions.
From S2P Require Import Prelude Status Interleave Lifecycle ParametersRecord Parameters.

Open Scope Z_scope.
Open Scope solar_scope.

Module ParameterPrograms.
Import Records TypedParameters.

(** ** What a system is built from

    The registered types in the order of their lists, the configured limits,
    and the adapters of the persistence stores over the state [St] of the
    storage. *)
Class Architecture (V St : Type) := {
  parameter : nat → ParameterT V;
  parameters : nat;
  group : nat → Group V;
  groups : nat;
  change : nat → ChangeDeclaration;
  changes : nat;
  max_encoded_record_bytes : nat;
  max_group_record_bytes : nat;
  flush_deferred_on_stop : bool;
  store_list : list nat;
  store_initialize : nat → St → Records.Result unit * St;
  store_load : nat → Key → list Z → St → Records.Result nat * list Z;
  store_save : nat → Key → list Z → St → Records.Result unit * St;
  store_erase : nat → Key → St → Records.Result unit * St }.

Record Env : Set := mkEnv {
  system_state : SystemState;          (* of the lifecycle engine *)
  lock_error : bool → option Status;   (* of [k_mutex_lock], by whether it may not wait *)
  after : Z → Z;                       (* [Deadline::after] *)
  expired : Z → bool;                  (* [Deadline::expired] *)
  remaining : Z → Z;                   (* [Deadline::remaining], in nanoseconds, 0 once expired *)
  schedule_answer : Z → option Status; (* of [schedule_registration] *)
  cancel_answer : option Status;       (* of [cancel_registration] *)
  quiescent : bool;                    (* of the deferred task, within the time allowed *)
  handler_answer : nat → option Status (* of [Handler::changed] *) }.

Section Programs.
Context {V St : Type} `{!ValueType V} `{!Architecture V St}.
Context (fuel : nat) (isr : bool).

Local Abbreviation State := (TypedParameters.State V St).
Definition Program (A : Type) : Type := Prog Env State A.

(** ** Steps *)
Definition get {A} (f : Env → State → A) (e : Env) (s : State) : A * State := (f e s, s).
Definition update (f : Env → State → State) (e : Env) (s : State) : unit * State := (tt, f e s).
Definition on_slot (i : nat) (f : Slot V → Slot V) (s : State) : State :=
  s <| slot ::= λ sl, <[i := f (sl i)]> sl |>.
Definition on_group (g : nat) (f : GroupState → GroupState) (s : State) : State :=
  s <| group_state ::= λ gs, <[g := f (gs g)]> gs |>.
Definition on_change (c : nat) (f : ChangeState V → ChangeState V) (s : State) : State :=
  s <| change_state ::= λ cs, <[c := f (cs c)]> cs |>.
Definition set_slot (i : nat) (f : Slot V → Slot V) : Env → State → unit * State :=
  update (λ _, on_slot i f).

(** ** The gates *)
Inductive Gate : Set := WriteGate | PersistenceGate.
Definition held (g : Gate) (s : State) : bool :=
  match g with WriteGate => write_gate s | PersistenceGate => persistence_gate s end.
Definition set_held (g : Gate) (b : bool) (s : State) : State :=
  match g with WriteGate => s <| write_gate := b |> | PersistenceGate => s <| persistence_gate := b |> end.

(** [None] is an attempt that has to wait. *)
Definition attempt (g : Gate) (no_wait : bool) (e : Env) (s : State) :
    option (result Status unit) * State :=
  if isr then (Some (Err SInvalid), s) else
  match lock_error e no_wait with
  | Some status => (Some (Err status), s)
  | None =>
    if held g s then (if no_wait then Some (Err SWouldBlock) else None, s)
    else (Some (Ok tt), set_held g true s)
  end.
Definition release (g : Gate) : Env → State → unit * State := update (λ _, set_held g false).

(** ** Value cells *)
Definition cell_lock (no_wait : bool) (i : nat) (e : Env) : option Status :=
  match storage (parameter i) with
  | AtomicStorage => None
  | _ => if isr then Some SInvalid else lock_error e no_wait
  end.
Definition peek (no_wait : bool) (i : nat) : Env → State → result Status V * State :=
  get (λ e s, match cell_lock no_wait i e with
              | Some status => Err status
              | None => Ok (value_ (slot s i))
              end).
Definition write (i : nat) (v : V) (e : Env) (s : State) : result Status unit * State :=
  match cell_lock false i e with
  | Some status => (Err status, s)
  | None => (Ok tt, on_slot i (λ sl, sl <| value_ := v |>) s)
  end.

(** ** Errors and keys *)
Definition make_error (i : nat) (op : Operation) (s : Status) (r : Reason) : Error :=
  error s r op <| err_parameter := Z.of_nat i |> <| err_stable_id := descriptor_id (parameter i) |>.
Definition lock_reason (s : Status) : Reason :=
  if bool_decide (s = SWouldBlock) then WouldBlock else InternalInvariant.
Definition save_reason (s : Status) : Reason :=
  if bool_decide (s = SWouldBlock) then WouldBlock else PersistenceFailed.

Definition persistence_key (i : nat) : Key :=
  mkKey RecordKind_Parameter (default 0 (descriptor_id (parameter i))).
Definition group_key (g : nat) : Key := mkKey RecordKind_Group (group_id (group g)).

(** ** Encoding *)
Definition encode_persistent_value (i : nat) (v : V) (output : list Z) : Checked (nat * list Z) :=
  let c := codec (parameter i) in
  match codec_encode c v (replicate (encoded_size c) 0) with
  | None => None
  | Some (Err e) => fail (status_of e)
  | Some (Ok (size, payload)) =>
    if (size =? encoded_size c)%nat
    then encode_record (persistence_key i) (descriptor_version (parameter i)) payload output
    else fail SProtocolError
  end.

(** [None]: the codec's behaviour is undefined. *)
Definition persist_value (i store : nat) (v : V) (erase : bool) (st : St) :
    option (Records.Result unit * St) :=
  if erase then Some (store_erase store (persistence_key i) st) else
  match encode_persistent_value i v (replicate max_encoded_record_bytes 0) with
  | None => None
  | Some (Err e) => Some (Err e, st)
  | Some (Ok (size, record)) => Some (store_save store (persistence_key i) (take size record) st)
  end.

Definition group_payload_size (g : nat) : nat :=
  sum_list_with (λ i, encoded_size (codec (parameter i))) (members (group g)).

(** The member at [offset] of the group's payload. *)
Definition encode_member (i : nat) (v : V) (output : list Z) (offset : nat) : Checked (list Z) :=
  let c := codec (parameter i) in
  if (length output <? offset + encoded_size c)%nat then None else
  match codec_encode c v (take (encoded_size c) (drop offset output)) with
  | None => None
  | Some (Err e) => fail (status_of e)
  | Some (Ok (size, bytes)) =>
    if (size =? encoded_size c)%nat
    then succeed (take offset output ++ bytes ++ drop (offset + encoded_size c) output)
    else fail SProtocolError
  end.

Definition persist_record (g : nat) (payload : list Z) (st : St) : option (Records.Result unit * St) :=
  match encode_record (group_key g) (group_version (group g)) payload
          (replicate max_group_record_bytes 0) with
  | None => None
  | Some (Err e) => Some (Err e, st)
  | Some (Ok (size, record)) => Some (store_save (group_store (group g)) (group_key g) (take size record) st)
  end.

(** A call of the store is one step. *)
Definition call_store (f : St → option (Records.Result unit * St)) (e : Env) (s : State) :
    option (Records.Result unit) * State :=
  match f (stores s) with
  | None => (None, s)
  | Some (r, st) => (Some r, s <| stores := st |>)
  end.

(** ** Deadlines *)
Definition earlier (due : option Z) (earliest : option Z) : option Z :=
  match due with
  | None => earliest
  | Some d => match earliest with
              | None => Some d
              | Some d' => if d <? d' then Some d else Some d'
              end
  end.

(** [EffectiveDeferred] *)
Definition effective_deferred (p : Persistence) : bool :=
  match p with Transactional g => deferred (commit (group g)) | _ => deferred p end.
Definition has_deferred : bool :=
  existsb (λ i, deferred (persistence (parameter i))) (seq 0 parameters)
  || existsb (λ g, deferred (commit (group g))) (seq 0 groups).

(** Not yet due, unless forced. *)
Definition not_due (force : bool) (due : option Z) (e : Env) : bool :=
  negb force && match due with Some d => negb (expired e d) | None => false end.

Open Scope prog_scope.

(** ** Control *)
Definition attempt_result {E A} (p : Program (result E A)) {B} (k : A → Program (result E B)) :
    Program (result E B) :=
  bind p (λ r, match r with Err e => Done (Err e) | Ok a => k a end).

Fixpoint for_each {B} (l : list nat) (body : nat → B → Program B) (b : B) : Program B :=
  match l with
  | [] => Done b
  | i :: l => b' ⇇ body i b; for_each l body b'
  end.

Fixpoint lock_loop (n : nat) (g : Gate) (no_wait : bool) : Program (result Status unit) :=
  match n with
  | O => Stalled
  | S n =>
    r ← attempt g no_wait;
    match r with Some r => Done r | None => lock_loop n g no_wait end
  end.
Definition lock (g : Gate) (no_wait : bool) : Program (result Status unit) := lock_loop fuel g no_wait.

(** [p] while the gate is held, with the error of the lock mapped by [f]. *)
Definition with_gate {E A} (g : Gate) (no_wait : bool) (f : Status → E) (p : Program (result E A)) :
    Program (result E A) :=
  l ⇇ lock g no_wait;
  match l with
  | Err status => Done (Err (f status))
  | Ok _ => r ⇇ p; _ ← release g; Done r
  end.

Definition store_call (f : St → option (Records.Result unit * St)) : Program (Records.Result unit) :=
  r ← call_store f; match r with None => Stalled | Some r => Done r end.
End Programs.
Arguments Program V St A : clear implicits.

Notation "x ⟵ p ; k" := (attempt_result p (λ x, k))
  (at level 20, p at level 100, k at level 200, right associativity) : prog_scope.

Section Operations.
Context {V St : Type} `{!ValueType V} `{!Architecture V St}.
Context (fuel : nat) (isr : bool).

Local Abbreviation State := (TypedParameters.State V St).
Local Abbreviation Program := (Program V St).
Implicit Types (s : State) (v : V).
Open Scope prog_scope.

(** ** Reading *)
Definition read_slot (no_wait : bool) (i : nat) : Program (result Status V) :=
  r ← peek isr no_wait i;
  _ ← set_slot i (mutate_record (λ rec, if is_ok r then rec <| r_reads ::= inc64 |> else rec));
  Done r.

Definition read_parameter (no_wait : bool) (i : nat) : Program (result Error V) :=
  let op := if no_wait then TryGet else Get in
  if isr then Done (Err (make_error i op SInvalid InvalidContext)) else
  is_ready ← get (λ _ s, ready s);
  if negb is_ready then Done (Err (make_error i op SNotReady NotReady)) else
  r ⇇ read_slot no_wait i;
  match r with
  | Err status => Done (Err (make_error i op status (lock_reason status)))
  | Ok v => Done (Ok v)
  end.

(** [get_isr]: only for atomic storage. *)
Definition get_isr (i : nat) : Program (result Error V) :=
  if negb isr then Done (Err (make_error i GetIsr SInvalid InvalidContext)) else
  is_ready ← get (λ _ s, ready s);
  if negb is_ready then Done (Err (make_error i GetIsr SNotReady NotReady)) else
  v ← get (λ _ s, value_ (slot s i));
  Done (Ok v).

(** ** Change hooks *)
Definition invoke_change (c : nat) (ch : Change V) : Program (result Status unit) :=
  let i := changed_parameter (change c) in
  _ ← update (λ _, on_change c begin_invoke);
  answer ← get (λ e _, handler_answer e c);
  let status := default SOk answer in
  _ ← update (λ _, on_change c (finish_invoke (ch_revision ch) status));
  match answer with
  | None => Done (Ok tt)
  | Some status =>
    _ ← set_slot i (mutate_record (λ r, r <| r_change_failures ::= inc64 |>
          <| r_last_error := make_error i ActivateChanges status ChangeHandlerFailed |>));
    Done (Err status)
  end.

(** One hook told of a change: deferred until activation, or invoked now. *)
Definition notify (c : nat) (ch : Change V) (deferred : bool) (failures : nat) : Program nat :=
  if deferred then _ ← update (λ _, on_change c (change_defer ch)); Done failures
  else r ⇇ invoke_change c ch; Done (if is_ok r then failures else S failures).

Definition dispatch_change (i : nat) (ch : Change V) (deferred : bool) : Program nat :=
  for_each (seq 0 changes) (λ c failures,
    if (changed_parameter (change c) =? i)%nat then notify c ch deferred failures
    else Done failures) 0%nat.

(** ** Group images *)

(** The next member appended to the payload; [provider] supplies its value. *)
Definition encode_next (provider : nat → Program (result Status V)) (i : nat)
    (acc : result Status (list Z * nat)) : Program (result Status (list Z * nat)) :=
  match acc with
  | Err status => Done (Err status)
  | Ok (output, offset) =>
    v ⟵ provider i;
    match encode_member i v output offset with
    | None => Stalled
    | Some (Err e) => Done (Err (status_of e))
    | Some (Ok output) => Done (Ok (output, (offset + encoded_size (codec (parameter i)))%nat))
    end
  end.

(** The payload and its size. *)
Definition encode_group_payload (g : nat) (provider : nat → Program (result Status V)) :
    Program (result Status (list Z * nat)) :=
  if (max_group_record_bytes <? group_payload_size g)%nat then Done (Err SNoBuffer) else
  for_each (members (group g)) (encode_next provider) (Ok (replicate max_group_record_bytes 0, 0%nat)).

Definition persist_group_image (g : nat) (provider : nat → Program (result Status V)) :
    Program (result Status unit) :=
  p ⟵ encode_group_payload g provider;
  r ⇇ store_call (persist_record g (take p.2 p.1));
  Done match r with Err e => Err (status_of e) | Ok _ => Ok tt end.

Definition peek_member (i : nat) : Program (result Status V) := r ← peek isr false i; Done r.

(** ** Persisting an update before it is published *)
Definition prepare_failure (i : nat) (op : Operation) (status : Status) : Program (result Error unit) :=
  _ ← set_slot i (mark_persistence_failure status op);
  Done (Err (make_error i op status PersistenceFailed)).

Definition gate_failure (i : nat) (status : Status) : Error :=
  make_error i Save status PersistenceUnavailable.

Definition prepare_immediate_persistence (i : nat) v (reset : bool) : Program (result Error unit) :=
  let op := if reset then OpReset else Save in
  match persistence (parameter i) with
  | Immediate store =>
    with_gate fuel isr PersistenceGate false (gate_failure i)
      (r ⇇ store_call (persist_value i store v reset);
       match r with
       | Err e => prepare_failure i op (status_of e)
       | Ok _ => Done (Ok tt)
       end)
  | Transactional g =>
    if immediate (commit (group g)) then
      with_gate fuel isr PersistenceGate false (gate_failure i)
        (r ⇇ persist_group_image g (λ j, if (j =? i)%nat then Done (Ok v) else peek_member j);
         match r with
         | Err status => prepare_failure i op status
         | Ok _ => Done (Ok tt)
         end)
    else Done (Ok tt)
  | _ => Done (Ok tt)
  end.

Definition mark_committed_persistence (i : nat) (revision : Z) (reset : bool) :
    Program PersistenceState :=
  match persistence (parameter i) with
  | PVolatile => Done Volatile
  | Immediate _ => _ ← set_slot i (mark_persisted revision); Done Clean
  | Deferred _ delay =>
    _ ← update (λ e, on_slot i (mark_dirty revision reset (Some (after e delay))));
    Done (if reset then ResetPending else Scheduled)
  | Transactional g =>
    match commit (group g) with
    | Immediate _ => _ ← set_slot i (mark_persisted revision); Done Clean
    | Deferred _ delay =>
      due ← get (λ e _, after e delay);
      _ ← set_slot i (mark_dirty revision reset (Some due));
      _ ← update (λ _, on_group g (group_mark_dirty (Some due)));
      Done (if reset then ResetPending else Scheduled)
    | _ =>
      _ ← set_slot i (mark_dirty revision reset None);
      _ ← update (λ _, on_group g (group_mark_dirty None));
      Done (if reset then ResetPending else Dirty)
    end
  | Manual _ =>
    _ ← set_slot i (mark_dirty revision reset None);
    Done (if reset then ResetPending else Dirty)
  end.

(** ** The deferred task *)
Definition earliest_due : Program (option Z) :=
  earliest ⇇ for_each (seq 0 parameters) (λ i earliest,
    if effective_deferred (persistence (parameter i))
    then due ← get (λ _ s, next_due (slot s i)); Done (earlier due earliest)
    else Done earliest) None;
  for_each (seq 0 groups) (λ g earliest,
    if deferred (commit (group g))
    then w ← get (λ _ s, group_state s g);
         Done (if g_dirty w then earlier (g_due w) earliest else earliest)
    else Done earliest) earliest.

(** The delay until the earliest deadline, handed to the executor. *)
Definition schedule_earliest : Program (result Status unit) :=
  earliest ⇇ earliest_due;
  match earliest with
  | None => Done (Ok tt)
  | Some due =>
    answer ← get (λ e _, schedule_answer e (remaining e due));
    Done match answer with Some status => Err status | None => Ok tt end
  end.

Definition schedule_deferred_persistence : Program (result Status unit) :=
  if negb has_deferred then Done (Ok tt) else
  active ← get (λ _ s, persistence_active s);
  if negb active then Done (Ok tt) else schedule_earliest.

Definition schedule_next_deferred : Program (result Status unit) :=
  if negb has_deferred then Done (Ok tt) else
  active ← get (λ _ s, persistence_active s);
  if negb active then Done (Ok tt) else
  set ← get (λ _ s, schedule_set s);
  if negb set then Done (Ok tt) else schedule_earliest.

(** Scheduling after an update of a deferred parameter. *)
Definition reschedule (i : nat) (p : PersistenceState) : Program PersistenceState :=
  if effective_deferred (persistence (parameter i)) then
    r ⇇ schedule_deferred_persistence;
    match r with
    | Ok _ => Done p
    | Err status => _ ← set_slot i (mark_schedule_failure status); Done Failed
    end
  else Done p.

(** ** Updating one parameter *)
Inductive Outcome : Type :=
  | Unchanged (revision : Z) (p : PersistenceState)
  | Committed (old : V) (revision : Z) (p : PersistenceState).

(** What [set_parameter] does while it holds the write gate. *)
Definition set_gated (i : nat) (n : Normalized V) (no_wait : bool) (op : Operation)
    (origin : UpdateOrigin) (reset : bool) : Program (result Error Outcome) :=
  old ← peek isr no_wait i;
  match old with
  | Err status => Done (Err (make_error i op status (lock_reason status)))
  | Ok old =>
    before ← get (λ _ s, copy_record old (slot s i));
    if equal old (value n) then
      p ⟵ (if reset then
              _ ⟵ prepare_immediate_persistence i (value n) true;
              p ⇇ mark_committed_persistence i (r_revision before) true;
              Done (Ok p)
            else Done (Ok (r_persistence before)));
      _ ← set_slot i (mutate_record (λ r,
            (if adjusted n then r <| r_validation_adjustments ::= inc64 |> else r)
              <| r_unchanged ::= inc64 |> <| r_last_origin := origin |>));
      Done (Ok (Unchanged (r_revision before) p))
    else
      _ ⟵ prepare_immediate_persistence i (value n) reset;
      w ← write isr i (value n);
      match w with
      | Err status => Done (Err (make_error i op status InternalInvariant))
      | Ok _ =>
        let revision := inc64 (r_revision before) in
        _ ← set_slot i (mutate_record (λ r,
              (if adjusted n then r <| r_validation_adjustments ::= inc64 |> else r)
                <| r_value := value n |> <| r_revision := revision |> <| r_updates ::= inc64 |>
                <| r_last_origin := origin |> <| r_last_error := make_error i op SOk NoReason |>));
        p ⇇ mark_committed_persistence i revision reset;
        Done (Ok (Committed old revision p))
      end
  end.

(** The lifecycle states in which nothing may change any more. *)
Definition closed_state (st : SystemState) : bool :=
  match st with Stopping | RollingBack | Stopped | Lifecycle.Failed => true | _ => false end.
Definition is_running (st : SystemState) : bool := match st with Running => true | _ => false end.

(** The lifecycle state, unless the facility takes no updates. *)
Definition mutable_state : Program (option SystemState) :=
  st ← get (λ e _, system_state e);
  is_ready ← get (λ _ s, ready s);
  if negb is_ready then Done None else
  is_open ← get (λ _ s, mutation_open s);
  if negb is_open || closed_state st then Done None else Done (Some st).

(** Are hooks of an update deferred? *)
Definition hooks_deferred (st : SystemState) : Program bool :=
  if is_running st then Done false else
  activating ← get (λ _ s, activating_changes s); Done (negb activating).

Definition set_parameter (i : nat) (candidate : V) (no_wait : bool) (origin : UpdateOrigin)
    (reset : bool) : Program (result Error (Update V)) :=
  let op := if reset then OpReset else if no_wait then TrySet else OpSet in
  if isr then Done (Err (make_error i op SInvalid InvalidContext)) else
  st ⇇ mutable_state;
  match st with
  | None => Done (Err (make_error i op SNotReady NotReady))
  | Some st =>
    match normalize (validation (parameter i)) candidate with
    | Err _ =>
      _ ← set_slot i (mutate_record (λ r, r <| r_rejected ::= inc64 |>
            <| r_last_error := make_error i op SInvalid ValidationRejected |>));
      Done (Err (make_error i op SInvalid ValidationRejected))
    | Ok n =>
      o ⟵ with_gate fuel isr WriteGate no_wait (λ status, make_error i op status (lock_reason status))
             (set_gated i n no_wait op origin reset);
      match o with
      | Unchanged revision p =>
        p ⇇ (if reset then reschedule i p else Done p);
        Done (Ok (mkUpdate (value n) revision p 0 false (adjusted n) false))
      | Committed old revision p =>
        p ⇇ reschedule i p;
        deferred ⇇ hooks_deferred st;
        failures ⇇ dispatch_change i
          (mkChange old (value n) revision origin (adjusted n)
             match origin with LocalTransaction => true | _ => false end reset) deferred;
        Done (Ok (mkUpdate (value n) revision p failures true (adjusted n) deferred))
      end
    end
  end.

(** ** Queries and snapshots *)
Definition parameter_record (i : nat) : Program (result Error (ParameterRecord V)) :=
  is_ready ← get (λ _ s, ready s);
  if negb is_ready then Done (Err (make_error i Query SNotReady NotReady)) else
  with_gate fuel isr WriteGate false (λ status, make_error i Query status InternalInvariant)
    (v ← peek isr false i;
     match v with
     | Err status => Done (Err (make_error i Query status InternalInvariant))
     | Ok v =>
       record ← get (λ _ s, copy_record v (slot s i));
       Done (Ok (record <| r_ready := true |>))
     end).

Definition change_record (c : nat) : Program ChangeRecord :=
  record ← get (λ _ s, change_record_ (change_state s c));
  Done (record <| cr_change := Z.of_nat c |>
          <| cr_parameter := Z.of_nat (changed_parameter (change c)) |>
          <| cr_observer := change_observer (change c) |>).

Fixpoint read_snapshot_values (l : list nat) (no_wait : bool) : Program (result Error (list V)) :=
  match l with
  | [] => Done (Ok [])
  | i :: l =>
    v ← peek isr no_wait i;
    match v with
    | Err status => Done (Err (make_error i OpSnapshot status (lock_reason status)))
    | Ok v => vs ⟵ read_snapshot_values l no_wait; Done (Ok (v :: vs))
    end
  end.

Definition snapshot_parameters (l : list nat) (no_wait : bool) : Program (result Error (list V)) :=
  if isr then Done (Err (error SInvalid InvalidContext OpSnapshot)) else
  is_ready ← get (λ _ s, ready s);
  if negb is_ready then Done (Err (error SNotReady NotReady OpSnapshot)) else
  with_gate fuel isr WriteGate no_wait (λ status, error status (lock_reason status) OpSnapshot)
    (read_snapshot_values l no_wait).

(** ** Transactions *)
Record TransactionState : Type := mkTransaction {
  ts_parameter : nat; normalized : Normalized V; ts_old : V; ts_before : ParameterRecord V;
  ts_changed : bool }.

Fixpoint normalize_transaction (assignments : list (nat * V)) :
    result Error (list (nat * Normalized V)) :=
  match assignments with
  | [] => Ok []
  | (i, candidate) :: rest =>
    match normalize (validation (parameter i)) candidate with
    | Err _ => Err (make_error i Transaction SInvalid ValidationRejected)
    | Ok n => result_map (cons (i, n)) (normalize_transaction rest)
    end
  end.

Fixpoint capture_transaction (l : list (nat * Normalized V)) (no_wait : bool) :
    Program (result Error (list TransactionState)) :=
  match l with
  | [] => Done (Ok [])
  | (i, n) :: l =>
    old ← peek isr no_wait i;
    match old with
    | Err status => Done (Err (make_error i Transaction status (lock_reason status)))
    | Ok old =>
      before ← get (λ _ s, copy_record old (slot s i));
      rest ⟵ capture_transaction l no_wait;
      Done (Ok (mkTransaction i n old before (negb (equal old (value n))) :: rest))
    end
  end.

Fixpoint write_transaction_values (l : list TransactionState) : Program (result Error unit) :=
  match l with
  | [] => Done (Ok tt)
  | t :: l =>
    if ts_changed t then
      w ← write isr (ts_parameter t) (value (normalized t));
      match w with
      | Err status => Done (Err (make_error (ts_parameter t) Transaction status InternalInvariant))
      | Ok _ => write_transaction_values l
      end
    else write_transaction_values l
  end.

Fixpoint restore_transaction_values (l : list TransactionState) : Program unit :=
  match l with
  | [] => Done tt
  | t :: l =>
    if ts_changed t then _ ← write isr (ts_parameter t) (ts_old t); restore_transaction_values l
    else restore_transaction_values l
  end.

Definition transaction_record (t : TransactionState) (r : ParameterRecord V) : ParameterRecord V :=
  let r := if ts_changed t
           then r <| r_value := value (normalized t) |>
                  <| r_revision := inc64 (r_revision (ts_before t)) |> <| r_updates ::= inc64 |>
           else r <| r_unchanged ::= inc64 |> in
  (if adjusted (normalized t) then r <| r_validation_adjustments ::= inc64 |> else r)
    <| r_last_origin := LocalTransaction |>
    <| r_last_error := make_error (ts_parameter t) Transaction SOk NoReason |>.

Fixpoint update_transaction_records (l : list TransactionState) : Program unit :=
  match l with
  | [] => Done tt
  | t :: l =>
    _ ← set_slot (ts_parameter t) (mutate_record (transaction_record t));
    update_transaction_records l
  end.

Definition transaction_state (l : list TransactionState) (i : nat) : option TransactionState :=
  find (λ t, (ts_parameter t =? i)%nat) l.
Definition touched (g : nat) (l : list TransactionState) : bool :=
  existsb (λ t, existsb (Nat.eqb (ts_parameter t)) (members (group g))) l.

(** A member's value in the image of its group. *)
Definition transaction_provider (l : list TransactionState) (i : nat) : Program (result Status V) :=
  match transaction_state l i with
  | Some t => Done (Ok (value (normalized t)))
  | None => peek_member i
  end.

Fixpoint prepare_transaction_values (l : list TransactionState) : Program (result Error unit) :=
  match l with
  | [] => Done (Ok tt)
  | t :: l =>
    _ ⟵ (if immediate (persistence (parameter (ts_parameter t))) && ts_changed t
          then prepare_immediate_persistence (ts_parameter t) (value (normalized t)) false
          else Done (Ok tt));
    prepare_transaction_values l
  end.

Definition group_error (g : nat) (op : Operation) (status : Status) (r : Reason) : Error :=
  error status r op <| err_group_id := Some (group_id (group g)) |>.

Definition prepare_transaction_groups (l : list TransactionState) : Program (result Error unit) :=
  for_each (seq 0 groups) (λ g acc,
    match acc with
    | Err e => Done (Err e)
    | Ok _ =>
      if immediate (commit (group g)) && touched g l then
        with_gate fuel isr PersistenceGate false
          (λ status, group_error g Transaction status PersistenceUnavailable)
          (r ⇇ persist_group_image g (transaction_provider l);
           Done match r with
                | Err status => Err (group_error g Transaction status PersistenceFailed)
                | Ok _ => Ok tt
                end)
      else Done (Ok tt)
    end) (Ok tt).

Definition prepare_transaction_persistence (l : list TransactionState) : Program (result Error unit) :=
  _ ⟵ prepare_transaction_values l;
  prepare_transaction_groups l.

Fixpoint mark_transaction_persistence (l : list TransactionState) : Program unit :=
  match l with
  | [] => Done tt
  | t :: l =>
    if ts_changed t then
      _ ⇇ mark_committed_persistence (ts_parameter t) (inc64 (r_revision (ts_before t))) false;
      mark_transaction_persistence l
    else mark_transaction_persistence l
  end.

Definition dispatch_transaction_changes (l : list TransactionState) (deferred : bool) :
    Program TransactionUpdate :=
  let n_changed := length (List.filter ts_changed l) in
  let n_adjusted := length (List.filter (λ t, adjusted (normalized t)) l) in
  failures ⇇ for_each (seq 0 changes) (λ c failures,
    match transaction_state l (changed_parameter (change c)) with
    | Some t =>
      if ts_changed t then
        notify c (mkChange (ts_old t) (value (normalized t)) (inc64 (r_revision (ts_before t)))
                    LocalTransaction (adjusted (normalized t)) true false) deferred failures
      else Done failures
    | None => Done failures
    end) 0%nat;
  Done (mkTransactionUpdate n_changed n_adjusted failures (deferred && negb (n_changed =? 0)%nat)).

(** What [set_all_parameters] does while it holds the write gate. *)
Definition transaction_gated (l : list (nat * Normalized V)) (no_wait : bool) :
    Program (result Error (list TransactionState)) :=
  states ⟵ capture_transaction l no_wait;
  _ ⟵ prepare_transaction_persistence states;
  w ⇇ write_transaction_values states;
  match w with
  | Err e => _ ⇇ restore_transaction_values states; Done (Err e)
  | Ok _ =>
    _ ⇇ update_transaction_records states;
    _ ⇇ mark_transaction_persistence states;
    Done (Ok states)
  end.

Definition transaction_deferred (t : TransactionState) : bool :=
  effective_deferred (persistence (parameter (ts_parameter t))).

Definition reschedule_transaction (l : list TransactionState) : Program unit :=
  if existsb transaction_deferred l then
    r ⇇ schedule_deferred_persistence;
    match r with
    | Ok _ => Done tt
    | Err status =>
      for_each (map ts_parameter (List.filter transaction_deferred l))
        (λ i _, _ ← set_slot i (mark_schedule_failure status); Done tt) tt
    end
  else Done tt.

Definition set_all_parameters (assignments : list (nat * V)) (no_wait : bool) :
    Program (result Error TransactionUpdate) :=
  if isr then Done (Err (error SInvalid InvalidContext Transaction)) else
  st ⇇ mutable_state;
  match st with
  | None => Done (Err (error SNotReady NotReady Transaction))
  | Some st =>
    match normalize_transaction assignments with
    | Err e => Done (Err e)
    | Ok l =>
      states ⟵ with_gate fuel isr WriteGate no_wait
                  (λ status, error status (lock_reason status) Transaction)
                  (transaction_gated l no_wait);
      _ ⇇ reschedule_transaction states;
      deferred ⇇ hooks_deferred st;
      u ⇇ dispatch_transaction_changes states deferred;
      Done (Ok u)
    end
  end.

(** ** Saving *)
Definition persist_parameter_slot (i : nat) (force no_wait : bool) : Program (result Status bool) :=
  match store_of (persistence (parameter i)) with
  | None => Done (Ok false)
  | Some store =>
    work ⟵ with_gate fuel isr WriteGate no_wait id
      (v ← peek isr false i;
       match v with
       | Err status => Done (Err status)
       | Ok v => work ← get (λ _ s, persistence_work v (slot s i)); Done (Ok work)
       end);
    skip ← get (λ e _, not_due force (work_due work) e);
    if negb (work_dirty work) || skip then Done (Ok false) else
    with_gate fuel isr PersistenceGate no_wait id
      (r ⇇ store_call (persist_value i store (work_value work) (work_erase work));
       let status := match r with Ok _ => SOk | Err e => status_of e end in
       _ ← set_slot i (finish_persistence (work_revision work) status);
       Done match r with Ok _ => Ok true | Err e => Err (status_of e) end)
  end.

(** The member's record after the image of its group was saved. *)
Definition finish_member (saved cleared : bool) (status : Status) (i : nat) : Program unit :=
  v ← peek isr false i;
  match v with
  | Err _ => Done tt
  | Ok v =>
    work ← get (λ _ s, persistence_work v (slot s i));
    if negb saved || cleared then
      _ ← set_slot i (finish_persistence (work_revision work) status); Done tt
    else Done tt
  end.

Definition finish_group (g : nat) (revision : Z) (success : bool) (_ : Env) s : bool * State :=
  let '(cleared, gs) := group_finish revision success (group_state s g) in
  (cleared, on_group g (λ _, gs) s).

Definition persist_group_slot (g : nat) (force no_wait : bool) : Program (result Status bool) :=
  work ← get (λ _ s, group_state s g);
  skip ← get (λ e _, not_due force (g_due work) e);
  if negb (g_dirty work) || skip then Done (Ok false) else
  p ⟵ with_gate fuel isr WriteGate no_wait id (encode_group_payload g peek_member);
  with_gate fuel isr PersistenceGate no_wait id
    (r ⇇ store_call (persist_record g (take p.2 p.1));
     let status := match r with Ok _ => SOk | Err e => status_of e end in
     cleared ← finish_group g (g_revision work) (is_ok r);
     _ ⇇ for_each (members (group g)) (λ i _, finish_member (is_ok r) cleared status i) tt;
     Done match r with Ok _ => Ok true | Err e => Err (status_of e) end).

(** What a pass over the parameters and groups has seen. *)
Definition count_saved (r : result Status bool) (acc : option Status * nat) : option Status * nat :=
  match r with
  | Err status => (match acc.1 with None => Some status | first => first end, acc.2)
  | Ok saved => (acc.1, if saved : bool then S acc.2 else acc.2)
  end.

Definition persist_deferred_parameters (force no_wait : bool) : Program (result Status nat) :=
  acc ⇇ for_each (seq 0 parameters) (λ i acc,
    if deferred (persistence (parameter i))
    then r ⇇ persist_parameter_slot i force no_wait; Done (count_saved r acc)
    else Done acc) (None, 0%nat);
  acc ⇇ for_each (seq 0 groups) (λ g acc,
    if deferred (commit (group g))
    then r ⇇ persist_group_slot g force no_wait; Done (count_saved r acc)
    else Done acc) acc;
  Done match acc.1 with Some status => Err status | None => Ok acc.2 end.

Definition save_error (i : nat) (op : Operation) (status : Status) : Error :=
  make_error i op status (save_reason status).

Definition save_parameter (i : nat) (no_wait : bool) : Program (result Error unit) :=
  if negb (persistent (persistence (parameter i)))
  then Done (Err (make_error i Save SNotSupported PersistenceUnavailable)) else
  if isr then Done (Err (make_error i Save SInvalid InvalidContext)) else
  is_ready ← get (λ _ s, ready s);
  if negb is_ready then Done (Err (make_error i Save SNotReady NotReady)) else
  r ⇇ match persistence (parameter i) with
      | Transactional g => persist_group_slot g true no_wait
      | _ => persist_parameter_slot i true no_wait
      end;
  Done match r with Err status => Err (save_error i Save status) | Ok _ => Ok tt end.

(** One record or group more in a report. *)
Definition report (f : Status → Error) (r : result Status bool)
    (acc : PersistenceReport * option Error) : PersistenceReport * option Error :=
  let rep := acc.1 <| p_visited ::= S |> in
  match r with
  | Err status => (rep <| p_failed ::= S |>, match acc.2 with None => Some (f status) | e => e end)
  | Ok true => (rep <| p_saved ::= S |>, acc.2)
  | Ok false => (rep <| p_clean ::= S |>, acc.2)
  end.
Definition reported (acc : PersistenceReport * option Error) : result Error PersistenceReport :=
  match acc.2 with Some e => Err e | None => Ok acc.1 end.

Definition save_group_error (g : nat) (op : Operation) (status : Status) : Error :=
  group_error g op status (save_reason status).

(** A forced save of the selected parameters and groups. *)
Definition save_pass (op : Operation) (no_wait : bool) (which : nat → bool) (which_group : nat → bool) :
    Program (result Error PersistenceReport) :=
  acc ⇇ for_each (seq 0 parameters) (λ i acc,
    if which i then r ⇇ persist_parameter_slot i true no_wait; Done (report (save_error i op) r acc)
    else Done acc) (empty_report, None);
  acc ⇇ for_each (seq 0 groups) (λ g acc,
    if which_group g
    then r ⇇ persist_group_slot g true no_wait; Done (report (save_group_error g op) r acc)
    else Done acc) acc;
  Done (reported acc).

Definition save_all_parameters (no_wait : bool) : Program (result Error PersistenceReport) :=
  if isr then Done (Err (error SInvalid InvalidContext SaveAll)) else
  is_ready ← get (λ _ s, ready s);
  if negb is_ready then Done (Err (error SNotReady NotReady SaveAll)) else
  save_pass SaveAll no_wait
    (λ i, let p := persistence (parameter i) in persistent p && negb (transactional p)) (λ _, true).

Definition flush_parameters (no_wait : bool) : Program (result Error PersistenceReport) :=
  if negb has_deferred then Done (Ok empty_report) else
  if isr then Done (Err (error SInvalid InvalidContext Flush)) else
  is_ready ← get (λ _ s, ready s);
  if negb is_ready then Done (Err (error SNotReady NotReady Flush)) else
  cancelled ← get (λ e _, cancel_answer e);
  if match cancelled with Some status => negb (bool_decide (status = SNotReady)) | None => false end
  then Done (Err (error (default SError cancelled) PersistenceUnavailable Flush)) else
  quiet ← get (λ e _, quiescent e);
  if negb quiet
  then Done (Err (if no_wait then error SWouldBlock WouldBlock Flush
                  else error STimeout PersistenceUnavailable Flush)) else
  save_pass Flush no_wait (λ i, deferred (persistence (parameter i)))
    (λ g, deferred (commit (group g))).

(** ** The facility's lifecycle and its deferred task *)
Definition run_deferred : Program (result Status unit) :=
  _ ⟵ persist_deferred_parameters false false;
  schedule_next_deferred.

Definition start : Program (result Status unit) :=
  _ ← update (λ _ s, s <| mutation_open := true |>);
  Done (Ok tt).

Definition stop : Program (result Status unit) :=
  _ ← update (λ _ s, s <| mutation_open := false |>);
  _ ← update (λ _ s, s <| persistence_active := false |>);
  if has_deferred && flush_deferred_on_stop then
    _ ⟵ persist_deferred_parameters true false;
    Done (Ok tt)
  else Done (Ok tt).

Definition deinit : Program (result Status unit) :=
  _ ← update (λ _ s, s <| mutation_open := false |>);
  _ ← update (λ _ s, s <| ready := false |>);
  _ ← update (λ _ s, s <| persistence_active := false |>);
  _ ← update (λ _ s, s <| schedule_set := false |>);
  Done (Ok tt).

Definition activate_changes : Program (result Status unit) :=
  _ ← update (λ _ s, s <| activating_changes := true |>);
  r ⇇ for_each (seq 0 changes) (λ c acc,
    pending ← (λ _ s, let '(p, cs) := take_pending (change_state s c) in (p, on_change c (λ _, cs) s));
    match pending with
    | Some ch =>
      if equal (old_value ch) (new_value ch) then Done acc
      else r ⇇ invoke_change c ch; Done match acc with Ok _ => r | e => e end
    | None => Done acc
    end) (Ok tt);
  _ ← update (λ _ s, s <| activating_changes := false |>);
  Done r.

Definition activate_runtime : Program unit :=
  if has_deferred then
    _ ← update (λ _ s, s <| schedule_set := true |>);
    _ ← update (λ _ s, s <| persistence_active := true |>);
    _ ⇇ schedule_deferred_persistence;
    Done tt
  else Done tt.

(** ** The operations of a system *)
Inductive Call : Type :=
  | CGet (no_wait : bool) (i : nat)
  | CGetIsr (i : nat)
  | CSet (i : nat) (candidate : V) (no_wait : bool)
  | CProvision (i : nat) (candidate : V)
  | CReset (i : nat)
  | CSetAll (assignments : list (nat * V)) (no_wait : bool)
  | CSnapshot (l : list nat) (no_wait : bool)
  | CRecord (i : nat)
  | CChangeRecord (c : nat)
  | CSave (i : nat) (no_wait : bool)
  | CSaveAll (no_wait : bool)
  | CFlush (no_wait : bool)
  | CRunDeferred
  | CStart | CStop | CDeinit
  | CActivateChanges | CActivateRuntime.

Inductive Reply : Type :=
  | RValue (i : nat) (r : result Error V)
  | RUpdate (i : nat) (r : result Error (Update V))
  | RTransaction (r : result Error TransactionUpdate)
  | RSnapshot (l : list nat) (r : result Error (list V))
  | RRecord (i : nat) (r : result Error (ParameterRecord V))
  | RChangeRecord (r : ChangeRecord)
  | RSaved (r : result Error unit)
  | RReport (r : result Error PersistenceReport)
  | RHook (r : result Status unit).

Definition reply {A} (f : A → Reply) (p : Program A) : Program Reply := bind p (λ a, Done (f a)).

Definition call (c : Call) : Program Reply :=
  match c with
  | CGet no_wait i => reply (RValue i) (read_parameter no_wait i)
  | CGetIsr i => reply (RValue i) (get_isr i)
  | CSet i v no_wait => reply (RUpdate i) (set_parameter i v no_wait LocalSet false)
  | CProvision i v => reply (RUpdate i) (set_parameter i v false PrivilegedProvisioning false)
  | CReset i => reply (RUpdate i) (set_parameter i (default_value (parameter i)) false OReset true)
  | CSetAll l no_wait => reply RTransaction (set_all_parameters l no_wait)
  | CSnapshot l no_wait => reply (RSnapshot l) (snapshot_parameters l no_wait)
  | CRecord i => reply (RRecord i) (parameter_record i)
  | CChangeRecord c => reply RChangeRecord (change_record c)
  | CSave i no_wait => reply RSaved (save_parameter i no_wait)
  | CSaveAll no_wait => reply RReport (save_all_parameters no_wait)
  | CFlush no_wait => reply RReport (flush_parameters no_wait)
  | CRunDeferred => reply RHook run_deferred
  | CStart => reply RHook start
  | CStop => reply RHook stop
  | CDeinit => reply RHook deinit
  | CActivateChanges => reply RHook activate_changes
  | CActivateRuntime => reply (λ _, RHook (Ok tt)) activate_runtime
  end.
End Operations.
End ParameterPrograms.
