(* ===== verification/ParametersBoot.v ===== *)
(** * ParametersBoot: bringing the parameter facility up

    Models the loading part of [include/solar/parameters/runtime.hpp]:
    [load_persistent_parameter], [load_persistent_group],
    [initialize_persistence] and [Facility::init], as programs of the same
    steps as the operations of the running system. *)
From stdpp Require Import prelude functions.
From S2P Require Import Prelude Status Interleave ParametersRecord Parameters ParametersPrograms.

Open Scope Z_scope.
Open Scope solar_scope.

Module ParameterBoot.
Import Records TypedParameters ParameterPrograms.

Section Boot.
Context {V St : Type} `{!ValueType V} `{!Architecture V St}.

Local Abbreviation State := (TypedParameters.State V St).
Local Abbreviation Program := (Program V St).
Implicit Types (s : State) (v : V).
Open Scope prog_scope.

(** ** Load failures *)
Definition record_load_failure (i : nat) (status : Status) (reason : Reason) (observed : Z) :
    Env → State → unit * State :=
  set_slot i (mutate_record (λ r,
    r <| r_last_error := mkError status reason Initialize (Z.of_nat i) invalid_id
                           (Some (default 0 (descriptor_id (parameter i)))) None
                           (descriptor_version (parameter i)) observed 0 |>
      <| r_stored_version := observed |> <| r_load_source := FromDefault |>
      <| r_load_outcome := DefaultAfterFailure |>)).

Definition load_failure (i : nat) (status : Status) (reason : Reason) (observed : Z) :
    Program (result Status unit) :=
  _ ← record_load_failure i status reason observed;
  Done (if fail_boot (parameter i) then Err status else Ok tt).

Definition missing_default (i : nat) : Env → State → unit * State :=
  set_slot i (mutate_record (λ r,
    r <| r_load_source := FromDefault |> <| r_load_outcome := MissingDefault |>
      <| r_persistence := Clean |>)).

(** ** One parameter *)

(** The value of a record, by its version, and where it comes from. *)
Definition load_value (i : nat) (d : DecodedRecord) : Checked V * LoadSource :=
  let current := descriptor_version (parameter i) in
  if version d =? current then (codec_decode (codec (parameter i)) (payload d), FromStore) else
  match migration (parameter i) with
  | Some migrate =>
    if version d <? current then (migrate (version d) (payload d), FromMigration)
    else (fail SProtocolError, FromStore)
  | None => (fail SProtocolError, FromStore)
  end.

(** From a decoded record on. *)
Definition load_decoded (i : nat) (d : DecodedRecord) : Program (result Status unit) :=
  let '(v, source) := load_value i d in
  match v with
  | None => Stalled
  | Some (Err e) =>
    load_failure i (status_of e)
      (if bool_decide (status_of e = SProtocolError) then VersionMismatch else CodecFailed) (version d)
  | Some (Ok v) =>
    match normalize (validation (parameter i)) v with
    | Err _ => load_failure i SInvalid ValidationRejected (version d)
    | Ok n =>
      let migrated := bool_decide (source = FromMigration) in
      _ ← set_slot i (mark_loaded (value n) source (if migrated then Migrated else Loaded) (version d));
      if migrated then _ ← set_slot i (mark_dirty 0 false None); Done (Ok tt)
      else Done (Ok tt)
    end
  end.

Definition load_persistent_parameter (i : nat) : Program (result Status unit) :=
  match store_of (persistence (parameter i)) with
  | None => Done (Ok tt)
  | Some store =>
    l ← get (λ _ s, store_load store (persistence_key i) (replicate max_encoded_record_bytes 0) (stores s));
    match l.1 with
    | Err e =>
      if bool_decide (status_of e = SNotFound) then _ ← missing_default i; Done (Ok tt)
      else load_failure i (status_of e) PersistenceFailed 0
    | Ok loaded =>
      if (max_encoded_record_bytes <? loaded)%nat then load_failure i SMessageTooLarge CorruptRecord 0 else
      match decode_record (take loaded l.2) with
      | None => Stalled
      | Some (Err e) => load_failure i (status_of e) CorruptRecord 0
      | Some (Ok d) =>
        if negb (kind (key d) =? RecordKind_Parameter)
           || negb (stable_id (key d) =? stable_id (persistence_key i))
        then load_failure i SProtocolError CorruptRecord 0
        else load_decoded i d
      end
    end
  end.

(** ** One group *)
Definition group_load_failure (g : nat) (status : Status) (reason : Reason) (observed : Z) :
    Program (result Status unit) :=
  fail_boot ⇇ for_each (members (group g)) (λ i fail_boot,
    _ ← record_load_failure i status reason observed;
    Done (fail_boot || TypedParameters.fail_boot (parameter i))) false;
  Done (if fail_boot then Err status else Ok tt).

(** The values of the members in the payload from [offset] on. *)
Fixpoint decode_group_values (l : list nat) (payload : list Z) (offset : nat) : Checked (list V) :=
  match l with
  | [] => if (offset =? length payload)%nat then succeed [] else fail SMessageTooLarge
  | i :: l =>
    let c := codec (parameter i) in
    if (length payload <? offset + encoded_size c)%nat then fail SMessageTooLarge else
    v ⇐ codec_decode c (take (encoded_size c) (drop offset payload));
    vs ⇐ decode_group_values l payload (offset + encoded_size c);
    succeed (v :: vs)
  end.

Fixpoint normalize_group_values (l : list nat) (vs : list V) : option (list V) :=
  match l, vs with
  | [], [] => Some []
  | i :: l, v :: vs =>
    match normalize (validation (parameter i)) v with
    | Err _ => None
    | Ok n => match normalize_group_values l vs with
              | None => None
              | Some ns => Some (value n :: ns)
              end
    end
  | _, _ => None
  end.

Definition load_group_values (g : nat) (d : DecodedRecord) : Checked (list V) * LoadSource :=
  let current := group_version (group g) in
  if version d =? current then (decode_group_values (members (group g)) (payload d) 0, FromStore) else
  match group_migration (group g) with
  | Some migrate =>
    if version d <? current then (migrate (version d) (payload d), FromMigration)
    else (fail SProtocolError, FromStore)
  | None => (fail SProtocolError, FromStore)
  end.

Fixpoint mark_members_loaded (l : list nat) (vs : list V) (source : LoadSource) (outcome : LoadOutcome)
    (stored : Z) : Program unit :=
  match l, vs with
  | i :: l, v :: vs =>
    _ ← set_slot i (mark_loaded v source outcome stored);
    mark_members_loaded l vs source outcome stored
  | _, _ => Done tt
  end.

Definition load_group_decoded (g : nat) (d : DecodedRecord) : Program (result Status unit) :=
  let '(vs, source) := load_group_values g d in
  match vs with
  | None => Stalled
  | Some (Err e) =>
    group_load_failure g (status_of e)
      (if version d =? group_version (group g) then CodecFailed else VersionMismatch) (version d)
  | Some (Ok vs) =>
    match normalize_group_values (members (group g)) vs with
    | None => group_load_failure g SInvalid ValidationRejected (version d)
    | Some vs =>
      let migrated := bool_decide (source = FromMigration) in
      _ ⇇ mark_members_loaded (members (group g)) vs source (if migrated then Migrated else Loaded)
            (version d);
      if migrated then _ ← update (λ _, on_group g (group_mark_dirty None)); Done (Ok tt)
      else Done (Ok tt)
    end
  end.

Definition load_persistent_group (g : nat) : Program (result Status unit) :=
  l ← get (λ _ s, store_load (group_store (group g)) (group_key g)
                    (replicate max_group_record_bytes 0) (stores s));
  match l.1 with
  | Err e =>
    if bool_decide (status_of e = SNotFound)
    then _ ⇇ for_each (members (group g)) (λ i _, _ ← missing_default i; Done tt) tt; Done (Ok tt)
    else group_load_failure g (status_of e) PersistenceFailed 0
  | Ok loaded =>
    if (max_group_record_bytes <? loaded)%nat then group_load_failure g SMessageTooLarge CorruptRecord 0 else
    match decode_record (take loaded l.2) with
    | None => Stalled
    | Some (Err e) => group_load_failure g (status_of e) CorruptRecord 0
    | Some (Ok d) =>
      if negb (kind (key d) =? RecordKind_Group) || negb (stable_id (key d) =? stable_id (group_key g))
      then group_load_failure g SProtocolError CorruptRecord 0
      else load_group_decoded g d
    end
  end.

(** ** The facility *)

(** The body is skipped once a result is an error. *)
Definition unless_failed (body : nat → Program (result Status unit)) (i : nat) (r : result Status unit) :
    Program (result Status unit) :=
  match r with Ok _ => body i | Err status => Done (Err status) end.

Definition initialize_store (store : nat) : Program (result Status unit) :=
  r ← (λ _ s, let '(r, st) := store_initialize store (stores s) in (r, s <| stores := st |>));
  Done match r with Ok _ => Ok tt | Err e => Err (status_of e) end.

Definition initialize_persistence : Program (result Status unit) :=
  r ⇇ for_each store_list (unless_failed initialize_store) (Ok tt);
  r ⇇ for_each (seq 0 parameters) (unless_failed load_persistent_parameter) r;
  for_each (seq 0 groups) (unless_failed load_persistent_group) r.

Definition init : Program (result Status unit) :=
  _ ← update (λ _ s, s <| ready := false |>);
  _ ← update (λ _ s, s <| mutation_open := false |>);
  _ ← update (λ _ s, s <| activating_changes := false |>);
  _ ← update (λ _ s, s <| persistence_active := false |>);
  _ ← update (λ _ s, s <| schedule_set := false |>);
  _ ⇇ for_each (seq 0 parameters)
        (λ i _, _ ← set_slot i (slot_initialize (parameter i) (Z.of_nat i)); Done tt) tt;
  _ ⇇ for_each (seq 0 changes)
        (λ c _, _ ← update (λ _, on_change c (λ _,
                      change_initialize (Z.of_nat c) (Z.of_nat (changed_parameter (change c)))
                        (change_observer (change c)))); Done tt) tt;
  _ ⇇ for_each (seq 0 groups)
        (λ g _, _ ← update (λ _, on_group g (λ _, group_initialize)); Done tt) tt;
  _ ⟵ initialize_persistence;
  _ ← update (λ _ s, s <| ready := true |>);
  _ ← update (λ _ s, s <| mutation_open := true |>);
  Done (Ok tt).
End Boot.
End ParameterBoot.
