(* ===== verification/ParametersSafe.v ===== *)
(** * ParametersSafe: what every interleaving of the operations keeps

    The invariant of the facility: every value cell satisfies its parameter's
    validation policy, and the cells change only in the hands of the thread
    that holds the write gate, which leaves them in a state that satisfies
    the client's relation [consistent] between the parameters.  A thread's
    auxiliary state is what it knows of the cells: their values while it holds
    the gate, nothing otherwise. *)
From stdpp Require Import prelude functions.
From S2P Require Import Prelude Status Interleave Lifecycle ParametersRecord Parameters.
From S2P Require Import ParametersPrograms.

Open Scope Z_scope.
Open Scope solar_scope.

Module ParameterSafety.
Import Records TypedParameters ParameterPrograms.

(** ** Policies *)
Section Policies.
Context `{ValueType V}.

(** The values a policy lets into a cell. *)
Definition accepted (p : Validation V) (v : V) : Prop :=
  match p with
  | AcceptAny => True
  | Range minimum maximum _ => finite v = true ∧ less v minimum = false ∧ less maximum v = false
  | OneOf values => ∃ w, w ∈ values ∧ equal v w = true
  | Custom validator => ∃ candidate, validator candidate = Ok v
  end.

(** Bounds in order, as the static assertions of [Range] demand. *)
Definition policy_ok (p : Validation V) : Prop :=
  match p with
  | Range minimum maximum _ => accepted p minimum ∧ accepted p maximum
  | _ => True
  end.

Lemma normalize_accepted p c n : policy_ok p → normalize p c = Ok n → accepted p (value n).
Proof.
  destruct p as [|lo hi clamp|vs|f]; simpl; intros Hok Hn.
  - by injection Hn as <-.
  - destruct (finite c) eqn:Hf; [|done]. simpl in Hn.
    destruct Hok as [Hmin Hmax].
    destruct (less c lo) eqn:Hlo; [destruct clamp; [|done]; by injection Hn as <-|].
    destruct (less hi c) eqn:Hhi; [destruct clamp; [|done]; by injection Hn as <-|].
    by injection Hn as <-.
  - destruct (existsb (equal c) vs) eqn:Hex; [|done]. injection Hn as <-.
    apply existsb_exists in Hex as (w & Hw & ?). exists w. split; [by apply list_elem_of_In|done].
  - destruct (f c) as [v|] eqn:Hv; [|done]. injection Hn as <-. by exists c.
Qed.
End Policies.

(** What the static assertions on the declarations establish. *)
Class ArchitectureLaws {V St} `{!ValueType V} `{!Architecture V St} : Prop := {
  policies_ok i : policy_ok (validation (parameter i));
  defaults_accepted i : accepted (validation (parameter i)) (default_value (parameter i)) }.

Section Safety.
Context {V St : Type} `{!ValueType V} `{!Architecture V St} `{!ArchitectureLaws}.
Context (consistent : list V → Prop) (fuel : nat) (isr : bool).

Local Abbreviation State := (TypedParameters.State V St).
Local Abbreviation Program := (Program V St).
Local Abbreviation Knowledge := (option (list V)).
Implicit Types (s : State) (v : V) (gs : list Knowledge).
Open Scope prog_scope.

Definition cells s : list V := map (λ i, value_ (slot s i)) (seq 0 parameters).
(** Indices from [parameters] on name no parameter. *)
Definition allowed (i : nat) v : Prop :=
  (i < parameters)%nat → accepted (validation (parameter i)) v.

Lemma normalize_allowed i v n :
  normalize (validation (parameter i)) v = Ok n → allowed i (value n).
Proof. intros Hn _. eapply normalize_accepted; [apply policies_ok|done]. Qed.

Record Inv gs s : Prop := {
  inv_allowed : ∀ i, allowed i (value_ (slot s i));
  inv_free : write_gate s = false → consistent (cells s);
  inv_holder : ∀ t c, gs !! t = Some (Some c) → write_gate s = true ∧ c = cells s;
  inv_alone : ∀ t u c d, gs !! t = Some (Some c) → gs !! u = Some (Some d) → t = u }.

(** A mutex that may wait for ever is granted in the end. *)
Definition assumed (e : Env) : Prop := lock_error e false = None.
Local Abbreviation safe := (safe Inv assumed).

(** ** Steps that leave the cells and the write gate alone *)
Definition calm s s' : Prop :=
  (∀ i, value_ (slot s' i) = value_ (slot s i)) ∧ write_gate s' = write_gate s.

Lemma calm_self s : calm s s.
Proof. done. Qed.
Lemma calm_cells s s' : calm s s' → cells s' = cells s.
Proof. intros [Hv _]. unfold cells. by apply map_ext. Qed.
Lemma calm_inv gs s s' : Inv gs s → calm s s' → Inv gs s'.
Proof.
  intros [Ha Hf Hh Hl] Hc. pose proof (calm_cells _ _ Hc) as Hcells. destruct Hc as [Hv Hg].
  split; rewrite ?Hcells, ?Hg; [|done..]. intros i. rewrite Hv. apply Ha.
Qed.

(** Methods of a slot other than the assignment of its value. *)
Definition keeps (f : Slot V → Slot V) : Prop := ∀ sl, value_ (f sl) = value_ sl.
Lemma calm_on_slot i f s : keeps f → calm s (on_slot i f s).
Proof.
  intros Hf. split; [|done]. intros j. cbn.
  destruct (decide (j = i)) as [->|]; [rewrite fn_lookup_insert; apply Hf|by rewrite fn_lookup_insert_ne].
Qed.
Lemma keeps_mutate f : keeps (mutate_record f).
Proof. done. Qed.
Lemma keeps_finish r st : keeps (finish_persistence r st).
Proof. intros sl. unfold finish_persistence. destruct (ok st); [|done]. by case_match. Qed.
Lemma calm_on_group i f s : calm s (on_group i f s).
Proof. done. Qed.
Lemma calm_on_change i f s : calm s (on_change i f s).
Proof. done. Qed.

(** ** Programs all of whose steps are calm *)
Local Abbreviation calmly := (frames calm).

Lemma calmly_attempt {E A B} (p : Program (result E A)) (k : A → Program (result E B)) :
  calmly p → (∀ a, calmly (k a)) → calmly (attempt_result p k).
Proof. intros Hp Hk. apply frames_bind; [done|]. by intros []. Qed.
Lemma calmly_for_each {B} l (body : nat → B → Program B) b :
  (∀ i b, calmly (body i b)) → calmly (for_each l body b).
Proof. intros Hb. revert b. induction l as [|i l IH]; intros b; [done|]. by apply frames_bind. Qed.

Lemma calmly_lock no_wait : calmly (lock fuel isr PersistenceGate no_wait).
Proof.
  unfold lock. induction fuel as [|n IH]; [done|]. split.
  - intros e s. unfold attempt. destruct isr; [done|]. destruct (lock_error e no_wait); [done|].
    by destruct (held PersistenceGate s).
  - by intros [].
Qed.
Lemma calmly_with_gate {E A} no_wait (f : Status → E) (p : Program (result E A)) :
  calmly p → calmly (with_gate fuel isr PersistenceGate no_wait f p).
Proof.
  intros Hp. apply frames_bind; [apply calmly_lock|]. intros [?|?]; [|done].
  by apply frames_bind.
Qed.
Lemma calmly_store f : calmly (store_call f).
Proof.
  split; [|by intros [[]|]]. intros e s. unfold call_store. by destruct (f (stores s)) as [[]|].
Qed.
Lemma calmly_set_slot {A} i f (k : unit → Program A) :
  keeps f → (∀ a, calmly (k a)) → calmly (Then (set_slot i f) k).
Proof. intros Hf Hk. split; [|done]. intros e s. by apply calm_on_slot. Qed.

(** One layer of a program. *)
Ltac calm_layer :=
  lazymatch goal with
  | |- keeps _ => first [apply keeps_finish | done]
  | |- frames _ (bind _ _) => apply frames_bind
  | |- frames _ (attempt_result _ _) => apply calmly_attempt
  | |- frames _ (for_each _ _ _) => apply calmly_for_each
  | |- frames _ (with_gate _ _ PersistenceGate _ _ _) => apply calmly_with_gate
  | |- frames _ (store_call _) => apply calmly_store
  | |- frames _ (Then (set_slot _ _) _) => apply calmly_set_slot
  | |- frames _ (Then _ _) => split; [intros; try first [apply calm_self | by apply calm_on_slot | done]|]
  | |- frames _ (if ?b then _ else _) => destruct b
  | |- frames _ (match ?x with _ => _ end) => destruct x
  | |- frames _ (Done _) => done
  | |- frames _ Stalled => done
  | |- ∀ _, _ => intros
  end.
Ltac calm := repeat calm_layer; try done.

Lemma calmly_invoke_change c ch : calmly (invoke_change c ch).
Proof. unfold invoke_change. calm. Qed.
Lemma calmly_notify c ch d n : calmly (notify c ch d n).
Proof. unfold notify. calm. apply calmly_invoke_change. Qed.
Lemma calmly_dispatch i ch d : calmly (dispatch_change i ch d).
Proof. unfold dispatch_change. calm. apply calmly_notify. Qed.
Lemma calmly_peek_member i : calmly (peek_member isr i).
Proof. unfold peek_member. calm. Qed.
Lemma calmly_group_payload g provider :
  (∀ i, calmly (provider i)) → calmly (encode_group_payload g provider).
Proof. intros Hp. unfold encode_group_payload, encode_next. calm. Qed.
Lemma calmly_group_image g provider :
  (∀ i, calmly (provider i)) → calmly (persist_group_image g provider).
Proof. intros Hp. unfold persist_group_image. calm. by apply calmly_group_payload. Qed.
Lemma calmly_prepare i v r : calmly (prepare_immediate_persistence fuel isr i v r).
Proof.
  unfold prepare_immediate_persistence, prepare_failure. calm.
  apply calmly_group_image. calm.
Qed.
Lemma calmly_mark_committed i rev r : calmly (mark_committed_persistence i rev r).
Proof. unfold mark_committed_persistence. calm. Qed.
Lemma calmly_earliest : calmly schedule_earliest.
Proof. unfold schedule_earliest, earliest_due. calm. Qed.
Lemma calmly_schedule : calmly schedule_deferred_persistence.
Proof. unfold schedule_deferred_persistence. calm. apply calmly_earliest. Qed.
Lemma calmly_schedule_next : calmly schedule_next_deferred.
Proof. unfold schedule_next_deferred. calm. apply calmly_earliest. Qed.
Lemma calmly_reschedule i p : calmly (reschedule i p).
Proof. unfold reschedule. calm. apply calmly_schedule. Qed.
Lemma calmly_hooks st : calmly (hooks_deferred st).
Proof. unfold hooks_deferred. calm. Qed.
Lemma calmly_mutable : calmly mutable_state.
Proof. unfold mutable_state. calm. Qed.

(** ** Proof rules for a thread *)
Section Rules.
Context {A : Type} (t : nat) (Q : Knowledge → A → Prop).

Lemma safe_step_calm {B} g (f : Env → State → B * State) (k : B → Program A) :
  (∀ e s, calm s (f e s).2) → (∀ e s, safe t Q g (k (f e s).1)) → safe t Q g (Then f k).
Proof.
  intros Hf Hk e s gs _ Hg HI. exists g. rewrite list_insert_id by done.
  split; [by eapply calm_inv|apply Hk].
Qed.
Lemma safe_get {B} g (f : Env → State → B) (k : B → Program A) :
  (∀ e s, safe t Q g (k (f e s))) → safe t Q g (Then (get f) k).
Proof. intros Hk. by apply safe_step_calm. Qed.
Lemma safe_set_slot g i f (k : unit → Program A) :
  keeps f → safe t Q g (k tt) → safe t Q g (Then (set_slot i f) k).
Proof. intros Hf Hk. apply safe_step_calm; [|done]. intros e s. by apply calm_on_slot. Qed.

Lemma safe_bind_calm {B} g (p : Program B) (k : B → Program A) :
  calmly p → (∀ b, safe t Q g (k b)) → safe t Q g (bind p k).
Proof.
  intros Hp Hk. apply (safe_frames_bind Inv assumed calm); [|done..].
  intros gs s s'. apply calm_inv.
Qed.

(** [v] is the value of parameter [i] in [vs]. *)
Definition known (vs : list V) (i : nat) v : Prop :=
  ((i < parameters)%nat → vs !! i = Some v) ∧ ∀ w, vs !! i = Some w → w = v.

(** Reading a cell: its value is allowed, and known to the gate's holder. *)
Lemma safe_peek g no_wait i (k : result Status V → Program A) :
  (∀ st, safe t Q g (k (Err st))) →
  (∀ v, allowed i v → (∀ vs, g = Some vs → known vs i v) → safe t Q g (k (Ok v))) →
  safe t Q g (Then (peek isr no_wait i) k).
Proof.
  intros Herr Hok e s gs _ Hg HI. exists g. rewrite list_insert_id by done. split; [done|].
  cbn. destruct (cell_lock isr no_wait i e); [apply Herr|]. apply Hok; [apply HI|].
  intros vs ->. destruct (inv_holder _ _ HI _ _ Hg) as [_ ->]. unfold cells, known.
  rewrite list_lookup_fmap. split.
  - intros Hi. by rewrite lookup_seq_lt.
  - intros w Hw. apply fmap_Some in Hw as (j & Hj & ->). by apply lookup_seq in Hj as [-> _].
Qed.

Lemma cells_write i v s :
  cells (on_slot i (λ sl, sl <| value_ := v |>) s) = <[i := v]> (cells s).
Proof.
  apply list_eq. intros j. unfold cells. rewrite list_lookup_fmap.
  destruct (decide (j < parameters)%nat) as [Hj|Hj].
  - rewrite lookup_seq_lt by done. cbn. destruct (decide (j = i)) as [->|Hne].
    + rewrite fn_lookup_insert, list_lookup_insert_eq; [done|]. by rewrite length_map, length_seq.
    + by rewrite fn_lookup_insert_ne, list_lookup_insert_ne, list_lookup_fmap, lookup_seq_lt.
  - rewrite lookup_seq_ge by lia. symmetry. apply lookup_ge_None.
    rewrite length_insert, length_map, length_seq. lia.
Qed.

(** Writing a cell is the privilege of the gate's holder. *)
Lemma safe_write vs i v (k : result Status unit → Program A) :
  isr = false → allowed i v →
  safe t Q (Some (<[i := v]> vs)) (k (Ok tt)) → safe t Q (Some vs) (Then (write isr i v) k).
Proof.
  intros Hisr Hv Hk e s gs He Hg HI. exists (Some (<[i := v]> vs)).
  destruct (inv_holder _ _ HI _ _ Hg) as [Hheld Hvs].
  assert (cell_lock isr false i e = None) as Hlock.
  { unfold cell_lock. rewrite Hisr. by destruct (storage (parameter i)). }
  unfold write. rewrite Hlock. split; [|done].
  assert (∀ u w, <[t:=Some (<[i:=v]> vs)]> gs !! u = Some (Some w) → u = t ∧ w = <[i:=v]> vs) as Hholder.
  { intros u w Hu. destruct (decide (u = t)) as [->|Hne].
    - rewrite list_lookup_insert_eq in Hu by (by eapply lookup_lt_Some). by simplify_eq.
    - rewrite list_lookup_insert_ne in Hu by done. by pose proof (inv_alone _ _ HI _ _ _ _ Hu Hg). }
  cbn [snd]. split.
  - intros j. cbn. destruct (decide (j = i)) as [->|].
    + by rewrite fn_lookup_insert.
    + rewrite fn_lookup_insert_ne by done. apply HI.
  - cbn. intros Hf. congruence.
  - intros u w Hu. apply Hholder in Hu as [-> ->]. by rewrite cells_write, <-Hvs.
  - intros u u' w w' Hu Hu'. apply Hholder in Hu as [-> _]. by apply Hholder in Hu' as [-> _].
Qed.

(** Taking the gate, and giving it back in a consistent state. *)
Lemma safe_attempt no_wait (k : option (result Status unit) → Program A) :
  (∀ r, r ≠ Some (Ok tt) → safe t Q None (k r)) →
  (∀ vs, isr = false → consistent vs → safe t Q (Some vs) (k (Some (Ok tt)))) →
  safe t Q None (Then (attempt isr WriteGate no_wait) k).
Proof.
  intros Hfail Hok e s gs _ Hg HI. unfold attempt.
  destruct isr eqn:Hisr; [exists None; rewrite list_insert_id by done; split; [done|by apply Hfail]|].
  destruct (lock_error e no_wait) as [st|];
    [exists None; rewrite list_insert_id by done; split; [done|by apply Hfail]|].
  simpl held. destruct (write_gate s) eqn:Hheld.
  { exists None. rewrite list_insert_id by done. split; [done|]. destruct no_wait; by apply Hfail. }
  exists (Some (cells s)). split; [|by apply Hok, HI].
  assert (∀ u w, <[t:=Some (cells s)]> gs !! u = Some (Some w) → u = t ∧ w = cells s) as Hholder.
  { intros u w Hu. destruct (decide (u = t)) as [->|Hne].
    - rewrite list_lookup_insert_eq in Hu by (by eapply lookup_lt_Some). by simplify_eq.
    - rewrite list_lookup_insert_ne in Hu by done. destruct (inv_holder _ _ HI _ _ Hu). congruence. }
  cbn [snd]. split; [apply HI|done|..].
  - intros u w Hu. by apply Hholder in Hu as [-> ->].
  - intros u u' w w' Hu Hu'. apply Hholder in Hu as [-> _]. by apply Hholder in Hu' as [-> _].
Qed.

Lemma safe_release vs (k : unit → Program A) :
  consistent vs → safe t Q None (k tt) → safe t Q (Some vs) (Then (release WriteGate) k).
Proof.
  intros Hvs Hk e s gs _ Hg HI. exists None. split; [|done].
  destruct (inv_holder _ _ HI _ _ Hg) as [Hheld ->].
  assert (∀ u w, <[t:=None]> gs !! u = Some (Some w) → False) as Hnone.
  { intros u w Hu. destruct (decide (u = t)) as [->|Hne].
    - rewrite list_lookup_insert_eq in Hu by (by eapply lookup_lt_Some). done.
    - rewrite list_lookup_insert_ne in Hu by done. by pose proof (inv_alone _ _ HI _ _ _ _ Hu Hg). }
  split; [apply HI|done|..]; intros u; naive_solver.
Qed.
End Rules.

Lemma safe_lock {A} t Q no_wait (k : result Status unit → Program A) :
  (∀ st, safe t Q None (k (Err st))) →
  (∀ vs, isr = false → consistent vs → safe t Q (Some vs) (k (Ok tt))) →
  safe t Q None (bind (lock fuel isr WriteGate no_wait) k).
Proof.
  intros Herr Hok. unfold lock. induction fuel as [|n IH]; [done|]. apply safe_attempt; [|done].
  intros [[[]|st]|] Hr; simpl; [done|apply Herr|apply IH].
Qed.

(** What a thread knows when its section under the gate is over. *)
Definition gated {B} (R : B → Prop) g (r : B) : Prop :=
  ∃ vs, g = Some vs ∧ consistent vs ∧ R r.

Lemma safe_gate {E A} t (R : result E A → Prop) no_wait (f : Status → E) (p : Program (result E A)) :
  (∀ vs, isr = false → consistent vs → safe t (gated R) (Some vs) p) →
  safe t (λ g r, g = None ∧ (R r ∨ ∃ st, r = Err (f st))) None (with_gate fuel isr WriteGate no_wait f p).
Proof.
  intros Hp. apply safe_lock; [naive_solver|].
  intros vs Hisr Hvs. apply safe_bind. eapply safe_mono; [|by apply Hp].
  intros g r (vs' & -> & Hvs' & Hr). apply safe_release; [done|]. simpl. auto.
Qed.

Lemma safe_with_gate {E A B} t (Q : Knowledge → B → Prop) (R : result E A → Prop) no_wait
    (f : Status → E) (p : Program (result E A)) (k : result E A → Program B) :
  (∀ vs, isr = false → consistent vs → safe t (gated R) (Some vs) p) →
  (∀ st, safe t Q None (k (Err (f st)))) →
  (∀ r, R r → safe t Q None (k r)) →
  safe t Q None (bind (with_gate fuel isr WriteGate no_wait f p) k).
Proof.
  intros Hp Herr Hk. apply safe_bind. eapply safe_mono; [|by apply safe_gate].
  intros g r [-> [Hr|[st ->]]]; auto.
Qed.

(** ** The operations *)

(** The values a transaction leaves: an assignment that changes nothing is
    not carried out. *)
Definition transact (l : list (nat * Normalized V)) (vs : list V) : list V :=
  foldl (λ acc a, match vs !! a.1 with
                  | Some old => if equal old (value a.2) then acc else <[a.1 := value a.2]> acc
                  | None => acc
                  end) vs l.

(** The clients' part: their updates keep the relation between parameters. *)
Definition call_ok (c : Call) : Prop :=
  match c with
  | CSet i v _ | CProvision i v => ∀ vs n, consistent vs →
      normalize (validation (parameter i)) v = Ok n → consistent (<[i := value n]> vs)
  | CReset i => ∀ vs n, consistent vs →
      normalize (validation (parameter i)) (default_value (parameter i)) = Ok n →
      consistent (<[i := value n]> vs)
  | CSetAll assignments _ => ∀ vs l, consistent vs →
      normalize_transaction assignments = Ok l → consistent (transact l vs)
  | _ => True
  end.

(** The replies: values that their policies accept, snapshots of one
    consistent state. *)
Definition reply_ok (r : Reply) : Prop :=
  match r with
  | RValue i (Ok v) => allowed i v
  | RUpdate i (Ok u) => allowed i (effective_value u)
  | RRecord i (Ok rec) => allowed i (r_value rec)
  | RSnapshot l (Ok values) => ∃ vs, consistent vs ∧
      Forall2 (λ i v, allowed i v ∧ ((i < parameters)%nat → vs !! i = Some v)) l values
  | _ => True
  end.

Lemma safe_read t no_wait i :
  safe t (λ g r, match r with Ok v => allowed i v | _ => True end) None (read_parameter isr no_wait i).
Proof.
  unfold read_parameter. destruct isr at 1; [done|]. apply safe_get. intros e s.
  destruct (ready s); [|done]. apply safe_bind. unfold read_slot. apply safe_peek.
  - intros st. by apply safe_set_slot.
  - intros v Hv _. by apply safe_set_slot.
Qed.

Lemma safe_get_isr t i :
  safe t (λ g r, match r with Ok v => allowed i v | _ => True end) None (get_isr isr i).
Proof.
  unfold get_isr. destruct isr; [|done]. simpl negb. apply safe_get. intros _ s. destruct (ready s); [|done].
  simpl. intros e s' gs _ Hg HI. exists None. rewrite list_insert_id by done. split; [done|]. apply HI.
Qed.

Lemma safe_set_gated t i n no_wait op origin reset vs :
  isr = false → allowed i (value n) → consistent vs → consistent (<[i := value n]> vs) →
  safe t (gated (λ _, True)) (Some vs) (set_gated fuel isr i n no_wait op origin reset).
Proof.
  intros Hisr Hn Hvs Hvs'. unfold set_gated.
  assert (∀ r : result Error (@Outcome V), gated (λ _, True) (Some vs) r) as Hsame by (intros r; by exists vs).
  assert (∀ r : result Error (@Outcome V), gated (λ _, True) (Some (<[i:=value n]> vs)) r) as Hnew
    by (intros r; by exists (<[i:=value n]> vs)).
  apply safe_peek; [intros st; apply Hsame|]. intros old _ _. apply safe_get. intros e s.
  set (before := copy_record _ _). destruct (equal old (value n)).
  - apply safe_bind_calm.
    { destruct reset; [|done]. calm; [apply calmly_prepare|apply calmly_mark_committed]. }
    intros [p|err]; [|apply Hsame]. apply safe_set_slot; [done|]. apply Hsame.
  - apply safe_bind_calm; [apply calmly_prepare|]. intros [[]|err]; [|apply Hsame].
    apply safe_write; [done..|]. apply safe_set_slot; [done|].
    apply safe_bind_calm; [apply calmly_mark_committed|]. intros p. apply Hnew.
Qed.

Lemma safe_set t i candidate no_wait origin reset :
  (∀ vs n, consistent vs → normalize (validation (parameter i)) candidate = Ok n →
           consistent (<[i := value n]> vs)) →
  safe t (λ g r, match r with Ok u => allowed i (effective_value u) | _ => True end) None
    (set_parameter fuel isr i candidate no_wait origin reset).
Proof.
  intros Hok. unfold set_parameter. destruct isr at 1; [done|].
  apply safe_bind_calm; [apply calmly_mutable|]. intros [st|]; [|done].
  destruct (normalize _ candidate) as [n|] eqn:Hn; [|by apply safe_set_slot].
  assert (allowed i (value n)) as Hv by by eapply normalize_allowed.
  apply (safe_with_gate _ _ (λ _, True)).
  - intros vs Hisr Hvs. apply safe_set_gated; [done..|]. by apply Hok.
  - done.
  - intros [[rev p|old rev p]|err] _; [..|done].
    + apply safe_bind_calm; [|done]. destruct reset; [apply calmly_reschedule|done].
    + apply safe_bind_calm; [apply calmly_reschedule|]. intros p'.
      apply safe_bind_calm; [apply calmly_hooks|]. intros d.
      apply safe_bind_calm; [apply calmly_dispatch|]. done.
Qed.

(** ** Transactions *)
Local Abbreviation TState := (@TransactionState V).

Lemma normalize_transaction_allowed assignments l :
  normalize_transaction assignments = Ok l → Forall (λ a, allowed a.1 (value a.2)) l.
Proof.
  revert l. induction assignments as [|[i v] rest IH]; intros l Hl; simpl in Hl; [by injection Hl as <-|].
  destruct (normalize _ v) as [n|] eqn:Hn; [|done].
  destruct (normalize_transaction rest) as [l'|]; [|done]. injection Hl as <-.
  constructor; [by eapply normalize_allowed|by apply IH].
Qed.

(** A captured assignment, over the values at its capture. *)
Definition captured (vs : list V) (a : nat * Normalized V) (ts : TState) : Prop :=
  ts_parameter ts = a.1 ∧ normalized ts = a.2 ∧ (∀ w, vs !! a.1 = Some w → w = ts_old ts)
  ∧ ts_changed ts = negb (equal (ts_old ts) (value a.2)).

Lemma safe_capture_transaction t l no_wait vs :
  safe t (λ g r, g = Some vs ∧ match r with Ok states => Forall2 (captured vs) l states | _ => True end)
    (Some vs) (capture_transaction isr l no_wait).
Proof.
  induction l as [|[i n] l IH]; [split; [done|constructor]|]. cbn [capture_transaction].
  apply safe_peek; [done|]. intros old _ Hold. apply safe_get. intros e s.
  apply safe_bind. eapply safe_mono; [|exact IH].
  intros g [states|err] [-> Hstates]; [|done]. simpl. split; [done|]. constructor; [|done].
  split_and!; [done|done|by apply (Hold vs)|done].
Qed.

Definition written (states : list TState) (vs : list V) : list V :=
  foldl (λ acc ts, if ts_changed ts then <[ts_parameter ts := value (normalized ts)]> acc else acc) vs states.

Lemma written_transact vs acc l states :
  Forall2 (captured vs) l states → length acc = length vs →
  written states acc = foldl (λ acc a, match vs !! a.1 with
    | Some old => if equal old (value a.2) then acc else <[a.1 := value a.2]> acc
    | None => acc end) acc l.
Proof.
  intros Hl. revert acc. induction Hl as [|[i n] ts l states Hts _ IH]; intros acc Hlen; [done|].
  destruct Hts as (Hi & Hn & Hold & Hchanged). cbn in *. rewrite Hi, Hn, Hchanged.
  destruct (vs !! i) as [w|] eqn:Hw.
  - rewrite (Hold w) by done. destruct (equal (ts_old ts) (value n)); cbn [negb]; apply IH; [done|].
    by rewrite length_insert.
  - apply lookup_ge_None in Hw. rewrite list_insert_ge by lia.
    destruct (negb _); by apply IH.
Qed.

Lemma safe_write_values t states vs :
  isr = false → Forall (λ ts, allowed (ts_parameter ts) (value (normalized ts))) states →
  safe t (λ g r, g = Some (written states vs) ∧ r = Ok tt) (Some vs) (write_transaction_values isr states).
Proof.
  intros Hisr Hall. revert vs. induction Hall as [|ts states Hts _ IH]; intros vs; [done|]. cbn.
  destruct (ts_changed ts); [|apply IH]. apply safe_write; [done..|]. apply IH.
Qed.

Lemma calmly_provider l i : calmly (transaction_provider isr l i).
Proof. unfold transaction_provider. calm. Qed.
Lemma calmly_prepare_transaction l : calmly (prepare_transaction_persistence fuel isr l).
Proof.
  unfold prepare_transaction_persistence. calm.
  - induction l as [|ts l IH]; [done|]. cbn [prepare_transaction_values]. calm. apply calmly_prepare.
  - unfold prepare_transaction_groups. calm. apply calmly_group_image. apply calmly_provider.
Qed.
Lemma calmly_update_records l : calmly (update_transaction_records l).
Proof. induction l as [|ts l IH]; [done|]. cbn [update_transaction_records]. calm. Qed.
Lemma calmly_mark_transaction l : calmly (mark_transaction_persistence l).
Proof.
  induction l as [|ts l IH]; [done|]. cbn [mark_transaction_persistence]. calm.
  apply calmly_mark_committed.
Qed.
Lemma calmly_dispatch_transaction l d : calmly (dispatch_transaction_changes l d).
Proof. unfold dispatch_transaction_changes. calm. apply calmly_notify. Qed.
Lemma calmly_reschedule_transaction l : calmly (reschedule_transaction l).
Proof. unfold reschedule_transaction. calm. apply calmly_schedule. Qed.

Lemma safe_transaction_gated t l no_wait vs :
  isr = false → Forall (λ a, allowed a.1 (value a.2)) l → consistent vs → consistent (transact l vs) →
  safe t (gated (λ _, True)) (Some vs) (transaction_gated fuel isr l no_wait).
Proof.
  intros Hisr Hall Hvs Hvs'. unfold transaction_gated. apply safe_bind.
  eapply safe_mono; [|apply safe_capture_transaction]. intros g [states|err] [-> Hstates]; [|by exists vs].
  apply safe_bind_calm; [apply calmly_prepare_transaction|]. intros [[]|err]; [|by exists vs].
  apply safe_bind. eapply safe_mono; [|apply safe_write_values].
  - intros g r [-> ->]. rewrite (written_transact vs vs l) by done. fold (transact l vs).
    apply safe_bind_calm; [apply calmly_update_records|]. intros [].
    apply safe_bind_calm; [apply calmly_mark_transaction|]. intros []. by exists (transact l vs).
  - done.
  - clear -Hall Hstates. induction Hstates as [|a ts l states (Hi & Hn & _) _ IH]; [done|].
    apply list.Forall_cons in Hall as [Ha Hall]. apply list.Forall_cons; split; [by rewrite Hi, Hn|]. by apply IH.
Qed.

Lemma safe_set_all t assignments no_wait :
  (∀ vs l, consistent vs → normalize_transaction assignments = Ok l → consistent (transact l vs)) →
  safe t (λ _ _, True) None (set_all_parameters fuel isr assignments no_wait).
Proof.
  intros Hok. unfold set_all_parameters. destruct isr at 1; [done|].
  apply safe_bind_calm; [apply calmly_mutable|]. intros [st|]; [|done].
  destruct (normalize_transaction assignments) as [l|] eqn:Hl; [|done].
  apply normalize_transaction_allowed in Hl as Hall.
  apply (safe_with_gate _ _ (λ _, True)); [|done|].
  - intros vs Hisr Hvs. apply safe_transaction_gated; [done..|]. by apply Hok.
  - intros [states|err] _; [|done].
    apply safe_bind_calm; [apply calmly_reschedule_transaction|]. intros [].
    apply safe_bind_calm; [apply calmly_hooks|]. intros d.
    by apply safe_bind_calm; [apply calmly_dispatch_transaction|].
Qed.

(** ** Queries *)
Lemma safe_record t i :
  safe t (λ g r, match r with Ok rec => allowed i (r_value rec) | _ => True end) None
    (parameter_record fuel isr i).
Proof.
  unfold parameter_record. apply safe_get. intros _ s0. destruct (ready s0); [|done].
  eapply safe_mono; [|apply (safe_gate t (λ r, match r with Ok rec => allowed i (r_value rec) | _ => True end))];
    [by intros g r [_ [?|[st ->]]]|].
  intros vs _ Hvs. apply safe_peek; [intros st; by exists vs|]. intros v Hv _.
  apply safe_get. intros e s. by exists vs.
Qed.

Lemma safe_snapshot_values t l no_wait vs :
  safe t (λ g r, g = Some vs ∧ match r with
      | Ok values => Forall2 (λ i v, allowed i v ∧ ((i < parameters)%nat → vs !! i = Some v)) l values
      | _ => True end) (Some vs) (read_snapshot_values isr l no_wait).
Proof.
  induction l as [|i l IH]; [split; [done|constructor]|]. cbn [read_snapshot_values].
  apply safe_peek; [done|]. intros v Hv Hknown. apply safe_bind. eapply safe_mono; [|exact IH].
  intros g [values|err] [-> Hvalues]; [|done]. split; [done|]. constructor; [|done].
  split; [done|]. by apply Hknown.
Qed.

Lemma safe_snapshot t l no_wait :
  safe t (λ g r, match r with Ok values => reply_ok (RSnapshot l (Ok values)) | _ => True end) None
    (snapshot_parameters fuel isr l no_wait).
Proof.
  unfold snapshot_parameters. destruct isr at 1; [done|]. apply safe_get. intros _ s0.
  destruct (ready s0); [|done].
  eapply safe_mono; [|apply (safe_gate t (λ r, match r with Ok values => reply_ok (RSnapshot l (Ok values)) | _ => True end))];
    [by intros g r [_ [?|[st ->]]]|].
  intros vs _ Hvs. eapply safe_mono; [|apply safe_snapshot_values].
  intros g r [-> Hr]. exists vs. split_and!; [done..|]. destruct r; [|done]. by exists vs.
Qed.

(** ** Saving: the gate is taken to read, and nothing is written *)
Local Abbreviation harmless t p := (safe t (λ g _, g = None) None p).

Lemma harmless_gate {E A} t no_wait (f : Status → E) (p : Program (result E A)) :
  calmly p → harmless t (with_gate fuel isr WriteGate no_wait f p).
Proof.
  intros Hp. eapply safe_mono; [|apply (safe_gate t (λ _, True))]; [by intros g r [-> _]|].
  intros vs _ Hvs. eapply safe_mono; [|eapply (safe_frames Inv assumed calm); [|done]].
  - intros g r ->. by exists vs.
  - intros gs s s'. apply calm_inv.
Qed.
Lemma harmless_calm {A} t (p : Program A) : calmly p → harmless t p.
Proof.
  intros Hp. eapply (safe_frames Inv assumed calm); [|done]. intros gs s s'. apply calm_inv.
Qed.
Lemma harmless_bind {A B} t (p : Program A) (k : A → Program B) :
  harmless t p → (∀ a, harmless t (k a)) → harmless t (bind p k).
Proof. intros Hp Hk. apply safe_bind. eapply safe_mono; [|exact Hp]. intros g a ->. apply Hk. Qed.
Lemma harmless_for_each {B} t l (body : nat → B → Program B) b :
  (∀ i b, harmless t (body i b)) → harmless t (for_each l body b).
Proof. intros Hb. revert b. induction l as [|i l IH]; intros b; [done|]. by apply harmless_bind. Qed.

Lemma harmless_parameter_slot t i force no_wait :
  harmless t (persist_parameter_slot fuel isr i force no_wait).
Proof.
  unfold persist_parameter_slot. destruct (store_of _) as [store|]; [|done].
  apply harmless_bind; [apply harmless_gate; calm|]. intros [w|st]; [|done].
  apply harmless_calm. calm.
Qed.
Lemma harmless_group_slot t g force no_wait : harmless t (persist_group_slot fuel isr g force no_wait).
Proof.
  unfold persist_group_slot. apply safe_get. intros _ s. apply safe_get. intros e _.
  destruct (negb _ || _); [done|]. apply harmless_bind.
  { apply harmless_gate. apply calmly_group_payload. apply calmly_peek_member. }
  intros [p|st]; [|done]. apply harmless_calm. calm.
  - unfold finish_group. by destruct (group_finish _ _ _).
  - unfold finish_member. calm.
Qed.
Lemma harmless_deferred t force no_wait :
  harmless t (persist_deferred_parameters fuel isr force no_wait).
Proof.
  unfold persist_deferred_parameters. apply harmless_bind; [|intros acc; apply harmless_bind; [|done]];
    apply harmless_for_each; intros i b; case_match; try done; apply harmless_bind; try done.
  - apply harmless_parameter_slot.
  - apply harmless_group_slot.
Qed.
Lemma harmless_pass t op no_wait which which_group :
  harmless t (save_pass fuel isr op no_wait which which_group).
Proof.
  unfold save_pass. apply harmless_bind; [|intros acc; apply harmless_bind; [|done]];
    apply harmless_for_each; intros i b; case_match; try done; apply harmless_bind; try done.
  - apply harmless_parameter_slot.
  - apply harmless_group_slot.
Qed.

(** ** Every operation *)
Definition outcome_ok (g : Knowledge) (r : Reply) : Prop := reply_ok r.

Lemma safe_reply {A} t (P : A → Prop) (f : A → Reply) (p : Program A) :
  safe t (λ _ a, P a) None p → (∀ a, P a → reply_ok (f a)) → safe t outcome_ok None (reply f p).
Proof. intros Hp Hf. apply safe_bind. eapply safe_mono; [|exact Hp]. intros g a Ha. by apply Hf. Qed.
Lemma harmless_reply {A} t (f : A → Reply) (p : Program A) :
  harmless t p → (∀ a, reply_ok (f a)) → safe t outcome_ok None (reply f p).
Proof. intros Hp Hf. eapply (safe_reply t (λ _, True)); [|done]. by eapply safe_mono; [|exact Hp]. Qed.

Lemma harmless_save t i no_wait : harmless t (save_parameter fuel isr i no_wait).
Proof.
  unfold save_parameter. destruct (negb _); [done|]. destruct isr at 1; [done|].
  apply safe_get. intros _ s. destruct (negb (ready s)); [done|]. apply harmless_bind; [|done].
  destruct (persistence (parameter i)); apply harmless_parameter_slot || apply harmless_group_slot.
Qed.
Lemma harmless_save_all t no_wait : harmless t (save_all_parameters fuel isr no_wait).
Proof.
  unfold save_all_parameters. destruct isr at 1; [done|]. apply safe_get. intros _ s.
  destruct (negb (ready s)); [done|]. apply harmless_pass.
Qed.
Lemma harmless_flush t no_wait : harmless t (flush_parameters fuel isr no_wait).
Proof.
  unfold flush_parameters. destruct (negb has_deferred); [done|]. destruct isr at 1; [done|].
  apply safe_get. intros _ s. destruct (negb (ready s)); [done|]. apply safe_get. intros e _.
  lazymatch goal with |- context [if ?b then Done _ else _] => destruct b end; [done|].
  apply safe_get. intros e' _. destruct (negb (quiescent e')); [done|]. apply harmless_pass.
Qed.
Lemma harmless_run_deferred t : harmless t (run_deferred fuel isr).
Proof.
  unfold run_deferred. apply harmless_bind; [apply harmless_deferred|]. intros [n|st]; [|done].
  apply harmless_calm, calmly_schedule_next.
Qed.
Lemma harmless_stop t : harmless t (stop fuel isr).
Proof.
  unfold stop. do 2 (apply safe_step_calm; [done|intros _ _]). destruct (has_deferred && _); [|done].
  apply harmless_bind; [apply harmless_deferred|]. by intros [].
Qed.
Lemma calmly_activate_changes : calmly activate_changes.
Proof. unfold activate_changes. calm. apply calmly_invoke_change. Qed.
Lemma calmly_activate_runtime : calmly activate_runtime.
Proof. unfold activate_runtime. calm. apply calmly_schedule. Qed.

Lemma call_safe t c : call_ok c → safe t outcome_ok None (call fuel isr c).
Proof.
  intros Hc. destruct c; simpl call.
  - eapply safe_reply; [apply safe_read|by intros []].
  - eapply safe_reply; [apply safe_get_isr|by intros []].
  - eapply safe_reply; [by apply safe_set|by intros []].
  - eapply safe_reply; [by apply safe_set|by intros []].
  - eapply safe_reply; [by apply safe_set|by intros []].
  - eapply (safe_reply _ (λ _, True)); [by apply safe_set_all|done].
  - eapply safe_reply; [apply safe_snapshot|by intros []].
  - eapply safe_reply; [apply safe_record|by intros []].
  - apply harmless_reply; [|done]. apply harmless_calm. unfold change_record. calm.
  - apply harmless_reply; [apply harmless_save|done].
  - apply harmless_reply; [apply harmless_save_all|done].
  - apply harmless_reply; [apply harmless_flush|done].
  - apply harmless_reply; [apply harmless_run_deferred|done].
  - apply harmless_reply; [|done]. apply harmless_calm. unfold start. calm.
  - apply harmless_reply; [apply harmless_stop|done].
  - apply harmless_reply; [|done]. apply harmless_calm. unfold deinit. calm.
  - apply harmless_reply; [apply harmless_calm, calmly_activate_changes|done].
  - apply harmless_reply; [apply harmless_calm, calmly_activate_runtime|done].
Qed.
End Safety.
End ParameterSafety.
