(* ===== verification/ParametersProps.v ===== *)
(** * ParametersProps: the parameter facility as a whole

    What bringing the facility up establishes, and what any number of threads
    calling its operations keep in every interleaving. *)
From stdpp Require Import prelude functions.
From S2P Require Import Prelude Status Interleave Lifecycle ParametersRecord Parameters.
From S2P Require Import ParametersPrograms ParametersBoot ParametersSafe.

Open Scope Z_scope.
Open Scope solar_scope.

Module ParameterProps.
Import Records TypedParameters ParameterPrograms ParameterBoot ParameterSafety.

Section Props.
Context {V St : Type} `{!ValueType V} `{!Architecture V St} `{!ArchitectureLaws}.
Local Abbreviation State := (TypedParameters.State V St).
Local Abbreviation Program := (Program V St).
Implicit Types (s : State).
Open Scope prog_scope.

(** ** Bringing the facility up *)

(** A cell that holds an allowed value goes on holding one. *)
Definition improves s s' : Prop :=
  write_gate s' = write_gate s ∧
  ∀ i, allowed i (value_ (slot s i)) → allowed i (value_ (slot s' i)).
#[export] Instance improves_preorder : PreOrder improves.
Proof. split; [by intros s|]. intros s1 s2 s3 [Hg Hi] [Hg' Hi']. split; [congruence|auto]. Qed.

Lemma calm_improves s s' : calm s s' → improves s s'.
Proof. intros [Hv Hg]. split; [done|]. intros i. by rewrite Hv. Qed.
Lemma improves_slot i f s :
  (∀ sl, allowed i (value_ sl) → allowed i (value_ (f sl))) → improves s (on_slot i f s).
Proof.
  intros Hf. split; [done|]. intros j Hj. cbn. destruct (decide (j = i)) as [->|].
  - rewrite fn_lookup_insert. by apply Hf.
  - by rewrite fn_lookup_insert_ne.
Qed.

Local Abbreviation improving := (frames improves).
Lemma improving_bind {A B} (p : Program A) (k : A → Program B) :
  improving p → (∀ a, improving (k a)) → improving (bind p k).
Proof. apply frames_bind. Qed.
Lemma improving_for_each {B} l (body : nat → B → Program B) b :
  (∀ i b, improving (body i b)) → improving (for_each l body b).
Proof. intros Hb. revert b. induction l as [|i l IH]; intros b; [done|]. by apply frames_bind. Qed.
Lemma improving_step {A B} (f : Env → State → B * State) (k : B → Program A) :
  (∀ e s, improves s (f e s).2) → (∀ b, improving (k b)) → improving (Then f k).
Proof. done. Qed.
Lemma improving_set_slot {A} i f (k : unit → Program A) :
  (∀ sl, allowed i (value_ sl) → allowed i (value_ (f sl))) → (∀ u, improving (k u)) →
  improving (Then (set_slot i f) k).
Proof. intros Hf Hk. split; [|done]. intros e s. by apply improves_slot. Qed.

Ltac improve_layer :=
  lazymatch goal with
  | |- frames _ (bind _ _) => apply improving_bind
  | |- frames _ (for_each _ _ _) => apply improving_for_each
  | |- frames _ (Then (set_slot _ _) _) => apply improving_set_slot; [done|]
  | |- frames _ (Then _ _) => apply improving_step; [intros; try by apply calm_improves|]
  | |- frames _ (if ?b then _ else _) => destruct b
  | |- frames _ (match ?x with _ => _ end) => destruct x eqn:?
  | |- frames _ (Done _) => done
  | |- frames _ Stalled => done
  | |- ∀ _, _ => intros
  end.
Ltac improve := repeat improve_layer; try done.

Lemma improving_load_failure i st r o : improving (load_failure i st r o).
Proof. unfold load_failure, record_load_failure. improve. Qed.
Lemma improving_load_decoded i d : improving (load_decoded i d).
Proof.
  unfold load_decoded. destruct (load_value i d) as [v source].
  destruct v as [[v|err]|]; [|apply improving_load_failure|done].
  destruct (normalize _ v) as [n|] eqn:Hn; [|apply improving_load_failure].
  apply improving_set_slot; [intros sl _; by eapply normalize_allowed|]. improve.
Qed.
Lemma improving_load_parameter i : improving (load_persistent_parameter i).
Proof.
  unfold load_persistent_parameter, missing_default.
  improve; apply improving_load_failure || apply improving_load_decoded.
Qed.

Lemma improving_group_failure g st r o : improving (group_load_failure g st r o).
Proof. unfold group_load_failure, record_load_failure. improve. Qed.
Lemma normalize_group_allowed l vs ns :
  normalize_group_values l vs = Some ns → Forall2 allowed l ns.
Proof.
  revert vs ns. induction l as [|i l IH]; intros [|v vs] ns Hns; simpl in Hns; try done.
  - by injection Hns as <-.
  - destruct (normalize _ v) as [n|] eqn:Hn; [|done].
    destruct (normalize_group_values l vs) as [ns'|] eqn:Hl; [|done]. injection Hns as <-.
    constructor; [by eapply normalize_allowed|by eapply IH].
Qed.
Lemma improving_members_loaded l vs source outcome stored :
  Forall2 allowed l vs → improving (mark_members_loaded l vs source outcome stored).
Proof. induction 1 as [|i v l vs Hv _ IH]; [done|]. apply improving_set_slot; done. Qed.
Lemma improving_load_group_decoded g d : improving (load_group_decoded g d).
Proof.
  unfold load_group_decoded. destruct (load_group_values g d) as [vs source].
  destruct vs as [[vs|err]|]; [|apply improving_group_failure|done].
  destruct (normalize_group_values _ vs) as [ns|] eqn:Hn; [|apply improving_group_failure].
  apply improving_bind; [apply improving_members_loaded; by eapply normalize_group_allowed|]. improve.
Qed.
Lemma improving_load_group g : improving (load_persistent_group g).
Proof.
  unfold load_persistent_group, missing_default.
  improve; apply improving_group_failure || apply improving_load_group_decoded.
Qed.

Lemma improving_initialize : improving initialize_persistence.
Proof.
  unfold initialize_persistence, unless_failed, initialize_store. improve.
  - intros. case_match. by apply calm_improves.
  - apply improving_load_parameter.
  - apply improving_load_group.
Qed.

Lemma default_allowed i sl : allowed i (value_ (slot_initialize (parameter i) (Z.of_nat i) sl)).
Proof. intros _. apply defaults_accepted. Qed.

Local Abbreviation initialize_slots l :=
  (for_each l (λ i _, _ ← set_slot i (slot_initialize (parameter i) (Z.of_nat i)); Done tt) tt).

Lemma improving_slots l : improving (initialize_slots l).
Proof. apply improving_for_each. intros i b. apply improving_set_slot; [|done]. intros sl _. apply default_allowed. Qed.

Lemma initialize_slots_allowed e l s u s' :
  alone e (initialize_slots l) s = Some (u, s') → ∀ i, i ∈ l → allowed i (value_ (slot s' i)).
Proof.
  revert s. induction l as [|j l IH]; intros s Hrun i Hi; [by apply elem_of_nil in Hi|].
  cbn in Hrun. apply elem_of_cons in Hi as [->|Hi]; [|by eapply IH].
  apply (alone_frames improves) in Hrun as [_ Hrun]; [|apply improving_slots]. apply Hrun. cbn.
  rewrite fn_lookup_insert. apply default_allowed.
Qed.

(** A system is up when [init] has run, with the gate free. *)
Definition started s : Prop :=
  ∃ e s0 r, write_gate s0 = false ∧ alone e init s0 = Some (r, s).

Lemma started_allowed s : started s → write_gate s = false ∧ ∀ i, allowed i (value_ (slot s i)).
Proof.
  intros (e & s0 & r & Hgate & Hrun). unfold init in Hrun. cbn [alone update] in Hrun.
  rewrite alone_bind in Hrun. apply bind_Some in Hrun as ([[] s1] & Hslots & Hrun).
  apply (alone_frames improves) in Hrun as [Hg Hrun].
  - pose proof (initialize_slots_allowed _ _ _ _ _ Hslots) as Hall.
    apply (alone_frames improves) in Hslots as [Hg1 _]; [|apply improving_slots].
    split; [by rewrite Hg, Hg1|]. intros i Hi. apply Hrun; [|done].
    apply Hall. apply elem_of_seq. lia.
  - unfold attempt_result. improve. apply improving_initialize.
Qed.

(** ** Any number of threads *)
Definition threads (fuel : nat) (calls : list (bool * Call)) : list (Program Reply) :=
  map (λ c, call fuel c.1 c.2) calls.

Lemma threads_safe (consistent : list V → Prop) fuel calls s sch :
  started s → consistent (cells s) → Forall (λ c, call_ok consistent c.2) calls →
  Forall (λ te, assumed te.2) sch →
  all_safe (Inv consistent) assumed (λ _, outcome_ok consistent) (run sch (s, threads fuel calls)).
Proof.
  intros Hs Hcons Hcalls Hsch. apply started_allowed in Hs as [Hgate Hall].
  apply all_safe_run; [done|]. exists (replicate (length calls) None).
  unfold threads. split; [|split; [cbn; by rewrite length_replicate, length_map|]].
  - split; [done|done|..]; intros t.
    + intros vs Ht. by apply lookup_replicate in Ht as [? _].
    + intros u c d Ht. by apply lookup_replicate in Ht as [? _].
  - intros t p Ht. simpl in Ht. apply list_lookup_fmap_Some in Ht as ([isr c] & -> & Hc).
    exists None. split; [apply lookup_replicate_2; by eapply lookup_lt_Some|].
    apply call_safe. exact (Forall_lookup_1 _ _ _ _ Hcalls Hc).
Qed.

Lemma anything_ok (calls : list (bool * Call)) :
  Forall (λ c, call_ok (λ _, True) c.2) calls.
Proof. apply Forall_forall. intros [isr c] _. by destruct c. Qed.

(** The values in a reply. *)
Definition well_typed (r : Reply) : Prop :=
  match r with
  | RValue i (Ok v) => allowed i v
  | RUpdate i (Ok u) => allowed i (effective_value u)
  | RRecord i (Ok rec) => allowed i (r_value rec)
  | RSnapshot l (Ok values) => Forall2 allowed l values
  | _ => True
  end.

(** C21: parameters stay well typed: once the facility is up, whatever the
    store held, and however any number of threads interleave gets, sets,
    resets, transactions, snapshots, saves, the deferred task and the
    lifecycle hooks, every value cell satisfies its parameter's validation
    policy at every moment, and so does every value an operation returns. *)
Theorem parameters_well_typed fuel calls s sch :
  started s → Forall (λ te, assumed te.2) sch →
  let final := run sch (s, threads fuel calls) in
  (∀ i, allowed i (value_ (slot final.1 i))) ∧
  ∀ t r, final.2 !! t = Some (Done r) → well_typed r.
Proof.
  intros Hs Hsch. destruct (threads_safe (λ _, True) fuel calls s sch) as (gs & HI & _ & Hall);
    [done..|by apply anything_ok|done|].
  split; [apply HI|]. intros t r Hr. destruct (Hall _ _ Hr) as (g & _ & Hok).
  cbn in Hok. unfold outcome_ok in Hok. destruct r as [? []|? []| |? []|? []| | | |]; try done.
  destruct Hok as (vs & _ & Hvs). eapply Forall2_impl; [|exact Hvs]. by intros i v [? _].
Qed.

(** C20: snapshots are atomic: let the threads' sets, resets and transactions,
    each taken as one update of all the values, keep a relation between the
    parameters that holds at the start.  Then in every interleaving each
    snapshot shows the values of one state in which the relation holds, and
    the cells themselves satisfy it whenever the write gate is free: no
    snapshot sees half of a transaction. *)
Theorem snapshots_consistent (consistent : list V → Prop) fuel calls s sch :
  started s → consistent (cells s) → Forall (λ c, call_ok consistent c.2) calls →
  Forall (λ te, assumed te.2) sch →
  let final := run sch (s, threads fuel calls) in
  (write_gate final.1 = false → consistent (cells final.1)) ∧
  ∀ t l values, final.2 !! t = Some (Done (RSnapshot l (Ok values))) →
    ∃ vs, consistent vs ∧ Forall2 (λ i v, (i < parameters)%nat → vs !! i = Some v) l values.
Proof.
  intros Hs Hcons Hcalls Hsch.
  destruct (threads_safe consistent fuel calls s sch) as (gs & HI & _ & Hall); [done..|].
  split; [apply HI|]. intros t l values Hr. destruct (Hall _ _ Hr) as (g & _ & vs & Hvs & Hvalues).
  exists vs. split; [done|]. eapply Forall2_impl; [|exact Hvalues]. by intros i v [_ ?].
Qed.
End Props.
End ParameterProps.
