(* ===== verification/ParametersDurable.v ===== *)
(** * ParametersDurable: what is saved is what the next boot loads

    A value saved on its own or in the image of its group, and the boot that
    follows.  The stores are the adapters' code; [StoreLaws] is what
    [persistence::Adapter] promises: a record that was saved is loaded as it
    was saved, and initializing a store keeps its records. *)
From stdpp Require Import prelude functions.
From S2P Require Import Prelude Status Interleave ParametersRecord Parameters.
From S2P Require Import ParametersPrograms ParametersBoot.

Open Scope Z_scope.
Open Scope solar_scope.

Module ParameterDurability.
Import Records TypedParameters ParameterPrograms ParameterBoot.

Class StoreLaws {V St} `{!Architecture V St} : Prop := {
  load_saved store k bytes st st' buffer :
    store_save store k bytes st = (Ok tt, st') → (length bytes ≤ length buffer)%nat →
    store_load store k buffer st' = (Ok (length bytes), bytes ++ drop (length bytes) buffer);
  load_initialized store store' k buffer st :
    store_load store k buffer (store_initialize store' st).2 = store_load store k buffer st }.

(** What the static assertions say of persistent declarations: identities and
    versions in range, records within the configured ceilings, groups whose
    members are transactional and belong to one group only; and [storable i],
    the values the codec of parameter [i] is made for and its policy leaves
    as they are. *)
Class DurableLaws {V St} `{!ValueType V} `{!Architecture V St} (storable : nat → V → Prop) : Prop := {
  storable_codec i :: CodecLaws (storable i) (codec (parameter i));
  storable_stable i v : storable i v → ∃ b, normalize (validation (parameter i)) v = Ok (mkNormalized v b);
  id_range i : is_u 64 (default 0 (descriptor_id (parameter i)));
  version_range i : is_u 16 (descriptor_version (parameter i));
  record_fits i : (envelope_size + encoded_size (codec (parameter i)) ≤ max_encoded_record_bytes)%nat;
  group_id_range g : is_u 64 (group_id (group g));
  group_version_range g : is_u 16 (group_version (group g));
  group_fits g : (envelope_size + group_payload_size g ≤ max_group_record_bytes)%nat;
  ceilings : Z.of_nat max_encoded_record_bytes < 2 ^ 32 ∧ Z.of_nat max_group_record_bytes < 2 ^ 32;
  member_of_group i g : i ∈ members (group g) → persistence (parameter i) = Transactional g;
  group_of_member i g : (i < parameters)%nat → persistence (parameter i) = Transactional g →
    i ∈ members (group g) ∧ (g < groups)%nat }.

Section Durable.
Context {V St : Type} `{!ValueType V} `{!Architecture V St} `{!StoreLaws}.
Context {storable : nat → V → Prop} `{!DurableLaws storable}.
Context (fuel : nat) (isr : bool).

Local Abbreviation State := (TypedParameters.State V St).
Local Abbreviation Program := (Program V St).
Implicit Types (s : State) (v : V).
Open Scope prog_scope.

(** ** Programs run without interference *)
Lemma alone_lock e g no_wait s r s' :
  alone e (lock fuel isr g no_wait) s = Some (r, s') →
  (r = Ok tt ∧ s' = set_held g true s) ∨ ∃ st, r = Err st.
Proof.
  unfold lock. induction fuel as [|n IH]; [done|]. cbn [lock_loop alone]. unfold attempt at 1.
  destruct isr; [intros Hr; injection Hr as <- <-; eauto|].
  destruct (lock_error e no_wait); [intros Hr; injection Hr as <- <-; eauto|].
  destruct (held g s); [destruct no_wait|]; [intros Hr; injection Hr as <- <-; eauto|exact IH|].
  intros Hr. injection Hr as <- <-. auto.
Qed.

Lemma alone_with_gate {E A} e g no_wait (f : Status → E) (p : Program (result E A)) s a s' :
  alone e (with_gate fuel isr g no_wait f p) s = Some (Ok a, s') →
  ∃ s1, alone e p (set_held g true s) = Some (Ok a, s1) ∧ s' = set_held g false s1.
Proof.
  unfold with_gate. rewrite alone_bind. intros Hr. apply bind_Some in Hr as ([l s1] & Hl & Hr).
  apply alone_lock in Hl as [[-> ->]|[st ->]]; [|done].
  rewrite alone_bind in Hr. apply bind_Some in Hr as ([r s2] & Hp & Hr). cbn in Hr.
  injection Hr as -> <-. eauto.
Qed.

Lemma alone_attempt {E A B} e (p : Program (result E A)) (k : A → Program (result E B)) s b s' :
  alone e (attempt_result p k) s = Some (Ok b, s') →
  ∃ a s1, alone e p s = Some (Ok a, s1) ∧ alone e (k a) s1 = Some (Ok b, s').
Proof.
  unfold attempt_result. rewrite alone_bind. intros Hr. apply bind_Some in Hr as ([[a|err] s1] & Hp & Hr);
    [eauto|done].
Qed.

Lemma alone_store_call e f s r s' :
  alone e (store_call f) s = Some (r, s') →
  ∃ st, f (stores s) = Some (r, st) ∧ s' = s <| stores := st |>.
Proof.
  unfold store_call, call_store. cbn. destruct (f (stores s)) as [[r' st]|]; [|done].
  intros Hr. injection Hr as -> <-. eauto.
Qed.

Lemma set_held_slot g b s : slot (set_held g b s) = slot s.
Proof. by destruct g. Qed.
Lemma set_held_stores g b s : stores (set_held g b s) = stores s.
Proof. by destruct g. Qed.
Lemma set_held_group g b s : group_state (set_held g b s) = group_state s.
Proof. by destruct g. Qed.

(** ** A parameter saved on its own *)
Definition parameter_record_bytes (i : nat) (bytes : list Z) : list Z :=
  record_bytes (persistence_key i) (descriptor_version (parameter i)) bytes.

Lemma persist_value_saved i store v st r st' :
  storable i v → persist_value i store v false st = Some (r, st') →
  ∃ bytes, store_save store (persistence_key i) (parameter_record_bytes i bytes) st = (r, st')
    ∧ length bytes = encoded_size (codec (parameter i)) ∧ codec_decode (codec (parameter i)) bytes = succeed v.
Proof.
  intros Hv. unfold persist_value, encode_persistent_value.
  destruct (storable_codec i v (replicate (encoded_size (codec (parameter i))) 0) Hv)
    as (bytes & -> & Hlen & _ & Hdec); [by rewrite length_replicate|].
  cbn [succeed]. rewrite Nat.eqb_refl. pose proof (record_fits i) as Hfits.
  rewrite encode_record_spec by (rewrite length_replicate; lia). cbn [succeed].
  rewrite take_app_exact by (by rewrite record_bytes_length).
  intros Hr. injection Hr as Hr. eauto.
Qed.

Lemma saved_parameter e i store no_wait s b s' :
  store_of (persistence (parameter i)) = Some store →
  alone e (persist_parameter_slot fuel isr i true no_wait) s = Some (Ok b, s') →
  r_dirty (record_ (slot s i)) = true → erase_pending_ (slot s i) = false → storable i (value_ (slot s i)) →
  ∃ st bytes, store_save store (persistence_key i) (parameter_record_bytes i bytes) st = (Ok tt, stores s')
    ∧ length bytes = encoded_size (codec (parameter i))
    ∧ codec_decode (codec (parameter i)) bytes = succeed (value_ (slot s i)).
Proof.
  intros Hstore Hrun Hdirty Herase Hv. unfold persist_parameter_slot in Hrun. rewrite Hstore in Hrun.
  apply alone_attempt in Hrun as (work & s1 & Hgate & Hrun).
  apply alone_with_gate in Hgate as (s2 & Hread & ->). cbn in Hread.
  destruct (cell_lock isr false i e); [done|]. cbn in Hread. injection Hread as <- <-.
  cbn [alone get work_dirty persistence_work] in Hrun. rewrite Hdirty in Hrun. cbn [negb orb not_due andb] in Hrun.
  apply alone_with_gate in Hrun as (s3 & Hsave & ->). rewrite set_held_stores.
  rewrite alone_bind in Hsave. apply bind_Some in Hsave as ([r s4] & Hstore4 & Hsave).
  apply alone_store_call in Hstore4 as (st & Hpersist & ->). rewrite !set_held_stores in Hpersist.
  cbn [work_value work_erase persistence_work] in Hpersist. rewrite Herase in Hpersist.
  apply persist_value_saved in Hpersist as (bytes & Hsaved & Hlen & Hdec); [|done].
  cbn in Hsave. destruct r as [[]|]; [|done]. injection Hsave as _ <-. eauto.
Qed.

(** ** A group saved as one image *)

(** The encoded members [bss] of the group [l] in the state [s]. *)
Definition image (l : list nat) (bss : list (list Z)) s : Prop :=
  Forall2 (λ i bs, length bs = encoded_size (codec (parameter i))
                   ∧ codec_decode (codec (parameter i)) bs = succeed (value_ (slot s i))) l bss.

Lemma image_length l bss s :
  image l bss s → length (concat bss) = sum_list_with (λ i, encoded_size (codec (parameter i))) l.
Proof. induction 1 as [|i bs l bss [Hlen _] _ IH]; [done|]. cbn. by rewrite length_app, Hlen, IH. Qed.

Lemma encode_member_spec i v pre rest output :
  storable i v → encode_member i v (pre ++ rest) (length pre) = Some (Ok output) →
  ∃ bs, length bs = encoded_size (codec (parameter i)) ∧ codec_decode (codec (parameter i)) bs = succeed v
    ∧ output = (pre ++ bs) ++ drop (length bs) rest.
Proof.
  intros Hv. unfold encode_member. set (size := encoded_size (codec (parameter i))).
  destruct (Nat.ltb_spec (length (pre ++ rest)) (length pre + size)); [done|].
  rewrite drop_app_length. rewrite length_app in *.
  destruct (storable_codec i v (take size rest) Hv) as (bs & -> & Hlen & _ & Hdec).
  { rewrite length_take. unfold size in *. lia. }
  cbn [succeed]. fold size in Hlen |- *. rewrite Nat.eqb_refl. intros Ho. injection Ho as <-.
  exists bs. split_and!; [done..|].
  by rewrite take_app_length, <-drop_drop, drop_app_length, <-app_assoc, Hlen.
Qed.

Local Abbreviation encode_members l acc := (for_each l (encode_next (peek_member isr)) acc).

Lemma alone_encode_failed e l st s r s' :
  alone e (encode_members l (Err st)) s = Some (r, s') → r = Err st.
Proof. induction l as [|i l IH]; cbn; [intros Hr; by injection Hr as <- _|done]. Qed.

Lemma alone_encode_members e l pre rest s p s' :
  alone e (encode_members l (Ok (pre ++ rest, length pre))) s = Some (Ok p, s') →
  (∀ i, i ∈ l → storable i (value_ (slot s i))) →
  s' = s ∧ ∃ bss, image l bss s ∧ take p.2 p.1 = pre ++ concat bss
    ∧ p.2 = (length pre + length (concat bss))%nat.
Proof.
  revert pre rest. induction l as [|i l IH]; intros pre rest Hrun Hall; cbn [for_each] in Hrun.
  { injection Hrun as <- <-. split; [done|]. exists []. cbn. rewrite take_app_length, app_nil_r.
    split_and!; [constructor|done|lia]. }
  rewrite alone_bind in Hrun. apply bind_Some in Hrun as ([r s1] & Hbody & Hrun).
  destruct r as [q|st]; [|by apply alone_encode_failed in Hrun].
  apply alone_attempt in Hbody as (v & s2 & Hpeek & Hbody).
  cbn in Hpeek. destruct (cell_lock isr false i e); [done|]. injection Hpeek as <- <-.
  destruct (encode_member i _ _ _) as [[output|]|] eqn:Hmember; [|done..].
  apply encode_member_spec in Hmember as (bs & Hlen & Hdec & ->); [|apply Hall; by left].
  cbn in Hbody. injection Hbody as <- <-.
  replace (length pre + encoded_size (codec (parameter i)))%nat with (length (pre ++ bs)) in Hrun
    by (rewrite length_app; lia).
  apply IH in Hrun as (-> & bss & Hbss & Htake & Hp); [|intros j Hj; apply Hall; by right].
  split; [done|]. exists (bs :: bss). cbn. rewrite !app_assoc, length_app in *.
  split_and!; [by constructor|done|lia].
Qed.

Definition same_stores s s' : Prop := stores s' = stores s.
#[export] Instance same_stores_preorder : PreOrder same_stores.
Proof. split; [by intros s|]. unfold same_stores. intros s1 s2 s3. congruence. Qed.

Lemma finish_same_stores g revision (r : Records.Result unit) :
  frames same_stores
    (let status := match r with Ok _ => SOk | Err e => status_of e end in
     cleared ← finish_group g revision (is_ok r);
     _ ⇇ for_each (members (group g)) (λ i _, finish_member isr (is_ok r) cleared status i) tt;
     Done match r with Ok _ => Ok true | Err e => Err (status_of e) end).
Proof.
  split; [intros e s; unfold finish_group; by destruct (group_finish _ _ _)|].
  intros cleared. apply frames_bind; [|done]. induction (members (group g)) as [|i l IH]; [done|].
  apply frames_bind; [|by intros []]. split; [done|]. intros [v|st]; [|done]. split; [done|].
  intros work. by destruct (_ || _).
Qed.

Lemma saved_group e g no_wait s b s' :
  alone e (persist_group_slot fuel isr g true no_wait) s = Some (Ok b, s') →
  g_dirty (group_state s g) = true →
  (∀ i, i ∈ members (group g) → storable i (value_ (slot s i))) →
  ∃ st bss, image (members (group g)) bss s ∧
    store_save (group_store (group g)) (group_key g)
      (record_bytes (group_key g) (group_version (group g)) (concat bss)) st = (Ok tt, stores s').
Proof.
  intros Hrun Hdirty Hall. unfold persist_group_slot in Hrun. cbn [alone get] in Hrun.
  rewrite Hdirty in Hrun. cbn [negb orb not_due andb] in Hrun.
  apply alone_attempt in Hrun as (p & s1 & Hgate & Hrun).
  apply alone_with_gate in Hgate as (s2 & Hencode & ->). unfold encode_group_payload in Hencode.
  destruct (max_group_record_bytes <? group_payload_size g)%nat; [done|].
  apply (alone_encode_members _ _ [] (replicate max_group_record_bytes 0)) in Hencode
    as (-> & bss & Hbss & Htake & _); [|by rewrite set_held_slot].
  apply alone_with_gate in Hrun as (s3 & Hsave & ->).
  rewrite alone_bind in Hsave. apply bind_Some in Hsave as ([r s4] & Hstore & Hsave).
  apply alone_store_call in Hstore as (st & Hpersist & ->).
  apply (alone_frames same_stores) in Hsave as Hstores; [|apply finish_same_stores].
  cbn in Hsave. destruct (finish_group _ _ _ _ _) as [cleared s4] in Hsave.
  rewrite alone_bind in Hsave. apply bind_Some in Hsave as ([[] s5] & _ & Hsave).
  cbn in Hsave. destruct r as [[]|]; [|done]. unfold persist_record in Hpersist.
  rewrite Htake, encode_record_spec in Hpersist.
  2: { rewrite length_replicate. cbn [app]. rewrite (image_length _ _ _ Hbss). apply group_fits. }
  cbn [succeed] in Hpersist. rewrite take_app_exact in Hpersist by (by rewrite record_bytes_length).
  injection Hpersist as Hsaved. rewrite set_held_stores. unfold same_stores in Hstores.
  cbn in Hstores. rewrite Hstores. eexists _, bss. split; [exact Hbss|exact Hsaved].
Qed.

(** ** Loading *)
Definition restored v (sl : Slot V) : Prop :=
  value_ sl = v ∧ r_load_outcome (record_ sl) = Loaded ∧ r_persistence (record_ sl) = Clean
  ∧ r_dirty (record_ sl) = false.

(** The stores of the next boot hold a record. *)
Definition holds (store : nat) (k : Key) (record : list Z) (st : St) : Prop :=
  ∀ buffer, (length record ≤ length buffer)%nat →
    store_load store k buffer st = (Ok (length record), record ++ drop (length record) buffer).

Lemma kind_ranges : is_byte RecordKind_Parameter ∧ is_byte RecordKind_Group.
Proof. by split. Qed.

Lemma load_saved_parameter e i store bytes v s r s' :
  store_of (persistence (parameter i)) = Some store → storable i v →
  length bytes = encoded_size (codec (parameter i)) → codec_decode (codec (parameter i)) bytes = succeed v →
  holds store (persistence_key i) (parameter_record_bytes i bytes) (stores s) →
  alone e (load_persistent_parameter i) s = Some (r, s') →
  r = Ok tt ∧ restored v (slot s' i).
Proof.
  intros Hstore Hv Hlen Hdec Hholds Hrun. unfold load_persistent_parameter in Hrun.
  pose proof (record_fits i) as Hfits. pose proof ceilings as [Hceil _].
  assert (length (parameter_record_bytes i bytes) = envelope_size + length bytes)%nat as Hl
    by apply record_bytes_length.
  rewrite Hstore in Hrun. cbn [alone get] in Hrun.
  rewrite (Hholds (replicate max_encoded_record_bytes 0)) in Hrun
    by (rewrite length_replicate; lia).
  cbn [fst snd] in Hrun. destruct (Nat.ltb_spec max_encoded_record_bytes (length (parameter_record_bytes i bytes)));
    [lia|].
  rewrite take_app_length in Hrun. unfold parameter_record_bytes in Hrun.
  rewrite decode_record_bytes in Hrun
    by (apply kind_ranges || apply id_range || apply version_range || lia).
  cbn [succeed key persistence_key kind stable_id] in Hrun. rewrite !Z.eqb_refl in Hrun.
  cbn [negb orb] in Hrun. unfold load_decoded, load_value in Hrun. cbn [version payload] in Hrun.
  rewrite Z.eqb_refl, Hdec in Hrun. cbn [succeed] in Hrun.
  destruct (storable_stable i v Hv) as [b Hb]. rewrite Hb in Hrun. cbn in Hrun.
  injection Hrun as <- <-. split; [done|]. cbn. by rewrite fn_lookup_insert.
Qed.

Lemma decode_image l bss s pre :
  image l bss s → decode_group_values l (pre ++ concat bss) (length pre) = succeed (map (λ i, value_ (slot s i)) l).
Proof.
  intros Himg. revert pre.
  induction Himg as [|i bs l bss [Hlen Hdec] _ IH]; intros pre; cbn [decode_group_values concat map].
  - by rewrite app_nil_r, Nat.eqb_refl.
  - rewrite !length_app. destruct (Nat.ltb_spec (length pre + (length bs + length (concat bss)))
      (length pre + encoded_size (codec (parameter i)))); [lia|].
    rewrite drop_app_length, take_app_exact by done. rewrite Hdec. cbn [succeed cbind].
    specialize (IH (pre ++ bs)). rewrite <-app_assoc, length_app, Hlen in IH. by rewrite IH.
Qed.

Lemma normalize_image l s :
  (∀ i, i ∈ l → storable i (value_ (slot s i))) →
  normalize_group_values l (map (λ i, value_ (slot s i)) l) = Some (map (λ i, value_ (slot s i)) l).
Proof.
  induction l as [|i l IH]; intros Hall; [done|]. cbn.
  destruct (storable_stable i _ (Hall i (list_elem_of_here _ _))) as [b ->]. cbn.
  rewrite IH; [done|]. intros j Hj. apply Hall. by right.
Qed.

Lemma members_restored e (f : nat → V) l stored s u s' :
  alone e (mark_members_loaded l (map f l) FromStore Loaded stored) s = Some (u, s') →
  ∀ i, i ∈ l ∨ restored (f i) (slot s i) → restored (f i) (slot s' i).
Proof.
  revert s. induction l as [|j l IH]; intros s Hrun i Hi; cbn in Hrun.
  - injection Hrun as _ <-. destruct Hi as [Hi|]; [by apply elem_of_nil in Hi|done].
  - apply IH with (i := i) in Hrun; [done|]. destruct (decide (i ∈ l)) as [|Hl]; [by left|right].
    cbn. destruct (decide (i = j)) as [->|Hne]; [by rewrite fn_lookup_insert|].
    rewrite fn_lookup_insert_ne by done. destruct Hi as [Hi|Hi]; [|done].
    apply elem_of_cons in Hi as [|]; done.
Qed.

Lemma load_saved_group e g (s0 s s' : State) bss r :
  (∀ i, i ∈ members (group g) → storable i (value_ (slot s0 i))) →
  image (members (group g)) bss s0 →
  holds (group_store (group g)) (group_key g)
    (record_bytes (group_key g) (group_version (group g)) (concat bss)) (stores s) →
  alone e (load_persistent_group g) s = Some (r, s') →
  r = Ok tt ∧ ∀ i, i ∈ members (group g) → restored (value_ (slot s0 i)) (slot s' i).
Proof.
  intros Hv Himg Hholds Hrun. unfold load_persistent_group in Hrun.
  pose proof (image_length _ _ _ Himg) as Hlen. fold (group_payload_size g) in Hlen.
  pose proof (group_fits g) as Hfits. pose proof ceilings as [_ Hceil].
  set (record := record_bytes _ _ _) in Hholds.
  assert (length record = envelope_size + length (concat bss))%nat as Hl by apply record_bytes_length.
  cbn [alone get] in Hrun. rewrite (Hholds (replicate max_group_record_bytes 0)) in Hrun
    by (rewrite length_replicate; lia).
  cbn [fst snd] in Hrun. destruct (Nat.ltb_spec max_group_record_bytes (length record)); [lia|].
  rewrite take_app_length in Hrun. unfold record in Hrun.
  rewrite decode_record_bytes in Hrun
    by (apply kind_ranges || apply group_id_range || apply group_version_range || lia).
  cbn [succeed key group_key kind stable_id] in Hrun. rewrite !Z.eqb_refl in Hrun.
  cbn [negb orb] in Hrun. unfold load_group_decoded, load_group_values in Hrun.
  cbn [version payload] in Hrun.
  rewrite Z.eqb_refl, (decode_image _ _ _ [] Himg : decode_group_values _ (concat bss) 0 = _) in Hrun.
  cbn [succeed] in Hrun. rewrite normalize_image in Hrun by done.
  rewrite alone_bind in Hrun. apply bind_Some in Hrun as ([[] s1] & Hmark & Hrun).
  injection Hrun as <- <-. split; [done|]. intros i Hi.
  exact (members_restored _ (λ i, value_ (slot s0 i)) _ _ _ _ _ Hmark i (or_introl Hi)).
Qed.

(** ** Steps of a boot that leave a record alone *)
Definition same_records s s' : Prop :=
  ∀ store k buffer, store_load store k buffer (stores s') = store_load store k buffer (stores s).
Definition same_slot (i : nat) s s' : Prop := slot s' i = slot s i ∧ same_records s s'.
#[export] Instance same_slot_preorder i : PreOrder (same_slot i).
Proof.
  split; [by intros s|]. intros s1 s2 s3 [Hs Hr] [Hs' Hr']. split; [congruence|].
  intros store k b. by rewrite Hr'.
Qed.

Lemma same_slot_other i j f s : i ≠ j → same_slot i s (on_slot j f s).
Proof. intros Hne. split; [|done]. cbn. by rewrite fn_lookup_insert_ne. Qed.

Local Abbreviation keeping i := (frames (same_slot i)).
Lemma keeping_for_each {B} i l (body : nat → B → Program B) b :
  (∀ j b, j ∈ l → keeping i (body j b)) → keeping i (for_each l body b).
Proof.
  revert b. induction l as [|j l IH]; intros b Hb; [done|].
  apply frames_bind; [apply Hb; by left|]. intros b'. apply IH. intros j' b'' Hj. apply Hb. by right.
Qed.

Ltac keep_layer :=
  lazymatch goal with
  | |- frames _ (bind _ _) => apply frames_bind
  | |- frames _ (for_each _ _ _) => apply keeping_for_each
  | |- frames _ (Then (set_slot _ _) _) =>
      split; [intros; apply same_slot_other; try (intros ->; done)|]
  | |- frames _ (Then _ _) => split; [intros; try done|]
  | |- frames _ (if ?b then _ else _) => destruct b
  | |- frames _ (match ?x with _ => _ end) => destruct x
  | |- frames _ (Done _) => done
  | |- frames _ Stalled => done
  | |- ∀ _, _ => intros
  end.
Ltac keep := repeat keep_layer; try done.

Lemma keeping_load_failure i j st r o : i ≠ j → keeping i (load_failure j st r o).
Proof. intros Hne. unfold load_failure, record_load_failure. keep. Qed.
Lemma keeping_load_parameter i j : i ≠ j → keeping i (load_persistent_parameter j).
Proof.
  intros Hne. unfold load_persistent_parameter, missing_default, load_decoded.
  keep; by apply keeping_load_failure.
Qed.
Lemma keeping_load_transactional i g : persistence (parameter i) = Transactional g →
  keeping i (load_persistent_parameter i).
Proof. intros Hp. unfold load_persistent_parameter. by rewrite Hp. Qed.

Lemma keeping_members_loaded i l vs source outcome stored :
  i ∉ l → keeping i (mark_members_loaded l vs source outcome stored).
Proof.
  revert vs. induction l as [|j l IH]; intros [|v vs] Hi; [done..|]. cbn [mark_members_loaded].
  apply not_elem_of_cons in Hi as [Hne Hi]. split; [intros; by apply same_slot_other|]. intros _. by apply IH.
Qed.
Lemma keeping_group_failure i g st r o :
  i ∉ members (group g) → keeping i (group_load_failure g st r o).
Proof. intros Hi. unfold group_load_failure, record_load_failure. keep. Qed.
Lemma keeping_load_group i g : i ∉ members (group g) → keeping i (load_persistent_group g).
Proof.
  intros Hi. unfold load_persistent_group, missing_default, load_group_decoded.
  keep; try (by apply keeping_group_failure); by apply keeping_members_loaded.
Qed.

Lemma alone_failed e (body : nat → Program (result Status unit)) l st s b s' :
  alone e (for_each l (unless_failed body) (Err st)) s = Some (b, s') → b = Err st.
Proof.
  revert s. induction l as [|j l IH]; intros s Hrun; cbn in Hrun; [by injection Hrun as <- _|].
  by eapply IH.
Qed.

(** One body of a loop that ends well. *)
Lemma alone_loop e (body : nat → Program (result Status unit)) l i r s s' :
  i ∈ l → alone e (for_each l (unless_failed body) r) s = Some (Ok tt, s') →
  ∃ l1 l2 s1 s2, l = l1 ++ i :: l2
    ∧ alone e (for_each l1 (unless_failed body) r) s = Some (Ok tt, s1)
    ∧ alone e (body i) s1 = Some (Ok tt, s2)
    ∧ alone e (for_each l2 (unless_failed body) (Ok tt)) s2 = Some (Ok tt, s').
Proof.
  revert r s. induction l as [|j l IH]; intros r s Hi Hrun; [by apply elem_of_nil in Hi|].
  destruct r as [[]|st]; [|by apply alone_failed in Hrun].
  cbn [for_each] in Hrun. rewrite alone_bind in Hrun.
  apply bind_Some in Hrun as ([[[]|st] s1] & Hbody & Hrun); [|by apply alone_failed in Hrun].
  destruct (decide (i = j)) as [->|Hne]; [by exists [], l, s, s1|].
  apply elem_of_cons in Hi as [|Hi]; [done|].
  destruct (IH _ _ Hi Hrun) as (l1 & l2 & s2 & s3 & -> & H1 & H2 & H3).
  exists (j :: l1), l2, s2, s3. split_and!; [done| |done..].
  cbn [for_each]. by rewrite alone_bind, Hbody.
Qed.

(** ** Nothing in a boot changes the records *)
#[export] Instance same_records_preorder : PreOrder same_records.
Proof. split; [by intros s|]. intros s1 s2 s3 H1 H2 store k b. by rewrite H2. Qed.

Local Abbreviation recording := (frames same_records).
Lemma recording_for_each {B} l (body : nat → B → Program B) b :
  (∀ j b, recording (body j b)) → recording (for_each l body b).
Proof. intros Hb. revert b. induction l as [|j l IH]; intros b; [done|]. by apply frames_bind. Qed.

Ltac record_layer :=
  lazymatch goal with
  | |- frames _ (bind _ _) => apply frames_bind
  | |- frames _ (for_each _ _ _) => apply recording_for_each
  | |- frames _ (Then _ _) => split; [intros; try done|]
  | |- frames _ (if ?b then _ else _) => destruct b
  | |- frames _ (match ?x with _ => _ end) => destruct x
  | |- frames _ (Done _) => done
  | |- frames _ Stalled => done
  | |- ∀ _, _ => intros
  end.
Ltac record := repeat record_layer; try done.

Lemma recording_parameter r j : recording (unless_failed load_persistent_parameter j r).
Proof.
  destruct r; [|done]. cbn [unless_failed].
  unfold load_persistent_parameter, load_failure, missing_default, load_decoded.
  record; unfold load_failure; record.
Qed.
Lemma recording_members l vs source outcome stored :
  recording (mark_members_loaded l vs source outcome stored).
Proof. revert vs. induction l as [|i l IH]; intros [|v vs]; [done..|]. split; [done|]. intros _. apply IH. Qed.
Lemma recording_group r g : recording (unless_failed load_persistent_group g r).
Proof.
  destruct r; [|done]. cbn [unless_failed].
  unfold load_persistent_group, group_load_failure, missing_default, load_group_decoded.
  record; try (unfold group_load_failure; record). apply recording_members.
Qed.
Lemma recording_store r store : recording (unless_failed initialize_store store r).
Proof.
  destruct r; [|done]. split; [|done]. intros e s store' k buffer.
  rewrite <-(load_initialized store' store k buffer (stores s)).
  by destruct (store_initialize store (stores s)).
Qed.

(** Where the boot loads what the stores held when it began. *)
Lemma boot_parts e (s0 s1 : State) :
  alone e init s0 = Some (Ok tt, s1) →
  ∃ sa sb sc, same_records s0 sa
    ∧ alone e (for_each (seq 0 parameters) (unless_failed load_persistent_parameter) (Ok tt)) sa = Some (Ok tt, sb)
    ∧ alone e (for_each (seq 0 groups) (unless_failed load_persistent_group) (Ok tt)) sb = Some (Ok tt, sc)
    ∧ slot s1 = slot sc.
Proof.
  intros Hrun. unfold init in Hrun. cbn [alone update] in Hrun.
  rewrite alone_bind in Hrun. apply bind_Some in Hrun as ([[] s2] & H2 & Hrun).
  rewrite alone_bind in Hrun. apply bind_Some in Hrun as ([[] s3] & H3 & Hrun).
  rewrite alone_bind in Hrun. apply bind_Some in Hrun as ([[] s4] & H4 & Hrun).
  apply alone_attempt in Hrun as ([] & sc & Hinit & Hrun). cbn in Hrun. injection Hrun as <-.
  unfold initialize_persistence in Hinit. rewrite alone_bind in Hinit.
  apply bind_Some in Hinit as ([r sa] & Hstores & Hinit). rewrite alone_bind in Hinit.
  apply bind_Some in Hinit as ([r' sb] & Hparameters & Hgroups).
  destruct r' as [[]|st]; [|by apply alone_failed in Hgroups].
  destruct r as [[]|st]; [|by apply alone_failed in Hparameters].
  exists sa, sb, sc. split_and!; [|done..].
  apply (alone_frames same_records) in H2, H3, H4, Hstores; [|record; apply recording_store|record..].
  intros store k buffer. by rewrite (Hstores store k), (H4 store k), (H3 store k), (H2 store k).
Qed.

(** ** The next boot *)
Lemma seq_around n l1 l2 i : seq 0 n = l1 ++ i :: l2 → i ∉ l1 ∧ i ∉ l2.
Proof.
  intros Hseq. pose proof (NoDup_seq 0 n) as Hnd. rewrite Hseq in Hnd.
  apply list.NoDup_app in Hnd as (_ & Hl & Hnd). apply list.NoDup_cons in Hnd as [Hi _].
  split; [|done]. intros Hin. apply (Hl i Hin). by left.
Qed.

Lemma saved_holds store k record st st' :
  store_save store k record st = (Ok tt, st') → holds store k record st'.
Proof. intros Hs buffer Hb. by apply (load_saved _ _ _ _ _ _ Hs). Qed.
Lemma holds_same store k record s s' :
  holds store k record (stores s) → same_records s s' → holds store k record (stores s').
Proof. intros Hh Hs buffer Hb. rewrite (Hs store k). by apply Hh. Qed.

Lemma boot_restores_parameter e (s0 s1 : State) i store bytes v :
  alone e init s0 = Some (Ok tt, s1) → (i < parameters)%nat →
  store_of (persistence (parameter i)) = Some store → storable i v →
  length bytes = encoded_size (codec (parameter i)) → codec_decode (codec (parameter i)) bytes = succeed v →
  holds store (persistence_key i) (parameter_record_bytes i bytes) (stores s0) →
  restored v (slot s1 i).
Proof.
  intros Hboot Hi Hstore Hv Hlen Hdec Hholds.
  apply boot_parts in Hboot as (sa & sb & sc & Hsame & Hp & Hg & ->).
  assert (i ∈ seq 0 parameters) as Hin by (apply elem_of_seq; lia).
  destruct (alone_loop _ _ _ i _ _ _ Hin Hp)
    as (l1 & l2 & s2 & s3 & Hseq & H1 & H2 & H3).
  apply seq_around in Hseq as [_ Hl2].
  apply (alone_frames same_records) in H1; [|record; apply recording_parameter].
  apply (load_saved_parameter e i store bytes v) in H2 as [_ Hr]; [|done..|].
  - apply (alone_frames (same_slot i)) in Hg as [-> _]; [|apply keeping_for_each].
    + apply (alone_frames (same_slot i)) in H3 as [-> _]; [done|]. apply keeping_for_each.
      intros j [[]|] Hj; [|done]. apply keeping_load_parameter. by intros ->.
    + intros g [[]|] _; [|done]. apply keeping_load_group. intros Hm. apply member_of_group in Hm.
      by rewrite Hm in Hstore.
  - eapply holds_same; [|done]. by eapply holds_same.
Qed.

Lemma boot_restores_group e (s0 s1 s : State) i g bss :
  alone e init s0 = Some (Ok tt, s1) → (i < parameters)%nat →
  persistence (parameter i) = Transactional g →
  (∀ j, j ∈ members (group g) → storable j (value_ (slot s j))) →
  image (members (group g)) bss s →
  holds (group_store (group g)) (group_key g)
    (record_bytes (group_key g) (group_version (group g)) (concat bss)) (stores s0) →
  restored (value_ (slot s i)) (slot s1 i).
Proof.
  intros Hboot Hi Hpers Hv Himg Hholds.
  destruct (group_of_member i g Hi Hpers) as [Hmember Hgroup].
  apply boot_parts in Hboot as (sa & sb & sc & Hsame & Hp & Hg & ->).
  assert (g ∈ seq 0 groups) as Hin by (apply elem_of_seq; lia).
  destruct (alone_loop _ _ _ g _ _ _ Hin Hg) as (l1 & l2 & s2 & s3 & Hseq & H1 & H2 & H3).
  apply seq_around in Hseq as [_ Hl2].
  apply (alone_frames same_records) in Hp; [|record; apply recording_parameter].
  apply (alone_frames same_records) in H1; [|record; apply recording_group].
  apply (load_saved_group e g s s2 s3 bss) in H2 as [_ Hr]; [|done..|].
  - apply (alone_frames (same_slot i)) in H3 as [-> _]; [by apply Hr|]. apply keeping_for_each.
    intros g' [[]|] Hg'; [|done]. apply keeping_load_group. intros Hm.
    apply member_of_group in Hm. by assert (g' = g) as -> by congruence.
  - do 3 (eapply holds_same; [|done]). done.
Qed.

Lemma saved_parameter_restored e i store no_wait s b s' e' s0 s1 :
  store_of (persistence (parameter i)) = Some store →
  alone e (persist_parameter_slot fuel isr i true no_wait) s = Some (Ok b, s') →
  r_dirty (record_ (slot s i)) = true → erase_pending_ (slot s i) = false →
  storable i (value_ (slot s i)) → stores s0 = stores s' →
  alone e' init s0 = Some (Ok tt, s1) → (i < parameters)%nat →
  restored (value_ (slot s i)) (slot s1 i).
Proof.
  intros Hstore Hrun Hdirty Herase Hv Hstores Hboot Hi.
  destruct (saved_parameter _ _ _ _ _ _ _ Hstore Hrun Hdirty Herase Hv)
    as (st & bytes & Hsaved & Hlen & Hdec).
  eapply boot_restores_parameter; [done..|]. rewrite Hstores. by eapply saved_holds.
Qed.

(** The parameters a save of [i] covers, and when it has something to do. *)
Definition covered (i j : nat) : Prop :=
  match persistence (parameter i) with
  | Transactional g => persistence (parameter j) = Transactional g
  | _ => j = i
  end.
Definition unsaved i s : Prop :=
  match persistence (parameter i) with
  | Transactional g => g_dirty (group_state s g) = true
  | _ => r_dirty (record_ (slot s i)) = true ∧ erase_pending_ (slot s i) = false
  end.

(** C22: what is saved is what the next boot loads.  The parameter is dirty
    (or its group is) and no erasure of it is pending, its values fit the
    store, and save and boot each run without interference; when [save] then
    reports success, every boot of the facility that
    succeeds on the stores it left, whatever the memory held, gives that
    parameter, or every member of its transactional group, the value it had
    when it was saved, loaded from the store and clean. *)
Theorem saved_values_restored e i no_wait s s' e' s0 s1 j :
  (∀ k, covered i k → storable k (value_ (slot s k))) → unsaved i s →
  alone e (save_parameter fuel isr i no_wait) s = Some (Ok tt, s') →
  stores s0 = stores s' → alone e' init s0 = Some (Ok tt, s1) →
  covered i j → (j < parameters)%nat → restored (value_ (slot s j)) (slot s1 j).
Proof.
  intros Hall Hunsaved Hsave Hstores Hboot Hcovered Hj.
  unfold save_parameter in Hsave. destruct (negb _) eqn:Hpers; [done|].
  revert Hsave. destruct isr at 1; [done|]. intros Hsave.
  cbn [alone get] in Hsave. destruct (negb (ready s)); [done|].
  rewrite alone_bind in Hsave. apply bind_Some in Hsave as ([[b|st] s2] & Hpersist & Hsave); [|done].
  cbn in Hsave. injection Hsave as <-. unfold unsaved, covered in *.
  destruct (persistence (parameter i)) as [| | | |g] eqn:Hp; [done|subst j..|].
  1-3: destruct Hunsaved; eapply saved_parameter_restored; eauto; by rewrite Hp.
  assert (∀ k, k ∈ members (group g) → storable k (value_ (slot s k))) as Hmembers
    by (intros k Hk; apply Hall; by apply member_of_group).
  destruct (saved_group _ _ _ _ _ _ Hpersist Hunsaved Hmembers) as (st & bss & Himg & Hsaved).
  eapply boot_restores_group; [done..|]. rewrite Hstores. by eapply saved_holds.
Qed.
End Durable.
End ParameterDurability.
