(* ===== verification/ParametersExamples.v ===== *)
(** * ParametersExamples: a system with four parameters

    A concrete architecture, used by the witnesses: a clamped speed with
    deferred persistence, a mode out of three, a gain saved by hand, and a pair
    of limits that a transactional group keeps in one image, saved by hand; the store is an
    association list. *)
From stdpp Require Import prelude functions.
From S2P Require Import Prelude Status Interleave Lifecycle ParametersRecord Parameters.
From S2P Require Import ParametersPrograms ParametersBoot ParametersSafe ParametersProps.
From S2P Require Import ParametersDurable.

Open Scope Z_scope.
Open Scope solar_scope.

Module ParameterExamples.
Import Records TypedParameters ParameterPrograms ParameterBoot.
Import ParameterSafety ParameterProps ParameterDurability.

#[export] Instance integers : ValueType Z := { equal := Z.eqb; less := Z.ltb; finite _ := true }.

Definition int16 : Codec Z := ScalarCodec (Integral true 2).
Definition speed : ParameterT Z :=
  mkParameter 100 (Range 0 1000 true) ReadWrite MutexStorage (Deferred 0 50) false (Some 4097) 2
    int16 (Some (λ _ old, z ⇐ codec_decode int16 old; succeed (10 * z))).
Definition mode : ParameterT Z :=
  mkParameter 0 (OneOf [0; 1; 2]) ReadWrite AtomicStorage PVolatile false None 1
    (ScalarCodec (Enumeration false 1)) None.
Definition gain : ParameterT Z :=
  mkParameter 7 AcceptAny ReadWrite MutexStorage (Manual 0) true (Some 4098) 1 int16 None.
Definition limit (id : Z) : ParameterT Z :=
  mkParameter 10 (Range (-500) 500 false) ReadWrite MutexStorage (Transactional 0) false (Some id) 1
    int16 None.
Definition limits : Group Z := mkGroup [3; 4]%nat 0 8193 1 (Manual 0) None.

Definition Storage : Set := list (Key * list Z).
Definition lookup_record (k : Key) (st : Storage) : option (list Z) :=
  snd <$> find (λ r, bool_decide (r.1 = k)) st.
Definition fill_buffer (bytes buffer : list Z) : list Z := bytes ++ drop (length bytes) buffer.

#[export] Instance plant : Architecture Z Storage := {|
  parameter i := match i with 0 => speed | 1 => mode | 2 => gain | 3 => limit 4099 | 4 => limit 4100 | _ => mode end%nat;
  parameters := 5;
  group g := match g with 0%nat => limits | _ => mkGroup [] 0 0 0 (Manual 0) None end;
  groups := 1;
  change _ := mkChangeDeclaration 0 3;
  changes := 1;
  max_encoded_record_bytes := 64;
  max_group_record_bytes := 64;
  flush_deferred_on_stop := true;
  store_list := [0%nat];
  store_initialize _ st := (Ok tt, st);
  store_load _ k buffer st :=
    match lookup_record k st with
    | None => (Err (Status.mkError SNotFound 0), buffer)
    | Some bytes => (Ok (length bytes), fill_buffer bytes buffer)
    end;
  store_save _ k bytes st := (Ok tt, (k, bytes) :: st);
  store_erase _ k st := (Ok tt, filter (λ r, r.1 ≠ k) st) |}.

Definition quiet : Env := {|
  system_state := Running; lock_error _ := None; after d := 1000 + d;
  expired d := d <=? 1000; remaining d := Z.max 0 (d - 1000); schedule_answer _ := None;
  cancel_answer := None; quiescent := true; handler_answer _ := None |}.

(** Storage before [init]. *)
Definition power_on (st : Storage) : TypedParameters.State Z Storage :=
  mkState (λ _, mkSlot 0 (initial_record mode 0) None false) (λ _, group_initialize)
    (λ _, change_initialize 0 0 0) false false false false false false false st.

Lemma power_on_stores st : stores (power_on st) = st.
Proof. done. Qed.
Abbreviation boot st := (alone quiet init (power_on st)).
Definition values (s : TypedParameters.State Z Storage) : list Z :=
  map (λ i, value_ (slot s i)) (seq 0 5).

(** ** The laws of the example *)
#[export] Instance plant_laws : ArchitectureLaws.
Proof.
  split; intros i; destruct i as [|[|[|[|[|i]]]]]; cbn; try done.
  all: by exists 0; split; [left|].
Qed.

#[export] Instance plant_stores : StoreLaws.
Proof.
  split; [|done]. intros store k bytes st st' buffer Hsave _. injection Hsave as <-. cbn.
  unfold lookup_record. cbn. by rewrite bool_decide_true.
Qed.

Definition storable (i : nat) (v : Z) : Prop :=
  match i with
  | 0%nat => 0 ≤ v ≤ 1000
  | 1%nat => 0 ≤ v ≤ 2
  | 2%nat => - 32768 ≤ v < 32768
  | 3%nat | 4%nat => - 500 ≤ v ≤ 500
  | _ => 0 ≤ v ≤ 2
  end.

Lemma int16_ok v : - 32768 ≤ v < 32768 → scalar_ok (Integral true 2) v.
Proof. intros Hv. split; [lia|]. by change (2 ^ (8 * Z.of_nat 2 - 1)) with 32768. Qed.

Lemma limit_stable v : - 500 ≤ v ≤ 500 → normalize (Range (-500) 500 false) v = Ok (mkNormalized v false).
Proof. intros Hv. cbn. destruct (Z.ltb_spec v (-500)), (Z.ltb_spec 500 v); by lia || done. Qed.
Lemma mode_stable v : 0 ≤ v ≤ 2 → normalize (OneOf [0; 1; 2]) v = Ok (mkNormalized v false).
Proof. intros Hv. by assert (v = 0 ∨ v = 1 ∨ v = 2) as [->|[->| ->]] by lia. Qed.

#[export] Instance plant_durable : DurableLaws storable.
Proof.
  split.
  - intros i v output Hv Hlen.
    destruct i as [|[|[|[|[|i]]]]]; (eapply scalar_codec_laws; [|exact Hlen]); cbn [storable] in Hv;
      (apply int16_ok; lia) || (change (is_u 8 v); word_lia).
  - intros i v Hv. exists false. destruct i as [|[|[|[|[|i]]]]]; cbn [storable] in Hv;
      try (by apply mode_stable || by apply limit_stable || done).
    cbn. destruct (Z.ltb_spec v 0), (Z.ltb_spec 1000 v); by lia || done.
  - intros i. destruct i as [|[|[|[|[|i]]]]]; done.
  - intros i. destruct i as [|[|[|[|[|i]]]]]; done.
  - intros i. destruct i as [|[|[|[|[|i]]]]]; cbn; lia.
  - intros g. destruct g; done.
  - intros g. destruct g; done.
  - intros g. destruct g; cbn; lia.
  - done.
  - intros i g Hi. destruct g as [|g]; cbn in Hi; [|by apply elem_of_nil in Hi].
    apply elem_of_cons in Hi as [->|Hi]; [done|]. by apply list_elem_of_singleton in Hi as ->.
  - intros i g Hi Hp. destruct i as [|[|[|[|[|i]]]]]; cbn in Hp; try done;
      injection Hp as <-; (split; [|cbn; lia]); set_solver.
Qed.

(** ** A running system *)
(** The state a run ends in, and a run that ends with [a]. *)
Definition after {A} (p : Program Z Storage A) (s : TypedParameters.State Z Storage) :
    TypedParameters.State Z Storage :=
  match alone quiet p s with Some (_, s') => s' | None => s end.
Lemma ends_with {A} (p : Program Z Storage A) s a :
  fst <$> alone quiet p s = Some a → alone quiet p s = Some (a, after p s).
Proof. unfold after. destruct (alone quiet p s) as [[b s']|]; simpl; congruence. Qed.

Abbreviation booted := (after init (power_on [])).
Lemma boot_ok : boot [] = Some (Ok tt, booted).
Proof. apply ends_with. vm_compute. reflexivity. Qed.
Lemma booted_started : started booted.
Proof. exists quiet, (power_on []), (Ok tt). split; [reflexivity|exact boot_ok]. Qed.

(** Threads 0 and 1 set both limits, thread 2 takes a snapshot of them, thread
    3 sets the speed and thread 4 reads it, a step each in turn. *)
Definition calls : list (bool * Call) :=
  [(false, CSetAll [(3%nat, 20); (4%nat, 20)] false);
   (false, CSetAll [(3%nat, -30); (4%nat, -30)] false);
   (false, CSnapshot [3; 4]%nat false); (false, CSet 0 5000 false); (false, CGet false 0)].
Definition in_turn (threads rounds : nat) : list (nat * Env) :=
  concat (replicate rounds (map (λ t, (t, quiet)) (seq 0 threads))).
(** After nine steps thread 0 has written the first of the two limits. *)
Definition schedule : list (nat * Env) := replicate 9 (0%nat, quiet) ++ in_turn 5 60.
Definition halfway : list (nat * Env) := take 9 schedule.

Lemma quiet_assumed threads rounds : Forall (λ te, assumed te.2) (in_turn threads rounds).
Proof. apply Forall_concat, Forall_replicate, Forall_fmap, Forall_true. by intros t. Qed.
Lemma schedule_assumed : Forall (λ te, assumed te.2) schedule.
Proof. apply Forall_app. split; [by apply Forall_replicate|apply quiet_assumed]. Qed.

Lemma parameters_well_typed_witness :
  let final := run schedule (booted, threads 100 calls) in
  (∀ i, allowed i (value_ (slot final.1 i))) ∧
  ∀ t r, final.2 !! t = Some (Done r) → well_typed r.
Proof. exact (parameters_well_typed 100 calls booted schedule booted_started schedule_assumed). Defined.

(** The two limits stay equal. *)
Definition equal_limits (vs : list Z) : Prop := vs !! 3%nat = vs !! 4%nat.

Lemma set_limits_ok v vs :
  equal_limits vs →
  equal_limits (transact [(3%nat, mkNormalized v false); (4%nat, mkNormalized v false)] vs).
Proof.
  unfold equal_limits, transact. cbn [foldl fst snd value]. intros Hvs. rewrite <-Hvs.
  destruct (vs !! 3%nat) as [old|] eqn:H3; [|by rewrite <-Hvs].
  destruct (equal old v); [by rewrite <-Hvs|].
  symmetry in Hvs. pose proof (lookup_lt_Some _ _ _ H3). pose proof (lookup_lt_Some _ _ _ Hvs).
  rewrite (list_lookup_insert_ne _ 4 3), !list_lookup_insert_eq; by rewrite ?length_insert.
Qed.
Lemma calls_ok : Forall (λ c, call_ok equal_limits c.2) calls.
Proof.
  repeat constructor; cbn [snd call_ok].
  - intros vs l Hvs Hl. injection Hl as <-. by apply set_limits_ok.
  - intros vs l Hvs Hl. injection Hl as <-. by apply set_limits_ok.
  - intros vs n Hvs _. unfold equal_limits. by rewrite !list_lookup_insert_ne.
Qed.

Lemma snapshots_consistent_witness :
  let final := run schedule (booted, threads 100 calls) in
  values (run halfway (booted, threads 100 calls)).1 = [100; 0; 7; 20; 10] ∧
  final.2 !! 2%nat = Some (Done (RSnapshot [3; 4]%nat (Ok [-30; -30]))) ∧
  (write_gate final.1 = false → equal_limits (cells final.1)) ∧
  ∀ t l values, final.2 !! t = Some (Done (RSnapshot l (Ok values))) →
    ∃ vs, equal_limits vs ∧ Forall2 (λ i v, (i < parameters)%nat → vs !! i = Some v) l values.
Proof.
  split; [vm_compute; reflexivity|]. split; [vm_compute; reflexivity|].
  apply (snapshots_consistent equal_limits 100 calls booted schedule booted_started);
    [vm_compute; reflexivity|exact calls_ok|exact schedule_assumed].
Defined.

(** ** Saving and booting again *)
Abbreviation limits_set :=
  (after (call 3 false (CSetAll [(3%nat, 77); (4%nat, -77)] false)) booted).
Abbreviation saved := (after (save_parameter 3 false 3 false) limits_set).
Abbreviation rebooted := (after init (power_on (stores saved))).

Lemma saved_values_restored_witness :
  value_ (slot rebooted 4) = -77 ∧ restored (value_ (slot limits_set 4)) (slot rebooted 4).
Proof.
  split; [vm_compute; reflexivity|].
  apply (saved_values_restored 3 false quiet 3 false limits_set saved quiet (power_on (stores saved)) rebooted).
  - intros k Hk. destruct k as [|[|[|[|[|k]]]]]; try discriminate Hk; vm_compute; split; discriminate.
  - vm_compute. reflexivity.
  - apply ends_with. vm_compute. reflexivity.
  - apply power_on_stores.
  - apply ends_with. vm_compute. reflexivity.
  - cbn. done.
  - cbn. lia.
Defined.

(** ** Two saves of one parameter

    [persist_parameter_slot] copies the value under the write gate and writes
    it under the persistence gate, which it takes only after it has let the
    first one go.  Thread 0 has copied 300 when thread 1 sets 400 and thread 2
    saves it; thread 0 then writes 300 over it.  The record says that nothing
    is left to save, and the next boot brings 300 back. *)
Definition racing : list (nat * Env) :=
  replicate 6 (0%nat, quiet) ++ replicate 40 (1%nat, quiet) ++ replicate 40 (2%nat, quiet)
  ++ replicate 40 (0%nat, quiet).
Abbreviation speed_set := (after (call 3 false (CSet 0 300 false)) booted).
Abbreviation raced :=
  (run racing (speed_set, threads 3 [(false, CSave 0 false); (false, CSet 0 400 false); (false, CSave 0 false)])).

Lemma older_value_saved_last :
  raced.2 !! 0%nat = Some (Done (RSaved (Ok tt))) ∧ raced.2 !! 2%nat = Some (Done (RSaved (Ok tt))) ∧
  (let record := record_ (slot raced.1 0) in
   r_value record = 400 ∧ r_revision record = 2 ∧ r_persisted_revision record = 1
   ∧ r_dirty record = false ∧ r_persistence record = Clean) ∧
  value_ (slot raced.1 0) = 400 ∧
  value_ (slot (after init (power_on (stores raced.1))) 0) = 300.
Proof. vm_compute. auto 10. Qed.
End ParameterExamples.
