(* ===== verification/RemoteLink.v ===== *)
(** * RemoteLink: the state of a link and its output

    Models the data of [include/solar/remote/service.hpp] and, of the class
    [Service], what any thread may call: [transmit] with its lanes and
    outbound messages, the cache of responses, [protocol_error] and the queue
    of events; and the two functions of the service thread that turn queued
    output into frames, [stage_fragment] and [stage_response].  A section
    under a spinlock is one step of a program; it is a function on the state
    of the link, [None] where it would leave an array. *)
From stdpp Require Import prelude functions.
From S2P Require Import Prelude Status Wire Protocol Cobs Frame Interleave.

Open Scope Z_scope.
Open Scope solar_scope.

Module RemoteLinks.

(** ** Configuration *)
Class Config := {
  frame_bytes : nat;                (* CONFIG_SOLAR_REMOTE_MAX_FRAME_BYTES *)
  message_bytes : nat;              (* CONFIG_SOLAR_REMOTE_MAX_MESSAGE_BYTES *)
  lane_depth : nat;                 (* CONFIG_SOLAR_REMOTE_OUTPUT_LANE_DEPTH *)
  message_slots : nat;              (* CONFIG_SOLAR_REMOTE_OUTBOUND_MESSAGE_SLOTS *)
  response_bytes : nat;             (* CONFIG_SOLAR_REMOTE_RESPONSE_CACHE_BYTES *)
  max_requests : nat;               (* CONFIG_SOLAR_REMOTE_MAX_REQUESTS *)
  reassembly_slots : nat;           (* CONFIG_SOLAR_REMOTE_REASSEMBLY_SLOTS *)
  reassembly_timeout : Z;           (* CONFIG_SOLAR_REMOTE_REASSEMBLY_TIMEOUT_MS, in ticks *)
  max_endpoints : nat;              (* CONFIG_SOLAR_REMOTE_MAX_ENDPOINTS *)
  link_count : nat;                 (* the links of the architecture *)
  link_grants : nat → Z;            (* the permission mask of their grants *)
  runtime_introspection : bool;     (* CONFIG_SOLAR_REMOTE_RUNTIME_INTROSPECTION *)
  manifest_retrieval : bool;        (* CONFIG_SOLAR_REMOTE_MANIFEST_RETRIEVAL *)
  inspection_remote : bool;         (* CONFIG_SOLAR_INSPECTION_REMOTE *)
  event_depth : nat                 (* CONFIG_SOLAR_REMOTE_EVENT_QUEUE_DEPTH *) }.

(** The ranges of [zephyr/Kconfig] the model relies on. *)
Class ConfigLaws (C : Config) : Prop := {
  frame_bytes_range : 64 ≤ Z.of_nat frame_bytes ≤ 65535;
  message_bytes_range : 64 ≤ Z.of_nat message_bytes ≤ 1048576;
  lane_depth_range : (1 ≤ lane_depth ≤ 64)%nat;
  message_slots_range : (1 ≤ message_slots ≤ 16)%nat;
  reassembly_slots_range : (1 ≤ reassembly_slots ≤ 16)%nat;
  reassembly_timeout_range : 0 < reassembly_timeout }.

(** ** Protocol constants *)
Definition Kind_ServerHello : Z := 2.
Definition Kind_Error : Z := 3.
Definition Kind_Request : Z := 4.
Definition Kind_Response : Z := 5.
Definition Kind_Cancel : Z := 6.
Definition Kind_ResponseAck : Z := 7.
Definition Kind_Subscribe : Z := 8.
Definition Kind_Unsubscribe : Z := 9.
Definition Kind_Credit : Z := 10.
Definition Kind_Data : Z := 11.
Definition Kind_SessionReset : Z := 13.
Definition Kind_Introspection : Z := 14.
Definition Kind_InStreamClosed : Z := 15.
Definition Kind_Ping : Z := 16.

Definition Flags_None : Z := 0.
Definition Flags_Fragmented : Z := 1.
Definition Flags_Final : Z := 2.
Definition Flags_PackedPayload : Z := 4.
Definition Flags_ErrorPayload : Z := 8.

Definition error_code (code : ErrorCode) : Z :=
  match code with
  | UnsupportedVersion => 1 | UnsupportedCapability => 2 | SchemaMismatch => 3
  | MalformedFrame => 4 | IntegrityFailure => 5 | OversizedFrame => 6 | OversizedMessage => 7
  | FragmentRejected => 8 | UnknownTarget => 9 | UnsupportedOperation => 10
  | DecodeFailure => 11 | Unauthorized => 12 | NotReady => 13 | Busy => 14 | NoCapacity => 15
  | RateRejected => 16 | CreditViolation => 17 | RequestExpired => 18
  | DuplicateResponseExpired => 19 | Cancelled => 20 | TimedOut => 21 | SessionClosing => 22
  | InternalFailure => 23
  end.

(** ** The link interface *)
Inductive LinkEventKind : Set := LinkConnected | LinkDisconnected | RxReady | TxComplete | LinkFault.
Record LeaseHandle : Set := mkLease { lease_slot : Z; lease_generation : Z }.
#[export] Instance LeaseHandle_eq_dec : EqDecision LeaseHandle. Proof. solve_decision. Defined.
Definition no_lease : LeaseHandle := mkLease 0 0.
Record LinkEvent : Set := mkLinkEvent { event_kind : LinkEventKind; event_lease : LeaseHandle; event_size : Z }.
Inductive TxDisposition : Set := TxAccepted | TxBusy.

Inductive SessionState : Set := Disconnected | Negotiating | Active | Closing | Faulted.
#[export] Instance SessionState_eq_dec : EqDecision SessionState. Proof. solve_decision. Defined.

Inductive ServiceEvent : Set :=
  | EventLink (subject : nat) (event : LinkEvent)
  | EventPublication (subject : nat)
  | EventOutput (subject : nat)
  | EventStop.

(** ** Output *)
Inductive OutputLane : Set := Control | Response | Important | Telemetry | Bulk.
#[export] Instance OutputLane_eq_dec : EqDecision OutputLane. Proof. solve_decision. Defined.
Definition lane_index (lane : OutputLane) : nat :=
  match lane with Control => 0 | Response => 1 | Important => 2 | Telemetry => 3 | Bulk => 4 end.
Definition lane_at (index : nat) : OutputLane :=
  match index with 0 => Control | 1 => Response | 2 => Important | 3 => Telemetry | _ => Bulk end%nat.

Record LaneRecord : Set := mkLaneRecord {
  occupied : bool; transmitting : bool; depth : Z; high_water : Z; admitted : Z; replaced : Z;
  dropped : Z }.
#[export] Instance LaneRecord_fields : Fields LaneRecord := λ r,
  mkLaneRecord (occupied r) (transmitting r) (depth r) (high_water r) (admitted r) (replaced r) (dropped r).

(** What travels with a payload: the fields of the envelope a sender sets. *)
Record OutboundSlot : Set := mkOutboundSlot {
  os_kind : Z; os_flags : Z; os_request_id : Z; os_target : Z; os_reserved : Z; os_size : Z;
  os_fragment_id : Z; os_fragment_index : Z; os_fragment_count : Z; os_payload : list Z }.
#[export] Instance OutboundSlot_fields : Fields OutboundSlot := λ r,
  mkOutboundSlot (os_kind r) (os_flags r) (os_request_id r) (os_target r) (os_reserved r)
    (os_size r) (os_fragment_id r) (os_fragment_index r) (os_fragment_count r) (os_payload r).

Record OutboundMessage : Set := mkOutboundMessage {
  om_active : bool; om_lane : OutputLane; om_kind : Z; om_flags : Z; om_request_id : Z;
  om_target : Z; om_reserved : Z; om_size : Z; om_offset : Z; om_fragment_id : Z;
  om_fragment_index : Z; om_fragment_count : Z; om_payload : list Z }.
#[export] Instance OutboundMessage_fields : Fields OutboundMessage := λ r,
  mkOutboundMessage (om_active r) (om_lane r) (om_kind r) (om_flags r) (om_request_id r)
    (om_target r) (om_reserved r) (om_size r) (om_offset r) (om_fragment_id r)
    (om_fragment_index r) (om_fragment_count r) (om_payload r).

(** A ring of slots; positions are array indices. *)
Record OutboundLane : Set := mkOutboundLane {
  l_slots : list OutboundSlot; l_head : nat; l_size : nat; l_record : LaneRecord }.
#[export] Instance OutboundLane_fields : Fields OutboundLane := λ r,
  mkOutboundLane (l_slots r) (l_head r) (l_size r) (l_record r).

Record ResponseSlot : Set := mkResponseSlot {
  rs_reserved : bool; rs_valid : bool; rs_staged : bool; rs_error : bool; rs_size : Z;
  rs_request : Z; rs_target : Z; rs_payload : list Z }.
#[export] Instance ResponseSlot_fields : Fields ResponseSlot := λ r,
  mkResponseSlot (rs_reserved r) (rs_valid r) (rs_staged r) (rs_error r) (rs_size r)
    (rs_request r) (rs_target r) (rs_payload r).

Record SubscriptionSlot : Set := mkSubscriptionSlot {
  ss_active : bool; ss_minimum_interval_us : Z; ss_next_delivery : Z; ss_delivered : Z;
  ss_skipped : Z; ss_dropped : Z }.
#[export] Instance SubscriptionSlot_fields : Fields SubscriptionSlot := λ r,
  mkSubscriptionSlot (ss_active r) (ss_minimum_interval_us r) (ss_next_delivery r)
    (ss_delivered r) (ss_skipped r) (ss_dropped r).

Record ReassemblySlot : Set := mkReassemblySlot {
  ra_active : bool; ra_envelope : Envelope; ra_next_fragment : Z; ra_size : Z; ra_deadline : Z;
  ra_payload : list Z }.
#[export] Instance ReassemblySlot_fields : Fields ReassemblySlot := λ r,
  mkReassemblySlot (ra_active r) (ra_envelope r) (ra_next_fragment r) (ra_size r)
    (ra_deadline r) (ra_payload r).

Record LinkState : Set := mkLinkState {
  decoder : StreamDecoder;
  connected : bool;
  accepted_frames : Z; received_bytes : Z; rejected_frames : Z; transmitted_frames : Z;
  transmitted_bytes : Z; protocol_errors : Z; connections : Z;
  epoch : Z; tx_sequence : Z;
  session : SessionState;
  tx_in_flight : bool; tx_generation : Z;
  grants : Z;
  last_request_id : Z; duplicate_requests : Z; completed_requests : Z;
  responses : list ResponseSlot;
  lanes : list OutboundLane;
  outbound_messages : list OutboundMessage;
  next_fragment_id : Z;
  transmitting_lane : option OutputLane;
  transmitting_handle : LeaseHandle;
  subscriptions : list SubscriptionSlot;
  subscription_count : Z;
  reassembly : list ReassemblySlot;
  tx_scratch : list Z; tx_encoded : list Z }.
#[export] Instance LinkState_fields : Fields LinkState := λ l,
  mkLinkState (decoder l) (connected l) (accepted_frames l) (received_bytes l) (rejected_frames l)
    (transmitted_frames l) (transmitted_bytes l) (protocol_errors l) (connections l) (epoch l)
    (tx_sequence l) (session l) (tx_in_flight l) (tx_generation l) (grants l) (last_request_id l)
    (duplicate_requests l) (completed_requests l) (responses l) (lanes l) (outbound_messages l)
    (next_fragment_id l) (transmitting_lane l) (transmitting_handle l) (subscriptions l)
    (subscription_count l) (reassembly l) (tx_scratch l) (tx_encoded l).

(** The state of the service, of its facility and of the application above
    them.  [runtime] says that the function pointers of the facility are set,
    which [activate_runtime] does for all of them. *)
Record State (A : Type) : Type := mkState {
  ready : bool; accepting : bool; active_requests : Z; runtime : bool;
  links : nat → LinkState;
  events : list ServiceEvent;         (* front first *)
  open : bool;
  dropped_events : Z; processed_events : Z; event_high_water : Z;
  wire : list (nat * list Z);         (* what the links have accepted for transmission *)
  application : A }.
Arguments mkState {A}. Arguments ready {A}. Arguments accepting {A}. Arguments active_requests {A}.
Arguments runtime {A}. Arguments links {A}. Arguments events {A}. Arguments open {A}.
Arguments dropped_events {A}. Arguments processed_events {A}. Arguments event_high_water {A}.
Arguments wire {A}. Arguments application {A}.
#[export] Instance State_fields {A} : Fields (State A) := λ s,
  mkState (ready s) (accepting s) (active_requests s) (runtime s) (links s) (events s) (open s) (dropped_events s) (processed_events s)
    (event_high_water s) (wire s) (application s).

(** What a step observes: the clock in ticks and in microseconds, and what
    the link answers. *)
Record Env : Set := mkEnv {
  now : Z; now_us : Z;
  transmit_answer : nat → option TxDisposition;       (* [None]: an error *)
  rx_answer : nat → LeaseHandle → option (list Z);
  open_answer : nat → option Status;                  (* [Some]: an error *)
  stop_requested : bool;
  receive_answer : Status                             (* of an empty queue *) }.

(** ** Cleared slots *)
Section Defaults.
Context `{Config}.
Definition zeros (n : nat) : list Z := replicate n 0.
Definition empty_outbound : OutboundSlot :=
  mkOutboundSlot Kind_Keepalive Flags_None 0 0 0 0 0 0 1 (zeros frame_bytes).
Definition empty_message : OutboundMessage :=
  mkOutboundMessage false Bulk Kind_Data Flags_None 0 0 0 0 0 0 0 0 (zeros message_bytes).
Definition empty_record : LaneRecord := mkLaneRecord false false 0 0 0 0 0.
Definition empty_lane : OutboundLane := mkOutboundLane (replicate lane_depth empty_outbound) 0 0 empty_record.
Definition empty_response : ResponseSlot :=
  mkResponseSlot false false false false 0 0 0 (zeros response_bytes).
Definition empty_subscription : SubscriptionSlot := mkSubscriptionSlot false 0 0 0 0 0.
Definition empty_reassembly : ReassemblySlot :=
  mkReassemblySlot false default_envelope 0 0 0 (zeros message_bytes).
Definition empty_lanes : list OutboundLane := replicate 5 empty_lane.
Definition empty_messages : list OutboundMessage := replicate message_slots empty_message.
Definition empty_responses : list ResponseSlot := replicate max_requests empty_response.
Definition empty_subscriptions : list SubscriptionSlot := replicate max_endpoints empty_subscription.
Definition empty_reassemblies : list ReassemblySlot := replicate reassembly_slots empty_reassembly.

(** [LinkState] before anything has happened. *)
Definition initial_link : LinkState :=
  mkLinkState (new_stream_decoder (frame_bytes + 32) frame_bytes) false 0 0 0 0 0 0 0 0 0 Disconnected false 0 0
    0 0 0 empty_responses empty_lanes empty_messages 0 None no_lease empty_subscriptions 0 empty_reassemblies
    (zeros frame_bytes) (zeros (max_encoded_size frame_bytes)).

Definition max_frame_payload : nat := frame_bytes - envelope_size - crc_size.
End Defaults.

Definition lane_for (kind request_id : Z) : OutputLane :=
  if (kind =? Kind_ClientHello) || (kind =? Kind_ServerHello) || (kind =? Kind_Keepalive)
     || (kind =? Kind_Ping) || (kind =? Kind_Pong) || (kind =? Kind_SessionReset) then Control
  else if kind =? Kind_Credit then (if request_id =? 0 then Control else Response)
  else if kind =? Kind_Response then Response
  else if kind =? Kind_Error then (if request_id =? 0 then Control else Response)
  else if kind =? Kind_Data then Telemetry
  else Important.

(** ** Sections under the output lock *)
Section Output.
Context `{Config} {P : Platform}.

Definition lane_of (lane : OutputLane) (l : LinkState) : option OutboundLane :=
  lanes l !! lane_index lane.
Definition set_lane (lane : OutputLane) (o : OutboundLane) (l : LinkState) : LinkState :=
  l <| lanes ::= <[lane_index lane := o]> |>.
Definition note (f : LaneRecord → LaneRecord) (o : OutboundLane) : OutboundLane := o <| l_record ::= f |>.

Definition no_capacity : Remote.Error := Remote.error SBusy Remote.NoCapacity Remote.Transmit.
Definition too_large : Remote.Error := Remote.error SMessageTooLarge Remote.Oversized Remote.Transmit.

Definition fill_slot (slot : OutboundSlot) (kind : Z) (payload : list Z)
    (request target flags reserved : Z) : option OutboundSlot :=
  bytes ← copy_to (os_payload slot) 0 payload;
  Some (slot <| os_payload := bytes |> <| os_kind := kind |> <| os_flags := flags |>
         <| os_request_id := request |> <| os_target := target |> <| os_reserved := reserved |>
         <| os_size := u16 (Z.of_nat (length payload)) |>).

(** One more occupied slot of a lane. *)
Definition admit_slot (o : OutboundLane) : OutboundLane :=
  o <| l_size ::= S |>
    <| l_record ::= λ r, r <| admitted ::= inc32 |>
                           <| high_water ::= Z.max (Z.of_nat (S (l_size o))) |> |>.

(** A payload that fits one frame. *)
Definition enqueue (lane : OutputLane) (kind : Z) (payload : list Z)
    (request target flags reserved : Z) (l : LinkState) : option (Wire.Result unit * LinkState) :=
  output ← lane_of lane l;
  let n := length (l_slots output) in
  let full := (l_size output =? n)%nat in
  if full && negb (bool_decide (lane = Telemetry))
  then Some (Err no_capacity, set_lane lane (note (λ r, r <| dropped ::= inc32 |>) output) l) else
  let index := if full then ((l_head output + l_size output - 1) mod n)%nat
               else ((l_head output + l_size output) mod n)%nat in
  let output := if full then note (λ r, r <| replaced ::= inc32 |>) output else admit_slot output in
  slot ← l_slots output !! index;
  slot ← fill_slot slot kind payload request target flags reserved;
  Some (Ok tt, set_lane lane (note (λ r, r <| occupied := true |>)
                                (output <| l_slots ::= <[index := slot]> |>)) l).

(** Where a message that needs fragments goes: a free place, or for telemetry
    the place of another message of data. *)
Definition message_place (lane : OutputLane) (l : LinkState) : option (nat * LinkState) :=
  match find_if (λ m, negb (om_active m)) (outbound_messages l) with
  | Some index => Some (index, l)
  | None =>
    if bool_decide (lane = Telemetry) then
      index ← find_if (λ m, om_active m && (om_kind m =? Kind_Data)) (outbound_messages l);
      Some (index, l <| lanes ::= alter (note (λ r, r <| replaced ::= inc32 |>)) (lane_index Bulk) |>)
    else None
  end.

Definition next_id (id : Z) : Z := let id := u16 (id + 1) in if id =? 0 then u16 (id + 1) else id.

Definition start_message (lane : OutputLane) (kind : Z) (payload : list Z)
    (request target flags reserved count : Z) (l : LinkState) :
    option (Wire.Result unit * LinkState) :=
  match message_place lane l with
  | None => Some (Err no_capacity, l)
  | Some (index, l) =>
    bytes ← copy_to (om_payload empty_message) 0 payload;
    let id := next_id (next_fragment_id l) in
    let message := mkOutboundMessage true Bulk kind flags request target reserved
                     (u32 (Z.of_nat (length payload))) 0 id 0 (u8 count) bytes in
    Some (Ok tt, l <| next_fragment_id := id |> <| outbound_messages ::= <[index := message]> |>)
  end.

Definition fragments_of (size : nat) : Z :=
  Z.of_nat ((size + max_frame_payload - 1) / max_frame_payload).

(** What [transmit] does before it posts an event. *)
Definition queue_output (kind : Z) (payload : list Z) (request target flags reserved : Z)
    (l : LinkState) : option (Wire.Result unit * LinkState) :=
  if (message_bytes <? length payload)%nat then Some (Err too_large, l) else
  let lane := lane_for kind request in
  if (max_frame_payload <? length payload)%nat then
    let count := fragments_of (length payload) in
    if 255 <? count then Some (Err too_large, l)
    else start_message lane kind payload request target flags reserved count l
  else enqueue lane kind payload request target flags reserved l.

(** [stage_fragment]: one more fragment of the first active message. *)
Definition stage_fragment (l : LinkState) : option (unit * LinkState) :=
  match find_if om_active (outbound_messages l) with
  | None => Some (tt, l)
  | Some i =>
    message ← outbound_messages l !! i;
    output ← lane_of (om_lane message) l;
    if (l_size output =? length (l_slots output))%nat then Some (tt, l) else
    let index := ((l_head output + l_size output) mod length (l_slots output))%nat in
    slot ← l_slots output !! index;
    let size := Z.min (u32 (om_size message - om_offset message)) (Z.of_nat max_frame_payload) in
    chunk ← copy_from (Z.to_nat size) (om_payload message) (Z.to_nat (om_offset message));
    slot ← fill_slot slot (om_kind message) chunk (om_request_id message) (om_target message)
             (Z.lor (om_flags message) Flags_Fragmented) (om_reserved message);
    let slot := slot <| os_fragment_id := om_fragment_id message |>
                  <| os_fragment_index := om_fragment_index message |>
                  <| os_fragment_count := om_fragment_count message |> in
    let output := admit_slot output in
    let output := note (λ r, r <| occupied := true |>) (output <| l_slots ::= <[index := slot]> |>) in
    let offset := u32 (om_offset message + size) in
    let message := message <| om_offset := offset |> <| om_fragment_index ::= λ i, u8 (i + 1) |>
                     <| om_active := negb (offset =? om_size message) |> in
    Some (tt, set_lane (om_lane message) output l <| outbound_messages ::= <[i := message]> |>)
  end.

(** The envelope of a slot, as [try_start_transmit] completes it. *)
Definition slot_envelope (slot : OutboundSlot) (epoch sequence : Z) : Envelope :=
  let flags := Z.land (os_flags slot) (255 - Flags_Final) in
  let flags := if (os_fragment_count slot =? 1) || (os_fragment_index slot + 1 =? os_fragment_count slot)
               then Z.lor flags Flags_Final else flags in
  mkEnvelope major_version minor_version (os_kind slot) flags epoch sequence (os_target slot)
    (os_request_id slot) 0 (os_fragment_id slot) (os_fragment_index slot) (os_fragment_count slot)
    (os_reserved slot).

(** The front slot leaves its lane.  An empty lane has no front: the counter
    of the code would wrap. *)
Definition pop_slot (o : OutboundLane) : option OutboundLane :=
  if (l_size o =? 0)%nat then None else
  Some (o <| l_head := ((l_head o + 1) mod length (l_slots o))%nat |> <| l_size ::= pred |>
          <| l_record ::= λ r, r <| occupied := negb (pred (l_size o) =? 0)%nat |> |>).
Definition clear_front (o : OutboundLane) : OutboundLane :=
  o <| l_slots ::= <[l_head o := empty_outbound]> |>.

(** The first section of [try_start_transmit]: the frame of the front slot of
    the first lane that has one, and the lease of its bytes. *)
Definition begin_transmit (l : LinkState) : option (option (list Z * LeaseHandle * OutputLane) * LinkState) :=
  if tx_in_flight l || negb (connected l) then Some (None, l) else
  match find_if (λ o, negb (l_size o =? 0)%nat) (lanes l) with
  | None => Some (None, l)
  | Some i =>
    selected ← lanes l !! i;
    slot ← l_slots selected !! l_head selected;
    let sequence := inc32 (tx_sequence l) in
    let l := l <| tx_sequence := sequence |> in
    bytes ← first (os_payload slot) (Z.to_nat (os_size slot));
    size ← Frame.encode (slot_envelope slot (epoch l) sequence) bytes (tx_scratch l) (tx_encoded l);
    match size with
    | Err _ =>
      selected ← pop_slot selected;
      Some (None, set_lane (lane_at i) (note (λ r, r <| dropped ::= inc32 |>) selected) l)
    | Ok (size, encoded) =>
      frame ← first encoded size;
      let handle := mkLease (Z.of_nat i) (u16 (tx_generation l + 1)) in
      Some (Some (frame, handle, lane_at i),
            set_lane (lane_at i) (note (λ r, r <| transmitting := true |>) selected) l
              <| tx_encoded := encoded |> <| tx_generation ::= λ g, u16 (g + 1) |>
              <| transmitting_lane := Some (lane_at i) |> <| transmitting_handle := handle |>
              <| tx_in_flight := true |>)
    end
  end.

(** The second section: the link accepted the bytes, or did not. *)
Definition transmit_accepted (lane : OutputLane) (l : LinkState) : option (unit * LinkState) :=
  output ← lane_of lane l;
  output ← pop_slot (clear_front output);
  Some (tt, set_lane lane output l).

Definition transmit_refused (lane : OutputLane) (answer : option TxDisposition) (l : LinkState) :
    option (unit * LinkState) :=
  output ← lane_of lane l;
  output ← match answer with
           | Some TxBusy => Some (note (λ r, r <| transmitting := false |>) output)
           | _ => output ← pop_slot (clear_front output);
                  Some (note (λ r, r <| transmitting := false |> <| dropped ::= inc32 |>) output)
           end;
  Some (tt, set_lane lane output l <| transmitting_lane := None |>
              <| transmitting_handle := no_lease |> <| tx_in_flight := false |>).
End Output.

(** ** Sections under the response lock *)
Section Responses.
Context `{Config} {P : Platform}.
Implicit Types (l : LinkState).

Definition used_by (request : Z) (r : ResponseSlot) : bool :=
  (rs_reserved r || rs_valid r) && (rs_request r =? request).
Definition valid_for (request : Z) (r : ResponseSlot) : bool := rs_valid r && (rs_request r =? request).

Definition reserve_response (request target : Z) l : bool * LinkState :=
  match find_if (used_by request) (responses l) with
  | Some _ => (true, l)
  | None =>
    match find_if (λ r, negb (rs_reserved r) && negb (rs_valid r)) (responses l) with
    | None => (false, l)
    | Some i =>
      (true, l <| responses ::= alter (λ r, r <| rs_reserved := true |> <| rs_request := request |>
                                              <| rs_target := target |>) i |>)
    end
  end.

Definition release_response (request : Z) l : unit * LinkState :=
  match find_if (used_by request) (responses l) with
  | Some i => (tt, l <| responses ::= <[i := empty_response]> |>)
  | None => (tt, l)
  end.

Definition no_response_space : Remote.Error := Remote.error SNoSpace Remote.NoCapacity Remote.Dispatch.

Definition store_response (request target : Z) (payload : list Z) (domain_error : bool) l :
    option (Wire.Result unit * LinkState) :=
  if (response_bytes <? length payload)%nat then Some (Err no_response_space, l) else
  let place := match find_if (used_by request) (responses l) with
               | Some i => Some i
               | None => find_if (λ r, negb (rs_valid r)) (responses l)
               end in
  match place with
  | None => Some (Err no_response_space, l)
  | Some i =>
    slot ← responses l !! i;
    bytes ← copy_to (rs_payload slot) 0 payload;
    Some (Ok tt, l <| responses ::= <[i :=
      mkResponseSlot false true false domain_error (u16 (Z.of_nat (length payload))) request target bytes]> |>)
  end.

Definition unstage_response (request : Z) l : Wire.Result unit * LinkState :=
  match find_if (valid_for request) (responses l) with
  | None =>
    match find_if (λ r, rs_reserved r && (rs_request r =? request)) (responses l) with
    | Some _ => (Err (Remote.error SBusy Remote.Busy Remote.Dispatch), l)
    | None => (Err (Remote.error SNotFound Remote.NoCapacity Remote.Dispatch), l)
    end
  | Some i => (Ok tt, l <| responses ::= alter (λ r, r <| rs_staged := false |>) i |>)
  end.

(** [stage_response] up to the event [transmit] posts: it holds the response
    lock throughout, and the queueing of the output is a section of its own
    lock inside it. *)
Definition stage_output l : option (bool * LinkState) :=
  match find_if (λ r, rs_valid r && negb (rs_staged r)) (responses l) with
  | None => Some (false, l)
  | Some i =>
    slot ← responses l !! i;
    bytes ← first (rs_payload slot) (Z.to_nat (rs_size slot));
    '(queued, l) ← queue_output Kind_Response bytes (rs_request slot) (rs_target slot)
                     (if rs_error slot then Flags_ErrorPayload else Flags_None) 0 l;
    Some (is_ok queued, if is_ok queued
                        then l <| responses ::= alter (λ r, r <| rs_staged := true |>) i |> else l)
  end.

Definition acknowledge_response (request : Z) l : unit * LinkState :=
  match find_if (valid_for request) (responses l) with
  | Some i => (tt, l <| responses ::= <[i := empty_response]> |>)
  | None => (tt, l)
  end.

Definition response_cached (request : Z) l : bool * LinkState :=
  (existsb (valid_for request) (responses l), l).
End Responses.

(** ** Programs *)
Section Programs.
Context `{Config} {P : Platform} {A : Type}.

Local Abbreviation State := (RemoteLinks.State A).
Definition Program (B : Type) : Type := Prog Env State B.
Open Scope prog_scope.

Definition get {B} (f : Env → State → B) (e : Env) (s : State) : B * State := (f e s, s).
Definition update (f : Env → State → State) (e : Env) (s : State) : unit * State := (tt, f e s).
Definition set_link (i : nat) (f : LinkState → LinkState) : Env → State → unit * State :=
  update (λ _ s, s <| links ::= alter f i |>).

(** A section of link [i]; leaving an array stalls. *)
Definition section {B} (i : nat) (f : LinkState → option (B * LinkState)) : Program B :=
  r ← (λ _ s, match f (links s i) with
              | None => (None, s)
              | Some (b, l) => (Some b, s <| links ::= <[i := l]> |>)
              end);
  match r with None => Stalled | Some b => Done b end.
Definition total {B} (f : LinkState → B * LinkState) (l : LinkState) : option (B * LinkState) := Some (f l).

(** [MessageQueue::try_send]: fails on a full queue. *)
Definition try_send (event : ServiceEvent) (_ : Env) (s : State) : bool * State :=
  if (length (events s) <? event_depth)%nat then (true, s <| events ::= (λ q, q ++ [event]) |>)
  else (false, s).
Definition try_send_front (event : ServiceEvent) (_ : Env) (s : State) : unit * State :=
  (tt, if (length (events s) <? event_depth)%nat then s <| events ::= cons event |> else s).

(** The loop of compare-exchanges stores the maximum. *)
Definition update_event_high_water : Program unit :=
  current ← get (λ _ s, u32 (Z.of_nat (length (events s))));
  _ ← update (λ _ s, s <| event_high_water ::= Z.max current |>);
  Done tt.

Definition try_post (event : ServiceEvent) : Program bool :=
  posted ← try_send event;
  if posted then _ ⇇ update_event_high_water; Done true
  else _ ← update (λ _ s, s <| dropped_events ::= inc32 |>); Done false.
Definition post (event : ServiceEvent) : Program unit := _ ⇇ try_post event; Done tt.
Definition notify_stop : Program unit := _ ← try_send_front EventStop; Done tt.
Definition notify_publication (endpoint : nat) : Program bool := try_post (EventPublication endpoint).

Definition transmit (i : nat) (kind : Z) (payload : list Z) (request target flags reserved : Z) :
    Program (Wire.Result unit) :=
  r ⇇ section i (queue_output kind payload request target flags reserved);
  match r with
  | Err e => Done (Err e)
  | Ok _ => _ ⇇ post (EventOutput i); Done (Ok tt)
  end.

Definition respond (i : nat) (request target : Z) (payload : list Z) (domain_error : bool) :
    Program (Wire.Result unit) :=
  r ⇇ section i (store_response request target payload domain_error);
  match r with
  | Err e => Done (Err e)
  | Ok _ => _ ⇇ post (EventOutput i); Done (Ok tt)
  end.

(** The event is posted before the response lock is released. *)
Definition replay_response (i : nat) (request : Z) : Program (Wire.Result unit) :=
  r ⇇ section i (total (unstage_response request));
  match r with
  | Err e => Done (Err e)
  | Ok _ => _ ⇇ post (EventOutput i); Done (Ok tt)
  end.

Definition stage_response (i : nat) : Program unit :=
  staged ⇇ section i stage_output;
  if staged then post (EventOutput i) else Done tt.

Definition protocol_error (i : nat) (request target : Z) (code : ErrorCode) : Program unit :=
  match put_u16 (zeros 2) 0 (error_code code) with
  | None => Stalled
  | Some payload => _ ⇇ transmit i Kind_Error payload request target Flags_ErrorPayload 0; Done tt
  end.

(** [try_start_transmit]; the bytes a link accepts are on the wire. *)
Definition submit (i : nat) (frame : list Z) (e : Env) (s : State) : option TxDisposition * State :=
  match transmit_answer e i with
  | Some TxAccepted => (Some TxAccepted, s <| wire ::= (λ w, w ++ [(i, frame)]) |>)
  | answer => (answer, s)
  end.

Definition try_start_transmit (i : nat) : Program unit :=
  _ ⇇ stage_response i;
  _ ⇇ section i stage_fragment;
  started ⇇ section i begin_transmit;
  match started with
  | None => Done tt
  | Some (frame, handle, lane) =>
    answer ← submit i frame;
    match answer with
    | Some TxAccepted =>
      _ ← set_link i (λ l, l <| transmitted_frames ::= inc32 |>);
      section i (transmit_accepted lane)
    | answer => section i (transmit_refused lane answer)
    end
  end.
End Programs.
Arguments Program A B : clear implicits.
End RemoteLinks.
