(* ===== verification/RemoteService.v ===== *)
(** * RemoteService: the service of the Remote protocol

    Models the service thread of [include/solar/remote/service.hpp]:
    reassembly of fragments, the handling of a frame and of an event of a
    link, the event loop and the hooks of the service, and the hooks of the
    facility of [facility.hpp].  What the facility reaches through its function
    pointers is the interface [Application]. *)
From stdpp Require Import prelude functions.
From S2P Require Import Prelude Status Wire Protocol Frame Interleave RemoteLink.

Open Scope Z_scope.
Open Scope solar_scope.

Module RemoteServices.
Import RemoteLinks.

(** ** Reassembly *)
Section Reassembly.
Context `{Config}.
Implicit Types (l : LinkState).

Definition has_flag (flags flag : Z) : bool := negb (Z.land flags flag =? 0).
Definition malformed : Remote.Error := Remote.error SProtocolError Remote.Malformed Remote.Receive.

Definition expired (time : Z) (slot : ReassemblySlot) : bool := ra_active slot && (ra_deadline slot <=? time).
Definition expire_slot (time : Z) (slot : ReassemblySlot) : ReassemblySlot :=
  if expired time slot then empty_reassembly else slot.
Definition count_expired (time : Z) l : Z := Z.of_nat (length (List.filter (expired time) (reassembly l))).

(** The loop at the start of [reassemble]. *)
Definition expire (time : Z) l : LinkState :=
  l <| rejected_frames ::= λ n, u32 (n + count_expired time l) |>
    <| reassembly ::= map (expire_slot time) |>.
Definition expire_reassembly (time : Z) l : LinkState :=
  expire time (l <| protocol_errors ::= λ n, u32 (n + count_expired time l) |>).

(** [stable_flags] and the other fields every fragment repeats. *)
Definition same_message (e authored : Envelope) : bool :=
  (fragment_count e =? fragment_count authored) && (session_epoch e =? session_epoch authored)
  && (kind e =? kind authored) && (target e =? target authored)
  && (request_id e =? request_id authored) && (reserved e =? reserved authored)
  && (Z.land (flags e) (255 - Flags_Final) =? Z.land (flags authored) (255 - Flags_Final)).

Definition whole_envelope (e : Envelope) : Envelope :=
  mkEnvelope (major e) (minor e) (kind e)
    (Z.lor (Z.land (flags e) (255 - Flags_Fragmented)) Flags_Final) (session_epoch e)
    (frame_sequence e) (target e) (request_id e) 0 0 0 1 (reserved e).

Definition accept_fragment (i : nat) (last : bool) (d : Decoded) l :
    option (Wire.Result (option Decoded) * LinkState) :=
  slot ← reassembly l !! i;
  let e := envelope d in
  if negb (fragment_index e =? ra_next_fragment slot) || negb (same_message e (ra_envelope slot))
     || (Z.of_nat (length (ra_payload slot)) <? ra_size slot + Z.of_nat (length (payload d)))
  then Some (Err malformed, l <| reassembly ::= <[i := empty_reassembly]> |>) else
  bytes ← copy_to (ra_payload slot) (Z.to_nat (ra_size slot)) (payload d);
  let slot := slot <| ra_payload := bytes |>
                <| ra_size ::= λ n, u32 (n + Z.of_nat (length (payload d))) |>
                <| ra_next_fragment ::= λ n, u8 (n + 1) |> in
  if last then
    whole ← first bytes (Z.to_nat (ra_size slot));
    Some (Ok (Some (mkDecoded (whole_envelope (ra_envelope slot)) whole)),
          l <| reassembly ::= <[i := slot <| ra_active := false |>]> |>)
  else Some (Ok None, l <| reassembly ::= <[i := slot]> |>).

Definition collects (id : Z) (slot : ReassemblySlot) : bool :=
  ra_active slot && (fragment_id (ra_envelope slot) =? id).

(** The place of a fragment; the first one of a message (re)starts it. *)
Definition fragment_place (time : Z) (e : Envelope) l : Wire.Result (nat * LinkState) :=
  let slot := find_if (collects (fragment_id e)) (reassembly l) in
  if fragment_index e =? 0 then
    match (match slot with Some i => Some i | None => find_if (λ s, negb (ra_active s)) (reassembly l) end) with
    | None => Err (Remote.error SNoSpace Remote.NoCapacity Remote.Receive)
    | Some i =>
      Ok (i, l <| reassembly ::= <[i :=
        mkReassemblySlot true e 0 0 (time + reassembly_timeout) (ra_payload empty_reassembly)]> |>)
    end
  else match slot with
       | None => Err malformed
       | Some i => Ok (i, l)
       end.

Definition reassemble (time : Z) (d : Decoded) l : option (Wire.Result (option Decoded) * LinkState) :=
  let e := envelope d in
  let fragmented := has_flag (flags e) Flags_Fragmented in
  if negb fragmented && (fragment_count e =? 1) then Some (Ok (Some d), l) else
  if negb fragmented || (fragment_count e <=? 1) || (fragment_id e =? 0) then Some (Err malformed, l) else
  let final := has_flag (flags e) Flags_Final in
  let last := fragment_index e + 1 =? fragment_count e in
  if negb (eqb final last) then Some (Err malformed, l) else
  let l := expire time l in
  match fragment_place time e l with
  | Err error => Some (Err error, l)
  | Ok (i, l) => accept_fragment i last d l
  end.
End Reassembly.

(** ** The application *)
Class Application (A : Type) `{Config} : Type := {
  process_publication : nat → Program A unit;
  process_application_frame : nat → Decoded → Program A unit;
  process_poll_releases : Program A Z;
  reset_session : nat → Z → Program A unit;
  open_session : nat → Program A unit;
  pong_responded : Program A unit;
  introspection_summary : IntrospectionSummary;
  server_information : ServerInformation;
  (* The bytes of the answer, in a buffer of the given size. *)
  manifest_chunk : list Z → nat → Program A (Wire.Result (list Z));
  inspection_collections : list Z → nat → Program A (Wire.Result (list Z));
  inspection_query : list Z → nat → Program A (Wire.Result (list Z));
  inspection_response_bytes : nat;   (* CONFIG_SOLAR_INSPECTION_REMOTE_RESPONSE_BYTES *)
  initialize_in_stream_runtime : Program A unit }.

Definition CloseReason_Replaced : Z := 1.
Definition CloseReason_Disconnect : Z := 2.
Definition CloseReason_Reset : Z := 3.
Definition CloseReason_Fault : Z := 4.

Definition Target_ProtocolSummary : Z := 0.
Definition Target_Collections : Z := 1.
Definition Target_CollectionQuery : Z := 2.
Definition Target_ServerInformation : Z := 3.
Definition Target_Manifest : Z := 4.

(** [PermissionMask<Requires<permission::Observe>>] and the others. *)
Definition permission_observe : Z := 1.
Definition permission_configure : Z := 2.
Definition permission_control : Z := 4.
Definition granted (mask : Z) (l : LinkState) : bool := Z.land (grants l) mask =? mask.

(** ** Frames *)
Section Service.
Context `{Config} {P : Platform} {A : Type} `{!Application A}.

Local Abbreviation State := (RemoteLinks.State A).
Local Abbreviation Program := (RemoteLinks.Program A).
Open Scope prog_scope.

Definition count (i : nat) (f : LinkState → LinkState) : Program unit := _ ← set_link i f; Done tt.
Definition protocol_failure (i : nat) : Program unit :=
  count i (λ l, l <| protocol_errors ::= inc32 |>).
Definition read_link {B} (i : nat) (f : LinkState → B) : Env → State → B * State :=
  get (λ _ s, f (links s i)).

(** A function pointer of the facility, null while it is not activated. *)
Definition if_active (p : Program unit) : Program unit :=
  active ← get (λ _ s, runtime s);
  if active then p else Done tt.

Definition hello_features : Z :=
  Z.lor (Z.lor 15 (if runtime_introspection then Z.lor 16 (if manifest_retrieval then 64 else 0) else 0))
        (if inspection_remote then 32 else 0).
Definition hello_payload : option (list Z) :=
  (o ← wr (zeros 16) 0 major_version;
   o ← wr o 1 minor_version;
   o ← put_u32 o 4 (Z.of_nat frame_bytes);
   o ← put_u32 o 8 (Z.of_nat message_bytes);
   put_u32 o 12 hello_features)%stdpp.

(** The bytes of an encoder that stays in its array. *)
Definition encoded (o : option (list Z)) (k : list Z → Program unit) : Program unit :=
  match o with None => Stalled | Some bytes => k bytes end.
Definition transmit_only (i : nat) (kind : Z) (payload : list Z) (request target : Z) : Program unit :=
  _ ⇇ transmit i kind payload request target Flags_None 0; Done tt.
Definition say_hello (i : nat) : Program unit :=
  encoded hello_payload (λ hello, transmit_only i Kind_ServerHello hello 0 0).

Definition no_summary : IntrospectionSummary := mkIntrospectionSummary 0 0 0 0 0 0 0 0.
Definition no_information : ServerInformation := mkServerInformation 0 0 0 (zeros 32) 0 0.

Definition code_of (e : Remote.Error) : ErrorCode :=
  match Remote.reason e with Remote.Malformed => DecodeFailure | _ => NoCapacity end.
Definition query_code (e : Remote.Error) : ErrorCode :=
  match Remote.status e with
  | SNotFound => UnknownTarget
  | SNotReady => NotReady
  | SBusy | SWouldBlock => Busy
  | SNoSpace | SNoBuffer => NoCapacity
  | SInvalid | SProtocolError => DecodeFailure
  | _ => InternalFailure
  end.

Definition process_introspection (i : nat) (d : Decoded) : Program unit :=
  let request := request_id (envelope d) in
  let tgt := target (envelope d) in
  let answer bytes := transmit_only i Kind_Introspection bytes request tgt in
  let fixed (o : option (list Z)) :=
    if (length (payload d) =? 0)%nat then encoded o answer
    else protocol_error i request tgt DecodeFailure in
  let from (p : Program (Wire.Result (list Z))) (code : Remote.Error → ErrorCode) :=
    r ⇇ p; match r with Err e => protocol_error i request tgt (code e) | Ok bytes => answer bytes end in
  allowed ← read_link i (granted permission_observe);
  if negb allowed then protocol_error i request tgt Unauthorized else
  if request =? 0 then protocol_error i request tgt DecodeFailure else
  active ← get (λ _ s, runtime s);
  if runtime_introspection && (tgt =? Target_ProtocolSummary)
  then fixed (encode_introspection_summary (if active then introspection_summary else no_summary)) else
  if tgt =? Target_ServerInformation
  then fixed (encode_server_information (if active then server_information else no_information)) else
  if manifest_retrieval && (tgt =? Target_Manifest) && active
  then from (manifest_chunk (payload d) frame_bytes) code_of else
  if inspection_remote && (tgt =? Target_Collections) && active
  then from (inspection_collections (payload d) inspection_response_bytes) code_of else
  if inspection_remote && (tgt =? Target_CollectionQuery) && active
  then from (inspection_query (payload d) inspection_response_bytes) query_code
  else protocol_error i request tgt UnknownTarget.

Definition is_active (i : nat) : Env → State → bool * State :=
  read_link i (λ l, bool_decide (session l = Active)).

Definition client_hello (i : nat) (d : Decoded) : Program unit :=
  match payload d with
  | version :: _ =>
    if negb (length (payload d) =? 16)%nat || negb (version =? major_version) then protocol_failure i else
    _ ← set_link i (λ l, l <| session := Active |>);
    _ ⇇ say_hello i;
    if_active (open_session i)
  | [] => protocol_failure i
  end.

Definition ping (i : nat) (d : Decoded) : Program unit :=
  active ← is_active i;
  let request := request_id (envelope d) in
  if negb active || (request =? 0) then protocol_failure i else
  received ← get (λ e _, u64 (now_us e));
  match decode_ping_request (payload d) with
  | None => Stalled
  | Some (Err _) => protocol_error i request 0 DecodeFailure
  | Some (Ok query) =>
    sending ← get (λ e _, u64 (now_us e));
    match encode_ping_response (mkPingResponse (pq_nonce query) (pq_host_monotonic_ns query) received sending) with
    | None => Stalled
    | Some bytes =>
      transmitted ⇇ transmit i Kind_Pong bytes request 0 Flags_None 0;
      if is_ok transmitted then if_active pong_responded else Done tt
    end
  end.

(** What a new session starts from. *)
Definition clear_responses (i : nat) : Env → State → unit * State :=
  set_link i (λ l, l <| responses := empty_responses |>).
Definition clear_requests (l : LinkState) : LinkState := l <| last_request_id := 0 |>.
Definition clear_reassembly (l : LinkState) : LinkState := l <| reassembly := empty_reassemblies |>.
Definition next_epoch (l : LinkState) : LinkState := l <| epoch ::= inc32 |>.

Definition session_reset (i : nat) : Program unit :=
  _ ⇇ if_active (reset_session i CloseReason_Reset);
  _ ← clear_responses i;
  _ ← set_link i clear_requests;
  _ ← set_link i clear_reassembly;
  _ ← set_link i (λ l, l <| session := Negotiating |>);
  _ ← set_link i next_epoch;
  say_hello i.

Definition application_kind (k : Z) : bool :=
  existsb (Z.eqb k) [Kind_Request; Kind_ResponseAck; Kind_Cancel; Kind_Subscribe; Kind_Unsubscribe;
                     Kind_Credit; Kind_Data; Kind_Pong].

Definition handle_complete (i : nat) (d : Decoded) : Program unit :=
  let k := kind (envelope d) in
  if k =? Kind_ClientHello then client_hello i d
  else if k =? Kind_Keepalive then
    active ← is_active i;
    if active then transmit_only i Kind_Keepalive (payload d) 0 0 else protocol_failure i
  else if k =? Kind_Ping then ping i d
  else if k =? Kind_Introspection then
    active ← is_active i;
    if active then process_introspection i d else protocol_failure i
  else if k =? Kind_SessionReset then session_reset i
  else if application_kind k then
    active ← is_active i;
    set ← get (λ _ s, runtime s);
    if active && set then process_application_frame i d else protocol_failure i
  else protocol_failure i.

Definition reassemble_on (i : nat) (d : Decoded) : Program (Wire.Result (option Decoded)) :=
  time ← get (λ e _, now e);
  section i (reassemble time d).

Definition handle_frame (i : nat) (d : Decoded) : Program unit :=
  _ ← set_link i (λ l, l <| accepted_frames ::= inc32 |>);
  assembled ⇇ reassemble_on i d;
  match assembled with
  | Err _ =>
    _ ⇇ protocol_failure i;
    protocol_error i (request_id (envelope d)) (target (envelope d)) FragmentRejected
  | Ok None => Done tt
  | Ok (Some complete) => handle_complete i complete
  end.

Fixpoint handle_frames (i : nat) (ds : list Decoded) : Program unit :=
  match ds with
  | [] => Done tt
  | d :: ds => _ ⇇ handle_frame i d; handle_frames i ds
  end.

(** ** Events of a link *)

(** The decoder calls the handler with every frame it accepts; the handler
    does not use the decoder. *)
Definition feed_link (bytes : list Z) (l : LinkState) : option (FeedRecord * list Decoded * LinkState) :=
  '(fed, record, frames) ← Frame.feed (decoder l) bytes;
  Some (record, frames, l <| decoder := fed |>).

Definition on_connected (i : nat) : Program unit :=
  _ ⇇ if_active (reset_session i CloseReason_Disconnect);
  _ ← set_link i (λ l, l <| lanes := empty_lanes |> <| outbound_messages := empty_messages |>
                         <| transmitting_lane := None |> <| transmitting_handle := no_lease |>
                         <| subscriptions := empty_subscriptions |> <| subscription_count := 0 |>);
  _ ← clear_responses i;
  _ ← set_link i clear_requests;
  _ ← set_link i clear_reassembly;
  _ ← set_link i (λ l, l <| connected := true |>);
  _ ← set_link i (λ l, l <| connections ::= inc32 |>);
  _ ← set_link i (λ l, l <| session := Negotiating |>);
  _ ← set_link i next_epoch;
  _ ← set_link i (λ l, l <| grants := link_grants i |>);
  say_hello i.

Definition on_disconnected (i : nat) (fault : bool) : Program unit :=
  _ ⇇ if_active (reset_session i (if fault then CloseReason_Fault else CloseReason_Disconnect));
  _ ← set_link i (λ l, l <| connected := false |>);
  _ ← set_link i (λ l, l <| session := if fault then Faulted else Disconnected |>);
  _ ← set_link i (λ l, l <| tx_in_flight := false |>);
  _ ← clear_responses i;
  _ ← set_link i clear_requests;
  _ ← set_link i clear_reassembly;
  _ ← set_link i (λ l, l <| lanes := empty_lanes |> <| outbound_messages := empty_messages |>
                         <| transmitting_lane := None |> <| transmitting_handle := no_lease |>);
  Done tt.

Definition on_received (i : nat) (lease : LeaseHandle) (size : Z) : Program unit :=
  _ ← set_link i (λ l, l <| received_bytes ::= λ n, u32 (n + size) |>);
  bytes ← get (λ e _, rx_answer e i lease);
  match bytes with
  | None => count i (λ l, l <| rejected_frames ::= inc32 |>)
  | Some bytes =>
    fed ⇇ section i (feed_link bytes);
    _ ⇇ handle_frames i fed.2;
    count i (λ l, l <| rejected_frames ::= λ n, u32 (n + u32 (rejected fed.1 + overflowed fed.1)) |>)
  end.

Definition complete_transmit (lease : LeaseHandle) (l : LinkState) : LinkState :=
  match transmitting_lane l with
  | Some lane =>
    if bool_decide (lease = transmitting_handle l) then
      l <| lanes ::= alter (note (λ r, r <| transmitting := false |>)) (lane_index lane) |>
        <| transmitting_lane := None |> <| transmitting_handle := no_lease |> <| tx_in_flight := false |>
    else l
  | None => l
  end.

Definition on_transmitted (i : nat) (lease : LeaseHandle) (size : Z) : Program unit :=
  _ ← set_link i (λ l, l <| transmitted_bytes ::= λ n, u32 (n + size) |>);
  count i (complete_transmit lease).

Definition process_link_event (i : nat) (event : LinkEvent) : Program unit :=
  _ ⇇ match event_kind event with
      | LinkConnected => on_connected i
      | LinkDisconnected => on_disconnected i false
      | LinkFault => on_disconnected i true
      | RxReady => on_received i (event_lease event) (event_size event)
      | TxComplete => on_transmitted i (event_lease event) (event_size event)
      end;
  try_start_transmit i.

(** ** The event loop *)
Definition dispatch (event : ServiceEvent) : Program unit :=
  match event with
  | EventOutput i => if (i <? link_count)%nat then try_start_transmit i else Done tt
  | EventPublication endpoint => if_active (process_publication endpoint)
  | EventStop => Done tt
  | EventLink i event => if (i <? link_count)%nat then process_link_event i event else Done tt
  end.

Definition receive (e : Env) (s : State) : result Status ServiceEvent * State :=
  match events s with
  | event :: rest => (Ok event, s <| events := rest |>)
  | [] => (Err (receive_answer e), s)
  end.

Definition pump_once : Program (result Status unit) :=
  event ← receive;
  match event with
  | Err status =>
    Done (if bool_decide (status = SWouldBlock ∨ status = SEmpty ∨ status = STimeout)
          then Ok tt else Err status)
  | Ok event =>
    _ ⇇ dispatch event;
    _ ← update (λ _ s, s <| processed_events ::= inc32 |>);
    Done (Ok tt)
  end.

(** [(f<Links>(), ...)] *)
Fixpoint for_links (n i : nat) (p : nat → Program unit) : Program unit :=
  match n with
  | O => Done tt
  | S n => _ ⇇ p i; for_links n (S i) p
  end.
Definition each_link (p : nat → Program unit) : Program unit := for_links link_count 0 p.

Definition expire_on (i : nat) : Program unit :=
  time ← get (λ e _, now e);
  count i (expire_reassembly time).

(** The polling of the links is their own code; how long the loop waits for
    an event is not part of the model. *)
Fixpoint run (rounds : nat) : Program (result Status unit) :=
  match rounds with
  | O => Stalled
  | S rounds =>
    stop ← get (λ e _, stop_requested e);
    if stop then Done (Ok tt) else
    pumped ⇇ pump_once;
    match pumped with
    | Err status => Done (Err status)
    | Ok _ =>
      _ ⇇ each_link try_start_transmit;
      _ ⇇ each_link expire_on;
      active ← get (λ _ s, runtime s);
      _ ⇇ (if active then process_poll_releases else Done 0);
      run rounds
    end
  end.

(** ** Hooks *)
Definition service_init : Program (result Status unit) :=
  _ ← update (λ _ s, s <| events := [] |>);
  _ ← update (λ _ s, s <| dropped_events := 0 |>);
  _ ← update (λ _ s, s <| processed_events := 0 |>);
  _ ← update (λ _ s, s <| event_high_water := 0 |>);
  _ ← update (λ _ s, s <| open := false |>);
  Done (Ok tt).

(** The first link that does not open ends the loop. *)
Fixpoint open_links (n i : nat) : Program (result Status unit) :=
  match n with
  | O => Done (Ok tt)
  | S n =>
    answer ← get (λ e _, open_answer e i);
    match answer with
    | Some status => Done (Err status)
    | None => open_links n (S i)
    end
  end.

Definition service_start : Program (result Status unit) :=
  r ⇇ open_links link_count 0;
  match r with
  | Err status => Done (Err status)
  | Ok _ => _ ← update (λ _ s, s <| open := true |>); Done (Ok tt)
  end.

Definition service_stop : Program (result Status unit) :=
  _ ← update (λ _ s, s <| open := false |>);
  _ ⇇ if_active (each_link (λ i, reset_session i CloseReason_Reset));
  Done (Ok tt).

Definition service_deinit : Program (result Status unit) :=
  _ ← update (λ _ s, s <| events := [] |>);
  Done (Ok tt).

Definition facility_init : Program (result Status unit) :=
  _ ← update (λ _ s, s <| accepting := false |>);
  _ ← update (λ _ s, s <| active_requests := 0 |>);
  _ ← update (λ _ s, s <| runtime := false |>);
  _ ← update (λ _ s, s <| ready := true |>);
  Done (Ok tt).
Definition facility_start : Program (result Status unit) :=
  _ ← update (λ _ s, s <| accepting := true |>); Done (Ok tt).
Definition facility_stop : Program (result Status unit) :=
  _ ← update (λ _ s, s <| accepting := false |>); Done (Ok tt).
Definition facility_deinit : Program (result Status unit) :=
  _ ← update (λ _ s, s <| ready := false |>);
  _ ← update (λ _ s, s <| runtime := false |>);
  Done (Ok tt).
Definition facility_activate_runtime : Program unit :=
  _ ⇇ initialize_in_stream_runtime;
  _ ← update (λ _ s, s <| runtime := true |>);
  Done tt.
End Service.
End RemoteServices.
