(* ===== verification/RemoteReassembly.v ===== *)
(** * RemoteReassembly: fragments become messages again

    The reassembly of a link of [RemoteService] is total on well-formed slots,
    and collects the fragments of a message whatever frames of other messages
    arrive between them. *)
From stdpp Require Import prelude functions.
From S2P Require Import Prelude Status Wire Protocol Frame Interleave RemoteLink RemoteService.
Import RemoteLinks RemoteServices.

Open Scope Z_scope.
Open Scope solar_scope.

Module Reassembling.
Section Reassembling.
Context `{C : Config} {Laws : ConfigLaws C}.
Implicit Types (l : LinkState) (d : Decoded) (s : ReassemblySlot).

(** ** Well-formed slots *)
Definition slot_wf s : Prop :=
  length (ra_payload s) = message_bytes ∧ 0 ≤ ra_size s ≤ Z.of_nat message_bytes.
Definition reassembly_wf l : Prop := Forall slot_wf (reassembly l).

Lemma empty_slot_wf : slot_wf empty_reassembly.
Proof. split; simpl; [apply length_replicate|lia]. Qed.
Lemma set_reassembly_wf l i s : reassembly_wf l → slot_wf s → reassembly_wf (l <| reassembly ::= <[i := s]> |>).
Proof. intros Hl Hs. by apply Forall_insert. Qed.
Lemma expire_wf time l : reassembly_wf l → reassembly_wf (expire time l).
Proof.
  intros Hl. apply Forall_map. eapply list.Forall_impl; [exact Hl|]. intros s Hs. unfold compose, expire_slot.
  case_match; [apply empty_slot_wf|done].
Qed.

(** ** Collecting the fragments of one message *)
(** Slot [i] has the fragments before [k] of the message whose first envelope
    is [a]. *)
Record collecting (a : Envelope) (deadline : Z) (k : nat) (bytes : list Z) l : Prop := {
  co_wf : reassembly_wf l;
  co_slot : ∃ i s, find_if (collects (fragment_id a)) (reassembly l) = Some i
    ∧ reassembly l !! i = Some s ∧ ra_envelope s = a ∧ ra_deadline s = deadline
    ∧ ra_next_fragment s = Z.of_nat k ∧ ra_size s = Z.of_nat (length bytes)
    ∧ take (length bytes) (ra_payload s) = bytes }.

Lemma expire_collecting a deadline k bytes time l :
  collecting a deadline k bytes l → time < deadline → collecting a deadline k bytes (expire time l).
Proof.
  intros [Hwf (i & s & Hi & Hs & Ha & Hd & Hrest)] Ht. split; [by apply expire_wf|]. exists i, s.
  assert (Hkeep : expire_slot time s = s).
  { unfold expire_slot, expired. rewrite Hd, (proj2 (Z.leb_gt _ _)) by lia. by rewrite andb_false_r. }
  split; [|split; [|done]].
  2: { simpl. rewrite list_lookup_fmap, Hs. simpl. by rewrite Hkeep. }
  apply find_if_map; [done| |].
  - intros x Hx. unfold expire_slot. by case_match.
  - intros x Hx. simpl in Hx. assert (x = s) as -> by congruence. rewrite Hkeep. by eapply find_if_lookup.
Qed.
(** ** Frames of other messages *)

(** What one frame with the identifier [id] does to the slots: it changes one
    slot, which then does not collect another message. *)
Definition touches (id : Z) (i : nat) l l' : Prop :=
  ∃ s, reassembly l' = <[i := s]> (reassembly l) ∧ slot_wf s ∧ (ra_active s = true → fragment_id (ra_envelope s) = id).

Lemma accept_touches i last d l s :
  reassembly_wf l → reassembly l !! i = Some s →
  ∃ r l', accept_fragment i last d l = Some (r, l') ∧ touches (fragment_id (ra_envelope s)) i l l'.
Proof.
  intros Hwf Hs. unfold accept_fragment. rewrite Hs. cbn [mbind option_bind].
  destruct (list.Forall_lookup_1 _ _ _ _ Hwf Hs) as [Hlen Hsize]. case_match eqn:Hguard.
  - eexists _, _. split; [done|]. exists empty_reassembly. split; [done|]. split; [apply empty_slot_wf|done].
  - rewrite !orb_false_iff, Hlen, Z.ltb_ge in Hguard. destruct Hguard as [_ Hfit].
    destruct (copy_to_prefix (ra_payload s) (Z.to_nat (ra_size s)) (payload d)) as (bytes & -> & Hb & _); [lia|].
    pose proof message_bytes_range. cbn [mbind option_bind].
    assert (Hwrap : u32 (ra_size s + Z.of_nat (length (payload d))) = ra_size s + Z.of_nat (length (payload d)))
      by (apply wrap_small; word_lia).
    assert (slot_wf (s <| ra_payload := bytes |> <| ra_size ::= λ n, u32 (n + Z.of_nat (length (payload d))) |>
                       <| ra_next_fragment ::= λ n, u8 (n + 1) |>)) as [Hw1 Hw2].
    { split; [simpl; lia|]. simpl. rewrite Hwrap. lia. }
    destruct last.
    + rewrite first_some by (simpl in *; lia). cbn [mbind option_bind].
      eexists _, _. split; [done|]. eexists. split; [done|]. split; [by split|done].
    + eexists _, _. split; [done|]. eexists. split; [done|]. split; [by split|done].
Qed.

Lemma place_touches time e l :
  reassembly_wf l →
  match fragment_place time e l with
  | Err _ => True
  | Ok (i, l') => reassembly_wf l' ∧ ∃ s, reassembly l' !! i = Some s ∧ fragment_id (ra_envelope s) = fragment_id e
      ∧ (l' = l ∨ touches (fragment_id e) i l l')
      ∧ ∀ s0, reassembly l !! i = Some s0 → ra_active s0 = true → fragment_id (ra_envelope s0) = fragment_id e
  end.
Proof.
  intros Hwf. unfold fragment_place.
  set (new := mkReassemblySlot _ _ _ _ _ _).
  assert (Hnew : slot_wf new) by (split; simpl; [apply length_replicate|lia]).
  assert (Hput : ∀ i, (i < length (reassembly l))%nat →
    (∀ s0, reassembly l !! i = Some s0 → ra_active s0 = true → fragment_id (ra_envelope s0) = fragment_id e) →
    let l' := l <| reassembly ::= <[i := new]> |> in
    reassembly_wf l' ∧ ∃ s, reassembly l' !! i = Some s ∧ fragment_id (ra_envelope s) = fragment_id e
      ∧ (l' = l ∨ touches (fragment_id e) i l l')
      ∧ ∀ s0, reassembly l !! i = Some s0 → ra_active s0 = true → fragment_id (ra_envelope s0) = fragment_id e).
  { intros i Hi Hold l'. split; [by apply set_reassembly_wf|]. exists new.
    split; [by apply list_lookup_insert_eq|]. split; [done|]. split; [|done]. right. by exists new. }
  destruct (find_if (collects (fragment_id e)) (reassembly l)) as [i|] eqn:Hi.
  - pose proof (find_if_bound _ _ _ Hi) as Hbound.
    pose proof (λ x, find_if_lookup _ _ _ x Hi) as Hfound. unfold collects in Hfound. destruct (fragment_index e =? 0).
    + apply Hput; [done|]. intros s0 Hs0 _. specialize (Hfound s0 Hs0).
      apply andb_prop in Hfound as [_ ?%Z.eqb_eq]. done.
    + split; [done|]. destruct (lookup_lt_is_Some_2 _ _ Hbound) as [s Hs]. exists s.
      pose proof (Hfound s Hs) as [_ ?%Z.eqb_eq]%andb_prop. split_and!; [done..|by left|].
      intros s0 Hs0 _. by simplify_eq.
  - destruct (fragment_index e =? 0); [|done].
    destruct (find_if (λ s, negb _) (reassembly l)) as [i|] eqn:Hf; [|done].
    apply Hput; [by eapply find_if_bound|]. intros s0 Hs0 Hact.
    pose proof (find_if_lookup _ _ _ _ Hf Hs0) as Hno. simpl in Hno. by rewrite Hact in Hno.
Qed.

Lemma touches_collecting id i a deadline k bytes l l' :
  collecting a deadline k bytes l → touches id i l l' → id ≠ fragment_id a →
  (∀ s0, reassembly l !! i = Some s0 → ra_active s0 = true → fragment_id (ra_envelope s0) = id) →
  collecting a deadline k bytes l'.
Proof.
  intros [Hwf (j & s & Hj & Hs & Ha & Hrest)] (s' & Hl & Hs' & Hid') Hne Hid.
  pose proof (find_if_lookup _ _ _ _ Hj Hs) as [Hact _]%andb_prop.
  assert (i ≠ j) by (intros ->; specialize (Hid s Hs Hact); congruence).
  split; [unfold reassembly_wf; rewrite Hl; by apply Forall_insert|].
  exists j, s. rewrite Hl. split; [|by rewrite list_lookup_insert_ne].
  apply find_if_insert_other; [done..|]. unfold collects. destruct (ra_active s') eqn:Hs'act; [|done].
  rewrite (Hid' eq_refl). simpl. by apply Z.eqb_neq.
Qed.

Definition carries (id : Z) d : bool :=
  has_flag (flags (envelope d)) Flags_Fragmented && (fragment_id (envelope d) =? id).

(** [reassemble] is defined, and a frame that does not carry the message
    leaves what was collected of it. *)
Lemma reassemble_wf time d l :
  reassembly_wf l →
  ∃ r l', reassemble time d l = Some (r, l') ∧ reassembly_wf l'
    ∧ ∀ a deadline k bytes, collecting a deadline k bytes l → time < deadline →
        carries (fragment_id a) d = false → collecting a deadline k bytes l'.
Proof.
  intros Hwf. unfold reassemble.
  destruct (negb _ && _) eqn:Hwhole; [by eexists _, _|].
  destruct (negb (has_flag _ _) || _ || _) eqn:Hbad; [by eexists _, _|].
  destruct (negb (eqb _ _)); [by eexists _, _|].
  pose proof (expire_wf time l Hwf) as Hwf'. set (le := expire time l) in *.
  pose proof (place_touches time (envelope d) le Hwf') as Hplace.
  assert (Hkeep : ∀ a deadline k bytes, collecting a deadline k bytes l → time < deadline →
    carries (fragment_id a) d = false →
    collecting a deadline k bytes le ∧ fragment_id (envelope d) ≠ fragment_id a).
  { intros a deadline k bytes Hco Ht Hca. split; [by apply expire_collecting|].
    rewrite !orb_false_iff, negb_false_iff in Hbad. destruct Hbad as [[Hfl _] _].
    unfold carries in Hca. rewrite Hfl in Hca. by apply Z.eqb_neq in Hca. }
  destruct (fragment_place time (envelope d) le) as [[i lp]|error].
  - destruct Hplace as (Hwfp & s & Hs & Hid & Hl & Hold).
    destruct (accept_touches i (fragment_index (envelope d) + 1 =? fragment_count (envelope d)) d lp s Hwfp Hs)
      as (r & l' & -> & Ht). eexists _, _. split; [done|]. rewrite Hid in Ht.
    assert (reassembly_wf l') as Hwfl'.
    { destruct Ht as (s' & Hl' & Hs' & _). unfold reassembly_wf. rewrite Hl'. by apply Forall_insert. }
    split; [done|]. intros a deadline k bytes Hco Htime Hca.
    destruct (Hkeep a deadline k bytes Hco Htime Hca) as [Hcoe Hne].
    eapply touches_collecting; [|done..|intros s0 Hs0 _; by simplify_eq].
    destruct Hl as [->|Htp]; [done|]. by eapply touches_collecting.
  - eexists _, _. split; [done|]. split; [done|]. intros. by eapply Hkeep.
Qed.
(** ** Fragments of the message *)

(** [d] is fragment [k] of the message whose first envelope is [a]. *)
Record piece_of (a : Envelope) (k : nat) d : Prop := {
  po_id : fragment_id (envelope d) = fragment_id a;
  po_index : fragment_index (envelope d) = Z.of_nat k;
  po_same : same_message (envelope d) a = true;
  po_fragmented : has_flag (flags (envelope d)) Flags_Fragmented = true;
  po_final : has_flag (flags (envelope d)) Flags_Final = (Z.of_nat k + 1 =? fragment_count a) }.
Definition fragmenting (a : Envelope) : Prop := fragment_id a ≠ 0 ∧ 1 < fragment_count a ≤ 255.

Lemma piece_carries a k d : piece_of a k d → carries (fragment_id a) d = true.
Proof. intros [Hid _ _ Hf _]. unfold carries. by rewrite Hf, Hid, Z.eqb_refl. Qed.

Definition collects_at (i : nat) (a : Envelope) l : Prop :=
  find_if (collects (fragment_id a)) (reassembly l) = Some i.

Lemma accept_next a deadline k bytes i d l :
  collecting a deadline k bytes l → collects_at i a l → piece_of a k d → fragmenting a →
  (Z.of_nat k < fragment_count a) → (length bytes + length (payload d) ≤ message_bytes)%nat →
  let last := Z.of_nat k + 1 =? fragment_count a in
  ∃ l', accept_fragment i last d l
        = Some (Ok (if last then Some (mkDecoded (whole_envelope a) (bytes ++ payload d)) else None), l')
    ∧ reassembly_wf l' ∧ (last = false → collecting a deadline (S k) (bytes ++ payload d) l').
Proof.
  intros [Hwf (j & s & Hj & Hs & Ha & Hd & Hk & Hsz & Hb)] Hi [Hid Hix Hsame _ _] [_ Hcount] Hlt Hfit last.
  unfold collects_at in Hi. assert (j = i) as -> by congruence.
  pose proof (find_if_lookup _ _ _ _ Hi Hs) as Hcol. pose proof message_bytes_range.
  destruct (list.Forall_lookup_1 _ _ _ _ Hwf Hs) as [Hlen Hsize]. unfold accept_fragment. rewrite Hs.
  cbn [mbind option_bind]. rewrite Hix, Hk, Z.eqb_refl, Ha, Hsame, Hsz, Hlen, (proj2 (Z.ltb_ge _ _)) by lia.
  cbn [negb orb]. rewrite Nat2Z.id.
  destruct (copy_to_prefix (ra_payload s) (length bytes) (payload d)) as (bytes' & -> & Hl' & Ht'); [lia|].
  cbn [mbind option_bind]. rewrite Hb in Ht'.
  assert (Hwrap : u32 (Z.of_nat (length bytes) + Z.of_nat (length (payload d))) = Z.of_nat (length (bytes ++ payload d)))
    by (rewrite length_app, Nat2Z.inj_add; apply wrap_small; word_lia).
  set (s1 := s <| ra_payload := bytes' |> <| ra_size ::= _ |> <| ra_next_fragment ::= _ |>).
  assert (Hs1 : ra_size s1 = Z.of_nat (length (bytes ++ payload d))) by (unfold s1; simpl; by rewrite Hsz).
  assert (slot_wf s1) as Hwf1.
  { split; [change (ra_payload s1) with bytes'; lia|]. rewrite Hs1, length_app. lia. }
  destruct last eqn:Hlast.
  - rewrite Hs1, Nat2Z.id, first_some by (rewrite length_app; change (ra_payload s1) with bytes'; lia).
    cbn [mbind option_bind]. rewrite length_app, Ht'. change (ra_envelope s1) with (ra_envelope s). rewrite Ha.
    eexists. split; [done|]. split; [|done]. apply set_reassembly_wf; [done|]. destruct Hwf1. by split.
  - eexists. split; [done|]. assert (reassembly_wf (l <| reassembly ::= <[i := s1]> |>)) by by apply set_reassembly_wf.
    split; [done|]. intros _. split; [done|]. exists i, s1. split; [by apply find_if_insert_same|].
    split; [apply list_lookup_insert_eq; by eapply find_if_bound|]. split; [done|]. split; [done|].
    split; [unfold s1; simpl; rewrite Hk; unfold last in Hlast; apply Z.eqb_neq in Hlast;
            rewrite wrap_small by word_lia; lia|].
    split; [done|]. by rewrite length_app.
Qed.

(** Room for a new message at [time]. *)
Definition has_room (time id : Z) l : bool :=
  existsb (λ s, negb (ra_active s) || expired time s || collects id s) (reassembly l).

Lemma place_first time e l :
  reassembly_wf l → has_room time (fragment_id e) l = true → fragment_index e = 0 →
  ∃ i l', fragment_place time e (expire time l) = Ok (i, l')
    ∧ collecting e (time + reassembly_timeout) 0 [] l' ∧ collects_at i e l'.
Proof.
  intros Hwf Hroom Hindex. pose proof (expire_wf time l Hwf) as Hwf'. unfold fragment_place. rewrite Hindex.
  cbn [Z.eqb].
  set (new := mkReassemblySlot _ _ _ _ _ _).
  assert (Hput : ∀ i, (i < length (reassembly (expire time l)))%nat →
    find_if (collects (fragment_id e)) (<[i := new]> (reassembly (expire time l))) = Some i →
    ∃ i' l', @Ok Remote.Error _ (i, expire time l <| reassembly ::= <[i := new]> |>) = Ok (i', l')
      ∧ collecting e (time + reassembly_timeout) 0 [] l' ∧ collects_at i' e l').
  { intros i Hi Hf. eexists i, _. split; [done|]. split; [|exact Hf]. split.
    - apply set_reassembly_wf; [done|]. split; simpl; [apply length_replicate|lia].
    - exists i, new. split; [exact Hf|]. by split; [apply list_lookup_insert_eq|]. }
  assert (Hnew : collects (fragment_id e) new = true) by (unfold collects; simpl; by rewrite Z.eqb_refl).
  destruct (find_if (collects (fragment_id e)) _) as [i|] eqn:Hi.
  - apply Hput; [by eapply find_if_bound|]. by apply find_if_insert_same.
  - destruct (find_if (λ s, negb _) (reassembly (expire time l))) as [i|] eqn:Hf.
    + pose proof (find_if_bound _ _ _ Hf) as Hb. apply Hput; [done|]. apply find_if_none in Hi.
      destruct (find_if (collects (fragment_id e)) (<[i:=new]> (reassembly (expire time l)))) as [j|] eqn:Hj.
      * apply find_if_some in Hj as (x & Hx & Hcol & Hmin). destruct (decide (j = i)) as [->|Hne]; [done|].
        rewrite list_lookup_insert_ne in Hx by done.
        rewrite (list.Forall_lookup_1 _ _ _ _ Hi Hx) in Hcol. done.
      * apply find_if_none in Hj. pose proof (list.Forall_lookup_1 _ _ i new Hj) as Hno.
        rewrite Hno in Hnew; [done|]. by apply list_lookup_insert_eq.
    + exfalso. apply find_if_none in Hi, Hf. apply existsb_exists in Hroom as (s & Hs%list_elem_of_In & Hs').
      assert (Hin : expire_slot time s ∈ reassembly (expire time l)) by (simpl; by apply list_elem_of_fmap_2).
      pose proof (proj1 (list.Forall_forall _ _) Hi _ Hin) as H1. pose proof (proj1 (list.Forall_forall _ _) Hf _ Hin) as H2.
      unfold expire_slot in H1, H2. destruct (expired time s); [done|].
      rewrite H1, orb_false_r in Hs'. simpl in H2. destruct (ra_active s); done.
Qed.

(** The fragments in order: all but the last give nothing, the last the whole
    message. *)
Lemma reassemble_piece a deadline k bytes time d l :
  piece_of a k d → fragmenting a → (Z.of_nat k < fragment_count a) →
  (length bytes + length (payload d) ≤ message_bytes)%nat → reassembly_wf l →
  (if k is O then has_room time (fragment_id a) l = true ∧ envelope d = a ∧ bytes = []
                  ∧ deadline = time + reassembly_timeout
   else collecting a deadline k bytes l ∧ time < deadline) →
  let last := Z.of_nat k + 1 =? fragment_count a in
  ∃ l', reassemble time d l
        = Some (Ok (if last then Some (mkDecoded (whole_envelope a) (bytes ++ payload d)) else None), l')
    ∧ reassembly_wf l' ∧ (last = false → collecting a deadline (S k) (bytes ++ payload d) l').
Proof.
  intros Hpiece Hfrag Hlt Hfit Hwf Hk last. pose proof Hpiece as [Hid Hix Hsame Hfl Hfinal].
  pose proof Hfrag as [Hid0 Hcount].
  assert (Hcount' : fragment_count (envelope d) = fragment_count a).
  { unfold same_message in Hsame. rewrite !andb_true_iff, !Z.eqb_eq in Hsame. tauto. }
  unfold reassemble. rewrite Hfl, Hid, Hix, Hfinal, Hcount'. cbn [negb andb orb].
  rewrite (proj2 (Z.leb_gt _ _)), (proj2 (Z.eqb_neq _ _)) by lia. cbn [orb]. rewrite eqb_reflx. cbn [negb].
  destruct k as [|k].
  - destruct Hk as (Hroom & Henv & -> & ->).
    destruct (place_first time (envelope d) l) as (i & l' & -> & Hco & Hat); [done|by rewrite Hid|done|].
    rewrite Henv in Hco, Hat. by apply (accept_next a _ 0 [] i d l').
  - destruct Hk as [Hco Htime]. pose proof (expire_collecting _ _ _ _ _ _ Hco Htime) as Hco'.
    pose proof (co_slot _ _ _ _ _ Hco') as (i & s & Hi & _). unfold fragment_place.
    rewrite Hix, Hid, (proj2 (Z.eqb_neq _ _)), Hi by lia. by apply (accept_next a deadline (S k) bytes i d).
Qed.

(** ** Arrivals *)

(** Frames in the order in which they arrive, each with its time, and the
    answers to those that carry the message. *)
Fixpoint reassemble_all (arrivals : list (Z * Decoded)) l :
    option (list (Wire.Result (option Decoded)) * LinkState) :=
  match arrivals with
  | [] => Some ([], l)
  | (time, d) :: rest =>
    '(r, l) ← reassemble time d l;
    '(rs, l) ← reassemble_all rest l;
    Some (r :: rs, l)
  end.
Fixpoint answers {R} (id : Z) (arrivals : list (Z * Decoded)) (results : list R) : list R :=
  match arrivals, results with
  | (_, d) :: rest, r :: rs => if carries id d then r :: answers id rest rs else answers id rest rs
  | _, _ => []
  end.
Definition carrying (id : Z) (arrivals : list (Z * Decoded)) : list Decoded :=
  List.filter (carries id) (map snd arrivals).
Definition joined (ds : list Decoded) : list Z := concat (map payload ds).
Definition answer_ok (d : option Decoded) : Wire.Result (option Decoded) := Ok d.

Lemma reassemble_others id arrivals l :
  reassembly_wf l → carrying id arrivals = [] →
  ∃ rs l', reassemble_all arrivals l = Some (rs, l') ∧ reassembly_wf l' ∧ answers id arrivals rs = [].
Proof.
  revert l. induction arrivals as [|[time d] rest IH]; intros l Hwf Hnone; simpl; [by eexists _, _|].
  unfold carrying in Hnone. simpl in Hnone. destruct (carries id d); [done|].
  destruct (reassemble_wf time d l Hwf) as (r & l1 & -> & Hwf1 & _). cbn [mbind option_bind].
  destruct (IH l1 Hwf1 Hnone) as (rs & l2 & -> & ? & ?). by eexists _, _.
Qed.

Lemma reassemble_rest a deadline ds k bytes arrivals l :
  fragmenting a → (∀ j d, ds !! j = Some d → piece_of a (k + j) d) →
  Z.of_nat k + Z.of_nat (length ds) = fragment_count a → ds ≠ [] → k ≠ 0%nat →
  (length (bytes ++ joined ds) ≤ message_bytes)%nat →
  collecting a deadline k bytes l → Forall (λ x, x.1 < deadline) arrivals →
  carrying (fragment_id a) arrivals = ds →
  ∃ rs l', reassemble_all arrivals l = Some (rs, l') ∧ reassembly_wf l'
    ∧ answers (fragment_id a) arrivals rs
      = replicate (pred (length ds)) (answer_ok None)
        ++ [answer_ok (Some (mkDecoded (whole_envelope a) (bytes ++ joined ds)))].
Proof.
  intros Hfrag. revert ds k bytes l. induction arrivals as [|[time d] rest IH];
    intros ds k bytes l Hds Hcount Hne Hk Hsize Hco Htimes Hcar; [by subst ds|].
  apply list.Forall_cons in Htimes as [Htime Htimes]. simpl in Htime. cbn [reassemble_all answers].
  unfold carrying in Hcar. cbn [map List.filter snd] in Hcar. destruct (carries (fragment_id a) d) eqn:Hd.
  - destruct ds as [|d' ds]; [done|]. injection Hcar as <- Hcar. pose proof (Hds 0%nat d eq_refl) as Hpiece.
    rewrite Nat.add_0_r in Hpiece. unfold joined in Hsize |- *. cbn [map concat] in Hsize |- *.
    rewrite !length_app in Hsize. cbn [length] in Hcount.
    destruct (reassemble_piece a deadline k bytes time d l) as (l1 & Hr & Hwf1 & Hco1);
      [done|done|lia|lia|by apply co_wf in Hco|by destruct k|].
    rewrite Hr. cbn [mbind option_bind]. destruct ds as [|d2 ds].
    + rewrite (proj2 (Z.eqb_eq _ _)) by (simpl in Hcount; lia).
      destruct (reassemble_others (fragment_id a) rest l1 Hwf1 Hcar) as (rs & l2 & -> & Hwf2 & Hans).
      cbn [mbind option_bind]. eexists _, _. split; [done|]. split; [done|]. rewrite Hans. simpl. by rewrite app_nil_r.
    + rewrite (proj2 (Z.eqb_neq _ _)) in Hco1 |- * by (simpl in Hcount; lia).
      destruct (IH (d2 :: ds) (S k) (bytes ++ payload d) l1) as (rs & l2 & -> & Hwf2 & Hans);
        [|lia|done|done| |by apply Hco1|done|done|].
      * intros j e He. replace (S k + j)%nat with (k + S j)%nat by lia. by apply Hds.
      * unfold joined. rewrite !length_app. lia.
      * cbn [mbind option_bind]. eexists _, _. split; [done|]. split; [done|].
        rewrite Hans. unfold joined. simpl. by rewrite <-app_assoc.
  - destruct (reassemble_wf time d l (co_wf _ _ _ _ _ Hco)) as (r & l1 & -> & _ & Hkeep).
    cbn [mbind option_bind].
    destruct (IH ds k bytes l1) as (rs & l2 & -> & Hwf2 & Hans); [done..|by apply Hkeep|done|done|].
    cbn [mbind option_bind]. by eexists _, _.
Qed.

Lemma reassemble_message time d ds arrivals l
    (Hwf : reassembly_wf l) (Hfrag : fragmenting (envelope d))
    (Hpieces : ∀ k x, (d :: ds) !! k = Some x → piece_of (envelope d) k x)
    (Hcount : fragment_count (envelope d) = Z.of_nat (length (d :: ds)))
    (Hsize : (length (joined (d :: ds)) ≤ message_bytes)%nat)
    (Hroom : has_room time (fragment_id (envelope d)) l = true)
    (Htimes : Forall (λ x, x.1 < time + reassembly_timeout) arrivals)
    (Hcarrying : carrying (fragment_id (envelope d)) arrivals = ds) :
  ∃ results l', reassemble_all ((time, d) :: arrivals) l = Some (results, l') ∧ reassembly_wf l'
    ∧ answers (fragment_id (envelope d)) ((time, d) :: arrivals) results
      = replicate (length ds) (answer_ok None)
        ++ [answer_ok (Some (mkDecoded (whole_envelope (envelope d)) (joined (d :: ds))))].
Proof.
  pose proof (Hpieces 0%nat d eq_refl) as Hpiece. pose proof Hfrag as [_ Hone]. cbn [length] in Hcount.
  unfold joined in Hsize |- *. cbn [map concat] in Hsize |- *. rewrite length_app in Hsize. cbn [reassemble_all answers].
  destruct (reassemble_piece (envelope d) (time + reassembly_timeout) 0 [] time d l) as (l1 & Hr & Hwf1 & Hco1);
    [done|done|lia|simpl; lia|done|done|].
  rewrite Hr. cbn [mbind option_bind]. rewrite (piece_carries _ _ _ Hpiece).
  rewrite (proj2 (Z.eqb_neq _ _)) in Hco1 |- * by lia.
  destruct (reassemble_rest (envelope d) (time + reassembly_timeout) ds 1 (payload d) arrivals l1)
    as (rs & l2 & -> & Hwf2 & Hans); [done| |lia| |done| |by apply Hco1|done|done|].
  - intros j x Hx. by apply Hpieces.
  - intros ->. simpl in Hcount. lia.
  - unfold joined. rewrite length_app. lia.
  - cbn [mbind option_bind]. eexists _, _. split; [done|]. split; [done|]. rewrite Hans.
    destruct ds as [|d2 ds]; [simpl in Hcount; lia|]. done.
Qed.

(** C24: fragments that arrive in order are the message again, whatever
    arrives between them: if a slot is free for the first, and every later
    fragment arrives before the deadline that starts there, then each
    fragment but the last is answered with nothing, and the last with the
    payloads joined, under the envelope of the first fragment marked final
    and not fragmented.  Frames in between may be fragments of other
    messages, malformed or rejected for lack of room. *)
Theorem fragments_reassembled time d ds arrivals l
    (Hwf : reassembly_wf l) (Hfrag : fragmenting (envelope d))
    (Hpieces : ∀ k x, (d :: ds) !! k = Some x → piece_of (envelope d) k x)
    (Hcount : fragment_count (envelope d) = Z.of_nat (length (d :: ds)))
    (Hsize : (length (joined (d :: ds)) ≤ message_bytes)%nat)
    (Hroom : has_room time (fragment_id (envelope d)) l = true)
    (Htimes : Forall (λ x, x.1 < time + reassembly_timeout) arrivals)
    (Hcarrying : carrying (fragment_id (envelope d)) arrivals = ds) :
  ∃ results l', reassemble_all ((time, d) :: arrivals) l = Some (results, l') ∧ reassembly_wf l'
    ∧ answers (fragment_id (envelope d)) ((time, d) :: arrivals) results
      = replicate (length ds) (answer_ok None)
        ++ [answer_ok (Some (mkDecoded (whole_envelope (envelope d)) (joined (d :: ds))))].
Proof. by apply reassemble_message. Qed.
End Reassembling.
End Reassembling.
