(* ===== verification/RemoteSend.v ===== *)
(** * RemoteSend: the output of a link as a list of frames

    What a link still owes its peer: the frames in a lane and the fragments
    not yet staged.  The functions of the service thread move frames from the
    second to the first and from the first to the wire, in order, each once. *)
From stdpp Require Import prelude functions.
From S2P Require Import Prelude Status Wire Protocol ProtocolCodec Cobs Frame Interleave RemoteLink RemoteService.
Import RemoteLinks RemoteServices.

Open Scope Z_scope.
Open Scope solar_scope.

Module Sending.

(** ** Rings *)
Section Ring.
Context {A : Type}.
Implicit Types (slots : list A) (head size : nat).

Definition ring_items slots head size : list A :=
  omap (λ k, slots !! ((head + k) mod length slots)%nat) (seq 0 size).

Lemma mod_inj (n h i j : nat) :
  (i < n)%nat → (j < n)%nat → ((h + i) mod n = (h + j) mod n)%nat → i = j.
Proof.
  intros Hi Hj Heq. pose proof (Nat.div_mod_eq (h + i) n). pose proof (Nat.div_mod_eq (h + j) n).
  assert ((h + i) / n = (h + j) / n)%nat; [|nia].
  destruct (Nat.lt_trichotomy ((h + i) / n) ((h + j) / n)) as [Hlt|[|Hlt]]; [exfalso|done|exfalso]; nia.
Qed.

Lemma ring_push slots head size x :
  (size < length slots)%nat →
  ring_items (<[((head + size) mod length slots)%nat := x]> slots) head (S size)
  = ring_items slots head size ++ [x].
Proof.
  intros Hsize. unfold ring_items. rewrite length_insert, seq_S, omap_app. f_equal.
  - apply omap_ext. intros k Hk%elem_of_seq. apply list_lookup_insert_ne.
    intros Heq%mod_inj; [lia..|].  lia.
  - simpl. rewrite list_lookup_insert_eq; [done|]. apply Nat.mod_upper_bound. lia.
Qed.

Lemma ring_pop slots head size x :
  (head < length slots)%nat → slots !! head = Some x →
  ring_items slots head (S size) = x :: ring_items slots ((head + 1) mod length slots)%nat size.
Proof.
  intros Hh Hx. unfold ring_items. simpl. rewrite Nat.add_0_r, Nat.mod_small, Hx by done. f_equal.
  rewrite <-fmap_S_seq, omap_fmap. apply omap_ext. intros k _. simpl.
  replace ((head + 1) mod length slots + k)%nat with (k + (head + 1) mod length slots)%nat by lia.
  rewrite Nat.Div0.add_mod_idemp_r. by replace (k + (head + 1))%nat with (head + S k)%nat by lia.
Qed.

Lemma ring_clear slots head size x :
  (size < length slots)%nat → (head < length slots)%nat →
  ring_items (<[head := x]> slots) ((head + 1) mod length slots)%nat size
  = ring_items slots ((head + 1) mod length slots)%nat size.
Proof.
  intros Hsize Hh. unfold ring_items. rewrite length_insert. apply omap_ext. intros k Hk%elem_of_seq.
  apply list_lookup_insert_ne. rewrite Nat.Div0.add_mod_idemp_l. intros Heq.
  assert (0 = S k)%nat as ?; [|done]. apply (mod_inj (length slots) head); [lia..|].
  rewrite Nat.add_0_r, Nat.mod_small, Heq by done. f_equal. lia.
Qed.

Lemma ring_empty slots head size :
  (size ≤ length slots)%nat → (head < length slots)%nat → ring_items slots head size = [] → size = 0%nat.
Proof.
  destruct size as [|size]; [done|]. intros Hsize Hh.
  destruct (lookup_lt_is_Some_2 slots head Hh) as [x Hx]. by rewrite (ring_pop _ _ _ x).
Qed.
End Ring.

Section Sending.
Context `{C : Config} {Laws : ConfigLaws C} {P : Platform} {L : PlatformLaws P}.
Implicit Types (l : LinkState) (o : OutboundLane) (m : OutboundMessage).

(** ** Frames *)

(** An envelope without epoch and sequence, and a payload. *)
Definition View : Type := Envelope * list Z.
Definition stamp (epoch sequence : Z) (v : View) : View :=
  let e := v.1 in
  (mkEnvelope (major e) (minor e) (kind e) (flags e) epoch sequence (target e) (request_id e)
     (payload_size e) (fragment_id e) (fragment_index e) (fragment_count e) (reserved e), v.2).
Definition slot_view (slot : OutboundSlot) : View :=
  (slot_envelope slot 0 0, take (Z.to_nat (os_size slot)) (os_payload slot)).

Definition sendable (v : View) : Prop :=
  ∀ epoch sequence, is_u 32 epoch → is_u 32 sequence →
    frame_ok (stamp epoch sequence v).1 v.2 ∧ (length v.2 ≤ max_frame_payload)%nat.

(** ** Lanes *)
Definition outbound_wf (slot : OutboundSlot) : Prop :=
  length (os_payload slot) = frame_bytes ∧ 0 ≤ os_size slot ≤ Z.of_nat frame_bytes.
Record lane_wf o : Prop := {
  lw_slots : length (l_slots o) = lane_depth;
  lw_head : (l_head o < lane_depth)%nat;
  lw_size : (l_size o ≤ lane_depth)%nat;
  lw_each : Forall outbound_wf (l_slots o) }.
Definition queue o : list View := map slot_view (ring_items (l_slots o) (l_head o) (l_size o)).

Lemma empty_outbound_wf : outbound_wf empty_outbound.
Proof. split; [apply length_replicate|simpl; lia]. Qed.

(** A slot at the end of a lane. *)
Definition append_slot (slot : OutboundSlot) o : OutboundLane :=
  note (λ r, r <| occupied := true |>)
    (admit_slot o <| l_slots ::= <[((l_head o + l_size o) mod length (l_slots o))%nat := slot]> |>).
Lemma append_slot_wf slot o :
  lane_wf o → l_size o ≠ length (l_slots o) → outbound_wf slot →
  lane_wf (append_slot slot o) ∧ queue (append_slot slot o) = queue o ++ [slot_view slot].
Proof.
  intros [Hslots Hhead Hsize Heach] Hroom Hslot. split.
  - split; simpl; [by rewrite length_insert|done|lia|by apply Forall_insert].
  - unfold queue. simpl. rewrite ring_push by lia. by rewrite map_app.
Qed.

(** The front of a lane, and the lane without it. *)
Lemma front_slot v q o :
  lane_wf o → queue o = v :: q →
  ∃ slot, l_slots o !! l_head o = Some slot ∧ outbound_wf slot ∧ slot_view slot = v ∧ l_size o ≠ 0%nat
    ∧ ∃ o', pop_slot (clear_front o) = Some o' ∧ lane_wf o' ∧ queue o' = q.
Proof.
  intros [Hslots Hhead Hsize Heach] Hq.
  destruct (lookup_lt_is_Some_2 (l_slots o) (l_head o)) as [slot Hslot]; [lia|]. exists slot.
  split; [done|]. split; [by eapply list.Forall_lookup_1|]. unfold queue in Hq.
  destruct (l_size o) as [|size] eqn:Hn; [done|].
  rewrite (ring_pop _ _ _ slot) in Hq by (done || lia). cbn [map] in Hq. injection Hq as <- <-.
  split; [done|]. split; [done|]. unfold pop_slot, clear_front. simpl. rewrite Hn. simpl.
  eexists. split; [done|]. rewrite length_insert. split.
  - split; simpl; rewrite ?length_insert; [done|rewrite Hslots; apply Nat.mod_upper_bound; lia|rewrite Hn; simpl; lia|].
    apply Forall_insert; [done|apply empty_outbound_wf].
  - unfold queue. simpl. rewrite Hn. simpl. by rewrite ring_clear by lia.
Qed.

(** ** Fragments *)

(** Part [k] of a payload that is cut at the size of a frame. *)
Definition cut (bytes : list Z) (k : nat) : list Z := take max_frame_payload (drop (k * max_frame_payload) bytes).
Definition om_bytes m : list Z := take (Z.to_nat (om_size m)) (om_payload m).
Definition fragment_slot m (k : nat) : OutboundSlot :=
  mkOutboundSlot (om_kind m) (Z.lor (om_flags m) Flags_Fragmented) (om_request_id m) (om_target m) (om_reserved m)
    (Z.of_nat (length (cut (om_bytes m) k))) (om_fragment_id m) (Z.of_nat k) (om_fragment_count m)
    (cut (om_bytes m) k).
Definition fragments_from m (k : nat) : list View :=
  map (λ k, slot_view (fragment_slot m k)) (seq k (Z.to_nat (om_fragment_count m) - k)).

(** An active message of which [k] fragments are staged. *)
Record message_wf m (k : nat) : Prop := {
  mw_lane : om_lane m = Bulk;
  mw_payload : length (om_payload m) = message_bytes;
  mw_size : 0 ≤ om_size m ≤ Z.of_nat message_bytes;
  mw_count : (om_fragment_count m - 1) * Z.of_nat max_frame_payload < om_size m
             ≤ om_fragment_count m * Z.of_nat max_frame_payload;
  mw_index : om_fragment_index m = Z.of_nat k;
  mw_offset : om_offset m = Z.of_nat (k * max_frame_payload);
  mw_left : Z.of_nat k < om_fragment_count m ≤ 255 }.

Lemma max_frame_payload_range : (0 < max_frame_payload)%nat ∧ (max_frame_payload < frame_bytes)%nat.
Proof. pose proof frame_bytes_range. unfold max_frame_payload, envelope_size, crc_size. lia. Qed.

Lemma copy_from_take (bytes : list Z) n offset :
  (offset + n ≤ length bytes)%nat → copy_from n bytes offset = Some (take n (drop offset bytes)).
Proof.
  intros Hn. pose proof (copy_from_app (take offset bytes) (take n (drop offset bytes)) (drop (offset + n) bytes)) as Hc.
  rewrite !length_take, length_drop in Hc. rewrite <-drop_drop, !take_drop in Hc.
  by replace (n `min` (length bytes - offset))%nat with n in Hc by lia;
    replace (offset `min` length bytes)%nat with offset in Hc by lia.
Qed.

Lemma copy_to_start (bytes p : list Z) :
  (length p ≤ length bytes)%nat →
  ∃ bytes', copy_to bytes 0 p = Some bytes' ∧ length bytes' = length bytes ∧ take (length p) bytes' = p.
Proof. intros Hp. destruct (copy_to_prefix bytes 0 p) as (b & Hb & Hl & Ht); [lia|]. by exists b. Qed.

Lemma fill_slot_spec slot kind p request target flags reserved :
  outbound_wf slot → (length p ≤ frame_bytes)%nat →
  ∃ slot', fill_slot slot kind p request target flags reserved = Some slot' ∧ outbound_wf slot'
    ∧ take (Z.to_nat (os_size slot')) (os_payload slot') = p
    ∧ os_kind slot' = kind ∧ os_flags slot' = flags ∧ os_request_id slot' = request ∧ os_target slot' = target
    ∧ os_reserved slot' = reserved ∧ os_fragment_id slot' = os_fragment_id slot
    ∧ os_fragment_index slot' = os_fragment_index slot ∧ os_fragment_count slot' = os_fragment_count slot.
Proof.
  intros [Hlen Hsize] Hp. unfold fill_slot. pose proof frame_bytes_range.
  destruct (copy_to_start (os_payload slot) p) as (bytes & -> & Hb & Ht); [lia|]. cbn [mbind option_bind].
  assert (Hw : u16 (Z.of_nat (length p)) = Z.of_nat (length p)) by (apply wrap_small; word_lia).
  eexists. split; [done|]. split; [split; simpl; rewrite ?Hw; lia|]. simpl. rewrite Hw, Nat2Z.id.
  by repeat split.
Qed.

(** ** What a link owes *)
Definition inactive_but (i : nat) l : Prop :=
  ∀ j m, outbound_messages l !! j = Some m → j ≠ i → om_active m = false.
Definition remaining (b : nat) (rest : list View) l : Prop :=
  match rest with
  | [] => Forall (λ m, om_active m = false) (outbound_messages l)
  | _ => b = lane_index Bulk ∧ ∃ i m k, outbound_messages l !! i = Some m ∧ om_active m = true
      ∧ inactive_but i l ∧ message_wf m k ∧ rest = fragments_from m k
  end.

(** The only lane in use is [b], with the frames [q]; [rest] is not yet
    staged. *)
Record sending (b : nat) (q rest : list View) l : Prop := {
  sd_lanes : length (lanes l) = 5%nat;
  sd_lane : ∃ o, lanes l !! b = Some o ∧ lane_wf o ∧ queue o = q;
  sd_others : ∀ j o, lanes l !! j = Some o → j ≠ b → l_size o = 0%nat;
  sd_remaining : remaining b rest l;
  sd_quiet : find_if (λ r, rs_valid r && negb (rs_staged r)) (responses l) = None;
  sd_scratch : length (tx_scratch l) = frame_bytes;
  sd_encoded : length (tx_encoded l) = max_encoded_size frame_bytes;
  sd_epoch : is_u 32 (epoch l);
  sd_connected : connected l = true;
  sd_sendable : Forall sendable (q ++ rest) }.

(** What of a link the driver sees. *)
Definition line l : bool * option OutputLane * LeaseHandle * Z :=
  (tx_in_flight l, transmitting_lane l, transmitting_handle l, epoch l).

Lemma find_active i l m :
  outbound_messages l !! i = Some m → om_active m = true → inactive_but i l →
  find_if om_active (outbound_messages l) = Some i.
Proof.
  intros Hm Hact Hothers. destruct (find_if om_active (outbound_messages l)) as [j|] eqn:Hj.
  - apply find_if_some in Hj as (x & Hx & Hxa & _). destruct (decide (j = i)) as [->|Hne]; [done|].
    by rewrite (Hothers j x Hx Hne) in Hxa.
  - apply find_if_none in Hj. pose proof (list.Forall_lookup_1 _ _ _ _ Hj Hm). congruence.
Qed.

Lemma fragments_from_cons m k :
  message_wf m k → fragments_from m k = slot_view (fragment_slot m k) :: fragments_from m (S k).
Proof.
  intros [_ _ _ _ _ _ Hleft]. unfold fragments_from.
  by replace (Z.to_nat (om_fragment_count m) - k)%nat with (S (Z.to_nat (om_fragment_count m) - S k)) by lia.
Qed.

Lemma remaining_active b l i m k :
  b = lane_index Bulk → outbound_messages l !! i = Some m → om_active m = true → inactive_but i l →
  message_wf m k → remaining b (fragments_from m k) l.
Proof.
  intros Hb Hm Hact Hin Hwf. pose proof (fragments_from_cons m k Hwf) as Hcons.
  unfold remaining. rewrite Hcons. split; [done|]. exists i, m, k. by rewrite Hcons.
Qed.

(** The bytes of fragment [k], and where the next one starts. *)
Lemma cut_length m k :
  message_wf m k →
  Z.of_nat (length (cut (om_bytes m) k)) = Z.min (om_size m - om_offset m) (Z.of_nat max_frame_payload)
  ∧ 0 < om_size m - om_offset m ≤ Z.of_nat message_bytes.
Proof.
  intros [_ Hlen Hsize Hcount _ Hoff Hleft]. unfold cut, om_bytes. rewrite Hoff.
  pose proof max_frame_payload_range as [Hpos _].
  assert (Z.of_nat (k * max_frame_payload) ≤ (om_fragment_count m - 1) * Z.of_nat max_frame_payload) by nia.
  rewrite length_take, length_drop, length_take, Hlen. lia.
Qed.

Definition staged m (size : Z) : OutboundMessage :=
  let offset := u32 (om_offset m + size) in
  m <| om_offset := offset |> <| om_fragment_index ::= λ i, u8 (i + 1) |> <| om_active := negb (offset =? om_size m) |>.

Lemma staged_wf m k :
  message_wf m k →
  let m' := staged m (Z.of_nat (length (cut (om_bytes m) k))) in
  fragments_from m' (S k) = fragments_from m (S k) ∧
  (if om_active m' then message_wf m' (S k) else fragments_from m (S k) = []).
Proof.
  intros Hwf m'. split; [done|]. destruct (cut_length m k Hwf) as [Hcut Hbytes].
  pose proof Hwf as [Hlane Hlen Hsize Hcount Hix Hoff Hleft]. pose proof message_bytes_range.
  pose proof max_frame_payload_range as [Hpos _].
  assert (Hnext : u32 (om_offset m + Z.of_nat (length (cut (om_bytes m) k)))
                  = Z.min (om_size m) (Z.of_nat (S k * max_frame_payload))).
  { rewrite Hcut, wrap_small by word_lia. lia. }
  assert (Hactive : om_active m' = negb (Z.min (om_size m) (Z.of_nat (S k * max_frame_payload)) =? om_size m))
    by (unfold m', staged; simpl; by rewrite Hnext).
  rewrite Hactive. destruct (Z.eqb_spec (Z.min (om_size m) (Z.of_nat (S k * max_frame_payload))) (om_size m)) as [Hlast|Hmore].
  - simpl. unfold fragments_from.
    replace (Z.to_nat (om_fragment_count m) - S k)%nat with 0%nat; [done|].
    assert (om_fragment_count m - 1 < Z.of_nat (S k)) by nia. lia.
  - simpl. split; simpl; [done..| | |].
    + rewrite Hix, wrap_small by word_lia. lia.
    + rewrite Hnext. lia.
    + split; [|lia]. nia.
Qed.

Lemma fragment_slot_view m k slot :
  os_kind slot = om_kind m → os_flags slot = Z.lor (om_flags m) Flags_Fragmented →
  os_request_id slot = om_request_id m → os_target slot = om_target m → os_reserved slot = om_reserved m →
  os_fragment_id slot = om_fragment_id m → os_fragment_index slot = Z.of_nat k →
  os_fragment_count slot = om_fragment_count m →
  take (Z.to_nat (os_size slot)) (os_payload slot) = cut (om_bytes m) k →
  slot_view slot = slot_view (fragment_slot m k).
Proof.
  intros H1 H2 H3 H4 H5 H6 H7 H8 H9. unfold slot_view, slot_envelope. rewrite H1, H2, H3, H4, H5, H6, H7, H8, H9.
  unfold fragment_slot. simpl. by rewrite Nat2Z.id, (take_ge (cut (om_bytes m) k)).
Qed.

Lemma stage_fragment_spec b q rest l :
  sending b q rest l →
  ∃ q' rest' l', stage_fragment l = Some (tt, l') ∧ sending b q' rest' l' ∧ q' ++ rest' = q ++ rest
    ∧ (q' = [] → rest' = []) ∧ line l' = line l.
Proof.
  intros Hs. pose proof Hs as [Hlanes (o & Ho & Hwf & Hq) Hothers Hrem Hquiet Hscr Henc Hep Hcon Hsend].
  destruct rest as [|v rest].
  { exists q, [], l. unfold stage_fragment. rewrite (proj2 (find_if_none _ _)) by done. by split_and!. }
  destruct Hrem as (-> & i & m & k & Hm & Hact & Hin & Hmwf & Hrest). pose proof lane_depth_range.
  pose proof Hmwf as [Hlane Hlen Hsize Hcount Hix Hoff Hleft]. destruct (cut_length m k Hmwf) as [Hcut Hbytes].
  pose proof message_bytes_range. pose proof max_frame_payload_range as [Hpos Hmax].
  unfold stage_fragment. rewrite (find_active i l m), Hm by done. cbn [mbind option_bind].
  unfold lane_of. rewrite Hlane, Ho. cbn [mbind option_bind].
  pose proof Hwf as [Hslots Hhead Hlsize Heach].
  destruct (Nat.eqb_spec (l_size o) (length (l_slots o))) as [Hfull|Hfree].
  { exists q, (v :: rest), l. split; [done|]. split; [done|]. split; [done|]. split; [|done]. intros ->.
    unfold queue in Hq. apply fmap_nil_inv, ring_empty in Hq; lia. }
  destruct (lookup_lt_is_Some_2 (l_slots o) ((l_head o + l_size o) mod length (l_slots o))) as [slot Hslot];
    [apply Nat.mod_upper_bound; lia|].
  rewrite Hslot. cbn [mbind option_bind].
  rewrite (wrap_small 32 (om_size m - om_offset m)) by word_lia. rewrite <-Hcut, Nat2Z.id.
  rewrite copy_from_take by lia. cbn [mbind option_bind].
  assert (Hchunk : take (length (cut (om_bytes m) k)) (drop (Z.to_nat (om_offset m)) (om_payload m)) = cut (om_bytes m) k).
  { clear -Hoff Hcut Hsize. set (n := length _) in *. unfold cut, om_bytes. rewrite skipn_firstn_comm, take_take.
    rewrite Hoff, Nat2Z.id. f_equal. lia. }
  rewrite Hchunk.
  destruct (fill_slot_spec slot (om_kind m) (cut (om_bytes m) k) (om_request_id m) (om_target m)
    (Z.lor (om_flags m) Flags_Fragmented) (om_reserved m)) as (slot' & -> & Hswf & Hview & H1 & H2 & H3 & H4 & H5 & _);
    [by eapply list.Forall_lookup_1|lia|]. cbn [mbind option_bind].
  set (slot2 := slot' <| os_fragment_id := _ |> <| os_fragment_index := _ |> <| os_fragment_count := _ |>).
  change (note _ _) with (append_slot slot2 o).
  change (m <| om_offset := _ |> <| om_fragment_index ::= _ |> <| om_active := _ |>)
    with (staged m (Z.of_nat (length (cut (om_bytes m) k)))).
  change (om_lane (staged m _)) with (om_lane m). rewrite Hlane.
  destruct (append_slot_wf slot2 o Hwf Hfree Hswf) as [Hwf' Hq'].
  assert (Hv : slot_view slot2 = v).
  { rewrite (fragments_from_cons m k Hmwf) in Hrest. injection Hrest as -> _.
    by apply fragment_slot_view. }
  exists (q ++ [v]), rest. eexists. split; [done|]. split; [|split; [by rewrite <-app_assoc|split; [by destruct q|done]]].
  split; simpl; try done.
  - by rewrite length_insert.
  - exists (append_slot slot2 o). split; [apply list_lookup_insert_eq; by eapply lookup_lt_Some|].
    split; [done|]. by rewrite Hq', Hq, Hv.
  - intros j o' Ho' Hne. rewrite list_lookup_insert_ne in Ho' by done. by eapply Hothers.
  - rewrite (fragments_from_cons m k Hmwf) in Hrest. injection Hrest as _ ->.
    destruct (staged_wf m k Hmwf) as [Hfr Hst]. destruct (om_active (staged m _)) eqn:Hactive.
    + rewrite <-Hfr. eapply remaining_active; [done| |done| |exact Hst].
      * apply list_lookup_insert_eq. by eapply lookup_lt_Some.
      * intros j m' Hm' Hne. simpl in Hm'. rewrite list_lookup_insert_ne in Hm' by done. by eapply Hin.
    + rewrite Hst. simpl. apply list.Forall_lookup. intros j m' Hm'.
      destruct (decide (j = i)) as [->|Hne].
      * rewrite list_lookup_insert_eq in Hm' by (by eapply lookup_lt_Some). by injection Hm' as <-.
      * rewrite list_lookup_insert_ne in Hm' by done. by eapply Hin.
  - by rewrite <-app_assoc.
Qed.

(** ** From a lane to the driver *)
Lemma lane_index_at b : (b < 5)%nat → lane_index (lane_at b) = b.
Proof. intros Hb. do 5 (destruct b as [|b]; [done|]). lia. Qed.

Lemma sending_bound b q rest l : sending b q rest l → (b < 5)%nat.
Proof. intros [Hlanes (o & Ho & _)]. apply lookup_lt_Some in Ho. lia. Qed.

(** Replacing the lane in use, and other fields than the output. *)
Lemma sending_lane b q q' rest l l' o' :
  sending b q rest l → lane_wf o' → queue o' = q' → lanes l' = <[b := o']> (lanes l) →
  outbound_messages l' = outbound_messages l → responses l' = responses l →
  length (tx_scratch l') = frame_bytes → length (tx_encoded l') = max_encoded_size frame_bytes →
  epoch l' = epoch l → connected l' = connected l → Forall sendable (q' ++ rest) →
  sending b q' rest l'.
Proof.
  intros [Hlanes (o & Ho & Hwf & Hq) Hothers Hrem Hquiet Hscr Henc Hep Hcon Hsend]
    Hwf' Hq' Hl Hm Hr Hs He Hepoch Hconn Hsend'.
  split; rewrite ?Hl, ?Hm, ?Hr, ?Hepoch, ?Hconn; try done.
  - by rewrite length_insert.
  - exists o'. split; [apply list_lookup_insert_eq; by eapply lookup_lt_Some|done].
  - intros j x Hx Hne. rewrite list_lookup_insert_ne in Hx by done. by eapply Hothers.
  - unfold remaining, inactive_but in *. by rewrite Hm.
Qed.

Lemma first_nonempty b q rest l :
  sending b q rest l →
  find_if (λ o, negb (l_size o =? 0)%nat) (lanes l) = match q with [] => None | _ => Some b end.
Proof.
  intros [Hlanes (o & Ho & Hwf & Hq) Hothers _ _ _ _ _ _ _].
  assert (Hb : match q with [] => l_size o = 0%nat | _ => l_size o ≠ 0%nat end).
  { destruct q as [|v q].
    - unfold queue in Hq. apply fmap_nil_inv in Hq. destruct Hwf. eapply ring_empty; [| |exact Hq]; lia.
    - by destruct (front_slot v q o Hwf Hq) as (_ & _ & _ & _ & ? & _). }
  destruct (find_if _ (lanes l)) as [j|] eqn:Hj.
  - apply find_if_some in Hj as (x & Hx & Hxs%negb_true_iff%Nat.eqb_neq & _).
    destruct (decide (j = b)) as [->|Hne]; [|by rewrite (Hothers j x) in Hxs].
    assert (x = o) as -> by congruence. by destruct q.
  - apply find_if_none in Hj. pose proof (list.Forall_lookup_1 _ _ _ _ Hj Ho) as Hz.
    apply negb_false_iff, Nat.eqb_eq in Hz. by destruct q.
Qed.

Lemma room_for_frame (v : View) :
  (length v.2 ≤ max_frame_payload)%nat →
  (frame_size v.2 ≤ frame_bytes)%nat ∧ (max_encoded_size (frame_size v.2) ≤ max_encoded_size frame_bytes)%nat.
Proof.
  intros Hfit. pose proof max_frame_payload_range. pose proof frame_bytes_range.
  assert (Hroom : (frame_size v.2 ≤ frame_bytes)%nat).
  { unfold frame_size, max_frame_payload, envelope_size, crc_size in *. lia. }
  split; [done|]. unfold max_encoded_size.
  pose proof (Nat.Div0.div_le_mono (frame_size v.2) frame_bytes 254 Hroom). lia.
Qed.

Lemma begin_transmit_spec b q rest l :
  sending b q rest l → tx_in_flight l = false →
  match q with
  | [] => begin_transmit l = Some (None, l)
  | v :: _ => ∃ frame handle sequence l', begin_transmit l = Some (Some (frame, handle, lane_at b), l')
      ∧ is_u 32 sequence ∧ transmits (stamp (epoch l) sequence v) frame
      ∧ line l' = (true, Some (lane_at b), handle, epoch l) ∧ sending b q rest l'
  end.
Proof.
  intros Hs Hidle. pose proof (first_nonempty b q rest l Hs) as Hfirst. pose proof (sending_bound _ _ _ _ Hs) as Hb.
  pose proof Hs as [Hlanes (o & Ho & Hwf & Hq) Hothers Hrem Hquiet Hscr Henc Hep Hcon Hsend].
  unfold begin_transmit. rewrite Hidle, Hcon, Hfirst. cbn [negb orb].
  destruct q as [|v q]; [done|]. rewrite Ho. cbn [mbind option_bind].
  destruct (front_slot v q o Hwf Hq) as (slot & -> & [Hlen Hsize] & Hview & _). cbn [mbind option_bind].
  set (sequence := inc32 (tx_sequence l)). set (l0 := l <| tx_sequence := sequence |>).
  assert (Hseq : is_u 32 sequence) by (apply wrap_range; lia).
  rewrite first_some by lia. cbn [mbind option_bind].
  change (slot_envelope slot (epoch l0) sequence) with (stamp (epoch l) sequence (slot_view slot)).1.
  change (take (Z.to_nat (os_size slot)) (os_payload slot)) with (slot_view slot).2. rewrite Hview.
  apply list.Forall_cons in Hsend as [Hv Hsend]. destruct (Hv (epoch l) sequence Hep Hseq) as [Hok Hfit].
  destruct (room_for_frame v Hfit) as [Hroom Hroom'].
  change (tx_scratch l0) with (tx_scratch l). change (tx_encoded l0) with (tx_encoded l).
  destruct (encode_decode_frame (stamp (epoch l) sequence v).1 v.2 (tx_scratch l) (tx_encoded l))
    as (bytes & tail & Hencode & _ & _ & Hlen' & _); [done|lia..|].
  rewrite Hencode. cbn [mbind option_bind succeed]. rewrite first_some by len. cbn [mbind option_bind].
  eexists _, _, sequence, _. split; [done|]. split; [done|]. split; [|split; [done|]].
  - exists (tx_scratch l), (tx_encoded l), (S (length bytes)), (bytes ++ 0 :: tail).
    split; [done|]. split; [by rewrite Hscr|]. split; [by rewrite Henc|done].
  - rewrite encode_frame in Hencode by (done || lia). apply cobs_encode_length in Hencode.
    eapply (sending_lane b (v :: q) (v :: q) rest l _ (note (λ r, r <| transmitting := true |>) o)); try done.
    + by destruct Hwf.
    + simpl. by rewrite lane_index_at.
    + simpl. lia.
    + by constructor.
Qed.

(** The driver takes the frame, or is busy. *)
Lemma transmit_accepted_spec b v q rest l :
  sending b (v :: q) rest l →
  ∃ l', transmit_accepted (lane_at b) l = Some (tt, l') ∧ sending b q rest l' ∧ line l' = line l.
Proof.
  intros Hs. pose proof (sending_bound _ _ _ _ Hs) as Hb.
  pose proof Hs as [_ (o & Ho & Hwf & Hq) _ _ _ Hscr Henc _ _ Hsend].
  destruct (front_slot v q o Hwf Hq) as (slot & _ & _ & _ & _ & o' & Hpop & Hwf' & Hq').
  unfold transmit_accepted, lane_of. rewrite lane_index_at, Ho by done. cbn [mbind option_bind]. rewrite Hpop.
  cbn [mbind option_bind]. eexists. split; [done|]. split; [|done].
  apply (sending_lane b (v :: q) q rest l _ o'); try done.
  - unfold set_lane. simpl. by rewrite lane_index_at.
  - by apply list.Forall_cons in Hsend as [_ ?].
Qed.

Lemma transmit_refused_spec b q rest l :
  sending b q rest l →
  ∃ l', transmit_refused (lane_at b) (Some TxBusy) l = Some (tt, l') ∧ sending b q rest l'
    ∧ line l' = (false, None, no_lease, epoch l).
Proof.
  intros Hs. pose proof (sending_bound _ _ _ _ Hs) as Hb.
  pose proof Hs as [_ (o & Ho & Hwf & Hq) _ _ _ Hscr Henc _ _ Hsend].
  unfold transmit_refused, lane_of. rewrite lane_index_at, Ho by done. cbn [mbind option_bind].
  eexists. split; [done|]. split; [|done].
  apply (sending_lane b q q rest l _ (note (λ r, r <| transmitting := false |>) o)); try done.
  - by destruct Hwf.
  - unfold set_lane. simpl. by rewrite lane_index_at.
Qed.
End Sending.
End Sending.
