(* ===== verification/RemoteDrive.v ===== *)
(** * RemoteDrive: a link drains what it owes

    Any sequence of turns of the service thread on a link, and of completions
    by its driver, puts the frames the link owes on the wire in order, each
    once; a turn the driver accepts after a completion sends one more. *)
From stdpp Require Import prelude functions.
From S2P Require Import Prelude Status Wire Protocol ProtocolCodec Cobs Frame Interleave RemoteLink RemoteService RemoteSend.
Import RemoteLinks RemoteServices Sending.

Open Scope Z_scope.
Open Scope solar_scope.

Module Driving.
Section Driving.
Context `{C : Config} {Laws : ConfigLaws C} {P : Platform} {L : PlatformLaws P}.
Context {A : Type} `{!Application A}.
Local Abbreviation State := (RemoteLinks.State A).
Local Abbreviation Program := (RemoteLinks.Program A).
Implicit Types (s : State) (l : LinkState).

(** A turn: the link is looked at, because output was queued or the loop of
    the service came round, or the driver reports that it has sent the frame
    in flight. *)
Record Turn : Set := mkTurn { turn_env : Env; completes : option Z }.
Definition turn_program (i : nat) (t : Turn) s : Program unit :=
  match completes t with
  | Some size =>
    if tx_in_flight (links s i)
    then process_link_event i (mkLinkEvent TxComplete (transmitting_handle (links s i)) size)
    else try_start_transmit i
  | None => try_start_transmit i
  end.
Definition turn (i : nat) (t : Turn) s : option State :=
  '(_, s) ← alone (turn_env t) (turn_program i t s) s; Some s.
Fixpoint drive (i : nat) (ts : list Turn) s : option State :=
  match ts with
  | [] => Some s
  | t :: ts => s ← turn i t s; drive i ts s
  end.

(** The driver accepts a frame or is busy; [advances] is a turn in which it
    has completed and accepts. *)
Definition responsive (i : nat) (t : Turn) : Prop := transmit_answer (turn_env t) i ≠ None.
Definition accepts (i : nat) (t : Turn) : bool :=
  match transmit_answer (turn_env t) i with Some TxAccepted => true | _ => false end.
Definition advances (i : nat) (t : Turn) : bool :=
  accepts i t && match completes t with Some _ => true | None => false end.

Lemma alone_section {B} e i (f : LinkState → option (B * LinkState)) s b l :
  f (links s i) = Some (b, l) → alone e (section i f) s = Some (b, s <| links ::= <[i := l]> |>).
Proof. intros Hf. simpl. by rewrite Hf. Qed.

Lemma alone_step {B D} e (f : Env → State → D * State) (k : D → Program B) s :
  alone e (Then f k) s = alone e (k (f e s).1) (f e s).2.
Proof. simpl. by destruct (f e s). Qed.

Definition in_flight_on (b : nat) l : Prop :=
  tx_in_flight l = true → transmitting_lane l = Some (lane_at b).
Definition sent_as (epoch : Z) (v : View) (frame : list Z) : Prop :=
  ∃ sequence, is_u 32 sequence ∧ transmits (stamp epoch sequence v) frame.

(** What a piece of a run does to link [i]. *)
Record progress (b i : nat) (q rest : list View) s s' (sent q' rest' : list View) : Prop := {
  pg_sending : sending b q' rest' (links s' i);
  pg_flight : in_flight_on b (links s' i);
  pg_epoch : epoch (links s' i) = epoch (links s i);
  pg_wire : ∃ frames, wire s' = wire s ++ map (pair i) frames ∧ Forall2 (sent_as (epoch (links s i))) sent frames;
  pg_order : sent ++ q' ++ rest' = q ++ rest }.

Lemma progress_trans b i q rest s s1 s2 sent1 q1 rest1 sent2 q2 rest2 :
  progress b i q rest s s1 sent1 q1 rest1 → progress b i q1 rest1 s1 s2 sent2 q2 rest2 →
  progress b i q rest s s2 (sent1 ++ sent2) q2 rest2.
Proof.
  intros [_ _ He1 (f1 & Hw1 & Hf1) Ho1] [Hs2 Hfl2 He2 (f2 & Hw2 & Hf2) Ho2]. split; [done|done|congruence| |].
  - exists (f1 ++ f2). rewrite Hw2, Hw1, map_app, app_assoc. split; [done|]. apply Forall2_app; [done|]. by rewrite <-He1.
  - by rewrite <-app_assoc, Ho2.
Qed.

(** The counters do not matter. *)
Lemma count_frame_spec b q rest l :
  sending b q rest l →
  sending b q rest (l <| transmitted_frames ::= inc32 |>) ∧ line (l <| transmitted_frames ::= inc32 |>) = line l.
Proof. intros [Hlanes Hlane Hothers Hrem Hquiet Hscr Henc Hep Hcon Hsend]. by split. Qed.
Lemma count_bytes_spec b q rest l size :
  sending b q rest l →
  sending b q rest (l <| transmitted_bytes ::= λ n, u32 (n + size) |>)
  ∧ line (l <| transmitted_bytes ::= λ n, u32 (n + size) |>) = line l.
Proof. intros [Hlanes Hlane Hothers Hrem Hquiet Hscr Henc Hep Hcon Hsend]. by split. Qed.

Lemma poke_spec e b i q rest s :
  sending b q rest (links s i) → in_flight_on b (links s i) → transmit_answer e i ≠ None →
  ∃ s' sent q' rest', alone e (try_start_transmit i) s = Some (tt, s') ∧ progress b i q rest s s' sent q' rest'
    ∧ (tx_in_flight (links s i) = false → transmit_answer e i = Some TxAccepted → q ++ rest ≠ [] → length sent = 1%nat).
Proof.
  intros Hs Hflight Hanswer. unfold try_start_transmit, stage_response. rewrite !alone_bind.
  assert (Hstage : stage_output (links s i) = Some (false, links s i)).
  { unfold stage_output. by rewrite (sd_quiet _ _ _ _ Hs). }
  rewrite (alone_section e i _ s false (links s i) Hstage). cbn [mbind option_bind alone].
  set (s1 := s <| links ::= _ |>).
  assert (Hl1 : links s1 i = links s i) by (simpl; apply fn_lookup_insert).
  destruct (stage_fragment_spec b q rest (links s i) Hs) as (q' & rest' & l' & Hfrag & Hs' & Horder & Hnone & Hline).
  rewrite alone_bind, (alone_section e i _ s1 tt l') by by rewrite Hl1. cbn [mbind option_bind].
  set (s2 := s1 <| links ::= _ |>).
  assert (Hl2 : links s2 i = l') by (simpl; apply fn_lookup_insert).
  injection Hline as Hl'f Hl't Hl'h Hl'e. rewrite alone_bind.
  destruct (tx_in_flight (links s i)) eqn:Hbusy.
  - assert (Hbegin : begin_transmit (links s2 i) = Some (None, l')).
    { rewrite Hl2. unfold begin_transmit. by rewrite Hl'f. }
    rewrite (alone_section e i _ s2 None l' Hbegin). cbn [mbind option_bind alone].
    eexists _, [], q', rest'. split; [done|]. split; [|done].
    split; simpl; rewrite ?fn_lookup_insert; [done| |done| |done].
    + intros _. rewrite Hl't. by apply Hflight.
    + exists []. by rewrite app_nil_r.
  - pose proof (begin_transmit_spec b q' rest' l' Hs' Hl'f) as Hbegin. destruct q' as [|v q'].
    + rewrite (alone_section e i _ s2 None l') by by rewrite Hl2. cbn [mbind option_bind alone].
      eexists _, [], [], rest'. split; [done|]. rewrite (Hnone eq_refl) in *. split; [|by rewrite <-Horder].
      split; simpl; rewrite ?fn_lookup_insert; [done| |done| |done].
      * intros Htrue. congruence.
      * exists []. by rewrite app_nil_r.
    + destruct Hbegin as (frame & handle & sequence & l3 & Hb & Hseq & Htr & Hl3 & Hs3).
      rewrite (alone_section e i _ s2 (Some (frame, handle, lane_at b)) l3) by by rewrite Hl2.
      cbn [mbind option_bind]. set (s3 := s2 <| links ::= _ |>).
      assert (Hl3s : links s3 i = l3) by (simpl; apply fn_lookup_insert).
      injection Hl3 as Hf3 Ht3 Hh3 He3. rewrite alone_step. unfold submit.
      destruct (transmit_answer e i) as [[|]|]; [| |done]; cbn [fst snd].
      * rewrite alone_step. cbn [fst snd]. destruct (count_frame_spec b (v :: q') rest' l3 Hs3) as [Hs4 Hl4].
        destruct (transmit_accepted_spec b v q' rest' _ Hs4) as (l5 & Hacc & Hs5 & Hl5).
        rewrite (alone_section e i _ _ tt l5) by (simpl; by rewrite fn_lookup_alter, fn_lookup_insert).
        rewrite Hl4 in Hl5. injection Hl5 as Hf5 Ht5 Hh5 He5.
        eexists _, [v], q', rest'. split; [done|]. split; [|done]. split; simpl; rewrite ?fn_lookup_insert; [done| | | |done].
        -- intros _. by rewrite Ht5.
        -- congruence.
        -- exists [frame]. split; [done|]. constructor; [|constructor]. exists sequence. by rewrite <-Hl'e.
      * destruct (transmit_refused_spec b (v :: q') rest' l3 Hs3) as (l5 & Href & Hs5 & Hl5).
        rewrite (alone_section e i _ _ tt l5) by by rewrite Hl3s. injection Hl5 as Hf5 Ht5 Hh5 He5.
        eexists _, [], (v :: q'), rest'. split; [done|]. split; [|done].
        split; simpl; rewrite ?fn_lookup_insert; [done| | | |done].
        -- intros Htrue. congruence.
        -- congruence.
        -- exists []. by rewrite app_nil_r.
Qed.

(** The completion of the frame in flight, and then a turn. *)
Lemma complete_sending b q rest l :
  sending b q rest l → tx_in_flight l = true → in_flight_on b l →
  sending b q rest (complete_transmit (transmitting_handle l) l)
  ∧ tx_in_flight (complete_transmit (transmitting_handle l) l) = false
  ∧ epoch (complete_transmit (transmitting_handle l) l) = epoch l.
Proof.
  intros Hs Hbusy Hflight. unfold complete_transmit. rewrite (Hflight Hbusy), bool_decide_eq_true_2 by done.
  split; [|done]. pose proof (sending_bound _ _ _ _ Hs) as Hb.
  pose proof Hs as [_ (o & Ho & Hwf & Hq) _ _ _ Hscr Henc _ _ Hsend].
  apply (sending_lane b q q rest l _ (note (λ r, r <| transmitting := false |>) o)); try done.
  - by destruct Hwf.
  - simpl. rewrite lane_index_at by done. apply list_eq. intros j. destruct (decide (j = b)) as [->|Hne].
    + rewrite list_lookup_alter_eq, Ho, list_lookup_insert_eq by (by eapply lookup_lt_Some). done.
    + by rewrite list_lookup_alter_ne, list_lookup_insert_ne by done.
Qed.

Lemma turn_spec i t b q rest s :
  sending b q rest (links s i) → in_flight_on b (links s i) → responsive i t →
  ∃ s' sent q' rest', turn i t s = Some s' ∧ progress b i q rest s s' sent q' rest'
    ∧ (advances i t = true → q ++ rest ≠ [] → length sent = 1%nat).
Proof.
  intros Hs Hflight Hans. unfold turn, turn_program, advances, accepts.
  destruct (completes t) as [size|]; [destruct (tx_in_flight (links s i)) eqn:Hbusy|].
  - unfold process_link_event, on_transmitted, count. rewrite alone_bind. cbn [event_kind event_lease event_size].
    rewrite !alone_step. cbn [alone mbind option_bind]. set (s1 := (set_link i (complete_transmit _) _ _).2).
    destruct (count_bytes_spec b q rest (links s i) size Hs) as [Hs1 _].
    destruct (complete_sending b q rest _ Hs1 Hbusy Hflight) as (Hs2 & Hf2 & He2).
    change (transmitting_handle (_ <| transmitted_bytes ::= _ |>)) with (transmitting_handle (links s i)) in Hs2, Hf2, He2.
    change (epoch (links s i <| _ ::= _ |>)) with (epoch (links s i)) in He2.
    assert (Hlink : links s1 i = complete_transmit (transmitting_handle (links s i))
                                   (links s i <| transmitted_bytes ::= λ n, u32 (n + size) |>))
      by (simpl; by rewrite !fn_lookup_alter).
    rewrite <-Hlink in Hs2, Hf2, He2. cbn [mbind option_bind].
    destruct (poke_spec (turn_env t) b i q rest s1) as (s' & sent & q' & rest' & Hrun & [H1 H2 H3 H4 H5] & Hgo);
      [done|unfold in_flight_on; congruence|done|].
    rewrite Hrun. cbn [mbind option_bind]. exists s', sent, q', rest'. split; [done|]. split; [|intros Hadv Hne; apply Hgo; [done| |done]].
    + rewrite He2 in *. by split.
    + by destruct (transmit_answer (turn_env t) i) as [[]|].
  - destruct (poke_spec (turn_env t) b i q rest s) as (s' & sent & q' & rest' & Hrun & Hpg & Hgo); [done..|].
    rewrite Hrun. cbn [mbind option_bind]. exists s', sent, q', rest'. split; [done|]. split; [done|].
    intros Hadv Hne. apply Hgo; [done| |done]. by destruct (transmit_answer (turn_env t) i) as [[]|].
  - destruct (poke_spec (turn_env t) b i q rest s) as (s' & sent & q' & rest' & Hrun & Hpg & Hgo); [done..|].
    rewrite Hrun. cbn [mbind option_bind]. exists s', sent, q', rest'. split; [done|]. split; [done|].
    by rewrite andb_false_r.
Qed.

Lemma drive_spec i ts b q rest s :
  sending b q rest (links s i) → in_flight_on b (links s i) → Forall (responsive i) ts →
  ∃ s' sent q' rest', drive i ts s = Some s' ∧ progress b i q rest s s' sent q' rest'
    ∧ (length (List.filter (advances i) ts) ≤ length sent ∨ q' ++ rest' = [])%nat.
Proof.
  intros Hs Hflight Hts. revert q rest s Hs Hflight.
  induction Hts as [|t ts Ht _ IH]; intros q rest s Hs Hflight; cbn [drive List.filter].
  - exists s, [], q, rest. split; [done|]. split; [|by left]. split; try done. exists []. by rewrite app_nil_r.
  - destruct (turn_spec i t b q rest s Hs Hflight Ht) as (s1 & sent1 & q1 & rest1 & -> & Hpg1 & Hadv).
    cbn [mbind option_bind].
    destruct (IH q1 rest1 s1) as (s2 & sent2 & q2 & rest2 & -> & Hpg2 & Hcount); [by destruct Hpg1..|].
    exists s2, (sent1 ++ sent2), q2, rest2. split; [done|]. split; [by eapply progress_trans|].
    destruct Hcount as [Hcount|]; [|by right].
    destruct (advances i t) eqn:Hadvt; [|left; rewrite length_app; lia].
    destruct (decide (q ++ rest = [])) as [Hnil|Hne].
    + right. pose proof (pg_order _ _ _ _ _ _ _ _ _ Hpg1) as Ho1. rewrite Hnil in Ho1.
      pose proof (pg_order _ _ _ _ _ _ _ _ _ Hpg2) as Ho2. apply app_nil in Ho1 as [_ Ho1]. rewrite Ho1 in Ho2.
      by apply app_nil in Ho2 as [_ ?].
    + left. rewrite length_app, (Hadv eq_refl Hne). simpl. lia.
Qed.
End Driving.
End Driving.
