(* ===== verification/RemoteDelivery.v ===== *)
(** * RemoteDelivery: what is transmitted is what the peer receives

    A message that [transmit] accepts, driven onto the wire by the service and
    the driver, decoded and reassembled at the other end, is the same message.
    This composes the lanes, the fragments, the frames with their checksums
    and stuffing, the decoder and the reassembly. *)
From stdpp Require Import prelude functions.
From S2P Require Import Prelude Status Wire Protocol ProtocolCodec Cobs Frame Interleave RemoteLink RemoteService.
From S2P Require Import RemoteReassembly RemoteSend RemoteDrive.
Import RemoteLinks RemoteServices Reassembling Sending Driving.

Open Scope Z_scope.
Open Scope solar_scope.

Module Delivery.

(** ** Flags *)

(** Four bits, so the facts about them are checked for all values. *)
Definition flag_facts (f : Z) : bool :=
  let g := Z.lor f Flags_Fragmented in
  let clear x := Z.land x (255 - Flags_Final) in
  let marked x := Z.lor (clear x) Flags_Final in
  let fine x := (0 <=? x) && (x <? 256) && (Z.land x 240 =? 0) in
  fine (clear f) && fine (marked f) && fine (clear g) && fine (marked g)
  && negb (has_flag (marked f) Flags_Fragmented)
  && has_flag (clear g) Flags_Fragmented && has_flag (marked g) Flags_Fragmented
  && negb (has_flag (clear g) Flags_Final) && has_flag (marked g) Flags_Final
  && (clear (clear g) =? clear (marked g))
  && (marked f =? Z.lor f Flags_Final)
  && (Z.lor (Z.land (clear g) (255 - Flags_Fragmented)) Flags_Final =? Z.lor f Flags_Final).
Lemma flag_facts_hold f : 0 ≤ f < 16 → Z.land f Flags_Fragmented = 0 → flag_facts f = true.
Proof.
  intros Hf Heven.
  assert (Hall : forallb (λ f, negb (Z.land f Flags_Fragmented =? 0) || flag_facts f) (seqZ 0 16) = true)
    by (vm_compute; reflexivity).
  rewrite forallb_forall in Hall. specialize (Hall f). rewrite Heven in Hall. apply Hall.
  apply list_elem_of_In, elem_of_seqZ. lia.
Qed.

Section Delivery.
Context `{C : Config} {Laws : ConfigLaws C} {P : Platform} {L : PlatformLaws P}.
Context (Hceiling : above_ceiling frame_bytes = false).
Implicit Types (l : LinkState).

(** ** Messages *)
Record Message : Set := mkMessage {
  g_kind : Z; g_flags : Z; g_request : Z; g_target : Z; g_reserved : Z; g_payload : list Z }.
Record message_ok (g : Message) : Prop := {
  mo_kind : valid (g_kind g) = true;
  mo_flags : 0 ≤ g_flags g < 16;
  mo_whole : Z.land (g_flags g) Flags_Fragmented = 0;
  mo_request : is_u 32 (g_request g);
  mo_target : is_u 32 (g_target g);
  mo_reserved : is_u 32 (g_reserved g);
  mo_payload : is_bytes (g_payload g);
  mo_size : (length (g_payload g) ≤ message_bytes)%nat;
  mo_count : fragments_of (length (g_payload g)) ≤ 255 }.

Definition plain_slot (slot : OutboundSlot) : Prop :=
  os_fragment_id slot = 0 ∧ os_fragment_index slot = 0 ∧ os_fragment_count slot = 1.

(** A connected link with nothing to send. *)
Record idle l : Prop := {
  id_lanes : length (lanes l) = 5%nat;
  id_wf : Forall lane_wf (lanes l);
  id_empty : Forall (λ o, l_size o = 0%nat) (lanes l);
  id_plain : ∀ j o, lanes l !! j = Some o → j ≠ lane_index Bulk → Forall plain_slot (l_slots o);
  id_messages : Forall (λ m, om_active m = false) (outbound_messages l) ∧ outbound_messages l ≠ [];
  id_quiet : find_if (λ r, rs_valid r && negb (rs_staged r)) (responses l) = None;
  id_scratch : length (tx_scratch l) = frame_bytes;
  id_encoded : length (tx_encoded l) = max_encoded_size frame_bytes;
  id_epoch : is_u 32 (epoch l);
  id_connected : connected l = true;
  id_flight : tx_in_flight l = false }.

(** The frames of a message. *)
Definition fragment_message (g : Message) (id : Z) : OutboundMessage :=
  mkOutboundMessage true Bulk (g_kind g) (g_flags g) (g_request g) (g_target g) (g_reserved g)
    (Z.of_nat (length (g_payload g))) 0 id 0 (fragments_of (length (g_payload g))) (g_payload g).
Definition message_views (g : Message) (id : Z) : list View :=
  if (max_frame_payload <? length (g_payload g))%nat then fragments_from (fragment_message g id) 0
  else [slot_view (mkOutboundSlot (g_kind g) (g_flags g) (g_request g) (g_target g) (g_reserved g)
                     (Z.of_nat (length (g_payload g))) 0 0 1 (g_payload g))].
Definition message_lane (g : Message) : nat :=
  if (max_frame_payload <? length (g_payload g))%nat then lane_index Bulk
  else lane_index (lane_for (g_kind g) (g_request g)).

Lemma valid_kind k : valid k = true → is_u 8 k.
Proof. unfold valid, Kind_ClientHello, Kind_Pong. rewrite andb_true_iff, !Z.leb_le. intros ?. word_lia. Qed.

Definition flags_fine (x : Z) : Prop := 0 ≤ x < 256 ∧ Z.land x 240 = 0.
Definition slot_fine (slot : OutboundSlot) : Prop :=
  flags_fine (Z.land (os_flags slot) (255 - Flags_Final))
  ∧ flags_fine (Z.lor (Z.land (os_flags slot) (255 - Flags_Final)) Flags_Final).

Lemma slot_sendable slot :
  valid (os_kind slot) = true → slot_fine slot → is_u 32 (os_request_id slot) → is_u 32 (os_target slot) →
  is_u 32 (os_reserved slot) → is_u 16 (os_fragment_id slot) →
  0 ≤ os_fragment_index slot < os_fragment_count slot → os_fragment_count slot ≤ 255 →
  is_bytes (slot_view slot).2 → (length (slot_view slot).2 ≤ max_frame_payload)%nat →
  sendable (slot_view slot).
Proof.
  intros Hk [Hf1 Hf2] Hr Ht Hres Hid Hix Hcount Hb Hlen epoch sequence Hep Hseq. split; [|done].
  assert (Hflags : flags_fine (flags (slot_view slot).1)) by (simpl; by case_match). destruct Hflags as [Hfl Hfl0].
  pose proof frame_bytes_range. pose proof max_frame_payload_range.
  split; [|split; [|split; [done|split]]].
  - unfold envelope_ranges. cbn [stamp fst major minor kind flags session_epoch frame_sequence target request_id
      payload_size fragment_id fragment_index fragment_count reserved].
    pose proof (valid_kind _ Hk). unfold slot_view. cbn [fst slot_envelope major minor kind flags target request_id
      payload_size fragment_id fragment_index fragment_count reserved] in *.
    split_and!; try done; word_lia.
  - unfold envelope_accepted, bad_flags_or_fragment. change (kind (stamp _ _ _).1) with (os_kind slot).
    change (flags (stamp _ _ _).1) with (flags (slot_view slot).1). rewrite Hk, Hfl0.
    change (fragment_count (stamp _ _ _).1) with (os_fragment_count slot).
    change (fragment_index (stamp _ _ _).1) with (os_fragment_index slot).
    rewrite (proj2 (Z.eqb_neq (os_fragment_count slot) 0)), (proj2 (Z.leb_gt _ _)) by lia. done.
  - unfold UINT16_MAX. lia.
  - unfold above_ceiling in *. destruct (Frame.max_frame_bytes) as [ceiling|]; [|done].
    apply Nat.ltb_ge in Hceiling. apply Nat.ltb_ge. unfold max_frame_payload, envelope_size, crc_size in *. lia.
Qed.

Lemma fragments_bound n :
  (max_frame_payload < n)%nat →
  1 < fragments_of n ∧ (fragments_of n - 1) * Z.of_nat max_frame_payload < Z.of_nat n
  ∧ Z.of_nat n ≤ fragments_of n * Z.of_nat max_frame_payload.
Proof.
  intros Hn. pose proof max_frame_payload_range as [Hpos _]. unfold fragments_of.
  pose proof (Nat.div_mod_eq (n + max_frame_payload - 1) max_frame_payload) as Hdiv.
  pose proof (Nat.mod_upper_bound (n + max_frame_payload - 1) max_frame_payload) as Hmod.
  set (q := ((n + max_frame_payload - 1) / max_frame_payload)%nat) in *. nia.
Qed.

Lemma message_flags g : message_ok g → flag_facts (g_flags g) = true.
Proof. intros []. by apply flag_facts_hold. Qed.

Lemma fine_both f : flag_facts f = true →
  flags_fine (Z.land f (255 - Flags_Final)) ∧ flags_fine (Z.lor (Z.land f (255 - Flags_Final)) Flags_Final)
  ∧ flags_fine (Z.land (Z.lor f Flags_Fragmented) (255 - Flags_Final))
  ∧ flags_fine (Z.lor (Z.land (Z.lor f Flags_Fragmented) (255 - Flags_Final)) Flags_Final).
Proof.
  unfold flag_facts. rewrite !andb_true_iff, !Z.leb_le, !Z.ltb_lt, !Z.eqb_eq. intros Hf.
  unfold flags_fine. destruct_and!. by split_and!.
Qed.

Lemma cut_bytes p k : is_bytes p → is_bytes (cut p k).
Proof. intros Hp. by apply Forall_take, Forall_drop. Qed.

Lemma views_sendable g id : message_ok g → is_u 16 id → Forall sendable (message_views g id).
Proof.
  intros Hg Hid. destruct (fine_both _ (message_flags g Hg)) as (Hf1 & Hf2 & Hf3 & Hf4).
  destruct Hg as [Hk Hf Hwhole Hr Ht Hres Hb Hsize Hcount]. unfold message_views.
  destruct (Nat.ltb_spec max_frame_payload (length (g_payload g))) as [Hlong|Hshort].
  - destruct (fragments_bound _ Hlong) as (Hc1 & _ & _).
    apply Forall_map, list.Forall_forall. intros k Hin%elem_of_seq. unfold compose.
    assert (Hcut : (length (cut (om_bytes (fragment_message g id)) k) ≤ max_frame_payload)%nat)
      by (unfold cut; rewrite length_take; lia).
    assert (Hcutb : is_bytes (cut (om_bytes (fragment_message g id)) k)) by (apply cut_bytes; by apply Forall_take).
    simpl in Hin. apply slot_sendable; try done.
    + simpl. lia.
    + simpl. by apply Forall_take.
    + simpl. rewrite length_take. lia.
  - constructor; [|constructor]. apply slot_sendable; try done.
    + simpl. by apply Forall_take.
    + simpl. rewrite length_take. lia.
Qed.

(** ** Transmitting *)
Lemma next_id_range id : is_u 16 (next_id id) ∧ next_id id ≠ 0.
Proof.
  unfold next_id. destruct (Z.eqb_spec (u16 (id + 1)) 0) as [Hz|Hz]; [rewrite Hz; done|].
  split; [by apply wrap_range|done].
Qed.

Lemma lane_for_bound k request : (lane_index (lane_for k request) < 4)%nat.
Proof. unfold lane_for. repeat case_match; simpl; lia. Qed.

Lemma fragments_from_agree m m' k :
  om_kind m = om_kind m' → om_flags m = om_flags m' → om_request_id m = om_request_id m' →
  om_target m = om_target m' → om_reserved m = om_reserved m' → om_fragment_id m = om_fragment_id m' →
  om_fragment_count m = om_fragment_count m' → om_bytes m = om_bytes m' →
  fragments_from m k = fragments_from m' k.
Proof.
  intros H1 H2 H3 H4 H5 H6 H7 H8. unfold fragments_from, fragment_slot. by rewrite H1, H2, H3, H4, H5, H6, H7, H8.
Qed.

Definition queue_message (g : Message) l : option (Wire.Result unit * LinkState) :=
  queue_output (g_kind g) (g_payload g) (g_request g) (g_target g) (g_flags g) (g_reserved g) l.

(** What [transmit] leaves to send. *)
Definition accepts_message (g : Message) l : Prop :=
  ∃ l' id q rest, queue_message g l = Some (Ok tt, l') ∧ is_u 16 id ∧ id ≠ 0
    ∧ sending (message_lane g) q rest l' ∧ q ++ rest = message_views g id ∧ line l' = line l.

Lemma queue_short g l :
  message_ok g → idle l → (length (g_payload g) ≤ max_frame_payload)%nat → accepts_message g l.
Proof.
  intros Hg Hl Hshort. pose proof (next_id_range 0) as [Hid Hid0]. pose proof Hg as [_ _ _ _ _ _ _ Hsize _].
  pose proof Hl as [Hlanes Hwf Hempty Hplain [Hinact Hsome] Hquiet Hscr Henc Hep Hcon Hfl].
  pose proof (lane_for_bound (g_kind g) (g_request g)) as Hb. pose proof lane_depth_range.
  pose proof max_frame_payload_range. unfold accepts_message, queue_message, queue_output, message_lane.
  rewrite !(proj2 (Nat.ltb_ge _ _)) by lia.
  set (lane := lane_for _ _) in *. destruct (lookup_lt_is_Some_2 (lanes l) (lane_index lane)) as [o Ho]; [lia|].
  pose proof (list.Forall_lookup_1 _ _ _ _ Hempty Ho) as Hzero. cbv beta in Hzero. pose proof (list.Forall_lookup_1 _ _ _ _ Hwf Ho) as How.
  pose proof How as [Hslots Hhead Hlsize Heach].
  unfold enqueue, lane_of. rewrite Ho. cbn [mbind option_bind]. rewrite (proj2 (Nat.eqb_neq _ _)) by lia. cbn [andb].
  destruct (lookup_lt_is_Some_2 (l_slots o) ((l_head o + l_size o) mod length (l_slots o))) as [slot Hslot];
    [apply Nat.mod_upper_bound; lia|].
  change (l_slots (admit_slot o)) with (l_slots o). rewrite Hslot. cbn [mbind option_bind].
  destruct (fill_slot_spec slot (g_kind g) (g_payload g) (g_request g) (g_target g) (g_flags g) (g_reserved g))
    as (slot' & -> & Hswf & Hview & H1 & H2 & H3 & H4 & H5 & H6 & H7 & H8); [by eapply list.Forall_lookup_1|lia|].
  cbn [mbind option_bind]. change (note _ _) with (append_slot slot' o).
  destruct (append_slot_wf slot' o How) as [Hwf' Hq']; [lia|done|].
  assert (Hne : lane_index lane ≠ lane_index Bulk) by (change (lane_index Bulk) with 4%nat; lia).
  destruct (list.Forall_lookup_1 _ _ _ _ (Hplain _ _ Ho Hne) Hslot) as (Hp1 & Hp2 & Hp3).
  assert (Hviews : [slot_view slot'] = message_views g (next_id 0)).
  { unfold message_views. rewrite (proj2 (Nat.ltb_ge _ _)) by lia. unfold slot_view, slot_envelope.
    rewrite Hview, H1, H2, H3, H4, H5, H6, H7, H8, Hp1, Hp2, Hp3. simpl. by rewrite Nat2Z.id, (take_ge (g_payload g)). }
  eexists _, _, [slot_view slot'], []. split; [done|]. split; [exact Hid|]. split; [exact Hid0|].
  split; [|split; [exact Hviews|done]].
  split; simpl; try done.
  - by rewrite length_insert.
  - exists (append_slot slot' o). split; [apply list_lookup_insert_eq; lia|]. split; [done|]. rewrite Hq'.
    unfold queue. by rewrite Hzero.
  - intros j x Hx Hj. rewrite list_lookup_insert_ne in Hx by done. by eapply (list.Forall_lookup_1 _ _ _ _ Hempty).
  - rewrite Hviews. by apply views_sendable.
Qed.

Lemma queue_long g l :
  message_ok g → idle l → (max_frame_payload < length (g_payload g))%nat → accepts_message g l.
Proof.
  intros Hg Hl Hlong. pose proof Hg as [_ _ _ _ _ _ _ Hsize Hcount].
  pose proof Hl as [Hlanes Hwf Hempty _ [Hinact Hsome] Hquiet Hscr Henc Hep Hcon Hfl].
  destruct (fragments_bound _ Hlong) as (Hc1 & Hc2 & Hc3). pose proof message_bytes_range.
  destruct (next_id_range (next_fragment_id l)) as [Hid Hid0].
  unfold accepts_message, queue_message, queue_output, message_lane.
  rewrite (proj2 (Nat.ltb_ge _ _)), (proj2 (Nat.ltb_lt _ _)), (proj2 (Z.ltb_ge _ _)) by lia.
  unfold start_message, message_place.
  destruct (outbound_messages l) as [|m0 ms] eqn:Hms; [done|]. apply list.Forall_cons in Hinact as [Hm0 Hinact].
  cbn [find_if]. rewrite Hm0. cbn [negb].
  destruct (copy_to_start (om_payload empty_message) (g_payload g)) as (bytes & -> & Hlen & Htake);
    [cbn [om_payload empty_message]; unfold zeros; rewrite length_replicate; lia|]. cbn [mbind option_bind].
  rewrite (wrap_small 32 (Z.of_nat (length (g_payload g)))), (wrap_small 8 (fragments_of _)) by word_lia.
  set (id := next_id (next_fragment_id l)) in *. set (m := mkOutboundMessage _ _ _ _ _ _ _ _ _ _ _ _ _).
  assert (Hm : message_wf m 0).
  { split; simpl; try done; try lia. rewrite Hlen. apply length_replicate. }
  assert (Hsame : fragments_from m 0 = message_views g id).
  { unfold message_views. rewrite (proj2 (Nat.ltb_lt _ _)) by lia. apply fragments_from_agree; try done.
    unfold om_bytes. simpl. by rewrite Nat2Z.id, Htake, take_ge. }
  destruct (lookup_lt_is_Some_2 (lanes l) (lane_index Bulk)) as [o Ho]; [simpl; lia|].
  pose proof (list.Forall_lookup_1 _ _ _ _ Hempty Ho) as Hzero. cbv beta in Hzero.
  eexists _, id, [], (message_views g id). split; [done|]. split; [done|]. split; [done|]. split; [|done].
  split; simpl; try done.
  - exists o. split; [done|]. split; [by eapply list.Forall_lookup_1|]. unfold queue. by rewrite Hzero.
  - intros j x Hx _. by eapply (list.Forall_lookup_1 _ _ _ _ Hempty).
  - rewrite <-Hsame. apply (remaining_active _ _ 0 m 0); try done.
    + simpl. by rewrite Hms.
    + intros j x Hx Hj. simpl in Hx. rewrite Hms in Hx. destruct j as [|j]; [done|]. simpl in Hx.
      by eapply (list.Forall_lookup_1 _ _ _ _ Hinact).
  - by apply views_sendable.
Qed.

(** ** At the other end *)
Definition received (epoch : Z) (v : View) (d : Decoded) : Prop :=
  ∃ sequence, d = delivered (stamp epoch sequence v).

(** The decoder of a link between frames. *)
Definition decoder_idle (d : StreamDecoder) : Prop := holds (frame_bytes + 32) (zeros frame_bytes) d [].

Lemma stream_received epoch views streams d :
  (max_encoded_size frame_bytes ≤ S (frame_bytes + 32))%nat → decoder_idle d →
  Forall (λ v : View, (length v.2 ≤ max_frame_payload)%nat) views → Forall2 (sent_as epoch) views streams →
  ∃ d' r ds, Frame.feed d (concat streams) = Some (d', r, ds) ∧ decoder_idle d' ∧ Forall2 (received epoch) views ds.
Proof.
  intros Hmax Hd Hfit Hsent.
  assert (∃ fs, Forall2 transmits fs streams ∧ Forall2 (received epoch) views (map delivered fs)
    ∧ Forall (λ f : View, (length f.2 ≤ max_frame_payload)%nat) fs) as (fs & Htr & Hrec & Hfits).
  { induction Hsent as [|v frame views streams (sequence & _ & Hv) _ IH]; [by exists []|].
    apply list.Forall_cons in Hfit as [Hv2 Hfit]. destruct (IH Hfit) as (fs & ? & ? & ?).
    exists (stamp epoch sequence v :: fs). split_and!; constructor; try done. by exists sequence. }
  destruct (outcomes_transmitted (frame_bytes + 32) (zeros frame_bytes) fs streams Htr) as [Hb Ho].
  { eapply list.Forall_impl; [exact Hfits|]. intros f Hf. destruct (room_for_frame f Hf).
    unfold zeros. rewrite length_replicate. lia. }
  pose proof (feed_outcomes _ _ d [] (concat streams) Hd Hb) as Hfeed. rewrite Ho in Hfeed.
  destruct Hfeed as (d' & Hfeed & Hd' & _). rewrite concat_accepted in Hfeed. by eexists _, _, _.
Qed.

Lemma fragment_flags f (final : bool) :
  flag_facts f = true →
  let clear := Z.land (Z.lor f Flags_Fragmented) (255 - Flags_Final) in
  let x := if final then Z.lor clear Flags_Final else clear in
  has_flag x Flags_Fragmented = true ∧ has_flag x Flags_Final = final
  ∧ Z.land x (255 - Flags_Final) = Z.land clear (255 - Flags_Final)
  ∧ Z.lor (Z.land clear (255 - Flags_Fragmented)) Flags_Final = Z.lor f Flags_Final.
Proof.
  unfold flag_facts. rewrite !andb_true_iff, !Z.leb_le, !Z.ltb_lt, !Z.eqb_eq, !negb_true_iff. intros Hf.
  destruct_and!. by destruct final.
Qed.

(** The fragments the peer receives are pieces of one message. *)
Definition fragment_view (g : Message) (id : Z) (k : nat) : View := slot_view (fragment_slot (fragment_message g id) k).

Lemma om_bytes_fragment g id : om_bytes (fragment_message g id) = g_payload g.
Proof. unfold om_bytes. simpl. by rewrite Nat2Z.id, take_ge. Qed.

Lemma fragment_view_flags g id k :
  (max_frame_payload < length (g_payload g))%nat →
  flags (fragment_view g id k).1
  = let clear := Z.land (Z.lor (g_flags g) Flags_Fragmented) (255 - Flags_Final) in
    if Z.of_nat k + 1 =? fragments_of (length (g_payload g)) then Z.lor clear Flags_Final else clear.
Proof.
  intros Hlong. destruct (fragments_bound _ Hlong) as (Hc1 & _ & _).
  unfold fragment_view, slot_view, slot_envelope. cbn [fst flags fragment_slot os_fragment_count os_fragment_index
    os_flags om_flags om_fragment_count fragment_message].
  by rewrite (proj2 (Z.eqb_neq (fragments_of _) 1)) by lia.
Qed.

Lemma piece_received g id epoch d0 k d :
  message_ok g → (max_frame_payload < length (g_payload g))%nat → Z.of_nat k < fragments_of (length (g_payload g)) →
  received epoch (fragment_view g id 0) d0 → received epoch (fragment_view g id k) d →
  piece_of (envelope d0) k d ∧ payload d = cut (g_payload g) k.
Proof.
  intros Hg Hlong Hk (s0 & ->) (sk & ->). pose proof (message_flags g Hg) as Hflags.
  destruct (fragments_bound _ Hlong) as (Hc1 & _ & _).
  destruct (fragment_flags (g_flags g) (Z.of_nat k + 1 =? fragments_of (length (g_payload g))) Hflags) as (Hf1 & Hf2 & Hf3 & _).
  assert (Hcut : (fragment_view g id k).2 = cut (g_payload g) k).
  { unfold fragment_view, slot_view. cbn [snd fragment_slot os_size os_payload]. by rewrite Nat2Z.id, take_ge, om_bytes_fragment. }
  split; [|done]. pose proof (fragment_view_flags g id k Hlong) as Hk'. pose proof (fragment_view_flags g id 0 Hlong) as H0'.
  rewrite (proj2 (Z.eqb_neq (Z.of_nat 0 + 1) _)) in H0' by lia. cbv zeta in Hk', H0'.
  split; try done.
  - unfold same_message. change (flags (envelope (delivered (stamp epoch sk _)))) with (flags (fragment_view g id k).1).
    change (flags (envelope (delivered (stamp epoch s0 _)))) with (flags (fragment_view g id 0).1).
    rewrite Hk', H0', Hf3. by rewrite !andb_true_iff, !Z.eqb_eq.
  - change (flags (envelope (delivered (stamp epoch sk _)))) with (flags (fragment_view g id k).1). by rewrite Hk'.
  - change (flags (envelope (delivered (stamp epoch sk _)))) with (flags (fragment_view g id k).1). by rewrite Hk'.
Qed.

Lemma cut_all p n k :
  (length p ≤ (k + n) * max_frame_payload)%nat → concat (map (cut p) (seq k n)) = drop (k * max_frame_payload) p.
Proof.
  revert k. induction n as [|n IH]; intros k Hlen; simpl.
  - by rewrite drop_ge by lia.
  - rewrite IH by lia. unfold cut.
    replace (S k * max_frame_payload)%nat with (k * max_frame_payload + max_frame_payload)%nat by lia.
    by rewrite <-drop_drop, take_drop.
Qed.

(** What is received is the message. *)
Record delivers (g : Message) (epoch : Z) (d : Decoded) : Prop := {
  de_kind : kind (envelope d) = g_kind g;
  de_flags : flags (envelope d) = Z.lor (g_flags g) Flags_Final;
  de_epoch : session_epoch (envelope d) = epoch;
  de_target : target (envelope d) = g_target g;
  de_request : request_id (envelope d) = g_request g;
  de_reserved : reserved (envelope d) = g_reserved g;
  de_whole : fragment_id (envelope d) = 0 ∧ fragment_index (envelope d) = 0 ∧ fragment_count (envelope d) = 1;
  de_payload : payload d = g_payload g }.

Lemma answers_all id arrivals l rs l' :
  reassemble_all arrivals l = Some (rs, l') → Forall (λ x, carries id x.2 = true) arrivals →
  answers id arrivals rs = rs.
Proof.
  revert l rs. induction arrivals as [|[time d] rest IH]; intros l rs Hrun Hall; simpl in *; [by simplify_eq|].
  apply list.Forall_cons in Hall as [Hd Hall]. destruct (reassemble time d l) as [[r l1]|]; [|done].
  cbn [mbind option_bind] in Hrun. destruct (reassemble_all rest l1) as [[rs' l2]|] eqn:Hrest; [|done].
  injection Hrun as <- <-. simpl in Hd. rewrite Hd. f_equal. by eapply IH.
Qed.

Lemma filter_all {B} (f : B → bool) (xs : list B) : Forall (λ x, f x = true) xs → List.filter f xs = xs.
Proof. induction 1 as [|x xs Hx _ IH]; simpl; [done|]. by rewrite Hx, IH. Qed.

(** The receiver: its slots, of which one is free, and its decoder. *)
Record receiving l : Prop := {
  rv_slots : reassembly_wf l;
  rv_free : existsb (λ s, negb (ra_active s)) (reassembly l) = true;
  rv_decoder : decoder_idle (decoder l) }.

Lemma free_room time id l : existsb (λ s, negb (ra_active s)) (reassembly l) = true → has_room time id l = true.
Proof.
  unfold has_room. rewrite !existsb_exists. intros (s & Hin & Hs). exists s. by rewrite Hs.
Qed.

(** The frames of a message, received in time, are the message. *)
Lemma views_delivered g id epoch ds time times l :
  message_ok g → is_u 16 id → id ≠ 0 → Forall2 (received epoch) (message_views g id) ds →
  reassembly_wf l → existsb (λ s, negb (ra_active s)) (reassembly l) = true →
  S (length times) = length (message_views g id) → Forall (λ t, t < time + reassembly_timeout) times →
  ∃ rs l' d, reassemble_all (zip (time :: times) ds) l = Some (rs, l')
    ∧ rs = replicate (length times) (answer_ok None) ++ [answer_ok (Some d)] ∧ delivers g epoch d.
Proof.
  intros Hg Hid Hid0 Hds Hwf Hfree Htimes Hlate. pose proof (message_flags g Hg) as Hflags.
  pose proof Hg as [_ _ _ _ _ _ _ Hsize Hcount]. unfold message_views in Hds, Htimes.
  destruct (Nat.ltb_spec max_frame_payload (length (g_payload g))) as [Hlong|Hshort].
  - destruct (fragments_bound _ Hlong) as (Hc1 & Hc2 & Hc3). set (count := fragments_of (length (g_payload g))) in *.
    unfold fragments_from in Hds, Htimes. rewrite length_map, length_seq in Htimes.
    change (Z.to_nat (om_fragment_count (fragment_message g id))) with (Z.to_nat count) in *. rewrite Nat.sub_0_r in *.
    change (λ k, slot_view (fragment_slot (fragment_message g id) k)) with (fragment_view g id) in *.
    assert (Hpiece : ∀ k d, ds !! k = Some d → Z.of_nat k < count ∧ received epoch (fragment_view g id k) d).
    { intros k d Hd. destruct (Forall2_lookup_r _ _ _ _ _ Hds Hd) as (v & Hv & Hrec).
      apply list_lookup_fmap_Some in Hv as (j & -> & Hj). apply lookup_seq in Hj as [-> Hj]. split; [lia|done]. }
    pose proof (list.Forall2_length _ _ _ Hds) as Hlen. rewrite length_map, length_seq in Hlen.
    destruct ds as [|d0 ds]; [simpl in Hlen; lia|]. destruct (Hpiece 0%nat d0 eq_refl) as [_ Hd0].
    assert (Hall : ∀ k d, (d0 :: ds) !! k = Some d → piece_of (envelope d0) k d ∧ payload d = cut (g_payload g) k).
    { intros k d Hd. destruct (Hpiece k d Hd) as [Hk Hrec]. by apply (piece_received g id epoch). }
    assert (Hjoined : joined (d0 :: ds) = g_payload g).
    { unfold joined. rewrite <-(drop_0 (g_payload g)).
      replace 0%nat with (0 * max_frame_payload)%nat by lia. rewrite <-(cut_all _ (length (d0 :: ds)) 0) by lia.
      f_equal. apply list_eq. intros k. rewrite !list_lookup_fmap.
      destruct ((d0 :: ds) !! k) as [d|] eqn:Hd.
      - destruct (Hall k d Hd) as [_ Hpay]. rewrite lookup_seq_lt by (by eapply lookup_lt_Some). simpl. by rewrite Hpay.
      - by rewrite lookup_seq_ge by (by apply lookup_ge_None). }
    assert (Hd0id : fragment_id (envelope d0) = id) by (by destruct Hd0 as (? & ->)).
    assert (Hd0count : fragment_count (envelope d0) = count) by (by destruct Hd0 as (? & ->)).
    assert (Hcarry : Forall (λ x : Z * Decoded, carries (fragment_id (envelope d0)) x.2 = true) (zip (time :: times) (d0 :: ds))).
    { apply list.Forall_forall. intros [t x] Hin. apply elem_of_zip_r in Hin. simpl.
      apply list_elem_of_lookup_1 in Hin as [k Hk]. eapply piece_carries. by apply Hall. }
    assert (Hzip : length times = length ds) by (simpl in Hlen; lia).
    assert (Hsnd : (zip times ds).*2 = ds) by (apply snd_zip; lia).
    destruct (reassemble_message time d0 ds (zip times ds) l) as (rs & l' & Hrun & _ & Hans).
    + done.
    + rewrite <-Hd0id in Hid0. split; [done|lia].
    + intros k x Hx. by apply Hall.
    + rewrite Hd0count. lia.
    + by rewrite Hjoined.
    + by apply free_room.
    + apply list.Forall_forall. intros [t x] Hin. apply elem_of_zip_l in Hin. simpl.
      by apply (proj1 (list.Forall_forall _ _) Hlate).
    + unfold carrying. change (map snd (zip times ds)) with ((zip times ds).*2). rewrite Hsnd.
      apply filter_all. apply list.Forall_cons in Hcarry as [_ Hcarry]. rewrite <-Hsnd at 1.
      apply Forall_map. exact Hcarry.
    + change (zip (time :: times) (d0 :: ds)) with ((time, d0) :: zip times ds) in *.
      rewrite (answers_all _ _ _ _ _ Hrun Hcarry) in Hans. eexists rs, l', _. split; [done|].
      split; [by rewrite Hzip|]. rewrite Hjoined. destruct Hd0 as (sequence & ->).
      destruct (fragment_flags (g_flags g) false Hflags) as (_ & _ & _ & Hwhole).
      split; try done.
      change (flags _) with (Z.lor (Z.land (flags (fragment_view g id 0).1) (255 - Flags_Fragmented)) Flags_Final).
      rewrite fragment_view_flags by done. rewrite (proj2 (Z.eqb_neq (Z.of_nat 0 + 1) _)) by lia. exact Hwhole.
  - apply Forall2_cons_inv_l in Hds as (d & ds' & (sequence & ->) & Hnil & ->).
    apply Forall2_nil_inv_l in Hnil as ->. destruct times as [|]; [|done].
    unfold flag_facts in Hflags. rewrite !andb_true_iff, !negb_true_iff, !Z.eqb_eq in Hflags. destruct_and!.
    cbn [zip_with reassemble_all]. unfold reassemble.
    change (fragment_count _) with 1. change (flags (envelope _)) with (Z.lor (Z.land (g_flags g) (255 - Flags_Final)) Flags_Final).
    match goal with H : has_flag _ Flags_Fragmented = false |- _ => rewrite H end. cbn [negb andb Z.eqb].
    cbn [mbind option_bind]. eexists _, _, _. split; [done|]. split; [done|].
    split; try done. simpl. by rewrite Nat2Z.id, take_ge.
Qed.

Lemma views_fit g id : message_ok g → is_u 16 id → Forall (λ v : View, (length v.2 ≤ max_frame_payload)%nat) (message_views g id).
Proof.
  intros Hg Hid. eapply list.Forall_impl; [by apply (views_sendable g id)|]. intros v Hv.
  by destruct (Hv 0 0) as [_ ?].
Qed.

(** [transmit] accepts the message. *)
Section Transmit.
Context {A : Type} `{!Application A}.
Implicit Types (s : RemoteLinks.State A).

Lemma post_frames e event s :
  ∃ s', alone e (post event) s = Some (tt, s') ∧ links s' = links s ∧ wire s' = wire s.
Proof.
  unfold post, try_post. simpl. unfold try_send. destruct (length (events s) <? event_depth)%nat; simpl; by eexists.
Qed.

Definition transmit_message (i : nat) (g : Message) : RemoteLinks.Program A (Wire.Result unit) :=
  transmit i (g_kind g) (g_payload g) (g_request g) (g_target g) (g_flags g) (g_reserved g).

Lemma transmit_accepts e i g s :
  message_ok g → idle (links s i) →
  ∃ s' id q rest, alone e (transmit_message i g) s = Some (Ok tt, s') ∧ wire s' = wire s
    ∧ is_u 16 id ∧ id ≠ 0 ∧ sending (message_lane g) q rest (links s' i) ∧ q ++ rest = message_views g id
    ∧ line (links s' i) = line (links s i).
Proof.
  intros Hg Hidle.
  assert (accepts_message g (links s i)) as (l' & id & q & rest & Hq & Hid & Hid0 & Hs & Hviews & Hline).
  { destruct (Nat.ltb_spec max_frame_payload (length (g_payload g))); [by apply queue_long|by apply queue_short]. }
  unfold transmit_message, transmit. rewrite alone_bind.
  erewrite (alone_section e i _ s (Ok tt) l') by exact Hq.
  cbn [mbind option_bind]. set (s1 := s <| links ::= _ |>). rewrite alone_bind.
  destruct (post_frames e (EventOutput i) s1) as (s2 & -> & Hl2 & Hw2). cbn [mbind option_bind alone].
  assert (Hl : links s2 i = l') by (rewrite Hl2; simpl; apply fn_lookup_insert).
  exists s2, id, q, rest. rewrite Hw2, Hl. by split_and!.
Qed.

(** C23: a message given to an idle link arrives.  [transmit] accepts it;
    whatever the turns of the service and the answers of a driver that
    reports no error, once the driver has completed and accepted often enough
    the frames are on the wire, as many as the payload needs; and a receiver
    of the same configuration, between frames and with a free slot, decodes
    them and, if no fragment is later than the timeout after the first,
    reassembles them to exactly one message, with the kind, target, request,
    reserved word and payload of the sender. *)
Theorem message_delivered e i g s ts l time times
    (Hg : message_ok g) (Hidle : idle (links s i)) (Hts : Forall (responsive i) ts)
    (Henough : (S (length times) ≤ length (List.filter (advances i) ts))%nat)
    (Hframes : Z.of_nat frame_bytes ≤ 8127)
    (Hl : receiving l) (Hlate : Forall (λ t, t < time + reassembly_timeout) times)
    (Hcount : S (length times) = Z.to_nat (Z.max 1 (fragments_of (length (g_payload g))))) :
  ∃ s1 s2 frames d' record ds results l' d,
    alone e (transmit_message i g) s = Some (Ok tt, s1) ∧ drive i ts s1 = Some s2
    ∧ wire s2 = wire s ++ map (pair i) frames ∧ length frames = S (length times)
    ∧ Frame.feed (decoder l) (concat frames) = Some (d', record, ds) ∧ decoder_idle d'
    ∧ reassemble_all (zip (time :: times) ds) (l <| decoder := d' |>) = Some (results, l')
    ∧ results = replicate (length times) (answer_ok None) ++ [answer_ok (Some d)]
    ∧ delivers g (epoch (links s i)) d.
Proof.
  destruct (transmit_accepts e i g s Hg Hidle) as (s1 & id & q & rest & Hrun & Hw1 & Hid & Hid0 & Hs & Hviews & Hline).
  injection Hline as Hf1 Ht1 Hh1 He1. pose proof Hidle as [_ _ _ _ _ _ _ _ _ _ Hfl].
  destruct (drive_spec i ts (message_lane g) q rest s1) as (s2 & sent & q' & rest' & Hdrive & Hpg & Hdone);
    [done|unfold in_flight_on; congruence|done|].
  pose proof Hpg as [_ _ He2 (frames & Hwire & Hsent) Horder]. rewrite Hviews in Horder.
  assert (Hlen : length (message_views g id) = S (length times)).
  { rewrite Hcount. unfold message_views. destruct (Nat.ltb_spec max_frame_payload (length (g_payload g))) as [Hlong|Hshort].
    - destruct (fragments_bound _ Hlong) as (Hc1 & _ & _). unfold fragments_from. rewrite length_map, length_seq.
      change (om_fragment_count _) with (fragments_of (length (g_payload g))). lia.
    - enough (fragments_of (length (g_payload g)) ≤ 1) by (simpl; lia). unfold fragments_of.
      pose proof max_frame_payload_range as [Hpos _].
      assert ((length (g_payload g) + max_frame_payload - 1) / max_frame_payload < 2)%nat; [|lia].
      apply Nat.Div0.div_lt_upper_bound. lia. }
  assert (Hall : sent = message_views g id).
  { destruct Hdone as [Hdone|Hdone]; [|by rewrite Hdone, app_nil_r in Horder].
    pose proof (f_equal length Horder) as Hsum. rewrite !length_app, Hlen in Hsum.
    assert (q' ++ rest' = []) as Hnil by (apply nil_length_inv; rewrite length_app; lia).
    by rewrite Hnil, app_nil_r in Horder. }
  subst sent. rewrite He1 in Hsent. destruct Hl as [Hslots Hfree Hdecoder].
  destruct (stream_received (epoch (links s i)) (message_views g id) frames (decoder l))
    as (d' & record & ds & Hfeed & Hd' & Hds); [|done|by apply views_fit|done|].
  { unfold max_encoded_size. assert (frame_bytes / 254 < 32)%nat; [apply Nat.Div0.div_lt_upper_bound|]; lia. }
  destruct (views_delivered g id (epoch (links s i)) ds time times (l <| decoder := d' |>))
    as (results & l' & d & Hre & Hres & Hdel); try done.
  exists s1, s2, frames, d', record, ds, results, l', d. rewrite Hwire, Hw1.
  split_and!; try done. by rewrite <-(list.Forall2_length _ _ _ Hsent).
Qed.
End Transmit.
End Delivery.
End Delivery.
