(* ===== verification/RemoteExamples.v ===== *)
(** * RemoteExamples: the Remote service at concrete inputs

    A link of the smallest configuration, messages that need one frame and
    three, and the witnesses of the theorems on delivery. *)
From stdpp Require Import prelude functions.
From S2P Require Import Prelude Status Wire Protocol ProtocolCodec Cobs Frame Interleave RemoteLink RemoteService.
From S2P Require Import RemoteReassembly RemoteSend RemoteDrive RemoteDelivery.
Import RemoteLinks RemoteServices Reassembling Sending Driving Delivery.

Open Scope Z_scope.
Open Scope solar_scope.

Module RemoteExamples.

(** Frames of 64 bytes carry 28 bytes of a message. *)
#[export] Instance small : Config := {|
  frame_bytes := 64; message_bytes := 96; lane_depth := 2; message_slots := 2; response_bytes := 32;
  max_requests := 2; reassembly_slots := 2; reassembly_timeout := 100; max_endpoints := 2; link_count := 1;
  link_grants := λ _, 7; runtime_introspection := true; manifest_retrieval := true; inspection_remote := true;
  event_depth := 4 |}.
#[export] Instance small_laws : ConfigLaws small.
Proof. split; simpl; lia. Qed.

#[export] Instance host : Platform := host_platform (Some 64%nat).
#[export] Instance host_ok : PlatformLaws host := host_laws (Some 64%nat).

(** An application that answers nothing. *)
#[export] Instance silent : Application unit := {|
  process_publication _ := Done tt; process_application_frame _ _ := Done tt; process_poll_releases := Done 50;
  reset_session _ _ := Done tt; open_session _ := Done tt; pong_responded := Done tt;
  introspection_summary := no_summary; server_information := no_information;
  manifest_chunk _ _ := Done (Ok []); inspection_collections _ _ := Done (Ok []); inspection_query _ _ := Done (Ok []);
  inspection_response_bytes := 32; initialize_in_stream_runtime := Done tt |}.

Definition connected_link : LinkState := initial_link <| connected := true |> <| session := Active |> <| epoch := 1 |>.
Definition start : State unit := mkState true true 0 true (λ _, connected_link) [] true 0 0 0 [] tt.

Definition env (t : Z) (answer : TxDisposition) : Env :=
  mkEnv t 0 (λ _, Some answer) (λ _ _, None) (λ _, None) false SWouldBlock.
Definition sample : Message := mkMessage Kind_Data Flags_PackedPayload 7 3 9 (map Z.of_nat (seq 1 70)).

(** A turn finds the driver busy, one finds the frame still in flight. *)
Definition turns : list Turn :=
  [mkTurn (env 1 TxBusy) None; mkTurn (env 2 TxAccepted) None; mkTurn (env 3 TxAccepted) None;
   mkTurn (env 4 TxAccepted) (Some 64); mkTurn (env 5 TxAccepted) (Some 64); mkTurn (env 6 TxAccepted) (Some 64)].

Lemma empty_lane_wf : lane_wf empty_lane.
Proof.
  split; [done|simpl; lia..|]. apply (Forall_replicate _ lane_depth empty_outbound), empty_outbound_wf.
Qed.
Lemma connected_idle : idle connected_link.
Proof.
  split; try done.
  - apply (Forall_replicate _ 5 empty_lane), empty_lane_wf.
  - by apply (Forall_replicate _ 5 empty_lane).
  - intros j o Ho _. apply lookup_replicate in Ho as [-> _]. by apply Forall_replicate.
  - split; [|done]. by apply (Forall_replicate _ message_slots empty_message).
Qed.
Lemma connected_receiving : receiving connected_link.
Proof.
  split; [|done|].
  - apply (Forall_replicate _ reassembly_slots empty_reassembly), empty_slot_wf.
  - apply holds_idle; done.
Qed.
Lemma sample_ok : message_ok sample.
Proof.
  split; try done.
  - simpl. repeat constructor; done.
  - simpl. lia.
Qed.

Lemma message_delivered_witness :
  ∃ s1 s2 frames d' record ds results l' d,
    alone (env 0 TxAccepted) (transmit_message 0 sample) start = Some (Ok tt, s1) ∧ drive 0 turns s1 = Some s2
    ∧ wire s2 = map (pair 0%nat) frames ∧ length frames = 3%nat
    ∧ Frame.feed (decoder connected_link) (concat frames) = Some (d', record, ds)
    ∧ reassemble_all (zip [20; 30; 40] ds) (connected_link <| decoder := d' |>) = Some (results, l')
    ∧ results = [Ok None; Ok None; Ok (Some d)] ∧ kind (envelope d) = Kind_Data ∧ payload d = g_payload sample.
Proof.
  destruct (message_delivered (C := small) (P := host) eq_refl (env 0 TxAccepted) 0 sample start turns connected_link 20 [30; 40])
    as (s1 & s2 & frames & d' & record & ds & results & l' & d & H1 & H2 & H3 & H4 & H5 & _ & H7 & H8 & H9).
  - apply sample_ok.
  - apply connected_idle.
  - repeat constructor; done.
  - vm_compute. lia.
  - simpl. lia.
  - apply connected_receiving.
  - repeat constructor; done.
  - vm_compute. reflexivity.
  - exists s1, s2, frames, d', record, ds, results, l', d. split_and!; try done; apply H9.
Defined.

(** ** Interleaved fragments *)
Definition fragment (id index count : Z) (flags : Z) (bytes : list Z) : Decoded :=
  mkDecoded (mkEnvelope 1 0 Kind_Data flags 4 index 3 7 (Z.of_nat (length bytes)) id index count 9) bytes.
Definition one : Decoded := fragment 5 0 3 Flags_Fragmented [1; 2].
Definition two : Decoded := fragment 5 1 3 Flags_Fragmented [3; 4].
Definition three : Decoded := fragment 5 2 3 (Z.lor Flags_Fragmented Flags_Final) [5].
Definition other : Decoded := fragment 6 0 2 Flags_Fragmented [9; 9; 9].
Definition broken : Decoded := fragment 7 4 9 Flags_Fragmented [].
Definition arrivals : list (Z * Decoded) := [(11, other); (12, two); (13, broken); (14, three); (15, other)].

Lemma fragments_reassembled_witness :
  ∃ results l', reassemble_all ((10, one) :: arrivals) connected_link = Some (results, l')
    ∧ answers 5 ((10, one) :: arrivals) results
      = [Ok None; Ok None; Ok (Some (mkDecoded (mkEnvelope 1 0 Kind_Data Flags_Final 4 0 3 7 0 0 0 1 9) [1; 2; 3; 4; 5]))].
Proof.
  destruct (fragments_reassembled (C := small) 10 one [two; three] arrivals connected_link)
    as (results & l' & Hrun & _ & Hans).
  - apply connected_receiving.
  - split; simpl; lia.
  - intros k x Hx. destruct k as [|[|[|k]]]; simplify_eq/=; by split.
  - reflexivity.
  - simpl. lia.
  - reflexivity.
  - repeat constructor; done.
  - reflexivity.
  - exists results, l'. split; [exact Hrun|]. exact Hans.
Defined.

(** ** Connected twice *)

(** A frame is in flight when the link reports a new connection. *)
Definition in_flight_link : LinkState :=
  connected_link <| tx_in_flight := true |> <| transmitting_lane := Some Control |>
    <| transmitting_handle := mkLease 0 1 |> <| tx_generation := 1 |>.
Definition at_link (l : LinkState) : State unit := start <| links := λ _, l |>.
Definition run_on {B} (t : Z) (p : Program unit B) (s : State unit) : option (State unit) :=
  '(_, s) ← alone (env t TxAccepted) p s; Some s.

(** The completion of the frame is not recognised after [Connected] has
    forgotten it, but the flag that it was in flight remains: the hello of
    the new session stays in its lane, and the wire stays empty. *)
Example reconnected_while_in_flight :
  option_map (λ s : State unit, (wire s, tx_in_flight (links s 0), option_map l_size (lane_of Control (links s 0))))
    (s ← run_on 1 (process_link_event 0 (mkLinkEvent LinkConnected no_lease 0)) (at_link in_flight_link);
     s ← run_on 2 (process_link_event 0 (mkLinkEvent TxComplete (mkLease 0 1) 64)) s;
     s ← run_on 3 (dispatch (EventOutput 0)) s;
     run_on 4 (try_start_transmit 0) s)
  = Some ([], true, Some 1%nat).
Proof. vm_compute. reflexivity. Qed.

(** ** A response in the place of another *)

(** With both places of the cache reserved, the response of a third request
    takes the place reserved for the first. *)
Example response_takes_a_reservation :
  let l := (reserve_response 2 0 (reserve_response 1 0 connected_link).2).2 in
  option_map (λ '(r, l), (is_ok r, map (λ r, (rs_reserved r, rs_valid r, rs_request r)) (responses l)))
    (store_response 3 0 [7] false l)
  = Some (true, [(false, true, 3); (true, false, 2)]).
Proof. vm_compute. reflexivity. Qed.
End RemoteExamples.
