(* ===== verification/KernelWork.v ===== *)
(** * KernelWork: the kernel's work items as the code wraps them

    Models [include/solar/kernel/work.hpp] and [triggered_work.hpp]: the
    classes [Work], [DelayableWork] and [TriggeredWork] around a native item of
    Zephyr, the translation of its answers, the checks of context, and the flag
    by which an item that waits for events is claimed.  The native item is the
    interface [Kernel].  Programs run on one item; [Interleave.focus] places
    them in the state of a client. *)
From stdpp Require Import prelude.
From S2P Require Import Prelude Status Interleave.

Open Scope Z_scope.
Open Scope solar_scope.
Open Scope prog_scope.

Module WorkItems.

Inductive WorkSubmission : Set := AlreadyQueued | Queued | RequeuedAfterCurrent.
#[export] Instance WorkSubmission_eq_dec : EqDecision WorkSubmission. Proof. solve_decision. Defined.
Inductive WorkErrorReason : Set :=
  | WBusy | WInvalidQueue | WInvalidEvents | WQueueNotStarted | WDifferentQueue | WInvalidContext
  | WDeadlock | WNative.
Record WorkError : Set := mkWorkError { w_status : Status; w_reason : WorkErrorReason; w_native : Z }.

(** A native work item.  [k_queued]: in a queue; [k_busy]: there, delayed,
    being cancelled or running ([k_work_is_pending]); [k_take] is the queue's
    thread starting the handler of an item, [k_finish] its return.  The [bool]
    is what the kernel decides on its own, [true] when it refuses: a queue that
    is plugged or not started, an item being cancelled. *)
Class Kernel (N : Type) := {
  k_submit : bool → N → Z * N;
  k_schedule : bool → Z → N → Z * N;
  k_reschedule : bool → Z → N → Z * N;
  k_poll_submit : bool → N → Z * N;
  k_queued : N → bool;
  k_busy : N → bool;
  k_cancel : N → N;
  k_poll_cancel : bool → N → Z * N;
  k_cancel_sync : N → bool * N;
  k_flush : N → bool * N;
  k_take : N → option N;
  k_finish : N → N }.

(** What Zephyr documents of a submission: 0, 1 or 2 when the item is in the
    queue afterwards, otherwise a negative errno; and that the end of a handler dequeues nothing. *)
Class KernelLaws (N : Type) `{Kernel N} : Prop := {
  submit_queued : ∀ b n, 0 ≤ (k_submit b n).1 → k_queued (k_submit b n).2 = true;
  submit_goes : ∀ n, 0 ≤ (k_submit false n).1 ≤ 2;
  submit_int : ∀ b n, - 2 ^ 31 < (k_submit b n).1 < 2 ^ 31;
  finish_queued : ∀ n, k_queued (k_finish n) = k_queued n }.

(** [claimed] is the flag of a [TriggeredWork]. *)
Record Work (N : Type) : Type := mkWork { native : N; claimed : bool }.
Arguments mkWork {N}. Arguments native {N}. Arguments claimed {N}.
#[export] Instance Work_fields {N} : Fields (Work N) := λ w, mkWork (native w) (claimed w).

(** The environment of a call: interrupt context, whether the caller is the
    thread that runs the item's handler, and the decision of the kernel. *)
Record Call : Set := mkCall { in_isr : bool; own_thread : bool; refuses : bool }.

Section Items.
Context `{Errno} {N : Type} `{!Kernel N}.
Local Abbreviation Program := (Prog Call (Work N)).

(** ** Answers of the kernel *)
Definition work_error (native_error : Z) : option WorkError :=
  if native_error =? - EBUSY then Some (mkWorkError SBusy WBusy native_error)
  else if native_error =? - EINVAL then Some (mkWorkError SInvalid WInvalidQueue native_error)
  else if native_error =? - ENODEV then Some (mkWorkError SNotReady WQueueNotStarted native_error)
  else if native_error =? - EADDRINUSE then Some (mkWorkError SAlready WDifferentQueue native_error)
  else (status ← status_from_errno native_error; Some (mkWorkError status WNative native_error))%stdpp.
Definition work_submission (answer : Z) : option (result WorkError WorkSubmission) :=
  if answer =? 0 then Some (Ok AlreadyQueued)
  else if answer =? 1 then Some (Ok Queued)
  else if answer =? 2 then Some (Ok RequeuedAfterCurrent)
  else (error ← work_error answer; Some (Err error))%stdpp.
Definition invalid_work_context : WorkError := mkWorkError SInvalid WInvalidContext 0.
Definition invalid_work_events : WorkError := mkWorkError SInvalid WInvalidEvents 0.
Definition work_deadlock : WorkError := mkWorkError SDeadlock WDeadlock 0.

(** A status that the language leaves undefined stops the model. *)
Definition defined {B} (value : option B) : Program B := match value with Some b => Done b | None => Stalled end.

(** ** Calls *)
Definition call {B} (f : bool → N → B * N) (c : Call) (w : Work N) : B * Work N :=
  let '(answer, n) := f (refuses c) (native w) in (answer, w <| native := n |>).
Definition look {B} (f : Call → Work N → B) (c : Call) (w : Work N) : B * Work N := (f c w, w).
Definition set_claimed (value : bool) (_ : Call) (w : Work N) : unit * Work N := (tt, w <| claimed := value |>).

Definition submit : Program (result WorkError WorkSubmission) :=
  answer ← call k_submit; defined (work_submission answer).
Definition try_submit_isr : Program (result WorkError WorkSubmission) := submit.
Definition schedule (delay : Z) : Program (result WorkError WorkSubmission) :=
  answer ← call (λ b, k_schedule b delay); defined (work_submission answer).
Definition reschedule (delay : Z) : Program (result WorkError WorkSubmission) :=
  answer ← call (λ b, k_reschedule b delay); defined (work_submission answer).
Definition cancel : Program unit := _ ← call (λ _ n, (tt, k_cancel n)); Done tt.

(** The checks of an operation that waits. *)
Definition waits {B} (p : Program (result WorkError B)) : Program (result WorkError B) :=
  interrupt ← look (λ c _, in_isr c);
  if interrupt : bool then Done (Err invalid_work_context) else
  own ← look (λ c _, own_thread c);
  if own : bool then Done (Err work_deadlock) else p.
Definition cancel_sync : Program (result WorkError bool) :=
  waits (cancelled ← call (λ _, k_cancel_sync); Done (Ok cancelled)).
Definition flush : Program (result WorkError bool) :=
  waits (flushed ← call (λ _, k_flush); Done (Ok flushed)).

(** ** Triggered items *)
Definition claim (events : nat) : Program (result WorkError unit) :=
  if (events =? 0)%nat then Done (Err invalid_work_events) else
  taken ← (λ _ w, (negb (claimed w), w <| claimed := true |>));
  if taken : bool then Done (Ok tt)
  else error ⇇ defined (work_error (- EBUSY)); Done (Err error).
Definition submit_result (answer : Z) : option (result WorkError unit) :=
  if answer =? 0 then Some (Ok tt) else (error ← work_error answer; Some (Err error))%stdpp.
Definition submit_events (events : nat) : Program (result WorkError unit) :=
  claimed ⇇ claim events;
  match claimed with
  | Err error => Done (Err error)
  | Ok _ =>
    answer ← call k_poll_submit;
    if answer =? 0 then defined (submit_result answer)
    else _ ← set_claimed false; defined (submit_result answer)
  end.
Definition cancel_trigger : Program (result Error unit) :=
  answer ← call k_poll_cancel;
  if answer =? 0 then _ ← set_claimed false; Done (Ok tt)
  else if answer =? - EINVAL then Done (Err (mkError SBusy 0))
  else error ⇇ defined (error_from_errno answer); Done (Err error).
Definition cancel_trigger_sync : Program (result WorkError bool) :=
  waits (
    answer ← call k_poll_cancel;
    if negb (answer =? 0) && negb (answer =? - EINVAL)
    then error ⇇ defined (work_error answer); Done (Err error)
    else
      cancelled ← call (λ _, k_cancel_sync);
      _ ← set_claimed false;
      Done (Ok ((answer =? 0) || cancelled))).
Definition flush_trigger : Program (result WorkError bool) :=
  waits (
    held ← look (λ _, claimed);
    idle ← look (λ _ w, held && negb (k_busy (native w)));
    if idle : bool then error ⇇ defined (work_error (- EBUSY)); Done (Err error)
    else flushed ← call (λ _, k_flush); Done (Ok flushed)).

(** [pending] of a plain or delayed item, and of a triggered one. *)
Definition pending (w : Work N) : bool := k_busy (native w).
Definition trigger_pending (w : Work N) : bool := claimed w || k_busy (native w).
End Items.
End WorkItems.
