(* ===== verification/Execution.v ===== *)
(** * Execution: registrations of work and their executors

    Models [include/solar/execution/runtime.hpp] with the records of
    [types.hpp]: what a registration keeps, its submission, scheduling and
    cancellation, the handler that the kernel runs, activation and stopping,
    and the containment of an executor.  A step of a program is one atomic
    access, one section under the record's lock, or one call of the kernel;
    the work items are those of [KernelWork].  The clock, the
    interrupt flag, the result of a behavior and the answers of a work queue
    come from the environment of the step.  Ticks are taken not to overflow. *)
From stdpp Require Import prelude functions.
From S2P Require Import Prelude Status Interleave KernelWork.
Import WorkItems.

Open Scope Z_scope.
Open Scope solar_scope.

Module Registrations.

(** ** Types *)
Inductive RegistrationKind : Set :=
  | OnDemand | Delayable | Periodic | PollTriggered | BusRoute | ParameterPersistence | EventProcessor
  | LogProcessor | MetricsExporter | RemoteHandler | Infrastructure.
#[export] Instance RegistrationKind_eq_dec : EqDecision RegistrationKind. Proof. solve_decision. Defined.
Inductive Availability : Set :=
  | Uninitialized | Inactive | Active | Suspended | Stopping | Quiescent | Failed.
Inductive Operation : Set :=
  | OpSubmit | OpSubmitIsr | OpSchedule | OpReschedule | OpCancel | OpCancelSync | OpFlush | OpActivate | OpStop.
Inductive SubmissionDisposition : Set := WasQueued | AlreadyPending | Requeued | CountedIn.
Inductive ErrorReason : Set :=
  | SubsystemNotReady | RegistrationInactive | RegistrationSuspended | NotRegistered | ExecutorUnavailable
  | QueueStopped | QueueDraining | WorkCancelling | AdmissionFull | InvalidContext | Timeout
  | UnsupportedOperation | NativeFailure | InternalInvariant.
Record Error : Set := mkError {
  e_status : Status; e_reason : ErrorReason; e_operation : Operation; e_availability : Availability; e_native : Z }.
Record Submission : Set := mkSubmission {
  s_disposition : SubmissionDisposition; s_accepted : Z; s_sequence : Z; s_from_isr : bool }.
Record Cancellation : Set := mkCancellation { c_pending_cancelled : bool; c_quiescent : bool }.

Record RegistrationRecord : Set := mkRecord {
  availability : Availability; last_status : Status;
  release_attempts : Z; submissions : Z; isr_submissions : Z; queued : Z; already_pending : Z;
  requeued : Z; counted : Z; admission_rejected : Z; started : Z; completed : Z; failed : Z;
  cancelled : Z; missed_releases : Z; overruns : Z; deadline_misses : Z;
  pending_count : Z; pending_high_water : Z;
  last_release : Z; last_start : Z; last_completion : Z; last_duration : Z; maximum_duration : Z;
  initialized : bool; active : bool; r_accepting : bool; armed : bool; queued_now : bool;
  r_in_flight : bool; stop_requested : bool; quiescent : bool }.
#[export] Instance RegistrationRecord_fields : Fields RegistrationRecord := λ r,
  mkRecord (availability r) (last_status r) (release_attempts r) (submissions r) (isr_submissions r)
    (queued r) (already_pending r) (requeued r) (counted r) (admission_rejected r) (started r)
    (completed r) (failed r) (cancelled r) (missed_releases r) (overruns r) (deadline_misses r)
    (pending_count r) (pending_high_water r) (last_release r) (last_start r) (last_completion r)
    (last_duration r) (maximum_duration r) (initialized r) (active r) (r_accepting r) (armed r)
    (queued_now r) (r_in_flight r) (stop_requested r) (quiescent r).
Definition fresh_record (a : Availability) (status : Status) (init : bool) : RegistrationRecord :=
  mkRecord a status 0 0 0 0 0 0 0 0 0 0 0 0 0 0 0 0 0 0 0 0 0 0 init false false false false false false true.

Inductive ContainmentState : Set := NotPrepared | Prepared | Clean | Forced | Uncontained.
Record ExecutorRecord : Set := mkExecutor {
  x_last_status : Status; containment : ContainmentState; x_initialized : bool; x_started : bool;
  x_accepting : bool; x_draining : bool; plugged : bool; stopped : bool; timed_out : bool;
  abort_attempted : bool; abort_succeeded : bool; abort_failed : bool }.
#[export] Instance ExecutorRecord_fields : Fields ExecutorRecord := λ r,
  mkExecutor (x_last_status r) (containment r) (x_initialized r) (x_started r) (x_accepting r)
    (x_draining r) (plugged r) (stopped r) (timed_out r) (abort_attempted r) (abort_succeeded r)
    (abort_failed r).
Definition fresh_executor : ExecutorRecord :=
  mkExecutor SNotReady NotPrepared true false false false false false false false false false.

(** [lifecycle::Containment] *)
Record Containment : Set := mkContainment {
  k_status : Status; k_contained : bool; k_forced : bool; k_timed_out : bool; k_abort_attempted : bool;
  k_abort_failed : bool }.
Definition contained : Containment := mkContainment SOk true false false false false.

(** ** Declarations *)

(** What the type of a registration says of it. *)
Record Traits : Set := mkTraits {
  kind : RegistrationKind;
  capacity : option Z;              (* [Counted<Capacity>] of an on-demand registration *)
  suspends : bool;                  (* [failure::Suspend] *)
  drains : bool;                    (* [stop::Drain], otherwise [stop::CancelPending] *)
  period_ticks : Z; fixed_delay : bool; immediate : bool;
  deadline_ticks : option Z;        (* [DeadlinePolicy] *)
  auto_rearm : bool;
  poll_events : nat;                (* [PollSet::events().size()] *)
  on_system_queue : bool }.

(** ** State *)
Record Registration (N : Type) : Type := mkRegistration {
  work : Work N; record : RegistrationRecord;
  accepting : bool; in_flight : bool; draining : bool; suspended : bool; uncontained : bool;
  pending : Z;                       (* [RegistrationCountedState] *)
  next_release : Z;                  (* [RegistrationPeriodicState] *)
  stop_token : bool }.               (* [RegistrationStopState] *)
Arguments mkRegistration {N}. Arguments work {N}. Arguments record {N}. Arguments accepting {N}.
Arguments in_flight {N}. Arguments draining {N}. Arguments suspended {N}. Arguments uncontained {N}.
Arguments pending {N}. Arguments next_release {N}. Arguments stop_token {N}.
#[export] Instance Registration_fields {N} : Fields (Registration N) := λ r,
  mkRegistration (work r) (record r) (accepting r) (in_flight r) (draining r) (suspended r)
    (uncontained r) (pending r) (next_release r) (stop_token r).

Record State (N : Type) : Type := mkState {
  registrations : nat → Registration N;
  executor : ExecutorRecord; executor_started : bool;
  last_failure : option (nat * Status);
  uncontained_system_registrations : Z }.
Arguments mkState {N}. Arguments registrations {N}. Arguments executor {N}. Arguments executor_started {N}.
Arguments last_failure {N}. Arguments uncontained_system_registrations {N}.
#[export] Instance State_fields {N} : Fields (State N) := λ s,
  mkState (registrations s) (executor s) (executor_started s) (last_failure s) (uncontained_system_registrations s).

Record Env : Set := mkEnv {
  now : Z; item_call : Call; weak_failure : bool;
  behavior : option Status;                     (* [None]: success *)
  deadline_expired : bool;
  queue_start : option Status; queue_drain : option Status; queue_stop : option Status; queue_abort : option Status }.
Definition to_status (answer : option Status) : Status := match answer with None => SOk | Some status => status end.

Section Execution.
Context `{Errno} {N : Type} `{!Kernel N} (traits : nat → Traits).
Local Abbreviation Program := (Prog Env (State N)).
Implicit Types (i : nat).
Open Scope prog_scope.

(** ** Steps *)
Definition get {B} (f : Env → State N → B) (e : Env) (s : State N) : B * State N := (f e s, s).
Definition update (f : Env → State N → State N) (e : Env) (s : State N) : unit * State N := (tt, f e s).
Definition put i (f : Registration N → Registration N) : Env → State N → unit * State N :=
  update (λ _ s, s <| registrations ::= alter f i |>).
Definition read {B} i (f : Registration N → B) : Env → State N → B * State N := get (λ _ s, f (registrations s i)).
Definition mutate i (f : RegistrationRecord → RegistrationRecord) : Env → State N → unit * State N :=
  put i (λ r, r <| record ::= f |>).

(** A call on the work item. *)
Definition on_work {B} i (p : Prog Call (Work N) B) : Program B :=
  focus item_call (λ s, work (registrations s i))
    (λ w s, s <| registrations ::= alter (λ r, r <| work := w |>) i |>) p.
Definition triggered i : bool := bool_decide (kind (traits i) = PollTriggered).
Definition work_pending i (r : Registration N) : bool :=
  if triggered i then trigger_pending (work r) else WorkItems.pending (work r).

Definition refreshed i (r : Registration N) : RegistrationRecord :=
  let busy := work_pending i r in
  record r <| r_accepting := accepting r |> <| r_in_flight := in_flight r |> <| pending_count := pending r |>
    <| queued_now := busy |> <| quiescent := negb (in_flight r) && negb busy && (pending r =? 0) |>.
Definition copy i (_ : Env) (s : State N) : RegistrationRecord * State N :=
  let found := refreshed i (registrations s i) in
  (found, s <| registrations ::= alter (λ r, r <| record := found |>) i |>).

(** ** Errors *)
Definition make_error i (operation : Operation) (status : Status) (reason : ErrorReason) (native : Z) : Program Error :=
  found ← copy i; Done (mkError status reason operation (availability found) native).
Definition work_reason (reason : WorkErrorReason) : ErrorReason :=
  match reason with
  | WBusy => WorkCancelling
  | WQueueNotStarted => QueueStopped
  | WInvalidContext | WDeadlock => InvalidContext
  | _ => NativeFailure
  end.
Definition make_work_error i (operation : Operation) (error : WorkError) : Program Error :=
  make_error i operation (w_status error) (work_reason (w_reason error)) (w_native error).
Definition refuse {B} i (operation : Operation) (status : Status) (reason : ErrorReason) :
    Program (result Error B) :=
  e ⇇ make_error i operation status reason 0; Done (Err e).
Definition refuse_work {B} i (operation : Operation) (error : WorkError) : Program (result Error B) :=
  e ⇇ make_work_error i operation error; Done (Err e).
Definition record_runtime_failure i (status : Status) : Env → State N → unit * State N :=
  update (λ _ s, s <| last_failure := Some (i, status) |>).

(** ** Validation and initialization *)
Definition validate_registration i : Program (result Status unit) :=
  ready ← get (λ _ s, on_system_queue (traits i) || executor_started s);
  Done (if negb ready then Err SNotReady
        else if triggered i && (poll_events (traits i) =? 0)%nat then Err SInvalid
        else Ok tt).

Definition initialize_registration i : Program (result Status unit) :=
  valid ⇇ validate_registration i;
  match valid with
  | Err status => _ ← record_runtime_failure i status; Done (Err status)
  | Ok _ => _ ← mutate i (λ _, fresh_record Inactive SOk true); Done (Ok tt)
  end.

(** ** Submission *)
Definition is_counted i : bool := match capacity (traits i) with Some _ => true | None => false end.
Definition submit_native i (from_isr : bool) : Program (result WorkError WorkSubmission) :=
  on_work i (if from_isr then try_submit_isr else submit).

Definition submitted (native : WorkSubmission) (from_isr counted_in : bool) (time : Z) (r : RegistrationRecord) :
    RegistrationRecord :=
  let r := r <| submissions ::= inc64 |> <| isr_submissions ::= (λ n, if from_isr then inc64 n else n) |>
             <| release_attempts ::= inc64 |> <| queued ::= inc64 |> <| last_release := time |>
             <| last_status := SOk |> <| queued_now := true |> <| quiescent := false |> in
  if counted_in then r <| counted ::= inc64 |>
  else match native with
       | AlreadyQueued => r <| already_pending ::= inc64 |>
       | RequeuedAfterCurrent => r <| requeued ::= inc64 |>
       | Queued => r
       end.
Definition update_submission_record i (native : WorkSubmission) (from_isr counted_in : bool) : Program unit :=
  _ ← update (λ e s, s <| registrations ::= alter (λ r, r <| record ::= submitted native from_isr counted_in (now e) |>) i |>);
  Done tt.

(** The compare-exchange of the admission counter; [Err] is the value found. *)
Definition exchange_pending i (expected desired : Z) (e : Env) (s : State N) : result Z unit * State N :=
  if (pending (registrations s i) =? expected) && negb (weak_failure e)
  then (Ok tt, s <| registrations ::= alter (λ r, r <| pending := desired |>) i |>)
  else (Err (pending (registrations s i)), s).
Fixpoint claim_loop (fuel : nat) i (limit found : Z) : Program (option Z) :=
  if limit <=? found then Done None else
  match fuel with
  | O => Stalled
  | S fuel =>
    taken ← exchange_pending i found (inc32 found);
    match taken with
    | Ok _ => Done (Some (inc32 found))
    | Err found => claim_loop fuel i limit found
    end
  end.
(** [None]: the registration has all the work it admits. *)
Definition claim (fuel : nat) i : Program (option Z) :=
  match capacity (traits i) with
  | None => Done (Some 1)
  | Some limit => found ← read i pending; claim_loop fuel i limit found
  end.

Definition submission_disposition (native : WorkSubmission) : SubmissionDisposition :=
  match native with AlreadyQueued => AlreadyPending | Queued => WasQueued | RequeuedAfterCurrent => Requeued end.
Definition note_accepted (accepted : Z) (r : RegistrationRecord) : RegistrationRecord :=
  r <| pending_count := accepted |> <| pending_high_water ::= Z.max accepted |>.

Definition submit_registration (fuel : nat) i (from_isr : bool) : Program (result Error Submission) :=
  let operation := if from_isr then OpSubmitIsr else OpSubmit in
  interrupt ← get (λ e _, in_isr (item_call e));
  if negb from_isr && interrupt then refuse i OpSubmit SInvalid InvalidContext else
  open ← read i accepting;
  if negb open then
    held ← read i suspended;
    refuse i operation SNotReady (if held then RegistrationSuspended else RegistrationInactive)
  else
  admitted ⇇ claim fuel i;
  match admitted with
  | None =>
    _ ← mutate i (λ r, r <| admission_rejected ::= inc64 |>);
    refuse i operation SFull AdmissionFull
  | Some accepted =>
    native ⇇ submit_native i from_isr;
    match native with
    | Err error =>
      _ ← put i (λ r, if is_counted i then r <| pending ::= (λ n, u32 (n - 1)) |> else r);
      refuse_work i operation error
    | Ok native =>
      _ ⇇ update_submission_record i native from_isr (is_counted i);
      _ ← mutate i (λ r, if is_counted i then note_accepted accepted r else r);
      sequence ← copy i;
      Done (Ok (mkSubmission (if is_counted i then CountedIn else submission_disposition native)
                  accepted (release_attempts sequence) from_isr))
    end
  end.

Definition schedule_registration i (delay : Z) (replace : bool) : Program (result Error Submission) :=
  let operation := if replace then OpReschedule else OpSchedule in
  interrupt ← get (λ e _, in_isr (item_call e));
  if interrupt : bool then refuse i operation SInvalid InvalidContext else
  open ← read i accepting;
  if negb open then refuse i operation SNotReady RegistrationInactive else
  native ⇇ on_work i (if replace then reschedule delay else schedule delay);
  match native with
  | Err error => refuse_work i operation error
  | Ok native =>
    _ ⇇ update_submission_record i native false false;
    _ ← mutate i (λ r, r <| armed := true |>);
    sequence ← copy i;
    Done (Ok (mkSubmission (submission_disposition native) 1 (release_attempts sequence) false))
  end.

(** ** Cancellation *)
Definition cancel_work i (synchronous : bool) : Program (result Error unit) :=
  if synchronous then
    result ⇇ on_work i (if triggered i then cancel_trigger_sync else cancel_sync);
    match result with Err error => refuse_work i OpCancelSync error | Ok _ => Done (Ok tt) end
  else if triggered i then
    result ⇇ on_work i cancel_trigger;
    match result with
    | Err error =>
      if bool_decide (error_status error = SBusy) then Done (Ok tt)
      else refuse i OpCancel (error_status error) NativeFailure
    | Ok _ => Done (Ok tt)
    end
  else _ ⇇ on_work i cancel; Done (Ok tt).

Definition cancel_registration i (synchronous : bool) : Program (result Error Cancellation) :=
  interrupt ← get (λ e _, in_isr (item_call e));
  if interrupt && synchronous then refuse i OpCancelSync SInvalid InvalidContext else
  was_pending ← read i (work_pending i);
  result ⇇ cancel_work i synchronous;
  match result with
  | Err error => Done (Err error)
  | Ok _ =>
    _ ← put i (λ r, if is_counted i then r <| pending := 0 |> else r);
    busy ← read i (work_pending i);
    running ← (if busy : bool then get (λ _ _, false) else read i in_flight);
    let still := negb busy && negb running in
    _ ← put i (λ r, r <| record ::= λ c, c <| cancelled ::= (λ n, if was_pending : bool then inc64 n else n) |>
                                   <| queued_now := work_pending i r |> <| quiescent := still |> |>);
    Done (Ok (mkCancellation was_pending still))
  end.

Definition flush_registration i : Program (result Error Cancellation) :=
  interrupt ← get (λ e _, in_isr (item_call e));
  if interrupt : bool then refuse i OpFlush SInvalid InvalidContext else
  result ⇇ on_work i (if triggered i then flush_trigger else flush);
  match result with
  | Err error => refuse_work i OpFlush error
  | Ok _ => busy ← read i (work_pending i); Done (Ok (mkCancellation false (negb busy)))
  end.

(** ** The handler *)
Definition ended (result : option Status) (began ended : Z) (r : RegistrationRecord) : RegistrationRecord :=
  r <| completed ::= inc64 |> <| failed ::= (λ n, match result with Some _ => inc64 n | None => n end) |>
    <| last_status := to_status result |> <| last_completion := ended |> <| last_duration := ended - began |>
    <| maximum_duration ::= Z.max (ended - began) |> <| r_in_flight := false |>.
Definition fails (result : option Status) : bool := match result with Some _ => true | None => false end.

Definition suspend i : Program unit :=
  _ ← put i (λ r, r <| suspended := true |>);
  _ ← put i (λ r, r <| accepting := false |>);
  _ ← mutate i (λ r, r <| availability := Suspended |> <| r_accepting := false |>);
  Done tt.
Definition finish_invocation i (result : option Status) (began : Z) : Program unit :=
  time ← get (λ e _, now e);
  _ ← put i (λ r, r <| in_flight := false |>);
  _ ← mutate i (ended result began time);
  if fails result && suspends (traits i) then suspend i else Done tt.

(** The loop that skips the releases missed. *)
Fixpoint skip_releases (fuel : nat) (period time release missed : Z) : option (Z * Z) :=
  if negb (release <=? time) then Some (release, missed) else
  match fuel with
  | O => None
  | S fuel => skip_releases fuel period time (release + period) (inc64 missed)
  end.
Definition late (missed : Z) (r : RegistrationRecord) : RegistrationRecord :=
  r <| missed_releases ::= (λ n, u64 (n + missed)) |> <| overruns ::= inc64 |>.

(** The next release; only the handler uses the field. *)
Definition plan_release i : Program Z :=
  time ← get (λ e _, now e);
  if fixed_delay (traits i) then
    _ ← put i (λ r, r <| next_release := time + period_ticks (traits i) |>);
    Done (period_ticks (traits i))
  else
    base ← read i next_release;
    let first := base + period_ticks (traits i) in
    match skip_releases (S (Z.to_nat (time - base))) (period_ticks (traits i)) time first 0 with
    | None => Stalled
    | Some (release, missed) =>
      _ ← put i (λ r, r <| next_release := release |>);
      if missed =? 0 then Done (release - time)
      else _ ← mutate i (late missed); Done (release - time)
    end.

Definition out_of_service i (status : Status) : Program unit :=
  _ ← mutate i (λ r, r <| last_status := status |> <| availability := Failed |>);
  _ ← put i (λ r, r <| accepting := false |>);
  Done tt.

Definition resubmit_counted i : Program unit :=
  more ← read i pending;
  if more =? 0 then Done tt else
  open ← read i accepting;
  allowed ← (if open : bool then get (λ _ _, true) else read i draining);
  if negb allowed then Done tt else
  _ ⇇ submit_native i false; Done tt.

Definition continue_registration i : Program unit :=
  match kind (traits i) with
  | OnDemand => if is_counted i then resubmit_counted i else Done tt
  | Periodic =>
    open ← read i accepting;
    if negb open then Done tt else
    delay ⇇ plan_release i;
    scheduled ⇇ on_work i (schedule delay);
    match scheduled with
    | Err error =>
      _ ⇇ out_of_service i (w_status error);
      _ ← record_runtime_failure i (w_status error); Done tt
    | Ok native =>
      _ ⇇ update_submission_record i native false false;
      _ ← mutate i (λ r, r <| armed := true |>); Done tt
    end
  | PollTriggered =>
    if negb (auto_rearm (traits i)) then Done tt else
    open ← read i accepting;
    if negb open then Done tt else
    armed ⇇ on_work i (submit_events (poll_events (traits i)));
    match armed with Err error => out_of_service i (w_status error) | Ok _ => Done tt end
  | _ => Done tt
  end.

(** One unit of the admitted work; [false]: there is none. *)
Fixpoint consume_loop (fuel : nat) i (found : Z) : Program bool :=
  if found =? 0 then Done false else
  match fuel with
  | O => Stalled
  | S fuel =>
    taken ← exchange_pending i found (found - 1);
    match taken with
    | Ok _ => Done true
    | Err found => consume_loop fuel i found
    end
  end.
Definition consume (fuel : nat) i : Program bool :=
  if is_counted i then found ← read i pending; consume_loop fuel i found else Done true.

Definition begun (time : Z) (r : RegistrationRecord) : RegistrationRecord :=
  r <| started ::= inc64 |> <| last_start := time |> <| r_in_flight := true |> <| armed := false |>
    <| quiescent := false |>.
Definition check_deadline i : Program unit :=
  match kind (traits i), deadline_ticks (traits i) with
  | Periodic, Some limit =>
    elapsed ← get (λ e s, now e - next_release (registrations s i));
    if limit <? elapsed then _ ← mutate i (λ r, r <| deadline_misses ::= inc64 |>); Done tt else Done tt
  | _, _ => Done tt
  end.

Definition handle (fuel : nat) i : Program unit :=
  work ⇇ consume fuel i;
  if negb work then Done tt else
  began ← get (λ e _, now e);
  _ ← put i (λ r, r <| in_flight := true |>);
  _ ← mutate i (begun began);
  result ← get (λ e _, behavior e);
  _ ⇇ check_deadline i;
  _ ⇇ finish_invocation i result began;
  continue_registration i.

(** ** Activation *)
Definition activated (r : RegistrationRecord) : RegistrationRecord :=
  r <| availability := Active |> <| active := true |> <| r_accepting := true |> <| quiescent := true |>.
(** The field is set before the record, which the failure of [continue] does the
    other way round. *)
Definition activation_failed i (error : WorkError) : Program (result Status unit) :=
  _ ← put i (λ r, r <| accepting := false |>);
  _ ← mutate i (λ r, r <| availability := Failed |> <| last_status := w_status error |>);
  _ ← record_runtime_failure i (w_status error);
  Done (Err (w_status error)).
Definition activate_registration i : Program (result Status unit) :=
  _ ← put i (λ r, r <| accepting := true |>);
  _ ← mutate i activated;
  match kind (traits i) with
  | Periodic =>
    time ← get (λ e _, now e);
    let delay := if immediate (traits i) then 0 else period_ticks (traits i) in
    _ ← put i (λ r, r <| next_release := time + delay |>);
    scheduled ⇇ on_work i (schedule delay);
    match scheduled with
    | Err error => activation_failed i error
    | Ok native =>
      _ ⇇ update_submission_record i native false false;
      _ ← mutate i (λ r, r <| armed := true |>); Done (Ok tt)
    end
  | PollTriggered =>
    result ⇇ on_work i (submit_events (poll_events (traits i)));
    match result with
    | Err error => activation_failed i error
    | Ok _ => _ ← mutate i (λ r, r <| armed := true |> <| quiescent := false |>); Done (Ok tt)
    end
  | _ => Done (Ok tt)
  end.

(** ** Stopping *)
Definition request_registration_stop i : Program unit :=
  _ ← put i (λ r, r <| accepting := false |>);
  _ ← put i (λ r, r <| draining := drains (traits i) |>);
  _ ← put i (λ r, r <| stop_token := true |>);
  _ ← mutate i (λ r, r <| r_accepting := false |> <| stop_requested := true |> <| availability := Stopping |>);
  Done tt.

Definition begin_registration_containment i : Program unit :=
  if negb (drains (traits i)) then _ ⇇ cancel_registration i false; Done tt else
  match kind (traits i) with
  | Delayable =>
    busy ← read i (work_pending i);
    running ← (if busy : bool then read i in_flight else get (λ _ _, true));
    if running : bool then Done tt else _ ⇇ on_work i (reschedule 0); Done tt
  | Periodic => _ ⇇ on_work i cancel; Done tt
  | PollTriggered => _ ⇇ on_work i cancel_trigger; Done tt
  | _ => Done tt
  end.

(** The three reads, each only if those before it say yes. *)
Definition registration_quiescent i : Program bool :=
  running ← read i in_flight;
  if running : bool then Done false else
  busy ← read i (work_pending i);
  if busy : bool then Done false else
  left ← read i pending; Done (left =? 0).

Definition at_rest (r : RegistrationRecord) : RegistrationRecord :=
  r <| availability := Quiescent |> <| active := false |> <| armed := false |> <| queued_now := false |>
    <| r_in_flight := false |> <| quiescent := true |>.
Fixpoint wait_registration_quiescent (rounds : nat) i : Program bool :=
  match rounds with
  | O => Stalled
  | S rounds =>
    rest ⇇ registration_quiescent i;
    if rest : bool then
      _ ← put i (λ r, r <| draining := false |>);
      _ ← mutate i at_rest; Done true
    else
      expired ← get (λ e _, deadline_expired e);
      if expired : bool then Done false else wait_registration_quiescent rounds i
  end.

(** ** All registrations *)
Fixpoint for_each (p : nat → Program unit) (ids : list nat) : Program unit :=
  match ids with [] => Done tt | i :: ids => _ ⇇ p i; for_each p ids end.
Fixpoint first_failure (p : nat → Program (result Status unit)) (ids : list nat) : Program (result Status unit) :=
  match ids with
  | [] => Done (Ok tt)
  | i :: ids => r ⇇ p i; match r with Err status => Done (Err status) | Ok _ => first_failure p ids end
  end.
Definition prepare_registrations (all : list nat) := first_failure initialize_registration all.
Definition validate_registrations (all : list nat) := first_failure validate_registration all.
Definition activate_registrations (all : list nat) : Program unit :=
  for_each (λ i, r ⇇ activate_registration i;
                 match r with Err status => _ ← record_runtime_failure i status; Done tt | Ok _ => Done tt end) all.
Definition request_registrations_stop (all : list nat) : Program (result Status unit) :=
  _ ⇇ for_each request_registration_stop all; Done (Ok tt).

Definition abandoned (r : RegistrationRecord) : RegistrationRecord :=
  r <| availability := Failed |> <| last_status := STimeout |> <| quiescent := false |>.
Fixpoint wait_all (rounds : nat) (ids : list nat) (n : Z) : Program Z :=
  match ids with
  | [] => Done n
  | i :: ids =>
    rest ⇇ wait_registration_quiescent rounds i;
    if rest || negb (on_system_queue (traits i)) then wait_all rounds ids n else
    _ ← put i (λ r, r <| uncontained := true |>);
    _ ← mutate i abandoned;
    _ ← record_runtime_failure i STimeout;
    wait_all rounds ids (n + 1)
  end.
Definition contain_registrations (rounds : nat) (all : list nat) : Program Containment :=
  _ ⇇ for_each begin_registration_containment all;
  n ⇇ wait_all rounds all 0;
  _ ← update (λ _ s, s <| uncontained_system_registrations := n |>);
  Done (if n =? 0 then contained else mkContainment STimeout false false true false false).

(** ** Executors *)
Definition mutate_executor (f : ExecutorRecord → ExecutorRecord) : Env → State N → unit * State N :=
  update (λ _ s, s <| executor ::= f |>).

Definition prepare_executor : Program (result Status unit) :=
  _ ← mutate_executor (λ _, fresh_executor);
  answer ← (λ e s, (queue_start e, if fails (queue_start e) then s else s <| executor_started := true |>));
  let ok := negb (fails answer) in
  _ ← mutate_executor (λ x, x <| x_last_status := to_status answer |> <| x_started := ok |> <| x_accepting := false |>
                               <| containment := if ok then Prepared else NotPrepared |>);
  Done (match answer with None => Ok tt | Some status => Err status end).
Definition validate_executor : Program (result Status unit) :=
  ready ← get (λ _ s, executor_started s); Done (if ready : bool then Ok tt else Err SNotReady).
Definition activate_executor : Program unit :=
  _ ← mutate_executor (λ x, x <| x_accepting := true |> <| x_last_status := SOk |>); Done tt.
Definition request_executor_stop : Program (result Status unit) :=
  _ ← mutate_executor (λ x, x <| x_accepting := false |> <| x_draining := true |>); Done (Ok tt).

Definition mark_executor_registrations_contained (own : list nat) (forced : bool) : Program unit :=
  for_each (λ i,
    _ ← put i (λ r, r <| uncontained := false |>);
    _ ← put i (λ r, r <| in_flight := false |>);
    _ ← put i (λ r, if is_counted i then r <| pending := 0 |> else r);
    _ ← mutate i (λ r, at_rest r <| last_status ::= λ st, if forced then SCancelled else st |>);
    Done tt) own.

Fixpoint all_quiescent (rounds : nat) (ids : list nat) : Program bool :=
  match ids with
  | [] => Done true
  | i :: ids => rest ⇇ wait_registration_quiescent rounds i; others ⇇ all_quiescent rounds ids; Done (rest && others)
  end.
(** [drain(true)], then [stop]; a queue that has stopped has not [started]. *)
Definition drain_and_stop (own : list nat) : Program bool :=
  drained ← get (λ e _, queue_drain e);
  if fails drained then Done false else
  _ ← mutate_executor (λ x, x <| x_draining := false |> <| plugged := true |>);
  stop ← (λ e s, (queue_stop e, if fails (queue_stop e) then s else s <| executor_started := false |>));
  if fails stop then Done false else
  _ ← mutate_executor (λ x, x <| stopped := true |> <| plugged := false |> <| x_last_status := SOk |> <| containment := Clean |>);
  _ ⇇ mark_executor_registrations_contained own false;
  Done true.
Definition abort_executor (own : list nat) : Program Containment :=
  _ ← mutate_executor (λ x, x <| abort_attempted := true |>);
  answer ← (λ e s, (queue_abort e, if fails (queue_abort e) then s else s <| executor_started := false |>));
  let status := to_status answer in
  let aborted := negb (fails answer) || bool_decide (status = SAlready) in
  _ ← mutate_executor (λ x, x <| abort_succeeded := aborted |> <| abort_failed := negb aborted |> <| stopped := aborted |>
                               <| x_last_status := if aborted then STimeout else status |>
                               <| containment := if aborted then Forced else Uncontained |>);
  _ ⇇ (if aborted then mark_executor_registrations_contained own true else Done tt);
  Done (mkContainment (if aborted then STimeout else status) aborted aborted true true (negb aborted)).
Definition contain_executor (rounds : nat) (own : list nat) (abort_on_timeout : bool) : Program Containment :=
  rest ⇇ all_quiescent rounds own;
  clean ⇇ (if rest : bool then drain_and_stop own else Done false);
  if clean : bool then Done contained else
  _ ← mutate_executor (λ x, x <| timed_out := true |>);
  if abort_on_timeout then abort_executor own else
  _ ← mutate_executor (λ x, x <| x_last_status := STimeout |> <| containment := Uncontained |>);
  Done (mkContainment STimeout false false true false false).

(** ** The threads of a system *)

(** The thread of a work queue runs the handler of an item it finds queued;
    a triggered item gives up its claim when the handler has returned. *)
Definition take_work i (_ : Env) (s : State N) : bool * State N :=
  match k_take (native (work (registrations s i))) with
  | Some n => (true, s <| registrations ::= alter (λ r, r <| work ::= λ w, w <| native := n |> |>) i |>)
  | None => (false, s)
  end.
Definition invoke (fuel : nat) i : Program unit :=
  _ ⇇ handle fuel i;
  if triggered i then on_work i (_ ← set_claimed false; Done tt) else Done tt.
Fixpoint worker (fuel rounds : nat) i : Program unit :=
  match rounds with
  | O => Done tt
  | S rounds =>
    taken ← take_work i;
    if taken : bool then
      _ ⇇ invoke fuel i;
      _ ← put i (λ r, r <| work ::= λ w, w <| native ::= k_finish |> |>);
      worker fuel rounds i
    else worker fuel rounds i
  end.

(** A client submits, as often as it likes, from a thread or an interrupt. *)
Fixpoint client (fuel : nat) i (calls : list bool) : Program (list (result Error Submission)) :=
  match calls with
  | [] => Done []
  | from_isr :: calls =>
    r ⇇ submit_registration fuel i from_isr;
    rs ⇇ client fuel i calls; Done (r :: rs)
  end.
End Execution.
End Registrations.
