(* ===== verification/ExecutionProps.v ===== *)
(** * ExecutionProps: admitted work runs once

    The books of a counted registration: what each client has been promised
    and what each worker has taken and run.  Under every interleaving the
    admission counter is the difference, and work that is owed is in the queue
    or in somebody's hands. *)
From stdpp Require Import prelude functions.
From S2P Require Import Prelude Status Interleave KernelWork Execution.
Import WorkItems Registrations.

Open Scope Z_scope.
Open Scope solar_scope.
Open Scope prog_scope.

Module Admission.

(** What a thread has been promised, consumed and run; [claiming]: promised and not
    yet queued; [working]: taken from the queue and not yet looked again. *)
Record Books : Set := mkBooks { promised : nat; consumed : nat; ran : nat; claiming : bool; working : bool }.
#[export] Instance Books_fields : Fields Books := λ g,
  mkBooks (promised g) (consumed g) (ran g) (claiming g) (working g).
Definition no_books : Books := mkBooks 0 0 0 false false.

Section Admission.
Context `{Errno} {N : Type} `{Kernel N} `{!KernelLaws N} (traits : nat → Traits) (i : nat) (limit : Z).
Context (Hcapacity : capacity (traits i) = Some limit) (Hlimit : 0 < limit < 2 ^ 32).
Context (Hkind : kind (traits i) = OnDemand) (Hsuspends : suspends (traits i) = false).
Local Abbreviation Program := (Prog Env (State N)).
Implicit Types (s : State N) (g : Books) (gs : list Books) (t : nat).

Definition busy g : bool := claiming g || working g.
Definition total (f : Books → nat) (gs : list Books) : nat := sum_list_with f gs.

Definition queued_in s : bool := k_queued (native (work (registrations s i))).

Record tallied (gs : list Books) s : Prop := {
  bk_counts : Z.of_nat (total promised gs) = pending (registrations s i) + Z.of_nat (total consumed gs);
  bk_range : 0 ≤ pending (registrations s i) ≤ limit;
  bk_ran : started (record (registrations s i)) = u64 (Z.of_nat (total ran gs));
  bk_owed : pending (registrations s i) = 0 ∨ queued_in s = true
            ∨ ∃ t g, gs !! t = Some g ∧ busy g = true;
  bk_accepting : accepting (registrations s i) = true }.

(** The kernel goes along. *)
Definition willing (e : Env) : Prop := refuses (item_call e) = false.
Local Abbreviation safe := (safe tallied willing).

(** ** Steps that do not matter *)
Record unmoved s s' : Prop := {
  cm_pending : pending (registrations s' i) = pending (registrations s i);
  cm_queued : queued_in s' = queued_in s;
  cm_accepting : accepting (registrations s' i) = accepting (registrations s i);
  cm_started : started (record (registrations s' i)) = started (record (registrations s i)) }.
Lemma tallied_unmoved gs s s' : tallied gs s → unmoved s s' → tallied gs s'.
Proof. intros [H1 H2 H3 H4 H5] [C1 C2 C3 C4]. split; by rewrite ?C1, ?C2, ?C3, ?C4. Qed.

Lemma unmoved_refl s : unmoved s s.
Proof. by split. Qed.
Lemma unmoved_put f s :
  (∀ r : Registration N, pending (f r) = pending r ∧ k_queued (native (work (f r))) = k_queued (native (work r))
        ∧ accepting (f r) = accepting r ∧ started (record (f r)) = started (record r)) →
  unmoved s (s <| registrations ::= alter f i |>).
Proof. intros Hf. destruct (Hf (registrations s i)) as (? & ? & ? & ?). split; unfold queued_in; simpl; by rewrite fn_lookup_alter. Qed.

Lemma unmoved_copy e s : unmoved s (copy traits i e s).2.
Proof. split; unfold queued_in; simpl; by rewrite fn_lookup_alter. Qed.

Ltac unmoved_step := intros ? ?; first [apply unmoved_refl | apply unmoved_copy | apply unmoved_put; by intros []].

Lemma frames_refuse {B} operation status reason :
  frames unmoved (A := result Error B) (refuse traits i operation status reason).
Proof. split; [unmoved_step|done]. Qed.
Lemma frames_update native from_isr counted_in : frames unmoved (update_submission_record (N := N) i native from_isr counted_in).
Proof.
  split; [|done]. intros e s. apply unmoved_put. intros r. destruct native, counted_in, from_isr; done.
Qed.

(** A step that only looks. *)
Ltac look_step :=
  let e := fresh "e" in let s := fresh "s" in let gs := fresh "gs" in
  let HI := fresh "HI" in
  intros e s gs ? ? HI; eexists; rewrite list_insert_id by done; split; [exact HI|]; unfold read, get; cbn [fst snd].

(** ** Steps that do *)
Definition same_counts g g' : Prop := promised g' = promised g ∧ consumed g' = consumed g ∧ ran g' = ran g.

Lemma total_insert (f : Books → nat) gs t g g' :
  gs !! t = Some g → (total f (<[t := g']> gs) + f g = total f gs + f g')%nat.
Proof. intros Hg. pose proof (sum_insert f gs t g g' Hg). unfold total. lia. Qed.
Lemma total_same (f : Books → nat) gs t g g' : gs !! t = Some g → f g' = f g → total f (<[t := g']> gs) = total f gs.
Proof. intros Hg Hf. pose proof (total_insert f gs t g g' Hg). lia. Qed.

Lemma owed_insert gs t g g' :
  gs !! t = Some g → (busy g = true → busy g' = true) →
  (∃ u h, gs !! u = Some h ∧ busy h = true) → ∃ u h, <[t := g']> gs !! u = Some h ∧ busy h = true.
Proof.
  intros Hg Hbusy (u & h & Hu & Hh). destruct (decide (u = t)) as [->|Hne].
  - exists t, g'. split; [apply list_lookup_insert_eq; by eapply lookup_lt_Some|]. apply Hbusy. by simplify_eq.
  - exists u, h. by rewrite list_lookup_insert_ne.
Qed.
Lemma owed_self gs t g g' :
  gs !! t = Some g → busy g' = true → ∃ u h, <[t := g']> gs !! u = Some h ∧ busy h = true.
Proof. intros Hg Hb. exists t, g'. split; [|done]. apply list_lookup_insert_eq. by eapply lookup_lt_Some. Qed.

(** The work is in the queue, or there is none: nobody need be busy. *)
Lemma tallied_settled gs s s' t g g' :
  tallied gs s → gs !! t = Some g → same_counts g g' →
  pending (registrations s' i) = pending (registrations s i) → accepting (registrations s' i) = accepting (registrations s i) →
  started (record (registrations s' i)) = started (record (registrations s i)) →
  (pending (registrations s i) = 0 ∨ queued_in s' = true ∨ busy g' = true) →
  tallied (<[t := g']> gs) s'.
Proof.
  intros [H1 H2 H3 H4 H5] Hg (Hc & Hd & Hr) Hp Ha Hst Howed.
  split; rewrite ?(total_same promised gs t g), ?(total_same consumed gs t g), ?(total_same ran gs t g), ?Hp, ?Ha, ?Hst by done;
    [done..| |done].
  destruct Howed as [Hz|[Hq|Hb]]; [by left|by right; left|right; right; by eapply owed_self].
Qed.

Lemma queued_put (f : Registration N → Registration N) s :
  (∀ r, work (f r) = work r) → queued_in (s <| registrations ::= alter f i |>) = queued_in s.
Proof. intros Hf. unfold queued_in. simpl. by rewrite fn_lookup_alter, Hf. Qed.

Lemma tallied_claim gs s t g :
  tallied gs s → gs !! t = Some g → pending (registrations s i) < limit →
  tallied (<[t := g <| promised ::= S |> <| claiming := true |>]> gs)
    (s <| registrations ::= alter (λ r, r <| pending := inc32 (pending (registrations s i)) |>) i |>).
Proof.
  intros [H1 H2 H3 H4 H5] Hg Hlt. set (g' := g <| promised ::= S |> <| claiming := true |>).
  pose proof (total_insert promised gs t g g' Hg) as Hc. change (promised g') with (S (promised g)) in Hc.
  assert (Hinc : inc32 (pending (registrations s i)) = pending (registrations s i) + 1)
    by (unfold inc32; apply wrap_small; word_lia).
  split; simpl; rewrite ?fn_lookup_alter; simpl; rewrite ?Hinc, ?(total_same consumed gs t g), ?(total_same ran gs t g) by done;
    [lia|lia|done| |done].
  right; right. by eapply owed_self.
Qed.

Lemma tallied_consume gs s t g :
  tallied gs s → gs !! t = Some g → pending (registrations s i) ≠ 0 →
  tallied (<[t := g <| consumed ::= S |>]> gs)
    (s <| registrations ::= alter (λ r, r <| pending := pending (registrations s i) - 1 |>) i |>).
Proof.
  intros [H1 H2 H3 H4 H5] Hg Hne. set (g' := g <| consumed ::= S |>).
  pose proof (total_insert consumed gs t g g' Hg) as Hc. change (consumed g') with (S (consumed g)) in Hc.
  split; simpl; rewrite ?fn_lookup_alter; simpl; rewrite ?(total_same promised gs t g), ?(total_same ran gs t g) by done;
    [lia|lia|done| |done].
  destruct H4 as [H4|[H4|H4]]; [done|right; left; by rewrite queued_put|]. right; right. by eapply owed_insert.
Qed.

Lemma tallied_begin gs s t g time :
  tallied gs s → gs !! t = Some g →
  tallied (<[t := g <| ran ::= S |>]> gs) (s <| registrations ::= alter (λ r, r <| record ::= begun time |>) i |>).
Proof.
  intros [H1 H2 H3 H4 H5] Hg. set (g' := g <| ran ::= S |>).
  pose proof (total_insert ran gs t g g' Hg) as Hc. change (ran g') with (S (ran g)) in Hc.
  split; simpl; rewrite ?fn_lookup_alter; simpl; rewrite ?(total_same promised gs t g), ?(total_same consumed gs t g) by done;
    [done|done| | |done].
  - rewrite H3, inc64_u64. f_equal. lia.
  - destruct H4 as [H4|[H4|H4]]; [by left|right; left; by rewrite queued_put|]. right; right. by eapply owed_insert.
Qed.

(** ** Clients *)
Lemma safe_unmoved {A B} t Q g (f : Env → State N → B * State N) (k : B → Program A) :
  (∀ e s, unmoved s (f e s).2) → (∀ b, safe t Q g (k b)) → safe t Q g (Then f k).
Proof.
  intros Hf Hk e s gs _ Hg HI. exists g. rewrite list_insert_id by done. split; [by eapply tallied_unmoved|done].
Qed.
Lemma safe_frames_then {A B} t Q g (p : Program B) (k : B → Program A) :
  frames unmoved p → (∀ b, safe t Q g (k b)) → safe t Q g (bind p k).
Proof. apply safe_frames_bind. apply tallied_unmoved. Qed.

Definition settled g : Prop := claiming g = false ∧ working g = false ∧ consumed g = ran g.
Definition claims g g' : Prop := g' = g <| promised ::= S |> <| claiming := true |>.

Lemma safe_claim_loop t fuel found g :
  safe t (λ g' a, match a with Some _ => claims g g' | None => g' = g end) g (claim_loop fuel i limit found).
Proof.
  revert found. induction fuel as [|fuel IH]; intros found; cbn [claim_loop]; destruct (Z.leb_spec limit found); try done.
  intros e s gs He Hg HI. unfold exchange_pending. destruct (_ && _) eqn:Hx; cbn [fst snd].
  - apply andb_prop in Hx as [<-%Z.eqb_eq _]. eexists. split; [by apply tallied_claim|done].
  - exists g. rewrite list_insert_id by done. split; [done|apply IH].
Qed.
Lemma safe_claim t fuel g :
  safe t (λ g' a, match a with Some _ => claims g g' | None => g' = g end) g (claim traits fuel i).
Proof. unfold claim. rewrite Hcapacity. apply safe_unmoved; [unmoved_step|]. intros found. apply safe_claim_loop. Qed.

(** The kernel takes the item: whoever holds the work may let it go. *)
Lemma work_submission_ok answer : 0 ≤ answer ≤ 2 → ∃ native, work_submission answer = Some (Ok native).
Proof.
  intros Ha. unfold work_submission. destruct (Z.eqb_spec answer 0); [by eexists|].
  destruct (Z.eqb_spec answer 1); [by eexists|]. destruct (Z.eqb_spec answer 2); [by eexists|]. lia.
Qed.
Lemma safe_submit_native t from_isr g :
  safe t (λ g' r, g' = g <| claiming := false |> <| working := false |> ∧ ∃ native, r = Ok native) g
    (submit_native i from_isr).
Proof.
  assert (Hsub : safe t (λ g' r, g' = g <| claiming := false |> <| working := false |> ∧ ∃ native, r = Ok native) g
    (on_work i (submit (N := N)))); [|by destruct from_isr].
  intros e s gs He Hgs HI. unfold call. rewrite He.
  pose proof (submit_goes (native (work (registrations s i)))) as Hgo.
  pose proof (submit_queued false (native (work (registrations s i)))) as Hq.
  destruct (k_submit false (native (work (registrations s i)))) as [answer n]. cbn [fst snd] in *.
  destruct (work_submission_ok answer Hgo) as [native Hn]. rewrite Hn.
  exists (g <| claiming := false |> <| working := false |>). split; [|simpl; by eauto].
  eapply tallied_settled; [done|done|done|simpl; by rewrite fn_lookup_alter..|]. right; left.
  unfold queued_in. simpl. rewrite fn_lookup_alter. simpl. apply Hq. lia.
Qed.

Definition accepted_one {E A} (r : result E A) : nat := if is_ok r then 1 else 0.

Lemma safe_submit t fuel from_isr g :
  settled g →
  safe t (λ g' r, settled g' ∧ promised g' = (promised g + accepted_one r)%nat) g (submit_registration traits fuel i from_isr).
Proof.
  intros Hg. unfold submit_registration.
  assert (Hrefuse : ∀ operation status reason,
    safe t (λ g' (r : result Error Submission), settled g' ∧ promised g' = (promised g + accepted_one r)%nat) g
      (refuse traits i operation status reason)).
  { intros operation status reason. unfold refuse, make_error. cbn [bind]. apply safe_unmoved; [unmoved_step|].
    intros found. split; [done|]. unfold accepted_one. simpl. lia. }
  apply safe_unmoved; [unmoved_step|]. intros interrupt. destruct (negb from_isr && interrupt); [apply Hrefuse|].
  apply safe_unmoved; [unmoved_step|]. intros open. destruct (negb open).
  { apply safe_unmoved; [unmoved_step|]. intros held. apply Hrefuse. }
  apply safe_bind. eapply safe_mono; [|apply safe_claim]. cbv beta. intros g' [accepted|] Hg'.
  2: { subst g'. apply safe_unmoved; [unmoved_step|]. intros []. apply Hrefuse. }
  unfold claims in Hg'. subst g'. apply safe_bind. eapply safe_mono; [|apply safe_submit_native].
  cbv beta. intros g' native (Hg' & [native' ->]). apply safe_frames_then; [apply frames_update|]. intros [].
  apply safe_unmoved; [intros ? ?; apply unmoved_put; intros []; by destruct (is_counted traits i)|]. intros [].
  apply safe_unmoved; [unmoved_step|]. intros sequence. destruct Hg as (H1 & H2 & H3). subst g'. split; [by split_and!|]. unfold accepted_one. simpl. lia.
Qed.

(** ** Workers *)
Lemma tallied_look gs s t g :
  tallied gs s → gs !! t = Some g →
  tallied (<[t := if pending (registrations s i) =? 0 then g <| working := false |> else g]> gs) s.
Proof.
  intros HI Hg. destruct (Z.eqb_spec (pending (registrations s i)) 0) as [Hz|]; [|by rewrite list_insert_id].
  eapply tallied_settled; [done|done|done|done|done|done|by left].
Qed.

Definition consumes g g' (b : bool) : Prop :=
  if b then g' = g <| consumed ::= S |> else g' = g <| working := false |>.
Lemma safe_consume_loop t fuel found g :
  safe t (consumes g) (if found =? 0 then g <| working := false |> else g) (consume_loop (N := N) fuel i found).
Proof.
  revert found. induction fuel as [|fuel IH]; intros found; cbn [consume_loop]; destruct (Z.eqb_spec found 0); try done.
  intros e s gs He Hg HI. unfold exchange_pending. destruct (_ && _) eqn:Hx; cbn [fst snd].
  - apply andb_prop in Hx as [<-%Z.eqb_eq _]. eexists. split; [by apply tallied_consume|done].
  - eexists. split; [by apply tallied_look|apply IH].
Qed.
Lemma safe_consume t fuel g : safe t (consumes g) g (consume traits fuel i).
Proof.
  unfold consume, is_counted. rewrite Hcapacity. intros e s gs He Hg HI. unfold read, get. cbn [fst snd].
  eexists. split; [by apply tallied_look|apply safe_consume_loop].
Qed.

Lemma safe_resubmit t g :
  safe t (λ g' _, g' = g <| claiming := false |> <| working := false |>) g (resubmit_counted i).
Proof.
  intros e s gs He Hg HI. unfold read, get. cbn [fst snd].
  destruct (Z.eqb_spec (pending (registrations s i)) 0) as [Hz|Hz].
  { eexists. split; [|done]. eapply tallied_settled; [done|done|done|done|done|done|by left]. }
  exists g. rewrite list_insert_id by done. split; [done|]. look_step. rewrite (bk_accepting _ _ HI0). look_step.
  apply safe_bind. eapply safe_mono; [|apply safe_submit_native]. by intros g' native [-> _].
Qed.

Lemma frames_finish result began : frames unmoved (finish_invocation traits i result began).
Proof.
  unfold finish_invocation. rewrite Hsuspends, andb_false_r.
  split; [unmoved_step|]. intros time. split; [unmoved_step|]. intros []. split; [unmoved_step|done].
Qed.
Lemma frames_check : frames unmoved (check_deadline (N := N) traits i).
Proof. unfold check_deadline. by rewrite Hkind. Qed.

Definition idle g : Prop := claiming g = false ∧ consumed g = ran g.
Lemma safe_handle t fuel g :
  idle g → safe t (λ g' _, settled g' ∧ promised g' = promised g) g (handle traits fuel i).
Proof.
  intros [Hc Hr]. unfold handle. apply safe_bind. eapply safe_mono; [|apply safe_consume].
  intros g' [|] Hg'; cbn in Hg'; subst g'; [|done].
  apply safe_unmoved; [unmoved_step|]. intros began. apply safe_unmoved; [unmoved_step|]. intros [].
  intros e s gs He Hg HI. eexists. split; [by eapply tallied_begin|]. cbn [fst snd].
  apply safe_unmoved; [unmoved_step|]. intros result. apply safe_frames_then; [apply frames_check|]. intros [].
  apply safe_frames_then; [apply frames_finish|]. intros [].
  unfold continue_registration, is_counted. rewrite Hkind, Hcapacity.
  eapply safe_mono; [|apply safe_resubmit]. intros g' [] ->. simpl. split; [|done]. split_and!; simpl; congruence.
Qed.
Lemma safe_invoke t fuel g :
  idle g → safe t (λ g' _, settled g' ∧ promised g' = promised g) g (invoke traits fuel i).
Proof.
  intros Hg. unfold invoke, triggered. rewrite Hkind. apply safe_bind. eapply safe_mono; [|by apply safe_handle].
  by intros g' [] ?.
Qed.

Lemma safe_worker t fuel rounds g :
  settled g → safe t (λ g' _, settled g' ∧ promised g' = promised g) g (worker traits fuel rounds i).
Proof.
  revert g. induction rounds as [|rounds IH]; intros g Hg; [done|]. cbn [worker].
  intros e s gs He Hgs HI. unfold take_work. destruct (k_take _) as [n|]; cbn [fst snd].
  - exists (g <| working := true |>). split.
    + eapply tallied_settled; [done|done|done|simpl; by rewrite fn_lookup_alter..|]. by right; right; apply orb_true_r.
    + apply safe_bind. eapply safe_mono; [|apply safe_invoke; by destruct Hg as (? & ? & ?)].
      intros g' [] [Hg' Hp]. apply safe_unmoved.
      { intros ? ?. apply unmoved_put. intros r. split_and!; try done. apply finish_queued. }
      intros []. eapply safe_mono; [|by apply IH]. intros g'' [] [? Hp']. split; [done|]. by rewrite Hp'.
  - exists g. rewrite list_insert_id by done. split; [done|]. by apply IH.
Qed.

Definition accepted {E A} (rs : list (result E A)) : nat := sum_list_with accepted_one rs.
Lemma safe_client t fuel calls g :
  settled g →
  safe t (λ g' rs, settled g' ∧ promised g' = (promised g + accepted rs)%nat) g (client traits fuel i calls).
Proof.
  revert g. induction calls as [|from_isr calls IH]; intros g Hg; cbn [client]; [by split; [|apply plus_n_O]|].
  apply safe_bind. eapply safe_mono; [|by apply safe_submit]. intros g' r [Hg' Hp].
  apply safe_bind. eapply safe_mono; [|by apply IH]. intros g'' rs [Hg'' Hp']. split; [done|]. simpl. unfold accepted. simpl.
  unfold accepted in Hp'. lia.
Qed.

(** ** A system of clients and workers *)
Inductive Thread : Set := Client (calls : list bool) | Worker (rounds : nat).
Definition thread (fuel : nat) (th : Thread) : Program (list (result Error Submission)) :=
  match th with
  | Client calls => client traits fuel i calls
  | Worker rounds => _ ⇇ worker traits fuel rounds i; Done []
  end.
Lemma safe_participant t fuel th g :
  settled g →
  safe t (λ g' rs, settled g' ∧ promised g' = (promised g + accepted rs)%nat) g (thread fuel th).
Proof.
  intros Hg. destruct th as [calls|rounds]; [by apply safe_client|]. apply safe_bind.
  eapply safe_mono; [|by apply safe_worker]. intros g' [] [? Hp]. split; [done|]. by rewrite Hp, <-plus_n_O.
Qed.

(** Active, with nothing admitted and nothing run yet. *)
Definition fresh s : Prop :=
  accepting (registrations s i) = true ∧ pending (registrations s i) = 0 ∧ started (record (registrations s i)) = 0.

Lemma total_nothing (f : Books → nat) n : f no_books = O → total f (replicate n no_books) = O.
Proof. intros Hf. induction n as [|n IH]; [done|]. unfold total in *. simpl. lia. Qed.
Lemma tallied_fresh n s : fresh s → tallied (replicate n no_books) s.
Proof.
  intros (Ha & Hp & Hs). split; rewrite ?Ha, ?Hp, ?Hs, ?total_nothing by done; [done|lia|done|by left|done].
Qed.

Lemma total_done gs (rs : list (list (result Error Submission))) :
  (∀ t r, rs !! t = Some r → ∃ g, gs !! t = Some g ∧ settled g ∧ promised g = accepted r) → length gs = length rs →
  total promised gs = accepted (concat rs) ∧ total consumed gs = total ran gs
  ∧ ∀ t g, gs !! t = Some g → busy g = false.
Proof.
  revert rs. induction gs as [|g gs IH]; intros [|r rs] Hall Hlen; try done. simplify_eq/=.
  destruct (Hall 0%nat r eq_refl) as (g' & [= <-] & (Hc & Hw & Hr) & Hp).
  destruct (IH rs) as (H1 & H2 & H3); [|done|].
  { intros t r' Ht. by apply (Hall (S t)). }
  unfold total, accepted in *. simpl. rewrite sum_list_with_app, H1, H2, Hp, Hr. split_and!; [done|done|].
  intros [|t] h Ht; simplify_eq/=; [by unfold busy; rewrite Hc, Hw|by eapply H3].
Qed.

(** C34: a counted registration runs on demand, and its failure policy does not
    suspend it (suspended, it keeps accepted work for good).  Clients submit to
    it while it is active, from threads and from
    interrupts, while workers run what they find queued, in any interleaving;
    the kernel takes what it is given.  The registration never holds more than
    it admits.  When all are done, the behavior has run once for each accepted
    submission that is not still pending, and pending work is in the queue. *)
Theorem admitted_work_runs fuel ths sch s s' ps :
  fresh s → Forall (λ te, willing te.2) sch → run sch (s, thread fuel <$> ths) = (s', ps) →
  0 ≤ pending (registrations s' i) ≤ limit
  ∧ ∀ results, ps = Done <$> results →
      ∃ runs : nat, Z.of_nat (accepted (concat results)) = pending (registrations s' i) + Z.of_nat runs
        ∧ started (record (registrations s' i)) = u64 (Z.of_nat runs)
        ∧ (pending (registrations s' i) = 0 ∨ queued_in s' = true).
Proof.
  intros Hs Hsch Hrun.
  assert (Hall : all_safe tallied willing (λ _ g' rs, settled g' ∧ promised g' = accepted rs) (s', ps)).
  { rewrite <-Hrun. apply all_safe_run; [done|]. exists (replicate (length ths) no_books).
    split; [by apply tallied_fresh|]. split; [cbn [snd]; by rewrite length_replicate, length_fmap|].
    intros t p Hp. apply list_lookup_fmap_Some in Hp as (th & -> & Hth).
    exists no_books. split; [apply lookup_replicate_2; by eapply lookup_lt_Some|by apply (safe_participant t fuel th no_books)]. }
  destruct Hall as (gs & HI & Hlen & Hall). split; [apply HI|]. intros results ->. simpl in *.
  rewrite length_fmap in Hlen. destruct (total_done gs results) as (H1 & H2 & H3); [|done|].
  { intros t r Ht. destruct (Hall t (Done r)) as (g & Hg & Hsafe); [by rewrite list_lookup_fmap, Ht|]. by exists g. }
  destruct HI as [B1 B2 B3 B4 B5]. exists (total ran gs). split_and!; [by rewrite <-H1, B1, H2|done|].
  destruct B4 as [?|[?|(t & g & Hg & Hb)]]; [by left|by right|]. by rewrite (H3 t g Hg) in Hb.
Qed.
End Admission.
End Admission.
