(* ===== verification/ExecutionOutcomes.v ===== *)
(** * ExecutionOutcomes: what the operations on registrations answer

    The submission of work on each of its branches, the automatic rearming of
    a registration that waits for events, and what the containment of an
    executor promises about its registrations. *)
From stdpp Require Import prelude functions.
From S2P Require Import Prelude Status Interleave KernelWork Execution.
Import WorkItems Registrations.

Open Scope Z_scope.
Open Scope solar_scope.
Open Scope prog_scope.

Module Outcomes.
Section Outcomes.
Context {Errnos : Errno} {errnos : ErrnoLaws} {N : Type} {Kernels : Kernel N} (traits : nat → Traits).
Implicit Types (s : State N) (i : nat) (e : Env).

(** ** What a program does when nobody interferes

    [stuck] is what is claimed of a program that does not end: [False] when
    it must, [True] when only its answer is of interest. *)
Definition wp (stuck : Prop) {A} e (p : Prog Env (State N) A) s (Q : A → State N → Prop) : Prop :=
  match alone e p s with Some (a, s') => Q a s' | None => stuck end.

(** [s'] is [s] but for registration [i], which is [r]. *)
Record becomes i (r : Registration N) s s' : Prop := {
  be_self : registrations s' i = r;
  be_others : ∀ j, j ≠ i → registrations s' j = registrations s j;
  be_executor : executor s' = executor s; be_started : executor_started s' = executor_started s }.
Lemma becomes_refl i s : becomes i (registrations s i) s s.
Proof. by split. Qed.
Lemma becomes_trans i r r' s s' s'' : becomes i r s s' → becomes i r' s' s'' → becomes i r' s s''.
Proof. intros [] []. split; try congruence. intros j Hj. rewrite be_others1; auto. Qed.
Lemma becomes_alter i f s : becomes i (f (registrations s i)) s (s <| registrations ::= alter f i |>).
Proof. split; [apply fn_lookup_alter| |done|done]. intros j Hj. by apply fn_lookup_alter_ne. Qed.

Section Rules.
Context (stuck : Prop).
Local Abbreviation returns := (wp stuck).

Lemma wp_done {A} e (a : A) s (Q : A → State N → Prop) : Q a s → returns e (Done a) s Q.
Proof. done. Qed.
Lemma wp_stalled {A} e s (Q : A → State N → Prop) : stuck → returns e Stalled s Q.
Proof. done. Qed.
Lemma wp_mono {A} e (p : Prog Env (State N) A) s (Q R : A → State N → Prop) :
  returns e p s Q → (∀ a s', Q a s' → R a s') → returns e p s R.
Proof. unfold wp. destruct (alone e p s) as [[a s']|]; auto. Qed.
Lemma wp_bind {A B} e (p : Prog Env (State N) A) (k : A → Prog Env (State N) B) s Q :
  returns e p s (λ a s', returns e (k a) s' Q) → returns e (bind p k) s Q.
Proof. unfold wp. rewrite alone_bind. by destruct (alone e p s) as [[a s']|]. Qed.
Lemma wp_then {A B} e (f : Env → State N → B * State N) (k : B → Prog Env (State N) A) s Q :
  returns e (k (f e s).1) (f e s).2 Q → returns e (Then f k) s Q.
Proof. unfold wp. simpl. by destruct (f e s). Qed.
Lemma wp_get {A B} e (f : Env → State N → B) (k : B → Prog Env (State N) A) s Q :
  returns e (k (f e s)) s Q → returns e (Then (get f) k) s Q.
Proof. done. Qed.
Lemma wp_put {A} e i f (k : unit → Prog Env (State N) A) s Q :
  (∀ s', becomes i (f (registrations s i)) s s' → returns e (k tt) s' Q) → returns e (Then (put i f) k) s Q.
Proof. intros Hk. apply wp_then, Hk, becomes_alter. Qed.
Lemma wp_mutate {A} e i f (k : unit → Prog Env (State N) A) s Q :
  (∀ s', becomes i (registrations s i <| record ::= f |>) s s' → returns e (k tt) s' Q) →
  returns e (Then (mutate i f) k) s Q.
Proof. apply wp_put. Qed.

Lemma same_work (r : Registration N) : r <| work := work r |> = r.
Proof. by destruct r. Qed.
Lemma twice_work (r : Registration N) w w' : r <| work := w |> <| work := w' |> = r <| work := w' |>.
Proof. done. Qed.
Lemma becomes_work i w r s s' :
  becomes i r s s' →
  becomes i (r <| work := w |>) s (s' <| registrations ::= alter (λ r, r <| work := w |>) i |>).
Proof.
  intros Hs. eapply becomes_trans; [exact Hs|]. rewrite <-(be_self _ _ _ _ Hs) at 1.
  exact (becomes_alter i (λ r, r <| work := w |>) s').
Qed.
(** A call on the item of registration [i]. *)
Lemma wp_on_work {A} e i (p : Prog Call (Work N) A) s (Q : A → State N → Prop) :
  match alone (item_call e) p (work (registrations s i)) with
  | Some (a, w) => ∀ s', becomes i (registrations s i <| work := w |>) s s' → Q a s'
  | None => stuck
  end → returns e (on_work i p) s Q.
Proof.
  cut (∀ s0, becomes i (registrations s i <| work := work (registrations s0 i) |>) s s0 →
    match alone (item_call e) p (work (registrations s0 i)) with
    | Some (a, w) => ∀ s', becomes i (registrations s i <| work := w |>) s s' → Q a s'
    | None => stuck
    end → returns e (on_work i p) s0 Q).
  { intros Hcut. apply Hcut. rewrite same_work. apply becomes_refl. }
  induction p as [b| |B f k IH]; intros s0 Hs Hp; [|done|].
  - by apply wp_done, Hp.
  - simpl in Hp. destruct (f _ _) as [b t] eqn:Hf. unfold on_work. cbn [focus]. apply wp_then. rewrite Hf.
    pose proof (becomes_work i t _ _ _ Hs) as Hs'. rewrite twice_work in Hs'.
    assert (Ht : work (registrations (s0 <| registrations ::= alter (λ r, r <| work := t |>) i |>) i) = t).
    { by rewrite (be_self _ _ _ _ Hs'). }
    cbn [fst snd]. apply IH; by rewrite Ht.
Qed.
End Rules.
Lemma wp_run stuck {A} e (p : Prog Env (State N) A) s (Q : A → State N → Prop) :
  wp stuck e p s Q → match alone e p s with Some (a, s') => Q a s' | None => stuck end.
Proof. done. Qed.
#[local] Opaque wp.

(** ** Rearming *)
Lemma work_error_busy : work_error (- EBUSY) = Some (mkWorkError SBusy WBusy (- EBUSY)).
Proof. unfold work_error. by rewrite Z.eqb_refl. Qed.

(** The arming of events that somebody has claimed. *)
Lemma submit_events_claimed c (n : nat) (w : Work N) :
  n ≠ 0%nat → claimed w = true → 
  alone c (submit_events n) w = Some (Err (mkWorkError SBusy WBusy (- EBUSY)), w).
Proof.
  intros Hn Hw. unfold submit_events, WorkItems.claim. apply Nat.eqb_neq in Hn as ->. simpl. rewrite Hw. cbn [negb alone bind].
  rewrite work_error_busy. cbn. by destruct w; simplify_eq/=.
Qed.

(** ** Rearming from the handler *)
Lemma rearm_fails fuel e i s :
  kind (traits i) = PollTriggered → capacity (traits i) = None → auto_rearm (traits i) = true →
  poll_events (traits i) ≠ 0%nat → claimed (work (registrations s i)) = true →
  accepting (registrations s i) = true → fails (behavior e) && suspends (traits i) = false →
  wp False e (invoke traits fuel i) s (λ _ s',
    accepting (registrations s' i) = false ∧ claimed (work (registrations s' i)) = false
    ∧ availability (record (registrations s' i)) = Failed ∧ last_status (record (registrations s' i)) = SBusy
    ∧ completed (record (registrations s' i)) = inc64 (completed (record (registrations s i)))).
Proof.
  intros Hkind Hcap Hauto Hevents Hclaimed Hacc Hsus.
  unfold invoke, handle, consume, is_counted, triggered. rewrite Hkind, Hcap. apply wp_bind. cbn [bind negb].
  apply wp_get, wp_put. intros s1 H1. apply wp_mutate. intros s2 H2. apply wp_get.
  unfold check_deadline, finish_invocation, continue_registration. rewrite Hkind, Hauto. cbn [bind negb].
  apply wp_get, wp_put. intros s3 H3. apply wp_mutate. intros s4 H4. rewrite Hsus. cbn [bind].
  assert (Hs4 : registrations s4 i = registrations s i <| in_flight := false |>
    <| record ::= λ r, ended (behavior e) (now e) (now e) (begun (now e) r) |>).
  { rewrite (be_self _ _ _ _ H4), (be_self _ _ _ _ H3), (be_self _ _ _ _ H2), (be_self _ _ _ _ H1). done. }
  clear H1 H2 H3 H4. apply wp_get.
  replace (accepting (registrations s4 i)) with true by (rewrite Hs4; exact (eq_sym Hacc)). cbn [negb].
  apply wp_bind. apply wp_on_work. rewrite Hs4. cbn [work]. rewrite submit_events_claimed by done.
  intros s5 H5. unfold out_of_service. apply wp_mutate. intros s6 H6. apply wp_put. intros s7 H7.
  apply wp_done. apply wp_on_work. intros s8 H8.
  rewrite (be_self _ _ _ _ H8), (be_self _ _ _ _ H7), (be_self _ _ _ _ H6), (be_self _ _ _ _ H5).
  by split_and!.
Qed.

Lemma submit_events_ok c (n : nat) (w w' : Work N) :
  alone c (submit_events n) w = Some (Ok tt, w') → claimed w' = true.
Proof.
  unfold submit_events, WorkItems.claim. destruct (n =? 0)%nat; [done|]. simpl.
  destruct (claimed w); cbn; [by rewrite work_error_busy|].
  unfold call. destruct (k_poll_submit _ _) as [answer x]; cbn.
  unfold submit_result. destruct (answer =? 0); cbn; [by intros [= <-]|]. by destruct (work_error answer).
Qed.
Lemma activated_claimed e i s :
  kind (traits i) = PollTriggered →
  wp True e (activate_registration traits i) s (λ r s',
    r = Ok tt → claimed (work (registrations s' i)) = true ∧ accepting (registrations s' i) = true).
Proof.
  intros Hkind. unfold activate_registration. rewrite Hkind.
  apply wp_put. intros s1 H1. apply wp_mutate. intros s2 H2. apply wp_bind, wp_on_work.
  destruct (alone _ _ _) as [[[[]|error] w]|] eqn:Hrun; [|intros s3 H3|done].
  - intros s3 H3. apply wp_mutate. intros s4 H4. apply wp_done. intros _.
    rewrite (be_self _ _ _ _ H4), (be_self _ _ _ _ H3), (be_self _ _ _ _ H2), (be_self _ _ _ _ H1).
    split; [by eapply submit_events_ok|done].
  - unfold activation_failed. apply wp_put. intros s4 H4. apply wp_mutate. intros s5 H5. by apply wp_then, wp_done.
Qed.

(** A registration that waits for events and rearms itself is out of
    service after its first run: [claimed] is given up only when the handler
    has returned, so that the arming from inside of it is refused as busy,
    whatever the kernel would have answered. *)
Theorem auto_rearm_fails fuel e e' i s s1 :
  kind (traits i) = PollTriggered → capacity (traits i) = None → auto_rearm (traits i) = true →
  poll_events (traits i) ≠ 0%nat → fails (behavior e') && suspends (traits i) = false →
  alone e (activate_registration traits i) s = Some (Ok tt, s1) →
  ∃ s2, alone e' (invoke traits fuel i) s1 = Some (tt, s2)
    ∧ accepting (registrations s2 i) = false ∧ claimed (work (registrations s2 i)) = false
    ∧ availability (record (registrations s2 i)) = Failed ∧ last_status (record (registrations s2 i)) = SBusy.
Proof.
  intros Hkind Hcap Hauto Hevents Hsus Hact. pose proof (wp_run _ _ _ _ _ (activated_claimed e i s Hkind)) as Hclaimed.
  rewrite Hact in Hclaimed. destruct Hclaimed as [Hc Ha]; [done|].
  pose proof (wp_run _ _ _ _ _ (rearm_fails fuel e' i s1 Hkind Hcap Hauto Hevents Hc Ha Hsus)) as Hrun.
  destruct (alone e' _ s1) as [[[] s2]|]; [|done]. exists s2. naive_solver.
Qed.

(** ** Releases at a fixed rate *)

(** The loop ends at the first release of the grid after [time], having
    counted those it passed; the fuel [plan_release] gives is enough. *)
Lemma skip_releases_enough (fuel : nat) period time release missed :
  0 < period → time - release < Z.of_nat fuel * period → is_u 64 missed →
  ∃ k, 0 ≤ k ∧ skip_releases fuel period time release missed = Some (release + k * period, u64 (missed + k))
    ∧ time < release + k * period ∧ (k = 0 ∨ release + (k - 1) * period ≤ time).
Proof.
  intros Hperiod. revert release missed. induction fuel as [|fuel IH]; intros release missed Hfuel Hm; cbn [skip_releases];
    destruct (Z.leb_spec release time) as [Hle|Hlt]; cbn [negb]; [lia|exists 0|..|exists 0].
  1, 3: rewrite Z.mul_0_l, !Z.add_0_r, wrap_small by done; split_and!; [done|done|lia|by left].
  destruct (IH (release + period) (inc64 missed)) as (k & Hk & -> & Hafter & Hbefore); [lia|by apply wrap_range|].
  exists (k + 1). split; [lia|]. split; [|split; [lia|right; destruct Hbefore as [->|]; lia]].
  assert (Hw : u64 (inc64 missed + k) = u64 (missed + (k + 1))).
  { unfold inc64, wrap. rewrite Z.add_mod_idemp_l by done. f_equal. lia. }
  rewrite Hw. do 2 f_equal. lia.
Qed.

(** ** Containment *)

(** The registration has nothing to do: no handler runs, its item waits for
    nothing, and no unit of work is left. *)
Definition idle s i : bool :=
  let r := registrations s i in negb (in_flight r) && negb (work_pending traits i r) && (pending r =? 0).
Record rested i s : Prop := {
  rs_flight : in_flight (registrations s i) = false;
  rs_pending : is_counted traits i = true → pending (registrations s i) = 0;
  rs_record : availability (record (registrations s i)) = Quiescent
              ∧ active (record (registrations s i)) = false ∧ quiescent (record (registrations s i)) = true }.
(** What marking a registration [forced] makes of the status last told. *)
Definition told (forced : bool) s i : Status :=
  if forced then SCancelled else last_status (record (registrations s i)).

(** Whatever a wait does, the work is as it was. *)
Record waited s s' : Prop := {
  wt_executor : executor s' = executor s; wt_started : executor_started s' = executor_started s;
  wt_idle : ∀ i, idle s' i = idle s i;
  wt_status : ∀ i, last_status (record (registrations s' i)) = last_status (record (registrations s i)) }.
Lemma waited_refl s : waited s s.
Proof. by split. Qed.
Lemma waited_trans s s' s'' : waited s s' → waited s' s'' → waited s s''.
Proof. intros [] []. split; congruence. Qed.

Section Contain.
Context (stuck : Prop) (e : Env).

Lemma wp_idle i s : wp stuck e (registration_quiescent traits i) s (λ b s', b = idle s i ∧ s' = s).
Proof.
  unfold registration_quiescent, idle. apply wp_get. destruct (in_flight _); [by apply wp_done|].
  apply wp_get. destruct (work_pending _ _ _); [by apply wp_done|]. by apply wp_get, wp_done.
Qed.
(** A wait says whether the registration is idle; it gives up only at the
    deadline. *)
Lemma wp_wait i rounds s :
  stuck ∨ (rounds ≠ 0%nat ∧ (idle s i = true ∨ deadline_expired e = true)) →
  wp stuck e (wait_registration_quiescent traits rounds i) s (λ b s',
    b = idle s i ∧ (b = false → deadline_expired e = true) ∧ waited s s').
Proof.
  revert s. induction rounds as [|rounds IH]; intros s Hstuck; cbn [wait_registration_quiescent].
  { apply wp_stalled. naive_solver. }
  apply wp_bind. eapply wp_mono; [apply wp_idle|]. intros b s' [-> ->]. destruct (idle s i) eqn:Hidle.
  - apply wp_put. intros s1 H1. apply wp_mutate. intros s2 H2. apply wp_done. split; [done|]. split; [done|].
    assert (Hb : becomes i (registrations s i <| draining := false |> <| record ::= at_rest |>) s s2).
    { eapply becomes_trans; [exact H1|]. by rewrite (be_self _ _ _ _ H1) in H2. }
    split; [apply Hb..| |].
    + intros j. unfold idle, work_pending. destruct (decide (j = i)) as [->|Hne]; [by rewrite (be_self _ _ _ _ Hb)|].
      by rewrite (be_others _ _ _ _ Hb).
    + intros j. destruct (decide (j = i)) as [->|Hne]; [by rewrite (be_self _ _ _ _ Hb)|]. by rewrite (be_others _ _ _ _ Hb).
  - apply wp_get. destruct (deadline_expired e) eqn:Hx; [apply wp_done; split; [done|]; split; [done|apply waited_refl]|].
    eapply wp_mono; [apply IH; naive_solver|]. by rewrite Hidle.
Qed.
Lemma wp_all_quiescent ids rounds s :
  stuck ∨ (rounds ≠ 0%nat ∧ (forallb (idle s) ids = true ∨ deadline_expired e = true)) →
  wp stuck e (all_quiescent traits rounds ids) s (λ b s',
    b = forallb (idle s) ids ∧ (b = false → deadline_expired e = true) ∧ waited s s').
Proof.
  revert s. induction ids as [|i ids IH]; intros s Hstuck; cbn [all_quiescent forallb].
  { apply wp_done. split; [done|]. split; [done|apply waited_refl]. }
  cbn [forallb] in Hstuck. rewrite andb_true_iff in Hstuck.
  apply wp_bind. eapply wp_mono; [apply wp_wait; naive_solver|]. intros b s1 (-> & Hb & H1).
  assert (Hsame : forallb (idle s1) ids = forallb (idle s) ids).
  { clear - H1. induction ids as [|j ids IH]; [done|]. cbn. by rewrite IH, (wt_idle _ _ H1). }
  apply wp_bind. eapply wp_mono; [apply IH; rewrite Hsame; naive_solver|]. intros c s2 (-> & Hc & H2). rewrite Hsame in *.
  apply wp_done. split; [done|]. split; [|by eapply waited_trans]. destruct (idle s i); cbn; auto.
Qed.

Lemma rested_becomes i j r s s' : becomes j r s s' → i ≠ j → rested i s → rested i s'.
Proof. intros Hb Hij [H1 H2 H3]. by split; rewrite (be_others _ _ _ _ Hb). Qed.
Lemma wp_mark own forced s :
  wp stuck e (mark_executor_registrations_contained traits own forced) s (λ _ s',
    (∀ i, i ∈ own → rested i s' ∧ last_status (record (registrations s' i)) = told forced s i)
    ∧ (∀ i, i ∉ own → registrations s' i = registrations s i)
    ∧ executor s' = executor s ∧ executor_started s' = executor_started s).
Proof.
  revert s. induction own as [|i own IH]; intros s; [apply wp_done; set_solver|].
  unfold mark_executor_registrations_contained in *. cbn [for_each]. apply wp_bind.
  apply wp_put. intros s1 H1. apply wp_put. intros s2 H2. apply wp_put. intros s3 H3. apply wp_mutate. intros s4 H4.
  apply wp_done. eapply wp_mono; [apply IH|]. intros [] s5 (Hin & Hout & Hx & Hst).
  pose proof (becomes_trans _ _ _ _ _ _ (becomes_trans _ _ _ _ _ _ (becomes_trans _ _ _ _ _ _ H1 H2) H3) H4) as Hb.
  assert (Hi : rested i s4 ∧ last_status (record (registrations s4 i)) = told forced s i).
  { rewrite (be_self _ _ _ _ H3), (be_self _ _ _ _ H2), (be_self _ _ _ _ H1) in Hb. clear H1 H2 H3 H4.
    destruct Hb as [Hself _ _ _]. unfold told.
    destruct (is_counted traits i) eqn:Hc; (split; [split|]); rewrite Hself, ?Hc; by destruct forced. }
  split; [|split; [|by rewrite Hx, Hst, (be_executor _ _ _ _ Hb), (be_started _ _ _ _ Hb)]].
  - intros j Hj. destruct (decide (j ∈ own)) as [Hown|Hown].
    + destruct (Hin j Hown) as [Hr Hs]. split; [exact Hr|]. rewrite Hs. unfold told. destruct forced; [done|].
      destruct (decide (j = i)) as [->|Hne]; [apply Hi|by rewrite (be_others _ _ _ _ Hb)].
    + apply elem_of_cons in Hj as [->|Hj]; [|done]. destruct Hi as [[R1 R2 R3] Hs]. split; [split|]; by rewrite (Hout i Hown).
  - intros j Hj. apply not_elem_of_cons in Hj as [Hne Hown]. by rewrite (Hout j Hown), (be_others _ _ _ _ Hb).
Qed.

(** The registrations are marked: each is at rest, and told that its work was
    cancelled just when it was taken from it by force. *)
Definition marked (own : list nat) (forced : bool) s s' : Prop :=
  ∀ i, i ∈ own → rested i s' ∧ last_status (record (registrations s' i)) = told forced s i.

Definition stops : bool := negb (fails (queue_drain e)) && negb (fails (queue_stop e)).
Definition aborts : bool := negb (fails (queue_abort e)) || bool_decide (queue_abort e = Some SAlready).
Lemma wp_drain_and_stop own s :
  wp stuck e (drain_and_stop traits own) s (λ b s',
    b = stops ∧ (if b then marked own false s s' ∧ containment (executor s') = Clean ∧ stopped (executor s') = true
                           ∧ executor_started s' = false
                 else ∀ i, registrations s' i = registrations s i)).
Proof.
  unfold drain_and_stop, stops. apply wp_get. destruct (fails (queue_drain e)); [by apply wp_done|].
  apply wp_then, wp_then. cbn [fst snd]. destruct (fails (queue_stop e)); [by apply wp_done|]. apply wp_then, wp_bind.
  eapply wp_mono; [apply wp_mark|]. intros [] s' (Hrest & _ & Hx & Hst). apply wp_done. cbn [negb andb].
  split; [done|]. split; [exact Hrest|]. by rewrite Hx, Hst.
Qed.
Definition aborted_answer : Containment :=
  if aborts then mkContainment STimeout true true true true false
  else mkContainment (to_status (queue_abort e)) false false true true true.
Lemma wp_abort own s :
  wp stuck e (abort_executor traits own) s (λ c s',
    c = aborted_answer ∧ containment (executor s') = (if aborts then Forced else Uncontained)
    ∧ stopped (executor s') = aborts
    ∧ if aborts then marked own true s s' ∧ (executor_started s' = false ∨ queue_abort e = Some SAlready)
      else ∀ i, registrations s' i = registrations s i).
Proof.
  unfold abort_executor, aborted_answer. apply wp_then, wp_then, wp_then. cbn [fst snd].
  assert (Ha : negb (fails (queue_abort e)) || bool_decide (to_status (queue_abort e) = SAlready) = aborts).
  { unfold aborts. destruct (queue_abort e) as [status|]; [|done]. cbn. apply bool_decide_ext. split; [by intros ->|by intros [= ->]]. }
  rewrite Ha. destruct aborts eqn:Haborts; apply wp_bind.
  - eapply wp_mono; [apply wp_mark|]. intros [] s' (Hrest & _ & Hx & Hst). apply wp_done. rewrite Hx, Hst.
    split; [done|]. split; [done|]. split; [done|]. split; [exact Hrest|].
    unfold aborts in Haborts. destruct (queue_abort e) as [status|]; [right|by left].
    cbn in Haborts. by apply bool_decide_eq_true in Haborts.
  - apply wp_done, wp_done. split_and!; [done..|]. intros i. cbn. by destruct (fails _).
Qed.
End Contain.

(** C35: the containment of an executor that nobody else interferes with ends
    once its registrations are idle or its deadline has expired, and answers
    exactly what happened.  It is a clean containment just when every
    registration of the executor was seen idle and the queue then drained and
    stopped without a failure; otherwise the executor has timed out, and it is
    contained by force just when an abort is asked for and succeeds (or the
    queue had been aborted already), and else not contained, with the error
    that says so.  The record of the executor says the same; contained, its
    queue is stopped and its registrations are at rest, and told that they
    were cancelled just when they were contained by force; not contained, no
    work and no status of a registration has been touched. *)
Theorem executor_contained e rounds own abort s :
  let quiet := forallb (idle s) own in
  let clean := quiet && stops e in
  let forced := negb clean && abort && aborts e in
  match alone e (contain_executor traits rounds own abort) s with
  | Some (c, s') =>
    (quiet = true ∨ deadline_expired e = true)
    ∧ c = (if clean then contained else if abort then aborted_answer e else mkContainment STimeout false false true false false)
    ∧ containment (executor s') = (if clean then Clean else if forced then Forced else Uncontained)
    ∧ (if clean || forced then
         stopped (executor s') = true ∧ (executor_started s' = false ∨ forced = true ∧ queue_abort e = Some SAlready)
         ∧ marked own forced s s'
       else waited s (s' <| executor := executor s |> <| executor_started := executor_started s |>))
  | None => rounds = 0%nat ∨ (quiet = false ∧ deadline_expired e = false)
  end.
Proof.
  intros quiet clean forced. apply wp_run. unfold contain_executor. apply wp_bind.
  eapply wp_mono; [apply wp_all_quiescent|].
  { fold quiet. destruct rounds; [by left; left|]. destruct quiet; [by right; auto|]. destruct (deadline_expired e); [by right; auto|].
    left; right. done. }
  fold quiet. intros rest s1 (-> & Hquiet & Hw).
  assert (Hq : quiet = true ∨ deadline_expired e = true) by (destruct quiet; auto).
  assert (Hmarked : ∀ fc s2 s3, (∀ i, registrations s2 i = registrations s1 i) → marked own fc s2 s3 → marked own fc s s3).
  { intros fc s2 s3 Hs Hm i Hi. destruct (Hm i Hi) as [? Ht]. split; [done|]. rewrite Ht. unfold told.
    destruct fc; [done|]. by rewrite Hs, (wt_status _ _ Hw). }
  assert (Huntouched : ∀ s2, (∀ i, registrations s2 i = registrations s1 i) →
    waited s (s2 <| executor := executor s |> <| executor_started := executor_started s |>)).
  { intros s2 Hs. split; [done..| |]; intros i; [|cbn; by rewrite Hs, (wt_status _ _ Hw)].
    rewrite <-(wt_idle _ _ Hw). unfold idle, work_pending. cbn. by rewrite Hs. }
  apply wp_bind. eapply wp_mono with (Q := λ b s2, b = clean
    ∧ if b then marked own false s1 s2 ∧ containment (executor s2) = Clean ∧ stopped (executor s2) = true ∧ executor_started s2 = false
      else ∀ i, registrations s2 i = registrations s1 i).
  { subst clean. destruct quiet; cbn [andb]; [apply wp_drain_and_stop|by apply wp_done]. }
  intros b s2 [-> Hs2]. subst forced. destruct clean; cbn [negb andb orb].
  - apply wp_done. destruct Hs2 as (Hm & Hc & Hst & Hx). split_and!; try done; [by left|]. by eapply Hmarked; [|exact Hm].
  - apply wp_then. destruct abort; cbn [andb].
    + eapply wp_mono; [apply wp_abort|]. intros c s3 (-> & Hc & Hst & Hs3). split; [done|]. split; [done|]. split; [done|].
      destruct (aborts e); [|by apply Huntouched; intros i; rewrite Hs3, <-Hs2].
      destruct Hs3 as [Hm Hx]. split; [done|]. split; [naive_solver|]. eapply Hmarked; [|exact Hm]. exact Hs2.
    + apply wp_then, wp_done. split_and!; try done. by apply Huntouched.
Qed.

(** ** Submission *)
Definition full i s : bool :=
  match capacity (traits i) with Some limit => limit <=? pending (registrations s i) | None => false end.
Definition answer e i s : option (result WorkError WorkSubmission) :=
  work_submission (k_submit (refuses (item_call e)) (native (work (registrations s i)))).1.
Definition refusal e i (from_isr : bool) s : option (Status * ErrorReason) :=
  if negb from_isr && in_isr (item_call e) then Some (SInvalid, InvalidContext)
  else if negb (accepting (registrations s i)) then
    Some (SNotReady, if suspended (registrations s i) then RegistrationSuspended else RegistrationInactive)
  else if full i s then Some (SFull, AdmissionFull)
  else match answer e i s with Some (Err error) => Some (w_status error, work_reason (w_reason error)) | _ => None end.

(** What a refusal leaves, and what an accepted submission does. *)
Definition refused i (reason : ErrorReason) s s' : Prop :=
  pending (registrations s' i) = pending (registrations s i)
  ∧ release_attempts (record (registrations s' i)) = release_attempts (record (registrations s i))
  ∧ admission_rejected (record (registrations s' i)) =
      (match reason with AdmissionFull => inc64 | _ => id end) (admission_rejected (record (registrations s i))).
Definition taken i (from_isr : bool) (submission : Submission) s s' : Prop :=
  pending (registrations s' i) = pending (registrations s i) + (if is_counted traits i then 1 else 0)
  ∧ k_queued (native (work (registrations s' i))) = true
  ∧ release_attempts (record (registrations s' i)) = inc64 (release_attempts (record (registrations s i)))
  ∧ admission_rejected (record (registrations s' i)) = admission_rejected (record (registrations s i))
  ∧ s_sequence submission = release_attempts (record (registrations s' i))
  ∧ s_accepted submission = (if is_counted traits i then pending (registrations s' i) else 1)
  ∧ s_from_isr submission = from_isr.

Lemma work_submission_defined z : - 2 ^ 31 < z < 2 ^ 31 → ∃ r, work_submission z = Some r.
Proof.
  intros Hz. unfold work_submission, work_error, status_from_errno.
  repeat case_match; simplify_option_eq; eauto; lia.
Qed.

Lemma wp_refuse {B} stuck e i operation status reason native s (Q : result Execution.Registrations.Error B → State N → Prop) :
  (∀ error s', e_status error = status → e_reason error = reason →
     becomes i (registrations s i <| record := refreshed traits i (registrations s i) |>) s s' → Q (Err error) s') →
  wp stuck e (error ⇇ make_error traits i operation status reason native; Done (Err error)) s Q.
Proof.
  intros HQ. unfold make_error. cbn [bind]. apply wp_then, wp_done. apply HQ; [done|done|].
  exact (becomes_alter i (λ r, r <| record := refreshed traits i (registrations s i) |>) s).
Qed.

Lemma same_pending (r : Registration N) : r <| pending ::= λ n, n + 0 |> = r.
Proof. destruct r as [w c a f d u un p n st]. exact (f_equal (λ p, mkRegistration w c a f d u un p n st) (Z.add_0_r p)). Qed.

(** Alone, the claim takes one unit at the first attempt. *)
Lemma wp_claim stuck fuel e i s Q :
  weak_failure e = false → 0 ≤ pending (registrations s i) < 2 ^ 32 → 
  (∀ limit, capacity (traits i) = Some limit → limit < 2 ^ 32) →
  (full i s = true → Q None s) →
  (∀ s', becomes i (registrations s i <| pending ::= λ n, n + if is_counted traits i then 1 else 0 |>) s s' → full i s = false →
     Q (Some (if is_counted traits i then pending (registrations s i) + 1 else 1)) s') →
  wp stuck e (claim traits (S fuel) i) s Q.
Proof.
  intros Hweak Hp Hlimit Hnone Hsome. unfold claim, full, is_counted in *.
  destruct (capacity (traits i)) as [limit|] eqn:Hcap.
  - apply wp_get. cbn [claim_loop]. destruct (limit <=? _) eqn:Hfull; [by apply wp_done, Hnone|].
    apply wp_then. unfold exchange_pending. rewrite Z.eqb_refl, Hweak. cbn [andb negb fst snd].
    assert (Hinc : inc32 (pending (registrations s i)) = pending (registrations s i) + 1).
    { unfold inc32. apply wrap_small. specialize (Hlimit limit eq_refl). word_lia. }
    rewrite Hinc. apply wp_done, Hsome; [|done].
    exact (becomes_alter i (λ r, r <| pending := pending (registrations s i) + 1 |>) s).
  - apply wp_done, Hsome; [|done]. rewrite same_pending. apply becomes_refl.
Qed.

Lemma wp_submit_native `{!KernelLaws N} stuck e i from_isr s Q :
  (∀ r s', answer e i s = Some r →
     becomes i (registrations s i <| work ::= λ w, w <| native := (k_submit (refuses (item_call e)) (native (work (registrations s i)))).2 |> |>) s s' →
     (is_ok r = true → k_queued (native (work (registrations s' i))) = true) → Q r s') →
  wp stuck e (submit_native i from_isr) s Q.
Proof.
  intros HQ. unfold submit_native. apply wp_on_work.
  replace (if from_isr then try_submit_isr else submit) with (submit (N := N)) by by destruct from_isr.
  unfold submit. cbn [alone]. unfold call.
  pose proof (submit_int (refuses (item_call e)) (native (work (registrations s i)))) as Hint.
  pose proof (submit_queued (refuses (item_call e)) (native (work (registrations s i)))) as Hq.
  destruct (work_submission_defined _ Hint) as [r Hr]. specialize (HQ r). unfold answer in HQ. rewrite Hr in HQ.
  destruct (k_submit _ _) as [z n]. cbn [fst snd] in *. rewrite Hr. cbn. intros s' Hs'. apply HQ; [done|exact Hs'|].
  intros Hok. rewrite (be_self _ _ _ _ Hs'). apply Hq. revert Hr Hok. unfold work_submission.
  repeat case_match; intros; simplify_option_eq; lia.
Qed.

Lemma wp_update_record stuck e i native from_isr counted_in s Q :
  (∀ s', becomes i (registrations s i <| record ::= submitted native from_isr counted_in (now e) |>) s s' → Q tt s') →
  wp stuck e (update_submission_record i native from_isr counted_in) s Q.
Proof. intros HQ. apply wp_then, wp_done, HQ. apply (becomes_alter i (λ r, r <| record ::= _ |>)). Qed.

Lemma submission_result `{!KernelLaws N} fuel e i from_isr s :
  weak_failure e = false → 0 ≤ pending (registrations s i) < 2 ^ 32 →
  (∀ limit, capacity (traits i) = Some limit → limit < 2 ^ 32) →
  wp False e (submit_registration traits (S fuel) i from_isr) s (λ r s',
    match refusal e i from_isr s, r with
    | Some (status, reason), Err error =>
      e_status error = status ∧ e_reason error = reason ∧ refused i reason s s'
    | None, Ok submission => taken i from_isr submission s s'
    | _, _ => False
    end).
Proof.
  intros Hweak Hp Hlimit. unfold submit_registration, refusal, refuse.
  apply wp_get. destruct (negb from_isr && _).
  { apply wp_refuse. intros error s' -> -> Hb. unfold refused. by rewrite (be_self _ _ _ _ Hb). }
  apply wp_get. destruct (negb (accepting _)).
  { apply wp_get, wp_refuse. intros error s' -> -> Hb. unfold refused. rewrite (be_self _ _ _ _ Hb).
    by destruct (suspended _). }
  apply wp_bind, wp_claim; [done..| |].
  - intros ->. apply wp_mutate. intros s1 H1. apply wp_refuse. intros error s' -> -> Hb. unfold refused.
    by rewrite (be_self _ _ _ _ Hb), (be_self _ _ _ _ H1).
  - intros s1 H1 ->. assert (Hanswer : answer e i s1 = answer e i s).
    { unfold answer. by rewrite (be_self _ _ _ _ H1). }
    apply wp_bind, wp_submit_native. intros r s2 Hr H2 Hq. rewrite <-Hanswer, Hr. destruct r as [native|error].
    + apply wp_bind, wp_update_record. intros s3 H3. apply wp_mutate. intros s4 H4. apply wp_then, wp_done.
      specialize (Hq eq_refl). rewrite (be_self _ _ _ _ H1) in H2. rewrite (be_self _ _ _ _ H2) in H3, Hq.
      rewrite (be_self _ _ _ _ H3) in H4. unfold taken, copy. cbn [fst snd]. simpl. rewrite fn_lookup_alter, (be_self _ _ _ _ H4).
      clear - Hq. destruct (is_counted traits i), native; by split_and!.
    + apply wp_put. intros s3 H3. unfold refuse_work, make_work_error. apply wp_refuse. intros error' s' -> -> H4.
      split_and!; [done..|]. unfold refused. rewrite (be_self _ _ _ _ H4), (be_self _ _ _ _ H3), (be_self _ _ _ _ H2), (be_self _ _ _ _ H1).
      clear - Hp. assert (Hu : u32 (pending (registrations s i) + 1 - 1) = pending (registrations s i)).
      { rewrite Z.add_simpl_r. by apply wrap_small. }
      split_and!; [|by destruct (is_counted traits i)|by destruct (is_counted traits i), (w_reason error)].
      destruct (is_counted traits i); [exact Hu|exact (Z.add_0_r _)].
Qed.

(** C36: a submission that nobody interferes with, on each of its branches: it
    is refused in interrupt context, when the registration does not accept,
    when it holds all it admits, or when the kernel refuses the item, with the
    reason of the first that applies, and then neither the work admitted nor
    the number of releases has changed; otherwise it admits one unit of work,
    the item is in the queue, and the answer tells the record's new count. *)
Theorem submission_decided `{!KernelLaws N} fuel e i from_isr s :
  weak_failure e = false → 0 ≤ pending (registrations s i) < 2 ^ 32 →
  (∀ limit, capacity (traits i) = Some limit → limit < 2 ^ 32) →
  ∃ r s', alone e (submit_registration traits (S fuel) i from_isr) s = Some (r, s') ∧
    match refusal e i from_isr s with
    | Some (status, reason) =>
      ∃ error, r = Err error ∧ e_status error = status ∧ e_reason error = reason ∧ refused i reason s s'
    | None => ∃ submission, r = Ok submission ∧ taken i from_isr submission s s'
    end.
Proof.
  intros Hweak Hp Hlimit. pose proof (wp_run _ _ _ _ _ (submission_result fuel e i from_isr s Hweak Hp Hlimit)) as Hrun.
  destruct (alone e _ s) as [[r s']|]; [|done]. exists r, s'. split; [done|].
  destruct (refusal e i from_isr s) as [[status reason]|], r; try done; by eauto.
Qed.
End Outcomes.
End Outcomes.
