(* ===== verification/ExecutionExamples.v ===== *)
(** * ExecutionExamples: concrete registrations

    A small kernel whose items are queued and running or not, the witnesses of
    the theorems on execution, and three runs that the code means otherwise. *)
From stdpp Require Import prelude functions.
From S2P Require Import Prelude Status Interleave KernelWork Execution ExecutionProps ExecutionOutcomes.
Import WorkItems Registrations.

Open Scope Z_scope.
Open Scope solar_scope.
Open Scope prog_scope.

Module ExecutionExamples.

(** An item in a queue, and one that runs. *)
Record Item : Set := mkItem { item_queued : bool; item_running : bool }.
#[export] Instance items : Kernel Item := {|
  k_submit b n :=
    if b : bool then (- EBUSY, n)
    else (if item_queued n then 0 else if item_running n then 2 else 1, mkItem true (item_running n));
  k_schedule b _ n := if b : bool then (- EBUSY, n) else (1, mkItem true (item_running n));
  k_reschedule b _ n := if b : bool then (- EBUSY, n) else (1, mkItem true (item_running n));
  k_poll_submit b n := if b : bool then (- EINVAL, n) else (0, n);
  k_queued := item_queued;
  k_busy n := item_queued n || item_running n;
  k_cancel n := mkItem false (item_running n);
  k_poll_cancel b n := if b : bool then (- EINVAL, n) else (0, n);
  k_cancel_sync n := (item_queued n, mkItem false false);
  k_flush n := (item_queued n, mkItem false false);
  k_take n := if item_queued n && negb (item_running n) then Some (mkItem false true) else None;
  k_finish n := mkItem (item_queued n) false |}.
#[export] Instance items_laws : KernelLaws Item.
Proof. split; [by intros [] []|by intros [[] []]|by intros [] [[] []]|done]. Qed.

Definition on_demand (limit : option Z) : Traits :=
  mkTraits OnDemand limit false true 0 false false None false 0 true.
Definition tasks (i : nat) : Traits :=
  match i with
  | O => on_demand (Some 2)
  | 1%nat => mkTraits PollTriggered None true false 0 false false None true 1 true
  | 2%nat => mkTraits OnDemand (Some 2) true true 0 false false None false 0 true
  | _ => on_demand None
  end.
Definition at_boot : Registration Item :=
  mkRegistration (mkWork (mkItem false false) false) (fresh_record Inactive SOk true) false false false false false 0 0 false.
Definition ready : Registration Item := at_boot <| accepting := true |> <| record ::= activated |>.
Definition system (i : nat) : State Item := mkState (λ j, if decide (j = i) then ready else at_boot) fresh_executor false None 0.
Definition calm_call : Call := mkCall false false false.
Definition env (behaves abort : option Status) (late : bool) : Env :=
  mkEnv 100 calm_call false behaves late None None None abort.
Definition calm : Env := env None None false.

(** ** Two clients and a worker *)
Definition threads : list Admission.Thread := [Admission.Client [false; true]; Admission.Client [false]; Admission.Worker 6].
Definition turns (n : nat) (order : list nat) : list (nat * Env) := concat (replicate n ((λ t, (t, calm)) <$> order)).
Definition outcome : State Item * list (Prog Env (State Item) (list (result Error Submission))) :=
  run (turns 60 [0; 1; 2]%nat) (system 0, Admission.thread tasks 0 3 <$> threads).
Definition answers (ps : list (Prog Env (State Item) (list (result Error Submission)))) :=
  map (λ p, match p with Done rs => rs | _ => [] end) ps.

Lemma admitted_work_runs_witness :
  0 ≤ pending (registrations outcome.1 0%nat) ≤ 2 ∧ Admission.accepted (concat (answers outcome.2)) = 3%nat
  ∧ ∃ runs : nat, 3 = pending (registrations outcome.1 0%nat) + Z.of_nat runs
      ∧ started (record (registrations outcome.1 0%nat)) = u64 (Z.of_nat runs)
      ∧ (pending (registrations outcome.1 0%nat) = 0 ∨ Admission.queued_in 0 outcome.1 = true).
Proof.
  destruct (Admission.admitted_work_runs tasks 0 2 eq_refl ltac:(lia) eq_refl eq_refl 3 threads (turns 60 [0; 1; 2]%nat)
    (system 0) outcome.1 outcome.2) as [Hrange Hdone].
  - by split_and!.
  - apply Forall_concat, Forall_replicate, Forall_fmap. repeat constructor.
  - unfold outcome. apply surjective_pairing.
  - split; [exact Hrange|]. split; [by vm_compute|].
    destruct (Hdone (answers outcome.2)) as (runs & Hruns & Hrest); [by vm_compute|].
    exists runs. split; [|exact Hrest]. etransitivity; [|exact Hruns]. by vm_compute.
Defined.

(** ** The other witnesses *)
Lemma submission_decided_witness :
  ∃ error s', alone calm (submit_registration tasks 1 0 false) (system 0 <| registrations ::= alter (λ r, r <| pending := 2 |>) 0%nat |>)
      = Some (Err error, s')
    ∧ e_status error = SFull ∧ e_reason error = AdmissionFull ∧ pending (registrations s' 0%nat) = 2.
Proof.
  destruct (Outcomes.submission_decided tasks 0 calm 0 false (system 0 <| registrations ::= alter (λ r, r <| pending := 2 |>) 0%nat |>))
    as (r & s' & Hrun & error & -> & H1 & H2 & H3).
  - done.
  - simpl. lia.
  - intros limit [= <-]. lia.
  - exists error, s'. split; [exact Hrun|]. split; [exact H1|]. split; [exact H2|apply H3].
Defined.

Definition armed_system : option (result Status unit * State Item) := alone calm (activate_registration tasks 1) (system 1).
Lemma auto_rearm_fails_witness :
  ∃ s1 s2, armed_system = Some (Ok tt, s1) ∧ alone calm (invoke tasks 0 1) s1 = Some (tt, s2)
    ∧ availability (record (registrations s1 1%nat)) = Active ∧ availability (record (registrations s2 1%nat)) = Failed.
Proof.
  assert (Hactive : option_map (λ '(r, s), (r, availability (record (registrations s 1%nat)))) armed_system = Some (Ok tt, Active))
    by by vm_compute.
  destruct armed_system as [[r s1]|] eqn:Hact; [|done]. injection Hactive as -> Hactive.
  destruct (Outcomes.auto_rearm_fails tasks 0 calm calm 1 (system 1) s1) as (s2 & Hrun & _ & _ & Hfailed & _);
    [done..|exact Hact|]. by exists s1, s2.
Defined.

(** A handler runs past the deadline, and the abort fails; with no handler
    running the executor is contained cleanly. *)
Definition running : State Item := system 0 <| registrations ::= alter (λ r, r <| in_flight := true |>) 0%nat |>.
Lemma executor_contained_witness :
  (∃ s', alone (env None (Some SError) true) (contain_executor tasks 1 [0; 1]%nat true) running
         = Some (mkContainment SError false false true true true, s') ∧ containment (executor s') = Uncontained)
  ∧ (∃ s', alone (env None None true) (contain_executor tasks 1 [0; 1]%nat true) (system 0) = Some (contained, s')
           ∧ stopped (executor s') = true).
Proof.
  split.
  - pose proof (Outcomes.executor_contained tasks (env None (Some SError) true) 1 [0; 1]%nat true running) as Hc.
    cbv zeta in Hc. destruct (alone _ _ running) as [[c s']|] eqn:Hrun.
    + destruct Hc as (_ & Hc & Hx & _). exists s'. split; [f_equal; f_equal; exact Hc|exact Hx].
    + destruct Hc as [Hc|[_ Hc]]; discriminate Hc.
  - pose proof (Outcomes.executor_contained tasks (env None None true) 1 [0; 1]%nat true (system 0)) as Hc.
    cbv zeta in Hc. destruct (alone _ _ (system 0)) as [[c s']|] eqn:Hrun.
    + destruct Hc as (_ & Hc & _ & Hs & _). exists s'. split; [f_equal; f_equal; exact Hc|exact Hs].
    + destruct Hc as [Hc|[_ Hc]]; discriminate Hc.
Defined.

(** ** Runs that go wrong *)

(** A client has claimed its unit of work; a cancellation takes all units
    back; the kernel refuses the client's item, and the unit is given back a
    second time.  The counter wraps, and the registration is full for good. *)
Definition refusing : Env := mkEnv 100 (mkCall false false true) false None false None None None None.
Definition canceller : Prog Env (State Item) (list (result Error Submission)) :=
  _ ⇇ cancel_registration tasks 0 false; Done [].
Definition wrapped : State Item * list (Prog Env (State Item) (list (result Error Submission))) :=
  run (replicate 4 (0%nat, calm) ++ replicate 10 (1%nat, calm) ++ replicate 4 (0%nat, refusing)
         ++ replicate 10 (2%nat, calm))
    (system 0, [client tasks 3 0 [false]; canceller; client tasks 3 0 [false]]).
Example refused_after_cancellation :
  pending (registrations wrapped.1 0%nat) = 2 ^ 32 - 1 ∧ k_queued (native (work (registrations wrapped.1 0%nat))) = false
  ∧ map (map (λ r, match r with Ok _ => None | Err error => Some (e_reason error) end)) (answers wrapped.2)
    = [[Some WorkCancelling]; []; [Some AdmissionFull]].
Proof. by vm_compute. Qed.

(** A behavior fails with work still admitted, and its registration is to be
    suspended and to drain when stopped.  Nothing queues the work left, so that
    the registration cannot come to rest. *)
Definition stop_suspended : Prog Env (State Item) Containment :=
  _ ⇇ submit_registration tasks 1 2 false;
  _ ⇇ submit_registration tasks 1 2 false;
  _ ← take_work 2;
  _ ⇇ invoke tasks 1 2;
  _ ← put 2 (λ r, r <| work ::= λ w, w <| native ::= k_finish |> |>);
  _ ⇇ request_registration_stop tasks 2;
  contain_registrations tasks 1 [2%nat].
Example suspended_work_never_drains :
  option_map (λ '(c, s), (k_timed_out c, pending (registrations s 2%nat), item_queued (native (work (registrations s 2%nat)))))
    (alone (env (Some SError) None true) stop_suspended (system 2)) = Some (true, 1, false).
Proof. by vm_compute. Qed.
End ExecutionExamples.
