(* ===== verification/RemoteRuntime.v ===== *)
(** * RemoteRuntime: the state of the Remote runtime

    The data of [include/solar/remote/runtime.hpp]: the rings of published
    values, the pools of loaned buffers, the requests that wait for a worker
    or for their responder, the in-streams and the polled streams.  [Catalog] is what the declarations of an
    application say; values and requests are of its own types. *)
From stdpp Require Import prelude functions.
From S2P Require Import Prelude Status Wire Protocol Interleave RemoteLink.
Import RemoteLinks.

Open Scope Z_scope.
Open Scope solar_scope.

Module Runtimes.

(** ** Declarations *)
Inductive Overflow : Set := Reject | DropOldest | DropNewest.
Record QueuePolicy : Set := mkQueuePolicy { q_depth : nat; q_overflow : Overflow }.
(** A ring of published values: of the pushed stream of a datum, of its watch,
    or of a topic. *)
Inductive Channel : Set := Push (datum : nat) | Watch (datum : nat) | Topic (topic : nat).
#[export] Instance Channel_eq_dec : EqDecision Channel. Proof. solve_decision. Defined.

(** What an action answers, its response or the error of its own domain, as
    the encoder left it. *)
Inductive Answer : Set :=
  | Responds (bytes : Wire.Result (list Z))
  | FailsWith (bytes : Wire.Result (list Z)).

(** A task of the execution facility that the service submits. *)
Inductive Work : Set := ActionWork (action : nat) | DataWork (datum : nat) | StreamWork (datum : nat) | PollWork (datum : nat).

Class Catalog (V Rq : Type) := {
  data_count : nat;
  topic_count : nat;
  action_count : nat;
  data_id : nat → Z;
  topic_id : nat → Z;
  action_id : nat → Z;
  push_policy : nat → option (QueuePolicy * nat);     (* the queue, and the values of a batch *)
  loaned_policy : nat → option (nat * nat);           (* the buffers of the pool, and their bytes *)
  has_poll : nat → bool;
  watch_policy : nat → option QueuePolicy;
  topic_policy : nat → QueuePolicy;
  declared_rate : nat → Z;                            (* the highest MaxRate of a datum's streams *)
  has_query : nat → bool;
  has_update : nat → bool;
  inline_data : nat → bool;                           (* [action_execution_t<DataT>] is [Inline] *)
  inline_action : nat → bool;
  asynchronous : nat → bool;
  action_permissions : nat → Z;
  data_codec : nat → Z;
  topic_codec : nat → Z;
  max_encoded_size : Channel → nat;
  encode_value : Channel → V → nat → Wire.Result (list Z);   (* into a span of the given size *)
  decode_value : nat → list Z → option V;
  decode_request : nat → list Z → option Rq;
  act : nat → Rq → Env → Answer;
  read : nat → Env → Answer;
  write : nat → V → Env → Answer;
  accepts_work : Work → Env → bool;                   (* [submit_registration] *)
  max_stream_rate : Z;                                (* CONFIG_SOLAR_REMOTE_MAX_STREAM_RATE_HZ *)
  us_to_ticks : Z → Z }.

(** ** Publications *)

(** [PushState] and [DiscreteState]. *)
Record Ring (V : Type) : Type := mkRing {
  values : list (option V); head : nat; size : nat; sequence : Z; replaced : Z;
  wake_pending : bool; interested_sessions : Z }.
Arguments mkRing {V}. Arguments values {V}. Arguments head {V}. Arguments size {V}. Arguments sequence {V}.
Arguments replaced {V}. Arguments wake_pending {V}. Arguments interested_sessions {V}.
#[export] Instance Ring_fields {V} : Fields (Ring V) := λ r,
  mkRing (values r) (head r) (size r) (sequence r) (replaced r) (wake_pending r) (interested_sessions r).

Inductive LoanSlotState : Set := LFree | LLoaned | LReady.
#[export] Instance LoanSlotState_eq_dec : EqDecision LoanSlotState. Proof. solve_decision. Defined.
Record LoanSlot : Set := mkLoanSlot { ls_state : LoanSlotState; ls_generation : Z; ls_size : Z }.
#[export] Instance LoanSlot_fields : Fields LoanSlot := λ s, mkLoanSlot (ls_state s) (ls_generation s) (ls_size s).
Record LoanState : Set := mkLoanState {
  ln_bytes : list (list Z); ln_slots : list LoanSlot; ln_wake : bool; ln_interested : Z;
  ln_sequence : Z; ln_abandoned : Z; ln_committed : Z; ln_released : Z }.
#[export] Instance LoanState_fields : Fields LoanState := λ s,
  mkLoanState (ln_bytes s) (ln_slots s) (ln_wake s) (ln_interested s) (ln_sequence s) (ln_abandoned s)
    (ln_committed s) (ln_released s).

Inductive WriteDisposition : Set := Accepted | ReplacedOlder | DroppedNewest | Coalesced | NoSubscribers.
#[export] Instance WriteDisposition_eq_dec : EqDecision WriteDisposition. Proof. solve_decision. Defined.
Record WriteReceipt : Set := mkReceipt { w_disposition : WriteDisposition; w_sequence : Z; wake_queued : bool }.

(** ** Requests *)
Record Pending (R : Type) : Type := mkPending { p_request : option R; p_envelope : Envelope; p_link : nat }.
Arguments mkPending {R}. Arguments p_request {R}. Arguments p_envelope {R}. Arguments p_link {R}.
#[export] Instance Pending_fields {R} : Fields (Pending R) := λ p, mkPending (p_request p) (p_envelope p) (p_link p).
Record AsynchronousActionState : Set := mkAsynchronous { aa_active : bool; aa_envelope : Envelope; aa_link : nat }.
#[export] Instance AsynchronousActionState_fields : Fields AsynchronousActionState := λ s,
  mkAsynchronous (aa_active s) (aa_envelope s) (aa_link s).
Record ResponderToken : Set := mkToken { t_link : nat; t_request : Z; t_epoch : Z }.

(** A call of a handler of the application. *)
Inductive Call (V Rq : Type) : Type :=
  | CallAction (action : nat) (request : Rq) (token : ResponderToken)
  | CallRead (datum : nat) (token : ResponderToken)
  | CallWrite (datum : nat) (value : V) (token : ResponderToken).
Arguments CallAction {V Rq}. Arguments CallRead {V Rq}. Arguments CallWrite {V Rq}.

(** ** In-streams and polled streams *)
Inductive InboundSlotState : Set := IFree | IPending | IRunning.
#[export] Instance InboundSlotState_eq_dec : EqDecision InboundSlotState. Proof. solve_decision. Defined.
Record InboundSlot (V : Type) : Type := mkInboundSlot {
  i_value : option V; i_envelope : Envelope; i_token : Z; i_generation : Z; i_state : InboundSlotState }.
Arguments mkInboundSlot {V}. Arguments i_value {V}. Arguments i_envelope {V}. Arguments i_token {V}.
Arguments i_generation {V}. Arguments i_state {V}.
#[export] Instance InboundSlot_fields {V} : Fields (InboundSlot V) := λ s,
  mkInboundSlot (i_value s) (i_envelope s) (i_token s) (i_generation s) (i_state s).
Definition empty_slot {V} : InboundSlot V := mkInboundSlot None default_envelope 0 0 IFree.

Record InStreamOpenContext : Set := mkOpenContext {
  oc_endpoint : Z; oc_link : nat; oc_token : Z; oc_minimum_interval_us : Z; oc_window : Z }.
Record InStreamCloseContext : Set := mkCloseContext { cc_endpoint : Z; cc_link : nat; cc_token : Z; cc_reason : Z }.
Definition no_open_context : InStreamOpenContext := mkOpenContext 0 0 0 0 0.
Definition no_close_context : InStreamCloseContext := mkCloseContext 0 0 0 0.
Inductive InStreamLifecycleOperation : Set := NoOperation | OpenOperation | CloseOperation.
#[export] Instance InStreamLifecycleOperation_eq_dec : EqDecision InStreamLifecycleOperation. Proof. solve_decision. Defined.

(** What [InStreamState] keeps in its arrays for one link. *)
Record StreamLink : Set := mkStreamLink {
  sl_active : bool; sl_token : Z; sl_generation : Z; sl_credits : Z; sl_last_sequence : Z; sl_last_admitted : Z;
  sl_minimum_interval_us : Z }.
#[export] Instance StreamLink_fields : Fields StreamLink := λ s,
  mkStreamLink (sl_active s) (sl_token s) (sl_generation s) (sl_credits s) (sl_last_sequence s) (sl_last_admitted s)
    (sl_minimum_interval_us s).
Definition new_stream_link : StreamLink := mkStreamLink false 0 0 0 0 0 0.
Record InStreamState (V : Type) : Type := mkInStreamState {
  st_slots : list (InboundSlot V);         (* the windows of the links, one after the other *)
  st_links : nat → StreamLink;
  st_lifecycle_done : bool;                (* a binary semaphore *)
  st_operation : InStreamLifecycleOperation;
  st_open_context : InStreamOpenContext; st_close_context : InStreamCloseContext;
  st_lifecycle_result : bool;
  st_admitted : Z; st_completed : Z; st_rejected : Z; st_consumer_failures : Z }.
Arguments mkInStreamState {V}. Arguments st_slots {V}. Arguments st_links {V}. Arguments st_lifecycle_done {V}.
Arguments st_operation {V}. Arguments st_open_context {V}. Arguments st_close_context {V}. Arguments st_lifecycle_result {V}.
Arguments st_admitted {V}. Arguments st_completed {V}. Arguments st_rejected {V}. Arguments st_consumer_failures {V}.
#[export] Instance InStreamState_fields {V} : Fields (InStreamState V) := λ s,
  mkInStreamState (st_slots s) (st_links s) (st_lifecycle_done s) (st_operation s) (st_open_context s) (st_close_context s)
    (st_lifecycle_result s) (st_admitted s) (st_completed s) (st_rejected s) (st_consumer_failures s).
Definition new_in_stream {V} (slots : nat) : InStreamState V :=
  mkInStreamState (replicate slots empty_slot) (λ _, new_stream_link) false NoOperation no_open_context no_close_context false 0 0 0 0.

(** A call of a consumer or of a callback of an in-stream. *)
Inductive StreamCall (V : Type) : Type :=
  | ConsumeValue (datum : nat) (link : nat) (token : Z) (value : V)
  | OpenStream (datum : nat) (context : InStreamOpenContext)
  | CloseStream (datum : nat) (context : InStreamCloseContext).
Arguments ConsumeValue {V}. Arguments OpenStream {V}. Arguments CloseStream {V}.

Record PollState : Set := mkPollState {
  pl_in_flight : bool; pl_next_release : Z; pl_releases : Z; pl_skipped : Z; pl_failures : Z }.
#[export] Instance PollState_fields : Fields PollState := λ p,
  mkPollState (pl_in_flight p) (pl_next_release p) (pl_releases p) (pl_skipped p) (pl_failures p).
Definition new_poll : PollState := mkPollState false 0 0 0 0.

Record Runtime (V Rq : Type) : Type := mkRuntime {
  rings : Channel → Ring V;
  loans : nat → LoanState;
  actions : nat → Pending Rq;
  asynchronous_actions : nat → AsynchronousActionState;
  queries : nat → Pending unit;
  updates : nat → Pending V;
  calls : list (Call V Rq);           (* what the handlers have been called with *)
  in_streams : nat → InStreamState V;
  next_token : Z;
  stream_calls : list (StreamCall V);
  polls : nat → PollState }.
Arguments mkRuntime {V Rq}. Arguments rings {V Rq}. Arguments loans {V Rq}. Arguments actions {V Rq}.
Arguments asynchronous_actions {V Rq}. Arguments queries {V Rq}. Arguments updates {V Rq}. Arguments calls {V Rq}.
Arguments in_streams {V Rq}. Arguments next_token {V Rq}. Arguments stream_calls {V Rq}. Arguments polls {V Rq}.
#[export] Instance Runtime_fields {V Rq} : Fields (Runtime V Rq) := λ r,
  mkRuntime (rings r) (loans r) (actions r) (asynchronous_actions r) (queries r) (updates r) (calls r)
    (in_streams r) (next_token r) (stream_calls r) (polls r).
End Runtimes.
