(* ===== verification/RemotePublish.v ===== *)
(** * RemotePublish: published values and subscriptions

    Models the publication half of [include/solar/remote/runtime.hpp]:
    [write_data], [write_discrete] and the loans, which any thread may call;
    [process_publication], by which the service hands the values to the
    subscribed links; and the updates of subscriptions.  A section under a
    spinlock, or one access of an atomic, is a step. *)
From stdpp Require Import prelude functions.
From S2P Require Import Prelude Status Wire Protocol Frame Interleave RemoteLink RemoteService RemoteRuntime.
Import RemoteLinks RemoteServices Runtimes.

Open Scope Z_scope.
Open Scope solar_scope.

Module Publications.

(** [SubscriptionKind] *)
Definition Subscription_DataStream : Z := 0.
Definition Subscription_DataWatch : Z := 1.
Definition Subscription_Topic : Z := 2.
Definition Subscription_DataInStream : Z := 4.

(** ** Sections of a ring *)
Section Rings.
Context {V : Type}.
Implicit Types (r : Ring V).

Inductive Stored : Set :=
  | Refused
  | Dropped (sequence : Z) (wake : bool)
  | Kept (disposition : WriteDisposition) (sequence : Z).

(** The older value leaves a full ring. *)
Definition evict (count : Z → Z) r : Ring V :=
  r <| values ::= <[head r := None]> |> <| head := ((head r + 1) mod length (values r))%nat |>
    <| size ::= pred |> <| replaced ::= count |>.
Definition append (v : V) r : Ring V :=
  r <| values ::= <[((head r + size r) mod length (values r))%nat := Some v]> |> <| size ::= S |>
    <| sequence ::= inc64 |>.

(** [count] is the increment of [replaced], which has 64 bits in a pushed
    stream and 32 in the others. *)
Definition store (overflow : Overflow) (count : Z → Z) (v : V) r : Stored * Ring V :=
  if (size r =? length (values r))%nat then
    match overflow with
    | Reject => (Refused, r)
    | DropNewest =>
      (Dropped (inc64 (sequence r)) (wake_pending r), r <| replaced ::= count |> <| sequence ::= inc64 |>)
    | DropOldest => (Kept ReplacedOlder (inc64 (sequence r)), append v (evict count r))
    end
  else (Kept Runtimes.Accepted (inc64 (sequence r)), append v r).

Definition take (r : Ring V) : option V * Ring V :=
  if (size r =? 0)%nat then (None, r <| wake_pending := false |>) else
  (mjoin (values r !! head r),
   r <| values ::= <[head r := None]> |> <| head := ((head r + 1) mod length (values r))%nat |>
     <| size ::= pred |> <| wake_pending := false |>).
End Rings.

(** ** Sections of a pool *)
Record Loan : Set := mkLoan { loan_slot : nat; loan_generation : Z; loan_capacity : nat; loan_owned : bool }.

Definition next_generation (g : Z) : Z := let g := u16 (g + 1) in if g =? 0 then u16 (g + 1) else g.
Definition is_free (slot : LoanSlot) : bool := bool_decide (ls_state slot = LFree).
Definition is_ready (slot : LoanSlot) : bool := bool_decide (ls_state slot = LReady).
Definition held (state : LoanSlotState) (generation : Z) (slot : LoanSlot) : bool :=
  bool_decide (ls_state slot = state) && (ls_generation slot =? generation).
Definition freed (slot : LoanSlot) : LoanSlot := slot <| ls_state := LFree |> <| ls_size := 0 |>.

(** The first free buffer. *)
Definition lend (s : LoanState) : option Loan * LoanState :=
  match find_if is_free (ln_slots s) with
  | None => (None, s)
  | Some i =>
    let generation := match ln_slots s !! i with Some slot => next_generation (ls_generation slot) | None => 0 end in
    (Some (mkLoan i generation (length (nth i (ln_bytes s) [])) true),
     s <| ln_slots ::= alter (λ slot, slot <| ls_state := LLoaned |> <| ls_generation := generation |>) i |>)
  end.
(** [abandon_loan] and [release_ready_loan]: only the holder of the current
    generation gives a buffer back. *)
Definition give_back (state : LoanSlotState) (count : LoanState → LoanState) (i : nat) (generation : Z) (s : LoanState) :
    LoanState :=
  match ln_slots s !! i with
  | Some slot => if held state generation slot then count (s <| ln_slots ::= alter freed i |>) else s
  | None => s
  end.
Definition abandoned_one (s : LoanState) : LoanState := s <| ln_abandoned ::= inc32 |>.
Definition released_one (s : LoanState) : LoanState := s <| ln_released ::= inc32 |>.
Definition commit (i : nat) (generation : Z) (bytes : nat) (s : LoanState) : option Z * LoanState :=
  match ln_slots s !! i with
  | Some slot =>
    if held LLoaned generation slot then
      (Some (inc64 (ln_sequence s)),
       s <| ln_slots ::= alter (λ slot, slot <| ls_state := LReady |> <| ls_size := u16 (Z.of_nat bytes) |>) i |>
         <| ln_committed ::= inc32 |> <| ln_sequence ::= inc64 |>)
    else (None, s)
  | None => (None, s)
  end.
(** The first buffer that is ready, with its bytes. *)
Definition ready_loan (s : LoanState) : option (nat * Z * list Z) * LoanState :=
  (match find_if is_ready (ln_slots s) with
   | None => None
   | Some i =>
     match ln_slots s !! i with
     | Some slot => Some (i, ls_generation slot, firstn (Z.to_nat (ls_size slot)) (nth i (ln_bytes s) []))
     | None => None
     end
   end, s <| ln_wake := false |>).

(** ** Programs *)
Section Programs.
Context `{Config} {P : Platform} {V Rq : Type} `{!Catalog V Rq}.
Local Abbreviation State := (RemoteLinks.State (Runtime V Rq)).
Local Abbreviation Program := (RemoteLinks.Program (Runtime V Rq)).
Implicit Types (c : Channel) (d : nat).
Open Scope prog_scope.

(** A section of a ring or of a pool. *)
Definition on_ring {B} c (f : Ring V → B * Ring V) (_ : Env) (s : State) : B * State :=
  let '(b, r) := f (rings (application s) c) in
  (b, s <| application ::= λ a, a <| rings ::= <[c := r]> |> |>).
Definition on_loans {B} d (f : LoanState → B * LoanState) (_ : Env) (s : State) : B * State :=
  let '(b, l) := f (loans (application s) d) in
  (b, s <| application ::= λ a, a <| loans ::= <[d := l]> |> |>).
Definition set_wake (value : bool) (r : Ring V) : bool * Ring V := (wake_pending r, r <| wake_pending := value |>).
Definition set_loan_wake (value : bool) (s : LoanState) : bool * LoanState := (ln_wake s, s <| ln_wake := value |>).

Definition subscription_slot c : nat :=
  match c with Push d => d | Watch d => (data_count + d)%nat | Topic t => (data_count * 2 + t)%nat end.
Definition channel_policy c : QueuePolicy :=
  match c with
  | Push d => match push_policy d with Some (q, _) => q | None => mkQueuePolicy 1 DropOldest end
  | Watch d => match watch_policy d with Some q => q | None => mkQueuePolicy 1 DropOldest end
  | Topic t => topic_policy t
  end.
Definition count_replaced c : Z → Z := match c with Push _ => inc64 | _ => inc32 end.

Definition publish_error (status : Status) (reason : Remote.Reason) : Remote.Error :=
  Remote.error status reason Remote.Publish.
(** The facility takes publications. *)
Definition is_open : Program bool :=
  up ← get (λ _ s, ready s);
  if negb up then Done false else open ← get (λ _ s, accepting s); Done open.

(** [write_data] of a pushed stream and [write_discrete] of a watch or topic;
    [interrupt] is the context of the caller. *)
Definition write_value c (from_isr interrupt : bool) (v : V) : Program (Wire.Result WriteReceipt) :=
  if negb (eqb interrupt from_isr) then Done (Err (publish_error SInvalid Remote.InvalidContext)) else
  open ⇇ is_open;
  if negb open then Done (Err (publish_error SNotReady Remote.NotReady)) else
  stored ← on_ring c (store (q_overflow (channel_policy c)) (count_replaced c) v);
  match stored with
  | Refused => Done (Err (publish_error SNoSpace Remote.NoCapacity))
  | Dropped number wake => Done (Ok (mkReceipt DroppedNewest number wake))
  | Kept disposition number =>
    already ← on_ring c (set_wake true);
    interested ← get (λ _ s, interested_sessions (rings (application s) c));
    if interested =? 0 then
      _ ← on_ring c (set_wake false); Done (Ok (mkReceipt NoSubscribers number false))
    else if already : bool then Done (Ok (mkReceipt Coalesced number true))
    else
      posted ⇇ notify_publication (subscription_slot c);
      if posted : bool then Done (Ok (mkReceipt disposition number true))
      else _ ← on_ring c (set_wake false); Done (Ok (mkReceipt disposition number false))
  end.

(** [rearm_push] and [rearm_discrete] *)
Definition rearm c : Program unit :=
  more ← get (λ _ s, negb (size (rings (application s) c) =? 0)%nat);
  if negb more then Done tt else
  already ← on_ring c (set_wake true);
  if already : bool then Done tt else
  posted ⇇ notify_publication (subscription_slot c);
  if posted : bool then Done tt else _ ← on_ring c (set_wake false); Done tt.

(** ** Loans *)
Definition try_loan_data d (interrupt : bool) : Program (Wire.Result Loan) :=
  if interrupt then Done (Err (publish_error SInvalid Remote.InvalidContext)) else
  open ⇇ is_open;
  if negb open then Done (Err (publish_error SNotReady Remote.NotReady)) else
  loan ← on_loans d lend;
  Done (match loan with None => Err (publish_error SNoBuffer Remote.NoCapacity) | Some loan => Ok loan end).
Definition abandon_loan d (loan : Loan) : Program unit :=
  _ ← on_loans d (λ s, (tt, give_back LLoaned abandoned_one (loan_slot loan) (loan_generation loan) s)); Done tt.
Definition release_ready_loan d (i : nat) (generation : Z) : Program unit :=
  _ ← on_loans d (λ s, (tt, give_back LReady released_one i generation s)); Done tt.

Definition notify_loan d : Program bool :=
  posted ⇇ notify_publication d;
  if posted : bool then Done true else _ ← on_loans d (set_loan_wake false); Done false.
Definition commit_loan_data d (loan : Loan) (bytes : nat) (interrupt : bool) : Program (Wire.Result WriteReceipt) :=
  if interrupt then Done (Err (publish_error SInvalid Remote.InvalidContext)) else
  if negb (loan_owned loan) || (loan_capacity loan <? bytes)%nat || (65535 <? Z.of_nat bytes)
  then Done (Err (publish_error SInvalid Remote.InvalidValue)) else
  open ← get (λ _ s, accepting s);
  if negb open then Done (Err (publish_error SNotReady Remote.NotReady)) else
  committed ← on_loans d (commit (loan_slot loan) (loan_generation loan) bytes);
  match committed with
  | None => Done (Err (publish_error SInvalid Remote.InvalidValue))
  | Some number =>
    interested ← get (λ _ s, ln_interested (loans (application s) d));
    if interested =? 0 then
      _ ⇇ release_ready_loan d (loan_slot loan) (loan_generation loan);
      Done (Ok (mkReceipt NoSubscribers number false))
    else
      already ← on_loans d (set_loan_wake true);
      if already : bool then Done (Ok (mkReceipt Coalesced number true)) else
      posted ⇇ notify_loan d; Done (Ok (mkReceipt Runtimes.Accepted number posted))
  end.
Definition rearm_loan d : Program unit :=
  more ← get (λ _ s, existsb is_ready (ln_slots (loans (application s) d)));
  if negb more then Done tt else
  already ← on_loans d (set_loan_wake true);
  if already : bool then Done tt else _ ⇇ notify_loan d; Done tt.

(** ** Delivery to the subscribed links *)

(** Whether a payload goes to the link now: the section of
    [publish_subscription_payload]. *)
Definition select_delivery (slot : nat) (time : Z) (l : LinkState) : option (bool * LinkState) :=
  (subscription ← subscriptions l !! slot;
   Some (if ss_active subscription then
           if ss_next_delivery subscription <=? time then
             (true, l <| subscriptions ::= alter (λ s, s <| ss_next_delivery := time + us_to_ticks (ss_minimum_interval_us s) |>) slot |>)
           else (false, l <| subscriptions ::= alter (λ s, s <| ss_skipped ::= inc32 |>) slot |>)
         else (false, l)))%stdpp.
Definition count_delivery (slot : nat) (delivered : bool) (l : LinkState) : LinkState :=
  l <| subscriptions ::= alter (λ s, if delivered then s <| ss_delivered ::= inc32 |> else s <| ss_dropped ::= inc32 |>) slot |>.
Definition publish_to (i : nat) (payload : list Z) (slot : nat) (target subscription flags : Z) : Program unit :=
  time ← get (λ e _, now e);
  selected ⇇ section i (select_delivery slot time);
  if negb selected then Done tt else
  active ← is_active i;
  if negb active then Done tt else
  transmitted ⇇ transmit i Kind_Data payload 0 target flags subscription;
  _ ← set_link i (count_delivery slot (is_ok transmitted)); Done tt.
Definition publish_subscription_payload (payload : list Z) (slot : nat) (target subscription flags : Z) : Program unit :=
  each_link (λ i, publish_to i payload slot target subscription flags).

Definition value_codec c : Z := match c with Push d | Watch d => data_codec d | Topic t => topic_codec t end.
Definition payload_flags c : Z := if value_codec c =? Codec_Packed then Flags_PackedPayload else Flags_None.
Definition channel_target c : Z := match c with Push d | Watch d => data_id d | Topic t => topic_id t end.
Definition channel_subscription c : Z :=
  match c with Push _ => Subscription_DataStream | Watch _ => Subscription_DataWatch | Topic _ => Subscription_Topic end.
Definition publish_payload c (payload : list Z) : Program unit :=
  publish_subscription_payload payload (subscription_slot c) (channel_target c) (channel_subscription c) (payload_flags c).
Definition publish_value c (v : V) : Program unit :=
  match encode_value c v (max_encoded_size c) with
  | Err _ => Done tt
  | Ok bytes => publish_payload c bytes
  end.

(** The values of a batch, each with its size before it. *)
Definition batch_entry (bytes : list Z) : option (list Z) :=
  (size ← put_u16 (zeros 2) 0 (u16 (Z.of_nat (length bytes))); Some (size ++ bytes))%stdpp.
Fixpoint fill_batch (n : nat) d (capacity : nat) (body : list Z) (count : Z) : Program (list Z * Z) :=
  match n with
  | O => Done (body, count)
  | S n =>
    value ← on_ring (Push d) take;
    match value with
    | None => Done (body, count)
    | Some v =>
      match encode_value (Push d) v (capacity - length body - 2) with
      | Err _ => Done (body, count)
      | Ok bytes =>
        match batch_entry bytes with
        | None => Stalled
        | Some entry => fill_batch n d capacity (body ++ entry) (u16 (count + 1))
        end
      end
    end
  end.
Definition publish_push_batch d (batch : nat) : Program unit :=
  filled ⇇ fill_batch batch d (batch * (2 + max_encoded_size (Push d))) [] 0;
  let '(body, count) := filled in
  if count =? 0 then Done tt else
  match encode_batch_header (mkBatchHeader count (data_codec d) 1) with
  | None => Stalled
  | Some header => publish_payload (Push d) (header ++ body)
  end.

Definition publish_ready_loan d : Program unit :=
  found ← on_loans d ready_loan;
  match found with
  | None => Done tt
  | Some (i, generation, bytes) =>
    _ ⇇ publish_payload (Push d) bytes;
    _ ⇇ release_ready_loan d i generation;
    rearm_loan d
  end.
Definition publish_discrete_value c : Program unit :=
  value ← on_ring c take;
  match value with
  | None => Done tt
  | Some v => _ ⇇ publish_value c v; rearm c
  end.
Definition process_stream_publication d : Program unit :=
  match push_policy d with
  | Some (_, batch) =>
    _ ⇇ (if (1 <? batch)%nat then publish_push_batch d batch
         else value ← on_ring (Push d) take;
              match value with Some v => publish_value (Push d) v | None => Done tt end);
    rearm (Push d)
  | None => match loaned_policy d with Some _ => publish_ready_loan d | None => Done tt end
  end.

Definition process_publication (endpoint : nat) : Program unit :=
  if (endpoint <? data_count)%nat then process_stream_publication endpoint
  else if (endpoint <? data_count * 2)%nat then
    let d := (endpoint - data_count)%nat in
    match watch_policy d with Some _ => publish_discrete_value (Watch d) | None => Done tt end
  else
    let t := (endpoint - data_count * 2)%nat in
    if (t <? topic_count)%nat then publish_discrete_value (Topic t) else Done tt.

(** ** Subscriptions *)
Definition minimum_stream_interval_us d : Z :=
  let maximum := if declared_rate d =? 0 then max_stream_rate else Z.min (declared_rate d) max_stream_rate in
  (1000000 + maximum - 1) / maximum.

Definition has_out_stream d : bool :=
  bool_decide (is_Some (push_policy d)) || bool_decide (is_Some (loaned_policy d)) || has_poll d.

(** The section of the output lock: whether the subscription has changed. *)
Definition switch_subscription (slot : nat) (enable : bool) (interval : Z) (l : LinkState) : option (bool * LinkState) :=
  (subscription ← subscriptions l !! slot;
   let changed := negb (eqb (ss_active subscription) enable) in
   let l := if enable then
              l <| subscriptions ::= alter (λ s, s <| ss_active := true |> <| ss_minimum_interval_us := interval |>
                                                   <| ss_next_delivery := 0 |>) slot |>
            else if changed then l <| subscriptions ::= <[slot := empty_subscription]> |> else l in
   Some (changed, if changed then l <| subscription_count ::= λ n, u32 (if enable then n + 1 else n - 1) |> else l))%stdpp.
Definition shift_interest (enable : bool) (n : Z) : Z := u32 (if enable then n + 1 else n - 1).
Definition change_interest c (enable : bool) : Env → State → unit * State :=
  on_ring c (λ r, (tt, r <| interested_sessions ::= shift_interest enable |>)).

Definition unsupported_request (codec : Z) (request : SubscriptionRequest) : bool :=
  negb (sr_flags request =? 0) || (negb (sr_codec request =? 0) && negb (sr_codec request =? codec)).

(** The interest of a datum's stream is counted where its values are stored;
    a polled stream has no count. *)
Definition change_stream_interest d (enable : bool) : Program unit :=
  match push_policy d with
  | Some _ => _ ← change_interest (Push d) enable; Done tt
  | None =>
    match loaned_policy d with
    | Some _ => _ ← on_loans d (λ s, (tt, s <| ln_interested ::= shift_interest enable |>)); Done tt
    | None => Done tt
    end
  end.

(** [None]: the target or the kind is not of this declaration. *)
Definition update_data_subscription (i d : nat) (target : Z) (enable : bool) (subscription : Z)
    (request : SubscriptionRequest) : Program (result ErrorCode (option SubscriptionPolicy)) :=
  let stream := subscription =? Subscription_DataStream in
  let watch := subscription =? Subscription_DataWatch in
  if negb (target =? data_id d) || (negb stream && negb watch) then Done (Ok None) else
  if (stream && negb (has_out_stream d)) || (watch && negb (bool_decide (is_Some (watch_policy d))))
  then Done (Err UnsupportedOperation) else
  let codec := data_codec d in
  if unsupported_request codec request then Done (Err UnsupportedCapability) else
  let interval := Z.max (sr_minimum_interval_us request) (if stream then minimum_stream_interval_us d else 0) in
  changed ⇇ section i (switch_subscription (subscription_slot (if stream then Push d else Watch d)) enable interval);
  _ ⇇ (if negb changed then Done tt
       else if stream then change_stream_interest d enable
       else _ ← change_interest (Watch d) enable; Done tt);
  Done (Ok (Some (mkSubscriptionPolicy interval 1 codec 0))).
Definition update_topic_subscription (i t : nat) (target : Z) (enable : bool) (subscription : Z)
    (request : SubscriptionRequest) : Program (result ErrorCode (option SubscriptionPolicy)) :=
  if negb (subscription =? Subscription_Topic) || negb (target =? topic_id t) then Done (Ok None) else
  let codec := topic_codec t in
  if unsupported_request codec request then Done (Err UnsupportedCapability) else
  changed ⇇ section i (switch_subscription (subscription_slot (Topic t)) enable (sr_minimum_interval_us request));
  _ ⇇ (if negb changed then Done tt else _ ← change_interest (Topic t) enable; Done tt);
  Done (Ok (Some (mkSubscriptionPolicy (sr_minimum_interval_us request) 1 codec 0))).

(** The first declaration that knows the target decides. *)
Fixpoint first_known (n k : nat) (p : nat → Program (result ErrorCode (option SubscriptionPolicy))) :
    Program (result ErrorCode (option SubscriptionPolicy)) :=
  match n with
  | O => Done (Ok None)
  | S n => r ⇇ p k; match r with Ok None => first_known n (S k) p | r => Done r end
  end.
Definition update_subscription (i : nat) (target : Z) (enable : bool) (subscription : Z) (request : SubscriptionRequest) :
    Program (result ErrorCode (option SubscriptionPolicy)) :=
  r ⇇ first_known data_count 0 (λ d, update_data_subscription i d target enable subscription request);
  match r with
  | Ok None => first_known topic_count 0 (λ t, update_topic_subscription i t target enable subscription request)
  | r => Done r
  end.

(** All subscriptions of a link are given up when its session ends. *)
Fixpoint for_endpoints (n k : nat) (p : nat → Program unit) : Program unit :=
  match n with O => Done tt | S n => _ ⇇ p k; for_endpoints n (S k) p end.
Definition no_request : SubscriptionRequest := mkSubscriptionRequest 0 0 0 0.
Definition forgo {B} (p : Program B) : Program unit := _ ⇇ p; Done tt.
Definition reset_session_link (i : nat) : Program unit :=
  _ ⇇ for_endpoints data_count 0 (λ d, forgo (update_data_subscription i d (data_id d) false Subscription_DataStream no_request));
  _ ⇇ for_endpoints data_count 0 (λ d, forgo (update_data_subscription i d (data_id d) false Subscription_DataWatch no_request));
  for_endpoints topic_count 0 (λ t, forgo (update_topic_subscription i t (topic_id t) false Subscription_Topic no_request)).
End Programs.
End Publications.
