(* ===== verification/RemoteRing.v ===== *)
(** * RemoteRing: a ring of published values is a bounded queue

    [store] and [take] of a ring against a list of values, oldest first. *)
From stdpp Require Import prelude.
From S2P Require Import Prelude Status Wire Protocol RemoteLink RemoteSend RemoteRuntime RemotePublish.
Import Sending Runtimes Publications.

Open Scope solar_scope.

Module Rings.
Section Rings.
Context {V : Type}.
Implicit Types (r : Ring V) (vs : list V) (v : V).

(** ** The queue *)
Definition offer (overflow : Overflow) (depth : nat) v vs : bool * list V :=
  if (length vs <? depth)%nat then (true, vs ++ [v])
  else match overflow with DropOldest => (true, tail vs ++ [v]) | _ => (false, vs) end.
Inductive Operation : Type := Offer (v : V) | Poll.
Definition queue_step (overflow : Overflow) (depth : nat) (op : Operation) vs : bool * option V * list V :=
  match op with
  | Offer v => let '(kept, vs) := offer overflow depth v vs in (kept, None, vs)
  | Poll => (false, hd_error vs, tail vs)
  end.

(** ** The ring holds the queue *)
Record holds_queue r vs : Prop := {
  hq_head : (Runtimes.head r < length (values r))%nat;
  hq_size : (size r ≤ length (values r))%nat;
  hq_items : ring_items (values r) (Runtimes.head r) (size r) = Some <$> vs }.

Lemma holds_nothing r : holds_queue r [] → size r = 0%nat.
Proof. intros [Hhead Hsize Hitems]. by apply (ring_empty (values r) (Runtimes.head r)). Qed.
Lemma holds_first r v vs :
  holds_queue r (v :: vs) → ∃ n, size r = S n ∧ values r !! Runtimes.head r = Some (Some v)
    ∧ ring_items (values r) ((Runtimes.head r + 1) mod length (values r)) n = Some <$> vs.
Proof.
  intros [Hhead Hsize Hitems]. destruct (size r) as [|n] eqn:Hn; [done|].
  destruct (lookup_lt_is_Some_2 _ _ Hhead) as [x Hx]. rewrite (ring_pop _ _ _ x) in Hitems by done.
  injection Hitems as -> Hitems. by exists n.
Qed.
Lemma holds_length r vs : holds_queue r vs → size r = length vs.
Proof.
  intros [Hhead Hsize Hitems]. apply (f_equal length) in Hitems. rewrite length_fmap in Hitems. rewrite <-Hitems.
  enough (∀ ks, length (omap (λ k, values r !! ((Runtimes.head r + k) mod length (values r))%nat) ks) = length ks) as He
    by (unfold ring_items; by rewrite He, length_seq).
  intros ks. induction ks as [|k ks IH]; [done|]. simpl.
  destruct (lookup_lt_is_Some_2 (values r) ((Runtimes.head r + k) mod length (values r))) as [x Hx].
  { apply Nat.mod_upper_bound. lia. }
  rewrite Hx. simpl. by f_equal.
Qed.

(** The front leaves; the flags and counters do not matter. *)
Lemma holds_pop r v vs r' :
  holds_queue r (v :: vs) →
  values r' = <[Runtimes.head r := None]> (values r) → size r' = pred (size r) →
  Runtimes.head r' = ((Runtimes.head r + 1) mod length (values r))%nat → holds_queue r' vs.
Proof.
  intros Hr Hv Hs Hh. destruct (holds_first r v vs Hr) as (n & Hn & _ & Hitems). destruct Hr as [Hhead Hsize _].
  rewrite Hn in Hs, Hsize. simpl in Hs. split; rewrite ?Hv, ?Hh, ?Hs, ?length_insert.
  - apply Nat.mod_upper_bound. lia.
  - lia.
  - by rewrite ring_clear by lia.
Qed.
Lemma holds_append r v vs : holds_queue r vs → (size r < length (values r))%nat → holds_queue (append v r) (vs ++ [v]).
Proof.
  intros [Hhead Hsize Hitems] Hroom. split; simpl; rewrite ?length_insert; [done|lia|].
  by rewrite ring_push, Hitems, fmap_app by done.
Qed.

Definition kept (stored : Stored) : bool := match stored with Kept _ _ => true | _ => false end.
Lemma store_holds overflow count v r vs :
  holds_queue r vs →
  kept (store overflow count v r).1 = (offer overflow (length (values r)) v vs).1
  ∧ holds_queue (store overflow count v r).2 (offer overflow (length (values r)) v vs).2.
Proof.
  intros Hr. pose proof (holds_length r vs Hr) as Hlen. pose proof Hr as [Hhead Hsize Hitems]. unfold store, offer.
  destruct (Nat.eqb_spec (size r) (length (values r))) as [Heq|Hne];
    destruct (Nat.ltb_spec (length vs) (length (values r))); try lia.
  - destruct overflow; simpl; [done| |split; [done|by split]]. split; [done|].
    destruct vs as [|u vs]; [simpl in *; lia|]. apply holds_append; [by eapply holds_pop|].
    simpl. rewrite length_insert. lia.
  - split; [done|]. apply holds_append; [done|lia].
Qed.
Lemma take_holds r vs : holds_queue r vs → (Publications.take r).1 = hd_error vs ∧ holds_queue (Publications.take r).2 (tail vs).
Proof.
  intros Hr. unfold Publications.take. destruct vs as [|v vs].
  - rewrite (holds_nothing r Hr). split; [done|]. by destruct Hr as [? ? ?].
  - destruct (holds_first r v vs Hr) as (n & Hn & Hv & _). rewrite Hn. cbn [Nat.eqb fst snd]. rewrite Hv.
    split; [done|]. by eapply holds_pop.
Qed.

(** ** Sequences of operations *)
Definition ring_step (overflow : Overflow) (count : Z → Z) (op : Operation) r : bool * option V * Ring V :=
  match op with
  | Offer v => let '(stored, r) := store overflow count v r in (kept stored, None, r)
  | Poll => let '(v, r) := Publications.take r in (false, v, r)
  end.
Fixpoint answers {S} (next : Operation → S → bool * option V * S) (ops : list Operation) (s : S) : list (bool * option V) :=
  match ops with [] => [] | op :: ops => let '(kept, v, s) := next op s in (kept, v) :: answers next ops s end.
Definition new_ring (depth : nat) : Ring V := mkRing (replicate depth None) 0 0 0 0 false 0.

Lemma store_capacity overflow count v r : length (values (store overflow count v r).2) = length (values r).
Proof. unfold store. destruct (_ =? _)%nat; [destruct overflow|]; simpl; by rewrite ?length_insert. Qed.
Lemma take_capacity r : length (values (Publications.take r).2) = length (values r).
Proof. unfold Publications.take. destruct (_ =? _)%nat; simpl; by rewrite ?length_insert. Qed.

Lemma ring_simulates overflow count ops r vs :
  holds_queue r vs → answers (ring_step overflow count) ops r = answers (queue_step overflow (length (values r))) ops vs.
Proof.
  revert r vs. induction ops as [|op ops IH]; intros r vs Hr; [done|]. destruct op as [v|]; cbn [answers ring_step queue_step].
  - pose proof (store_holds overflow count v r vs Hr) as [Hk Hr']. pose proof (store_capacity overflow count v r) as Hc.
    destruct (store overflow count v r) as [stored r'], (offer overflow (length (values r)) v vs) as [k vs'].
    cbn [fst snd] in *. subst k. f_equal. rewrite <-Hc. by apply IH.
  - pose proof (take_holds r vs Hr) as [Hv Hr']. pose proof (take_capacity r) as Hc.
    destruct (Publications.take r) as [v r']. cbn [fst snd] in *. subst v. f_equal. rewrite <-Hc. by apply IH.
Qed.

(** C40: the ring of a published value answers any sequence of writes and takes
    as a queue of its depth does: the values come out in the order in which
    they went in, and a full ring refuses or drops by its policy. *)
Theorem ring_refines_queue overflow count depth ops :
  answers (ring_step overflow count) ops (new_ring (S depth)) = answers (queue_step overflow (S depth)) ops [].
Proof.
  rewrite (ring_simulates overflow count ops (new_ring (S depth)) []).
  - simpl. by rewrite length_replicate.
  - split; simpl; [lia|lia|done].
Qed.
End Rings.
Arguments Operation V : clear implicits.
End Rings.
