(* ===== verification/RemotePublishProps.v ===== *)
(** * RemotePublishProps: no published value is stranded

    A value in a ring is found by the service because of an event in its
    queue.  Under every interleaving of writers and of the service, either
    that event is there, or somebody is about to post it; so that, when all is
    done and no event was dropped, nothing is left in the ring. *)
From stdpp Require Import prelude functions.
From S2P Require Import Prelude Status Wire Protocol Frame Interleave RemoteLink RemoteService RemoteSend RemoteRuntime RemotePublish RemoteRing.
Import RemoteLinks RemoteServices Sending Runtimes Publications Rings.

Open Scope Z_scope.
Open Scope solar_scope.
Open Scope prog_scope.

Module Stranding.

(** What a thread still owes the ring: [owes], to raise the flag for a value
    it has stored; [holds], the event for a flag it has raised; [looking], the
    first value of an event it has taken; [serving], another look.  [drops]
    counts the events that found no place. *)
Record Duty : Set := mkDuty { owes : bool; holds : bool; looking : bool; serving : bool; drops : nat }.
#[export] Instance Duty_fields : Fields Duty := λ g, mkDuty (owes g) (holds g) (looking g) (serving g) (drops g).
Definition no_duty : Duty := mkDuty false false false false 0.

Section Stranding.
Context `{Config} {P : Platform} {V Rq : Type} `{!Catalog V Rq} (c : Channel) (dropped : Z).
Local Abbreviation State := (RemoteLinks.State (Runtime V Rq)).
Local Abbreviation Program := (RemoteLinks.Program (Runtime V Rq)).
Implicit Types (s : State) (g : Duty) (gs : list Duty) (t : nat).

Definition ring s : Ring V := rings (application s) c.
Definition wake_event : ServiceEvent := EventPublication (subscription_slot c).
Definition total_drops gs : nat := sum_list_with drops gs.
Definition someone (f : Duty → bool) gs : Prop := ∃ t g, gs !! t = Some g ∧ f g = true.

Record attended gs s : Prop := {
  at_runtime : runtime s = true;
  at_links : ∀ i event, EventLink i event ∉ events s;
  at_drops : dropped_events s = u32 (dropped + Z.of_nat (total_drops gs));
  at_interest : interested_sessions (ring s) ≠ 0;
  at_queue : ∃ vs, holds_queue (ring s) vs;
  at_wake : total_drops gs = 0%nat → wake_pending (ring s) = true →
            wake_event ∈ events s ∨ someone holds gs ∨ someone looking gs;
  at_size : total_drops gs = 0%nat → size (ring s) ≠ 0%nat →
            wake_pending (ring s) = true ∨ someone owes gs ∨ someone serving gs }.
Definition any (e : Env) : Prop := True.
Local Abbreviation safe := (safe attended any).

(** ** The books *)
Lemma total_drops_insert gs t g g' :
  gs !! t = Some g → (total_drops (<[t := g']> gs) + drops g = total_drops gs + drops g')%nat.
Proof. intros Hg. pose proof (sum_insert drops gs t g g' Hg). unfold total_drops. lia. Qed.
Lemma total_drops_same gs t g g' : gs !! t = Some g → drops g' = drops g → total_drops (<[t := g']> gs) = total_drops gs.
Proof. intros Hg Hd. pose proof (total_drops_insert gs t g g' Hg). lia. Qed.
Lemma total_drops_own gs t g : gs !! t = Some g → (drops g ≤ total_drops gs)%nat.
Proof. intros Hg. pose proof (total_drops_insert gs t g no_duty Hg) as H1. simpl in H1. lia. Qed.

Lemma someone_insert (f : Duty → bool) gs t g g' :
  gs !! t = Some g → (f g = true → f g' = true) → someone f gs → someone f (<[t := g']> gs).
Proof.
  intros Hg Hf (u & h & Hu & Hh). destruct (decide (u = t)) as [->|Hne].
  - exists t, g'. split; [apply list_lookup_insert_eq; by eapply lookup_lt_Some|]. apply Hf. by simplify_eq.
  - exists u, h. by rewrite list_lookup_insert_ne.
Qed.
Lemma someone_self (f : Duty → bool) gs t g g' : gs !! t = Some g → f g' = true → someone f (<[t := g']> gs).
Proof. intros Hg Hf. exists t, g'. split; [|done]. apply list_lookup_insert_eq. by eapply lookup_lt_Some. Qed.

(** A change that neither the ring nor the queue of events notices. *)
Record aside s s' : Prop := {
  as_ring : ring s' = ring s;
  as_events : events s' = events s;
  as_dropped : dropped_events s' = dropped_events s;
  as_runtime : runtime s' = runtime s }.
Lemma attended_aside gs s s' : attended gs s → aside s s' → attended gs s'.
Proof. intros [A0 A1 A2 A3 A4 A5 A6] [B1 B2 B3 B4]. split; by rewrite ?B1, ?B2, ?B3, ?B4. Qed.
Lemma aside_refl s : aside s s.
Proof. by split. Qed.

(** The general step: what it does to the ring, and the duties after it. *)
Lemma attended_step gs s s' t g g' :
  attended gs s → gs !! t = Some g → drops g' = drops g →
  runtime s' = runtime s → (∀ i event, EventLink i event ∈ events s' → EventLink i event ∈ events s) →
  dropped_events s' = dropped_events s → interested_sessions (ring s') = interested_sessions (ring s) →
  (∃ vs, holds_queue (ring s') vs) →
  (wake_pending (ring s') = true → wake_pending (ring s) = true ∨ holds g' = true) →
  (wake_event ∈ events s → wake_event ∈ events s' ∨ looking g' = true) →
  (holds g = true → holds g' = true ∨ wake_event ∈ events s' ∨ wake_pending (ring s') = false) →
  (looking g = true → looking g' = true ∨ wake_pending (ring s') = false) →
  (size (ring s') ≠ 0%nat → size (ring s) ≠ 0%nat ∨ owes g' = true) →
  (wake_pending (ring s) = true → wake_pending (ring s') = true ∨ serving g' = true ∨ size (ring s') = 0%nat) →
  (owes g = true → owes g' = true ∨ wake_pending (ring s') = true) →
  (serving g = true → serving g' = true ∨ wake_pending (ring s') = true ∨ size (ring s') = 0%nat) →
  attended (<[t := g']> gs) s'.
Proof.
  intros [A0 A1 A2 A3 A4 A5 A6] Hg Hd E0 E1 E2 E3 Hq W1 W2 W3 W4 Z1 Z2 Z3 Z4.
  assert (Hin : ∀ f : Duty → bool, (∃ u h, gs !! u = Some h ∧ f h = true ∧ u ≠ t) → someone f (<[t := g']> gs)).
  { intros f (u & h & Hu & Hh & Hne). exists u, h. by rewrite list_lookup_insert_ne. }
  assert (Hsplit : ∀ f : Duty → bool, someone f gs → f g = true ∨ someone f (<[t := g']> gs)).
  { intros f (u & h & Hu & Hh). destruct (decide (u = t)) as [->|Hne]; [left; by simplify_eq|right].
    apply Hin. by exists u, h. }
  assert (Hself : ∀ f : Duty → bool, f g' = true → someone f (<[t := g']> gs)).
  { intros f. by apply someone_self with (g := g). }
  split; rewrite ?(total_drops_same gs t g g'), ?E0, ?E2, ?E3 by done; try done.
  - intros i event Hi. by apply (A1 i event), E1.
  - intros Hn Hw. destruct (W1 Hw) as [Hw'|Hh]; [|right; left; by apply Hself].
    destruct (A5 Hn Hw') as [He|[Hh|Hl]].
    + destruct (W2 He) as [?|?]; [by left|right; right; by apply Hself].
    + destruct (Hsplit holds Hh) as [Hh'|]; [|by right; left].
      destruct (W3 Hh') as [?|[?|?]]; [right; left; by apply Hself|by left|congruence].
    + destruct (Hsplit looking Hl) as [Hl'|]; [|by right; right].
      destruct (W4 Hl') as [?|?]; [right; right; by apply Hself|congruence].
  - intros Hn Hs. destruct (Z1 Hs) as [Hs'|Ho]; [|right; left; by apply Hself].
    destruct (A6 Hn Hs') as [Hw|[Ho|Hv]].
    + destruct (Z2 Hw) as [?|[?|?]]; [by left|right; right; by apply Hself|done].
    + destruct (Hsplit owes Ho) as [Ho'|]; [|by right; left].
      destruct (Z3 Ho') as [?|?]; [right; left; by apply Hself|by left].
    + destruct (Hsplit serving Hv) as [Hv'|]; [|by right; right].
      destruct (Z4 Hv') as [?|[?|?]]; [right; right; by apply Hself|by left|done].
Qed.

(** ** Sections of a ring *)
Definition with_ring (r : Ring V) s : State := s <| application ::= λ a, a <| rings ::= <[c := r]> |> |>.
Lemma ring_with r s : ring (with_ring r s) = r.
Proof. unfold ring, with_ring. simpl. by rewrite fn_lookup_insert. Qed.

Lemma attended_ring gs s r t g g' :
  attended gs s → gs !! t = Some g → drops g' = drops g →
  interested_sessions r = interested_sessions (ring s) → (∃ vs, holds_queue r vs) →
  (wake_pending r = true → wake_pending (ring s) = true ∨ holds g' = true) →
  (holds g = true → holds g' = true ∨ wake_pending r = false) →
  (looking g = true → looking g' = true ∨ wake_pending r = false) →
  (size r ≠ 0%nat → size (ring s) ≠ 0%nat ∨ owes g' = true) →
  (wake_pending (ring s) = true → wake_pending r = true ∨ serving g' = true ∨ size r = 0%nat) →
  (owes g = true → owes g' = true ∨ wake_pending r = true) →
  (serving g = true → serving g' = true ∨ wake_pending r = true ∨ size r = 0%nat) →
  attended (<[t := g']> gs) (with_ring r s).
Proof.
  intros HI Hg Hd Hi Hq W1 W3 W4 Z1 Z2 Z3 Z4.
  apply (attended_step gs s _ t g); rewrite ?ring_with; try done; [by left|naive_solver].
Qed.
(** The service takes the flag back only when the event is lost. *)
Lemma attended_lost gs s r t g :
  attended gs s → gs !! t = Some g → drops g ≠ 0%nat →
  interested_sessions r = interested_sessions (ring s) → (∃ vs, holds_queue r vs) →
  attended gs (with_ring r s).
Proof.
  intros [A0 A1 A2 A3 A4 A5 A6] Hg Hd Hi Hq. pose proof (total_drops_own gs t g Hg).
  split; rewrite ?ring_with, ?Hi; try done; lia.
Qed.

Lemma safe_ring {A B} t Q g (f : Ring V → B * Ring V) (k : B → Program A) :
  (∀ gs s, attended gs s → gs !! t = Some g →
     ∃ g', attended (<[t := g']> gs) (with_ring (f (ring s)).2 s) ∧ safe t Q g' (k (f (ring s)).1)) →
  safe t Q g (Then (on_ring c f) k).
Proof.
  intros Hf e s gs _ Hg HI. destruct (Hf gs s HI Hg) as (g' & HI' & Hk). exists g'.
  unfold on_ring. fold (ring s). by destruct (f (ring s)) as [b r].
Qed.
Lemma safe_look {A B} t Q g (f : Env → State → B) (k : B → Program A) :
  (∀ e s gs, attended gs s → gs !! t = Some g → ∃ g', attended (<[t := g']> gs) s ∧ safe t Q g' (k (f e s))) →
  safe t Q g (Then (get f) k).
Proof. intros Hf e s gs _ Hg HI. by apply Hf. Qed.
Lemma safe_aside {A B} t Q g (f : Env → State → B * State) (k : B → Program A) :
  (∀ e s, aside s (f e s).2) → (∀ b, safe t Q g (k b)) → safe t Q g (Then f k).
Proof.
  intros Hf Hk e s gs _ Hg HI. exists g. rewrite list_insert_id by done. split; [by eapply attended_aside|done].
Qed.
Lemma safe_aside_then {A B} t Q g (p : Program B) (k : B → Program A) :
  frames aside p → (∀ b, safe t Q g (k b)) → safe t Q g (bind p k).
Proof. apply safe_frames_bind. apply attended_aside. Qed.

(** ** Steps aside *)
Lemma aside_get {B} (f : Env → State → B) e s : aside s (get f e s).2.
Proof. apply aside_refl. Qed.
Lemma aside_link i f e s : aside s (set_link (A := Runtime V Rq) i f e s).2.
Proof. by split. Qed.
Lemma aside_other {B} c' (f : Ring V → B * Ring V) e s : c' ≠ c → aside s (on_ring c' f e s).2.
Proof.
  intros Hne. unfold on_ring. destruct (f _) as [b r]. split; try done. unfold ring. simpl. by rewrite fn_lookup_insert_ne.
Qed.
Lemma aside_loans {B} d (f : LoanState → B * LoanState) e s : aside s (on_loans (V := V) (Rq := Rq) d f e s).2.
Proof. unfold on_loans. by destruct (f _) as [b r]. Qed.
Lemma frames_section {B} i (f : LinkState → option (B * LinkState)) : frames aside (section (A := Runtime V Rq) i f).
Proof.
  split; [|by intros []]. intros e s. destruct (f (links s i)) as [[b l]|]; [by split|apply aside_refl].
Qed.
Lemma frames_high_water : frames aside (update_event_high_water (A := Runtime V Rq)).
Proof. split; [by intros; apply aside_get|]. by intros n. Qed.

(** ** Posting *)
Definition not_link (event : ServiceEvent) : Prop := ∀ i link_event, event ≠ EventLink i link_event.
Definition paid (posted : bool) g : Duty := g <| holds := false |> <| drops ::= Nat.add (if posted then 0 else 1) |>.

Lemma safe_post t g event :
  not_link event → (holds g = true → event = wake_event) →
  safe t (λ g' posted, g' = paid posted g) g (try_post event).
Proof.
  intros Hlink Hhold e s gs _ Hg HI. unfold try_send. destruct (_ <? _)%nat; cbn [fst snd].
  - exists (g <| holds := false |>). split; [|apply safe_aside_then; [apply frames_high_water|by destruct g]].
    eapply attended_step; try done; try (by left); try (by apply HI); simpl.
    + intros i link_event [Hi|Hi%list_elem_of_singleton]%elem_of_app; [done|]. by destruct (Hlink i link_event).
    + intros He. left. apply elem_of_app. by left.
    + intros Hh. right; left. rewrite (Hhold Hh). apply elem_of_app. right. by apply list_elem_of_singleton.
  - exists g. rewrite list_insert_id by done. split; [done|]. clear gs s Hg HI. intros e' s gs _ Hg HI.
    exists (paid false g). split; [|done]. pose proof (total_drops_insert gs t g (paid false g) Hg) as Ht.
    change (drops (paid false g)) with (1 + drops g)%nat in Ht. destruct HI as [A0 A1 A2 A3 A4 A5 A6].
    split; try done; simpl; [|lia|lia]. rewrite A2, inc32_u32. f_equal. lia.
Qed.

(** A program that keeps to itself: it posts at most [n] events. *)
Definition harmless (n : nat) {A} (p : Program A) : Prop :=
  ∀ t g, holds g = false → safe t (λ g' _, ∃ k, (k ≤ n)%nat ∧ g' = g <| drops ::= Nat.add k |>) g p.

Lemma harmless_done n {A} (a : A) : harmless n (Done a).
Proof. intros t g Hg. exists 0%nat. split; [lia|by destruct g]. Qed.
Lemma harmless_stalled n {A} : harmless n (Stalled (A := A)).
Proof. by intros t g Hg. Qed.
Lemma harmless_then n {A B} (f : Env → State → B * State) (k : B → Program A) :
  (∀ e s, aside s (f e s).2) → (∀ b, harmless n (k b)) → harmless n (Then f k).
Proof. intros Hf Hk t g Hg. apply safe_aside; [done|]. intros b. by apply Hk. Qed.
Lemma harmless_frames {A B} n (p : Program B) (k : B → Program A) :
  frames aside p → (∀ b, harmless n (k b)) → harmless n (bind p k).
Proof. intros Hf Hk t g Hg. apply safe_aside_then; [done|]. intros b. by apply Hk. Qed.
Lemma harmless_seq n m {A B} (p : Program B) (k : B → Program A) :
  harmless n p → (∀ b, harmless m (k b)) → harmless (n + m) (bind p k).
Proof.
  intros Hp Hk t g Hg. apply safe_bind. eapply safe_mono; [|by apply Hp]. intros g' b (j & Hj & ->).
  eapply safe_mono; [|apply Hk; done]. intros g' a (i & Hi & ->). exists (i + j)%nat. split; [lia|].
  destruct g as [o h l sv d]. change (mkDuty o h l sv (i + (j + d)) = mkDuty o h l sv (i + j + d)). f_equal. lia.
Qed.
Lemma harmless_le n m {A} (p : Program A) : (n ≤ m)%nat → harmless n p → harmless m p.
Proof.
  intros Hle Hp t g Hg. eapply safe_mono; [|by apply Hp]. intros g' a (k & Hk & ->). exists k. split; [lia|done].
Qed.
Lemma harmless_post event : not_link event → harmless 1 (try_post (A := Runtime V Rq) event).
Proof.
  intros Hlink t g Hg. eapply safe_mono; [|apply safe_post; [done|by rewrite Hg]].
  intros g' posted ->. exists (if posted then 0 else 1)%nat. split; [by destruct posted; lia|]. unfold paid. destruct g. simpl in *. by subst.
Qed.

Lemma harmless_transmit i kind payload request target flags reserved :
  harmless 1 (transmit (A := Runtime V Rq) i kind payload request target flags reserved).
Proof.
  apply harmless_frames; [apply frames_section|]. intros [u|error]; [|apply harmless_done].
  unfold post. apply (harmless_seq 1 0); [|by intros b; apply harmless_done].
  apply (harmless_seq 1 0); [by apply harmless_post|]. by intros b; apply harmless_done.
Qed.
Lemma harmless_for_links n m (p : nat → Program unit) k :
  (∀ i, harmless m (p i)) → harmless (n * m) (for_links n k p).
Proof.
  intros Hp. revert k. induction n as [|n IH]; intros k; [apply harmless_done|]. by apply harmless_seq; [apply Hp|].
Qed.
Lemma harmless_each_link m (p : nat → Program unit) : (∀ i, harmless m (p i)) → harmless (link_count * m) (each_link p).
Proof. apply harmless_for_links. Qed.

Lemma harmless_publish_to i payload slot target subscription flags :
  harmless 1 (publish_to (V := V) (Rq := Rq) i payload slot target subscription flags).
Proof.
  apply harmless_then; [intros; apply aside_get|]. intros time. apply harmless_frames; [apply frames_section|].
  intros selected. destruct (negb selected); [apply harmless_done|].
  apply harmless_then; [intros; apply aside_get|]. intros active. destruct (negb active); [apply harmless_done|].
  apply (harmless_seq 1 0); [apply harmless_transmit|]. intros r.
  apply harmless_then; [intros; apply aside_link|]. intros u. apply harmless_done.
Qed.
Lemma harmless_payload c' payload : harmless link_count (publish_payload (Rq := Rq) c' payload).
Proof.
  rewrite <-(Nat.mul_1_r link_count). apply harmless_each_link. intros i. apply harmless_publish_to.
Qed.
Lemma harmless_publish_value c' v : harmless link_count (publish_value (Rq := Rq) c' v).
Proof. unfold publish_value. destruct (encode_value _ _ _); [apply harmless_payload|apply harmless_done]. Qed.

(** The service at the other rings. *)
Lemma harmless_rearm c' : c' ≠ c → harmless 1 (rearm (Rq := Rq) c').
Proof.
  intros Hne. apply harmless_then; [intros; apply aside_get|]. intros more. destruct (negb more); [apply harmless_done|].
  apply harmless_then; [intros; by apply aside_other|]. intros [|]; [apply harmless_done|].
  apply (harmless_seq 1 0); [by apply harmless_post|]. intros [|]; [apply harmless_done|].
  apply harmless_then; [intros; by apply aside_other|]. intros u. apply harmless_done.
Qed.
Lemma harmless_rearm_loan d : harmless 1 (rearm_loan (V := V) (Rq := Rq) d).
Proof.
  apply harmless_then; [intros; apply aside_get|]. intros more. destruct (negb more); [apply harmless_done|].
  apply harmless_then; [intros; apply aside_loans|]. intros [|]; [apply harmless_done|].
  apply (harmless_seq 1 0); [|by intros b; apply harmless_done]. apply (harmless_seq 1 0); [by apply harmless_post|].
  intros [|]; [apply harmless_done|]. apply harmless_then; [intros; apply aside_loans|]. intros u. apply harmless_done.
Qed.
Lemma harmless_ready_loan d : harmless (link_count + 1) (publish_ready_loan (V := V) (Rq := Rq) d).
Proof.
  apply harmless_then; [intros; apply aside_loans|]. intros [[[i generation] bytes]|]; [|apply harmless_done].
  apply harmless_seq; [apply harmless_payload|]. intros u. apply (harmless_seq 0 1); [|intros; apply harmless_rearm_loan].
  apply harmless_then; [intros; apply aside_loans|]. intros w. apply harmless_done.
Qed.
Lemma harmless_discrete c' : c' ≠ c → harmless (link_count + 1) (publish_discrete_value (Rq := Rq) c').
Proof.
  intros Hne. apply harmless_then; [intros; by apply aside_other|]. intros [v|]; [|apply harmless_done].
  apply harmless_seq; [apply harmless_publish_value|]. intros u. by apply harmless_rearm.
Qed.
Lemma harmless_fill n d capacity body count : Push d ≠ c → harmless 0 (fill_batch (Rq := Rq) n d capacity body count).
Proof.
  intros Hne. revert body count. induction n as [|n IH]; intros body count; [apply harmless_done|].
  apply harmless_then; [intros; by apply aside_other|]. intros [v|]; [|apply harmless_done].
  destruct (encode_value _ _ _) as [bytes|error]; [|apply harmless_done].
  destruct (batch_entry bytes); [apply IH|apply harmless_stalled].
Qed.
Lemma harmless_batch_payload d body count :
  harmless link_count (if count =? 0 then Done tt
    else match encode_batch_header (mkBatchHeader count (data_codec d) 1) with
         | None => Stalled
         | Some header => publish_payload (Rq := Rq) (Push d) (header ++ body)
         end).
Proof.
  destruct (_ =? _); [apply harmless_done|]. destruct (encode_batch_header _); [apply harmless_payload|apply harmless_stalled].
Qed.
Lemma harmless_stream d : Push d ≠ c → harmless (link_count + 1) (process_stream_publication (Rq := Rq) d).
Proof.
  intros Hne. unfold process_stream_publication. destruct (push_policy d) as [[q batch]|].
  2: { destruct (loaned_policy d); [apply harmless_ready_loan|apply harmless_done]. }
  apply harmless_seq; [|by intros u; apply harmless_rearm]. destruct (1 <? batch)%nat.
  - apply (harmless_seq 0 link_count); [by apply harmless_fill|]. intros [body count]. apply harmless_batch_payload.
  - apply harmless_then; [intros; by apply aside_other|]. intros [v|]; [apply harmless_publish_value|apply harmless_done].
Qed.

Definition declared c : Prop :=
  match c with
  | Push d => (d < data_count)%nat ∧ is_Some (push_policy d)
  | Watch d => (d < data_count)%nat ∧ is_Some (watch_policy d)
  | Topic t => (t < topic_count)%nat
  end.
Lemma harmless_publication k :
  declared c → k ≠ subscription_slot c → harmless (link_count + 1) (process_publication (Rq := Rq) k).
Proof.
  intros Hc Hne. unfold process_publication. destruct (Nat.ltb_spec k data_count).
  { apply harmless_stream. by intros <-. }
  destruct (Nat.ltb_spec k (data_count * 2)).
  { destruct (watch_policy _); [|apply harmless_done]. apply harmless_discrete. intros <-. simpl in Hne. lia. }
  destruct (Nat.ltb_spec (k - data_count * 2) topic_count); [|apply harmless_done].
  apply harmless_discrete. intros <-. simpl in Hne. lia.
Qed.

(** ** The service at the ring *)
Definition idle (n : nat) : Duty := mkDuty false false false false n.
Definition serves (n : nat) : Duty := mkDuty false false false true n.
Definition idle_after (n m : nat) g : Prop := ∃ k, (k ≤ m)%nat ∧ g = idle (k + n).
Definition serves_after (n m : nat) g : Prop := ∃ k, (k ≤ m)%nat ∧ g = serves (k + n).

Lemma idle_here n m : idle_after n m (idle n).
Proof. exists 0%nat. split; [lia|done]. Qed.
Lemma idle_lost n m : idle_after n (S m) (idle (S n)).
Proof. exists 1%nat. split; [lia|done]. Qed.
Lemma idle_after_le n m m' g : (m ≤ m')%nat → idle_after n m g → idle_after n m' g.
Proof. intros Hle (k & Hk & ->). exists k. split; [lia|done]. Qed.
Lemma idle_after_add n k m m' g : (k ≤ m)%nat → idle_after (k + n) m' g → idle_after n (m + m') g.
Proof. intros Hk (j & Hj & ->). exists (j + k)%nat. split; [lia|]. f_equal. lia. Qed.

Lemma safe_harmless m {A B} t Q n (p : Program B) (k : B → Program A) :
  harmless m p → (∀ j b, (j ≤ m)%nat → safe t Q (serves (j + n)) (k b)) → safe t Q (serves n) (bind p k).
Proof.
  intros Hp Hk. apply safe_bind. eapply safe_mono; [|by apply Hp]. intros g' b (j & Hj & ->). by apply Hk.
Qed.

(** A take settles what the event announced; an empty ring needs no second
    look. *)
Lemma safe_take {A} t Q l n (k : option V → Program A) :
  (∀ v, safe t Q (serves n) (k (Some v))) → safe t Q (serves n) (k None) ∨ safe t Q (idle n) (k None) →
  safe t Q (mkDuty false false l true n) (Then (on_ring c Publications.take) k).
Proof.
  intros Hsome Hnone. apply safe_ring. intros gs s HI Hg. destruct (at_queue _ _ HI) as [vs Hq].
  pose proof (take_holds (ring s) vs Hq) as [Hv Hq']. pose proof (holds_length _ _ Hq) as Hlen.
  pose proof (holds_length _ _ Hq') as Hlen'.
  assert (wake_pending (Publications.take (ring s)).2 = false
    ∧ interested_sessions (Publications.take (ring s)).2 = interested_sessions (ring s)) as [Hw Hi]
    by (unfold Publications.take; by destruct (_ =? 0)%nat).
  assert (Hkeep : ∀ g', drops g' = n → serving g' = true ∨ vs = [] →
    attended (<[t := g']> gs) (with_ring (Publications.take (ring s)).2 s)).
  { intros g' Hd Hg'. eapply attended_ring; try done; rewrite ?Hw, ?Hlen, ?Hlen'; try done; [by eexists|by right|..].
    - intros Hne. left. by destruct vs.
    - intros _. right. destruct Hg' as [?| ->]; [by left|by right].
    - intros _. destruct Hg' as [?| ->]; [by left|by right; right]. }
  rewrite Hv. destruct vs as [|v vs]; [|exists (serves n); split; [apply Hkeep; [done|by left]|apply Hsome]].
  destruct Hnone as [Hnone|Hnone]; eexists; (split; [apply Hkeep; [|by right]|exact Hnone]); done.
Qed.

Lemma safe_rearm t n : safe t (λ g' _, idle_after n 1 g') (serves n) (rearm (Rq := Rq) c).
Proof.
  apply safe_look. intros e s gs HI Hg. fold (ring s).
  destruct (Nat.eqb_spec (size (ring s)) 0) as [Hz|Hz]; cbn [negb].
  { exists (idle n). split; [|apply idle_here]. by eapply attended_step; try done; [apply HI|auto..]. }
  exists (serves n). rewrite list_insert_id by done. split; [done|]. clear e s gs HI Hg Hz.
  apply safe_ring. intros gs s HI Hg. cbn [set_wake fst snd]. destruct (at_queue _ _ HI) as [vs Hq].
  exists (mkDuty false (negb (wake_pending (ring s))) false false n). split.
  { eapply attended_ring; try done; simpl; [|by destruct (wake_pending (ring s)); [left|right]|by left|by left|by right; left].
    exists vs. by destruct Hq. }
  destruct (wake_pending (ring s)); cbn [negb]; [apply idle_here|]. clear s gs HI Hg vs Hq.
  apply safe_bind. eapply safe_mono; [|by apply safe_post]. intros g' posted ->.
  destruct posted; [apply idle_here|]. apply safe_ring. intros gs s HI Hg. exists (idle (S n)).
  split; [|apply idle_lost]. rewrite list_insert_id by done. destruct (at_queue _ _ HI) as [vs Hq].
  eapply attended_lost; [done|done|done|done|]. exists vs. by destruct Hq.
Qed.

(** Several takes, then the publication, then another look. *)
Lemma fill_batch_S fuel d capacity body count :
  fill_batch (Rq := Rq) (S fuel) d capacity body count =
    (value ← on_ring (Push d) Publications.take;
     match value with
     | None => Done (body, count)
     | Some v =>
       match encode_value (Push d) v (capacity - length body - 2) with
       | Err _ => Done (body, count)
       | Ok bytes =>
         match batch_entry bytes with
         | None => Stalled
         | Some entry => fill_batch fuel d capacity (body ++ entry) (u16 (count + 1))
         end
       end
     end).
Proof. done. Qed.
Lemma safe_fill {A} t Q l n fuel d capacity body count (k : list Z * Z → Program A) :
  c = Push d → (∀ r, safe t Q (serves n) (k r)) →
  safe t Q (mkDuty false false l true n) (bind (fill_batch (S fuel) d capacity body count) k).
Proof.
  intros Hc Hk. revert l body count. induction fuel as [|fuel IH]; intros l body count; rewrite fill_batch_S, <-Hc; cbn [bind];
    (apply safe_take; [|left; apply Hk]); intros v; (destruct (encode_value _ _ _) as [bytes|error]; [|apply Hk]);
    (destruct (batch_entry bytes); [|done]); [apply Hk|apply (IH false)].
Qed.
Lemma safe_rearm_after m t n {B} (p : Program B) :
  harmless m p → safe t (λ g' _, idle_after n (m + 1) g') (serves n) (bind p (λ _, rearm (Rq := Rq) c)).
Proof.
  intros Hp. apply (safe_harmless m); [done|]. intros j b Hj. eapply safe_mono; [|apply safe_rearm].
  intros g' []. by apply idle_after_add.
Qed.
Lemma safe_discrete t n :
  safe t (λ g' _, idle_after n (link_count + 1) g') (mkDuty false false true true n) (publish_discrete_value (Rq := Rq) c).
Proof.
  apply safe_take; [|right; apply idle_here]. intros v.
  apply safe_rearm_after. apply harmless_publish_value.
Qed.
Lemma safe_stream t n d :
  c = Push d → is_Some (push_policy d) →
  safe t (λ g' _, idle_after n (link_count + 1) g') (mkDuty false false true true n) (process_stream_publication (Rq := Rq) d).
Proof.
  intros Hc [[q batch] Hd]. unfold process_stream_publication. rewrite Hd, <-Hc.
  destruct (Nat.ltb_spec 1 batch) as [Hb|Hb].
  - destruct batch as [|batch]; [lia|]. unfold publish_push_batch. apply safe_bind, safe_fill; [done|].
    intros [body count]. eapply safe_mono; [|apply (harmless_batch_payload d body count); done].
    intros g' u (j & Hj & ->). eapply safe_mono; [|apply (safe_rearm t (j + n))]. intros g' []. by apply idle_after_add.
  - apply safe_take; [|left].
    + intros v. apply safe_rearm_after. apply harmless_publish_value.
    + eapply safe_mono; [|apply safe_rearm]. intros g' []. apply idle_after_le. lia.
Qed.
Lemma process_publication_here :
  declared c → process_publication (Rq := Rq) (subscription_slot c)
    = match c with Push d => process_stream_publication d | _ => publish_discrete_value c end.
Proof.
  unfold process_publication. destruct c as [d|d|k]; simpl.
  - intros [Hd _]. by rewrite (proj2 (Nat.ltb_lt _ _) Hd).
  - intros [Hd [q Hq]]. rewrite (proj2 (Nat.ltb_ge _ _)) by lia. rewrite (proj2 (Nat.ltb_lt _ _)) by lia.
    replace (data_count + d - data_count)%nat with d by lia. by rewrite Hq.
  - intros Hk. rewrite !(proj2 (Nat.ltb_ge _ _)) by lia.
    replace (data_count * 2 + k - data_count * 2)%nat with k by lia. by rewrite (proj2 (Nat.ltb_lt _ _) Hk).
Qed.
Lemma safe_publication t n :
  declared c →
  safe t (λ g' _, idle_after n (link_count + 1) g') (mkDuty false false true true n)
    (process_publication (Rq := Rq) (subscription_slot c)).
Proof.
  intros Hc. rewrite process_publication_here by done.
  assert (Hd := safe_discrete t n). destruct c as [d|d|k] eqn:Hk; [|done|done].
  rewrite <-Hk in *. apply (safe_stream t n d); [done|]. rewrite Hk in Hc. apply Hc.
Qed.

(** ** Writers *)
Lemma store_keeps overflow count v (r : Ring V) :
  wake_pending (store overflow count v r).2 = wake_pending r
  ∧ interested_sessions (store overflow count v r).2 = interested_sessions r
  ∧ ((size (store overflow count v r).2 ≠ 0 → size r ≠ 0 ∨ kept (store overflow count v r).1 = true)%nat
     ∧ (kept (store overflow count v r).1 = false → size (store overflow count v r).2 = size r)).
Proof. unfold store. destruct (_ =? _)%nat; [destruct overflow|]; simpl; split_and!; auto; done. Qed.

Lemma safe_write_value t n from_isr interrupt v :
  safe t (λ g' _, idle_after n 1 g') (idle n) (write_value (Rq := Rq) c from_isr interrupt v).
Proof.
  unfold write_value. destruct (negb (eqb _ _)); [apply idle_here|].
  apply safe_aside; [intros; apply aside_get|]. intros up. destruct (negb up); [apply idle_here|].
  apply safe_aside; [intros; apply aside_get|]. intros open. destruct (negb open); [apply idle_here|].
  apply safe_ring. intros gs s HI Hg. destruct (at_queue _ _ HI) as [vs Hq].
  pose proof (store_holds (q_overflow (channel_policy c)) (count_replaced c) v (ring s) vs Hq) as [_ Hq'].
  pose proof (store_keeps (q_overflow (channel_policy c)) (count_replaced c) v (ring s)) as (Hw & Hi & Hs & Hs').
  set (owing := kept (store (q_overflow (channel_policy c)) (count_replaced c) v (ring s)).1) in *.
  exists (mkDuty owing false false false n). split.
  { eapply attended_ring; try done; rewrite ?Hw; auto. by eexists. }
  subst owing. destruct (store _ _ v (ring s)) as [[|number wake|disposition number] r]; cbn [fst kept]; [apply idle_here..|].
  clear s gs HI Hg vs Hq Hq' Hw Hi Hs Hs' r.
  apply safe_ring. intros gs s HI Hg. destruct (at_queue _ _ HI) as [vs Hq]. cbn [set_wake fst snd].
  exists (mkDuty false (negb (wake_pending (ring s))) false false n). split.
  { eapply attended_ring; try done; simpl; auto; [exists vs; by destruct Hq|]. destruct (wake_pending (ring s)); auto. }
  generalize (wake_pending (ring s)). clear s gs HI Hg vs Hq. intros already.
  apply safe_look. intros e s gs HI Hg. exists (mkDuty false (negb already) false false n).
  rewrite list_insert_id by done. split; [done|]. pose proof (at_interest _ _ HI) as Hne. unfold ring in Hne.
  rewrite (proj2 (Z.eqb_neq _ _) Hne). clear e s gs HI Hg Hne. destruct already; [apply idle_here|].
  apply safe_bind. eapply safe_mono; [|by apply safe_post]. intros g' posted ->.
  destruct posted; [apply idle_here|]. apply safe_ring. intros gs s HI Hg. exists (idle (S n)).
  split; [|apply idle_lost]. rewrite list_insert_id by done. destruct (at_queue _ _ HI) as [vs Hq].
  eapply attended_lost; [done|done|done|done|]. exists vs. by destruct Hq.
Qed.

Lemma harmless_write c' from_isr interrupt v : c' ≠ c → harmless 1 (write_value (Rq := Rq) c' from_isr interrupt v).
Proof.
  intros Hne. assert (Hring : ∀ {B} (f : Ring V → B * Ring V) e s, aside s (on_ring c' f e s).2)
    by (intros; by apply aside_other).
  unfold write_value. destruct (negb (eqb _ _)); [apply harmless_done|].
  apply harmless_then; [intros; apply aside_get|]. intros up. destruct (negb up); [apply harmless_done|].
  apply harmless_then; [intros; apply aside_get|]. intros open. destruct (negb open); [apply harmless_done|].
  apply harmless_then; [intros; apply Hring|]. intros [|number wake|disposition number]; [apply harmless_done..|].
  apply harmless_then; [intros; apply Hring|]. intros already.
  apply harmless_then; [intros; apply aside_get|]. intros interested. destruct (interested =? 0).
  { apply harmless_then; [intros; apply Hring|]. intros u. apply harmless_done. }
  destruct already; [apply harmless_done|]. apply (harmless_seq 1 0); [by apply harmless_post|].
  intros [|]; [apply harmless_done|]. apply harmless_then; [intros; apply Hring|]. intros u. apply harmless_done.
Qed.

(** ** The event loop *)

(** The function table of the facility, with the publications of this
    runtime. *)
Definition publishing (App : Application (Runtime V Rq)) : Application (Runtime V Rq) := {|
  RemoteServices.process_publication := Publications.process_publication;
  process_application_frame := process_application_frame; process_poll_releases := process_poll_releases;
  reset_session := reset_session; open_session := open_session; pong_responded := pong_responded;
  introspection_summary := introspection_summary; server_information := server_information;
  manifest_chunk := manifest_chunk; inspection_collections := inspection_collections;
  inspection_query := inspection_query; inspection_response_bytes := inspection_response_bytes;
  initialize_in_stream_runtime := initialize_in_stream_runtime |}.
Context (App : Application (Runtime V Rq)).
Local Instance table : Application (Runtime V Rq) := publishing App.

Lemma harmless_post_only event : not_link event → harmless 1 (post (A := Runtime V Rq) event).
Proof. intros Hl. apply (harmless_seq 1 0); [by apply harmless_post|]. intros b. apply harmless_done. Qed.
Lemma harmless_start i : harmless 1 (try_start_transmit (A := Runtime V Rq) i).
Proof.
  apply (harmless_seq 1 0).
  { apply harmless_frames; [apply frames_section|]. intros [|]; [by apply harmless_post_only|apply harmless_done]. }
  intros u. apply harmless_frames; [apply frames_section|]. intros w. apply harmless_frames; [apply frames_section|].
  intros [[[frame handle] lane]|]; [|apply harmless_done].
  assert (Hlast : ∀ f : LinkState → option (unit * LinkState), harmless 0 (section (A := Runtime V Rq) i f)).
  { intros f. pose proof (frames_section i f) as [Hf Hk]. apply harmless_then; [apply Hf|]. intros [b|]; [apply harmless_done|apply harmless_stalled]. }
  apply harmless_then.
  { intros e s. unfold submit. destruct (transmit_answer e i) as [[|]|]; by split. }
  intros [[|]|]; [|apply Hlast..]. apply harmless_then; [intros; apply aside_link|]. intros x. apply Hlast.
Qed.
Lemma harmless_expire i : harmless 0 (expire_on (A := Runtime V Rq) i).
Proof.
  apply harmless_then; [intros; apply aside_get|]. intros time. apply harmless_then; [intros; apply aside_link|].
  intros u. apply harmless_done.
Qed.

Lemma harmless_idle m {A} (p : Program A) t n :
  harmless m p → safe t (λ g' _, idle_after n m g') (idle n) p.
Proof. intros Hp. eapply safe_mono; [|by apply Hp]. intros g' a (k & Hk & ->). by exists k. Qed.

(** The service takes an event. *)
Definition announces (event : ServiceEvent) : bool :=
  match event with EventPublication k => (k =? subscription_slot c)%nat | _ => false end.
Definition taken (event : ServiceEvent) (n : nat) : Duty :=
  if announces event then mkDuty false false true true n else idle n.
Lemma announces_wake event : announces event = false → event ≠ wake_event.
Proof. intros Ha ->. simpl in Ha. by rewrite Nat.eqb_refl in Ha. Qed.
Lemma attended_receive gs s t n event rest :
  attended gs s → gs !! t = Some (idle n) → events s = event :: rest →
  attended (<[t := taken event n]> gs) (s <| events := rest |>).
Proof.
  intros HI Hg He. unfold taken. destruct (announces event) eqn:Ha.
  all: eapply attended_step; try done; simpl; rewrite ?He; try (by left); try (by apply HI); auto.
  1, 2: intros i link_event Hi; by apply list_elem_of_further.
  intros [Hw|Hin]%elem_of_cons; [by destruct (announces_wake event)|by left].
Qed.

Lemma safe_dispatch t n event :
  declared c → not_link event → safe t (λ g' _, idle_after n (link_count + 1) g') (taken event n) (dispatch event).
Proof.
  intros Hc Hlink. unfold taken. destruct event as [i link_event|k|i|]; [by destruct (Hlink i link_event)|..]; cbn [announces dispatch].
  2: { destruct (i <? link_count)%nat; [|apply idle_here].
       eapply safe_mono; [|apply harmless_idle, harmless_start]. intros g' u. apply idle_after_le. lia. }
  2: { apply idle_here. }
  apply safe_look. intros e s gs HI Hg. rewrite (at_runtime _ _ HI). eexists. rewrite list_insert_id by done. split; [done|].
  clear e s gs HI Hg. unfold RemoteServices.process_publication, table, publishing.
  destruct (Nat.eqb_spec k (subscription_slot c)) as [->|Hk]; [by apply safe_publication|].
  by apply harmless_idle, harmless_publication.
Qed.

Lemma safe_pump t n : declared c → safe t (λ g' _, idle_after n (link_count + 1) g') (idle n) (pump_once (A := Runtime V Rq)).
Proof.
  intros Hc e s gs _ Hg HI. unfold receive. destruct (events s) as [|event rest] eqn:He; cbn [fst snd].
  { exists (idle n). rewrite list_insert_id by done. split; [done|apply idle_here]. }
  exists (taken event n). split; [by apply attended_receive|].
  assert (Hlink : not_link event).
  { intros i link_event ->. apply (at_links _ _ HI i link_event). rewrite He. by left. }
  clear e s gs Hg HI He rest. apply safe_bind. eapply safe_mono; [|by apply safe_dispatch].
  intros g' u (j & Hj & ->). apply safe_aside; [by intros|]. intros w. by exists j.
Qed.

(** The rounds of [run], without its polls. *)
Fixpoint serve (rounds : nat) : Program unit :=
  match rounds with
  | O => Done tt
  | S rounds =>
    pumped ⇇ pump_once;
    match pumped with
    | Err _ => Done tt
    | Ok _ => _ ⇇ each_link try_start_transmit; _ ⇇ each_link expire_on; serve rounds
    end
  end.
Fixpoint write_all (writes : list (Channel * bool * bool * V)) : Program unit :=
  match writes with
  | [] => Done tt
  | (c', from_isr, interrupt, v) :: writes => _ ⇇ write_value c' from_isr interrupt v; write_all writes
  end.

Inductive Thread : Type := Writer (writes : list (Channel * bool * bool * V)) | Server (rounds : nat).
Definition thread (th : Thread) : Program unit :=
  match th with Writer writes => write_all writes | Server rounds => serve rounds end.
(** The events a thread may post. *)
Definition posts (th : Thread) : nat :=
  match th with Writer writes => length writes | Server rounds => rounds * (2 * link_count + 1) end.

Lemma safe_then m m' {A B} t n (p : Program B) (k : B → Program A) :
  safe t (λ g' _, idle_after n m g') (idle n) p →
  (∀ j b, safe t (λ g' _, idle_after j m' g') (idle j) (k b)) →
  safe t (λ g' _, idle_after n (m + m') g') (idle n) (bind p k).
Proof.
  intros Hp Hk. apply safe_bind. eapply safe_mono; [|exact Hp]. intros g' b (j & Hj & ->).
  eapply safe_mono; [|apply Hk]. intros g' a. by apply idle_after_add.
Qed.
Lemma safe_serve t n rounds :
  declared c → safe t (λ g' _, idle_after n (rounds * (2 * link_count + 1)) g') (idle n) (serve rounds).
Proof.
  intros Hc. revert n. induction rounds as [|rounds IH]; intros n; [apply idle_here|]. cbn [serve].
  assert (safe t (λ g' _, idle_after n ((link_count + 1) + (link_count * 1 + (link_count * 0 + rounds * (2 * link_count + 1)))) g')
    (idle n) (serve (S rounds))) as Hs.
  2: { eapply safe_mono; [|exact Hs]. intros g' u. apply idle_after_le. lia. }
  cbn [serve]. apply safe_then; [by apply safe_pump|]. intros j [u|status]; [|apply idle_here].
  apply safe_then; [apply harmless_idle, harmless_each_link, harmless_start|]. intros j' w.
  apply safe_then; [apply harmless_idle, harmless_each_link, harmless_expire|]. intros j'' x. apply IH.
Qed.
Lemma safe_writes t n writes : safe t (λ g' _, idle_after n (length writes) g') (idle n) (write_all writes).
Proof.
  revert n. induction writes as [|[[[c' from_isr] interrupt] v] writes IH]; intros n; [apply idle_here|].
  apply (safe_then 1 (length writes)); [|intros; apply IH]. destruct (decide (c' = c)) as [->|Hne]; [apply safe_write_value|].
  by apply harmless_idle, harmless_write.
Qed.

(** The runtime is active, no link reports, somebody is interested, and the
    ring is in order: its flag is up when a value waits, and announced when it
    is up. *)
Record quiet s : Prop := {
  qu_runtime : runtime s = true;
  qu_links : ∀ i event, EventLink i event ∉ events s;
  qu_dropped : dropped_events s = dropped ∧ is_u 32 dropped;
  qu_interest : interested_sessions (ring s) ≠ 0;
  qu_queue : ∃ vs, holds_queue (ring s) vs;
  qu_wake : wake_pending (ring s) = true → wake_event ∈ events s;
  qu_size : size (ring s) ≠ 0%nat → wake_pending (ring s) = true }.

Lemma total_idle n : total_drops (replicate n (idle 0)) = 0%nat.
Proof. induction n as [|n IH]; [done|]. exact IH. Qed.
Lemma attended_quiet n s : quiet s → attended (replicate n (idle 0)) s.
Proof.
  intros [Q1 Q2 [Q3 Q4] Q5 Q6 Q7 Q8]. split; rewrite ?total_idle; auto.
  rewrite Z.add_0_r, Q3. symmetry. by apply wrap_small.
Qed.
Lemma total_after (ths : list Thread) gs :
  (∀ t g, gs !! t = Some g → ∃ th, ths !! t = Some th ∧ idle_after 0 (posts th) g) →
  (total_drops gs ≤ sum_list_with posts ths)%nat.
Proof.
  revert gs. induction ths as [|th ths IH]; intros [|g gs] Hall; unfold total_drops in *; simpl; try lia.
  { by destruct (Hall 0%nat g eq_refl) as (th & ? & _). }
  destruct (Hall 0%nat g eq_refl) as (th' & Hth & (k & Hk & ->)). injection Hth as <-.
  pose proof (IH gs (λ t, Hall (S t))). simpl. lia.
Qed.
Lemma nobody (f : Duty → bool) (ths : list Thread) gs :
  (∀ t g, gs !! t = Some g → ∃ th, ths !! t = Some th ∧ idle_after 0 (posts th) g) →
  (∀ n, f (idle n) = false) → ¬ someone f gs.
Proof. intros Hall Hf (t & g & Hg & Ht). destruct (Hall t g Hg) as (th & _ & (k & _ & ->)). by rewrite Hf in Ht. Qed.

(** C27: any threads write to any channels, from threads and from interrupts,
    while the service runs rounds of its loop, in any interleaving; somebody
    stays interested in channel [c].  When all are done and no event has been
    dropped, no value of [c] is left behind unannounced: its ring is empty, or
    the event that makes the service look at it is in the queue. *)
Theorem publication_not_stranded ths sch s s' results :
  declared c → quiet s → Z.of_nat (sum_list_with posts ths) < 2 ^ 32 →
  Interleave.run sch (s, thread <$> ths) = (s', Done <$> results) →
  dropped_events s' = dropped →
  size (ring s') = 0%nat ∨ wake_event ∈ events s'.
Proof.
  intros Hc Hs Hposts Hrun Hdropped.
  assert (Hall : all_safe attended any (λ t g' _, ∃ th, ths !! t = Some th ∧ idle_after 0 (posts th) g') (s', Done <$> results)).
  { rewrite <-Hrun. apply all_safe_run; [apply list.Forall_forall; by intros|]. exists (replicate (length ths) (idle 0)).
    split; [by apply attended_quiet|]. split; [cbn [snd]; by rewrite length_replicate, length_fmap|].
    intros t p Hp. apply list_lookup_fmap_Some in Hp as (th & -> & Hth). exists (idle 0).
    split; [apply lookup_replicate_2; by eapply lookup_lt_Some|].
    apply (safe_mono attended any t (λ g' _, idle_after 0 (posts th) g')); [intros g u Hg; by exists th|].
    destruct th; [apply safe_writes|by apply safe_serve]. }
  destruct Hall as (gs & HI & Hlen & Hall). cbn [fst snd] in *. rewrite length_fmap in Hlen.
  assert (Hidle : ∀ t g, gs !! t = Some g → ∃ th, ths !! t = Some th ∧ idle_after 0 (posts th) g).
  { intros t g Hg. destruct (lookup_lt_is_Some_2 results t) as [u Hu].
    { rewrite <-Hlen. by eapply lookup_lt_Some. }
    destruct (Hall t (Done u)) as (g' & Hg' & Hi); [by rewrite list_lookup_fmap, Hu|]. by simplify_eq. }
  pose proof (total_after ths gs Hidle) as Hn. destruct HI as [_ _ A2 _ _ A5 A6].
  assert (Hnone : total_drops gs = 0%nat) by (rewrite Hdropped in A2; destruct (qu_dropped _ Hs) as [_ Hu]; unfold wrap, is_u in *; widths; div_lia).
  destruct (decide (size (ring s') = 0%nat)) as [|Hsize]; [by left|right].
  destruct (A6 Hnone Hsize) as [Hw|[Ho|Hv]]; [|by destruct (nobody owes ths gs)|by destruct (nobody serving ths gs)].
  destruct (A5 Hnone Hw) as [|[Hh|Hl]]; [done|by destruct (nobody holds ths gs)|by destruct (nobody looking ths gs)].
Qed.
End Stranding.
End Stranding.
