(* ===== verification/RemoteInterest.v ===== *)
(** * RemoteInterest: interest is the number of subscribed links

    Writers skip the service when nobody is interested in a channel.  The
    count they look at is kept by the updates of subscriptions; it agrees with
    the tables of the links after any sequence of updates and resets. *)
From stdpp Require Import prelude functions.
From S2P Require Import Prelude Status Wire Protocol Frame Interleave RemoteLink RemoteService RemoteRuntime RemotePublish RemotePublishProps.
Import RemoteLinks RemoteServices Runtimes Publications Stranding.

Open Scope Z_scope.
Open Scope solar_scope.
Open Scope prog_scope.

Module Interest.
Section Interest.
Context `{Config} {P : Platform} {V Rq : Type} `{!Catalog V Rq}.
Local Abbreviation State := (RemoteLinks.State (Runtime V Rq)).
Local Abbreviation Program := (RemoteLinks.Program (Runtime V Rq)).
Implicit Types (s : State) (l : LinkState) (c : Channel) (slot : nat).

(** ** Subscribers *)
Definition slot_active l slot : bool :=
  match subscriptions l !! slot with Some subscription => ss_active subscription | None => false end.
Definition subscribers s slot : nat := length (List.filter (λ i, slot_active (links s i) slot) (seq 0 link_count)).

Lemma filter_one (f g : nat → bool) i xs :
  NoDup xs → i ∈ xs → (∀ j, j ≠ i → g j = f j) →
  (length (List.filter g xs) + Nat.b2n (f i) = length (List.filter f xs) + Nat.b2n (g i))%nat.
Proof.
  intros Hnd Hi Hfg. induction Hnd as [|x xs Hx Hnd IH]; [by apply elem_of_nil in Hi|]. simpl.
  apply elem_of_cons in Hi as [<-|Hi].
  - rewrite (List.filter_ext_in g f xs).
    2: { intros j Hj. apply Hfg. intros ->. by apply Hx, list_elem_of_In. }
    destruct (f i), (g i); simpl; lia.
  - specialize (IH Hi). rewrite (Hfg x) by (by intros ->). destruct (f x); simpl; lia.
Qed.
Lemma subscribers_change s i l slot :
  (i < link_count)%nat →
  (subscribers (s <| links ::= <[i := l]> |>) slot + Nat.b2n (slot_active (links s i) slot)
   = subscribers s slot + Nat.b2n (slot_active l slot))%nat.
Proof.
  intros Hi. unfold subscribers. pose proof (filter_one (λ j, slot_active (links s j) slot)
    (λ j, slot_active (links (s <| links ::= <[i := l]> |>) j) slot) i (seq 0 link_count)) as Hf.
  simpl in Hf. rewrite fn_lookup_insert in Hf. apply Hf; [apply NoDup_seq|by apply elem_of_seq; lia|].
  intros j Hj. by rewrite fn_lookup_insert_ne.
Qed.

Lemma switch_spec slot enable interval l :
  (slot < length (subscriptions l))%nat →
  ∃ l', switch_subscription slot enable interval l = Some (negb (eqb (slot_active l slot) enable), l')
    ∧ slot_active l' slot = enable ∧ (∀ slot', slot' ≠ slot → slot_active l' slot' = slot_active l slot')
    ∧ length (subscriptions l') = length (subscriptions l).
Proof.
  intros Hslot. unfold switch_subscription, slot_active. destruct (lookup_lt_is_Some_2 _ _ Hslot) as [x Hx]. rewrite Hx. simpl.
  eexists. split; [done|].
  destruct enable, (ss_active x) eqn:Ha; simpl; rewrite ?list_lookup_alter_eq, ?list_lookup_insert_eq, ?Hx by done; simpl;
    (split; [done|]; split; [|by rewrite ?length_alter, ?length_insert]);
    intros slot' Hne; rewrite ?list_lookup_alter_ne, ?list_lookup_insert_ne by done; done.
Qed.

(** ** The counts *)
Definition has_loans d : Prop := (d < data_count)%nat ∧ push_policy d = None ∧ is_Some (loaned_policy d).
Definition interest_at s c : Z := interested_sessions (rings (application s) c).
(** All counts agree with the tables but those of one slot. *)
Record counted_but slot (n : nat) s : Prop := {
  cb_tables : ∀ i, (i < link_count)%nat → (data_count * 2 + topic_count ≤ length (subscriptions (links s i)))%nat;
  cb_rings : ∀ c, declared c → interest_at s c =
    u32 (Z.of_nat (if (subscription_slot c =? slot)%nat then n else subscribers s (subscription_slot c)));
  cb_loans : ∀ d, has_loans d → ln_interested (loans (application s) d) =
    u32 (Z.of_nat (if (d =? slot)%nat then n else subscribers s d)) }.
Record counted s : Prop := {
  ct_tables : ∀ i, (i < link_count)%nat → (data_count * 2 + topic_count ≤ length (subscriptions (links s i)))%nat;
  ct_rings : ∀ c, declared c → interest_at s c = u32 (Z.of_nat (subscribers s (subscription_slot c)));
  ct_loans : ∀ d, has_loans d → ln_interested (loans (application s) d) = u32 (Z.of_nat (subscribers s d)) }.

Ltac same_slot :=
  match goal with |- context [(?k =? ?slot)%nat] => destruct (Nat.eqb_spec k slot) as [?|?] end.
Lemma counted_same slot n s : subscribers s slot = n → counted_but slot n s → counted s.
Proof.
  intros Hn [Ht Hr Hl]. split; [done|intros x Hx..]; [rewrite (Hr x Hx)|rewrite (Hl x Hx)]; same_slot; by subst.
Qed.
Lemma counted_switch s i l slot :
  (i < link_count)%nat → counted s → (∀ slot', slot' ≠ slot → slot_active l slot' = slot_active (links s i) slot') →
  length (subscriptions l) = length (subscriptions (links s i)) →
  counted_but slot (subscribers s slot) (s <| links ::= <[i := l]> |>).
Proof.
  intros Hi [Ht Hr Hl] Hsame Hlen.
  assert (Hother : ∀ slot', slot' ≠ slot → subscribers (s <| links ::= <[i := l]> |>) slot' = subscribers s slot').
  { intros slot' Hne. pose proof (subscribers_change s i l slot' Hi) as Hc. rewrite (Hsame slot' Hne) in Hc. lia. }
  split; [|intros x Hx; same_slot; subst..].
  { intros j Hj. simpl. destruct (decide (j = i)) as [->|Hne]; [rewrite fn_lookup_insert, Hlen|rewrite fn_lookup_insert_ne by done]; auto. }
  - by apply Hr.
  - rewrite Hother by done. by apply Hr.
  - by apply Hl.
  - rewrite Hother by done. by apply Hl.
Qed.

Lemma slot_inj c c' : declared c → declared c' → subscription_slot c = subscription_slot c' → c = c'.
Proof. destruct c, c'; simpl; intros H1 H2 Hs; f_equal; try lia; destruct H1 as [? ?], H2 as [? ?] || idtac; lia. Qed.

Lemma no_loans_at c d : declared c → has_loans d → d ≠ subscription_slot c.
Proof. destruct c; simpl; intros Hc (Hd & Hp & _) ->; [destruct Hc as [_ [q Hq]]; congruence|lia..]. Qed.

Lemma shift_counts enable n m :
  (m + Nat.b2n (negb enable) = n + Nat.b2n enable)%nat → shift_interest enable (u32 (Z.of_nat n)) = u32 (Z.of_nat m).
Proof.
  unfold shift_interest. intros Hm. destruct enable; simpl in Hm.
  - replace (Z.of_nat m) with (Z.of_nat n + 1) by lia. unfold wrap. by rewrite Zplus_mod_idemp_l.
  - replace (Z.of_nat m) with (Z.of_nat n - 1) by lia. unfold wrap. by rewrite Zminus_mod_idemp_l.
Qed.

Lemma counted_shift_ring s c n enable r :
  declared c → counted_but (subscription_slot c) n s →
  (subscribers s (subscription_slot c) + Nat.b2n (negb enable) = n + Nat.b2n enable)%nat →
  r = rings (application s) c <| interested_sessions ::= shift_interest enable |> →
  counted (s <| application ::= λ a, a <| rings ::= <[c := r]> |> |>).
Proof.
  intros Hc [Ht Hr Hl] Hn ->. split; [done|intros x Hx; unfold interest_at; simpl..].
  - destruct (decide (x = c)) as [->|Hne].
    + rewrite fn_lookup_insert. simpl. fold (interest_at s c). rewrite (Hr c Hx), Nat.eqb_refl. by apply shift_counts.
    + rewrite fn_lookup_insert_ne by done. fold (interest_at s x). rewrite (Hr x Hx). same_slot; [|done].
      by destruct Hne; apply slot_inj.
  - rewrite (Hl x Hx). same_slot; [by destruct (no_loans_at c x)|done].
Qed.
Lemma counted_shift_loans s d n enable p :
  has_loans d → counted_but d n s → (subscribers s d + Nat.b2n (negb enable) = n + Nat.b2n enable)%nat →
  p = loans (application s) d <| ln_interested ::= shift_interest enable |> →
  counted (s <| application ::= λ a, a <| loans ::= <[d := p]> |> |>).
Proof.
  intros Hd [Ht Hr Hl] Hn ->. split; [done|intros x Hx; simpl..].
  - unfold interest_at. simpl. fold (interest_at s x). rewrite (Hr x Hx). same_slot; [by destruct (no_loans_at x d)|done].
  - destruct (decide (x = d)) as [->|Hne].
    + rewrite fn_lookup_insert. simpl. rewrite (Hl d Hx), Nat.eqb_refl. by apply shift_counts.
    + rewrite fn_lookup_insert_ne by done. rewrite (Hl x Hx). by same_slot.
Qed.

(** ** Updates *)
Lemma alone_table {B} e i (f : LinkState → option (B * LinkState)) s b l :
  f (links s i) = Some (b, l) → alone e (section (A := Runtime V Rq) i f) s = Some (b, s <| links ::= <[i := l]> |>).
Proof. intros Hf. unfold section. cbn [alone]. rewrite Hf. done. Qed.

(** The tables after an update: the counts agree, and a link that gives up has
    no more than before. *)
Definition subscribed_as i enable s s' : Prop :=
  counted s' ∧ (enable = false → ∀ slot, slot_active (links s' i) slot = true → slot_active (links s i) slot = true).
Lemma subscribed_same i enable s : counted s → subscribed_as i enable s s.
Proof. by intros Hs. Qed.

(** The update of one table and of its count: the counts agree again, and the
    link has what it asked for. *)
Lemma counted_update {A} e i s slot enable (shift : Program unit) :
  (i < link_count)%nat → (slot < data_count * 2 + topic_count)%nat → counted s →
  (∀ n s1, counted_but slot n s1 → (subscribers s1 slot + Nat.b2n (negb enable) = n + Nat.b2n enable)%nat →
     ∃ s2, alone e shift s1 = Some (tt, s2) ∧ counted s2 ∧ links s2 = links s1) →
  ∀ interval (a : A), ∃ s', alone e (changed ⇇ section i (switch_subscription slot enable interval);
                 _ ⇇ (if negb changed then Done tt else shift); Done a) s = Some (a, s')
    ∧ subscribed_as i enable s s' ∧ slot_active (links s' i) slot = enable.
Proof.
  intros Hi Hslot Hs Hshift interval a. pose proof (ct_tables _ Hs i Hi).
  destruct (switch_spec slot enable interval (links s i)) as (l & Hsw & Ha & Hsame & Hlen); [lia|].
  pose proof (counted_switch s i l slot Hi Hs Hsame Hlen) as Hc. pose proof (subscribers_change s i l slot Hi) as Hn.
  rewrite alone_bind, (alone_table e i _ s _ _ Hsw). cbn [mbind option_bind]. set (s1 := s <| links ::= <[i := l]> |>) in *.
  assert (Hl : links s1 i = l) by (subst s1; simpl; apply fn_lookup_insert).
  assert (Hmono : enable = false → ∀ slot', slot_active l slot' = true → slot_active (links s i) slot' = true).
  { intros He slot' Hs'. destruct (decide (slot' = slot)) as [->|Hne]; [congruence|by rewrite <-Hsame]. }
  unfold subscribed_as. rewrite alone_bind. rewrite Ha in Hn. destruct (eqb (slot_active (links s i) slot) enable) eqn:Heq; cbn [negb].
  - exists s1. rewrite Hl. split; [done|]. split; [|done]. split; [|done]. eapply counted_same; [|done].
    apply eqb_prop in Heq. rewrite Heq in Hn. lia.
  - destruct (Hshift (subscribers s slot) s1) as (s2 & Hsh & Hs2 & Hlinks); [done| |].
    + destruct (slot_active (links s i) slot), enable; simpl in *; try done; lia.
    + rewrite Hsh. exists s2. by rewrite Hlinks, Hl.
Qed.

(** The three ways of counting. *)
Lemma shift_ring e c enable n s :
  declared c → counted_but (subscription_slot c) n s →
  (subscribers s (subscription_slot c) + Nat.b2n (negb enable) = n + Nat.b2n enable)%nat →
  ∃ s2, alone e (_ ← change_interest (Rq := Rq) c enable; Done tt) s = Some (tt, s2) ∧ counted s2 ∧ links s2 = links s.
Proof. intros Hc Hb Hn. eexists. split; [done|]. split; [|done]. by eapply counted_shift_ring. Qed.
Lemma shift_stream e d enable n s :
  (d < data_count)%nat → counted_but d n s → (subscribers s d + Nat.b2n (negb enable) = n + Nat.b2n enable)%nat →
  ∃ s2, alone e (change_stream_interest (V := V) (Rq := Rq) d enable) s = Some (tt, s2) ∧ counted s2 ∧ links s2 = links s.
Proof.
  intros Hd Hb Hn. unfold change_stream_interest. destruct (push_policy d) as [q|] eqn:Hp.
  { apply (shift_ring e (Push d) enable n); [by split; [|eexists]|done|done]. }
  destruct (loaned_policy d) as [q|] eqn:Hq; eexists; (split; [done|]); (split; [|done]).
  { eapply counted_shift_loans; [|done|done|done]. by split; [|split; [|eexists]]. }
  destruct Hb as [Ht Hr Hl]. split; [done|intros x Hx..].
  - rewrite (Hr x Hx). same_slot; [exfalso|done]. destruct x; simpl in *; subst; [destruct Hx as [_ [? ?]]; congruence|lia..].
  - rewrite (Hl x Hx). same_slot; [exfalso|done]. subst. destruct Hx as (_ & _ & [? ?]). congruence.
Qed.

Definition data_channel d (subscription : Z) : Channel :=
  if subscription =? Subscription_DataStream then Push d else Watch d.
Lemma counted_data e i d target enable subscription request s :
  (i < link_count)%nat → (d < data_count)%nat → counted s →
  ∃ r s', alone e (update_data_subscription (Rq := Rq) i d target enable subscription request) s = Some (r, s')
    ∧ subscribed_as i enable s s'
    ∧ (is_ok r = true → r ≠ Ok None → slot_active (links s' i) (subscription_slot (data_channel d subscription)) = enable).
Proof.
  intros Hi Hd Hs. unfold update_data_subscription, data_channel. pose proof (subscribed_same i enable s Hs) as Hsame.
  destruct (negb (target =? data_id d) || _) eqn:Hkind; [by eexists (Ok None), s|].
  destruct ((subscription =? Subscription_DataStream) && negb (has_out_stream d) || _) eqn:Hops; [by eexists (Err _), s|].
  destruct (unsupported_request _ _); [by eexists (Err _), s|].
  destruct (subscription =? Subscription_DataStream); eexists _.
  - pose proof (counted_update (A := result ErrorCode (option SubscriptionPolicy)) e i s (subscription_slot (Push d)) enable
      (change_stream_interest d enable)) as Hu.
    edestruct Hu as (s' & Hrun & Hs' & Ha); [done|simpl; lia|done| |exists s'; split; [exact Hrun|]; by split].
    intros n s1 Hb Hn. by apply (shift_stream e d enable n).
  - pose proof (counted_update (A := result ErrorCode (option SubscriptionPolicy)) e i s (subscription_slot (Watch d)) enable
      (_ ← change_interest (Watch d) enable; Done tt)) as Hu.
    edestruct Hu as (s' & Hrun & Hs' & Ha); [done|simpl; lia|done| |exists s'; split; [exact Hrun|]; by split].
    intros n s1 Hb Hn. apply (shift_ring e (Watch d) enable n); [|done|done]. split; [done|].
    destruct (bool_decide_reflect (is_Some (watch_policy d))); [done|].
    destruct (subscription =? Subscription_DataWatch), (target =? data_id d); simpl in *; done.
Qed.
Lemma counted_topic e i k target enable subscription request s :
  (i < link_count)%nat → (k < topic_count)%nat → counted s →
  ∃ r s', alone e (update_topic_subscription (Rq := Rq) i k target enable subscription request) s = Some (r, s')
    ∧ subscribed_as i enable s s'
    ∧ (is_ok r = true → r ≠ Ok None → slot_active (links s' i) (subscription_slot (Topic k)) = enable).
Proof.
  intros Hi Hk Hs. unfold update_topic_subscription. pose proof (subscribed_same i enable s Hs) as Hsame.
  destruct (_ || _); [by eexists (Ok None), s|]. destruct (unsupported_request _ _); [by eexists (Err _), s|].
  pose proof (counted_update (A := result ErrorCode (option SubscriptionPolicy)) e i s (subscription_slot (Topic k)) enable
    (_ ← change_interest (Topic k) enable; Done tt)) as Hu.
  eexists _. edestruct Hu as (s' & Hrun & Hs' & Ha); [done|simpl; lia|done| |exists s'; split; [exact Hrun|]; by split].
  intros n s1 Hb Hn. by apply (shift_ring e (Topic k) enable n).
Qed.

Lemma subscribed_trans i enable s s' s'' :
  subscribed_as i enable s s' → subscribed_as i enable s' s'' → subscribed_as i enable s s''.
Proof. intros [_ H1] [H2 H3]. split; auto. Qed.
Lemma counted_first e i enable n k (p : nat → Program (result ErrorCode (option SubscriptionPolicy))) s :
  counted s →
  (∀ j s, (k ≤ j < k + n)%nat → counted s → ∃ r s', alone e (p j) s = Some (r, s') ∧ subscribed_as i enable s s') →
  ∃ r s', alone e (first_known n k p) s = Some (r, s') ∧ subscribed_as i enable s s'.
Proof.
  intros Hs Hp. revert k s Hs Hp. induction n as [|n IH]; intros k s Hs Hp; [by eexists (Ok None), s|]. cbn [first_known].
  destruct (Hp k s) as (r & s1 & Hrun & Hs1); [lia|done|]. rewrite alone_bind, Hrun. cbn [mbind option_bind].
  assert (Hrest : ∃ r' s', alone e (first_known n (S k) p) s1 = Some (r', s') ∧ subscribed_as i enable s s').
  { destruct (IH (S k) s1) as (r' & s2 & Hrun' & Hs2); [apply Hs1|intros j s' Hj; apply Hp; lia|].
    exists r', s2. split; [done|]. by eapply subscribed_trans. }
  destruct r as [[policy|]|code]; [by eexists _, s1|done|by eexists _, s1].
Qed.
Lemma counted_subscription e i target enable subscription request s :
  (i < link_count)%nat → counted s →
  ∃ r s', alone e (update_subscription (V := V) (Rq := Rq) i target enable subscription request) s = Some (r, s')
    ∧ subscribed_as i enable s s'.
Proof.
  intros Hi Hs. unfold update_subscription. rewrite alone_bind.
  destruct (counted_first e i enable data_count 0
    (λ d, update_data_subscription i d target enable subscription request) s Hs) as (r & s1 & Hrun & Hs1).
  { intros j s' Hj Hs'. destruct (counted_data e i j target enable subscription request s') as (r & s1 & ? & ? & _);
      [done|lia|done|by exists r, s1]. }
  rewrite Hrun. cbn [mbind option_bind].
  assert (Htopics : ∃ r' s', alone e (first_known topic_count 0
    (λ t, update_topic_subscription (Rq := Rq) i t target enable subscription request)) s1 = Some (r', s') ∧ subscribed_as i enable s s').
  { destruct (counted_first e i enable topic_count 0
      (λ t, update_topic_subscription i t target enable subscription request) s1) as (r' & s2 & Hrun' & Hs2); [apply Hs1| |].
    { intros j s' Hj Hs'. destruct (counted_topic e i j target enable subscription request s') as (r' & s2 & ? & ? & _);
        [done|lia|done|by exists r', s2]. }
    exists r', s2. split; [done|]. by eapply subscribed_trans. }
  destruct r as [[policy|]|code]; [by eexists _, s1|done|by eexists _, s1].
Qed.

(** ** The end of a session *)
Definition given_up i slot s : Prop := slot_active (links s i) slot = false.
Lemma given_up_after i slot s s' : subscribed_as i false s s' → given_up i slot s → given_up i slot s'.
Proof. intros [_ Hm] Hg. unfold given_up in *. specialize (Hm eq_refl slot). destruct (slot_active (links s' i) slot); naive_solver. Qed.

Lemma counted_endpoints e i n k (p : nat → Program unit) (slot_of : nat → nat) (offered : nat → Prop) s :
  counted s →
  (∀ j s, (k ≤ j < k + n)%nat → counted s → ∃ s', alone e (p j) s = Some (tt, s') ∧ subscribed_as i false s s'
     ∧ (offered j → given_up i (slot_of j) s')) →
  ∃ s', alone e (for_endpoints n k p) s = Some (tt, s') ∧ subscribed_as i false s s'
    ∧ ∀ j, (k ≤ j < k + n)%nat → offered j → given_up i (slot_of j) s'.
Proof.
  intros Hs Hp. revert k s Hs Hp. induction n as [|n IH]; intros k s Hs Hp.
  { exists s. split; [done|]. split; [by apply subscribed_same|lia]. }
  cbn [for_endpoints]. destruct (Hp k s) as (s1 & Hrun & Hs1 & Hk); [lia|done|]. rewrite alone_bind, Hrun. cbn [mbind option_bind].
  destruct (IH (S k) s1) as (s2 & Hrun' & Hs2 & Hrest); [apply Hs1|intros j s' Hj; apply Hp; lia|].
  exists s2. split; [done|]. split; [by eapply subscribed_trans|]. intros j Hj Ho.
  destruct (decide (j = k)) as [->|Hne]; [|apply Hrest; [lia|done]]. eapply given_up_after; [done|by apply Hk].
Qed.
Lemma alone_forgo {B} e (p : Program B) s b s' : alone e p s = Some (b, s') → alone e (forgo p) s = Some (tt, s').
Proof. intros Hp. unfold forgo. by rewrite alone_bind, Hp. Qed.

(** What the update answers when it goes through. *)
Lemma alone_answer {A B C} e (p : Program B) (q : B → Program C) (a r : A) s s' :
  alone e (x ⇇ p; _ ⇇ q x; Done a) s = Some (r, s') → r = a.
Proof.
  rewrite alone_bind. destruct (alone e p s) as [[b s1]|]; [|done]. cbn [mbind option_bind]. rewrite alone_bind.
  destruct (alone e (q b) s1) as [[c s2]|]; [|done]. by intros [= <- _].
Qed.
Definition goes_through (r : result ErrorCode (option SubscriptionPolicy)) : Prop := is_ok r = true ∧ r ≠ Ok None.
Lemma data_goes_through e i d enable subscription r s s' :
  (subscription = Subscription_DataStream ∧ has_out_stream d = true
   ∨ subscription = Subscription_DataWatch ∧ is_Some (watch_policy d)) →
  alone e (update_data_subscription (Rq := Rq) i d (data_id d) enable subscription no_request) s = Some (r, s') → goes_through r.
Proof.
  unfold update_data_subscription. rewrite Z.eqb_refl. intros [[-> Hd]|[-> Hd]].
  - rewrite Hd. cbn -[alone bind section]. by intros ->%alone_answer.
  - rewrite (bool_decide_eq_true_2 _ Hd). cbn -[alone bind section]. by intros ->%alone_answer.
Qed.
Lemma topic_goes_through e i k enable r s s' :
  alone e (update_topic_subscription (Rq := Rq) i k (topic_id k) enable Subscription_Topic no_request) s = Some (r, s') →
  goes_through r.
Proof.
  unfold update_topic_subscription. rewrite !Z.eqb_refl. cbn -[alone bind section]. by intros ->%alone_answer.
Qed.

Lemma counted_reset e i s :
  (i < link_count)%nat → counted s →
  ∃ s', alone e (reset_session_link (V := V) (Rq := Rq) i) s = Some (tt, s') ∧ subscribed_as i false s s'
    ∧ (∀ d, (d < data_count)%nat → has_out_stream d = true → given_up i d s')
    ∧ (∀ c, declared c → given_up i (subscription_slot c) s').
Proof.
  intros Hi Hs. unfold reset_session_link.
  destruct (counted_endpoints e i data_count 0
    (λ d, forgo (update_data_subscription i d (data_id d) false Subscription_DataStream no_request)) id
    (λ d, has_out_stream d = true) s Hs) as (s1 & Hrun1 & Hs1 & Hg1).
  { intros d s' Hd Hs'. destruct (counted_data e i d (data_id d) false Subscription_DataStream no_request s') as (r & s1 & Hrun & Hs1 & Hg);
      [done|lia|done|]. exists s1. split; [by eapply alone_forgo|]. split; [done|]. intros Ho.
    destruct (data_goes_through e i d false Subscription_DataStream r s' s1) as [? ?]; [by left|done|]. by apply Hg. }
  destruct (counted_endpoints e i data_count 0
    (λ d, forgo (update_data_subscription i d (data_id d) false Subscription_DataWatch no_request)) (λ d, data_count + d)%nat
    (λ d, is_Some (watch_policy d)) s1) as (s2 & Hrun2 & Hs2 & Hg2); [apply Hs1| |].
  { intros d s' Hd Hs'. destruct (counted_data e i d (data_id d) false Subscription_DataWatch no_request s') as (r & s2 & Hrun & Hs2 & Hg);
      [done|lia|done|]. exists s2. split; [by eapply alone_forgo|]. split; [done|]. intros Ho.
    destruct (data_goes_through e i d false Subscription_DataWatch r s' s2) as [? ?]; [by right|done|]. by apply Hg. }
  destruct (counted_endpoints e i topic_count 0
    (λ k, forgo (update_topic_subscription i k (topic_id k) false Subscription_Topic no_request)) (λ k, data_count * 2 + k)%nat
    (λ _, True) s2) as (s3 & Hrun3 & Hs3 & Hg3); [apply Hs2| |].
  { intros k s' Hk Hs'. destruct (counted_topic e i k (topic_id k) false Subscription_Topic no_request s') as (r & s3 & Hrun & Hs3 & Hg);
      [done|lia|done|]. exists s3. split; [by eapply alone_forgo|]. split; [done|]. intros _.
    destruct (topic_goes_through e i k false r s' s3) as [? ?]; [done|]. by apply Hg. }
  exists s3. rewrite alone_bind, Hrun1. cbn [mbind option_bind]. rewrite alone_bind, Hrun2. cbn [mbind option_bind].
  split; [done|]. split; [by eapply subscribed_trans; [|eapply subscribed_trans]|].
  assert (Hstream : ∀ d, (d < data_count)%nat → has_out_stream d = true → given_up i d s3).
  { intros d Hd Ho. do 2 (eapply given_up_after; [done|]). apply (Hg1 d); [lia|done]. }
  split; [done|]. intros [d|d|k] Hc; simpl in Hc.
  - destruct Hc as [Hd Hp]. apply Hstream; [done|]. unfold has_out_stream. by rewrite (bool_decide_eq_true_2 _ Hp).
  - destruct Hc as [Hd Hp]. eapply given_up_after; [done|]. apply (Hg2 d); [lia|done].
  - apply (Hg3 k); [lia|done].
Qed.

(** ** Histories *)
Inductive Change : Set :=
  | Subscribe (i : nat) (target : Z) (enable : bool) (subscription : Z) (request : SubscriptionRequest)
  | EndSession (i : nat).
Definition link_of (change : Change) : nat := match change with Subscribe i _ _ _ _ => i | EndSession i => i end.
Definition change_program (change : Change) : Program unit :=
  match change with
  | Subscribe i target enable subscription request => forgo (update_subscription i target enable subscription request)
  | EndSession i => reset_session_link i
  end.
Fixpoint after (changes : list (Env * Change)) s : option State :=
  match changes with
  | [] => Some s
  | (e, change) :: changes => alone e (change_program change) s ≫= λ '(_, s), after changes s
  end.

Lemma counted_change e change s :
  (link_of change < link_count)%nat → counted s → ∃ s', alone e (change_program change) s = Some (tt, s') ∧ counted s'.
Proof.
  intros Hi Hs. destruct change as [i target enable subscription request|i]; simpl in *.
  - destruct (counted_subscription e i target enable subscription request s Hi Hs) as (r & s' & Hrun & Hs' & _).
    exists s'. split; [by eapply alone_forgo|done].
  - destruct (counted_reset e i s Hi Hs) as (s' & Hrun & [Hs' _] & _). by exists s'.
Qed.
Lemma counted_after changes s :
  Forall (λ x, (link_of x.2 < link_count)%nat) changes → counted s → ∃ s', after changes s = Some s' ∧ counted s'.
Proof.
  intros Hch. revert s. induction Hch as [|[e change] changes Hi Hch IH]; intros s Hs; [by exists s|].
  destruct (counted_change e change s Hi Hs) as (s1 & Hrun & Hs1). simpl. rewrite Hrun. by apply IH.
Qed.

(** C29: whatever the links subscribe to, give up, and lose with their sessions,
    each update goes through, and the interest that the writers of a channel
    look at is the number of links that are subscribed to it; a session that
    has ended leaves no subscription of its link behind. *)
Theorem interest_is_subscribers changes s e i :
  Forall (λ x, (link_of x.2 < link_count)%nat) changes → (i < link_count)%nat → counted s →
  ∃ s1 s2, after changes s = Some s1 ∧ alone e (reset_session_link i) s1 = Some (tt, s2)
    ∧ (∀ c, declared c → interest_at s1 c = u32 (Z.of_nat (subscribers s1 (subscription_slot c))))
    ∧ (∀ d, has_loans d → ln_interested (loans (application s1) d) = u32 (Z.of_nat (subscribers s1 d)))
    ∧ counted s2 ∧ (∀ c, declared c → given_up i (subscription_slot c) s2).
Proof.
  intros Hch Hi Hs. destruct (counted_after changes s Hch Hs) as (s1 & Hrun & Hs1).
  destruct (counted_reset e i s1 Hi Hs1) as (s2 & Hrun2 & [Hs2 _] & _ & Hg).
  exists s1, s2. destruct Hs1 as [_ Hr Hl]. by split_and!.
Qed.
End Interest.
End Interest.
