(* ===== verification/RemotePublishExamples.v ===== *)
(** * RemotePublishExamples: publications at concrete inputs

    One datum with a pushed stream of batches of two, one topic, one link; the
    witnesses of the theorems on publications, and a writer that is told of an
    announcement that is then lost. *)
From stdpp Require Import prelude functions.
From S2P Require Import Prelude Status Wire Protocol Cobs Frame Interleave RemoteLink RemoteService RemoteSend.
From S2P Require Import RemoteRuntime RemotePublish RemoteRing RemotePublishProps RemoteInterest.
Import RemoteLinks RemoteServices Sending Runtimes Publications Rings Stranding Interest.

Open Scope Z_scope.
Open Scope solar_scope.

Module PublishExamples.

#[export] Instance small : Config := {|
  frame_bytes := 64; message_bytes := 96; lane_depth := 4; message_slots := 2; response_bytes := 32;
  max_requests := 2; reassembly_slots := 2; reassembly_timeout := 100; max_endpoints := 3; link_count := 1;
  link_grants := λ _, 7; runtime_introspection := true; manifest_retrieval := true; inspection_remote := true;
  event_depth := 4 |}.
#[export] Instance host : Platform := host_platform (Some 64%nat).

(** Values are bytes. *)
#[export] Instance catalog : Catalog Z unit := {|
  data_count := 1; topic_count := 1; action_count := 0; data_id _ := 7; topic_id _ := 9; action_id _ := 0;
  push_policy d := if (d =? 0)%nat then Some (mkQueuePolicy 2 DropOldest, 2%nat) else None;
  loaned_policy _ := None; has_poll _ := false; watch_policy _ := None; topic_policy _ := mkQueuePolicy 1 Reject;
  declared_rate _ := 0; has_query _ := false; has_update _ := false; inline_data _ := true; inline_action _ := true;
  asynchronous _ := false; action_permissions _ := 0; data_codec _ := 1; topic_codec _ := 1; max_encoded_size _ := 1%nat;
  encode_value _ v _ := Ok [v]; decode_value _ _ := None; decode_request _ _ := None; act _ _ _ := Responds (Ok []);
  read _ _ := Responds (Ok []); write _ _ _ := Responds (Ok []); accepts_work _ _ := true; max_stream_rate := 1000;
  us_to_ticks t := t |}.
#[export] Instance silent : Application (Runtime Z unit) := {|
  RemoteServices.process_publication := Publications.process_publication;
  process_application_frame _ _ := Done tt; process_poll_releases := Done 50;
  reset_session _ _ := Done tt; open_session _ := Done tt; pong_responded := Done tt;
  introspection_summary := no_summary; server_information := no_information;
  manifest_chunk _ _ := Done (Ok []); inspection_collections _ _ := Done (Ok []); inspection_query _ _ := Done (Ok []);
  inspection_response_bytes := 32; initialize_in_stream_runtime := Done tt |}.

Definition no_loans : LoanState := mkLoanState [] [] false 0 0 0 0 0.
Definition runtime_with (interested : Z) : Runtime Z unit :=
  mkRuntime (λ c, match c with Push 0 => mkRing [None; None] 0 0 0 0 false interested | _ => new_ring 1 end)
    (λ _, no_loans) (λ _, mkPending None default_envelope 0) (λ _, mkAsynchronous false default_envelope 0)
    (λ _, mkPending None default_envelope 0) (λ _, mkPending None default_envelope 0) [] (λ _, new_in_stream 0) 1 [] (λ _, new_poll).
Definition active_link (subscribed : bool) : LinkState :=
  initial_link <| connected := true |> <| session := Active |> <| epoch := 1 |>
    <| subscriptions ::= alter (λ x, x <| ss_active := subscribed |>) 0%nat |>.
Definition start (interested : Z) (subscribed : bool) (queue : list ServiceEvent) : State (Runtime Z unit) :=
  mkState true true 0 true (λ _, active_link subscribed) queue true 0 0 0 [] (runtime_with interested).
Definition env : Env := mkEnv 5 0 (λ _, Some TxAccepted) (λ _ _, None) (λ _, None) false SWouldBlock.

(** ** Two writers, one in an interrupt, and the service *)
Definition threads : list (Thread (V := Z)) :=
  [Writer [(Push 0, false, false, 5); (Topic 0, false, false, 1)]; Writer [(Push 0, true, true, 6)]; Server 4].
Definition turns : list (nat * Env) :=
  map (λ t, (t, env)) ([0; 0; 0; 1; 1; 1; 1; 0; 2; 0; 2; 1; 2; 0; 2; 1; 0; 2; 2]%nat
    ++ concat (replicate 20 [0; 1; 2]%nat) ++ replicate 60 2%nat).

Lemma served : (Interleave.run turns (start 1 true [], thread silent <$> threads)).2 = Done <$> [tt; tt; tt].
Proof. vm_compute. reflexivity. Qed.
Lemma start_quiet : quiet (Push 0) 0 (start 1 true []).
Proof.
  split; try done.
  - intros i event Hi. by apply elem_of_nil in Hi.
  - exists []. by split; simpl; [lia..|].
Qed.
Lemma publication_not_stranded_witness :
  ∃ s', Interleave.run turns (start 1 true [], thread silent <$> threads) = (s', Done <$> [tt; tt; tt])
    ∧ dropped_events s' = 0 ∧ wire s' ≠ []
    ∧ (size (ring (Push 0) s') = 0%nat ∨ wake_event (Push 0) ∈ events s').
Proof.
  eexists (Interleave.run turns (start 1 true [], thread silent <$> threads)).1.
  assert (Hrun : Interleave.run turns (start 1 true [], thread silent <$> threads)
    = ((Interleave.run turns (start 1 true [], thread silent <$> threads)).1, Done <$> [tt; tt; tt])).
  { rewrite <-served. apply surjective_pairing. }
  split; [done|]. split; [vm_compute; reflexivity|]. split; [vm_compute; done|].
  apply (publication_not_stranded (Push 0) 0 silent threads turns (start 1 true []) _ [tt; tt; tt]).
  - split; [|eexists]; [apply Nat.lt_0_succ|reflexivity].
  - apply start_quiet.
  - vm_compute. reflexivity.
  - exact Hrun.
  - vm_compute. reflexivity.
Defined.

(** ** Subscriptions *)
Lemma start_counted : counted (start 0 false []).
Proof.
  split.
  - intros i Hi. simpl. lia.
  - intros c Hc. destruct c as [[|d]|d|[|k]]; [reflexivity| | |reflexivity|]; exfalso; simpl in Hc.
    + destruct Hc as [Hd _]. lia.
    + destruct Hc as [_ [q Hq]]. discriminate Hq.
    + lia.
  - intros d (_ & _ & [q Hq]). discriminate Hq.
Qed.
Definition request : SubscriptionRequest := mkSubscriptionRequest 0 0 0 0.
Definition changes : list (Env * Change) :=
  [(env, Subscribe 0 7 true Subscription_DataStream request); (env, Subscribe 0 9 true Subscription_Topic request);
   (env, Subscribe 0 9 true Subscription_Topic request)].
Lemma interest_is_subscribers_witness :
  ∃ s1 s2, after changes (start 0 false []) = Some s1 ∧ alone env (reset_session_link (V := Z) (Rq := unit) 0) s1 = Some (tt, s2)
    ∧ interest_at s1 (Push 0) = 1 ∧ interest_at s1 (Topic 0) = 1
    ∧ interest_at s2 (Push 0) = 0 ∧ interest_at s2 (Topic 0) = 0
    ∧ given_up 0 (subscription_slot (Topic 0)) s2.
Proof.
  destruct (interest_is_subscribers changes (start 0 false []) env 0) as (s1 & s2 & H1 & H2 & _ & _ & H5 & H6).
  - repeat constructor.
  - apply Nat.lt_0_succ.
  - apply start_counted.
  - exists s1, s2. split; [exact H1|]. split; [exact H2|].
    assert (H6' := H6 (Topic 0) Nat.lt_0_1). clear H5 H6.
    assert (Hs1 : Some s1 = after changes (start 0 false [])) by done. clear H1. vm_compute in Hs1. injection Hs1 as ->.
    vm_compute in H2. injection H2 as <-. split_and!; [reflexivity..|exact H6'].
Defined.

(** A writer that coalesces with an announcement under way is told that its
    value is announced; the announcement then finds no place. *)
Definition writers : list (Program (Runtime Z unit) (Wire.Result WriteReceipt)) :=
  [write_value (Push 0) false false 5; write_value (Push 0) false false 6].
Definition crossing : list (nat * Env) := map (λ t, (t, env)) [0; 0; 0; 0; 1; 1; 1; 1; 1; 0; 0; 0; 0]%nat.
Definition crowded : State (Runtime Z unit) := start 1 true (replicate 4 (EventOutput 0)).
Example coalesced_announcement_lost :
  let s' := Interleave.run crossing (crowded, writers) in
  s'.2 = [Done (Ok (mkReceipt Runtimes.Accepted 1 false)); Done (Ok (mkReceipt Coalesced 2 true))]
  ∧ size (ring (Push 0) s'.1) = 2%nat ∧ wake_pending (ring (Push 0) s'.1) = false
  ∧ events s'.1 = replicate 4 (EventOutput 0) ∧ dropped_events s'.1 = 1.
Proof. vm_compute. auto. Qed.

(** ** A ring that has filled while nobody was subscribed *)

(** A write to a full ring that does not drop its oldest value raises no flag
    and posts no event, whoever is interested by now. *)
Lemma full_ring_unannounced `{Config} {P : Platform} {V Rq : Type} `{!Catalog V Rq} e c from_isr interrupt (v : V)
    (s : State (Runtime V Rq)) :
  size (ring c s) = length (values (ring c s)) → q_overflow (channel_policy c) ≠ DropOldest →
  ∃ r s', alone e (write_value c from_isr interrupt v) s = Some (r, s') ∧ events s' = events s
    ∧ values (ring c s') = values (ring c s) ∧ size (ring c s') = size (ring c s)
    ∧ wake_pending (ring c s') = wake_pending (ring c s).
Proof.
  intros Hfull Hpolicy. unfold write_value. destruct (negb (eqb _ _)); [by eexists _, s|]. cbn [is_open bind alone get].
  destruct (ready s); cbn [negb alone bind get]; [|by eexists _, s]. destruct (RemoteLinks.accepting s); cbn [negb alone]; [|by eexists _, s].
  unfold on_ring, store. fold (ring c s). rewrite Hfull, Nat.eqb_refl.
  destruct (q_overflow (channel_policy c)); [| |]; cbn [alone fst snd]; try done; eexists _, _; (split; [reflexivity|]); unfold ring; simpl;
    rewrite fn_lookup_insert; fold (ring c s); simpl; by rewrite ?Hfull.
Qed.

(** A topic that refuses: the value written before there was a subscriber is
    never sent, and keeps out every later one. *)
Definition later : list (Env * Change) := [(env, Subscribe 0 9 true Subscription_Topic request)].
Example early_value_blocks :
  match alone env (write_value (Topic 0) false false 1) (start 0 false []) with
  | Some (first, s1) =>
    first = Ok (mkReceipt NoSubscribers 1 false)
    ∧ match after later s1 with
      | Some s2 =>
        interest_at s2 (Topic 0) = 1
        ∧ match alone env (serve silent 3) s2 with
          | Some (_, s3) =>
            match alone env (write_value (Topic 0) false false 2) s3 with
            | Some (second, s4) =>
              second = Err (publish_error SNoSpace Remote.NoCapacity) ∧ events s4 = [] ∧ wire s4 = []
              ∧ size (ring (Topic 0) s4) = 1%nat
            | None => False
            end
          | None => False
          end
      | None => False
      end
  | None => False
  end.
Proof. vm_compute. auto 10. Qed.
End PublishExamples.
