(* ===== verification/RemoteRequests.v ===== *)
(** * RemoteRequests: actions, queries and updates

    Models the requests of [include/solar/remote/runtime.hpp]: their admission
    against the one budget of the facility, the single place in which the
    request of a declaration waits for a worker, the workers, the responders
    of asynchronous actions, cancellation, and the dispatch of the frames of a
    session.  The in-streams are behind the interface [InStreams]. *)
From stdpp Require Import prelude functions.
From S2P Require Import Prelude Status Wire Protocol Frame Interleave RemoteLink RemoteService RemoteRuntime RemotePublish.
Import RemoteLinks RemoteServices Runtimes Publications.

Open Scope Z_scope.
Open Scope solar_scope.

Module Requests.

(** [OperationKind], and the field it travels in. *)
Definition Operation_Action : Z := 0.
Definition Operation_Query : Z := 1.
Definition Operation_Update : Z := 2.
Definition Operation_InStream : Z := 3.
Definition operation (e : Envelope) : Z := Z.land (reserved e) 255.
Definition subscription (e : Envelope) : Z := Z.land (reserved e) 255.

(** What the frames of in-streams lead to: whether a declaration knows the
    target. *)
Class InStreams (V Rq : Type) := {
  process_in_stream_subscription_target : nat → Decoded → bool → RemoteLinks.Program (Runtime V Rq) bool;
  dispatch_in_stream : nat → Decoded → RemoteLinks.Program (Runtime V Rq) bool;
  reset_in_streams : nat → Z → RemoteLinks.Program (Runtime V Rq) unit }.

Section Requests.
Context `{Config} {P : Platform} {V Rq : Type} `{!Catalog V Rq} `{!InStreams V Rq}.
Local Abbreviation State := (RemoteLinks.State (Runtime V Rq)).
Local Abbreviation Program := (RemoteLinks.Program (Runtime V Rq)).
Implicit Types (i a d : nat) (e : Envelope) (fuel : nat).
Open Scope prog_scope.

(** ** State *)
Definition set_application (f : Runtime V Rq → Runtime V Rq) (s : State) : State := s <| application ::= f |>.
Definition on_action {B} a (f : Pending Rq → B * Pending Rq) (_ : Env) (s : State) : B * State :=
  let '(b, p) := f (actions (application s) a) in (b, set_application (λ r, r <| actions ::= <[a := p]> |>) s).
Definition on_asynchronous {B} a (f : AsynchronousActionState → B * AsynchronousActionState) (_ : Env) (s : State) :
    B * State :=
  let '(b, p) := f (asynchronous_actions (application s) a) in
  (b, set_application (λ r, r <| asynchronous_actions ::= <[a := p]> |>) s).
Definition on_query {B} d (f : Pending unit → B * Pending unit) (_ : Env) (s : State) : B * State :=
  let '(b, p) := f (queries (application s) d) in (b, set_application (λ r, r <| queries ::= <[d := p]> |>) s).
Definition on_update {B} d (f : Pending V → B * Pending V) (_ : Env) (s : State) : B * State :=
  let '(b, p) := f (updates (application s) d) in (b, set_application (λ r, r <| updates ::= <[d := p]> |>) s).

(** Sections of the place of a waiting request. *)
Section Place.
Context {R : Type}.
Definition put_request (r : R) e i (p : Pending R) : bool * Pending R :=
  match p_request p with Some _ => (false, p) | None => (true, mkPending (Some r) e i) end.
Definition take_request (p : Pending R) : option (R * Envelope * nat) * Pending R :=
  match p_request p with
  | None => (None, p)
  | Some r => (Some (r, p_envelope p, p_link p), p <| p_request := None |>)
  end.
Definition drop_request (p : Pending R) : unit * Pending R := (tt, p <| p_request := None |>).
Definition cancel_request (of_request : Z → bool) i (p : Pending R) : bool * Pending R :=
  match p_request p with
  | Some _ => if (p_link p =? i)%nat && of_request (request_id (p_envelope p)) then (true, p <| p_request := None |>) else (false, p)
  | None => (false, p)
  end.
End Place.

(** The call of a handler of the application. *)
Definition call {B} (c : Call V Rq) (answer : Env → B) (env : Env) (s : State) : B * State :=
  (answer env, set_application (λ r, r <| calls ::= (λ l, l ++ [c]) |>) s).
Definition token_of i e : ResponderToken := mkToken i (request_id e) (session_epoch e).

(** ** The budget *)

(** One exchange of [active_requests]: whether it went through, and what it
    found.  A weak exchange that fails for no reason repeats the loop. *)
Definition exchange_active (expected : Z) (_ : Env) (s : State) : (bool * Z) * State :=
  if active_requests s =? expected then ((true, expected), s <| active_requests := u32 (expected + 1) |>)
  else ((false, active_requests s), s).
Fixpoint acquire_loop fuel (found : Z) : Program bool :=
  if Z.of_nat max_requests <=? found then Done false else
  match fuel with
  | O => Stalled
  | S fuel =>
    exchanged ← exchange_active found;
    if exchanged.1 : bool then Done true else acquire_loop fuel exchanged.2
  end.
Definition acquire fuel : Program bool := found ← get (λ _ s, active_requests s); acquire_loop fuel found.
Definition release : Program unit :=
  _ ← update (λ _ s, s <| active_requests ::= λ n, u32 (n - 1) |>); Done tt.
Definition release_unless (retained : bool) : Program unit := if retained then Done tt else release.

(** ** Answers *)
Definition deny i e (code : ErrorCode) : Program unit := protocol_error i (request_id e) (target e) code.
Definition forget i e : Program unit := section i (total (release_response (request_id e))).
(** The reservation is given back before the error is sent. *)
Definition refuse i e (code : ErrorCode) : Program unit := _ ⇇ forget i e; deny i e code.

(** The session in which the request arrived is still there. *)
Definition in_session i (epoch : Z) : Program bool :=
  active ← is_active i;
  if negb active then Done false else current ← read_link i RemoteLinks.epoch; Done (current =? epoch).
Definition completed i : Program unit := _ ← set_link i (λ l, l <| completed_requests ::= inc32 |>); Done tt.

(** [send_query_value], [send_query_error] and [send_empty_response] *)
Definition send_data_answer i e (answer : Answer) : Program unit :=
  current ⇇ in_session i (session_epoch e);
  if negb current then Done tt else
  let '(bytes, domain_error) := match answer with Responds bytes => (bytes, false) | FailsWith bytes => (bytes, true) end in
  match bytes with
  | Err _ => deny i e InternalFailure
  | Ok bytes => _ ⇇ respond i (request_id e) (target e) bytes domain_error; Done tt
  end.
Definition execute_query d i e : Program unit :=
  current ⇇ in_session i (session_epoch e);
  if negb current then Done tt else
  answer ← call (CallRead d (token_of i e)) (read d); send_data_answer i e answer.
Definition execute_update d i (v : V) e : Program unit :=
  current ⇇ in_session i (session_epoch e);
  if negb current then Done tt else
  answer ← call (CallWrite d v (token_of i e)) (write d v); send_data_answer i e answer.

(** ** Actions *)

(** [true]: the request stays with its responder. *)
Definition start_asynchronous i e (s : AsynchronousActionState) : bool * AsynchronousActionState :=
  if aa_active s then (false, s) else (true, mkAsynchronous true e i).
Definition execute_owned_action a i (r : Rq) e : Program bool :=
  current ⇇ in_session i (session_epoch e);
  if negb current then Done false else
  if asynchronous a then
    started ← on_asynchronous a (start_asynchronous i e);
    if started : bool then
      _ ← call (CallAction a r (token_of i e)) (λ _, tt); Done true
    else _ ⇇ deny i e Protocol.Busy; Done false
  else
    answer ← call (CallAction a r (token_of i e)) (act a r);
    current ⇇ in_session i (session_epoch e);
    if negb current then Done false else
    let '(bytes, domain_error) := match answer with Responds bytes => (bytes, false) | FailsWith bytes => (bytes, true) end in
    match bytes with
    | Err _ => _ ⇇ deny i e InternalFailure; Done false
    | Ok bytes =>
      _ ⇇ respond i (request_id e) (target e) bytes domain_error;
      _ ⇇ completed i; Done false
    end.

(** ** Workers *)
Definition run_pending_action a : Program bool :=
  taken ← on_action a take_request;
  match taken with
  | None => Done false
  | Some (r, e, i) =>
    retained ⇇ (if (i <? link_count)%nat then execute_owned_action a i r e else Done false);
    _ ⇇ release_unless retained; Done true
  end.
Definition run_pending_query d : Program bool :=
  if negb (has_query d) then Done false else
  taken ← on_query d take_request;
  match taken with
  | None => Done false
  | Some (_, e, i) => _ ⇇ (if (i <? link_count)%nat then execute_query d i e else Done tt); _ ⇇ release; Done true
  end.
Definition run_pending_update d : Program bool :=
  if negb (has_update d) then Done false else
  taken ← on_update d take_request;
  match taken with
  | None => Done false
  | Some (v, e, i) => _ ⇇ (if (i <? link_count)%nat then execute_update d i v e else Done tt); _ ⇇ release; Done true
  end.

(** Every declaration with the target works; whether there is one. *)
Fixpoint work_on (n k : nat) (id : nat → Z) (target : Z) (p : nat → Program unit) (found : bool) : Program bool :=
  match n with
  | O => Done found
  | S n => if target =? id k then _ ⇇ p k; work_on n (S k) id target p true else work_on n (S k) id target p found
  end.
Definition process_action_work (target : Z) (action : bool) : Program (result Status unit) :=
  found ⇇ (if action then work_on action_count 0 action_id target (λ a, forgo (run_pending_action a)) false
           else work_on data_count 0 data_id target (λ d, _ ⇇ run_pending_query d; forgo (run_pending_update d)) false);
  Done (if found then Ok tt else Err SNotFound).

(** ** Responders *)
Definition holds_token (t : ResponderToken) (s : AsynchronousActionState) : bool :=
  aa_active s && (aa_link s =? t_link t)%nat && (request_id (aa_envelope s) =? t_request t)
  && (session_epoch (aa_envelope s) =? t_epoch t).
Definition claim_asynchronous_action a (t : ResponderToken) : Env → State → bool * State :=
  on_asynchronous a (λ s, if holds_token t s then (true, s <| aa_active := false |>) else (false, s)).
Definition asynchronous_action_cancelled a (t : ResponderToken) : Env → State → bool * State :=
  get (λ _ s, negb (holds_token t (asynchronous_actions (application s) a))).

Definition send_asynchronous_action_result a (t : ResponderToken) (answer : Answer) : Program (result Status unit) :=
  let i := t_link t in
  current ⇇ in_session i (t_epoch t);
  if negb current then Done (Err SNotReady) else
  let '(bytes, domain_error) := match answer with Responds bytes => (bytes, false) | FailsWith bytes => (bytes, true) end in
  match bytes with
  | Err error => _ ⇇ protocol_error i (t_request t) (action_id a) InternalFailure; Done (Err (Remote.status error))
  | Ok bytes =>
    sent ⇇ respond i (t_request t) (action_id a) bytes domain_error;
    match sent with
    | Err error => Done (Err (Remote.status error))
    | Ok _ => _ ⇇ completed i; Done (Ok tt)
    end
  end.
Definition complete_asynchronous_action a (t : ResponderToken) (answer : Answer) : Program (result Status unit) :=
  claimed ← claim_asynchronous_action a t;
  if negb claimed then Done (Err SNotReady) else
  answered ⇇ (if (t_link t <? link_count)%nat then send_asynchronous_action_result a t answer else Done (Err SNotFound));
  _ ⇇ release; Done answered.
Definition abandon_asynchronous_action a (t : ResponderToken) : Program unit :=
  claimed ← claim_asynchronous_action a t;
  if negb claimed then Done tt else
  _ ⇇ (if (t_link t <? link_count)%nat then protocol_error (t_link t) (t_request t) (action_id a) InternalFailure else Done tt);
  release.

(** ** Requests of a session *)

(** A request of a worker's declaration: it waits in its place and the work is
    submitted. *)
Definition defer {R} fuel i e (place : ∀ B, (Pending R → B * Pending R) → Env → State → B * State) (r : R) (work : Work) :
    Program unit :=
  acquired ⇇ acquire fuel;
  if negb acquired then refuse i e Protocol.NoCapacity else
  stored ← place bool (put_request r e i);
  if negb stored then _ ⇇ release; refuse i e Protocol.Busy else
  accepted ← get (λ env _, accepts_work work env);
  if accepted : bool then Done tt else
  _ ← place unit drop_request; _ ⇇ release; refuse i e Protocol.Busy.

Definition reserve i e : Program bool := section i (total (reserve_response (request_id e) (target e))).
Definition execute_action_request fuel a i (m : Decoded) : Program unit :=
  let e := envelope m in
  allowed ← read_link i (granted (action_permissions a));
  if negb allowed then deny i e Unauthorized else
  match decode_request a (payload m) with
  | None => deny i e DecodeFailure
  | Some r =>
    reserved ⇇ reserve i e;
    if negb reserved then deny i e Protocol.NoCapacity else
    if inline_action a then
      if asynchronous a then
        acquired ⇇ acquire fuel;
        if negb acquired then refuse i e Protocol.NoCapacity else
        retained ⇇ execute_owned_action a i r e; release_unless retained
      else forgo (execute_owned_action a i r e)
    else defer fuel i e (λ B, on_action a) r (ActionWork a)
  end.
Definition execute_query_request fuel d i (m : Decoded) : Program unit :=
  let e := envelope m in
  allowed ← read_link i (granted permission_observe);
  if negb allowed then deny i e Unauthorized else
  if negb (has_query d) then deny i e UnsupportedOperation else
  reserved ⇇ reserve i e;
  if negb reserved then deny i e Protocol.NoCapacity else
  if inline_data d then execute_query d i e
  else defer fuel i e (λ B, on_query d) tt (DataWork d).
Definition execute_update_request fuel d i (m : Decoded) : Program unit :=
  let e := envelope m in
  allowed ← read_link i (granted permission_configure);
  if negb allowed then deny i e Unauthorized else
  if negb (has_update d) then deny i e UnsupportedOperation else
  match decode_value d (payload m) with
  | None => deny i e DecodeFailure
  | Some v =>
    reserved ⇇ reserve i e;
    if negb reserved then deny i e Protocol.NoCapacity else
    if inline_data d then execute_update d i v e
    else defer fuel i e (λ B, on_update d) v (DataWork d)
  end.

(** The first declaration with the target. *)
Fixpoint dispatch_to (n k : nat) (id : nat → Z) (target : Z) (p : nat → Program unit) : Program bool :=
  match n with
  | O => Done false
  | S n => if target =? id k then _ ⇇ p k; Done true else dispatch_to n (S k) id target p
  end.

(** ** Cancellation *)
Definition cancel_asynchronous (of_request : Z → bool) i (s : AsynchronousActionState) : bool * AsynchronousActionState :=
  if aa_active s && (aa_link s =? i)%nat && of_request (request_id (aa_envelope s))
  then (true, s <| aa_active := false |>) else (false, s).
Definition cancel_action (of_request : Z → bool) a i : Program bool :=
  waiting ← on_action a (cancel_request of_request i);
  if waiting : bool then _ ⇇ release; Done true else
  if asynchronous a then
    active ← on_asynchronous a (cancel_asynchronous of_request i);
    if active : bool then _ ⇇ release; Done true else Done false
  else Done false.
Definition cancel_query (of_request : Z → bool) d i : Program bool :=
  if negb (has_query d) then Done false else
  waiting ← on_query d (cancel_request of_request i);
  if waiting : bool then _ ⇇ release; Done true else Done false.
Definition cancel_update (of_request : Z → bool) d i : Program bool :=
  if negb (has_update d) then Done false else
  waiting ← on_update d (cancel_request of_request i);
  if waiting : bool then _ ⇇ release; Done true else Done false.

Fixpoint first_true (n k : nat) (p : nat → Program bool) : Program bool :=
  match n with
  | O => Done false
  | S n => r ⇇ p k; if r : bool then Done true else first_true n (S k) p
  end.
Definition cancel_pending_request i (request : Z) : Program bool :=
  let same := Z.eqb request in
  action ⇇ first_true action_count 0 (λ a, cancel_action same a i);
  if action : bool then Done true else
  query ⇇ first_true data_count 0 (λ d, cancel_query same d i);
  if query : bool then Done true else
  first_true data_count 0 (λ d, cancel_update same d i).

(** With its session a link loses its requests; an action loses the one that
    waits and the one that is with its responder. *)
Definition cancel_link_action a i : Program unit :=
  waiting ← on_action a (cancel_request (λ _, true) i);
  _ ⇇ release_unless (negb waiting);
  if asynchronous a then
    active ← on_asynchronous a (cancel_asynchronous (λ _, true) i);
    release_unless (negb active)
  else Done tt.
Definition cancel_link_data d i : Program unit :=
  _ ⇇ cancel_query (λ _, true) d i; forgo (cancel_update (λ _, true) d i).
Definition cancel_session_requests i : Program unit :=
  _ ⇇ for_endpoints action_count 0 (λ a, cancel_link_action a i);
  for_endpoints data_count 0 (λ d, cancel_link_data d i).
Definition reset_session i (reason : Z) : Program unit :=
  _ ⇇ cancel_session_requests i;
  _ ⇇ reset_in_streams i reason;
  reset_session_link i.

(** ** The frames of a session *)
Definition admit_request_id i (m : Decoded) : Program bool :=
  let e := envelope m in
  if request_id e =? 0 then _ ⇇ protocol_error i 0 (target e) DecodeFailure; Done false else
  previous ← read_link i last_request_id;
  if request_id e =? previous then
    _ ← set_link i (λ l, l <| duplicate_requests ::= inc32 |>);
    replayed ⇇ replay_response i previous;
    match replayed with
    | Ok _ => Done false
    | Err error =>
      _ ⇇ protocol_error i previous (target e)
            (if bool_decide (Remote.status error = SBusy) then Protocol.Busy else DuplicateResponseExpired);
      Done false
    end
  else if request_id e <? previous then _ ⇇ deny i e RequestExpired; Done false
  else _ ← set_link i (λ l, l <| last_request_id := request_id e |>); Done true.

Definition in_stream_subscription i (m : Decoded) (enable : bool) : Program unit :=
  let e := envelope m in
  allowed ← read_link i (granted permission_control);
  if negb allowed then deny i e Unauthorized else
  admitted ⇇ admit_request_id i m;
  if negb admitted then Done tt else
  reserved ⇇ reserve i e;
  if negb reserved then deny i e Protocol.NoCapacity else
  known ⇇ process_in_stream_subscription_target i m enable;
  if known : bool then Done tt else refuse i e UnknownTarget.
(** What an update of a subscription asks for: [None] if the payload is not a
    request; without a payload, the defaults. *)
Definition asked (enable : bool) (bytes : list Z) : Checked SubscriptionRequest :=
  match bytes with
  | [] => succeed no_request
  | _ => if enable then decode_subscription_request bytes else fail malformed
  end.
Definition process_subscription i (m : Decoded) (enable : bool) : Program unit :=
  let e := envelope m in
  if subscription e =? Subscription_DataInStream then in_stream_subscription i m enable else
  allowed ← read_link i (granted permission_observe);
  if negb allowed then deny i e Unauthorized else
  admitted ⇇ admit_request_id i m;
  if negb admitted then Done tt else
  reserved ⇇ reserve i e;
  if negb reserved then deny i e Protocol.NoCapacity else
  match asked enable (payload m) with
  | None => Stalled
  | Some (Err _) => refuse i e DecodeFailure
  | Some (Ok request) =>
    updated ⇇ update_subscription i (target e) enable (subscription e) request;
    match updated with
    | Err code => refuse i e code
    | Ok None => refuse i e UnknownTarget
    | Ok (Some policy) =>
      encoded (encode_subscription_policy policy)
        (λ bytes, _ ⇇ respond i (request_id e) (target e) bytes false; Done tt)
    end
  end.

Definition cancel i e : Program unit :=
  cancelled ⇇ cancel_pending_request i (request_id e);
  if cancelled : bool then refuse i e Cancelled else deny i e RequestExpired.
Definition process_request fuel i (m : Decoded) : Program unit :=
  let e := envelope m in
  admitted ⇇ admit_request_id i m;
  if negb admitted then Done tt else
  let answered (p : Program bool) := known ⇇ p; if known : bool then Done tt else deny i e UnknownTarget in
  if operation e =? Operation_Action
  then answered (dispatch_to action_count 0 action_id (target e) (λ a, execute_action_request fuel a i m))
  else if operation e =? Operation_Query
  then answered (dispatch_to data_count 0 data_id (target e) (λ d, execute_query_request fuel d i m))
  else if operation e =? Operation_Update
  then answered (dispatch_to data_count 0 data_id (target e) (λ d, execute_update_request fuel d i m))
  else deny i e UnsupportedOperation.

Definition process_link_application_frame fuel i (m : Decoded) : Program unit :=
  let e := envelope m in
  if kind e =? Kind_ResponseAck then section i (total (acknowledge_response (request_id e)))
  else if kind e =? Kind_Cancel then cancel i e
  else if (kind e =? Kind_Subscribe) || (kind e =? Kind_Unsubscribe) then process_subscription i m (kind e =? Kind_Subscribe)
  else if kind e =? Kind_Data then
    if negb (operation e =? Operation_InStream) then protocol_error i 0 (target e) UnsupportedOperation else
    known ⇇ dispatch_in_stream i m;
    if known : bool then Done tt else protocol_error i 0 (target e) UnknownTarget
  else if negb (kind e =? Kind_Request) || (request_id e =? 0) then deny i e UnsupportedOperation
  else process_request fuel i m.
Definition process_application_frame fuel i (m : Decoded) : Program unit :=
  if (i <? link_count)%nat then process_link_application_frame fuel i m else Done tt.
End Requests.
End Requests.
