(* ===== verification/RemoteRequestsProps.v ===== *)
(** * RemoteRequestsProps: the budget of requests

    Every unit of [active_requests] is somewhere: with a request that waits for
    a worker, with a responder, or in the hands of a thread, and a request that
    a session has admitted is in one of these places or has been handed to its
    handler.  So the budget is never overdrawn and never lost, and no handler
    runs twice for one request, under every interleaving of the sessions, the
    workers and the responders. *)
From stdpp Require Import prelude functions.
From S2P Require Import Prelude Status Wire Protocol Frame Interleave RemoteLink RemoteService RemoteRuntime RemotePublish RemoteRequests.
Import RemoteLinks RemoteServices Runtimes Publications Requests.

Open Scope Z_scope.
Open Scope solar_scope.
Open Scope prog_scope.

Module Budget.


(** The thread that keeps a session, and what it has read: the latest request
    of the session. *)
Record Custody : Set := mkCustody { keeper : bool; known : option Z }.
(** What a thread has: units [held]; of the requests with the number in
    question, those not yet handed to a handler ([fresh]) and those it has
    let in. *)
Record Books : Set := mkBooks { held : nat; fresh : nat; let_in : nat; custody : Custody }.

Section Budget.
Context `{Config} {P : Platform} {V Rq : Type} `{!Catalog V Rq} `{!InStreams V Rq}.
(** A request of a session, and how often it has been handled or waits at the
    start. *)
Context (session_link : nat) (number : Z) (base : nat).
Context (Hmax : Z.of_nat max_requests < 2 ^ 32).
Local Abbreviation State := (RemoteLinks.State (Runtime V Rq)).
Local Abbreviation Program := (RemoteLinks.Program (Runtime V Rq)).
Implicit Types (s : State) (o : Custody) (g : Books) (gs : list Books) (t : nat) (i a d : nat).

(** ** Where the units are *)
Definition waits {R} (p : Pending R) : nat := match p_request p with Some _ => 1 | None => 0 end.
Definition responds (x : AsynchronousActionState) : nat := if aa_active x then 1 else 0.
Definition action_units s a : nat := waits (actions (application s) a) + responds (asynchronous_actions (application s) a).
Definition data_units s d : nat := waits (queries (application s) d) + waits (updates (application s) d).
Definition occupied s : nat :=
  sum_list_with (action_units s) (seq 0 action_count) + sum_list_with (data_units s) (seq 0 data_count).

(** The request in question. *)
Definition mine i (e : Envelope) : nat := if (i =? session_link)%nat && (request_id e =? number) then 1 else 0.
Definition token_of_call (c : Call V Rq) : ResponderToken :=
  match c with CallAction _ _ token | CallRead _ token | CallWrite _ _ token => token end.
Definition is_for (token : ResponderToken) : bool := (t_link token =? session_link)%nat && (t_request token =? number).
Definition awaits {R} (p : Pending R) : nat := match p_request p with Some _ => mine (p_link p) (p_envelope p) | None => 0 end.
Definition data_awaits s d : nat := awaits (queries (application s) d) + awaits (updates (application s) d).
Definition waiting s : nat :=
  sum_list_with (λ a, awaits (actions (application s) a)) (seq 0 action_count) + sum_list_with (data_awaits s) (seq 0 data_count).
(** How often its handler has been called. *)
Definition made s : nat := sum_list_with (λ c, if is_for (token_of_call c) then 1 else 0)%nat (calls (application s)).
Definition newest s : Z := last_request_id (links s session_link).
Definition sum (f : Books → nat) gs : nat := sum_list_with f gs.

Record balanced gs s : Prop := {
  ba_units : active_requests s = Z.of_nat (occupied s + sum held gs);
  ba_limit : active_requests s ≤ Z.of_nat max_requests;
  ba_calls : (made s + waiting s + sum fresh gs ≤ base + sum let_in gs)%nat;
  ba_once : (sum let_in gs ≤ if (number <=? newest s)%Z then 1 else 0)%nat;
  ba_known : ∀ t g v, gs !! t = Some g → known (custody g) = Some v → keeper (custody g) = true ∧ newest s = v;
  ba_keeper : ∀ t t' g g', gs !! t = Some g → gs !! t' = Some g' →
    keeper (custody g) = true → keeper (custody g') = true → t = t' }.
(** The execution facility takes the work. *)
Definition willing (e : Env) : Prop := ∀ w, accepts_work w e = true.
Local Abbreviation safe := (safe balanced willing).

Lemma sum_change (f : Books → nat) gs t g g' : gs !! t = Some g → (sum f (<[t := g']> gs) + f g = sum f gs + f g')%nat.
Proof. intros Hg. pose proof (sum_insert f gs t g g' Hg). unfold sum. lia. Qed.
Lemma sum_same (f : Books → nat) gs t g g' : gs !! t = Some g → f g' = f g → sum f (<[t := g']> gs) = sum f gs.
Proof. intros Hg Hf. pose proof (sum_change f gs t g g' Hg). lia. Qed.
Lemma custody_step gs t g g' t' h :
  gs !! t = Some g → custody g' = custody g → <[t := g']> gs !! t' = Some h → ∃ h', gs !! t' = Some h' ∧ custody h = custody h'.
Proof.
  intros Hg Hc Hh. apply list_lookup_insert_Some in Hh as [(-> & <- & _)|[_ Hh]]; [by exists g|by exists h].
Qed.
Lemma balanced_step gs s s' t g g' :
  balanced gs s → gs !! t = Some g →
  active_requests s' + Z.of_nat (occupied s + held g) = active_requests s + Z.of_nat (occupied s' + held g') →
  active_requests s' ≤ Z.of_nat max_requests →
  (made s' + waiting s' + fresh g' ≤ made s + waiting s + fresh g)%nat →
  let_in g' = let_in g → custody g' = custody g → newest s' = newest s →
  balanced (<[t := g']> gs) s'.
Proof.
  intros [B1 B2 B3 B4 B5 B6] Hg Hu Hl Hc Hn Ho Hs. pose proof (sum_change held gs t g g' Hg).
  pose proof (sum_change fresh gs t g g' Hg). pose proof (sum_same let_in gs t g g' Hg Hn) as Hsame.
  split; try lia.
  - by rewrite Hsame, Hs.
  - intros t' h v Hh Hv. destruct (custody_step gs t g g' t' h Hg Ho Hh) as (h' & Hh' & Hch). rewrite Hch in *. rewrite Hs. by eapply B5.
  - intros t1 t2 h1 h2 Hh1 Hh2 Hk1 Hk2. destruct (custody_step gs t g g' t1 h1 Hg Ho Hh1) as (h1' & L1 & C1).
    destruct (custody_step gs t g g' t2 h2 Hg Ho Hh2) as (h2' & L2 & C2). rewrite C1 in Hk1. rewrite C2 in Hk2. by eapply B6.
Qed.
Lemma held_counts gs s t g : balanced gs s → gs !! t = Some g → Z.of_nat (held g) ≤ active_requests s.
Proof. intros HI Hg. destruct HI as [B1 _ _ _ _ _]. pose proof (sum_change held gs t g (mkBooks 0 0 0 (custody g)) Hg) as Hs. simpl in Hs. lia. Qed.

(** ** Steps aside *)
Record apart s s' : Prop := {
  as_active : active_requests s' = active_requests s;
  as_actions : actions (application s') = actions (application s);
  as_responders : asynchronous_actions (application s') = asynchronous_actions (application s);
  as_queries : queries (application s') = queries (application s);
  as_updates : updates (application s') = updates (application s);
  as_calls : calls (application s') = calls (application s);
  as_newest : newest s' = newest s }.
Lemma apart_refl s : apart s s.
Proof. by split. Qed.
Lemma apart_view s s' : apart s s' → occupied s' = occupied s ∧ waiting s' = waiting s ∧ made s' = made s.
Proof.
  intros [A1 A2 A3 A4 A5 A6 A7]. unfold occupied, waiting, made, action_units, data_units, data_awaits. by rewrite A2, A3, A4, A5, A6.
Qed.
Lemma balanced_apart gs s s' : balanced gs s → apart s s' → balanced gs s'.
Proof.
  intros [B1 B2 B3 B4 B5 B6] Ha. destruct (apart_view s s' Ha) as (H1 & H2 & H3). destruct Ha as [A1 _ _ _ _ _ A7].
  split; [congruence..| | |done]; rewrite A7; [done|exact B5].
Qed.

Lemma safe_apart {A B} t Q g (f : Env → State → B * State) (k : B → Program A) :
  (∀ e s, apart s (f e s).2) → (∀ b, safe t Q g (k b)) → safe t Q g (Then f k).
Proof.
  intros Hf Hk e s gs _ Hg HI. exists g. rewrite list_insert_id by done. split; [by eapply balanced_apart|done].
Qed.
Lemma safe_apart_then {A B} t Q g (p : Program B) (k : B → Program A) :
  frames apart p → (∀ b, safe t Q g (k b)) → safe t Q g (bind p k).
Proof. apply safe_frames_bind. apply balanced_apart. Qed.
Lemma safe_only {A} t Q g (p : Program A) : frames apart p → (∀ x, Q g x) → safe t Q g p.
Proof. intros Hp HQ. eapply safe_mono; [|by eapply safe_frames; [apply balanced_apart|]]. intros g' x ->. apply HQ. Qed.

Lemma apart_get {B} (f : Env → State → B) e s : apart s (get f e s).2.
Proof. apply apart_refl. Qed.
Lemma apart_link i f e s :
  (∀ l, last_request_id (f l) = last_request_id l) → apart s (set_link (A := Runtime V Rq) i f e s).2.
Proof.
  intros Hf. split; try done. unfold newest, set_link, update. cbn [snd links]. simpl.
  destruct (decide (i = session_link)) as [->|Hne]; [by rewrite fn_lookup_alter|by rewrite fn_lookup_alter_ne].
Qed.
(** A section that leaves the latest request alone. *)
Definition keeps {B} (f : LinkState → option (B * LinkState)) : Prop :=
  ∀ l b l', f l = Some (b, l') → last_request_id l' = last_request_id l.
Lemma frames_table {B} i (f : LinkState → option (B * LinkState)) : keeps f → frames apart (section (A := Runtime V Rq) i f).
Proof.
  intros Hf. split; [|by intros []]. intros e s. destruct (f (links s i)) as [[b l]|] eqn:Hl; [|apply apart_refl].
  split; try done. unfold newest. cbn [snd links]. simpl.
  destruct (decide (i = session_link)) as [->|Hne]; [rewrite fn_lookup_insert; by eapply Hf|by rewrite fn_lookup_insert_ne].
Qed.
Lemma frames_then {A B} (f : Env → State → B * State) (k : B → Program A) :
  (∀ e s, apart s (f e s).2) → (∀ b, frames apart (k b)) → frames apart (Then f k).
Proof. by split. Qed.
Lemma frames_post event : frames apart (post (A := Runtime V Rq) event).
Proof.
  apply frames_bind; [|done]. apply frames_then; [intros e s; unfold try_send; by destruct (_ <? _)%nat|].
  intros [|]; (apply frames_then; [by intros|]); intros b; [apply frames_then; [by intros|done]|done].
Qed.
Ltac keep := repeat (case_match || (intros ?) || simplify_eq/=); try done.
Lemma keeps_total {B} (f : LinkState → B * LinkState) : (∀ l, last_request_id (f l).2 = last_request_id l) → keeps (total f).
Proof. intros Hf l b l' [= Hl]. by rewrite <-(Hf l), Hl. Qed.
Lemma keeps_store request target bytes domain_error : keeps (store_response request target bytes domain_error).
Proof. intros l b l'. unfold store_response, mbind, option_bind. keep. Qed.
Lemma keeps_enqueue lane kind bytes request target flags reserved : keeps (enqueue lane kind bytes request target flags reserved).
Proof. intros l b l'. unfold enqueue, mbind, option_bind. keep. Qed.
Lemma keeps_start lane kind bytes request target flags reserved count :
  keeps (start_message lane kind bytes request target flags reserved count).
Proof. intros l b l'. unfold start_message, message_place, mbind, option_bind. keep. Qed.
Lemma keeps_queue kind bytes request target flags reserved : keeps (queue_output kind bytes request target flags reserved).
Proof.
  intros l b l'. unfold queue_output. destruct (_ <? _)%nat; [by intros [= <- <-]|]. destruct (_ <? _)%nat; [|apply keeps_enqueue].
  destruct (255 <? _); [by intros [= <- <-]|apply keeps_start].
Qed.
Lemma keeps_reserve request target : keeps (total (reserve_response request target)).
Proof. apply keeps_total. intros l. unfold reserve_response. keep. Qed.
Lemma keeps_release request : keeps (total (release_response request)).
Proof. apply keeps_total. intros l. unfold release_response. keep. Qed.
Lemma keeps_acknowledge request : keeps (total (acknowledge_response request)).
Proof. apply keeps_total. intros l. unfold acknowledge_response. keep. Qed.
Lemma keeps_unstage request : keeps (total (unstage_response request)).
Proof. apply keeps_total. intros l. unfold unstage_response. keep. Qed.
Lemma keeps_switch slot (enable : bool) interval : keeps (switch_subscription slot enable interval).
Proof. intros l b l'. unfold switch_subscription, mbind, option_bind. keep. Qed.

Lemma frames_respond i request target bytes domain_error :
  frames apart (respond (A := Runtime V Rq) i request target bytes domain_error).
Proof. apply frames_bind; [apply frames_table, keeps_store|]. intros [u|error]; [|done]. by apply frames_bind; [apply frames_post|]. Qed.
Lemma frames_transmit i kind payload request target flags reserved :
  frames apart (transmit (A := Runtime V Rq) i kind payload request target flags reserved).
Proof. apply frames_bind; [apply frames_table, keeps_queue|]. intros [u|error]; [|done]. by apply frames_bind; [apply frames_post|]. Qed.
Lemma frames_error i request target code : frames apart (protocol_error (A := Runtime V Rq) i request target code).
Proof.
  unfold protocol_error. destruct (put_u16 _ _ _); [|done]. by apply frames_bind; [apply frames_transmit|].
Qed.
Lemma frames_refusal i (e : Envelope) code : frames apart (refuse (V := V) (Rq := Rq) i e code).
Proof. apply frames_bind; [apply frames_table, keeps_release|]. intros u. apply frames_error. Qed.
Lemma frames_session i epoch : frames apart (in_session (V := V) (Rq := Rq) i epoch).
Proof.
  apply frames_then; [by intros|]. intros active. destruct (negb active); [done|]. by apply frames_then; [by intros|].
Qed.
Lemma frames_completed i : frames apart (completed (V := V) (Rq := Rq) i).
Proof. apply frames_then; [intros; by apply apart_link|done]. Qed.

(** ** Units that move *)

(** A place where units rest, and how many of them wait for a worker. *)
Record Place (X : Type) : Type := mkPlace {
  section_of : ∀ B, (X → B * X) → Env → State → B * State;
  content : State → X; units_in : X → nat; waiting_in : X → nat }.
Arguments section_of {X} p {B}. Arguments content {X}. Arguments units_in {X}. Arguments waiting_in {X}.
Record place_ok {X} (p : Place X) : Prop := {
  pl_answer : ∀ B (f : X → B * X) e s, (section_of p f e s).1 = (f (content p s)).1;
  pl_active : ∀ B (f : X → B * X) e s, active_requests (section_of p f e s).2 = active_requests s;
  pl_made : ∀ B (f : X → B * X) e s, made (section_of p f e s).2 = made s;
  pl_newest : ∀ B (f : X → B * X) e s, newest (section_of p f e s).2 = newest s;
  pl_units : ∀ B (f : X → B * X) e s,
    (occupied (section_of p f e s).2 + units_in p (content p s) = occupied s + units_in p (f (content p s)).2)%nat;
  pl_waiting : ∀ B (f : X → B * X) e s,
    (waiting (section_of p f e s).2 + waiting_in p (content p s) = waiting s + waiting_in p (f (content p s)).2)%nat }.

Lemma safe_place {X A B} t Q g (p : Place X) (f : X → B * X) (k : B → Program A) :
  place_ok p →
  (∀ x, ∃ g', (units_in p (f x).2 + held g' = units_in p x + held g)%nat
     ∧ (waiting_in p (f x).2 + fresh g' ≤ waiting_in p x + fresh g)%nat
     ∧ let_in g' = let_in g ∧ custody g' = custody g
     ∧ safe t Q g' (k (f x).1)) →
  safe t Q g (Then (section_of p f) k).
Proof.
  intros [P1 P2 P3 P4 P5 P6] Hf e s gs _ Hg HI. destruct (Hf (content p s)) as (g' & Hu & Hw & Hn & Ho & Hk). exists g'.
  rewrite P1. split; [|done]. specialize (P5 B f e s). specialize (P6 B f e s). pose proof (ba_limit _ _ HI).
  eapply balanced_step; [done|done|rewrite P2; lia|by rewrite P2|rewrite P3; lia|done|done|apply P4].
Qed.

(** A sum changes with one of its terms. *)
Lemma sum_with_change (f f' : nat → nat) i xs :
  NoDup xs → i ∈ xs → (∀ j, j ≠ i → f' j = f j) → (sum_list_with f' xs + f i = sum_list_with f xs + f' i)%nat.
Proof.
  intros Hnd Hi Hf. induction Hnd as [|x xs Hx Hnd IH]; [by apply elem_of_nil in Hi|]. simpl.
  apply elem_of_cons in Hi as [<-|Hi].
  - assert (sum_list_with f' xs = sum_list_with f xs) as ->; [|lia].
    clear IH Hnd. induction xs as [|y xs IH]; [done|]. apply not_elem_of_cons in Hx as [Hne Hx]. simpl.
    rewrite (Hf y), (IH Hx); [done|congruence].
  - specialize (IH Hi). rewrite (Hf x); [lia|]. by intros ->.
Qed.
Lemma sum_seq_change (f f' : nat → nat) i n :
  (i < n)%nat → (∀ j, j ≠ i → f' j = f j) →
  (sum_list_with f' (seq 0 n) + f i = sum_list_with f (seq 0 n) + f' i)%nat.
Proof. intros Hi. apply sum_with_change; [apply NoDup_seq|apply elem_of_seq; lia]. Qed.
Lemma sum_with_same (f f' : nat → nat) xs : (∀ j, f' j = f j) → sum_list_with f' xs = sum_list_with f xs.
Proof. intros Hf. induction xs as [|x xs IH]; [done|]. simpl. by rewrite Hf, IH. Qed.

Definition action_place a : Place (Pending Rq) := mkPlace _ (λ B, on_action a) (λ s, actions (application s) a) waits awaits.
Definition responder_place a : Place AsynchronousActionState :=
  mkPlace _ (λ B, on_asynchronous a) (λ s, asynchronous_actions (application s) a) responds (λ _, 0%nat).
Definition query_place d : Place (Pending unit) := mkPlace _ (λ B, on_query d) (λ s, queries (application s) d) waits awaits.
Definition update_place d : Place (Pending V) := mkPlace _ (λ B, on_update d) (λ s, updates (application s) d) waits awaits.

Lemma on_action_view {B} a (f : Pending Rq → B * Pending Rq) e s :
  let s' := (on_action a f e s).2 in
  (on_action a f e s).1 = (f (actions (application s) a)).1 ∧ active_requests s' = active_requests s ∧ made s' = made s ∧ newest s' = newest s
  ∧ actions (application s') = <[a := (f (actions (application s) a)).2]> (actions (application s))
  ∧ asynchronous_actions (application s') = asynchronous_actions (application s)
  ∧ queries (application s') = queries (application s) ∧ updates (application s') = updates (application s).
Proof. unfold on_action. by destruct (f _). Qed.
Lemma on_asynchronous_view {B} a (f : AsynchronousActionState → B * AsynchronousActionState) e s :
  let s' := (on_asynchronous (V := V) (Rq := Rq) a f e s).2 in
  (on_asynchronous a f e s).1 = (f (asynchronous_actions (application s) a)).1 ∧ active_requests s' = active_requests s
  ∧ made s' = made s ∧ newest s' = newest s ∧ actions (application s') = actions (application s)
  ∧ asynchronous_actions (application s') = <[a := (f (asynchronous_actions (application s) a)).2]> (asynchronous_actions (application s))
  ∧ queries (application s') = queries (application s) ∧ updates (application s') = updates (application s).
Proof. unfold on_asynchronous. by destruct (f _). Qed.
Lemma on_query_view {B} d (f : Pending unit → B * Pending unit) e s :
  let s' := (on_query (V := V) (Rq := Rq) d f e s).2 in
  (on_query d f e s).1 = (f (queries (application s) d)).1 ∧ active_requests s' = active_requests s ∧ made s' = made s ∧ newest s' = newest s
  ∧ actions (application s') = actions (application s)
  ∧ asynchronous_actions (application s') = asynchronous_actions (application s)
  ∧ queries (application s') = <[d := (f (queries (application s) d)).2]> (queries (application s))
  ∧ updates (application s') = updates (application s).
Proof. unfold on_query. by destruct (f _). Qed.
Lemma on_update_view {B} d (f : Pending V → B * Pending V) e s :
  let s' := (on_update (V := V) (Rq := Rq) d f e s).2 in
  (on_update d f e s).1 = (f (updates (application s) d)).1 ∧ active_requests s' = active_requests s ∧ made s' = made s ∧ newest s' = newest s
  ∧ actions (application s') = actions (application s)
  ∧ asynchronous_actions (application s') = asynchronous_actions (application s)
  ∧ queries (application s') = queries (application s)
  ∧ updates (application s') = <[d := (f (updates (application s) d)).2]> (updates (application s)).
Proof. unfold on_update. by destruct (f _). Qed.

(** What a change of one entry does to the sums. *)
Lemma action_sums s s' a :
  (a < action_count)%nat →
  (∀ j, j ≠ a → actions (application s') j = actions (application s) j) →
  (∀ j, j ≠ a → asynchronous_actions (application s') j = asynchronous_actions (application s) j) →
  queries (application s') = queries (application s) → updates (application s') = updates (application s) →
  (occupied s' + action_units s a = occupied s + action_units s' a)%nat
  ∧ (waiting s' + awaits (actions (application s) a) = waiting s + awaits (actions (application s') a))%nat.
Proof.
  intros Ha E1 E2 E3 E4. unfold occupied, waiting. rewrite (sum_with_same (data_units s) (data_units s'))
    by (intros d; unfold data_units; by rewrite E3, E4).
  rewrite (sum_with_same (data_awaits s) (data_awaits s')) by (intros d; unfold data_awaits; by rewrite E3, E4).
  pose proof (sum_seq_change (action_units s) (action_units s') a action_count Ha) as H1.
  pose proof (sum_seq_change (λ a, awaits (actions (application s) a)) (λ a, awaits (actions (application s') a)) a action_count Ha) as H2.
  cbv beta in H2. rewrite Nat.add_shuffle0, H1; [|intros j Hj; unfold action_units; by rewrite E1, E2].
  rewrite (Nat.add_shuffle0 _ _ (awaits (actions (application s) a))), H2; [lia|]. intros j Hj. by rewrite E1.
Qed.
Lemma data_sums s s' d :
  (d < data_count)%nat →
  actions (application s') = actions (application s) →
  asynchronous_actions (application s') = asynchronous_actions (application s) →
  (∀ j, j ≠ d → queries (application s') j = queries (application s) j) →
  (∀ j, j ≠ d → updates (application s') j = updates (application s) j) →
  (occupied s' + data_units s d = occupied s + data_units s' d)%nat
  ∧ (waiting s' + data_awaits s d = waiting s + data_awaits s' d)%nat.
Proof.
  intros Hd E1 E2 E3 E4. unfold occupied, waiting. rewrite E1.
  rewrite (sum_with_same (action_units s) (action_units s')) by (intros a; unfold action_units; by rewrite E1, E2).
  pose proof (sum_seq_change (data_units s) (data_units s') d data_count Hd) as H1.
  pose proof (sum_seq_change (data_awaits s) (data_awaits s') d data_count Hd) as H2.
  assert (Hu : ∀ j, j ≠ d → data_units s' j = data_units s j) by (intros j Hj; unfold data_units; by rewrite E3, E4).
  assert (Hw : ∀ j, j ≠ d → data_awaits s' j = data_awaits s j) by (intros j Hj; unfold data_awaits; by rewrite E3, E4).
  specialize (H1 Hu). specialize (H2 Hw). lia.
Qed.

Lemma action_place_ok a : (a < action_count)%nat → place_ok (action_place a).
Proof.
  intros Ha. split; intros B f e s; simpl; destruct (on_action_view a f e s) as (H1 & H2 & H3 & H8 & H4 & H5 & H6 & H7); try done;
    destruct (action_sums s (on_action a f e s).2 a Ha) as [Ho Hw]; try (by rewrite ?H6, ?H7);
    try (by intros j Hj; rewrite ?H4, ?H5, ?fn_lookup_insert_ne).
  - unfold action_units in Ho. rewrite H4, H5, fn_lookup_insert in Ho. lia.
  - by rewrite H4, fn_lookup_insert in Hw.
Qed.
Lemma responder_place_ok a : (a < action_count)%nat → place_ok (responder_place a).
Proof.
  intros Ha. split; intros B f e s; simpl; destruct (on_asynchronous_view a f e s) as (H1 & H2 & H3 & H8 & H4 & H5 & H6 & H7); try done;
    destruct (action_sums s (on_asynchronous a f e s).2 a Ha) as [Ho Hw]; try (by rewrite ?H6, ?H7);
    try (by intros j Hj; rewrite ?H4, ?H5, ?fn_lookup_insert_ne).
  - unfold action_units in Ho. rewrite H4, H5, fn_lookup_insert in Ho. lia.
  - rewrite H4 in Hw. lia.
Qed.
Lemma query_place_ok d : (d < data_count)%nat → place_ok (query_place d).
Proof.
  intros Hd. split; intros B f e s; simpl; destruct (on_query_view d f e s) as (H1 & H2 & H3 & H8 & H4 & H5 & H6 & H7); try done;
    destruct (data_sums s (on_query d f e s).2 d Hd) as [Ho Hw]; try (by rewrite ?H4, ?H5);
    try (by intros j Hj; rewrite ?H6, ?H7, ?fn_lookup_insert_ne).
  - unfold data_units in Ho. rewrite H6, H7, fn_lookup_insert in Ho. lia.
  - unfold data_awaits in Hw. rewrite H6, H7, fn_lookup_insert in Hw. lia.
Qed.
Lemma update_place_ok d : (d < data_count)%nat → place_ok (update_place d).
Proof.
  intros Hd. split; intros B f e s; simpl; destruct (on_update_view d f e s) as (H1 & H2 & H3 & H8 & H4 & H5 & H6 & H7); try done;
    destruct (data_sums s (on_update d f e s).2 d Hd) as [Ho Hw]; try (by rewrite ?H4, ?H5);
    try (by intros j Hj; rewrite ?H6, ?H7, ?fn_lookup_insert_ne).
  - unfold data_units in Ho. rewrite H6, H7, fn_lookup_insert in Ho. lia.
  - unfold data_awaits in Hw. rewrite H6, H7, fn_lookup_insert in Hw. lia.
Qed.

(** ** The budget *)
Lemma balanced_active gs s t g g' v :
  balanced gs s → gs !! t = Some g → v + Z.of_nat (held g) = active_requests s + Z.of_nat (held g') →
  v ≤ Z.of_nat max_requests → (fresh g' ≤ fresh g)%nat → let_in g' = let_in g → custody g' = custody g →
  balanced (<[t := g']> gs) (s <| active_requests := v |>).
Proof.
  intros HI Hg Hv Hl Hf Hn Ho. eapply balanced_step; [done|done| |done| |done|done|done].
  - change (v + Z.of_nat (occupied s + held g) = active_requests s + Z.of_nat (occupied s + held g')). lia.
  - change (made s + waiting s + fresh g' ≤ made s + waiting s + fresh g)%nat. lia.
Qed.
Lemma safe_acquire {A} t Q h f n o fuel (k : bool → Program A) :
  safe t Q (mkBooks (S h) f n o) (k true) → safe t Q (mkBooks h f n o) (k false) →
  safe t Q (mkBooks h f n o) (bind (acquire fuel) k).
Proof.
  intros Htrue Hfalse. apply safe_apart; [intros; apply apart_get|]. intros found. revert found.
  induction fuel as [|fuel IH]; intros found; cbn [acquire_loop]; destruct (Z.leb_spec (Z.of_nat max_requests) found) as [Hle|Hlt]; try done.
  intros e s gs _ Hg HI. unfold exchange_active. destruct (Z.eqb_spec (active_requests s) found) as [Heq|Hne]; cbn [fst snd].
  - exists (mkBooks (S h) f n o). split; [|done]. pose proof (ba_units _ _ HI).
    assert (Hu : u32 (found + 1) = found + 1) by (apply wrap_small; word_lia).
    rewrite Hu. eapply balanced_active; [done|done|cbn [held]; lia|lia|done..].
  - exists (mkBooks h f n o). rewrite list_insert_id by done. split; [done|]. apply IH.
Qed.
Lemma safe_release_unit {A} t Q h f n o (k : unit → Program A) :
  safe t Q (mkBooks h f n o) (k tt) → safe t Q (mkBooks (S h) f n o) (bind release k).
Proof.
  intros Hk e s gs _ Hg HI. exists (mkBooks h f n o). split; [|exact Hk].
  pose proof (held_counts _ _ _ _ HI Hg) as Hh. cbn [held] in Hh. pose proof (ba_limit _ _ HI).
  assert (Hu : u32 (active_requests s - 1) = active_requests s - 1) by (apply wrap_small; word_lia).
  change (balanced (<[t := mkBooks h f n o]> gs) (s <| active_requests := u32 (active_requests s - 1) |>)). rewrite Hu.
  eapply balanced_active; [done|done|cbn [held]; lia|lia|done..].
Qed.
Lemma safe_release_last t h f n o : safe t (λ g _, g = mkBooks h f n o) (mkBooks (S h) f n o) release.
Proof.
  assert (Hr := safe_release_unit t (λ g _, g = mkBooks h f n o) h f n o (λ u, Done u) eq_refl). exact Hr.
Qed.
Lemma safe_call {A B} t Q h f n o c i (e : Envelope) (answer : Env → B) (k : B → Program A) :
  token_of_call c = token_of i e →
  (∀ b, safe t Q (mkBooks h f n o) (k b)) → safe t Q (mkBooks h (mine i e + f) n o) (Then (call c answer) k).
Proof.
  intros Hc Hk env s gs _ Hg HI. exists (mkBooks h f n o). split; [|apply Hk]. pose proof (ba_limit _ _ HI).
  assert (Hm : made (call c answer env s).2 = (made s + mine i e)%nat).
  { unfold made. change (calls (application (call c answer env s).2)) with (calls (application s) ++ [c]).
    rewrite sum_list_with_app. cbn [sum_list_with]. by rewrite Hc, Nat.add_0_r. }
  eapply balanced_step; [done|done|done|done| |done..]. rewrite Hm.
  change (waiting (call c answer env s).2) with (waiting s). cbn [fresh]. lia.
Qed.

(** ** Places of waiting requests *)
Definition waiting_place {R} (p : Place (Pending R)) : Prop := place_ok p ∧ units_in p = waits ∧ waiting_in p = awaits.
Lemma waiting_action a : (a < action_count)%nat → waiting_place (action_place a).
Proof. intros Ha. split; [by apply action_place_ok|done]. Qed.
Lemma waiting_query d : (d < data_count)%nat → waiting_place (query_place d).
Proof. intros Hd. split; [by apply query_place_ok|done]. Qed.
Lemma waiting_update d : (d < data_count)%nat → waiting_place (update_place d).
Proof. intros Hd. split; [by apply update_place_ok|done]. Qed.

Lemma safe_take_request {R A} t Q h f n o (p : Place (Pending R)) (k : _ → Program A) :
  waiting_place p → safe t Q (mkBooks h f n o) (k None) → (∀ r e i, safe t Q (mkBooks (S h) (mine i e + f) n o) (k (Some (r, e, i)))) →
  safe t Q (mkBooks h f n o) (Then (section_of p take_request) k).
Proof.
  intros (Hp & Hu & Hw) Hnone Hsome. apply safe_place; [done|]. intros x. rewrite Hu, Hw. unfold take_request, waits, awaits.
  destruct (p_request x) as [r|] eqn:Hr; simpl; eexists; (split_and!; [| | | |by apply Hnone || apply Hsome]); simpl; rewrite ?Hr; try done; lia.
Qed.
Lemma safe_put_request {R A} t Q h f n o (p : Place (Pending R)) r (e : Envelope) i (k : bool → Program A) :
  waiting_place p → safe t Q (mkBooks h f n o) (k true) → safe t Q (mkBooks (S h) (mine i e + f) n o) (k false) →
  safe t Q (mkBooks (S h) (mine i e + f) n o) (Then (section_of p (put_request r e i)) k).
Proof.
  intros (Hp & Hu & Hw) Htrue Hfalse. apply safe_place; [done|]. intros x. rewrite Hu, Hw. unfold put_request, waits, awaits.
  destruct (p_request x) as [r'|] eqn:Hr; simpl; eexists; (split_and!; [| | | |by apply Htrue || apply Hfalse]); simpl; rewrite ?Hr; try done; lia.
Qed.
Lemma safe_cancel_request {R A} t Q h f n o (p : Place (Pending R)) of_request i (k : bool → Program A) :
  waiting_place p → safe t Q (mkBooks (S h) f n o) (k true) → safe t Q (mkBooks h f n o) (k false) →
  safe t Q (mkBooks h f n o) (Then (section_of p (cancel_request of_request i)) k).
Proof.
  intros (Hp & Hu & Hw) Htrue Hfalse. apply safe_place; [done|]. intros x. rewrite Hu, Hw. unfold cancel_request, waits, awaits.
  destruct (p_request x) as [r'|] eqn:Hr; [destruct (_ && _)|]; simpl; eexists; (split_and!; [| | | |by apply Htrue || apply Hfalse]); simpl; rewrite ?Hr; try done; lia.
Qed.
Lemma safe_start {A} t Q h f n o a i (e : Envelope) (k : bool → Program A) :
  (a < action_count)%nat → safe t Q (mkBooks h f n o) (k true) → safe t Q (mkBooks (S h) f n o) (k false) →
  safe t Q (mkBooks (S h) f n o) (Then (on_asynchronous a (start_asynchronous i e)) k).
Proof.
  intros Ha Htrue Hfalse. apply (safe_place t Q _ (responder_place a)); [by apply responder_place_ok|].
  intros x. unfold start_asynchronous, responder_place, responds. cbn [units_in waiting_in].
  destruct (aa_active x) eqn:Hx; simpl; eexists; (split_and!; [| | | |by apply Htrue || apply Hfalse]); simpl; rewrite ?Hx; try done; lia.
Qed.
Lemma safe_end {A} t Q h f n o a (ends : AsynchronousActionState → bool) (k : bool → Program A) :
  (a < action_count)%nat → (∀ x, ends x = true → aa_active x = true) →
  safe t Q (mkBooks (S h) f n o) (k true) → safe t Q (mkBooks h f n o) (k false) →
  safe t Q (mkBooks h f n o)
    (Then (on_asynchronous a (λ x, if ends x then (true, x <| aa_active := false |>) else (false, x))) k).
Proof.
  intros Ha Hends Htrue Hfalse. apply (safe_place t Q _ (responder_place a)); [by apply responder_place_ok|].
  intros x. unfold responder_place, responds. cbn [units_in waiting_in]. specialize (Hends x).
  destruct (ends x); simpl; eexists; (split_and!; [| | | |by apply Htrue || apply Hfalse]); simpl; rewrite ?Hends by done; try done; lia.
Qed.

(** ** Handlers *)
Definition left (h n : nat) o g : Prop := held g = h ∧ let_in g = n ∧ custody g = o.
Lemma frames_answer i (e : Envelope) answer : frames apart (send_data_answer (V := V) (Rq := Rq) i e answer).
Proof.
  apply frames_bind; [apply frames_session|]. intros current. destruct (negb current); [done|].
  assert (Hsend : ∀ (bytes : Wire.Result (list Z)) (domain_error : bool), frames apart (A := unit)
    match bytes with
    | Err _ => deny (V := V) (Rq := Rq) i e InternalFailure
    | Ok bytes => _ ⇇ respond i (request_id e) (target e) bytes domain_error; Done tt
    end).
  { intros [bytes|error] domain_error; [|apply frames_error]. by apply frames_bind; [apply frames_respond|]. }
  destruct answer as [bytes|bytes]; apply Hsend.
Qed.
Lemma safe_data_handler t h f n o i (e : Envelope) c (answer : Env → Answer) :
  token_of_call c = token_of i e →
  safe t (λ g _, left h n o g) (mkBooks h (mine i e + f) n o)
    (current ⇇ in_session i (session_epoch e);
     if negb current then Done tt else answer ← call c answer; send_data_answer i e answer).
Proof.
  intros Hc. apply safe_apart_then; [apply frames_session|]. intros current. destruct (negb current); [done|].
  apply safe_call; [done|]. intros b. by apply safe_only; [apply frames_answer|].
Qed.
Lemma safe_query_handler t h f n o d i (e : Envelope) :
  safe t (λ g _, left h n o g) (mkBooks h (mine i e + f) n o) (execute_query (V := V) (Rq := Rq) d i e).
Proof. by apply safe_data_handler. Qed.
Lemma safe_update_handler t h f n o d i v (e : Envelope) :
  safe t (λ g _, left h n o g) (mkBooks h (mine i e + f) n o) (execute_update (Rq := Rq) d i v e).
Proof. by apply safe_data_handler. Qed.

Lemma safe_synchronous t h f n o a i r (e : Envelope) :
  asynchronous a = false →
  safe t (λ g (retained : bool), retained = false ∧ left h n o g) (mkBooks h (mine i e + f) n o) (execute_owned_action (V := V) a i r e).
Proof.
  intros Ha. unfold execute_owned_action. rewrite Ha. apply safe_apart_then; [apply frames_session|]. intros current.
  destruct (negb current); [done|]. apply safe_call; [done|]. intros answer. apply safe_apart_then; [apply frames_session|].
  intros again. destruct (negb again); [done|].
  assert (Hsend : ∀ (bytes : Wire.Result (list Z)) (domain_error : bool), safe t (λ g (retained : bool), retained = false ∧ left h n o g) (mkBooks h f n o)
    match bytes with
    | Err _ => _ ⇇ deny (V := V) (Rq := Rq) i e InternalFailure; Done false
    | Ok bytes => _ ⇇ respond i (request_id e) (target e) bytes domain_error; _ ⇇ completed i; Done false
    end).
  { intros [bytes|error] domain_error; [|by apply safe_apart_then; [apply frames_error|]].
    apply safe_apart_then; [apply frames_respond|]. intros u. by apply safe_apart_then; [apply frames_completed|]. }
  destruct answer as [bytes|bytes]; apply Hsend.
Qed.
Lemma safe_asynchronous t h f n o a i r (e : Envelope) :
  (a < action_count)%nat → asynchronous a = true →
  safe t (λ g (retained : bool), left (if retained then h else S h) n o g) (mkBooks (S h) (mine i e + f) n o) (execute_owned_action (V := V) a i r e).
Proof.
  intros Ha Has. unfold execute_owned_action. rewrite Has. apply safe_apart_then; [apply frames_session|]. intros current.
  destruct (negb current); [done|]. apply safe_start; [done| |].
  - apply safe_call; [done|]. by intros b.
  - by apply safe_apart_then; [apply frames_error|].
Qed.
Lemma safe_owned t h f n o a i r (e : Envelope) :
  (a < action_count)%nat →
  safe t (λ g (retained : bool), left (if retained then h else S h) n o g) (mkBooks (S h) (mine i e + f) n o) (execute_owned_action (V := V) a i r e).
Proof.
  intros Ha. destruct (asynchronous a) eqn:Has; [by apply safe_asynchronous|].
  eapply safe_mono; [|by apply safe_synchronous]. by intros g retained [-> ?].
Qed.

(** ** Workers *)
Lemma left_books {A} t Q h n o g (p : Program A) : left h n o g → (∀ f, safe t Q (mkBooks h f n o) p) → safe t Q g p.
Proof. intros (Hh & Hn & Ho) Hp. destruct g as [h' f' n' o']. simpl in *. subst. apply Hp. Qed.

(** A program that gives back what it takes, then the rest. *)
Definition neat {A} (p : Program A) : Prop := ∀ t h f n o, safe t (λ g _, left h n o g) (mkBooks h f n o) p.
Lemma neat_bind {A B} (p : Program B) (k : B → Program A) : neat p → (∀ b, neat (k b)) → neat (bind p k).
Proof.
  intros Hp Hk t h f n o. apply safe_bind. eapply safe_mono; [|apply Hp]. intros g b Hg. apply (left_books t _ h n o); [exact Hg|].
  intros f'. apply Hk.
Qed.
Lemma neat_done {A} (a : A) : neat (Done a).
Proof. by intros t h f n o. Qed.
Lemma neat_frames {A} (p : Program A) : frames apart p → neat p.
Proof. intros Hp t h f n o. by apply safe_only. Qed.
Lemma neat_then {A B} (f : Env → State → B * State) (k : B → Program A) :
  (∀ e s, apart s (f e s).2) → (∀ b, neat (k b)) → neat (Then f k).
Proof. intros Hf Hk t h fr n o. apply safe_apart; [done|]. intros b. apply Hk. Qed.
Lemma neat_forgo {A} (p : Program A) : neat p → neat (forgo p).
Proof. intros Hp. apply neat_bind; [done|]. intros b. apply neat_done. Qed.
Lemma neat_endpoints n k (p : nat → Program unit) :
  (∀ j, (k ≤ j < k + n)%nat → neat (p j)) → neat (for_endpoints n k p).
Proof.
  revert k. induction n as [|n IH]; intros k Hp; [apply neat_done|]. apply neat_bind; [apply Hp; lia|].
  intros b. apply IH. intros j Hj. apply Hp. lia.
Qed.
Lemma neat_first n k (p : nat → Program bool) : (∀ j, (k ≤ j < k + n)%nat → neat (p j)) → neat (first_true n k p).
Proof.
  revert k. induction n as [|n IH]; intros k Hp; [apply neat_done|]. apply neat_bind; [apply Hp; lia|].
  intros [|]; [apply neat_done|]. apply IH. intros j Hj. apply Hp. lia.
Qed.
Lemma neat_work n k id target (p : nat → Program unit) found :
  (∀ j, (k ≤ j < k + n)%nat → neat (p j)) → neat (work_on n k id target p found).
Proof.
  revert k found. induction n as [|n IH]; intros k found Hp; [apply neat_done|]. cbn [work_on].
  assert (Hrest : ∀ j, (S k ≤ j < S k + n)%nat → neat (p j)) by (intros j Hj; apply Hp; lia).
  destruct (_ =? _); [|by apply IH]. apply neat_bind; [apply Hp; lia|]. intros b. by apply IH.
Qed.

Lemma safe_retained t h n o g (retained : bool) :
  left (if retained then h else S h) n o g → safe t (λ g _, left h n o g) g (release_unless (V := V) (Rq := Rq) retained).
Proof.
  intros Hg. destruct retained; [done|]. apply (left_books t _ (S h) n o); [exact Hg|]. intros f'.
  eapply safe_mono; [|apply safe_release_last]. by intros g' u ->.
Qed.
Lemma neat_run_action a : (a < action_count)%nat → neat (run_pending_action (V := V) (Rq := Rq) a).
Proof.
  intros Ha t h f n o. apply (safe_take_request t _ h f n o (action_place a)); [by apply waiting_action|done|].
  intros r e i. apply safe_bind.
  assert (Hlast : ∀ g retained, left (if retained : bool then h else S h) n o g →
    safe t (λ g _, left h n o g) g (_ ⇇ release_unless (V := V) (Rq := Rq) retained; Done true)).
  { intros g retained Hg. apply safe_bind. eapply safe_mono; [|by apply safe_retained]. by intros g' u Hg'. }
  destruct (i <? link_count)%nat; [|by apply Hlast]. eapply safe_mono; [|by apply safe_owned]. apply Hlast.
Qed.
Lemma safe_handled t h n o (p : Program unit) f :
  safe t (λ g _, left (S h) n o g) (mkBooks (S h) f n o) p →
  safe t (λ g _, left h n o g) (mkBooks (S h) f n o) (_ ⇇ p; _ ⇇ release (V := V) (Rq := Rq); Done true).
Proof.
  intros Hp. apply safe_bind. eapply safe_mono; [|exact Hp]. intros g u Hg. apply (left_books t _ (S h) n o); [exact Hg|]. intros f'.
  by apply safe_release_unit.
Qed.
Lemma neat_run_query d : (d < data_count)%nat → neat (run_pending_query (V := V) (Rq := Rq) d).
Proof.
  intros Hd t h f n o. unfold run_pending_query. destruct (negb (has_query d)); [done|].
  apply (safe_take_request t _ h f n o (query_place d)); [by apply waiting_query|done|]. intros r e i.
  apply safe_handled. destruct (i <? link_count)%nat; [apply safe_query_handler|done].
Qed.
Lemma neat_run_update d : (d < data_count)%nat → neat (run_pending_update (V := V) (Rq := Rq) d).
Proof.
  intros Hd t h f n o. unfold run_pending_update. destruct (negb (has_update d)); [done|].
  apply (safe_take_request t _ h f n o (update_place d)); [by apply waiting_update|done|]. intros v e i.
  apply safe_handled. destruct (i <? link_count)%nat; [apply safe_update_handler|done].
Qed.
Lemma neat_process_work target action : neat (process_action_work (V := V) (Rq := Rq) target action).
Proof.
  apply neat_bind; [|intros found; apply neat_done]. destruct action; apply neat_work; intros j Hj.
  - apply neat_forgo, neat_run_action. lia.
  - apply neat_bind; [apply neat_run_query; lia|]. intros b. apply neat_forgo, neat_run_update. lia.
Qed.

(** ** Responders *)
Lemma holds_active token x : holds_token token x = true → aa_active x = true.
Proof. unfold holds_token. by destruct (aa_active x). Qed.
Lemma frames_result a token answer : frames apart (send_asynchronous_action_result (V := V) (Rq := Rq) a token answer).
Proof.
  apply frames_bind; [apply frames_session|]. intros current. destruct (negb current); [done|].
  assert (Hsend : ∀ (bytes : Wire.Result (list Z)) (domain_error : bool), frames apart (A := result Status unit)
    match bytes with
    | Err error => _ ⇇ protocol_error (A := Runtime V Rq) (t_link token) (t_request token) (action_id a) InternalFailure; Done (Err (Remote.status error))
    | Ok bytes =>
      sent ⇇ respond (t_link token) (t_request token) (action_id a) bytes domain_error;
      match sent with
      | Err error => Done (Err (Remote.status error))
      | Ok _ => _ ⇇ completed (t_link token); Done (Ok tt)
      end
    end).
  { intros [bytes|error] domain_error; [|by apply frames_bind; [apply frames_error|]].
    apply frames_bind; [apply frames_respond|]. intros [u|error]; [|done]. by apply frames_bind; [apply frames_completed|]. }
  destruct answer as [bytes|bytes]; apply Hsend.
Qed.
Lemma neat_complete a token answer :
  (a < action_count)%nat → neat (complete_asynchronous_action (V := V) (Rq := Rq) a token answer).
Proof.
  intros Ha t h f n o. apply (safe_end t _ h f n o a (holds_token token)); [done|apply holds_active| |done]. cbn [negb].
  apply safe_apart_then; [destruct (_ <? _)%nat; [apply frames_result|done]|]. intros answered. by apply safe_release_unit.
Qed.
Lemma neat_abandon a token : (a < action_count)%nat → neat (abandon_asynchronous_action (V := V) (Rq := Rq) a token).
Proof.
  intros Ha t h f n o. apply (safe_end t _ h f n o a (holds_token token)); [done|apply holds_active| |done]. cbn [negb].
  apply safe_apart_then; [destruct (_ <? _)%nat; [apply frames_error|done]|]. intros u.
  eapply safe_mono; [|apply safe_release_last]. by intros g' u' ->.
Qed.

(** ** Cancellation *)
Lemma cancel_ends of_request i x : (aa_active x && (aa_link x =? i)%nat && of_request (request_id (aa_envelope x))) = true → aa_active x = true.
Proof. by destruct (aa_active x). Qed.
Lemma neat_cancel_action of_request a i : (a < action_count)%nat → neat (cancel_action (V := V) (Rq := Rq) of_request a i).
Proof.
  intros Ha t h f n o. apply (safe_cancel_request t _ h f n o (action_place a)); [by apply waiting_action|by apply safe_release_unit|].
  destruct (asynchronous a); [|done].
  apply (safe_end t _ h f n o a (λ x, aa_active x && (aa_link x =? i)%nat && of_request (request_id (aa_envelope x))));
    [done|apply cancel_ends|by apply safe_release_unit|done].
Qed.
Lemma neat_cancel_query of_request d i : (d < data_count)%nat → neat (cancel_query (V := V) (Rq := Rq) of_request d i).
Proof.
  intros Hd t h f n o. unfold cancel_query. destruct (negb _); [done|].
  apply (safe_cancel_request t _ h f n o (query_place d)); [by apply waiting_query|by apply safe_release_unit|done].
Qed.
Lemma neat_cancel_update of_request d i : (d < data_count)%nat → neat (cancel_update (V := V) (Rq := Rq) of_request d i).
Proof.
  intros Hd t h f n o. unfold cancel_update. destruct (negb _); [done|].
  apply (safe_cancel_request t _ h f n o (update_place d)); [by apply waiting_update|by apply safe_release_unit|done].
Qed.
Lemma neat_cancel_pending i request : neat (cancel_pending_request (V := V) (Rq := Rq) i request).
Proof.
  apply neat_bind; [apply neat_first; intros j Hj; apply neat_cancel_action; lia|]. intros [|]; [apply neat_done|].
  apply neat_bind; [apply neat_first; intros j Hj; apply neat_cancel_query; lia|]. intros [|]; [apply neat_done|].
  apply neat_first. intros j Hj. apply neat_cancel_update. lia.
Qed.
Lemma neat_cancel_link_action a i : (a < action_count)%nat → neat (cancel_link_action (V := V) (Rq := Rq) a i).
Proof.
  intros Ha t h f n o.
  assert (Hrest : safe t (λ g _, left h n o g) (mkBooks h f n o)
    (if asynchronous a then
       active ← on_asynchronous (V := V) (Rq := Rq) a (cancel_asynchronous (λ _, true) i); release_unless (negb active)
     else Done tt)).
  { destruct (asynchronous a); [|done].
    apply (safe_end t _ h f n o a (λ x, aa_active x && (aa_link x =? i)%nat && true));
      [done|apply (cancel_ends (λ _, true))| |done].
    eapply safe_mono; [|apply safe_release_last]. by intros g' u ->. }
  apply (safe_cancel_request t _ h f n o (action_place a)); [by apply waiting_action| |exact Hrest].
  by apply safe_release_unit.
Qed.
Lemma neat_cancel_session i : neat (cancel_session_requests (V := V) (Rq := Rq) i).
Proof.
  apply neat_bind; [apply neat_endpoints; intros j Hj; apply neat_cancel_link_action; lia|]. intros u.
  apply neat_endpoints. intros j Hj. apply neat_bind; [apply neat_cancel_query; lia|]. intros b.
  apply neat_forgo, neat_cancel_update. lia.
Qed.

(** ** Requests *)

(** A program that handles the request it has in hand, at most once. *)
Definition handles i (m : Decoded) {A} (p : Program A) : Prop :=
  ∀ t h f n o, safe t (λ g _, left h n o g) (mkBooks h (mine i (envelope m) + f) n o) p.
Lemma handles_neat i m {A} (p : Program A) : neat p → handles i m p.
Proof. intros Hp t h f n o. apply Hp. Qed.
Lemma handles_frames i m {A} (p : Program A) : frames apart p → handles i m p.
Proof. intros Hp. by apply handles_neat, neat_frames. Qed.
Lemma handles_then i m {A B} (p : Program B) (k : B → Program A) : handles i m p → (∀ b, neat (k b)) → handles i m (bind p k).
Proof.
  intros Hp Hk t h f n o. apply safe_bind. eapply safe_mono; [|apply Hp]. intros g b Hg.
  apply (left_books t _ h n o); [exact Hg|]. intros f'. apply Hk.
Qed.
Lemma frames_reserve i (e : Envelope) : frames apart (reserve (V := V) (Rq := Rq) i e).
Proof. apply frames_table, keeps_reserve. Qed.
Lemma safe_defer {R} t h f n o fuel i (e : Envelope) (p : Place (Pending R)) r work :
  waiting_place p →
  safe t (λ g _, left h n o g) (mkBooks h (mine i e + f) n o) (defer (V := V) (Rq := Rq) fuel i e (λ B, section_of p) r work).
Proof.
  intros Hp. apply safe_acquire; cbn [negb].
  - apply safe_put_request; [done| |]; cbn [negb].
    + intros env s gs Hwilling Hg HI. exists (mkBooks h f n o). rewrite list_insert_id by done. split; [done|].
      unfold get. cbn [fst]. by rewrite (Hwilling work).
    + apply safe_release_unit. by apply safe_only; [apply frames_refusal|].
  - by apply safe_only; [apply frames_refusal|].
Qed.

Lemma handles_action_request fuel a i m : (a < action_count)%nat → handles i m (execute_action_request (V := V) (Rq := Rq) fuel a i m).
Proof.
  intros Ha t h f n o. apply safe_apart; [by intros|]. intros allowed. destruct (negb allowed); [by apply safe_only; [apply frames_error|]|].
  destruct (decode_request a (payload m)) as [r|]; [|by apply safe_only; [apply frames_error|]].
  apply safe_apart_then; [apply frames_reserve|]. intros reserved.
  destruct (negb reserved); [by apply safe_only; [apply frames_error|]|].
  destruct (inline_action a); [|by apply (safe_defer t h f n o fuel i (envelope m) (action_place a)), waiting_action].
  destruct (asynchronous a) eqn:Has.
  - apply safe_acquire; cbn [negb]; [|by apply safe_only; [apply frames_refusal|]].
    apply safe_bind. eapply safe_mono; [|by apply safe_asynchronous]. intros g retained. apply safe_retained.
  - apply safe_bind. eapply safe_mono; [|by apply safe_synchronous]. by intros g retained [_ Hg].
Qed.
Lemma handles_query_request fuel d i m : (d < data_count)%nat → handles i m (execute_query_request (V := V) (Rq := Rq) fuel d i m).
Proof.
  intros Hd t h f n o. apply safe_apart; [by intros|]. intros allowed. destruct (negb allowed); [by apply safe_only; [apply frames_error|]|].
  destruct (negb (has_query d)); [by apply safe_only; [apply frames_error|]|].
  apply safe_apart_then; [apply frames_reserve|]. intros reserved.
  destruct (negb reserved); [by apply safe_only; [apply frames_error|]|].
  destruct (inline_data d); [apply safe_query_handler|].
  by apply (safe_defer t h f n o fuel i (envelope m) (query_place d)), waiting_query.
Qed.
Lemma handles_update_request fuel d i m : (d < data_count)%nat → handles i m (execute_update_request (V := V) (Rq := Rq) fuel d i m).
Proof.
  intros Hd t h f n o. apply safe_apart; [by intros|]. intros allowed. destruct (negb allowed); [by apply safe_only; [apply frames_error|]|].
  destruct (negb (has_update d)); [by apply safe_only; [apply frames_error|]|].
  destruct (decode_value d (payload m)) as [v|]; [|by apply safe_only; [apply frames_error|]].
  apply safe_apart_then; [apply frames_reserve|]. intros reserved.
  destruct (negb reserved); [by apply safe_only; [apply frames_error|]|].
  destruct (inline_data d); [apply safe_update_handler|].
  by apply (safe_defer t h f n o fuel i (envelope m) (update_place d)), waiting_update.
Qed.
Lemma handles_dispatch i m n k id target (p : nat → Program unit) :
  (∀ j, (k ≤ j < k + n)%nat → handles i m (p j)) → handles i m (dispatch_to n k id target p).
Proof.
  revert k. induction n as [|n IH]; intros k Hp; [by apply handles_frames|]. cbn [dispatch_to].
  destruct (_ =? _); [apply handles_then; [apply Hp; lia|intros u; apply neat_done]|].
  apply IH. intros j Hj. apply Hp. lia.
Qed.

(** ** Frames of a session *)
Lemma frames_replay i request : frames apart (replay_response (A := Runtime V Rq) i request).
Proof. apply frames_bind; [apply frames_table, keeps_unstage|]. intros [u|error]; [|done]. by apply frames_bind; [apply frames_post|]. Qed.

(** The keeper of the session looks up its latest request. *)
Lemma balanced_look gs s t g o :
  balanced gs s → gs !! t = Some g → keeper o = keeper (custody g) →
  (∀ v, known o = Some v → keeper o = true ∧ newest s = v) →
  balanced (<[t := mkBooks (held g) (fresh g) (let_in g) o]> gs) s.
Proof.
  intros [B1 B2 B3 B4 B5 B6] Hg Ho Hk. split; rewrite ?(sum_same _ gs t g) by done; try done.
  - intros t' h v Hh Hv. apply list_lookup_insert_Some in Hh as [(-> & <- & _)|[_ Hh]]; [by apply Hk|by eapply B5].
  - assert (Hc : ∀ t' h, <[t := mkBooks (held g) (fresh g) (let_in g) o]> gs !! t' = Some h →
      ∃ h', gs !! t' = Some h' ∧ keeper (custody h) = keeper (custody h')).
    { intros t' h Hh. apply list_lookup_insert_Some in Hh as [(-> & <- & _)|[_ Hh]]; [by exists g|by exists h]. }
    intros t1 t2 h1 h2 Hh1 Hh2 Hk1 Hk2. destruct (Hc t1 h1 Hh1) as (h1' & L1 & C1). destruct (Hc t2 h2 Hh2) as (h2' & L2 & C2).
    rewrite C1 in Hk1. rewrite C2 in Hk2. by eapply B6.
Qed.
Definition same_number (id : Z) : nat := if id =? number then 1 else 0.
(** It admits a request that is later than all before it. *)
Lemma balanced_admit gs s t g v id e :
  balanced gs s → gs !! t = Some g → known (custody g) = Some v → v < id →
  balanced (<[t := mkBooks (held g) (same_number id + fresh g) (same_number id + let_in g) (mkCustody true None)]> gs)
    (set_link (A := Runtime V Rq) session_link (λ l, l <| last_request_id := id |>) e s).2.
Proof.
  intros [B1 B2 B3 B4 B5 B6] Hg Hv Hlt. destruct (B5 t g v Hg Hv) as [Hk Hn].
  set (g' := mkBooks _ _ _ _). set (s' := (set_link _ _ _ _).2).
  assert (Hnew : newest s' = id) by (unfold newest, s', set_link, update; simpl; by rewrite fn_lookup_alter).
  pose proof (sum_change fresh gs t g g' Hg) as Hf. pose proof (sum_change let_in gs t g g' Hg) as Hl. simpl in Hf, Hl.
  split; rewrite ?(sum_same held gs t g g') by done; try done.
  - change (made s' + waiting s')%nat with (made s + waiting s)%nat. lia.
  - rewrite Hnew. rewrite Hn in B4. unfold same_number in *. destruct (Z.eqb_spec id number) as [->|Hne].
    + rewrite (proj2 (Z.leb_gt number v)) in B4 by lia. rewrite Z.leb_refl. lia.
    + destruct (Z.leb_spec number v), (Z.leb_spec number id); lia.
  - intros t' h w Hh Hw. apply list_lookup_insert_Some in Hh as [(-> & <- & _)|[Hne Hh]]; [done|].
    destruct (B5 t' h w Hh Hw) as [Hk' _]. by destruct (Hne (B6 t t' g h Hg Hh Hk Hk')).
  - assert (Hc : ∀ t' h, <[t := g']> gs !! t' = Some h → ∃ h', gs !! t' = Some h' ∧ (keeper (custody h) = true → keeper (custody h') = true)).
    { intros t' h Hh. apply list_lookup_insert_Some in Hh as [(-> & <- & _)|[_ Hh]]; [by exists g|by exists h]. }
    intros t1 t2 h1 h2 Hh1 Hh2 Hk1 Hk2. destruct (Hc t1 h1 Hh1) as (h1' & L1 & C1). destruct (Hc t2 h2 Hh2) as (h2' & L2 & C2). eauto.
Qed.
Lemma mine_here (e : Envelope) : mine session_link e = same_number (request_id e).
Proof. unfold mine. by rewrite Nat.eqb_refl. Qed.
Lemma mine_elsewhere i (e : Envelope) : i ≠ session_link → mine i e = 0%nat.
Proof. intros Hi. unfold mine. by rewrite (proj2 (Nat.eqb_neq _ _) Hi). Qed.
Lemma apart_elsewhere i f e s : i ≠ session_link → apart s (set_link (A := Runtime V Rq) i f e s).2.
Proof. intros Hi. split; try done. unfold newest, set_link, update. simpl. by rewrite fn_lookup_alter_ne. Qed.

Lemma safe_admit {A} t Q h f n o i m (k : bool → Program A) :
  (i = session_link → keeper o = true) →
  (∀ o', keeper o' = keeper o → safe t Q (mkBooks h f n o') (k false)) →
  (∀ n' o', keeper o' = keeper o → safe t Q (mkBooks h (mine i (envelope m) + f) n' o') (k true)) →
  safe t Q (mkBooks h f n o) (bind (admit_request_id (V := V) (Rq := Rq) i m) k).
Proof.
  intros Hkeeps Hfalse Htrue. apply safe_bind. unfold admit_request_id.
  destruct (_ =? 0); [by apply safe_apart_then; [apply frames_error|]; intros u; apply Hfalse|].
  intros e s gs _ Hg HI.
  assert (Hlook : ∃ o', keeper o' = keeper o ∧ (i = session_link → known o' = Some (last_request_id (links s i)))
    ∧ balanced (<[t := mkBooks h f n o']> gs) s).
  { destruct (decide (i = session_link)) as [->|Hne].
    - exists (mkCustody (keeper o) (Some (newest s))). split_and!; [done..|].
      apply (balanced_look gs s t (mkBooks h f n o)); [done..|]. intros v [= <-]. split; [by apply Hkeeps|done].
    - exists o. split_and!; [done..|]. by rewrite list_insert_id. }
  destruct Hlook as (o' & Ho' & Hknown & HI'). exists (mkBooks h f n o'). split; [done|]. unfold read_link, get. cbn [fst].
  set (previous := last_request_id (links s i)) in *. clearbody previous. clear s gs Hg HI HI' e.
  destruct (_ =? previous) eqn:Heq.
  { apply safe_apart; [intros; by apply apart_link|]. intros u. apply safe_apart_then; [apply frames_replay|].
    intros [v|error]; [by apply Hfalse|]. apply safe_apart_then; [apply frames_error|]. intros w. by apply Hfalse. }
  destruct (_ <? previous) eqn:Hlt; [by apply safe_apart_then; [apply frames_error|]; intros u; apply Hfalse|].
  intros e s gs _ Hg HI. destruct (decide (i = session_link)) as [->|Hne].
  - eexists. split; [apply (balanced_admit gs s t (mkBooks h f n o') previous (request_id (envelope m))); [done|done|by apply Hknown|lia]|]. cbn [held fresh let_in].
    rewrite <-mine_here. apply Htrue. symmetry. by apply Hkeeps.
  - exists (mkBooks h f n o'). rewrite list_insert_id by done. split; [by eapply balanced_apart, apart_elsewhere|].
    specialize (Htrue n o' Ho'). by rewrite mine_elsewhere in Htrue.
Qed.

(** Programs of a thread that keeps the session or not; they hold no unit
    afterwards that they did not hold before. *)
Definition serves (b : bool) {A} (p : Program A) : Prop :=
  ∀ t h f n o, keeper o = b → safe t (λ g _, held g = h ∧ keeper (custody g) = b) (mkBooks h f n o) p.
Lemma serves_neat b {A} (p : Program A) : neat p → serves b p.
Proof. intros Hp t h f n o Ho. eapply safe_mono; [|apply Hp]. intros g x (Hh & _ & ->). done. Qed.
Lemma serves_bind b {A B} (p : Program B) (k : B → Program A) : serves b p → (∀ x, serves b (k x)) → serves b (bind p k).
Proof.
  intros Hp Hk t h f n o Ho. apply safe_bind. eapply safe_mono; [|by apply Hp]. intros [h' f' n' o'] x [Hh Ho']. cbn [held custody] in *.
  subst h'. by apply Hk.
Qed.
Lemma serves_admit b i m {A} (k : bool → Program A) :
  (i = session_link → b = true) → neat (k false) → handles i m (k true) →
  serves b (bind (admit_request_id (V := V) (Rq := Rq) i m) k).
Proof.
  intros Hi Hfalse Htrue t h f n o Ho. apply safe_admit; [by rewrite Ho| |].
  - intros o' Ho'. eapply safe_mono; [|apply Hfalse]. intros g x (Hh & _ & ->). split; [done|congruence].
  - intros n' o' Ho'. eapply safe_mono; [|apply Htrue]. intros g x (Hh & _ & ->). split; [done|congruence].
Qed.
Lemma serves_request b fuel i m : (i = session_link → b = true) → serves b (process_request (V := V) (Rq := Rq) fuel i m).
Proof.
  intros Hi. apply serves_admit; [done|apply neat_done|]. cbn [negb].
  assert (Hanswer : ∀ p : Program bool, handles i m p →
    handles i m (known ⇇ p; if known : bool then Done tt else deny (V := V) (Rq := Rq) i (envelope m) UnknownTarget)).
  { intros p Hp. apply handles_then; [done|]. intros [|]; [apply neat_done|apply neat_frames, frames_error]. }
  destruct (_ =? Operation_Action); [|destruct (_ =? Operation_Query); [|destruct (_ =? Operation_Update)]].
  - apply Hanswer, handles_dispatch. intros j Hj. apply handles_action_request. lia.
  - apply Hanswer, handles_dispatch. intros j Hj. apply handles_query_request. lia.
  - apply Hanswer, handles_dispatch. intros j Hj. apply handles_update_request. lia.
  - apply handles_frames, frames_error.
Qed.

Lemma apart_ring {B} c (f : Ring V → B * Ring V) e s : apart s (on_ring (Rq := Rq) c f e s).2.
Proof. unfold on_ring. by destruct (f _). Qed.
Lemma apart_loans {B} d (f : LoanState → B * LoanState) e s : apart s (on_loans (V := V) (Rq := Rq) d f e s).2.
Proof. unfold on_loans. by destruct (f _). Qed.
Lemma frames_interest c enable : frames apart (_ ← change_interest (Rq := Rq) c enable; Done tt).
Proof. by apply frames_then; [intros; apply apart_ring|]. Qed.
Lemma frames_data_subscription i d target enable subscription request :
  frames apart (update_data_subscription (V := V) (Rq := Rq) i d target enable subscription request).
Proof.
  unfold update_data_subscription. destruct (_ || _); [done|]. destruct (_ || _); [done|]. destruct (unsupported_request _ _); [done|].
  apply frames_bind; [apply frames_table, keeps_switch|]. intros changed. apply frames_bind; [|done]. destruct (negb changed); [done|].
  destruct (subscription =? Subscription_DataStream); [|apply frames_interest]. unfold change_stream_interest.
  destruct (push_policy d); [apply frames_interest|]. destruct (loaned_policy d); [|done].
  by apply frames_then; [intros; apply apart_loans|].
Qed.
Lemma frames_topic_subscription i k target enable subscription request :
  frames apart (update_topic_subscription (V := V) (Rq := Rq) i k target enable subscription request).
Proof.
  unfold update_topic_subscription. destruct (_ || _); [done|]. destruct (unsupported_request _ _); [done|].
  apply frames_bind; [apply frames_table, keeps_switch|]. intros changed. apply frames_bind; [|done]. destruct (negb changed); [done|].
  apply frames_interest.
Qed.
Lemma frames_first_known n k (p : nat → Program (result ErrorCode (option SubscriptionPolicy))) :
  (∀ j, frames apart (p j)) → frames apart (first_known n k p).
Proof.
  intros Hp. revert k. induction n as [|n IH]; intros k; [done|]. apply frames_bind; [apply Hp|].
  intros [[policy|]|code]; [done|apply IH|done].
Qed.
Lemma frames_subscription i target enable subscription request :
  frames apart (update_subscription (V := V) (Rq := Rq) i target enable subscription request).
Proof.
  apply frames_bind; [apply frames_first_known; intros j; apply frames_data_subscription|].
  intros [[policy|]|code]; [done|apply frames_first_known; intros j; apply frames_topic_subscription|done].
Qed.
Lemma frames_endpoints n k (p : nat → Program unit) : (∀ j, frames apart (p j)) → frames apart (for_endpoints n k p).
Proof. intros Hp. revert k. induction n as [|n IH]; intros k; [done|]. apply frames_bind; [apply Hp|]. intros u. apply IH. Qed.
Lemma frames_reset_link i : frames apart (reset_session_link (V := V) (Rq := Rq) i).
Proof.
  assert (Hforgo : ∀ {A} (p : Program A), frames apart p → frames apart (forgo p)) by (intros A p Hp; by apply frames_bind).
  apply frames_bind; [apply frames_endpoints; intros j; apply Hforgo, frames_data_subscription|]. intros u.
  apply frames_bind; [apply frames_endpoints; intros j; apply Hforgo, frames_data_subscription|]. intros w.
  apply frames_endpoints. intros j. apply Hforgo, frames_topic_subscription.
Qed.

(** ** The threads *)

(** The in-streams neither take units of the budget nor call the handlers of
    requests. *)
Class InStreamsApart : Prop := {
  apart_subscription i m (enable : bool) : frames apart (process_in_stream_subscription_target (V := V) (Rq := Rq) i m enable);
  apart_in_stream i m : frames apart (dispatch_in_stream (V := V) (Rq := Rq) i m);
  apart_reset i reason : frames apart (reset_in_streams (V := V) (Rq := Rq) i reason) }.
Context `{!InStreamsApart}.

Lemma serves_then b {A B} (f : Env → State → B * State) (k : B → Program A) :
  (∀ e s, apart s (f e s).2) → (∀ x, serves b (k x)) → serves b (Then f k).
Proof. intros Hf Hk t h fr n o Ho. apply safe_apart; [done|]. intros x. by apply Hk. Qed.
Lemma serves_frames b {A} (p : Program A) : frames apart p → serves b p.
Proof. intros Hp. by apply serves_neat, neat_frames. Qed.
Lemma serves_in_stream_subscription b i m (enable : bool) :
  (i = session_link → b = true) → serves b (in_stream_subscription (V := V) (Rq := Rq) i m enable).
Proof.
  intros Hi. apply serves_then; [by intros|]. intros allowed. destruct (negb allowed); [apply serves_frames, frames_error|].
  apply serves_admit; [done|apply neat_done|]. apply handles_frames.
  apply frames_bind; [apply frames_reserve|]. intros reserved. destruct (negb reserved); [apply frames_error|].
  apply frames_bind; [apply apart_subscription|]. intros [|]; [done|apply frames_refusal].
Qed.
Lemma serves_subscription b i m (enable : bool) :
  (i = session_link → b = true) → serves b (process_subscription (V := V) (Rq := Rq) i m enable).
Proof.
  intros Hi. unfold process_subscription. destruct (_ =? Subscription_DataInStream); [by apply serves_in_stream_subscription|].
  apply serves_then; [by intros|]. intros allowed. destruct (negb allowed); [apply serves_frames, frames_error|].
  apply serves_admit; [done|apply neat_done|]. apply handles_frames.
  apply frames_bind; [apply frames_reserve|]. intros reserved. destruct (negb reserved); [apply frames_error|].
  destruct (asked _ _) as [[request|error]|]; [|apply frames_refusal|done].
  apply frames_bind; [apply frames_subscription|]. intros [[policy|]|code]; [|apply frames_refusal..].
  unfold encoded. destruct (encode_subscription_policy policy); [|done].
  by apply frames_bind; [apply frames_respond|].
Qed.
Lemma neat_cancel i (e : Envelope) : neat (cancel (V := V) (Rq := Rq) i e).
Proof.
  apply neat_bind; [apply neat_cancel_pending|].
  intros [|]; apply neat_frames; [apply frames_refusal|apply frames_error].
Qed.
Lemma serves_frame b fuel i m :
  ((i < link_count)%nat → i = session_link → b = true) → serves b (process_application_frame (V := V) (Rq := Rq) fuel i m).
Proof.
  intros Hi. unfold process_application_frame, process_link_application_frame.
  destruct (Nat.ltb_spec i link_count) as [Hlt|_]; [|by apply serves_frames]. specialize (Hi Hlt).
  destruct (_ =? Kind_ResponseAck); [apply serves_frames, frames_table, keeps_acknowledge|].
  destruct (_ =? Kind_Cancel); [apply serves_neat, neat_cancel|].
  destruct (_ || _); [by apply serves_subscription|].
  destruct (_ =? Kind_Data).
  - apply serves_frames. destruct (negb _); [apply frames_error|]. apply frames_bind; [apply apart_in_stream|].
    intros [|]; [done|apply frames_error].
  - destruct (_ || _); [apply serves_frames, frames_error|by apply serves_request].
Qed.
Lemma neat_reset_session i reason : neat (reset_session (V := V) (Rq := Rq) i reason).
Proof.
  apply neat_bind; [apply neat_cancel_session|]. intros u. apply neat_bind; [apply neat_frames, apart_reset|].
  intros w. apply neat_frames, frames_reset_link.
Qed.

(** What reaches a session: a frame, or its end. *)
Inductive Arrival : Type := Frame (m : Decoded) | Reset (reason : Z).
Inductive Thread : Type :=
  | Session (fuel : nat) (arrivals : list (nat * Arrival))
  | Worker (tasks : list (Z * bool))
  | Responder (answers : list (nat * ResponderToken * option Answer)).
Definition arrive fuel i (x : Arrival) : Program unit :=
  match x with Frame m => process_application_frame fuel i m | Reset reason => reset_session i reason end.
(** [None]: the responder is destroyed without an answer. *)
Definition answer_with a (token : ResponderToken) (answer : option Answer) : Program unit :=
  match answer with
  | Some answer => forgo (complete_asynchronous_action a token answer)
  | None => abandon_asynchronous_action a token
  end.
Fixpoint one_by_one {X} (f : X → Program unit) (xs : list X) : Program unit :=
  match xs with [] => Done tt | x :: xs => _ ⇇ f x; one_by_one f xs end.
Definition thread (th : Thread) : Program unit :=
  match th with
  | Session fuel arrivals => one_by_one (λ '(i, x), arrive fuel i x) arrivals
  | Worker tasks => one_by_one (λ '(target, action), forgo (process_action_work target action)) tasks
  | Responder answers => one_by_one (λ '(a, token, answer), answer_with a token answer) answers
  end.
(** The thread keeps the session of a link. *)
Definition keeps_session (link : nat) (th : Thread) : bool :=
  match th with
  | Session _ arrivals => existsb (λ x, (x.1 <? link_count)%nat && (x.1 =? link)%nat) arrivals
  | _ => false
  end.
(** Responders are made for declared actions. *)
Definition declared_thread (th : Thread) : Prop :=
  match th with Responder answers => Forall (λ x, (x.1.1 < action_count)%nat) answers | _ => True end.

Lemma serves_one_by_one b {X} (f : X → Program unit) xs : (∀ x, x ∈ xs → serves b (f x)) → serves b (one_by_one f xs).
Proof.
  induction xs as [|x xs IH]; intros Hf; [by apply serves_frames|]. apply serves_bind; [apply Hf; by left|].
  intros u. apply IH. intros y Hy. apply Hf. by right.
Qed.
Lemma serves_thread th : declared_thread th → serves (keeps_session session_link th) (thread th).
Proof.
  destruct th as [fuel arrivals|tasks|answers]; intros Hth; apply serves_one_by_one.
  - intros [i [m|reason]] Hx; [|apply serves_neat, neat_reset_session]. apply serves_frame. intros Hlt ->.
    apply existsb_exists. exists (session_link, Frame m). split; [by apply list_elem_of_In|]. cbn [fst].
    rewrite Nat.eqb_refl. by rewrite (proj2 (Nat.ltb_lt _ _) Hlt).
  - intros [target action] _. apply serves_neat, neat_forgo, neat_process_work.
  - intros [[a token] answer] Ha. assert (Hlt := proj1 (list.Forall_forall _ _) Hth _ Ha). cbn in Hlt. apply serves_neat.
    destruct answer; [by apply neat_forgo, neat_complete|by apply neat_abandon].
Qed.

Lemma sum_nought (f : Books → nat) gs : (∀ t g, gs !! t = Some g → f g = 0%nat) → sum f gs = 0%nat.
Proof.
  induction gs as [|g gs IH]; intros Hf; [done|]. unfold sum in *. cbn [sum_list_with]. rewrite (Hf 0%nat g eq_refl), IH; [done|].
  intros t. apply (Hf (S t)).
Qed.

(** At the start the threads have nothing but the sessions they keep. *)
Definition at_first (th : Thread) : Books := mkBooks 0 0 0 (mkCustody (keeps_session session_link th) None).
Definition one_keeper (ths : list Thread) : Prop :=
  ∀ t t' th th', ths !! t = Some th → ths !! t' = Some th' →
    keeps_session session_link th = true → keeps_session session_link th' = true → t = t'.
Lemma sum_first (f : Books → nat) ths : (∀ th, f (at_first th) = 0%nat) → sum f (at_first <$> ths) = 0%nat.
Proof. intros Hf. induction ths as [|th ths IH]; [done|]. unfold sum in *. cbn [fmap list_fmap sum_list_with]. by rewrite Hf, IH. Qed.
Lemma balanced_start ths s :
  one_keeper ths → active_requests s = Z.of_nat (occupied s) → active_requests s ≤ Z.of_nat max_requests →
  (made s + waiting s ≤ base)%nat → balanced (at_first <$> ths) s.
Proof.
  intros Hone Hu Hl Hc. split; rewrite ?sum_first by done; try lia.
  - intros t g v Hg Hv. by apply list_lookup_fmap_Some in Hg as (th & -> & _).
  - intros t t' g g' Hg Hg'. apply list_lookup_fmap_Some in Hg as (th & -> & Hth), Hg' as (th' & -> & Hth'). by apply (Hone t t' th th').
Qed.

(** The runs of the threads, from a state in which nothing but the places
    holds units. *)
Lemma balanced_run ths sch s progs s' :
  Forall declared_thread ths → one_keeper ths → Forall (λ te, willing te.2) sch →
  active_requests s = Z.of_nat (occupied s) → active_requests s ≤ Z.of_nat max_requests → (made s + waiting s ≤ base)%nat →
  Interleave.run sch (s, thread <$> ths) = (s', progs) →
  ∃ gs, balanced gs s' ∧ length gs = length progs ∧ ∀ t g, gs !! t = Some g → progs !! t = Some (Done tt) → held g = 0%nat.
Proof.
  intros Hths Hone Hsch Hu Hl Hc Hrun.
  assert (Hall : all_safe balanced willing (λ t g (_ : unit), held g = 0%nat) (s', progs)).
  { rewrite <-Hrun. apply all_safe_run; [done|]. exists (at_first <$> ths).
    split; [by apply balanced_start|]. split; [cbn [snd]; by rewrite !length_fmap|].
    intros t p Hp. apply list_lookup_fmap_Some in Hp as (th & -> & Hth). exists (at_first th).
    split; [by rewrite list_lookup_fmap, Hth|].
    eapply safe_mono; [|apply serves_thread; [by eapply list.Forall_lookup_1|done]]. by intros g u [Hg _]. }
  destruct Hall as (gs & HI & Hlen & Hall). exists gs. split; [done|]. split; [done|].
  intros t g Hg Ht. destruct (Hall t (Done tt) Ht) as (g' & Hg' & Hend). by simplify_eq.
Qed.
End Budget.

Section Accounts.
Context `{Config} {P : Platform} {V Rq : Type} `{!Catalog V Rq} `{!InStreams V Rq}.
Local Abbreviation State := (RemoteLinks.State (Runtime V Rq)).

Lemma nobody_keeps (ths : list Thread) : one_keeper (link_count) ths.
Proof.
  assert (Hnone : ∀ th, keeps_session link_count th ≠ true).
  { intros [fuel arrivals|tasks|answers]; [|done..]. intros (x & _ & Hx)%existsb_exists. apply andb_prop in Hx as [Hlt%Nat.ltb_lt Heq%Nat.eqb_eq]. lia. }
  intros t t' th th' _ _ Hk. by destruct (Hnone th).
Qed.

(** C26: sessions, workers and responders run in any interleaving, from a
    state in which the budget counts the requests that are there, as long as
    the execution facility takes all the work it is given (a request whose
    work it refuses may be released twice, and nothing of this is claimed
    then).  The budget never exceeds
    its limit and always covers the requests that wait for a worker or are
    with their responder; when all are done it counts exactly these, so no
    unit is lost. *)
Theorem requests_accounted (Hin : ∀ link, InStreamsApart link) (ths : list Thread) sch (s s' : State) progs :
  Z.of_nat max_requests < 2 ^ 32 → Forall declared_thread ths → Forall (λ te, willing te.2) sch →
  active_requests s = Z.of_nat (occupied s) → active_requests s ≤ Z.of_nat max_requests →
  Interleave.run sch (s, thread <$> ths) = (s', progs) →
  Z.of_nat (occupied s') ≤ active_requests s' ≤ Z.of_nat max_requests
  ∧ (progs = Done <$> replicate (length ths) tt → active_requests s' = Z.of_nat (occupied s')).
Proof.
  intros Hmax Hths Hsch Hu Hl Hrun.
  destruct (balanced_run link_count 0 (made link_count 0 s + waiting link_count 0 s) Hmax ths sch s progs s')
    as (gs & HI & Hlen & Hends); [done|apply nobody_keeps|done..|].
  destruct HI as [B1 B2 _ _ _ _]. split; [lia|]. intros ->. rewrite length_fmap, length_replicate in Hlen.
  assert (Hheld : sum held gs = 0%nat); [|lia]. apply sum_nought. intros t g Hg. apply (Hends t g Hg).
  rewrite list_lookup_fmap, lookup_replicate_2; [done|]. rewrite <-Hlen. by eapply lookup_lt_Some.
Qed.

End Accounts.
End Budget.
