(* ===== verification/RemoteRequestsExamples.v ===== *)
(** * RemoteRequestsExamples: requests at concrete inputs

    One link, a budget of two, an action for a worker, an action with a
    responder, and a datum with a query and an update; the witness of the
    theorem on the budget, and the paths on which units of the budget or
    reserved responses are lost. *)
From stdpp Require Import prelude functions.
From S2P Require Import Prelude Status Wire Protocol Cobs Frame Interleave RemoteLink RemoteService RemoteRuntime RemotePublish.
From S2P Require Import RemoteRing RemoteRequests RemoteRequestsProps.
Import RemoteLinks RemoteServices Runtimes Publications Rings Requests Budget.

Open Scope Z_scope.
Open Scope solar_scope.

Module RequestExamples.

#[export] Instance small : Config := {|
  frame_bytes := 64; message_bytes := 96; lane_depth := 4; message_slots := 2; response_bytes := 32;
  max_requests := 2; reassembly_slots := 2; reassembly_timeout := 100; max_endpoints := 3; link_count := 1;
  link_grants := λ _, 7; runtime_introspection := true; manifest_retrieval := true; inspection_remote := true;
  event_depth := 16 |}.
#[export] Instance host : Platform := host_platform (Some 64%nat).

(** Requests and values are bytes.  Action 0 runs in a worker and answers its
    request; action 1 has a responder; the codec of action 2 has no room.  The
    execution facility takes work when the clock is not 13. *)
#[export] Instance catalog : Catalog Z Z := {|
  data_count := 1; topic_count := 0; action_count := 3; data_id _ := 7; topic_id _ := 9; action_id a := Z.of_nat a + 20;
  push_policy _ := None; loaned_policy _ := None; has_poll _ := false; watch_policy _ := None;
  topic_policy _ := mkQueuePolicy 1 Reject; declared_rate _ := 0; has_query _ := true; has_update _ := true;
  inline_data _ := false; inline_action a := (a =? 1)%nat; asynchronous a := (a =? 1)%nat; action_permissions _ := 1;
  data_codec _ := 1; topic_codec _ := 1; max_encoded_size _ := 1%nat; encode_value _ v _ := Ok [v];
  decode_value _ bytes := hd_error bytes; decode_request _ bytes := hd_error bytes;
  act a r _ := Responds (if (a =? 2)%nat then Err (Remote.error SNoSpace Remote.NoCapacity Remote.Encode) else Ok [r]);
  read _ _ := Responds (Ok [42]); write _ v _ := if v =? 0 then FailsWith (Ok [1]) else Responds (Ok []);
  accepts_work _ env := negb (now env =? 13); max_stream_rate := 1000; us_to_ticks t := t |}.
#[export] Instance no_in_streams : InStreams Z Z := {|
  process_in_stream_subscription_target _ _ _ := Done false; dispatch_in_stream _ _ := Done false; reset_in_streams _ _ := Done tt |}.
Lemma no_in_streams_apart i : InStreamsApart i.
Proof. by split. Qed.

Definition no_loans : LoanState := mkLoanState [] [] false 0 0 0 0 0.
Definition fresh_runtime : Runtime Z Z :=
  mkRuntime (λ _, new_ring 1) (λ _, no_loans) (λ _, mkPending None default_envelope 0) (λ _, mkAsynchronous false default_envelope 0)
    (λ _, mkPending None default_envelope 0) (λ _, mkPending None default_envelope 0) [] (λ _, new_in_stream 0) 1 [] (λ _, new_poll).
Definition link : LinkState :=
  initial_link <| connected := true |> <| session := Active |> <| epoch := 1 |> <| grants := 7 |>.
Definition start : State (Runtime Z Z) := mkState true true 0 true (λ _, link) [] true 0 0 0 [] fresh_runtime.
Definition at_time (t : Z) : Env := mkEnv t 0 (λ _, Some TxAccepted) (λ _ _, None) (λ _, None) false SWouldBlock.
Definition env : Env := at_time 5.

Definition message (k operation request target : Z) (bytes : list Z) : Decoded :=
  mkDecoded (mkEnvelope major_version minor_version k 0 1 0 target request 0 0 0 1 operation) bytes.
Definition request (operation request target : Z) (bytes : list Z) : nat * Arrival :=
  (0%nat, Frame (message Kind_Request operation request target bytes)).
Definition token (r : Z) : ResponderToken := mkToken 0 r 1.

(** ** A session, a worker and a responder *)
Definition acknowledge (r : Z) : nat * Arrival := (0%nat, Frame (message Kind_ResponseAck 0 r 0 [])).
Definition threads : list Thread :=
  [Session 4 [request Operation_Action 1 20 [5]; request Operation_Action 2 21 [6]; acknowledge 1;
              request Operation_Update 3 7 [9]; request Operation_Update 3 7 [9]; acknowledge 2; request Operation_Query 4 7 []; acknowledge 3;
              request Operation_Update 5 7 [8]; request Operation_Update 6 7 [8]];
   Worker [(20, true); (7, false)];
   Responder [(1%nat, token 2, Some (Responds (Ok [3]))); (1%nat, token 3, None)]].
Definition turns : list (nat * Env) :=
  map (λ t, (t, env)) (replicate 18 0 ++ replicate 10 1 ++ replicate 14 2 ++ concat (replicate 11 [0; 0; 2]) ++ concat (replicate 40 [0; 1]))%nat.
Definition outcome := Interleave.run turns (start, thread <$> threads).
Definition calls_of (x : State (Runtime Z Z)) := calls (application x).

(** The update of request 3 arrives twice and is written once; at the end an
    update still waits. *)
Lemma crossed : outcome.2 = Done <$> replicate 3 tt.
Proof. vm_compute. reflexivity. Qed.
Lemma ran : Interleave.run turns (start, thread <$> threads) = (outcome.1, Done <$> replicate 3 tt).
Proof. rewrite <-crossed. unfold outcome. apply surjective_pairing. Qed.
Lemma all_declared : Forall declared_thread threads.
Proof. repeat constructor. Qed.
Lemma all_willing : Forall (λ te, willing te.2) turns.
Proof. apply list.Forall_forall. intros [t e] Ht. apply list_elem_of_fmap in Ht as (t' & [= -> ->] & _). by intros w. Qed.

Lemma requests_accounted_witness :
  active_requests outcome.1 = 1
  ∧ Z.of_nat (occupied outcome.1) ≤ active_requests outcome.1 ≤ 2
  ∧ active_requests outcome.1 = Z.of_nat (occupied outcome.1).
Proof.
  split; [vm_compute; reflexivity|].
  destruct (requests_accounted no_in_streams_apart threads turns start outcome.1 (Done <$> replicate 3 tt)) as [Hall Hend].
  - vm_compute. reflexivity.
  - exact all_declared.
  - exact all_willing.
  - vm_compute. reflexivity.
  - vm_compute. discriminate.
  - exact ran.
  - split; [exact Hall|]. exact (Hend eq_refl).
Defined.

(** ** A refused submission *)

(** The request is in its place when a worker, woken for an earlier one, takes
    it, answers it and gives its unit back; then the facility refuses the work
    (at time 13) and the unit is given back once more.  From then on the
    budget counts 2^32 - 1 requests, and every request is denied. *)
Definition refused_while_taken : list (nat * Env) :=
  map (λ t, (t, env)) (replicate 7 0 ++ replicate 14 1)%nat ++ replicate 10 (0%nat, at_time 13).
Example refused_twice_released :
  let s' := (Interleave.run refused_while_taken
    (start, thread <$> [Session 4 [request Operation_Action 1 20 [5]]; Worker [(20, true)]])) in
  s'.2 = [Done tt; Done tt] ∧ calls (application s'.1) = [CallAction 0 5 (token 1)]
  ∧ occupied s'.1 = 0%nat ∧ active_requests s'.1 = 2 ^ 32 - 1
  ∧ match alone env (acquire 4) s'.1 with Some (acquired, _) => acquired = false | None => False end.
Proof. vm_compute. auto 10. Qed.

(** ** Responses that stay reserved *)

(** An answer that cannot be encoded is replaced by an error, which leaves the
    response reserved: no acknowledgement and no cancellation gives it back,
    and after as many of them as there are responses no request that needs one
    is served, though the budget is free. *)
Definition until_reserved : list Thread :=
  [Session 4 [request Operation_Action 1 22 [5]]; Worker [(22, true)];
   Session 4 [request Operation_Action 2 22 [5]]; Worker [(22, true)];
   Session 4 ([acknowledge 1; acknowledge 2] ++ map (λ r, (0%nat, Frame (message Kind_Cancel 0 r 22 []))) [1; 2]);
   Session 4 [request Operation_Query 3 7 []]].
Fixpoint in_turn (ths : list Thread) (s : State (Runtime Z Z)) : option (State (Runtime Z Z)) :=
  match ths with
  | [] => Some s
  | th :: ths => match alone env (thread th) s with Some (_, s) => in_turn ths s | None => None end
  end.
Example failed_answers_keep_responses :
  match in_turn until_reserved start with
  | Some s =>
    active_requests s = 0 ∧ occupied s = 0%nat
    ∧ map (λ r, (rs_request r, rs_reserved r, rs_valid r)) (responses (links s 0)) = [(1, true, false); (2, true, false)]
    ∧ calls (application s) = [CallAction 2 5 (token 1); CallAction 2 5 (token 2)]
    ∧ (reserve_response 4 7 (links s 0)).1 = false
  | None => False
  end.
Proof. vm_compute. auto 10. Qed.

(** An action with a responder that is at work answers [Busy] to the next
    request, and keeps its response as well. *)
Example busy_keeps_response :
  match in_turn [Session 4 [request Operation_Action 1 21 [5]; request Operation_Action 2 21 [6]];
                 Responder [(1%nat, token 1, Some (Responds (Ok [3])))]; Session 4 [acknowledge 1; acknowledge 2]] start with
  | Some s =>
    active_requests s = 0
    ∧ map (λ r, (rs_request r, rs_reserved r, rs_valid r)) (responses (links s 0)) = [(0, false, false); (2, true, false)]
  | None => False
  end.
Proof. vm_compute. auto. Qed.

(** ** An answer larger than a response *)
Definition verbose : list Z := repeat 1 33.
Example long_answer_unsent :
  match alone env (execute_query_request 4 0 0 (message Kind_Request Operation_Query 1 7 [])) start with
  | Some (_, s) =>
    match alone env (send_data_answer 0 (envelope (message Kind_Request Operation_Query 1 7 [])) (Responds (Ok verbose))) s with
    | Some (_, s) => map (λ r, (rs_request r, rs_reserved r, rs_valid r)) (responses (links s 0)) = [(1, true, false); (0, false, false)]
        ∧ events s = []
    | None => False
    end
  | None => False
  end.
Proof. vm_compute. auto. Qed.
End RequestExamples.
