(* ===== verification/RemoteInStreams.v ===== *)
(** * RemoteInStreams: in-streams and polled streams

    Models the in-streams of [include/solar/remote/runtime.hpp]: their windows
    of values that wait for a consumer, the credits a link has, the admission
    of frames, the consumers, the callbacks that open and close a stream, and
    exclusive groups; and the release of polled streams.  What the
    declarations say is the interface [StreamCatalog].  [in_streams_of] is
    the implementation of the interface [InStreams] of RemoteRequests. *)
From stdpp Require Import prelude functions.
From S2P Require Import Prelude Status Wire Protocol Frame Interleave RemoteLink RemoteService RemoteRuntime RemotePublish RemoteRequests.
Import RemoteLinks RemoteServices Runtimes Publications Requests.

Open Scope Z_scope.
Open Scope solar_scope.

Module InboundStreams.

(** [InStreamTraits] and what it names. *)
Class StreamCatalog (V : Type) := {
  in_stream_window : nat → option nat;                (* [None]: the datum has no in-stream *)
  in_stream_inline : nat → bool;
  in_stream_interval : nat → Z;                       (* in microseconds *)
  in_stream_exclusive : nat → option (nat * bool);    (* the group, and whether it is [RejectExisting] *)
  open_hooks : nat → bool;
  close_hooks : nat → bool;
  decode_in_stream : nat → list Z → option V;
  consume : nat → V → Env → bool;
  open_hook : nat → InStreamOpenContext → Env → bool;
  acquire_poll_value : nat → Env → result Status V }.


(** ** Sections of the state of an in-stream *)
Section State.
Context {V : Type}.
Implicit Types (st : InStreamState V) (i : nat).

Definition window_of (window i : nat) (slots : list (InboundSlot V)) : list (InboundSlot V) := firstn window (drop (i * window) slots).
Definition is_pending (slot : InboundSlot V) : bool := bool_decide (i_state slot = IPending).
Definition is_unused (slot : InboundSlot V) : bool := bool_decide (i_state slot = IFree).
Definition on_link i (f : StreamLink → StreamLink) st : InStreamState V := st <| st_links ::= alter f i |>.

Definition stream_token i st : option Z := let l := st_links st i in if sl_active l then Some (sl_token l) else None.
Definition is_current i (token generation : Z) st : bool :=
  let l := st_links st i in sl_active l && (sl_token l =? token) && (sl_generation l =? generation).

(** The loop over the window of a link in [close_in_stream_link]. *)
Definition discard_pending (window i : nat) (slots : list (InboundSlot V)) : list (InboundSlot V) :=
  firstn (i * window) slots
  ++ ((λ slot, if is_pending slot then empty_slot else slot) <$> window_of window i slots)
  ++ drop window (drop (i * window) slots).
Definition close_section (links window i : nat) st : option Z * InStreamState V :=
  if (links <=? i)%nat || negb (sl_active (st_links st i)) then (None, st) else
  (Some (sl_token (st_links st i)),
   on_link i (λ l, l <| sl_active := false |> <| sl_token := 0 |> <| sl_credits := 0 |> <| sl_last_sequence := 0 |>
                     <| sl_last_admitted := 0 |> <| sl_generation ::= inc32 |>) st
     <| st_slots ::= discard_pending window i |>).

(** The loop counts the slots that are free. *)
Definition free_slots (window i : nat) (slots : list (InboundSlot V)) : nat :=
  sum_list_with (λ slot, if is_unused slot then 1 else 0)%nat (window_of window i slots).
Definition open_section (links window i : nat) (token interval : Z) st : bool * InStreamState V :=
  if (links <=? i)%nat then (false, st) else
  (true, on_link i (λ l, mkStreamLink true token (inc32 (sl_generation l)) (u16 (Z.of_nat (free_slots window i (st_slots st)))) 0 0 interval) st).

(** What the section of [execute_in_stream_frame] decides. *)
Inductive Admission : Set := Frame_admitted (generation : Z) | Token_violation | Credit_violation | Sequence_violation | Rate_violation (generation : Z).
Definition reject_frame st : InStreamState V := st <| st_rejected ::= inc32 |>.
Definition admit_frame (us_to_ticks : Z → Z) (window i : nat) (time : Z) (v : V) (e : Envelope) st : Admission * InStreamState V :=
  let l := st_links st i in
  let interval := us_to_ticks (sl_minimum_interval_us l) in
  if negb (sl_active l) || (request_id e =? 0) || negb (sl_token l =? request_id e) then (Token_violation, reject_frame st) else
  if sl_credits l =? 0 then (Credit_violation, reject_frame st) else
  if frame_sequence e <=? sl_last_sequence l then (Sequence_violation, reject_frame st) else
  if negb (sl_last_admitted l =? 0) && negb (interval =? 0) && (time - sl_last_admitted l <? interval)
  then (Rate_violation (sl_generation l), reject_frame st) else
  match find_if is_unused (window_of window i (st_slots st)) with
  | None => (Credit_violation, reject_frame st)
  | Some k =>
    (Frame_admitted (sl_generation l),
     on_link i (λ l, l <| sl_credits ::= (λ n, u16 (n - 1)) |> <| sl_last_sequence := frame_sequence e |> <| sl_last_admitted := time |>) st
       <| st_slots ::= <[(i * window + k)%nat := mkInboundSlot (Some v) e (request_id e) (sl_generation l) IPending]> |>
       <| st_admitted ::= inc32 |>)
  end.

(** The frame that was admitted leaves its window again, unless its consumer
    has begun. *)
Definition withdraw_frame (window i : nat) (sequence : Z) st : unit * InStreamState V :=
  match find_if (λ slot, is_pending slot && (frame_sequence (i_envelope slot) =? sequence)) (window_of window i (st_slots st)) with
  | None => (tt, st)
  | Some k => (tt, st <| st_slots ::= <[(i * window + k)%nat := empty_slot]> |>)
  end.

(** The next value for the consumer: its slot, link, token and generation. *)
Definition begin_consume (window : nat) st : option (nat * nat * Z * Z * option V) * InStreamState V :=
  match find_if is_pending (st_slots st) with
  | None => (None, st)
  | Some k =>
    match st_slots st !! k with
    | None => (None, st)
    | Some slot =>
      (Some (k, (k / window)%nat, i_token slot, i_generation slot, i_value slot),
       st <| st_slots ::= <[k := slot <| i_value := None |> <| i_state := IRunning |>]> |>)
    end
  end.
Definition still_current (k i : nat) (token generation : Z) st : bool :=
  is_current i token generation st
  && match st_slots st !! k with Some slot => bool_decide (i_state slot = IRunning) | None => false end.
Definition end_consume (k : nat) (current consumed : bool) st : unit * InStreamState V :=
  let st := st <| st_slots ::= <[k := empty_slot]> |> in
  let st := if current then st <| st_completed ::= inc32 |> else st <| st_rejected ::= inc32 |> in
  (tt, if current && negb consumed then st <| st_consumer_failures ::= inc32 |> else st).
Definition take_back_credit i (token generation : Z) st : bool * InStreamState V :=
  if is_current i token generation st then (true, on_link i (λ l, l <| sl_credits ::= (λ n, u16 (n + 1)) |>) st) else (false, st).

(** The callbacks run in the thread of the consumer. *)
Definition ask (operation : InStreamLifecycleOperation) (opening : option InStreamOpenContext)
    (closing : option InStreamCloseContext) st : bool * InStreamState V :=
  if bool_decide (st_operation st = NoOperation) then
    (true, st <| st_open_context ::= (λ c, default c opening) |> <| st_close_context ::= (λ c, default c closing) |>
             <| st_operation := operation |>)
  else (false, st).
Definition withdraw_operation st : unit * InStreamState V := (tt, st <| st_operation := NoOperation |>).
Definition take_operation st :
    option (InStreamLifecycleOperation * InStreamOpenContext * InStreamCloseContext) * InStreamState V :=
  if bool_decide (st_operation st = NoOperation) then (None, st)
  else (Some (st_operation st, st_open_context st, st_close_context st), st <| st_operation := NoOperation |>).
Definition set_done (value : bool) st : unit * InStreamState V := (tt, st <| st_lifecycle_done := value |>).
Definition take_done st : bool * InStreamState V := (st_lifecycle_done st, st <| st_lifecycle_done := false |>).
End State.

Section InStreams.
Context `{Config} {P : Platform} {V Rq : Type} `{!Catalog V Rq} `{!StreamCatalog V}.
Local Abbreviation State := (RemoteLinks.State (Runtime V Rq)).
Local Abbreviation Program := (RemoteLinks.Program (Runtime V Rq)).
Implicit Types (i d : nat) (fuel : nat) (token generation reason : Z).
Open Scope prog_scope.

(** A section of the lock of a stream. *)
Definition on_stream {B} d (f : InStreamState V → B * InStreamState V) (_ : Env) (s : State) : B * State :=
  let '(b, st) := f (in_streams (application s) d) in
  (b, set_application (λ r, r <| in_streams ::= <[d := st]> |>) s).
Definition look_stream {B} d (f : InStreamState V → B) : Env → State → B * State := get (λ _ s, f (in_streams (application s) d)).
Definition call_stream {B} (c : StreamCall V) (answer : Env → B) (env : Env) (s : State) : B * State :=
  (answer env, set_application (λ r, r <| stream_calls ::= (λ l, l ++ [c]) |>) s).
(** [submit_registration] of the work of a stream. *)
Definition submit_work (w : Work) : Env → State → bool * State := get (λ env _, accepts_work w env).

Definition fetch_token (_ : Env) (s : State) : Z * State :=
  (next_token (application s), set_application (λ r, r <| next_token ::= inc32 |>) s).
Definition next_in_stream_token : Program Z := token ← fetch_token; if token =? 0 then again ← fetch_token; Done again else Done token.

(** ** Credits *)
Definition grant_credit i d token (credits : Z) (window : nat) (correlation : Z) : Program unit :=
  encoded (encode_credit_grant (mkCreditGrant token credits (u16 (Z.of_nat window))))
    (λ bytes, _ ⇇ transmit i Kind_Credit bytes correlation (data_id d) Flags_None Operation_InStream; Done tt).
Definition send_in_stream_credit i d (window : nat) (credits correlation : Z) : Program unit :=
  if credits =? 0 then Done tt else
  token ← look_stream d (stream_token i);
  match token with None => Done tt | Some token => grant_credit i d token credits window correlation end.
Definition restore_in_stream_credit i d (window : nat) token generation : Program unit :=
  current ← look_stream d (is_current i token generation);
  if current : bool then grant_credit i d token 1 window 0 else Done tt.
Definition return_in_stream_credit i d (window : nat) token generation : Program unit :=
  active ← is_active i;
  if negb active then Done tt else
  returned ← on_stream d (take_back_credit i token generation);
  if returned : bool then send_in_stream_credit i d window 1 0 else Done tt.

(** ** Callbacks *)

(** [take] of the semaphore, which waits without a limit. *)
Fixpoint wait_done fuel d : Program unit :=
  match fuel with
  | O => Stalled
  | S fuel => done ← on_stream d take_done; if done : bool then Done tt else wait_done fuel d
  end.
Definition execute_in_stream_open_lifecycle fuel d (c : InStreamOpenContext) : Program bool :=
  if negb (open_hooks d) then Done true else
  if in_stream_inline d then opened ← call_stream (OpenStream d c) (open_hook d c); Done opened else
  _ ← on_stream d (set_done false);
  asked ← on_stream d (ask OpenOperation (Some c) None);
  if negb asked then Done false else
  submitted ← submit_work (StreamWork d);
  if negb submitted then _ ← on_stream d withdraw_operation; Done false else
  _ ⇇ wait_done fuel d;
  result ← look_stream d st_lifecycle_result; Done result.
Definition execute_in_stream_close_lifecycle fuel d (c : InStreamCloseContext) : Program unit :=
  if negb (close_hooks d) then Done tt else
  if in_stream_inline d then _ ← call_stream (CloseStream d c) (λ _, tt); Done tt else
  _ ← on_stream d (set_done false);
  asked ← on_stream d (ask CloseOperation None (Some c));
  if negb asked then Done tt else
  submitted ← submit_work (StreamWork d);
  if negb submitted then _ ← on_stream d withdraw_operation; Done tt else wait_done fuel d.
Definition run_in_stream_lifecycle d : Program bool :=
  match in_stream_window d with
  | None => Done false
  | Some _ =>
    taken ← on_stream d take_operation;
    match taken with
    | None => Done false
    | Some (operation, opening, closing) =>
      result ⇇ (if bool_decide (operation = OpenOperation)
                then if open_hooks d then opened ← call_stream (OpenStream d opening) (open_hook d opening); Done opened else Done true
                else if close_hooks d then _ ← call_stream (CloseStream d closing) (λ _, tt); Done true else Done true);
      _ ← on_stream d (λ st, (tt, st <| st_lifecycle_result := result |>));
      _ ← on_stream d (set_done true);
      Done true
    end
  end.

(** ** Closing *)
Definition send_in_stream_closed i d token reason : Program unit :=
  encoded (encode_in_stream_closed (mkInStreamClosed token reason))
    (λ bytes, _ ⇇ transmit i Kind_InStreamClosed bytes 0 (data_id d) Flags_None Operation_InStream; Done tt).
Definition close_in_stream_link fuel d i reason (notify : bool) : Program Z :=
  match in_stream_window d with
  | None => Done 0
  | Some window =>
    closed ← on_stream d (close_section link_count window i);
    match closed with
    | None => Done 0
    | Some token =>
      _ ⇇ execute_in_stream_close_lifecycle fuel d (mkCloseContext (data_id d) i token reason);
      _ ⇇ (if notify then send_in_stream_closed i d token reason else Done tt);
      Done token
    end
  end.
Definition reset_in_stream_links fuel i reason : Program unit :=
  for_endpoints data_count 0 (λ d, forgo (close_in_stream_link fuel d i reason false)).

(** ** Consumers *)
Fixpoint run_pending_in_stream fuel d (window : nat) (ran : bool) : Program bool :=
  match fuel with
  | O => Stalled
  | S fuel =>
    taken ← on_stream d (begin_consume window);
    match taken with
    | None => Done ran
    | Some (k, i, token, generation, v) =>
      current ← look_stream d (still_current k i token generation);
      consumed ⇇ match v with
                 | Some v => if current : bool then consumed ← call_stream (ConsumeValue d i token v) (consume d v); Done consumed
                             else Done true
                 | None => if current : bool then Stalled else Done true
                 end;
      _ ← on_stream d (end_consume k current consumed);
      _ ⇇ (if (i <? link_count)%nat then return_in_stream_credit i d window token generation else Done tt);
      run_pending_in_stream fuel d window true
    end
  end.
Definition process_in_stream_work fuel (target : Z) : Program (result Status unit) :=
  found ⇇ work_on data_count 0 data_id target
    (λ d, _ ⇇ run_in_stream_lifecycle d;
          _ ⇇ match in_stream_window d with None => Done false | Some window => run_pending_in_stream fuel d window false end;
          forgo (run_in_stream_lifecycle d)) false;
  Done (if found then Ok tt else Err SNotFound).

(** ** The frames of a stream *)
Definition rejection (decision : Admission) : ErrorCode :=
  match decision with
  | Rate_violation _ => RateRejected
  | Sequence_violation | Token_violation => RequestExpired
  | _ => CreditViolation
  end.
Definition execute_in_stream_frame fuel d i (m : Decoded) : Program unit :=
  let e := envelope m in
  allowed ← read_link i (granted permission_control);
  if negb allowed then protocol_error i 0 (target e) Unauthorized else
  match in_stream_window d with
  | None => _ ⇇ forget i e; protocol_error i 0 (target e) UnsupportedOperation
  | Some window =>
    match decode_in_stream d (payload m) with
    | None => protocol_error i 0 (target e) DecodeFailure
    | Some v =>
      time ← get (λ env _, now env);
      decision ← on_stream d (admit_frame us_to_ticks window i time v e);
      match decision with
      | Frame_admitted generation =>
        if in_stream_inline d then forgo (run_pending_in_stream fuel d window false) else
        submitted ← submit_work (StreamWork d);
        if submitted : bool then Done tt else
        _ ← on_stream d (withdraw_frame window i (frame_sequence e));
        _ ⇇ return_in_stream_credit i d window (request_id e) generation;
        protocol_error i 0 (target e) Protocol.Busy
      | Rate_violation generation =>
        _ ⇇ restore_in_stream_credit i d window (request_id e) generation;
        protocol_error i 0 (target e) (rejection decision)
      | decision => protocol_error i 0 (target e) (rejection decision)
      end
    end
  end.

(** ** Opening *)
Definition in_stream_is_active d : Program bool :=
  match in_stream_window d with
  | None => Done false
  | Some _ => active ← look_stream d (λ st, existsb (λ i, sl_active (st_links st i)) (seq 0 link_count)); Done active
  end.
Definition in_group (group d : nat) : bool :=
  match in_stream_window d, in_stream_exclusive d with Some _, Some (g, _) => (g =? group)%nat | _, _ => false end.
Definition in_stream_group_is_active (group : nat) : Program bool :=
  first_true data_count 0 (λ d, if in_group group d then in_stream_is_active d else Done false).
Definition close_in_stream_group fuel (group : nat) : Program unit :=
  for_endpoints data_count 0 (λ d,
    if in_group group d then for_endpoints link_count 0 (λ i, forgo (close_in_stream_link fuel d i CloseReason_Replaced true)) else Done tt).
(** Whether the streams that exclude this one make room for it. *)
Definition make_room fuel d i : Program bool :=
  match in_stream_exclusive d with
  | Some (group, true) => taken ⇇ in_stream_group_is_active group; Done (negb taken)
  | Some (group, false) => _ ⇇ close_in_stream_group fuel group; Done true
  | None => _ ⇇ close_in_stream_link fuel d i CloseReason_Replaced true; Done true
  end.
Definition open_in_stream fuel d i (window : nat) (request : SubscriptionRequest) : Program (result ErrorCode InStreamOpenResponse) :=
  if negb (sr_flags request =? 0) || (1 <? sr_batch_size request)
     || (negb (sr_codec request =? 0) && negb (sr_codec request =? data_codec d))
  then Done (Err UnsupportedCapability) else
  room ⇇ make_room fuel d i;
  if negb room then Done (Err Protocol.Busy) else
  token ⇇ next_in_stream_token;
  let interval := Z.max (sr_minimum_interval_us request) (in_stream_interval d) in
  opened ← on_stream d (open_section link_count window i token interval);
  if negb opened then Done (Err InternalFailure) else
  accepted ⇇ execute_in_stream_open_lifecycle fuel d
               (mkOpenContext (data_id d) i token interval (u16 (Z.of_nat window)));
  if negb accepted then
    _ ⇇ close_in_stream_link fuel d i CloseReason_ConfigurationFailed true; Done (Err InternalFailure)
  else Done (Ok (mkInStreamOpenResponse (mkSubscriptionPolicy interval 1 (data_codec d) 0) token)).

Definition open_requested fuel d i (window : nat) e (bytes : list Z) : Program unit :=
  match asked true bytes with
  | None => Stalled
  | Some (Err _) => refuse i e DecodeFailure
  | Some (Ok request) =>
    opened ⇇ open_in_stream fuel d i window request;
    match opened with
    | Err code => refuse i e code
    | Ok response =>
      match encode_in_stream_open_response response with
      | None => Stalled
      | Some payload =>
        sent ⇇ respond i (request_id e) (target e) payload false;
        match sent with
        | Err _ => _ ⇇ close_in_stream_link fuel d i CloseReason_Fault true; refuse i e InternalFailure
        | Ok _ =>
          _ ⇇ stage_response i;
          credits ← look_stream d (λ st, sl_credits (st_links st i));
          send_in_stream_credit i d window credits (request_id e)
        end
      end
    end
  end.
Definition close_requested fuel d i e (bytes : list Z) : Program unit :=
  match decode_in_stream_close_request bytes with
  | None => Stalled
  | Some (Err _) => refuse i e DecodeFailure
  | Some (Ok request) =>
    current ← look_stream d (stream_token i);
    if bool_decide (current = Some (cr_token request)) then
      _ ⇇ close_in_stream_link fuel d i CloseReason_Closed false;
      _ ⇇ respond i (request_id e) (target e) [] false; Done tt
    else refuse i e RequestExpired
  end.
Definition process_in_stream_subscription_for fuel d i (m : Decoded) (enable : bool) : Program unit :=
  match in_stream_window d with
  | None => deny i (envelope m) UnsupportedOperation
  | Some window =>
    if enable then open_requested fuel d i window (envelope m) (payload m) else close_requested fuel d i (envelope m) (payload m)
  end.

Definition in_streams_of (fuel : nat) : InStreams V Rq := {|
  process_in_stream_subscription_target i m enable :=
    dispatch_to data_count 0 data_id (target (envelope m)) (λ d, process_in_stream_subscription_for fuel d i m enable);
  dispatch_in_stream i m := dispatch_to data_count 0 data_id (target (envelope m)) (λ d, execute_in_stream_frame fuel d i m);
  reset_in_streams i reason := reset_in_stream_links fuel i reason |}.
Definition initialize_in_stream_runtime : Program unit :=
  for_endpoints data_count 0 (λ d,
    match in_stream_window d with None => Done tt | Some _ => _ ← on_stream d (set_done false); Done tt end).

(** ** Polled streams *)
Definition on_poll {B} d (f : PollState → B * PollState) (_ : Env) (s : State) : B * State :=
  let '(b, p) := f (polls (application s) d) in (b, set_application (λ r, r <| polls ::= <[d := p]> |>) s).
Definition execute_poll d : Program (result Status unit) :=
  value ← get (λ env _, acquire_poll_value d env);
  _ ⇇ match value with
      | Ok v => publish_value (Push d) v
      | Err _ => _ ← on_poll d (λ p, (tt, p <| pl_failures ::= inc32 |>)); Done tt
      end;
  _ ← on_poll d (λ p, (tt, p <| pl_in_flight := false |>));
  Done (match value with Ok _ => Ok tt | Err status => Err status end).
(** The first polled datum with the target. *)
Fixpoint poll_work (n d : nat) (target : Z) : Program (result Status unit) :=
  match n with
  | O => Done (Err SNotFound)
  | S n => if has_poll d && (target =? data_id d) then execute_poll d else poll_work n (S d) target
  end.
Definition process_poll_work (target : Z) : Program (result Status unit) := poll_work data_count 0 target.

(** The shortest interval of the links that are subscribed and active. *)
Definition poll_interval d (l : LinkState) : option Z * LinkState :=
  (match subscriptions l !! d with
   | Some subscription =>
     if ss_active subscription && bool_decide (session l = Active) then Some (ss_minimum_interval_us subscription) else None
   | None => None
   end, l).
Fixpoint effective_poll_interval (n i d : nat) (interval : option Z) : Program (option Z) :=
  match n with
  | O => Done interval
  | S n =>
    own ⇇ section i (total (poll_interval d));
    effective_poll_interval n (S i) d
      (match own, interval with
       | Some own, Some interval => Some (Z.min interval own)
       | Some own, None => Some own
       | None, interval => interval
       end)
  end.
Definition plan_poll (time interval : Z) (p : PollState) : bool * PollState :=
  let p := if pl_next_release p =? 0 then p <| pl_next_release := time |> else p in
  if pl_next_release p <=? time then (true, p <| pl_next_release := time + interval |>) else (false, p).
Definition claim_poll (p : PollState) : bool * PollState := (pl_in_flight p, p <| pl_in_flight := true |>).
Definition process_poll_release d (maintenance : Z) : Program Z :=
  if negb (has_poll d) then Done maintenance else
  interval_us ⇇ effective_poll_interval link_count 0 d None;
  match interval_us with
  | None => _ ← on_poll d (λ p, (tt, p <| pl_next_release := 0 |>)); Done maintenance
  | Some interval_us =>
    time ← get (λ env _, now env);
    due ← on_poll d (plan_poll time (us_to_ticks interval_us));
    _ ⇇ (if negb due then Done tt else
         busy ← on_poll d claim_poll;
         if busy : bool then _ ← on_poll d (λ p, (tt, p <| pl_skipped ::= inc32 |>)); Done tt else
         submitted ← submit_work (PollWork d);
         if submitted : bool then _ ← on_poll d (λ p, (tt, p <| pl_releases ::= inc32 |>)); Done tt
         else _ ← on_poll d (λ p, (tt, p <| pl_in_flight := false |> <| pl_failures ::= inc32 |>)); Done tt);
    next ← on_poll d (λ p, (pl_next_release p, p));
    Done (Z.max 1 (next - time))
  end.
Fixpoint poll_releases (n d : nat) (maintenance next : Z) : Program Z :=
  match n with
  | O => Done next
  | S n => own ⇇ process_poll_release d maintenance; poll_releases n (S d) maintenance (Z.min next own)
  end.
(** 50 milliseconds between releases at most. *)
Definition process_poll_releases : Program Z := poll_releases data_count 0 (us_to_ticks 50000) (us_to_ticks 50000).
End InStreams.
End InboundStreams.
