(* ===== verification/RemoteInStreamsProps.v ===== *)
(** * RemoteInStreamsProps: the credits of an in-stream

    The in-streams leave the requests alone, as RemoteRequests asks of the
    interface [InStreams]; and the credits of a link never exceed what its
    window can hold, so a frame within its credit finds a slot, under every
    interleaving of frames, ends of sessions and consumers. *)
From stdpp Require Import prelude functions.
From S2P Require Import Prelude Status Wire Protocol Frame Interleave RemoteLink RemoteService RemoteRuntime RemotePublish.
From S2P Require Import RemoteRequests RemoteRequestsProps RemoteInStreams.
Import RemoteLinks RemoteServices Runtimes Publications Requests Budget InboundStreams.

Open Scope Z_scope.
Open Scope solar_scope.
Open Scope prog_scope.

Module StreamCredits.

(** ** Steps that a relation allows *)
Section Around.
Context `{Config} {P : Platform} {V Rq : Type} `{!Catalog V Rq} `{!StreamCatalog V}.
Local Abbreviation State := (RemoteLinks.State (Runtime V Rq)).
Local Abbreviation Program := (RemoteLinks.Program (Runtime V Rq)).
Implicit Types (s : State) (i d : nat).

(** The sections that leave the window and the numbers of a stream alone. *)
Definition quiet {B} (f : InStreamState V → B * InStreamState V) : Prop :=
  ∀ st, st_slots (f st).2 = st_slots st ∧ st_links (f st).2 = st_links st.

(** What the relation allows: the steps of the service, the quiet sections of
    all streams, and every section of the streams in [others]. *)
Record allows (R : State → State → Prop) (others : nat → Prop) : Prop := {
  al_same : ∀ s, R s s;
  al_links : ∀ B i (f : LinkState → option (B * LinkState)) s b l,
    keeps f → f (links s i) = Some (b, l) → R s (s <| links ::= <[i := l]> |>);
  al_events : ∀ s f, R s (s <| events ::= f |>);
  al_water : ∀ s f, R s (s <| event_high_water ::= f |>);
  al_dropped : ∀ s f, R s (s <| dropped_events ::= f |>);
  al_call : ∀ s f, R s (set_application (λ r, r <| stream_calls ::= f |>) s);
  al_token : ∀ s f, R s (set_application (λ r, r <| next_token ::= f |>) s);
  al_quiet : ∀ B d (f : InStreamState V → B * InStreamState V) e s, quiet f → R s (on_stream d f e s).2;
  al_other : ∀ B d (f : InStreamState V → B * InStreamState V) e s, others d → R s (on_stream d f e s).2 }.

Context (R : State → State → Prop) (others : nat → Prop) (HR : allows R others).

Lemma around_get {A B} (f : Env → State → B) (k : B → Program A) : (∀ b, frames R (k b)) → frames R (Then (get f) k).
Proof. intros Hk. split; [intros; apply (al_same _ _ HR)|done]. Qed.
Lemma around_table {B} i (f : LinkState → option (B * LinkState)) : keeps f → frames R (section (A := Runtime V Rq) i f).
Proof.
  intros Hf. split; [|by intros []]. intros e s. destruct (f (links s i)) as [[b l]|] eqn:Hl; [|apply (al_same _ _ HR)].
  by eapply (al_links _ _ HR).
Qed.
Lemma around_post event : frames R (post (A := Runtime V Rq) event).
Proof.
  apply frames_bind; [|done]. split; [intros e s; unfold try_send; destruct (_ <? _)%nat; [apply (al_events _ _ HR)|apply (al_same _ _ HR)]|].
  intros [|]; [apply around_get; intros b|]; (split; [intros|done]); [apply (al_water _ _ HR)|apply (al_dropped _ _ HR)].
Qed.
Lemma around_transmit i kind bytes request target flags reserved :
  frames R (transmit (A := Runtime V Rq) i kind bytes request target flags reserved).
Proof. apply frames_bind; [apply around_table, keeps_queue|]. intros [u|error]; [|done]. by apply frames_bind; [apply around_post|]. Qed.
Lemma around_respond i request target bytes domain_error :
  frames R (respond (A := Runtime V Rq) i request target bytes domain_error).
Proof. apply frames_bind; [apply around_table, keeps_store|]. intros [u|error]; [|done]. by apply frames_bind; [apply around_post|]. Qed.
Lemma around_error i request target code : frames R (protocol_error (A := Runtime V Rq) i request target code).
Proof. unfold protocol_error. destruct (put_u16 _ _ _); [|done]. by apply frames_bind; [apply around_transmit|]. Qed.
Lemma around_refuse i (e : Envelope) code : frames R (refuse (V := V) (Rq := Rq) i e code).
Proof. apply frames_bind; [apply around_table, keeps_release|]. intros u. apply around_error. Qed.
Lemma keeps_stage : keeps stage_output.
Proof.
  intros l b l'. unfold stage_output, mbind, option_bind. destruct (find_if _ _) as [k|]; [|by intros [= <- <-]].
  destruct (responses l !! k) as [slot|]; [|done]. destruct (first _ _) as [bytes|]; [|done].
  destruct (queue_output _ _ _ _ _ _ _) as [[queued l1]|] eqn:Hq; [|done]. intros [= <- <-].
  pose proof (keeps_queue _ _ _ _ _ _ _ _ _ Hq) as Hl. by destruct (is_ok queued).
Qed.
Lemma around_stage i : frames R (stage_response (A := Runtime V Rq) i).
Proof. apply frames_bind; [apply around_table, keeps_stage|]. intros [|]; [apply around_post|done]. Qed.
Lemma around_call {A B} c (answer : Env → B) (k : B → Program A) : (∀ b, frames R (k b)) → frames R (Then (call_stream c answer) k).
Proof. intros Hk. split; [intros; apply (al_call _ _ HR)|done]. Qed.
Lemma around_quiet {A B} d (f : InStreamState V → B * InStreamState V) (k : B → Program A) :
  quiet f → (∀ b, frames R (k b)) → frames R (Then (on_stream d f) k).
Proof. intros Hf Hk. split; [intros; by apply (al_quiet _ _ HR)|done]. Qed.
Lemma around_other {A B} d (f : InStreamState V → B * InStreamState V) (k : B → Program A) :
  others d → (∀ b, frames R (k b)) → frames R (Then (on_stream d f) k).
Proof. intros Hd Hk. split; [intros; by apply (al_other _ _ HR)|done]. Qed.
Lemma around_endpoints n k (p : nat → Program unit) : (∀ j, frames R (p j)) → frames R (for_endpoints n k p).
Proof. intros Hp. revert k. induction n as [|n IH]; intros k; [done|]. apply frames_bind; [apply Hp|]. intros u. apply IH. Qed.
Lemma around_forgo {A} (p : Program A) : frames R p → frames R (forgo p).
Proof. intros Hp. by apply frames_bind. Qed.

Lemma quiet_ask operation opening closing : quiet (ask operation opening closing).
Proof. intros st. unfold ask. by case_bool_decide. Qed.
Lemma quiet_take_operation : quiet take_operation.
Proof. intros st. unfold take_operation. by case_bool_decide. Qed.

(** ** Credits and callbacks *)
Lemma around_grant i d token credits window correlation : frames R (grant_credit (V := V) (Rq := Rq) i d token credits window correlation).
Proof. unfold grant_credit, encoded. destruct (encode_credit_grant _); [|done]. by apply frames_bind; [apply around_transmit|]. Qed.
Lemma around_send_credit i d window credits correlation :
  frames R (send_in_stream_credit (V := V) (Rq := Rq) i d window credits correlation).
Proof.
  unfold send_in_stream_credit. destruct (_ =? 0); [done|]. apply around_get. intros [token|]; [apply around_grant|done].
Qed.
Lemma around_restore i d window token generation :
  frames R (restore_in_stream_credit (V := V) (Rq := Rq) i d window token generation).
Proof. apply around_get. intros [|]; [apply around_grant|done]. Qed.
Lemma around_wait fuel d : frames R (wait_done (V := V) (Rq := Rq) fuel d).
Proof. induction fuel as [|fuel IH]; [done|]. by apply around_quiet; [done|]; intros [|]. Qed.
Lemma around_opening fuel d c : frames R (execute_in_stream_open_lifecycle (V := V) (Rq := Rq) fuel d c).
Proof.
  unfold execute_in_stream_open_lifecycle. destruct (negb _); [done|]. destruct (in_stream_inline d); [by apply around_call|].
  apply around_quiet; [done|]. intros u. apply around_quiet; [apply quiet_ask|]. intros asked. destruct (negb asked); [done|].
  apply around_get. intros submitted. destruct (negb submitted); [by apply around_quiet|].
  apply frames_bind; [apply around_wait|]. intros w. by apply around_get.
Qed.
Lemma around_closing fuel d c : frames R (execute_in_stream_close_lifecycle (V := V) (Rq := Rq) fuel d c).
Proof.
  unfold execute_in_stream_close_lifecycle. destruct (negb _); [done|]. destruct (in_stream_inline d); [by apply around_call|].
  apply around_quiet; [done|]. intros u. apply around_quiet; [apply quiet_ask|]. intros asked. destruct (negb asked); [done|].
  apply around_get. intros submitted. destruct (negb submitted); [by apply around_quiet|]. apply around_wait.
Qed.
Lemma around_lifecycle d : frames R (run_in_stream_lifecycle (V := V) (Rq := Rq) d).
Proof.
  unfold run_in_stream_lifecycle. destruct (in_stream_window d); [|done].
  apply around_quiet; [apply quiet_take_operation|]. intros [[[operation opening] closing]|]; [|done].
  apply frames_bind.
  - destruct (bool_decide _); [destruct (open_hooks d)|destruct (close_hooks d)]; first [done | by apply around_call].
  - intros result. apply around_quiet; [done|]. intros u. by apply around_quiet.
Qed.
Lemma around_closed i d token reason : frames R (send_in_stream_closed (V := V) (Rq := Rq) i d token reason).
Proof. unfold send_in_stream_closed, encoded. destruct (encode_in_stream_closed _); [|done]. by apply frames_bind; [apply around_transmit|]. Qed.

(** ** The operations of another stream *)
Lemma around_return i d window token generation :
  others d → frames R (return_in_stream_credit (V := V) (Rq := Rq) i d window token generation).
Proof.
  intros Hd. apply around_get. intros active. destruct (negb active); [done|]. apply around_other; [done|].
  intros [|]; [apply around_send_credit|done].
Qed.
Lemma around_close fuel d i reason (notify : bool) :
  others d → frames R (close_in_stream_link (V := V) (Rq := Rq) fuel d i reason notify).
Proof.
  intros Hd. unfold close_in_stream_link. destruct (in_stream_window d); [|done]. apply around_other; [done|].
  intros [token|]; [|done]. apply frames_bind; [apply around_closing|]. intros u.
  apply frames_bind; [destruct notify; [apply around_closed|done]|done].
Qed.
Lemma around_run fuel d window ran : others d → frames R (run_pending_in_stream (V := V) (Rq := Rq) fuel d window ran).
Proof.
  intros Hd. revert ran. induction fuel as [|fuel IH]; intros ran; [done|]. apply around_other; [done|].
  intros [[[[[k i] token] generation] v]|]; [|done]. apply around_get. intros current. apply frames_bind.
  - destruct v as [v|], current; first [done | by apply around_call].
  - intros consumed. apply around_other; [done|]. intros u. apply frames_bind; [|intros w; apply IH].
    destruct (i <? link_count)%nat; [by apply around_return|done].
Qed.
Lemma around_dispatch n k id target (p : nat → Program unit) : (∀ d, frames R (p d)) → frames R (dispatch_to n k id target p).
Proof.
  intros Hp. revert k. induction n as [|n IH]; intros k; [done|]. cbn [dispatch_to].
  destruct (_ =? _); [by apply frames_bind; [apply Hp|]|apply IH].
Qed.
Lemma around_frame fuel d i m : others d → frames R (execute_in_stream_frame (V := V) (Rq := Rq) fuel d i m).
Proof.
  intros Hd. apply around_get. intros allowed. destruct (negb allowed); [apply around_error|].
  destruct (in_stream_window d) as [window|]; [|apply frames_bind; [apply around_table, keeps_release|intros u; apply around_error]].
  destruct (decode_in_stream d _) as [v|]; [|apply around_error]. apply around_get. intros time. apply around_other; [done|].
  intros [generation| | | |generation]; try apply around_error.
  - destruct (in_stream_inline d); [by apply around_forgo, around_run|]. apply around_get. intros [|]; [done|].
    apply around_other; [done|]. intros u. apply frames_bind; [by apply around_return|]. intros w. apply around_error.
  - apply frames_bind; [apply around_restore|]. intros u. apply around_error.
Qed.
End Around.

(** ** The interface of the requests *)
Section Apart.
Context `{Config} {P : Platform} {V Rq : Type} `{!Catalog V Rq} `{!StreamCatalog V}.
Local Abbreviation State := (RemoteLinks.State (Runtime V Rq)).
Local Abbreviation Program := (RemoteLinks.Program (Runtime V Rq)).

Lemma apart_allows link : allows (apart (V := V) (Rq := Rq) link) (λ _, True).
Proof.
  assert (Hstream : ∀ B d (f : InStreamState V → B * InStreamState V) e (s : State), apart link s (on_stream d f e s).2).
  { intros B d f e s. unfold on_stream. by destruct (f _). }
  split; try by intros.
  intros B i f s b l Hf Hl. split; try done. unfold newest. simpl.
  destruct (decide (i = link)) as [->|Hne]; [rewrite fn_lookup_insert; by eapply Hf|by rewrite fn_lookup_insert_ne].
Qed.
Section With.
Context (link fuel : nat).
Local Abbreviation around p := (frames (apart (V := V) (Rq := Rq) link) p).
Let allowed := apart_allows link.

Lemma apart_close d i reason (notify : bool) : around (close_in_stream_link (V := V) (Rq := Rq) fuel d i reason notify).
Proof. by eapply around_close. Qed.
Lemma apart_open d i window request : around (open_in_stream (V := V) (Rq := Rq) fuel d i window request).
Proof.
  unfold open_in_stream. destruct (_ || _); [done|]. apply frames_bind.
  - unfold make_room. destruct (in_stream_exclusive d) as [[group [|]]|].
    + apply frames_bind; [|done]. unfold in_stream_group_is_active. generalize data_count, 0%nat. intros n.
      induction n as [|n IH]; intros k; [done|]. apply frames_bind; [|by intros [|]].
      destruct (in_group group k); [|done]. unfold in_stream_is_active. destruct (in_stream_window k); [|done].
      by eapply around_get.
    + apply frames_bind; [|done]. eapply around_endpoints. intros d'. destruct (in_group group d'); [|done].
      eapply around_endpoints. intros i'. by eapply around_forgo, apart_close.
    + by apply frames_bind; [apply apart_close|].
  - intros room. destruct (negb room); [done|]. apply frames_bind.
    { split; [intros; apply (al_token _ _ allowed)|]. intros token. destruct (_ =? 0); [|done]. split; [intros; apply (al_token _ _ allowed)|done]. }
    intros token. eapply around_other; [done..|]. intros opened. destruct (negb opened); [done|].
    apply frames_bind; [by eapply around_opening|]. intros accepted. destruct (negb accepted); [|done].
    by apply frames_bind; [apply apart_close|].
Qed.
Lemma apart_subscription d i m (enable : bool) : around (process_in_stream_subscription_for (V := V) (Rq := Rq) fuel d i m enable).
Proof.
  unfold process_in_stream_subscription_for. destruct (in_stream_window d) as [window|]; [|by eapply around_error].
  destruct enable.
  - unfold open_requested. destruct (asked true _) as [[request|error]|]; [|by eapply around_refuse|done].
    apply frames_bind; [apply apart_open|]. intros [response|code]; [|by eapply around_refuse].
    destruct (encode_in_stream_open_response response); [|done]. apply frames_bind; [by eapply around_respond|].
    intros [u|error]; [|by apply frames_bind; [apply apart_close|]; intros; eapply around_refuse].
    apply frames_bind; [by eapply around_stage|]. intros w. eapply around_get; [done|]. intros credits. by eapply around_send_credit.
  - unfold close_requested. destruct (decode_in_stream_close_request _) as [[request|error]|]; [|by eapply around_refuse|done].
    eapply around_get; [done|]. intros current. case_bool_decide; [|by eapply around_refuse].
    apply frames_bind; [apply apart_close|]. intros w. by apply frames_bind; [eapply around_respond|].
Qed.
End With.

(** The requests of RemoteRequests may rely on these in-streams. *)
Lemma in_streams_apart fuel link : InStreamsApart (InStreams0 := in_streams_of (V := V) (Rq := Rq) fuel) link.
Proof.
  pose proof (apart_allows link) as allowed. split.
  - intros i m enable. eapply around_dispatch. intros d. apply apart_subscription.
  - intros i m. eapply around_dispatch. intros d. by eapply around_frame.
  - intros i reason. eapply around_endpoints. intros d. by eapply around_forgo, apart_close.
Qed.
End Apart.

(** ** Windows *)
Section Windows.
Context {V : Type} (window : nat).
Implicit Types (slots : list (InboundSlot V)) (i k x : nat).

Lemma window_lookup i slots x : (x < window)%nat → window_of window i slots !! x = slots !! (i * window + x)%nat.
Proof. intros Hx. unfold window_of. by rewrite lookup_take_lt, lookup_drop by done. Qed.
Lemma window_lookup_none i slots x : (window ≤ x)%nat → window_of window i slots !! x = None.
Proof. intros Hx. unfold window_of. by apply lookup_take_ge. Qed.
(** Two arrays with the same window. *)
Lemma window_same i slots slots' :
  (∀ x, (x < window)%nat → slots' !! (i * window + x)%nat = slots !! (i * window + x)%nat) →
  window_of window i slots' = window_of window i slots.
Proof.
  intros Hs. apply list_eq. intros x. destruct (decide (x < window)%nat) as [Hx|Hx].
  - rewrite !window_lookup by done. by apply Hs.
  - by rewrite !window_lookup_none by lia.
Qed.
Lemma window_insert i k slot slots :
  (k / window)%nat = i → (0 < window)%nat → window_of window i (<[k := slot]> slots) = <[(k - i * window)%nat := slot]> (window_of window i slots).
Proof.
  intros Hk Hw. pose proof (Nat.div_mod_eq k window) as Hdiv. rewrite Hk in Hdiv. pose proof (Nat.mod_upper_bound k window).
  apply list_eq. intros x. destruct (decide (x < window)%nat) as [Hx|Hx].
  - rewrite window_lookup by done. destruct (decide (k = i * window + x)%nat) as [->|Hne].
    + replace (i * window + x - i * window)%nat with x by lia. destruct (decide (i * window + x < length slots)%nat) as [Hlt|Hge].
      * rewrite list_lookup_insert_eq by done. rewrite list_lookup_insert_eq; [done|].
        unfold window_of. rewrite length_take, length_drop. lia.
      * rewrite !lookup_ge_None_2; [done| |rewrite length_insert; lia]. unfold window_of.
        rewrite length_insert, length_take, length_drop. lia.
    + rewrite list_lookup_insert_ne by done. rewrite list_lookup_insert_ne by lia. by rewrite window_lookup.
  - rewrite window_lookup_none by lia. symmetry. apply lookup_ge_None_2. unfold window_of.
    rewrite length_insert, length_take, length_drop. lia.
Qed.
Lemma window_insert_other i k slot slots :
  (k / window)%nat ≠ i → (0 < window)%nat → window_of window i (<[k := slot]> slots) = window_of window i slots.
Proof.
  intros Hk Hw. apply window_same. intros x Hx. apply list_lookup_insert_ne. intros ->. apply Hk.
  rewrite Nat.div_add_l by lia. rewrite Nat.div_small by done. lia.
Qed.
Lemma window_index i x : (x < window)%nat → ((i * window + x) / window)%nat = i.
Proof. intros Hx. rewrite Nat.div_add_l by lia. rewrite Nat.div_small by done. lia. Qed.

(** The slots of a window that are in use. *)
Definition used i slots : nat := sum_list_with (λ slot, if is_unused slot then 0 else 1)%nat (window_of window i slots).
Lemma used_free i slots : (i * window + window ≤ length slots)%nat → (used i slots + free_slots window i slots = window)%nat.
Proof.
  intros Hl. assert (Hlen : length (window_of window i slots) = window).
  { unfold window_of. rewrite length_take, length_drop. lia. }
  unfold used, free_slots. rewrite <-Hlen at 3. clear Hl Hlen. induction (window_of window i slots) as [|slot slots' IH]; [done|].
  simpl. destruct (is_unused slot); simpl; lia.
Qed.
Lemma used_insert k slot slots old :
  (0 < window)%nat → slots !! k = Some old →
  (used (k / window) (<[k := slot]> slots) + (if is_unused old then 0 else 1) = used (k / window) slots + (if is_unused slot then 0 else 1))%nat.
Proof.
  intros Hw Hk. unfold used. rewrite window_insert by done.
  apply (sum_insert (λ slot, if is_unused slot then 0 else 1)%nat). rewrite window_lookup.
  - rewrite <-Hk. f_equal. pose proof (Nat.div_mod_eq k window). lia.
  - pose proof (Nat.div_mod_eq k window). pose proof (Nat.mod_upper_bound k window). lia.
Qed.
Lemma used_insert_other i k slot slots : (k / window)%nat ≠ i → (0 < window)%nat → used i (<[k := slot]> slots) = used i slots.
Proof. intros Hk Hw. unfold used. by rewrite window_insert_other. Qed.

Lemma in_window i k : (0 < window)%nat → (k / window)%nat = i ↔ (i * window ≤ k < i * window + window)%nat.
Proof.
  intros Hw. split.
  - intros <-. pose proof (Nat.div_mod_eq k window). pose proof (Nat.mod_upper_bound k window). lia.
  - intros Hk. replace k with (i * window + (k - i * window))%nat by lia. apply window_index. lia.
Qed.
Lemma discard_lookup i slots k :
  (0 < window)%nat → (i * window + window ≤ length slots)%nat →
  discard_pending window i slots !! k =
    (λ slot, if (k / window =? i)%nat && is_pending slot then empty_slot else slot) <$> slots !! k.
Proof.
  intros Hw Hl. pose proof (in_window i k Hw) as Hin. unfold discard_pending.
  assert (Hlen : length ((λ slot, if is_pending slot then empty_slot else slot) <$> window_of window i slots) = window).
  { rewrite length_fmap. unfold window_of. rewrite length_firstn, length_skipn. lia. }
  destruct (decide (k < i * window)%nat) as [Hlt|Hge].
  { rewrite lookup_app_l by (rewrite length_firstn; lia). rewrite lookup_take_lt by done.
    rewrite (proj2 (Nat.eqb_neq _ _)) by lia. by destruct (slots !! k). }
  rewrite lookup_app_r, length_firstn, Nat.min_l by (rewrite ?length_firstn; lia).
  destruct (decide (k < i * window + window)%nat) as [Hlt|Hge'].
  - rewrite lookup_app_l by lia. rewrite list_lookup_fmap, window_lookup by lia.
    replace (i * window + (k - i * window))%nat with k by lia. rewrite (proj2 (Nat.eqb_eq _ _)) by lia. done.
  - rewrite lookup_app_r by lia. rewrite Hlen, !lookup_drop. replace (i * window + (window + (k - i * window - window)))%nat with k by lia.
    rewrite (proj2 (Nat.eqb_neq _ _)) by lia. by destruct (slots !! k).
Qed.
Lemma discard_length i slots : (i * window + window ≤ length slots)%nat → length (discard_pending window i slots) = length slots.
Proof. intros Hl. unfold discard_pending, window_of. rewrite !length_app, length_fmap, !length_firstn, !length_skipn. lia. Qed.
Lemma discard_other i j slots :
  (0 < window)%nat → (j * window + window ≤ length slots)%nat → i ≠ j →
  window_of window i (discard_pending window j slots) = window_of window i slots.
Proof.
  intros Hw Hl Hne. apply window_same. intros x Hx. rewrite discard_lookup by done. rewrite window_index by done.
  rewrite (proj2 (Nat.eqb_neq _ _)) by done. by destruct (slots !! _).
Qed.
Lemma find_window (f : InboundSlot V → bool) i slots x :
  find_if f (window_of window i slots) = Some x →
  (x < window)%nat ∧ ∃ slot, slots !! (i * window + x)%nat = Some slot ∧ f slot = true.
Proof.
  intros (slot & Hslot & Hf & _)%find_if_some. destruct (decide (x < window)%nat) as [Hx|Hx].
  - split; [done|]. exists slot. by rewrite window_lookup in Hslot.
  - by rewrite window_lookup_none in Hslot by lia.
Qed.
End Windows.

(** ** The credits of a link *)

(** What a thread has: the slot of the value it consumes, with the generation
    it was admitted in; the generation for which it owes a credit; and how
    often it may still open or close the stream. *)
Record Stake : Set := mkStake { holding : option (nat * Z); owing : option Z; allowance : nat }.

Section Funds.
Context {V : Type} (links w i0 : nat) (Hw : (0 < w)%nat) (Hw16 : Z.of_nat w < 2 ^ 16) (Hi0 : (i0 < links)%nat).
Implicit Types (gs : list Stake) (g : Stake) (slots : list (InboundSlot V)) (l : StreamLink) (t k : nat).

Definition owed (generation : Z) gs : nat := sum_list_with (λ g, if bool_decide (owing g = Some generation) then 1 else 0)%nat gs.
Definition allowed gs : nat := sum_list_with allowance gs.
Record funded gs slots l : Prop := {
  fu_length : length slots = (links * w)%nat;
  fu_credits : sl_active l = true →
    0 ≤ sl_credits l ∧ sl_credits l + Z.of_nat (used w i0 slots + owed (sl_generation l) gs) ≤ Z.of_nat w;
  fu_generation : 0 ≤ sl_generation l ∧ sl_generation l + Z.of_nat (allowed gs) < 2 ^ 32;
  fu_slots : ∀ k slot, (k / w)%nat = i0 → slots !! k = Some slot → is_unused slot = false → i_generation slot ≤ sl_generation l;
  fu_owing : ∀ t g x, gs !! t = Some g → owing g = Some x → x ≤ sl_generation l;
  fu_holding : ∀ t g k x, gs !! t = Some g → holding g = Some (k, x) →
    (∃ slot, slots !! k = Some slot ∧ i_state slot = IRunning) ∧ ((k / w)%nat = i0 → x ≤ sl_generation l);
  fu_distinct : ∀ t t' g g' k x x', gs !! t = Some g → gs !! t' = Some g' →
    holding g = Some (k, x) → holding g' = Some (k, x') → t = t' }.

Lemma room_of i slots : (i < links)%nat → length slots = (links * w)%nat → (i * w + w ≤ length slots)%nat.
Proof. intros Hi ->. nia. Qed.
Lemma running_used slot : i_state slot = IRunning → is_unused (V := V) slot = false.
Proof. unfold is_unused. intros ->. by case_bool_decide. Qed.
Lemma pending_used slot : is_pending (V := V) slot = true → is_unused slot = false.
Proof. unfold is_pending, is_unused. intros Hp%bool_decide_eq_true. rewrite Hp. by case_bool_decide. Qed.

#[local] Set Default Proof Using "Type Hw Hw16 Hi0".
(** Slots outside the window may fill, slots within it may empty, and no value
    that is being consumed is touched. *)
Record benign slots slots' : Prop := {
  be_length : length slots' = length slots;
  be_used : (used w i0 slots' ≤ used w i0 slots)%nat;
  be_kept : ∀ k slot, (k / w)%nat = i0 → slots' !! k = Some slot → is_unused slot = false → slots !! k = Some slot;
  be_running : ∀ k slot, slots !! k = Some slot → i_state slot = IRunning → slots' !! k = Some slot }.
Lemma funded_benign gs slots slots' l : funded gs slots l → benign slots slots' → funded gs slots' l.
Proof.
  intros [F1 F2 F3 F4 F5 F6 F7] [B1 B2 B3 B4]. split; try done; try congruence.
  - intros Ha. destruct (F2 Ha). lia.
  - intros k slot Hk Hs Hu. eapply F4; eauto.
  - intros t g k x Hg Hh. destruct (F6 t g k x Hg Hh) as ((slot & Hs & Hr) & Hx). split; [|done]. exists slot. eauto.
Qed.
Lemma benign_discard i slots : (i < links)%nat → length slots = (links * w)%nat → benign slots (discard_pending w i slots).
Proof.
  intros Hi Hl. pose proof (room_of i slots Hi Hl) as Hroom. split.
  - by apply discard_length.
  - unfold used. destruct (decide (i0 = i)) as [->|Hne]; [|by rewrite discard_other].
    assert (Hwin : window_of w i (discard_pending w i slots) = (λ slot, if is_pending slot then empty_slot else slot) <$> window_of w i slots).
    { apply list_eq. intros x. rewrite list_lookup_fmap. destruct (decide (x < w)%nat) as [Hx|Hx].
      - rewrite !window_lookup, discard_lookup, window_index, Nat.eqb_refl by done. done.
      - by rewrite !window_lookup_none by lia. }
    rewrite Hwin. clear Hwin. induction (window_of w i slots) as [|slot slots' IH]; [done|]. cbn [fmap list_fmap sum_list_with].
    assert ((if is_unused (if is_pending slot then empty_slot else slot) then 0 else 1) ≤ (if is_unused slot then 0 else 1))%nat; [|lia].
    destruct (is_pending slot) eqn:Hp; [|done]. rewrite (pending_used slot) by done. destruct (is_unused empty_slot); lia.
  - intros k slot _ Hs Hu. rewrite discard_lookup in Hs by done. destruct (slots !! k) as [slot'|]; [|done]. injection Hs as <-.
    destruct (_ && _); [|done]. unfold is_unused in Hu. by case_bool_decide.
  - intros k slot Hs Hr. rewrite discard_lookup by done. rewrite Hs. cbn [fmap option_fmap option_map].
    assert (is_pending slot = false) as ->; [|by rewrite andb_false_r]. unfold is_pending. rewrite Hr. by case_bool_decide.
Qed.
Lemma benign_fill k slot old slots :
  (k / w)%nat ≠ i0 → slots !! k = Some old → is_unused old = true → benign slots (<[k := slot]> slots).
Proof.
  intros Hk Hold Hu. split.
  - apply length_insert.
  - by rewrite used_insert_other.
  - intros k' slot' Hk' Hs _. rewrite list_lookup_insert_ne in Hs; [done|]. by intros ->.
  - intros k' slot' Hs Hr. rewrite list_lookup_insert_ne; [done|]. intros ->. rewrite Hold in Hs. injection Hs as ->.
    by rewrite (running_used slot') in Hu.
Qed.

Lemma owed_change gs t g g' x : gs !! t = Some g →
  (owed x (<[t := g']> gs) + (if bool_decide (owing g = Some x) then 1 else 0)
   = owed x gs + (if bool_decide (owing g' = Some x) then 1 else 0))%nat.
Proof. apply (sum_insert (λ g, if bool_decide (owing g = Some x) then 1 else 0)%nat). Qed.
Lemma allowed_change gs t g g' : gs !! t = Some g → (allowed (<[t := g']> gs) + allowance g = allowed gs + allowance g')%nat.
Proof. apply (sum_insert allowance). Qed.
Lemma owed_none gs x : (∀ t g y, gs !! t = Some g → owing g = Some y → y ≠ x) → owed x gs = 0%nat.
Proof.
  unfold owed. induction gs as [|g gs IH]; intros Hgs; [done|]. cbn [sum_list_with].
  rewrite bool_decide_eq_false_2; [|intros Hg; by eapply (Hgs 0%nat)]. rewrite IH; [done|]. intros t g' y Hg. by apply (Hgs (S t)).
Qed.

(** A thread changes its stake, and the link its numbers. *)
Lemma funded_stake gs slots l l' t g g' :
  funded gs slots l → gs !! t = Some g → sl_generation l ≤ sl_generation l' →
  sl_generation l' + Z.of_nat (allowance g') ≤ sl_generation l + Z.of_nat (allowance g) →
  (sl_active l' = true → 0 ≤ sl_credits l' ∧ sl_credits l' + Z.of_nat (used w i0 slots + owed (sl_generation l') (<[t := g']> gs)) ≤ Z.of_nat w) →
  (∀ x, owing g' = Some x → x ≤ sl_generation l') →
  (∀ k x, holding g' = Some (k, x) → holding g = Some (k, x)) →
  funded (<[t := g']> gs) slots l'.
Proof.
  intros [F1 F2 F3 F4 F5 F6 F7] Hg Hgen Hall Hc Ho Hh. pose proof (allowed_change gs t g g' Hg). split; try done.
  - lia.
  - intros k slot Hk Hs Hu. specialize (F4 k slot Hk Hs Hu). lia.
  - intros t' h x Hh' Hx. apply list_lookup_insert_Some in Hh' as [(-> & <- & _)|[_ Hh']]; [by apply Ho|].
    specialize (F5 t' h x Hh' Hx). lia.
  - assert (Hold : ∀ t' h k x, <[t := g']> gs !! t' = Some h → holding h = Some (k, x) → ∃ h', gs !! t' = Some h' ∧ holding h' = Some (k, x)).
    { intros t' h k x Hh' Hx. apply list_lookup_insert_Some in Hh' as [(-> & <- & _)|[_ Hh']]; [exists g; auto|by exists h]. }
    intros t' h k x Hh' Hx. destruct (Hold t' h k x Hh' Hx) as (h' & L & Hx'). destruct (F6 t' h' k x L Hx') as [Hs Hle].
    split; [done|]. intros Hk. specialize (Hle Hk). lia.
  - assert (Hold : ∀ t' h k x, <[t := g']> gs !! t' = Some h → holding h = Some (k, x) → ∃ h', gs !! t' = Some h' ∧ holding h' = Some (k, x)).
    { intros t' h k x Hh' Hx. apply list_lookup_insert_Some in Hh' as [(-> & <- & _)|[_ Hh']]; [exists g; auto|by exists h]. }
    intros t1 t2 h1 h2 k x1 x2 L1 L2 X1 X2. destruct (Hold t1 h1 k x1 L1 X1) as (h1' & M1 & Y1).
    destruct (Hold t2 h2 k x2 L2 X2) as (h2' & M2 & Y2). by apply (F7 t1 t2 h1' h2' k x1 x2).
Qed.

(** Opening and closing begin a generation. *)
Lemma funded_bump gs slots l l' t g a :
  funded gs slots l → gs !! t = Some g → allowance g = S a → sl_generation l' = inc32 (sl_generation l) →
  (sl_active l' = true → 0 ≤ sl_credits l' ∧ sl_credits l' + Z.of_nat (used w i0 slots) ≤ Z.of_nat w) →
  funded (<[t := mkStake (holding g) (owing g) a]> gs) slots l'.
Proof.
  intros HF Hg Ha Hgen Hc. destruct (fu_generation _ _ _ HF) as [G1 G2].
  pose proof (allowed_change gs t g (mkStake None None 0) Hg) as Hall. simpl in Hall.
  assert (Hinc : inc32 (sl_generation l) = sl_generation l + 1) by (apply wrap_small; word_lia). rewrite Hinc in Hgen.
  apply (funded_stake gs slots l l' t g); [done|done|lia|cbn [allowance]; lia| | |done].
  - rewrite owed_none; [intros Hact; destruct (Hc Hact); lia|]. intros t' h y Hh Hy.
    apply list_lookup_insert_Some in Hh as [(-> & <- & _)|[_ Hh]].
    + pose proof (fu_owing _ _ _ HF t' g y Hg Hy). lia.
    + pose proof (fu_owing _ _ _ HF t' h y Hh Hy). lia.
  - intros x Hx. pose proof (fu_owing _ _ _ HF t g x Hg Hx). lia.
Qed.
Lemma funded_open gs slots l t g a token interval :
  funded gs slots l → gs !! t = Some g → allowance g = S a →
  funded (<[t := mkStake (holding g) (owing g) a]> gs) slots
    (mkStreamLink true token (inc32 (sl_generation l)) (u16 (Z.of_nat (free_slots w i0 slots))) 0 0 interval).
Proof.
  intros HF Hg Ha. apply (funded_bump gs slots l); [done..|]. intros _. cbn [sl_credits].
  pose proof (used_free w i0 slots (room_of i0 slots Hi0 (fu_length _ _ _ HF))).
  rewrite wrap_small by word_lia. lia.
Qed.
(** The credit comes back. *)
Lemma funded_return gs slots l t g :
  funded gs slots l → gs !! t = Some g → owing g = Some (sl_generation l) → sl_active l = true →
  funded (<[t := mkStake (holding g) None (allowance g)]> gs) slots (l <| sl_credits ::= λ n, u16 (n + 1) |>).
Proof.
  intros HF Hg Ho Hact. destruct (fu_credits _ _ _ HF Hact) as [C1 C2].
  pose proof (owed_change gs t g (mkStake (holding g) None (allowance g)) (sl_generation l) Hg) as Hch.
  rewrite Ho in Hch. rewrite bool_decide_eq_true_2 in Hch by done. cbn [owing] in Hch. rewrite bool_decide_eq_false_2 in Hch by done.
  apply (funded_stake gs slots l _ t g); [done|done|done|simpl; lia| |done|done].
  intros _. change (0 ≤ u16 (sl_credits l + 1) ∧ u16 (sl_credits l + 1) + Z.of_nat (used w i0 slots
    + owed (sl_generation l) (<[t := mkStake (holding g) None (allowance g)]> gs)) ≤ Z.of_nat w).
  rewrite wrap_small by word_lia. lia.
Qed.
Lemma funded_forgive gs slots l t g :
  funded gs slots l → gs !! t = Some g → funded (<[t := mkStake (holding g) None (allowance g)]> gs) slots l.
Proof.
  intros HF Hg. pose proof (owed_change gs t g (mkStake (holding g) None (allowance g)) (sl_generation l) Hg) as Hch.
  cbn [owing] in Hch. rewrite (bool_decide_eq_false_2 (None = _)) in Hch by done.
  apply (funded_stake gs slots l _ t g); [done|done|done|simpl; lia| |done|done].
  intros Hact. destruct (fu_credits _ _ _ HF Hact). lia.
Qed.

(** A frame that is admitted takes a credit and a free slot of the window. *)
Lemma funded_admit gs slots l l' k slot old :
  funded gs slots l → (k / w)%nat = i0 → slots !! k = Some old → is_unused old = true →
  i_generation slot = sl_generation l → i_state slot = IPending →
  sl_active l = true → sl_credits l ≠ 0 →
  sl_active l' = sl_active l → sl_generation l' = sl_generation l → sl_credits l' = u16 (sl_credits l - 1) →
  funded gs (<[k := slot]> slots) l'.
Proof.
  intros [F1 F2 F3 F4 F5 F6 F7] Hk Hold Hu Hgen Hst Hact Hne Hact' Hgen' Hcr. destruct (F2 Hact) as [C1 C2].
  pose proof (used_insert w k slot slots old Hw Hold) as Hus. rewrite Hu, Hk in Hus.
  assert (is_unused slot = false) as Hs by (unfold is_unused; rewrite Hst; by case_bool_decide). rewrite Hs in Hus.
  split; rewrite ?Hgen'; try done.
  - by rewrite length_insert.
  - intros _. rewrite Hcr, wrap_small by word_lia. lia.
  - intros k' slot' Hk' Hl Hu'. apply list_lookup_insert_Some in Hl as [(-> & <- & _)|[_ Hl]]; [lia|by eapply F4].
  - intros t g k' x Hg Hh. destruct (F6 t g k' x Hg Hh) as ((run & Hr & Hrun) & Hx). split; [|done]. exists run.
    rewrite list_lookup_insert_ne; [done|]. intros ->. rewrite Hold in Hr. injection Hr as ->. by rewrite (running_used run) in Hu.
Qed.

Lemma funded_begin gs slots l t g k old :
  funded gs slots l → gs !! t = Some g → slots !! k = Some old → is_pending old = true → holding g = None →
  funded (<[t := mkStake (Some (k, i_generation old)) (owing g) (allowance g)]> gs)
    (<[k := old <| i_value := None |> <| i_state := IRunning |>]> slots) l.
Proof.
  intros [F1 F2 F3 F4 F5 F6 F7] Hg Hold Hp Hh. set (new := old <| i_value := None |> <| i_state := IRunning |>).
  set (g' := mkStake _ _ _). pose proof (used_insert w k new slots old Hw Hold) as Hus.
  rewrite (pending_used old Hp) in Hus. rewrite (running_used new) in Hus by done.
  pose proof (owed_change gs t g g' (sl_generation l) Hg) as Hch. cbn [owing g'] in Hch.
  pose proof (allowed_change gs t g g' Hg) as Hall. cbn [allowance g'] in Hall.
  assert (Hlt : (k < length slots)%nat) by (by eapply lookup_lt_Some).
  assert (Hother : ∀ t' h k' x, gs !! t' = Some h → holding h = Some (k', x) → k' ≠ k).
  { intros t' h k' x Hh' Hx ->. destruct (F6 t' h k x Hh' Hx) as ((run & Hr & Hrun) & _). rewrite Hold in Hr. injection Hr as ->.
    unfold is_pending in Hp. rewrite Hrun in Hp. by case_bool_decide. }
  split; try done.
  - by rewrite length_insert.
  - intros Hact. destruct (F2 Hact) as [C1 C2]. destruct (decide ((k / w)%nat = i0)) as [Hk|Hk]; [rewrite Hk in Hus; lia|].
    rewrite used_insert_other by done. lia.
  - lia.
  - intros k' slot' Hk' Hl Hu'. apply list_lookup_insert_Some in Hl as [(-> & <- & _)|[_ Hl]]; [|by eapply F4].
    apply (F4 k' old Hk' Hold). by apply pending_used.
  - intros t' h x Hl Hx. apply list_lookup_insert_Some in Hl as [(-> & <- & _)|[_ Hl]]; [by apply (F5 t' g)|by apply (F5 t' h)].
  - intros t' h k' x Hl Hx. apply list_lookup_insert_Some in Hl as [(-> & <- & _)|[_ Hl]].
    + injection Hx as <- <-. split; [exists new; by rewrite list_lookup_insert_eq|]. intros Hk. apply (F4 k old Hk Hold). by apply pending_used.
    + destruct (F6 t' h k' x Hl Hx) as ((run & Hr & Hrun) & Hle). split; [|done]. exists run.
      rewrite list_lookup_insert_ne; [done|]. intros ->. by eapply Hother.
  - intros t1 t2 h1 h2 k' x1 x2 L1 L2 X1 X2. apply list_lookup_insert_Some in L1 as [(<- & <- & _)|[N1 L1]];
      apply list_lookup_insert_Some in L2 as [(<- & <- & _)|[N2 L2]]; [done| | |by eapply F7].
    + injection X1 as <- <-. by destruct (Hother t2 h2 k x2 L2 X2).
    + injection X2 as <- <-. by destruct (Hother t1 h1 k x1 L1 X1).
Qed.
Lemma funded_end gs slots l t g k x :
  funded gs slots l → gs !! t = Some g → holding g = Some (k, x) → owing g = None →
  funded (<[t := mkStake None (if (k / w =? i0)%nat then Some x else None) (allowance g)]> gs) (<[k := empty_slot]> slots) l.
Proof.
  intros [F1 F2 F3 F4 F5 F6 F7] Hg Hh Ho. set (g' := mkStake _ _ _).
  destruct (F6 t g k x Hg Hh) as ((old & Hold & Hrun) & Hle).
  pose proof (used_insert w k empty_slot slots old Hw Hold) as Hus. rewrite (running_used old Hrun) in Hus.
  change (is_unused empty_slot) with true in Hus. cbv iota in Hus.
  pose proof (owed_change gs t g g' (sl_generation l) Hg) as Hch. rewrite Ho in Hch. rewrite (bool_decide_eq_false_2 (None = _)) in Hch by done.
  pose proof (allowed_change gs t g g' Hg) as Hall. cbn [allowance g'] in Hall. cbn [owing g'] in Hch.
  split; try done.
  - by rewrite length_insert.
  - intros Hact. destruct (F2 Hact) as [C1 C2]. destruct (Nat.eqb_spec (k / w) i0) as [Hk|Hk].
    + rewrite Hk in Hus. destruct (bool_decide _); lia.
    + rewrite used_insert_other by done. rewrite (bool_decide_eq_false_2 (None = _)) in Hch by done. lia.
  - lia.
  - intros k' slot' Hk' Hl Hu'. apply list_lookup_insert_Some in Hl as [(-> & <- & _)|[_ Hl]]; [done|by eapply F4].
  - intros t' h y Hl Hy. apply list_lookup_insert_Some in Hl as [(-> & <- & _)|[_ Hl]]; [|by apply (F5 t' h)].
    cbn [owing g'] in Hy. destruct (Nat.eqb_spec (k / w) i0) as [Hk|Hk]; [|done]. injection Hy as <-. by apply Hle.
  - intros t' h k' y Hl Hy. apply list_lookup_insert_Some in Hl as [(-> & <- & _)|[Hne Hl]]; [done|].
    destruct (F6 t' h k' y Hl Hy) as ((run & Hr & Hrun') & Hle'). split; [|done]. exists run.
    rewrite list_lookup_insert_ne; [done|]. intros ->. apply Hne. by apply (F7 t t' g h k' x y).
  - intros t1 t2 h1 h2 k' x1 x2 L1 L2 X1 X2. apply list_lookup_insert_Some in L1 as [(<- & <- & _)|[N1 L1]]; [done|].
    apply list_lookup_insert_Some in L2 as [(<- & <- & _)|[N2 L2]]; [done|]. by eapply F7.
Qed.
#[local] Unset Default Proof Using.
End Funds.

(** ** The programs *)
Section Programs.
Context `{Config} {P : Platform} {V Rq : Type} `{!Catalog V Rq} `{!StreamCatalog V}.
Context (d0 i0 w : nat) (Hwindow : in_stream_window d0 = Some w) (Hw : (0 < w)%nat) (Hw16 : Z.of_nat w < 2 ^ 16)
  (Hi0 : (i0 < link_count)%nat).
Local Abbreviation State := (RemoteLinks.State (Runtime V Rq)).
Local Abbreviation Program := (RemoteLinks.Program (Runtime V Rq)).
Implicit Types (s : State) (gs : list Stake) (g : Stake) (t i d fuel : nat) (st : InStreamState V).

Definition stream s : InStreamState V := in_streams (application s) d0.
Definition sound gs st : Prop := funded link_count w i0 gs (st_slots st) (st_links st i0).
Local Abbreviation safe := (safe (λ gs s, sound gs (stream s)) willing).

Definition same_numbers s s' : Prop :=
  st_slots (stream s') = st_slots (stream s) ∧ st_links (stream s') i0 = st_links (stream s) i0.
Lemma stream_other {B} d (f : InStreamState V → B * InStreamState V) e s : d ≠ d0 → stream (on_stream d f e s).2 = stream s.
Proof. intros Hd. unfold on_stream. destruct (f _). unfold stream. simpl. by rewrite fn_lookup_insert_ne. Qed.
Lemma stream_here {B} (f : InStreamState V → B * InStreamState V) e s :
  stream (on_stream d0 f e s).2 = (f (stream s)).2 ∧ (on_stream d0 f e s).1 = (f (stream s)).1.
Proof. unfold on_stream. fold (stream s). destruct (f (stream s)). unfold stream. simpl. by rewrite fn_lookup_insert. Qed.
Lemma numbers_allow : allows same_numbers (λ d, d ≠ d0).
Proof.
  split; try by intros.
  - intros B d f e s Hf. unfold same_numbers. destruct (decide (d = d0)) as [->|Hne]; [|by rewrite stream_other].
    destruct (stream_here f e s) as [-> _]. destruct (Hf (stream s)) as [-> ->]. done.
  - intros B d f e s Hd. unfold same_numbers. by rewrite stream_other.
Qed.
Lemma sound_same gs s s' : sound gs (stream s) → same_numbers s s' → sound gs (stream s').
Proof. unfold sound. by intros HI [-> ->]. Qed.
Lemma safe_around {A B} t Q g (p : Program B) (k : B → Program A) :
  frames same_numbers p → (∀ b, safe t Q g (k b)) → safe t Q g (bind p k).
Proof. apply safe_frames_bind. apply sound_same. Qed.
Lemma safe_step {A B} t Q g (f : Env → State → B * State) (k : B → Program A) :
  (∀ e s, same_numbers s (f e s).2) → (∀ b, safe t Q g (k b)) → safe t Q g (Then f k).
Proof.
  intros Hf Hk e s gs _ Hg HI. exists g. rewrite list_insert_id by done. split; [by eapply sound_same|done].
Qed.
Lemma safe_section {A B} t Q g (f : InStreamState V → B * InStreamState V) (k : B → Program A) :
  (∀ gs st, gs !! t = Some g → sound gs st → ∃ g', sound (<[t := g']> gs) (f st).2 ∧ safe t Q g' (k (f st).1)) →
  safe t Q g (Then (on_stream d0 f) k).
Proof. intros Hf e s gs _ Hg HI. destruct (stream_here f e s) as [-> ->]. by apply Hf. Qed.

(** ** What a program may spend *)
Definition free a : Stake := mkStake None None a.
Definition spent a g : Prop := holding g = None ∧ owing g = None ∧ (a ≤ allowance g)%nat.
Definition costs (n : nat) {A} (p : Program A) : Prop := ∀ t a, safe t (λ g _, spent a g) (free (n + a)) p.
Lemma spent_free {A} t Q m a g (p : Program A) :
  spent (m + a) g → (∀ a', (a ≤ a')%nat → safe t Q (free (m + a')) p) → safe t Q g p.
Proof.
  intros (Hh & Ho & Ha) Hp. destruct g as [h o n]. simpl in *. subst. specialize (Hp (n - m)%nat). unfold free in Hp.
  replace (m + (n - m))%nat with n in Hp by lia. apply Hp. lia.
Qed.
Lemma spent_le a a' g : (a ≤ a')%nat → spent a' g → spent a g.
Proof. intros Ha (? & ? & ?). split_and!; [done..|lia]. Qed.
Lemma costs_bind n m {A B} (p : Program B) (k : B → Program A) : costs n p → (∀ b, costs m (k b)) → costs (n + m) (bind p k).
Proof.
  intros Hp Hk t a. apply safe_bind. rewrite <-Nat.add_assoc. eapply safe_mono; [|apply Hp]. intros g b Hg.
  apply (spent_free t _ m a); [done|]. intros a' Ha. eapply safe_mono; [|apply Hk]. intros g' x. by apply spent_le.
Qed.
Lemma costs_le n m {A} (p : Program A) : (n ≤ m)%nat → costs n p → costs m p.
Proof.
  intros Hle Hp t a. replace (m + a)%nat with (n + (m - n + a))%nat by lia. eapply safe_mono; [|apply Hp]. intros g x. apply spent_le. lia.
Qed.
Lemma costs_frames {A} n (p : Program A) : frames same_numbers p → costs n p.
Proof.
  intros Hp t a. eapply safe_mono; [|eapply safe_frames; [apply sound_same|done]]. intros g x ->. split_and!; [done..|simpl; lia].
Qed.
Lemma costs_done {A} n (a : A) : costs n (Done a).
Proof. by apply costs_frames. Qed.
Lemma costs_then {A B} n (f : Env → State → B * State) (k : B → Program A) :
  (∀ e s, same_numbers s (f e s).2) → (∀ b, costs n (k b)) → costs n (Then f k).
Proof. intros Hf Hk t a. apply safe_step; [done|]. intros b. apply Hk. Qed.
Lemma costs_get {A B} n (f : Env → State → B) (k : B → Program A) : (∀ b, costs n (k b)) → costs n (Then (get f) k).
Proof. intros Hk. by apply costs_then. Qed.
(** The facility takes the work. *)
Lemma costs_submit {A} n x (k : bool → Program A) : costs n (k true) → costs n (Then (submit_work x) k).
Proof.
  intros Hk t a e s gs He Hg HI. exists (free (n + a)). rewrite list_insert_id by done. split; [done|].
  unfold submit_work, get. cbn [fst]. rewrite (He x). apply Hk.
Qed.
Lemma costs_forgo n {A} (p : Program A) : costs n p → costs n (forgo p).
Proof. intros Hp. rewrite <-(Nat.add_0_r n). apply costs_bind; [done|]. intros b. apply costs_done. Qed.
Lemma costs_endpoints n k m j0 (p : nat → Program unit) :
  (∀ j, j ≠ j0 → costs 0 (p j)) → costs m (p j0) → costs m (for_endpoints n k p).
Proof.
  intros Hother Hhere. assert (Hlate : ∀ n k, (j0 < k)%nat → costs 0 (for_endpoints n k p)).
  { clear k n. intros n. induction n as [|n IH]; intros k Hk; [apply costs_done|]. apply (costs_bind 0 0); [apply Hother; lia|].
    intros u. apply IH. lia. }
  revert k. induction n as [|n IH]; intros k; [apply costs_done|]. destruct (decide (k = j0)) as [->|Hne].
  - rewrite <-(Nat.add_0_r m). apply costs_bind; [done|]. intros u. apply Hlate. lia.
  - apply (costs_bind 0 m); [by apply Hother|]. intros u. apply IH.
Qed.
Lemma costs_dispatch n k m id target (p : nat → Program unit) : (∀ d, costs m (p d)) → costs m (dispatch_to n k id target p).
Proof.
  intros Hp. revert k. induction n as [|n IH]; intros k; [apply costs_done|]. cbn [dispatch_to].
  destruct (_ =? _); [|apply IH]. rewrite <-(Nat.add_0_r m). apply costs_bind; [done|]. intros u. apply costs_done.
Qed.

(** ** Credits and consumers *)
Lemma alter_other i (f : StreamLink → StreamLink) st : i ≠ i0 → st_links (on_link i f st) i0 = st_links st i0.
Proof. intros Hi. simpl. by rewrite fn_lookup_alter_ne. Qed.
Lemma alter_here (f : StreamLink → StreamLink) st : st_links (on_link i0 f st) i0 = f (st_links st i0).
Proof. simpl. by rewrite fn_lookup_alter. Qed.

(** What is owed for a value of link [i] that was consumed. *)
Definition due i generation : option Z := if (i =? i0)%nat then Some generation else None.
Lemma safe_return t a i token generation :
  safe t (λ g _, spent a g) (mkStake None (due i generation) a) (return_in_stream_credit (V := V) (Rq := Rq) i d0 w token generation).
Proof.
  intros e s gs _ Hg HI. unfold is_active, read_link, get. cbn [fst snd].
  destruct (negb _).
  { exists (free a). split; [|done]. by apply (funded_forgive link_count w i0 Hw Hw16 Hi0 _ _ _ t (mkStake None (due i generation) a)). }
  exists (mkStake None (due i generation) a). rewrite list_insert_id by done. split; [done|]. clear e s gs Hg HI.
  apply safe_section. intros gs st Hg HI. unfold take_back_credit.
  destruct (is_current i token generation st) eqn:Hcur; cbn [fst snd].
  - exists (free a). split.
    + destruct (decide (i = i0)) as [->|Hne].
      * unfold sound. rewrite alter_here. unfold is_current in Hcur. apply andb_prop in Hcur as [[Hact _]%andb_prop Hgen%Z.eqb_eq].
        apply (funded_return link_count w i0 Hw Hw16 Hi0 gs _ _ t (mkStake None (due i0 generation) a)); [done|done| |done].
        unfold due. rewrite Nat.eqb_refl. cbn [owing]. by rewrite Hgen.
      * unfold sound. rewrite alter_other by done. unfold due in Hg. rewrite (proj2 (Nat.eqb_neq _ _) Hne) in Hg.
        by rewrite list_insert_id.
    + eapply safe_mono; [|eapply safe_frames; [apply sound_same|by eapply around_send_credit, numbers_allow]].
      by intros g' u ->.
  - exists (free a). split; [|done]. by apply (funded_forgive link_count w i0 Hw Hw16 Hi0 _ _ _ t (mkStake None (due i generation) a)).
Qed.

Lemma costs_run fuel ran : costs 0 (run_pending_in_stream (V := V) (Rq := Rq) fuel d0 w ran).
Proof.
  intros t a. revert a ran. induction fuel as [|fuel IH]; intros a ran; [done|]. cbn [Nat.add] in *.
  apply safe_section. intros gs st Hg HI. unfold begin_consume.
  destruct (find_if is_pending (st_slots st)) as [k|] eqn:Hk; cbn [fst snd].
  2: { exists (free a). rewrite list_insert_id by done. done. }
  apply find_if_some in Hk as (slot & Hslot & Hp & _). rewrite Hslot. cbn [fst snd].
  exists (mkStake (Some (k, i_generation slot)) None a). split.
  { apply (funded_begin link_count w i0 Hw Hw16 Hi0 gs _ _ t (free a) k slot); done. }
  clear gs st Hg HI Hslot Hp. apply safe_step; [by intros|]. intros current. apply safe_around.
  { destruct (i_value slot) as [v|], current; first [done | by apply around_call with (others := λ d, d ≠ d0), numbers_allow]. }
  intros consumed. apply safe_section. intros gs st Hg HI. unfold end_consume. cbn [fst snd].
  exists (mkStake None (due (k / w) (i_generation slot)) a). split.
  { pose proof (funded_end link_count w i0 Hw Hw16 Hi0 gs _ _ t _ k (i_generation slot) HI Hg eq_refl eq_refl) as Hend.
    unfold sound. by destruct current, consumed. }
  clear gs st Hg HI. apply safe_bind.
  assert (Hnext : ∀ g (u : unit), spent a g → safe t (λ g _, spent a g) g (run_pending_in_stream (V := V) (Rq := Rq) fuel d0 w true)).
  { intros g u Hg. apply (spent_free t _ 0 a g); [done|]. intros a' Ha. eapply safe_mono; [|apply IH]. intros g' x. by apply spent_le. }
  destruct (Nat.ltb_spec (k / w) link_count) as [Hlt|Hge].
  - eapply safe_mono; [|apply safe_return]. apply Hnext.
  - apply (Hnext _ tt). unfold due. rewrite (proj2 (Nat.eqb_neq _ _)) by lia. split_and!; [done..|]. simpl. lia.
Qed.
Lemma run_costs fuel d window ran : in_stream_window d = Some window → costs 0 (run_pending_in_stream (V := V) (Rq := Rq) fuel d window ran).
Proof.
  intros Hd. destruct (decide (d = d0)) as [->|Hne].
  - rewrite Hwindow in Hd. injection Hd as <-. apply costs_run.
  - apply costs_frames. by eapply around_run; [apply numbers_allow|].
Qed.
Lemma costs_work_on n k id target (p : nat → Program unit) found : (∀ d, costs 0 (p d)) → costs 0 (work_on n k id target p found).
Proof.
  intros Hp. revert k found. induction n as [|n IH]; intros k found; [apply costs_done|]. cbn [work_on].
  destruct (_ =? _); [|apply IH]. apply (costs_bind 0 0); [apply Hp|]. intros u. apply IH.
Qed.
Lemma costs_work fuel target : costs 0 (process_in_stream_work (V := V) (Rq := Rq) fuel target).
Proof.
  apply (costs_bind 0 0); [|intros found; apply costs_done].
  assert (Hone : ∀ d, costs 0 (_ ⇇ run_in_stream_lifecycle (V := V) (Rq := Rq) d;
     _ ⇇ match in_stream_window d with None => Done false | Some window => run_pending_in_stream fuel d window false end;
     forgo (run_in_stream_lifecycle d))).
  { intros d. apply (costs_bind 0 0); [by eapply costs_frames, around_lifecycle, numbers_allow|]. intros b.
    apply (costs_bind 0 0); [|intros b'; by eapply costs_frames, around_forgo, around_lifecycle, numbers_allow].
    destruct (in_stream_window d) as [window|] eqn:Hd; [by apply run_costs|apply costs_done]. }
  by apply costs_work_on.
Qed.

(** ** Frames *)
Lemma safe_admission t a i time v (e : Envelope) (k : Admission → Program unit) :
  (∀ decision, safe t (λ g _, spent a g) (free a) (k decision)) →
  safe t (λ g _, spent a g) (free a) (Then (on_stream d0 (admit_frame us_to_ticks w i time v e)) k).
Proof.
  intros Hk. apply safe_section. intros gs st Hg HI. exists (free a). rewrite list_insert_id by done.
  split; [|apply Hk]. unfold admit_frame.
  destruct (negb (sl_active (st_links st i)) || _ || _) eqn:Htoken; [done|].
  destruct (Z.eqb_spec (sl_credits (st_links st i)) 0) as [_|Hcredits]; [done|].
  destruct (_ <=? _); [done|]. destruct (_ && _ && _); [done|].
  destruct (find_if is_unused _) as [x|] eqn:Hx; [|done]. cbn [snd].
  apply find_window in Hx as (Hlt & slot & Hslot & Hu).
  apply orb_false_elim in Htoken as [[Hact _]%orb_false_elim _]. apply negb_false_iff in Hact.
  destruct (decide (i = i0)) as [->|Hne].
  - unfold sound. simpl. rewrite fn_lookup_alter.
    apply (funded_admit link_count w i0 Hw Hw16 Hi0 gs (st_slots st) (st_links st i0) _ _ _ slot); try done. by apply window_index.
  - unfold sound. simpl. rewrite fn_lookup_alter_ne by done.
    apply (funded_benign link_count w i0 Hw Hw16 Hi0 gs (st_slots st)); [done|]. apply (benign_fill link_count w i0 Hw Hw16 Hi0 _ _ slot); [|done..]. by rewrite window_index.
Qed.
Lemma costs_frame fuel d i m : costs 0 (execute_in_stream_frame (V := V) (Rq := Rq) fuel d i m).
Proof.
  destruct (decide (d = d0)) as [->|Hne]; [|by apply costs_frames; eapply around_frame; [apply numbers_allow|]].
  pose proof numbers_allow as allow.
  assert (Herror : ∀ target code, costs 0 (protocol_error (A := Runtime V Rq) i 0 target code)) by (intros; by eapply costs_frames, around_error).
  apply costs_get. intros allowed. destruct (negb allowed); [apply Herror|]. rewrite Hwindow.
  destruct (decode_in_stream d0 _) as [v|]; [|apply Herror]. apply costs_get. intros time t a.
  apply safe_admission. intros [generation| | | |generation]; try apply Herror.
  - destruct (in_stream_inline d0); [apply costs_forgo, run_costs, Hwindow|]. apply costs_submit. apply costs_done.
  - apply (costs_bind 0 0); [by eapply costs_frames, around_restore|]. intros u. apply Herror.
Qed.

(** ** Opening and closing *)
Lemma costs_close fuel d i reason (notify : bool) :
  costs (if (d =? d0)%nat && (i =? i0)%nat then 1 else 0) (close_in_stream_link (V := V) (Rq := Rq) fuel d i reason notify).
Proof.
  pose proof numbers_allow as allow. destruct (Nat.eqb_spec d d0) as [->|Hne]; [|by apply costs_frames; eapply around_close].
  cbn [andb]. unfold close_in_stream_link. rewrite Hwindow. intros t a.
  assert (Hrest : ∀ closed, frames same_numbers (A := Z) match closed with
    | None => Done 0
    | Some token =>
      _ ⇇ execute_in_stream_close_lifecycle (V := V) (Rq := Rq) fuel d0 (mkCloseContext (data_id d0) i token reason);
      _ ⇇ (if notify then send_in_stream_closed i d0 token reason else Done tt);
      Done token
    end).
  { intros [token|]; [|done]. apply frames_bind; [by eapply around_closing|]. intros u.
    apply frames_bind; [destruct notify; [by eapply around_closed|done]|done]. }
  apply safe_section. intros gs st Hg HI. unfold close_section.
  destruct (Nat.leb_spec link_count i) as [Hge|Hlt]; cbn [orb fst snd].
  { exists (free ((if (i =? i0)%nat then 1 else 0) + a)). rewrite list_insert_id by done. split; [done|].
    apply (costs_frames (if (i =? i0)%nat then 1 else 0) _ (Hrest None)). }
  destruct (negb (sl_active (st_links st i))); cbn [fst snd].
  { exists (free ((if (i =? i0)%nat then 1 else 0) + a)). rewrite list_insert_id by done. split; [done|].
    apply (costs_frames (if (i =? i0)%nat then 1 else 0) _ (Hrest None)). }
  exists (free a). split; [|apply (costs_frames 0 _ (Hrest (Some _)))].
  assert (Hben : benign w i0 (st_slots st) (discard_pending w i (st_slots st))).
  { apply (benign_discard link_count w i0 Hw Hw16 Hi0); [done|]. by apply (fu_length _ _ _ _ _ _ HI). }
  destruct (Nat.eqb_spec i i0) as [->|Hne].
  - unfold sound. simpl. rewrite fn_lookup_alter. apply (funded_benign link_count w i0 Hw Hw16 Hi0 _ (st_slots st)); [|done].
    apply (funded_bump link_count w i0 Hw Hw16 Hi0 gs _ (st_links st i0) _ t (free (S a))); done.
  - unfold sound. simpl. rewrite fn_lookup_alter_ne by done. apply (funded_benign link_count w i0 Hw Hw16 Hi0 _ (st_slots st)); [|done].
    by rewrite list_insert_id.
Qed.
Lemma costs_close_one fuel d i reason (notify : bool) : costs 1 (close_in_stream_link (V := V) (Rq := Rq) fuel d i reason notify).
Proof. eapply costs_le, costs_close. destruct (_ && _); lia. Qed.
Lemma costs_reset fuel i reason : costs 1 (reset_in_stream_links (V := V) (Rq := Rq) fuel i reason).
Proof.
  apply (costs_endpoints _ _ _ d0); [|apply costs_forgo, costs_close_one]. intros d Hd. apply costs_forgo.
  pose proof (costs_close fuel d i reason false) as Hc. by rewrite (proj2 (Nat.eqb_neq _ _) Hd) in Hc.
Qed.
Lemma costs_first n k (p : nat → Program bool) : (∀ d, costs 0 (p d)) → costs 0 (first_true n k p).
Proof.
  intros Hp. revert k. induction n as [|n IH]; intros k; [apply costs_done|].
  apply (costs_bind 0 0); [apply Hp|]. intros [|]; [apply costs_done|apply IH].
Qed.
Lemma costs_room fuel d i : costs 1 (make_room (V := V) (Rq := Rq) fuel d i).
Proof.
  unfold make_room. destruct (in_stream_exclusive d) as [[group [|]]|].
  - apply (costs_bind 1 0); [|intros taken; apply costs_done]. apply (costs_le 0); [lia|]. apply costs_first. intros k.
    destruct (in_group group k); [|apply costs_done]. unfold in_stream_is_active. destruct (in_stream_window k); [|apply costs_done].
    apply costs_get. intros active. apply costs_done.
  - apply (costs_bind 1 0); [|intros u; apply costs_done]. apply (costs_endpoints _ _ _ d0).
    + intros d' Hd. destruct (in_group group d'); [|apply costs_done]. apply (costs_endpoints _ _ _ i0).
      * intros j Hj. apply costs_forgo. pose proof (costs_close fuel d' j CloseReason_Replaced true) as Hc.
        by rewrite (proj2 (Nat.eqb_neq _ _) Hd) in Hc.
      * apply costs_forgo. pose proof (costs_close fuel d' i0 CloseReason_Replaced true) as Hc.
        by rewrite (proj2 (Nat.eqb_neq _ _) Hd) in Hc.
    + destruct (in_group group d0); [|apply costs_done]. apply (costs_endpoints _ _ _ i0); [|apply costs_forgo, costs_close_one].
      intros j Hj. apply costs_forgo. pose proof (costs_close fuel d0 j CloseReason_Replaced true) as Hc.
      by rewrite (proj2 (Nat.eqb_neq _ _) Hj), andb_false_r in Hc.
  - apply (costs_bind 1 0); [apply costs_close_one|]. intros u. apply costs_done.
Qed.
Lemma safe_open_section t a d i (window : nat) token interval (k : bool → Program (result ErrorCode InStreamOpenResponse)) :
  in_stream_window d = Some window → (∀ b, costs 1 (k b)) →
  safe t (λ g _, spent a g) (free (2 + a)) (Then (on_stream d (open_section link_count window i token interval)) k).
Proof.
  intros Hd Hk.
  assert (Hlater : ∀ b, safe t (λ g _, spent a g) (free (2 + a)) (k b)) by (intros b; apply (costs_le 1 2); [lia|apply Hk]).
  destruct (decide (d = d0)) as [->|Hne].
  2: { apply safe_step; [intros; by apply (al_other _ _ numbers_allow)|apply Hlater]. }
  rewrite Hwindow in Hd. injection Hd as <-. apply safe_section. intros gs st Hg HI. unfold open_section.
  destruct (_ <=? _)%nat; cbn [fst snd].
  { exists (free (2 + a)). rewrite list_insert_id by done. split; [done|apply Hlater]. }
  destruct (decide (i = i0)) as [->|Hi].
  - exists (free (1 + a)). split; [|apply Hk]. unfold sound. rewrite alter_here.
    by apply (funded_open link_count w i0 Hw Hw16 Hi0 gs _ _ t (free (S (1 + a)))).
  - exists (free (2 + a)). rewrite list_insert_id by done. split; [|apply Hlater]. unfold sound. by rewrite alter_other.
Qed.
Lemma costs_open fuel d i (window : nat) request :
  in_stream_window d = Some window → costs 3 (open_in_stream (V := V) (Rq := Rq) fuel d i window request).
Proof.
  intros Hd. pose proof numbers_allow as allow. unfold open_in_stream. destruct (_ || _); [apply costs_done|].
  apply (costs_bind 1 2); [apply costs_room|]. intros room. destruct (negb room); [apply costs_done|].
  apply (costs_bind 0 2).
  { apply costs_frames. split; [intros; by apply (al_token _ _ allow)|]. intros token. destruct (_ =? 0); [|done].
    split; [intros; by apply (al_token _ _ allow)|done]. }
  intros token t a. apply safe_open_section; [done|]. intros opened. destruct (negb opened); [apply costs_done|].
  apply (costs_bind 0 1); [by eapply costs_frames, around_opening|]. intros accepted.
  destruct (negb accepted); [|apply costs_done]. apply (costs_bind 1 0); [apply costs_close_one|]. intros u. apply costs_done.
Qed.
Lemma costs_subscription fuel d i m (enable : bool) :
  costs 4 (process_in_stream_subscription_for (V := V) (Rq := Rq) fuel d i m enable).
Proof.
  pose proof numbers_allow as allow.
  assert (Hrefuse : ∀ e code, costs 0 (refuse (V := V) (Rq := Rq) i e code)) by (intros; by eapply costs_frames, around_refuse).
  assert (Hrefuse' : ∀ e code n, costs n (refuse (V := V) (Rq := Rq) i e code)) by (intros; apply (costs_le 0); [lia|apply Hrefuse]).
  unfold process_in_stream_subscription_for. destruct (in_stream_window d) as [window|] eqn:Hd; [|by eapply costs_frames, around_error].
  destruct enable.
  - unfold open_requested. destruct (asked true _) as [[request|error]|]; [|apply Hrefuse'|by apply costs_frames].
    apply (costs_bind 3 1); [by apply costs_open|]. intros [response|code]; [|apply Hrefuse'].
    destruct (encode_in_stream_open_response response); [|by apply costs_frames].
    apply (costs_bind 0 1); [by eapply costs_frames, around_respond|].
    intros [u|error]; [|by apply (costs_bind 1 0); [apply costs_close_one|]; intros; apply Hrefuse].
    apply (costs_bind 0 1); [by eapply costs_frames, around_stage|]. intros v. apply costs_get. intros credits.
    by eapply costs_frames, around_send_credit.
  - unfold close_requested. destruct (decode_in_stream_close_request _) as [[request|error]|]; [|apply Hrefuse'|by apply costs_frames].
    apply costs_get. intros current. case_bool_decide; [|apply Hrefuse'].
    apply (costs_bind 1 3); [apply costs_close_one|]. intros u.
    apply costs_frames. by apply frames_bind; [eapply around_respond|].
Qed.

(** ** Threads *)

(** What reaches the streams of a link, and the tasks of their consumers. *)
Inductive StreamArrival : Type := StreamSubscription (m : Decoded) (enable : bool) | StreamData (m : Decoded) | SessionEnd (reason : Z).
Inductive StreamThread : Type :=
  | StreamSession (fuel : nat) (arrivals : list (nat * StreamArrival))
  | StreamConsumer (fuel : nat) (targets : list Z).
Definition stream_arrive fuel i (x : StreamArrival) : Program unit :=
  match x with
  | StreamSubscription m enable =>
    forgo (process_in_stream_subscription_target (InStreams := in_streams_of fuel) i m enable)
  | StreamData m => forgo (dispatch_in_stream (InStreams := in_streams_of fuel) i m)
  | SessionEnd reason => reset_in_streams (InStreams := in_streams_of fuel) i reason
  end.
Definition stream_thread (th : StreamThread) : Program unit :=
  match th with
  | StreamSession fuel arrivals => one_by_one (λ '(i, x), stream_arrive fuel i x) arrivals
  | StreamConsumer fuel targets => one_by_one (λ target, forgo (process_in_stream_work fuel target)) targets
  end.
(** How often a thread may open or close one stream. *)
Definition openings (th : StreamThread) : nat := match th with StreamSession _ arrivals => 4 * length arrivals | _ => 0 end.

Lemma costs_one_by_one {X} n (f : X → Program unit) xs : (∀ x, costs n (f x)) → costs (n * length xs) (one_by_one f xs).
Proof.
  intros Hf. induction xs as [|x xs IH]; [apply costs_done|]. cbn [length]. rewrite Nat.mul_succ_r, Nat.add_comm.
  apply costs_bind; [apply Hf|]. intros u. apply IH.
Qed.
Lemma costs_thread th : costs (openings th) (stream_thread th).
Proof.
  destruct th as [fuel arrivals|fuel targets]; cbn [stream_thread openings].
  - apply costs_one_by_one. intros [i [m enable|m|reason]]; cbn [stream_arrive].
    + apply costs_forgo, costs_dispatch. intros d. apply costs_subscription.
    + apply (costs_le 0); [lia|]. apply costs_forgo, costs_dispatch. intros d. apply costs_frame.
    + apply (costs_le 1); [lia|]. apply costs_reset.
  - apply (costs_one_by_one 0). intros target. apply costs_forgo, costs_work.
Qed.

(** A stream in which no credit is given twice and no value is being consumed;
    its generation will not wrap in [n] more openings and closings. *)
Record in_order (n : nat) st : Prop := {
  io_length : length (st_slots st) = (link_count * w)%nat;
  io_credits : sl_active (st_links st i0) = true →
    0 ≤ sl_credits (st_links st i0) ∧ sl_credits (st_links st i0) + Z.of_nat (used w i0 (st_slots st)) ≤ Z.of_nat w;
  io_generation : 0 ≤ sl_generation (st_links st i0) ∧ sl_generation (st_links st i0) + Z.of_nat n < 2 ^ 32;
  io_slots : ∀ k slot, (k / w)%nat = i0 → st_slots st !! k = Some slot → is_unused slot = false →
    i_generation slot ≤ sl_generation (st_links st i0) }.
Lemma sound_start (ths : list StreamThread) st :
  in_order (sum_list_with openings ths) st → sound ((λ th, free (openings th)) <$> ths) st.
Proof.
  intros [I1 I2 I3 I4].
  assert (Hnone : ∀ t g, ((λ th, free (openings th)) <$> ths) !! t = Some g → holding g = None ∧ owing g = None).
  { intros t g Hg. by apply list_lookup_fmap_Some in Hg as (th & -> & _). }
  assert (Hall : allowed ((λ th, free (openings th)) <$> ths) = sum_list_with openings ths).
  { unfold allowed. clear. induction ths as [|th ths IH]; [done|]. cbn [fmap list_fmap sum_list_with]. by rewrite IH. }
  split; rewrite ?Hall; try done.
  - intros Hact. rewrite (owed_none link_count w i0 Hw Hw16 Hi0); [destruct (I2 Hact); lia|]. intros t g y Hg Hy. destruct (Hnone t g Hg) as [_ Ho]. congruence.
  - intros t g x Hg Hx. destruct (Hnone t g Hg) as [_ Ho]. congruence.
  - intros t g k x Hg Hx. destruct (Hnone t g Hg) as [Hh _]. congruence.
  - intros t t' g g' k x x' Hg _ Hx. destruct (Hnone t g Hg) as [Hh _]. congruence.
Qed.
Lemma sound_run (ths : list StreamThread) sch s s' progs :
  in_order (sum_list_with openings ths) (stream s) → Forall (λ te, willing te.2) sch →
  Interleave.run sch (s, stream_thread <$> ths) = (s', progs) → ∃ gs, sound gs (stream s').
Proof.
  intros Hs Hsch Hrun.
  assert (Hall : all_safe (λ gs s, sound gs (stream s)) willing (λ t g (_ : unit), True) (s', progs)).
  { rewrite <-Hrun. apply all_safe_run; [done|]. exists ((λ th, free (openings th)) <$> ths).
    split; [by apply sound_start|]. split; [cbn [snd]; by rewrite !length_fmap|].
    intros t p Hp. apply list_lookup_fmap_Some in Hp as (th & -> & Hth). exists (free (openings th)).
    split; [by rewrite list_lookup_fmap, Hth|]. eapply safe_mono; [|rewrite <-(Nat.add_0_r (openings th)); apply costs_thread]. done. }
  destruct Hall as (gs & HI & _). by exists gs.
Qed.
End Programs.

Section Bounds.
Context `{Config} {P : Platform} {V Rq : Type} `{!Catalog V Rq} `{!StreamCatalog V}.

(** C28: subscriptions, frames of streams and ends of sessions arrive on any
    links, and consumers work, in any interleaving, as long as the execution
    facility takes all the work it is given (a frame whose work it refuses may
    return its credit twice, and nothing of this is claimed then).  At every
    moment the credits of an active
    stream and the slots of its window that are in use fit the window, so a
    link that has a credit finds a free slot. *)
Theorem credits_within_window d i (w : nat) (ths : list StreamThread) sch (s s' : RemoteLinks.State (Runtime V Rq)) progs :
  in_stream_window d = Some w → (0 < w)%nat → Z.of_nat w < 2 ^ 16 → (i < link_count)%nat →
  in_order i w (sum_list_with openings ths) (stream d s) → Forall (λ te, willing te.2) sch →
  Interleave.run sch (s, stream_thread <$> ths) = (s', progs) →
  let st := stream d s' in
  sl_active (st_links st i) = true →
  0 ≤ sl_credits (st_links st i) ∧ sl_credits (st_links st i) + Z.of_nat (used w i (st_slots st)) ≤ Z.of_nat w
  ∧ (sl_credits (st_links st i) ≠ 0 → is_Some (find_if is_unused (window_of w i (st_slots st)))).
Proof.
  intros Hd Hw Hw16 Hi Hs Hsch Hrun st Hact.
  destruct (sound_run d i w Hd Hw Hw16 Hi ths sch s s' progs Hs Hsch Hrun) as [gs HI].
  destruct (fu_credits _ _ _ _ _ _ HI Hact) as [C1 C2]. fold st in C1, C2. split_and!; [done|lia|]. intros Hne.
  assert (Hroom : (i * w + w ≤ length (st_slots st))%nat) by (subst st; rewrite (fu_length _ _ _ _ _ _ HI); nia).
  pose proof (used_free w i (st_slots st) Hroom) as Hfree.
  destruct (find_if is_unused _) as [k|] eqn:Hk; [done|]. apply find_if_none in Hk.
  assert (free_slots w i (st_slots st) = 0%nat); [|lia]. unfold free_slots.
  induction Hk as [|slot slots Hslot _ IH]; [done|]. cbn [sum_list_with]. by rewrite Hslot, IH.
Qed.
End Bounds.
End StreamCredits.
