(* ===== verification/RemoteInStreamsExamples.v ===== *)
(** * RemoteInStreamsExamples: in-streams at concrete inputs

    One link and two data with in-streams, of windows two and one, whose
    consumers run in a worker; the witness of the theorem on credits, and the
    runs in which values change their order, a stream loses its last credit, a
    credit is given twice, and a response stays reserved. *)
From stdpp Require Import prelude functions.
From S2P Require Import Prelude Status Wire Protocol Cobs Frame Interleave RemoteLink RemoteService RemoteRuntime RemotePublish.
From S2P Require Import RemoteRing RemoteRequests RemoteRequestsProps RemoteInStreams RemoteInStreamsProps.
Import RemoteLinks RemoteServices Runtimes Publications Rings Requests Budget InboundStreams StreamCredits.

Open Scope Z_scope.
Open Scope solar_scope.

Module StreamExamples.

#[export] Instance small : Config := {|
  frame_bytes := 64; message_bytes := 96; lane_depth := 8; message_slots := 2; response_bytes := 32;
  max_requests := 4; reassembly_slots := 2; reassembly_timeout := 100; max_endpoints := 3; link_count := 1;
  link_grants := λ _, 7; runtime_introspection := true; manifest_retrieval := true; inspection_remote := true;
  event_depth := 32 |}.
#[export] Instance host : Platform := host_platform (Some 64%nat).

(** The data 0 and 1 have in-streams, the datum 2 has none.  The execution
    facility takes work when the clock is not 13. *)
#[export] Instance catalog : Catalog Z Z := {|
  data_count := 3; topic_count := 0; action_count := 0; data_id d := Z.of_nat d + 7; topic_id _ := 9; action_id _ := 0;
  push_policy _ := None; loaned_policy _ := None; has_poll _ := false; watch_policy _ := None;
  topic_policy _ := mkQueuePolicy 1 Reject; declared_rate _ := 0; has_query _ := false; has_update _ := false;
  inline_data _ := false; inline_action _ := false; asynchronous _ := false; action_permissions _ := 1;
  data_codec _ := 1; topic_codec _ := 1; max_encoded_size _ := 1%nat; encode_value _ v _ := Ok [v];
  decode_value _ bytes := hd_error bytes; decode_request _ bytes := hd_error bytes; act _ _ _ := Responds (Ok []);
  read _ _ := Responds (Ok []); write _ _ _ := Responds (Ok []);
  accepts_work _ env := negb (now env =? 13); max_stream_rate := 1000; us_to_ticks t := t |}.
#[export] Instance streams : StreamCatalog Z := {|
  in_stream_window d := (match d with 0 => Some 2 | 1 => Some 1 | _ => None end)%nat; in_stream_inline _ := false;
  in_stream_interval _ := 0; in_stream_exclusive _ := None; open_hooks _ := false; close_hooks _ := false;
  decode_in_stream _ bytes := hd_error bytes; consume _ _ _ := true; open_hook _ _ _ := true;
  acquire_poll_value _ _ := Err SNotSupported |}.

Definition no_loans : LoanState := mkLoanState [] [] false 0 0 0 0 0.
Definition fresh_runtime : Runtime Z Z :=
  mkRuntime (λ _, new_ring 1) (λ _, no_loans) (λ _, mkPending None default_envelope 0) (λ _, mkAsynchronous false default_envelope 0)
    (λ _, mkPending None default_envelope 0) (λ _, mkPending None default_envelope 0) []
    (λ d, new_in_stream (match d with 0 => 2 | _ => 1 end)%nat) 1 [] (λ _, new_poll).
Definition link : LinkState :=
  initial_link <| connected := true |> <| session := Active |> <| epoch := 1 |> <| grants := 7 |>.
Definition start : State (Runtime Z Z) := mkState true true 0 true (λ _, link) [] true 0 0 0 [] fresh_runtime.
Definition at_time (t : Z) : Env := mkEnv t 0 (λ _, Some TxAccepted) (λ _ _, None) (λ _, None) false SWouldBlock.
Definition env : Env := at_time 5.

Definition message (k reserved request target sequence : Z) (bytes : list Z) : Decoded :=
  mkDecoded (mkEnvelope major_version minor_version k 0 1 sequence target request 0 0 0 1 reserved) bytes.
Definition subscribe (request target : Z) : nat * StreamArrival :=
  (0%nat, StreamSubscription (message Kind_Subscribe Subscription_DataInStream request target 0 []) true).
(** A value of the stream with the token. *)
Definition value (token target sequence v : Z) : nat * StreamArrival := (0%nat, StreamData (message Kind_Data Operation_InStream token target sequence [v])).

Definition run_threads (sch : list (nat * Env)) (ths : list StreamThread) (s : State (Runtime Z Z)) :=
  Interleave.run sch (s, stream_thread <$> ths).
Definition in_time (t : Z) : nat → nat * Env := λ th, (th, at_time t).
Definition consumed (s : State (Runtime Z Z)) : list Z :=
  omap (λ c, match c with ConsumeValue _ _ _ v => Some v | _ => None end) (stream_calls (application s)).
Definition credits_of (d : nat) (s : State (Runtime Z Z)) : Z := sl_credits (st_links (stream d s) 0).

(** ** A session and a consumer *)
Definition threads : list StreamThread :=
  [StreamSession 8 [subscribe 1 7; value 1 7 1 10; value 1 7 2 20; value 1 7 3 30]; StreamConsumer 8 [7; 7; 7]].
Definition turns : list (nat * Env) := map (in_time 5) (replicate 35 0 ++ replicate 3 1)%nat.
Definition outcome := Interleave.run turns (start, stream_thread <$> threads).
Lemma stream_ran : Interleave.run turns (start, stream_thread <$> threads) = (outcome.1, outcome.2).
Proof. unfold outcome. apply surjective_pairing. Qed.
Lemma streams_willing : Forall (λ te, willing te.2) turns.
Proof. apply list.Forall_forall. intros [t e] Ht. apply list_elem_of_fmap in Ht as (t' & [= -> ->] & _). by intros w. Qed.
Lemma starts_in_order : in_order 0 2 (sum_list_with openings threads) (stream 0 start).
Proof.
  split; [reflexivity|discriminate|split; vm_compute; [discriminate|reflexivity]|].
  intros k slot _ Hk. vm_compute in Hk. destruct k as [|[|k]]; [injection Hk as <-; discriminate..|discriminate].
Qed.

(** The third value is refused: two are in the window, of which one is with
    the consumer. *)
Lemma credits_within_window_witness :
  credits_of 0 outcome.1 = 0 ∧ used 2 0 (st_slots (stream 0 outcome.1)) = 2%nat ∧ st_rejected (stream 0 outcome.1) = 1
  ∧ 0 ≤ credits_of 0 outcome.1 ∧ credits_of 0 outcome.1 + Z.of_nat (used 2 0 (st_slots (stream 0 outcome.1))) ≤ 2.
Proof.
  split; [vm_compute; reflexivity|]. split; [vm_compute; reflexivity|]. split; [vm_compute; reflexivity|].
  destruct (credits_within_window 0 0 2 threads turns start outcome.1 outcome.2) as (C1 & C2 & _).
  - reflexivity.
  - apply le_n_S, le_0_n.
  - vm_compute. reflexivity.
  - apply le_n.
  - exact starts_in_order.
  - exact streams_willing.
  - exact stream_ran.
  - vm_compute. reflexivity.
  - split; [exact C1|exact C2].
Defined.

(** ** The order of values *)

(** The consumer takes the first slot that is pending, and a value is put into
    the first that is free: the third value overtakes the second. *)
Example values_overtake :
  let s' := run_threads (map (in_time 5) (replicate 30 0 ++ replicate 12 1 ++ replicate 12 2 ++ replicate 40 1)%nat)
    [StreamSession 8 [subscribe 1 7; value 1 7 1 10; value 1 7 2 20]; StreamConsumer 8 [7; 7]; StreamSession 8 [value 1 7 3 30]] start in
  s'.2 = replicate 3 (Done tt) ∧ consumed s'.1 = [10; 30; 20].
Proof. vm_compute. auto. Qed.

(** ** A stream without credits *)

(** The stream is subscribed to again while its only slot is with the
    consumer.  The new stream begins with no credit, and the consumer returns
    the one of the old: the slot is free, the stream active, and no value will
    ever be admitted. *)
Example credit_of_the_replaced_is_lost :
  let s' := run_threads (map (in_time 5) (replicate 30 0 ++ replicate 3 1 ++ replicate 42 2 ++ replicate 40 1)%nat)
    [StreamSession 8 [subscribe 1 8; value 1 8 1 10]; StreamConsumer 8 [8]; StreamSession 8 [subscribe 2 8]] start in
  s'.2 = replicate 3 (Done tt) ∧ consumed s'.1 = [10]
  ∧ sl_active (st_links (stream 1 s'.1) 0) = true ∧ credits_of 1 s'.1 = 0 ∧ used 1 0 (st_slots (stream 1 s'.1)) = 0%nat.
Proof. vm_compute. auto 10. Qed.

(** ** A refused submission *)

(** The consumer, woken for the first value, takes the second as well and
    returns both credits; then the facility refuses the work of the second,
    and its credit is returned once more: three credits, two slots. *)
Example credit_returned_twice :
  let s' := run_threads (map (in_time 5) (replicate 24 0 ++ replicate 43 1)%nat ++ map (in_time 13) (replicate 42 0)%nat)
    [StreamSession 8 [subscribe 1 7; value 1 7 1 10; value 1 7 2 20]; StreamConsumer 8 [7]] start in
  s'.2 = replicate 2 (Done tt) ∧ consumed s'.1 = [10; 20] ∧ credits_of 0 s'.1 = 3.
Proof. vm_compute. auto. Qed.

(** ** A response that stays reserved *)

(** A subscription to the in-stream of a datum that has none is answered with
    an error, and its response is never given back; one to a target nobody
    knows gives it back. *)
Definition responses_after (target : Z) : option (list (Z * bool)) :=
  match alone env (process_subscription (InStreams0 := in_streams_of 8) 0 (message Kind_Subscribe Subscription_DataInStream 1 target 0 []) true) start with
  | Some (_, s) => Some (map (λ r, (rs_request r, rs_reserved r)) (responses (links s 0)))
  | None => None
  end.
Example unsupported_keeps_response :
  responses_after 9 = Some ((1, true) :: replicate 3 (0, false)) ∧ responses_after 50 = Some (replicate 4 (0, false)).
Proof. vm_compute. auto. Qed.
End StreamExamples.
