(* ===== verification/Health.v ===== *)
(** * Health: the evidence about components and what is made of it

    Models [include/solar/health/types.hpp], [facility.hpp] and [runtime.hpp]:
    the evidence that components, checks, monitors and other facilities give,
    its aggregation into the record of a component and of the system, the
    history of transitions, the reports of interrupts, and the refresh of the
    evidence.  What the other facilities and the hooks of the application
    answer is the environment [Env] of a step.  A section under the mutex is
    one step; a program may run beside others on the same [World]. *)
From stdpp Require Import prelude functions.
From S2P Require Import Prelude Status Lifecycle Interleave.

Open Scope Z_scope.
Open Scope solar_scope.

Module Healths.

(** ** Data *)
Inductive Condition : Set := CUnknown | CNominal | CDegraded | CFaulted.
Inductive Liveness : Set := LUnknown | LLive | LLate | LStalled | LExited.
Inductive Readiness : Set := RUnknown | RReady | RNotReady.
Inductive Safety : Set := SafetyUnknown | SafetyAcceptable | SafetyAtRisk | SafetyUnsafe.
Inductive Freshness : Set := FUnknown | FCurrent | FStale.
Inductive EvidenceQuality : Set := QDirect | QReported | QInferred.
Inductive SourceKind : Set :=
  | KSelfReport | KComponentAssessment | KLifecycle | KExecution | KMonitor | KEvents | KMetrics | KLogging | KRemote
  | KHardware.
Inductive SourceAvailability : Set := AUnknown | AAvailable | AUnavailable | AUnsupported.
Inductive MonitorKind : Set := MCheck | MProgress | MStackMargin | MExecution | MSignal.
Inductive Operation : Set := OpReport | OpReportIsr | OpProgress | OpAssess | OpCheck | OpRefresh | OpQuery | OpHistoryRead.
Inductive Reason : Set :=
  | RsNotReady | RsDisabled | RsNotRegistered | RsInvalidAssessment | RsUnsupported | RsUnavailable | RsBusy | RsStale
  | RsIngressFull | RsSourceFailed | RsInternalInvariant.
#[export] Instance Condition_eq_dec : EqDecision Condition. Proof. solve_decision. Defined.
#[export] Instance Liveness_eq_dec : EqDecision Liveness. Proof. solve_decision. Defined.
#[export] Instance Readiness_eq_dec : EqDecision Readiness. Proof. solve_decision. Defined.
#[export] Instance Safety_eq_dec : EqDecision Safety. Proof. solve_decision. Defined.
#[export] Instance Freshness_eq_dec : EqDecision Freshness. Proof. solve_decision. Defined.
#[export] Instance SourceKind_eq_dec : EqDecision SourceKind. Proof. solve_decision. Defined.
#[export] Instance SourceAvailability_eq_dec : EqDecision SourceAvailability. Proof. solve_decision. Defined.
#[export] Instance Operation_eq_dec : EqDecision Operation. Proof. solve_decision. Defined.
#[export] Instance Reason_eq_dec : EqDecision Reason. Proof. solve_decision. Defined.

(** A component is named by its index, a monitor by its place in the
    catalogue; [None] is a local identity that is not valid. *)
Record Error : Set := mkError {
  e_status : Status; e_reason : Reason; e_operation : Operation; e_subject : option nat; e_monitor : option nat;
  e_native : Z; e_detail : Z }.
#[export] Instance Error_eq_dec : EqDecision Error. Proof. solve_decision. Defined.
Record EvidenceRef : Set := mkEvidenceRef {
  r_quality : EvidenceQuality; r_subject : nat; r_monitor : option nat; r_source_kind : SourceKind; r_source_id : Z }.
Record Assessment : Set := mkAssessment {
  condition : Condition; liveness : Liveness; readiness : Readiness; safety : Safety; freshness : Freshness;
  last_error : option Error; detail : Z; recovering : bool }.
#[export] Instance Assessment_eq_dec : EqDecision Assessment. Proof. solve_decision. Defined.
#[export] Instance Assessment_fields : Fields Assessment := λ a,
  mkAssessment (condition a) (liveness a) (readiness a) (safety a) (freshness a) (last_error a) (detail a) (recovering a).
Definition no_assessment : Assessment := mkAssessment CUnknown LUnknown RUnknown SafetyUnknown FCurrent None 0 false.

Record Observation : Set := mkObservation {
  o_assessment : Assessment; o_quality : EvidenceQuality; o_availability : SourceAvailability; o_observed_at : Z;
  o_stale_after : Z; o_required : bool; o_explicit_recovery : bool }.
#[export] Instance Observation_fields : Fields Observation := λ o,
  mkObservation (o_assessment o) (o_quality o) (o_availability o) (o_observed_at o) (o_stale_after o) (o_required o)
    (o_explicit_recovery o).
Definition no_observation : Observation := mkObservation no_assessment QDirect AAvailable 0 0 false false.
Record CompactObservation : Set := mkCompact {
  co_condition : Condition; co_liveness : Liveness; co_readiness : Readiness; co_safety : Safety; co_status : Status;
  co_detail : Z; co_recovering : bool }.

Record SubjectRecord : Set := mkSubject {
  s_condition : Condition; s_liveness : Liveness; s_readiness : Readiness; s_safety : Safety; s_freshness : Freshness;
  s_assessed_at : Z; s_last_transition : Z; s_generation : Z; s_transition_count : Z; s_report_count : Z;
  s_repeated_count : Z; s_last_error : option Error; s_primary : option EvidenceRef; s_recovering : bool }.
#[export] Instance SubjectRecord_fields : Fields SubjectRecord := λ s,
  mkSubject (s_condition s) (s_liveness s) (s_readiness s) (s_safety s) (s_freshness s) (s_assessed_at s)
    (s_last_transition s) (s_generation s) (s_transition_count s) (s_report_count s) (s_repeated_count s)
    (s_last_error s) (s_primary s) (s_recovering s).
Definition new_subject : SubjectRecord :=
  mkSubject CUnknown LUnknown RUnknown SafetyUnknown FUnknown 0 0 0 0 0 0 None None false.
Record MonitorRecord : Set := mkMonitor {
  m_observation : Observation; m_observations : Z; m_failures : Z; m_recoveries : Z; m_stale_transitions : Z;
  m_has_observation : bool; m_stale : bool }.
#[export] Instance MonitorRecord_fields : Fields MonitorRecord := λ m,
  mkMonitor (m_observation m) (m_observations m) (m_failures m) (m_recoveries m) (m_stale_transitions m)
    (m_has_observation m) (m_stale m).
Record SystemRecord : Set := mkSystem {
  y_condition : Condition; y_readiness : Readiness; y_safety : Safety; y_freshness : Freshness;
  y_nominal : Z; y_degraded : Z; y_faulted : Z; y_unknown : Z; y_stale : Z; y_primary : option EvidenceRef;
  y_generation : Z; y_assessed_at : Z; y_isr_admitted : Z; y_isr_dropped : Z }.
#[export] Instance SystemRecord_fields : Fields SystemRecord := λ y,
  mkSystem (y_condition y) (y_readiness y) (y_safety y) (y_freshness y) (y_nominal y) (y_degraded y) (y_faulted y)
    (y_unknown y) (y_stale y) (y_primary y) (y_generation y) (y_assessed_at y) (y_isr_admitted y) (y_isr_dropped y).
Definition new_system : SystemRecord := mkSystem CUnknown RUnknown SafetyUnknown FUnknown 0 0 0 0 0 None 0 0 0 0.

Record Receipt : Set := mkReceipt { rc_subject : nat; rc_generation : Z; rc_transitioned : bool; rc_repeated : bool }.
Record ProgressReceipt : Set := mkProgressReceipt { pr_subject : nat; pr_generation : Z; pr_observed_at : Z }.
Record TransitionRecord : Set := mkTransition {
  t_sequence : Z; t_subject : nat; t_previous : Condition; t_current : Condition; t_occurred_at : Z;
  t_evidence : option EvidenceRef }.
Record HistoryPage : Set := mkHistoryPage { hp_next : Z; hp_written : nat; hp_available : Z; hp_overwritten : Z }.

(** [EvidenceState]; a subject has one for each member of [SubjectState]. *)
Record EvidenceState : Set := mkEvidence {
  v_assessment : Assessment; v_quality : EvidenceQuality; v_availability : SourceAvailability; v_observed_at : Z;
  v_stale_after : Z; v_source_kind : SourceKind; v_source_id : Z; v_required : bool; v_present : bool }.
Definition no_evidence : EvidenceState := mkEvidence no_assessment QDirect AUnknown 0 0 KSelfReport 0 false false.
Inductive Source : Set :=
  | FromReport | FromAssessment | FromLifecycle | FromExecution | FromEvents | FromMetrics | FromLogging | FromRemote
  | FromHardware.
#[export] Instance Source_eq_dec : EqDecision Source. Proof. solve_decision. Defined.
(** The order in which the members are merged. *)
Definition sources : list Source :=
  [FromReport; FromAssessment; FromLifecycle; FromExecution; FromEvents; FromMetrics; FromLogging; FromRemote; FromHardware].
Record ProgressState : Set := mkProgress { p_generation : Z; p_observed_at : Z }.
#[export] Instance ProgressState_fields : Fields ProgressState := λ p, mkProgress (p_generation p) (p_observed_at p).
Record IsrReport : Set := mkIsrReport { ir_subject : nat; ir_observation : CompactObservation; ir_observed_at : Z }.

(** ** Comparisons *)
Definition condition_rank (c : Condition) : nat := match c with CUnknown => 0 | CNominal => 1 | CDegraded => 2 | CFaulted => 3 end.
Definition liveness_rank (l : Liveness) : nat :=
  match l with LUnknown => 0 | LLive => 1 | LLate => 2 | LStalled => 3 | LExited => 4 end.
Definition safety_rank (s : Safety) : nat :=
  match s with SafetyUnknown => 0 | SafetyAcceptable => 1 | SafetyAtRisk => 2 | SafetyUnsafe => 3 end.
Definition freshness_rank (f : Freshness) : nat := match f with FUnknown => 0 | FCurrent => 1 | FStale => 2 end.
Definition greater {A} (rank : A → nat) (left right : A) : A := if (rank left <? rank right)%nat then right else left.
Definition worse_condition : Condition → Condition → Condition := greater condition_rank.
Definition worse_liveness : Liveness → Liveness → Liveness := greater liveness_rank.
Definition worse_safety : Safety → Safety → Safety := greater safety_rank.
Definition worse_readiness (left right : Readiness) : Readiness :=
  match left, right with
  | RNotReady, _ | _, RNotReady => RNotReady
  | RUnknown, _ | _, RUnknown => RUnknown
  | RReady, RReady => RReady
  end.
Definition expired (now observed stale_after : Z) : bool :=
  (0 <? observed) && (0 <? stale_after) && (stale_after <? now - observed).

(** ** The system *)

(** What the declarations say; times in ticks.  [assess_period]: [None] for a
    component without [assess], 0 for one assessed at every refresh.
    [remote_subject] is the service of the remote facility, if there is one. *)
Class HealthConfig := {
  subject_count : nat;
  monitor_count : nat;
  category : nat → ComponentCategory;
  assess_period : nat → option Z;
  remote_subject : option nat;
  monitor_subject : nat → nat;
  monitor_kind : nat → MonitorKind;
  monitor_period : nat → Z;
  monitor_stale_after : nat → Z;
  monitor_margin : nat → Z;
  monitor_required : nat → bool;
  history_depth : nat;
  ingress_depth : nat;
  default_stale : Z;
  progress_grace : Z }.
Definition stale_ticks `{HealthConfig} (declared : Z) : Z := if 0 <? declared then declared else default_stale.

Record Storage : Type := mkStorage {
  subjects : nat → SubjectRecord;
  subject_state : nat → Source → EvidenceState;
  monitors : nat → MonitorRecord;
  progress_cells : nat → ProgressState;
  history : nat → TransitionRecord;
  ingress : list IsrReport;
  system : SystemRecord;
  next_history_sequence : Z;
  history_overwritten : Z;
  first_refresh : Z;
  isr_admitted : Z;
  isr_dropped : Z;
  supervisor_waker : bool;
  wake : bool }.                       (* the semaphore that the waker gives *)
#[export] Instance Storage_fields : Fields Storage := λ s,
  mkStorage (subjects s) (subject_state s) (monitors s) (progress_cells s) (history s) (ingress s) (system s)
    (next_history_sequence s) (history_overwritten s) (first_refresh s) (isr_admitted s) (isr_dropped s)
    (supervisor_waker s) (wake s).
Definition no_transition : TransitionRecord := mkTransition 0 0 CUnknown CUnknown 0 None.
Definition new_monitor (required : bool) : MonitorRecord :=
  mkMonitor (no_observation <| o_required := required |>) 0 0 0 0 false false.
Definition new_storage `{HealthConfig} : Storage :=
  mkStorage (λ _, new_subject) (λ _ _, no_evidence) (λ m, new_monitor (monitor_required m)) (λ _, mkProgress 0 0)
    (λ _, no_transition) [] new_system 1 0 0 0 0 false false.

(** ** Errors *)
Definition make_error (status : Status) (reason : Reason) (operation : Operation) (subject monitor : option nat)
    (native detail : Z) : Error := mkError status reason operation subject monitor native detail.
(** An error of the facility itself, a status, a structure with a status (and
    a native code, or 0), or anything else. *)
Inductive ForeignError : Set :=
  | OwnError (error : Error) | StatusError (status : Status) | StructError (status : Status) (native : Z) | OtherError.
Definition normalize_error `{Errno} (error : ForeignError) (operation : Operation) (subject monitor : option nat) : Error :=
  match error with
  | OwnError e => mkError (e_status e) (e_reason e) operation subject monitor (e_native e) (e_detail e)
  | StatusError status => make_error status RsSourceFailed operation subject monitor (to_native_errno status) 0
  | StructError status native => make_error status RsSourceFailed operation subject monitor native 0
  | OtherError => make_error SError RsSourceFailed operation subject monitor 0 0
  end.

(** ** Aggregation *)
Section Aggregation.
Context `{HealthConfig} {W : Errno}.
Implicit Types (s : Storage) (i m : nat) (now : Z).

Record Aggregate : Set := mkAggregate {
  aggregate : Assessment; has_evidence : bool; required_unknown : bool; primary : option EvidenceRef }.
#[export] Instance Aggregate_fields : Fields Aggregate := λ a,
  mkAggregate (aggregate a) (has_evidence a) (required_unknown a) (primary a).
Definition no_aggregate : Aggregate := mkAggregate (no_assessment <| freshness := FUnknown |>) false false None.

(** What a piece of evidence counts for: one that has expired is stale, and
    degraded at best if it is required. *)
Definition aged now (v : EvidenceState) : Assessment :=
  let a := v_assessment v in
  if expired now (v_observed_at v) (v_stale_after v) then
    let a := a <| freshness := FStale |> in
    if v_required v && negb (bool_decide (condition a = CFaulted)) then a <| condition := CDegraded |> else a
  else a.
Definition join (a b : Assessment) : Assessment :=
  let raised := negb (bool_decide (worse_condition (condition a) (condition b) = condition a)) in
  mkAssessment (worse_condition (condition a) (condition b))
    (if bool_decide (liveness b = LUnknown) then liveness a else worse_liveness (liveness a) (liveness b))
    (if bool_decide (readiness b = RUnknown) then readiness a else
     if bool_decide (readiness a = RUnknown) then readiness b else worse_readiness (readiness a) (readiness b))
    (if bool_decide (safety b = SafetyUnknown) then safety a else worse_safety (safety a) (safety b))
    (if (freshness_rank (freshness a) <? freshness_rank (freshness b))%nat then freshness b else freshness a)
    (match last_error b with
     | Some e => if bool_decide (last_error a = None) || raised then Some e else last_error a
     | None => last_error a
     end) (detail a) (recovering a || recovering b).
Definition merge i now (a : Aggregate) (v : EvidenceState) (monitor : option nat) : Aggregate :=
  if negb (v_present v) then if v_required v then a <| required_unknown := true |> else a else
  let a := a <| has_evidence := true |> in
  if negb (bool_decide (v_availability v = AAvailable)) && v_required v then a <| required_unknown := true |> else
  let b := aged now v in
  if negb (v_required v) && negb (bool_decide (condition b = CNominal)) then a else
  let old := condition (aggregate a) in
  let joined := join (aggregate a) b in
  mkAggregate joined (has_evidence a) (required_unknown a)
    (if bool_decide (primary a = None) || negb (bool_decide (condition joined = old))
     then Some (mkEvidenceRef (v_quality v) i monitor (v_source_kind v) (v_source_id v)) else primary a).

(** The loop over the monitors, which also marks those that have expired. *)
Definition monitor_evidence (r : MonitorRecord) : EvidenceState :=
  let o := m_observation r in
  mkEvidence (o_assessment o) (o_quality o) (o_availability o) (o_observed_at o) (o_stale_after o) KSelfReport 0
    (o_required o) (m_has_observation r).
Definition mark_stale now (r : MonitorRecord) : MonitorRecord :=
  let v := monitor_evidence r in
  let is_stale := v_present v && expired now (v_observed_at v) (v_stale_after v) in
  (if is_stale && negb (m_stale r) then r <| m_stale_transitions ::= inc64 |> else r) <| m_stale := is_stale |>.
Definition merge_monitor i now (x : Aggregate * (nat → MonitorRecord)) m : Aggregate * (nat → MonitorRecord) :=
  if (monitor_subject m =? i)%nat
  then (merge i now x.1 (monitor_evidence (x.2 m)) (Some m), <[m := mark_stale now (x.2 m)]> x.2) else x.
Definition aggregate_of i now (state : Source → EvidenceState) (ms : nat → MonitorRecord) : Aggregate * (nat → MonitorRecord) :=
  foldl (merge_monitor i now) (foldl (λ a src, merge i now a (state src) None) no_aggregate sources, ms) (seq 0 monitor_count).
Definition conclude (a : Aggregate) : Assessment :=
  if negb (has_evidence a) || (required_unknown a && bool_decide (condition (aggregate a) = CNominal))
  then aggregate a <| condition := CUnknown |> else aggregate a.

(** ** The records *)
Definition assessment_of (r : SubjectRecord) : Assessment :=
  mkAssessment (s_condition r) (s_liveness r) (s_readiness r) (s_safety r) (s_freshness r) (s_last_error r) 0 (s_recovering r).
Definition append_history i (r : SubjectRecord) (previous : Condition) (evidence : option EvidenceRef) s : Storage :=
  if bool_decide (previous = s_condition r) then s else
  let next := next_history_sequence s in
  let k := Z.to_nat ((next - 1) mod Z.of_nat history_depth) in
  let s := if Z.of_nat history_depth <? next then s <| history_overwritten ::= inc64 |> else s in
  s <| history ::= <[k := mkTransition next i previous (s_condition r) (s_assessed_at r) evidence]> |>
    <| next_history_sequence ::= inc64 |>.
Definition recompute_subject i now s : Storage :=
  let r := subjects s i in
  let '(a, ms) := aggregate_of i now (subject_state s i) (monitors s) in
  let c := conclude a in
  let r' := mkSubject (condition c) (liveness c) (readiness c) (safety c) (freshness c) now (s_last_transition r)
              (inc64 (s_generation r)) (s_transition_count r) (s_report_count r) (s_repeated_count r) (last_error c)
              (primary a) (recovering c) in
  let changed := negb (bool_decide (s_condition r = condition c)) in
  let r' := if changed then r' <| s_transition_count ::= inc64 |> <| s_last_transition := now |> else r' in
  let s := s <| subjects ::= <[i := r']> |> <| monitors := ms |> in
  if bool_decide (assessment_of r' = assessment_of r) then s else append_history i r' (s_condition r) (primary a) s.

Definition count_condition (y : SystemRecord) (c : Condition) : SystemRecord :=
  match c with
  | CUnknown => y <| y_unknown ::= inc32 |>
  | CNominal => y <| y_nominal ::= inc32 |>
  | CDegraded => y <| y_degraded ::= inc32 |>
  | CFaulted => y <| y_faulted ::= inc32 |>
  end.
Definition count_freshness (y : SystemRecord) (f : Freshness) : SystemRecord :=
  match f with
  | FStale => y <| y_stale ::= inc32 |> <| y_freshness := FStale |>
  | FUnknown => if bool_decide (y_freshness y = FStale) then y else y <| y_freshness := FUnknown |>
  | FCurrent => y
  end.
(** The second component is [primary_condition]. *)
Definition count_subject (x : SystemRecord * Condition) (r : SubjectRecord) : SystemRecord * Condition :=
  let y := count_freshness (count_condition x.1 (s_condition r)) (s_freshness r) in
  let y := y <| y_readiness ::= (λ a, worse_readiness a (s_readiness r)) |> <| y_safety ::= (λ a, worse_safety a (s_safety r)) |> in
  match s_primary r with
  | Some evidence => if (condition_rank x.2 <? condition_rank (s_condition r))%nat
                     then (y <| y_primary := Some evidence |>, s_condition r) else (y, x.2)
  | None => (y, x.2)
  end.
Definition summary (rs : list SubjectRecord) : SystemRecord :=
  let y := (foldl count_subject (new_system <| y_readiness := RReady |> <| y_safety := SafetyAcceptable |>
                                  <| y_freshness := FCurrent |>, CUnknown) rs).1 in
  y <| y_condition := if 0 <? y_faulted y then CFaulted else if 0 <? y_degraded y then CDegraded else
                      if 0 <? y_unknown y then CUnknown else CNominal |>.
Definition subject_list s : list SubjectRecord := subjects s <$> seq 0 subject_count.
Definition recompute_system now s : Storage :=
  s <| system := summary (subject_list s) <| y_generation := inc64 (y_generation (system s)) |> <| y_assessed_at := now |>
                   <| y_isr_admitted := isr_admitted s |> <| y_isr_dropped := isr_dropped s |> |>.
Definition recompute i now s : Storage := recompute_system now (recompute_subject i now s).

(** A page of the history.  The loop ends after [depth] entries at most, since
    the entries from the oldest on are that many. *)
Fixpoint page_loop (fuel : nat) s (sequence : Z) (room : nat) (taken : list TransitionRecord) : list TransitionRecord * Z :=
  match fuel with
  | O => (taken, sequence)
  | S fuel =>
    if (sequence <? next_history_sequence s) && (length taken <? room)%nat then
      let entry := history s (Z.to_nat ((sequence - 1) mod Z.of_nat history_depth)) in
      page_loop fuel s (inc64 sequence) room (if t_sequence entry =? sequence then taken ++ [entry] else taken)
    else (taken, sequence)
  end.
Definition oldest_entry s : Z :=
  let newest := next_history_sequence s in
  if Z.of_nat history_depth <? newest then newest - Z.of_nat history_depth else 1.
Definition read_page (cursor : Z) (room : nat) s : HistoryPage * list TransitionRecord :=
  let oldest := oldest_entry s in
  let sequence := if cursor =? 0 then oldest else cursor in
  let sequence := if sequence <? oldest then oldest else sequence in
  let '(taken, next) := page_loop history_depth s sequence room [] in
  (mkHistoryPage next (length taken) (next_history_sequence s - oldest) (history_overwritten s), taken).
End Aggregation.

(** ** The environment of a step *)

(** What the records of other components say. *)
Record ServiceFacts : Set := mkServiceFacts {
  sf_timed_out : bool; sf_uncontained : bool; sf_exited : bool; sf_exited_after_stop : bool; sf_running : bool;
  sf_run_status : Status; sf_thread : bool }.
Record ExecutorFacts : Set := mkExecutorFacts {
  xf_timed_out : bool; xf_unexpected_exit : bool; xf_uncontained : bool; xf_started : bool; xf_stopped : bool;
  xf_accepting : bool; xf_last_status : Status; xf_thread : bool }.
Record LinkFacts : Set := mkLinkFacts {
  lf_faulted : bool; lf_protocol_errors : Z; lf_rejected_frames : Z; lf_dropped : list Z }.
Record RemoteFacts : Set := mkRemoteFacts { rf_ready : bool; rf_accepting : bool; rf_dropped_events : Z; rf_links : list LinkFacts }.
(** [supervisor_env] is what the actions of the supervisor meet with. *)
Record Env (X : Type) : Type := mkEnv {
  now : Z;
  in_isr : bool;
  lifecycle_record : nat → result ForeignError (ComponentState * Status);
  service_record : nat → ServiceFacts;
  executor_record : nat → ExecutorFacts;
  remote_record : RemoteFacts;
  stack_unused : nat → result ForeignError Z;
  assess : nat → result ForeignError Assessment;
  check : nat → result ForeignError Observation;
  supervisor_env : X }.
Arguments mkEnv {X}. Arguments now {X}. Arguments in_isr {X}. Arguments lifecycle_record {X}. Arguments service_record {X}.
Arguments executor_record {X}. Arguments remote_record {X}. Arguments stack_unused {X}. Arguments assess {X}.
Arguments check {X}. Arguments supervisor_env {X}.
(** [rest] is the state of what uses the facility. *)
Record World (A : Type) : Type := mkWorld { health : Storage; rest : A }.
Arguments mkWorld {A}. Arguments health {A}. Arguments rest {A}.
#[export] Instance World_fields {A} : Fields (World A) := λ w, mkWorld (health w) (rest w).

Section Operations.
Context `{HealthConfig} {W : Errno} {X A : Type}.
Local Abbreviation Env := (Env X).
Local Abbreviation World := (World A).
Local Abbreviation Program := (Prog Env World).
Implicit Types (i m : nat) (e : Env) (w : World).
Open Scope prog_scope.

Definition get {B} (f : Env → Storage → B) e w : B * World := (f e (health w), w).
Definition put (f : Storage → Storage) (_ : Env) w : unit * World := (tt, w <| health ::= f |>).
Definition forgo {B} (p : Program B) : Program unit := _ ⇇ p; Done tt.
Definition for_each (n : nat) (p : nat → Program unit) : Program unit :=
  (fix loop k i := match k with O => Done tt | S k => _ ⇇ p i; loop k (S i) end) n 0%nat.

(** [with_storage]: the mutex is refused to an interrupt. *)
Definition with_storage {B} (operation : Operation) (f : Storage → B * Storage) : Program (result Error B) :=
  answer ← (λ e w, if in_isr e then (Err (make_error SInvalid RsBusy operation None None 0 0), w)
                   else let '(b, s) := f (health w) in (Ok b, w <| health := s |>));
  Done answer.
Definition change (operation : Operation) (f : Storage → Storage) : Program (result Error unit) :=
  with_storage operation (λ s, (tt, f s)).
Definition look {B} (operation : Operation) (f : Storage → B) : Program (result Error B) := with_storage operation (λ s, (f s, s)).
(** The waker of the supervisor gives its semaphore. *)
Definition wake_supervisor : Program unit := _ ← put (λ s, if supervisor_waker s then s <| wake := true |> else s); Done tt.

(** ** Reports *)
Definition report_section i (a : Assessment) (quality : EvidenceQuality) (time : Z) (s : Storage) : Receipt * Storage :=
  let source := subject_state s i FromReport in
  let repeated := v_present source && bool_decide (v_assessment source = a) in
  let v := mkEvidence a quality AAvailable time default_stale KSelfReport 0 true true in
  let transitions := s_transition_count (subjects s i) in
  let s := s <| subject_state ::= <[i := <[FromReport := v]> (subject_state s i)]> |>
             <| subjects ::= alter (λ r, let r := r <| s_report_count ::= inc64 |> in
                                         if repeated then r <| s_repeated_count ::= inc64 |> else r) i |> in
  let s := recompute i time s in
  (mkReceipt i (s_generation (subjects s i)) (negb (transitions =? s_transition_count (subjects s i))) repeated, s).
Definition report i (a : Assessment) (quality : EvidenceQuality) : Program (result Error Receipt) :=
  time ← get (λ e _, now e);
  receipt ⇇ with_storage OpReport (report_section i a quality time);
  match receipt with
  | Err error => Done (Err error)
  | Ok receipt => _ ⇇ wake_supervisor; Done (Ok receipt)
  end.
Definition progress i : Program ProgressReceipt :=
  time ← get (λ e _, now e);
  _ ← put (λ s, s <| progress_cells ::= alter (λ p, p <| p_observed_at := time |>) i |>);
  generation ← (λ _ w, let s := health w in
                       (inc64 (p_generation (progress_cells s i)),
                        w <| health := s <| progress_cells ::= alter (λ p, p <| p_generation ::= inc64 |>) i |> |>));
  Done (mkProgressReceipt i generation time).
Definition adapter_source (kind : SourceKind) : Source :=
  match kind with
  | KMetrics => FromMetrics | KLogging => FromLogging | KRemote => FromRemote | KHardware => FromHardware | _ => FromEvents
  end.
Definition commit_adapter i (a : Assessment) (kind : SourceKind) (source_id : Z) : Program (result Error unit) :=
  time ← get (λ e _, now e);
  change OpReport (λ s,
    recompute i time (s <| subject_state ::= <[i := <[adapter_source kind :=
      mkEvidence a QDirect AAvailable time default_stale kind source_id true true]> (subject_state s i)]> |>)).
Definition report_isr i (observation : CompactObservation) : Program (result Error unit) :=
  time ← get (λ e _, now e);
  sent ← (λ _ w, let s := health w in
                 if (length (ingress s) <? ingress_depth)%nat
                 then (true, w <| health := s <| ingress ::= (λ l, l ++ [mkIsrReport i observation time]) |> |>) else (false, w));
  if negb sent then
    _ ← put (λ s, s <| isr_dropped ::= inc64 |>);
    Done (Err (make_error SNoSpace RsIngressFull OpReportIsr (Some i) None 0 0))
  else
    _ ← put (λ s, s <| isr_admitted ::= inc64 |>);
    _ ⇇ wake_supervisor; Done (Ok tt).
Definition compact_assessment (r : IsrReport) : Assessment :=
  let c := ir_observation r in
  mkAssessment (co_condition c) (co_liveness c) (co_readiness c) (co_safety c) FCurrent
    (if bool_decide (co_status c = SOk) then None
     else Some (make_error (co_status c) RsSourceFailed OpReportIsr (Some (ir_subject r)) None (to_native_errno (co_status c))
                  (co_detail c))) (co_detail c) (co_recovering c).
Fixpoint drain_isr (fuel : nat) (drained : nat) : Program nat :=
  match fuel with
  | O => Stalled
  | S fuel =>
    received ← (λ _ w, let s := health w in
                       match ingress s with
                       | [] => (None, w)
                       | r :: rs => (Some r, w <| health := s <| ingress := rs |> |>)
                       end);
    match received with
    | None => Done drained
    | Some r =>
      _ ⇇ (if (ir_subject r <? subject_count)%nat then forgo (report (ir_subject r) (compact_assessment r) QReported) else Done tt);
      drain_isr fuel (S drained)
    end
  end.

(** ** Queries *)
Definition subject_record i : Program (result Error SubjectRecord) := look OpQuery (λ s, subjects s i).
Definition subject_records : Program (list SubjectRecord) :=
  copy ⇇ look OpQuery subject_list; Done (match copy with Ok l => l | Err _ => replicate subject_count new_subject end).
Definition monitors_of i : list nat := List.filter (λ m, monitor_subject m =? i)%nat (seq 0 monitor_count).
Definition monitor_records i : Program (list MonitorRecord) :=
  copy ⇇ look OpQuery (λ s, map (monitors s) (monitors_of i));
  Done (match copy with Ok l => l | Err _ => replicate (length (monitors_of i)) (new_monitor false) end).
Definition system_record : Program (result Error SystemRecord) := look OpQuery system.
Definition read_history (cursor : Z) (room : nat) : Program (result Error (HistoryPage * list TransitionRecord)) :=
  look OpHistoryRead (read_page cursor room).

(** ** Evidence from other components *)
Definition own_error (operation : Operation) i (a : Assessment) : Assessment :=
  a <| last_error ::= option_map (λ x, mkError (e_status x) (e_reason x) operation (Some i) (e_monitor x) (e_native x) (e_detail x)) |>.
Definition commit_source i (src : Source) (a : Assessment) (quality : EvidenceQuality) (availability : SourceAvailability)
    (required : bool) (operation : Operation) (kind : SourceKind) : Program unit :=
  time ← get (λ e _, now e);
  forgo (change operation (λ s,
    recompute i time (s <| subject_state ::= <[i := <[src :=
      mkEvidence (own_error operation i a) quality availability time default_stale kind 0 required true]> (subject_state s i)]> |>))).
Definition lifecycle_assessment (state : ComponentState) (status : Status) : Assessment :=
  let unknown := no_assessment <| freshness := FCurrent |> in
  match state with
  | CRunning => unknown <| condition := CNominal |> <| readiness := RReady |>
  | CFailed => unknown <| condition := CFaulted |> <| readiness := RNotReady |> <| safety := SafetyAtRisk |>
                 <| last_error := Some (normalize_error (StatusError status) OpRefresh None None) |>
  | CStopping | CStopped | CDeinitializing | CDeinitialized => unknown <| condition := CNominal |> <| readiness := RNotReady |>
  | CRegistered | CInitializing | CInitialized | CStarting => unknown <| readiness := RNotReady |>
  end.
Definition refresh_lifecycle i : Program unit :=
  source ← get (λ e _, lifecycle_record e i);
  match source with
  | Err error =>
    commit_source i FromLifecycle (no_assessment <| last_error := Some (normalize_error error OpRefresh None None) |>)
      QDirect AUnavailable true OpRefresh KLifecycle
  | Ok (state, status) => commit_source i FromLifecycle (lifecycle_assessment state status) QDirect AAvailable true OpRefresh KLifecycle
  end.
Definition exit_error (status : Status) : Error :=
  normalize_error (StatusError (if bool_decide (status = SOk) then SUnexpectedExit else status)) OpRefresh None None.
Definition service_assessment (f : ServiceFacts) : Assessment :=
  if sf_timed_out f || sf_uncontained f || (sf_exited f && negb (sf_exited_after_stop f)) then
    no_assessment <| condition := CFaulted |> <| liveness := LExited |> <| readiness := RNotReady |>
                  <| last_error := Some (exit_error (sf_run_status f)) |>
  else if sf_running f then no_assessment <| condition := CNominal |> <| liveness := LLive |> <| readiness := RReady |>
  else if sf_exited_after_stop f then no_assessment <| condition := CNominal |> <| liveness := LExited |> <| readiness := RNotReady |>
  else no_assessment.
Definition executor_assessment (f : ExecutorFacts) : Assessment :=
  if xf_timed_out f || xf_unexpected_exit f || xf_uncontained f then
    no_assessment <| condition := CFaulted |> <| liveness := if xf_unexpected_exit f then LExited else LStalled |>
                  <| readiness := RNotReady |> <| last_error := Some (exit_error (xf_last_status f)) |>
  else if xf_started f && negb (xf_stopped f) then
    no_assessment <| condition := CNominal |> <| liveness := LLive |> <| readiness := if xf_accepting f then RReady else RNotReady |>
  else if xf_stopped f then no_assessment <| condition := CNominal |> <| liveness := LExited |> <| readiness := RNotReady |>
  else no_assessment.
Definition refresh_execution i : Program unit :=
  match category i with
  | Service =>
    source ← get (λ e _, service_record e i);
    commit_source i FromExecution (service_assessment source) QDirect AAvailable true OpRefresh KExecution
  | Executor =>
    source ← get (λ e _, executor_record e i);
    commit_source i FromExecution (executor_assessment source) QDirect AAvailable true OpRefresh KExecution
  | _ => Done tt
  end.
Definition link_assessment (a : Assessment) (k : nat) (f : LinkFacts) : Assessment :=
  let dropped := foldl (λ n d, u32 (n + d)) 0 (lf_dropped f) in
  if lf_faulted f then a <| condition := CFaulted |> <| readiness := RNotReady |> <| detail := Z.of_nat k |>
  else if negb (bool_decide (condition a = CFaulted))
          && ((0 <? lf_protocol_errors f) || (0 <? lf_rejected_frames f) || (0 <? dropped))
  then a <| condition := CDegraded |> <| detail := u32 (lf_protocol_errors f + lf_rejected_frames f + dropped) |>
  else a.
Definition remote_assessment (f : RemoteFacts) : Assessment :=
  let a := no_assessment <| condition := if rf_ready f then CNominal else CUnknown |>
             <| readiness := if rf_accepting f then RReady else RNotReady |> in
  let a := if 0 <? rf_dropped_events f then a <| condition := CDegraded |> <| detail := rf_dropped_events f |> else a in
  (foldl (λ '(a, k) f, (link_assessment a k f, S k)) (a, 0%nat) (rf_links f)).1.
Definition refresh_remote : Program unit :=
  match remote_subject with
  | None => Done tt
  | Some i =>
    service ← get (λ e _, remote_record e);
    commit_source i FromRemote (remote_assessment service) QDirect AAvailable true OpRefresh KRemote
  end.

(** ** Assessments, checks and monitors *)
Definition assess_component i : Program (result Error Receipt) :=
  match assess_period i with
  | None => Done (Err (make_error SNotSupported RsUnsupported OpAssess (Some i) None 0 0))
  | Some _ =>
    assessed ← get (λ e _, assess e i);
    match assessed with
    | Err error =>
      let x := normalize_error error OpAssess (Some i) None in
      _ ⇇ commit_source i FromAssessment (no_assessment <| last_error := Some x |>) QReported AUnavailable true OpAssess KComponentAssessment;
      Done (Err x)
    | Ok a =>
      before ⇇ subject_record i;
      _ ⇇ commit_source i FromAssessment a QReported AAvailable true OpAssess KComponentAssessment;
      after ⇇ subject_record i;
      Done (match after with
            | Err error => Err error
            | Ok r =>
              Ok (mkReceipt i (s_generation r)
                    (match before with Ok r0 => negb (s_transition_count r0 =? s_transition_count r) | Err _ => false end) false)
            end)
    end
  end.
Definition refresh_assessment i (time : Z) : Program unit :=
  match assess_period i with
  | None => Done tt
  | Some period =>
    copy ⇇ look OpQuery (λ s, v_observed_at (subject_state s i FromAssessment));
    let last := match copy with Ok last => last | Err _ => 0 end in
    if (period =? 0) || (last =? 0) || (period <=? time - last) then forgo (assess_component i) else Done tt
  end.

Definition note_observation (o : Observation) (r : MonitorRecord) : MonitorRecord :=
  let prior := condition (o_assessment (m_observation r)) in
  let r := r <| m_observation := o |> <| m_observations ::= inc64 |> <| m_has_observation := true |> in
  let r := if bool_decide (o_availability o = AAvailable) then r else r <| m_failures ::= inc64 |> in
  if o_explicit_recovery o && negb (bool_decide (prior = CNominal)) && bool_decide (condition (o_assessment o) = CNominal)
  then r <| m_recoveries ::= inc64 |> else r.
Definition monitor_section m (o : Observation) (s : Storage) : Storage :=
  recompute (monitor_subject m) (o_observed_at o) (s <| monitors ::= alter (note_observation o) m |>).
Definition commit_monitor m (o : Observation) : Program (result Error unit) :=
  time ⇇ (if o_observed_at o =? 0 then time ← get (λ e _, now e); Done time else Done (o_observed_at o));
  let o := o <| o_observed_at := time |> in
  let o := if o_stale_after o =? 0 then o <| o_stale_after := stale_ticks (monitor_stale_after m) |> else o in
  change OpCheck (monitor_section m (o <| o_required := monitor_required m |>)).
Definition run_check m : Program (result Error unit) :=
  observation ← get (λ e _, check e m);
  match observation with
  | Err error =>
    let x := normalize_error error OpCheck (Some (monitor_subject m)) (Some m) in
    _ ⇇ commit_monitor m (mkObservation (no_assessment <| last_error := Some x |>) QDirect AUnavailable 0 0 true false);
    Done (Err x)
  | Ok o => commit_monitor m o
  end.
Definition progress_assessment (time generation observed first period : Z) : Assessment :=
  if generation =? 0 then
    if (0 <? first) && (period + progress_grace <? time - first)
    then no_assessment <| condition := CFaulted |> <| liveness := LStalled |> else no_assessment
  else if period * 2 <? time - observed then no_assessment <| condition := CFaulted |> <| liveness := LStalled |>
  else if period <? time - observed then no_assessment <| condition := CDegraded |> <| liveness := LLate |>
  else no_assessment <| condition := CNominal |> <| liveness := LLive |>.
Definition refresh_progress m (time : Z) : Program unit :=
  let i := monitor_subject m in
  let period := monitor_period m in
  generation ← get (λ _ s, p_generation (progress_cells s i));
  observed ← get (λ _ s, p_observed_at (progress_cells s i));
  first ← get (λ _ s, first_refresh s);
  forgo (commit_monitor m (mkObservation (progress_assessment time generation observed first period) QInferred AAvailable time
                             (period * 2) true false)).
Definition foreign_status (error : ForeignError) : Status :=
  match error with OwnError e => e_status e | StatusError status | StructError status _ => status | OtherError => SError end.
Definition stack_observation m (time : Z) (usage : option (result ForeignError Z)) : Observation :=
  match usage with
  | None => mkObservation (no_assessment <| freshness := FUnknown |>) QDirect AUnavailable time 0 false false
  | Some (Ok unused) =>
    let a := no_assessment <| detail := u32 unused |> in
    mkObservation (if unused <? monitor_margin m then a <| condition := CDegraded |> <| safety := SafetyAtRisk |>
                   else a <| condition := CNominal |> <| safety := SafetyAcceptable |>) QDirect AAvailable time 0 false false
  | Some (Err error) =>
    mkObservation (no_assessment <| last_error := Some (normalize_error error OpCheck None None) |>) QDirect
      (if bool_decide (foreign_status error = SNotSupported) then AUnsupported else AUnavailable) time 0 false false
  end.
Definition refresh_stack m (time : Z) : Program unit :=
  let i := monitor_subject m in
  thread ← get (λ e _, match category i with
                       | Service => sf_thread (service_record e i)
                       | Executor => xf_thread (executor_record e i)
                       | _ => false
                       end);
  usage ← get (λ e _, if thread : bool then Some (stack_unused e i) else None);
  forgo (commit_monitor m (stack_observation m time usage)).
Definition refresh_monitor m (time : Z) : Program unit :=
  copy ⇇ look OpQuery (λ s, monitors s m);
  let current := match copy with Ok r => r | Err _ => new_monitor false end in
  let period := monitor_period m in
  if m_has_observation current && (0 <? period) && (time - o_observed_at (m_observation current) <? period) then Done tt else
  match monitor_kind m with
  | MProgress => refresh_progress m time
  | MStackMargin => refresh_stack m time
  | MExecution => refresh_execution (monitor_subject m)
  | MSignal => Done tt
  | MCheck => forgo (run_check m)
  end.

(** ** Refreshing *)
Definition refresh (fuel : nat) : Program (result Error unit) :=
  _ ⇇ drain_isr fuel 0;
  time ← get (λ e _, now e);
  begun ⇇ change OpRefresh (λ s, if first_refresh s =? 0 then s <| first_refresh := time |> else s);
  match begun with
  | Err error => Done (Err error)
  | Ok _ =>
    _ ⇇ for_each subject_count (λ i, _ ⇇ refresh_lifecycle i; _ ⇇ refresh_execution i; refresh_assessment i time);
    _ ⇇ for_each monitor_count (λ m, refresh_monitor m time);
    _ ⇇ refresh_remote;
    change OpRefresh (λ s, recompute_system time (foldl (λ s i, recompute_subject i time s) s (seq 0 subject_count)))
  end.
End Operations.
End Healths.
