(* ===== verification/HealthProps.v ===== *)
(** * HealthProps: what the records of the health facility mean

    The record of a component is at every moment the aggregate of its
    evidence, and the record of the system the summary of its components,
    however reports, interrupts, checks and refreshes interleave; what each
    condition says of the evidence; and the pages of the history. *)
From stdpp Require Import prelude functions.
From S2P Require Import Prelude Status Lifecycle Interleave Health.
Import Healths.

Open Scope Z_scope.
Open Scope solar_scope.
Open Scope prog_scope.

Module HealthProperties.

(** ** The aggregate of the evidence *)
Section Evidence.
Context `{HealthConfig}.
Implicit Types (s : Storage) (i m : nat) (now : Z).

(** The evidence about a component, in the order of merging. *)
Definition evidences i s : list (EvidenceState * option nat) :=
  map (λ src, (subject_state s i src, None)) sources
  ++ map (λ m, (monitor_evidence (monitors s m), Some m)) (monitors_of i).
Definition merged i now (a : Aggregate) (x : EvidenceState * option nat) : Aggregate := merge i now a x.1 x.2.
Definition combined i now s : Aggregate := foldl (merged i now) no_aggregate (evidences i s).

Lemma evidence_marked now r : monitor_evidence (mark_stale now r) = monitor_evidence r.
Proof. unfold mark_stale. by destruct (_ && negb (m_stale r)). Qed.
Lemma monitors_marked i now ms l a m :
  monitor_evidence ((foldl (merge_monitor i now) (a, ms) l).2 m) = monitor_evidence (ms m).
Proof.
  revert a ms. induction l as [|k l IH]; intros a ms; [done|]. cbn [foldl]. unfold merge_monitor at 2.
  destruct (_ =? i)%nat; [|apply IH]. cbn [fst snd]. rewrite IH. destruct (decide (k = m)) as [->|Hne];
    [by rewrite fn_lookup_insert, evidence_marked|by rewrite fn_lookup_insert_ne].
Qed.
Lemma merge_monitors i now ms l a :
  (foldl (merge_monitor i now) (a, ms) l).1
  = foldl (merged i now) a (map (λ m, (monitor_evidence (ms m), Some m)) (List.filter (λ m, monitor_subject m =? i)%nat l)).
Proof.
  revert a ms. induction l as [|k l IH]; intros a ms; [done|]. cbn [foldl List.filter]. unfold merge_monitor at 2.
  destruct (_ =? i)%nat; [|apply IH]. cbn [fst snd map foldl]. rewrite IH. f_equal. apply map_ext. intros m. f_equal.
  destruct (decide (k = m)) as [->|Hne]; [by rewrite fn_lookup_insert, evidence_marked|by rewrite fn_lookup_insert_ne].
Qed.
Lemma aggregate_combined i now s : (aggregate_of i now (subject_state s i) (monitors s)).1 = combined i now s.
Proof. unfold aggregate_of, combined, evidences. by rewrite merge_monitors, foldl_app. Qed.
Lemma monitors_aggregated i now state ms m : monitor_evidence ((aggregate_of i now state ms).2 m) = monitor_evidence (ms m).
Proof. apply monitors_marked. Qed.

(** ** What decides the condition *)

(** A required piece of evidence that is not there. *)
Definition missing (v : EvidenceState) : bool :=
  v_required v && negb (v_present v && bool_decide (v_availability v = AAvailable)).
(** The condition a piece of evidence counts for; advisory evidence counts
    only when it is nominal. *)
Definition counted now (v : EvidenceState) : Condition :=
  if missing v || negb (v_present v) then CUnknown else
  if v_required v || bool_decide (condition (aged now v) = CNominal) then condition (aged now v) else CUnknown.
Definition worst now (vs : list EvidenceState) : Condition := foldl (λ c v, worse_condition c (counted now v)) CUnknown vs.
Definition judged now (vs : list EvidenceState) : Condition :=
  if existsb missing vs && bool_decide (worst now vs = CNominal) then CUnknown else worst now vs.

Lemma worse_unknown c : worse_condition c CUnknown = c.
Proof. by destruct c. Qed.
Lemma merge_condition i now a v mon :
  condition (aggregate (merge i now a v mon)) = worse_condition (condition (aggregate a)) (counted now v).
Proof.
  unfold merge, counted, missing. destruct (v_present v), (v_required v), (bool_decide (v_availability v = AAvailable)); simpl;
    rewrite ?worse_unknown; try done; destruct (bool_decide (condition (aged now v) = CNominal)); simpl; by rewrite ?worse_unknown.
Qed.
Lemma merge_missing i now a v mon : required_unknown (merge i now a v mon) = required_unknown a || missing v.
Proof.
  unfold merge, missing. destruct (v_present v), (v_required v), (bool_decide (v_availability v = AAvailable)); simpl;
    try (by destruct (required_unknown a)); destruct (bool_decide (condition (aged now v) = CNominal)); simpl;
    by destruct (required_unknown a).
Qed.
Lemma merge_present i now a v mon : has_evidence (merge i now a v mon) = has_evidence a || v_present v.
Proof.
  unfold merge. destruct (v_present v), (v_required v), (bool_decide (v_availability v = AAvailable)); simpl;
    try (by destruct (has_evidence a)); destruct (bool_decide (condition (aged now v) = CNominal)); simpl;
    by destruct (has_evidence a).
Qed.
Lemma fold_condition i now a l :
  condition (aggregate (foldl (merged i now) a l)) = foldl (λ c v, worse_condition c (counted now v)) (condition (aggregate a)) l.*1.
Proof. revert a. induction l as [|[v mon] l IH]; intros a; [done|].
  cbn [foldl fmap list_fmap fst]. rewrite IH. unfold merged. cbn [fst snd]. by rewrite merge_condition. Qed.
Lemma fold_missing i now a l : required_unknown (foldl (merged i now) a l) = required_unknown a || existsb missing l.*1.
Proof.
  revert a. induction l as [|[v mon] l IH]; intros a; [by rewrite orb_false_r|].
  cbn [foldl fmap list_fmap fst existsb]. rewrite IH. unfold merged. cbn [fst snd]. by rewrite merge_missing, orb_assoc.
Qed.
Lemma fold_present i now a l : has_evidence (foldl (merged i now) a l) = has_evidence a || existsb v_present l.*1.
Proof.
  revert a. induction l as [|[v mon] l IH]; intros a; [by rewrite orb_false_r|].
  cbn [foldl fmap list_fmap fst existsb]. rewrite IH. unfold merged. cbn [fst snd]. by rewrite merge_present, orb_assoc.
Qed.
Lemma worst_absent now vs : existsb v_present vs = false → worst now vs = CUnknown.
Proof.
  unfold worst. generalize CUnknown. induction vs as [|v vs IH]; intros c Hv; [done|]. cbn in *.
  apply orb_false_iff in Hv as [Hv Hvs]. assert (counted now v = CUnknown) as ->; [|by rewrite worse_unknown, IH].
  unfold counted. by rewrite Hv, orb_true_r.
Qed.
(** The condition of a record is the judgement on its evidence. *)
Lemma concluded i now s : condition (conclude (combined i now s)) = judged now (evidences i s).*1.
Proof.
  unfold conclude, judged, combined. rewrite fold_present, fold_missing. cbn [orb no_aggregate has_evidence required_unknown].
  pose proof (fold_condition i now no_aggregate (evidences i s)) as Hc. change (condition (aggregate no_aggregate)) with CUnknown in Hc.
  fold (worst now (evidences i s).*1) in Hc. destruct (existsb v_present _) eqn:Hp.
  - cbn [negb orb]. rewrite Hc. by destruct (_ && _).
  - rewrite (worst_absent now _ Hp). cbn [negb orb]. by destruct (existsb missing _).
Qed.

(** ** What a condition says of the evidence *)
Lemma worse_rank n c c' : (n ≤ condition_rank (worse_condition c c') ↔ n ≤ condition_rank c ∨ n ≤ condition_rank c')%nat.
Proof. unfold worse_condition, greater. destruct (Nat.ltb_spec (condition_rank c) (condition_rank c')); lia. Qed.
Lemma worst_rank n now vs :
  (0 < n)%nat → ((n ≤ condition_rank (worst now vs))%nat ↔ ∃ v, v ∈ vs ∧ (n ≤ condition_rank (counted now v))%nat).
Proof.
  intros Hn. unfold worst.
  assert (Hall : ∀ c, (n ≤ condition_rank (foldl (λ c v, worse_condition c (counted now v)) c vs))%nat
    ↔ (n ≤ condition_rank c)%nat ∨ ∃ v, v ∈ vs ∧ (n ≤ condition_rank (counted now v))%nat).
  { induction vs as [|v vs IH]; intros c; cbn [foldl].
    - split; [by left|]. intros [Hc|(v & Hv & _)]; [done|by apply elem_of_nil in Hv].
    - rewrite IH, worse_rank. setoid_rewrite elem_of_cons. naive_solver. }
  rewrite Hall. split; [intros [Hc|Hv]; [cbn in Hc; lia|done]|auto].
Qed.
Lemma missing_false v : missing v = false ↔ (v_required v = true → v_present v = true ∧ v_availability v = AAvailable).
Proof. unfold missing. destruct (v_required v), (v_present v); case_bool_decide; naive_solver. Qed.

Definition at_hand (v : EvidenceState) : Prop := v_required v = true ∧ v_present v = true ∧ v_availability v = AAvailable.
Definition old now (v : EvidenceState) : Prop := expired now (v_observed_at v) (v_stale_after v) = true.
Lemma counted_faulted now v : counted now v = CFaulted ↔ at_hand v ∧ condition (v_assessment v) = CFaulted.
Proof.
  unfold counted, missing, aged, at_hand. destruct (v_required v), (v_present v), (expired _ _ _); cbn;
    try (case_bool_decide as Ha; cbn); destruct (condition (v_assessment v)) eqn:Hc; cbn; try case_bool_decide; cbn; rewrite ?Hc; naive_solver.
Qed.
Lemma counted_degraded now v :
  counted now v = CDegraded ↔
  at_hand v ∧ condition (v_assessment v) ≠ CFaulted ∧ (condition (v_assessment v) = CDegraded ∨ old now v).
Proof.
  unfold counted, missing, aged, at_hand, old. destruct (v_required v), (v_present v), (expired _ _ _); cbn;
    try (case_bool_decide as Ha; cbn); destruct (condition (v_assessment v)) eqn:Hc; cbn; try case_bool_decide; cbn; rewrite ?Hc; naive_solver.
Qed.
Lemma counted_nominal now v :
  counted now v = CNominal ↔
  v_present v = true ∧ condition (v_assessment v) = CNominal ∧ (v_required v = true → v_availability v = AAvailable ∧ ¬ old now v).
Proof.
  unfold counted, missing, aged, old. destruct (v_required v), (v_present v), (expired _ _ _); cbn;
    try (case_bool_decide as Ha; cbn); destruct (condition (v_assessment v)) eqn:Hc; cbn; try case_bool_decide; cbn; rewrite ?Hc; naive_solver.
Qed.

Lemma rank_faulted c : (3 ≤ condition_rank c)%nat ↔ c = CFaulted.
Proof. destruct c; cbn; split; (lia || done). Qed.
Lemma judged_faulted now vs : judged now vs = CFaulted ↔ ∃ v, v ∈ vs ∧ at_hand v ∧ condition (v_assessment v) = CFaulted.
Proof.
  transitivity (worst now vs = CFaulted).
  { unfold judged. by destruct (existsb missing vs), (worst now vs) eqn:Hw. }
  rewrite <-rank_faulted, worst_rank by lia. setoid_rewrite rank_faulted. by setoid_rewrite counted_faulted.
Qed.
Lemma judged_degraded now vs :
  judged now vs = CDegraded ↔
  judged now vs ≠ CFaulted ∧ ∃ v, v ∈ vs ∧ at_hand v ∧ (condition (v_assessment v) = CDegraded ∨ old now v).
Proof.
  assert (Hj : ∀ c, c = CDegraded ∨ c = CFaulted → (judged now vs = c ↔ worst now vs = c)).
  { unfold judged. intros c [->| ->]; by destruct (existsb missing vs), (worst now vs) eqn:Hw. }
  rewrite !Hj by auto. assert (Hr : worst now vs = CDegraded ↔ worst now vs ≠ CFaulted ∧ (2 ≤ condition_rank (worst now vs))%nat).
  { destruct (worst now vs); cbn; split; intros; destruct_and?; solve [done | exfalso; lia | split; [done|lia] | split; lia]. }
  rewrite Hr, worst_rank by lia. 
  assert (Hlift : ∀ Q R T : Prop, (Q → (R ↔ T)) → (Q ∧ R ↔ Q ∧ T)) by tauto. apply Hlift. intros Hf. split; intros (v & Hv & Hc); exists v; (split; [done|]).
  - destruct (counted now v) eqn:Hk; cbn in Hc; try lia; [|].
    + apply counted_degraded in Hk. naive_solver.
    + exfalso. apply Hf, rank_faulted, (worst_rank 3); [lia|]. exists v. by rewrite Hk.
  - destruct Hc as [Ha Hc]. destruct (decide (condition (v_assessment v) = CFaulted)) as [Hx|Hx].
    + assert (counted now v = CFaulted) as -> by (by apply counted_faulted). cbn. lia.
    + assert (counted now v = CDegraded) as -> by (by apply counted_degraded). cbn. lia.
Qed.
Lemma judged_nominal now vs :
  judged now vs = CNominal ↔
  (∃ v, v ∈ vs ∧ v_present v = true ∧ condition (v_assessment v) = CNominal) ∧
  ∀ v, v ∈ vs → v_required v = true →
    v_present v = true ∧ v_availability v = AAvailable ∧ ¬ old now v
    ∧ (condition (v_assessment v) = CNominal ∨ condition (v_assessment v) = CUnknown).
Proof.
  assert (Hj : judged now vs = CNominal ↔ existsb missing vs = false ∧ worst now vs = CNominal).
  { unfold judged. destruct (existsb missing vs); case_bool_decide as Hw; cbn; naive_solver. }
  assert (Hr : worst now vs = CNominal ↔ (1 ≤ condition_rank (worst now vs))%nat ∧ ¬ (2 ≤ condition_rank (worst now vs))%nat).
  { destruct (worst now vs); cbn; split; intros; destruct_and?; solve [done | exfalso; lia | split; [done|lia] | split; lia]. }
  assert (Hm : existsb missing vs = false ↔ ∀ v, v ∈ vs → missing v = false).
  { rewrite <-not_true_iff_false, existsb_exists. setoid_rewrite <-list_elem_of_In. setoid_rewrite <-not_true_iff_false. naive_solver. }
  rewrite Hj, Hr, !worst_rank, Hm by lia. setoid_rewrite missing_false. split.
  - intros [Hmiss [(v & Hv & H1) H2]].
    assert (Hlow : ∀ v, v ∈ vs → (condition_rank (counted now v) < 2)%nat).
    { intros u Hu. destruct (le_lt_dec 2 (condition_rank (counted now u))); [|done]. exfalso. eauto. }
    split.
    + exists v. split; [done|]. specialize (Hlow v Hv). destruct (counted now v) eqn:Hc; cbn in H1, Hlow; try lia.
      apply counted_nominal in Hc. naive_solver.
    + intros u Hu Hreq. specialize (Hmiss u Hu Hreq) as [Hp Ha]. specialize (Hlow u Hu).
      destruct (condition (v_assessment u)) eqn:Hc.
      * split; [done|]. split; [done|]. split; [|auto]. intros Hold.
        assert (counted now u = CDegraded) as Hk; [apply counted_degraded; rewrite Hc; unfold at_hand; auto|]. rewrite Hk in Hlow. cbn in Hlow. lia.
      * split; [done|]. split; [done|]. split; [|auto]. intros Hold.
        assert (counted now u = CDegraded) as Hk; [apply counted_degraded; rewrite Hc; unfold at_hand; auto|]. rewrite Hk in Hlow. cbn in Hlow. lia.
      * assert (counted now u = CDegraded) as Hk; [apply counted_degraded; rewrite Hc; unfold at_hand; auto|]. rewrite Hk in Hlow. cbn in Hlow. lia.
      * assert (counted now u = CFaulted) as Hk; [by apply counted_faulted|]. rewrite Hk in Hlow. cbn in Hlow. lia.
  - intros [(v & Hv & Hp & Hc) Hall]. split; [naive_solver|]. split.
    + exists v. split; [done|]. assert (counted now v = CNominal) as ->; [|cbn; lia]. apply counted_nominal. naive_solver.
    + intros (u & Hu & Hk). destruct (counted now u) eqn:Hx; cbn in Hk; try lia.
      * apply counted_degraded in Hx as ((Hreq & _) & _ & Hx). destruct (Hall u Hu Hreq) as (_ & _ & Ho & [Hn|Hn]), Hx as [Hx|Hx]; congruence || done.
      * apply counted_faulted in Hx as ((Hreq & _) & Hx). destruct (Hall u Hu Hreq) as (_ & _ & _ & [Hn|Hn]); congruence.
Qed.
End Evidence.

(** ** The records follow the evidence *)
Section Coherence.
Context `{HealthConfig}.
Implicit Types (s : Storage) (i j m : nat) (time : Z).

(** The record of a component is the aggregate of its evidence at the time of
    its assessment. *)
Definition reflects s i : Prop :=
  let r := subjects s i in
  let a := combined i (s_assessed_at r) s in
  assessment_of r = conclude a <| detail := 0 |> ∧ s_primary r = primary a.
(** The record of the system is the summary of its components. *)
Definition summarised s : Prop :=
  let y := system s in
  y = summary (subject_list s) <| y_generation := y_generation y |> <| y_assessed_at := y_assessed_at y |>
        <| y_isr_admitted := y_isr_admitted y |> <| y_isr_dropped := y_isr_dropped y |>.
Definition coherent s : Prop := (∀ i, reflects s i) ∧ (summarised s ∨ system s = new_system).

(** What a change leaves as it was. *)
Definition same_evidence s s' i : Prop := evidences i s' = evidences i s.
Lemma reflects_same s s' i : same_evidence s s' i → subjects s' i = subjects s i → reflects s i → reflects s' i.
Proof. unfold reflects, combined, same_evidence. by intros -> ->. Qed.
Lemma evidences_same s s' i :
  subject_state s' i = subject_state s i → (∀ m, monitor_subject m = i → monitor_evidence (monitors s' m) = monitor_evidence (monitors s m)) →
  same_evidence s s' i.
Proof.
  intros Hs Hm. unfold same_evidence, evidences. rewrite Hs. f_equal. apply map_ext_in. intros m Hin. f_equal. apply Hm.
  apply filter_In in Hin as [_ Hin]. by apply Nat.eqb_eq in Hin.
Qed.
Lemma append_same i r previous evidence s :
  let s' := append_history i r previous evidence s in
  subjects s' = subjects s ∧ subject_state s' = subject_state s ∧ monitors s' = monitors s ∧ system s' = system s
  ∧ progress_cells s' = progress_cells s ∧ first_refresh s' = first_refresh s.
Proof. unfold append_history. case_bool_decide; [done|]. by destruct (_ <? _). Qed.

(** What [recompute_subject] does. *)
Lemma recompute_subject_effect i time s :
  let s' := recompute_subject i time s in
  let a := combined i time s in
  ∃ r, subjects s' = <[i := r]> (subjects s) ∧ assessment_of r = conclude a <| detail := 0 |> ∧ s_primary r = primary a
    ∧ s_assessed_at r = time ∧ subject_state s' = subject_state s ∧ system s' = system s ∧ progress_cells s' = progress_cells s
    ∧ first_refresh s' = first_refresh s ∧ ∀ m, monitor_evidence (monitors s' m) = monitor_evidence (monitors s m).
Proof.
  intros s' a. subst s'. unfold recompute_subject. pose proof (aggregate_combined i time s) as Ha. fold a in Ha.
  pose proof (monitors_aggregated i time (subject_state s i) (monitors s)) as Hm.
  destruct (aggregate_of _ _ _ _) as [a' ms]. cbn [fst snd] in *. subst a'.
  match goal with |- context [if bool_decide (assessment_of ?r = _) then _ else _] => set (r1 := r) end.
  exists r1.
  assert (Hr : assessment_of r1 = conclude a <| detail := 0 |> ∧ s_primary r1 = primary a ∧ s_assessed_at r1 = time).
  { unfold r1. by destruct (negb _). }
  destruct Hr as (R1 & R2 & R3). case_bool_decide; [split_and!; done|].
  set (s1 := s <| subjects ::= <[i := r1]> |> <| monitors := ms |>).
  destruct (append_same i r1 (s_condition (subjects s i)) (primary a) s1) as (-> & -> & E3 & -> & -> & ->). split_and!; try done.
  intros m. rewrite E3. apply Hm.
Qed.
Lemma recompute_subject_reflects i time s :
  (∀ j, j ≠ i → reflects s j) → ∀ j, reflects (recompute_subject i time s) j.
Proof.
  intros Hs j. destruct (recompute_subject_effect i time s) as (r & E1 & E2 & E3 & E4 & E5 & _ & _ & _ & E8).
  assert (Hsame : same_evidence s (recompute_subject i time s) j) by (apply evidences_same; [by rewrite E5|auto]).
  destruct (decide (j = i)) as [->|Hne].
  - unfold reflects, combined. rewrite E1, fn_lookup_insert, Hsame, E4. auto.
  - apply (reflects_same s); [done|by rewrite E1, fn_lookup_insert_ne|auto].
Qed.
Lemma recompute_reflects i time s : (∀ j, j ≠ i → reflects s j) → coherent (recompute i time s).
Proof.
  intros Hs. split; [|by left]. intros j.
  apply (reflects_same (recompute_subject i time s)); [done..|]. by apply recompute_subject_reflects.
Qed.
Lemma recompute_all_reflects time s :
  (∀ j, reflects s j) → coherent (recompute_system time (foldl (λ s i, recompute_subject i time s) s (seq 0 subject_count))).
Proof.
  intros Hs. split; [|by left]. intros j. eapply reflects_same; [done..|]. revert j. revert s Hs.
  induction (seq 0 subject_count) as [|k l IH]; intros s Hs j; [apply Hs|]. cbn [foldl]. apply IH. intros j'.
  apply recompute_subject_reflects. auto.
Qed.
Lemma merged_absent i time a l :
  Forall (λ x, v_present x.1 = false) l →
  let a' := foldl (merged i time) a l in aggregate a' = aggregate a ∧ primary a' = primary a ∧ has_evidence a' = has_evidence a.
Proof.
  intros Hl. revert a. induction Hl as [|[v mon] l Hv _ IH]; intros a; [done|]. cbn [foldl].
  destruct (IH (merged i time a (v, mon))) as (-> & -> & ->). unfold merged, merge. cbn [fst snd] in *. rewrite Hv. cbn.
  by destruct (v_required v).
Qed.
Lemma new_coherent : coherent new_storage.
Proof.
  split; [|by right]. intros i. unfold reflects, combined.
  destruct (merged_absent i 0 no_aggregate (evidences i new_storage)) as (Ha & Hp & He).
  { apply Forall_app. split; apply List.Forall_forall; intros x Hx; apply in_map_iff in Hx as (y & <- & _); done. }
  cbv zeta. change (s_assessed_at (subjects new_storage i)) with 0. unfold conclude. by rewrite He, Ha, Hp.
Qed.

(** ** The steps of the operations *)

(** A relation that allows what the operations do to the store: changes
    besides the records and the evidence, new evidence of a source, a new
    observation of a monitor in [ms], progress of a component in [cells], and
    the recomputation of everything.  The time of the first refresh is set
    once. *)
Definition keeps_first s s' : Prop := first_refresh s ≠ 0 → first_refresh s' = first_refresh s.
Lemma keeps_same s s' : first_refresh s' = first_refresh s → keeps_first s s'.
Proof. by intros Hs _. Qed.
Record permits (R : Storage → Storage → Prop) (ms cells : nat → Prop) : Prop := {
  pm_neutral : ∀ s s', subjects s' = subjects s → subject_state s' = subject_state s → monitors s' = monitors s →
    system s' = system s → progress_cells s' = progress_cells s → keeps_first s s' → R s s';
  pm_source : ∀ s s1 i time, monitors s1 = monitors s → system s1 = system s → progress_cells s1 = progress_cells s →
    first_refresh s1 = first_refresh s →
    (∀ j, j ≠ i → subjects s1 j = subjects s j ∧ subject_state s1 j = subject_state s j) → R s (recompute i time s1);
  pm_monitor : ∀ s m o, ms m → R s (monitor_section m o s);
  pm_progress : ∀ s i g, cells i → R s (s <| progress_cells ::= alter g i |>);
  pm_all : ∀ s time, R s (recompute_system time (foldl (λ s i, recompute_subject i time s) s (seq 0 subject_count))) }.

Lemma coherent_permits : permits (λ s s', coherent s → coherent s') (λ _, True) (λ _, True).
Proof.
  split.
  - intros s s' E1 E2 E3 E4 _ _ [Hr Hy]. split.
    + intros i. apply (reflects_same s); [apply evidences_same; [by rewrite E2|by rewrite E3]|by rewrite E1|apply Hr].
    + unfold summarised, subject_list. by rewrite E1, E4.
  - intros s s1 i time E1 _ _ _ E2 [Hr _]. apply recompute_reflects. intros j Hj. destruct (E2 j Hj) as [E3 E4].
    apply (reflects_same s); [apply evidences_same; [done|by rewrite E1]|done|apply Hr].
  - intros s m o _ [Hr _]. apply recompute_reflects. intros j Hj.
    apply (reflects_same s); [apply evidences_same; [done|]|done|apply Hr]. intros m' Hm'. cbn.
    destruct (decide (m = m')) as [->|Hne]; [congruence|by rewrite fn_lookup_alter_ne].
  - intros s i g _ Hs. exact Hs.
  - intros s time [Hr _]. by apply recompute_all_reflects.
Qed.
End Coherence.

Section Programs.
Context `{HealthConfig} {W : Errno} {X A : Type}.
Local Abbreviation World := (World A).
Local Abbreviation Program := (Prog (Env X) World).
Context (R : Storage → Storage → Prop) (ms cells : nat → Prop) (HR : permits R ms cells).
Implicit Types (i m : nat).

Definition stays (w w' : World) : Prop := R (health w) (health w') ∧ rest w' = rest w.
Local Abbreviation stays_in p := (frames (E := Env X) stays p).

Lemma R_same s : R s s.
Proof. by apply (pm_neutral _ _ _ HR). Qed.
Lemma stays_same w : stays w w.
Proof. split; [apply R_same|done]. Qed.
Lemma stays_get {B C} (f : Env X → Storage → B) (k : B → Program C) : (∀ b, stays_in (k b)) → stays_in (Then (get f) k).
Proof. intros Hk. split; [intros; apply stays_same|done]. Qed.
Lemma stays_put {C} (f : Storage → Storage) (k : unit → Program C) :
  (∀ s, R s (f s)) → (∀ b, stays_in (k b)) → stays_in (Then (put f) k).
Proof. intros Hf Hk. split; [intros e w; split; [apply Hf|done]|done]. Qed.
Lemma stays_section {B} operation (f : Storage → B * Storage) : (∀ s, R s (f s).2) → stays_in (with_storage (A := A) operation f).
Proof.
  intros Hf. split; [|done]. intros e w. destruct (in_isr e); [apply stays_same|]. specialize (Hf (health w)).
  unfold stays. by destruct (f (health w)).
Qed.
Lemma stays_change operation f : (∀ s, R s (f s)) → stays_in (change (A := A) operation f).
Proof. intros Hf. by apply stays_section. Qed.
Lemma stays_look {B} operation (f : Storage → B) : stays_in (look (A := A) operation f).
Proof. apply stays_section. intros s. apply R_same. Qed.
Lemma stays_forgo {B} (p : Program B) : stays_in p → stays_in (forgo p).
Proof. intros Hp. by apply frames_bind. Qed.
Lemma stays_each n (p : nat → Program unit) : (∀ i, (i < n)%nat → stays_in (p i)) → stays_in (for_each n p).
Proof.
  intros Hp. unfold for_each. assert (Hall : ∀ i, (0 ≤ i < 0 + n)%nat → stays_in (p i)) by (intros; apply Hp; lia). clear Hp. revert Hall.
  generalize 0%nat at 2 3 as k. induction n as [|n IH]; intros k Hall; [done|]. apply frames_bind; [apply Hall; lia|].
  intros _. apply (IH (S k)). intros i Hi. apply Hall. lia.
Qed.
Lemma stays_wake : stays_in (wake_supervisor (X := X) (A := A)).
Proof. apply stays_put; [|done]. intros s. apply (pm_neutral _ _ _ HR); by destruct (supervisor_waker s). Qed.
Lemma stays_neutral {C} (f : Storage → Storage) (k : unit → Program C) :
  (∀ s, subjects (f s) = subjects s ∧ subject_state (f s) = subject_state s ∧ monitors (f s) = monitors s ∧ system (f s) = system s
        ∧ progress_cells (f s) = progress_cells s ∧ first_refresh (f s) = first_refresh s) →
  (∀ b, stays_in (k b)) → stays_in (Then (put f) k).
Proof. intros Hf. apply stays_put. intros s. destruct (Hf s) as (?&?&?&?&?&?). apply (pm_neutral _ _ _ HR); auto using keeps_same. Qed.

Lemma stays_report i a quality : stays_in (report (X := X) (A := A) i a quality).
Proof.
  apply stays_get. intros time. apply frames_bind.
  - apply stays_section. intros s. apply (pm_source _ _ _ HR); [done..|]. intros j Hj. cbn.
    by rewrite fn_lookup_alter_ne, fn_lookup_insert_ne.
  - intros [receipt|error]; [|done]. by apply frames_bind; [apply stays_wake|].
Qed.
Lemma stays_progress i : cells i → stays_in (progress (X := X) (A := A) i).
Proof.
  intros Hi. apply stays_get. intros time. apply stays_put; [intros s; by apply (pm_progress _ _ _ HR)|]. intros _.
  split; [|done]. intros e w. split; [by apply (pm_progress _ _ _ HR)|done].
Qed.
Lemma stays_evidence {B} operation i src v time (k : result Error unit → Program B) :
  (∀ b, stays_in (k b)) →
  stays_in (bind (change operation (λ s, recompute i time (s <| subject_state ::= <[i := <[src := v]> (subject_state s i)]> |>))) k).
Proof.
  intros Hk. apply frames_bind; [|done]. apply stays_change. intros s. apply (pm_source _ _ _ HR); [done..|]. intros j Hj. cbn.
  by rewrite fn_lookup_insert_ne.
Qed.
Lemma stays_adapter i a kind source_id : stays_in (commit_adapter (X := X) (A := A) i a kind source_id).
Proof.
  apply stays_get. intros time. apply stays_change. intros s. apply (pm_source _ _ _ HR); [done..|]. intros j Hj. cbn.
  by rewrite fn_lookup_insert_ne.
Qed.
Lemma stays_isr i o : stays_in (report_isr (X := X) (A := A) i o).
Proof.
  apply stays_get. intros time. split.
  - intros e w. cbv zeta; destruct (_ <? _)%nat; [split; [by apply (pm_neutral _ _ _ HR)|done]|apply stays_same].
  - intros [|]; cbn [negb]; apply stays_neutral; try done. intros _. by apply frames_bind; [apply stays_wake|].
Qed.
Lemma stays_drain fuel n : stays_in (drain_isr (X := X) (A := A) fuel n).
Proof.
  revert n. induction fuel as [|fuel IH]; intros n; [done|]. split.
  - intros e w. cbv zeta. destruct (ingress (health w)); [apply stays_same|split; [by apply (pm_neutral _ _ _ HR)|done]].
  - intros [r|]; [|done]. apply frames_bind; [|intros _; apply IH].
    destruct (_ <? _)%nat; [apply stays_forgo, stays_report|done].
Qed.
Lemma stays_source i src a quality availability (required : bool) operation kind :
  stays_in (commit_source (X := X) (A := A) i src a quality availability required operation kind).
Proof. apply stays_get. intros time. by apply stays_evidence. Qed.
Lemma stays_lifecycle i : stays_in (refresh_lifecycle (X := X) (A := A) i).
Proof. apply stays_get. intros [[state status]|error]; apply stays_source. Qed.
Lemma stays_execution i : stays_in (refresh_execution (X := X) (A := A) i).
Proof. unfold refresh_execution. destruct (category i); first [done | apply stays_get; intros; apply stays_source]. Qed.
Lemma stays_remote : stays_in (refresh_remote (X := X) (A := A)).
Proof. unfold refresh_remote. destruct remote_subject as [i|]; [|done]. apply stays_get. intros. apply stays_source. Qed.
Lemma stays_assess i : stays_in (assess_component (X := X) (A := A) i).
Proof.
  unfold assess_component. destruct (assess_period i) as [period|]; [|done]. apply stays_get. intros [a|error].
  - apply frames_bind; [apply stays_look|]. intros before. apply frames_bind; [apply stays_source|]. intros _.
    by apply frames_bind; [apply stays_look|].
  - by apply frames_bind; [apply stays_source|].
Qed.
Lemma stays_assessment i time : stays_in (refresh_assessment (X := X) (A := A) i time).
Proof.
  unfold refresh_assessment. destruct (assess_period i) as [period|]; [|done]. apply frames_bind; [apply stays_look|]. intros copy.
  destruct (_ || _); [apply stays_forgo, stays_assess|done].
Qed.
Lemma stays_commit m o : ms m → stays_in (commit_monitor (X := X) (A := A) m o).
Proof.
  intros Hm. apply frames_bind; [destruct (_ =? 0); [by apply stays_get|done]|]. intros time. apply stays_change.
  intros s. by apply (pm_monitor _ _ _ HR).
Qed.
Lemma stays_check m : ms m → stays_in (run_check (X := X) (A := A) m).
Proof.
  intros Hm. apply stays_get. intros [o|error]; [by apply stays_commit|]. by apply frames_bind; [apply stays_commit|].
Qed.
Lemma stays_refresh_progress m time : ms m → stays_in (refresh_progress (X := X) (A := A) m time).
Proof. intros Hm. apply stays_get. intros g. apply stays_get. intros o. apply stays_get. intros f. by apply stays_forgo, stays_commit. Qed.
Lemma stays_stack m time : ms m → stays_in (refresh_stack (X := X) (A := A) m time).
Proof. intros Hm. apply stays_get. intros thread. apply stays_get. intros usage. by apply stays_forgo, stays_commit. Qed.
Lemma stays_monitor m time : ms m → stays_in (refresh_monitor (X := X) (A := A) m time).
Proof.
  intros Hm. unfold refresh_monitor. apply frames_bind; [apply stays_look|]. intros copy.
  destruct (_ && _); [done|]. destruct (monitor_kind m);
    [by apply stays_forgo, stays_check|by apply stays_refresh_progress|by apply stays_stack|apply stays_execution|done].
Qed.
Lemma stays_begin time : stays_in (change (X := X) (A := A) OpRefresh (λ s, if first_refresh s =? 0 then s <| first_refresh := time |> else s)).
Proof.
  apply stays_change. intros s. apply (pm_neutral _ _ _ HR); unfold keeps_first; destruct (Z.eqb_spec (first_refresh s) 0); done.
Qed.
Lemma stays_finish time :
  stays_in (change (X := X) (A := A) OpRefresh
    (λ s, recompute_system time (foldl (λ s i, recompute_subject i time s) s (seq 0 subject_count)))).
Proof. apply stays_change. intros s. apply (pm_all _ _ _ HR). Qed.
Lemma stays_components time :
  stays_in (for_each (X := X) (A := A) subject_count (λ i, _ ⇇ refresh_lifecycle i; _ ⇇ refresh_execution i; refresh_assessment i time)).
Proof.
  apply stays_each. intros i _. apply frames_bind; [apply stays_lifecycle|]. intros _.
  apply frames_bind; [apply stays_execution|]. intros _. apply stays_assessment.
Qed.
Lemma stays_refresh fuel : (∀ m, (m < monitor_count)%nat → ms m) → stays_in (refresh (X := X) (A := A) fuel).
Proof.
  intros Hms. apply frames_bind; [apply stays_drain|]. intros _. apply stays_get. intros time.
  apply frames_bind; [apply stays_begin|]. intros [u|error]; [|done]. apply frames_bind; [apply stays_components|]. intros _.
  apply frames_bind; [apply stays_each; intros m Hm; by apply stays_monitor, Hms|]. intros _.
  apply frames_bind; [apply stays_remote|]. intros _. apply stays_finish.
Qed.
End Programs.

(** ** The record of the system *)
Section Summary.
Implicit Types (r : SubjectRecord) (y : SystemRecord) (x : SystemRecord * Condition).

Definition how_many (c : Condition) (rs : list SubjectRecord) : nat :=
  sum_list_with (λ r, if bool_decide (s_condition r = c) then 1 else 0)%nat rs.
Definition folded (x : SystemRecord * Condition) (rs : list SubjectRecord) : SystemRecord := (foldl count_subject x rs).1.

Lemma count_subject_fields x r :
  let y := (count_subject x r).1 in
  y_unknown y = (if bool_decide (s_condition r = CUnknown) then inc32 (y_unknown x.1) else y_unknown x.1)
  ∧ y_nominal y = (if bool_decide (s_condition r = CNominal) then inc32 (y_nominal x.1) else y_nominal x.1)
  ∧ y_degraded y = (if bool_decide (s_condition r = CDegraded) then inc32 (y_degraded x.1) else y_degraded x.1)
  ∧ y_faulted y = (if bool_decide (s_condition r = CFaulted) then inc32 (y_faulted x.1) else y_faulted x.1)
  ∧ y_safety y = worse_safety (y_safety x.1) (s_safety r)
  ∧ y_readiness y = worse_readiness (y_readiness x.1) (s_readiness r)
  ∧ (y_freshness y = FStale ↔ y_freshness x.1 = FStale ∨ s_freshness r = FStale).
Proof.
  destruct x as [y p]. unfold count_subject. cbn [fst snd].
  set (z := y_freshness (count_freshness (count_condition y (s_condition r)) (s_freshness r))).
  assert (Hz : z = FStale ↔ y_freshness y = FStale ∨ s_freshness r = FStale).
  { subst z. unfold count_freshness. destruct (s_condition r), (s_freshness r); cbn; try case_bool_decide; cbn; naive_solver. }
  destruct (s_primary r) as [evidence|]; [destruct (_ <? _)%nat|]; cbn [fst]; (split_and!; [..|exact Hz]);
    destruct (s_condition r), (s_freshness r); cbn; try case_bool_decide; done.
Qed.
Lemma folded_count (field : SystemRecord → Z) (c : Condition) :
  (∀ x r, field (count_subject x r).1 = if bool_decide (s_condition r = c) then inc32 (field x.1) else field x.1) →
  ∀ rs x, field x.1 = u32 (field x.1) → field (folded x rs) = u32 (field x.1 + Z.of_nat (how_many c rs)).
Proof.
  intros Hf. induction rs as [|r rs IH]; intros x Hx; [by rewrite Z.add_0_r|]. unfold folded in *. cbn [foldl].
  assert (Hn : field (count_subject x r).1 = u32 (field x.1 + (if bool_decide (s_condition r = c) then 1 else 0))).
  { rewrite Hf. case_bool_decide; [done|by rewrite Z.add_0_r]. }
  rewrite IH.
  - rewrite Hn. unfold wrap. rewrite Zplus_mod_idemp_l. unfold how_many. cbn [sum_list_with]. f_equal. case_bool_decide; lia.
  - rewrite Hn. symmetry. apply wrap_wrap.
Qed.
Lemma folded_safety rs x : y_safety (folded x rs) = foldl (λ a r, worse_safety a (s_safety r)) (y_safety x.1) rs.
Proof.
  revert x. induction rs as [|r rs IH]; intros x; [done|]. unfold folded in *. cbn [foldl]. rewrite IH. f_equal.
  apply count_subject_fields.
Qed.
Lemma folded_readiness rs x : y_readiness (folded x rs) = foldl (λ a r, worse_readiness a (s_readiness r)) (y_readiness x.1) rs.
Proof.
  revert x. induction rs as [|r rs IH]; intros x; [done|]. unfold folded in *. cbn [foldl]. rewrite IH. f_equal.
  apply count_subject_fields.
Qed.
Lemma folded_stale rs x : y_freshness (folded x rs) = FStale ↔ y_freshness x.1 = FStale ∨ ∃ r, r ∈ rs ∧ s_freshness r = FStale.
Proof.
  revert x. induction rs as [|r rs IH]; intros x; unfold folded in *; cbn [foldl].
  - split; [by left|]. intros [Hx|(r & Hr & _)]; [done|by apply elem_of_nil in Hr].
  - rewrite IH. destruct (count_subject_fields x r) as (_&_&_&_&_&_& ->). setoid_rewrite elem_of_cons. naive_solver.
Qed.
Lemma how_many_positive c rs : (0 < how_many c rs)%nat ↔ ∃ r, r ∈ rs ∧ s_condition r = c.
Proof.
  unfold how_many. induction rs as [|r rs IH]; cbn [sum_list_with].
  - split; [lia|]. intros (r & Hr & _). by apply elem_of_nil in Hr.
  - setoid_rewrite elem_of_cons. case_bool_decide as Hr; [split; [eauto|lia]|]. rewrite IH. naive_solver.
Qed.
Lemma how_many_length c rs : (how_many c rs ≤ length rs)%nat.
Proof. unfold how_many. induction rs as [|r rs IH]; cbn; [lia|]. case_bool_decide; lia. Qed.

(** What the summary says, for fewer than 2^32 components. *)
Lemma summary_counts rs :
  Z.of_nat (length rs) < 2 ^ 32 →
  let y := summary rs in
  y_unknown y = Z.of_nat (how_many CUnknown rs) ∧ y_nominal y = Z.of_nat (how_many CNominal rs)
  ∧ y_degraded y = Z.of_nat (how_many CDegraded rs) ∧ y_faulted y = Z.of_nat (how_many CFaulted rs).
Proof.
  intros Hl y. set (x0 := (new_system <| y_readiness := RReady |> <| y_safety := SafetyAcceptable |> <| y_freshness := FCurrent |>, CUnknown)).
  assert (Hw : ∀ c, u32 (Z.of_nat (how_many c rs)) = Z.of_nat (how_many c rs)).
  { intros c. apply wrap_small. pose proof (how_many_length c rs). unfold is_u. lia. }
  split_and!.
  - etrans; [apply (folded_count y_unknown CUnknown) with (x := x0)|apply Hw]; [intros; apply count_subject_fields|reflexivity].
  - etrans; [apply (folded_count y_nominal CNominal) with (x := x0)|apply Hw]; [intros; apply count_subject_fields|reflexivity].
  - etrans; [apply (folded_count y_degraded CDegraded) with (x := x0)|apply Hw]; [intros; apply count_subject_fields|reflexivity].
  - etrans; [apply (folded_count y_faulted CFaulted) with (x := x0)|apply Hw]; [intros; apply count_subject_fields|reflexivity].
Qed.
Lemma summary_condition rs :
  Z.of_nat (length rs) < 2 ^ 32 →
  (y_condition (summary rs) = CFaulted ↔ ∃ r, r ∈ rs ∧ s_condition r = CFaulted)
  ∧ (y_condition (summary rs) = CNominal ↔ ∀ r, r ∈ rs → s_condition r = CNominal).
Proof.
  intros Hl. destruct (summary_counts rs Hl) as (Hu & Hn & Hd & Hf). unfold summary in *.
  set (z := (foldl count_subject _ _).1) in *. cbn in Hu, Hd, Hf |- *. rewrite Hu, Hd, Hf.
  assert (Hp : ∀ c, (0 <? Z.of_nat (how_many c rs)) = true ↔ ∃ r, r ∈ rs ∧ s_condition r = c).
  { intros c. rewrite <-how_many_positive. rewrite Z.ltb_lt. lia. }
  pose proof (Hp CFaulted) as Pf. pose proof (Hp CDegraded) as Pd. pose proof (Hp CUnknown) as Pu. split.
  - rewrite <-Pf. destruct (0 <? Z.of_nat (how_many CFaulted rs)); [done|].
    destruct (0 <? Z.of_nat (how_many CDegraded rs)), (0 <? Z.of_nat (how_many CUnknown rs)); split; discriminate.
  - destruct (0 <? Z.of_nat (how_many CFaulted rs)) eqn:Ef.
    { destruct (proj1 Pf eq_refl) as (r & Hr & Hc). split; [done|]. intros Hall. specialize (Hall r Hr). congruence. }
    destruct (0 <? Z.of_nat (how_many CDegraded rs)) eqn:Ed.
    { destruct (proj1 Pd eq_refl) as (r & Hr & Hc). split; [done|]. intros Hall. specialize (Hall r Hr). congruence. }
    destruct (0 <? Z.of_nat (how_many CUnknown rs)) eqn:Eu.
    { destruct (proj1 Pu eq_refl) as (r & Hr & Hc). split; [done|]. intros Hall. specialize (Hall r Hr). congruence. }
    split; [|done]. intros _ r Hr. destruct (s_condition r) eqn:Hc; [|done|..].
    + discriminate (proj2 Pu). eauto.
    + discriminate (proj2 Pd). eauto.
    + discriminate (proj2 Pf). eauto.
Qed.
(** All of its verdicts: that of the worst component decides. *)
Lemma summary_verdict rs :
  Z.of_nat (length rs) < 2 ^ 32 →
  (y_condition (summary rs) = CDegraded ↔ (∀ r, r ∈ rs → s_condition r ≠ CFaulted) ∧ ∃ r, r ∈ rs ∧ s_condition r = CDegraded)
  ∧ (y_condition (summary rs) = CUnknown ↔
     (∀ r, r ∈ rs → s_condition r = CUnknown ∨ s_condition r = CNominal) ∧ ∃ r, r ∈ rs ∧ s_condition r = CUnknown).
Proof.
  intros Hl. destruct (summary_counts rs Hl) as (Hu & Hn & Hd & Hf). unfold summary in *.
  set (z := (foldl count_subject _ _).1) in *. cbn in Hu, Hd, Hf |- *. rewrite Hu, Hd, Hf.
  assert (Hp : ∀ c, (0 <? Z.of_nat (how_many c rs)) = true ↔ ∃ r, r ∈ rs ∧ s_condition r = c).
  { intros c. rewrite <-how_many_positive. rewrite Z.ltb_lt. lia. }
  pose proof (Hp CFaulted) as Pf. pose proof (Hp CDegraded) as Pd. pose proof (Hp CUnknown) as Pu.
  destruct (0 <? Z.of_nat (how_many CFaulted rs)).
  { destruct (proj1 Pf eq_refl) as (r & Hr & Hc). split; (split; [done|]); intros [Hall _]; specialize (Hall r Hr); naive_solver congruence. }
  assert (Hnf : ∀ r, r ∈ rs → s_condition r ≠ CFaulted) by (intros r Hr Hc; discriminate (proj2 Pf); eauto).
  destruct (0 <? Z.of_nat (how_many CDegraded rs)).
  { pose proof (proj1 Pd eq_refl) as Hex. split; [by split|]. split; [done|]. intros [Hall _].
    destruct Hex as (r & Hr & Hc). specialize (Hall r Hr). naive_solver congruence. }
  assert (Hnd : ∀ r, r ∈ rs → s_condition r ≠ CDegraded) by (intros r Hr Hc; discriminate (proj2 Pd); eauto).
  assert (Hlow : ∀ r, r ∈ rs → s_condition r = CUnknown ∨ s_condition r = CNominal).
  { intros r Hr. specialize (Hnf r Hr). specialize (Hnd r Hr). destruct (s_condition r); auto; done. }
  destruct (0 <? Z.of_nat (how_many CUnknown rs)).
  - split; [split; [done|intros [_ Hex]; by apply Pd in Hex]|]. split; [|done]. intros _. split; [done|by apply Pu].
  - split; (split; [done|]); intros [_ Hex]; [by apply Pd in Hex|by apply Pu in Hex].
Qed.
Lemma worse_safety_rank a b n : (n ≤ safety_rank (worse_safety a b) ↔ n ≤ safety_rank a ∨ n ≤ safety_rank b)%nat.
Proof. unfold worse_safety, greater. destruct (Nat.ltb_spec (safety_rank a) (safety_rank b)); lia. Qed.
Lemma summary_unsafe rs : y_safety (summary rs) = SafetyUnsafe ↔ ∃ r, r ∈ rs ∧ s_safety r = SafetyUnsafe.
Proof.
  assert (Hr : ∀ a, a = SafetyUnsafe ↔ (3 ≤ safety_rank a)%nat) by (intros []; cbn; split; (lia || done)).
  assert (Hall : ∀ a, (3 ≤ safety_rank (foldl (λ a r, worse_safety a (s_safety r)) a rs))%nat
    ↔ (3 ≤ safety_rank a)%nat ∨ ∃ r, r ∈ rs ∧ (3 ≤ safety_rank (s_safety r))%nat).
  { induction rs as [|r rs IH]; intros a; cbn [foldl].
    - split; [by left|]. intros [Ha|(r & Hx & _)]; [done|by apply elem_of_nil in Hx].
    - rewrite IH, worse_safety_rank. setoid_rewrite elem_of_cons. naive_solver. }
  setoid_rewrite Hr. unfold summary. change (y_safety (?y <| y_condition := ?c |>)) with (y_safety y).
  etrans; [|etrans; [apply (Hall SafetyAcceptable)|]].
  - pose proof (folded_safety rs (new_system <| y_readiness := RReady |> <| y_safety := SafetyAcceptable |> <| y_freshness := FCurrent |>, CUnknown)) as Hf.
    unfold folded in Hf. cbn in Hf |- *. by rewrite Hf.
  - cbn. split; [intros [Ha|Ha]; [lia|done]|auto].
Qed.
Lemma summary_stale rs : y_freshness (summary rs) = FStale ↔ ∃ r, r ∈ rs ∧ s_freshness r = FStale.
Proof.
  pose proof (folded_stale rs (new_system <| y_readiness := RReady |> <| y_safety := SafetyAcceptable |> <| y_freshness := FCurrent |>, CUnknown)) as Hf.
  unfold folded in Hf. unfold summary. cbn in Hf |- *. rewrite Hf. naive_solver.
Qed.
Lemma worst_readiness rs a :
  let b := foldl (λ a r, worse_readiness a (s_readiness r)) a rs in
  (b = RNotReady ↔ a = RNotReady ∨ ∃ r, r ∈ rs ∧ s_readiness r = RNotReady)
  ∧ (b = RReady ↔ a = RReady ∧ ∀ r, r ∈ rs → s_readiness r = RReady).
Proof.
  cbv zeta. revert a. induction rs as [|r rs IH]; intros a; cbn [foldl].
  - split; (split; [|naive_solver (by exfalso; eapply not_elem_of_nil)]).
    + by left.
    + intros ->. split; [done|]. intros r Hr. by apply elem_of_nil in Hr.
  - destruct (IH (worse_readiness a (s_readiness r))) as [-> ->]. setoid_rewrite elem_of_cons.
    split; destruct a, (s_readiness r) eqn:Hr; cbn; naive_solver congruence.
Qed.
Lemma summary_readiness rs :
  (y_readiness (summary rs) = RNotReady ↔ ∃ r, r ∈ rs ∧ s_readiness r = RNotReady)
  ∧ (y_readiness (summary rs) = RReady ↔ ∀ r, r ∈ rs → s_readiness r = RReady).
Proof.
  pose proof (folded_readiness rs (new_system <| y_readiness := RReady |> <| y_safety := SafetyAcceptable |> <| y_freshness := FCurrent |>, CUnknown)) as Hf.
  unfold folded in Hf. unfold summary. cbn in Hf |- *. rewrite Hf. destruct (worst_readiness rs RReady) as [-> ->]. naive_solver.
Qed.
End Summary.

(** ** Threads *)
Inductive HealthOp : Set :=
  | Report (i : nat) (a : Assessment) (quality : EvidenceQuality)
  | Advance (i : nat)
  | Adapt (i : nat) (a : Assessment) (kind : SourceKind) (source_id : Z)
  | ReportIsr (i : nat) (o : CompactObservation)
  | Observe (m : nat) (o : Observation)
  | RunCheck (m : nat)
  | Assess (i : nat)
  | Refresh (fuel : nat)
  | ReadHistory (cursor : Z) (room : nat).

Section Threads.
Context `{HealthConfig} {W : Errno} {X A : Type}.
Local Abbreviation Program := (Prog (Env X) (World A)).

Definition health_op (o : HealthOp) : Program unit :=
  match o with
  | Report i a quality => forgo (report i a quality)
  | Advance i => forgo (progress i)
  | Adapt i a kind source_id => forgo (commit_adapter i a kind source_id)
  | ReportIsr i o => forgo (report_isr i o)
  | Observe m o => forgo (commit_monitor m o)
  | RunCheck m => forgo (run_check m)
  | Assess i => forgo (assess_component i)
  | Refresh fuel => forgo (refresh fuel)
  | ReadHistory cursor room => forgo (read_history cursor room)
  end.
Fixpoint health_thread (ops : list HealthOp) : Program unit :=
  match ops with [] => Done tt | o :: ops => _ ⇇ health_op o; health_thread ops end.
(** The operations that touch only the monitors in [ms] and the progress of
    the components in [cells]. *)
Definition touches (ms cells : nat → Prop) (o : HealthOp) : Prop :=
  match o with
  | Advance i => cells i
  | Observe m _ | RunCheck m => ms m
  | Refresh _ => ∀ m, (m < monitor_count)%nat → ms m
  | _ => True
  end.
Lemma stays_op R ms cells o : permits R ms cells → touches ms cells o → frames (stays R) (health_op o).
Proof.
  intros HR Ho. destruct o; apply (stays_forgo R); cbn [touches] in Ho.
  - by apply (stays_report R ms cells).
  - by apply (stays_progress R ms cells).
  - by apply (stays_adapter R ms cells).
  - by apply (stays_isr R ms cells).
  - by apply (stays_commit R ms cells).
  - by apply (stays_check R ms cells).
  - by apply (stays_assess R ms cells).
  - by apply (stays_refresh R ms cells).
  - by apply (stays_look R ms cells).
Qed.
Lemma stays_thread R ms cells ops :
  permits R ms cells → Forall (touches ms cells) ops → frames (stays R) (health_thread ops).
Proof.
  intros HR Hops. induction Hops as [|o ops Ho _ IH]; [done|]. apply frames_bind; [|intros _; apply IH]. by apply (stays_op R ms cells).
Qed.
Lemma coherent_thread ops : frames (λ w w', coherent (health w) → coherent (health w')) (health_thread ops).
Proof.
  apply (frames_mono (stays (λ s s', coherent s → coherent s'))); [by intros w w' [Hw _]|].
  apply (stays_thread _ (λ _, True) (λ _, True)); [apply coherent_permits|]. apply List.Forall_forall. by intros [].
Qed.
Lemma subject_condition s i :
  reflects s i → s_condition (subjects s i) = judged (s_assessed_at (subjects s i)) (evidences i s).*1.
Proof. intros [Ha _]. rewrite <-concluded. apply (f_equal condition) in Ha. exact Ha. Qed.

(** Some component, and every component, is such. *)
Definition somewhere s (P : SubjectRecord → Prop) : Prop := ∃ i, (i < subject_count)%nat ∧ P (subjects s i).
Definition everywhere s (P : SubjectRecord → Prop) : Prop := ∀ i, (i < subject_count)%nat → P (subjects s i).
Lemma somewhere_list s (P : SubjectRecord → Prop) : (∃ r, r ∈ subject_list s ∧ P r) ↔ somewhere s P.
Proof.
  unfold subject_list, somewhere. setoid_rewrite list_elem_of_fmap. setoid_rewrite elem_of_seq. split.
  - intros (r & (i & -> & Hi) & Hr). exists i. split; [lia|done].
  - intros (i & Hi & Hr). exists (subjects s i). split; [exists i; split; [done|lia]|done].
Qed.
Lemma everywhere_list s (P : SubjectRecord → Prop) : (∀ r, r ∈ subject_list s → P r) ↔ everywhere s P.
Proof.
  unfold subject_list, everywhere. setoid_rewrite list_elem_of_fmap. setoid_rewrite elem_of_seq. split.
  - intros Hall i Hi. apply Hall. exists i. split; [done|lia].
  - intros Hall r (i & -> & Hi). apply Hall. lia.
Qed.

(** C31: threads report, advance, check, assess, refresh and read in any
    interleaving.  At every moment a component is Faulted just when required
    evidence at hand says so, Degraded just when it is not Faulted and
    required evidence at hand is degraded or too old, Nominal just when
    some evidence says so and all required evidence is at hand, recent and
    without complaint, and Unknown otherwise; and once it has been computed
    the record of the system is the one its components give: its condition
    the worst of theirs (Unknown between Nominal and Degraded), Unsafe or
    Stale or not ready just when one of them is, ready just when all are. *)
Theorem records_follow_evidence (ths : list (list HealthOp)) sch (w w' : World A) progs :
  coherent (health w) → Z.of_nat subject_count < 2 ^ 32 →
  Interleave.run sch (w, health_thread <$> ths) = (w', progs) →
  let s := health w' in
  (∀ i, let r := subjects s i in let vs := (evidences i s).*1 in
     (s_condition r = CFaulted ↔ ∃ v, v ∈ vs ∧ at_hand v ∧ condition (v_assessment v) = CFaulted)
     ∧ (s_condition r = CDegraded ↔
        s_condition r ≠ CFaulted ∧ ∃ v, v ∈ vs ∧ at_hand v ∧ (condition (v_assessment v) = CDegraded ∨ old (s_assessed_at r) v))
     ∧ (s_condition r = CNominal ↔
        (∃ v, v ∈ vs ∧ v_present v = true ∧ condition (v_assessment v) = CNominal) ∧
        ∀ v, v ∈ vs → v_required v = true →
          at_hand v ∧ ¬ old (s_assessed_at r) v ∧ (condition (v_assessment v) = CNominal ∨ condition (v_assessment v) = CUnknown)))
  ∧ (let y := system s in y ≠ new_system →
     (y_condition y = CFaulted ↔ somewhere s (λ r, s_condition r = CFaulted))
     ∧ (y_condition y = CDegraded ↔
        everywhere s (λ r, s_condition r ≠ CFaulted) ∧ somewhere s (λ r, s_condition r = CDegraded))
     ∧ (y_condition y = CUnknown ↔
        everywhere s (λ r, s_condition r = CUnknown ∨ s_condition r = CNominal) ∧ somewhere s (λ r, s_condition r = CUnknown))
     ∧ (y_condition y = CNominal ↔ everywhere s (λ r, s_condition r = CNominal))
     ∧ (y_safety y = SafetyUnsafe ↔ somewhere s (λ r, s_safety r = SafetyUnsafe))
     ∧ (y_freshness y = FStale ↔ somewhere s (λ r, s_freshness r = FStale))
     ∧ (y_readiness y = RNotReady ↔ somewhere s (λ r, s_readiness r = RNotReady))
     ∧ (y_readiness y = RReady ↔ everywhere s (λ r, s_readiness r = RReady))).
Proof.
  intros Hw Hcount Hrun s.
  assert (Hs : coherent s).
  { subst s. change w' with (w', progs).1. rewrite <-Hrun. apply (run_keeps (λ w, coherent (health w))); [|done].
    apply Forall_fmap, List.Forall_forall. intros ops _. apply coherent_thread. }
  destruct Hs as [Hr Hy]. split.
  - intros i. cbv zeta. rewrite (subject_condition s i (Hr i)). split; [apply judged_faulted|]. split; [apply judged_degraded|].
    rewrite judged_nominal. unfold at_hand. naive_solver.
  - intros y Hnew. destruct Hy as [Hy|Hy]; [|done]. unfold summarised in Hy. cbv zeta in Hy.
    assert (Hlen : Z.of_nat (length (subject_list s)) < 2 ^ 32) by (unfold subject_list; by rewrite length_fmap, length_seq).
    pose proof (summary_condition _ Hlen) as [V1 V4]. pose proof (summary_verdict _ Hlen) as [V2 V3].
    pose proof (summary_unsafe (subject_list s)) as V5. pose proof (summary_stale (subject_list s)) as V6.
    pose proof (summary_readiness (subject_list s)) as [V7 V8].
    assert (Hboth : ∀ P Q P' Q' : Prop, (P ↔ P') → (Q ↔ Q') → (P ∧ Q ↔ P' ∧ Q')) by tauto.
    subst y. rewrite Hy. split; [etrans; [exact V1|apply somewhere_list]|].
    split; [etrans; [exact V2|apply Hboth; [apply everywhere_list|apply somewhere_list]]|].
    split; [etrans; [exact V3|apply Hboth; [apply everywhere_list|apply somewhere_list]]|].
    split; [etrans; [exact V4|apply everywhere_list]|]. split; [etrans; [exact V5|apply somewhere_list]|].
    split; [etrans; [exact V6|apply somewhere_list]|].
    split; [etrans; [exact V7|apply somewhere_list]|etrans; [exact V8|apply everywhere_list]].
Qed.
End Threads.
End HealthProperties.
