(* ===== verification/Supervisor.v ===== *)
(** * Supervisor: responses to the health of the system, and the watchdog

    Models [include/solar/supervisor/types.hpp], [policy.hpp], [service.hpp]
    and the queries of [api.hpp]: the rules of a policy and their attempts,
    the actions, the history of responses, the cycle that refreshes the health
    facility, evaluates the rules and feeds the watchdog, and the service
    around it.  It runs on the world of Health; [Effect] lists what it does to
    others. *)
From stdpp Require Import prelude functions.
From S2P Require Import Prelude Status Interleave Health.
Import Healths.

Open Scope Z_scope.
Open Scope solar_scope.

Module Supervisors.

(** ** Data *)
Inductive ServiceState : Set := SvStopped | SvStarting | SvRunning | SvStopping | SvFaulted.
Inductive Phase : Set := Idle | RefreshHealth | EvaluatePolicy | ExecuteResponses | EvaluateWatchdog | Complete.
Inductive Trigger : Set := OnFault | OnDegraded | OnStall | OnRecoveryFailure.
Inductive Action : Set :=
  | ActObserve | ActWarn | ActLatch | ActTryRecover | ActEnterSafeState | ActRequestStop | ActRequestSystemStop
  | ActRequestReboot | ActStopFeedingWatchdog | ActPanic.
Inductive Outcome : Set := Succeeded | OutcomeFailed | Deferred | Unsupported | Requested | Suppressed.
#[export] Instance Trigger_eq_dec : EqDecision Trigger. Proof. solve_decision. Defined.
#[export] Instance Action_eq_dec : EqDecision Action. Proof. solve_decision. Defined.
#[export] Instance Outcome_eq_dec : EqDecision Outcome. Proof. solve_decision. Defined.

(** The responses of a policy: an action with its target. *)
Inductive Response : Set :=
  | Observes | Warn | Latch | TryRecover (component : nat) | EnterSafeState (safe_state : nat) | RequestStop (component : nat)
  | RequestSystemStop | RequestReboot | StopFeedingWatchdog | Panic.
#[export] Instance Response_eq_dec : EqDecision Response. Proof. solve_decision. Defined.
Definition action_kind (r : Response) : Action :=
  match r with
  | Observes => ActObserve | Warn => ActWarn | Latch => ActLatch | TryRecover _ => ActTryRecover
  | EnterSafeState _ => ActEnterSafeState | RequestStop _ => ActRequestStop | RequestSystemStop => ActRequestSystemStop
  | RequestReboot => ActRequestReboot | StopFeedingWatchdog => ActStopFeedingWatchdog | Panic => ActPanic
  end.
Record Rule : Set := mkRule { trigger : Trigger; subject : nat; responses : list Response }.
#[export] Instance Rule_eq_dec : EqDecision Rule. Proof. solve_decision. Defined.

(** Times in ticks; [cycle_deadline] is the period and the grace together. *)
Class SupervisorPolicy := {
  policy_rules : list Rule;
  watchdog_configured : bool;
  max_responses : Z;
  response_depth : nat;
  recovery_attempts : Z;
  recovery_cooldown : Z;
  cycle_deadline : Z;
  service_subject : nat }.

Record RuleState : Set := mkRuleState { next_attempt : Z; rule_attempts : Z; rule_active : bool; rule_latched : bool }.
#[export] Instance RuleState_fields : Fields RuleState := λ r,
  mkRuleState (next_attempt r) (rule_attempts r) (rule_active r) (rule_latched r).
Definition new_rule : RuleState := mkRuleState 0 0 false false.
Record StateRecord : Set := mkStateRecord {
  service_state : ServiceState; last_phase : Phase; started_at : Z; last_cycle_started : Z; last_cycle_completed : Z;
  last_cycle_duration : Z; maximum_cycle_duration : Z; cycle_generation : Z; health_generation : Z; cycles : Z;
  overruns : Z; refresh_failures : Z; deferred_responses : Z; cycle_complete : bool; system_stop_requested : bool;
  state_reboot_requested : bool; state_panic_requested : bool }.
#[export] Instance StateRecord_fields : Fields StateRecord := λ s,
  mkStateRecord (service_state s) (last_phase s) (started_at s) (last_cycle_started s) (last_cycle_completed s)
    (last_cycle_duration s) (maximum_cycle_duration s) (cycle_generation s) (health_generation s) (cycles s) (overruns s)
    (refresh_failures s) (deferred_responses s) (cycle_complete s) (system_stop_requested s) (state_reboot_requested s)
    (state_panic_requested s).
Definition new_state : StateRecord := mkStateRecord SvStopped Idle 0 0 0 0 0 0 0 0 0 0 0 false false false false.
Record ResponseRecord : Set := mkResponse {
  rr_sequence : Z; rr_subject : nat; rr_trigger : Trigger; rr_action : Action; rr_outcome : Outcome; rr_status : Status;
  rr_attempted_at : Z; rr_attempt : Z; rr_health_generation : Z }.
#[export] Instance ResponseRecord_fields : Fields ResponseRecord := λ r,
  mkResponse (rr_sequence r) (rr_subject r) (rr_trigger r) (rr_action r) (rr_outcome r) (rr_status r) (rr_attempted_at r)
    (rr_attempt r) (rr_health_generation r).
Definition no_response : ResponseRecord := mkResponse 0 0 OnFault ActObserve Succeeded SOk 0 0 0.
(** [supervisor::SubjectRecord]. *)
Record Supervised : Set := mkSupervised {
  su_subject : nat; su_last_trigger : Trigger; su_last_action : Action; su_last_outcome : Outcome; su_last_response_at : Z;
  su_attempts : Z; su_active : bool; su_latched : bool }.
#[export] Instance Supervised_fields : Fields Supervised := λ s,
  mkSupervised (su_subject s) (su_last_trigger s) (su_last_action s) (su_last_outcome s) (su_last_response_at s)
    (su_attempts s) (su_active s) (su_latched s).
Definition new_supervised : Supervised := mkSupervised 0 OnFault ActObserve Succeeded 0 0 false false.
Record WatchdogRecord : Set := mkWatchdog {
  configured : bool; enabled : bool; feed_permitted : bool; deliberately_withheld : bool; last_feed_at : Z; feeds : Z;
  withheld : Z; feed_failures : Z; last_feed_status : Status }.
#[export] Instance WatchdogRecord_fields : Fields WatchdogRecord := λ w,
  mkWatchdog (configured w) (enabled w) (feed_permitted w) (deliberately_withheld w) (last_feed_at w) (feeds w) (withheld w)
    (feed_failures w) (last_feed_status w).
Definition new_watchdog (configured : bool) : WatchdogRecord := mkWatchdog configured false false false 0 0 0 0 SOk.

(** What the supervisor does to others, in order. *)
Inductive Effect : Set :=
  | Fed | Recovered (component : nat) | Entered (safe_state : nat) | StopRequested (component : nat) | Panicked
  | ProviderStarted | ProviderStopped.
#[export] Instance Effect_eq_dec : EqDecision Effect. Proof. solve_decision. Defined.

(** [Storage] and the static members of [Service]. *)
Record Supervision : Type := mkSupervision {
  state : StateRecord;
  watchdog : WatchdogRecord;
  rule_states : nat → RuleState;
  response_history : nat → ResponseRecord;
  next_sequence : Z;
  overwritten : Z;
  stop_requested : bool;
  reboot_requested : bool;
  panic_requested : bool;
  supervised : nat → Supervised;
  bound : bool;                        (* [cycle_callback] is set *)
  effects : list Effect }.
#[export] Instance Supervision_fields : Fields Supervision := λ s,
  mkSupervision (state s) (watchdog s) (rule_states s) (response_history s) (next_sequence s) (overwritten s) (stop_requested s)
    (reboot_requested s) (panic_requested s) (supervised s) (bound s) (effects s).

(** What the actions and the provider of the watchdog answer, the lock of the
    cycle, the request to stop, and a wait that ends with an error. *)
Record SupervisorEnv : Type := mkSupervisorEnv {
  recover : nat → result Status unit;
  enter : nat → result Status unit;
  request_stop : nat → result Status unit;
  feed : result Status unit;
  start_provider : result Status unit;
  stop_provider : result Status unit;
  cycle_lock : option Status;
  stop_token : bool;
  wait_error : option Status }.

Inductive CycleReason : Set := CycleNotReady | HealthRefreshFailed.
Record CycleError : Set := mkCycleError { ce_status : Status; ce_reason : CycleReason }.
Record ActionResult : Set := mkActionResult {
  ar_outcome : Outcome; ar_status : Status; ar_recovery_failed : bool; ar_panic : bool }.
Definition action_done : ActionResult := mkActionResult Succeeded SOk false false.
Definition action_requested : ActionResult := mkActionResult Requested SOk false false.

(** ** Rules *)
Section Rules.
Context `{SupervisorPolicy}.
Implicit Types (r : Rule) (time : Z).

Definition triggered r (record : SubjectRecord) (recovery_failed : bool) : bool :=
  match trigger r with
  | OnFault => bool_decide (s_condition record = CFaulted)
  | OnDegraded => bool_decide (s_condition record = CDegraded)
  | OnStall => bool_decide (s_liveness record = LStalled)
  | OnRecoveryFailure => recovery_failed
  end.
(** [TypeIndex]: the place of the first rule of that type. *)
Definition rule_index r : nat := default 0%nat (fst <$> list_find (λ r', r' = r) policy_rules).
Definition retries r : bool := existsb (λ a, match a with TryRecover _ => true | _ => false end) (responses r).
(** Whether an active rule responds now: its state afterwards, or [None]. *)
Definition attempt_rule (repeats : bool) time (x : RuleState) : option RuleState :=
  if rule_active x && (negb repeats || (recovery_attempts <=? rule_attempts x) || (time <? next_attempt x)) then None else
  Some (x <| rule_active := true |> <| rule_attempts ::= inc32 |> <| next_attempt := time + recovery_cooldown |>).
Definition rest_rule (x : RuleState) : RuleState := x <| rule_active := false |> <| rule_attempts := 0 |> <| next_attempt := 0 |>.

Definition append_response (record : ResponseRecord) (s : Supervision) : Supervision :=
  let record := record <| rr_sequence := next_sequence s |> in
  let s := s <| next_sequence ::= inc64 |> in
  let s := if Z.of_nat response_depth <? rr_sequence record then s <| overwritten ::= inc64 |> else s in
  s <| response_history ::= <[Z.to_nat ((rr_sequence record - 1) mod Z.of_nat response_depth) := record]> |>.
Definition note_response (record : ResponseRecord) (x : Supervised) : Supervised :=
  let x := mkSupervised (rr_subject record) (rr_trigger record) (rr_action record) (rr_outcome record) (rr_attempted_at record)
             (rr_attempt record) true (su_latched x) in
  if bool_decide (rr_action record = ActLatch) && bool_decide (rr_outcome record = Succeeded) then x <| su_latched := true |> else x.
End Rules.

Section Cycle.
Context `{HealthConfig} {W : Errno} `{SupervisorPolicy}.
Local Abbreviation Env := (Env SupervisorEnv).
Local Abbreviation World := (World Supervision).
Local Abbreviation Program := (Prog Env World).
Implicit Types (r : Rule) (time : Z) (e : Env) (w : World) (fuel : nat).
Open Scope prog_scope.

(** A section of the mutex of the supervisor, which its threads always get. *)
Definition on_supervision {B} (f : Supervision → B * Supervision) (_ : Env) w : B * World :=
  let '(b, s) := f (rest w) in (b, w <| rest := s |>).
Definition update (f : Supervision → Supervision) : Env → World → unit * World := on_supervision (λ s, (tt, f s)).
Definition see {B} (f : Supervision → B) : Env → World → B * World := on_supervision (λ s, (f s, s)).
(** A call of others: what it answers, noted among the effects. *)
Definition act {B} (x : Effect) (answer : SupervisorEnv → B) e w : B * World :=
  (answer (supervisor_env e), w <| rest ::= (λ s, s <| effects ::= (λ l, l ++ [x]) |>) |>).

(** ** Actions *)
Definition attempted (answer : result Status unit) (recovery : bool) : ActionResult :=
  match answer with Ok _ => action_done | Err status => mkActionResult OutcomeFailed status recovery false end.
Definition execute_action (a : Response) : Program ActionResult :=
  match a with
  | Observes | Warn | Latch => Done action_done
  | TryRecover c => answer ← act (Recovered c) (λ v, recover v c); Done (attempted answer true)
  | EnterSafeState x => answer ← act (Entered x) (λ v, enter v x); Done (attempted answer false)
  | RequestStop c =>
    stopped ← act (StopRequested c) (λ v, request_stop v c);
    Done (match stopped with
          | Ok _ => action_requested
          | Err status => mkActionResult (if bool_decide (status = SAlready) then Requested else OutcomeFailed) status false false
          end)
  | RequestSystemStop =>
    _ ← update (λ s, s <| stop_requested := true |> <| state ::= (λ x, x <| system_stop_requested := true |>) |>);
    Done action_requested
  | RequestReboot =>
    _ ← update (λ s, s <| reboot_requested := true |> <| state ::= (λ x, x <| state_reboot_requested := true |>) |>);
    Done action_requested
  | StopFeedingWatchdog =>
    _ ← update (λ s, s <| watchdog ::= (λ x, x <| deliberately_withheld := true |> <| feed_permitted := false |>) |>);
    Done action_done
  | Panic =>
    _ ← update (λ s, s <| panic_requested := true |> <| state ::= (λ x, x <| state_panic_requested := true |>) |>);
    Done (mkActionResult Requested SOk false true)
  end.

(** What a cycle carries from rule to rule: the responses made, the components
    whose recovery has failed, and its copy of the records. *)
Record Local : Type := mkLocal { budget : Z; failures : nat → bool; updates : nat → Supervised }.
#[export] Instance Local_fields : Fields Local := λ x, mkLocal (budget x) (failures x) (updates x).

(** [kernel::panic] does not return. *)
Definition kernel_panic : Program Local := _ ← act Panicked (λ _, tt); Stalled.
Fixpoint respond r time (generation attempt : Z) (actions : list Response) (x : Local) : Program Local :=
  match actions with
  | [] => Done x
  | a :: actions =>
    if max_responses <=? budget x then
      _ ← update (λ s, s <| state ::= (λ y, y <| deferred_responses ::= inc32 |>) |>);
      respond r time generation attempt actions x
    else
      result ⇇ execute_action a;
      let record := mkResponse 0 (subject r) (trigger r) (action_kind a) (ar_outcome result) (ar_status result) time attempt
                      generation in
      _ ← update (append_response record);
      let x := x <| budget ::= inc32 |> <| updates ::= alter (note_response record) (rule_index r) |> in
      let x := if ar_recovery_failed result then x <| failures ::= <[subject r := true]> |> else x in
      if ar_panic result then kernel_panic else respond r time generation attempt actions x
  end.
Definition evaluate_rule r time (generation : Z) (recovery_failed : bool) (x : Local) : Program Local :=
  record ⇇ subject_record (subject r);
  match record with
  | Err _ => Done x
  | Ok record =>
    let k := rule_index r in
    if negb (triggered r record recovery_failed) then
      _ ← update (λ s, s <| rule_states ::= alter rest_rule k |>);
      Done (x <| updates ::= alter (λ u, u <| su_active := false |>) k |>)
    else
      attempt ← on_supervision (λ s, match attempt_rule (retries r) time (rule_states s k) with
                                     | None => (None, s)
                                     | Some y => (Some (rule_attempts y), s <| rule_states ::= <[k := y]> |>)
                                     end);
      match attempt with
      | None => Done x
      | Some attempt => respond r time generation attempt (responses r) x
      end
  end.
Definition on_recovery_failure r : bool := bool_decide (trigger r = OnRecoveryFailure).
Fixpoint evaluate_rules (second : bool) (rs : list Rule) time (generation : Z) (x : Local) : Program Local :=
  match rs with
  | [] => Done x
  | r :: rs =>
    x ⇇ (if Bool.eqb (on_recovery_failure r) second
         then evaluate_rule r time generation (second && failures x (subject r)) x else Done x);
    evaluate_rules second rs time generation x
  end.

(** ** The cycle *)
Definition begin_cycle time (s : Supervision) : Supervision :=
  s <| state ::= (λ x, x <| last_phase := RefreshHealth |> <| last_cycle_started := time |> <| cycle_complete := false |>) |>
    <| watchdog ::= (λ x, x <| feed_permitted := false |> <| deliberately_withheld := false |>) |>.
Definition acceptable (y : SystemRecord) : bool :=
  negb (bool_decide (y_condition y = CFaulted)) && negb (bool_decide (y_safety y = SafetyUnsafe))
  && negb (bool_decide (y_freshness y = FStale)).
Definition gate (health_state : result Error SystemRecord) (s : Supervision) : Supervision :=
  s <| state ::= (λ x, x <| last_phase := EvaluateWatchdog |>) |>
    <| watchdog ::= (λ x, x <| feed_permitted := negb (deliberately_withheld x)
                                                   && match health_state with Ok y => acceptable y | Err _ => false end |>) |>.
Definition note_feed time (answer : result Status unit) (x : WatchdogRecord) : WatchdogRecord :=
  match answer with
  | Ok _ => x <| last_feed_status := SOk |> <| feeds ::= inc32 |> <| last_feed_at := time |>
  | Err status => x <| last_feed_status := status |> <| feed_failures ::= inc32 |>
  end.
Definition feed_watchdog time : Program unit :=
  if negb watchdog_configured then Done tt else
  permitted ← see (λ s, feed_permitted (watchdog s));
  if permitted : bool then
    answer ← act Fed feed;
    _ ← update (λ s, s <| watchdog ::= note_feed time answer |>); Done tt
  else _ ← update (λ s, s <| watchdog ::= (λ x, x <| withheld ::= inc32 |>) |>); Done tt.
Definition end_cycle time (clock : Z) (subjects : nat → Supervised) (s : Supervision) : Supervision :=
  let completed := Z.max clock time in
  let duration := completed - time in
  s <| state ::= (λ x,
         let x := x <| last_phase := Complete |> <| last_cycle_completed := completed |> <| last_cycle_duration := duration |>
                    <| maximum_cycle_duration ::= Z.max duration |> <| cycle_complete := true |> <| service_state := SvRunning |>
                    <| cycles ::= inc32 |> <| cycle_generation ::= inc64 |> in
         if cycle_deadline <? duration then x <| overruns ::= inc32 |> else x) |>
    <| supervised := subjects |>.
Definition cycle fuel time : Program (result CycleError unit) :=
  locked ← (λ e w, (cycle_lock (supervisor_env e), w));
  match locked with
  | Some status => Done (Err (mkCycleError status CycleNotReady))
  | None =>
    _ ← update (begin_cycle time);
    refreshed ⇇ refresh fuel;
    match refreshed with
    | Err error =>
      _ ← update (λ s, s <| state ::= (λ x, x <| refresh_failures ::= inc32 |> <| service_state := SvFaulted |>) |>);
      Done (Err (mkCycleError (e_status error) HealthRefreshFailed))
    | Ok _ =>
      health_state ⇇ system_record;
      let generation := match health_state with Ok y => y_generation y | Err _ => 0 end in
      _ ← update (λ s, s <| state ::= (λ x, x <| last_phase := EvaluatePolicy |> <| health_generation := generation |>) |>);
      copies ← see supervised;
      x ⇇ evaluate_rules false policy_rules time generation (mkLocal 0 (λ _, false) copies);
      x ⇇ evaluate_rules true policy_rules time generation x;
      _ ← update (gate health_state);
      _ ⇇ feed_watchdog time;
      clock ← (λ e w, (now e, w));
      _ ← update (end_cycle time clock (updates x));
      _ ⇇ progress service_subject;
      Done (Ok tt)
    end
  end.

(** ** The service *)
Definition bind_service : Program unit :=
  _ ← update (λ s, s <| bound := true |>); _ ← put (λ s, s <| supervisor_waker := true |>); Done tt.
Definition init_section (s : Supervision) : Supervision :=
  s <| state := new_state |> <| watchdog := new_watchdog watchdog_configured |> <| rule_states := λ _, new_rule |>
    <| response_history := λ _, no_response |> <| next_sequence := 1 |> <| overwritten := 0 |> <| stop_requested := false |>
    <| reboot_requested := false |> <| panic_requested := false |> <| supervised := λ _, new_supervised |>.
Definition init : Program unit := _ ← update init_section; _ ← put (λ s, s <| wake := false |>); Done tt.
Definition start : Program (result Status unit) :=
  started ⇇ (if watchdog_configured then answer ← act ProviderStarted start_provider; Done answer else Done (Ok tt));
  match started with
  | Err status => Done (Err status)
  | Ok _ =>
    time ← (λ e w, (now e, w));
    _ ← update (λ s, s <| state ::= (λ x, x <| service_state := SvStarting |> <| started_at := time |>) |>
                       <| watchdog ::= (λ x, x <| enabled := watchdog_configured |>) |>);
    Done (Ok tt)
  end.
Definition give_wake : Program unit := _ ← put (λ s, s <| wake := true |>); Done tt.
Definition stop : Program (result Status unit) :=
  _ ← update (λ s, s <| state ::= (λ x, x <| service_state := SvStopping |>) |>
                     <| watchdog ::= (λ x, x <| feed_permitted := false |>) |>);
  _ ⇇ give_wake;
  if watchdog_configured then answer ← act ProviderStopped stop_provider; Done answer else Done (Ok tt).
Definition deinit : Program unit :=
  _ ← update (λ s, s <| state ::= (λ x, x <| service_state := SvStopped |>) |> <| watchdog ::= (λ x, x <| enabled := false |>) |>);
  Done tt.
(** [take] with the period as its limit, after which the loop goes on. *)
Definition wait_wake e w : option Status * World :=
  if wake (health w) then (None, w <| health ::= (λ s, s <| wake := false |>) |>) else (wait_error (supervisor_env e), w).
Fixpoint run fuel : Program (result Status unit) :=
  match fuel with
  | O => Stalled
  | S fuel' =>
    stopping ← (λ e w, (stop_token (supervisor_env e), w));
    if stopping : bool then Done (Ok tt) else
    callback ← see bound;
    if negb callback then Done (Err SNotReady) else
    time ← (λ e w, (now e, w));
    result ⇇ cycle fuel' time;
    match result with
    | Err error => Done (Err (ce_status error))
    | Ok _ =>
      failed ← wait_wake;
      match failed with Some status => Done (Err status) | None => run fuel' end
    end
  end.

(** ** Queries *)

(** The lock guard of a query is refused to an interrupt. *)
Definition query {B} (f : Supervision → B) : Program (result Status B) :=
  copy ← (λ e w, (if in_isr e then Err SInvalid else Ok (f (rest w)), w)); Done copy.
Definition copy_state : Program (result Status StateRecord) := query state.
Definition copy_watchdog : Program (result Status WatchdogRecord) := query watchdog.
Definition join_record (s : Supervision) (component : nat) (x : Supervised) r : Supervised :=
  if (subject r =? component)%nat then
    let candidate := supervised s (rule_index r) in
    let x := if su_last_response_at x <=? su_last_response_at candidate then candidate else x in
    x <| su_latched ::= (λ b, b || su_latched candidate) |> <| su_active ::= (λ b, b || su_active candidate) |>
  else x.
Definition copy_subject (component : nat) : Program (result Status Supervised) :=
  query (λ s, foldl (join_record s component) new_supervised policy_rules).
Fixpoint copy_loop fuel (s : Supervision) (sequence : Z) (room : nat) (taken : list ResponseRecord) : list ResponseRecord * Z :=
  match fuel with
  | O => (taken, sequence)
  | S fuel =>
    if (sequence <? next_sequence s) && (length taken <? room)%nat
    then copy_loop fuel s (inc64 sequence) room (taken ++ [response_history s (Z.to_nat ((sequence - 1) mod Z.of_nat response_depth))])
    else (taken, sequence)
  end.
Definition copy_responses (cursor : Z) (room : nat) : Program (result Status (list ResponseRecord * Z * Z)) :=
  query (λ s,
    let oldest := if Z.of_nat response_depth <? next_sequence s then next_sequence s - Z.of_nat response_depth else 1 in
    let '(taken, next) := copy_loop response_depth s (Z.max cursor oldest) room [] in
    (taken, next, overwritten s)).
End Cycle.
End Supervisors.
