(* ===== verification/SupervisorCycle.v ===== *)
(** * SupervisorCycle: what one cycle of the supervisor does

    A cycle that is not interfered with makes the responses its rules call for
    as far as its budget allows, records them, and feeds the watchdog just when
    its gate is open; and the attempts of a rule while its condition lasts. *)
From stdpp Require Import prelude functions.
From S2P Require Import Prelude Status Lifecycle Interleave Health HealthProps Supervisor.
Import Healths HealthProperties Supervisors.

Open Scope Z_scope.
Open Scope solar_scope.
Open Scope prog_scope.

Module Supervision_cycle.

(** ** What responses amount to *)

(** A response that was made: of which rule, and at which of its attempts. *)
Record Made : Set := mkMade { md_rule : Rule; md_response : Response; md_attempt : Z }.

(** What a response does to others (a panic does not return). *)
Definition effect_of (a : Response) : option Effect :=
  match a with
  | TryRecover c => Some (Recovered c)
  | EnterSafeState x => Some (Entered x)
  | RequestStop c => Some (StopRequested c)
  | _ => None
  end.
(** What others make of it. *)
Definition result_of (v : SupervisorEnv) (a : Response) : ActionResult :=
  match a with
  | Observes | Warn | Latch | StopFeedingWatchdog => action_done
  | RequestSystemStop | RequestReboot => action_requested
  | TryRecover c => attempted (recover v c) true
  | EnterSafeState x => attempted (enter v x) false
  | RequestStop c =>
    match request_stop v c with
    | Ok _ => action_requested
    | Err status => mkActionResult (if bool_decide (status = SAlready) then Requested else OutcomeFailed) status false false
    end
  | Panic => mkActionResult Requested SOk false true
  end.
Definition made_record (v : SupervisorEnv) (time generation : Z) (m : Made) : ResponseRecord :=
  let result := result_of v (md_response m) in
  mkResponse 0 (subject (md_rule m)) (trigger (md_rule m)) (action_kind (md_response m)) (ar_outcome result) (ar_status result)
    time (md_attempt m) generation.
Definition includes (a : Response) (made : list Made) : bool := existsb (λ m, bool_decide (md_response m = a)) made.
(** The recovery of component [c] has failed. *)
Definition recovery_lost (v : SupervisorEnv) (made : list Made) (c : nat) : bool :=
  existsb (λ m, (subject (md_rule m) =? c)%nat && ar_recovery_failed (result_of v (md_response m))) made.
(** The responses that attempts ask for, in order. *)
Definition asked_by (attempts : list (Rule * Z)) : list Made :=
  attempts ≫= λ '(r, n), (λ a, mkMade r a n) <$> responses r.
Definition logged (s : Supervision) : Z * Z * (nat → ResponseRecord) := (next_sequence s, overwritten s, response_history s).

Section Responses.
Context `{SupervisorPolicy}.
Definition log_all (v : SupervisorEnv) (time generation : Z) (made : list Made) (s : Supervision) : Supervision :=
  foldl (λ s m, append_response (made_record v time generation m) s) s made.

(** The responses [made] come about, in order, and [deferred] more are counted
    as deferred: the effects, the history, the requests, and nothing of health. *)
Record makes (v : SupervisorEnv) (time generation : Z) (made : list Made) (deferred : nat) (w w' : World Supervision) : Prop := {
  mk_health : health w' = health w;
  mk_effects : effects (rest w') = effects (rest w) ++ omap (λ m, effect_of (md_response m)) made;
  mk_logged : logged (rest w') = logged (log_all v time generation made (rest w));
  mk_withheld : deliberately_withheld (watchdog (rest w'))
                = deliberately_withheld (watchdog (rest w)) || includes StopFeedingWatchdog made;
  mk_stop : stop_requested (rest w') = stop_requested (rest w) || includes RequestSystemStop made;
  mk_reboot : reboot_requested (rest w') = reboot_requested (rest w) || includes RequestReboot made;
  mk_deferred : deferred_responses (state (rest w')) = Nat.iter deferred inc32 (deferred_responses (state (rest w))) }.

Lemma logged_append record s s' : logged s = logged s' → logged (append_response record s) = logged (append_response record s').
Proof. unfold logged, append_response. intros [= E1 E2 E3]. cbn. rewrite E1. destruct (_ <? _); cbn; by rewrite ?E1, ?E2, ?E3. Qed.
Lemma logged_all v time generation made s s' :
  logged s = logged s' → logged (log_all v time generation made s) = logged (log_all v time generation made s').
Proof. unfold log_all. revert s s'. induction made as [|m made IH]; intros s s' Hs; [done|]. cbn [foldl]. by apply IH, logged_append. Qed.
Lemma includes_app a l1 l2 : includes a (l1 ++ l2) = includes a l1 || includes a l2.
Proof. apply existsb_app. Qed.
Lemma recovery_lost_app v l1 l2 c : recovery_lost v (l1 ++ l2) c = recovery_lost v l1 c || recovery_lost v l2 c.
Proof. apply existsb_app. Qed.
Lemma asked_app l1 l2 : asked_by (l1 ++ l2) = asked_by l1 ++ asked_by l2.
Proof. apply bind_app. Qed.
Lemma makes_nothing v time generation n w w' :
  health w' = health w → effects (rest w') = effects (rest w) → logged (rest w') = logged (rest w) →
  deliberately_withheld (watchdog (rest w')) = deliberately_withheld (watchdog (rest w)) →
  stop_requested (rest w') = stop_requested (rest w) → reboot_requested (rest w') = reboot_requested (rest w) →
  deferred_responses (state (rest w')) = Nat.iter n inc32 (deferred_responses (state (rest w))) →
  makes v time generation [] n w w'.
Proof. intros. split; [done|by rewrite app_nil_r|done|by rewrite orb_false_r..|done]. Qed.
Lemma makes_more v time generation m1 m2 d1 d2 w1 w2 w3 :
  makes v time generation m1 d1 w1 w2 → makes v time generation m2 d2 w2 w3 → makes v time generation (m1 ++ m2) (d1 + d2) w1 w3.
Proof.
  intros [A1 A2 A3 A4 A5 A6 A7] [B1 B2 B3 B4 B5 B6 B7]. split.
  - congruence.
  - by rewrite B2, A2, omap_app, app_assoc.
  - rewrite B3. unfold log_all at 2. rewrite foldl_app. by apply logged_all.
  - by rewrite B4, A4, includes_app, orb_assoc.
  - by rewrite B5, A5, includes_app, orb_assoc.
  - by rewrite B6, A6, includes_app, orb_assoc.
  - by rewrite B7, A7, Nat.add_comm, Nat.iter_add.
Qed.
End Responses.

Section Cycle.
Context `{HealthConfig} {W : Errno} `{SupervisorPolicy}.
Local Abbreviation Env := (Env SupervisorEnv).
Local Abbreviation World := (World Supervision).
Implicit Types (w : World) (e : Env) (r : Rule) (x : Local) (attempts : list (Rule * Z)).

(** ** Responding *)
Definition room x : nat := Z.to_nat (max_responses - budget x).
Definition granted x attempts : list Made := take (room x) (asked_by attempts).
(** The attempts are answered: of the responses they ask for, the budget has
    room for the first ones, and the rest are deferred. *)
Record answered e (time generation : Z) attempts x w x' w' : Prop := {
  an_makes : makes (supervisor_env e) time generation (granted x attempts)
               (length (asked_by attempts) - length (granted x attempts)) w w';
  an_budget : budget x' = budget x + Z.of_nat (length (granted x attempts));
  an_failures : ∀ c, failures x' c = failures x c || recovery_lost (supervisor_env e) (granted x attempts) c }.

Lemma answered_room e time generation attempts x w x' w' :
  answered e time generation attempts x w x' w' → 0 ≤ budget x ≤ max_responses → 0 ≤ budget x' ≤ max_responses.
Proof. intros [_ Hb _] Hx. rewrite Hb. unfold granted, room. rewrite length_take. lia. Qed.
Lemma granted_app e time generation l1 l2 x w x' w' :
  answered e time generation l1 x w x' w' → granted x (l1 ++ l2) = granted x l1 ++ granted x' l2.
Proof.
  intros [_ Hb _]. unfold granted in *. rewrite asked_app, take_app. f_equal. f_equal.
  unfold room. rewrite Hb, length_take. unfold room. lia.
Qed.
Lemma answered_more e time generation l1 l2 x1 w1 x2 w2 x3 w3 :
  answered e time generation l1 x1 w1 x2 w2 → answered e time generation l2 x2 w2 x3 w3 →
  answered e time generation (l1 ++ l2) x1 w1 x3 w3.
Proof.
  intros H1 H2. pose proof (granted_app _ _ _ _ l2 _ _ _ _ H1) as Hg. destruct H1 as [A1 A2 A3], H2 as [B1 B2 B3]. split.
  - rewrite Hg, asked_app, !length_app.
    assert (length (granted x1 l1) ≤ length (asked_by l1) ∧ length (granted x2 l2) ≤ length (asked_by l2))%nat as [L1 L2]
      by (unfold granted; rewrite !length_take; lia).
    replace (_ + _ - _)%nat with (length (asked_by l1) - length (granted x1 l1) + (length (asked_by l2) - length (granted x2 l2)))%nat by lia.
    by eapply makes_more.
  - rewrite Hg, length_app. lia.
  - intros c. by rewrite Hg, B3, A3, recovery_lost_app, orb_assoc.
Qed.
Lemma answered_none e time generation x w w' x' :
  health w' = health w → effects (rest w') = effects (rest w) → logged (rest w') = logged (rest w) →
  watchdog (rest w') = watchdog (rest w) → stop_requested (rest w') = stop_requested (rest w) →
  reboot_requested (rest w') = reboot_requested (rest w) → state (rest w') = state (rest w) →
  budget x' = budget x → failures x' = failures x → answered e time generation [] x w x' w'.
Proof.
  intros E1 E2 E3 E4 E5 E6 E7 E8 E9. split; unfold granted; cbn [asked_by mbind list_bind]; rewrite take_nil.
  - apply makes_nothing; first [done | by rewrite E4 | by rewrite E7].
  - cbn. lia.
  - intros c. by rewrite E9, orb_false_r.
Qed.

Context (Hmax : 0 ≤ max_responses < 2 ^ 32).
Lemma action_alone e a w result w' :
  alone e (execute_action a) w = Some (result, w') →
  result = result_of (supervisor_env e) a ∧ health w' = health w
  ∧ effects (rest w') = effects (rest w) ++ omap effect_of [a] ∧ logged (rest w') = logged (rest w)
  ∧ deliberately_withheld (watchdog (rest w')) = deliberately_withheld (watchdog (rest w)) || bool_decide (a = StopFeedingWatchdog)
  ∧ stop_requested (rest w') = stop_requested (rest w) || bool_decide (a = RequestSystemStop)
  ∧ reboot_requested (rest w') = reboot_requested (rest w) || bool_decide (a = RequestReboot)
  ∧ deferred_responses (state (rest w')) = deferred_responses (state (rest w))
  ∧ rule_states (rest w') = rule_states (rest w).
Proof.
  destruct a; cbn; intros Ha; simplify_eq; cbn; rewrite ?app_nil_r, ?orb_false_r, ?orb_true_r; done.
Qed.
Lemma respond_alone e r time generation n actions x w x' w' :
  0 ≤ budget x ≤ max_responses → alone e (respond r time generation n actions x) w = Some (x', w') →
  let all := (λ a, mkMade r a n) <$> actions in
  let made := take (room x) all in
  makes (supervisor_env e) time generation made (length all - length made) w w'
  ∧ budget x' = budget x + Z.of_nat (length made)
  ∧ (∀ c, failures x' c = failures x c || recovery_lost (supervisor_env e) made c)
  ∧ rule_states (rest w') = rule_states (rest w).
Proof.
  cbv zeta. revert x w. induction actions as [|a actions IH]; intros x w Hx.
  - cbn. intros Ha. simplify_eq. rewrite take_nil. split; [by apply makes_nothing|]. cbn.
    split; [lia|]. split; [|done]. intros c. by rewrite orb_false_r.
  - cbn [respond]. destruct (Z.leb_spec max_responses (budget x)) as [Hfull|Hroom].
    + cbn [alone]. cbn -[respond]. intros Ha. apply IH in Ha as (A1 & A2 & A3 & A4); [|done].
      assert (room x = 0%nat) as Hr by (unfold room; lia). rewrite Hr in *. cbn [take fmap list_fmap length] in *.
      rewrite Nat.sub_0_r in *. split; [|done].
      eapply (makes_more _ _ _ [] [] 1 _ w); [|exact A1]. by apply makes_nothing.
    + rewrite alone_bind. destruct (alone e (execute_action a) w) as [[result w1]|] eqn:He; [|done]. cbn [mbind option_bind].
      apply action_alone in He as (-> & E1 & E2 & E3 & E4 & E5 & E6 & E7 & E8). cbn [alone].
      unfold update at 1, on_supervision at 1. cbn [fst snd]. set (m := mkMade r a n).
      set (record := mkResponse _ _ _ _ _ _ _ _ _). assert (record = made_record (supervisor_env e) time generation m) as Hrec by done.
      clearbody record. subst record. set (x1 := x <| budget ::= inc32 |> <| updates ::= _ |>).
      set (x2 := if ar_recovery_failed _ then _ else _). destruct (ar_panic _); [done|].
      assert (budget x2 = budget x + 1) as Hb.
      { assert (budget x2 = inc32 (budget x)) as -> by (subst x2; by destruct (ar_recovery_failed _)).
        unfold inc32, u32. rewrite Z.mod_small; lia. }
      assert (room x = S (room x2)) as Hr by (unfold room; lia).
      intros Ha. apply IH in Ha as (A1 & A2 & A3 & A4); [|lia]. rewrite Hr. cbn [fmap list_fmap take length].
      split; [|split; [rewrite A2; lia|split]].
      * rewrite Nat.sub_succ. eapply (makes_more _ _ _ [m] _ 0 _ w); [|exact A1]. split; cbn [omap list_omap includes existsb md_response m].
        -- done.
        -- cbn [rest effects]. etrans; [|etrans; [exact E2|]].
           ++ cbn. unfold append_response. by destruct (_ <? _).
           ++ done.
        -- change (logged (append_response (made_record (supervisor_env e) time generation m) (rest w1))
                   = logged (log_all (supervisor_env e) time generation [m] (rest w))). unfold log_all. cbn [foldl]. by apply logged_append.
        -- rewrite orb_false_r, <-E4. cbn. unfold append_response. by destruct (_ <? _).
        -- rewrite orb_false_r, <-E5. cbn. unfold append_response. by destruct (_ <? _).
        -- rewrite orb_false_r, <-E6. cbn. unfold append_response. by destruct (_ <? _).
        -- cbn [Nat.iter nat_rect]. rewrite <-E7. cbn. unfold append_response. by destruct (_ <? _).
      * intros c. rewrite A3. cbn [recovery_lost existsb md_rule md_response]. fold (recovery_lost (supervisor_env e)). rewrite orb_assoc. f_equal.
        subst x2. destruct (ar_recovery_failed _); cbn; [|by rewrite andb_false_r, orb_false_r].
        destruct (Nat.eqb_spec (subject r) c) as [->|Hne]; [by rewrite fn_lookup_insert, orb_true_r|].
        by rewrite fn_lookup_insert_ne, orb_false_r.
      * rewrite A4, <-E8. cbn. unfold append_response. by destruct (_ <? _).
Qed.
Lemma look_alone {B} e operation (f : Storage → B) w answer w' :
  alone e (look (A := Supervision) operation f) w = Some (answer, w') →
  w' = w ∧ match answer with Ok b => in_isr e = false ∧ b = f (health w) | Err _ => in_isr e = true end.
Proof.
  unfold look, with_storage. cbn. destruct (in_isr e); intros Ha; simplify_eq; [done|]. by destruct w.
Qed.

(** ** The evaluation of rules *)

(** What calls for rule [r]. *)
Definition called (lost : nat → bool) w r : bool := triggered r (subjects (health w) (subject r)) (lost (subject r)).
Lemma called_mono (lost lost' : nat → bool) w r :
  (lost (subject r) = true → lost' (subject r) = true) → called lost w r = true → called lost' w r = true.
Proof. unfold called, triggered. destruct (trigger r); auto. Qed.
Lemma rule_index_inj r r' : r ∈ policy_rules → r' ∈ policy_rules → rule_index r = rule_index r' → r = r'.
Proof.
  assert (Hat : ∀ s, s ∈ policy_rules → policy_rules !! rule_index s = Some s).
  { intros s Hs. unfold rule_index. destruct (list_find_elem_of (λ r', r' = s) policy_rules s Hs eq_refl) as [[i s'] Hf].
    rewrite Hf. apply list_find_Some in Hf as (Hi & -> & _). done. }
  intros Hr Hr' Hk. apply Hat in Hr, Hr'. rewrite Hk in Hr. congruence.
Qed.
(** A visit of a rule is an attempt or changes nothing but its rest. *)
Lemma rule_alone e r time generation (failed : bool) x w x' w' :
  in_isr e = false → 0 ≤ budget x ≤ max_responses →
  alone e (evaluate_rule r time generation failed x) w = Some (x', w') →
  let k := rule_index r in let hit := triggered r (subjects (health w) (subject r)) failed in
  let next := attempt_rule (retries r) time (rule_states (rest w) k) in
  (∀ j, j ≠ k → rule_states (rest w') j = rule_states (rest w) j)
  ∧ (hit = true → rule_states (rest w') k = default (rule_states (rest w) k) next)
  ∧ answered e time generation
      (if hit then match next with Some y => [(r, rule_attempts y)] | None => [] end else []) x w x' w'
  ∧ (hit = true → next = None → x' = x ∧ w' = w).
Proof.
  intros He Hx. cbv zeta. unfold evaluate_rule. rewrite alone_bind.
  destruct (alone e (subject_record (subject r)) w) as [[record w1]|] eqn:Hl; [|done]. apply look_alone in Hl as [-> Hr].
  cbn [mbind option_bind]. destruct record as [record|]; [|congruence]. destruct Hr as [_ ->].
  destruct (triggered _ _ _); cbn [negb alone].
  - unfold on_supervision at 1. destruct (attempt_rule _ _ _) as [y|]; cbn [fst snd default].
    + set (w1 := w <| rest := _ |>). intros Ha. apply respond_alone in Ha as (A1 & A2 & A3 & A4); [|done].
      split_and!; [| | |done].
      * intros j Hj. rewrite A4. cbn. by rewrite fn_lookup_insert_ne.
      * intros _. rewrite A4. cbn. by rewrite fn_lookup_insert.
      * assert (Hask : asked_by [(r, rule_attempts y)] = (λ a, mkMade r a (rule_attempts y)) <$> responses r) by apply app_nil_r.
        split; unfold granted; rewrite Hask; [|done..]. destruct A1 as [B1 B2 B3 B4 B5 B6 B7]. split; [done|done| |done..].
        etrans; [exact B3|]. by apply logged_all.
    + intros Ha. cbn in Ha. simplify_eq. split_and!; [done..| |].
      * by apply answered_none; destruct w as [? []].
      * intros _ _. split; [done|]. by destruct w as [? []].
  - intros Ha. cbn in Ha. simplify_eq. split_and!; [|done|by apply answered_none|done].
    intros j Hj. cbn. by rewrite fn_lookup_alter_ne.
Qed.
Lemma rules_alone e (second : bool) rs time generation x w x' w' :
  in_isr e = false → 0 ≤ budget x ≤ max_responses → rs ⊆ policy_rules →
  alone e (evaluate_rules second rs time generation x) w = Some (x', w') →
  ∃ attempts, answered e time generation attempts x w x' w'
  ∧ Forall (λ '(r, _), r ∈ rs ∧ on_recovery_failure r = second
              ∧ called (λ c, second && (failures x c || recovery_lost (supervisor_env e) (granted x attempts) c)) w r = true) attempts
  ∧ (∀ r, r ∈ rs → on_recovery_failure r = second → called (λ c, second && failures x c) w r = true →
          rule_active (rule_states (rest w) (rule_index r)) = false → r ∈ attempts.*1)
  ∧ (∀ r, r ∈ policy_rules → on_recovery_failure r ≠ second →
          rule_states (rest w') (rule_index r) = rule_states (rest w) (rule_index r)).
Proof.
  intros He. revert x w. induction rs as [|r rs IH]; intros x w Hx Hrs.
  - cbn. intros Ha. simplify_eq. exists []. split; [by apply answered_none|]. split; [done|].
    split; [intros r Hr; by apply elem_of_nil in Hr|done].
  - assert (r ∈ policy_rules ∧ rs ⊆ policy_rules) as [Hr Hrs'] by set_solver. clear Hrs. rename Hrs' into Hrs.
    cbn [evaluate_rules]. rewrite alone_bind. destruct (Bool.eqb (on_recovery_failure r) second) eqn:Hpass.
    2:{ cbn [alone mbind option_bind]. intros Ha. apply IH in Ha as (attempts & A1 & A2 & A3 & A4); [|done..].
        exists attempts. split; [done|]. split.
        - eapply List.Forall_impl; [|exact A2]. intros [r' n] (? & ?). split; [by apply list_elem_of_further|done].
        - split; [|done]. intros r' Hr'. apply elem_of_cons in Hr' as [->|Hr']; [|by apply A3].
          intros Hs. apply eqb_false_iff in Hpass. done. }
    apply eqb_prop in Hpass. destruct (alone e (evaluate_rule _ _ _ _ _) w) as [[x1 w1]|] eqn:Hone; [|done].
    cbn [mbind option_bind]. intros Ha. apply rule_alone in Hone as (R1 & R2 & R3 & R4); [|done..].
    pose proof (answered_room _ _ _ _ _ _ _ _ R3 Hx) as Hx1. set (first := if triggered _ _ _ then _ else _) in R3.
    apply IH in Ha as (attempts & A1 & A2 & A3 & A4); [|done..]. exists (first ++ attempts).
    assert (Hh : health w1 = health w) by apply R3. split; [by eapply answered_more|].
    assert (Hf : ∀ c, failures x1 c = failures x c || recovery_lost (supervisor_env e) (granted x first) c) by apply R3.
    rewrite (granted_app _ _ _ _ attempts _ _ _ _ R3). split; [|split].
    + apply Forall_app. split.
      * subst first. destruct (triggered _ _ _) eqn:Ht; [|done]. destruct (attempt_rule _ _ _); [|done].
        apply Forall_singleton. split; [by apply list_elem_of_here|]. split; [done|].
        apply (called_mono (λ c, second && failures x c)); [|exact Ht]. destruct second; cbn; [|done]. by intros ->.
      * eapply List.Forall_impl; [|exact A2]. intros [r' n] (? & ? & Hc). split; [by apply list_elem_of_further|]. split; [done|].
        unfold called in Hc. rewrite Hh in Hc.
        apply (called_mono (λ c, second && (failures x1 c || recovery_lost (supervisor_env e) (granted x1 attempts) c)) _ w); [|exact Hc].
        cbv beta. rewrite Hf, recovery_lost_app. destruct second; cbn; [|done]. by rewrite orb_assoc.
    + intros r' Hr' Hsec Hcall Hrest. rewrite fmap_app. apply elem_of_app. destruct (decide (r' = r)) as [->|Hne].
      * left. subst first. unfold called in Hcall. destruct (triggered r _ _) eqn:Ht.
        -- unfold attempt_rule. rewrite Hrest. cbn. by apply list_elem_of_here.
        -- exfalso. congruence.
      * right. apply elem_of_cons in Hr' as [->|Hr']; [done|]. apply A3; [done|done| |].
        -- unfold called at 1. rewrite Hh. apply (called_mono (λ c, second && failures x c) (λ c, second && failures x1 c) w); [|exact Hcall].
           cbv beta. rewrite Hf. destruct second; cbn; [|done]. by intros ->.
        -- rewrite R1; [done|]. intros Hk. apply Hne. by apply rule_index_inj; [apply Hrs| |].
    + intros r' Hr' Hsec. rewrite A4 by done. apply R1. intros Hk. apply Hsec. by rewrite (rule_index_inj r' r).
Qed.

(** ** The cycle *)
Lemma anything_permitted : permits (λ _ _, True) (λ _, True) (λ _, True).
Proof. by split. Qed.
Lemma refresh_alone e fuel w answer w' :
  alone e (refresh (A := Supervision) fuel) w = Some (answer, w') →
  rest w' = rest w ∧ match answer with Ok _ => in_isr e = false | Err _ => True end.
Proof.
  intros Ha. assert (Hp : PreOrder (λ v v' : World, rest v' = rest v)) by (split; [done|intros ??? E1 E2; congruence]). split.
  - apply (alone_frames (λ v v', rest v' = rest v) e (refresh fuel) w answer w'); [|done].
    eapply frames_mono; [|apply (stays_refresh _ _ _ anything_permitted)]; [by intros v v' [_ Hv]|done].
  - destruct answer as [u|]; [|done]. revert Ha. unfold refresh. rewrite alone_bind.
    destruct (alone e (drain_isr fuel 0) w) as [[n w1]|]; [|done]. cbn [mbind option_bind alone]. unfold get at 1. rewrite alone_bind.
    destruct (alone e (change _ _) w1) as [[begun w2]|] eqn:Hb; [|done].
    unfold change, with_storage in Hb. cbn in Hb. destruct (in_isr e); [|done]. by injection Hb as <- <-.
Qed.
Lemma feed_alone e time w u w' :
  alone e (feed_watchdog time) w = Some (u, w') →
  let d := watchdog (rest w) in let d' := watchdog (rest w') in
  health w' = health w ∧ feed_permitted d' = feed_permitted d ∧ deliberately_withheld d' = deliberately_withheld d
  ∧ effects (rest w') = effects (rest w) ++ (if watchdog_configured && feed_permitted d then [Fed] else [])
  ∧ logged (rest w') = logged (rest w) ∧ stop_requested (rest w') = stop_requested (rest w)
  ∧ reboot_requested (rest w') = reboot_requested (rest w) ∧ state (rest w') = state (rest w).
Proof.
  unfold feed_watchdog. destruct watchdog_configured; cbn [negb andb].
  - cbn. destruct (feed_permitted (watchdog (rest w))) eqn:Hp; cbn; intros Ha; simplify_eq.
    + destruct (feed (supervisor_env e)); cbn; by rewrite ?Hp.
    + cbn. rewrite Hp. split_and!; try done. by rewrite app_nil_r.
  - cbn. intros Ha. simplify_eq. split_and!; try done. by rewrite app_nil_r.
Qed.

(** What follows the refresh. *)
Definition decides time (y : result Error SystemRecord) (generation : Z) x : Prog Env World (result CycleError unit) :=
  x ⇇ evaluate_rules false policy_rules time generation x;
  x ⇇ evaluate_rules true policy_rules time generation x;
  _ ← update (gate y);
  _ ⇇ feed_watchdog time;
  clock ← (λ e w, (now e, w));
  _ ← update (end_cycle time clock (updates x));
  _ ⇇ progress service_subject;
  Done (Ok tt).
Local Abbreviation firsts made := (filter (λ m, on_recovery_failure (md_rule m) = false) made).
(** The attempts of a cycle are of rules that are called for, and every rule
    that is called for and rests is among them. *)
Record selects e attempts (made : list Made) w : Prop := {
  se_called : ∀ r n, (r, n) ∈ attempts → r ∈ policy_rules ∧ called (recovery_lost (supervisor_env e) made) w r = true;
  se_all : ∀ r, r ∈ policy_rules → rule_active (rule_states (rest w) (rule_index r)) = false →
    called (recovery_lost (supervisor_env e) (firsts made)) w r = true → r ∈ attempts.*1 }.

Lemma firsts_lost e made1 made2 c :
  Forall (λ m, on_recovery_failure (md_rule m) = true) made2 →
  recovery_lost (supervisor_env e) (firsts (made1 ++ made2)) c = true → recovery_lost (supervisor_env e) made1 c = true.
Proof.
  intros H2. rewrite list.filter_app. assert (firsts made2 = []) as ->.
  { induction H2 as [|m made2 Hm _ IH]; [done|]. rewrite list.filter_cons_False; [done|by rewrite Hm]. }
  rewrite app_nil_r. unfold recovery_lost. rewrite !existsb_exists. intros (m & Hm & Hlost). exists m. split; [|done].
  apply list_elem_of_In. apply list_elem_of_In, list_elem_of_filter in Hm. apply Hm.
Qed.
Lemma granted_rules (P : Rule → Prop) x attempts :
  Forall (λ a : Rule * Z, P a.1) attempts → Forall (λ m, P (md_rule m)) (granted x attempts).
Proof.
  intros Ha. apply Forall_take. unfold asked_by. induction Ha as [|[r n] attempts Hr _ IH]; [done|].
  cbn [mbind list_bind]. apply Forall_app_2; [|exact IH]. apply Forall_fmap, List.Forall_forall. by intros a _.
Qed.
(** Both passes over the rules. *)
Lemma passes_alone e time generation x w x1 w1 x2 w2 :
  in_isr e = false → budget x = 0 → (∀ c, failures x c = false) →
  alone e (evaluate_rules false policy_rules time generation x) w = Some (x1, w1) →
  alone e (evaluate_rules true policy_rules time generation x1) w1 = Some (x2, w2) →
  ∃ attempts, answered e time generation attempts x w x2 w2 ∧ selects e attempts (granted x attempts) w.
Proof.
  intros He Hb Hf H1 H2.
  destruct (rules_alone e false policy_rules time generation x w x1 w1) as (l1 & A1 & B1 & C1 & D1); [done|lia|done|done|].
  assert (0 ≤ budget x1 ≤ max_responses) as Hx1 by (eapply answered_room; [exact A1|lia]).
  destruct (rules_alone e true policy_rules time generation x1 w1 x2 w2) as (l2 & A2 & B2 & C2 & D2); [done..|].
  assert (Hh : health w1 = health w) by apply A1.
  assert (Hf1 : ∀ c, failures x1 c = recovery_lost (supervisor_env e) (granted x l1) c).
  { intros c. rewrite (an_failures _ _ _ _ _ _ _ _ A1), Hf. done. }
  exists (l1 ++ l2). split; [by eapply answered_more|]. rewrite (granted_app _ _ _ _ l2 _ _ _ _ A1). split.
  - intros r n Hin. apply elem_of_app in Hin as [Hin|Hin].
    + destruct (proj1 (List.Forall_forall _ _) B1 _ (proj1 (list_elem_of_In _ _) Hin)) as (Hr & _ & Hc). split; [done|]. revert Hc. by apply (called_mono (λ _, false)).
    + destruct (proj1 (List.Forall_forall _ _) B2 _ (proj1 (list_elem_of_In _ _) Hin)) as (Hr & _ & Hc). split; [done|].
      unfold called in Hc. rewrite Hh in Hc.
      apply (called_mono (λ c, true && (failures x1 c || recovery_lost (supervisor_env e) (granted x1 l2) c)) _ w); [|exact Hc].
      cbv beta. by rewrite Hf1, recovery_lost_app.
  - intros r Hr Hrest Hc. rewrite fmap_app. apply elem_of_app.
    assert (Hlost : recovery_lost (supervisor_env e) (firsts (granted x l1 ++ granted x1 l2)) (subject r) = true →
              failures x1 (subject r) = true).
    { rewrite Hf1. apply firsts_lost, (granted_rules (λ r, on_recovery_failure r = true)).
      eapply List.Forall_impl; [|exact B2]. by intros [r' n] (_ & ? & _). }
    destruct (on_recovery_failure r) eqn:Hpass.
    + right. apply C2; [done|done| |by rewrite D1 by (done || by rewrite Hpass)].
      unfold called at 1. rewrite Hh. by apply (called_mono _ (λ c, true && failures x1 c) w r Hlost).
    + left. apply C1; [done|done| |done]. unfold called, triggered in Hc |- *. unfold on_recovery_failure in Hpass.
      apply bool_decide_eq_false in Hpass. by destruct (trigger r).
Qed.
Lemma decides_alone e time generation x w (answer : result CycleError unit) w' :
  in_isr e = false → budget x = 0 → (∀ c, failures x c = false) → deliberately_withheld (watchdog (rest w)) = false →
  alone e (decides time (Ok (system (health w))) generation x) w = Some (answer, w') →
  answer = Ok tt ∧ subjects (health w') = subjects (health w) ∧ system (health w') = system (health w)
  ∧ ∃ attempts, let asked := asked_by attempts in let made := take (Z.to_nat max_responses) asked in
    let d := watchdog (rest w') in
    selects e attempts made w
    ∧ effects (rest w') = effects (rest w) ++ omap (λ m, effect_of (md_response m)) made
                          ++ (if watchdog_configured && feed_permitted d then [Fed] else [])
    ∧ logged (rest w') = logged (log_all (supervisor_env e) time generation made (rest w))
    ∧ stop_requested (rest w') = stop_requested (rest w) || includes RequestSystemStop made
    ∧ reboot_requested (rest w') = reboot_requested (rest w) || includes RequestReboot made
    ∧ deferred_responses (state (rest w'))
      = Nat.iter (length asked - length made) inc32 (deferred_responses (state (rest w)))
    ∧ feed_permitted d = negb (includes StopFeedingWatchdog made) && acceptable (system (health w)).
Proof.
  intros He Hb Hf Hwith. unfold decides. rewrite alone_bind.
  destruct (alone e (evaluate_rules false _ _ _ x) w) as [[x1 w1]|] eqn:H1; [|done]. cbn [mbind option_bind]. rewrite alone_bind.
  destruct (alone e (evaluate_rules true _ _ _ x1) w1) as [[x2 w2]|] eqn:H2; [|done]. cbn [mbind option_bind alone].
  destruct (passes_alone _ _ _ _ _ _ _ _ _ He Hb Hf H1 H2) as (attempts & [A1 _ _] & A2). clear H1 H2.
  unfold update at 1, on_supervision at 1. set (w3 := w2 <| rest := _ |>). rewrite alone_bind.
  destruct (alone e (feed_watchdog time) w3) as [[u w4]|] eqn:Hfeed; [|done]. cbn [mbind option_bind alone].
  apply feed_alone in Hfeed as (G4 & P4 & D4 & E4 & L4 & S4 & R4 & N4).
  unfold update at 1, on_supervision at 1. cbn. intros [= <- <-]. cbn.
  assert (granted x attempts = take (Z.to_nat max_responses) (asked_by attempts)) as Hg
    by (unfold granted, room; by rewrite Hb, Z.sub_0_r).
  rewrite Hg in A1, A2. destruct A1 as [B1 B2 B3 B4 B5 B6 B7].
  split; [done|]. split; [by rewrite G4; cbn; rewrite B1|]. split; [by rewrite G4; cbn; rewrite B1|].
  exists attempts. rewrite P4, E4, S4, R4.
  split; [done|]. split; [cbn; rewrite B2; by rewrite <-app_assoc|].
  split; [etrans; [exact L4|exact B3]|]. split; [exact B5|]. split; [exact B6|].
  split.
  - rewrite <-B7. change (deferred_responses (state (rest w2))) with (deferred_responses (state (rest w3))). rewrite <-N4. by destruct (_ <? _).
  - cbn. by rewrite B4, Hwith.
Qed.

(** ** Termination *)
Local Abbreviation finishes p := (finishes (E := Env) (S := World) p).
Lemma each_finishes n (p : nat → Prog Env World unit) : (∀ i, finishes (p i)) → finishes (for_each n p).
Proof.
  intros Hp. unfold for_each. generalize 0%nat. induction n as [|n IH]; intros i; [done|]. by apply finishes_bind.
Qed.
Lemma commit_finishes m o : finishes (commit_monitor m o).
Proof. apply finishes_bind; [by destruct (_ =? 0)|done]. Qed.
Lemma assess_finishes i : finishes (assess_component i).
Proof. unfold assess_component. destruct (assess_period i); [|done]. intros [a|error]; [intros ? ? ? []; done|done]. Qed.
Lemma monitor_finishes m time : finishes (refresh_monitor m time).
Proof.
  unfold refresh_monitor. apply finishes_bind; [done|]. intros copy. destruct (_ && _ && _); [done|]. destruct (monitor_kind m).
  - apply finishes_bind; [|done]. intros [o|error]; [apply commit_finishes|]. by apply finishes_bind; [apply commit_finishes|].
  - intros g o f. by apply finishes_bind; [apply commit_finishes|].
  - intros thread usage. by apply finishes_bind; [apply commit_finishes|].
  - unfold refresh_execution. by destruct (category _).
  - done.
Qed.
Lemma component_finishes i time : finishes (_ ⇇ refresh_lifecycle i; _ ⇇ refresh_execution i; refresh_assessment i time).
Proof.
  apply finishes_bind; [by intros [[]|]|]. intros _. apply finishes_bind; [unfold refresh_execution; by destruct (category _)|].
  intros _. unfold refresh_assessment. destruct (assess_period i); [|done]. apply finishes_bind; [done|]. intros copy.
  destruct (_ || _); [|done]. by apply finishes_bind; [apply assess_finishes|].
Qed.
Lemma recompute_ingress i time s : ingress (recompute i time s) = ingress s.
Proof.
  change (ingress (recompute i time s)) with (ingress (recompute_subject i time s)).
  unfold recompute_subject. destruct (aggregate_of _ _ _ _) as [a ms]. cbv zeta.
  match goal with |- ingress (if bool_decide ?P then _ else _) = _ => destruct (bool_decide P); [done|] end.
  unfold append_history. case_bool_decide; [done|]. cbv zeta. by destruct (_ <? _).
Qed.
Lemma drain_alone e fuel n w : (length (ingress (health w)) < fuel)%nat → is_Some (alone e (drain_isr fuel n) w).
Proof.
  revert n w. induction fuel as [|fuel IH]; intros n w Hlen; [lia|]. cbn [drain_isr alone].
  destruct (ingress (health w)) as [|r rs] eqn:Hrs; [done|]. rewrite alone_bind. cbn [length] in Hlen.
  set (w1 := w <| health := _ |>). match goal with |- context [alone e ?q w1] => set (p := q) end.
  assert (Hp : finishes p) by (subst p; destruct (_ <? _)%nat; [|done]; by intros time [receipt|error]).
  destruct (finishes_alone e p w1 Hp) as [[u w2] Hrun]. rewrite Hrun. cbn [mbind option_bind]. apply IH.
  assert (Hpre : PreOrder (λ v v' : World, ingress (health v') = ingress (health v))) by (split; [done|intros ??? E1 E2; congruence]).
  apply (alone_frames (λ v v' : World, ingress (health v') = ingress (health v))) in Hrun; [|subst p; destruct (_ <? _)%nat; [|done]].
  - rewrite Hrun. subst w1. cbn. lia.
  - split; [done|]. intros time. split.
    + intros e' v. destruct (in_isr e'); [done|]. etrans; [apply recompute_ingress|done].
    + intros [receipt|error]; [|done]. split; [|done]. intros e' v. cbn. by destruct (supervisor_waker _).
Qed.
Lemma refresh_returns e fuel w : (length (ingress (health w)) < fuel)%nat → is_Some (alone e (refresh fuel) w).
Proof.
  intros Hlen. unfold refresh. rewrite alone_bind. destruct (drain_alone e fuel 0 w Hlen) as [[n w1] Hd]. rewrite Hd.
  cbn [mbind option_bind]. apply finishes_alone. intros time. apply finishes_bind; [done|]. intros [u|error]; [|done].
  apply finishes_bind; [apply each_finishes; intros i; apply component_finishes|]. intros _.
  apply finishes_bind; [apply each_finishes; intros m; apply monitor_finishes|]. intros _.
  apply finishes_bind; [|done]. unfold refresh_remote. by destruct remote_subject.
Qed.
Lemma respond_finishes r time generation attempt actions x :
  Panic ∉ actions → finishes (respond r time generation attempt actions x).
Proof.
  revert x. induction actions as [|a actions IH]; intros x Hp; [done|]. apply not_elem_of_cons in Hp as [Ha Hp].
  cbn [respond]. destruct (_ <=? _); [intros _; by apply IH|]. destruct a; try done; cbn [execute_action bind].
  all: repeat intros ?; cbn [ar_panic action_done action_requested]; try by apply IH.
  all: match goal with answer : result Status unit |- _ => destruct answer; by apply IH end.
Qed.
Lemma rules_finish (second : bool) rs time generation x :
  Forall (λ r, Panic ∉ responses r) rs → finishes (evaluate_rules second rs time generation x).
Proof.
  intros Hrs. revert x. induction Hrs as [|r rs Hr _ IH]; intros x; [done|]. apply finishes_bind; [|intros; apply IH].
  destruct (Bool.eqb _ _); [|done]. apply finishes_bind; [done|]. intros [record|error]; [|done].
  destruct (negb _); [done|]. intros [attempt|]; [by apply respond_finishes|done].
Qed.
Lemma cycle_returns e fuel time w :
  Forall (λ r, Panic ∉ responses r) policy_rules → (length (ingress (health w)) < fuel)%nat → is_Some (alone e (cycle fuel time) w).
Proof.
  intros Hrules Hlen. unfold cycle. cbn [alone]. destruct (cycle_lock _); [done|]. cbn [alone]. unfold update at 1, on_supervision at 1.
  rewrite alone_bind. destruct (refresh_returns e fuel (w <| rest := begin_cycle time (rest w) |>)) as [[refreshed w1] Hr]; [done|].
  rewrite Hr. cbn [mbind option_bind]. apply finishes_alone. destruct refreshed; [|done]. apply finishes_bind; [done|]. intros y _ copies.
  apply finishes_bind; [by apply rules_finish|]. intros x1. apply finishes_bind; [by apply rules_finish|]. intros x _.
  apply finishes_bind; [|done]. unfold feed_watchdog. destruct (negb _); [done|]. by intros [].
Qed.

(** C32: a cycle that is not interfered with returns, unless a rule asks for a
    panic.  When it succeeds it has made, in order, the first [max_responses]
    of the responses its attempts ask for, done to others what those do,
    recorded each with what became of it and counted the rest as deferred; the
    attempts are of rules whose trigger the refreshed records (or a recovery
    lost in this cycle) pull, among them every such rule that was at rest; and
    it has then fed the watchdog, last and once, just when there is one, none
    of these responses withholds the feed, and the system as the refresh left
    it is neither faulted nor unsafe nor stale.  (Later cycles may feed again
    while the rule that withheld is active.)  When its lock is not to be had
    the cycle has changed nothing; when the refresh fails it has responded and
    fed nothing, the gate is closed and the service Faulted. *)
Theorem cycle_outcome e fuel time w :
  (Forall (λ r, Panic ∉ responses r) policy_rules → (length (ingress (health w)) < fuel)%nat → is_Some (alone e (cycle fuel time) w))
  ∧ ∀ answer w', alone e (cycle fuel time) w = Some (answer, w') →
    match answer with
    | Ok _ =>
      ∃ attempts, let asked := asked_by attempts in let made := take (Z.to_nat max_responses) asked in
        let d := watchdog (rest w') in let y := system (health w') in
        (∀ r n, (r, n) ∈ attempts → r ∈ policy_rules ∧ called (recovery_lost (supervisor_env e) made) w' r = true)
        ∧ (∀ r, r ∈ policy_rules → rule_active (rule_states (rest w) (rule_index r)) = false →
             called (recovery_lost (supervisor_env e) (firsts made)) w' r = true → r ∈ attempts.*1)
        ∧ effects (rest w') = effects (rest w) ++ omap (λ m, effect_of (md_response m)) made
                              ++ (if watchdog_configured && feed_permitted d then [Fed] else [])
        ∧ logged (rest w') = logged (log_all (supervisor_env e) time (y_generation y) made (rest w))
        ∧ stop_requested (rest w') = stop_requested (rest w) || includes RequestSystemStop made
        ∧ reboot_requested (rest w') = reboot_requested (rest w) || includes RequestReboot made
        ∧ deferred_responses (state (rest w'))
          = Nat.iter (length asked - length made) inc32 (deferred_responses (state (rest w)))
        ∧ feed_permitted d = negb (includes StopFeedingWatchdog made) && acceptable y
    | Err error =>
      effects (rest w') = effects (rest w) ∧ logged (rest w') = logged (rest w)
      ∧ match ce_reason error with
        | CycleNotReady => cycle_lock (supervisor_env e) = Some (ce_status error) ∧ w' = w
        | HealthRefreshFailed =>
          cycle_lock (supervisor_env e) = None ∧ feed_permitted (watchdog (rest w')) = false ∧ service_state (state (rest w')) = SvFaulted
        end
    end.
Proof.
  split; [apply cycle_returns|]. intros answer w'.
  unfold cycle. cbn [alone]. destruct (cycle_lock _) as [status|] eqn:Hlock; [intros Ha; cbn in Ha; by simplify_eq|].
  cbn [alone]. unfold update at 1, on_supervision at 1.
  rewrite alone_bind. destruct (alone e (refresh fuel) _) as [[refreshed w1]|] eqn:Hrefresh; [|done]. cbn [mbind option_bind].
  apply refresh_alone in Hrefresh as [Hrest Hisr]. destruct refreshed as [u|error].
  2:{ intros Ha. cbn in Ha. simplify_eq. cbn. by rewrite Hrest. }
  rewrite alone_bind. destruct (alone e system_record w1) as [[y w2]|] eqn:Hy; [|done]. cbn [mbind option_bind].
  apply look_alone in Hy as [-> Hy]. destruct y as [y|]; [|congruence]. destruct Hy as [_ ->].
  cbn [alone]. unfold update at 1, on_supervision at 1. cbn [alone]. unfold see at 1, on_supervision at 1.
  set (w3 := w1 <| rest := _ |> <| rest := _ |>). intros Ha. set (x0 := mkLocal _ _ _) in Ha.
  assert (Hold : rest w3 = begin_cycle time (rest w) <| state ::= (λ z, z <| last_phase := EvaluatePolicy |>
            <| health_generation := y_generation (system (health w1)) |>) |>) by (cbn; by rewrite Hrest).
  destruct (decides_alone e time (y_generation (system (health w1))) x0 w3 answer w' Hisr eq_refl (λ _, eq_refl)) as
    (-> & Hsub & Hsys & attempts & [S1 S2] & E1 & E2 & E3 & E4 & E5 & E6); [by rewrite Hold|exact Ha|].
  exists attempts. rewrite Hold in E1, E2, E3, E4, E5, S2. cbv zeta. rewrite Hsys.
  assert (Hcalled : ∀ lost r, called lost w' r = called lost w3 r) by (intros; unfold called; by rewrite Hsub).
  split; [intros r n; rewrite Hcalled; apply S1|]. split; [intros r; rewrite Hcalled; apply S2|].
  split; [exact E1|]. split; [etrans; [exact E2|by apply logged_all]|]. done.
Qed.
End Cycle.

(** ** The attempts of a rule *)
Section Attempts.
Context `{HealthConfig} {W : Errno} `{SupervisorPolicy}.
Context (r : Rule).
Local Abbreviation Env := (Env SupervisorEnv).
Local Abbreviation World := (World Supervision).
Local Abbreviation k := (rule_index r).
Implicit Types (w : World) (e : Env) (x : Local) (y : RuleState).

(** An evaluation of the rule while its condition holds. *)
Record Visit : Type := mkVisit {
  vi_env : Env; vi_time : Z; vi_generation : Z; vi_failed : bool; vi_local : Local; vi_world : World;
  vi_local' : Local; vi_world' : World }.
Implicit Types (vi : Visit) (vs : list Visit).
Definition before vi : RuleState := rule_states (rest (vi_world vi)) k.
Definition after vi : RuleState := rule_states (rest (vi_world' vi)) k.
Record visits vi : Prop := {
  vi_thread : in_isr (vi_env vi) = false;
  vi_budget : 0 ≤ budget (vi_local vi) ≤ max_responses;
  vi_triggered : triggered r (subjects (health (vi_world vi)) (subject r)) (vi_failed vi) = true;
  vi_runs : alone (vi_env vi) (evaluate_rule r (vi_time vi) (vi_generation vi) (vi_failed vi) (vi_local vi)) (vi_world vi)
            = Some (vi_local' vi, vi_world' vi) }.
(** The rule is evaluated again and again while its condition holds.  Between
    two evaluations anything may happen except to the state of the rule. *)
Fixpoint episode y vs : Prop :=
  match vs with [] => True | vi :: vs => visits vi ∧ before vi = y ∧ episode (after vi) vs end.

(** Whether the visit counts an attempt. *)
Definition attempts vi : bool := negb (rule_attempts (after vi) =? rule_attempts (before vi)).
(** An attempt makes the responses of the rule, in order, as far as the budget
    has room, and defers the rest; any other visit does nothing at all, and
    happens only when the rule may not respond now. *)
Definition responds vi : Prop :=
  if attempts vi then
    rule_attempts (after vi) = rule_attempts (before vi) + 1
    ∧ answered (vi_env vi) (vi_time vi) (vi_generation vi) [(r, rule_attempts (after vi))] (vi_local vi) (vi_world vi)
        (vi_local' vi) (vi_world' vi)
  else
    vi_local' vi = vi_local vi ∧ vi_world' vi = vi_world vi
    ∧ (retries r = false ∨ recovery_attempts ≤ rule_attempts (before vi) ∨ vi_time vi < next_attempt (before vi)).
(** The times of the attempts, each at least the cooldown after the one
    before. *)
Definition times vs : list Z := vi_time <$> List.filter attempts vs.
Fixpoint spaced (earliest : Z) (ts : list Z) : Prop :=
  match ts with [] => True | t :: ts => earliest ≤ t ∧ spaced (t + recovery_cooldown) ts end.
Definition allowed : Z := if retries r then Z.max 1 recovery_attempts else 1.

Context (Hattempts : 0 ≤ recovery_attempts < 2 ^ 32) (Hmax : 0 ≤ max_responses < 2 ^ 32).
(** What a visit makes of the state of the rule. *)
Lemma visit_cases vi :
  visits vi → 0 ≤ rule_attempts (before vi) → (rule_active (before vi) = false → rule_attempts (before vi) = 0) →
  responds vi
  ∧ ((attempts vi = true ∧ rule_active (after vi) = true ∧ rule_attempts (after vi) = rule_attempts (before vi) + 1
      ∧ next_attempt (after vi) = vi_time vi + recovery_cooldown
      ∧ (rule_active (before vi) = true →
         retries r = true ∧ rule_attempts (before vi) < recovery_attempts ∧ next_attempt (before vi) ≤ vi_time vi))
     ∨ (attempts vi = false ∧ after vi = before vi ∧ rule_active (before vi) = true)).
Proof.
  intros [V1 V2 V3 V4] Hpos Hidle. pose proof (rule_alone Hmax _ _ _ _ _ _ _ _ _ V1 V2 V4) as (_ & A2 & A3 & A4).
  rewrite V3 in A2, A3, A4. specialize (A2 eq_refl). specialize (A4 eq_refl).
  fold (before vi) in A2, A3, A4. fold (after vi) in A2. unfold attempt_rule in A2, A3, A4.
  destruct (rule_active (before vi) && _) eqn:Hrest; cbn [default] in A2.
  - destruct (A4 eq_refl) as [Hx Hw]. assert (attempts vi = false) as Hno by (unfold attempts; by rewrite A2, Z.eqb_refl).
    apply andb_true_iff in Hrest as [Hact Hrest]. unfold responds. rewrite Hno. split; [|by right].
    split; [done|]. split; [done|]. rewrite !orb_true_iff, negb_true_iff, Z.leb_le, Z.ltb_lt in Hrest. tauto.
  - assert (Hlt : rule_attempts (before vi) + 1 < 2 ^ 32).
    { destruct (rule_active (before vi)); [|rewrite Hidle by done; done]. cbn [andb] in Hrest.
      rewrite !orb_false_iff, Z.leb_gt in Hrest. lia. }
    assert (Hinc : inc32 (rule_attempts (before vi)) = rule_attempts (before vi) + 1) by (unfold inc32, u32; rewrite Z.mod_small; lia).
    assert (Hn : rule_attempts (after vi) = rule_attempts (before vi) + 1) by (rewrite A2; exact Hinc).
    assert (attempts vi = true) as Hyes by (unfold attempts; rewrite Hn; apply negb_true_iff, Z.eqb_neq; lia).
    unfold responds. rewrite Hyes. split.
    + split; [done|]. rewrite A2. exact A3.
    + left. split; [done|]. split; [by rewrite A2|]. split; [done|]. split; [by rewrite A2|]. intros Hact. rewrite Hact in Hrest.
      cbn [andb] in Hrest. rewrite !orb_false_iff, negb_false_iff, Z.leb_gt, Z.ltb_ge in Hrest. tauto.
Qed.
Lemma times_cons vi vs : times (vi :: vs) = if attempts vi then vi_time vi :: times vs else times vs.
Proof. unfold times. cbn [List.filter]. by destruct (attempts vi). Qed.
Lemma episode_active y vs :
  episode y vs → rule_active y = true → 1 ≤ rule_attempts y →
  Forall responds vs
  ∧ rule_attempts y + Z.of_nat (length (times vs)) ≤ Z.max (rule_attempts y) allowed ∧ spaced (next_attempt y) (times vs).
Proof.
  revert y. induction vs as [|vi vs IH]; intros y Hep Hact Hn; [split; [done|cbn; lia]|]. destruct Hep as (Hvi & <- & Hep).
  destruct (visit_cases vi Hvi) as [Hresp [(H1 & H2 & H3 & H4 & H5)|(H1 & H2 & _)]]; [lia|by rewrite Hact| |].
  - destruct (H5 Hact) as (Hr & Hlt & Htime). destruct (IH _ Hep H2) as (I1 & I2 & I3); [lia|].
    rewrite times_cons, H1. cbn [length spaced]. rewrite H3 in I2. rewrite H4 in I3. unfold allowed in *. rewrite Hr in *.
    split; [by constructor|]. split; [lia|done].
  - rewrite H2 in Hep. destruct (IH _ Hep Hact Hn) as (I1 & I2 & I3). rewrite times_cons, H1.
    split; [by constructor|]. done.
Qed.

(** C33: while the condition of a rule lasts, its first evaluation is an
    attempt; without a recovery among its responses it is the only one, and
    with one there are at most [recovery_attempts], each at least the cooldown
    after the one before.  Each attempt makes the responses of the rule, in
    order, as far as the cycle's budget has room, records them and counts the
    rest as deferred; every other evaluation leaves everything as it is, and
    is one where there is no recovery, no attempt is left, or the cooldown
    lasts. *)
Theorem attempts_paced y vs :
  episode y vs → rule_active y = false → rule_attempts y = 0 →
  Forall responds vs
  ∧ Z.of_nat (length (times vs)) ≤ allowed
  ∧ match vs with [] => True | vi :: _ => attempts vi = true ∧ spaced (vi_time vi) (times vs) end.
Proof.
  intros Hep Hidle Hzero. destruct vs as [|vi vs].
  - split; [done|]. split; [unfold allowed; cbn; destruct (retries r); lia|done].
  - destruct Hep as (Hvi & Hy & Hep). rewrite <-Hy in Hidle, Hzero.
    destruct (visit_cases vi Hvi) as [Hresp [(H1 & H2 & H3 & H4 & _)|(_ & _ & H3)]]; [lia|done| |congruence].
    destruct (episode_active _ _ Hep H2) as (I1 & I2 & I3); [lia|]. rewrite times_cons, H1. rewrite H3, Hzero in I2. rewrite H4 in I3.
    cbn [length spaced]. split; [by constructor|]. split; [unfold allowed in *; destruct (retries r); lia|]. done.
Qed.
End Attempts.
End Supervision_cycle.
