(* ===== verification/SupervisorProps.v ===== *)
(** * SupervisorProps: the watchdog and the responses

    A component that must make progress and makes none starves the watchdog,
    whatever runs beside the supervisor; the attempts of a rule; and the
    number of responses of a cycle. *)
From stdpp Require Import prelude functions.
From S2P Require Import Prelude Status Lifecycle Interleave Health HealthProps Supervisor.
Import Healths HealthProperties Supervisors.

Open Scope Z_scope.
Open Scope solar_scope.
Open Scope prog_scope.

Module Supervision_properties.

(** ** Threads *)
Inductive SupervisorThread : Set :=
  | SupervisorService (fuel : nat)
  | HealthClient (ops : list HealthOp)
  | Starter
  | Stopper.

Section Threads.
Context `{HealthConfig} {W : Errno} `{SupervisorPolicy}.
Definition supervisor_thread (th : SupervisorThread) : Prog (Env SupervisorEnv) (World Supervision) unit :=
  match th with
  | SupervisorService fuel => forgo (run fuel)
  | HealthClient ops => health_thread ops
  | Starter => _ ⇇ init; _ ⇇ forgo start; bind_service
  | Stopper => _ ⇇ forgo stop; deinit
  end.
End Threads.

(** ** A component without progress *)
Section Starving.
Context `{HealthConfig} {W : Errno} `{SupervisorPolicy}.
Local Abbreviation Env := (Env SupervisorEnv).
Local Abbreviation World := (World Supervision).
Local Abbreviation Program := (Prog Env World).
Context (m0 : nat) (c0 : ProgressState) (f0 : Z).
Local Abbreviation i0 := (monitor_subject m0).
Local Abbreviation p0 := (monitor_period m0).
Context (Hkind : monitor_kind m0 = MProgress) (Hreq : monitor_required m0 = true) (Hperiod : 0 < p0) (Hm0 : (m0 < monitor_count)%nat)
  (Hi0 : (i0 < subject_count)%nat) (Hcount : Z.of_nat subject_count < 2 ^ 32).
Implicit Types (s : Storage) (w : World) (e : Env) (t : nat).

(** When the component is due: two periods after its progress [c0], or, if it
    has never made any, a period and the grace after the first refresh [f0]. *)
Definition due : Z := if p_generation c0 =? 0 then f0 + p0 + progress_grace else p_observed_at c0 + 2 * p0.
(** The clock is a period past that, and no section is entered from an
    interrupt. *)
Definition late e : Prop := in_isr e = false ∧ due + p0 < now e.
Context (Hdue : 0 ≤ due).

(** The monitor says that the component has stalled. *)
Definition testimony s : EvidenceState := monitor_evidence (monitors s m0).
Definition accused s : Prop := at_hand (testimony s) ∧ condition (v_assessment (testimony s)) = CFaulted.
(** What is true of the store throughout: the records follow the evidence, no
    progress is made, and what the monitor saw in time it has reported. *)
Record stalls s : Prop := {
  sl_coherent : coherent s;
  sl_progress : progress_cells s i0 = c0;
  sl_first : p_generation c0 = 0 → 0 < f0 ∧ first_refresh s = f0;
  sl_summarised : v_present (testimony s) = true → summarised s;
  sl_testimony : v_present (testimony s) = true → due < v_observed_at (testimony s) → accused s }.
(** What is known once the monitor has been refreshed. *)
Definition convicted s : Prop := accused s ∧ summarised s.

Lemma accused_same s s' : testimony s' = testimony s → accused s → accused s'.
Proof. unfold accused. by intros ->. Qed.
(** The verdict reaches the record of the system. *)
Lemma convicted_system s : coherent s → convicted s → y_condition (system s) = CFaulted.
Proof.
  intros [Hr _] [[Hv Hc] Hy]. unfold summarised in Hy. cbv zeta in Hy. rewrite Hy.
  change (y_condition (?y <| y_generation := ?a |> <| y_assessed_at := ?b |> <| y_isr_admitted := ?c |> <| y_isr_dropped := ?d |>)) with (y_condition y).
  apply summary_condition; [unfold subject_list; by rewrite length_fmap, length_seq|]. exists (subjects s i0). split.
  - apply list_elem_of_fmap. exists i0. split; [done|]. apply elem_of_seq. lia.
  - rewrite (subject_condition s i0 (Hr i0)). apply judged_faulted. exists (testimony s). split; [|done].
    apply list_elem_of_fmap. exists (testimony s, Some m0). split; [done|]. apply elem_of_app. right.
    rewrite list_elem_of_In. apply in_map_iff. exists m0. split; [done|]. apply filter_In. split; [apply in_seq; lia|by apply Nat.eqb_eq].
Qed.

Lemma recompute_testimony i time s :
  (∀ m, monitor_evidence (monitors (recompute i time s) m) = monitor_evidence (monitors s m))
  ∧ progress_cells (recompute i time s) = progress_cells s ∧ first_refresh (recompute i time s) = first_refresh s.
Proof.
  destruct (recompute_subject_effect i time s) as (r & _ & _ & _ & _ & _ & _ & E7 & E9 & E8).
  split; [intros m; apply E8|]. split; [exact E7|exact E9].
Qed.
Lemma recompute_all_testimony time l s :
  let s' := foldl (λ s i, recompute_subject i time s) s l in
  testimony s' = testimony s ∧ progress_cells s' = progress_cells s ∧ first_refresh s' = first_refresh s.
Proof.
  revert s. induction l as [|i l IH]; intros s; [done|]. cbn [foldl]. destruct (IH (recompute_subject i time s)) as (-> & -> & ->).
  destruct (recompute_subject_effect i time s) as (r & _ & _ & _ & _ & _ & _ & E7 & E9 & E8). split; [apply E8|]. split; [exact E7|exact E9].
Qed.

(** The steps that leave the monitor and the progress of the component alone. *)
Definition undisturbed s s' : Prop := (stalls s → stalls s') ∧ (convicted s → convicted s').
Lemma undisturbed_intro s s' :
  (coherent s → coherent s') → (summarised s → summarised s') → testimony s' = testimony s → progress_cells s' = progress_cells s →
  keeps_first s s' → undisturbed s s'.
Proof.
  intros Hc Hy Ht Hp Hf. split.
  - intros [S1 S2 S3 S4 S5]. split; [auto|by rewrite Hp| |rewrite Ht; auto|].
    + intros Hg. destruct (S3 Hg) as [Hpos <-]. split; [done|]. apply Hf. lia.
    + rewrite Ht. intros Hv Ho. apply (accused_same s); auto.
  - intros [Ha Hs]. split; [by apply (accused_same s)|auto].
Qed.
Lemma undisturbed_permits : permits undisturbed (λ m, m ≠ m0) (λ i, i ≠ i0).
Proof.
  pose proof coherent_permits as [C1 C2 C3 C4 C5]. split.
  - intros s s' E1 E2 E3 E4 E5 E6. apply undisturbed_intro; [by apply C1| |unfold testimony; by rewrite E3|done|done].
    unfold summarised, subject_list. by rewrite E1, E4.
  - intros s s1 i time E1 E2 E3 E4 E5. destruct (recompute_testimony i time s1) as (R1 & R2 & R3).
    apply undisturbed_intro; [by apply C2|done|unfold testimony; by rewrite R1, E1|by rewrite R2|].
    apply keeps_same. by rewrite R3.
  - intros s m o Hm. unfold monitor_section.
    match goal with |- undisturbed s (recompute ?i ?time ?s1) => destruct (recompute_testimony i time s1) as (R1 & R2 & R3) end.
    apply undisturbed_intro; [by apply (C3 s m o)|done| |by rewrite R2|by apply keeps_same; rewrite R3].
    unfold testimony. rewrite R1. cbn. by rewrite fn_lookup_alter_ne.
  - intros s i g Hi. split; [|done]. intros [S1 S2 S3 S4 S5].
    split; [done| |done..]; cbn; by rewrite fn_lookup_alter_ne.
  - intros s time. destruct (recompute_all_testimony time (seq 0 subject_count) s) as (R1 & R2 & R3).
    apply undisturbed_intro; [by apply C5|done|exact R1|exact R2|by apply keeps_same].
Qed.

(** A thread knows that the system is convicted, and that the gate is closed. *)
Record Knowledge : Set := mkKnowledge { known : bool; closed : bool }.
Definition ignorant : Knowledge := mkKnowledge false false.
Definition fed w : nat := length (filter (λ x, x = Fed) (effects (rest w))).
Context (n0 : nat).
Definition holds (gs : list Knowledge) w : Prop :=
  stalls (health w)
  ∧ (∀ t g, gs !! t = Some g → known g = true → convicted (health w))
  ∧ (∀ t g, gs !! t = Some g → closed g = true → feed_permitted (watchdog (rest w)) = false)
  ∧ fed w = n0.
Local Abbreviation safe := (safe holds late).

(** Steps that disturb nothing. *)
Definition calm w w' : Prop :=
  undisturbed (health w) (health w') ∧ (feed_permitted (watchdog (rest w)) = false → feed_permitted (watchdog (rest w')) = false)
  ∧ fed w' = fed w.
Lemma calm_holds gs w w' : holds gs w → calm w w' → holds gs w'.
Proof. intros (H1 & H2 & H3 & H4) ([U1 U2] & C2 & C3). split_and!; [auto|eauto|eauto|congruence]. Qed.
Lemma calm_same w : calm w w.
Proof. split; [by split|done]. Qed.
Lemma calm_rest w w' : stays undisturbed w w' → calm w w'.
Proof. intros [Hu Hr]. unfold calm, fed. by rewrite Hr. Qed.
Local Abbreviation calmly p := (frames (E := Env) calm p).
Lemma calm_health {A} (p : Program A) : frames (stays undisturbed) p → calmly p.
Proof. apply frames_mono, calm_rest. Qed.
Lemma calm_update {A} (f : Supervision → Supervision) (k : unit → Program A) :
  (∀ s : Supervision, feed_permitted (watchdog s) = false → feed_permitted (watchdog (f s)) = false) →
  (∀ s : Supervision, effects (f s) = effects s) →
  calmly (k tt) → calmly (Then (update f) k).
Proof.
  intros Hf He Hk. split; [|by intros []]. intros e w. split; [by split|]. split; [apply Hf|]. unfold fed. cbn. by rewrite He.
Qed.
Lemma calm_see {A B} (f : Supervision → B) (k : B → Program A) : (∀ b, calmly (k b)) → calmly (Then (see f) k).
Proof. intros Hk. split; [intros e []; apply calm_same|done]. Qed.
Lemma calm_read {A B} (f : Env → World → B) (k : B → Program A) : (∀ b, calmly (k b)) → calmly (Then (λ e w, (f e w, w)) k).
Proof. intros Hk. split; [intros e w; apply calm_same|done]. Qed.
Lemma calm_act {A B} x (answer : SupervisorEnv → B) (k : B → Program A) : x ≠ Fed → (∀ b, calmly (k b)) → calmly (Then (act x answer) k).
Proof.
  intros Hx Hk. split; [|done]. intros e w. split; [by split|]. split; [done|]. unfold fed. cbn. rewrite list.filter_app, list.filter_cons_False by done.
  by rewrite app_nil_r.
Qed.
Lemma calm_put {A} (f : Storage → Storage) (k : unit → Program A) :
  (∀ s, subjects (f s) = subjects s ∧ subject_state (f s) = subject_state s ∧ monitors (f s) = monitors s ∧ system (f s) = system s
        ∧ progress_cells (f s) = progress_cells s ∧ first_refresh (f s) = first_refresh s) → calmly (k tt) → calmly (Then (put f) k).
Proof.
  intros Hf Hk. split; [|by intros []]. intros e w. apply calm_rest. split; [|done]. destruct (Hf (health w)) as (?&?&?&?&?&?).
  apply (pm_neutral _ _ _ undisturbed_permits); auto using keeps_same.
Qed.

Lemma calm_action a : calmly (execute_action a).
Proof. destruct a; cbn [execute_action]; first [done | by apply calm_act | by apply calm_update]. Qed.
Lemma calm_respond r time generation attempt actions x : calmly (respond r time generation attempt actions x).
Proof.
  revert x. induction actions as [|a actions IH]; intros x; [done|]. cbn [respond]. destruct (_ <=? _); [by apply calm_update|].
  apply frames_bind; [apply calm_action|]. intros result.
  apply calm_update; [intros s; unfold append_response; by destruct (_ <? _)..|].
  destruct (ar_panic result); [by apply calm_act|apply IH].
Qed.
Lemma calm_rule r time generation (failed : bool) x : calmly (evaluate_rule r time generation failed x).
Proof.
  apply frames_bind; [apply calm_health, (stays_look _ _ _ undisturbed_permits)|]. intros [record|error]; [|done].
  destruct (negb _); [by apply calm_update|]. split.
  - intros e w. unfold on_supervision. destruct (attempt_rule _ _ _); first [apply calm_same | split; [by split|done]].
  - intros [attempt|]; [apply calm_respond|done].
Qed.
Lemma calm_rules (second : bool) rs time generation x : calmly (evaluate_rules second rs time generation x).
Proof.
  revert x. induction rs as [|r rs IH]; intros x; [done|]. apply frames_bind; [|intros; apply IH].
  destruct (Bool.eqb _ _); [apply calm_rule|done].
Qed.
Lemma calm_wait {A} (k : option Status → Program A) : (∀ b, calmly (k b)) → calmly (Then wait_wake k).
Proof.
  intros Hk. split; [|done]. intros e w. unfold wait_wake. destruct (wake (health w)); [|apply calm_same]. apply calm_rest.
  split; [|done]. by apply (pm_neutral _ _ _ undisturbed_permits).
Qed.
Lemma calm_start : calmly (_ ⇇ init; _ ⇇ forgo start; bind_service).
Proof.
  apply frames_bind; [apply calm_update; [done..|by apply calm_put]|]. intros _. apply frames_bind.
  - apply frames_bind; [|done]. apply frames_bind; [destruct watchdog_configured; [by apply calm_act|done]|].
    intros [u|status]; [|done]. apply calm_read. intros time. by apply calm_update.
  - intros _. apply calm_update; [done..|by apply calm_put].
Qed.
Lemma calm_stop : calmly (_ ⇇ forgo stop; deinit).
Proof.
  apply frames_bind; [|intros _; by apply calm_update]. apply frames_bind; [|done]. apply calm_update; [done..|].
  apply frames_bind; [by apply calm_put|]. intros _. destruct watchdog_configured; [by apply calm_act|done].
Qed.

(** ** The refresh convicts *)
Definition learned (g : Knowledge) : Knowledge := mkKnowledge true (closed g).
Lemma safe_calmly {A B} t Q g (p : Program A) (k : A → Program B) : calmly p → (∀ a, safe t Q g (k a)) → safe t Q g (bind p k).
Proof. intros Hp Hk. eapply safe_frames_bind; [|exact Hp|done]. intros gs w w' Hw Hc. by eapply calm_holds. Qed.
Lemma safe_done_calm {A} t g (p : Program A) : calmly p → safe t (λ g' _, g' = g) g p.
Proof. intros Hp. eapply safe_frames; [|done]. intros gs w w' Hw Hc. by eapply calm_holds. Qed.
(** A thread that learns something. *)
Lemma holds_learned gs t g w : gs !! t = Some g → holds gs w → convicted (health w) → holds (<[t := learned g]> gs) w.
Proof.
  intros Hg (H1 & H2 & H3 & H4) Hc. split_and!; [done|done| |done]. intros u x Hu Hx.
  destruct (decide (u = t)) as [->|Hne]; [|rewrite list_lookup_insert_ne in Hu by done; eauto].
  rewrite list_lookup_insert_eq in Hu by (by eapply lookup_lt_Some). injection Hu as <-. eauto.
Qed.
Lemma late_time {A} t Q g (k : Z → Program A) :
  (∀ time, due + p0 < time → safe t Q g (k time)) → safe t Q g (Then (get (λ e _, now e)) k).
Proof. intros Hk e w gs [_ He] Hg Hw. exists g. rewrite list_insert_id by done. split; [done|]. by apply Hk. Qed.
Lemma safe_health_read {A B} t Q g (f : Env → Storage → B) (k : B → Program A) :
  (∀ e w gs, holds gs w → safe t Q g (k (f e (health w)))) → safe t Q g (Then (get f) k).
Proof. intros Hk e w gs He Hg Hw. exists g. rewrite list_insert_id by done. split; [done|]. by eapply Hk. Qed.

(** What the monitor commits when the component is late. *)
Lemma late_assessment time first :
  due + p0 < time → (p_generation c0 = 0 → 0 < f0 ∧ first = f0) →
  condition (progress_assessment time (p_generation c0) (p_observed_at c0) first p0) = CFaulted.
Proof.
  unfold due, progress_assessment. intros Ht Hf. destruct (Z.eqb_spec (p_generation c0) 0) as [Hg|Hg].
  - destruct (Hf Hg) as [Hpos ->]. destruct (Z.ltb_spec 0 f0); [|lia]. cbn [andb].
    by destruct (Z.ltb_spec (p0 + progress_grace) (time - f0)); [|lia].
  - by destruct (Z.ltb_spec (p0 * 2) (time - p_observed_at c0)); [|lia].
Qed.
Lemma evidence_noted o r :
  monitor_evidence (note_observation o r)
  = mkEvidence (o_assessment o) (o_quality o) (o_availability o) (o_observed_at o) (o_stale_after o) KSelfReport 0 (o_required o) true.
Proof. unfold note_observation. cbv zeta. by destruct (_ && _ && _), (bool_decide (o_availability o = AAvailable)). Qed.
Lemma monitor_convicts s o :
  stalls s → o_availability o = AAvailable → o_required o = true → condition (o_assessment o) = CFaulted →
  stalls (monitor_section m0 o s) ∧ convicted (monitor_section m0 o s).
Proof.
  intros [S1 S2 S3 S4 S5] Ha Hr Hc. pose proof (pm_monitor _ _ _ coherent_permits s m0 o I S1) as Hcoh.
  assert (Hconv : accused (monitor_section m0 o s) ∧ progress_cells (monitor_section m0 o s) = progress_cells s
    ∧ first_refresh (monitor_section m0 o s) = first_refresh s).
  { unfold monitor_section.
    match goal with |- accused (recompute ?i ?time ?s1) ∧ _ => destruct (recompute_testimony i time s1) as (R1 & R2 & R3) end.
    split; [|by rewrite R2, R3]. unfold accused, testimony. rewrite R1. cbn -[note_observation monitor_evidence]. rewrite fn_lookup_alter. unfold at_hand.
    rewrite evidence_noted. cbn. by rewrite Ha, Hr, Hc. }
  destruct Hconv as (Hacc & Hp & Hf). split; [|by split]. split; [done|by rewrite Hp|by rewrite Hf|done|done].
Qed.
Lemma safe_commit t g time (a : Assessment) :
  due + p0 < time → condition a = CFaulted →
  safe t (λ g' _, g' = learned g) g (forgo (A := Supervision) (commit_monitor m0 (mkObservation a QInferred AAvailable time (p0 * 2) true false))).
Proof.
  intros Ht Ha. apply safe_bind. unfold commit_monitor. cbn [o_observed_at].
  destruct (Z.eqb_spec time 0) as [->|Hne]; [lia|]. cbn [bind].
  unfold change, with_storage. intros e w gs [He _] Hg Hw. rewrite He.
  set (o := mkObservation a QInferred AAvailable time (p0 * 2) true false).
  assert (Ho : o <| o_observed_at := time |> = o) by done. rewrite Ho. clear Ho.
  assert (Hs : (if o_stale_after o =? 0 then o <| o_stale_after := stale_ticks (monitor_stale_after m0) |> else o) = o).
  { unfold o. cbn [o_stale_after]. destruct (Z.eqb_spec (p0 * 2) 0); [lia|done]. }
  rewrite Hs. clear Hs. rewrite Hreq. cbn. exists (learned g). split; [|done].
  destruct (monitor_convicts (health w) o) as [Hst Hcv]; [apply Hw|done..|]. destruct Hw as (H1 & H2 & H3 & H4).
  apply holds_learned; [done| |done]. by split_and!.
Qed.
Lemma safe_refresh_progress t g time :
  due + p0 < time → safe t (λ g' _, g' = learned g) g (refresh_progress (X := SupervisorEnv) (A := Supervision) m0 time).
Proof.
  intros Ht. unfold refresh_progress. apply safe_health_read. intros e1 w1 gs1 ([_ H1 _ _ _] & _). rewrite H1.
  apply safe_health_read. intros e2 w2 gs2 ([_ H2 _ _ _] & _). rewrite H2. apply safe_health_read.
  intros e3 w3 gs3 ([_ _ H3 _ _] & _). apply safe_commit; [done|]. by apply late_assessment.
Qed.
Lemma safe_monitor t g time :
  due + p0 < time → safe t (λ g' _, g' = learned g) g (refresh_monitor (X := SupervisorEnv) (A := Supervision) m0 time).
Proof.
  intros Ht. unfold refresh_monitor, look, with_storage. cbn [bind]. intros e w gs [He _] Hg Hw. rewrite He. cbn [fst snd].
  assert (Hsame : w <| health := health w |> = w) by by destruct w. rewrite Hsame. clear Hsame.
  set (r := monitors (health w) m0). assert (Hr : monitor_evidence r = testimony (health w)) by done.
  destruct (m_has_observation r) eqn:Hhas; cbn [andb].
  - destruct (Z.ltb_spec 0 p0); [|lia]. cbn [andb]. destruct (Z.ltb_spec (time - o_observed_at (m_observation r)) p0) as [Hrecent|_].
    + exists (learned g). split; [|done]. apply holds_learned; [done..|]. pose proof (proj1 Hw) as [_ _ _ S4 S5].
      rewrite <-Hr in S4, S5. cbn [v_present v_observed_at monitor_evidence] in S4, S5. split; [apply S5; [done|lia]|by apply S4].
    + exists g. rewrite list_insert_id by done. split; [done|]. rewrite Hkind. by apply safe_refresh_progress.
  - exists g. rewrite list_insert_id by done. split; [done|]. rewrite Hkind. by apply safe_refresh_progress.
Qed.

(** ** The cycle withholds the feed *)
Lemma safe_each (p : nat → Program unit) t :
  (∀ m, m ≠ m0 → calmly (p m)) → (∀ g, safe t (λ g' _, g' = learned g) g (p m0)) →
  ∀ g, safe t (λ g' _, g' = learned g) g (for_each monitor_count p).
Proof.
  intros Hothers Hit. unfold for_each.
  match goal with |- ∀ g, safe t _ g (?f _ _) => set (loop := f) end.
  assert (Hall : ∀ n k g, safe t (λ g' _, closed g' = closed g ∧ (known g = true ∨ (k ≤ m0 < k + n)%nat → known g' = true)) g (loop n k)).
  { induction n as [|n IH]; intros k g.
    - cbn. split; [done|]. intros [Hk|Hk]; [done|lia].
    - cbn [loop]. apply safe_bind. destruct (decide (k = m0)) as [->|Hne].
      + eapply safe_mono; [|apply Hit]. intros g' _ ->. eapply safe_mono; [|apply (IH (S m0))].
        intros g' [] [Hc Hk]. split; [done|]. intros _. apply Hk. by left.
      + eapply safe_mono; [|apply safe_done_calm, Hothers, Hne]. intros g' _ ->. eapply safe_mono; [|apply (IH (S k))].
        intros g' [] [Hc Hk]. split; [done|]. intros [Hg|Hm]; apply Hk; [by left|right; lia]. }
  intros g. eapply safe_mono; [|apply (Hall monitor_count 0%nat)]. intros [kn cl] _ [Hc Hk]. cbn in *. unfold learned. f_equal; [apply Hk; lia|done].
Qed.
Lemma safe_refresh t fuel g :
  safe t (λ g' answer, closed g' = closed g ∧ match answer with Ok _ => known g' = true | Err _ => True end) g
    (refresh (X := SupervisorEnv) (A := Supervision) fuel).
Proof.
  pose proof undisturbed_permits as HU. unfold refresh.
  apply safe_calmly; [apply calm_health, (stays_drain _ _ _ HU)|]. intros _. apply late_time. intros time Htime.
  apply safe_calmly; [apply calm_health, (stays_begin _ _ _ HU)|]. intros [u|error]; [|done].
  apply safe_calmly; [apply calm_health, (stays_components _ _ _ HU)|]. intros _.
  apply safe_bind. eapply safe_mono; [|apply safe_each].
  - intros g' _ ->. apply safe_calmly; [apply calm_health, (stays_remote _ _ _ HU)|]. intros _.
    eapply safe_mono; [|apply safe_done_calm, calm_health, (stays_finish _ _ _ HU)]. by intros g' [[]|error] ->.
  - intros m Hm. by apply calm_health, (stays_monitor _ _ _ HU).
  - intros g'. by apply safe_monitor.
Qed.
(** What the system is said to be, once the monitor has been refreshed. *)
Lemma safe_system t g :
  known g = true →
  safe t (λ g' answer, g' = g ∧ match answer with Ok y => y_condition y = CFaulted | Err _ => True end) g
    (system_record (X := SupervisorEnv) (A := Supervision)).
Proof.
  intros Hk e w gs [He _] Hg Hw. rewrite He. exists g. rewrite list_insert_id by done. cbn.
  split; [by destruct w|]. split; [done|]. destruct Hw as (S & Hc & _). apply convicted_system; [apply S|by eapply Hc].
Qed.
Lemma safe_undisturbing {A B} t Q g (f : Env → World → B * World) (k : B → Program A) :
  (∀ e w, calm w (f e w).2) → (∀ b, safe t Q g (k b)) → safe t Q g (Then f k).
Proof.
  intros Hf Hk e w gs _ Hg Hw. exists g. rewrite list_insert_id by done. split; [|apply Hk]. by eapply calm_holds.
Qed.
Lemma safe_update {A} t Q g (f : Supervision → Supervision) (k : unit → Program A) :
  (∀ s : Supervision, feed_permitted (watchdog s) = false → feed_permitted (watchdog (f s)) = false) →
  (∀ s : Supervision, effects (f s) = effects s) → safe t Q g (k tt) → safe t Q g (Then (update f) k).
Proof.
  intros Hf He Hk. apply safe_undisturbing; [|by intros []]. intros e w. split; [by split|]. split; [apply Hf|].
  unfold fed. cbn. by rewrite He.
Qed.
Definition shut (g : Knowledge) : Knowledge := mkKnowledge (known g) true.
(** A step that closes the gate. *)
Lemma safe_shut {A} t Q g (f : Supervision → Supervision) (k : unit → Program A) :
  (∀ s : Supervision, feed_permitted (watchdog (f s)) = false) → (∀ s : Supervision, effects (f s) = effects s) →
  safe t Q (shut g) (k tt) → safe t Q g (Then (update f) k).
Proof.
  intros Hf He Hk e w gs _ Hg (H1 & H2 & H3 & H4). exists (shut g). split; [|done]. split_and!.
  - done.
  - intros u x Hu Hx. destruct (decide (u = t)) as [->|Hne]; [|rewrite list_lookup_insert_ne in Hu by done; by eapply H2].
    rewrite list_lookup_insert_eq in Hu by (by eapply lookup_lt_Some). injection Hu as <-. by eapply H2.
  - intros u x Hu Hx. cbn. apply Hf.
  - unfold fed in *. cbn. by rewrite He.
Qed.
Lemma safe_feed t g time : closed g = true → safe t (λ g' _, g' = g) g (feed_watchdog time).
Proof.
  intros Hc. unfold feed_watchdog. destruct (negb watchdog_configured); [done|].
  intros e w gs _ Hg Hw. exists g. rewrite list_insert_id by done. split; [by destruct w|].
  destruct Hw as (_ & _ & Hclosed & _). cbn. rewrite (Hclosed _ _ Hg Hc). by apply safe_update.
Qed.
Context (Hself : service_subject ≠ i0).
Lemma safe_cycle t fuel g time : safe t (λ _ _, True) g (cycle fuel time).
Proof.
  unfold cycle. apply safe_undisturbing; [intros; apply calm_same|]. intros [status|]; [done|].
  apply safe_update; [done..|]. apply safe_bind. eapply safe_mono; [|apply safe_refresh]. intros g1 [u|error] [_ Hk].
  2:{ by apply safe_update. }
  apply safe_bind. eapply safe_mono; [|by apply safe_system]. intros g2 health_state [-> Hy].
  apply safe_update; [done..|]. apply safe_undisturbing; [intros e []; apply calm_same|]. intros copies.
  apply safe_calmly; [apply calm_rules|]. intros x1. apply safe_calmly; [apply calm_rules|]. intros x.
  apply safe_shut; [|done|].
  { intros s. cbn. destruct health_state as [y|]; [|by rewrite andb_false_r]. unfold acceptable. by rewrite Hy, andb_false_r. }
  apply safe_bind. eapply safe_mono; [|by apply safe_feed]. intros g3 _ ->.
  apply safe_undisturbing; [intros; apply calm_same|]. intros clock. apply safe_update; [done..|].
  apply safe_calmly; [|done]. apply calm_health. by apply (stays_progress _ _ _ undisturbed_permits).
Qed.
Lemma safe_run t fuel g : safe t (λ _ _, True) g (run fuel).
Proof.
  revert g. induction fuel as [|fuel IH]; intros g; [done|]. cbn [run].
  apply safe_undisturbing; [intros; apply calm_same|]. intros stopping. destruct stopping; [done|].
  apply safe_undisturbing; [intros e []; apply calm_same|]. intros callback. destruct callback; [cbn [negb]|done].
  apply safe_undisturbing; [intros; apply calm_same|]. intros time. apply safe_bind. eapply safe_mono; [|apply safe_cycle].
  intros g' [u|error] _; [|done]. apply safe_undisturbing.
  - intros e w. unfold wait_wake. destruct (wake (health w)); [|apply calm_same]. apply calm_rest. split; [|done].
    by apply (pm_neutral _ _ _ undisturbed_permits).
  - intros [status|]; [done|apply IH].
Qed.
(** What clients may do: anything but observe for the monitor or make progress
    for the component. *)
Definition bystander (o : HealthOp) : Prop :=
  match o with Refresh _ => True | _ => touches (λ m, m ≠ m0) (λ i, i ≠ i0) o end.
Lemma safe_health_client t ops g : Forall bystander ops → safe t (λ _ _, True) g (health_thread (X := SupervisorEnv) (A := Supervision) ops).
Proof.
  intros Hops. revert g. induction Hops as [|o ops Ho _ IH]; intros g; [done|]. cbn [health_thread]. apply safe_bind.
  eapply safe_mono with (Q := λ _ _, True); [intros g' [] _; apply IH|].
  assert (Hcalm : touches (λ m, m ≠ m0) (λ i, i ≠ i0) o → safe t (λ _ _, True) g (health_op (X := SupervisorEnv) (A := Supervision) o)).
  { intros Ht. eapply safe_mono; [|apply safe_done_calm, calm_health, (stays_op _ _ _ _ undisturbed_permits Ht)]. done. }
  destruct o; try (by apply Hcalm). apply safe_bind. eapply safe_mono; [|apply safe_refresh]. done.
Qed.

(** What the threads beside the supervisor may do. *)
Definition beside (th : SupervisorThread) : Prop := match th with HealthClient ops => Forall bystander ops | _ => True end.
Lemma safe_supervisor_thread t th g : beside th → safe t (λ _ _, True) g (supervisor_thread th).
Proof.
  intros Hth. destruct th as [fuel|ops| |]; cbn [supervisor_thread].
  - apply safe_bind. eapply safe_mono; [|apply safe_run]. done.
  - by apply safe_health_client.
  - eapply safe_mono; [|apply safe_done_calm, calm_start]. done.
  - eapply safe_mono; [|apply safe_done_calm, calm_stop]. done.
Qed.
End Starving.

Section Watchdog.
Context `{HealthConfig} {W : Errno} `{SupervisorPolicy}.

(** C30: a required monitor of progress watches a component that is due: its
    last progress is two periods ago, or it has made none since the first
    refresh, a period and the grace ago.  Another period later, and as long as
    the component makes no progress and nobody observes for that monitor but
    the refresh, the watchdog is not fed, whatever else the supervisor, its
    starting and stopping and clients of the health facility do, in any
    interleaving, and whatever the policy. *)
Theorem stalled_component_starves_watchdog m0 c0 f0 (ths : list SupervisorThread) sch (w w' : World Supervision) progs :
  monitor_kind m0 = MProgress → monitor_required m0 = true → 0 < monitor_period m0 → (m0 < monitor_count)%nat →
  (monitor_subject m0 < subject_count)%nat → Z.of_nat subject_count < 2 ^ 32 → service_subject ≠ monitor_subject m0 →
  0 ≤ due m0 c0 f0 → stalls m0 c0 f0 (health w) → Forall (beside m0) ths → Forall (λ te, late m0 c0 f0 te.2) sch →
  Interleave.run sch (w, supervisor_thread <$> ths) = (w', progs) →
  fed w' = fed w.
Proof.
  intros Hkind Hreq Hperiod Hm0 Hi0 Hcount Hself Hdue Hstalls Hths Hsch Hrun.
  destruct (all_safe_run (holds m0 c0 f0 (fed w)) (late m0 c0 f0) (λ _ _ _, True) sch (w, supervisor_thread <$> ths)) as (gs & Hw & _); [done| |].
  - exists (replicate (length ths) ignorant). split; [|split; [by cbn [snd]; rewrite length_replicate, length_fmap|]].
    + split_and!; [done|..|done]; intros t g Hg; by apply lookup_replicate in Hg as [-> _].
    + intros t p Ht. cbn [snd] in Ht. rewrite list_lookup_fmap in Ht. destruct (ths !! t) as [th|] eqn:Hth; [|done]. injection Ht as <-.
      exists ignorant. split; [apply lookup_replicate; split; [done|by eapply lookup_lt_Some]|].
      eapply Forall_lookup_1 in Hths; [|done]. by apply safe_supervisor_thread.
  - rewrite Hrun in Hw. apply Hw.
Qed.
End Watchdog.
End Supervision_properties.
