(* ===== verification/SupervisorExamples.v ===== *)
(** * SupervisorExamples: health and the supervisor at concrete inputs

    A system of two components, of which the second is the supervisor; the
    witnesses of the theorems on health and the supervisor, and the runs in
    which a response withholds the feed for one cycle only, a deferred response
    is never made, old advisory evidence starves the watchdog, a query loses
    that a component is latched, evidence is attributed to its component and
    an overrunning cycle feeds the watchdog. *)
From stdpp Require Import prelude functions.
From S2P Require Import Prelude Status Lifecycle Interleave Health HealthProps Supervisor SupervisorProps SupervisorCycle.
Import Healths HealthProperties Supervisors Supervision_properties Supervision_cycle.

Open Scope Z_scope.
Open Scope solar_scope.

Module SupervisionExamples.

(** Component 0 works, component 1 is the supervisor.  Monitor 0 expects the
    progress of component 0 every ten ticks; with [advised], monitor 1 holds
    advisory signals about it that expire after five. *)
Definition plant (advised : bool) : HealthConfig := {|
  subject_count := 2; monitor_count := if advised then 2%nat else 1%nat; category _ := Facility; assess_period _ := None;
  remote_subject := None; monitor_subject _ := 0%nat; monitor_kind m := match m with O => MProgress | _ => MSignal end;
  monitor_period m := match m with O => 10 | _ => 0 end; monitor_stale_after m := match m with O => 0 | _ => 5 end;
  monitor_margin _ := 0; monitor_required m := match m with O => true | _ => false end; history_depth := 4; ingress_depth := 2;
  default_stale := 1000; progress_grace := 5 |}.
#[export] Instance strict : HealthConfig := plant false.
Definition policy (rules : list Rule) (responses : Z) : SupervisorPolicy := {|
  policy_rules := rules; watchdog_configured := true; max_responses := responses; response_depth := 4; recovery_attempts := 3;
  recovery_cooldown := 20; cycle_deadline := 50; service_subject := 1 |}.
Definition recovery : Rule := mkRule OnFault 0 [Warn; TryRecover 0].
#[export] Instance recovering_policy : SupervisorPolicy := policy [recovery] 4.

Definition unsupported {A} : result ForeignError A := Err (StatusError SNotSupported).
Definition actions : SupervisorEnv :=
  mkSupervisorEnv (λ _, Err SError) (λ _, Ok tt) (λ _, Ok tt) (Ok tt) (Ok tt) (Ok tt) None false None.
Definition at_time (t : Z) : Env SupervisorEnv :=
  mkEnv t false (λ _, Ok (CRunning, SOk)) (λ _, mkServiceFacts false false false false true SOk false)
    (λ _, mkExecutorFacts false false false true false true SOk false) (mkRemoteFacts true true 0 []) (λ _, unsupported)
    (λ _, unsupported) (λ _, unsupported) actions.
Definition idle : Supervision :=
  mkSupervision new_state (new_watchdog true) (λ _, new_rule) (λ _, no_response) 1 0 false false false (λ _, new_supervised) true [].
(** Component 0 has made progress at 100. *)
Definition working `{HealthConfig} : World Supervision :=
  mkWorld (new_storage <| progress_cells := λ _, mkProgress 1 100 |>) idle.
Definition says (c : Condition) : Assessment := no_assessment <| condition := c |> <| liveness := LLive |>.
Definition in_turns (t : Z) (n th : nat) : list (nat * Env SupervisorEnv) := replicate n (th, at_time t).

(** ** The records of health *)
Definition reporters : list (list HealthOp) := [[Advance 0; Report 0 (says CNominal) QDirect]; [Refresh 3; Refresh 3]].
Definition reporting : list (nat * Env SupervisorEnv) :=
  in_turns 110 3 0 ++ in_turns 111 9 1 ++ in_turns 112 20 0 ++ in_turns 140 40 1.
Definition reported := Interleave.run reporting (working, health_thread <$> reporters).
Lemma reports_ran : Interleave.run reporting (working, health_thread <$> reporters) = (reported.1, reported.2).
Proof. unfold reported. apply surjective_pairing. Qed.

(** At the last refresh the component says it is well and has made no progress
    for thirty ticks. *)
Lemma records_follow_evidence_witness :
  s_condition (subjects (health reported.1) 0) = CFaulted ∧ y_condition (system (health reported.1)) = CFaulted
  ∧ (y_condition (system (health reported.1)) = CFaulted
     ↔ ∃ i, (i < 2)%nat ∧ s_condition (subjects (health reported.1) i) = CFaulted).
Proof.
  split; [vm_compute; reflexivity|]. split; [vm_compute; reflexivity|].
  assert (Hold : coherent (health working)) by exact new_coherent.
  assert (Hcount : Z.of_nat subject_count < 2 ^ 32) by (vm_compute; reflexivity).
  destruct (records_follow_evidence reporters reporting working reported.1 reported.2 Hold Hcount reports_ran) as [_ Hsystem].
  refine (proj1 (Hsystem _)). intros Hnew. apply (f_equal y_generation) in Hnew. vm_compute in Hnew. discriminate.
Defined.

(** ** A component without progress *)
Definition beside_it : list SupervisorThread := [SupervisorService 5; HealthClient [Report 0 (says CNominal) QDirect; Refresh 2]; Starter].
Definition stalling : list (nat * Env SupervisorEnv) :=
  in_turns 131 12 0 ++ in_turns 131 4 1 ++ in_turns 131 4 2 ++ in_turns 132 40 0 ++ in_turns 140 20 1 ++ in_turns 160 60 0.
Definition stalled := Interleave.run stalling (working, supervisor_thread <$> beside_it).
Lemma stall_ran : Interleave.run stalling (working, supervisor_thread <$> beside_it) = (stalled.1, stalled.2).
Proof. unfold stalled. apply surjective_pairing. Qed.
Definition last_progress : ProgressState := mkProgress 1 100.
Lemma working_stalls : stalls 0 last_progress 0 (health working).
Proof. split; [exact new_coherent|reflexivity|discriminate|done..]. Qed.
(** So stalls a component that has made no progress since the first refresh at
    100: it is due a period and the grace later. *)
Definition silent : World Supervision := mkWorld (new_storage <| first_refresh := 100 |>) idle.
Lemma silent_stalls : stalls 0 (mkProgress 0 0) 100 (health silent) ∧ due 0 (mkProgress 0 0) 100 = 115.
Proof. split; [|reflexivity]. split; [exact new_coherent|reflexivity|by intros _|done..]. Qed.
Lemma stalling_late : Forall (λ te, late 0 last_progress 0 te.2) stalling.
Proof.
  assert (Hturns : ∀ t n th, 130 < t → Forall (λ te : nat * Env SupervisorEnv, late 0 last_progress 0 te.2) (in_turns t n th)).
  { intros t n th Ht. apply Forall_replicate. by split. }
  unfold stalling. repeat apply Forall_app_2; by apply Hturns.
Qed.

(** The component reports that it is well all the same. *)
Lemma stalled_component_starves_watchdog_witness :
  cycles (state (rest stalled.1)) = 3 ∧ withheld (watchdog (rest stalled.1)) = 3
  ∧ effects (rest stalled.1) = [ProviderStarted; Recovered 0; Recovered 0] ∧ fed stalled.1 = fed working.
Proof.
  split; [vm_compute; reflexivity|]. split; [vm_compute; reflexivity|]. split; [vm_compute; reflexivity|].
  apply (stalled_component_starves_watchdog 0 last_progress 0 beside_it stalling working stalled.1 stalled.2).
  - reflexivity.
  - reflexivity.
  - vm_compute. reflexivity.
  - apply le_n.
  - apply le_S, le_n.
  - vm_compute. reflexivity.
  - discriminate.
  - vm_compute. discriminate.
  - exact working_stalls.
  - repeat constructor.
  - exact stalling_late.
  - exact stall_ran.
Defined.

(** ** Cycles *)

(** Cycles at the given times, and before each a report on component 0. *)
Definition cycle_at (P : SupervisorPolicy) (C : HealthConfig) (visit : Z * Condition) (w : World Supervision) : option (World Supervision) :=
  let '(t, c) := visit in
  alone (at_time t) (_ ⇇ progress 0; report 0 (says c) QDirect)%prog w ≫= λ '(_, w),
  alone (at_time t) (cycle (H0 := P) 8 t) w ≫= λ '(answer, w),
  match answer with Ok _ => Some w | Err _ => None end.
Definition cycles_at (P : SupervisorPolicy) (C : HealthConfig) (w : World Supervision) (visits : list (Z * Condition)) :
    option (World Supervision) :=
  foldl (λ w visit, w ≫= cycle_at P C visit) (Some w) visits.
Definition present {A} (o : option A) : bool := match o with Some _ => true | None => false end.
Lemma presented {A} (o : option A) d : present o = true → o = Some (default d o).
Proof. by destruct o. Qed.

(** ** What a cycle does *)
Definition retreat : Rule := mkRule OnDegraded 0 [Warn; EnterSafeState 3].
Definition retreating : SupervisorPolicy := policy [retreat] 2.
Definition degraded : World Supervision :=
  default working (snd <$> alone (at_time 105) (report 0 (says CDegraded) QDirect) working).
Definition retreated : World Supervision := default working (snd <$> alone (at_time 106) (cycle (H0 := retreating) 8 106) degraded).
Lemma retreat_ran : alone (at_time 106) (cycle (H0 := retreating) 8 106) degraded = Some (Ok tt, retreated).
Proof.
  assert (Hok : match alone (at_time 106) (cycle (H0 := retreating) 8 106) degraded with Some (Ok _, _) => true | _ => false end = true)
    by (vm_compute; reflexivity).
  unfold retreated. by destruct (alone _ _ degraded) as [[[[]|error] w']|].
Qed.
(** Both responses are made, and recorded, and the watchdog is fed. *)
Lemma cycle_outcome_witness :
  effects (rest retreated) = [Entered 3; Fed] ∧ next_sequence (rest retreated) = 3
  ∧ is_Some (alone (at_time 106) (cycle (H0 := retreating) 8 106) degraded)
  ∧ ∃ attempts, retreat ∈ attempts.*1
    ∧ effects (rest retreated)
      = effects (rest degraded) ++ omap (λ m, effect_of (md_response m)) (take 2 (asked_by attempts))
        ++ (if feed_permitted (watchdog (rest retreated)) then [Fed] else []).
Proof.
  split; [vm_compute; reflexivity|]. split; [vm_compute; reflexivity|].
  assert (Hmax : 0 ≤ max_responses (SupervisorPolicy := retreating) < 2 ^ 32) by (vm_compute; split; [discriminate|reflexivity]).
  destruct (cycle_outcome (H0 := retreating) Hmax (at_time 106) 8 106 degraded) as [Hreturns Houtcome]. split.
  - apply Hreturns.
    + apply Forall_singleton. cbn. intros Hin. apply list_elem_of_In in Hin as [Hin|[Hin|[]]]; discriminate.
    + apply Nat.ltb_lt. vm_compute. reflexivity.
  - destruct (Houtcome (Ok tt) retreated retreat_ran) as (attempts & _ & Hall & Heffects & _).
    exists attempts. split; [|exact Heffects]. apply Hall; [|vm_compute; reflexivity..]. apply list_elem_of_here.
Defined.

(** ** The attempts of a rule *)
Definition broken : World Supervision := working <| health ::= (λ s, s <| subjects := λ _, new_subject <| s_condition := CFaulted |> |>) |>.
Definition no_responses : Local := mkLocal 0 (λ _, false) (λ _, new_supervised).
Definition evaluated (t : Z) (w : World Supervision) : option (Local * World Supervision) :=
  alone (at_time t) (evaluate_rule recovery t 1 false no_responses) w.
Definition visited (t : Z) (w : World Supervision) : Visit :=
  let '(x, w') := default (no_responses, w) (evaluated t w) in mkVisit (at_time t) t 1 false no_responses w x w'.
Definition once : Visit := visited 10 broken.
Definition twice : Visit := visited 15 (vi_world' once).
Definition thrice : Visit := visited 30 (vi_world' twice).
Lemma visit_visits t w :
  triggered recovery (subjects (health w) 0) false = true → present (evaluated t w) = true → visits recovery (visited t w).
Proof.
  intros Ht Hp. apply (presented _ (no_responses, w)) in Hp. unfold visited. destruct (default _ _) as [x w'].
  split; [reflexivity|split; discriminate|exact Ht|exact Hp].
Qed.
Lemma recovery_episode : episode recovery new_rule [once; twice; thrice].
Proof.
  split; [apply visit_visits; vm_compute; reflexivity|]. split; [vm_compute; reflexivity|].
  split; [apply visit_visits; vm_compute; reflexivity|]. split; [vm_compute; reflexivity|].
  split; [apply visit_visits; vm_compute; reflexivity|]. split; [vm_compute; reflexivity|done].
Qed.
(** The first and the third visit try to recover the component. *)
Lemma attempts_paced_witness :
  effects (rest (vi_world' thrice)) = [Recovered 0; Recovered 0]
  ∧ times recovery [once; twice; thrice] = [10; 30]
  ∧ Z.of_nat (length (times recovery [once; twice; thrice])) ≤ allowed recovery
  ∧ attempts recovery once = true ∧ Forall (responds recovery) [once; twice; thrice].
Proof.
  split; [vm_compute; reflexivity|]. split; [vm_compute; reflexivity|].
  assert (Hrange : 0 ≤ recovery_attempts < 2 ^ 32) by (vm_compute; split; [discriminate|reflexivity]).
  assert (Hmax : 0 ≤ max_responses < 2 ^ 32) by (vm_compute; split; [discriminate|reflexivity]).
  destruct (attempts_paced recovery Hrange Hmax new_rule [once; twice; thrice] recovery_episode eq_refl eq_refl) as (Hall & Hlen & Hfirst & _).
  split; [exact Hlen|]. split; [exact Hfirst|exact Hall].
Defined.

(** ** Withholding the feed *)

(** The degraded component stays degraded, and the rule that withholds the
    feed stays active: the feed is withheld for one cycle and given from the
    next on. *)
Definition withholding : SupervisorPolicy := policy [mkRule OnDegraded 0 [StopFeedingWatchdog]] 4.
Example feed_withheld_for_one_cycle :
  (λ w, (effects (rest w), withheld (watchdog (rest w)), rule_active (rule_states (rest w) 0))) <$>
  cycles_at withholding strict working [(105, CDegraded); (110, CDegraded); (115, CDegraded)] = Some ([Fed; Fed], 1, true).
Proof. vm_compute. reflexivity. Qed.

(** ** A deferred response *)

(** With a budget of one response, entering the safe state is deferred in the
    cycle of the fault.  The fault stays, and so does the deferral: later
    cycles respond nothing. *)
Definition hurried : SupervisorPolicy := policy [mkRule OnFault 0 [Warn; EnterSafeState 3]] 1.
Example deferred_response_is_never_made :
  (λ w, (effects (rest w), deferred_responses (state (rest w)), next_sequence (rest w))) <$>
  cycles_at hurried strict working [(105, CFaulted); (110, CFaulted); (115, CFaulted); (120, CFaulted)] = Some ([], 1, 2).
Proof. vm_compute. reflexivity. Qed.

(** ** Advisory evidence *)

(** A nominal advisory signal of tick 100, and a component that reports and
    advances: once the signal is more than five ticks old the system is stale
    and the watchdog is not fed any more, its condition nominal all along. *)
Definition signalled `{HealthConfig} : World Supervision :=
  default working (snd <$> alone (at_time 100) (commit_monitor 1 (mkObservation (says CNominal) QDirect AAvailable 100 0 false false)) working).
Definition quiet : SupervisorPolicy := policy [] 4.
Example old_advice_starves_the_watchdog :
  (λ w, (effects (rest w), y_condition (system (health w)), y_freshness (system (health w)))) <$>
  cycles_at quiet (plant true) (signalled (H := plant true)) [(105, CNominal); (106, CNominal)] = Some ([Fed], CNominal, FStale).
Proof. vm_compute. reflexivity. Qed.

(** ** What a query says *)

(** The first rule latches the degraded component; when the second responds to
    its fault, the query says that the component is not latched. *)
Definition latching : SupervisorPolicy := policy [mkRule OnDegraded 0 [Latch]; mkRule OnFault 0 [Warn]] 4.
Definition asked (w : World Supervision) : option (bool * bool) :=
  alone (at_time 115) (copy_subject (H0 := latching) 0) w ≫= λ '(answer, _),
  match answer with Ok x => Some (su_latched x, su_latched (supervised (rest w) 0)) | Err _ => None end.
Example latched_component_is_said_not_to_be :
  (cycles_at latching strict working [(105, CDegraded)] ≫= asked) = Some (true, true)
  ∧ (cycles_at latching strict working [(105, CDegraded); (110, CFaulted)] ≫= asked) = Some (false, true).
Proof. vm_compute. auto. Qed.

(** ** Where evidence comes from *)

(** The fault that the monitor of progress found is attributed to a report of
    the component itself. *)
Example monitor_is_called_a_self_report :
  (λ w, (s_condition (subjects (health w) 0), s_primary (subjects (health w) 0))) <$>
  (snd <$> alone (at_time 140) (refresh 3) working)
  = Some (CFaulted, Some (mkEvidenceRef QInferred 0 (Some 0%nat) KSelfReport 0)).
Proof. vm_compute. reflexivity. Qed.

(** ** An overrun *)

(** A cycle that began at tick 100 and is at tick 200 past its deadline feeds
    the watchdog all the same, and counts the overrun afterwards. *)
Example overrunning_cycle_feeds :
  (λ '(_, w), (effects (rest w), overruns (state (rest w)))) <$>
  alone (at_time 200) (_ ⇇ progress 0; cycle (H0 := quiet) 8 100)%prog working = Some ([Fed], 1).
Proof. vm_compute. reflexivity. Qed.
End SupervisionExamples.
